(* ===== verification/_CoqProject ===== *)
-Q . S2P
Prelude.v
Token.v
Lexer.v
LexerFacts.v
Ast.v
ParserMonad.v
Grammar.v
GrammarFacts.v
Cte.v
Format.v
Statements.v
ParserProps.v
Unparse.v
RoundTrip.v
SetOps.v
Bytes.v
RowCodec.v
RowCodecFacts.v
RowLock.v
RowLockFacts.v
Notify.v
Wire.v
KVClient.v
TestKV.v
WireFacts.v
KVStore.v
KVRefine.v
KVScan.v
Pool.v
Float.v
Values.v
Schema.v
UniqueCache.v
ForeignKey.v
TableCache.v
Storage.v
Table.v
SessionState.v
SchemaTx.v
Session.v
AlterTable.v
Commit.v
Sample.v
StorageFacts.v
CommitProps.v
SessionFacts.v
SessionView.v
TableProps.v
ExecTx.v
ExecTxFacts.v
ExecValue.v
Arrays.v
ExprTypes.v
Operators.v
Eval.v
Aggregates.v
Sorting.v
Joins.v
Select.v
TableReads.v
CrossJoin.v
TableSelect.v
ArrayFacts.v
OperatorFacts.v
EvalFacts.v
AggregateFacts.v
JoinFacts.v
SortingFacts.v
TypeFacts.v
SelectFacts.v
PlanFacts.v
CrossJoinFacts.v
FromListFacts.v
TableSelectFacts.v
RowLockLive.v
Dml.v
DmlFacts.v
Analyzer.v
CatalogSync.v
AnalyzerFacts.v
