(* ===== verification/Prelude.v ===== *)
(** * PizzaSQL: a verification library of the SQL front end, the query evaluator and the storage core

    PizzaSQL is a SQL database in Go.  A statement is cut into tokens (pkg/lexer), parsed into a syntax
    tree (pkg/parser), analyzed (pkg/analyzer), executed (pkg/executor) against sessions and tables (pkg/storage), and stored in
    a key-value server behind a binary protocol (pkg/storage/kv.go).  This library models the front end,
    the evaluation of expressions and queries, and the storage core as executable functions, and proves
    what makes them correct.

    ** The files

    Front end.
    - Token, Lexer: pkg/lexer.  [NextToken] on a state with position, line and column; [Tokenize].
      LexerFacts holds its invariant, its termination, and the literals it reads back.
    - Ast, ParserMonad, Grammar, Statements, Cte: pkg/parser/ast.go, parser.go, cte.go.  Each parse
      function is one definition in an error monad over the two-token window.  The token source is a
      class, so the grammar is proved against its interface and used with the lexer.  Cte threads a store
      of queries, because references to a common table expression share one.  GrammarFacts and
      ParserProps prove that parsing ends.
    - Format: pkg/parser/format.go.  Unparse and RoundTrip: a reference unparser on tokens and the proof
      that the parser reads it back; SetOps: precedence of UNION, EXCEPT and INTERSECT.

    Analyzer.
    - Analyzer: types.go, scope.go and analyzer.go of pkg/analyzer.  Types, signatures of functions, scopes, the
      catalogue; the analysis of expressions, queries and statements, in an error monad on the catalogue and
      the scope.  AnalyzerFacts holds its theorems.
    - CatalogSync: the catalogue of an executor, brought up to date from its session, the virtual relations of
      pg_catalog.go, and the second try of a statement that misses a table.

    Storage protocol.
    - Bytes, RowCodec: rowcodec.go.  Wire, KVClient: frames, requests and responses of kv.go.  Pool: the
      connection pool of kv.go with its threads interleaved.  TestKV: the server of pkg/testkv.  KVStore:
      the store that a server holds, as one map with a clock.  WireFacts, KVRefine and KVScan
      prove that the client against the server is that store, and that no answer stops the client.

    Storage core.  [Storage.World] is what sessions share: the store of KVStore, the schema manager, the
    table manager, the row locks, the clock.
    - Float, Values: the numbers of strconv and the texts of values that keys are made of.
    - Schema, Storage, AlterTable: schema.go and constraints.go.  Catalogue records, the catalogue in the
      store with its caches, row ids, and ALTER TABLE with its paged rewrites.
    - UniqueCache, TableCache: unique_cache.go and cache_commit.go, and the derived state of table.go.
    - ForeignKey: foreign_key.go.  The graph of the constraints and the validation of a state.
    - Table: table.go.  The autocommit operations on rows.
    - RowLock: rowlock.go with its heap of entries.  Notify: notify.go.
    - SessionState, SchemaTx, Session, Commit: tx.go, schema_tx.go, foreign_key_cascade.go.  The staged rows
      and their log, the staged catalogue, reads and writes of a transaction, its commit.
    - ExecTx: BEGIN, COMMIT, ROLLBACK, savepoints, LISTEN, UNLISTEN, NOTIFY and SET of pkg/executor, on a state
      of the executor, the session, the world and the hub; the atomic boundary of the other statements.
    - Sample: a small database that examples, witnesses and findings are evaluated on.

    Query evaluator, pkg/executor.
    - ExecValue: the dynamic values of an expression, their conversions and [compare]; the monad [ev] of
      results, errors and panics that the evaluator runs in.  Operators: the operators on values, LIKE, GLOB,
      SUBSTR; the class [Builtins] of the functions that are not in the model.
    - Arrays: arrays.go.  ExprTypes: result_types.go.  Eval: [evalExpr] with everything it calls.
    - Aggregates: aggregates and both forms of GROUP BY.  Sorting: ORDER BY, LIMIT and DISTINCT.  Joins: the
      two ways to join and the chain of joins.  Select: SELECT without FROM and over results, the set operations.
    - TableReads, CrossJoin, TableSelect: SELECT over tables.  What is read off a WHERE clause before the scan;
      the reads of a session, a class [TableReads]; the plan of a FROM list and its joins; the branch
      of [executeSelect] for tables, with its lookups by key and by index, its scans that filter while they
      read and stop early, its locks, joins, groups, order and projection.
    - Dml: the statements that change rows.  First what a schema stores as SQL text, of indexexpr.go, checks.go,
      ddl_defaults.go and generated.go: CHECK predicates, index expressions, generated columns and defaults; then
      [executeInsert] with its conflict clauses, [executeUpdate], UPDATE ... FROM, [executeDelete], RETURNING of
      returning.go, the counters, and the boundary that [Execute] puts around each ([execute_dml]).
    - ArrayFacts, OperatorFacts, EvalFacts, AggregateFacts, SortingFacts, JoinFacts, TypeFacts, SelectFacts,
      PlanFacts, CrossJoinFacts, FromListFacts, TableSelectFacts and DmlFacts hold the theorems.

    An operation of the table manager is a function on the world ([M]), one of a session a function on the
    session and the world ([SM]); both return a value, an error, or [Panic].  Names follow the code; where a
    session and a manager have a method of the same name, the one of the session has the suffix [_s].

    ** What the theorems show

    - Commits (CommitProps): a commit publishes one batch or nothing, only if no key it read has changed,
      and reports the truth unless the connection fails; the batch holds exactly the staged rows.
    - Transactions (SessionView, SessionFacts): reads, scans and inserts are operations of one map, the
      durable rows under the staged ones; a failed statement and a rollback restore the staged rows.
    - Connections (ExecTxFacts): what a connection stages is what a reference with whole copies stages, a
      commit performs exactly that and a rollback none of it (for a transaction that BEGIN opens), and what runs in the boundary of a statement and
      fails leaves no trace.
    - Statements that change rows (DmlFacts): an INSERT, UPDATE or DELETE that fails leaves no trace, in a
      transaction whatever its form, outside when it has a boundary of its own.
    - Constraints (UniqueCache, ForeignKey): the incremental check of UNIQUE fails exactly when the rows
      after the write would repeat a value, and keeps its caches exact; the validation of foreign keys
      accepts exactly the states in which every reference has its parent, by the texts of the values; the
      closure of the constrained tables is their connected component.
    - Tables (TableProps): a point write is one operation on one key or none, keys tell rows apart, generated
      row ids are fresh while the allocators are above the stored ids (a rename can break that), and the chunks
      of a bulk write fit the protocol.
    - Locks (RowLockFacts, RowLockLive): exclusion, exact grants and deadlock detection, and the schedules that
      break them; a session that waits and owns nothing of the entry it waits on is queued while another
      session owns the entry, or runs - one that upgrades its own shared lock may wait on alone.
    - Expressions (EvalFacts, OperatorFacts): the only panics; three-valued logic, IN and BETWEEN
      as their definitions; exact comparison of small integers; exact shifts; LIKE and GLOB as relations.
    - Types (TypeFacts): a value is carried as the inferred type of its expression says.
    - Arrays (ArrayFacts): array text is read back, canonical text is stable, ANY and ALL are the disjunction
      and the conjunction of the comparisons.
    - Queries (AggregateFacts, JoinFacts, SortingFacts, SelectFacts): the accumulators of GROUP BY compute what
      the aggregates over collected rows compute; the hash join and the join by primary key give the rows of
      the nested loop; the bounded heap gives the first rows of the sorted order; the set operations are those
      of sets of keys, in which NULL is one of the texts.  The rows of a FROM list are those of the product of its
      tables that pass WHERE, in another order, where WHERE holds no subquery (PlanFacts, CrossJoinFacts,
      FromListFacts); a lookup by key, by index or a bounded scan of one table gives the rows that a filter of
      the whole table gives, where equal values have equal texts (TableSelectFacts).  Each is stated with the
      conditions that the code needs, and runs show what happens without them.
    - Protocol (WireFacts, KVRefine, KVScan, Pool) and codec (RowCodecFacts): round trips,
      refinement of the store, absence of panics, slots of the pool.
    - Notifications (Notify): delivery, order and consistency of the registry.
    - Analysis (AnalyzerFacts, CatalogSync): the columns that an accepted query over one table reads are in its rows;
      the analyzer and the executor agree on what an aggregate is, LIKE apart; an analysis ends and changes the
      catalogue in DROP TABLE only; a synchronized catalogue has exactly the tables that the session sees and the
      virtual relations.
    - Front end (LexerFacts, ParserProps, RoundTrip, SetOps): termination on every input, round trips,
      precedence.
    - The theorems at the end of SessionView, ExecTxFacts, DmlFacts, RowLockFacts, Notify, Pool, AnalyzerFacts and of
      the files of facts on the evaluator: runs in which the code does not do what it means to.

    ** Conventions, bounds and fuel

    - Strings are byte strings; machine integers are [Z] or [N] with their wrap-around written out; floats are
      the [spec_float] of the Standard Library, with the rounding of the format they are stored in.
    - A Go map that the code ranges over is ranged over in the order of [map_to_list]; the results that
      depend on no order are stated up to permutation.  A sort ([sort_slice] for sort.Slice) keeps equal keys
      in their order, and the theorems on it are about keys that compare as an order.
    - The parser is unrolled to the number of tokens left, the lexer's loops to the number of bytes left,
      the closure of a graph to the number of its edges, the cycle walk to the number of sessions; the
      theorems show each of these to be enough.  The recursion into a shared query of a common table
      expression has no such bound, because it may not end in the code.  The depth of referential actions
      is a parameter of the operations that trigger them; when it is used up the operation is [Panic],
      and the theorems are about runs that return.
    - The evaluator is structural on expressions.  The scan of array text has its length as fuel, GLOB the
      length of the pattern, a move in the heap its size; a shift turns around at most twice, except for the
      count that is its own negation, which is a panic.
    - The analyzer is structural on a statement; it follows references to shared queries to a depth that is a
      parameter ([at_depth]), which is enough when it is above the ranks of the queries in an order in which
      each refers to smaller ones only ([analysis_ends]).
    - The gates that serialise the operations on a table, the gate of the foreign keys and the lock of a
      session are why an operation on the world is one step.  What is not under a gate is modelled step by
      step: row locks, the connection pool, the hub of the notifications.
    - A request to the store may be lost, or its answer may be: the list [faults] of the world says which.

    ** Parameters

    - The JSON form of catalogue records and of rows outside the binary encoding ([Json], [Dynamic]), the
      network, the clock, the evaluators of CHECK, DEFAULT and index expressions ([Evaluators]).  The
      theorems hold for any instance; Sample gives one.
    - Values of other dynamic types ([Foreign]); the JSON, date and catalogue functions, fmt.Sprintf, random
      numbers, the clock, and the run of a subquery ([Builtins]; theorems that need them to return assume
      [builtins_return]); the relations of a join ([Relations]); what a
      session reads of its tables ([TableReads], which Table and Session model on their side); the SELECTs that
      rest on views, common table expressions, catalogue and table functions and window functions ([Tables]); the
      SELECT that an INSERT or a FROM list runs on its session ([query] of Dml; DmlFacts assumes that it changes
      neither the store, nor the staged rows and their log, nor the transaction).  [no_builtins], [no_relations] and [no_tables] are
      instances, and the witnesses use others.

    ** Not modelled

    - Recursive common table expressions, views, window functions, table functions and the catalogue relations in
      FROM; the statements that change tables, EXPLAIN and PRAGMA, beyond their boundary in ExecTx.
    - That a condition may run a query in the middle of a scan: the subqueries of a statement are those of one
      instance of [Builtins], which the code evaluates before it scans ([primeSubqueries]).
    - The snapshot of the catalogue that a SELECT takes, and the guard that keeps a scan under FOR UPDATE.
    - The caches of the evaluator (subqueries, parsed arrays), which change no result; JSON and date functions,
      which rest on encoding/json and time.
    - The rows of the virtual relations.  The servers for the PostgreSQL protocol and for HTTP, import and export, processes and flags.
    - Timeouts, retries and health checks of connections; the wait of a row lock for its deadline beyond the
      steps of RowLock; the table of databases (db_manager.go).
    - Unicode case mapping beyond the runes that map to ASCII letters. *)
From Stdlib Require Import Ascii String List Bool Arith Lia ZArith.
Import ListNotations.

(** ** Bytes and strings

    A Go [string] is a sequence of bytes; the development uses [String.string], whose
    characters are the 8-bit values of [Ascii.ascii]. *)

Declare Scope go_scope.
Delimit Scope go_scope with go.

(** Byte equality and order, written as the code writes them. *)
Notation "a =b b" := (Ascii.eqb a b) (at level 70, no associativity) : go_scope.
Notation "a =s b" := (String.eqb a b) (at level 70, no associativity) : go_scope.
Notation "a <=b b" := (N.leb (N_of_ascii a) (N_of_ascii b)) (at level 70, no associativity) : go_scope.

Open Scope go_scope.

(** A byte from its value; the bytes the code names by escape. *)
Definition byte (n : N) : ascii := ascii_of_N n.
Definition NUL : ascii := byte 0.
Definition TAB : ascii := byte 9.
Definition LF : ascii := byte 10.
Definition CR : ascii := byte 13.
Definition SQUOTE : ascii := "'"%char.
Definition DQUOTE : ascii := byte 34.
Definition BACKTICK : ascii := "`"%char.

Definition str1 (c : ascii) : string := String c EmptyString.

(** ** Case mapping

    [strings.ToUpper], [strings.ToLower] and [strings.EqualFold].  ASCII letters are mapped
    byte-wise.  The runes outside ASCII that the standard library maps to an ASCII letter are
    written out (U+017F and U+0131 for upper case, U+0130 and U+212A for lower case, U+017F and
    U+212A for folding), so a comparison with an ASCII word is exact; every other non-ASCII rune
    is left as it is. *)
Definition upper_byte (c : ascii) : ascii :=
  if ("a" <=b c) && (c <=b "z") then byte (N_of_ascii c - 32) else c.
Definition lower_byte (c : ascii) : ascii :=
  if ("A" <=b c) && (c <=b "Z") then byte (N_of_ascii c + 32) else c.

Fixpoint ToUpper (s : string) : string :=
  match s with
  | EmptyString => EmptyString
  | String c r =>
      match r with
      | String d r' =>
          if (c =b byte 0xC5) && (d =b byte 0xBF) then String "S" (ToUpper r')
          else if (c =b byte 0xC4) && (d =b byte 0xB1) then String "I" (ToUpper r')
          else String (upper_byte c) (ToUpper r)
      | EmptyString => String (upper_byte c) EmptyString
      end
  end.

Fixpoint ToLower (s : string) : string :=
  match s with
  | EmptyString => EmptyString
  | String c r =>
      match r with
      | String d r' =>
          if (c =b byte 0xC4) && (d =b byte 0xB0) then String "i" (ToLower r')
          else match r' with
               | String e r'' =>
                   if (c =b byte 0xE2) && (d =b byte 0x84) && (e =b byte 0xAA)
                   then String "k" (ToLower r'')
                   else String (lower_byte c) (ToLower r)
               | EmptyString => String (lower_byte c) (ToLower r)
               end
      | EmptyString => String (lower_byte c) EmptyString
      end
  end.

Fixpoint fold_key (s : string) : string :=
  match s with
  | EmptyString => EmptyString
  | String c r =>
      match r with
      | String d r' =>
          if (c =b byte 0xC5) && (d =b byte 0xBF) then String "s" (fold_key r')
          else match r' with
               | String e r'' =>
                   if (c =b byte 0xE2) && (d =b byte 0x84) && (e =b byte 0xAA)
                   then String "k" (fold_key r'')
                   else String (lower_byte c) (fold_key r)
               | EmptyString => String (lower_byte c) (fold_key r)
               end
      | EmptyString => String (lower_byte c) EmptyString
      end
  end.

Definition EqualFold (a b : string) : bool := fold_key a =s fold_key b.

(** [string(c)] for a byte [c]: the conversion reads it as a rune and encodes it in UTF-8. *)
Definition string_of_rune_byte (c : ascii) : string :=
  let n := N_of_ascii c in
  if (n <? 128)%N then str1 c
  else String (byte (0xC0 + n / 64)) (str1 (byte (0x80 + n mod 64))).

(** [strings.ReplaceAll(s, from, to)] for a one-byte [from]. *)
Fixpoint ReplaceAll1 (s : string) (from : ascii) (to_ : string) : string :=
  match s with
  | EmptyString => EmptyString
  | String c r => if c =b from then (to_ ++ ReplaceAll1 r from to_)%string
                  else String c (ReplaceAll1 r from to_)
  end.

(** [fmt.Sprintf] with the verb X on a byte slice: two upper-case hex digits per byte. *)
Definition hex_digit (n : N) : ascii := if (n <? 10)%N then byte (48 + n) else byte (55 + n).
Fixpoint hex_upper (s : string) : string :=
  match s with
  | EmptyString => EmptyString
  | String c r => String (hex_digit (N_of_ascii c / 16))
                    (String (hex_digit (N_of_ascii c mod 16)) (hex_upper r))
  end.

(** [strings.Join]. *)
Definition Join (l : list string) (sep : string) : string := String.concat sep l.

(** Decimal rendering of a non-negative integer ([%d]). *)
Fixpoint decimal_digits (fuel : nat) (n : N) : string :=
  match fuel with
  | O => EmptyString
  | S k => let q := (n / 10)%N in
           let d := str1 (byte (48 + n mod 10)) in
           if (q =? 0)%N then d else (decimal_digits k q ++ d)%string
  end.
Definition itoa (n : N) : string := decimal_digits (S (N.to_nat (N.log2 n))) n.

(** [s[i:j]] for [i <= j <= len(s)]. *)
Definition slice (s : string) (i j : nat) : string := substring i (j - i) s.

(** [s[i]], the NUL byte past the end (where the code tests the bound first). *)
Definition byte_at (s : string) (i : nat) : ascii :=
  match String.get i s with Some c => c | None => NUL end.

(** Occurrences of a byte. *)
Fixpoint count_byte (c : ascii) (s : string) : nat :=
  match s with
  | EmptyString => 0
  | String d r => (if d =b c then 1 else 0) + count_byte c r
  end.

(** Every byte of a string satisfies a predicate. *)
Fixpoint string_forallb (p : ascii -> bool) (s : string) : bool :=
  match s with
  | EmptyString => true
  | String c r => p c && string_forallb p r
  end.

(** ** Tactics *)

(** Case analysis on the condition of the first [if] of the goal, or of a hypothesis. *)
Ltac case_if :=
  match goal with
  | |- context [if ?b then _ else _] => destruct b eqn:?
  | H : context [if ?b then _ else _] |- _ => destruct b eqn:?
  end.

(** Turn boolean tests into propositions. *)
Ltac bool_hyps :=
  repeat match goal with
  | H : (_ && _)%bool = true |- _ => apply andb_prop in H; destruct H
  | H : (_ || _)%bool = false |- _ => apply orb_false_elim in H; destruct H
  | H : negb _ = true |- _ => apply negb_true_iff in H
  | H : negb _ = false |- _ => apply negb_false_iff in H
  | H : (_ =b _) = true |- _ => apply Ascii.eqb_eq in H
  | H : (_ =b _) = false |- _ => apply Ascii.eqb_neq in H
  | H : (_ =s _) = true |- _ => apply String.eqb_eq in H
  | H : (_ =s _) = false |- _ => apply String.eqb_neq in H
  | H : (_ =? _)%nat = true |- _ => apply Nat.eqb_eq in H
  | H : (_ =? _)%nat = false |- _ => apply Nat.eqb_neq in H
  | H : (_ <=? _)%nat = true |- _ => apply Nat.leb_le in H
  | H : (_ <=? _)%nat = false |- _ => apply Nat.leb_gt in H
  | H : (_ <? _)%nat = true |- _ => apply Nat.ltb_lt in H
  | H : (_ <? _)%nat = false |- _ => apply Nat.ltb_ge in H
  end.

Create Rewrite HintDb gostr.

(** ** Strings as byte sequences *)

Lemma get_None_length (s : string) (i : nat) : String.length s <= i -> String.get i s = None.
Proof.
  revert i; induction s as [|c s IH]; intros i Hi; destruct i; cbn in *; try easy; try lia.
  apply IH; lia.
Qed.

Lemma get_Some_length (s : string) (i : nat) : i < String.length s -> exists c, String.get i s = Some c.
Proof.
  revert i; induction s as [|c s IH]; intros i Hi; cbn in Hi; [lia|].
  destruct i; cbn; [eauto|]. apply IH; lia.
Qed.

Lemma byte_at_end (s : string) (i : nat) : String.length s <= i -> byte_at s i = NUL.
Proof. intros H. unfold byte_at. now rewrite get_None_length. Qed.

Lemma length_append (a b : string) : String.length (a ++ b)%string = String.length a + String.length b.
Proof. induction a; cbn; auto. Qed.

Lemma append_assoc (a b c : string) : ((a ++ b) ++ c = a ++ (b ++ c))%string.
Proof. induction a; cbn; congruence. Qed.

Lemma append_nil_r (a : string) : (a ++ EmptyString = a)%string.
Proof. induction a; cbn; congruence. Qed.

Lemma byte_at_app_r (a b : string) (i : nat) :
  byte_at (a ++ b) (String.length a + i) = byte_at b i.
Proof. unfold byte_at. induction a; cbn; auto. Qed.

Lemma count_byte_app (c : ascii) (a b : string) :
  count_byte c (a ++ b)%string = count_byte c a + count_byte c b.
Proof. induction a; cbn; auto. case_if; lia. Qed.

Lemma string_forallb_app (p : ascii -> bool) (a b : string) :
  string_forallb p (a ++ b)%string = string_forallb p a && string_forallb p b.
Proof. induction a; cbn; [easy|]. now rewrite IHa, andb_assoc. Qed.

Lemma byte_at_forallb (p : ascii -> bool) (s rest : string) (k : nat) :
  string_forallb p s = true -> k < String.length s -> p (byte_at (s ++ rest) k) = true.
Proof.
  revert k; induction s as [|c s IH]; cbn; intros k H Hk; [lia|]. apply andb_prop in H as [Hc Hs].
  destruct k; [exact Hc|]. apply (IH k); [easy|lia].
Qed.

Lemma slice_app (a b c : string) : slice (a ++ (b ++ c)) (String.length a) (String.length a + String.length b) = b.
Proof.
  unfold slice. replace (String.length a + String.length b - String.length a) with (String.length b) by lia.
  induction a; cbn; [|easy]. induction b; cbn; [now destruct c|congruence].
Qed.

#[export] Hint Rewrite length_append append_assoc append_nil_r count_byte_app : gostr.
