(* ===== verification/Token.v ===== *)
(** * Tokens (pkg/lexer/token.go)

    The token types, in the order of the [iota] constants, the keyword table and the token
    record.  A token type is an enumerated type here; [code] gives its integer value, which the
    range tests of [IsKeyword] and [IsOperator] compare. *)
From Stdlib Require Import Ascii String List Bool Arith NArith Lia.
From S2P Require Import Prelude.
Import ListNotations.
Open Scope string_scope.
Open Scope go_scope.

Inductive TokenType : Set :=
  | TokenEOF | TokenError | TokenComment | TokenIdent | TokenNumber | TokenString | TokenBlob
  | TokenPlus | TokenMinus | TokenStar | TokenSlash | TokenPercent | TokenConcat | TokenArrow
  | TokenArrowText | TokenEq | TokenNeq | TokenLt | TokenLte | TokenGt | TokenGte | TokenBitAnd
  | TokenBitOr | TokenBitNot | TokenShiftLeft | TokenShiftRight | TokenHashArrow
  | TokenHashArrowText | TokenHashMinus | TokenAtArrow | TokenAtAt | TokenAtQuestion
  | TokenLtAt | TokenQuestion | TokenQuestionPipe | TokenQuestionAmp | TokenLParen
  | TokenRParen | TokenComma | TokenSemicolon | TokenDot | TokenSELECT | TokenFROM | TokenWHERE
  | TokenAND | TokenOR | TokenNOT | TokenAS | TokenDISTINCT | TokenALL | TokenRETURNING
  | TokenINSERT | TokenINTO | TokenVALUES | TokenUPDATE | TokenSET | TokenDELETE | TokenCREATE
  | TokenDROP | TokenALTER | TokenTABLE | TokenINDEX | TokenVIEW | TokenDATABASE | TokenSCHEMA
  | TokenADD | TokenCOLUMN | TokenRENAME | TokenTO | TokenPRIMARY | TokenKEY | TokenFOREIGN
  | TokenREFERENCES | TokenUNIQUE | TokenCHECK | TokenCONSTRAINT | TokenDEFAULT
  | TokenAUTOINCREMENT | TokenORDER | TokenBY | TokenASC | TokenDESC | TokenLIMIT | TokenOFFSET
  | TokenGROUP | TokenHAVING | TokenJOIN | TokenINNER | TokenLEFT | TokenRIGHT | TokenFULL
  | TokenOUTER | TokenCROSS | TokenNATURAL | TokenON | TokenUSING | TokenUNION | TokenINTERSECT
  | TokenEXCEPT | TokenIN | TokenBETWEEN | TokenLIKE | TokenGLOB | TokenESCAPE | TokenIS
  | TokenNULL | TokenEXISTS | TokenCASE | TokenWHEN | TokenTHEN | TokenELSE | TokenEND
  | TokenCAST | TokenCOALESCE | TokenNULLIF | TokenIF | TokenTRUE | TokenFALSE | TokenINTEGER
  | TokenINT | TokenTINYINT | TokenSMALLINT | TokenMEDIUMINT | TokenBIGINT | TokenREAL
  | TokenFLOAT | TokenDOUBLE | TokenNUMERIC | TokenDECIMAL | TokenTEXT | TokenVARCHAR
  | TokenCHAR | TokenCHARACTER | TokenCLOB | TokenNCHAR | TokenNVARCHAR | TokenBLOB
  | TokenBOOLEAN | TokenDATE | TokenTIME | TokenTIMESTAMP | TokenDATETIME | TokenJSON
  | TokenJSONB | TokenBEGIN | TokenCOMMIT | TokenROLLBACK | TokenTRANSACTION | TokenSAVEPOINT
  | TokenRELEASE | TokenPRAGMA | TokenEXPLAIN | TokenQUERY | TokenPLAN | TokenATTACH
  | TokenDETACH | TokenVACUUM | TokenANALYZE | TokenREINDEX | TokenREPLACE | TokenIGNORE
  | TokenFAIL | TokenABORT | TokenCONFLICT | TokenDO | TokenNOTHING | TokenColonColon
  | TokenLBracket | TokenRBracket.

(** All token types, in declaration order: the value of a constant is its position. *)
Definition all_tokens : list TokenType :=
  [TokenEOF; TokenError; TokenComment; TokenIdent; TokenNumber; TokenString; TokenBlob;
   TokenPlus; TokenMinus; TokenStar; TokenSlash; TokenPercent; TokenConcat; TokenArrow;
   TokenArrowText; TokenEq; TokenNeq; TokenLt; TokenLte; TokenGt; TokenGte; TokenBitAnd;
   TokenBitOr; TokenBitNot; TokenShiftLeft; TokenShiftRight; TokenHashArrow;
   TokenHashArrowText; TokenHashMinus; TokenAtArrow; TokenAtAt; TokenAtQuestion; TokenLtAt;
   TokenQuestion; TokenQuestionPipe; TokenQuestionAmp; TokenLParen; TokenRParen; TokenComma;
   TokenSemicolon; TokenDot; TokenSELECT; TokenFROM; TokenWHERE; TokenAND; TokenOR; TokenNOT;
   TokenAS; TokenDISTINCT; TokenALL; TokenRETURNING; TokenINSERT; TokenINTO; TokenVALUES;
   TokenUPDATE; TokenSET; TokenDELETE; TokenCREATE; TokenDROP; TokenALTER; TokenTABLE;
   TokenINDEX; TokenVIEW; TokenDATABASE; TokenSCHEMA; TokenADD; TokenCOLUMN; TokenRENAME;
   TokenTO; TokenPRIMARY; TokenKEY; TokenFOREIGN; TokenREFERENCES; TokenUNIQUE; TokenCHECK;
   TokenCONSTRAINT; TokenDEFAULT; TokenAUTOINCREMENT; TokenORDER; TokenBY; TokenASC; TokenDESC;
   TokenLIMIT; TokenOFFSET; TokenGROUP; TokenHAVING; TokenJOIN; TokenINNER; TokenLEFT;
   TokenRIGHT; TokenFULL; TokenOUTER; TokenCROSS; TokenNATURAL; TokenON; TokenUSING;
   TokenUNION; TokenINTERSECT; TokenEXCEPT; TokenIN; TokenBETWEEN; TokenLIKE; TokenGLOB;
   TokenESCAPE; TokenIS; TokenNULL; TokenEXISTS; TokenCASE; TokenWHEN; TokenTHEN; TokenELSE;
   TokenEND; TokenCAST; TokenCOALESCE; TokenNULLIF; TokenIF; TokenTRUE; TokenFALSE;
   TokenINTEGER; TokenINT; TokenTINYINT; TokenSMALLINT; TokenMEDIUMINT; TokenBIGINT; TokenREAL;
   TokenFLOAT; TokenDOUBLE; TokenNUMERIC; TokenDECIMAL; TokenTEXT; TokenVARCHAR; TokenCHAR;
   TokenCHARACTER; TokenCLOB; TokenNCHAR; TokenNVARCHAR; TokenBLOB; TokenBOOLEAN; TokenDATE;
   TokenTIME; TokenTIMESTAMP; TokenDATETIME; TokenJSON; TokenJSONB; TokenBEGIN; TokenCOMMIT;
   TokenROLLBACK; TokenTRANSACTION; TokenSAVEPOINT; TokenRELEASE; TokenPRAGMA; TokenEXPLAIN;
   TokenQUERY; TokenPLAN; TokenATTACH; TokenDETACH; TokenVACUUM; TokenANALYZE; TokenREINDEX;
   TokenREPLACE; TokenIGNORE; TokenFAIL; TokenABORT; TokenCONFLICT; TokenDO; TokenNOTHING;
   TokenColonColon; TokenLBracket; TokenRBracket].

Definition code (t : TokenType) : nat :=
  match t with
  | TokenEOF => 0 | TokenError => 1 | TokenComment => 2 | TokenIdent => 3 | TokenNumber => 4
  | TokenString => 5 | TokenBlob => 6 | TokenPlus => 7 | TokenMinus => 8 | TokenStar => 9
  | TokenSlash => 10 | TokenPercent => 11 | TokenConcat => 12 | TokenArrow => 13
  | TokenArrowText => 14 | TokenEq => 15 | TokenNeq => 16 | TokenLt => 17 | TokenLte => 18
  | TokenGt => 19 | TokenGte => 20 | TokenBitAnd => 21 | TokenBitOr => 22 | TokenBitNot => 23
  | TokenShiftLeft => 24 | TokenShiftRight => 25 | TokenHashArrow => 26
  | TokenHashArrowText => 27 | TokenHashMinus => 28 | TokenAtArrow => 29 | TokenAtAt => 30
  | TokenAtQuestion => 31 | TokenLtAt => 32 | TokenQuestion => 33 | TokenQuestionPipe => 34
  | TokenQuestionAmp => 35 | TokenLParen => 36 | TokenRParen => 37 | TokenComma => 38
  | TokenSemicolon => 39 | TokenDot => 40 | TokenSELECT => 41 | TokenFROM => 42
  | TokenWHERE => 43 | TokenAND => 44 | TokenOR => 45 | TokenNOT => 46 | TokenAS => 47
  | TokenDISTINCT => 48 | TokenALL => 49 | TokenRETURNING => 50 | TokenINSERT => 51
  | TokenINTO => 52 | TokenVALUES => 53 | TokenUPDATE => 54 | TokenSET => 55
  | TokenDELETE => 56 | TokenCREATE => 57 | TokenDROP => 58 | TokenALTER => 59
  | TokenTABLE => 60 | TokenINDEX => 61 | TokenVIEW => 62 | TokenDATABASE => 63
  | TokenSCHEMA => 64 | TokenADD => 65 | TokenCOLUMN => 66 | TokenRENAME => 67 | TokenTO => 68
  | TokenPRIMARY => 69 | TokenKEY => 70 | TokenFOREIGN => 71 | TokenREFERENCES => 72
  | TokenUNIQUE => 73 | TokenCHECK => 74 | TokenCONSTRAINT => 75 | TokenDEFAULT => 76
  | TokenAUTOINCREMENT => 77 | TokenORDER => 78 | TokenBY => 79 | TokenASC => 80
  | TokenDESC => 81 | TokenLIMIT => 82 | TokenOFFSET => 83 | TokenGROUP => 84
  | TokenHAVING => 85 | TokenJOIN => 86 | TokenINNER => 87 | TokenLEFT => 88 | TokenRIGHT => 89
  | TokenFULL => 90 | TokenOUTER => 91 | TokenCROSS => 92 | TokenNATURAL => 93 | TokenON => 94
  | TokenUSING => 95 | TokenUNION => 96 | TokenINTERSECT => 97 | TokenEXCEPT => 98
  | TokenIN => 99 | TokenBETWEEN => 100 | TokenLIKE => 101 | TokenGLOB => 102
  | TokenESCAPE => 103 | TokenIS => 104 | TokenNULL => 105 | TokenEXISTS => 106
  | TokenCASE => 107 | TokenWHEN => 108 | TokenTHEN => 109 | TokenELSE => 110 | TokenEND => 111
  | TokenCAST => 112 | TokenCOALESCE => 113 | TokenNULLIF => 114 | TokenIF => 115
  | TokenTRUE => 116 | TokenFALSE => 117 | TokenINTEGER => 118 | TokenINT => 119
  | TokenTINYINT => 120 | TokenSMALLINT => 121 | TokenMEDIUMINT => 122 | TokenBIGINT => 123
  | TokenREAL => 124 | TokenFLOAT => 125 | TokenDOUBLE => 126 | TokenNUMERIC => 127
  | TokenDECIMAL => 128 | TokenTEXT => 129 | TokenVARCHAR => 130 | TokenCHAR => 131
  | TokenCHARACTER => 132 | TokenCLOB => 133 | TokenNCHAR => 134 | TokenNVARCHAR => 135
  | TokenBLOB => 136 | TokenBOOLEAN => 137 | TokenDATE => 138 | TokenTIME => 139
  | TokenTIMESTAMP => 140 | TokenDATETIME => 141 | TokenJSON => 142 | TokenJSONB => 143
  | TokenBEGIN => 144 | TokenCOMMIT => 145 | TokenROLLBACK => 146 | TokenTRANSACTION => 147
  | TokenSAVEPOINT => 148 | TokenRELEASE => 149 | TokenPRAGMA => 150 | TokenEXPLAIN => 151
  | TokenQUERY => 152 | TokenPLAN => 153 | TokenATTACH => 154 | TokenDETACH => 155
  | TokenVACUUM => 156 | TokenANALYZE => 157 | TokenREINDEX => 158 | TokenREPLACE => 159
  | TokenIGNORE => 160 | TokenFAIL => 161 | TokenABORT => 162 | TokenCONFLICT => 163
  | TokenDO => 164 | TokenNOTHING => 165 | TokenColonColon => 166 | TokenLBracket => 167
  | TokenRBracket => 168
  end.

Definition token_eqb (a b : TokenType) : bool := Nat.eqb (code a) (code b).
Notation "a =t b" := (token_eqb a b) (at level 70, no associativity) : go_scope.

(** [switch t { case a, b, ...: }]. *)
Definition token_in (t : TokenType) (l : list TokenType) : bool := existsb (token_eqb t) l.

Definition keywords : list (string * TokenType) :=
  [("SELECT", TokenSELECT); ("FROM", TokenFROM); ("WHERE", TokenWHERE); ("AND", TokenAND);
   ("OR", TokenOR); ("NOT", TokenNOT); ("AS", TokenAS); ("DISTINCT", TokenDISTINCT);
   ("ALL", TokenALL); ("RETURNING", TokenRETURNING); ("INSERT", TokenINSERT);
   ("INTO", TokenINTO); ("VALUES", TokenVALUES); ("UPDATE", TokenUPDATE); ("SET", TokenSET);
   ("DELETE", TokenDELETE); ("CREATE", TokenCREATE); ("DROP", TokenDROP);
   ("ALTER", TokenALTER); ("TABLE", TokenTABLE); ("INDEX", TokenINDEX); ("VIEW", TokenVIEW);
   ("DATABASE", TokenDATABASE); ("SCHEMA", TokenSCHEMA); ("ADD", TokenADD);
   ("COLUMN", TokenCOLUMN); ("RENAME", TokenRENAME); ("TO", TokenTO);
   ("PRIMARY", TokenPRIMARY); ("KEY", TokenKEY); ("FOREIGN", TokenFOREIGN);
   ("REFERENCES", TokenREFERENCES); ("UNIQUE", TokenUNIQUE); ("CHECK", TokenCHECK);
   ("CONSTRAINT", TokenCONSTRAINT); ("DEFAULT", TokenDEFAULT);
   ("AUTOINCREMENT", TokenAUTOINCREMENT); ("ORDER", TokenORDER); ("BY", TokenBY);
   ("ASC", TokenASC); ("DESC", TokenDESC); ("LIMIT", TokenLIMIT); ("OFFSET", TokenOFFSET);
   ("GROUP", TokenGROUP); ("HAVING", TokenHAVING); ("JOIN", TokenJOIN); ("INNER", TokenINNER);
   ("LEFT", TokenLEFT); ("RIGHT", TokenRIGHT); ("FULL", TokenFULL); ("OUTER", TokenOUTER);
   ("CROSS", TokenCROSS); ("NATURAL", TokenNATURAL); ("ON", TokenON); ("USING", TokenUSING);
   ("UNION", TokenUNION); ("INTERSECT", TokenINTERSECT); ("EXCEPT", TokenEXCEPT);
   ("IN", TokenIN); ("BETWEEN", TokenBETWEEN); ("LIKE", TokenLIKE); ("GLOB", TokenGLOB);
   ("ESCAPE", TokenESCAPE); ("IS", TokenIS); ("NULL", TokenNULL); ("EXISTS", TokenEXISTS);
   ("CASE", TokenCASE); ("WHEN", TokenWHEN); ("THEN", TokenTHEN); ("ELSE", TokenELSE);
   ("END", TokenEND); ("CAST", TokenCAST); ("COALESCE", TokenCOALESCE);
   ("NULLIF", TokenNULLIF); ("IF", TokenIF); ("TRUE", TokenTRUE); ("FALSE", TokenFALSE);
   ("INTEGER", TokenINTEGER); ("INT", TokenINT); ("TINYINT", TokenTINYINT);
   ("SMALLINT", TokenSMALLINT); ("MEDIUMINT", TokenMEDIUMINT); ("BIGINT", TokenBIGINT);
   ("REAL", TokenREAL); ("FLOAT", TokenFLOAT); ("DOUBLE", TokenDOUBLE);
   ("NUMERIC", TokenNUMERIC); ("DECIMAL", TokenDECIMAL); ("TEXT", TokenTEXT);
   ("VARCHAR", TokenVARCHAR); ("CHAR", TokenCHAR); ("CHARACTER", TokenCHARACTER);
   ("CLOB", TokenCLOB); ("NCHAR", TokenNCHAR); ("NVARCHAR", TokenNVARCHAR);
   ("BLOB", TokenBLOB); ("BOOLEAN", TokenBOOLEAN); ("DATE", TokenDATE); ("TIME", TokenTIME);
   ("TIMESTAMP", TokenTIMESTAMP); ("DATETIME", TokenDATETIME); ("JSON", TokenJSON);
   ("JSONB", TokenJSONB); ("BEGIN", TokenBEGIN); ("COMMIT", TokenCOMMIT);
   ("ROLLBACK", TokenROLLBACK); ("TRANSACTION", TokenTRANSACTION);
   ("SAVEPOINT", TokenSAVEPOINT); ("RELEASE", TokenRELEASE); ("PRAGMA", TokenPRAGMA);
   ("EXPLAIN", TokenEXPLAIN); ("QUERY", TokenQUERY); ("ATTACH", TokenATTACH);
   ("DETACH", TokenDETACH); ("VACUUM", TokenVACUUM); ("ANALYZE", TokenANALYZE);
   ("REINDEX", TokenREINDEX); ("REPLACE", TokenREPLACE); ("IGNORE", TokenIGNORE);
   ("FAIL", TokenFAIL); ("ABORT", TokenABORT); ("CONFLICT", TokenCONFLICT); ("DO", TokenDO);
   ("NOTHING", TokenNOTHING)].

(** Lookup in a Go map given as a table with distinct keys. *)
Fixpoint assoc {A : Type} (k : string) (l : list (string * A)) : option A :=
  match l with
  | [] => None
  | (k', v) :: r => if k =s k' then Some v else assoc k r
  end.

Definition LookupKeyword (ident : string) : TokenType :=
  match assoc ident keywords with
  | Some tok => tok
  | None => TokenIdent
  end.

Record Token : Set := mkToken {
  Type_ : TokenType;
  Literal : string;
  Line : nat;
  Column : nat;
  Bracketed : bool
}.

Definition IsKeyword (t : Token) : bool := (code TokenSELECT <=? code (Type_ t))%nat.

Definition IsOperator (t : Token) : bool :=
  ((code TokenPlus <=? code (Type_ t)) && (code (Type_ t) <=? code TokenGte))%nat%bool.

Definition tokenNames : list (TokenType * string) :=
  [(TokenEOF, "EOF"); (TokenError, "ERROR"); (TokenComment, "COMMENT"); (TokenIdent, "IDENT");
   (TokenNumber, "NUMBER"); (TokenString, "STRING"); (TokenBlob, "BLOB"); (TokenPlus, "+");
   (TokenMinus, "-"); (TokenStar, "*"); (TokenSlash, "/"); (TokenPercent, "%");
   (TokenConcat, "||"); (TokenArrow, "->"); (TokenArrowText, "->>"); (TokenEq, "=");
   (TokenNeq, "<>"); (TokenLt, "<"); (TokenLte, "<="); (TokenGt, ">"); (TokenGte, ">=");
   (TokenBitAnd, "&"); (TokenBitOr, "|"); (TokenBitNot, "~"); (TokenShiftLeft, "<<");
   (TokenShiftRight, ">>"); (TokenHashArrow, "#>"); (TokenHashArrowText, "#>>");
   (TokenHashMinus, "#-"); (TokenAtArrow, "@>"); (TokenAtAt, "@@"); (TokenAtQuestion, "@?");
   (TokenLtAt, "<@"); (TokenQuestion, "?"); (TokenQuestionPipe, "?|");
   (TokenQuestionAmp, "?&"); (TokenLParen, "("); (TokenRParen, ")"); (TokenComma, ",");
   (TokenSemicolon, ";"); (TokenDot, "."); (TokenColonColon, "::"); (TokenLBracket, "[");
   (TokenRBracket, "]")].

Fixpoint token_name (t : TokenType) (l : list (TokenType * string)) : option string :=
  match l with
  | [] => None
  | (t', s) :: r => if t =t t' then Some s else token_name t r
  end.

(** The reverse lookup of [String]: the first keyword, in table order, whose type is [t].  The
    code ranges over a map; [keyword_types_distinct] below shows that no two keywords share a
    type, so the order of the range does not matter. *)
Fixpoint keyword_of (t : TokenType) (l : list (string * TokenType)) : option string :=
  match l with
  | [] => None
  | (kw, t') :: r => if t' =t t then Some kw else keyword_of t r
  end.

Definition TokenType_String (t : TokenType) : string :=
  match token_name t tokenNames with
  | Some name => name
  | None => match keyword_of t keywords with
            | Some kw => kw
            | None => "TOKEN(" ++ itoa (N.of_nat (code t)) ++ ")"
            end
  end.
(** ** Token types are their codes *)

Lemma nth_all_tokens (t : TokenType) : nth_error all_tokens (code t) = Some t.
Proof. destruct t; reflexivity. Qed.

Lemma code_inj (a b : TokenType) : code a = code b -> a = b.
Proof. intros H. pose proof (nth_all_tokens a) as Ha. rewrite H, nth_all_tokens in Ha. congruence. Qed.

Lemma token_eqb_eq (a b : TokenType) : (a =t b) = true <-> a = b.
Proof.
  unfold token_eqb. rewrite Nat.eqb_eq. split; [apply code_inj|congruence].
Qed.

Lemma token_eqb_neq (a b : TokenType) : (a =t b) = false <-> a <> b.
Proof.
  rewrite <- token_eqb_eq. destruct (a =t b); split; congruence.
Qed.

Lemma token_eqb_refl (a : TokenType) : (a =t a) = true.
Proof. now apply token_eqb_eq. Qed.

#[export] Hint Resolve token_eqb_refl : core.

Definition TokenType_eq_dec (a b : TokenType) : {a = b} + {a <> b}.
Proof.
  destruct (a =t b) eqn:E; [left; now apply token_eqb_eq | right; now apply token_eqb_neq].
Defined.

(** ** The keyword table *)

Lemma assoc_In {A} (k : string) (l : list (string * A)) (v : A) : assoc k l = Some v -> In (k, v) l.
Proof.
  induction l as [|[k' v'] l IH]; cbn; [easy|].
  destruct (k =s k') eqn:E; intros H; [|auto].
  apply String.eqb_eq in E. injection H as <-. subst. now left.
Qed.

Lemma In_assoc {A} (k : string) (l : list (string * A)) (v : A) :
  NoDup (map fst l) -> In (k, v) l -> assoc k l = Some v.
Proof.
  induction l as [|[k' v'] l IH]; cbn; [easy|]. intros Hnd [Heq|Hin]; inversion Hnd; subst.
  - injection Heq as -> ->. now rewrite String.eqb_refl.
  - destruct (k =s k') eqn:E; [|auto].
    apply String.eqb_eq in E; subst k'. contradict H1.
    apply (in_map fst) in Hin. exact Hin.
Qed.

(** Distinctness of the keys and of the types of the table, decided by evaluation. *)
Fixpoint nodupb {A} (eqb : A -> A -> bool) (l : list A) : bool :=
  match l with
  | [] => true
  | x :: r => negb (existsb (eqb x) r) && nodupb eqb r
  end.

Lemma nodupb_NoDup {A} (eqb : A -> A -> bool) (l : list A) :
  (forall x, eqb x x = true) -> nodupb eqb l = true -> NoDup l.
Proof.
  intros Hrefl. induction l as [|x l IH]; cbn; intros H; constructor; bool_hyps; auto.
  intros Hin. rewrite <- not_true_iff_false in H. apply H.
  apply existsb_exists. eauto.
Qed.

Lemma keyword_keys_distinct : NoDup (map fst keywords).
Proof. apply (nodupb_NoDup String.eqb); [apply String.eqb_refl|vm_compute; reflexivity]. Qed.

Lemma keyword_types_distinct : NoDup (map snd keywords).
Proof. apply (nodupb_NoDup token_eqb); [apply token_eqb_refl|vm_compute; reflexivity]. Qed.

Lemma LookupKeyword_keyword (kw : string) (t : TokenType) :
  In (kw, t) keywords -> LookupKeyword kw = t.
Proof.
  intros H. unfold LookupKeyword. now rewrite (In_assoc _ _ _ keyword_keys_distinct H).
Qed.

(** ** The classification methods *)

Lemma token_forall (P : TokenType -> bool) : forallb P all_tokens = true -> forall t, P t = true.
Proof.
  intros H t. rewrite forallb_forall in H. apply H. eapply nth_error_In, nth_all_tokens.
Qed.

Lemma token_in_In (t : TokenType) (l : list TokenType) : token_in t l = true <-> In t l.
Proof.
  unfold token_in. rewrite existsb_exists. split.
  - intros (x & Hin & E). apply token_eqb_eq in E. now subst.
  - intros H. exists t. auto.
Qed.

(** [IsKeyword], a range test on the [iota] values, holds of exactly the types the keyword
    table maps to, of [TokenPLAN] (which no keyword maps to) and of the three punctuation types
    declared after the keywords; [IsOperator] holds of the fourteen operators from [+] to [>=]. *)
Theorem token_classification (t : Token) :
  IsKeyword t = token_in (Type_ t) (map snd keywords ++
                  [TokenPLAN; TokenColonColon; TokenLBracket; TokenRBracket]) /\
  IsOperator t = token_in (Type_ t)
    [TokenPlus; TokenMinus; TokenStar; TokenSlash; TokenPercent; TokenConcat; TokenArrow;
     TokenArrowText; TokenEq; TokenNeq; TokenLt; TokenLte; TokenGt; TokenGte].
Proof.
  destruct t as [ty lit ln col br]. cbn [Type_].
  split; apply Bool.eqb_prop; revert ty; apply token_forall; vm_compute; reflexivity.
Qed.
