(* ===== verification/Lexer.v ===== *)
(** * The lexer (pkg/lexer/lexer.go)

    The [Lexer] struct is a record and every method a function on it.  A Go loop over the
    characters is a function with fuel [remaining l], the number of [readChar] steps after
    which the current character is NUL; the loop equations below show that the fuel is never
    what ends a loop. *)
From Stdlib Require Import Ascii String List Bool Arith NArith Lia.
From S2P Require Import Prelude Token.
Import ListNotations.
Open Scope string_scope.
Open Scope go_scope.

Record Lexer : Set := mkLexer {
  input : string;
  pos : nat;
  readPos : nat;
  ch : ascii;
  line : nat;
  column : nat;
  prev : TokenType
}.

(** ** Characters *)

(** [unicode.IsLetter(rune(ch))] for a byte: the letters of Latin-1. *)
Definition isLetter (c : ascii) : bool :=
  let n := N_of_ascii c in
  (("A" <=b c) && (c <=b "Z")) || (("a" <=b c) && (c <=b "z")) ||
  (n =? 0xAA)%N || (n =? 0xB5)%N || (n =? 0xBA)%N ||
  ((0xC0 <=? n)%N && (n <=? 0xD6)%N) || ((0xD8 <=? n)%N && (n <=? 0xF6)%N) || (0xF8 <=? n)%N.

Definition isDigit (c : ascii) : bool := ("0" <=b c) && (c <=b "9").

Definition isHexDigit (c : ascii) : bool :=
  (("0" <=b c) && (c <=b "9")) || (("a" <=b c) && (c <=b "f")) || (("A" <=b c) && (c <=b "F")).

Definition isSpace (c : ascii) : bool := (c =b " ") || (c =b TAB) || (c =b LF) || (c =b CR).

(** ** Reading characters *)

Definition readChar (l : Lexer) : Lexer :=
  let c := if (String.length (input l) <=? readPos l)%nat then NUL
           else byte_at (input l) (readPos l) in
  let ln := line l in
  let col := S (column l) in
  {| input := input l;
     pos := readPos l;
     readPos := S (readPos l);
     ch := c;
     line := if c =b LF then S ln else ln;
     column := if c =b LF then 0 else col;
     prev := prev l |}.

Definition peekChar (l : Lexer) : ascii :=
  if (String.length (input l) <=? readPos l)%nat then NUL else byte_at (input l) (readPos l).

Definition New (input : string) : Lexer :=
  readChar {| input := input; pos := 0; readPos := 0; ch := NUL; line := 1; column := 0;
              prev := TokenEOF |}.

Definition with_prev (l : Lexer) (t : TokenType) : Lexer :=
  {| input := input l; pos := pos l; readPos := readPos l; ch := ch l; line := line l;
     column := column l; prev := t |}.

(** The characters not yet read, the current one included. *)
Definition remaining (l : Lexer) : nat := String.length (input l) - pos l.

(** [for p(l.ch) { l.readChar() }] *)
Fixpoint read_while (fuel : nat) (p : ascii -> bool) (l : Lexer) : Lexer :=
  match fuel with
  | O => l
  | S k => if p (ch l) then read_while k p (readChar l) else l
  end.

Definition readWhile (p : ascii -> bool) (l : Lexer) : Lexer := read_while (remaining l) p l.

(** [l.ch != c && l.ch != 0] *)
Definition not_ch (c d : ascii) : bool := negb (d =b c) && negb (d =b NUL).

(** ** White space and comments *)

Fixpoint block_comment_loop (fuel : nat) (l : Lexer) : Lexer :=
  match fuel with
  | O => l
  | S k =>
      if ch l =b NUL then l
      else if (ch l =b "*") && (peekChar l =b "/") then readChar (readChar l)
      else block_comment_loop k (readChar l)
  end.

Definition skipBlockComment (l : Lexer) : Lexer :=
  let l := readChar l in
  let l := readChar l in
  block_comment_loop (remaining l) l.

Fixpoint skip_whitespace (fuel : nat) (l : Lexer) : Lexer :=
  let l := readWhile isSpace l in
  match fuel with
  | O => l
  | S k =>
      if (ch l =b "/") && (peekChar l =b "*")
      then skip_whitespace k (skipBlockComment l)
      else l
  end.

Definition skipWhitespace (l : Lexer) : Lexer := skip_whitespace (remaining l) l.

(** ** Tokens of more than one character *)

(** [Token{Type: t, Line: l.line, Column: l.column}] with its literal. *)
Definition tok_at (l : Lexer) (t : TokenType) (lit : string) : Token :=
  mkToken t lit (line l) (column l) false.

Definition readLineComment (l : Lexer) : Token * Lexer :=
  let l' := readWhile (not_ch LF) l in
  (tok_at l TokenComment (slice (input l) (pos l) (pos l')), l').

(** The loop of [readString]: [None] for an unterminated literal, else the bytes written to the
    builder after [sb]. *)
Fixpoint string_loop (fuel : nat) (l : Lexer) (sb : string) : option string * Lexer :=
  match fuel with
  | O => (None, l)
  | S k =>
      if ch l =b NUL then (None, l)
      else if ch l =b SQUOTE then
        if peekChar l =b SQUOTE
        then string_loop k (readChar (readChar l)) (sb ++ str1 SQUOTE)
        else (Some sb, readChar l)
      else string_loop k (readChar l) (sb ++ str1 (ch l))
  end.

Definition readString (l : Lexer) : Token * Lexer :=
  let l1 := readChar l in
  match string_loop (remaining l1) l1 EmptyString with
  | (None, l') => (tok_at l TokenError "unterminated string", l')
  | (Some s, l') => (tok_at l TokenString s, l')
  end.

Definition readQuotedIdentifier (quote : ascii) (l : Lexer) : Token * Lexer :=
  let l1 := readChar l in
  let l2 := readWhile (not_ch quote) l1 in
  if ch l2 =b NUL then (tok_at l TokenError "unterminated identifier", l2)
  else (tok_at l TokenIdent (slice (input l) (pos l1) (pos l2)), readChar l2).

Definition readBracketIdentifier (l : Lexer) : Token * Lexer :=
  let bracketed t lit := mkToken t lit (line l) (column l) true in
  let l1 := readChar l in
  let l2 := readWhile (not_ch "]") l1 in
  if ch l2 =b NUL then (bracketed TokenError "unterminated identifier", l2)
  else (bracketed TokenIdent (slice (input l) (pos l1) (pos l2)), readChar l2).

(** [encoding/hex.DecodeString] on a string of hex digits; the rest of its behaviour is not
    reached, because [readBlob] collects hex digits only and tests the length first. *)
Definition hex_value (c : ascii) : N :=
  let n := N_of_ascii c in
  if isDigit c then (n - 48)%N else if ("a" <=b c) && (c <=b "f") then (n - 87)%N else (n - 55)%N.

Fixpoint hex_decode (s : string) : string :=
  match s with
  | String a (String b r) => String (byte (16 * hex_value a + hex_value b)) (hex_decode r)
  | _ => EmptyString
  end.

Fixpoint blob_loop (fuel : nat) (l : Lexer) (sb : string) : (string + string) * Lexer :=
  match fuel with
  | O => (inr sb, l)
  | S k =>
      if negb (ch l =b SQUOTE) && negb (ch l =b NUL) then
        if isHexDigit (ch l) then blob_loop k (readChar l) (sb ++ str1 (ch l))
        else if negb (isSpace (ch l))
        then (inl ("invalid character in blob literal: " ++ string_of_rune_byte (ch l)), l)
        else blob_loop k (readChar l) sb
      else (inr sb, l)
  end.

Definition readBlob (l : Lexer) : Token * Lexer :=
  let l1 := readChar (readChar l) in
  match blob_loop (remaining l1) l1 EmptyString with
  | (inl msg, l') => (tok_at l TokenError msg, l')
  | (inr sb, l') =>
      if ch l' =b NUL then (tok_at l TokenError "unterminated blob literal", l')
      else
        let l'' := readChar l' in
        if negb (Nat.even (String.length sb))
        then (tok_at l TokenError "blob literal must contain an even number of hex digits", l'')
        else (tok_at l TokenBlob (hex_decode sb), l'')
  end.

Definition isIdentChar (c : ascii) : bool := isLetter c || isDigit c || (c =b "_").

Definition readIdentifier (l : Lexer) : Token * Lexer :=
  let l' := readWhile isIdentChar l in
  let literal := slice (input l) (pos l) (pos l') in
  (tok_at l (LookupKeyword (ToUpper literal)) literal, l').

Definition readDigits (l : Lexer) : Lexer := readWhile isDigit l.

Definition readNumber (l : Lexer) : Token * Lexer :=
  let l1 := readDigits l in
  let l2 := if (ch l1 =b ".") && isDigit (peekChar l1) then readDigits (readChar l1) else l1 in
  let l3 := if (ch l2 =b "e") || (ch l2 =b "E") then
              let m := readChar l2 in
              let m := if (ch m =b "+") || (ch m =b "-") then readChar m else m in
              readDigits m
            else l2 in
  (tok_at l TokenNumber (slice (input l) (pos l) (pos l3)), l3).

(** ** afterExpression *)

Definition expression_end : list TokenType :=
  [TokenIdent; TokenString; TokenNumber; TokenBlob; TokenRParen; TokenRBracket; TokenTRUE;
   TokenFALSE; TokenNULL].

Definition type_keywords : list TokenType :=
  [TokenINTEGER; TokenINT; TokenTINYINT; TokenSMALLINT; TokenMEDIUMINT; TokenBIGINT; TokenREAL;
   TokenFLOAT; TokenDOUBLE; TokenNUMERIC; TokenDECIMAL; TokenTEXT; TokenVARCHAR; TokenCHAR;
   TokenCHARACTER; TokenCLOB; TokenNCHAR; TokenNVARCHAR; TokenBLOB; TokenBOOLEAN; TokenDATE;
   TokenTIME; TokenTIMESTAMP; TokenDATETIME; TokenJSON; TokenJSONB].

Definition afterExpression (l : Lexer) : bool :=
  if token_in (prev l) expression_end then true
  else token_in (prev l) type_keywords.

(** ** NextToken *)

(** The cases of one character that always stand alone. *)
Definition single_tokens : list (string * TokenType) :=
  [("+", TokenPlus); ("*", TokenStar); ("/", TokenSlash); ("%", TokenPercent);
   ("&", TokenBitAnd); ("~", TokenBitNot); ("(", TokenLParen); (")", TokenRParen);
   (",", TokenComma); (";", TokenSemicolon); (".", TokenDot); ("=", TokenEq)].

(** The cases from ['<'] to ['?']: operators of one to three characters.  A branch gives the
    token and how many characters it reads. *)
Definition scanOperator (l : Lexer) : option (TokenType * string * nat) :=
  let p := peekChar l in
  let p2 := peekChar (readChar l) in
  if ch l =b "<" then
    Some (if p =b "=" then (TokenLte, "<=", 2)
          else if p =b ">" then (TokenNeq, "<>", 2)
          else if p =b "<" then (TokenShiftLeft, "<<", 2)
          else if p =b "@" then (TokenLtAt, "<@", 2)
          else (TokenLt, "<", 1))
  else if ch l =b ">" then
    Some (if p =b "=" then (TokenGte, ">=", 2)
          else if p =b ">" then (TokenShiftRight, ">>", 2)
          else (TokenGt, ">", 1))
  else if ch l =b "!" then
    Some (if p =b "=" then (TokenNeq, "!=", 2) else (TokenError, "unexpected character: !", 1))
  else if ch l =b "|" then
    Some (if p =b "|" then (TokenConcat, "||", 2) else (TokenBitOr, "|", 1))
  else if ch l =b "#" then
    Some (if p =b ">" then
            (if p2 =b ">" then (TokenHashArrowText, "#>>", 3) else (TokenHashArrow, "#>", 2))
          else if p =b "-" then (TokenHashMinus, "#-", 2)
          else (TokenError, "unexpected character: #", 1))
  else if ch l =b "@" then
    Some (if p =b ">" then (TokenAtArrow, "@>", 2)
          else if p =b "@" then (TokenAtAt, "@@", 2)
          else if p =b "?" then (TokenAtQuestion, "@?", 2)
          else (TokenError, "unexpected character: @", 1))
  else if ch l =b "?" then
    Some (if p =b "|" then (TokenQuestionPipe, "?|", 2)
          else if p =b "&" then (TokenQuestionAmp, "?&", 2)
          else (TokenQuestion, "?", 1))
  else None.

Fixpoint readChars (n : nat) (l : Lexer) : Lexer :=
  match n with O => l | S k => readChars k (readChar l) end.

(** The cases from ['-'] on, and the default case. *)
Definition scanRest (l : Lexer) : Token * Lexer :=
  let tok := tok_at l in
  if ch l =b "-" then
    if peekChar l =b "-" then readLineComment l
    else if peekChar l =b ">" then
      let l1 := readChar l in
      if peekChar l1 =b ">" then (tok TokenArrowText "->>", readChar (readChar l1))
      else (tok TokenArrow "->", readChar l1)
    else (tok TokenMinus "-", readChar l)
  else if ch l =b SQUOTE then readString l
  else if ch l =b DQUOTE then readQuotedIdentifier DQUOTE l
  else if ch l =b BACKTICK then readQuotedIdentifier BACKTICK l
  else if ch l =b "[" then
    if afterExpression l then (tok TokenLBracket "[", readChar l)
    else readBracketIdentifier l
  else if ch l =b "]" then (tok TokenRBracket "]", readChar l)
  else if ch l =b ":" then
    if peekChar l =b ":" then (tok TokenColonColon "::", readChar (readChar l))
    else (tok TokenError "unexpected character: :", readChar l)
  else if ((ch l =b "x") || (ch l =b "X")) && (peekChar l =b SQUOTE) then readBlob l
  else if isLetter (ch l) || (ch l =b "_") then readIdentifier l
  else if isDigit (ch l) then readNumber l
  else (tok TokenError ("unexpected character: " ++ string_of_rune_byte (ch l)), readChar l).

(** The [switch l.ch] of [NextToken]. *)
Definition scanToken (l : Lexer) : Token * Lexer :=
  if ch l =b NUL then (tok_at l TokenEOF EmptyString, l)
  else match assoc (str1 (ch l)) single_tokens with
       | Some t => (tok_at l t (str1 (ch l)), readChar l)
       | None =>
           match scanOperator l with
           | Some (t, lit, n) => (tok_at l t lit, readChars n l)
           | None => scanRest l
           end
       end.

Definition NextToken (l : Lexer) : Token * Lexer :=
  let l := skipWhitespace l in
  let (tok, l') := scanToken l in
  (tok, if Type_ tok =t TokenComment then l' else with_prev l' (Type_ tok)).

(** ** Tokenize *)

Fixpoint tokenize (fuel : nat) (l : Lexer) : list Token * Lexer :=
  match fuel with
  | O => ([], l)
  | S k =>
      let (tok, l') := NextToken l in
      if (Type_ tok =t TokenEOF) || (Type_ tok =t TokenError) then ([tok], l')
      else let (toks, l'') := tokenize k l' in (tok :: toks, l'')
  end.

Definition Tokenize (l : Lexer) : list Token * Lexer := tokenize (S (remaining l)) l.
