(* ===== verification/LexerFacts.v ===== *)
(** * Facts about the lexer

    A reachable lexer state is determined by the input, the position and the last token type
    ([lex_at]), so the lemmas state what each method does to a position.  [wf] is the invariant
    every method preserves.

    The properties of the lexer: termination and position of tokens for every input, and the round trips of the lexical
    forms the formatter writes: string, blob and quoted identifier literals, and words. *)
From Stdlib Require Import Ascii String List Bool Arith NArith Lia.
From S2P Require Import Prelude Token Lexer.
Import ListNotations.
Open Scope string_scope.
Open Scope go_scope.

(** ** Line and column of a position *)

(** The line and column counters after one more character. *)
Definition advance_pos (c : ascii) (lc : nat * nat) : nat * nat :=
  if c =b LF then (S (fst lc), 0) else (fst lc, S (snd lc)).

(** The counters when the character at index [i] is the current one: every character up to and
    including it has been read, the first one at line 1, column 1. *)
Fixpoint position_of (s : string) (i : nat) : nat * nat :=
  let before := match i with O => (1, 0) | S k => position_of s k end in
  advance_pos (byte_at s i) before.

(** ** Canonical states and the invariant *)

Definition lex_at (s : string) (i : nat) (pv : TokenType) : Lexer :=
  {| input := s; pos := i; readPos := S i; ch := byte_at s i;
     line := fst (position_of s i); column := snd (position_of s i); prev := pv |}.

Definition wf (l : Lexer) : Prop :=
  l = lex_at (input l) (pos l) (prev l) /\ pos l <= String.length (input l).

Lemma wf_lex_at (s : string) (i : nat) (pv : TokenType) : i <= String.length s -> wf (lex_at s i pv).
Proof. intros H. split; [reflexivity|exact H]. Qed.

Lemma byte_at_ltb (s : string) (i : nat) :
  (if (String.length s <=? i)%nat then NUL else byte_at s i) = byte_at s i.
Proof. case_if; [|easy]. bool_hyps. now rewrite byte_at_end. Qed.

Lemma readChar_at (s : string) (i : nat) (pv : TokenType) :
  readChar (lex_at s i pv) = lex_at s (S i) pv.
Proof.
  unfold readChar, lex_at; cbn [input pos readPos ch line column prev].
  rewrite byte_at_ltb. cbn [position_of]. unfold advance_pos.
  now destruct (byte_at s (S i) =b LF).
Qed.

Lemma peekChar_at (s : string) (i : nat) (pv : TokenType) :
  peekChar (lex_at s i pv) = byte_at s (S i).
Proof. unfold peekChar, lex_at; cbn. apply byte_at_ltb. Qed.

Lemma readChars_at (n : nat) (s : string) (i : nat) (pv : TokenType) :
  readChars n (lex_at s i pv) = lex_at s (n + i) pv.
Proof.
  revert i; induction n; intros i; cbn [readChars]; [easy|].
  rewrite readChar_at, IHn. f_equal. lia.
Qed.

Lemma New_at (s : string) : New s = lex_at s 0 TokenEOF.
Proof.
  unfold New, readChar, lex_at; cbn [input pos readPos ch line column prev].
  rewrite byte_at_ltb. cbn [position_of]. unfold advance_pos. cbn [fst snd].
  now destruct (byte_at s 0 =b LF).
Qed.

Lemma with_prev_at (s : string) (i : nat) (pv t : TokenType) :
  with_prev (lex_at s i pv) t = lex_at s i t.
Proof. reflexivity. Qed.

Lemma remaining_at (s : string) (i : nat) (pv : TokenType) :
  remaining (lex_at s i pv) = String.length s - i.
Proof. reflexivity. Qed.

Lemma ch_at (s : string) (i : nat) (pv : TokenType) : ch (lex_at s i pv) = byte_at s i.
Proof. reflexivity. Qed.

Lemma input_at (s : string) (i : nat) (pv : TokenType) : input (lex_at s i pv) = s.
Proof. reflexivity. Qed.

Lemma pos_at (s : string) (i : nat) (pv : TokenType) : pos (lex_at s i pv) = i.
Proof. reflexivity. Qed.

Create Rewrite HintDb lex.
Create HintDb lex.
#[export] Hint Rewrite readChar_at peekChar_at readChars_at remaining_at ch_at input_at pos_at
  with_prev_at : lex.

(** A byte that is not NUL lies inside the input. *)
Lemma byte_at_inside (s : string) (i : nat) : byte_at s i <> NUL -> i < String.length s.
Proof.
  intros H. destruct (le_lt_dec (String.length s) i); [|easy].
  contradict H. now apply byte_at_end.
Qed.

(** ** Loops *)

(** The first position from [i] on, [fuel] steps at most, where [p] fails. *)
Fixpoint span_end (fuel : nat) (p : ascii -> bool) (s : string) (i : nat) : nat :=
  match fuel with
  | O => i
  | S k => if p (byte_at s i) then span_end k p s (S i) else i
  end.

Definition span (p : ascii -> bool) (s : string) (i : nat) : nat :=
  span_end (String.length s - i) p s i.

Lemma read_while_at (fuel : nat) (p : ascii -> bool) (s : string) (i : nat) (pv : TokenType) :
  read_while fuel p (lex_at s i pv) = lex_at s (span_end fuel p s i) pv.
Proof.
  revert i; induction fuel; intros i; cbn [read_while span_end]; [easy|].
  rewrite ch_at, readChar_at, IHfuel. now destruct (p (byte_at s i)).
Qed.

Lemma readWhile_at (p : ascii -> bool) (s : string) (i : nat) (pv : TokenType) :
  readWhile p (lex_at s i pv) = lex_at s (span p s i) pv.
Proof. unfold readWhile. now rewrite remaining_at, read_while_at. Qed.

#[export] Hint Rewrite readWhile_at : lex.

Section Span.
Variables (p : ascii -> bool) (s : string).
Hypothesis p_NUL : p NUL = false.

Lemma p_inside (i : nat) : p (byte_at s i) = true -> i < String.length s.
Proof. intros H. apply byte_at_inside. intros E. rewrite E in H. congruence. Qed.

Lemma span_end_bounds (fuel i : nat) :
  i <= span_end fuel p s i <= fuel + i.
Proof.
  revert i; induction fuel; intros i; cbn [span_end]; [lia|].
  destruct (p (byte_at s i)); [|lia]. specialize (IHfuel (S i)). lia.
Qed.

Lemma span_stops (i : nat) : p (byte_at s (span p s i)) = false.
Proof.
  unfold span. remember (String.length s - i) as fuel eqn:E.
  revert i E; induction fuel; intros i E; cbn [span_end].
  - destruct (p (byte_at s i)) eqn:Hp; [|easy]. apply p_inside in Hp. lia.
  - destruct (p (byte_at s i)) eqn:Hp; [|easy]. apply IHfuel. lia.
Qed.

(** The loop equation: the fuel never ends the loop. *)
Lemma span_unfold (i : nat) :
  span p s i = if p (byte_at s i) then span p s (S i) else i.
Proof.
  destruct (p (byte_at s i)) eqn:Hp.
  - pose proof (p_inside _ Hp). unfold span.
    replace (String.length s - i) with (S (String.length s - S i)) by lia.
    cbn [span_end]. now rewrite Hp.
  - unfold span. destruct (String.length s - i); cbn [span_end]; [easy|]. now rewrite Hp.
Qed.

Lemma span_ge (i : nat) : i <= span p s i.
Proof. unfold span. pose proof (span_end_bounds (String.length s - i) i). lia. Qed.

Lemma span_le (i : nat) : i <= String.length s -> span p s i <= String.length s.
Proof. intros H. unfold span. pose proof (span_end_bounds (String.length s - i) i). lia. Qed.

Lemma span_exact (n i : nat) :
  (forall k, k < n -> p (byte_at s (i + k)) = true) ->
  p (byte_at s (i + n)) = false ->
  span p s i = i + n.
Proof.
  revert i; induction n; intros i Hin Hout.
  - rewrite Nat.add_0_r in *. rewrite span_unfold. now rewrite Hout.
  - rewrite span_unfold. specialize (Hin 0) as H0. rewrite Nat.add_0_r in H0.
    rewrite H0 by lia. rewrite (IHn (S i)); [lia| |].
    + intros k Hk. replace (S i + k) with (i + S k) by lia. apply Hin. lia.
    + now replace (S i + n) with (i + S n) by lia.
Qed.

Lemma span_all (i k : nat) : i <= k < span p s i -> p (byte_at s k) = true.
Proof.
  remember (String.length s - i) as fuel eqn:E. revert i E.
  induction fuel; intros i E Hk.
  - rewrite span_unfold in Hk. destruct (p (byte_at s i)) eqn:Hp; [|lia].
    apply p_inside in Hp. lia.
  - rewrite span_unfold in Hk. destruct (p (byte_at s i)) eqn:Hp; [|lia].
    destruct (Nat.eq_dec k i) as [->|Hne]; [easy|]. apply (IHfuel (S i)); lia.
Qed.
End Span.

(** The predicates of the lexer's loops fail on NUL. *)
Lemma isSpace_NUL : isSpace NUL = false. Proof. reflexivity. Qed.
Lemma isIdentChar_NUL : isIdentChar NUL = false. Proof. reflexivity. Qed.
Lemma isDigit_NUL : isDigit NUL = false. Proof. reflexivity. Qed.
Lemma not_ch_NUL (c : ascii) : not_ch c NUL = false.
Proof. unfold not_ch. now rewrite Ascii.eqb_refl, andb_false_r. Qed.

#[export] Hint Resolve isSpace_NUL isIdentChar_NUL isDigit_NUL not_ch_NUL : core.

Lemma not_ch_false (c d : ascii) : not_ch c d = false -> d = c \/ d = NUL.
Proof.
  unfold not_ch. intros H. apply andb_false_iff in H as [H|H]; bool_hyps; auto.
Qed.

(** ** Progress

    [moves k l l']: from [l] the lexer has read at least [k] characters, inside the input. *)
Definition moves (k : nat) (l l' : Lexer) : Prop :=
  wf l' /\ input l' = input l /\ prev l' = prev l /\ pos l + k <= pos l'.

Lemma moves_at (k : nat) (s : string) (i j : nat) (pv : TokenType) :
  i + k <= j -> j <= String.length s -> moves k (lex_at s i pv) (lex_at s j pv).
Proof. intros Hi Hj. unfold moves. cbn. pose proof (wf_lex_at s j pv Hj). intuition lia. Qed.

Lemma moves_refl (l : Lexer) : wf l -> moves 0 l l.
Proof. intros H. unfold moves. intuition lia. Qed.

Lemma moves_trans (a b : nat) (l l1 l2 : Lexer) : moves a l l1 -> moves b l1 l2 -> moves (a + b) l l2.
Proof. unfold moves. intros (H1 & H2 & H3 & H4) (H5 & H6 & H7 & H8). intuition (congruence || lia). Qed.

Lemma moves_le (a b : nat) (l l' : Lexer) : moves b l l' -> a <= b -> moves a l l'.
Proof. unfold moves. intros (H1 & H2 & H3 & H4) Hab. intuition lia. Qed.

Lemma wf_inside (l : Lexer) : wf l -> ch l <> NUL -> pos l < String.length (input l).
Proof. intros [E _] H. apply byte_at_inside. rewrite E in H. exact H. Qed.

Lemma wf_peek_inside (l : Lexer) : wf l -> peekChar l <> NUL -> S (pos l) < String.length (input l).
Proof. intros [E _] H. rewrite E, peekChar_at in H. now apply byte_at_inside. Qed.

Lemma moves_readChar (l : Lexer) : wf l -> ch l <> NUL -> moves 1 l (readChar l).
Proof.
  intros Hwf H. pose proof (wf_inside l Hwf H). destruct Hwf as [E _]. rewrite E.
  rewrite readChar_at. apply moves_at; cbn; lia.
Qed.

Lemma moves_readChar2 (l : Lexer) : wf l -> peekChar l <> NUL -> moves 2 l (readChar (readChar l)).
Proof.
  intros Hwf H. pose proof (wf_peek_inside l Hwf H). destruct Hwf as [E _]. rewrite E.
  rewrite !readChar_at. apply moves_at; cbn; lia.
Qed.

Lemma ch_readChar (l : Lexer) : wf l -> ch (readChar l) = peekChar l.
Proof. intros [E _]. rewrite E, readChar_at, peekChar_at. reflexivity. Qed.

Lemma moves_readWhile (p : ascii -> bool) (l : Lexer) :
  p NUL = false -> wf l -> moves 0 l (readWhile p l) /\ p (ch (readWhile p l)) = false.
Proof.
  intros Hp [E Hle]. rewrite E, readWhile_at. cbn. split.
  - apply moves_at; [pose proof (span_ge p (input l) (pos l))|]; try lia. now apply span_le.
  - now apply span_stops.
Qed.

Lemma moves_readWhile1 (p : ascii -> bool) (l : Lexer) :
  p NUL = false -> wf l -> p (ch l) = true -> moves 1 l (readWhile p l).
Proof.
  intros Hp [E Hle] H. rewrite E in H |- *. cbn in H. rewrite readWhile_at.
  rewrite span_unfold by easy. rewrite H. apply moves_at; cbn.
  - pose proof (span_ge p (input l) (S (pos l))). lia.
  - apply span_le. apply (p_inside p) in H; [lia|easy].
Qed.

(** Chains of moves: normalise to one hypothesis about the end state. *)
Ltac moves_chain :=
  match goal with
  | H1 : moves ?a ?l ?m, H2 : moves ?b ?m ?n |- moves _ ?l ?n =>
      apply (moves_le _ (a + b)); [exact (moves_trans a b l m n H1 H2) | lia]
  | H : moves ?a ?l ?m |- moves _ ?l ?m => apply (moves_le _ a); [exact H | lia]
  end.

Lemma moves_wf (k : nat) (l l' : Lexer) : moves k l l' -> wf l'.
Proof. now intros []. Qed.
#[export] Hint Resolve moves_wf moves_refl : lex.

Lemma moves_remaining (k : nat) (l l' : Lexer) : moves k l l' -> remaining l' + k <= remaining l.
Proof. intros ([_ Hle] & Hin & _ & Hpos). unfold remaining. rewrite Hin in *. lia. Qed.

(** *** Block comments and white space *)

Lemma block_comment_loop_unfold (l : Lexer) :
  wf l -> block_comment_loop (remaining l) l =
    if ch l =b NUL then l
    else if (ch l =b "*") && (peekChar l =b "/") then readChar (readChar l)
    else block_comment_loop (remaining (readChar l)) (readChar l).
Proof.
  intros Hwf. destruct (ch l =b NUL) eqn:E.
  - destruct (remaining l); cbn [block_comment_loop]; [easy|]. now rewrite E.
  - bool_hyps. pose proof (wf_inside l Hwf E). destruct Hwf as [El _].
    replace (remaining l) with (S (remaining (readChar l))).
    + cbn [block_comment_loop]. rewrite <- Ascii.eqb_neq in E. now rewrite E.
    + rewrite El, readChar_at, !remaining_at. cbn. lia.
Qed.

Lemma moves_block_comment_loop (l : Lexer) : wf l -> moves 0 l (block_comment_loop (remaining l) l).
Proof.
  remember (remaining l) as n eqn:En. revert l En.
  induction n as [n IH] using lt_wf_ind; intros l -> Hwf.
  rewrite block_comment_loop_unfold by easy.
  destruct (ch l =b NUL) eqn:E; [now apply moves_refl|]. bool_hyps.
  destruct ((ch l =b "*") && (peekChar l =b "/")) eqn:E2.
  - bool_hyps. apply (moves_le 0 2); [|lia]. apply moves_readChar2; [easy|]. now rewrite H0.
  - pose proof (moves_readChar l Hwf E) as M. pose proof (moves_remaining _ _ _ M).
    pose proof (IH (remaining (readChar l)) ltac:(lia) (readChar l) eq_refl (moves_wf _ _ _ M)) as M2.
    moves_chain.
Qed.

Lemma moves_skipBlockComment (l : Lexer) :
  wf l -> peekChar l <> NUL -> moves 2 l (skipBlockComment l).
Proof.
  intros Hwf H. unfold skipBlockComment. pose proof (moves_readChar2 l Hwf H) as M.
  pose proof (moves_block_comment_loop _ (moves_wf _ _ _ M)) as M2. moves_chain.
Qed.

Lemma moves_skip_whitespace (n : nat) (l : Lexer) : wf l -> moves 0 l (skip_whitespace n l).
Proof.
  revert l; induction n; intros l Hwf; cbn [skip_whitespace];
    destruct (moves_readWhile isSpace l isSpace_NUL Hwf) as [M _]; [exact M|].
  case_if; [|exact M]. bool_hyps.
  pose proof (moves_skipBlockComment (readWhile isSpace l) (moves_wf _ _ _ M)) as M2.
  rewrite H0 in M2. specialize (M2 ltac:(easy)).
  pose proof (IHn _ (moves_wf _ _ _ M2)) as M3.
  pose proof (moves_trans _ _ _ _ _ M M2) as M4. moves_chain.
Qed.

Lemma moves_skipWhitespace (l : Lexer) : wf l -> moves 0 l (skipWhitespace l).
Proof. intros H. now apply moves_skip_whitespace. Qed.

(** After [skipWhitespace] the current character starts a token: it is no white space, and no
    block comment starts here. *)
Lemma skip_whitespace_stops (n : nat) (l : Lexer) :
  wf l -> remaining l <= n ->
  isSpace (ch (skip_whitespace n l)) = false /\
  (ch (skip_whitespace n l) =b "/") && (peekChar (skip_whitespace n l) =b "*") = false.
Proof.
  revert l; induction n; intros l Hwf Hn; cbn [skip_whitespace];
    destruct (moves_readWhile isSpace l isSpace_NUL Hwf) as [M Hs].
  - split; [exact Hs|]. pose proof (moves_remaining _ _ _ M).
    destruct (ch (readWhile isSpace l) =b "/") eqn:E; [|easy]. bool_hyps.
    pose proof (wf_inside _ (moves_wf _ _ _ M)) as Hin. rewrite E in Hin.
    specialize (Hin ltac:(easy)). unfold remaining in *. lia.
  - case_if; [|easy]. bool_hyps.
    pose proof (moves_skipBlockComment (readWhile isSpace l) (moves_wf _ _ _ M)) as M2.
    rewrite H0 in M2. specialize (M2 ltac:(easy)).
    pose proof (moves_remaining _ _ _ M). pose proof (moves_remaining _ _ _ M2).
    apply IHn; [eauto with lex|lia].
Qed.

(** *** String and blob literals *)

Lemma moves_string_loop (n : nat) (l : Lexer) (sb : string) :
  wf l -> moves 0 l (snd (string_loop n l sb)).
Proof.
  revert l sb; induction n; intros l sb Hwf; cbn [string_loop]; [now apply moves_refl|].
  destruct (ch l =b NUL) eqn:E; [now apply moves_refl|]. bool_hyps.
  pose proof (moves_readChar l Hwf E) as M.
  destruct (ch l =b SQUOTE); [destruct (peekChar l =b SQUOTE) eqn:E2|].
  - bool_hyps. pose proof (moves_readChar2 l Hwf) as M2. rewrite E2 in M2.
    specialize (M2 ltac:(easy)).
    pose proof (IHn _ (sb ++ str1 SQUOTE) (moves_wf _ _ _ M2)) as M3. moves_chain.
  - cbn [snd]. moves_chain.
  - pose proof (IHn _ (sb ++ str1 (ch l)) (moves_wf _ _ _ M)) as M2. moves_chain.
Qed.

Lemma moves_blob_loop (n : nat) (l : Lexer) (sb : string) :
  wf l -> moves 0 l (snd (blob_loop n l sb)).
Proof.
  revert l sb; induction n; intros l sb Hwf; cbn [blob_loop]; [now apply moves_refl|].
  destruct (negb (ch l =b SQUOTE) && negb (ch l =b NUL)) eqn:E; [|now apply moves_refl].
  bool_hyps. pose proof (moves_readChar l Hwf H0) as M.
  destruct (isHexDigit (ch l)); [|destruct (negb (isSpace (ch l)))].
  - pose proof (IHn _ (sb ++ str1 (ch l)) (moves_wf _ _ _ M)) as M2. moves_chain.
  - now apply moves_refl.
  - pose proof (IHn _ sb (moves_wf _ _ _ M)) as M2. moves_chain.
Qed.

(** The result of [blob_loop] is an error or ends at the closing quote or the end of input. *)
Lemma blob_loop_end (n : nat) (l : Lexer) (sb s : string) (l' : Lexer) :
  wf l -> remaining l <= n -> blob_loop n l sb = (inr s, l') -> ch l' = SQUOTE \/ ch l' = NUL.
Proof.
  revert l sb; induction n; intros l sb Hwf Hn; cbn [blob_loop]; intros E.
  - injection E as -> ->. right. destruct Hwf as [El Hle]. rewrite El. unfold remaining in Hn.
    cbn. apply byte_at_end. lia.
  - destruct (negb (ch l =b SQUOTE) && negb (ch l =b NUL)) eqn:Ec.
    + bool_hyps. pose proof (moves_readChar l Hwf H0) as M. pose proof (moves_remaining _ _ _ M).
      destruct (isHexDigit (ch l)); [|destruct (negb (isSpace (ch l)))]; try discriminate;
        (eapply IHn; [| |exact E]; [eauto with lex|lia]).
    + injection E as -> ->. apply andb_false_iff in Ec as [Ec|Ec]; bool_hyps; auto.
Qed.

(** *** The token readers *)

Lemma moves_readLineComment (l : Lexer) :
  wf l -> ch l <> LF -> ch l <> NUL -> moves 1 l (snd (readLineComment l)).
Proof.
  intros Hwf H1 H2. unfold readLineComment. cbn [snd].
  apply moves_readWhile1; auto. unfold not_ch.
  apply Ascii.eqb_neq in H1, H2. now rewrite H1, H2.
Qed.

Lemma moves_readString (l : Lexer) : wf l -> ch l <> NUL -> moves 1 l (snd (readString l)).
Proof.
  intros Hwf H. pose proof (moves_readChar l Hwf H) as M. unfold readString.
  pose proof (moves_string_loop (remaining (readChar l)) (readChar l) EmptyString (moves_wf _ _ _ M)) as M2.
  destruct (string_loop _ _ _) as [[s|] l']; cbn in *; moves_chain.
Qed.

Lemma moves_delimited (q : ascii) (l : Lexer) :
  wf l -> ch l <> NUL ->
  moves 1 l (let l2 := readWhile (not_ch q) (readChar l) in if ch l2 =b NUL then l2 else readChar l2).
Proof.
  intros Hwf H. pose proof (moves_readChar l Hwf H) as M.
  destruct (moves_readWhile (not_ch q) _ (not_ch_NUL q) (moves_wf _ _ _ M)) as [M2 _].
  cbv zeta. case_if; [moves_chain|]. bool_hyps.
  pose proof (moves_readChar _ (moves_wf _ _ _ M2) Heqb) as M3.
  pose proof (moves_trans _ _ _ _ _ M M2) as M4. moves_chain.
Qed.

Lemma moves_readQuotedIdentifier (q : ascii) (l : Lexer) :
  wf l -> ch l <> NUL -> moves 1 l (snd (readQuotedIdentifier q l)).
Proof.
  intros Hwf H. pose proof (moves_delimited q l Hwf H) as M. unfold readQuotedIdentifier.
  cbv zeta in *. now destruct (ch _ =b NUL).
Qed.

Lemma moves_readBracketIdentifier (l : Lexer) :
  wf l -> ch l <> NUL -> moves 1 l (snd (readBracketIdentifier l)).
Proof.
  intros Hwf H. pose proof (moves_delimited "]" l Hwf H) as M. unfold readBracketIdentifier.
  cbv zeta in *. now destruct (ch _ =b NUL).
Qed.

Lemma moves_readBlob (l : Lexer) : wf l -> peekChar l <> NUL -> moves 2 l (snd (readBlob l)).
Proof.
  intros Hwf H. pose proof (moves_readChar2 l Hwf H) as M. unfold readBlob. cbv zeta.
  pose proof (moves_blob_loop (remaining (readChar (readChar l))) _ EmptyString (moves_wf _ _ _ M)) as M2.
  destruct (blob_loop _ _ _) as [[msg|sb] l']; cbn [snd] in *; [moves_chain|].
  destruct (ch l' =b NUL) eqn:E; cbn [snd]; [moves_chain|]. bool_hyps.
  pose proof (moves_readChar l' (moves_wf _ _ _ M2) E) as M3.
  pose proof (moves_trans _ _ _ _ _ M M2) as M4.
  destruct (negb _); cbn [snd]; moves_chain.
Qed.

Lemma moves_readIdentifier (l : Lexer) :
  wf l -> isIdentChar (ch l) = true -> moves 1 l (snd (readIdentifier l)).
Proof. intros Hwf H. now apply moves_readWhile1. Qed.

Lemma moves_readDigits (l : Lexer) : wf l -> moves 0 l (readDigits l).
Proof. intros H. now apply moves_readWhile. Qed.

Lemma moves_readNumber (l : Lexer) : wf l -> isDigit (ch l) = true -> moves 1 l (snd (readNumber l)).
Proof.
  intros Hwf H. unfold readNumber. cbv zeta. cbn [snd].
  assert (M1 : moves 1 l (readDigits l)) by now apply moves_readWhile1.
  set (l1 := readDigits l) in *.
  set (l2 := if (ch l1 =b ".") && isDigit (peekChar l1) then readDigits (readChar l1) else l1).
  assert (M2 : moves 0 l1 l2).
  { subst l2. case_if; [|apply moves_refl; eauto with lex]. bool_hyps.
    pose proof (moves_readChar l1 (moves_wf _ _ _ M1)) as M. rewrite H0 in M. specialize (M ltac:(easy)).
    pose proof (moves_readDigits _ (moves_wf _ _ _ M)) as M'. moves_chain. }
  pose proof (moves_trans _ _ _ _ _ M1 M2) as M3.
  destruct ((ch l2 =b "e") || (ch l2 =b "E")) eqn:E; [|moves_chain].
  assert (Hc : ch l2 <> NUL) by (intros E0; rewrite E0 in E; discriminate).
  pose proof (moves_readChar l2 (moves_wf _ _ _ M2) Hc) as M4.
  set (m := if _ : bool then _ else _) in |- *.
  assert (M5 : moves 0 (readChar l2) m).
  { subst m. case_if; [|apply moves_refl; eauto with lex].
    assert (Hc' : ch (readChar l2) <> NUL) by (intros E0; rewrite E0 in Heqb; discriminate).
    pose proof (moves_readChar _ (moves_wf _ _ _ M4) Hc'). moves_chain. }
  pose proof (moves_readDigits m (moves_wf _ _ _ M5)) as M6.
  pose proof (moves_trans _ _ _ _ _ M3 M4) as M7. pose proof (moves_trans _ _ _ _ _ M7 M5) as M8.
  moves_chain.
Qed.

(** *** One token *)

Lemma LookupKeyword_not_special (s : string) :
  token_in (LookupKeyword s) [TokenEOF; TokenError; TokenComment] = false.
Proof.
  unfold LookupKeyword. destruct (assoc s keywords) as [t|] eqn:E; [|reflexivity].
  apply assoc_In in E.
  assert (F : forallb (fun kt => negb (token_in (snd kt) [TokenEOF; TokenError; TokenComment])) keywords = true)
    by (vm_compute; reflexivity).
  rewrite forallb_forall in F. apply F in E. cbn [snd] in E. now apply negb_true_iff.
Qed.

Lemma single_tokens_chars (c : ascii) (t : TokenType) :
  assoc (str1 c) single_tokens = Some t -> c <> NUL /\ token_in t [TokenEOF; TokenError; TokenComment] = false.
Proof.
  intros H. apply assoc_In in H.
  assert (F : forallb (fun st => negb (fst st =s str1 NUL) &&
                negb (token_in (snd st) [TokenEOF; TokenError; TokenComment])) single_tokens = true)
    by (vm_compute; reflexivity).
  rewrite forallb_forall in F. apply F in H. cbn [fst snd] in H. bool_hyps. split; [|easy].
  intros ->. congruence.
Qed.

(** What [scanOperator] reads is what it looked at: [n] characters, none of them NUL. *)
Lemma moves_scanOperator (l : Lexer) (t : TokenType) (lit : string) (n : nat) :
  wf l -> scanOperator l = Some (t, lit, n) ->
  moves 1 l (readChars n l) /\ t <> TokenEOF /\ t <> TokenComment.
Proof.
  intros Hwf. unfold scanOperator.
  assert (P1 : ch l <> NUL -> moves 1 l (readChars 1 l)) by (intros; now apply moves_readChar).
  assert (P2 : peekChar l <> NUL -> moves 1 l (readChars 2 l)).
  { intros H. apply (moves_le 1 2); [|lia]. now apply moves_readChar2. }
  assert (P3 : peekChar l <> NUL -> peekChar (readChar l) <> NUL -> ch l <> NUL ->
               moves 1 l (readChars 3 l)).
  { intros H1 H2 H3. pose proof (moves_readChar l Hwf H3) as M.
    pose proof (moves_readChar2 _ (moves_wf _ _ _ M) H2). cbn [readChars]. moves_chain. }
  assert (N : forall c d : ascii, (c =b d) = true -> d <> NUL -> c <> NUL).
  { intros c d E H. bool_hyps. congruence. }
  repeat match goal with
  | |- context [if ?a =b ?b then _ else _] => destruct (a =b b) eqn:?
  end; intros E; try discriminate E; injection E as <- <- <-;
  (split; [|split; discriminate]);
  first [apply P1 | apply P2 | apply P3]; (eapply N; [eassumption|discriminate]).
Qed.

(** The kind of the token a reader returns. *)
Lemma scanRest_type (l : Lexer) : Type_ (fst (scanRest l)) <> TokenEOF.
Proof.
  unfold scanRest. cbv zeta.
  repeat case_if; try discriminate; unfold readString, readQuotedIdentifier, readBracketIdentifier,
    readBlob; cbv zeta.
  - destruct (string_loop _ _ _) as [[s|] l']; discriminate.
  - case_if; discriminate.
  - case_if; discriminate.
  - case_if; discriminate.
  - destruct (blob_loop _ _ _) as [[m|s] l']; [discriminate|]. repeat case_if; discriminate.
  - cbn. intros E. pose proof (LookupKeyword_not_special (ToUpper (slice (input l) (pos l) (pos (readWhile isIdentChar l))))) as F.
    rewrite E in F. discriminate.
Qed.

Lemma moves_scanRest (l : Lexer) :
  wf l -> ch l <> NUL -> moves 1 l (snd (scanRest l)).
Proof.
  intros Hwf H. pose proof (moves_readChar l Hwf H) as M1.
  assert (P : forall c : ascii, (peekChar l =b c) = true -> c <> NUL -> peekChar l <> NUL)
    by (intros; bool_hyps; congruence).
  assert (M2 : forall c : ascii, (peekChar l =b c) = true -> c <> NUL -> moves 2 l (readChar (readChar l)))
    by (intros c Hc Hn; apply moves_readChar2; eauto).
  unfold scanRest. cbv zeta.
  destruct (ch l =b "-") eqn:E1; [repeat case_if|].
  - bool_hyps. apply moves_readLineComment; auto; rewrite E1; discriminate.
  - cbn [snd]. bool_hyps. pose proof (moves_readChar2 (readChar l) (moves_wf _ _ _ M1)) as M3.
    rewrite Heqb1 in M3. specialize (M3 ltac:(discriminate)). moves_chain.
  - cbn [snd]. specialize (M2 _ Heqb0 ltac:(discriminate)). moves_chain.
  - cbn [snd]. moves_chain.
  - repeat case_if; cbn [snd]; auto using moves_readString, moves_readQuotedIdentifier,
      moves_readBracketIdentifier.
    + match goal with H : (peekChar l =b _) = true |- _ => specialize (M2 _ H ltac:(discriminate)) end.
      moves_chain.
    + bool_hyps. apply (moves_le 1 2); [|lia]. apply moves_readBlob; [easy|].
      match goal with H : peekChar l = _ |- _ => rewrite H end. discriminate.
    + apply moves_readIdentifier; [easy|]. unfold isIdentChar.
      match goal with H : (isLetter _ || _)%bool = true |- _ =>
        apply orb_prop in H as [->| ->]; now rewrite ?orb_true_r end.
    + now apply moves_readNumber.
Qed.

(** At a character that is not NUL, [scanToken] reads at least one character and returns a
    token that is not the end mark; at NUL it returns the end mark and reads nothing. *)
Lemma scanToken_progress (l : Lexer) :
  wf l -> ch l <> NUL -> moves 1 l (snd (scanToken l)) /\ Type_ (fst (scanToken l)) <> TokenEOF.
Proof.
  intros Hwf H. unfold scanToken. rewrite (proj2 (Ascii.eqb_neq _ _) H).
  destruct (assoc (str1 (ch l)) single_tokens) as [t|] eqn:E.
  - apply single_tokens_chars in E as [_ E]. cbn. split; [now apply moves_readChar|].
    intros ->. discriminate.
  - destruct (scanOperator l) as [[[t lit] n]|] eqn:E2.
    + apply moves_scanOperator in E2 as (M & H1 & _); [now cbn|easy].
    + split; [now apply moves_scanRest|apply scanRest_type].
Qed.

Lemma scanToken_end (l : Lexer) : ch l = NUL -> scanToken l = (tok_at l TokenEOF EmptyString, l).
Proof. intros H. unfold scanToken. now rewrite H. Qed.

Lemma wf_with_prev (l : Lexer) (t : TokenType) : wf l -> wf (with_prev l t).
Proof. intros [E H]. split; [|exact H]. rewrite E. reflexivity. Qed.

(** [NextToken] in terms of the position it scans from. *)
Lemma NextToken_scan (l : Lexer) :
  exists l', NextToken l = (fst (scanToken (skipWhitespace l)), l') /\
    l' = (if Type_ (fst (scanToken (skipWhitespace l))) =t TokenComment
          then snd (scanToken (skipWhitespace l))
          else with_prev (snd (scanToken (skipWhitespace l))) (Type_ (fst (scanToken (skipWhitespace l))))).
Proof. unfold NextToken. destruct (scanToken (skipWhitespace l)) as [t l']. cbn. eauto. Qed.

Lemma NextToken_invariant (l : Lexer) :
  wf l ->
  let (t, l') := NextToken l in
  wf l' /\ input l' = input l /\
  (Type_ t = TokenEOF -> pos l <= pos l' /\ ch l' = NUL) /\
  (Type_ t <> TokenEOF -> pos l < pos l').
Proof.
  intros Hwf. destruct (NextToken_scan l) as (l' & -> & ->).
  pose proof (moves_skipWhitespace l Hwf) as M. set (m := skipWhitespace l) in *.
  destruct (ascii_dec (ch m) NUL) as [E|E].
  - rewrite scanToken_end by easy. cbn [fst snd Type_ tok_at].
    rewrite (proj2 (token_eqb_neq _ _)) by discriminate.
    destruct M as (Hm & Hi & Hp & Hle). apply (wf_with_prev _ TokenEOF) in Hm.
    cbn. intuition lia.
  - destruct (scanToken_progress m (moves_wf _ _ _ M) E) as [M2 Ht].
    destruct (scanToken m) as [t l']. cbn [fst snd] in *.
    pose proof (moves_trans _ _ _ _ _ M M2) as (Hw & Hi & Hp & Hle).
    pose proof (wf_with_prev _ (Type_ t) Hw).
    destruct (Type_ t =t TokenComment); cbn; intuition (easy || lia).
Qed.

(** ** Properties of the lexer *)

(** ** Termination and positions *)

Lemma tokenize_ends (n : nat) (l : Lexer) :
  wf l -> remaining l < n ->
  exists front last, fst (tokenize n l) = (front ++ [last])%list /\
    (Type_ last = TokenEOF \/ Type_ last = TokenError) /\
    Forall (fun t => Type_ t <> TokenEOF /\ Type_ t <> TokenError) front.
Proof.
  revert l; induction n; intros l Hwf Hn; [lia|]. cbn [tokenize].
  pose proof (NextToken_invariant l Hwf) as H. destruct (NextToken l) as [t l'].
  destruct H as (Hwf' & Hin & _ & Hp).
  destruct ((Type_ t =t TokenEOF) || (Type_ t =t TokenError)) eqn:E.
  - exists [], t. repeat split; [|constructor].
    apply orb_prop in E as [E|E]; apply token_eqb_eq in E; auto.
  - apply orb_false_elim in E as [E1 E2]. apply token_eqb_neq in E1, E2.
    destruct (IHn l' Hwf') as (front & last & Hf & Hl & Hall).
    { specialize (Hp E1). destruct Hwf' as [_ Hle]. unfold remaining in *. rewrite Hin in *. lia. }
    destruct (tokenize n l') as [toks l'']. cbn in *. subst toks.
    exists (t :: front), last. repeat split; auto.
Qed.

(** For every input, [Tokenize] terminates: the token list is not cut short by the fuel but
    ends in the end mark or in an error token, and no token before it is either. *)
Theorem tokenize_terminates (s : string) :
  exists front last, fst (Tokenize (New s)) = (front ++ [last])%list /\
    (Type_ last = TokenEOF \/ Type_ last = TokenError) /\
    Forall (fun t => Type_ t <> TokenEOF /\ Type_ t <> TokenError) front.
Proof. rewrite New_at. apply tokenize_ends; [apply wf_lex_at; lia|lia]. Qed.

Lemma scanRest_position (l : Lexer) :
  (Line (fst (scanRest l)), Column (fst (scanRest l))) = (line l, column l).
Proof.
  unfold scanRest. cbv zeta.
  repeat case_if; try reflexivity; unfold readString, readQuotedIdentifier, readBracketIdentifier,
    readBlob; cbv zeta.
  - now destruct (string_loop _ _ _) as [[s|] l'].
  - now case_if.
  - now case_if.
  - now case_if.
  - destruct (blob_loop _ _ _) as [[m|s] l']; [easy|]. now repeat case_if.
Qed.

Lemma scanToken_position (l : Lexer) :
  (Line (fst (scanToken l)), Column (fst (scanToken l))) = (line l, column l).
Proof.
  unfold scanToken. destruct (ch l =b NUL); [easy|].
  destruct (assoc _ _); [easy|]. destruct (scanOperator l) as [[[t lit] n]|]; [easy|].
  apply scanRest_position.
Qed.

(** On every reachable state, [NextToken] keeps the state invariant (the input is unchanged,
    the position stays inside it, the current character and the line and column counters are
    those of the position), reads at least one character unless it returns the end mark, and
    stamps the token with the line and column of its first character, which is neither white
    space nor the start of a block comment. *)
Theorem next_token_position (l : Lexer) (Hwf : wf l) :
  let (t, l') := NextToken l in
  wf l' /\ input l' = input l /\
  (Type_ t <> TokenEOF -> pos l < pos l') /\
  exists i, pos l <= i <= pos l' /\
    isSpace (byte_at (input l) i) = false /\
    (byte_at (input l) i =b "/") && (byte_at (input l) (S i) =b "*") = false /\
    (Line t, Column t) = position_of (input l) i.
Proof.
  pose proof (NextToken_invariant l Hwf) as H.
  destruct (NextToken_scan l) as (l' & E & El'). rewrite E in H |- *.
  destruct H as (Hw & Hi & _ & Hp). split; [easy|]. split; [easy|]. split; [easy|].
  pose proof (moves_skipWhitespace l Hwf) as M.
  pose proof (skip_whitespace_stops (remaining l) l Hwf (le_n _)) as [S1 S2].
  fold (skipWhitespace l) in S1, S2. set (m := skipWhitespace l) in *.
  destruct M as (Hm & Hin & Hpr & Hle). exists (pos m).
  rewrite <- Hin in *. destruct Hm as [Em Hm']. split; [split; [lia|]|].
  - destruct (ascii_dec (ch m) NUL) as [En|En].
    + rewrite scanToken_end in El' by easy. cbn in El'. subst l'. cbn. lia.
    + destruct (scanToken_progress m (conj Em Hm') En) as [(_ & _ & _ & M) _].
      subst l'. destruct (_ =t _); cbn; lia.
  - rewrite Em in S1, S2. rewrite ch_at in S1. rewrite ch_at, peekChar_at in S2.
    split; [exact S1|]. split; [exact S2|].
    rewrite scanToken_position, Em. cbn [line column lex_at pos input]. now destruct (position_of _ _).
Qed.

Lemma next_token_position_witness :
  let l := New "a  /* x */ b" in
  wf l /\ let (t, l') := NextToken l in Type_ t = TokenIdent /\ pos l < pos l'.
Proof.
  assert (W : wf (New "a  /* x */ b")) by (rewrite New_at; apply wf_lex_at; lia).
  split; [exact W|]. pose proof (next_token_position _ W) as H.
  destruct (NextToken (New "a  /* x */ b")) as [t l'] eqn:E.
  vm_compute in E. injection E as <- <-. split; [reflexivity|].
  destruct H as (_ & _ & H & _). apply H. discriminate.
Defined.

(** ** Reading back what was written

    The lemmas scan one token from an input [a ++ text ++ rest] at the position after [a]. *)

Definition no_NUL (s : string) : bool := string_forallb (fun c => negb (c =b NUL)) s.

(** No current-character test of the [switch] that names another character succeeds. *)
Ltac skip_cases H :=
  repeat match goal with
  | |- context [if (ch ?l =b ?b) then _ else _] =>
      let E := fresh "E" in
      destruct (ch l =b b) eqn:E;
      [exfalso; apply Ascii.eqb_eq in E; rewrite E in H; discriminate H|]
  end.

Lemma single_none (c : ascii) (p : ascii -> bool) :
  p c = true -> forallb (fun st => negb (string_forallb p (fst st))) single_tokens = true ->
  assoc (str1 c) single_tokens = None.
Proof.
  intros Hp H. destruct (assoc (str1 c) single_tokens) as [t|] eqn:E; [|easy].
  apply assoc_In in E. rewrite forallb_forall in H. apply H in E. cbn in E. now rewrite Hp in E.
Qed.

(** *** Words *)

Definition isWordStart (c : ascii) : bool := isLetter c || (c =b "_").

Lemma scanToken_word (l : Lexer) :
  isWordStart (ch l) = true -> peekChar l <> SQUOTE -> scanToken l = readIdentifier l.
Proof.
  intros H Hq. unfold scanToken. rewrite (single_none _ isWordStart H) by reflexivity.
  unfold scanOperator, scanRest. cbv zeta. skip_cases H.
  rewrite (proj2 (Ascii.eqb_neq _ _) Hq), andb_false_r. unfold isWordStart in H.
  now rewrite H.
Qed.

Lemma readWhile_body (p : ascii -> bool) (a b rest : string) (pv : TokenType) :
  p NUL = false -> string_forallb p b = true -> p (byte_at rest 0) = false ->
  readWhile p (lex_at (a ++ (b ++ rest)) (String.length a) pv) =
  lex_at (a ++ (b ++ rest)) (String.length a + String.length b) pv.
Proof.
  intros Hp Hb Hr. rewrite readWhile_at. f_equal. apply span_exact; [easy| |].
  - intros k Hk. rewrite byte_at_app_r. now apply byte_at_forallb.
  - rewrite byte_at_app_r. now rewrite <- (Nat.add_0_r (String.length b)), byte_at_app_r.
Qed.

Lemma read_word (a w rest : string) (pv : TokenType) :
  string_forallb isIdentChar w = true -> isIdentChar (byte_at rest 0) = false ->
  readIdentifier (lex_at (a ++ (w ++ rest)) (String.length a) pv) =
  (tok_at (lex_at (a ++ (w ++ rest)) (String.length a) pv) (LookupKeyword (ToUpper w)) w,
   lex_at (a ++ (w ++ rest)) (String.length a + String.length w) pv).
Proof.
  intros Hw Hr. unfold readIdentifier. cbv zeta. rewrite readWhile_body by auto.
  cbn [input pos lex_at]. now rewrite slice_app.
Qed.

(** The first character after white space and comments: nothing is skipped at a token start. *)
Lemma skipWhitespace_none (l : Lexer) :
  isSpace (ch l) = false -> (ch l =b "/") = false -> skipWhitespace l = l.
Proof.
  intros Hs Hc. unfold skipWhitespace.
  assert (E : readWhile isSpace l = l).
  { unfold readWhile. destruct (remaining l); cbn [read_while]; [easy|]. now rewrite Hs. }
  destruct (remaining l); cbn [skip_whitespace]; rewrite E; [easy|]. now rewrite Hc.
Qed.

(** A word, that is a sequence of identifier characters that starts with a letter or an
    underscore and is followed by none, is one token, whose type is the keyword the word spells
    in any case, or an identifier, and whose literal is the word as written. *)
Theorem lex_word (a w rest : string) (pv : TokenType)
    (Hstart : isWordStart (byte_at w 0) = true)
    (Hword : string_forallb isIdentChar w = true)
    (Hend : isIdentChar (byte_at rest 0) = false)
    (Hquote : byte_at rest 0 <> SQUOTE) :
  let s := a ++ (w ++ rest) in
  let ty := LookupKeyword (ToUpper w) in
  NextToken (lex_at s (String.length a) pv) =
  (tok_at (lex_at s (String.length a) pv) ty w, lex_at s (String.length a + String.length w) ty).
Proof.
  cbv zeta.
  assert (Hc : byte_at (a ++ (w ++ rest)) (String.length a) = byte_at w 0).
  { rewrite <- (Nat.add_0_r (String.length a)), byte_at_app_r. destruct w; [discriminate|easy]. }
  unfold NextToken. rewrite skipWhitespace_none.
  - rewrite scanToken_word; [rewrite read_word by auto| |].
    + cbn [Type_ tok_at]. rewrite with_prev_at.
      pose proof (LookupKeyword_not_special (ToUpper w)) as N. cbn [token_in existsb] in N.
      bool_hyps. unfold token_eqb in *. rewrite Nat.eqb_sym in H1.
      destruct (code (LookupKeyword (ToUpper w)) =? code TokenComment)%nat eqn:E; [|reflexivity].
      apply Nat.eqb_eq in E. rewrite E in H1. discriminate.
    + now rewrite ch_at, Hc.
    + rewrite peekChar_at, <- Nat.add_1_r, byte_at_app_r.
      destruct w as [|c [|d w]]; [discriminate|exact Hquote|]. intros E.
      pose proof (byte_at_forallb isIdentChar _ rest 1 Hword) as Hd. rewrite E in Hd.
      discriminate Hd. cbn; lia.
  - rewrite ch_at, Hc. destruct (isSpace (byte_at w 0)) eqn:E; [|easy]. exfalso.
    unfold isSpace in E. repeat (apply orb_prop in E as [E|E]); apply Ascii.eqb_eq in E; rewrite E in Hstart; discriminate.
  - rewrite ch_at, Hc. destruct (byte_at w 0 =b "/") eqn:E; [|easy]. exfalso.
    apply Ascii.eqb_eq in E. rewrite E in Hstart. discriminate.
Qed.

Lemma lex_word_witness :
  let s := "x, sElect * from" in
  NextToken (lex_at s 3 TokenComma) = (tok_at (lex_at s 3 TokenComma) TokenSELECT "sElect", lex_at s 9 TokenSELECT).
Proof. exact (lex_word "x, " "sElect" " * from" TokenComma eq_refl eq_refl eq_refl ltac:(discriminate)). Defined.

(** *** Tokens that start with a delimiter *)

(** The token that starts at the position after [a], when the character there is neither white
    space nor a slash and the scanner returns a token that is not a comment. *)
Lemma NextToken_at (s : string) (i : nat) (pv : TokenType) (t : Token) (j : nat) :
  isSpace (byte_at s i) = false -> (byte_at s i =b "/") = false ->
  scanToken (lex_at s i pv) = (t, lex_at s j pv) -> Type_ t <> TokenComment ->
  NextToken (lex_at s i pv) = (t, lex_at s j (Type_ t)).
Proof.
  intros Hs Hc Ht Hn. unfold NextToken. rewrite skipWhitespace_none by easy. rewrite Ht.
  now rewrite (proj2 (token_eqb_neq _ _) Hn).
Qed.

Lemma byte_at_app_0 (a b : string) : byte_at (a ++ b) (String.length a) = byte_at b 0.
Proof. rewrite <- (Nat.add_0_r (String.length a)) at 1. apply byte_at_app_r. Qed.

Lemma string_loop_body (v rest : string) (pv : TokenType) (n : nat) (a sb : string) :
  no_NUL v = true -> byte_at rest 0 <> SQUOTE ->
  String.length (ReplaceAll1 v SQUOTE "''") < n ->
  string_loop n (lex_at (a ++ (ReplaceAll1 v SQUOTE "''" ++ String SQUOTE rest)) (String.length a) pv) sb =
  (Some (sb ++ v), lex_at (a ++ (ReplaceAll1 v SQUOTE "''" ++ String SQUOTE rest))
                     (String.length a + S (String.length (ReplaceAll1 v SQUOTE "''"))) pv).
Proof.
  intros Hv Hr. revert n a sb.
  induction v as [|c v IH]; intros n a sb Hn; (destruct n; [lia|]); cbn [string_loop ReplaceAll1] in *.
  - cbn [append String.length]. autorewrite with lex. rewrite byte_at_app_0. cbn [byte_at String.get].
    replace (S (String.length a)) with (String.length a + 1) by lia. rewrite byte_at_app_r.
    change (byte_at (String SQUOTE rest) 1) with (byte_at rest 0).
    apply Ascii.eqb_neq in Hr. rewrite Hr. cbn.
    now autorewrite with gostr.
  - cbn [no_NUL string_forallb] in Hv. apply andb_prop in Hv as [Hc Hv]. apply negb_true_iff in Hc.
    destruct (c =b SQUOTE) eqn:Eq.
    + apply Ascii.eqb_eq in Eq. subst c. cbn [append String.length] in *.
      autorewrite with lex. rewrite byte_at_app_0. cbn [byte_at String.get].
      replace (S (String.length a)) with (String.length a + 1) by lia. rewrite byte_at_app_r.
      cbn [byte_at String.get]. change (SQUOTE =b NUL) with false. rewrite Ascii.eqb_refl. cbn iota.
      specialize (IH Hv n (a ++ "''") (sb ++ "'") ltac:(lia)).
      rewrite !append_assoc, !length_append in IH. cbn [append String.length] in IH.
      replace (S (String.length a + 1)) with (String.length a + 2) by lia.
      unfold str1, SQUOTE in *. rewrite IH. cbn. f_equal. f_equal. lia.
    + cbn [append String.length] in *. autorewrite with lex. rewrite byte_at_app_0.
      cbn [byte_at String.get]. rewrite Hc, Eq.
      specialize (IH Hv n (a ++ str1 c) (sb ++ str1 c) ltac:(lia)).
      rewrite !append_assoc, !length_append in IH. cbn [append String.length str1] in IH.
      replace (S (String.length a)) with (String.length a + 1) by lia.
      rewrite IH. cbn. f_equal. f_equal. lia.
Qed.

(** The text the formatter writes for a string value, the value between single quotes with
    every quote doubled, is read back as one string token with that value; a NUL byte in the value
    is excluded, because the lexer takes it for the end of the input. *)
Theorem lex_string_literal (a v rest : string) (pv : TokenType)
    (HNUL : no_NUL v = true) (Hend : byte_at rest 0 <> SQUOTE) :
  let body := ReplaceAll1 v SQUOTE "''" in
  let s := a ++ String SQUOTE (body ++ String SQUOTE rest) in
  NextToken (lex_at s (String.length a) pv) =
  (tok_at (lex_at s (String.length a) pv) TokenString v,
   lex_at s (String.length a + S (S (String.length body))) TokenString).
Proof.
  cbv zeta. set (body := ReplaceAll1 v SQUOTE "''").
  set (s := a ++ String SQUOTE (body ++ String SQUOTE rest)).
  assert (Hc : byte_at s (String.length a) = SQUOTE) by (unfold s; now rewrite byte_at_app_0).
  apply NextToken_at; try (rewrite Hc; reflexivity); [|discriminate].
  unfold scanToken, scanOperator, scanRest. cbv zeta. rewrite ch_at, Hc. cbn -[readString].
  unfold readString. cbv zeta. rewrite readChar_at, remaining_at.
  pose proof (string_loop_body v rest pv (String.length s - S (String.length a))
                (a ++ "'") EmptyString HNUL Hend) as L.
  rewrite append_assoc, length_append in L. fold body in L. cbn [append String.length] in L.
  change (a ++ String "'" (body ++ String SQUOTE rest)) with s in L.
  replace (String.length a + 1) with (S (String.length a)) in L by lia.
  rewrite L; cbn [append].
  - f_equal. f_equal. lia.
  - unfold s. rewrite length_append. cbn. rewrite length_append. cbn. lia.
Qed.

Lemma lex_string_literal_witness :
  let s := "= 'it''s' and" in
  NextToken (lex_at s 2 TokenEq) = (tok_at (lex_at s 2 TokenEq) TokenString "it's", lex_at s 9 TokenString).
Proof. exact (lex_string_literal "= " "it's" " and" TokenEq eq_refl ltac:(discriminate)). Defined.

Lemma length_app_S (a : string) (c : ascii) : String.length (a ++ str1 c) = S (String.length a).
Proof. rewrite length_append. cbn. lia. Qed.

Lemma app_cons (a b : string) (c : ascii) : a ++ String c b = (a ++ str1 c) ++ b.
Proof. now rewrite append_assoc. Qed.

Lemma readQuoted_body (q : ascii) (a name rest : string) (pv : TokenType) :
  q <> NUL -> string_forallb (not_ch q) name = true ->
  let s := a ++ String q (name ++ String q rest) in
  readQuotedIdentifier q (lex_at s (String.length a) pv) =
  (tok_at (lex_at s (String.length a) pv) TokenIdent name,
   lex_at s (String.length a + S (S (String.length name))) pv).
Proof.
  intros Hq Hn. cbv zeta. set (s := a ++ String q (name ++ String q rest)).
  unfold readQuotedIdentifier. cbv zeta. rewrite readChar_at.
  assert (Hstop : not_ch q q = false) by (unfold not_ch; now rewrite Ascii.eqb_refl).
  pose proof (readWhile_body (not_ch q) (a ++ str1 q) name (String q rest) pv (not_ch_NUL q) Hn Hstop) as L.
  rewrite <- app_cons, length_app_S in L. fold s in L. rewrite L.
  assert (Hs : slice s (S (String.length a)) (S (String.length a) + String.length name) = name)
    by (unfold s; rewrite app_cons, <- (length_app_S a q); apply slice_app).
  assert (Hb : byte_at s (S (String.length a) + String.length name) = q)
    by (unfold s; rewrite app_cons, <- (length_app_S a q), byte_at_app_r; apply byte_at_app_0).
  rewrite ch_at, Hb, (proj2 (Ascii.eqb_neq _ _) Hq), !pos_at, input_at, Hs, readChar_at.
  do 2 f_equal. lia.
Qed.

(** A name between double quotes or between back quotes is read as one identifier token with
    exactly that name, keyword or not, provided the name contains neither the quote nor NUL. *)
Theorem lex_quoted_identifier (q : ascii) (a name rest : string) (pv : TokenType)
    (Hq : q = DQUOTE \/ q = BACKTICK) (Hname : string_forallb (not_ch q) name = true) :
  let s := a ++ String q (name ++ String q rest) in
  NextToken (lex_at s (String.length a) pv) =
  (tok_at (lex_at s (String.length a) pv) TokenIdent name,
   lex_at s (String.length a + S (S (String.length name))) TokenIdent).
Proof.
  cbv zeta. set (s := a ++ String q (name ++ String q rest)).
  assert (Hc : byte_at s (String.length a) = q) by (unfold s; now rewrite byte_at_app_0).
  apply NextToken_at; try (rewrite Hc; now destruct Hq as [->| ->]); [|discriminate].
  assert (E : scanToken (lex_at s (String.length a) pv) = readQuotedIdentifier q (lex_at s (String.length a) pv)).
  { unfold scanToken, scanOperator, scanRest. cbv zeta. rewrite ch_at, Hc.
    destruct Hq as [->| ->]; cbn -[readQuotedIdentifier]; reflexivity. }
  rewrite E. apply readQuoted_body; [|easy]. now destruct Hq as [->| ->].
Qed.

Lemma lex_quoted_identifier_witness :
  let s := "a.`order`" in
  NextToken (lex_at s 2 TokenDot) = (tok_at (lex_at s 2 TokenDot) TokenIdent "order", lex_at s 9 TokenIdent).
Proof. exact (lex_quoted_identifier BACKTICK "a." "order" EmptyString TokenDot (or_intror eq_refl) eq_refl). Defined.

(** *** Blob literals *)

Lemma hex_pair (c : ascii) :
  let hi := hex_digit (N_of_ascii c / 16) in
  let lo := hex_digit (N_of_ascii c mod 16) in
  isHexDigit hi = true /\ isHexDigit lo = true /\ byte (16 * hex_value hi + hex_value lo) = c.
Proof. destruct c as [[] [] [] [] [] [] [] []]; vm_compute; auto. Qed.

Lemma hex_decode_upper (v : string) : hex_decode (hex_upper v) = v.
Proof.
  induction v as [|c v IH]; cbn [hex_upper hex_decode]; [easy|].
  destruct (hex_pair c) as (_ & _ & E). cbv zeta in E. now rewrite E, IH.
Qed.

Lemma hex_upper_digits (v : string) : string_forallb isHexDigit (hex_upper v) = true.
Proof.
  induction v as [|c v IH]; cbn [hex_upper string_forallb]; [easy|].
  destruct (hex_pair c) as (H1 & H2 & _). cbv zeta in *. now rewrite H1, H2.
Qed.

Lemma hex_upper_even (v : string) : Nat.even (String.length (hex_upper v)) = true.
Proof. induction v; [easy|exact IHv]. Qed.

Lemma isHexDigit_stop (c : ascii) : isHexDigit c = true -> negb (c =b SQUOTE) && negb (c =b NUL) = true.
Proof. destruct c as [[] [] [] [] [] [] [] []]; vm_compute; congruence. Qed.

Lemma blob_loop_body (h rest : string) (pv : TokenType) (n : nat) (a sb : string) :
  string_forallb isHexDigit h = true -> String.length h < n ->
  blob_loop n (lex_at (a ++ (h ++ String SQUOTE rest)) (String.length a) pv) sb =
  (inr (sb ++ h), lex_at (a ++ (h ++ String SQUOTE rest)) (String.length a + String.length h) pv).
Proof.
  revert n a sb. induction h as [|c h IH]; intros n a sb Hh Hn; (destruct n; [lia|]); cbn [blob_loop].
  - cbn [append]. rewrite ch_at, byte_at_app_0. cbn -[append]. rewrite append_nil_r. now rewrite Nat.add_0_r.
  - cbn [string_forallb String.length] in *. apply andb_prop in Hh as [Hc Hh].
    autorewrite with lex. rewrite byte_at_app_0. cbn [append byte_at String.get].
    rewrite (isHexDigit_stop c Hc), Hc.
    specialize (IH n (a ++ str1 c) (sb ++ str1 c) Hh ltac:(lia)).
    rewrite <- app_cons, length_app_S, append_assoc in IH. rewrite IH. cbn [append str1].
    do 2 f_equal. lia.
Qed.

(** The text the formatter writes for a blob value, two hex digits per byte between quotes
    after an X, is read back as one blob token whose literal is the raw bytes of the value. *)
Theorem lex_blob_literal (a v rest : string) (pv : TokenType) :
  let h := hex_upper v in
  let s := a ++ String "X" (String SQUOTE (h ++ String SQUOTE rest)) in
  NextToken (lex_at s (String.length a) pv) =
  (tok_at (lex_at s (String.length a) pv) TokenBlob v,
   lex_at s (String.length a + (3 + String.length h)) TokenBlob).
Proof.
  cbv zeta. set (h := hex_upper v). set (s := a ++ String "X" (String SQUOTE (h ++ String SQUOTE rest))).
  assert (Hc : byte_at s (String.length a) = "X"%char) by (unfold s; now rewrite byte_at_app_0).
  assert (Hp : byte_at s (S (String.length a)) = SQUOTE).
  { unfold s. rewrite app_cons, <- (length_app_S a "X"). now rewrite byte_at_app_0. }
  apply NextToken_at; try (rewrite Hc; reflexivity); [|discriminate].
  assert (E : scanToken (lex_at s (String.length a) pv) = readBlob (lex_at s (String.length a) pv)).
  { unfold scanToken, scanOperator, scanRest. cbv zeta. rewrite peekChar_at, ch_at, Hc, Hp. reflexivity. }
  rewrite E. unfold readBlob. cbv zeta. rewrite !readChar_at, remaining_at.
  pose proof (blob_loop_body h rest pv (String.length s - S (S (String.length a)))
                ((a ++ "X") ++ "'") EmptyString (hex_upper_digits v)) as L.
  change "'" with (str1 SQUOTE) in L. change "X" with (str1 "X"%char) in L.
  rewrite !length_app_S, <- !app_cons in L. fold s in L. rewrite L; clear L.
  - cbn [append]. rewrite ch_at.
    assert (Hq : byte_at s (S (S (String.length a)) + String.length h) = SQUOTE).
    { unfold s. rewrite (app_cons a _ "X"), (app_cons (a ++ str1 "X") _ SQUOTE).
      rewrite <- (length_app_S a "X"), <- (length_app_S _ SQUOTE), byte_at_app_r.
      apply byte_at_app_0. }
    rewrite Hq. change (SQUOTE =b NUL) with false. cbn iota. unfold h at 1. rewrite hex_upper_even.
    cbn [negb]. unfold h at 1. rewrite hex_decode_upper, readChar_at. do 2 f_equal. lia.
  - unfold s. rewrite length_append. cbn. rewrite length_append. cbn. lia.
Qed.
