(* ===== verification/Ast.v ===== *)
(** * The abstract syntax (pkg/parser/ast.go)

    The expression, query and table-reference types refer to each other, so they are one mutual
    inductive type; a Go struct that takes part in the recursion is a type with one constructor,
    whose arguments are the fields in declaration order.  A nil pointer or interface field is an
    [option]; a nil and an empty slice are the same list.  Structs outside the recursion are
    records.

    The one pointer the code shares is a table reference's [Subquery]: every reference to a common
    table expression is made to point at that expression's query, which later passes mutate.  So it
    is a [QueryRef]: a query of its own, or the address of a shared one in the parser's store. *)
From Stdlib Require Import Ascii String List Bool ZArith.
From S2P Require Import Prelude Token.
Import ListNotations.
Open Scope string_scope.

(** ** Enumerations *)

Inductive SetOpType : Set := SetOpUnion | SetOpUnionAll | SetOpIntersect | SetOpExcept.

Inductive LockStrength : Set := LockUpdate | LockShare.

Inductive LockWait : Set := LockWaitBlock | LockWaitNoWait | LockWaitSkipLocked.

Inductive JoinType : Set := JoinInner | JoinLeft | JoinRight | JoinFull | JoinCross.

Inductive NullsOrder : Set := NullsDefault | NullsFirst | NullsLast.

Inductive ConflictAction : Set :=
  | ConflictAbort | ConflictReplace | ConflictIgnore | ConflictFail | ConflictRollback.

Inductive ConstraintType : Set :=
  | ConstraintPrimaryKey | ConstraintNotNull | ConstraintUnique | ConstraintDefault
  | ConstraintCheck | ConstraintForeignKey | ConstraintAutoIncrement.

Inductive ReferentialAction : Set :=
  | RefActionUnspecified | RefActionNoAction | RefActionRestrict | RefActionCascade
  | RefActionSetNull | RefActionSetDefault.

Definition ReferentialAction_String (a : ReferentialAction) : string :=
  match a with
  | RefActionNoAction => "NO ACTION"
  | RefActionRestrict => "RESTRICT"
  | RefActionCascade => "CASCADE"
  | RefActionSetNull => "SET NULL"
  | RefActionSetDefault => "SET DEFAULT"
  | RefActionUnspecified => EmptyString
  end.

(** ** Leaf records *)

Record LockingClause : Set := mkLockingClause { Strength : LockStrength; Wait : LockWait }.

Record DataType : Set := mkDataType {
  dt_Name : string;
  Precision : Z;
  Scale : Z;
  dt_Array : bool
}.

Definition SQLTypeName (d : DataType) : string :=
  if dt_Array d then dt_Name d ++ "[]" else dt_Name d.

(** ** Expressions, queries and table references *)

#[local] Set Warnings "-register-all".

Inductive Expr : Set :=
  | BinaryExpr (Left : Expr) (Op : TokenType) (Right : Expr)
  | UnaryExpr (Op : TokenType) (Operand : Expr)
  | LiteralExpr (Type_ : TokenType) (Value : string)
  | ColumnRef (Table Column : string)
  | FunctionCallExpr (Func : FunctionCall)
  | WindowExpr (Func : FunctionCall) (PartitionBy : list Expr) (OrderBy : list OrderByItem)
  | SubqueryExpr (Query : SelectStmt)
  | CaseExpr (Operand : option Expr) (Whens : list WhenClause) (Else : option Expr)
  | InExpr (Left : Expr) (Not : bool) (Values : list Expr) (Subquery : option SelectStmt)
  | BetweenExpr (Left : Expr) (Not : bool) (Low High : Expr)
  | LikeExpr (Left : Expr) (Not : bool) (Pattern : Expr) (Escape : option Expr)
  | IsNullExpr (Left : Expr) (Not : bool)
  | IsDistinctExpr (Left Right : Expr) (Not : bool)
  | CastExpr (Operand : Expr) (Type_ : DataType)
  | ExistsExpr (Subquery : SelectStmt)
  | ArrayExpr (Elements : list Expr)
  | SubscriptExpr (Operand Index : Expr)
  | AnyAllExpr (Left : Expr) (Op : TokenType) (All : bool) (Array : Expr)
  | ParenExpr (Operand : Expr)
with FunctionCall : Set :=
  | mkFunctionCall (Name : string) (Args : list Expr) (Distinct Star : bool)
with WhenClause : Set :=
  | mkWhenClause (Condition Result : Expr)
with OrderByItem : Set :=
  | mkOrderByItem (Key : Expr) (Desc : bool) (Nulls : NullsOrder)
with SelectColumn : Set :=
  | mkSelectColumn (Value : option Expr) (Alias : string) (Star : bool) (TableStar : string)
with SelectStmt : Set :=
  | mkSelectStmt (Distinct : bool) (Columns : list SelectColumn) (From : list TableRef)
      (Where : option Expr) (GroupBy : list Expr) (Having : option Expr)
      (OrderBy : list OrderByItem) (Limit Offset : option Expr)
      (Compound : option CompoundSelect) (With : list CTE) (Locking : option LockingClause)
with CompoundSelect : Set :=
  | mkCompoundSelect (Left : SelectStmt) (Op : SetOpType) (Right : SelectStmt)
      (OrderBy : list OrderByItem) (Limit Offset : option Expr)
with CTE : Set :=
  | mkCTE (Name : string) (Columns : list string) (Recursive : bool) (Query : SelectStmt)
with TableRef : Set :=
  | mkTableRef (Schema Name Alias : string) (Subquery : option QueryRef)
      (Join : option JoinClause) (Function_ : option FunctionCall) (ColumnAliases : list string)
with QueryRef : Set :=
  | Inline (Query : SelectStmt)
  | Shared (addr : nat)
with JoinClause : Set :=
  | mkJoinClause (Type_ : JoinType) (Table : TableRef) (Condition : option Expr)
      (Using : list string).

(** The zero values of the structs the parser fills in field by field. *)
Definition emptySelect : SelectStmt := mkSelectStmt false [] [] None [] None [] None None None [] None.

Definition sel_Compound (s : SelectStmt) : option CompoundSelect :=
  match s with mkSelectStmt _ _ _ _ _ _ _ _ _ c _ _ => c end.

(** [stmt.OrderBy], [stmt.Limit], [stmt.Offset] and [stmt.Locking] are assigned after the body. *)
Definition with_tail (s : SelectStmt) (o : list OrderByItem) (l off : option Expr)
    (lock : option LockingClause) : SelectStmt :=
  match s with
  | mkSelectStmt d c f w g h _ _ _ cmp wi _ => mkSelectStmt d c f w g h o l off cmp wi lock
  end.

Definition with_With (s : SelectStmt) (ctes : list CTE) : SelectStmt :=
  match s with
  | mkSelectStmt d c f w g h o l off cmp _ lock => mkSelectStmt d c f w g h o l off cmp ctes lock
  end.

Definition with_Columns (s : SelectStmt) (cols : list SelectColumn) : SelectStmt :=
  match s with
  | mkSelectStmt d _ f w g h o l off cmp wi lock => mkSelectStmt d cols f w g h o l off cmp wi lock
  end.

Definition sel_Columns (s : SelectStmt) : list SelectColumn :=
  match s with mkSelectStmt _ c _ _ _ _ _ _ _ _ _ _ => c end.

(** [&SelectStmt{Compound: c}] *)
Definition compoundOnly (c : CompoundSelect) : SelectStmt :=
  mkSelectStmt false [] [] None [] None [] None None (Some c) [] None.

Definition col_with_Alias (c : SelectColumn) (a : string) : SelectColumn :=
  match c with mkSelectColumn e _ st ts => mkSelectColumn e a st ts end.

Definition tr_Join (t : TableRef) : option JoinClause :=
  match t with mkTableRef _ _ _ _ j _ _ => j end.

Definition tr_Function (t : TableRef) : option FunctionCall :=
  match t with mkTableRef _ _ _ _ _ f _ => f end.

Definition tr_with_Join (t : TableRef) (j : option JoinClause) : TableRef :=
  match t with mkTableRef s n a q _ f c => mkTableRef s n a q j f c end.

(** Attach a join at the end of a table's join chain: the walk
    [for cur.Join != nil && cur.Join.Table != nil { cur = cur.Join.Table }] and the assignment. *)
Fixpoint attach_join (t : TableRef) (j : JoinClause) : TableRef :=
  match t with
  | mkTableRef s n a q None f c => mkTableRef s n a q (Some j) f c
  | mkTableRef s n a q (Some (mkJoinClause ty t' cond us)) f c =>
      mkTableRef s n a q (Some (mkJoinClause ty (attach_join t' j) cond us)) f c
  end.

(** ** Statements *)

Record Assignment : Set := mkAssignment { as_Column : string; as_Value : Expr }.

Record InsertStmt : Set := mkInsertStmt {
  ins_Table : TableRef;
  ins_Columns : list string;
  ins_Values : list (list Expr);
  ins_DefaultValues : bool;
  ins_Select : option SelectStmt;
  ins_OnConflict : ConflictAction;
  ins_ConflictTarget : list string;
  ins_ConflictUpdate : list Assignment;
  ins_ConflictDoNothing : bool;
  ins_Returning : list SelectColumn
}.

Record UpdateStmt : Set := mkUpdateStmt {
  upd_Table : TableRef;
  upd_Set : list Assignment;
  upd_From : list TableRef;
  upd_Where : option Expr;
  upd_Returning : list SelectColumn
}.

Record DeleteStmt : Set := mkDeleteStmt {
  del_Table : TableRef;
  del_Where : option Expr;
  del_Returning : list SelectColumn
}.

Record ColumnConstraint : Set := mkColumnConstraint {
  cc_Type : ConstraintType;
  cc_Name : string;
  cc_Default : option Expr;
  cc_RefTable : string;
  cc_RefColumns : list string;
  cc_Check : option Expr;
  cc_OnDelete : ReferentialAction;
  cc_OnUpdate : ReferentialAction;
  cc_Deferrable : bool;
  cc_OnConflict : ConflictAction;
  cc_HasOnConflict : bool
}.

Record ColumnDef : Set := mkColumnDef {
  cd_Name : string;
  cd_Type : DataType;
  cd_Constraints : list ColumnConstraint;
  cd_GeneratedExpr : option Expr;
  cd_GeneratedStored : bool
}.

Record TableConstraint : Set := mkTableConstraint {
  tc_Type : ConstraintType;
  tc_Name : string;
  tc_Columns : list string;
  tc_RefTable : string;
  tc_RefColumns : list string;
  tc_Check : option Expr;
  tc_OnDelete : ReferentialAction;
  tc_OnUpdate : ReferentialAction;
  tc_Deferrable : bool;
  tc_OnConflict : ConflictAction;
  tc_HasOnConflict : bool
}.

Record CreateTableStmt : Set := mkCreateTableStmt {
  ct_IfNotExists : bool;
  ct_Table : TableRef;
  ct_Columns : list ColumnDef;
  ct_Constraints : list TableConstraint
}.

Record DropTableStmt : Set := mkDropTableStmt { dt_IfExists : bool; dt_Tables : list TableRef }.

Record IndexColumn : Set := mkIndexColumn { ic_Name : string; ic_Desc : bool; ic_Expr : option Expr }.

Record CreateIndexStmt : Set := mkCreateIndexStmt {
  ci_IfNotExists : bool;
  ci_Unique : bool;
  ci_Name : string;
  ci_Table : string;
  ci_Columns : list IndexColumn
}.

Record DropIndexStmt : Set := mkDropIndexStmt { di_IfExists : bool; di_Name : string }.

Record CreateViewStmt : Set := mkCreateViewStmt {
  cv_IfNotExists : bool;
  cv_View : TableRef;
  cv_Select : SelectStmt
}.

Record DropViewStmt : Set := mkDropViewStmt { dv_IfExists : bool; dv_Views : list TableRef }.

Inductive AlterAction : Set :=
  | AddColumnAction (Column : ColumnDef) (IfNotExists : bool)
  | DropColumnAction (Column : string)
  | RenameTableAction (NewName : string)
  | RenameColumnAction (OldName NewName : string).

Record AlterTableStmt : Set := mkAlterTableStmt { at_Table : string; at_Action : AlterAction }.

Record AttachStmt : Set := mkAttachStmt { FilePath : string; at_Alias : string }.

Record PragmaStmt : Set := mkPragmaStmt { pr_Name : string; pr_Arg : string; pr_Value : option Expr }.

Record NotifyStmt : Set := mkNotifyStmt { nt_Channel : string; nt_Payload : string }.

Record UnlistenStmt : Set := mkUnlistenStmt { un_Channel : string; un_All : bool }.

Record SetStmt : Set := mkSetStmt { set_Name : string; set_Values : list string; set_Local : bool }.

Inductive Statement : Set :=
  | StSelect (s : SelectStmt)
  | StInsert (s : InsertStmt)
  | StUpdate (s : UpdateStmt)
  | StDelete (s : DeleteStmt)
  | StCreateTable (s : CreateTableStmt)
  | StDropTable (s : DropTableStmt)
  | StCreateIndex (s : CreateIndexStmt)
  | StDropIndex (s : DropIndexStmt)
  | StCreateView (s : CreateViewStmt)
  | StDropView (s : DropViewStmt)
  | StAlterTable (s : AlterTableStmt)
  | StAttach (s : AttachStmt)
  | StDetach (Alias : string)
  | StPragma (s : PragmaStmt)
  | StAnalyze (Name : string)
  | StExplain (QueryPlan : bool) (Statement_ : Statement)
  | StBegin (Mode : string)
  | StCommit
  | StRollback (Savepoint : string)
  | StSavepoint (Name : string)
  | StRelease (Name : string)
  | StListen (Channel : string)
  | StUnlisten (s : UnlistenStmt)
  | StNotify (s : NotifyStmt)
  | StSet (s : SetStmt)
  | StShow (Name : string).

(** ** Errors (pkg/parser/errors.go, pkg/pgerror)

    A parse error carries its message and the token it points at.  The errors of [pgerror] carry
    their SQLSTATE.  The errors the CTE pass builds with a quoted name are kept as data. *)
Inductive error : Set :=
  | ParseError (Message : string) (Line Column : nat) (Near : string)
  | PgError (Code Message : string)
  | CTEColumnsOnCompound (name : string)
  | CTEColumnCount (name : string) (names columns : nat)
  | WithNotSupported
  | InvalidColumnAliases (name : string) (available given : nat).

Definition CodeFeatureNotSupported : string := "0A000".

Definition Unsupported (msg : string) : error :=
  PgError CodeFeatureNotSupported ("feature not supported: " ++ msg).

(** [TableRef.ApplyColumnAliases] *)
Definition ApplyColumnAliases (t : TableRef) (columns : list string) : list string + error :=
  match t with
  | mkTableRef _ Name Alias _ _ _ aliases =>
      match aliases with
      | [] => inl columns
      | _ => if Nat.eqb (length aliases) (length columns) then inl aliases
             else let name := if String.eqb Alias EmptyString then Name else Alias in
                  inr (InvalidColumnAliases name (length columns) (length aliases))
      end
  end.
