(* ===== verification/ParserMonad.v ===== *)
(** * The parser state (pkg/parser/parser.go)

    The token source interface the parser reads from, the parser state with its two-token window,
    the error monad the parse functions run in, and its loop.  The weakest-precondition rules at
    the end are what the totality proofs of the grammar use. *)
From Stdlib Require Import Ascii String List Bool Arith NArith Lia.
From S2P Require Import Prelude Token Lexer LexerFacts Ast.
Import ListNotations.
Open Scope string_scope.
Open Scope go_scope.

(** ** Token sources

    What the parser relies on: [src_next] returns the next token, and a size that bounds the
    number of tokens left, which every token but the end mark decreases. *)
Class TokenSource (L : Type) : Type := {
  src_next : L -> Token * L;
  src_size : L -> nat;
  src_ok : L -> Prop;
  src_next_ok : forall l, src_ok l -> src_ok (snd (src_next l));
  src_next_size : forall l, src_ok l ->
    src_size (snd (src_next l)) + (if Type_ (fst (src_next l)) =t TokenEOF then 0 else 1) <= src_size l
}.

(** The lexer is a token source: its size is the number of bytes it has not read. *)
#[export] Instance lexer_source : TokenSource Lexer.
Proof.
  refine {| src_next := NextToken; src_size := remaining; src_ok := wf |};
    intros l Hwf; pose proof (NextToken_invariant l Hwf) as H;
    destruct (NextToken l) as [t l']; cbn [fst snd]; destruct H as (Hw & Hi & He & Hp).
  - exact Hw.
  - unfold remaining. rewrite Hi. destruct Hw as [_ Hle]. rewrite Hi in Hle.
    destruct (Type_ t =t TokenEOF) eqn:E.
    + apply token_eqb_eq in E. destruct (He E). lia.
    + apply token_eqb_neq in E. specialize (Hp E). lia.
Defined.

(** A list of tokens is a token source, whose end repeats the end mark. *)
Definition EOFToken : Token := mkToken TokenEOF EmptyString 0 0 false.

#[export] Instance list_source : TokenSource (list Token).
Proof.
  refine {| src_next := fun l => match l with [] => (EOFToken, []) | t :: r => (t, r) end;
            src_size := @length Token; src_ok := fun _ => True |}; [easy|].
  intros [|t r] _; cbn; [lia|]. destruct (Type_ t =t TokenEOF); lia.
Defined.

Section Parser.
Context {L : Type} {TS : TokenSource L}.

(** [queries] is the part of the store that is shared: the queries of the common table
    expressions, by address. *)
Record Parser : Type := mkParser {
  lexer : L;
  curToken : Token;
  peekToken : Token;
  queries : list SelectStmt
}.

(** ** The monad *)

(** [OutOfFuel] is the result of a loop or recursion cut short; no parse function returns it.
    [Crash] is a recursion that never ends, which the Go runtime stops with the process. *)
Inductive result (A : Type) : Type :=
  | Ok (a : A) (p : Parser)
  | Err (e : error)
  | Crash
  | OutOfFuel.
Arguments Ok {A} a p.
Arguments Err {A} e.
Arguments Crash {A}.
Arguments OutOfFuel {A}.

Definition P (A : Type) : Type := Parser -> result A.

Definition ret {A} (a : A) : P A := fun p => Ok a p.

Definition bind {A B} (m : P A) (k : A -> P B) : P B := fun p =>
  match m p with
  | Ok a p' => k a p'
  | Err e => Err e
  | Crash => Crash
  | OutOfFuel => OutOfFuel
  end.

Definition fail {A} (e : error) : P A := fun _ => Err e.

(** [if c(p) { a } else { b }] *)
Definition ifP {A} (c : Parser -> bool) (a b : P A) : P A := fun p => if c p then a p else b p.

(** ** The token window *)

(** [for p.peekToken.Type == TokenComment { p.peekToken = p.lexer.NextToken() }] *)
Fixpoint skip_comments (fuel : nat) (t : Token) (l : L) : Token * L :=
  match fuel with
  | O => (t, l)
  | S k => if Type_ t =t TokenComment
           then let (t', l') := src_next l in skip_comments k t' l'
           else (t, l)
  end.

Definition nextToken_state (p : Parser) : Parser :=
  let (t, l) := src_next (lexer p) in
  let (t, l) := skip_comments (S (src_size l)) t l in
  {| lexer := l; curToken := peekToken p; peekToken := t; queries := queries p |}.

Definition nextToken : P unit := fun p => Ok tt (nextToken_state p).

(** [New]: the struct's token fields start as zero values, whose type is [TokenEOF]. *)
Definition newParser (l : L) : Parser :=
  nextToken_state (nextToken_state
    {| lexer := l; curToken := EOFToken; peekToken := EOFToken; queries := [] |}).

Definition curTokenIs (t : TokenType) (p : Parser) : bool := Type_ (curToken p) =t t.
Definition peekTokenIs (t : TokenType) (p : Parser) : bool := Type_ (peekToken p) =t t.

(** [p.curToken.Literal], [p.curToken.Type] *)
Definition curLiteral : P string := fun p => Ok (Literal (curToken p)) p.
Definition curType : P TokenType := fun p => Ok (Type_ (curToken p)) p.

(** [switch p.curToken.Type { case a, b: ... }] *)
Definition curTokenIn (l : list TokenType) (p : Parser) : bool := token_in (Type_ (curToken p)) l.

(** An identifier token that spells the word, in any case. *)
Definition curIdentIs (word : string) (p : Parser) : bool :=
  (Type_ (curToken p) =t TokenIdent) && EqualFold (Literal (curToken p)) word.
Definition peekIdentIs (word : string) (p : Parser) : bool :=
  (Type_ (peekToken p) =t TokenIdent) && EqualFold (Literal (peekToken p)) word.

Definition curError {A} (msg : string) : P A := fun p =>
  Err (ParseError msg (Line (curToken p)) (Column (curToken p)) (Literal (curToken p))).

(** [p.curError(prefix + p.curToken.Type.String())] *)
Definition curErrorType {A} (prefix : string) : P A := fun p =>
  curError (prefix ++ TokenType_String (Type_ (curToken p))) p.

Definition peekError {A} (t : TokenType) : P A := fun p =>
  Err (ParseError ("expected " ++ TokenType_String t ++ ", got " ++ TokenType_String (Type_ (peekToken p)))
         (Line (peekToken p)) (Column (peekToken p)) (Literal (peekToken p))).

Definition expectPeek (t : TokenType) : P unit := ifP (peekTokenIs t) nextToken (peekError t).

(** [if !p.curTokenIs(t) { return p.curError(msg) }; p.nextToken()] *)
Definition expect (t : TokenType) (msg : string) : P unit :=
  ifP (curTokenIs t) nextToken (curError msg).

(** The same, keeping the token's literal. *)
Definition expectLiteral (t : TokenType) (msg : string) : P string :=
  ifP (curTokenIs t) (bind curLiteral (fun s => bind nextToken (fun _ => ret s))) (curError msg).

(** [if c(p) { x = m } ] with [x] nil otherwise. *)
Definition optional {A} (c : Parser -> bool) (m : P A) : P (option A) :=
  ifP c (bind m (fun a => ret (Some a))) (ret None).

(** [if c(p) { p.nextToken() }] *)
Definition skipIf (c : Parser -> bool) : P unit := ifP c nextToken (ret tt).

(** ** Loops

    The tokens that remain, the current and the next one included, bound the iterations of every
    loop: an iteration that goes on has consumed a token. *)
Definition tokens_in (t : Token) : nat := if Type_ t =t TokenEOF then 0 else 1.

Definition psize (p : Parser) : nat :=
  tokens_in (curToken p) + tokens_in (peekToken p) + src_size (lexer p).

Definition pok (p : Parser) : Prop := src_ok (lexer p).

Fixpoint loop_n {A B} (n : nat) (body : A -> P (A + B)) (a : A) : P B :=
  match n with
  | O => fun _ => OutOfFuel
  | S k => bind (body a) (fun r => match r with inl a' => loop_n k body a' | inr b => ret b end)
  end.

Definition loop {A B} (body : A -> P (A + B)) (a : A) : P B :=
  fun p => loop_n (S (psize p)) body a p.

(** ** Weakest preconditions *)

(** [m] returns from [p], with an error or with a result of which [Q] holds; it crashes only if
    [crash]. *)
Definition wp {A} (crash : Prop) (m : P A) (p : Parser) (Q : A -> Parser -> Prop) : Prop :=
  match m p with
  | Ok a p' => Q a p'
  | Err _ => True
  | Crash => crash
  | OutOfFuel => False
  end.

(** [p'] comes after [p], at least [k] tokens further. *)
Definition after (k : nat) (p p' : Parser) : Prop := pok p' /\ psize p' + k <= psize p.

(** [m] returns from [p], successfully or with an error, and moves forward. *)
Definition total {A} (m : P A) (p : Parser) : Prop := wp False m p (fun _ p' => after 0 p p').

(** The same, and a successful return has consumed a token. *)
Definition progress {A} (m : P A) (p : Parser) : Prop := wp False m p (fun _ p' => after 1 p p').

(** As [total], but [m] may crash. *)
Definition ends {A} (m : P A) (p : Parser) : Prop := wp True m p (fun _ p' => after 0 p p').

Section Rules.
Context {crash : Prop}.

Lemma wp_ret {A} (a : A) p (Q : A -> Parser -> Prop) : Q a p -> wp crash (ret a) p Q.
Proof. easy. Qed.

Lemma wp_bind {A B} (m : P A) (k : A -> P B) p Q :
  wp crash m p (fun a p' => wp crash (k a) p' Q) -> wp crash (bind m k) p Q.
Proof. unfold wp, bind. now destruct (m p). Qed.

Lemma wp_ifP {A} (c : Parser -> bool) (a b : P A) p Q :
  (c p = true -> wp crash a p Q) -> (c p = false -> wp crash b p Q) -> wp crash (ifP c a b) p Q.
Proof. unfold wp, ifP. intros Ha Hb. destruct (c p); [now apply Ha|now apply Hb]. Qed.

Lemma wp_mono {A} (c : Prop) (m : P A) p (Q R : A -> Parser -> Prop) :
  (c -> crash) -> wp c m p Q -> (forall a p', Q a p' -> R a p') -> wp crash m p R.
Proof. unfold wp. intros Hc H HQ. destruct (m p); [now apply HQ|exact I|now apply Hc|exact H]. Qed.

Lemma wp_total {A} (m : P A) p (R : A -> Parser -> Prop) :
  total m p -> (forall a p', after 0 p p' -> R a p') -> wp crash m p R.
Proof. apply wp_mono. easy. Qed.

Lemma wp_progress {A} (m : P A) p (R : A -> Parser -> Prop) :
  progress m p -> (forall a p', after 1 p p' -> R a p') -> wp crash m p R.
Proof. apply wp_mono. easy. Qed.

Lemma wp_fail {A} (e : error) p (Q : A -> Parser -> Prop) : wp crash (fail e) p Q.
Proof. exact I. Qed.

Lemma wp_curLiteral p (Q : string -> Parser -> Prop) : Q (Literal (curToken p)) p -> wp crash curLiteral p Q.
Proof. easy. Qed.

Lemma wp_curType p (Q : TokenType -> Parser -> Prop) : Q (Type_ (curToken p)) p -> wp crash curType p Q.
Proof. easy. Qed.

End Rules.

(** *** The window moves forward *)

Lemma skip_comments_size (n : nat) (t : Token) (l : L) :
  src_ok l ->
  let (t', l') := skip_comments n t l in
  src_ok l' /\ tokens_in t' + src_size l' <= tokens_in t + src_size l.
Proof.
  revert t l; induction n; intros t l Hok; cbn [skip_comments]; [easy|].
  destruct (Type_ t =t TokenComment) eqn:E; [|easy].
  pose proof (src_next_size l Hok) as H. pose proof (src_next_ok l Hok) as H'.
  destruct (src_next l) as [t1 l1]. cbn [fst snd] in *. specialize (IHn t1 l1 H').
  destruct (skip_comments n t1 l1). split; [easy|]. destruct IHn as [_ IH].
  unfold tokens_in at 2. apply token_eqb_eq in E. rewrite E. cbn.
  unfold tokens_in in IH at 2. lia.
Qed.

(** The fuel of [skip_comments] suffices: no comment is left in the window. *)
Lemma skip_comments_done (n : nat) (t : Token) (l : L) :
  src_ok l -> src_size l < n -> Type_ (fst (skip_comments n t l)) <> TokenComment.
Proof.
  revert t l; induction n; intros t l Hok Hn; cbn [skip_comments]; [lia|].
  destruct (Type_ t =t TokenComment) eqn:E; [|now apply token_eqb_neq].
  pose proof (src_next_size l Hok) as H. pose proof (src_next_ok l Hok) as H'.
  destruct (src_next l) as [t1 l1]. cbn [fst snd] in *.
  destruct (Type_ t1 =t TokenEOF) eqn:E1.
  - apply token_eqb_eq in E1. destruct n; cbn [skip_comments fst]; [now rewrite E1|].
    rewrite E1. change (TokenEOF =t TokenComment) with false. cbn. now rewrite E1.
  - apply IHn; [easy|lia].
Qed.

Lemma nextToken_after (p : Parser) :
  pok p -> after (tokens_in (curToken p)) p (nextToken_state p).
Proof.
  intros Hok. unfold nextToken_state, after, pok, psize in *.
  pose proof (src_next_size (lexer p) Hok) as H. pose proof (src_next_ok (lexer p) Hok) as H'.
  destruct (src_next (lexer p)) as [t l]. cbn [fst snd] in *.
  pose proof (skip_comments_size (S (src_size l)) t l H') as H2.
  destruct (skip_comments _ t l) as [t' l']. cbn [lexer curToken peekToken].
  fold (tokens_in t) in H. destruct H2. split; [easy|lia].
Qed.

Lemma wp_nextToken {crash} p (Q : unit -> Parser -> Prop) :
  pok p -> (forall p', after (tokens_in (curToken p)) p p' -> Q tt p') -> wp crash nextToken p Q.
Proof. intros Hok H. cbn. apply H. now apply nextToken_after. Qed.

Lemma after_refl (p : Parser) : pok p -> after 0 p p.
Proof. split; [easy|lia]. Qed.

Lemma after_trans (i j k : nat) (p q r : Parser) : after i p q -> after j q r -> k <= i + j -> after k p r.
Proof. unfold after. intros [] [] ?. split; [easy|lia]. Qed.

Lemma tokens_in_is (t : TokenType) (p : Parser) :
  curTokenIs t p = true -> t <> TokenEOF -> tokens_in (curToken p) = 1.
Proof.
  unfold curTokenIs, tokens_in. intros H Hn. apply token_eqb_eq in H. rewrite H.
  now rewrite (proj2 (token_eqb_neq _ _) Hn).
Qed.

(** A loop whose every iteration returns, and consumes a token when it goes on, returns. *)
Lemma wp_loop {crash A B} (body : A -> P (A + B)) (a : A) (p : Parser) (Q : B -> Parser -> Prop) :
  pok p ->
  (forall a' p', after 0 p p' ->
     wp crash (body a') p' (fun r q => match r with
                                | inl _ => after 1 p' q
                                | inr b => after 0 p' q /\ Q b q
                                end)) ->
  wp crash (loop body a) p Q.
Proof.
  intros Hok Hbody. unfold loop.
  assert (G : forall n a' p', psize p' < n -> after 0 p p' -> wp crash (loop_n n body a') p' Q).
  { induction n; intros a' p' Hn Ha; [lia|]. cbn [loop_n]. apply wp_bind.
    eapply wp_mono; [exact (fun c => c)|apply Hbody; exact Ha|]. intros [a''|b] q Hq.
    - apply IHn; [unfold after in *; lia|]. eapply after_trans; eauto; lia.
    - apply wp_ret, Hq. }
  apply G; [lia|now apply after_refl].
Qed.

End Parser.

Arguments Parser L : clear implicits.
Arguments Ok {L A} a p.
Arguments Err {L A} e.
Arguments Crash {L A}.
Arguments OutOfFuel {L A}.

(** ** Notations *)

Declare Scope parser_scope.
Delimit Scope parser_scope with parser.
Notation "x <- m ;; k" := (bind m (fun x => k))
  (at level 61, m at next level, right associativity) : parser_scope.
Notation "m ;;; k" := (bind m (fun _ => k)) (at level 61, right associativity) : parser_scope.
Notation "'IF' c 'THEN' a 'ELSE' b" := (ifP c a b)
  (at level 60, c at level 60, a at level 60, b at level 60, right associativity) : parser_scope.
