(* ===== verification/Grammar.v ===== *)
(** * The recursive grammar (pkg/parser/parser.go)

    Expressions, queries and table references: the parse functions that call each other.  Each is
    one definition over a record [R] of the functions it reaches through a token it has consumed;
    [knot] ties the recursion, and the functions at the end are the closed ones the statements
    call.  The depth [knot] is unrolled to is the number of tokens left, which the totality
    theorem shows to be enough. *)
From Stdlib Require Import Ascii String List Bool Arith NArith ZArith Lia.
From S2P Require Import Prelude Token Ast ParserMonad.
Import ListNotations.
Open Scope string_scope.
Open Scope go_scope.
Open Scope parser_scope.

(** ** Pure helpers *)

Definition setOpPrec (t : TokenType) : nat := if t =t TokenINTERSECT then 2 else 1.

Definition isComparisonOp (t : TokenType) : bool :=
  token_in t [TokenEq; TokenNeq; TokenLt; TokenLte; TokenGt; TokenGte].

Definition isJSONBPredicateOp (t : TokenType) : bool :=
  token_in t [TokenAtArrow; TokenLtAt; TokenQuestion; TokenQuestionPipe; TokenQuestionAmp].

Definition string_in (s : string) (l : list string) : bool := existsb (String.eqb s) l.

Definition isTableFunctionName (name : string) : bool :=
  string_in (ToLower name)
    ["unnest"; "jsonb_each"; "jsonb_each_text"; "jsonb_array_elements";
     "jsonb_array_elements_text"; "jsonb_object_keys"].

Definition isSupportedArrayElementType (name : string) : bool :=
  string_in (ToUpper name)
    ["TEXT"; "VARCHAR"; "CHAR"; "CHARACTER"; "CLOB"; "NCHAR"; "NVARCHAR";
     "INTEGER"; "INT"; "TINYINT"; "SMALLINT"; "MEDIUMINT"; "BIGINT";
     "BOOLEAN"; "BOOL";
     "REAL"; "FLOAT"; "DOUBLE"; "NUMERIC"; "DECIMAL"].

Definition identTypeAliases : list (string * string) :=
  [("UUID", "UUID"); ("OID", "OID"); ("REGCLASS", "REGCLASS"); ("REGTYPE", "REGTYPE");
   ("NAME", "NAME")].

(** Two's-complement wrap-around of Go's 64-bit [int]. *)
Definition wrap64 (z : Z) : Z := ((z + 2 ^ 63) mod 2 ^ 64 - 2 ^ 63)%Z.

(** [parseInt]: no character is rejected and the accumulator wraps. *)
Fixpoint parseInt_from (n : Z) (s : string) : Z :=
  match s with
  | EmptyString => n
  | String c r => parseInt_from (wrap64 (n * 10 + (Z.of_N (N_of_ascii c) - 48))) r
  end.
Definition parseInt (s : string) : Z := parseInt_from 0 s.

Section Grammar.
Context {L : Type} {TS : TokenSource L}.
Abbreviation P := (P (L := L)).

(** ** Predicates on the current token *)

Definition isJoinKeyword : Parser L -> bool :=
  curTokenIn [TokenJOIN; TokenINNER; TokenLEFT; TokenRIGHT; TokenFULL; TokenCROSS; TokenNATURAL].

Definition isClauseKeyword : Parser L -> bool :=
  curTokenIn [TokenWHERE; TokenGROUP; TokenHAVING; TokenORDER; TokenLIMIT; TokenOFFSET;
              TokenUNION; TokenINTERSECT; TokenEXCEPT; TokenON; TokenUSING].

Definition isLockingClauseStart : Parser L -> bool := curIdentIs "FOR".

Definition isDataTypeKeyword : Parser L -> bool :=
  curTokenIn [TokenINTEGER; TokenINT; TokenTINYINT; TokenSMALLINT; TokenMEDIUMINT; TokenBIGINT;
              TokenREAL; TokenFLOAT; TokenDOUBLE; TokenNUMERIC; TokenDECIMAL; TokenTEXT;
              TokenVARCHAR; TokenCHAR; TokenCHARACTER; TokenCLOB; TokenNCHAR; TokenNVARCHAR;
              TokenBLOB; TokenBOOLEAN; TokenDATE; TokenTIME; TokenTIMESTAMP; TokenDATETIME;
              TokenJSON; TokenJSONB].

Definition curIsName (p : Parser L) : bool := curTokenIs TokenIdent p || curTokenIs TokenKEY p.

Definition orP (a b : Parser L -> bool) : Parser L -> bool := fun p => a p || b p.
Definition andP (a b : Parser L -> bool) : Parser L -> bool := fun p => a p && b p.
Definition notP (a : Parser L -> bool) : Parser L -> bool := fun p => negb (a p).

(** ** Lists of names *)

(** The loop [for { item; if !p.curTokenIs(TokenComma) { break }; p.nextToken() }]. *)
Definition commaList {A} (item : P A) : P (list A) :=
  loop (fun acc =>
    x <- item ;;
    IF curTokenIs TokenComma THEN (nextToken ;;; ret (inl (acc ++ [x])%list))
    ELSE ret (inr (acc ++ [x])%list)) [].

Definition parseIdentList : P (list string) :=
  commaList (IF curIsName THEN (s <- curLiteral ;; nextToken ;;; ret s)
             ELSE curError "expected identifier").

Definition parseParenIdentList : P (list string) :=
  expect TokenLParen "expected (" ;;;
  cols <- parseIdentList ;;
  expect TokenRParen "expected )" ;;;
  ret cols.

Definition parseColumnAliasList : P (list string) :=
  expect TokenLParen "expected ( before column aliases" ;;;
  aliases <- commaList (expectLiteral TokenIdent "expected a column alias") ;;
  expect TokenRParen "expected ) after column aliases" ;;;
  ret aliases.

(** ** Types *)

Definition parseDataType : P DataType :=
  name <- IF curTokenIs TokenIdent THEN
            (lit <- curLiteral ;;
             match assoc (ToUpper lit) identTypeAliases with
             | Some name => nextToken ;;; ret name
             | None => curError "expected data type"
             end)
          ELSE IF isDataTypeKeyword THEN (lit <- curLiteral ;; nextToken ;;; ret (ToUpper lit))
          ELSE curError "expected data type" ;;
  (if name =s "DOUBLE" then skipIf (curIdentIs "PRECISION") else ret tt) ;;;
  ps <- IF curTokenIs TokenLParen THEN
          (nextToken ;;;
           prec <- expectLiteral TokenNumber "expected number for precision" ;;
           scale <- IF curTokenIs TokenComma THEN
                      (nextToken ;;;
                       s <- expectLiteral TokenNumber "expected number for scale" ;;
                       ret (parseInt s))
                    ELSE ret 0%Z ;;
           expect TokenRParen "expected )" ;;;
           ret (parseInt prec, scale))
        ELSE ret (0%Z, 0%Z) ;;
  array <- IF curTokenIs TokenLBracket THEN
             (IF peekTokenIs TokenRBracket THEN
                (nextToken ;;;
                 nextToken ;;;
                 IF curTokenIs TokenLBracket
                 THEN fail (Unsupported "multidimensional arrays are not supported; declare a single trailing []")
                 ELSE if isSupportedArrayElementType name then ret true
                      else fail (Unsupported ("arrays of " ++ name ++ " are not supported; supported element types are TEXT, VARCHAR, INTEGER, BIGINT, SMALLINT, BOOLEAN, REAL, DOUBLE PRECISION, and NUMERIC")))
              ELSE curError "expected ] after [ in array type")
           ELSE ret false ;;
  ret (mkDataType name (fst ps) (snd ps) array).

(** ** The recursive calls

    The functions that are reached again after at least one token has been consumed. *)
Record recs : Type := mkRecs {
  rec_parseExpr : P Expr;
  rec_parseNotExpr : P Expr;
  rec_parseUnaryExpr : P Expr;
  rec_parseSelect : P SelectStmt;
  rec_parseTableRefs : P (list TableRef)
}.

Variable R : recs.

Definition parseExprList : P (list Expr) := commaList (rec_parseExpr R).

(** ** ORDER BY items *)

(** [parseOrderBy] is reached after ORDER BY has been consumed. *)
Definition parseOrderBy : P (list OrderByItem) :=
  commaList
    (e <- rec_parseExpr R ;;
     desc <- IF curTokenIs TokenDESC THEN (nextToken ;;; ret true)
             ELSE (skipIf (curTokenIs TokenASC) ;;; ret false) ;;
     nulls <- IF curIdentIs "NULLS" THEN
                (nextToken ;;;
                 IF curTokenIs TokenIdent THEN
                   (IF curIdentIs "FIRST" THEN (nextToken ;;; ret NullsFirst)
                    ELSE IF curIdentIs "LAST" THEN (nextToken ;;; ret NullsLast)
                    ELSE curError "expected FIRST or LAST after NULLS")
                 ELSE curError "expected FIRST or LAST after NULLS")
              ELSE ret NullsDefault ;;
     ret (mkOrderByItem e desc nulls)).

(** ** Function calls *)

Definition parseWindowSpec (fn : FunctionCall) : P Expr :=
  nextToken ;;;
  expect TokenLParen "expected ( after OVER" ;;;
  partition <- IF curIdentIs "PARTITION" THEN
                 (nextToken ;;;
                  expect TokenBY "expected BY after PARTITION" ;;;
                  parseExprList)
               ELSE ret [] ;;
  orderBy <- IF curTokenIs TokenORDER THEN
               (nextToken ;;;
                expect TokenBY "expected BY after ORDER" ;;;
                parseOrderBy)
             ELSE ret [] ;;
  expect TokenRParen "expected ) after window specification" ;;;
  ret (WindowExpr fn partition orderBy).

(** The current token is the opening parenthesis. *)
Definition parseFunctionCall (name : string) : P Expr :=
  nextToken ;;;
  distinct <- IF curTokenIs TokenDISTINCT THEN (nextToken ;;; ret true)
              ELSE (skipIf (curTokenIs TokenALL) ;;; ret false) ;;
  sa <- IF curTokenIs TokenStar THEN (nextToken ;;; ret (true, []))
        ELSE IF curTokenIs TokenRParen THEN ret (false, [])
        ELSE (args <- parseExprList ;; ret (false, args)) ;;
  expect TokenRParen "expected )" ;;;
  let fn := mkFunctionCall (ToUpper name) (snd sa) distinct (fst sa) in
  IF curIdentIs "OVER" THEN parseWindowSpec fn ELSE ret (FunctionCallExpr fn).

Definition parseKeywordFunction : P Expr :=
  lit <- curLiteral ;;
  let name := ToUpper lit in
  nextToken ;;;
  IF curTokenIs TokenLParen THEN parseFunctionCall name
  ELSE curError ("expected ( after " ++ name).

Definition parseIdentOrFunction : P Expr :=
  name <- curLiteral ;;
  nextToken ;;;
  IF curTokenIs TokenLParen THEN
    (if EqualFold name "ANY"
     then fail (Unsupported "ANY(...) is a quantified predicate and must follow a comparison operator, as in expr = ANY(array)")
     else parseFunctionCall name)
  ELSE IF curTokenIs TokenDot THEN
    (nextToken ;;;
     IF curTokenIn [TokenIdent; TokenStar; TokenKEY] THEN
       (col <- curLiteral ;;
        IF peekTokenIs TokenLParen THEN (nextToken ;;; parseFunctionCall col)
        ELSE (nextToken ;;; ret (ColumnRef name col)))
     ELSE curError "expected column name after dot")
  ELSE ret (ColumnRef EmptyString name).

(** ** Special forms *)

Definition parseCaseExpr : P Expr :=
  nextToken ;;;
  operand <- optional (notP (curTokenIs TokenWHEN)) (rec_parseExpr R) ;;
  whens <- loop (fun acc =>
             IF curTokenIs TokenWHEN THEN
               (nextToken ;;;
                cond <- rec_parseExpr R ;;
                expect TokenTHEN "expected THEN" ;;;
                result <- rec_parseExpr R ;;
                ret (inl (acc ++ [mkWhenClause cond result])%list))
             ELSE ret (inr acc)) [] ;;
  els <- optional (curTokenIs TokenELSE) (nextToken ;;; rec_parseExpr R) ;;
  expect TokenEND "expected END" ;;;
  ret (CaseExpr operand whens els).

Definition parseCastExpr : P Expr :=
  nextToken ;;;
  expect TokenLParen "expected (" ;;;
  e <- rec_parseExpr R ;;
  expect TokenAS "expected AS" ;;;
  dataType <- parseDataType ;;
  expect TokenRParen "expected )" ;;;
  ret (CastExpr e dataType).

Definition parseExistsExpr : P Expr :=
  nextToken ;;;
  expect TokenLParen "expected (" ;;;
  IF curTokenIs TokenSELECT THEN
    (sel <- rec_parseSelect R ;;
     expect TokenRParen "expected )" ;;;
     ret (ExistsExpr sel))
  ELSE curError "expected SELECT in EXISTS".

Definition parseArrayConstructor : P Expr :=
  let nested := Unsupported "multidimensional arrays are not supported; ARRAY[...] elements must be scalars" in
  nextToken ;;;
  expect TokenLBracket "expected [ after ARRAY" ;;;
  IF curTokenIs TokenRBracket THEN (nextToken ;;; ret (ArrayExpr []))
  ELSE loop (fun acc =>
    IF (fun p => curTokenIs TokenIdent p && Bracketed (curToken p)) THEN fail nested
    ELSE (element <- rec_parseExpr R ;;
          match element with
          | ArrayExpr _ => fail nested
          | _ =>
              let acc := (acc ++ [element])%list in
              IF curTokenIs TokenComma THEN (nextToken ;;; ret (inl acc))
              ELSE (expect TokenRBracket "expected ] after ARRAY elements" ;;;
                    ret (inr (ArrayExpr acc)))
          end)) [].

Definition parseQuantifierArray : P Expr :=
  expect TokenLParen "expected ( after ANY or ALL" ;;;
  IF curTokenIs TokenSELECT
  THEN fail (Unsupported "ANY/ALL over a subquery is not supported; pass an array value instead")
  ELSE (array <- rec_parseExpr R ;;
        expect TokenRParen "expected ) after ANY/ALL operand" ;;;
        ret array).

(** [&LiteralExpr{Type: t, Value: p.curToken.Literal}; p.nextToken()] *)
Definition parseLiteral (t : TokenType) : P Expr :=
  v <- curLiteral ;; nextToken ;;; ret (LiteralExpr t v).

Definition parseConstant (t : TokenType) (v : string) : P Expr :=
  nextToken ;;; ret (LiteralExpr t v).

(** ** Primary expressions *)

Definition parsePrimaryExprBase : P Expr :=
  IF curTokenIs TokenALL THEN
    (IF peekTokenIs TokenLParen
     THEN fail (Unsupported "ALL(...) is a quantified predicate and must follow a comparison operator, as in expr <> ALL(array)")
     ELSE curErrorType "unexpected token in expression: ")
  ELSE IF curTokenIs TokenNumber THEN parseLiteral TokenNumber
  ELSE IF curTokenIs TokenString THEN parseLiteral TokenString
  ELSE IF curTokenIs TokenBlob THEN parseLiteral TokenBlob
  ELSE IF curTokenIs TokenNULL THEN parseConstant TokenNULL "NULL"
  ELSE IF curTokenIs TokenTRUE THEN parseConstant TokenTRUE "TRUE"
  ELSE IF curTokenIs TokenFALSE THEN parseConstant TokenFALSE "FALSE"
  ELSE IF curTokenIs TokenLParen THEN
    (nextToken ;;;
     IF curTokenIs TokenSELECT THEN
       (sel <- rec_parseSelect R ;; expect TokenRParen "expected )" ;;; ret (SubqueryExpr sel))
     ELSE
       (e <- rec_parseExpr R ;; expect TokenRParen "expected )" ;;; ret (ParenExpr e)))
  ELSE IF curTokenIs TokenCASE THEN parseCaseExpr
  ELSE IF curTokenIs TokenCAST THEN parseCastExpr
  ELSE IF curTokenIs TokenEXISTS THEN parseExistsExpr
  ELSE IF curTokenIn [TokenCOALESCE; TokenNULLIF; TokenIF; TokenREPLACE; TokenGLOB]
       THEN parseKeywordFunction
  ELSE IF curTokenIn [TokenJSON; TokenJSONB] THEN parseIdentOrFunction
  ELSE IF curTokenIn [TokenDATE; TokenTIME; TokenTIMESTAMP; TokenDATETIME] THEN parseIdentOrFunction
  ELSE IF curTokenIs TokenKEY THEN parseIdentOrFunction
  ELSE IF curTokenIs TokenIdent THEN
    (IF andP (fun p => EqualFold (Literal (curToken p)) "ARRAY") (peekTokenIs TokenLBracket)
     THEN parseArrayConstructor
     ELSE parseIdentOrFunction)
  ELSE IF curTokenIs TokenStar THEN parseConstant TokenStar "*"
  ELSE curErrorType "unexpected token in expression: ".

Definition parsePrimaryExpr : P Expr :=
  e <- parsePrimaryExprBase ;;
  loop (fun e =>
    IF curTokenIs TokenLBracket THEN
      (nextToken ;;;
       index <- rec_parseExpr R ;;
       expect TokenRBracket "expected ] after array subscript" ;;;
       ret (inl (SubscriptExpr e index)))
    ELSE IF curTokenIs TokenColonColon THEN
      (nextToken ;;;
       dataType <- parseDataType ;;
       ret (inl (CastExpr e dataType)))
    ELSE ret (inr e)) e.

Definition parseUnaryExpr : P Expr :=
  IF curTokenIn [TokenMinus; TokenPlus; TokenBitNot] THEN
    (op <- curType ;;
     nextToken ;;;
     operand <- rec_parseUnaryExpr R ;;
     ret (UnaryExpr op operand))
  ELSE parsePrimaryExpr.

(** ** Operator layers

    A left-associative layer: [operand (op operand)*] for the operators of the layer. *)
Definition binaryLayer (ops : list TokenType) (operand : P Expr) : P Expr :=
  left <- operand ;;
  loop (fun left =>
    IF curTokenIn ops THEN
      (op <- curType ;;
       nextToken ;;;
       right <- operand ;;
       ret (inl (BinaryExpr left op right)))
    ELSE ret (inr left)) left.

Definition parseJSONExpr : P Expr :=
  binaryLayer [TokenArrow; TokenArrowText; TokenHashArrow; TokenHashArrowText; TokenHashMinus]
    parseUnaryExpr.

Definition parseMulExpr : P Expr := binaryLayer [TokenStar; TokenSlash; TokenPercent] parseJSONExpr.

Definition parseAddExpr : P Expr := binaryLayer [TokenPlus; TokenMinus; TokenConcat] parseMulExpr.

Definition parseBitwiseExpr : P Expr :=
  binaryLayer [TokenShiftLeft; TokenShiftRight; TokenBitAnd; TokenBitOr] parseAddExpr.

(** ** Comparisons *)

Definition parseInExpr (left : Expr) (not : bool) : P Expr :=
  expect TokenLParen "expected (" ;;;
  vs <- IF curTokenIs TokenSELECT THEN (sel <- rec_parseSelect R ;; ret ([], Some sel))
        ELSE IF curTokenIs TokenRParen THEN ret ([], None)
        ELSE (values <- parseExprList ;; ret (values, None)) ;;
  expect TokenRParen "expected )" ;;;
  ret (InExpr left not (fst vs) (snd vs)).

Definition parseBetweenExpr (left : Expr) (not : bool) : P Expr :=
  low <- parseBitwiseExpr ;;
  expect TokenAND "expected AND in BETWEEN" ;;;
  high <- parseBitwiseExpr ;;
  ret (BetweenExpr left not low high).

Definition parseLikeExpr (left : Expr) (not : bool) : P Expr :=
  pattern <- parseBitwiseExpr ;;
  esc <- optional (curTokenIs TokenESCAPE) (nextToken ;;; parseBitwiseExpr) ;;
  ret (LikeExpr left not pattern esc).

Definition parseIsExpr (left : Expr) : P Expr :=
  nextToken ;;;
  not <- IF curTokenIs TokenNOT THEN (nextToken ;;; ret true) ELSE ret false ;;
  IF curTokenIs TokenDISTINCT THEN
    (nextToken ;;;
     expect TokenFROM "expected FROM after IS [NOT] DISTINCT" ;;;
     right <- parseBitwiseExpr ;;
     ret (IsDistinctExpr left right not))
  ELSE (expect TokenNULL "expected NULL or DISTINCT FROM after IS" ;;; ret (IsNullExpr left not)).

Definition parseComparisonOp (left : Expr) : P Expr :=
  op <- curType ;;
  nextToken ;;;
  IF andP (curTokenIs TokenALL) (peekTokenIs TokenLParen) THEN
    (nextToken ;;; array <- parseQuantifierArray ;; ret (AnyAllExpr left op true array))
  ELSE IF andP (curIdentIs "ANY") (peekTokenIs TokenLParen) THEN
    (nextToken ;;; array <- parseQuantifierArray ;; ret (AnyAllExpr left op false array))
  ELSE (right <- parseBitwiseExpr ;; ret (BinaryExpr left op right)).

Definition parseComparisonExpr : P Expr :=
  left <- parseBitwiseExpr ;;
  IF curTokenIs TokenIS THEN parseIsExpr left
  ELSE (
    not <- IF curTokenIs TokenNOT THEN (nextToken ;;; ret true) ELSE ret false ;;
    IF curTokenIs TokenIN THEN (nextToken ;;; parseInExpr left not)
    ELSE IF curTokenIs TokenBETWEEN THEN (nextToken ;;; parseBetweenExpr left not)
    ELSE IF curTokenIs TokenLIKE THEN (nextToken ;;; parseLikeExpr left not)
    ELSE if not : bool then curError "expected IN, BETWEEN, or LIKE after NOT"
    else IF (fun p => isJSONBPredicateOp (Type_ (curToken p))) THEN
           (op <- curType ;; nextToken ;;; right <- parseBitwiseExpr ;; ret (BinaryExpr left op right))
    ELSE IF curTokenIn [TokenAtQuestion; TokenAtAt]
         THEN fail (Unsupported "jsonpath operators @? and @@ are not supported")
    ELSE IF (fun p => isComparisonOp (Type_ (curToken p))) THEN parseComparisonOp left
    ELSE ret left).

Definition parseNotExpr : P Expr :=
  IF curTokenIs TokenNOT THEN
    (nextToken ;;; operand <- rec_parseNotExpr R ;; ret (UnaryExpr TokenNOT operand))
  ELSE parseComparisonExpr.

Definition parseAndExpr : P Expr := binaryLayer [TokenAND] parseNotExpr.

Definition parseOrExpr : P Expr := binaryLayer [TokenOR] parseAndExpr.

Definition parseExprBody : P Expr := parseOrExpr.

(** ** Select columns *)

Definition parseSelectColumn : P SelectColumn :=
  IF curTokenIs TokenStar THEN (nextToken ;;; ret (mkSelectColumn None EmptyString true EmptyString))
  ELSE (
    e <- parseExprBody ;;
    let plain :=
      alias <- IF curTokenIs TokenAS THEN
                 (nextToken ;;; expectLiteral TokenIdent "expected identifier after AS")
               ELSE IF curTokenIs TokenIdent THEN (a <- curLiteral ;; nextToken ;;; ret a)
               ELSE ret EmptyString ;;
      ret (mkSelectColumn (Some e) alias false EmptyString) in
    match e with
    | ColumnRef table column =>
        if negb (table =s EmptyString) && (column =s "*")
        then ret (mkSelectColumn None EmptyString false table)
        else plain
    | _ => plain
    end).

Definition parseSelectColumns : P (list SelectColumn) := commaList parseSelectColumn.

(** ** Table references *)

Definition parseLockingClause : P (option LockingClause) :=
  IF isLockingClauseStart THEN
    (nextToken ;;;
     strength <- IF curTokenIs TokenUPDATE THEN (nextToken ;;; ret LockUpdate)
                 ELSE IF curIdentIs "SHARE" THEN (nextToken ;;; ret LockShare)
                 ELSE IF curIdentIs "NO"
                      THEN fail (Unsupported "FOR NO KEY UPDATE is not supported; use FOR UPDATE")
                 ELSE IF curTokenIs TokenKEY
                      THEN fail (Unsupported "FOR KEY SHARE is not supported; use FOR SHARE")
                 ELSE curError "expected UPDATE or SHARE after FOR" ;;
     IF curIdentIs "OF" THEN fail (Unsupported "SELECT ... FOR UPDATE OF table is not supported")
     ELSE (
       wait <- IF curIdentIs "NOWAIT" THEN (nextToken ;;; ret LockWaitNoWait)
               ELSE IF curIdentIs "SKIP" THEN
                 (nextToken ;;;
                  IF curIdentIs "LOCKED" THEN (nextToken ;;; ret LockWaitSkipLocked)
                  ELSE curError "expected LOCKED after SKIP")
               ELSE ret LockWaitBlock ;;
       ret (Some (mkLockingClause strength wait))))
  ELSE ret None.

(** The cases of [parseTableRef] that start with an opening parenthesis. *)
Definition parseParenTableRef : P TableRef :=
  nextToken ;;;
  IF curTokenIs TokenSELECT THEN
    (subquery <- rec_parseSelect R ;;
     expect TokenRParen "expected ) after subquery" ;;;
     skipIf (curTokenIs TokenAS) ;;;
     alias <- expectLiteral TokenIdent "subquery in FROM must have an alias" ;;
     ret (mkTableRef EmptyString EmptyString alias (Some (Inline subquery)) None None []))
  ELSE (
    innerRefs <- rec_parseTableRefs R ;;
    expect TokenRParen "expected ) after table expression" ;;;
    match innerRefs with
    | [] => curError "empty table expression"
    | base :: rest =>
        ret (fold_left (fun base extra => attach_join base (mkJoinClause JoinCross extra None []))
               rest base)
    end).

(** A table function in FROM: the name has been consumed, the current token is [(]. *)
Definition parseTableFunction (name : string) : P TableRef :=
  if isTableFunctionName name then
    (call <- parseFunctionCall name ;;
     match call with
     | FunctionCallExpr fn =>
         skipIf (curTokenIs TokenAS) ;;;
         IF andP (curTokenIs TokenIdent) (notP isClauseKeyword) THEN
           (alias <- curLiteral ;;
            nextToken ;;;
            aliases <- IF curTokenIs TokenLParen THEN parseColumnAliasList ELSE ret [] ;;
            ret (mkTableRef EmptyString name alias None None (Some fn) aliases))
         ELSE ret (mkTableRef EmptyString name EmptyString None None (Some fn) [])
     | _ => curError "invalid table function"
     end)
  else fail (Unsupported ("table function " ++ name ++ "() is not supported; FROM accepts unnest(array), jsonb_each(jsonb), jsonb_each_text(jsonb), jsonb_array_elements(jsonb), jsonb_array_elements_text(jsonb), and jsonb_object_keys(jsonb)")).

Definition parseTableRef (allowFunction : bool) : P TableRef :=
  IF curTokenIs TokenLParen THEN parseParenTableRef
  ELSE (
    name <- expectLiteral TokenIdent "expected table name" ;;
    IF (fun p => allowFunction && curTokenIs TokenLParen p) THEN parseTableFunction name
    ELSE (
      sn <- IF curTokenIs TokenDot THEN
              (nextToken ;;;
               name' <- expectLiteral TokenIdent "expected table name after dot" ;;
               ret (name, name'))
            ELSE ret (EmptyString, name) ;;
      alias <- IF curTokenIs TokenAS THEN
                 (nextToken ;;; expectLiteral TokenIdent "expected identifier after AS")
               ELSE IF andP (curTokenIs TokenIdent) (andP (notP isClauseKeyword) (notP isLockingClauseStart))
                    THEN (a <- curLiteral ;; nextToken ;;; ret a)
               ELSE ret EmptyString ;;
      ret (mkTableRef (fst sn) (snd sn) alias None None None []))).

Definition parseJoinType : P JoinType :=
  IF curTokenIs TokenINNER THEN (nextToken ;;; ret JoinInner)
  ELSE IF curTokenIs TokenLEFT THEN (nextToken ;;; skipIf (curTokenIs TokenOUTER) ;;; ret JoinLeft)
  ELSE IF curTokenIs TokenRIGHT THEN (nextToken ;;; skipIf (curTokenIs TokenOUTER) ;;; ret JoinRight)
  ELSE IF curTokenIs TokenFULL THEN (nextToken ;;; skipIf (curTokenIs TokenOUTER) ;;; ret JoinFull)
  ELSE IF curTokenIs TokenCROSS THEN (nextToken ;;; ret JoinCross)
  ELSE IF curTokenIs TokenNATURAL THEN
    (nextToken ;;;
     IF curTokenIs TokenLEFT THEN (nextToken ;;; ret JoinLeft)
     ELSE IF curTokenIs TokenRIGHT THEN (nextToken ;;; ret JoinRight)
     ELSE ret JoinInner)
  ELSE ret JoinInner.

Definition parseJoin : P JoinClause :=
  ty <- parseJoinType ;;
  IF curTokenIs TokenJOIN THEN nextToken
  ELSE IF curTokenIs TokenIdent THEN ret tt
  ELSE curError "expected JOIN" ;;;
  table <- parseTableRef true ;;
  IF curTokenIs TokenON THEN
    (nextToken ;;; cond <- parseExprBody ;; ret (mkJoinClause ty table (Some cond) []))
  ELSE IF curTokenIs TokenUSING THEN
    (nextToken ;;;
     expect TokenLParen "expected (" ;;;
     cols <- parseIdentList ;;
     expect TokenRParen "expected )" ;;;
     ret (mkJoinClause ty table None cols))
  ELSE ret (mkJoinClause ty table None []).

(** [lastTable := &tables[len(tables)-1]] with a join attached at the end of its chain. *)
Definition attach_last (tables : list TableRef) (j : JoinClause) : list TableRef :=
  match rev tables with
  | [] => []
  | t :: r => rev (attach_join t j :: r)
  end.

Definition isSome {A} (o : option A) : bool := match o with Some _ => true | None => false end.

(** A table function is the only table reference and has no join. *)
Definition table_functions_ok (tables : list TableRef) : bool :=
  forallb (fun t => negb (isSome (tr_Function t)) ||
                    negb ((1 <? length tables)%nat || isSome (tr_Join t))) tables.

Definition parseTableRefsBody : P (list TableRef) :=
  table <- parseTableRef true ;;
  tables <- loop (fun tables =>
      IF curTokenIs TokenComma THEN
        (nextToken ;;; table <- parseTableRef true ;; ret (inl (tables ++ [table])%list))
      ELSE IF isJoinKeyword THEN (join <- parseJoin ;; ret (inl (attach_last tables join)))
      ELSE ret (inr tables)) [table] ;;
  if table_functions_ok tables then ret tables
  else fail (Unsupported "a table function in FROM must be the only table reference; joins around a table function are not supported").

(** ** Queries *)

Definition parseSingleSelectTerm : P SelectStmt :=
  nextToken ;;;
  distinct <- IF curTokenIs TokenDISTINCT THEN (nextToken ;;; ret true)
              ELSE (skipIf (curTokenIs TokenALL) ;;; ret false) ;;
  cols <- parseSelectColumns ;;
  from <- IF curTokenIs TokenFROM THEN (nextToken ;;; parseTableRefsBody) ELSE ret [] ;;
  where_ <- optional (curTokenIs TokenWHERE) (nextToken ;;; parseExprBody) ;;
  groupBy <- IF curTokenIs TokenGROUP THEN
               (expectPeek TokenBY ;;; nextToken ;;; parseExprList)
             ELSE ret [] ;;
  having <- optional (curTokenIs TokenHAVING) (nextToken ;;; parseExprBody) ;;
  ret (mkSelectStmt distinct cols from where_ groupBy having [] None None None [] None).

Definition isSetOp : Parser L -> bool := curTokenIn [TokenUNION; TokenINTERSECT; TokenEXCEPT].

(** [consumeOp]: the set operator and its precedence. *)
Definition consumeOp : P (SetOpType * nat) :=
  IF curTokenIs TokenUNION THEN
    (nextToken ;;;
     IF curTokenIs TokenALL THEN (nextToken ;;; ret (SetOpUnionAll, 1)) ELSE ret (SetOpUnion, 1))
  ELSE IF curTokenIs TokenINTERSECT THEN (nextToken ;;; ret (SetOpIntersect, 2))
  ELSE IF curTokenIs TokenEXCEPT THEN (nextToken ;;; ret (SetOpExcept, 1))
  ELSE curError "expected UNION, INTERSECT, or EXCEPT".

Definition parseSingleSelect : P SelectStmt :=
  IF curTokenIs TokenSELECT THEN parseSingleSelectTerm
  ELSE curError "expected SELECT after set operator".

Definition curPrec (p : Parser L) : nat := setOpPrec (Type_ (curToken p)).

(** [climb(left, minPrec)]; [n] bounds its recursive calls, each made after a set operator has
    been consumed. *)
Fixpoint climb_n (n : nat) (left : SelectStmt) (minPrec : nat) : P CompoundSelect :=
  match n with
  | O => fun _ => OutOfFuel
  | S k =>
      left <- loop (fun left =>
          IF (fun p => isSetOp p && (minPrec <=? curPrec p)%nat) THEN
            (op <- consumeOp ;;
             right <- parseSingleSelect ;;
             right <- (match sel_Compound right with
                       | Some _ => ret right
                       | None =>
                           IF (fun p => isSetOp p && (snd op <? curPrec p)%nat) THEN
                             (sub <- climb_n k right (S (snd op)) ;; ret (compoundOnly sub))
                           ELSE ret right
                       end) ;;
             ret (inl (compoundOnly (mkCompoundSelect left (fst op) right [] None None))))
          ELSE ret (inr left)) left ;;
      match sel_Compound left with
      | Some c => ret c
      | None => curError "internal: no compound built"
      end
  end.

Definition climb (left : SelectStmt) (minPrec : nat) : P CompoundSelect :=
  fun p => climb_n (S (psize p)) left minPrec p.

(** The ORDER BY, LIMIT and OFFSET clauses of a query or of a compound. *)
Definition parseTail : P (list OrderByItem * option Expr * option Expr) :=
  orderBy <- IF curTokenIs TokenORDER THEN
               (expectPeek TokenBY ;;; nextToken ;;; parseOrderBy)
             ELSE ret [] ;;
  limit <- optional (curTokenIs TokenLIMIT) (nextToken ;;; parseExprBody) ;;
  offset <- optional (curTokenIs TokenOFFSET) (nextToken ;;; parseExprBody) ;;
  ret (orderBy, limit, offset).

Definition parseCompoundChain (first : SelectStmt) : P CompoundSelect :=
  compound <- climb first 1 ;;
  tail <- parseTail ;;
  IF isLockingClauseStart
  THEN fail (Unsupported "row locking is not supported on a compound SELECT")
  ELSE match compound, tail with
       | mkCompoundSelect l op r o lim off, (orderBy, limit, offset) =>
           ret (mkCompoundSelect l op r
                  (match orderBy with [] => o | _ => orderBy end)
                  (match limit with None => lim | _ => limit end)
                  (match offset with None => off | _ => offset end))
       end.

Definition parseSelectBody : P SelectStmt :=
  stmt <- parseSingleSelectTerm ;;
  IF isSetOp THEN (compound <- parseCompoundChain stmt ;; ret (compoundOnly compound))
  ELSE (
    tail <- parseTail ;;
    locking <- parseLockingClause ;;
    match tail with
    | (orderBy, limit, offset) => ret (with_tail stmt orderBy limit offset locking)
    end).

End Grammar.

(** ** Tying the recursion *)

Section Knot.
Context {L : Type} {TS : TokenSource L}.
Abbreviation P := (P (L := L)).

Definition no_fuel {A} : P A := fun _ => OutOfFuel.

Fixpoint knot (n : nat) : recs :=
  match n with
  | O => {| rec_parseExpr := no_fuel; rec_parseNotExpr := no_fuel; rec_parseUnaryExpr := no_fuel;
            rec_parseSelect := no_fuel; rec_parseTableRefs := no_fuel |}
  | S k =>
      let R := knot k in
      {| rec_parseExpr := parseExprBody R;
         rec_parseNotExpr := parseNotExpr R;
         rec_parseUnaryExpr := parseUnaryExpr R;
         rec_parseSelect := parseSelectBody R;
         rec_parseTableRefs := parseTableRefsBody R |}
  end.

(** The closed functions: the recursion is unrolled as deep as there are tokens left. *)
Definition close {A} (f : recs -> P A) : P A := fun p => f (knot (psize p)) p.

Definition parseExpr : P Expr := close parseExprBody.
Definition parseSelect : P SelectStmt := close parseSelectBody.
Definition parseTableRefs : P (list TableRef) := close parseTableRefsBody.
Definition parseTableRef1 (allowFunction : bool) : P TableRef :=
  close (fun R => parseTableRef R allowFunction).
Definition parseUnary : P Expr := close parseUnaryExpr.
Definition parseColumns : P (list SelectColumn) := close parseSelectColumns.

End Knot.
