(* ===== verification/GrammarFacts.v ===== *)
(** * Totality of the grammar

    Every parse function returns, with a result or a parse error, from every parser state: no
    loop and no recursion runs out of the fuel its definition gives it, and the parser never
    moves backwards. *)
From Stdlib Require Import Ascii String List Bool Arith NArith Lia.
From S2P Require Import Prelude Token Ast ParserMonad Grammar.
Import ListNotations.
Open Scope string_scope.
Open Scope go_scope.
Open Scope parser_scope.

(** ** Conditions that hold only before a token *)

Section Conditions.
Context {L : Type} {TS : TokenSource L}.
Implicit Types p : Parser L.

Definition at_token (c : Parser L -> bool) : Prop := forall p, c p = true -> tokens_in (curToken p) = 1.

Lemma at_token_type (t : TokenType) p : Type_ (curToken p) = t -> t <> TokenEOF -> tokens_in (curToken p) = 1.
Proof. unfold tokens_in. intros -> H. now rewrite (proj2 (token_eqb_neq _ _) H). Qed.

Lemma at_token_is (t : TokenType) : t <> TokenEOF -> at_token (curTokenIs t).
Proof. intros H p E. apply token_eqb_eq in E. eapply at_token_type; eauto. Qed.

Lemma at_token_in (l : list TokenType) : token_in TokenEOF l = false -> at_token (curTokenIn l).
Proof.
  intros H p E. apply token_in_In in E. eapply at_token_type; [reflexivity|]. intros C.
  rewrite C in E. apply token_in_In in E. congruence.
Qed.

Lemma at_token_ident (w : string) : at_token (curIdentIs w).
Proof.
  intros p E. apply andb_prop in E as [E _]. apply token_eqb_eq in E.
  eapply at_token_type; [exact E|discriminate].
Qed.

Lemma at_token_name : at_token curIsName.
Proof. intros p E. apply orb_prop in E as [E|E]; revert E; now apply at_token_is. Qed.

Lemma at_token_andP (a b : Parser L -> bool) : at_token a -> at_token (andP a b).
Proof. intros H p E. apply andb_prop in E as [E _]. auto. Qed.

Lemma at_token_join : at_token isJoinKeyword.
Proof. now apply at_token_in. Qed.

Lemma at_token_datatype : at_token isDataTypeKeyword.
Proof. now apply at_token_in. Qed.

Lemma at_token_locking : at_token isLockingClauseStart.
Proof. apply at_token_ident. Qed.

Lemma at_token_setop : at_token isSetOp.
Proof. now apply at_token_in. Qed.

End Conditions.

Create HintDb attoken.
#[export] Hint Resolve at_token_is at_token_in at_token_ident at_token_name at_token_andP
  at_token_join at_token_datatype at_token_locking at_token_setop : attoken.
#[export] Hint Extern 1 (_ <> TokenEOF) => discriminate : attoken.
#[export] Hint Extern 1 (token_in TokenEOF _ = false) => reflexivity : attoken.
#[export] Hint Extern 1 (token_in TokenEOF _ = false) => assumption : attoken.

(** ** Automation

    [wp_step] applies one rule to the head of the program; [arith] closes the bookkeeping of
    positions; the rules of the grammar's functions are in the database [wpfun], and [call] uses
    one of them. *)
Create HintDb wpfun.

Ltac learn_tokens :=
  repeat match goal with
  | H : ?c ?p = true |- _ =>
      lazymatch goal with
      | _ : tokens_in (curToken p) = 1 |- _ => fail
      | _ => assert (tokens_in (curToken p) = 1) by
               ((refine ((_ : at_token c) p H)); solve [auto 4 with attoken])
      end
  end.

Ltac arith :=
  learn_tokens; unfold after in *;
  repeat match goal with H : _ /\ _ |- _ => destruct H end;
  repeat match goal with |- _ /\ _ => split end; (assumption || lia).

Ltac call :=
  lazymatch goal with
  | |- wp _ ?m ?p _ =>
      refine (wp_total m p _ _ _);
      [solve [auto 2 with wpfun | match goal with F : forall _, pok _ -> _ |- _ => apply F; arith end]
      | cbv beta; intros ? ? ?]
  end.

(** A call that consumes a token; its rules are in the database [wpprog]. *)
Create HintDb wpprog.
Ltac call_progress :=
  lazymatch goal with
  | |- wp _ ?m ?p _ =>
      refine (wp_progress m p _ _ _); [solve [auto 2 with wpprog] | cbv beta; intros ? ? ?]
  end.

Ltac wp_step :=
  lazymatch goal with
  | |- wp _ (bind _ _) _ _ => apply wp_bind
  | |- wp _ (ifP _ _ _) _ _ => apply wp_ifP; intros ?
  | |- wp _ (ret _) _ _ => apply wp_ret
  | |- wp _ nextToken _ _ => apply wp_nextToken; [arith | intros ? ?]
  | |- wp _ (fail _) _ _ => exact I
  | |- wp _ (curError _) _ _ => exact I
  | |- wp _ (curErrorType _) _ _ => exact I
  | |- wp _ (peekError _) _ _ => exact I
  | |- wp _ curLiteral _ _ => apply wp_curLiteral
  | |- wp _ curType _ _ => apply wp_curType
  | |- wp _ (expect _ _) _ _ => unfold expect
  | |- wp _ (expectLiteral _ _) _ _ => unfold expectLiteral
  | |- wp _ (expectPeek _) _ _ => unfold expectPeek
  | |- wp _ (optional _ _) _ _ => unfold optional
  | |- wp _ (skipIf _) _ _ => unfold skipIf
  | |- wp _ (if ?b then _ else _) _ _ => destruct b eqn:?
  | |- wp _ (match ?x with _ => _ end) _ _ => destruct x eqn:?
  | |- wp _ (let x := _ in _) _ _ => cbv zeta
  | |- wp _ (loop _ _) _ _ => apply wp_loop; [arith | intros ? ? ?]
  | |- after _ _ _ /\ wp _ _ _ _ => split; [arith|]
  | |- total _ _ => unfold total
  | |- progress _ _ => unfold progress
  | |- ends _ _ => unfold ends
  end.

Ltac wps := repeat ((call_progress || call || wp_step); cbv beta iota).

(** The same, closing the arithmetic leaves. *)
Ltac wp_auto := wps; try arith.

#[export] Hint Extern 3 (pok _) => arith : wpfun wpprog.
#[export] Hint Extern 3 (_ <= _) => arith : wpfun.
#[export] Hint Extern 3 (_ < _) => arith : wpfun.
#[export] Hint Extern 3 (tokens_in _ = 1) => arith : wpprog.

Section Total.
Context {L : Type} {TS : TokenSource L}.
Implicit Types (p : Parser L) (R : @recs L).

Lemma total_commaList {A} (item : P A) p :
  pok p -> (forall q, after 0 p q -> total item q) -> total (commaList item) p.
Proof.
  intros Hok H. unfold commaList. apply wp_loop; [exact Hok|]. intros acc q Hq. wp_step.
  apply wp_total; [apply H; exact Hq|]. intros x r Hr. wp_auto.
Qed.

Lemma total_parseIdentList p : pok p -> total parseIdentList p.
Proof. intros H. apply total_commaList; [exact H|]. intros q Hq. wp_auto. Qed.

Hint Resolve total_parseIdentList : wpfun.

Lemma total_parseParenIdentList p : pok p -> total parseParenIdentList p.
Proof. intros H. unfold parseParenIdentList. wp_auto. Qed.

Lemma total_parseColumnAliasList p : pok p -> total parseColumnAliasList p.
Proof.
  intros H. unfold parseColumnAliasList. wps.
  apply wp_total; [apply total_commaList; [arith|]|].
  - intros q Hq. wp_auto.
  - intros. wp_auto.
Qed.

Lemma total_parseDataType p : pok p -> total parseDataType p.
Proof. intros H. unfold parseDataType. wp_auto. Qed.

Hint Resolve total_parseParenIdentList total_parseColumnAliasList total_parseDataType : wpfun.

(** ** The expression layers

    The recursive functions return from every state with fewer than [n] tokens left. *)
Record good (n : nat) (R : @recs L) : Prop := {
  good_expr : forall p, pok p -> psize p < n -> total (rec_parseExpr R) p;
  good_not : forall p, pok p -> psize p < n -> total (rec_parseNotExpr R) p;
  good_unary : forall p, pok p -> psize p < n -> total (rec_parseUnaryExpr R) p;
  good_select : forall p, pok p -> psize p < n -> total (rec_parseSelect R) p;
  good_tables : forall p, pok p -> psize p < n -> total (rec_parseTableRefs R) p
}.

Section Layer.
Variables (n : nat) (R : @recs L).
Hypothesis HR : good n R.

Local Definition g_expr := good_expr n R HR.
Local Definition g_not := good_not n R HR.
Local Definition g_unary := good_unary n R HR.
Local Definition g_select := good_select n R HR.
Local Definition g_tables := good_tables n R HR.
Hint Resolve g_expr g_not g_unary g_select g_tables : wpfun.

Lemma total_parseExprList p : pok p -> psize p < n -> total (parseExprList R) p.
Proof. intros H Hn. apply total_commaList; [exact H|]. intros q Hq. auto with wpfun. Qed.

Hint Resolve total_parseExprList : wpfun.

Lemma total_parseOrderBy p : pok p -> psize p < n -> total (parseOrderBy R) p.
Proof. intros H Hn. apply total_commaList; [exact H|]. intros q Hq. wp_auto. Qed.

Hint Resolve total_parseOrderBy : wpfun.

Lemma total_parseWindowSpec fn p : pok p -> psize p < n -> total (parseWindowSpec R fn) p.
Proof. intros H Hn. unfold parseWindowSpec. wp_auto. Qed.

Hint Resolve total_parseWindowSpec : wpfun.

Lemma total_parseFunctionCall name p :
  pok p -> psize p <= n -> curTokenIs TokenLParen p = true -> total (parseFunctionCall R name) p.
Proof. intros H Hn Hc. unfold parseFunctionCall. learn_tokens. wp_auto. Qed.

(** Inside a larger construct, where a token has been consumed before. *)
Lemma total_parseFunctionCall_in name p :
  pok p -> psize p < n -> total (parseFunctionCall R name) p.
Proof. intros H Hn. unfold parseFunctionCall. wp_auto. Qed.

Hint Resolve total_parseFunctionCall total_parseFunctionCall_in : wpfun.

Lemma total_parseKeywordFunction p : pok p -> psize p <= n -> total (parseKeywordFunction R) p.
Proof. intros H Hn. unfold parseKeywordFunction. wp_auto. Qed.

Lemma total_parseIdentOrFunction p :
  pok p -> psize p <= n -> tokens_in (curToken p) = 1 -> total (parseIdentOrFunction R) p.
Proof. intros H Hn Hc. unfold parseIdentOrFunction. wp_auto. Qed.

Lemma total_parseCaseExpr p :
  pok p -> psize p <= n -> tokens_in (curToken p) = 1 -> total (parseCaseExpr R) p.
Proof. intros H Hn Hc. unfold parseCaseExpr. wp_auto. Qed.

Lemma total_parseCastExpr p :
  pok p -> psize p <= n -> tokens_in (curToken p) = 1 -> total (parseCastExpr R) p.
Proof. intros H Hn Hc. unfold parseCastExpr. wp_auto. Qed.

Lemma total_parseExistsExpr p :
  pok p -> psize p <= n -> tokens_in (curToken p) = 1 -> total (parseExistsExpr R) p.
Proof. intros H Hn Hc. unfold parseExistsExpr. wp_auto. Qed.

Lemma total_parseArrayConstructor p :
  pok p -> psize p <= n -> tokens_in (curToken p) = 1 -> total (parseArrayConstructor R) p.
Proof. intros H Hn Hc. unfold parseArrayConstructor. wp_auto. Qed.

Lemma total_parseQuantifierArray p : pok p -> psize p < n -> total (parseQuantifierArray R) p.
Proof. intros H Hn. unfold parseQuantifierArray. wp_auto. Qed.

Hint Resolve total_parseKeywordFunction total_parseIdentOrFunction total_parseCaseExpr
  total_parseCastExpr total_parseExistsExpr total_parseArrayConstructor
  total_parseQuantifierArray : wpfun.

Lemma total_parseLiteral t p : pok p -> total (parseLiteral t) p.
Proof. intros H. unfold parseLiteral. wp_auto. Qed.

Lemma total_parseConstant t v p : pok p -> total (parseConstant t v) p.
Proof. intros H. unfold parseConstant. wp_auto. Qed.

Hint Resolve total_parseLiteral total_parseConstant : wpfun.
Hint Extern 3 (tokens_in _ = 1) => arith : wpfun.

Lemma total_parsePrimaryExprBase p : pok p -> psize p <= n -> total (parsePrimaryExprBase R) p.
Proof. intros H Hn. unfold parsePrimaryExprBase. wp_auto. Qed.

Hint Resolve total_parsePrimaryExprBase : wpfun.

Lemma total_parsePrimaryExpr p : pok p -> psize p <= n -> total (parsePrimaryExpr R) p.
Proof. intros H Hn. unfold parsePrimaryExpr. wp_auto. Qed.

Hint Resolve total_parsePrimaryExpr : wpfun.

Lemma total_parseUnaryExpr p : pok p -> psize p <= n -> total (parseUnaryExpr R) p.
Proof. intros H Hn. unfold parseUnaryExpr. wp_auto. Qed.

Hint Resolve total_parseUnaryExpr : wpfun.

(** ** Operator layers *)

Lemma total_binaryLayer ops (operand : P (L := L) Expr) p :
  token_in TokenEOF ops = false ->
  (forall q, pok q -> psize q <= n -> total operand q) ->
  pok p -> psize p <= n -> total (binaryLayer ops operand) p.
Proof.
  intros Ho Hop H Hn. unfold binaryLayer. wp_auto.
Qed.

Lemma total_parseJSONExpr p : pok p -> psize p <= n -> total (parseJSONExpr R) p.
Proof. apply total_binaryLayer; [reflexivity|apply total_parseUnaryExpr]. Qed.

Lemma total_parseMulExpr p : pok p -> psize p <= n -> total (parseMulExpr R) p.
Proof. apply total_binaryLayer; [reflexivity|apply total_parseJSONExpr]. Qed.

Lemma total_parseAddExpr p : pok p -> psize p <= n -> total (parseAddExpr R) p.
Proof. apply total_binaryLayer; [reflexivity|apply total_parseMulExpr]. Qed.

Lemma total_parseBitwiseExpr p : pok p -> psize p <= n -> total (parseBitwiseExpr R) p.
Proof. apply total_binaryLayer; [reflexivity|apply total_parseAddExpr]. Qed.

Hint Resolve total_parseBitwiseExpr : wpfun.

Lemma total_parseInExpr left not p : pok p -> psize p < n -> total (parseInExpr R left not) p.
Proof. intros H Hn. unfold parseInExpr. wp_auto. Qed.

Lemma total_parseBetweenExpr left not p : pok p -> psize p <= n -> total (parseBetweenExpr R left not) p.
Proof. intros H Hn. unfold parseBetweenExpr. wp_auto. Qed.

Lemma total_parseLikeExpr left not p : pok p -> psize p <= n -> total (parseLikeExpr R left not) p.
Proof. intros H Hn. unfold parseLikeExpr. wp_auto. Qed.

Lemma total_parseIsExpr left p : pok p -> psize p <= n -> total (parseIsExpr R left) p.
Proof. intros H Hn. unfold parseIsExpr. wp_auto. Qed.

Lemma total_parseComparisonOp left p :
  pok p -> psize p <= n -> tokens_in (curToken p) = 1 -> total (parseComparisonOp R left) p.
Proof. intros H Hn Hc. unfold parseComparisonOp. wp_auto. Qed.

Hint Resolve total_parseInExpr total_parseBetweenExpr total_parseLikeExpr total_parseIsExpr
  total_parseComparisonOp : wpfun.

Lemma comparison_token p : isComparisonOp (Type_ (curToken p)) = true -> tokens_in (curToken p) = 1.
Proof. intros E. eapply at_token_in; [|exact E]. reflexivity. Qed.

Lemma total_parseComparisonExpr p : pok p -> psize p <= n -> total (parseComparisonExpr R) p.
Proof.
  intros H Hn. unfold parseComparisonExpr.
  Local Hint Extern 2 (tokens_in _ = 1) => (apply comparison_token; assumption) : wpfun. wp_auto.
Qed.

Hint Resolve total_parseComparisonExpr : wpfun.

Lemma total_parseNotExpr p : pok p -> psize p <= n -> total (parseNotExpr R) p.
Proof. intros H Hn. unfold parseNotExpr. wp_auto. Qed.

Lemma total_parseAndExpr p : pok p -> psize p <= n -> total (parseAndExpr R) p.
Proof. apply total_binaryLayer; [reflexivity|apply total_parseNotExpr]. Qed.

Lemma total_parseExprBody p : pok p -> psize p <= n -> total (parseExprBody R) p.
Proof. apply total_binaryLayer; [reflexivity|apply total_parseAndExpr]. Qed.

Hint Resolve total_parseExprBody : wpfun.

(** ** Select columns and table references *)

Lemma total_parseSelectColumn p : pok p -> psize p <= n -> total (parseSelectColumn R) p.
Proof. intros H Hn. unfold parseSelectColumn. wp_auto. Qed.

Lemma total_parseSelectColumns p : pok p -> psize p <= n -> total (parseSelectColumns R) p.
Proof.
  intros H Hn. apply total_commaList; [exact H|]. intros q Hq. apply total_parseSelectColumn; arith.
Qed.

Lemma total_parseLockingClause p : pok p -> total parseLockingClause p.
Proof. intros H. unfold parseLockingClause. wp_auto. Qed.

Lemma total_parseParenTableRef p :
  pok p -> psize p <= n -> tokens_in (curToken p) = 1 -> total (parseParenTableRef R) p.
Proof. intros H Hn Hc. unfold parseParenTableRef. wp_auto. Qed.

Lemma total_parseTableFunction name p : pok p -> psize p < n -> total (parseTableFunction R name) p.
Proof. intros H Hn. unfold parseTableFunction. wp_auto. Qed.

Hint Resolve total_parseSelectColumns total_parseLockingClause total_parseParenTableRef
  total_parseTableFunction : wpfun.

Lemma total_parseTableRef allow p : pok p -> psize p <= n -> total (parseTableRef R allow) p.
Proof. intros H Hn. unfold parseTableRef. wp_auto. Qed.

Hint Resolve total_parseTableRef : wpfun.

Lemma total_parseJoinType p : pok p -> total parseJoinType p.
Proof. intros H. unfold parseJoinType. wp_auto. Qed.

(** A join that starts at a join keyword consumes it. *)
Lemma parseJoinType_join p :
  pok p -> isJoinKeyword p = true ->
  wp False parseJoinType p (fun _ q => after 1 p q \/ (q = p /\ curTokenIs TokenJOIN p = true)).
Proof.
  intros H Hj. assert (Hc := at_token_join p Hj). unfold parseJoinType.
  wps; try (left; arith). right. split; [reflexivity|].
  unfold isJoinKeyword, curTokenIn, token_in, curTokenIs in *. cbn [existsb] in Hj.
  bool_hyps. repeat match goal with E : _ = false |- _ => rewrite E in Hj; clear E end.
  rewrite !orb_false_r in Hj. exact Hj.
Qed.

Lemma progress_parseJoin p :
  pok p -> psize p <= n -> isJoinKeyword p = true -> progress (parseJoin R) p.
Proof.
  intros H Hn Hj. unfold parseJoin, progress. apply wp_bind.
  eapply wp_mono; [exact (fun c => c)|now apply parseJoinType_join|]. cbv beta.
  intros ty q [Hq|[-> Hq]]; wp_auto; try congruence.
Qed.

Lemma total_parseTableRefsBody p : pok p -> psize p <= n -> total (parseTableRefsBody R) p.
Proof.
  intros H Hn. unfold parseTableRefsBody. wps; try arith.
  apply wp_progress; [apply progress_parseJoin; try arith; assumption|]. intros. wp_auto.
Qed.

Hint Resolve total_parseTableRefsBody : wpfun.

(** ** Queries *)

Lemma total_parseSingleSelectTerm p :
  pok p -> psize p <= n -> total (parseSingleSelectTerm R) p.
Proof. intros H Hn. unfold parseSingleSelectTerm. wp_auto. Qed.

Hint Resolve total_parseSingleSelectTerm : wpfun.

Lemma total_parseSingleSelect p : pok p -> psize p <= n -> total (parseSingleSelect R) p.
Proof. intros H Hn. unfold parseSingleSelect. wp_auto. Qed.

Lemma progress_consumeOp p : pok p -> progress consumeOp p.
Proof. intros H. unfold consumeOp. wp_auto. Qed.

Hint Resolve total_parseSingleSelect : wpfun.

Lemma total_climb_n k left minPrec p :
  pok p -> psize p <= n -> psize p < k -> total (climb_n R k left minPrec) p.
Proof.
  revert left minPrec p. induction k; intros left minPrec p H Hn Hk; [lia|].
  cbn [climb_n]. wp_step. wps; try arith.
  apply wp_progress; [apply progress_consumeOp; arith|]. intros op q Hq. wp_auto.
Qed.

Lemma total_climb left minPrec p : pok p -> psize p <= n -> total (climb R left minPrec) p.
Proof. intros H Hn. unfold climb, total. apply (total_climb_n (S (psize p))); [assumption..|lia]. Qed.

Hint Resolve total_climb : wpfun.

Lemma total_parseTail p : pok p -> psize p <= n -> total (parseTail R) p.
Proof. intros H Hn. unfold parseTail. wp_auto. Qed.

Hint Resolve total_parseTail : wpfun.

Lemma total_parseCompoundChain first p :
  pok p -> psize p <= n -> total (parseCompoundChain R first) p.
Proof. intros H Hn. unfold parseCompoundChain. wp_auto. Qed.

Hint Resolve total_parseCompoundChain : wpfun.

Lemma total_parseSelectBody p : pok p -> psize p <= n -> total (parseSelectBody R) p.
Proof. intros H Hn. unfold parseSelectBody. wp_auto. Qed.

Lemma progress_parseSelectBody p :
  pok p -> psize p <= n -> tokens_in (curToken p) = 1 -> progress (parseSelectBody R) p.
Proof.
  intros H Hn Hc. unfold parseSelectBody, parseSingleSelectTerm. unfold progress.
  do 2 wp_step. wp_step. wp_auto.
Qed.

End Layer.

(** ** The knot *)

Lemma good_knot n : good n (knot n).
Proof.
  induction n; [split; intros; lia|].
  split; intros p H Hn; cbn [knot rec_parseExpr rec_parseNotExpr rec_parseUnaryExpr rec_parseSelect
    rec_parseTableRefs].
  - apply (total_parseExprBody n); [exact IHn|exact H|lia].
  - apply (total_parseNotExpr n); [exact IHn|exact H|lia].
  - apply (total_parseUnaryExpr n); [exact IHn|exact H|lia].
  - apply (total_parseSelectBody n); [exact IHn|exact H|lia].
  - apply (total_parseTableRefsBody n); [exact IHn|exact H|lia].
Qed.

Lemma total_close {A} (f : recs -> P A) p :
  (forall n R, good n R -> forall q, pok q -> psize q <= n -> total (f R) q) ->
  pok p -> total (close f) p.
Proof. intros Hf H. apply (Hf (psize p)); [apply good_knot|exact H|lia]. Qed.

Lemma total_parseExpr p : pok p -> total parseExpr p.
Proof. apply total_close, total_parseExprBody. Qed.

Lemma total_parseSelect p : pok p -> total parseSelect p.
Proof. apply total_close, total_parseSelectBody. Qed.

Lemma progress_close {A} (f : recs -> P A) p :
  (forall n R, good n R -> forall q, pok q -> psize q <= n -> tokens_in (curToken q) = 1 ->
     progress (f R) q) ->
  pok p -> tokens_in (curToken p) = 1 -> progress (close f) p.
Proof. intros Hf H Hc. apply (Hf (psize p)); [apply good_knot|exact H|lia|exact Hc]. Qed.

Lemma progress_parseSelect p : pok p -> tokens_in (curToken p) = 1 -> progress parseSelect p.
Proof. apply progress_close, progress_parseSelectBody. Qed.

Lemma total_parseTableRefs p : pok p -> total parseTableRefs p.
Proof. apply total_close, total_parseTableRefsBody. Qed.

Lemma total_parseTableRef1 allow p : pok p -> total (parseTableRef1 allow) p.
Proof. apply total_close. intros n R HR q. now apply total_parseTableRef. Qed.

Lemma total_parseUnary p : pok p -> total parseUnary p.
Proof. apply total_close, total_parseUnaryExpr. Qed.

Lemma total_parseColumns p : pok p -> total parseColumns p.
Proof. apply total_close, total_parseSelectColumns. Qed.

End Total.

#[export] Hint Resolve total_parseIdentList total_parseParenIdentList total_parseColumnAliasList
  total_parseDataType total_parseLockingClause total_parseExpr total_parseSelect total_parseTableRefs
  total_parseTableRef1 total_parseUnary total_parseColumns : wpfun.

