(* ===== verification/Cte.v ===== *)
(** * Common table expressions (pkg/parser/cte.go)

    The pass that replaces every reference to a non-recursive common table expression by a derived
    table.  The references of one expression share its query, which a later pass mutates again, so
    the pass threads a store of the shared queries; [visit] is the recursion into a shared query,
    the only step that may not end. *)
From Stdlib Require Import Ascii String List Bool Arith.
From S2P Require Import Prelude Token Ast.
Import ListNotations.
Open Scope string_scope.
Open Scope go_scope.

(** A parsed definition, with its query. *)
Record cteDef : Set := mkCteDef { cte_name : string; cte_cols : list string; cte_query : SelectStmt }.

(** A definition whose query is in the store. *)
Record cteRef : Set := mkCteRef { ref_name : string; ref_addr : nat }.

Definition store : Set := list SelectStmt.

Fixpoint update (l : store) (i : nat) (s : SelectStmt) : store :=
  match l, i with
  | [], _ => []
  | _ :: r, O => s :: r
  | x :: r, S k => x :: update r k s
  end.

(** ** Column names of a definition *)

Fixpoint rename_columns (names : list string) (cols : list SelectColumn) : list SelectColumn :=
  match names, cols with
  | n :: ns, c :: cs => col_with_Alias c n :: rename_columns ns cs
  | _, _ => cols
  end.

Definition applyCTEColumnNames (name : string) (cols : list string) (query : SelectStmt)
    : SelectStmt + error :=
  match cols with
  | [] => inl query
  | _ =>
      match sel_Compound query with
      | Some _ => inr (CTEColumnsOnCompound name)
      | None =>
          if (length (sel_Columns query) <? length cols)%nat
          then inr (CTEColumnCount name (length cols) (length (sel_Columns query)))
          else inl (with_Columns query (rename_columns cols (sel_Columns query)))
      end
  end.

Fixpoint lookupCTE (name : string) (ctes : list cteRef) : option cteRef :=
  match ctes with
  | [] => None
  | c :: r => if EqualFold (ref_name c) name then Some c else lookupCTE name r
  end.

(** ** Substitution *)

(** Every function below threads the store; [None] is a visit that ran out of depth. *)
Definition M (A : Type) : Type := store -> option (A * store).

Definition mret {A} (a : A) : M A := fun h => Some (a, h).
Definition mbind {A B} (m : M A) (k : A -> M B) : M B := fun h =>
  match m h with Some (a, h') => k a h' | None => None end.

Declare Scope cte_scope.
Delimit Scope cte_scope with cte.
Notation "x <- m ;; k" := (mbind m (fun x => k))
  (at level 61, m at next level, right associativity) : cte_scope.
Open Scope cte_scope.

Section Map.
Context {A : Type} (f : A -> M A).

Fixpoint mmap (l : list A) : M (list A) :=
  match l with
  | [] => mret []
  | x :: r => x' <- f x ;; r' <- mmap r ;; mret (x' :: r')
  end.

Definition mopt (o : option A) : M (option A) :=
  match o with
  | None => mret None
  | Some x => x' <- f x ;; mret (Some x')
  end.
End Map.

Section Substitute.
(** [visit] recurses into the shared query at an address. *)
Variable visit : nat -> store -> option store.
Variable ctes : list cteRef.

Definition visit_shared (a : nat) : M QueryRef := fun h =>
  match visit a h with Some h' => Some (Shared a, h') | None => None end.

Fixpoint substituteExprCTEs (expr : Expr) : M Expr :=
  match expr with
  | InExpr lhs not values subquery =>
      lhs' <- substituteExprCTEs lhs ;;
      values' <- mmap substituteExprCTEs values ;;
      subquery' <- mopt substituteSelectCTEs subquery ;;
      mret (InExpr lhs' not values' subquery')
  | SubqueryExpr query => query' <- substituteSelectCTEs query ;; mret (SubqueryExpr query')
  | ExistsExpr query => query' <- substituteSelectCTEs query ;; mret (ExistsExpr query')
  | BinaryExpr lhs op rhs =>
      lhs' <- substituteExprCTEs lhs ;;
      rhs' <- substituteExprCTEs rhs ;;
      mret (BinaryExpr lhs' op rhs')
  | UnaryExpr op operand => operand' <- substituteExprCTEs operand ;; mret (UnaryExpr op operand')
  | BetweenExpr lhs not low high =>
      lhs' <- substituteExprCTEs lhs ;;
      low' <- substituteExprCTEs low ;;
      high' <- substituteExprCTEs high ;;
      mret (BetweenExpr lhs' not low' high')
  | LikeExpr lhs not pattern escape =>
      lhs' <- substituteExprCTEs lhs ;;
      pattern' <- substituteExprCTEs pattern ;;
      escape' <- mopt substituteExprCTEs escape ;;
      mret (LikeExpr lhs' not pattern' escape')
  | IsNullExpr lhs not => lhs' <- substituteExprCTEs lhs ;; mret (IsNullExpr lhs' not)
  | IsDistinctExpr lhs rhs not =>
      lhs' <- substituteExprCTEs lhs ;;
      rhs' <- substituteExprCTEs rhs ;;
      mret (IsDistinctExpr lhs' rhs' not)
  | CaseExpr operand whens els =>
      operand' <- mopt substituteExprCTEs operand ;;
      whens' <- mmap substituteWhenCTEs whens ;;
      els' <- mopt substituteExprCTEs els ;;
      mret (CaseExpr operand' whens' els')
  | FunctionCallExpr (mkFunctionCall name args distinct star) =>
      args' <- mmap substituteExprCTEs args ;;
      mret (FunctionCallExpr (mkFunctionCall name args' distinct star))
  | ParenExpr e => e' <- substituteExprCTEs e ;; mret (ParenExpr e')
  | CastExpr e ty => e' <- substituteExprCTEs e ;; mret (CastExpr e' ty)
  | LiteralExpr _ _ | ColumnRef _ _ | WindowExpr _ _ _ | ArrayExpr _ | SubscriptExpr _ _
  | AnyAllExpr _ _ _ _ => mret expr
  end

with substituteWhenCTEs (w : WhenClause) : M WhenClause :=
  match w with
  | mkWhenClause cond result =>
      cond' <- substituteExprCTEs cond ;;
      result' <- substituteExprCTEs result ;;
      mret (mkWhenClause cond' result')
  end

with substituteOrderByCTEs (o : OrderByItem) : M OrderByItem :=
  match o with
  | mkOrderByItem e desc nulls => e' <- substituteExprCTEs e ;; mret (mkOrderByItem e' desc nulls)
  end

with substituteColumnCTEs (c : SelectColumn) : M SelectColumn :=
  match c with
  | mkSelectColumn value alias star tableStar =>
      value' <- mopt substituteExprCTEs value ;;
      mret (mkSelectColumn value' alias star tableStar)
  end

with substituteSelectCTEs (sel : SelectStmt) : M SelectStmt :=
  match sel with
  | mkSelectStmt distinct columns from where_ groupBy having orderBy limit offset compound with_ locking =>
      compound' <- mopt substituteCompoundCTEs compound ;;
      from' <- mmap substituteTableRefCTEs from ;;
      where' <- mopt substituteExprCTEs where_ ;;
      columns' <- mmap substituteColumnCTEs columns ;;
      groupBy' <- mmap substituteExprCTEs groupBy ;;
      having' <- mopt substituteExprCTEs having ;;
      orderBy' <- mmap substituteOrderByCTEs orderBy ;;
      limit' <- mopt substituteExprCTEs limit ;;
      offset' <- mopt substituteExprCTEs offset ;;
      mret (mkSelectStmt distinct columns' from' where' groupBy' having' orderBy' limit' offset'
              compound' with_ locking)
  end

with substituteCompoundCTEs (c : CompoundSelect) : M CompoundSelect :=
  match c with
  | mkCompoundSelect lhs op rhs orderBy limit offset =>
      lhs' <- substituteSelectCTEs lhs ;;
      rhs' <- substituteSelectCTEs rhs ;;
      mret (mkCompoundSelect lhs' op rhs' orderBy limit offset)
  end

with substituteTableRefCTEs (ref : TableRef) : M TableRef :=
  match ref with
  | mkTableRef schema name alias subquery join function aliases =>
      r <- match subquery with
           | Some (Inline query) =>
               query' <- substituteSelectCTEs query ;; mret (name, alias, Some (Inline query'))
           | Some (Shared a) => q <- visit_shared a ;; mret (name, alias, Some q)
           | None =>
               if schema =s EmptyString then
                 match lookupCTE name ctes with
                 | Some cte =>
                     mret (EmptyString, if alias =s EmptyString then ref_name cte else alias,
                           Some (Shared (ref_addr cte)))
                 | None => mret (name, alias, None)
                 end
               else mret (name, alias, None)
           end ;;
      join' <- mopt substituteJoinCTEs join ;;
      mret (mkTableRef schema (fst (fst r)) (snd (fst r)) (snd r) join' function aliases)
  end

with substituteJoinCTEs (join : JoinClause) : M JoinClause :=
  match join with
  | mkJoinClause ty table cond cols =>
      table' <- substituteTableRefCTEs table ;;
      cond' <- mopt substituteExprCTEs cond ;;
      mret (mkJoinClause ty table' cond' cols)
  end.

Definition substituteReturningCTEs (cols : list SelectColumn) : M (list SelectColumn) :=
  mmap substituteColumnCTEs cols.

Definition substituteAssignmentCTEs (a : Assignment) : M Assignment :=
  v <- substituteExprCTEs (as_Value a) ;; mret (mkAssignment (as_Column a) v).

(** The error is that of a statement that takes no WITH. *)
Definition substituteStatementCTEs (stmt : Statement) : M (Statement + error) :=
  match stmt with
  | StSelect s => s' <- substituteSelectCTEs s ;; mret (inl (StSelect s'))
  | StUpdate s =>
      from' <- mmap substituteTableRefCTEs (upd_From s) ;;
      set' <- mmap substituteAssignmentCTEs (upd_Set s) ;;
      where' <- mopt substituteExprCTEs (upd_Where s) ;;
      returning' <- substituteReturningCTEs (upd_Returning s) ;;
      mret (inl (StUpdate (mkUpdateStmt (upd_Table s) set' from' where' returning')))
  | StDelete s =>
      where' <- mopt substituteExprCTEs (del_Where s) ;;
      returning' <- substituteReturningCTEs (del_Returning s) ;;
      mret (inl (StDelete (mkDeleteStmt (del_Table s) where' returning')))
  | StInsert s =>
      match ins_Select s with
      | Some sel =>
          sel' <- substituteSelectCTEs sel ;;
          mret (inl (StInsert (mkInsertStmt (ins_Table s) (ins_Columns s) (ins_Values s)
                                 (ins_DefaultValues s) (Some sel') (ins_OnConflict s)
                                 (ins_ConflictTarget s) (ins_ConflictUpdate s)
                                 (ins_ConflictDoNothing s) (ins_Returning s))))
      | None =>
          values' <- mmap (mmap substituteExprCTEs) (ins_Values s) ;;
          mret (inl (StInsert (mkInsertStmt (ins_Table s) (ins_Columns s) values'
                                 (ins_DefaultValues s) None (ins_OnConflict s)
                                 (ins_ConflictTarget s) (ins_ConflictUpdate s)
                                 (ins_ConflictDoNothing s) (ins_Returning s))))
      end
  | _ => mret (inr WithNotSupported)
  end.

End Substitute.

(** Recursion into a shared query: its object is mutated in place.  A visit that reaches an address
    it is already visiting never ends, so [n] visits inside each other, one more than there are
    shared queries, decide whether it ends. *)
Fixpoint visit_n (ctes : list cteRef) (n : nat) (a : nat) (h : store) : option store :=
  match n with
  | O => None
  | S k =>
      match nth_error h a with
      | None => Some h
      | Some s =>
          match substituteSelectCTEs (visit_n ctes k) ctes s h with
          | Some (s', h') => Some (update h' a s')
          | None => None
          end
      end
  end.

Definition visit (ctes : list cteRef) (a : nat) (h : store) : option store :=
  visit_n ctes (S (length h)) a h.

(** The addresses [substituteSelectCTEs(ctes[i].query, ctes[:i])] mutates, in order. *)
Fixpoint substitute_definitions (done todo : list cteRef) (h : store) : option store :=
  match todo with
  | [] => Some h
  | c :: r =>
      match visit done (ref_addr c) h with
      | Some h' => substitute_definitions (done ++ [c]) r h'
      | None => None
      end
  end.

(** The definitions' queries, placed in the store. *)
Definition alloc (h : store) (ctes : list cteDef) : list cteRef * store :=
  (map (fun p => mkCteRef (cte_name (snd p)) (length h + fst p)) (combine (seq 0 (length ctes)) ctes),
   (h ++ map cte_query ctes)%list).

(** The two passes at the end of [parseWithStatement], for a clause that is not recursive. *)
Definition desugar (h : store) (ctes : list cteDef) (stmt : Statement)
    : option ((Statement + error) * store) :=
  let (refs, h) := alloc h ctes in
  match substitute_definitions [] refs h with
  | None => None
  | Some h => substituteStatementCTEs (visit_n refs (S (length h))) refs stmt h
  end.
