(* ===== verification/Format.v ===== *)
(** * Canonical expression text (pkg/parser/format.go)

    [FormatExpr] renders an expression as SQL text; a nil expression is the empty string. *)
From Stdlib Require Import Ascii String List Bool NArith.
From S2P Require Import Prelude Token Ast.
Import ListNotations.
Open Scope string_scope.
Open Scope go_scope.

Definition operatorString (op : TokenType) : string :=
  match op with
  | TokenPlus => "+"
  | TokenMinus => "-"
  | TokenStar => "*"
  | TokenSlash => "/"
  | TokenPercent => "%"
  | TokenConcat => "||"
  | TokenArrow => "->"
  | TokenArrowText => "->>"
  | TokenEq => "="
  | TokenNeq => "<>"
  | TokenLt => "<"
  | TokenLte => "<="
  | TokenGt => ">"
  | TokenGte => ">="
  | TokenAND => "AND"
  | TokenOR => "OR"
  | TokenBitAnd => "&"
  | TokenBitOr => "|"
  | TokenBitNot => "~"
  | TokenShiftLeft => "<<"
  | TokenShiftRight => ">>"
  | _ => TokenType_String op
  end.

(** The loop over the bytes: letters and underscores, and digits after the first byte. *)
Fixpoint bare_from (first : bool) (name : string) : bool :=
  match name with
  | EmptyString => true
  | String c r =>
      ((c =b "_") || (("a" <=b c) && (c <=b "z")) || (("A" <=b c) && (c <=b "Z"))
       || (negb first && ("0" <=b c) && (c <=b "9"))) && bare_from false r
  end.

Definition quoteFormatIdent (name : string) : string :=
  if name =s EmptyString then name
  else if bare_from true name && (LookupKeyword (ToUpper name) =t TokenIdent) then name
  else str1 DQUOTE ++ ReplaceAll1 name DQUOTE (String DQUOTE (str1 DQUOTE)) ++ str1 DQUOTE.

Definition format_literal (t : TokenType) (v : string) : string :=
  match t with
  | TokenString => "'" ++ ReplaceAll1 v SQUOTE "''" ++ "'"
  | TokenBlob => "X'" ++ hex_upper v ++ "'"
  | TokenNULL => "NULL"
  | TokenTRUE => "TRUE"
  | TokenFALSE => "FALSE"
  | _ => v
  end.

Definition format_not (not : bool) : string := if not then "NOT " else EmptyString.

Fixpoint FormatExpr (expr : Expr) : string :=
  match expr with
  | LiteralExpr t v => format_literal t v
  | ColumnRef table column =>
      if negb (table =s EmptyString)
      then quoteFormatIdent table ++ "." ++ quoteFormatIdent column
      else quoteFormatIdent column
  | BinaryExpr l op r => "(" ++ FormatExpr l ++ " " ++ operatorString op ++ " " ++ FormatExpr r ++ ")"
  | UnaryExpr op e =>
      if op =t TokenNOT then "(NOT " ++ FormatExpr e ++ ")"
      else "(" ++ operatorString op ++ FormatExpr e ++ ")"
  | ParenExpr e => "(" ++ FormatExpr e ++ ")"
  | FunctionCallExpr (mkFunctionCall name args distinct star) =>
      if star then ToLower name ++ "(*)"
      else ToLower name ++ "(" ++ (if distinct then "DISTINCT " else EmptyString)
           ++ Join (map FormatExpr args) ", " ++ ")"
  | CastExpr e ty => "CAST(" ++ FormatExpr e ++ " AS " ++ SQLTypeName ty ++ ")"
  | ArrayExpr elements => "ARRAY[" ++ Join (map FormatExpr elements) ", " ++ "]"
  | SubscriptExpr e index => FormatExpr e ++ "[" ++ FormatExpr index ++ "]"
  | AnyAllExpr l op all array =>
      "(" ++ FormatExpr l ++ " " ++ operatorString op ++ " " ++ (if all then "ALL" else "ANY")
      ++ "(" ++ FormatExpr array ++ "))"
  | CaseExpr operand whens els =>
      "CASE"
      ++ (match operand with Some e => " " ++ FormatExpr e | None => EmptyString end)
      ++ String.concat EmptyString
           (map (fun w => match w with
                          | mkWhenClause c r => " WHEN " ++ FormatExpr c ++ " THEN " ++ FormatExpr r
                          end) whens)
      ++ (match els with Some e => " ELSE " ++ FormatExpr e | None => EmptyString end)
      ++ " END"
  | InExpr l not values subquery =>
      match subquery with
      | Some _ => "(" ++ FormatExpr l ++ " " ++ format_not not ++ "IN (SELECT ...))"
      | None => "(" ++ FormatExpr l ++ " " ++ format_not not ++ "IN ("
                ++ Join (map FormatExpr values) ", " ++ "))"
      end
  | BetweenExpr l not low high =>
      "(" ++ FormatExpr l ++ " " ++ format_not not ++ "BETWEEN " ++ FormatExpr low
      ++ " AND " ++ FormatExpr high ++ ")"
  | LikeExpr l not pattern escape =>
      match escape with
      | None => "(" ++ FormatExpr l ++ " " ++ format_not not ++ "LIKE " ++ FormatExpr pattern ++ ")"
      | Some esc => "(" ++ FormatExpr l ++ " " ++ format_not not ++ "LIKE " ++ FormatExpr pattern
                    ++ " ESCAPE " ++ FormatExpr esc ++ ")"
      end
  | IsNullExpr l not =>
      if not then "(" ++ FormatExpr l ++ " IS NOT NULL)" else "(" ++ FormatExpr l ++ " IS NULL)"
  | IsDistinctExpr l r not =>
      "(" ++ FormatExpr l ++ " " ++ (if not then "IS NOT DISTINCT FROM" else "IS DISTINCT FROM")
      ++ " " ++ FormatExpr r ++ ")"
  | SubqueryExpr _ => "(SELECT ...)"
  | WindowExpr _ _ _ | ExistsExpr _ => EmptyString
  end.
