(* ===== verification/Statements.v ===== *)
(** * Statements (pkg/parser/parser.go, pkg/parser/cte.go)

    The parse functions of the statements, over the closed functions of the grammar, and the entry
    points [Parse], [ParseExpr] and [ParseMultiple].  Statements nest in EXPLAIN and behind WITH
    only, so they have a recursion of their own. *)
From Stdlib Require Import Ascii String List Bool Arith NArith ZArith Lia.
From S2P Require Import Prelude Token Lexer Ast ParserMonad Grammar Cte Format.
Import ListNotations.
Open Scope string_scope.
Open Scope go_scope.
Open Scope parser_scope.

Section Statements.
Context {L : Type} {TS : TokenSource L}.
Abbreviation P := (P (L := L)).

Definition isWithStart : Parser L -> bool := curIdentIs "WITH".

(** [p.nextToken(); if !p.curTokenIs(...)]: the words of IF NOT EXISTS and IF EXISTS. *)
Definition parseIfNotExists (notMsg existsMsg : string) : P bool :=
  IF curTokenIs TokenIF THEN
    (nextToken ;;;
     expect TokenNOT notMsg ;;;
     expect TokenEXISTS existsMsg ;;;
     ret true)
  ELSE ret false.

Definition parseIfExists : P bool :=
  IF curTokenIs TokenIF THEN (nextToken ;;; expect TokenEXISTS "expected EXISTS" ;;; ret true)
  ELSE ret false.

(** ** INSERT, UPDATE, DELETE *)

Definition parseExprListClosed : P (list Expr) := commaList parseExpr.

Definition parseValuesList : P (list (list Expr)) :=
  commaList
    (expect TokenLParen "expected (" ;;;
     row <- parseExprListClosed ;;
     expect TokenRParen "expected )" ;;;
     ret row).

(** [column = value, ...] *)
Definition parseAssignments : P (list Assignment) :=
  commaList
    (col <- expectLiteral TokenIdent "expected column name" ;;
     expect TokenEq "expected =" ;;;
     val <- parseExpr ;;
     ret (mkAssignment col val)).

Definition parseReturningClause : P (list SelectColumn) :=
  nextToken ;;;
  cols <- parseColumns ;;
  match cols with
  | [] => curError "RETURNING requires at least one expression"
  | _ => ret cols
  end.

Definition parseReturning : P (list SelectColumn) :=
  IF curTokenIs TokenRETURNING THEN parseReturningClause ELSE ret [].

Definition conflict_action : list (TokenType * ConflictAction) :=
  [(TokenREPLACE, ConflictReplace); (TokenIGNORE, ConflictIgnore); (TokenFAIL, ConflictFail);
   (TokenABORT, ConflictAbort); (TokenROLLBACK, ConflictRollback)].

(** The five-way switch on a conflict action, which consumes its token. *)
Definition parseConflictAction (msg : string) : P ConflictAction :=
  t <- curType ;;
  match find (fun x => fst x =t t) conflict_action with
  | Some (_, a) => nextToken ;;; ret a
  | None => curError msg
  end.

Definition parseOrAction : P ConflictAction :=
  IF curTokenIs TokenOR THEN
    (nextToken ;;; parseConflictAction "expected REPLACE, IGNORE, FAIL, ABORT, or ROLLBACK after OR")
  ELSE ret ConflictAbort.

(** ON CONFLICT: the target, the assignments of DO UPDATE, and whether it is DO NOTHING. *)
Definition parseUpsert : P (list string * list Assignment * bool) :=
  IF curTokenIs TokenON THEN
    (nextToken ;;;
     expect TokenCONFLICT "expected CONFLICT after ON" ;;;
     target <- IF curTokenIs TokenLParen THEN
                 (nextToken ;;;
                  target <- parseIdentList ;;
                  expect TokenRParen "expected )" ;;;
                  ret target)
               ELSE ret [] ;;
     expect TokenDO "expected DO after ON CONFLICT" ;;;
     IF curTokenIs TokenNOTHING THEN (nextToken ;;; ret (target, [], true))
     ELSE IF curTokenIs TokenUPDATE THEN
       (nextToken ;;;
        expect TokenSET "expected SET after DO UPDATE" ;;;
        sets <- parseAssignments ;;
        ret (target, sets, false))
     ELSE curError "expected NOTHING or UPDATE after DO")
  ELSE ret ([], [], false).

(** What an INSERT inserts: the rows, whether they are DEFAULT VALUES, and the query. *)
Definition insert_source : Type := list (list Expr) * bool * option SelectStmt.

Section Insert.
Variable parseWithStatement : P Statement.

Definition parseInsertSource : P insert_source :=
  IF curTokenIs TokenVALUES THEN
    (nextToken ;;; values <- parseValuesList ;; ret (values, false, None))
  ELSE IF curTokenIs TokenDEFAULT THEN
    (nextToken ;;; expect TokenVALUES "expected VALUES after DEFAULT" ;;; ret ([[]], true, None))
  ELSE IF curTokenIs TokenSELECT THEN (sel <- parseSelect ;; ret ([], false, Some sel))
  ELSE IF isWithStart THEN
    (withStmt <- parseWithStatement ;;
     match withStmt with
     | StSelect sel => ret ([], false, Some sel)
     | _ => curError "expected SELECT after WITH"
     end)
  ELSE curError "expected VALUES, SELECT, WITH, or DEFAULT VALUES".

Definition parseInsert : P InsertStmt :=
  nextToken ;;;
  action <- parseOrAction ;;
  expect TokenINTO "expected INTO" ;;;
  table <- parseTableRef1 false ;;
  cols <- IF curTokenIs TokenLParen THEN
            (nextToken ;;; cols <- parseIdentList ;; expect TokenRParen "expected )" ;;; ret cols)
          ELSE ret [] ;;
  src <- parseInsertSource ;;
  upsert <- parseUpsert ;;
  returning <- parseReturning ;;
  match src, upsert with
  | (values, defaults, sel), (target, sets, nothing) =>
      ret (mkInsertStmt table cols values defaults sel action target sets nothing returning)
  end.
End Insert.

Definition parseUpdate : P UpdateStmt :=
  nextToken ;;;
  table <- parseTableRef1 false ;;
  expect TokenSET "expected SET" ;;;
  sets <- parseAssignments ;;
  from <- IF curTokenIs TokenFROM THEN (nextToken ;;; parseTableRefs) ELSE ret [] ;;
  where_ <- optional (curTokenIs TokenWHERE) (nextToken ;;; parseExpr) ;;
  returning <- parseReturning ;;
  ret (mkUpdateStmt table sets from where_ returning).

Definition parseDelete : P DeleteStmt :=
  nextToken ;;;
  expect TokenFROM "expected FROM" ;;;
  table <- parseTableRef1 false ;;
  where_ <- optional (curTokenIs TokenWHERE) (nextToken ;;; parseExpr) ;;
  returning <- parseReturning ;;
  ret (mkDeleteStmt table where_ returning).

(** ** Column and table constraints *)

(** [None] when no ON CONFLICT follows. *)
Definition parseOnConflictAction : P (option ConflictAction) :=
  IF curTokenIs TokenON THEN
    (nextToken ;;;
     expect TokenCONFLICT "expected CONFLICT after ON" ;;;
     a <- parseConflictAction "expected REPLACE, IGNORE, FAIL, ABORT, or ROLLBACK after ON CONFLICT" ;;
     ret (Some a))
  ELSE ret None.

Definition parseReferentialAction : P ReferentialAction :=
  IF curIdentIs "CASCADE" THEN (nextToken ;;; ret RefActionCascade)
  ELSE IF curIdentIs "RESTRICT" THEN (nextToken ;;; ret RefActionRestrict)
  ELSE IF curIdentIs "NO" THEN
    (nextToken ;;;
     IF curIdentIs "ACTION" THEN (nextToken ;;; ret RefActionNoAction)
     ELSE curError "expected ACTION after NO")
  ELSE IF curTokenIs TokenSET THEN
    (nextToken ;;;
     IF curTokenIs TokenNULL THEN (nextToken ;;; ret RefActionSetNull)
     ELSE IF curTokenIs TokenDEFAULT THEN (nextToken ;;; ret RefActionSetDefault)
     ELSE curError "expected NULL or DEFAULT after SET")
  ELSE curError "expected CASCADE, RESTRICT, NO ACTION, SET NULL, or SET DEFAULT".

(** The referential actions ON DELETE and ON UPDATE, and the DEFERRABLE flag. *)
Definition fk_clauses : Type := ReferentialAction * ReferentialAction * bool.

Definition parseForeignKeyClauses : P fk_clauses :=
  actions <- loop (fun acts =>
      IF curTokenIs TokenON THEN
        (nextToken ;;;
         onDelete <- IF curTokenIs TokenDELETE THEN ret true
                     ELSE IF curTokenIs TokenUPDATE THEN ret false
                     ELSE curError "expected DELETE or UPDATE after ON" ;;
         nextToken ;;;
         action <- parseReferentialAction ;;
         ret (inl (if onDelete : bool then (action, snd acts) else (fst acts, action))))
      ELSE ret (inr acts)) (RefActionUnspecified, RefActionUnspecified) ;;
  IF andP (curTokenIs TokenNOT) (peekIdentIs "DEFERRABLE") THEN
    (nextToken ;;; nextToken ;;; ret (fst actions, snd actions, false))
  ELSE IF curIdentIs "DEFERRABLE" THEN
    (nextToken ;;;
     (IF curIdentIs "INITIALLY" THEN
        (nextToken ;;;
         IF curIdentIs "DEFERRED" THEN nextToken
         ELSE IF curIdentIs "IMMEDIATE" THEN nextToken
         ELSE curError "expected DEFERRED or IMMEDIATE after INITIALLY")
      ELSE ret tt) ;;;
     ret (fst actions, snd actions, true))
  ELSE ret (fst actions, snd actions, false).

(** [constraint.OnConflict, constraint.HasOnConflict] after [parseOnConflictAction]. *)
Definition conflict_fields (a : option ConflictAction) : ConflictAction * bool :=
  match a with Some a => (a, true) | None => (ConflictAbort, false) end.

(** A column constraint with the fields of one case of the switch. *)
Definition plain_constraint (ty : ConstraintType) (name : string) (dflt chk : option Expr)
    (conflict : option ConflictAction) : ColumnConstraint :=
  mkColumnConstraint ty name dflt EmptyString [] chk RefActionUnspecified RefActionUnspecified false
    (fst (conflict_fields conflict)) (snd (conflict_fields conflict)).

(** [None]: no constraint starts here; [Some None]: an explicit NULL was consumed. *)
Definition parseColumnConstraint : P (option (option ColumnConstraint)) :=
  name <- IF curTokenIs TokenCONSTRAINT THEN
            (nextToken ;;; s <- expectLiteral TokenIdent "expected constraint name" ;; ret (Some s))
          ELSE ret None ;;
  let nm := match name with Some s => s | None => EmptyString end in
  let unnamed := "expected constraint type after constraint name" in
  IF curTokenIs TokenPRIMARY THEN
    (nextToken ;;;
     expect TokenKEY "expected KEY after PRIMARY" ;;;
     action <- parseOnConflictAction ;;
     ret (Some (Some (plain_constraint ConstraintPrimaryKey nm None None action))))
  ELSE IF curTokenIs TokenNOT THEN
    (nextToken ;;;
     expect TokenNULL "expected NULL after NOT" ;;;
     ret (Some (Some (plain_constraint ConstraintNotNull nm None None None))))
  ELSE IF curTokenIs TokenUNIQUE THEN
    (nextToken ;;;
     action <- parseOnConflictAction ;;
     ret (Some (Some (plain_constraint ConstraintUnique nm None None action))))
  ELSE IF curTokenIs TokenDEFAULT THEN
    (nextToken ;;;
     e <- parseUnary ;;
     ret (Some (Some (plain_constraint ConstraintDefault nm (Some e) None None))))
  ELSE IF curTokenIs TokenREFERENCES THEN
    (nextToken ;;;
     table <- expectLiteral TokenIdent "expected table name after REFERENCES" ;;
     refCols <- IF curTokenIs TokenLParen THEN parseParenIdentList ELSE ret [] ;;
     fk <- parseForeignKeyClauses ;;
     ret (Some (Some (mkColumnConstraint ConstraintForeignKey nm None table refCols None
                        (fst (fst fk)) (snd (fst fk)) (snd fk) ConflictAbort false))))
  ELSE IF curTokenIs TokenAUTOINCREMENT THEN
    (nextToken ;;; ret (Some (Some (plain_constraint ConstraintAutoIncrement nm None None None))))
  ELSE IF curTokenIs TokenCHECK THEN
    (nextToken ;;;
     expect TokenLParen "expected ( after CHECK" ;;;
     chk <- parseExpr ;;
     expect TokenRParen "expected ) after CHECK expression" ;;;
     ret (Some (Some (plain_constraint ConstraintCheck nm None (Some chk) None))))
  ELSE IF curTokenIs TokenNULL THEN
    (match name with
     | Some _ => curError unnamed
     | None => nextToken ;;; ret (Some None)
     end)
  ELSE (match name with Some _ => curError unnamed | None => ret None end).

Definition cd_with_generated (col : ColumnDef) (e : Expr) (stored : bool) : ColumnDef :=
  mkColumnDef (cd_Name col) (cd_Type col) (cd_Constraints col) (Some e) stored.

Definition cd_add_constraint (col : ColumnDef) (c : ColumnConstraint) : ColumnDef :=
  mkColumnDef (cd_Name col) (cd_Type col) (cd_Constraints col ++ [c])%list (cd_GeneratedExpr col)
    (cd_GeneratedStored col).

(** [Some] of the column with its generated clause when one was consumed. *)
Definition tryParseGeneratedColumn (col : ColumnDef) : P (option ColumnDef) :=
  started <- IF curIdentIs "GENERATED" THEN
               (nextToken ;;;
                IF curIdentIs "ALWAYS" THEN (nextToken ;;; ret true)
                ELSE curError "expected ALWAYS after GENERATED")
             ELSE ret false ;;
  IF curTokenIs TokenAS THEN
    (nextToken ;;;
     expect TokenLParen "expected ( after AS" ;;;
     e <- parseExpr ;;
     expect TokenRParen "expected ) after generated expression" ;;;
     stored <- IF curIdentIs "STORED" THEN (nextToken ;;; ret true)
               ELSE IF curIdentIs "VIRTUAL" THEN (nextToken ;;; ret false)
               ELSE ret (cd_GeneratedStored col) ;;
     ret (Some (cd_with_generated col e stored)))
  ELSE if started : bool then curError "expected AS in generated column definition"
  else ret None.

Definition parseColumnDef : P ColumnDef :=
  name <- IF curIsName THEN (s <- curLiteral ;; nextToken ;;; ret s)
          ELSE curError "expected column name" ;;
  dataType <- parseDataType ;;
  loop (fun col =>
    gen <- tryParseGeneratedColumn col ;;
    match gen with
    | Some col' => ret (inl col')
    | None =>
        c <- parseColumnConstraint ;;
        match c with
        | None => ret (inr col)
        | Some None => ret (inl col)
        | Some (Some constraint) => ret (inl (cd_add_constraint col constraint))
        end
    end) (mkColumnDef name dataType [] None false).

Definition plain_table_constraint (ty : ConstraintType) (name : string) (cols : list string)
    (chk : option Expr) (conflict : option ConflictAction) : TableConstraint :=
  mkTableConstraint ty name cols EmptyString [] chk RefActionUnspecified RefActionUnspecified false
    (fst (conflict_fields conflict)) (snd (conflict_fields conflict)).

Definition parseTableConstraint : P TableConstraint :=
  name <- IF curTokenIs TokenCONSTRAINT THEN
            (nextToken ;;; expectLiteral TokenIdent "expected constraint name")
          ELSE ret EmptyString ;;
  IF curTokenIs TokenPRIMARY THEN
    (nextToken ;;;
     expect TokenKEY "expected KEY after PRIMARY" ;;;
     cols <- parseParenIdentList ;;
     action <- parseOnConflictAction ;;
     ret (plain_table_constraint ConstraintPrimaryKey name cols None action))
  ELSE IF curTokenIs TokenUNIQUE THEN
    (nextToken ;;;
     cols <- parseParenIdentList ;;
     action <- parseOnConflictAction ;;
     ret (plain_table_constraint ConstraintUnique name cols None action))
  ELSE IF curTokenIs TokenFOREIGN THEN
    (nextToken ;;;
     expect TokenKEY "expected KEY after FOREIGN" ;;;
     cols <- parseParenIdentList ;;
     expect TokenREFERENCES "expected REFERENCES" ;;;
     table <- expectLiteral TokenIdent "expected table name" ;;
     refCols <- parseParenIdentList ;;
     fk <- parseForeignKeyClauses ;;
     ret (mkTableConstraint ConstraintForeignKey name cols table refCols None
            (fst (fst fk)) (snd (fst fk)) (snd fk) ConflictAbort false))
  ELSE IF curTokenIs TokenCHECK THEN
    (nextToken ;;;
     expect TokenLParen "expected (" ;;;
     chk <- parseExpr ;;
     expect TokenRParen "expected )" ;;;
     ret (plain_table_constraint ConstraintCheck name [] (Some chk) None))
  ELSE curError "expected constraint type".

Definition isTableConstraintStart : Parser L -> bool :=
  curTokenIn [TokenPRIMARY; TokenFOREIGN; TokenUNIQUE; TokenCHECK; TokenCONSTRAINT].

(** ** CREATE, DROP, ALTER *)

Definition parseCreateTable : P CreateTableStmt :=
  nextToken ;;;
  ifNotExists <- parseIfNotExists "expected NOT" "expected EXISTS" ;;
  table <- parseTableRef1 false ;;
  expect TokenLParen "expected (" ;;;
  body <- loop (fun acc =>
      IF curTokenIs TokenRParen THEN ret (inr acc)
      ELSE (
        acc' <- IF isTableConstraintStart
                THEN (c <- parseTableConstraint ;; ret (fst acc, (snd acc ++ [c])%list))
                ELSE (col <- parseColumnDef ;; ret ((fst acc ++ [col])%list, snd acc)) ;;
        IF curTokenIs TokenComma THEN (nextToken ;;; ret (inl acc')) ELSE ret (inr acc')))
    (([], []) : list ColumnDef * list TableConstraint) ;;
  expect TokenRParen "expected )" ;;;
  ret (mkCreateTableStmt ifNotExists table (fst body) (snd body)).

(** An element of an index: a bare column, or an expression named by its text. *)
Definition index_column (e : Expr) (desc : bool) : IndexColumn :=
  match e with
  | ColumnRef table column =>
      if table =s EmptyString then mkIndexColumn column desc None
      else mkIndexColumn (FormatExpr e) desc (Some e)
  | _ => mkIndexColumn (FormatExpr e) desc (Some e)
  end.

Definition parseCreateIndex (unique : bool) : P CreateIndexStmt :=
  nextToken ;;;
  ifNotExists <- parseIfNotExists "expected NOT" "expected EXISTS" ;;
  name <- expectLiteral TokenIdent "expected index name" ;;
  expect TokenON "expected ON" ;;;
  table <- expectLiteral TokenIdent "expected table name" ;;
  IF curTokenIs TokenUSING THEN
    (nextToken ;;;
     meth <- expectLiteral TokenIdent "expected index method after USING" ;;
     if ToUpper meth =s "BTREE" then ret tt
     else fail (Unsupported ("index method " ++ ToUpper meth ++ " is not supported; only BTREE indexes are implemented")))
  ELSE ret tt ;;;
  expect TokenLParen "expected (" ;;;
  cols <- loop (fun acc =>
      IF curTokenIs TokenRParen THEN ret (inr acc)
      ELSE (
        e <- parseExpr ;;
        desc <- IF curTokenIs TokenASC THEN (nextToken ;;; ret false)
                ELSE IF curTokenIs TokenDESC THEN (nextToken ;;; ret true)
                ELSE ret false ;;
        IF curTokenIs TokenComma THEN (nextToken ;;; ret (inl (acc ++ [index_column e desc])%list))
        ELSE ret (inr (acc ++ [index_column e desc])%list))) [] ;;
  expect TokenRParen "expected )" ;;;
  ret (mkCreateIndexStmt ifNotExists unique name table cols).

Definition parseCreateView : P CreateViewStmt :=
  nextToken ;;;
  ifNotExists <- parseIfNotExists "expected NOT" "expected EXISTS" ;;
  name <- expectLiteral TokenIdent "expected view name" ;;
  expect TokenAS "expected AS after view name" ;;;
  sel <- parseSelect ;;
  ret (mkCreateViewStmt ifNotExists (mkTableRef EmptyString name EmptyString None None None []) sel).

Definition parseCreate : P Statement :=
  nextToken ;;;
  IF curTokenIs TokenTABLE THEN (s <- parseCreateTable ;; ret (StCreateTable s))
  ELSE IF curTokenIs TokenINDEX THEN (s <- parseCreateIndex false ;; ret (StCreateIndex s))
  ELSE IF curTokenIs TokenUNIQUE THEN
    (nextToken ;;;
     IF curTokenIs TokenINDEX THEN (s <- parseCreateIndex true ;; ret (StCreateIndex s))
     ELSE curError "expected INDEX after UNIQUE")
  ELSE IF curTokenIs TokenVIEW THEN (s <- parseCreateView ;; ret (StCreateView s))
  ELSE curError "expected TABLE or INDEX after CREATE".

Definition parseTableNames : P (list TableRef) := commaList (parseTableRef1 false).

Definition parseDropTable : P DropTableStmt :=
  nextToken ;;;
  ifExists <- parseIfExists ;;
  tables <- parseTableNames ;;
  ret (mkDropTableStmt ifExists tables).

Definition parseDropIndex : P DropIndexStmt :=
  nextToken ;;;
  ifExists <- parseIfExists ;;
  name <- expectLiteral TokenIdent "expected index name" ;;
  ret (mkDropIndexStmt ifExists name).

Definition parseDropView : P DropViewStmt :=
  nextToken ;;;
  ifExists <- parseIfExists ;;
  views <- parseTableNames ;;
  ret (mkDropViewStmt ifExists views).

Definition parseDrop : P Statement :=
  nextToken ;;;
  IF curTokenIs TokenTABLE THEN (s <- parseDropTable ;; ret (StDropTable s))
  ELSE IF curTokenIs TokenINDEX THEN (s <- parseDropIndex ;; ret (StDropIndex s))
  ELSE IF curTokenIs TokenVIEW THEN (s <- parseDropView ;; ret (StDropView s))
  ELSE curError "expected TABLE or INDEX after DROP".

Definition parseAlterTableAdd : P AlterAction :=
  nextToken ;;;
  skipIf (curTokenIs TokenCOLUMN) ;;;
  ifNotExists <- parseIfNotExists "expected NOT after IF" "expected EXISTS after IF NOT" ;;
  col <- parseColumnDef ;;
  ret (AddColumnAction col ifNotExists).

Definition parseAlterTableDrop : P AlterAction :=
  nextToken ;;;
  skipIf (curTokenIs TokenCOLUMN) ;;;
  IF curIsName THEN (s <- curLiteral ;; nextToken ;;; ret (DropColumnAction s))
  ELSE curError "expected column name".

Definition parseAlterTableRename : P AlterAction :=
  nextToken ;;;
  IF curTokenIs TokenTO THEN
    (nextToken ;;;
     s <- expectLiteral TokenIdent "expected new table name" ;;
     ret (RenameTableAction s))
  ELSE IF curTokenIs TokenCOLUMN THEN
    (nextToken ;;;
     oldName <- expectLiteral TokenIdent "expected old column name" ;;
     expect TokenTO "expected TO" ;;;
     newName <- expectLiteral TokenIdent "expected new column name" ;;
     ret (RenameColumnAction oldName newName))
  ELSE curError "expected TO or COLUMN after RENAME".

Definition parseAlterTable : P AlterTableStmt :=
  nextToken ;;;
  table <- expectLiteral TokenIdent "expected table name" ;;
  action <- IF curTokenIs TokenADD THEN parseAlterTableAdd
            ELSE IF curTokenIs TokenDROP THEN parseAlterTableDrop
            ELSE IF curTokenIs TokenRENAME THEN parseAlterTableRename
            ELSE curError "expected ADD, DROP, or RENAME" ;;
  ret (mkAlterTableStmt table action).

Definition parseAlter : P Statement :=
  nextToken ;;;
  IF curTokenIs TokenTABLE THEN (s <- parseAlterTable ;; ret (StAlterTable s))
  ELSE curError "expected TABLE after ALTER".

(** ** PRAGMA, SET, SHOW, ANALYZE *)

Definition parsePragma : P PragmaStmt :=
  nextToken ;;;
  name <- expectLiteral TokenIdent "expected pragma name" ;;
  arg <- IF curTokenIs TokenLParen THEN
           (nextToken ;;;
            arg <- IF curTokenIn [TokenIdent; TokenString] THEN (s <- curLiteral ;; nextToken ;;; ret s)
                   ELSE ret EmptyString ;;
            expect TokenRParen "expected )" ;;;
            ret arg)
         ELSE ret EmptyString ;;
  value <- IF curTokenIs TokenEq THEN
             (nextToken ;;;
              IF curTokenIs TokenON THEN (nextToken ;;; ret (Some (ColumnRef EmptyString "on")))
              ELSE (e <- parseExpr ;; ret (Some e)))
           ELSE ret None ;;
  ret (mkPragmaStmt (ToLower name) arg value).

Definition isSettingNameToken (p : Parser L) : bool :=
  negb (token_in (Type_ (curToken p))
          [TokenTO; TokenEq; TokenComma; TokenSemicolon; TokenEOF; TokenLParen; TokenRParen])
  && negb (Literal (curToken p) =s EmptyString).

(** The words of a setting name; [sep] decides where a space goes. *)
Definition parseSettingName (sep : Parser L -> bool) : P string :=
  loop (fun name =>
    IF isSettingNameToken THEN
      (space <- IF sep THEN ret (negb (name =s EmptyString)) ELSE ret false ;;
       lit <- curLiteral ;;
       nextToken ;;;
       ret (inl ((if space : bool then name ++ " " else name) ++ lit)))
    ELSE ret (inr name)) EmptyString.

Definition sessionCharacteristics : Parser L -> bool :=
  andP (curIdentIs "SESSION") (peekIdentIs "CHARACTERISTICS").

Definition parseSet : P SetStmt :=
  nextToken ;;;
  local <- IF andP (notP sessionCharacteristics) (curTokenIs TokenIdent) THEN
             (lit <- curLiteral ;;
              if ToUpper lit =s "LOCAL" then nextToken ;;; ret true
              else if ToUpper lit =s "SESSION" then nextToken ;;; ret false
              else ret false)
           ELSE ret false ;;
  name <- parseSettingName (fun _ => true) ;;
  (if name =s EmptyString then curError "expected setting name after SET" else ret tt) ;;;
  skipIf (orP (curTokenIs TokenTO) (curTokenIs TokenEq)) ;;;
  values <- loop (fun acc =>
      IF notP (curTokenIn [TokenSemicolon; TokenEOF]) THEN
        (acc' <- IF curTokenIn [TokenIdent; TokenNumber; TokenString]
                 THEN (lit <- curLiteral ;; ret (acc ++ [lit])%list) ELSE ret acc ;;
         nextToken ;;;
         ret (inl acc'))
      ELSE ret (inr acc)) [] ;;
  ret (mkSetStmt name values local).

Definition parseShow : P string :=
  nextToken ;;;
  IF isSettingNameToken THEN parseSettingName (curTokenIs TokenIdent)
  ELSE curError "expected setting name after SHOW".

Definition parseAnalyze : P string :=
  nextToken ;;;
  IF curTokenIs TokenIdent THEN
    (name <- curLiteral ;;
     nextToken ;;;
     IF curTokenIs TokenDot THEN (nextToken ;;; expectLiteral TokenIdent "expected table name after .")
     ELSE ret name)
  ELSE ret EmptyString.

(** ** LISTEN, UNLISTEN, NOTIFY *)

Definition long_than (s : string) (n : N) : bool := (n <? N.of_nat (String.length s))%N.

Definition parseChannelName : P string :=
  IF curTokenIs TokenIdent THEN
    (channel <- curLiteral ;;
     if channel =s EmptyString then curError "channel name cannot be empty"
     else if long_than channel 63 then curError "channel name is longer than 63 bytes"
     else nextToken ;;; ret channel)
  ELSE curError "expected channel name".

Definition parseListen : P string := nextToken ;;; parseChannelName.

Definition parseUnlisten : P UnlistenStmt :=
  nextToken ;;;
  IF curTokenIs TokenStar THEN (nextToken ;;; ret (mkUnlistenStmt EmptyString true))
  ELSE (channel <- parseChannelName ;; ret (mkUnlistenStmt channel false)).

Definition parseNotify : P NotifyStmt :=
  nextToken ;;;
  channel <- parseChannelName ;;
  payload <- IF curTokenIs TokenComma THEN
               (nextToken ;;;
                IF curTokenIs TokenString THEN
                  (s <- curLiteral ;;
                   if long_than s 8000 then curError "notification payload is longer than 8000 bytes"
                   else nextToken ;;; ret s)
                ELSE curError "expected notification payload string")
             ELSE ret EmptyString ;;
  ret (mkNotifyStmt channel payload).

(** ** Transactions, ATTACH and DETACH *)

Definition parseBegin : P unit := nextToken ;;; skipIf (curTokenIs TokenTRANSACTION).

Definition parseCommit : P unit := nextToken ;;; skipIf (curTokenIs TokenTRANSACTION).

Definition parseRollback : P string :=
  nextToken ;;;
  IF curTokenIs TokenTO THEN
    (nextToken ;;;
     skipIf (curTokenIs TokenSAVEPOINT) ;;;
     expectLiteral TokenIdent "expected savepoint name")
  ELSE (skipIf (curTokenIs TokenTRANSACTION) ;;; ret EmptyString).

Definition parseSavepoint : P string := nextToken ;;; expectLiteral TokenIdent "expected savepoint name".

Definition parseRelease : P string :=
  nextToken ;;;
  skipIf (curTokenIs TokenSAVEPOINT) ;;;
  expectLiteral TokenIdent "expected savepoint name".

Definition parseAttach : P AttachStmt :=
  nextToken ;;;
  skipIf (curTokenIs TokenDATABASE) ;;;
  file <- expectLiteral TokenString "expected database file path (string)" ;;
  expect TokenAS "expected AS" ;;;
  alias <- expectLiteral TokenIdent "expected database alias" ;;
  ret (mkAttachStmt file alias).

Definition parseDetach : P string :=
  nextToken ;;;
  skipIf (curTokenIs TokenDATABASE) ;;;
  expectLiteral TokenIdent "expected database alias".

(** ** WITH *)

Definition parseCTE (recursive : bool) : P cteDef :=
  name <- expectLiteral TokenIdent "expected CTE name" ;;
  cols <- IF curTokenIs TokenLParen THEN
            (nextToken ;;;
             cols <- commaList (expectLiteral TokenIdent "expected column name in CTE column list") ;;
             expect TokenRParen "expected ) after CTE column list" ;;;
             ret cols)
          ELSE ret [] ;;
  expect TokenAS "expected AS in CTE definition" ;;;
  expect TokenLParen "expected ( before CTE query" ;;;
  query <- parseSelect ;;
  expect TokenRParen "expected ) after CTE query" ;;;
  if recursive then ret (mkCteDef name cols query)
  else match applyCTEColumnNames name cols query with
       | inl query' => ret (mkCteDef name cols query')
       | inr e => fail e
       end.

(** The substitution passes run on the store. *)
Definition run_desugar (ctes : list cteDef) (stmt : Statement) : P Statement := fun p =>
  match desugar (queries p) ctes stmt with
  | None => Crash
  | Some (inr e, _) => Err e
  | Some (inl stmt', h) =>
      Ok stmt' {| lexer := lexer p; curToken := curToken p; peekToken := peekToken p; queries := h |}
  end.

Definition recursive_cte (c : cteDef) : CTE := mkCTE (cte_name c) (cte_cols c) true (cte_query c).

(** ** Dispatch *)

Section Body.
(** The statement inside an EXPLAIN or behind a WITH clause. *)
Variable parseStatement : P Statement.

Definition parseWithStatement : P Statement :=
  nextToken ;;;
  recursive <- IF curIdentIs "RECURSIVE" THEN (nextToken ;;; ret true) ELSE ret false ;;
  ctes <- commaList (parseCTE recursive) ;;
  stmt <- parseStatement ;;
  if recursive : bool then
    match stmt with
    | StSelect sel => ret (StSelect (with_With sel (map recursive_cte ctes)))
    | _ => curError "WITH RECURSIVE is only supported before a SELECT statement"
    end
  else run_desugar ctes stmt.

Definition parseExplain : P Statement :=
  nextToken ;;;
  queryPlan <- IF curTokenIs TokenQUERY THEN
                 (nextToken ;;;
                  IF curIdentIs "PLAN" THEN (nextToken ;;; ret true)
                  ELSE curError "expected PLAN after QUERY")
               ELSE ret false ;;
  stmt <- parseStatement ;;
  ret (StExplain queryPlan stmt).

Definition curWordIs (word : string) (p : Parser L) : bool :=
  curTokenIs TokenIdent p && (ToUpper (Literal (curToken p)) =s word).

Definition parseStatementBody : P Statement :=
  IF isWithStart THEN parseWithStatement
  ELSE IF curWordIs "LISTEN" THEN (s <- parseListen ;; ret (StListen s))
  ELSE IF curWordIs "UNLISTEN" THEN (s <- parseUnlisten ;; ret (StUnlisten s))
  ELSE IF curWordIs "NOTIFY" THEN (s <- parseNotify ;; ret (StNotify s))
  ELSE IF curWordIs "SHOW" THEN (s <- parseShow ;; ret (StShow s))
  ELSE IF curTokenIs TokenSELECT THEN (s <- parseSelect ;; ret (StSelect s))
  ELSE IF curTokenIs TokenINSERT THEN (s <- parseInsert parseWithStatement ;; ret (StInsert s))
  ELSE IF curTokenIs TokenUPDATE THEN (s <- parseUpdate ;; ret (StUpdate s))
  ELSE IF curTokenIs TokenDELETE THEN (s <- parseDelete ;; ret (StDelete s))
  ELSE IF curTokenIs TokenCREATE THEN parseCreate
  ELSE IF curTokenIs TokenDROP THEN parseDrop
  ELSE IF curTokenIs TokenALTER THEN parseAlter
  ELSE IF curTokenIs TokenATTACH THEN (s <- parseAttach ;; ret (StAttach s))
  ELSE IF curTokenIs TokenDETACH THEN (s <- parseDetach ;; ret (StDetach s))
  ELSE IF curTokenIs TokenPRAGMA THEN (s <- parsePragma ;; ret (StPragma s))
  ELSE IF curTokenIs TokenSET THEN (s <- parseSet ;; ret (StSet s))
  ELSE IF curTokenIs TokenANALYZE THEN (s <- parseAnalyze ;; ret (StAnalyze s))
  ELSE IF curTokenIs TokenEXPLAIN THEN parseExplain
  ELSE IF curTokenIs TokenBEGIN THEN (parseBegin ;;; ret (StBegin EmptyString))
  ELSE IF curTokenIs TokenCOMMIT THEN (parseCommit ;;; ret StCommit)
  ELSE IF curTokenIs TokenROLLBACK THEN (s <- parseRollback ;; ret (StRollback s))
  ELSE IF curTokenIs TokenSAVEPOINT THEN (s <- parseSavepoint ;; ret (StSavepoint s))
  ELSE IF curTokenIs TokenRELEASE THEN (s <- parseRelease ;; ret (StRelease s))
  ELSE curErrorType "unexpected token: ".
End Body.

Fixpoint parseStatement_n (n : nat) : P Statement :=
  match n with
  | O => no_fuel
  | S k => parseStatementBody (parseStatement_n k)
  end.

(** Each nested statement is reached after a token of the outer one has been consumed. *)
Definition parseStatement : P Statement := fun p => parseStatement_n (S (psize p)) p.

(** ** Entry points *)

(** The token that must end the input. *)
Definition endOfInput : P unit :=
  IF curTokenIs TokenEOF THEN ret tt ELSE curErrorType "unexpected trailing token: ".

Definition Parse : P Statement :=
  stmt <- parseStatement ;;
  skipIf (curTokenIs TokenSemicolon) ;;;
  endOfInput ;;;
  ret stmt.

Definition ParseMultiple : P (list Statement) :=
  loop (fun stmts =>
    IF curTokenIs TokenEOF THEN ret (inr stmts)
    ELSE (
      stmt <- parseStatement ;;
      skipIf (curTokenIs TokenSemicolon) ;;;
      ret (inl (stmts ++ [stmt])%list))) [].

End Statements.

(** [parser.New(lexer.New(input))] and the entry points on a source text. *)
Definition parse_source {A} (m : P (L := Lexer) A) (input : string) : result A :=
  m (newParser (New input)).

Definition ParseExpr (input : string) : result (L := Lexer) Expr :=
  parse_source (e <- parseExpr ;; endOfInput ;;; ret e) input.
