(* ===== verification/ParserProps.v ===== *)
(** * Termination of the parser

    Every statement function returns, and one that returns successfully has consumed a token; the
    only way it does not return is the substitution of common table expressions, which may not
    end.

    So the entry points return on every input; the one exception is a nested WITH clause, whose
    substitution can recurse for ever. *)
From Stdlib Require Import Ascii String List Bool Arith NArith ZArith Lia.
From S2P Require Import Prelude Token Lexer LexerFacts Ast ParserMonad Grammar GrammarFacts Cte Format Statements.
Import ListNotations.
Open Scope string_scope.
Open Scope go_scope.
Open Scope parser_scope.

Section Total.
Context {L : Type} {TS : TokenSource L}.
Implicit Types p : Parser L.

Hint Resolve progress_parseSelect : wpprog.

(** ** INSERT, UPDATE, DELETE *)

Lemma total_parseIfNotExists a b p : pok p -> total (parseIfNotExists a b) p.
Proof. intros H. unfold parseIfNotExists. wp_auto. Qed.

Lemma total_parseIfExists p : pok p -> total parseIfExists p.
Proof. intros H. unfold parseIfExists. wp_auto. Qed.

Lemma total_parseExprListClosed p : pok p -> total parseExprListClosed p.
Proof. intros H. apply total_commaList; [exact H|]. intros q Hq. apply total_parseExpr; arith. Qed.

Hint Resolve total_parseIfNotExists total_parseIfExists total_parseExprListClosed : wpfun.

Lemma total_parseValuesList p : pok p -> total parseValuesList p.
Proof. intros H. apply total_commaList; [exact H|]. intros q Hq. wp_auto. Qed.

Lemma total_parseAssignments p : pok p -> total parseAssignments p.
Proof. intros H. apply total_commaList; [exact H|]. intros q Hq. wp_auto. Qed.

Lemma total_parseReturning p : pok p -> total parseReturning p.
Proof. intros H. unfold parseReturning, parseReturningClause. wp_auto. Qed.

Lemma total_parseConflictAction msg p : pok p -> total (parseConflictAction msg) p.
Proof. intros H. unfold parseConflictAction. wp_auto. Qed.

Hint Resolve total_parseValuesList total_parseAssignments total_parseReturning
  total_parseConflictAction : wpfun.

Lemma total_parseOrAction p : pok p -> total parseOrAction p.
Proof. intros H. unfold parseOrAction. wp_auto. Qed.

Lemma total_parseUpsert p : pok p -> total parseUpsert p.
Proof. intros H. unfold parseUpsert. wp_auto. Qed.

Lemma progress_parseUpdate p : pok p -> tokens_in (curToken p) = 1 -> progress parseUpdate p.
Proof. intros H Hc. unfold parseUpdate. wp_auto. Qed.

Lemma progress_parseDelete p : pok p -> tokens_in (curToken p) = 1 -> progress parseDelete p.
Proof. intros H Hc. unfold parseDelete. wp_auto. Qed.

Hint Resolve total_parseOrAction total_parseUpsert : wpfun.
Hint Resolve progress_parseUpdate progress_parseDelete : wpprog.

(** ** Columns and constraints *)

Lemma total_parseOnConflictAction p : pok p -> total parseOnConflictAction p.
Proof. intros H. unfold parseOnConflictAction. wp_auto. Qed.

Lemma total_parseReferentialAction p : pok p -> total parseReferentialAction p.
Proof. intros H. unfold parseReferentialAction. wp_auto. Qed.

Hint Resolve total_parseOnConflictAction total_parseReferentialAction : wpfun.

Lemma total_parseForeignKeyClauses p : pok p -> total parseForeignKeyClauses p.
Proof. intros H. unfold parseForeignKeyClauses. wp_auto. Qed.

Hint Resolve total_parseForeignKeyClauses : wpfun.

(** A constraint that was parsed, and an explicit NULL, consumed a token. *)
Lemma parseColumnConstraint_ok p :
  pok p ->
  wp False parseColumnConstraint p (fun c q => match c with None => after 0 p q | _ => after 1 p q end).
Proof. intros H. unfold parseColumnConstraint. wp_auto. Qed.

Lemma tryParseGeneratedColumn_ok col p :
  pok p ->
  wp False (tryParseGeneratedColumn col) p
    (fun c q => match c with None => after 0 p q | _ => after 1 p q end).
Proof. intros H. unfold tryParseGeneratedColumn. wp_auto. Qed.

Lemma progress_parseColumnDef p : pok p -> progress parseColumnDef p.
Proof.
  intros H. unfold parseColumnDef. wps; try arith.
  eapply wp_mono; [exact (fun c => c)|apply tryParseGeneratedColumn_ok; arith|].
  cbv beta. intros [col'|] q Hq; [wp_auto|]. wp_step.
  eapply wp_mono; [exact (fun c => c)|apply parseColumnConstraint_ok; arith|].
  cbv beta. intros [[c|]|] r Hr; wp_auto.
Qed.

Lemma total_parseColumnDef p : pok p -> total parseColumnDef p.
Proof. intros H. apply wp_progress; [now apply progress_parseColumnDef|]. intros. arith. Qed.

Lemma total_parseTableConstraint p : pok p -> total parseTableConstraint p.
Proof. intros H. unfold parseTableConstraint. wp_auto. Qed.

Hint Resolve total_parseColumnDef total_parseTableConstraint : wpfun.

(** ** CREATE, DROP, ALTER *)

Lemma total_parseCreateTable p : pok p -> total parseCreateTable p.
Proof. intros H. unfold parseCreateTable. wp_auto. Qed.

Lemma total_parseCreateIndex unique p : pok p -> total (parseCreateIndex unique) p.
Proof. intros H. unfold parseCreateIndex. wp_auto. Qed.

Lemma total_parseCreateView p : pok p -> total parseCreateView p.
Proof. intros H. unfold parseCreateView. wp_auto. Qed.

Lemma total_parseTableNames p : pok p -> total parseTableNames p.
Proof. intros H. apply total_commaList; [exact H|]. intros q Hq. apply total_parseTableRef1; arith. Qed.

Hint Resolve total_parseCreateTable total_parseCreateIndex total_parseCreateView
  total_parseTableNames : wpfun.

Lemma total_parseDropTable p : pok p -> total parseDropTable p.
Proof. intros H. unfold parseDropTable. wp_auto. Qed.

Lemma total_parseDropIndex p : pok p -> total parseDropIndex p.
Proof. intros H. unfold parseDropIndex. wp_auto. Qed.

Lemma total_parseDropView p : pok p -> total parseDropView p.
Proof. intros H. unfold parseDropView. wp_auto. Qed.

Lemma total_parseAlterTable p : pok p -> total parseAlterTable p.
Proof.
  intros H. unfold parseAlterTable, parseAlterTableAdd, parseAlterTableDrop, parseAlterTableRename.
  wp_auto.
Qed.

Hint Resolve total_parseDropTable total_parseDropIndex total_parseDropView total_parseAlterTable
  : wpfun.

Lemma progress_parseCreate p : pok p -> tokens_in (curToken p) = 1 -> progress parseCreate p.
Proof. intros H Hc. unfold parseCreate. wp_auto. Qed.

Lemma progress_parseDrop p : pok p -> tokens_in (curToken p) = 1 -> progress parseDrop p.
Proof. intros H Hc. unfold parseDrop. wp_auto. Qed.

Lemma progress_parseAlter p : pok p -> tokens_in (curToken p) = 1 -> progress parseAlter p.
Proof. intros H Hc. unfold parseAlter. wp_auto. Qed.

Hint Resolve progress_parseCreate progress_parseDrop progress_parseAlter : wpprog.

(** ** PRAGMA, SET, SHOW, ANALYZE *)

Lemma progress_parsePragma p : pok p -> tokens_in (curToken p) = 1 -> progress parsePragma p.
Proof. intros H Hc. unfold parsePragma. wp_auto. Qed.

Lemma at_token_setting : at_token (L := L) isSettingNameToken.
Proof.
  intros p E. apply andb_prop in E as [E _]. apply negb_true_iff in E. unfold tokens_in.
  destruct (Type_ (curToken p)) eqn:Ht; try reflexivity. discriminate.
Qed.

Lemma at_token_value : at_token (L := L) (notP (curTokenIn [TokenSemicolon; TokenEOF])).
Proof.
  intros p E. apply negb_true_iff in E. unfold tokens_in, curTokenIn in *.
  destruct (Type_ (curToken p)) eqn:Ht; try reflexivity. discriminate.
Qed.

Hint Resolve at_token_setting at_token_value : attoken.

Lemma total_parseSettingName sep p : pok p -> total (parseSettingName sep) p.
Proof. intros H. unfold parseSettingName. wp_auto. Qed.

Hint Resolve total_parseSettingName : wpfun.

Lemma progress_parseSet p : pok p -> tokens_in (curToken p) = 1 -> progress parseSet p.
Proof. intros H Hc. unfold parseSet. wp_auto. Qed.

Lemma progress_parseShow p : pok p -> tokens_in (curToken p) = 1 -> progress parseShow p.
Proof. intros H Hc. unfold parseShow. wp_auto. Qed.

Lemma progress_parseAnalyze p : pok p -> tokens_in (curToken p) = 1 -> progress parseAnalyze p.
Proof. intros H Hc. unfold parseAnalyze. wp_auto. Qed.

Hint Resolve progress_parsePragma progress_parseSet progress_parseShow progress_parseAnalyze : wpprog.

(** ** LISTEN, UNLISTEN, NOTIFY, transactions, ATTACH *)

Lemma total_parseChannelName p : pok p -> total parseChannelName p.
Proof. intros H. unfold parseChannelName. wp_auto. Qed.

Hint Resolve total_parseChannelName : wpfun.

Lemma progress_parseListen p : pok p -> tokens_in (curToken p) = 1 -> progress parseListen p.
Proof. intros H Hc. unfold parseListen. wp_auto. Qed.

Lemma progress_parseUnlisten p : pok p -> tokens_in (curToken p) = 1 -> progress parseUnlisten p.
Proof. intros H Hc. unfold parseUnlisten. wp_auto. Qed.

Lemma progress_parseNotify p : pok p -> tokens_in (curToken p) = 1 -> progress parseNotify p.
Proof. intros H Hc. unfold parseNotify. wp_auto. Qed.

Lemma progress_parseBegin p : pok p -> tokens_in (curToken p) = 1 -> progress parseBegin p.
Proof. intros H Hc. unfold parseBegin. wp_auto. Qed.

Lemma progress_parseRollback p : pok p -> tokens_in (curToken p) = 1 -> progress parseRollback p.
Proof. intros H Hc. unfold parseRollback. wp_auto. Qed.

Lemma progress_parseSavepoint p : pok p -> tokens_in (curToken p) = 1 -> progress parseSavepoint p.
Proof. intros H Hc. unfold parseSavepoint. wp_auto. Qed.

Lemma progress_parseRelease p : pok p -> tokens_in (curToken p) = 1 -> progress parseRelease p.
Proof. intros H Hc. unfold parseRelease. wp_auto. Qed.

Lemma progress_parseAttach p : pok p -> tokens_in (curToken p) = 1 -> progress parseAttach p.
Proof. intros H Hc. unfold parseAttach. wp_auto. Qed.

Lemma progress_parseDetach p : pok p -> tokens_in (curToken p) = 1 -> progress parseDetach p.
Proof. intros H Hc. unfold parseDetach. wp_auto. Qed.

Hint Resolve progress_parseListen progress_parseUnlisten progress_parseNotify progress_parseBegin
  progress_parseRollback progress_parseSavepoint progress_parseRelease progress_parseAttach
  progress_parseDetach : wpprog.

(** ** WITH and the dispatch *)

Lemma total_parseCTE recursive p : pok p -> total (parseCTE recursive) p.
Proof.
  intros H. unfold parseCTE. wps; try arith;
    (apply wp_total; [apply total_commaList; [arith|]; intros; wp_auto|]; intros; wp_auto).
Qed.

Lemma ends_run_desugar ctes stmt p : pok p -> wp True (run_desugar ctes stmt) p (fun _ => after 0 p).
Proof.
  intros H. unfold wp, run_desugar. destruct (desugar _ _ _) as [[[s|e] h]|]; [|exact I..].
  split; [exact H|]. unfold psize. cbn. lia.
Qed.

Lemma at_token_word w : at_token (L := L) (curWordIs w).
Proof. intros p E. apply andb_prop in E as [E _]. revert E. now apply at_token_is. Qed.

Lemma at_token_with : at_token (L := L) isWithStart.
Proof. apply at_token_ident. Qed.

Hint Resolve at_token_word at_token_with : attoken.

Section Nested.
Variables (n : nat) (parseStatement : P (L := L) Statement).
Hypothesis Hnested : forall p, pok p -> psize p < n -> wp True parseStatement p (fun _ => after 1 p).

Lemma ends_parseWithStatement p :
  pok p -> psize p <= n -> tokens_in (curToken p) = 1 ->
  wp True (parseWithStatement parseStatement) p (fun _ => after 1 p).
Proof.
  intros H Hn Hc. unfold parseWithStatement. wps; try arith;
    (apply wp_total; [apply total_commaList; [arith|]; intros; apply total_parseCTE; arith|]);
    intros ctes q Hq; wp_step;
    (eapply wp_mono; [exact (fun c => c)|apply Hnested; arith|]); cbv beta; intros stmt r Hr;
    wp_auto.
  eapply wp_mono; [exact (fun c => c)|apply ends_run_desugar; arith|]. cbv beta. intros. arith.
Qed.

Lemma ends_parseExplain p :
  pok p -> psize p <= n -> tokens_in (curToken p) = 1 ->
  wp True (parseExplain parseStatement) p (fun _ => after 1 p).
Proof.
  intros H Hn Hc. unfold parseExplain. wps; try arith;
    (eapply wp_mono; [exact (fun c => c)|apply Hnested; arith|]); cbv beta; intros; wp_auto.
Qed.

Lemma ends_parseInsert p :
  pok p -> psize p <= n -> tokens_in (curToken p) = 1 ->
  wp True (parseInsert (parseWithStatement parseStatement)) p (fun _ => after 1 p).
Proof.
  intros H Hn Hc. unfold parseInsert, parseInsertSource. wps; try arith;
    (eapply wp_mono; [exact (fun c => c)|apply ends_parseWithStatement; arith|]);
    cbv beta; intros; wp_auto.
Qed.

Lemma ends_parseStatementBody p :
  pok p -> psize p <= n -> wp True (parseStatementBody parseStatement) p (fun _ => after 1 p).
Proof.
  intros H Hn. unfold parseStatementBody, parseCommit. wps; try arith.
  - apply ends_parseWithStatement; arith.
  - eapply wp_mono; [exact (fun c => c)|apply ends_parseInsert; arith|]. cbv beta. intros. wp_auto.
  - apply ends_parseExplain; arith.
Qed.

End Nested.

Lemma ends_parseStatement_n n p :
  pok p -> psize p < n -> wp True (parseStatement_n n) p (fun _ => after 1 p).
Proof.
  revert p. induction n; intros p H Hn; [lia|]. cbn [parseStatement_n].
  apply (ends_parseStatementBody n); [exact IHn|exact H|lia].
Qed.

Lemma ends_parseStatement p : pok p -> wp True parseStatement p (fun _ => after 1 p).
Proof. intros H. unfold parseStatement, wp. apply (ends_parseStatement_n (S (psize p))); [exact H|lia]. Qed.

Lemma ends_Parse p : pok p -> ends Parse p.
Proof.
  intros H. unfold Parse, endOfInput. wp_step. wp_step.
  eapply wp_mono; [exact (fun c => c)|now apply ends_parseStatement|]. cbv beta. intros. wp_auto.
Qed.

Lemma ends_ParseMultiple p : pok p -> ends ParseMultiple p.
Proof.
  intros H. unfold ParseMultiple. wp_step. wp_step. wp_step; [wp_auto|]. wp_step.
  eapply wp_mono; [exact (fun c => c)|apply ends_parseStatement; arith|]. cbv beta. intros. wp_auto.
Qed.

End Total.

(** ** Termination of the parser *)

(** A parser on a token source that is in order is in order. *)
Lemma newParser_pok {L} {TS : TokenSource L} (l : L) : src_ok l -> pok (newParser l).
Proof.
  intros H. unfold newParser. apply nextToken_after. apply nextToken_after. exact H.
Qed.

Lemma newParser_lexer (input : string) : pok (newParser (New input)).
Proof. apply newParser_pok. cbn. rewrite New_at. apply wf_lex_at. lia. Qed.

(** How a run of an entry point ends. *)
Definition returned {A} (r : result (L := Lexer) A) : bool :=
  match r with Ok _ _ | Err _ => true | _ => false end.

Definition crashed {A} (r : result (L := Lexer) A) : bool :=
  match r with Crash => true | _ => false end.

Lemma ends_returned {A} (m : P (L := Lexer) A) p : ends m p -> returned (m p) || crashed (m p) = true.
Proof. unfold ends, wp. now destruct (m p). Qed.

(** C40: on every input, the two statement entry points return a result or an error, or crash; none
    of their loops and recursions runs out of the depth the model gives it. *)
Theorem parse_ends (input : string) :
  returned (parse_source Parse input) || crashed (parse_source Parse input) = true /\
  returned (parse_source ParseMultiple input) || crashed (parse_source ParseMultiple input) = true.
Proof.
  unfold parse_source. split; apply ends_returned; [apply ends_Parse|apply ends_ParseMultiple]; apply newParser_lexer.
Qed.

(** Parsing an expression returns, with a result or an error, on every input. *)
Theorem parse_expr_returns (input : string) : returned (ParseExpr input) = true.
Proof.
  unfold ParseExpr, parse_source. generalize (newParser_lexer input).
  generalize (newParser (New input)). intros p H.
  assert (T : total (bind parseExpr (fun e => bind endOfInput (fun _ => ret e))) p).
  { unfold endOfInput. wp_auto. }
  unfold total, wp in T. unfold returned. now destruct (bind _ _ _).
Qed.

(** ** The nested WITH clause *)

Definition nested_with : string :=
  "WITH a AS (SELECT * FROM a) WITH b AS (SELECT * FROM a) SELECT * FROM b x, b y, b z".

(** [SELECT * FROM r] for a table reference [r]. *)
Definition select_from (refs : list TableRef) : SelectStmt :=
  mkSelectStmt false [mkSelectColumn None EmptyString true EmptyString] refs None [] None [] None None
    None [] None.

Definition named (name : string) : TableRef := mkTableRef EmptyString name EmptyString None None None [].
Definition shared (alias : string) (a : nat) : TableRef :=
  mkTableRef EmptyString EmptyString alias (Some (Shared a)) None None [].

(** A query that is its own derived table makes the recursion endless. *)
Lemma visit_cycle ctes n :
  forall h, nth_error h 1 = Some (select_from [shared "a" 1]) -> visit_n ctes n 1 h = None.
Proof.
  induction n; intros h Hh; [reflexivity|]. cbn [visit_n]. rewrite Hh.
  unfold select_from, shared. cbn -[visit_n]. unfold mbind, visit_shared. now rewrite IHn.
Qed.

(** The statement follows its three references, one after the other. *)
Lemma three_visits v refs h :
  (v 0 h = None \/ exists h1, v 0 h = Some h1 /\
    (v 0 h1 = None \/ exists h2, v 0 h1 = Some h2 /\ v 0 h2 = None)) ->
  substituteStatementCTEs v refs
    (StSelect (select_from [shared "x" 0; shared "y" 0; shared "z" 0])) h = None.
Proof.
  intros H. unfold shared, select_from. cbn -[lookupCTE]. unfold mbind, visit_shared, mret.
  destruct H as [->|(h1 & -> & [->|(h2 & -> & ->)])]; reflexivity.
Qed.

(** Three references to a common table expression [b] behind a WITH clause for [a] crash the
    parser: after the inner clause, the three point at [b]'s query; the outer substitution makes
    [b] point at [a]'s query, then [a]'s query point at itself, and then follows it, at whatever
    depth the recursion is allowed. *)
Theorem nested_with_crashes :
  parse_source Parse nested_with = Crash /\
  forall n, substituteStatementCTEs (visit_n [mkCteRef "a" 1] n) [mkCteRef "a" 1]
              (StSelect (select_from [shared "x" 0; shared "y" 0; shared "z" 0]))
              [select_from [named "a"]; select_from [named "a"]] = None.
Proof.
  split; [vm_compute; reflexivity|]. intros n. apply three_visits.
  destruct n as [|n]; [now left|]. right.
  exists [select_from [shared "a" 1]; select_from [named "a"]]. split; [reflexivity|].
  destruct n as [|n]; [now left|]. right.
  exists [select_from [shared "a" 1]; select_from [shared "a" 1]]. split; [reflexivity|].
  generalize (S n) as k. intros k. cbn. unfold mbind, visit_shared.
  now rewrite visit_cycle.
Qed.
