(* ===== verification/Unparse.v ===== *)
(** * Expressions back from their tokens

    A reference grammar for the parser of expressions.  [keys] writes an expression as a sequence
    of tokens without inventing parentheses, [level] is the precedence level an expression has, and
    [canonical] says that every operand sits at a level its position allows: left operands at the
    operator's own level, right operands above it.  [RoundTrip] shows that the parser reads every
    canonical expression back from its tokens. *)
From Stdlib Require Import Ascii String List Bool Arith NArith ZArith Lia.
From S2P Require Import Prelude Token Ast ParserMonad Grammar GrammarFacts.
Import ListNotations.
Open Scope string_scope.
Open Scope go_scope.
Open Scope parser_scope.

(** ** Tokens up to their position *)

(** What the grammar looks at in a token: its type, and the text of a name or literal. *)
Definition literal_type (t : TokenType) : bool :=
  token_in t [TokenIdent; TokenNumber; TokenString; TokenBlob].

Definition key (t : Token) : TokenType * string :=
  (Type_ t, if literal_type (Type_ t) then Literal t else EmptyString).

Definition op (t : TokenType) : TokenType * string := (t, EmptyString).
Definition ident (s : string) : TokenType * string := (TokenIdent, s).

(** ** Levels *)

(** The binary operators of each layer of the grammar. *)
Definition layer_ops (k : nat) : list TokenType :=
  match k with
  | 0 => [TokenOR]
  | 1 => [TokenAND]
  | 4 => [TokenShiftLeft; TokenShiftRight; TokenBitAnd; TokenBitOr]
  | 5 => [TokenPlus; TokenMinus; TokenConcat]
  | 6 => [TokenStar; TokenSlash; TokenPercent]
  | 7 => [TokenArrow; TokenArrowText; TokenHashArrow; TokenHashArrowText; TokenHashMinus]
  | _ => []
  end.

Definition layers : list nat := [0; 1; 4; 5; 6; 7].

(** The level of a binary operator; comparisons, at level 3, do not associate. *)
Definition op_level (t : TokenType) : option nat :=
  if isComparisonOp t || isJSONBPredicateOp t then Some 3
  else find (fun k => token_in t (layer_ops k)) layers.

Definition level (e : Expr) : nat :=
  match e with
  | BinaryExpr _ o _ => match op_level o with Some k => k | None => 0 end
  | UnaryExpr o _ => if o =t TokenNOT then 2 else 8
  | BetweenExpr _ _ _ _ | LikeExpr _ _ _ _ | IsNullExpr _ _ | IsDistinctExpr _ _ _
  | InExpr _ _ _ _ => 3
  | SubscriptExpr _ _ => 9
  | _ => 10
  end.

(** The level at which a token can continue an expression. *)
Definition cont (k : TokenType * string) : option nat :=
  let (t, s) := k in
  match op_level t with
  | Some l => Some l
  | None =>
      if token_in t [TokenNOT; TokenIN; TokenBETWEEN; TokenLIKE; TokenIS; TokenESCAPE;
                     TokenAtQuestion; TokenAtAt] then Some 3
      else if token_in t [TokenLBracket; TokenColonColon] then Some 9
      else if token_in t [TokenLParen; TokenDot] then Some 10
      else if (t =t TokenIdent) && EqualFold s "OVER" then Some 10
      else None
  end.

(** An expression at level [k] ends before the token. *)
Definition stop (k : nat) (t : TokenType * string) : bool :=
  match cont t with Some l => (l <? k)%nat | None => true end.

(** ** The tokens of an expression *)

Fixpoint separated (l : list (list (TokenType * string))) : list (TokenType * string) :=
  match l with
  | [] => []
  | [x] => x
  | x :: r => (x ++ op TokenComma :: separated r)%list
  end.

Definition keys_if (b : bool) (t : TokenType) : list (TokenType * string) :=
  if b then [op t] else [].

Fixpoint keys (e : Expr) : list (TokenType * string) :=
  (match e with
   | BinaryExpr l o r => keys l ++ op o :: keys r
   | UnaryExpr o e => op o :: keys e
   | LiteralExpr t v => [if literal_type t then (t, v) else op t]
   | ColumnRef table column =>
       if table =s EmptyString then [ident column] else [ident table; op TokenDot; ident column]
   | ParenExpr e => op TokenLParen :: keys e ++ [op TokenRParen]
   | SubscriptExpr e index => keys e ++ op TokenLBracket :: keys index ++ [op TokenRBracket]
   | BetweenExpr l not low high =>
       keys l ++ keys_if not TokenNOT ++ op TokenBETWEEN :: keys low ++ op TokenAND :: keys high
   | LikeExpr l not pattern escape =>
       keys l ++ keys_if not TokenNOT ++ op TokenLIKE :: keys pattern
       ++ match escape with Some e => op TokenESCAPE :: keys e | None => [] end
   | IsNullExpr l not => keys l ++ op TokenIS :: keys_if not TokenNOT ++ [op TokenNULL]
   | IsDistinctExpr l r not =>
       keys l ++ op TokenIS :: keys_if not TokenNOT ++ op TokenDISTINCT :: op TokenFROM :: keys r
   | InExpr l not values _ =>
       keys l ++ keys_if not TokenNOT ++ op TokenIN :: op TokenLParen
       :: separated (map keys values) ++ [op TokenRParen]
   | FunctionCallExpr (mkFunctionCall name args distinct star) =>
       ident name :: op TokenLParen :: keys_if distinct TokenDISTINCT
       ++ (if star then [op TokenStar] else separated (map keys args)) ++ [op TokenRParen]
   | CaseExpr operand whens els =>
       op TokenCASE :: match operand with Some e => keys e | None => [] end
       ++ concat (map (fun w => match w with
            | mkWhenClause c r => op TokenWHEN :: keys c ++ op TokenTHEN :: keys r end) whens)
       ++ match els with Some e => op TokenELSE :: keys e | None => [] end
       ++ [op TokenEND]
   | _ => []
   end)%list.

(** ** Canonical expressions *)

(** A name that no special form starts with. *)
Definition plain_name (s : string) : bool := negb (EqualFold s "ANY") && negb (EqualFold s "ARRAY").

Definition canonical_literal (t : TokenType) (v : string) : bool :=
  token_in t [TokenNumber; TokenString; TokenBlob]
  || (t =t TokenNULL) && (v =s "NULL") || (t =t TokenTRUE) && (v =s "TRUE")
  || (t =t TokenFALSE) && (v =s "FALSE").

Fixpoint canonical (e : Expr) : bool :=
  match e with
  | BinaryExpr l o r =>
      match op_level o with
      | Some 3 => (4 <=? level l)%nat && (4 <=? level r)%nat && canonical l && canonical r
      | Some k => (k <=? level l)%nat && (S k <=? level r)%nat && canonical l && canonical r
      | None => false
      end
  | UnaryExpr o e =>
      token_in o [TokenNOT; TokenMinus; TokenPlus; TokenBitNot]
      && (level (UnaryExpr o e) <=? level e)%nat && canonical e
  | LiteralExpr t v => canonical_literal t v
  | ColumnRef table column =>
      if table =s EmptyString then plain_name column else plain_name table
  | ParenExpr e => canonical e
  | SubscriptExpr e index => (9 <=? level e)%nat && canonical e && canonical index
  | BetweenExpr l _ low high =>
      (4 <=? level l)%nat && (4 <=? level low)%nat && (4 <=? level high)%nat
      && canonical l && canonical low && canonical high
  | LikeExpr l _ pattern escape =>
      (4 <=? level l)%nat && (4 <=? level pattern)%nat && canonical l && canonical pattern
      && match escape with Some e => (4 <=? level e)%nat && canonical e | None => true end
  | IsNullExpr l _ => (4 <=? level l)%nat && canonical l
  | IsDistinctExpr l r _ => (4 <=? level l)%nat && (4 <=? level r)%nat && canonical l && canonical r
  | InExpr l _ values subquery =>
      (4 <=? level l)%nat && canonical l && forallb canonical values
      && match subquery with None => true | Some _ => false end
  | FunctionCallExpr (mkFunctionCall name args distinct star) =>
      plain_name name && (ToUpper name =s name) && forallb canonical args
      && (negb star || match args with [] => true | _ => false end)
  | CaseExpr operand whens els =>
      match operand with
      | Some e => canonical e
      | None => match whens with [] => false | _ => true end
      end
      && forallb (fun w => match w with mkWhenClause c r => canonical c && canonical r end) whens
      && match els with Some e => canonical e | None => true end
  | _ => false
  end.

Example canonical_example :
  let a := ColumnRef EmptyString "a" in
  let b := BinaryExpr (BinaryExpr a TokenMinus a) TokenMinus (BinaryExpr a TokenStar a) in
  canonical b = true /\ canonical (BinaryExpr a TokenMinus (BinaryExpr a TokenMinus a)) = false.
Proof. split; reflexivity. Qed.

(** ** Parser states on a list of tokens *)

Definition at_tokens (l : list Token) : Parser (list Token) :=
  mkParser (skipn 2 l) (nth 0 l EOFToken) (nth 1 l EOFToken) [].

(** No comment and no end mark inside. *)
Definition clean (l : list Token) : bool :=
  forallb (fun t => negb (Type_ t =t TokenComment) && negb (Type_ t =t TokenEOF)) l.

(** The token after an expression does not continue it at level [k]. *)
Definition stops (k : nat) (l : list Token) : bool := stop k (key (nth 0 l EOFToken)).

Section Levels.
Variable R : recs (L := list Token).

(** The parse function of each level. *)
Definition parse_at (k : nat) : P Expr :=
  match k with
  | 0 => parseExprBody R
  | 1 => parseAndExpr R
  | 2 => parseNotExpr R
  | 3 => parseComparisonExpr R
  | 4 => parseBitwiseExpr R
  | 5 => parseAddExpr R
  | 6 => parseMulExpr R
  | 7 => parseJSONExpr R
  | 8 => parseUnaryExpr R
  | 9 => parsePrimaryExpr R
  | _ => parsePrimaryExprBase R
  end.
End Levels.
