(* ===== verification/RoundTrip.v ===== *)
(** * The parser reads canonical expressions back

    Lemmas on runs of the parser over a list of tokens, and the theorem that parsing the tokens of
    a canonical expression gives that expression, in front of any tokens that do not continue it. *)
From Stdlib Require Import Ascii String List Bool Arith NArith ZArith Lia.
From S2P Require Import Prelude Token Ast ParserMonad Grammar GrammarFacts Unparse.
Import ListNotations.
Open Scope string_scope.
Open Scope go_scope.
Open Scope parser_scope.

(** ** Running the monad *)

Section Run.
Context {L : Type} {TS : TokenSource L}.
Implicit Types p q : Parser L.

Lemma run_bind {A B} (m : P A) (k : A -> P B) p a q r : m p = Ok a q -> k a q = r -> bind m k p = r.
Proof. unfold bind. now intros ->. Qed.

Lemma run_bind_bind {A B C} (m : P A) (f : A -> P B) (g : B -> P C) p :
  bind (bind m f) g p = bind m (fun a => bind (f a) g) p.
Proof. unfold bind. now destruct (m p). Qed.

Lemma run_bind_ret {A B} (a : A) (k : A -> P B) p : bind (ret a) k p = k a p.
Proof. reflexivity. Qed.

Lemma run_if_true {A} (c : Parser L -> bool) (a b : P A) p : c p = true -> ifP c a b p = a p.
Proof. unfold ifP. now intros ->. Qed.

Lemma run_if_false {A} (c : Parser L -> bool) (a b : P A) p : c p = false -> ifP c a b p = b p.
Proof. unfold ifP. now intros ->. Qed.

Lemma run_bind_if_true {A B} (c : Parser L -> bool) (a b : P A) (k : A -> P B) p :
  c p = true -> bind (ifP c a b) k p = bind a k p.
Proof. unfold bind, ifP. now intros ->. Qed.

Lemma run_bind_if_false {A B} (c : Parser L -> bool) (a b : P A) (k : A -> P B) p :
  c p = false -> bind (ifP c a b) k p = bind b k p.
Proof. unfold bind, ifP. now intros ->. Qed.

Lemma loop_n_mono {A B} (body : A -> P (A + B)) n m a p b q :
  loop_n n body a p = Ok b q -> n <= m -> loop_n m body a p = Ok b q.
Proof.
  revert m a p. induction n; intros m a p H Hm; [discriminate|]. destruct m; [lia|].
  cbn [loop_n] in *. unfold bind in *. destruct (body a p) as [[a'|b'] p'| | |]; try discriminate.
  - apply IHn; [exact H|lia].
  - exact H.
Qed.

Lemma run_loop_next {A B} (body : A -> P (A + B)) a p a' p' b q :
  body a p = Ok (inl a') p' -> psize p' < psize p -> loop body a' p' = Ok b q ->
  loop body a p = Ok b q.
Proof.
  intros Hb Hp H. unfold loop in *. cbn [loop_n]. unfold bind. rewrite Hb.
  revert H. intros H. eapply loop_n_mono; [exact H|lia].
Qed.

Lemma run_loop_done {A B} (body : A -> P (A + B)) a p b q :
  body a p = Ok (inr b) q -> loop body a p = Ok b q.
Proof. intros Hb. unfold loop. cbn [loop_n]. unfold bind. now rewrite Hb. Qed.

End Run.

(** ** States on a list of tokens *)

Lemma clean_app l r : clean (l ++ r) = clean l && clean r.
Proof. apply forallb_app. Qed.

Lemma clean_cons t r : clean (t :: r) = true -> clean r = true.
Proof. intros H. now apply andb_prop in H as [_ H]. Qed.

Lemma clean_suffix l r : clean (l ++ r) = true -> clean r = true.
Proof. rewrite clean_app. intros H. now apply andb_prop in H as [_ H]. Qed.

Lemma next_at t r : clean (t :: r) = true -> nextToken (at_tokens (t :: r)) = Ok tt (at_tokens r).
Proof.
  intros H. apply clean_cons in H. unfold nextToken, nextToken_state. do 2 f_equal.
  destruct r as [|a [|b r]]; [reflexivity..|]. unfold at_tokens. cbn [skipn nth lexer src_next list_source].
  apply clean_cons in H. apply andb_prop in H as [H _]. apply andb_prop in H as [H _].
  apply negb_true_iff in H. cbn [skip_comments]. now rewrite H.
Qed.

Lemma tokens_in_clean t r : clean (t :: r) = true -> tokens_in t = 1.
Proof.
  intros H. apply andb_prop in H as [H _]. apply andb_prop in H as [_ H]. apply negb_true_iff in H.
  unfold tokens_in. now rewrite H.
Qed.

Lemma psize_at l : clean l = true -> psize (at_tokens l) = length l.
Proof.
  intros H. unfold psize, at_tokens. cbn [curToken peekToken lexer src_size list_source].
  destruct l as [|a [|b l]]; [reflexivity| |]; cbn [nth skipn length].
  - now rewrite (tokens_in_clean _ _ H).
  - rewrite (tokens_in_clean _ _ H), (tokens_in_clean _ _ (clean_cons _ _ H)). lia.
Qed.

Lemma skip_comments_clean n t r : clean (t :: r) = true -> skip_comments (S n) t r = (t, r).
Proof.
  intros H. apply andb_prop in H as [H _]. apply andb_prop in H as [H _]. apply negb_true_iff in H.
  cbn [skip_comments]. now rewrite H.
Qed.

Lemma newParser_at l : clean l = true -> newParser l = at_tokens l.
Proof.
  intros H. unfold newParser, nextToken_state. cbn [lexer].
  destruct l as [|a [|b l]]; [reflexivity| |]; cbn [src_next src_size list_source];
    rewrite skip_comments_clean by exact H; cbn [lexer src_next list_source].
  - reflexivity.
  - rewrite skip_comments_clean by exact (clean_cons _ _ H). reflexivity.
Qed.

(** ** What is known of a token *)

Lemma key_op t x : key t = op x -> Type_ t = x.
Proof. intros H. now injection H. Qed.

Lemma key_ident t s : key t = ident s -> Type_ t = TokenIdent /\ Literal t = s.
Proof. unfold key, ident. intros H. injection H as Ht Hs. rewrite Ht in Hs. now split. Qed.

(** A token whose key satisfies a predicate is of no type the predicate excludes. *)
Lemma not_type (f : TokenType * string -> bool) t x :
  f (key t) = true -> (forall s, f (x, s) = false) -> (Type_ t =t x) = false.
Proof.
  intros H Hx. apply token_eqb_neq. intros E. unfold key in H. rewrite E in H. rewrite Hx in H.
  discriminate.
Qed.

(** What the first token of a canonical expression at level [k] can be. *)
Definition starts (k : nat) (t : TokenType * string) : bool :=
  let (ty, s) := t in
  match ty with
  | TokenIdent => plain_name s
  | TokenNumber | TokenString | TokenBlob | TokenNULL | TokenTRUE | TokenFALSE | TokenLParen
  | TokenCASE => true
  | TokenMinus | TokenPlus | TokenBitNot => (k <=? 8)%nat
  | TokenNOT => (k <=? 2)%nat
  | _ => false
  end.

Lemma starts_mono j k t : j <= k -> starts k t = true -> starts j t = true.
Proof.
  intros H. destruct t as [[] s]; cbn [starts]; try easy;
    intros E; apply Nat.leb_le in E; apply Nat.leb_le; lia.
Qed.

Lemma op_level_le o k : op_level o = Some k -> k <= 7.
Proof.
  unfold op_level. destruct (isComparisonOp o || isJSONBPredicateOp o); [intros H; injection H; lia|].
  intros H. apply find_some in H as [H _]. cbn in H. lia.
Qed.

Lemma level_le e : level e <= 10.
Proof.
  destruct e; cbn [level]; try lia.
  - destruct (op_level Op) eqn:E; [apply op_level_le in E|]; lia.
  - destruct (Op =t TokenNOT); lia.
Qed.

Ltac bools :=
  repeat match goal with
  | H : _ && _ = true |- _ => apply andb_prop in H as [? ?]
  | H : (_ <=? _)%nat = true |- _ => apply Nat.leb_le in H
  end.

Lemma canonical_binary l o r :
  canonical (BinaryExpr l o r) = true ->
  exists k, op_level o = Some k /\ (if (k =? 3)%nat then 4 else k) <= level l /\ S k <= level r /\
    canonical l = true /\ canonical r = true.
Proof.
  cbn [canonical]. destruct (op_level o) as [k|]; [|easy]. intros H. exists k. split; [reflexivity|].
  destruct k as [|[|[|[|k]]]]; bools; cbn [Nat.eqb]; repeat split; assumption.
Qed.

Lemma keys_head e :
  canonical e = true -> exists t r, keys e = t :: r /\ starts (level e) t = true.
Proof.
  enough (G : forall n e, length (keys e) <= n -> canonical e = true ->
    exists t r, keys e = t :: r /\ starts (level e) t = true) by (intros; eauto).
  clear e. induction n as [|n IH]; intros e Hn Hc.
  { exfalso. revert Hn. clear -Hc. destruct e; cbn [keys]; rewrite ?length_app; cbn [length];
      try lia; try discriminate Hc.
    - destruct (Table =s EmptyString); cbn; lia.
    - destruct Func; cbn. lia. }
  assert (Left : forall l k x, canonical l = true -> length (keys l ++ x) <= S n -> 1 <= length x ->
    k <= level l -> exists t r, (keys l ++ x)%list = t :: r /\ starts k t = true).
  { intros l k x Hl Hx H1 Hk. rewrite length_app in Hx. destruct (IH l) as (t & r & E & S); [lia|easy|].
    rewrite E. exists t, (r ++ x)%list. split; [reflexivity|]. now apply starts_mono with (level l). }
  destruct e; try discriminate Hc; cbn [keys] in *.
  - apply canonical_binary in Hc as (k & Hk & Hl & Hr & Cl & Cr). cbn [level]. rewrite Hk.
    apply Left; [easy|easy|cbn;lia|]. destruct (k =? 3)%nat eqn:E; [apply Nat.eqb_eq in E|]; lia.
  - eexists _, _. split; [reflexivity|]. cbn [canonical] in Hc. bools. clear -H.
    destruct Op; try discriminate H; reflexivity.
  - eexists _, _. split; [reflexivity|]. cbn [canonical] in Hc. destruct Type_; try discriminate Hc; reflexivity.
  - cbn [canonical] in Hc. destruct (Table =s EmptyString); (eexists _, _; split; [reflexivity|exact Hc]).
  - destruct Func. cbn [canonical] in Hc. bools. eexists _, _. split; [reflexivity|assumption].
  - eexists _, _. split; reflexivity.
  - cbn [canonical] in Hc. bools. apply Left; try easy; cbn [level]; rewrite ?length_app; cbn; lia.
  - cbn [canonical] in Hc. bools. apply Left; try easy; cbn [level]; rewrite ?length_app; cbn; lia.
  - cbn [canonical] in Hc. bools. apply Left; try easy; cbn [level]; rewrite ?length_app; cbn; lia.
  - cbn [canonical] in Hc. bools. apply Left; try easy; cbn [level]; rewrite ?length_app; cbn; lia.
  - cbn [canonical] in Hc. bools. apply Left; try easy; cbn [level]; rewrite ?length_app; cbn; lia.
  - cbn [canonical] in Hc. bools. apply Left; try easy; cbn [level]; rewrite ?length_app; cbn; lia.
  - eexists _, _. split; reflexivity.
Qed.

Lemma starts_any k t :
  starts k (key t) = true -> (Type_ t =t TokenIdent) && EqualFold (Literal t) "ANY" = false.
Proof.
  intros H. destruct (Type_ t =t TokenIdent) eqn:E; [|reflexivity]. apply token_eqb_eq in E.
  unfold key in H. rewrite E in H. cbn in H. apply andb_prop in H as [H _]. apply negb_true_iff in H.
  exact H.
Qed.

Lemma cont_ident s : cont (ident s) = if EqualFold s "OVER" then Some 10 else None.
Proof. reflexivity. Qed.

Lemma stops_over k l :
  stops k l = true -> k <= 10 ->
  (Type_ (nth 0 l EOFToken) =t TokenIdent) && EqualFold (Literal (nth 0 l EOFToken)) "OVER" = false.
Proof.
  unfold stops, stop. intros H Hk. destruct (Type_ _ =t TokenIdent) eqn:E; [|reflexivity].
  apply token_eqb_eq in E. assert (Hkey : key (nth 0 l EOFToken) = ident (Literal (nth 0 l EOFToken))).
  { unfold key. now rewrite E. }
  rewrite Hkey, cont_ident in H. destruct (EqualFold _ "OVER"); [|reflexivity].
  apply Nat.ltb_lt in H. lia.
Qed.

Lemma stops_cons k t r x : Type_ t = x -> (forall s, stop k (x, s) = true) -> stops k (t :: r) = true.
Proof. intros H Hx. unfold stops, key. cbn [nth]. rewrite H. apply Hx. Qed.

(** ** Automation

    [cond] evaluates a condition on a state from what is known of the tokens in view; [run]
    executes the parser as far as the conditions and the rules for its calls allow. *)
Ltac known :=
  match goal with
  | H : Type_ ?t = _ |- context [Type_ ?t] => rewrite H
  | H : Literal ?t = _ |- context [Literal ?t] => rewrite H
  | H : nth 0 ?l EOFToken = _ |- context [nth 0 ?l EOFToken] => rewrite H
  | H : EqualFold ?s ?w = _ |- context [EqualFold ?s ?w] => rewrite H
  | H : starts ?k (key ?t) = true |- context [(Type_ ?t =t TokenIdent) && EqualFold (Literal ?t) "ANY"] =>
      rewrite (starts_any k t H)
  | H : stops ?k ?l = true
    |- context [(Type_ (nth 0 ?l EOFToken) =t TokenIdent) && EqualFold (Literal (nth 0 ?l EOFToken)) "OVER"] =>
      rewrite (stops_over k l H) by lia
  | H : stops ?k ?l = true |- context [Type_ (nth 0 ?l EOFToken) =t ?x] =>
      rewrite (not_type (stop k) (nth 0 l EOFToken) x H (fun s => eq_refl))
  | H : ?f (key ?t) = true |- context [Type_ ?t =t ?x] =>
      rewrite (not_type f t x H (fun s => eq_refl))
  end.

Ltac cond :=
  unfold curIsName, orP, andP, notP, curIdentIs, peekIdentIs, curTokenIs, peekTokenIs, curTokenIn,
    isJSONBPredicateOp, isComparisonOp, token_in;
  cbn [curToken peekToken at_tokens nth app existsb];
  repeat (known; cbn [existsb]); try assumption; reflexivity.

Create HintDb runs.

Ltac run_if :=
  lazymatch goal with
  | |- ifP _ _ _ _ = _ => first [rewrite run_if_true by cond | rewrite run_if_false by cond]
  | |- bind (ifP _ _ _) _ _ = _ =>
      first [rewrite run_bind_if_true by cond | rewrite run_bind_if_false by cond]
  end.

Ltac clean_tac := solve [assumption | eauto using clean_cons, clean_suffix].

Ltac run_step :=
  lazymatch goal with
  | |- ret _ _ = _ => unfold ret
  | |- bind (bind _ _) _ _ = _ => rewrite run_bind_bind
  | |- bind (ret _) _ _ = _ => rewrite run_bind_ret
  | |- bind (ifP _ _ _) _ _ = _ => run_if
  | |- ifP _ _ _ _ = _ => run_if
  | |- bind (expect _ _) _ _ = _ => unfold expect at 1
  | |- bind (expectLiteral _ _) _ _ = _ => unfold expectLiteral at 1
  | |- bind (skipIf _) _ _ = _ => unfold skipIf at 1
  | |- bind (optional _ _) _ _ = _ => unfold optional at 1
  | |- bind nextToken _ (at_tokens (_ :: _)) = _ =>
      eapply run_bind; [apply next_at; clean_tac|]
  | |- bind curType _ _ = _ => eapply run_bind; [reflexivity|]
  | |- bind curLiteral _ _ = _ => eapply run_bind; [reflexivity|]
  end.

Ltac run := repeat (run_step; cbv beta).

(** Taking a sequence of keys apart. *)
Ltac split_keys :=
  repeat match goal with
  | H : map key _ = (_ ++ _)%list |- _ => apply map_eq_app in H as (? & ? & -> & ? & ?)
  | H : map key _ = _ :: _ |- _ => apply map_eq_cons in H as (? & ? & -> & ? & ?)
  | H : map key _ = [] |- _ => apply map_eq_nil in H as ->
  | H : key _ = op _ |- _ => apply key_op in H
  | H : key _ = ident _ |- _ => apply key_ident in H as [? ?]
  end; repeat (progress (rewrite <- ?app_assoc in *; cbn [app] in * )).

Lemma known_head e ts rest :
  canonical e = true -> map key ts = keys e ->
  exists t ts', ts = t :: ts' /\ starts (level e) (key t) = true /\
    nth 0 (ts ++ rest)%list EOFToken = t.
Proof.
  intros Hc Hk. destruct (keys_head e Hc) as (t & r & E & S). rewrite E in Hk.
  apply map_eq_cons in Hk as (t' & ts' & -> & <- & _). now exists t', ts'.
Qed.

(** ** Levels *)

Definition layer_body {L} {TS : TokenSource L} (ops : list TokenType) (operand : P Expr)
    (left : Expr) : P (L := L) (Expr + Expr) :=
  IF curTokenIn ops THEN
    (op <- curType ;; nextToken ;;; right <- operand ;; ret (inl (BinaryExpr left op right)))
  ELSE ret (inr left).

Definition postfix_body {L} {TS : TokenSource L} (R : recs) (e : Expr) : P (L := L) (Expr + Expr) :=
  IF curTokenIs TokenLBracket THEN
    (nextToken ;;;
     index <- rec_parseExpr R ;;
     expect TokenRBracket "expected ] after array subscript" ;;;
     ret (inl (SubscriptExpr e index)))
  ELSE IF curTokenIs TokenColonColon THEN
    (nextToken ;;; dataType <- parseDataType ;; ret (inl (CastExpr e dataType)))
  ELSE ret (inr e).

(** The levels whose parse function reads one operand and then loops. *)
Definition loops (k : nat) : Prop := In k [0; 1; 4; 5; 6; 7; 9].

Definition body_at (R : recs) (k : nat) : Expr -> P (L := list Token) (Expr + Expr) :=
  if (k =? 9)%nat then postfix_body R else layer_body (layer_ops k) (parse_at R (S k)).

Lemma parse_at_loop R k : loops k -> parse_at R k = bind (parse_at R (S k)) (loop (body_at R k)).
Proof. intros [<-|[<-|[<-|[<-|[<-|[<-|[<-|[]]]]]]]]; reflexivity. Qed.

(** [e] is read back at level [k]. *)
Definition reads (e : Expr) (k : nat) : Prop := forall ts rest n,
  map key ts = keys e -> clean (ts ++ rest) = true -> length (ts ++ rest) <= n ->
  stops k rest = true -> parse_at (knot n) k (at_tokens (ts ++ rest)) = Ok e (at_tokens rest).

(** The function of level [k] reads [e] as its left operand, and goes on with its loop. *)
Definition opens (e : Expr) (k : nat) : Prop := forall ts rest n r q,
  map key ts = keys e -> clean (ts ++ rest) = true -> length (ts ++ rest) <= n ->
  stops (S k) rest = true -> loop (body_at (knot n) k) e (at_tokens rest) = Ok r q ->
  parse_at (knot n) k (at_tokens (ts ++ rest)) = Ok r q.

Definition well_read (e : Expr) : Prop := forall k, k <= level e -> reads e k /\ (loops k -> opens e k).

Lemma stops_S k l : stops k l = true -> stops (S k) l = true.
Proof.
  unfold stops, stop. destruct (cont _); [|easy]. intros H. apply Nat.ltb_lt in H.
  apply Nat.ltb_lt. lia.
Qed.

Lemma opens_of_reads e k : loops k -> reads e (S k) -> opens e k.
Proof.
  intros Hl Hr ts rest n r q Hk Hc Hn Hs Hloop. rewrite (parse_at_loop _ _ Hl).
  eapply run_bind; [now apply Hr|exact Hloop].
Qed.

Lemma body_stops R e k rest :
  loops k -> stops k rest = true -> body_at R k e (at_tokens rest) = Ok (inr e) (at_tokens rest).
Proof.
  intros [<-|[<-|[<-|[<-|[<-|[<-|[<-|[]]]]]]]] Hs; unfold body_at, layer_body, postfix_body;
    cbn [Nat.eqb layer_ops]; run; reflexivity.
Qed.

Lemma reads_of_opens e k : loops k -> opens e k -> reads e k.
Proof.
  intros Hl Ho ts rest n Hk Hc Hn Hs. apply Ho; try assumption; [now apply stops_S|].
  apply run_loop_done. now apply body_stops.
Qed.

(** The levels that only look for their operator fall through to the next one. *)
Lemma reads_through e k :
  canonical e = true -> In k [2; 3; 8] -> S k <= level e -> reads e (S k) -> reads e k.
Proof.
  intros Hcan Hin Hlev Hr ts rest n Hk Hc Hn Hs.
  specialize (Hr ts rest n Hk Hc Hn (stops_S _ _ Hs)).
  destruct (known_head e ts rest Hcan Hk) as (t & ts' & -> & Hst & _).
  apply (starts_mono (S k)) in Hst; [|exact Hlev].
  destruct Hin as [<-|[<-|[<-|[]]]]; cbn [parse_at] in *.
  - unfold parseNotExpr. run. exact Hr.
  - unfold parseComparisonExpr. eapply run_bind; [exact Hr|]. run.
    cbv iota. run. reflexivity.
  - unfold parseUnaryExpr. run. exact Hr.
Qed.

Lemma well_read_of_base e :
  canonical e = true ->
  (loops (level e) -> opens e (level e)) -> (~ loops (level e) -> reads e (level e)) -> well_read e.
Proof.
  intros Hc Ho Hr.
  assert (loops_dec : forall k, loops k \/ ~ loops k).
  { intros k. unfold loops. destruct (in_dec Nat.eq_dec k [0; 1; 4; 5; 6; 7; 9]); auto. }
  assert (G : forall d k, level e = d + k -> reads e k /\ (loops k -> opens e k)).
  { induction d as [|d IH]; intros k Hk.
    - cbn in Hk. subst k. destruct (loops_dec (level e)) as [Hl|Hl].
      + split; [apply reads_of_opens|]; auto.
      + split; [auto|easy].
    - destruct (IH (S k)) as [R _]; [lia|]. destruct (loops_dec k) as [Hl|Hl].
      + assert (opens e k) by now apply opens_of_reads. split; [now apply reads_of_opens|easy].
      + split; [|easy]. apply reads_through; [exact Hc| |lia|exact R].
        pose proof (level_le e). unfold loops in Hl. cbn in Hl |- *. lia. }
  intros k Hk. apply (G (level e - k)). lia.
Qed.

(** ** The constructs *)

Ltac suffixes H :=
  lazymatch type of H with
  | clean (_ :: _) = true =>
      let H' := fresh "Hclean" in pose proof (clean_cons _ _ H) as H'; suffixes H'
  | clean (_ ++ _) = true =>
      let H' := fresh "Hclean" in pose proof (clean_suffix _ _ H) as H'; suffixes H'
  | _ => idtac
  end.

Ltac len := repeat (rewrite length_app in * || cbn [length app] in * ); lia.

Ltac stop_tac :=
  solve [ assumption | apply stops_S; assumption
        | eapply stops_cons; [eassumption|intros; reflexivity] ].

(** The functions of the levels, by their level. *)
Ltac fold_levels :=
  repeat match goal with
  | |- context [parseBitwiseExpr (knot ?n)] =>
      change (parseBitwiseExpr (knot n)) with (parse_at (knot n) 4)
  | |- context [rec_parseExpr (knot (S ?n))] =>
      change (rec_parseExpr (knot (S n))) with (parse_at (knot n) 0)
  | |- context [rec_parseNotExpr (knot (S ?n))] =>
      change (rec_parseNotExpr (knot (S n))) with (parse_at (knot n) 2)
  | |- context [rec_parseUnaryExpr (knot (S ?n))] =>
      change (rec_parseUnaryExpr (knot (S n))) with (parse_at (knot n) 8)
  end.

(** Run the parser of a level on the tokens of an expression that is known to be well read. *)
Ltac sub W :=
  eapply run_bind;
  [ refine (proj1 (W _ _) _ _ _ _ _ _ _); [try lia|eassumption|clean_tac|len|stop_tac] | cbv beta ].

Lemma read_list es m : Forall well_read es -> es <> [] -> forall ts t r,
  map key ts = separated (map keys es) -> clean (ts ++ t :: r) = true ->
  length (ts ++ t :: r) <= m -> Type_ t = TokenRParen ->
  commaList (parse_at (knot m) 0) (at_tokens (ts ++ t :: r)) = Ok es (at_tokens (t :: r)).
Proof.
  intros HF Hne ts t r Hk Hc Hm Ht. unfold commaList.
  enough (G : forall acc, loop (fun acc => x <- parse_at (knot m) 0 ;;
      IF curTokenIs TokenComma THEN (nextToken ;;; ret (inl (acc ++ [x])%list))
      ELSE ret (inr (acc ++ [x])%list)) acc (at_tokens (ts ++ t :: r))
      = Ok (acc ++ es)%list (at_tokens (t :: r))) by apply (G []).
  revert ts Hk Hc Hm. induction HF as [|e es He HF IH]; [easy|]. intros ts Hk Hc Hm acc.
  destruct es as [|e' es].
  - cbn [map separated] in Hk. apply run_loop_done.
    eapply run_bind; [refine (proj1 (He 0 _) _ _ _ Hk Hc Hm _); [lia|stop_tac]|]. cbv beta. run. reflexivity.
  - cbn [map separated] in Hk. apply map_eq_app in Hk as (ts1 & ts2 & -> & Hk1 & Hk2).
    apply map_eq_cons in Hk2 as (tc & ts3 & -> & Htc & Hk3). apply key_op in Htc.
    rewrite <- app_assoc in *. cbn [app] in *. suffixes Hc.
    eapply run_loop_next with (a' := (acc ++ [e])%list) (p' := at_tokens (ts3 ++ t :: r)).
    + eapply run_bind; [refine (proj1 (He 0 _) _ _ _ Hk1 Hc Hm _); [lia|stop_tac]|].
      cbv beta. run. reflexivity.
    + rewrite !psize_at by assumption. len.
    + rewrite IH; [now rewrite <- app_assoc|easy|exact Hk3|assumption|len].
Qed.

Section Cases.
Variable N : nat.
Hypothesis IH : forall e, length (keys e) < N -> canonical e = true -> well_read e.

Ltac start_reads :=
  intros ts rest n Hk Hc Hn Hs; cbn [keys] in Hk; split_keys; suffixes Hc.

Ltac fuel n Hn := destruct n as [|n]; [exfalso; revert Hn; clear; intros; len|].

Lemma op_level_token k o : op_level o = Some k -> k <> 3 -> loops k /\ token_in o (layer_ops k) = true.
Proof.
  unfold op_level. destruct (isComparisonOp o || isJSONBPredicateOp o); [intros [= <-] H; now contradict H|].
  intros H _. apply find_some in H as [Hin Ht]. split; [|exact Ht].
  unfold layers in Hin. unfold loops. cbn in *. tauto.
Qed.

Lemma stops_op k t r o : Type_ t = o -> op_level o = Some k -> stops (S k) (t :: r) = true.
Proof.
  intros H Ho. unfold stops, stop, key, cont. cbn [nth]. rewrite H, Ho.
  apply Nat.ltb_lt. lia.
Qed.

Lemma opens_binary l o r k :
  op_level o = Some k -> k <> 3 -> k <= level l -> S k <= level r ->
  well_read l -> well_read r -> opens (BinaryExpr l o r) k.
Proof.
  intros Ho H3 Hl Hr Wl Wr ts rest n x q Hk Hc Hn Hs Hloop.
  cbn [keys] in Hk. split_keys. suffixes Hc.
  destruct (op_level_token k o Ho H3) as [Hlk Hin].
  match goal with H : map key ?a = keys l, H' : map key ?b = keys r, Hx : Type_ ?t = o |- _ =>
    rename H into Ha, H' into Hb, Hx into Ht; rename a into al, b into br, t into ot end.
  destruct (Wl k Hl) as [_ Ol]. refine (Ol Hlk al _ n x q Ha Hc Hn _ _).
  { eapply stops_op; eassumption. }
  assert (Hbody : body_at (knot n) k l (at_tokens (ot :: br ++ rest)) =
                  Ok (inl (BinaryExpr l o r)) (at_tokens rest)).
  { assert (H9 : (k =? 9)%nat = false).
    { apply Nat.eqb_neq. intros ->. apply op_level_le in Ho. lia. }
    unfold body_at. rewrite H9. unfold layer_body.
    rewrite run_if_true by (unfold curTokenIn; cbn; rewrite Ht; exact Hin).
    run. eapply run_bind; [refine (proj1 (Wr (S k) Hr) br rest n Hb _ _ Hs); [clean_tac|len]|].
    cbv beta. cbn. now rewrite Ht. }
  eapply run_loop_next; [exact Hbody| |exact Hloop]. rewrite !psize_at by assumption. len.
Qed.

(** A comparison: both sides above its level. *)
Lemma reads_comparison l o r :
  op_level o = Some 3 -> 4 <= level l -> 4 <= level r ->
  well_read l -> well_read r -> canonical r = true -> reads (BinaryExpr l o r) 3.
Proof.
  intros Ho Hl Hr Wl Wr Cr. start_reads.
  match goal with H : map key ?a = keys l, H' : map key ?b = keys r, Hx : Type_ ?t = o |- _ =>
    rename H into Ha, H' into Hb, Hx into Ht; rename a into al, b into br, t into ot end.
  destruct (known_head r br rest Cr Hb) as (t & ts' & _ & Hst & Hd).
  apply (starts_mono 4) in Hst; [|exact Hr].
  cbn [parse_at]. unfold parseComparisonExpr. fold_levels.
  assert (Hop : isComparisonOp o || isJSONBPredicateOp o = true).
  { destruct o; try reflexivity; discriminate Ho. }
  eapply run_bind.
  { refine (proj1 (Wl 4 Hl) al _ n Ha Hc Hn _). eapply stops_op; eassumption. }
  cbv beta.
  destruct o; try discriminate Hop; run; cbv iota; run; unfold parseComparisonOp; run; fold_levels;
    (eapply run_bind; [refine (proj1 (Wr 4 Hr) br rest n Hb _ _ (stops_S _ _ Hs)); [clean_tac|len]|]);
    cbv beta; cbn; rewrite Ht; reflexivity.
Qed.

Lemma reads_unary o e :
  token_in o [TokenNOT; TokenMinus; TokenPlus; TokenBitNot] = true ->
  level (UnaryExpr o e) <= level e -> well_read e ->
  reads (UnaryExpr o e) (level (UnaryExpr o e)).
Proof.
  intros Ho Hl We. start_reads.
  match goal with H : map key ?a = keys e, Hx : Type_ ?t = o |- _ =>
    rename H into Ha, Hx into Ht; rename a into al, t into ot end.
  fuel n Hn.
  destruct o; try discriminate Ho; cbn [level token_eqb] in *;
    change (parse_at (knot (S n)) _) with (parseNotExpr (knot (S n))) ||
    change (parse_at (knot (S n)) _) with (parseUnaryExpr (knot (S n)));
    unfold parseNotExpr, parseUnaryExpr; run; fold_levels;
    (eapply run_bind; [refine (proj1 (We _ Hl) al rest n Ha _ _ Hs); [clean_tac|len]|]);
    cbv beta; cbn; rewrite ?Ht; reflexivity.
Qed.

Lemma reads_literal t v : canonical_literal t v = true -> reads (LiteralExpr t v) 10.
Proof.
  intros H ts rest n Hk Hc Hn Hs. cbn [keys] in Hk. cbn [parse_at].
  apply map_eq_cons in Hk as (lt & ts' & -> & Hl & Hnil). apply map_eq_nil in Hnil as ->.
  cbn [app] in *. unfold parsePrimaryExprBase, parseLiteral, parseConstant.
  destruct t; try discriminate H; unfold canonical_literal in H; cbn in H; injection Hl as Ht Hv; rewrite ?Ht in Hv; cbn in Hv;
    run; cbn; rewrite ?Hv; try reflexivity;
    rewrite ?orb_false_r in H; apply String.eqb_eq in H as ->; reflexivity.
Qed.

Lemma plain_name_neq s : plain_name s = true -> EqualFold s "ANY" = false /\ EqualFold s "ARRAY" = false.
Proof. intros H. apply andb_prop in H as [H1 H2]. split; now apply negb_true_iff. Qed.

Lemma reads_column table column :
  canonical (ColumnRef table column) = true -> reads (ColumnRef table column) 10.
Proof.
  intros H. start_reads. cbn [canonical] in H. cbn [parse_at].
  unfold parsePrimaryExprBase, parseIdentOrFunction.
  destruct (table =s EmptyString) eqn:E; apply plain_name_neq in H as [H1 H2]; split_keys; suffixes Hc.
  - run. cbn; repeat known. apply String.eqb_eq in E as ->. reflexivity.
  - run. cbn; repeat known. reflexivity.
Qed.

Lemma reads_paren e : canonical e = true -> well_read e -> reads (ParenExpr e) 10.
Proof.
  intros Ce We. start_reads.
  match goal with H : map key ?a = keys e, Hx : Type_ ?t = TokenRParen |- _ =>
    rename H into Ha; rename a into al, t into rp end.
  destruct (known_head e al (rp :: rest) Ce Ha) as (t & ts' & _ & Hst & Hd).
  apply (starts_mono 0) in Hst; [|lia]. fuel n Hn. cbn [parse_at]. unfold parsePrimaryExprBase.
  run. fold_levels. sub We. run. reflexivity.
Qed.

Lemma opens_subscript e index :
  9 <= level e -> well_read e -> well_read index -> opens (SubscriptExpr e index) 9.
Proof.
  intros Hl We Wi ts rest n x q Hk Hc Hn Hs Hloop. cbn [keys] in Hk. split_keys. suffixes Hc.
  match goal with H : map key ?a = keys e, H' : map key ?b = keys index |- _ =>
    rename H into Ha, H' into Hb; rename a into al, b into br end.
  destruct (We 9 Hl) as [_ Oe]. assert (L9 : loops 9) by (unfold loops; cbn; tauto).
  refine (Oe L9 al _ n x q Ha Hc Hn _ _).
  { eapply stops_cons; [eassumption|reflexivity]. }
  fuel n Hn. eapply run_loop_next; [|rewrite !psize_at by clean_tac; len|exact Hloop].
  unfold body_at, postfix_body. cbn [Nat.eqb]. run. fold_levels. sub Wi. run. reflexivity.
Qed.

(** The NOT in front of IN, BETWEEN and LIKE. *)
Lemma reads_is l not :
  4 <= level l -> well_read l -> reads (IsNullExpr l not) 3.
Proof.
  intros Hl Wl. start_reads. cbn [parse_at]. unfold parseComparisonExpr, parseIsExpr. fold_levels.
  sub Wl. destruct not; cbn [keys_if] in *; split_keys; suffixes Hc; run; reflexivity.
Qed.

Lemma reads_distinct l r not :
  4 <= level l -> 4 <= level r -> well_read l -> well_read r -> reads (IsDistinctExpr l r not) 3.
Proof.
  intros Hl Hr Wl Wr. start_reads. cbn [parse_at]. unfold parseComparisonExpr, parseIsExpr. fold_levels.
  sub Wl. destruct not; cbn [keys_if] in *; split_keys; suffixes Hc; run; fold_levels; sub Wr; reflexivity.
Qed.

Lemma reads_between l not low high :
  4 <= level l -> 4 <= level low -> 4 <= level high ->
  well_read l -> well_read low -> well_read high -> reads (BetweenExpr l not low high) 3.
Proof.
  intros Hl Hlow Hh Wl Wlow Wh. start_reads. cbn [parse_at].
  unfold parseComparisonExpr, parseBetweenExpr. fold_levels.
  destruct not; cbn [keys_if] in *; split_keys; suffixes Hc; sub Wl; run; cbv iota; run; fold_levels;
    sub Wlow; run; sub Wh; reflexivity.
Qed.

Lemma reads_like l not pattern escape :
  4 <= level l -> 4 <= level pattern -> well_read l -> well_read pattern ->
  (forall e, escape = Some e -> 4 <= level e /\ well_read e) ->
  reads (LikeExpr l not pattern escape) 3.
Proof.
  intros Hl Hp Wl Wp He. start_reads. cbn [parse_at].
  unfold parseComparisonExpr, parseLikeExpr. fold_levels.
  destruct escape as [e|]; [destruct (He e eq_refl) as [Hle We]|];
    destruct not; cbn [keys_if] in *; split_keys; suffixes Hc; cbn [app] in *;
    sub Wl; run; cbv iota; run; fold_levels; sub Wp; run; fold_levels; try (sub We; run); reflexivity.
Qed.

Lemma separated_head v vs ts rest :
  canonical v = true -> map key ts = separated (map keys (v :: vs)) ->
  exists t, starts 0 (key t) = true /\ nth 0 (ts ++ rest)%list EOFToken = t.
Proof.
  intros Hc Hk. destruct (keys_head v Hc) as (k & r & E & S).
  assert (exists r', map key ts = k :: r') as [r' Hk'].
  { rewrite Hk. cbn [map separated]. rewrite E. destruct vs; cbn; eauto. }
  apply map_eq_cons in Hk' as (t & ts' & -> & <- & _). exists t.
  split; [now apply starts_mono with (level v); [lia|]|reflexivity].
Qed.

Lemma reads_in l not values :
  4 <= level l -> well_read l -> forallb canonical values = true -> Forall well_read values ->
  reads (InExpr l not values None) 3.
Proof.
  intros Hl Wl Cv Wv. start_reads. cbn [parse_at].
  unfold parseComparisonExpr, parseInExpr, parseExprList.
  destruct values as [|v vs].
  - destruct not; cbn [keys_if map separated] in *; split_keys; suffixes Hc; fold_levels; sub Wl; run;
      cbv iota; run; reflexivity.
  - match goal with H : map key ?a = separated _ |- _ => rename H into Ha; rename a into al end.
    match goal with H : Type_ ?t = TokenRParen |- _ => rename t into rp; rename H into Hrp end.
    cbn [forallb] in Cv. apply andb_prop in Cv as [Cv _].
    destruct (separated_head v vs al (rp :: rest) Cv Ha) as (t & Hst & Hd). clear Cv.
    fuel n Hn.
    destruct not; cbn [keys_if] in *; split_keys; suffixes Hc; fold_levels; sub Wl; run; cbv iota; run;
      (eapply run_bind; [apply read_list; [exact Wv|discriminate|exact Ha|clean_tac|len|exact Hrp]|]);
      cbv beta; run; reflexivity.
Qed.

Lemma reads_call name args distinct star :
  canonical (FunctionCallExpr (mkFunctionCall name args distinct star)) = true ->
  Forall well_read args -> reads (FunctionCallExpr (mkFunctionCall name args distinct star)) 10.
Proof.
  intros Hcan Wa. cbn [canonical] in Hcan. bools.
  match goal with H : plain_name _ = true |- _ => apply plain_name_neq in H as [Hany Harr] end.
  match goal with H : (_ =s _) = true |- _ => apply String.eqb_eq in H; rename H into Hup end.
  match goal with H : forallb _ _ = true |- _ => rename H into Ca end.
  start_reads. cbn [parse_at]. unfold parsePrimaryExprBase, parseIdentOrFunction.
  fuel n Hn. run. cbn [curToken at_tokens nth]. repeat known. cbv iota.
  unfold parseFunctionCall, parseExprList. fold_levels.
  destruct star; [destruct args; [|easy]|destruct args as [|v vs]].
  - destruct distinct; cbn [keys_if] in *; split_keys; suffixes Hc; run; cbn [fst snd]; rewrite Hup; reflexivity.
  - destruct distinct; cbn [keys_if map separated] in *; split_keys; suffixes Hc; run; cbn [fst snd];
      rewrite Hup; reflexivity.
  - match goal with H : map key ?a = separated _ |- _ => rename H into Ha; rename a into al end.
    match goal with H : Type_ ?t = TokenRParen |- _ => rename t into rp; rename H into Hrp end.
    cbn [forallb] in Ca. apply andb_prop in Ca as [Ca _].
    destruct (separated_head v vs al (rp :: rest) Ca Ha) as (t & Hst & Hd). clear Ca.
    destruct distinct; cbn [keys_if] in *; split_keys; suffixes Hc; run;
      (eapply run_bind; [apply read_list; [exact Wa|discriminate|exact Ha|clean_tac|len|exact Hrp]|]);
      cbv beta; run; cbn [fst snd]; rewrite Hup; reflexivity.
Qed.

Definition when_keys (w : WhenClause) : list (TokenType * string) :=
  match w with mkWhenClause c r => (op TokenWHEN :: keys c ++ op TokenTHEN :: keys r)%list end.

Definition when_well_read (w : WhenClause) : Prop :=
  match w with mkWhenClause c r => well_read c /\ well_read r end.

(** What follows a branch: another one, ELSE or END. *)
Lemma branch_end k (ws : list WhenClause) ts t r :
  map key ts = concat (map when_keys ws) -> Type_ t = TokenELSE \/ Type_ t = TokenEND ->
  stops k (ts ++ t :: r) = true.
Proof.
  intros Hk Ht. destruct ws as [|[c x] ws]; cbn in Hk.
  - apply map_eq_nil in Hk as ->. cbn [app].
    destruct Ht as [Ht|Ht]; (eapply stops_cons; [exact Ht|reflexivity]).
  - apply map_eq_cons in Hk as (t' & ts' & -> & Hop & _). apply key_op in Hop.
    cbn [app]. eapply stops_cons; [exact Hop|reflexivity].
Qed.

Lemma read_whens ws m : Forall when_well_read ws -> forall ts t r acc,
  map key ts = concat (map when_keys ws) -> clean (ts ++ t :: r) = true ->
  length (ts ++ t :: r) <= m -> Type_ t = TokenELSE \/ Type_ t = TokenEND ->
  loop (fun acc =>
      IF curTokenIs TokenWHEN THEN
        (nextToken ;;;
         cond <- parse_at (knot m) 0 ;;
         expect TokenTHEN "expected THEN" ;;;
         result <- parse_at (knot m) 0 ;;
         ret (inl (acc ++ [mkWhenClause cond result])%list))
      ELSE ret (inr acc)) acc (at_tokens (ts ++ t :: r)) = Ok (acc ++ ws)%list (at_tokens (t :: r)).
Proof.
  induction 1 as [|[c x] ws [Wc Wx] HF IHw]; intros ts t r acc Hk Hc Hm Ht.
  - apply map_eq_nil in Hk as ->. cbn [app] in *. apply run_loop_done. rewrite app_nil_r.
    destruct Ht as [Ht|Ht]; run; reflexivity.
  - cbn [map concat when_keys] in Hk. split_keys.
    match goal with H : map key ?a = concat _ |- _ => rename H into Hrest; rename a into more end.
    pose proof (branch_end 0 ws more t r Hrest Ht) as Hstop. suffixes Hc.
    eapply run_loop_next.
    + run. sub Wc. run. sub Wx. reflexivity.
    + rewrite !psize_at by clean_tac. len.
    + rewrite IHw; [now rewrite <- app_assoc|exact Hrest|clean_tac|len|exact Ht].
Qed.

Lemma branch_start ws wt x :
  map key wt = concat (map when_keys ws) -> ws <> [] ->
  exists t, nth 0 (wt ++ x)%list EOFToken = t /\ Type_ t = TokenWHEN.
Proof.
  intros Hk Hne. destruct ws as [|[c r] ws]; [easy|]. cbn in Hk.
  apply map_eq_cons in Hk as (t & ts' & -> & Hop & _). exists t. split; [reflexivity|now apply key_op].
Qed.

(** The branches, the ELSE and the END of a CASE. *)
Lemma read_branches (operand : option Expr) whens els m ts rest :
  Forall when_well_read whens -> (forall e, els = Some e -> well_read e) ->
  map key ts = (concat (map when_keys whens)
    ++ match els with Some e => op TokenELSE :: keys e | None => [] end ++ [op TokenEND])%list ->
  clean (ts ++ rest) = true -> length (ts ++ rest) <= m ->
  stops 0 (ts ++ rest) = true /\
  (whens <- loop (fun acc =>
      IF curTokenIs TokenWHEN THEN
        (nextToken ;;;
         cond <- parse_at (knot m) 0 ;;
         expect TokenTHEN "expected THEN" ;;;
         result <- parse_at (knot m) 0 ;;
         ret (inl (acc ++ [mkWhenClause cond result])%list))
      ELSE ret (inr acc)) [] ;;
   els <- optional (curTokenIs TokenELSE) (nextToken ;;; parse_at (knot m) 0) ;;
   expect TokenEND "expected END" ;;;
   ret (CaseExpr operand whens els)) (at_tokens (ts ++ rest))
  = Ok (CaseExpr operand whens els) (at_tokens rest).
Proof.
  intros Hw He Hk Hc Hm.
  destruct els as [x|]; [specialize (He x eq_refl)|]; cbn [app] in Hk; split_keys; suffixes Hc;
    match goal with H : map key ?a = concat _ |- _ => rename H into Hwk end.
  - split; [eapply branch_end; [exact Hwk|now left]|].
    eapply run_bind; [apply read_whens; [exact Hw|exact Hwk|clean_tac|len|now left]|].
    cbv beta. run. sub He. run. reflexivity.
  - split; [eapply branch_end; [exact Hwk|now right]|].
    eapply run_bind; [apply read_whens; [exact Hw|exact Hwk|clean_tac|len|now right]|].
    cbv beta. run. reflexivity.
Qed.

Lemma reads_case operand whens els :
  (forall e, operand = Some e -> canonical e = true /\ well_read e) ->
  (operand = None -> whens <> []) ->
  Forall when_well_read whens ->
  (forall e, els = Some e -> well_read e) ->
  reads (CaseExpr operand whens els) 10.
Proof.
  intros Ho Hne Hw He ts rest n Hk Hc Hn Hs. cbn [keys] in Hk.
  apply map_eq_cons in Hk as (ct & ts1 & -> & Hct & Hk). apply key_op in Hct.
  apply map_eq_app in Hk as (al & bl & -> & Ha & Hb). cbn [app] in *. rewrite <- app_assoc in *.
  suffixes Hc. cbn [parse_at]. unfold parsePrimaryExprBase, parseCaseExpr. fuel n Hn.
  assert (Hm : length (bl ++ rest) <= n) by len.
  destruct (read_branches operand whens els n bl rest Hw He Hb) as [Hstop Hrun]; [clean_tac|exact Hm|].
  run. fold_levels. destruct operand as [e|].
  - destruct (Ho e eq_refl) as [Ce We].
    destruct (known_head e al (bl ++ rest) Ce Ha) as (t & ts' & _ & Hst & Hd).
    apply (starts_mono 0) in Hst; [|lia]. run. sub We. run. exact Hrun.
  - apply map_eq_nil in Ha as ->. cbn [app] in *.
    assert (exists t, nth 0 (bl ++ rest)%list EOFToken = t /\ Type_ t = TokenWHEN) as (t & Hd & Ht).
    { apply map_eq_app in Hb as (wt & cl & -> & Hwk & _). rewrite <- app_assoc.
      eapply branch_start; [exact Hwk|now apply Hne]. }
    run. exact Hrun.
Qed.

End Cases.

(** ** The theorem *)

Lemma separated_length v l : In v l -> length (keys v) <= length (separated (map keys l)).
Proof.
  induction l as [|x l IH]; [easy|]. intros [->|H].
  - cbn [map separated]. destruct (map keys l); len.
  - specialize (IH H). cbn [map separated]. destruct l; [easy|]. cbn [map] in *. len.
Qed.

Lemma concat_length {A B} (f : A -> list B) x l : In x l -> length (f x) <= length (concat (map f l)).
Proof. induction l as [|y l IH]; [easy|]. intros [->|H]; cbn; [|specialize (IH H)]; len. Qed.

(** Every construct, from its parts. *)
Lemma well_read_at e k :
  canonical e = true -> level e = k -> (loops k -> opens e k) -> (~ loops k -> reads e k) -> well_read e.
Proof. intros Hc <-. now apply well_read_of_base. Qed.

Ltac not_loop := let H := fresh in intros H; exfalso; unfold loops in H; cbn in H; lia.

Lemma well_read_binary l o r :
  canonical (BinaryExpr l o r) = true -> well_read l -> well_read r -> well_read (BinaryExpr l o r).
Proof.
  intros Hc Wl Wr. destruct (canonical_binary _ _ _ Hc) as (k & Ho & Hl & Hr & Cl & Cr).
  apply well_read_at with k; [exact Hc|cbn [level]; now rewrite Ho|..]; destruct (Nat.eq_dec k 3) as [->|H3].
  - not_loop.
  - intros _. apply opens_binary; try assumption.
    apply Nat.eqb_neq in H3. now rewrite H3 in Hl.
  - intros _. now apply reads_comparison.
  - intros Hn. destruct (op_level_token k o Ho H3). contradiction.
Qed.

Lemma well_read_unary o e :
  canonical (UnaryExpr o e) = true -> well_read e -> well_read (UnaryExpr o e).
Proof.
  intros Hc We. pose proof Hc as Hc'. cbn [canonical] in Hc'. bools.
  apply well_read_at with (level (UnaryExpr o e)); [exact Hc|reflexivity|..].
  - cbn [level]. destruct (o =t TokenNOT); not_loop.
  - intros _. now apply reads_unary.
Qed.

Lemma canonical_well_read : forall N e, length (keys e) <= N -> canonical e = true -> well_read e.
Proof.
  induction N as [|N IH]; intros e Hlen Hc.
  { destruct (keys_head e Hc) as (t & r & E & _). rewrite E in Hlen. cbn in Hlen. lia. }
  assert (IHlist : forall l, forallb canonical l = true ->
    length (separated (map keys l)) <= N -> Forall well_read l).
  { intros l Hl HN. apply Forall_forall. intros v Hv. apply IH.
    - pose proof (separated_length v l Hv). lia.
    - rewrite forallb_forall in Hl. now apply Hl. }
  pose proof Hc as Hc'. destruct e; try discriminate Hc; cbn [keys canonical] in Hlen, Hc'.
  - apply canonical_binary in Hc' as (k & _ & _ & _ & Cl & Cr).
    apply well_read_binary; [exact Hc|..]; apply IH; try assumption; len.
  - bools. apply well_read_unary; [exact Hc|]. apply IH; [len|assumption].
  - apply well_read_at with 10; [exact Hc|reflexivity|not_loop|intros _; now apply reads_literal].
  - apply well_read_at with 10; [exact Hc|reflexivity|not_loop|intros _; now apply reads_column].
  - destruct Func as [name args distinct star]. bools.
    apply well_read_at with 10; [exact Hc|reflexivity|not_loop|intros _; apply reads_call; [exact Hc|]].
    destruct star; [destruct args; [constructor|easy]|]. apply IHlist; [assumption|].
    destruct distinct; cbn [keys_if] in Hlen; len.
  - bools. apply well_read_at with 10; [exact Hc|reflexivity|not_loop|intros _].
    apply reads_case.
    + intros x ->. split; [assumption|]. apply IH; [len|assumption].
    + intros ->. now destruct Whens.
    + apply Forall_forall. intros [c r] Hin.
      assert (Hle : length (op TokenWHEN :: keys c ++ op TokenTHEN :: keys r)%list
                    <= length (concat (map when_keys Whens)))
        by exact (concat_length when_keys _ Whens Hin).
      change (map _ Whens) with (map when_keys Whens) in Hlen.
      match goal with H : forallb _ Whens = true |- _ => rewrite forallb_forall in H; specialize (H _ Hin); cbv beta iota in H end.
      bools. split; apply IH; try assumption; len.
    + intros x ->. apply IH; [len|assumption].
  - bools. destruct Subquery; [easy|].
    apply well_read_at with 3; [exact Hc|reflexivity|not_loop|intros _].
    apply reads_in; try assumption; [apply IH; [len|assumption]|]. apply IHlist; [assumption|len].
  - bools. apply well_read_at with 3; [exact Hc|reflexivity|not_loop|intros _].
    apply reads_between; try assumption; apply IH; try assumption; len.
  - bools. apply well_read_at with 3; [exact Hc|reflexivity|not_loop|intros _].
    apply reads_like; try assumption; [apply IH; [len|assumption]..|].
    intros x ->. bools. split; [assumption|]. apply IH; [len|assumption].
  - bools. apply well_read_at with 3; [exact Hc|reflexivity|not_loop|intros _].
    apply reads_is; [assumption|]. apply IH; [len|assumption].
  - bools. apply well_read_at with 3; [exact Hc|reflexivity|not_loop|intros _].
    apply reads_distinct; try assumption; apply IH; try assumption; len.
  - bools. apply well_read_at with 9; [exact Hc|reflexivity|intros _|].
    + apply opens_subscript; try assumption; apply IH; try assumption; len.
    + intros H9. contradict H9. unfold loops. cbn. tauto.
  - apply well_read_at with 10; [exact Hc|reflexivity|not_loop|intros _].
    apply reads_paren; [assumption|]. apply IH; [len|assumption].
Qed.

(** C3: parsing reverses unparsing.  In front of any tokens that do not continue an expression,
    and wherever its tokens stand in the source, the parser reads a canonical expression back from
    the tokens [keys] writes it with, and stops at the token after it.  So every operator has the
    precedence [level] gives it, binary operators associate to the left, comparisons, BETWEEN, LIKE,
    IN and IS do not associate, and parentheses are kept. *)
Theorem parse_canonical (e : Expr) (ts rest : list Token) :
  canonical e = true ->
  map key ts = keys e ->
  clean (ts ++ rest) = true ->
  stops 0 rest = true ->
  parseExpr (newParser (ts ++ rest)%list) = Ok e (newParser rest).
Proof.
  intros Hc Hk Hclean Hs.
  rewrite (newParser_at _ Hclean), (newParser_at _ (clean_suffix _ _ Hclean)).
  unfold parseExpr, close. change (parseExprBody ?r) with (parse_at r 0).
  refine (proj1 (canonical_well_read (length (keys e)) e _ Hc 0 _) ts rest _ Hk Hclean _ Hs); [lia..|].
  now rewrite psize_at.
Qed.

(** [NOT a = b AND c - d - e * f < - g OR h IN (1, x)] with [THEN] behind it. *)
Lemma parse_canonical_witness :
  let c s := ColumnRef EmptyString s in
  let e := BinaryExpr
    (BinaryExpr
       (UnaryExpr TokenNOT (BinaryExpr (c "a") TokenEq (c "b")))
       TokenAND
       (BinaryExpr
          (BinaryExpr (BinaryExpr (c "c") TokenMinus (c "d")) TokenMinus
             (BinaryExpr (c "e") TokenStar (c "f")))
          TokenLt (UnaryExpr TokenMinus (c "g"))))
    TokenOR
    (InExpr (c "h") false [LiteralExpr TokenNumber "1"; c "x"] None) in
  let ts := map (fun k => mkToken (fst k) (snd k) 1 1 false) (keys e) in
  let rest := [mkToken TokenTHEN "then" 1 1 false] in
  canonical e = true /\ parseExpr (newParser (ts ++ rest)%list) = Ok e (newParser rest).
Proof.
  split; [reflexivity|]. apply parse_canonical; reflexivity.
Defined.
