(* ===== verification/SetOps.v ===== *)
(** * Set operations

    The precedence climbing of [parseCompoundChain] against a reference: INTERSECT chains are
    folded to the left first, UNION and EXCEPT then fold the chains to the left. *)
From Stdlib Require Import Ascii String List Bool Arith NArith ZArith Lia.
From S2P Require Import Prelude Token Ast ParserMonad Grammar GrammarFacts Unparse RoundTrip.
Import ListNotations.
Open Scope string_scope.
Open Scope go_scope.
Open Scope parser_scope.

(** ** The reference *)

Definition node (l : SelectStmt) (o : SetOpType) (r : SelectStmt) : SelectStmt :=
  compoundOnly (mkCompoundSelect l o r [] None None).

Definition is_intersect (o : SetOpType) : bool := match o with SetOpIntersect => true | _ => false end.

(** [left INTERSECT t1 INTERSECT t2 ...], and the rest of the chain. *)
Fixpoint intersect_run (left : SelectStmt) (chain : list (SetOpType * SelectStmt))
    : SelectStmt * list (SetOpType * SelectStmt) :=
  match chain with
  | (o, t) :: r => if is_intersect o then intersect_run (node left o t) r else (left, chain)
  | [] => (left, [])
  end.

(** A chain of UNION and EXCEPT over INTERSECT chains; [n] bounds its length. *)
Fixpoint union_run (n : nat) (left : SelectStmt) (chain : list (SetOpType * SelectStmt)) : SelectStmt :=
  match n, chain with
  | S k, (o, t) :: r => let (t', r') := intersect_run t r in union_run k (node left o t') r'
  | _, _ => left
  end.

Definition set_tree (first : SelectStmt) (chain : list (SetOpType * SelectStmt)) : SelectStmt :=
  let (l, r) := intersect_run first chain in union_run (length r) l r.

Lemma intersect_run_length left chain : length (snd (intersect_run left chain)) <= length chain.
Proof.
  revert left. induction chain as [|[o t] r IH]; intros left; cbn; [lia|].
  destruct (is_intersect o); cbn; [|lia]. specialize (IH (node left o t)). lia.
Qed.

(** The chain left by [intersect_run] does not start with INTERSECT. *)
Lemma intersect_run_head left chain l' :
  intersect_run l' (snd (intersect_run left chain)) = (l', snd (intersect_run left chain)).
Proof.
  revert left. induction chain as [|[o t] r IH]; intros left; [reflexivity|].
  cbn [intersect_run]. destruct (is_intersect o) eqn:E; [apply IH|]. cbn. now rewrite E.
Qed.

Lemma union_run_fuel n m left chain :
  length chain <= n -> length chain <= m -> union_run n left chain = union_run m left chain.
Proof.
  revert m left chain. induction n; intros m left [|[o t] r] Hn Hm; cbn [length] in *; try lia.
  - now destruct m.
  - now destruct m.
  - destruct m; [lia|]. cbn [union_run]. pose proof (intersect_run_length t r) as H.
    destruct (intersect_run t r) as [t' r']. cbn in H. apply IHn; lia.
Qed.

Lemma set_tree_intersect left o t r :
  is_intersect o = true -> set_tree left ((o, t) :: r) = set_tree (node left o t) r.
Proof. intros H. unfold set_tree. cbn [intersect_run]. now rewrite H. Qed.

Lemma set_tree_union left o t r :
  is_intersect o = false ->
  set_tree left ((o, t) :: r) =
    let (t', r') := intersect_run t r in set_tree (node left o t') r'.
Proof.
  intros H. unfold set_tree. cbn [intersect_run]. rewrite H. cbn [length union_run].
  pose proof (intersect_run_length t r) as Hl. pose proof (intersect_run_head t r) as Hh.
  destruct (intersect_run t r) as [t' r']. cbn [snd] in *. rewrite Hh. apply union_run_fuel; lia.
Qed.

(** A chain with a set operator gives a compound. *)
Lemma intersect_run_compound left chain c :
  sel_Compound left = Some c -> exists c', sel_Compound (fst (intersect_run left chain)) = Some c'.
Proof.
  revert left c. induction chain as [|[o t] r IH]; intros left c H; [now exists c|].
  cbn [intersect_run]. destruct (is_intersect o); [|now exists c]. eapply IH. reflexivity.
Qed.

Lemma intersect_run_node left chain c :
  sel_Compound (fst (intersect_run left chain)) = Some c -> sel_Compound left = None ->
  fst (intersect_run left chain) = compoundOnly c.
Proof.
  intros H Hl.
  assert (G : forall ch l, l = left \/ (exists d, l = compoundOnly d) ->
    fst (intersect_run l ch) = left \/ exists d, fst (intersect_run l ch) = compoundOnly d).
  { induction ch as [|[o t] r IH]; intros l HH; [exact HH|]. cbn [intersect_run].
    destruct (is_intersect o); [|exact HH]. apply IH. right. eexists. reflexivity. }
  destruct (G chain left (or_introl eq_refl)) as [E|[d E]]; rewrite E in *.
  - congruence.
  - cbn in H. injection H as ->. reflexivity.
Qed.

(** ** The tokens of a chain *)

(** A term [SELECT e] for an expression that is not a qualified star. *)
Definition simple_select (e : Expr) : SelectStmt :=
  mkSelectStmt false [mkSelectColumn (Some e) EmptyString false EmptyString] [] None [] None [] None None
    None [] None.

Definition simple_term (e : Expr) : bool :=
  canonical e && match e with
                 | ColumnRef table column => (table =s EmptyString) || negb (column =s "*")
                 | _ => true
                 end.

Definition set_op_keys (o : SetOpType) : list (TokenType * string) :=
  match o with
  | SetOpUnion => [op TokenUNION]
  | SetOpUnionAll => [op TokenUNION; op TokenALL]
  | SetOpIntersect => [op TokenINTERSECT]
  | SetOpExcept => [op TokenEXCEPT]
  end.

Definition term_keys (e : Expr) : list (TokenType * string) := op TokenSELECT :: keys e.

Fixpoint chain_keys (chain : list (SetOpType * Expr)) : list (TokenType * string) :=
  match chain with
  | [] => []
  | (o, e) :: r => (set_op_keys o ++ term_keys e ++ chain_keys r)%list
  end.

Definition terms (chain : list (SetOpType * Expr)) : list (SetOpType * SelectStmt) :=
  map (fun x => (fst x, simple_select (snd x))) chain.

(** What may follow a query: the end, a closing parenthesis, a semicolon. *)
Definition query_end (k : TokenType * string) : bool := token_in (fst k) [TokenEOF; TokenRParen; TokenSemicolon].

(** What may follow a term of a chain. *)
Definition term_end (k : TokenType * string) : bool :=
  token_in (fst k) [TokenEOF; TokenRParen; TokenSemicolon; TokenUNION; TokenINTERSECT; TokenEXCEPT].

Definition hd_key (l : list Token) : TokenType * string := key (nth 0 l EOFToken).

Lemma term_end_stops l : term_end (hd_key l) = true -> stops 0 l = true.
Proof.
  unfold stops, hd_key, term_end. destruct (key _) as [t s]. cbn [fst].
  intros H. apply token_in_In in H. cbn in H. decompose [or] H; subst; try reflexivity. contradiction.
Qed.

Lemma query_term_end l : query_end (hd_key l) = true -> term_end (hd_key l) = true.
Proof.
  unfold query_end, term_end, hd_key. destruct (key _) as [t s]. cbn [fst].
  intros H. apply token_in_In in H. cbn in H. decompose [or] H; subst; try reflexivity. contradiction.
Qed.

(** ** Running the parser on a chain *)

Lemma run_single {A} (item : P (L := list Token) A) p a rest :
  item p = Ok a (at_tokens rest) -> term_end (hd_key rest) = true ->
  commaList item p = Ok [a] (at_tokens rest).
Proof.
  intros H He. unfold hd_key in He. unfold commaList. apply run_loop_done.
  eapply run_bind; [exact H|]. cbv beta. run. reflexivity.
Qed.

Lemma read_column e ts rest n :
  simple_term e = true -> map key ts = keys e -> clean (ts ++ rest) = true ->
  length (ts ++ rest) <= n -> term_end (hd_key rest) = true ->
  parseSelectColumn (knot n) (at_tokens (ts ++ rest)) =
    Ok (mkSelectColumn (Some e) EmptyString false EmptyString) (at_tokens rest).
Proof.
  intros Hs Hk Hc Hn He. apply andb_prop in Hs as [Ce Hstar].
  destruct (known_head e ts rest Ce Hk) as (t & ts' & _ & Hst & Hd).
  apply (starts_mono 0) in Hst; [|lia]. unfold parseSelectColumn. run.
  change (parseExprBody (knot n)) with (parse_at (knot n) 0).
  eapply run_bind.
  { refine (proj1 (canonical_well_read (length (keys e)) e _ Ce 0 _) ts rest _ Hk Hc Hn _); [lia..|].
    now apply term_end_stops. }
  unfold hd_key in He. cbv beta zeta.
  destruct e; try discriminate Ce; try (run; reflexivity). cbn [canonical] in *.
  destruct (Table =s EmptyString); cbn [orb negb andb] in *; [run; reflexivity|].
  apply negb_true_iff in Hstar. rewrite Hstar. run. reflexivity.
Qed.

Lemma read_term e ts rest n :
  simple_term e = true -> map key ts = term_keys e -> clean (ts ++ rest) = true ->
  length (ts ++ rest) <= n -> term_end (hd_key rest) = true ->
  parseSingleSelectTerm (knot n) (at_tokens (ts ++ rest)) = Ok (simple_select e) (at_tokens rest).
Proof.
  intros Hs Hk Hc Hn He. apply map_eq_cons in Hk as (st & al & -> & Hsel & Ha). apply key_op in Hsel.
  cbn [app] in *. suffixes Hc. unfold parseSingleSelectTerm, parseSelectColumns.
  pose proof Hs as Hs'. apply andb_prop in Hs' as [Ce _].
  destruct (known_head e al rest Ce Ha) as (t & ts' & _ & Hst & Hd).
  apply (starts_mono 0) in Hst; [|lia]. run.
  eapply run_bind; [apply run_single; [apply read_column; [exact Hs|exact Ha|clean_tac|len|exact He]|exact He]|].
  cbv beta. unfold hd_key in He. run. reflexivity.
Qed.

Definition climb_body (R : recs (L := list Token)) (k minPrec : nat) (left : SelectStmt)
    : P (SelectStmt + SelectStmt) :=
  IF (fun p => isSetOp p && (minPrec <=? curPrec p)%nat) THEN
    (op <- consumeOp ;;
     right <- parseSingleSelect R ;;
     right <- (match sel_Compound right with
               | Some _ => ret right
               | None =>
                   IF (fun p => isSetOp p && (snd op <? curPrec p)%nat) THEN
                     (sub <- climb_n R k right (S (snd op)) ;; ret (compoundOnly sub))
                   ELSE ret right
               end) ;;
     ret (inl (compoundOnly (mkCompoundSelect left (fst op) right [] None None))))
  ELSE ret (inr left).

Lemma climb_n_S R k left minPrec :
  climb_n R (S k) left minPrec =
    (left <- loop (climb_body R k minPrec) left ;;
     match sel_Compound left with
     | Some c => ret c
     | None => curError "internal: no compound built"
     end).
Proof. reflexivity. Qed.

(** A set operator is consumed with its precedence. *)
Lemma consume_op o ts rest sel :
  map key ts = set_op_keys o -> clean (ts ++ sel :: rest) = true -> Type_ sel = TokenSELECT ->
  consumeOp (at_tokens (ts ++ sel :: rest)) =
    Ok (o, if is_intersect o then 2 else 1) (at_tokens (sel :: rest)).
Proof.
  intros Hk Hc Hsel. unfold consumeOp.
  destruct o; cbn [set_op_keys] in Hk; split_keys; suffixes Hc; run; reflexivity.
Qed.

(** The head of a chain's tokens: a set operator of a precedence. *)
Lemma op_head o ts rest :
  map key ts = set_op_keys o ->
  exists t, nth 0 (ts ++ rest)%list EOFToken = t /\
    Type_ t = match o with
              | SetOpUnion | SetOpUnionAll => TokenUNION
              | SetOpIntersect => TokenINTERSECT
              | SetOpExcept => TokenEXCEPT
              end.
Proof.
  destruct o; cbn [set_op_keys]; intros H; split_keys; (eexists; split; [reflexivity|assumption]).
Qed.

Lemma chain_head chain ts rest :
  map key ts = chain_keys chain -> query_end (hd_key rest) = true ->
  term_end (hd_key (ts ++ rest)) = true.
Proof.
  intros Hk He. destruct chain as [|[o e] r]; cbn [chain_keys] in Hk.
  - apply map_eq_nil in Hk as ->. now apply query_term_end.
  - apply map_eq_app in Hk as (a & b & -> & Ha & _). rewrite <- app_assoc.
    destruct (op_head o a (b ++ rest) Ha) as (t & Hd & Ht). unfold hd_key. rewrite Hd.
    unfold term_end, key. cbn [fst]. rewrite Ht. now destruct o.
Qed.

Section Climb.
Variable n : nat.
Abbreviation R := (knot (L := list Token) n).

(** Reading [op SELECT e] at the head of a chain. *)
Lemma chain_step o e r ts rest :
  simple_term e = true -> map key ts = chain_keys ((o, e) :: r) -> clean (ts ++ rest) = true ->
  length (ts ++ rest) <= n -> query_end (hd_key rest) = true ->
  exists ts' p', map key ts' = chain_keys r /\ clean (ts' ++ rest) = true /\
    length ts' < length ts /\
    consumeOp (at_tokens (ts ++ rest)) = Ok (o, if is_intersect o then 2 else 1) p' /\
    parseSingleSelect R p' = Ok (simple_select e) (at_tokens (ts' ++ rest)).
Proof.
  intros Hs Hk Hc Hn He. cbn [chain_keys] in Hk.
  apply map_eq_app in Hk as (ot & b & -> & Ho & Hb). apply map_eq_app in Hb as (et & ts' & -> & Het & Hr).
  rewrite <- !app_assoc in *. exists ts'.
  pose proof Het as Hsel. apply map_eq_cons in Hsel as (sel & al & -> & Hsel & _). apply key_op in Hsel.
  cbn [app] in *. exists (at_tokens (sel :: al ++ ts' ++ rest)). suffixes Hc.
  split; [exact Hr|]. split; [clean_tac|]. split; [clear; len|].
  split; [now apply consume_op|]. unfold parseSingleSelect. rewrite run_if_true by cond.
  apply (read_term e (sel :: al) (ts' ++ rest) n Hs Het); [clean_tac|len|]. now apply (chain_head r).
Qed.

(** The condition of the loop. *)
Lemma at_op o e r ts rest minPrec :
  map key ts = chain_keys ((o, e) :: r) ->
  isSetOp (at_tokens (ts ++ rest)) && (minPrec <=? curPrec (at_tokens (ts ++ rest)))%nat
  = (minPrec <=? if is_intersect o then 2 else 1)%nat.
Proof.
  intros Hk. cbn [chain_keys] in Hk. apply map_eq_app in Hk as (ot & b & -> & Ho & _).
  rewrite <- app_assoc. destruct (op_head o ot (b ++ rest) Ho) as (t & Hd & Ht).
  unfold isSetOp, curPrec, setOpPrec, curTokenIn. cbn [curToken at_tokens]. rewrite Hd, Ht.
  now destruct o.
Qed.

Lemma at_end rest minPrec :
  query_end (hd_key rest) = true ->
  isSetOp (at_tokens rest) && (minPrec <=? curPrec (at_tokens rest))%nat = false.
Proof.
  intros He. unfold hd_key in He. unfold isSetOp, curTokenIn, token_in.
  cbn [curToken at_tokens existsb]. repeat known. reflexivity.
Qed.

(** The tokens of the part of a chain that a run of INTERSECT leaves. *)
Definition left_over (chain : list (SetOpType * Expr)) : list (SetOpType * Expr) :=
  (fix go chain := match chain with
   | (o, e) :: r => if is_intersect o then go r else chain
   | [] => []
   end) chain.

Lemma left_over_terms left chain :
  snd (intersect_run left (terms chain)) = terms (left_over chain).
Proof.
  revert left. induction chain as [|[o e] r IH]; intros left; [reflexivity|].
  cbn. destruct (is_intersect o); [apply IH|reflexivity].
Qed.

Lemma left_over_length chain : length (left_over chain) <= length chain.
Proof.
  induction chain as [|[o e] r IH]; [reflexivity|]. cbn. destruct (is_intersect o); [|reflexivity].
  fold (left_over r). lia.
Qed.

Lemma left_over_simple chain :
  forallb simple_term (map snd chain) = true -> forallb simple_term (map snd (left_over chain)) = true.
Proof.
  induction chain as [|[o e] r IH]; [easy|]. cbn. intros H. pose proof H as H'.
  apply andb_prop in H' as [_ Hr]. destruct (is_intersect o); [now apply IH|exact H].
Qed.

(** One round of the loop at INTERSECT. *)
Lemma body_intersect k minPrec left o e r ts rest :
  minPrec <= 2 -> is_intersect o = true -> simple_term e = true ->
  map key ts = chain_keys ((o, e) :: r) -> clean (ts ++ rest) = true -> length (ts ++ rest) <= n ->
  query_end (hd_key rest) = true ->
  exists ts', map key ts' = chain_keys r /\ clean (ts' ++ rest) = true /\ length ts' < length ts /\
    climb_body R k minPrec left (at_tokens (ts ++ rest)) =
      Ok (inl (node left o (simple_select e))) (at_tokens (ts' ++ rest)).
Proof.
  intros Hm Ho Hs Hk Hc Hn He.
  destruct (chain_step o e r ts rest) as (ts' & p' & Hk' & Hc' & Hl' & Hop & Hright); try assumption.
  exists ts'. repeat split; try assumption. rewrite Ho in Hop. unfold climb_body.
  rewrite run_if_true by (rewrite (at_op o e r) by assumption; rewrite Ho; now apply Nat.leb_le).
  eapply run_bind; [exact Hop|]. cbv beta. eapply run_bind; [exact Hright|].
  cbv beta. cbn [sel_Compound simple_select snd fst]. rewrite run_bind_if_false; [reflexivity|].
  destruct r as [|[o' e'] r'].
  - apply map_eq_nil in Hk' as ->. now apply (at_end rest 3).
  - refine (eq_trans (at_op o' e' r' ts' rest 3 Hk') _). now destruct (is_intersect o').
Qed.

(** At the precedence of INTERSECT the loop reads a run of INTERSECT. *)
Lemma climb_intersect k chain : forall left ts rest,
  forallb simple_term (map snd chain) = true ->
  map key ts = chain_keys chain -> clean (ts ++ rest) = true -> length (ts ++ rest) <= n ->
  query_end (hd_key rest) = true ->
  exists ts', map key ts' = chain_keys (left_over chain) /\ clean (ts' ++ rest) = true /\
    length ts' <= length ts /\
    loop (climb_body R k 2) left (at_tokens (ts ++ rest)) =
      Ok (fst (intersect_run left (terms chain))) (at_tokens (ts' ++ rest)).
Proof.
  induction chain as [|[o e] r IH]; intros left ts rest Hs Hk Hc Hn He.
  - exists []. apply map_eq_nil in Hk as ->. cbn [app] in *. repeat split; try assumption; [reflexivity..|].
    apply run_loop_done. unfold climb_body. rewrite run_if_false by now apply at_end. reflexivity.
  - cbn [map forallb snd] in Hs. apply andb_prop in Hs as [Hse Hsr].
    cbn [left_over terms map fst snd intersect_run]. destruct (is_intersect o) eqn:Ho.
    + destruct (body_intersect k 2 left o e r ts rest) as (ts1 & Hk1 & Hc1 & Hl1 & Hbody); try assumption; [lia|].
      destruct (IH (node left o (simple_select e)) ts1 rest) as (ts' & Hk' & Hc' & Hl' & Hloop);
        try assumption; [len|].
      exists ts'. repeat split; try assumption; [lia|].
      eapply run_loop_next; [exact Hbody| |exact Hloop]. rewrite !psize_at by assumption. len.
    + exists ts. repeat split; try assumption; [lia|]. apply run_loop_done. unfold climb_body.
      rewrite run_if_false by (rewrite (at_op o e r) by assumption; now rewrite Ho). reflexivity.
Qed.

(** Whether a chain goes on with INTERSECT. *)
Definition goes_on (chain : list (SetOpType * Expr)) : bool :=
  match chain with (o, _) :: _ => is_intersect o | [] => false end.

Lemma at_chain chain ts rest :
  map key ts = chain_keys chain -> query_end (hd_key rest) = true ->
  isSetOp (at_tokens (ts ++ rest)) && (2 <=? curPrec (at_tokens (ts ++ rest)))%nat = goes_on chain.
Proof.
  intros Hk He. destruct chain as [|[o e] r].
  - apply map_eq_nil in Hk as ->. now apply at_end.
  - rewrite (at_op o e r) by assumption. cbn. now destruct (is_intersect o).
Qed.

(** The term of a UNION or EXCEPT takes the INTERSECT behind it. *)
Lemma run_sub k e r ts rest :
  forallb simple_term (map snd r) = true ->
  map key ts = chain_keys r -> clean (ts ++ rest) = true -> length (ts ++ rest) <= n ->
  query_end (hd_key rest) = true ->
  exists ts', map key ts' = chain_keys (left_over r) /\ clean (ts' ++ rest) = true /\
    length ts' <= length ts /\
    ifP (fun p => isSetOp p && (2 <=? curPrec p)%nat)
      (sub <- climb_n R (S k) (simple_select e) 2 ;; ret (compoundOnly sub))
      (ret (simple_select e)) (at_tokens (ts ++ rest)) =
      Ok (fst (intersect_run (simple_select e) (terms r))) (at_tokens (ts' ++ rest)).
Proof.
  intros Hs Hk Hc Hn He. pose proof (at_chain r ts rest Hk He) as Hcond.
  destruct (goes_on r) eqn:Hg.
  - destruct (climb_intersect k r (simple_select e) ts rest) as (ts' & Hk' & Hc' & Hl' & Hloop);
      try assumption.
    exists ts'. repeat split; try assumption. rewrite run_if_true by exact Hcond.
    rewrite climb_n_S, run_bind_bind. eapply run_bind; [exact Hloop|]. cbv beta.
    assert (exists c, sel_Compound (fst (intersect_run (simple_select e) (terms r))) = Some c) as [c Hcomp].
    { destruct r as [|[o' e'] r']; [discriminate Hg|]. cbn in Hg |- *. rewrite Hg.
      eapply intersect_run_compound. reflexivity. }
    rewrite Hcomp, run_bind_ret.
    now rewrite (intersect_run_node (simple_select e) (terms r) c Hcomp eq_refl).
  - exists ts. assert (left_over r = r /\ fst (intersect_run (simple_select e) (terms r)) = simple_select e)
      as [-> ->].
    { destruct r as [|[o' e'] r']; [easy|]. cbn in Hg |- *. now rewrite Hg. }
    repeat split; try assumption; [lia|]. rewrite run_if_false by exact Hcond. reflexivity.
Qed.

(** One round of the loop at UNION or EXCEPT. *)
Lemma body_union k left o e r ts rest :
  is_intersect o = false -> forallb simple_term (map snd ((o, e) :: r)) = true ->
  map key ts = chain_keys ((o, e) :: r) -> clean (ts ++ rest) = true -> length (ts ++ rest) <= n ->
  query_end (hd_key rest) = true ->
  exists ts', map key ts' = chain_keys (left_over r) /\ clean (ts' ++ rest) = true /\
    length ts' < length ts /\
    climb_body R (S k) 1 left (at_tokens (ts ++ rest)) =
      Ok (inl (node left o (fst (intersect_run (simple_select e) (terms r))))) (at_tokens (ts' ++ rest)).
Proof.
  intros Ho Hs Hk Hc Hn He. cbn [map forallb snd] in Hs. apply andb_prop in Hs as [Hse Hsr].
  destruct (chain_step o e r ts rest) as (ts1 & p' & Hk1 & Hc1 & Hl1 & Hop & Hright); try assumption.
  destruct (run_sub k e r ts1 rest) as (ts' & Hk' & Hc' & Hl' & Hsub); try assumption; [len|].
  exists ts'. repeat split; try assumption; [lia|]. rewrite Ho in Hop. unfold climb_body.
  rewrite run_if_true by (rewrite (at_op o e r) by assumption; now rewrite Ho).
  eapply run_bind; [exact Hop|]. cbv beta. eapply run_bind; [exact Hright|].
  cbv beta. cbn [sel_Compound simple_select snd fst]. eapply run_bind; [exact Hsub|]. reflexivity.
Qed.

(** At the lowest precedence the loop reads the whole chain. *)
Lemma climb_union k m : forall chain left ts rest, length chain <= m ->
  forallb simple_term (map snd chain) = true ->
  map key ts = chain_keys chain -> clean (ts ++ rest) = true -> length (ts ++ rest) <= n ->
  query_end (hd_key rest) = true ->
  loop (climb_body R (S k) 1) left (at_tokens (ts ++ rest)) =
    Ok (set_tree left (terms chain)) (at_tokens rest).
Proof.
  induction m as [|m IH]; intros [|[o e] r] left ts rest Hm Hs Hk Hc Hn He; cbn [length] in Hm; try lia.
  1,2: apply map_eq_nil in Hk as ->; cbn [app] in *; apply run_loop_done; unfold climb_body;
    rewrite run_if_false by (now apply at_end); reflexivity.
  cbn [terms map fst snd]. fold (terms r). destruct (is_intersect o) eqn:Ho.
  - pose proof Hs as Hs'. cbn [map forallb snd] in Hs'. apply andb_prop in Hs' as [Hse Hsr].
    destruct (body_intersect (S k) 1 left o e r ts rest) as (ts' & Hk' & Hc' & Hl' & Hbody);
      try assumption; [lia|].
    rewrite set_tree_intersect by exact Ho.
    eapply run_loop_next; [exact Hbody|rewrite !psize_at by assumption; len|].
    apply IH; try assumption; [lia|len].
  - destruct (body_union k left o e r ts rest) as (ts' & Hk' & Hc' & Hl' & Hbody); try assumption.
    pose proof (left_over_length r) as Hlen. pose proof (left_over_terms (simple_select e) r) as Hterms.
    rewrite set_tree_union by exact Ho.
    destruct (intersect_run (simple_select e) (terms r)) as [t' r']. cbn [snd fst] in *. subst r'.
    eapply run_loop_next; [exact Hbody|rewrite !psize_at by assumption; len|].
    apply IH; try assumption; [lia| |len]. apply left_over_simple.
    cbn [map forallb snd] in Hs. now apply andb_prop in Hs as [_ Hs].
Qed.
End Climb.

Lemma set_tree_compound left o t r : exists c, set_tree left ((o, t) :: r) = compoundOnly c.
Proof.
  assert (U : forall n l chain, (exists c, l = compoundOnly c) -> exists c, union_run n l chain = compoundOnly c).
  { induction n; intros l [|[o' t'] r'] H; cbn [union_run]; try exact H.
    destruct (intersect_run t' r'). apply IHn. eexists. reflexivity. }
  assert (I : forall chain l, (exists c, l = compoundOnly c) -> exists c, fst (intersect_run l chain) = compoundOnly c).
  { induction chain as [|[o' t'] r' IH]; intros l H; [exact H|]. cbn [intersect_run].
    destruct (is_intersect o'); [|exact H]. apply IH. eexists. reflexivity. }
  destruct (is_intersect o) eqn:Ho.
  - rewrite set_tree_intersect by exact Ho. unfold set_tree.
    specialize (I r (node left o t) (ex_intro _ _ eq_refl)). destruct (intersect_run _ r) as [l' r'].
    now apply U.
  - rewrite set_tree_union by exact Ho. destruct (intersect_run t r) as [t' r']. unfold set_tree.
    specialize (I r' (node left o t') (ex_intro _ _ eq_refl)). destruct (intersect_run _ r') as [l2 r2].
    now apply U.
Qed.

(** C20: a chain of set operations over terms [SELECT e] is parsed to the tree in which INTERSECT
    binds tighter than UNION, UNION ALL and EXCEPT, and operators of one precedence associate to the
    left, for every length of the chain and wherever it ends. *)
Theorem parse_set_operations (first : Expr) (o : SetOpType) (e : Expr)
    (chain : list (SetOpType * Expr)) (ts rest : list Token) :
  forallb simple_term (first :: e :: map snd chain) = true ->
  map key ts = (term_keys first ++ chain_keys ((o, e) :: chain))%list ->
  clean (ts ++ rest) = true ->
  query_end (hd_key rest) = true ->
  parseSelect (newParser (ts ++ rest)%list) =
    Ok (set_tree (simple_select first) (terms ((o, e) :: chain))) (newParser rest).
Proof.
  intros Hs Hk Hc He. cbn [forallb] in Hs. apply andb_prop in Hs as [Hf Hs].
  rewrite (newParser_at _ Hc), (newParser_at _ (clean_suffix _ _ Hc)).
  apply map_eq_app in Hk as (ft & ct & -> & Hft & Hct). rewrite <- app_assoc in *.
  unfold parseSelect, close. rewrite psize_at by exact Hc.
  set (n := length (ft ++ ct ++ rest)%list). unfold parseSelectBody, parseCompoundChain, climb.
  eapply run_bind.
  { apply (read_term first ft (ct ++ rest) n Hf Hft Hc); [lia|]. now apply (chain_head ((o, e) :: chain)). }
  cbv beta. pose proof (clean_suffix _ _ Hc) as Hc2.
  assert (Hn : length (ct ++ rest) <= n) by (unfold n; len).
  rewrite run_if_true.
  2:{ pose proof (at_op o e chain ct rest 0 Hct) as H. apply andb_prop in H as [H _]. exact H. }
  destruct (set_tree_compound (simple_select first) o (simple_select e) (terms chain)) as [c Hcomp].
  rewrite run_bind_bind. eapply run_bind.
  { rewrite psize_at by exact Hc2. destruct (length (ct ++ rest)) as [|k] eqn:El.
    { exfalso. destruct ct; [destruct o; discriminate Hct|discriminate El]. }
    rewrite climb_n_S. eapply run_bind.
    { apply (climb_union n k (length ((o, e) :: chain))); [reflexivity|exact Hs|exact Hct|exact Hc2| |exact He].
      now rewrite El. }
    cbv beta. cbn [terms map fst snd]. fold (terms chain). rewrite Hcomp. reflexivity. }
  cbv beta. unfold hd_key in He. unfold parseTail, isLockingClauseStart, optional. run.
  cbn [terms map fst snd]. fold (terms chain). rewrite Hcomp. now destruct c.
Qed.

(** [SELECT a UNION SELECT b INTERSECT SELECT c EXCEPT SELECT d] before a closing parenthesis. *)
Lemma parse_set_operations_witness :
  let c s := ColumnRef EmptyString s in
  let chain := [(SetOpIntersect, c "c"); (SetOpExcept, c "d")] in
  let ts := map (fun k => mkToken (fst k) (snd k) 1 1 false)
              (term_keys (c "a") ++ chain_keys ((SetOpUnion, c "b") :: chain))%list in
  let rest := [mkToken TokenRParen ")" 1 1 false] in
  parseSelect (newParser (ts ++ rest)%list) =
    Ok (node (node (simple_select (c "a")) SetOpUnion
               (node (simple_select (c "b")) SetOpIntersect (simple_select (c "c"))))
             SetOpExcept (simple_select (c "d")))
       (newParser rest).
Proof.
  apply (parse_set_operations (ColumnRef EmptyString "a") SetOpUnion (ColumnRef EmptyString "b")
           [(SetOpIntersect, ColumnRef EmptyString "c"); (SetOpExcept, ColumnRef EmptyString "d")]);
    reflexivity.
Defined.
