(* ===== verification/Bytes.v ===== *)
(** * Byte slices

    Go's byte slices as lists of bytes, fixed-width little-endian integers (encoding/binary), and
    the outcome of code that can fail or panic: a slice or an index out of range stops a Go
    program, so the slice operations of the model return [Panic] there. *)
From Stdlib Require Import NArith ZArith Lia Strings.Ascii Strings.String.
From Stdlib Require Strings.Byte.
From stdpp Require Import base option list list_numbers strings.
From S2P Require Import Prelude.

Abbreviation byte := Byte.byte.

#[export] Instance byte_eq_dec : EqDecision byte := Byte.byte_eq_dec.

Definition byte_of_N (n : N) : byte :=
  match Byte.of_N (n mod 256) with Some b => b | None => Byte.x00 end.

Lemma to_N_byte_of_N (n : N) : Byte.to_N (byte_of_N n) = (n mod 256)%N.
Proof.
  unfold byte_of_N. destruct (Byte.of_N (n mod 256)) as [b|] eqn:E.
  - now apply Byte.to_of_N.
  - apply Byte.of_N_None_iff in E. pose proof (N.mod_lt n 256). lia.
Qed.

Lemma byte_of_N_to_N (b : byte) : byte_of_N (Byte.to_N b) = b.
Proof.
  unfold byte_of_N. pose proof (Byte.to_N_bounded b).
  rewrite N.mod_small by lia. now rewrite Byte.of_to_N.
Qed.

(** ** Little-endian integers *)

Fixpoint le_encode (n : nat) (v : N) : list byte :=
  match n with
  | O => []
  | S k => byte_of_N v :: le_encode k (v / 256)
  end.

Fixpoint le_decode (l : list byte) : N :=
  match l with
  | [] => 0
  | b :: r => Byte.to_N b + 256 * le_decode r
  end.

Lemma le_encode_length (n : nat) (v : N) : length (le_encode n v) = n.
Proof. revert v; induction n; intros v; simpl; auto. Qed.

Lemma le_decode_encode (n : nat) (v : N) : le_decode (le_encode n v) = (v mod 256 ^ N.of_nat n)%N.
Proof.
  revert v; induction n as [|n IH]; intros v; cbn [le_encode le_decode].
  - now rewrite N.mod_1_r.
  - rewrite IH, to_N_byte_of_N. rewrite Nat2N.inj_succ, N.pow_succ_r by lia.
    rewrite N.Div0.mod_mul_r. lia.
Qed.

Lemma le_decode_bound (l : list byte) : (le_decode l < 256 ^ N.of_nat (length l))%N.
Proof.
  induction l as [|b l IH]; cbn [le_decode length]; [reflexivity|].
  rewrite Nat2N.inj_succ, N.pow_succ_r by lia. pose proof (Byte.to_N_bounded b). lia.
Qed.

(** [appendU32], [appendU64]: the value has been converted to the width. *)
Definition u32_bytes (v : N) : list byte := le_encode 4 v.
Definition u64_bytes (v : N) : list byte := le_encode 8 v.

Lemma u32_round (v : N) : (v < 2 ^ 32)%N -> le_decode (u32_bytes v) = v.
Proof. intros H. unfold u32_bytes. rewrite le_decode_encode. now apply N.mod_small. Qed.

Lemma u64_round (v : N) : (v < 2 ^ 64)%N -> le_decode (u64_bytes v) = v.
Proof. intros H. unfold u64_bytes. rewrite le_decode_encode. now apply N.mod_small. Qed.

(** [uint64(i)] and [int64(u)]. *)
Definition to_uint64 (z : Z) : N := Z.to_N (z mod 2 ^ 64).
Definition to_int64 (u : N) : Z :=
  if (u <? 2 ^ 63)%N then Z.of_N u else (Z.of_N u - 2 ^ 64)%Z.

Lemma to_uint64_bound (z : Z) : (to_uint64 z < 2 ^ 64)%N.
Proof.
  unfold to_uint64. pose proof (Z.mod_pos_bound z (2 ^ 64) eq_refl).
  change (2 ^ 64)%N with (Z.to_N (2 ^ 64)). lia.
Qed.

Lemma to_int64_round (z : Z) : (- 2 ^ 63 <= z < 2 ^ 63)%Z -> to_int64 (to_uint64 z) = z.
Proof.
  intros H. unfold to_int64, to_uint64.
  assert (Hz : (z mod 2 ^ 64 = if (z <? 0)%Z then z + 2 ^ 64 else z)%Z).
  { destruct (Z.ltb_spec z 0); [symmetry; apply Z.mod_unique with (-1)%Z; lia|apply Z.mod_small; lia]. }
  rewrite Hz. change (2 ^ 63)%N with (Z.to_N (2 ^ 63)).
  destruct (Z.ltb_spec z 0); destruct (N.ltb_spec (Z.to_N (if true then z + 2 ^ 64 else z)) (Z.to_N (2 ^ 63)));
    destruct (N.ltb_spec (Z.to_N z) (Z.to_N (2 ^ 63))); lia.
Qed.

(** ** Strings *)

Definition bytes (s : string) : list byte := list_byte_of_string s.
Definition string_of (l : list byte) : string := string_of_list_byte l.

Lemma string_of_bytes (s : string) : string_of (bytes s) = s.
Proof. apply string_of_list_byte_of_string. Qed.

Lemma bytes_of_string (l : list byte) : bytes (string_of l) = l.
Proof. apply list_byte_of_string_of_list_byte. Qed.

(** ** The order of strings

    [sort.Strings] orders strings bytewise. *)
Fixpoint str_leb (a b : string) : bool :=
  match a, b with
  | EmptyString, _ => true
  | String _ _, EmptyString => false
  | String x a', String y b' =>
      (N_of_ascii x <? N_of_ascii y)%N || ((N_of_ascii x =? N_of_ascii y)%N && str_leb a' b')
  end.

Definition str_le (a b : string) : Prop := str_leb a b = true.

#[export] Instance str_le_dec : RelDecision str_le.
Proof. intros a b. unfold str_le. apply _. Defined.

Lemma N_of_ascii_inj a b : N_of_ascii a = N_of_ascii b -> a = b.
Proof. intros H. rewrite <- (ascii_N_embedding a), <- (ascii_N_embedding b). now rewrite H. Qed.

#[export] Instance str_le_trans : Transitive str_le.
Proof.
  intros a. unfold str_le. induction a as [|x a IH]; intros [|y b] [|z c]; cbn; try done.
  rewrite !orb_true_iff, !andb_true_iff, !N.ltb_lt, !N.eqb_eq.
  intros [H1|[H1 H1']] [H2|[H2 H2']]; try (left; lia). right. split; [lia|]. eapply IH; eauto.
Qed.

#[export] Instance str_le_total : Total str_le.
Proof.
  intros a. unfold str_le. induction a as [|x a IH]; intros [|y b]; cbn; auto.
  rewrite !orb_true_iff, !andb_true_iff, !N.ltb_lt, !N.eqb_eq.
  destruct (N.lt_trichotomy (N_of_ascii x) (N_of_ascii y)) as [H|[H|H]]; auto.
  destruct (IH b); auto.
Qed.

#[export] Instance str_le_antisymm : AntiSymm (=) str_le.
Proof.
  intros a. unfold str_le. induction a as [|x a IH]; intros [|y b]; cbn; try done.
  rewrite !orb_true_iff, !andb_true_iff, !N.ltb_lt, !N.eqb_eq.
  intros [H1|[H1 H1']] [H2|[H2 H2']]; try lia. f_equal; [now apply N_of_ascii_inj|now apply IH].
Qed.

(** ** Outcomes *)

Inductive outcome (E A : Type) : Type :=
  | Done (a : A)
  | Fail_ (e : E)
  | Panic.
Arguments Done {E A} a.
Arguments Fail_ {E A} e.
Arguments Panic {E A}.

#[export] Instance outcome_ret {E} : MRet (outcome E) := fun A a => Done a.
#[export] Instance outcome_bind {E} : MBind (outcome E) := fun A B k m =>
  match m with Done a => k a | Fail_ e => Fail_ e | Panic => Panic end.

Lemma bind_Done {E A B} (a : A) (k : A -> outcome E B) : (Done a ≫= k) = k a.
Proof. reflexivity. Qed.

Section Slices.
Context {E : Type}.

(** [data[lo:hi]] *)
Definition slice (data : list byte) (lo hi : nat) : outcome E (list byte) :=
  if (lo <=? hi)%nat && (hi <=? length data)%nat then Done (take (hi - lo) (drop lo data)) else Panic.

(** [data[lo:]] *)
Definition slice_from (data : list byte) (lo : nat) : outcome E (list byte) := slice data lo (length data).

(** [data[i]] *)
Definition index (data : list byte) (i : nat) : outcome E byte :=
  match data !! i with Some b => Done b | None => Panic end.

(** [binary.LittleEndian.Uint32] and [Uint64] index their argument up to its last byte. *)
Definition Uint32 (b : list byte) : outcome E N :=
  if (4 <=? length b)%nat then Done (le_decode (take 4 b)) else Panic.
Definition Uint64 (b : list byte) : outcome E N :=
  if (8 <=? length b)%nat then Done (le_decode (take 8 b)) else Panic.

Lemma data_slice_app (a b c : list byte) (lo hi : nat) :
  lo = length a -> hi = length a + length b -> slice (a ++ b ++ c) lo hi = Done b.
Proof.
  intros -> ->. unfold slice. rewrite !length_app.
  rewrite (proj2 (Nat.leb_le _ _)), (proj2 (Nat.leb_le _ _)) by lia. cbn [andb].
  rewrite drop_app_length. rewrite Nat.add_comm, Nat.add_sub. now rewrite take_app_length.
Qed.

Lemma slice_from_app (a b : list byte) (lo : nat) : lo = length a -> slice_from (a ++ b) lo = Done b.
Proof.
  intros ->. unfold slice_from. rewrite <- (app_nil_r b) at 1. apply data_slice_app; [easy|].
  now rewrite length_app.
Qed.

Lemma index_app (a c : list byte) (b : byte) (i : nat) : i = length a -> index (a ++ b :: c) i = Done b.
Proof. intros ->. unfold index. rewrite lookup_app_r by lia. now rewrite Nat.sub_diag. Qed.

Lemma Uint32_bytes (v : N) : (v < 2 ^ 32)%N -> Uint32 (u32_bytes v) = Done v.
Proof. intros H. change (Uint32 _) with (Done (E := E) (le_decode (u32_bytes v))). now rewrite u32_round. Qed.

Lemma Uint64_bytes (v : N) : (v < 2 ^ 64)%N -> Uint64 (u64_bytes v) = Done v.
Proof. intros H. change (Uint64 _) with (Done (E := E) (le_decode (u64_bytes v))). now rewrite u64_round. Qed.

(** A step that does not panic. *)
Definition safe {A} (m : outcome E A) (Q : A -> Prop) : Prop :=
  match m with Done a => Q a | Fail_ _ => True | Panic => False end.

Lemma safe_bind {A B} (m : outcome E A) (k : A -> outcome E B) (P : A -> Prop) (Q : B -> Prop) :
  safe m P -> (forall a, P a -> safe (k a) Q) -> safe (m ≫= k) Q.
Proof. destruct m; cbn; auto. Qed.

Lemma safe_mono {A} (m : outcome E A) (P Q : A -> Prop) : safe m P -> (forall a, P a -> Q a) -> safe m Q.
Proof. destruct m; cbn; auto. Qed.

Lemma safe_slice (data : list byte) (lo hi : nat) :
  lo <= hi -> hi <= length data -> safe (slice data lo hi) (fun l => length l = hi - lo).
Proof.
  intros H1 H2. unfold slice. rewrite (proj2 (Nat.leb_le _ _)), (proj2 (Nat.leb_le _ _)) by lia.
  cbn. rewrite length_take, length_drop. lia.
Qed.

Lemma safe_index (data : list byte) (i : nat) : i < length data -> safe (index data i) (fun _ => True).
Proof. intros H. unfold index. destruct (lookup_lt_is_Some_2 data i H) as [b ->]. exact I. Qed.

Lemma safe_Uint32 (b : list byte) : 4 <= length b -> safe (Uint32 b) (fun v => (v < 2 ^ 32)%N).
Proof.
  intros H. unfold Uint32. rewrite (proj2 (Nat.leb_le _ _)) by lia. cbn.
  pose proof (le_decode_bound (take 4 b)) as Hb. rewrite length_take, Nat.min_l in Hb by lia. exact Hb.
Qed.

Lemma safe_Uint64 (b : list byte) : 8 <= length b -> safe (Uint64 b) (fun v => (v < 2 ^ 64)%N).
Proof.
  intros H. unfold Uint64. rewrite (proj2 (Nat.leb_le _ _)) by lia. cbn.
  pose proof (le_decode_bound (take 8 b)) as Hb. rewrite length_take, Nat.min_l in Hb by lia. exact Hb.
Qed.

End Slices.
