(* ===== verification/RowCodec.v ===== *)
(** * Row encoding (pkg/storage/rowcodec.go)

    The versioned binary encoding of rows and its JSON fallback.  A row is a finite map from field
    names to Go values; a float is represented by its bits.  The JSON library is a parameter. *)
From Stdlib Require Import NArith ZArith Lia Ascii String.
From stdpp Require Import base option list list_numbers gmap sorting strings.
From S2P Require Import Prelude Bytes.

Definition rowMagic : string := "PZSQLROW".
Definition rowVersion : byte := Byte.x01.
Definition rowHeaderLen : nat := String.length rowMagic + 1 + 4.
Definition maxRowFieldLen : N := 2 ^ 30.
Definition minFieldEncodedSize : N := 4 + 1.
Definition MaxUint32 : N := 2 ^ 32 - 1.

Definition tagNil : byte := Byte.x00.
Definition tagFalse : byte := Byte.x01.
Definition tagTrue : byte := Byte.x02.
Definition tagInt : byte := Byte.x03.
Definition tagUint : byte := Byte.x04.
Definition tagFloat32 : byte := Byte.x05.
Definition tagFloat64 : byte := Byte.x06.
Definition tagString : byte := Byte.x07.
Definition tagBytes : byte := Byte.x08.
Definition tagNumber : byte := Byte.x09.

Section Codec.
(** The values of types the encoding does not know: slices, maps, structs, times. *)
Variable other : Type.

(** ** Values *)

Inductive int_kind : Set := GoInt | GoInt8 | GoInt16 | GoInt32 | GoInt64.
Inductive uint_kind : Set := GoUint | GoUint8 | GoUint16 | GoUint32 | GoUint64 | GoUintptr.

(** What an [interface{}] holds. *)
Inductive value : Type :=
  | VNil
  | VBool (b : bool)
  | VInt (k : int_kind) (z : Z)
  | VUint (k : uint_kind) (n : N)
  | VFloat32 (bits : N)
  | VFloat64 (bits : N)
  | VString (s : string)
  | VBytes (l : list byte)
  | VNumber (s : string)
  | VOther (o : other).

Definition int_width (k : int_kind) : Z :=
  match k with GoInt8 => 8 | GoInt16 => 16 | GoInt32 => 32 | GoInt | GoInt64 => 64 end.
Definition uint_width (k : uint_kind) : N :=
  match k with GoUint8 => 8 | GoUint16 => 16 | GoUint32 => 32 | GoUint | GoUint64 | GoUintptr => 64 end.

(** A value of its Go type. *)
Definition in_range (v : value) : Prop :=
  match v with
  | VInt k z => (- 2 ^ (int_width k - 1) <= z < 2 ^ (int_width k - 1))%Z
  | VUint k n => (n < 2 ^ uint_width k)%N
  | VFloat32 b => (b < 2 ^ 32)%N
  | VFloat64 b => (b < 2 ^ 64)%N
  | _ => True
  end.

Abbreviation Row := (gmap string value).

(** ** Encoding *)

Definition appendBytesField (dst data : list byte) : list byte :=
  dst ++ u32_bytes (N.of_nat (length data)) ++ data.

Definition too_long (n : nat) : bool := (maxRowFieldLen <? N.of_nat n)%N.

(** [None]: the value cannot be represented exactly. *)
Definition encodeValue (v : value) : option (list byte) :=
  match v with
  | VNil => Some [tagNil]
  | VBool b => Some [if b then tagTrue else tagFalse]
  | VInt _ z => Some ([tagInt] ++ u64_bytes (to_uint64 z))
  | VUint _ n => Some ([tagUint] ++ u64_bytes n)
  | VFloat32 bits => Some ([tagFloat32] ++ u32_bytes bits)
  | VFloat64 bits => Some ([tagFloat64] ++ u64_bytes bits)
  | VString s =>
      if too_long (length (bytes s)) then None else Some (appendBytesField [tagString] (bytes s))
  | VBytes l => if too_long (length l) then None else Some (appendBytesField [tagBytes] l)
  | VNumber s =>
      if too_long (length (bytes s)) then None else Some (appendBytesField [tagNumber] (bytes s))
  | VOther _ => None
  end.

Inductive encode_error : Set := TooManyFields | FieldNameTooLong | MarshalError (msg : string).
Inductive decode_error : Set :=
  MalformedRow | UnsupportedVersion (v : byte) | UnknownTag (t : byte) | UnmarshalError (msg : string).

(** [json.Marshal] and [json.Unmarshal] on rows. *)
Variable json_marshal : Row -> list byte + string.
Variable json_unmarshal : list byte -> Row + string.

(** [row[name]] *)
Definition field (row : Row) (name : string) : value := default VNil (row !! name).

Definition encode_field (name : string) (enc : list byte) : list byte :=
  u32_bytes (N.of_nat (length (bytes name))) ++ bytes name ++ enc.

(** [order] is the order in which [for name := range row] yields the names. *)
Definition encodeRow (order : list string) (row : Row) : list byte + encode_error :=
  if (MaxUint32 <? N.of_nat (size row))%N then inr TooManyFields
  else if existsb (fun name => too_long (length (bytes name))) order then inr FieldNameTooLong
  else
    let names := merge_sort str_le order in
    match mapM (fun name => encodeValue (field row name)) names with
    | None => match json_marshal row with inl l => inl l | inr e => inr (MarshalError e) end
    | Some encoded =>
        inl (bytes rowMagic ++ [rowVersion] ++ u32_bytes (N.of_nat (length names))
             ++ concat (zip_with encode_field names encoded))
    end.

(** ** Decoding *)

Abbreviation D := (outcome decode_error).

(** The value, and the number of payload bytes consumed. *)
Definition decodeValue (tag : byte) (data : list byte) : D (value * nat) :=
  if decide (tag = tagNil) then Done (VNil, 0)
  else if decide (tag = tagFalse) then Done (VBool false, 0)
  else if decide (tag = tagTrue) then Done (VBool true, 0)
  else if decide (tag = tagInt) then
    if (length data <? 8)%nat then Fail_ MalformedRow
    else (b ← slice data 0 8; u ← Uint64 b; Done (VInt GoInt64 (to_int64 u), 8))
  else if decide (tag = tagUint) then
    if (length data <? 8)%nat then Fail_ MalformedRow
    else (b ← slice data 0 8; u ← Uint64 b; Done (VUint GoUint64 u, 8))
  else if decide (tag = tagFloat32) then
    if (length data <? 4)%nat then Fail_ MalformedRow
    else (b ← slice data 0 4; u ← Uint32 b; Done (VFloat32 u, 4))
  else if decide (tag = tagFloat64) then
    if (length data <? 8)%nat then Fail_ MalformedRow
    else (b ← slice data 0 8; u ← Uint64 b; Done (VFloat64 u, 8))
  else if decide (tag = tagString \/ tag = tagBytes \/ tag = tagNumber) then
    if (length data <? 4)%nat then Fail_ MalformedRow
    else (
      b ← slice data 0 4;
      l ← Uint32 b;
      if (maxRowFieldLen <? l)%N || (N.of_nat (length data - 4) <? l)%N then Fail_ MalformedRow
      else (
        content ← slice data 4 (4 + N.to_nat l);
        Done (if decide (tag = tagString) then VString (string_of content)
              else if decide (tag = tagBytes) then VBytes content
              else VNumber (string_of content), 4 + N.to_nat l)))
  else Fail_ (UnknownTag tag).

(** The loop over the fields: [pos], [remaining] and [row] are its state. *)
Fixpoint decode_fields (data : list byte) (count pos remaining : nat) (row : Row) : D (Row * nat) :=
  match count with
  | O => Done (row, pos)
  | S k =>
      if (remaining <? 4)%nat then Fail_ MalformedRow
      else (
        b ← slice data pos (pos + 4);
        nameLen ← Uint32 b;
        let pos := pos + 4 in
        let remaining := remaining - 4 in
        if (maxRowFieldLen <? nameLen)%N || (N.of_nat remaining <? nameLen)%N then Fail_ MalformedRow
        else (
          name ← slice data pos (pos + N.to_nat nameLen);
          let pos := pos + N.to_nat nameLen in
          let remaining := remaining - N.to_nat nameLen in
          if (remaining <? 1)%nat then Fail_ MalformedRow
          else (
            tag ← index data pos;
            let pos := S pos in
            let remaining := remaining - 1 in
            payload ← slice_from data pos;
            vn ← decodeValue tag payload;
            decode_fields data k (pos + vn.2) (remaining - vn.2) (<[string_of name := vn.1]> row))))
  end.

Definition decodeBinaryRow (data : list byte) : D Row :=
  if (length data <? rowHeaderLen)%nat then Fail_ MalformedRow
  else (
    magic ← slice data 0 8;
    if decide (magic <> bytes rowMagic) then Fail_ MalformedRow
    else (
      version ← index data 8;
      if decide (version <> rowVersion) then Fail_ (UnsupportedVersion version)
      else (
        b ← slice data 9 13;
        count ← Uint32 b;
        let remaining := length data - rowHeaderLen in
        if (N.of_nat remaining <? count * minFieldEncodedSize)%N then Fail_ MalformedRow
        else (
          rp ← decode_fields data (N.to_nat count) rowHeaderLen remaining ∅;
          if decide (rp.2 <> length data) then Fail_ MalformedRow else Done rp.1)))).

Definition has_magic (data : list byte) : bool :=
  (8 <=? length data)%nat && bool_decide (take 8 data = bytes rowMagic).

Definition decodeRow (data : list byte) : D Row :=
  if has_magic data then decodeBinaryRow data
  else match json_unmarshal data with inl row => Done row | inr e => Fail_ (UnmarshalError e) end.

End Codec.
