(* ===== verification/RowCodecFacts.v ===== *)
(** * Properties of the row encoding

    Decoding never panics, whatever the bytes; a row is decoded back from its encoding; the
    encoding does not depend on the iteration order of the map; and no accepted encoding is a proper
    prefix of another. *)
From Stdlib Require Import NArith ZArith Lia Ascii String.
From stdpp Require Import base option list list_numbers gmap sorting strings.
From S2P Require Import Prelude Bytes RowCodec.

Arguments VNil {other}.
Arguments VBool {other} b.
Arguments VInt {other} k z.
Arguments VUint {other} k n.
Arguments VFloat32 {other} bits.
Arguments VFloat64 {other} bits.
Arguments VString {other} s.
Arguments VBytes {other} l.
Arguments VNumber {other} s.
Arguments VOther {other} o.

Section Facts.
Context {other : Type}.
Abbreviation value := (value other).
Abbreviation Row := (gmap string value).

(** ** No panic *)

Ltac bound_hyps :=
  repeat match goal with
  | H : (_ <? _)%nat = false |- _ => apply Nat.ltb_ge in H
  | H : (_ <? _)%N = false |- _ => apply N.ltb_ge in H
  | H : _ || _ = false |- _ => apply orb_false_elim in H as [? ?]
  end.

(** Walks through the steps of a decoder. *)
Ltac safe_step :=
  lazymatch goal with
  | |- safe (Fail_ _) _ => exact I
  | |- safe (Done _) _ => cbn
  | |- safe (if ?b then _ else _) _ => destruct b eqn:?; bound_hyps
  | |- safe (slice _ _ _ ≫= _) _ => eapply safe_bind; [apply safe_slice; lia|cbv beta; intros]
  | |- safe (Uint32 _ ≫= _) _ => eapply safe_bind; [apply safe_Uint32; lia|cbv beta; intros]
  | |- safe (Uint64 _ ≫= _) _ => eapply safe_bind; [apply safe_Uint64; lia|cbv beta; intros]
  | |- safe (index _ _ ≫= _) _ => eapply safe_bind; [apply safe_index; lia|cbv beta; intros]
  end.

Lemma safe_decodeValue (tag : byte) (data : list byte) :
  safe (decodeValue other tag data) (fun vn => vn.2 <= length data).
Proof. unfold decodeValue. repeat safe_step; lia. Qed.

Lemma safe_fields (data : list byte) (count pos remaining : nat) (row : Row) :
  pos + remaining = length data ->
  safe (decode_fields other data count pos remaining row) (fun rp => rp.2 <= length data).
Proof.
  revert pos remaining row. induction count as [|k IH]; intros pos remaining row Hp; cbn [decode_fields].
  { cbn. lia. }
  repeat safe_step. eapply safe_bind; [apply safe_slice; lia|]. cbv beta. intros payload Hl.
  eapply safe_bind; [apply safe_decodeValue|]. cbv beta. intros [v m] Hm. cbn [snd fst] in *.
  apply IH. lia.
Qed.

(** Decoding never panics.  Whatever bytes are read from the store, [decodeRow] returns a row
    or an error: every slice and index it makes lies inside the input. *)
Theorem decode_never_panics (json_unmarshal : list byte -> Row + string) (data : list byte) :
  decodeRow other json_unmarshal data <> Panic.
Proof.
  enough (H : safe (decodeRow other json_unmarshal data) (fun _ => True)).
  { intros E. now rewrite E in H. }
  unfold decodeRow, decodeBinaryRow. change rowHeaderLen with 13.
  destruct (has_magic data); [|now destruct (json_unmarshal data)].
  repeat safe_step. eapply safe_bind; [apply safe_fields; lia|]. cbv beta. intros rp Hrp.
  repeat safe_step; exact I.
Qed.

(** ** Round trip *)

(** The value that comes back: integers at their widest type. *)
Definition normalize (v : value) : value :=
  match v with
  | VInt _ z => VInt GoInt64 z
  | VUint _ n => VUint GoUint64 n
  | _ => v
  end.

Lemma in_range_int64 k z : in_range other (VInt k z) -> (- 2 ^ 63 <= z < 2 ^ 63)%Z.
Proof. cbn. destruct k; cbn [int_width]; lia. Qed.

Lemma in_range_uint64 k n : in_range other (VUint k n) -> (n < 2 ^ 64)%N.
Proof. cbn. destruct k; cbn [uint_width]; lia. Qed.

Lemma not_too_long n : too_long n = false -> (N.of_nat n <= maxRowFieldLen)%N /\ (N.of_nat n < 2 ^ 32)%N.
Proof.
  unfold too_long. intros H. apply N.ltb_ge in H. split; [exact H|]. unfold maxRowFieldLen in H.
  change (2 ^ 30)%N with 1073741824%N in H. change (2 ^ 32)%N with 4294967296%N. lia.
Qed.

Lemma slice_prefix {E} (b c : list byte) (hi : nat) : hi = length b -> slice (E := E) (b ++ c) 0 hi = Done b.
Proof. intros ->. now apply (data_slice_app []). Qed.

Lemma ltb_app (a b : list byte) (n : nat) : n <= length a -> (length (a ++ b) <? n)%nat = false.
Proof. intros H. apply Nat.ltb_ge. rewrite length_app. lia. Qed.

(** Decoding a length-prefixed payload. *)
Lemma decode_bytes_field (tag : byte) (l rest : list byte) :
  tag = tagString \/ tag = tagBytes \/ tag = tagNumber -> too_long (length l) = false ->
  decodeValue other tag (u32_bytes (N.of_nat (length l)) ++ l ++ rest) =
    Done (if decide (tag = tagString) then VString (string_of l)
          else if decide (tag = tagBytes) then VBytes l else VNumber (string_of l), 4 + length l).
Proof.
  intros Ht Hl. apply not_too_long in Hl as [Hmax H32].
  unfold decodeValue. do 7 (rewrite (decide_False (P := tag = _)) by (destruct Ht as [->|[->| ->]]; discriminate)).
  rewrite decide_True by exact Ht. rewrite ltb_app by reflexivity.
  rewrite slice_prefix by reflexivity. cbn [mbind outcome_bind]. rewrite Uint32_bytes by exact H32. cbn [mbind outcome_bind].
  rewrite (proj2 (N.ltb_ge _ _) Hmax). cbn [orb].
  rewrite (proj2 (N.ltb_ge _ _)) by (rewrite !length_app; cbn [length u32_bytes le_encode]; lia).
  rewrite (data_slice_app _ l rest) by (rewrite ?Nat2N.id; reflexivity). now rewrite Nat2N.id.
Qed.

(** The decoder of a fixed-width payload. *)
Ltac decode_fixed H :=
  eexists _, _; split; [reflexivity|]; unfold decodeValue;
  rewrite !decide_False by discriminate; rewrite decide_True by reflexivity;
  rewrite ltb_app, slice_prefix by reflexivity; cbn [mbind outcome_bind];
  first [rewrite Uint64_bytes by H | rewrite Uint32_bytes by H]; cbn [mbind outcome_bind normalize].

(** The decoder of a payload of known length; [t] picks its constructor. *)
Ltac decode_counted El t :=
  eexists _, _; split; [reflexivity|]; rewrite <- app_assoc;
  rewrite decode_bytes_field by (try exact El; auto); cbn [normalize]; t;
  rewrite ?string_of_bytes; now rewrite length_app.

(** A value is decoded back from its encoding, whatever follows it. *)
Lemma decode_encodeValue (v : value) (enc rest : list byte) :
  in_range other v -> encodeValue other v = Some enc ->
  exists tag payload, enc = tag :: payload /\
    decodeValue other tag (payload ++ rest) = Done (normalize v, length payload).
Proof.
  intros Hr He. destruct v; cbn [encodeValue] in He; try discriminate He;
    try (destruct (too_long _) eqn:El; [discriminate|]); injection He as <-.
  - exists tagNil, []. split; reflexivity.
  - destruct b; [exists tagTrue, []|exists tagFalse, []]; split; reflexivity.
  - decode_fixed ltac:(apply to_uint64_bound). now rewrite to_int64_round by now apply in_range_int64 in Hr.
  - decode_fixed ltac:(now apply in_range_uint64 in Hr). reflexivity.
  - decode_fixed ltac:(exact Hr). reflexivity.
  - decode_fixed ltac:(exact Hr). reflexivity.
  - decode_counted El ltac:(rewrite decide_True by reflexivity).
  - decode_counted El ltac:(rewrite decide_False, decide_True by (reflexivity || discriminate)).
  - decode_counted El ltac:(rewrite !decide_False by discriminate).
Qed.

(** ** The fields *)

(** A name and a value that the encoding accepts. *)
Definition name_ok (name : string) : Prop := too_long (length (bytes name)) = false.
Definition value_ok (v : value) : Prop := in_range other v /\ is_Some (encodeValue other v).

Definition body (names : list string) (encs : list (list byte)) : list byte :=
  concat (zip_with encode_field names encs).

Lemma decode_one (pre rest : list byte) (name : string) (v : value) (enc : list byte) (k remaining : nat)
    (row : Row) :
  name_ok name -> in_range other v -> encodeValue other v = Some enc ->
  remaining = length (encode_field name enc ++ rest) ->
  decode_fields other (pre ++ encode_field name enc ++ rest) (S k) (length pre) remaining row =
  decode_fields other (pre ++ encode_field name enc ++ rest) k
    (length (pre ++ encode_field name enc)) (length rest) (<[name := normalize v]> row).
Proof.
  intros Hn Hr He ->. apply not_too_long in Hn as [Hmax H32].
  destruct (decode_encodeValue v enc rest Hr He) as (tag & payload & -> & Hd).
  set (hd := u32_bytes (N.of_nat (length (bytes name)))).
  assert (Hhd : length hd = 4) by reflexivity.
  assert (Hdata : pre ++ encode_field name (tag :: payload) ++ rest
                  = pre ++ hd ++ bytes name ++ tag :: payload ++ rest).
  { unfold encode_field. fold hd. rewrite <- !app_assoc. reflexivity. }
  assert (Hlen : length (encode_field name (tag :: payload) ++ rest)
                 = 4 + length (bytes name) + 1 + length payload + length rest).
  { unfold encode_field. fold hd. rewrite !length_app, Hhd. cbn [length]. lia. }
  assert (Hpos : length (pre ++ encode_field name (tag :: payload))
                 = length pre + 4 + length (bytes name) + 1 + length payload).
  { unfold encode_field. fold hd. rewrite !length_app, Hhd. cbn [length]. lia. }
  rewrite Hpos, Hlen, Hdata. clear Hpos Hlen Hdata. cbn [decode_fields].
  rewrite (proj2 (Nat.ltb_ge _ 4)) by lia.
  rewrite (data_slice_app pre hd) by (rewrite ?Hhd; reflexivity). cbn [mbind outcome_bind].
  rewrite (Uint32_bytes _ H32 : Uint32 (E := decode_error) hd = Done _). cbn [mbind outcome_bind].
  rewrite !Nat2N.id.
  rewrite (proj2 (N.ltb_ge maxRowFieldLen _)) by exact Hmax.
  rewrite (proj2 (N.ltb_ge _ (N.of_nat (length (bytes name))))) by lia. cbn [orb].
  rewrite (app_assoc pre hd), (data_slice_app (pre ++ hd) (bytes name)) by (rewrite length_app, Hhd; lia).
  cbn [mbind outcome_bind]. rewrite (proj2 (Nat.ltb_ge _ 1)) by lia.
  rewrite (app_assoc (pre ++ hd)), index_app by (rewrite !length_app, Hhd; lia). cbn [mbind outcome_bind].
  change (tag :: payload ++ rest) with ([tag] ++ payload ++ rest). rewrite (app_assoc _ [tag]).
  rewrite slice_from_app by (rewrite !length_app, Hhd; cbn; lia). cbn [mbind outcome_bind].
  rewrite Hd. cbn [mbind outcome_bind fst snd]. rewrite string_of_bytes.
  f_equal; lia.
Qed.

Lemma decode_body (get : string -> value) (names : list string) (encs : list (list byte)) :
  mapM (fun name => encodeValue other (get name)) names = Some encs ->
  Forall name_ok names -> Forall (fun name => in_range other (get name)) names ->
  forall (pre : list byte) (row : Row),
  decode_fields other (pre ++ body names encs) (length names) (length pre) (length (body names encs)) row =
  Done (foldl (fun m name => <[name := normalize (get name)]> m) row names, length (pre ++ body names encs)).
Proof.
  intros Hm. apply mapM_Some in Hm. induction Hm as [|name enc names encs He Hm IH]; intros Hn Hr pre row.
  - cbn. now rewrite app_nil_r.
  - apply Forall_cons in Hn as [Hn1 Hn2]. apply Forall_cons in Hr as [Hr1 Hr2].
    unfold body. cbn [zip_with concat length foldl]. fold (body names encs).
    rewrite (decode_one pre (body names encs) name (get name) enc) by (assumption || reflexivity).
    rewrite (app_assoc pre). now rewrite IH.
Qed.

Lemma lookup_foldl (get : string -> value) (names : list string) (row : Row) (name : string) :
  foldl (fun m name => <[name := get name]> m) row names !! name =
    if decide (name ∈ names) then Some (get name) else row !! name.
Proof.
  revert row. induction names as [|x names IH]; intros row; cbn [foldl]; [now rewrite decide_False by set_solver|].
  rewrite IH. destruct (decide (name = x)) as [->|Hx].
  - rewrite (decide_True (P := x ∈ x :: names)) by set_solver. case_decide; [reflexivity|].
    apply lookup_insert_eq.
  - destruct (decide (name ∈ names)) as [Hi|Hi]; [now rewrite decide_True by now right|].
    rewrite decide_False by (rewrite elem_of_cons; tauto). now apply lookup_insert_ne, not_eq_sym.
Qed.

Lemma body_length (names : list string) (encs : list (list byte)) :
  Forall (fun enc => 1 <= length enc) encs -> length names = length encs ->
  5 * length names <= length (body names encs).
Proof.
  revert encs. induction names as [|name names IH]; intros [|enc encs] He Hl; cbn in Hl; try lia; [cbn; lia|].
  apply Forall_cons in He as [He1 He2]. unfold body. cbn [zip_with concat].
  rewrite length_app. unfold encode_field at 1. rewrite !length_app.
  specialize (IH encs He2 ltac:(lia)). unfold body in IH. cbn [length u32_bytes le_encode]. lia.
Qed.

Lemma encodeValue_length (v : value) (enc : list byte) : encodeValue other v = Some enc -> 1 <= length enc.
Proof.
  destruct v; cbn [encodeValue]; intros H; try (destruct (too_long _); [discriminate|]);
    try discriminate; injection H as <-; unfold appendBytesField; rewrite ?length_app; cbn; lia.
Qed.

(** A whole encoding: the header and the fields. *)
Definition encoding (names : list string) (encs : list (list byte)) : list byte :=
  bytes rowMagic ++ [rowVersion] ++ u32_bytes (N.of_nat (length names)) ++ body names encs.

Lemma decode_encoding (get : string -> value) (names : list string) (encs : list (list byte)) :
  (N.of_nat (length names) <= MaxUint32)%N ->
  mapM (fun name => encodeValue other (get name)) names = Some encs ->
  Forall name_ok names -> Forall (fun name => in_range other (get name)) names ->
  decodeBinaryRow other (encoding names encs) =
  Done (foldl (fun m name => <[name := normalize (get name)]> m) ∅ names).
Proof.
  intros Hmax Hm Hn Hr.
  assert (H32 : (N.of_nat (length names) < 2 ^ 32)%N).
  { unfold MaxUint32 in Hmax. change (2 ^ 32)%N with 4294967296%N in *. lia. }
  set (cnt := u32_bytes (N.of_nat (length names))). assert (Hcnt : length cnt = 4) by reflexivity.
  set (pre := bytes rowMagic ++ [rowVersion] ++ cnt). assert (Hpre : length pre = 13) by reflexivity.
  assert (Hdata : encoding names encs = pre ++ body names encs).
  { unfold encoding, pre. now rewrite <- !app_assoc. }
  assert (Hbody : 5 * length names <= length (body names encs)).
  { apply mapM_Some in Hm. apply body_length; [|now apply Forall2_length in Hm].
    eapply Forall2_Forall_r; [exact Hm|]. apply Forall_true. intros x enc H. eapply encodeValue_length, H. }
  rewrite Hdata. unfold decodeBinaryRow. change rowHeaderLen with 13.
  rewrite length_app, Hpre, (proj2 (Nat.ltb_ge _ 13)) by lia.
  change (slice (pre ++ body names encs) 0 8)
    with (slice (E := decode_error) (bytes rowMagic ++ ([rowVersion] ++ cnt) ++ body names encs) 0 8).
  rewrite slice_prefix by reflexivity. cbn [mbind outcome_bind].
  rewrite decide_False by (intros H; now apply H).
  change (index (pre ++ body names encs) 8) with (Done (E := decode_error) rowVersion).
  cbn [mbind outcome_bind]. rewrite decide_False by (intros H; now apply H).
  change (slice (pre ++ body names encs) 9 13)
    with (slice (E := decode_error) ((bytes rowMagic ++ [rowVersion]) ++ cnt ++ body names encs) 9 13).
  rewrite data_slice_app by reflexivity. cbn [mbind outcome_bind].
  rewrite (Uint32_bytes _ H32 : Uint32 (E := decode_error) cnt = Done _). cbn [mbind outcome_bind].
  rewrite Nat2N.id. replace (13 + length (body names encs) - 13) with (length (body names encs)) by lia.
  rewrite (proj2 (N.ltb_ge _ _)) by (unfold minFieldEncodedSize; lia).
  rewrite <- Hpre, (decode_body get) by assumption. cbn [mbind outcome_bind fst snd].
  rewrite decide_False by (rewrite length_app; lia). reflexivity.
Qed.

(** Every field of a row is acceptable to the encoding. *)
Definition row_ok (row : Row) : Prop := map_Forall (fun name v => name_ok name /\ value_ok v) row.

Lemma sorted_names (order : list string) (row : Row) (name : string) :
  order ≡ₚ (map_to_list row).*1 -> name ∈ merge_sort str_le order <-> is_Some (row !! name).
Proof.
  intros Ho. rewrite (merge_sort_Permutation str_le order), Ho, list_elem_of_fmap.
  split.
  - intros ([x v] & -> & Hin). apply elem_of_map_to_list in Hin. eauto.
  - intros [v Hv]. exists (name, v). split; [reflexivity|]. now apply elem_of_map_to_list.
Qed.

(** C11: a row is decoded back from its encoding.  For a row whose names and values the binary
    format accepts, [encodeRow] succeeds and [decodeRow] returns the row with every integer at
    its 64-bit type. *)
Theorem encode_decode_row (json_marshal : Row -> list byte + string)
    (json_unmarshal : list byte -> Row + string) (order : list string) (row : Row) :
  order ≡ₚ (map_to_list row).*1 ->
  (N.of_nat (size row) <= MaxUint32)%N ->
  row_ok row ->
  exists data, encodeRow other json_marshal order row = inl data /\
    decodeRow other json_unmarshal data = Done (normalize <$> row).
Proof.
  intros Ho Hsize Hrow. set (names := merge_sort str_le order).
  assert (Hnames : forall name, name ∈ names -> name_ok name /\ value_ok (field other row name)).
  { intros name Hin. apply (sorted_names order row name Ho) in Hin as [v Hv].
    unfold field. rewrite Hv. exact (Hrow name v Hv). }
  assert (Hlen : length names = size row).
  { unfold names. rewrite (merge_sort_Permutation str_le order), Ho, length_fmap.
    apply length_map_to_list. }
  assert (exists encs, mapM (fun name => encodeValue other (field other row name)) names = Some encs)
    as [encs Hencs].
  { apply mapM_is_Some, Forall_forall. intros name Hin. now apply Hnames. }
  exists (encoding names encs). split.
  - unfold encodeRow. rewrite (proj2 (N.ltb_ge _ _)) by exact Hsize.
    assert (existsb (fun name => too_long (length (bytes name))) order = false) as ->.
    { apply not_true_is_false. intros H. apply existsb_exists in H as (name & Hin & Hl).
      apply list_elem_of_In in Hin. rewrite <- (merge_sort_Permutation str_le order) in Hin.
      apply Hnames in Hin as [Hok _]. unfold name_ok in Hok. congruence. }
    fold names. rewrite Hencs. reflexivity.
  - unfold decodeRow. change (has_magic (encoding names encs)) with true.
    rewrite (decode_encoding (field other row)); [|now rewrite Hlen|exact Hencs|..].
    + f_equal. apply map_eq. intros name. rewrite (lookup_foldl (fun n => normalize (field other row n))).
      rewrite lookup_fmap. case_decide as Hin.
      * apply (sorted_names order row name Ho) in Hin as [v Hv]. unfold field. now rewrite Hv.
      * destruct (row !! name) as [v|] eqn:Hv; [|apply lookup_empty].
        contradict Hin. apply (sorted_names order row name Ho). eauto.
    + apply Forall_forall. intros name Hin. now apply Hnames.
    + apply Forall_forall. intros name Hin. now apply Hnames.
Qed.

(** The encoding is deterministic: it does not depend on the order in which the map's fields
    are visited, so equal rows have equal encodings. *)
Theorem encode_row_deterministic (json_marshal : Row -> list byte + string)
    (order1 order2 : list string) (row : Row) :
  order1 ≡ₚ order2 ->
  encodeRow other json_marshal order1 row = encodeRow other json_marshal order2 row.
Proof.
  intros H. unfold encodeRow.
  assert (existsb (fun name => too_long (length (bytes name))) order1 =
          existsb (fun name => too_long (length (bytes name))) order2) as ->.
  { apply eq_bool_prop_intro. rewrite !Is_true_true, !existsb_exists.
    split; intros (x & Hin & Hx); exists x; split; try exact Hx;
      rewrite <- list_elem_of_In in *; [now rewrite <- H|now rewrite H]. }
  assert (merge_sort str_le order1 = merge_sort str_le order2) as ->; [|reflexivity].
  apply (Sorted_unique str_le); try apply (Sorted_merge_sort str_le).
  now rewrite !(merge_sort_Permutation str_le).
Qed.

(** ** Prefixes *)

Section Extend.
Variable extra : list byte.

Lemma slice_extend {E} (data l : list byte) (lo hi : nat) :
  slice (E := E) data lo hi = Done l -> slice (E := E) (data ++ extra) lo hi = Done l.
Proof.
  unfold slice. destruct (lo <=? hi)%nat eqn:E1, (hi <=? length data)%nat eqn:E2; try discriminate.
  cbn [andb]. intros H. injection H as <-. apply Nat.leb_le in E1, E2. rewrite length_app.
  rewrite (proj2 (Nat.leb_le hi _)) by lia. cbn [andb]. rewrite drop_app_le by lia.
  rewrite take_app_le; [reflexivity|]. rewrite length_drop. lia.
Qed.

Lemma index_extend {E} (data : list byte) (i : nat) (b : byte) :
  index (E := E) data i = Done b -> index (E := E) (data ++ extra) i = Done b.
Proof.
  unfold index. destruct (data !! i) eqn:H; [|discriminate]. now rewrite (lookup_app_l_Some _ _ _ _ H).
Qed.

Lemma slice_from_extend {E} (data l : list byte) (lo : nat) :
  slice_from (E := E) data lo = Done l -> slice_from (E := E) (data ++ extra) lo = Done (l ++ extra).
Proof.
  unfold slice_from, slice. destruct (lo <=? length data)%nat eqn:E1; [|discriminate].
  rewrite Nat.leb_refl. cbn [andb]. intros H. injection H as <-. apply Nat.leb_le in E1.
  rewrite length_app, (proj2 (Nat.leb_le _ _)) by lia. rewrite (proj2 (Nat.leb_le _ _)) by lia.
  cbn [andb]. rewrite drop_app_le by lia. rewrite !take_ge; [reflexivity|..];
    rewrite ?length_app, ?length_drop; lia.
Qed.

(** Takes a successful step of a decoder apart, and redoes it on the longer input. *)
Ltac extend_step :=
  match goal with
  | H : (if ?b then Fail_ _ else _) = Done _ |- _ => let Hb := fresh "Hb" in destruct b eqn:Hb; [discriminate H|]
  | H : slice ?d ?lo ?hi ≫= _ = Done _ |- _ =>
      let Hs := fresh "Hs" in
      destruct (slice d lo hi) eqn:Hs; cbn [mbind outcome_bind] in H; try discriminate H;
      rewrite (slice_extend _ _ _ _ Hs); cbn [mbind outcome_bind]
  | H : index ?d ?i ≫= _ = Done _ |- _ =>
      let Hs := fresh "Hs" in
      destruct (index d i) eqn:Hs; cbn [mbind outcome_bind] in H; try discriminate H;
      rewrite (index_extend _ _ _ Hs); cbn [mbind outcome_bind]
  | H : slice_from ?d ?i ≫= _ = Done _ |- _ =>
      let Hs := fresh "Hs" in
      destruct (slice_from d i) eqn:Hs; cbn [mbind outcome_bind] in H; try discriminate H;
      rewrite (slice_from_extend _ _ _ Hs); cbn [mbind outcome_bind]
  | H : Uint32 ?b ≫= _ = Done _ |- _ =>
      destruct (Uint32 b); cbn [mbind outcome_bind] in H |- *; try discriminate H
  | H : Uint64 ?b ≫= _ = Done _ |- _ =>
      destruct (Uint64 b); cbn [mbind outcome_bind] in H |- *; try discriminate H
  end.

(** The guards that passed on the shorter input pass on the longer one. *)
Ltac extend_guard :=
  bound_hyps;
  match goal with
  | |- context [if (?a <? ?b)%nat then _ else _] =>
      rewrite (proj2 (Nat.ltb_ge a b)) by (rewrite ?length_app; lia)
  | |- context [if ?c || (?a <? ?b)%N then _ else _] =>
      rewrite (proj2 (N.ltb_ge a b)) by (rewrite ?length_app; lia);
      match goal with H : c = false |- _ => rewrite H | H : (_ <= _)%N |- _ => rewrite (proj2 (N.ltb_ge _ _) H) end;
      cbn [orb]
  end.

Lemma decodeValue_extend (tag : byte) (data : list byte) (r : value * nat) :
  decodeValue other tag data = Done r -> decodeValue other tag (data ++ extra) = Done r.
Proof.
  unfold decodeValue. intros H.
  repeat (destruct (decide _) in H |- *; [solve [exact H | extend_step; extend_guard; do 2 extend_step; exact H]|]).
  destruct (decide _) in H |- *; [|exact H].
  extend_step. extend_guard. do 2 extend_step. extend_step. extend_guard. extend_step. exact H.
Qed.

Lemma decode_fields_extend (data : list byte) (count pos remaining : nat) (row : Row) (r : Row * nat) :
  pos + remaining = length data ->
  decode_fields other data count pos remaining row = Done r ->
  decode_fields other (data ++ extra) count pos (remaining + length extra) row = Done r.
Proof.
  revert pos remaining row. induction count as [|k IH]; intros pos remaining row Hp H; [exact H|].
  cbn [decode_fields] in H |- *. extend_step. extend_guard. do 2 extend_step. extend_step.
  bound_hyps. extend_guard. extend_step. extend_step. extend_guard. extend_step. extend_step.
  pose proof (safe_decodeValue a2 a3) as Hsafe.
  pose proof (safe_slice (E := decode_error) data (S (pos + 4 + N.to_nat a0)) (length data)
                ltac:(lia) ltac:(lia)) as Hlen.
  fold (slice_from (E := decode_error) data (S (pos + 4 + N.to_nat a0))) in Hlen.
  rewrite Hs2 in Hlen. cbn [safe] in Hlen.
  destruct (decodeValue other a2 a3) as [[v m]| |] eqn:Hv; try discriminate H.
  rewrite (decodeValue_extend _ _ _ Hv). cbn [mbind outcome_bind fst snd safe] in *.
  apply IH in H; [|lia]. rewrite <- H. f_equal. lia.
Qed.
End Extend.

(** The accepted encodings are prefix-free: when the bytes of a row are accepted as a binary
    encoding, no longer input that starts with them is accepted.  So a truncated encoding and an
    encoding with bytes behind it are both rejected. *)
Theorem binary_rows_prefix_free (data extra : list byte) (row row' : Row) :
  decodeBinaryRow other data = Done row ->
  decodeBinaryRow other (data ++ extra) = Done row' ->
  extra = [].
Proof.
  unfold decodeBinaryRow. change rowHeaderLen with 13. intros H H'.
  destruct (length data <? 13)%nat eqn:Hl; [discriminate|]. bound_hyps.
  rewrite ltb_app in H' by lia.
  destruct (slice data 0 8) as [m| |] eqn:Hm; try discriminate H.
  rewrite (slice_extend extra _ _ _ _ Hm) in H'. cbn [mbind outcome_bind] in H, H'.
  destruct (decide (m <> bytes rowMagic)); [discriminate|].
  destruct (index data 8) as [v| |] eqn:Hv; try discriminate H.
  rewrite (index_extend extra _ _ _ Hv) in H'. cbn [mbind outcome_bind] in H, H'.
  destruct (decide (v <> rowVersion)); [discriminate|].
  destruct (slice data 9 13) as [b| |] eqn:Hb; try discriminate H.
  rewrite (slice_extend extra _ _ _ _ Hb) in H'. cbn [mbind outcome_bind] in H, H'.
  destruct (Uint32 b) as [c| |]; try discriminate H. cbn [mbind outcome_bind] in H, H'.
  destruct (N.of_nat (length data - 13) <? _)%N; [discriminate|].
  destruct (N.of_nat (length (data ++ extra) - 13) <? _)%N; [discriminate|].
  destruct (decode_fields other data _ 13 _ ∅) as [rp| |] eqn:Hf; try discriminate H.
  apply (decode_fields_extend extra) in Hf; [|lia].
  replace (length data - 13 + length extra) with (length (data ++ extra) - 13) in Hf
    by (rewrite length_app; lia).
  rewrite Hf in H'. cbn [mbind outcome_bind] in H, H'.
  destruct (decide (rp.2 <> length data)) as [|E1]; [discriminate|].
  destruct (decide (rp.2 <> length (data ++ extra))) as [|E2]; [discriminate|].
  rewrite length_app in E2. destruct extra; [reflexivity|]. cbn [length] in E2. lia.
Qed.

End Facts.

(** ** Concrete rows *)

Definition sample_row : gmap string (value unit) :=
  <["id" := VInt GoInt32 (-7)]> (<["name" := VString "pizza"]> (<["price" := VFloat64 4607182418800017408]> ∅)).

(** A JSON library that knows nothing. *)
Definition no_marshal (_ : gmap string (value unit)) : list byte + string := inr "unsupported"%string.
Definition no_unmarshal (_ : list byte) : gmap string (value unit) + string := inr "unsupported"%string.

Lemma encode_decode_row_witness :
  row_ok sample_row /\
  exists data, encodeRow unit no_marshal ["price"; "id"; "name"]%string sample_row = inl data /\
    decodeRow unit no_unmarshal data = Done (normalize <$> sample_row).
Proof.
  assert (Hrow : row_ok sample_row).
  { repeat apply map_Forall_insert_2; try apply map_Forall_empty; (split; [reflexivity|]);
      (split; [cbn; lia || exact I|eexists; reflexivity]). }
  split; [exact Hrow|]. apply encode_decode_row; [|vm_compute; discriminate|exact Hrow].
  vm_compute. apply (Permutation_app_comm ["price"%string]  ["id"; "name"]%string).
Defined.

Lemma encode_row_deterministic_witness :
  encodeRow unit no_marshal ["price"; "id"; "name"]%string sample_row =
  encodeRow unit no_marshal ["id"; "price"; "name"]%string sample_row.
Proof. apply encode_row_deterministic. apply perm_swap. Defined.

Lemma binary_rows_prefix_free_witness :
  let data := bytes rowMagic ++ [rowVersion] ++ u32_bytes 0 in
  decodeBinaryRow unit data = Done ∅ /\ decodeBinaryRow unit (data ++ []) = Done ∅ /\ @nil byte = [].
Proof.
  split; [reflexivity|]. split; [reflexivity|].
  apply (binary_rows_prefix_free (other := unit) (bytes rowMagic ++ [rowVersion] ++ u32_bytes 0) [] ∅ ∅);
    reflexivity.
Defined.
