(* ===== verification/RowLock.v ===== *)
(** * Row locks (pkg/storage/rowlock.go)

    The in-process row-lock manager.  Entries are heap objects reached through a concurrent map, so
    the state has a heap, and the map holds addresses.  Each definition below is one critical
    section of the code: a map access, or the code between a mutex's Lock and Unlock.  The
    operations compose them; [Sys] interleaves them. *)
From Stdlib Require Import NArith ZArith Lia String.
From stdpp Require Import base option list gmap sets strings.
From S2P Require Import Prelude.

(** ** State *)

Abbreviation session := positive.
Abbreviation addr := positive.
Abbreviation chan := positive.

Inductive LockMode : Set := LockUpdate | LockShare.
#[export] Instance LockMode_eq_dec : EqDecision LockMode.
Proof. solve_decision. Defined.

Inductive LockWait : Set := LockWaitBlock | LockWaitNoWait | LockWaitSkip.

Inductive lock_error : Set := ErrRowLocked | ErrLockNotAvailable | ErrDeadlockDetected.

Record rowLockEntry : Set := mkEntry {
  closed : bool;
  owners : gmap session LockMode;
  waiters : gset chan
}.

(** [next] is the allocator of entries and channels. *)
Record RowLockManager : Set := mkManager {
  heap : gmap addr rowLockEntry;
  entries : gmap string addr;
  active : Z;
  waits : gmap session session;
  next : positive
}.

Definition NewRowLockManager : RowLockManager := mkManager ∅ ∅ 0 ∅ 1.

Definition set_entry (m : RowLockManager) (a : addr) (e : rowLockEntry) : RowLockManager :=
  mkManager (<[a := e]> (heap m)) (entries m) (active m) (waits m) (next m).

Definition set_waits (m : RowLockManager) (w : gmap session session) : RowLockManager :=
  mkManager (heap m) (entries m) (active m) w (next m).

Definition Active (m : RowLockManager) : bool := (0 <? active m)%Z.

(** [l.entries.Load(key)] *)
Definition entry (m : RowLockManager) (key : string) : option addr := entries m !! key.

(** ** Acquiring *)

(** A fresh entry owned by [owner], stored at [key]. *)
Definition store_new (m : RowLockManager) (owner : session) (key : string) (mode : LockMode)
    : RowLockManager :=
  mkManager (<[next m := mkEntry false {[owner := mode]} ∅]> (heap m))
    (<[key := next m]> (entries m)) (active m + 1) (waits m) (Pos.succ (next m)).

Definition with_owner (e : rowLockEntry) (owner : session) (mode : LockMode) : rowLockEntry :=
  mkEntry (closed e) (<[owner := mode]> (owners e)) (waiters e).

Definition is_update (mode : LockMode) : bool :=
  match mode with LockUpdate => true | LockShare => false end.

(** [tryLock] under the lock of an open entry.  [order] is the order in which [range e.owners]
    visits the owners; the result is whether the lock was granted, and the session to wait for. *)
Definition try_entry (order : list session) (owner : session) (mode : LockMode) (e : rowLockEntry)
    : rowLockEntry * (bool * option session) :=
  match owners e !! owner with
  | Some current =>
      if is_update current || negb (is_update mode) then (e, (true, None))
      else if decide (size (owners e) = 1) then (with_owner e owner LockUpdate, (true, None))
      else (e, (false, head order))
  | None =>
      if decide (owners e = ∅) then (with_owner e owner mode, (true, None))
      else match mode with
           | LockShare =>
               match find (fun o => bool_decide (owners e !! o = Some LockUpdate)) order with
               | None => (with_owner e owner LockShare, (true, None))
               | Some o => (e, (false, Some o))
               end
           | LockUpdate => (e, (false, head order))
           end
  end.

(** [tryLock] after [l.entry(key)] returned [loaded]. *)
Definition tryLock_loaded (order : list session) (m : RowLockManager) (owner : session)
    (key : string) (mode : LockMode) (loaded : option addr) : RowLockManager * (bool * option session) :=
  match loaded with
  | None => (store_new m owner key mode, (true, None))
  | Some a =>
      match heap m !! a with
      | None => (m, (false, None))
      | Some e =>
          if closed e then (store_new m owner key mode, (true, None))
          else let (e', r) := try_entry order owner mode e in (set_entry m a e', r)
      end
  end.

Definition tryLock (order : list session) (m : RowLockManager) (owner : session) (key : string)
    (mode : LockMode) : RowLockManager * (bool * option session) :=
  tryLock_loaded order m owner key mode (entry m key).

(** ** Waiting *)

(** [hasCycleLocked]: [fuel] bounds the walk, which visits no session twice. *)
Fixpoint cycle_walk (fuel : nat) (w : gmap session session) (start : session) (seen : gset session)
    (cur : option session) : option bool :=
  match fuel with
  | O => None
  | S k =>
      match cur with
      | None => Some false
      | Some c => if decide (c ∈ seen) then Some (bool_decide (c = start))
                  else cycle_walk k w start ({[c]} ∪ seen) (w !! c)
      end
  end.

Definition hasCycleLocked (w : gmap session session) (start : session) : bool :=
  match cycle_walk (size w + 3) w start ∅ (Some start) with Some b => b | None => false end.

(** [l.waits[owner] = other] *)
Definition set_wait (w : gmap session session) (owner : session) (other : option session)
    : gmap session session :=
  match other with Some o => <[owner := o]> w | None => delete owner w end.

(** The critical section of [waitMu] in [waitFor]: whether waiting would close a cycle. *)
Definition wait_graph (m : RowLockManager) (owner : session) (other : option session)
    : RowLockManager * bool :=
  let w := set_wait (waits m) owner other in
  if hasCycleLocked w owner then (set_waits m (delete owner w), true) else (set_waits m w, false).

(** The critical section of [e.mu] in [waitFor]: [None] when the entry is gone or free. *)
Definition enqueue (m : RowLockManager) (key : string) (a : addr) : option (RowLockManager * chan) :=
  match heap m !! a with
  | None => None
  | Some e =>
      if decide (entry m key = Some a /\ owners e <> ∅)
      then let ch := next m in
           Some (mkManager (<[a := mkEntry (closed e) (owners e) ({[ch]} ∪ waiters e)]> (heap m))
                   (entries m) (active m) (waits m) (Pos.succ ch), ch)
      else None
  end.

(** [delete(e.waiters, ch)] under [e.mu]. *)
Definition forget_waiter (m : RowLockManager) (a : addr) (ch : chan) : RowLockManager :=
  match heap m !! a with
  | None => m
  | Some e => set_entry m a (mkEntry (closed e) (owners e) (waiters e ∖ {[ch]}))
  end.

(** [if l.waits[owner] == other { delete(l.waits, owner) }] *)
Definition leave_graph (m : RowLockManager) (owner : session) (other : option session) : RowLockManager :=
  if decide (waits m !! owner = other) then set_waits m (delete owner (waits m)) else m.

(** ** Releasing *)

(** The critical section of [Release], and of one round of [ReleaseAll]: the channels it closes. *)
Definition release_entry (m : RowLockManager) (owner : session) (key : string) (a : addr)
    : RowLockManager * gset chan :=
  match heap m !! a with
  | None => (m, ∅)
  | Some e =>
      let owners' := delete owner (owners e) in
      if decide (owners' = ∅)
      then (mkManager (<[a := mkEntry true owners' ∅]> (heap m)) (delete key (entries m))
              (active m - 1) (waits m) (next m), waiters e)
      else (set_entry m a (mkEntry (closed e) owners' (waiters e)), ∅)
  end.

Definition Release (m : RowLockManager) (owner : session) (key : string) : RowLockManager * gset chan :=
  match entry m key with
  | None => (m, ∅)
  | Some a => release_entry m owner key a
  end.

(** [l.entries.Range]: [keys] are the keys it visits, in its order. *)
Fixpoint release_range (m : RowLockManager) (owner : session) (keys : list string)
    : RowLockManager * gset chan :=
  match keys with
  | [] => (m, ∅)
  | key :: rest =>
      let (m', woken) := Release m owner key in
      let (m'', more) := release_range m' owner rest in
      (m'', woken ∪ more)
  end.

Definition ReleaseAll (m : RowLockManager) (owner : session) (keys : list string)
    : RowLockManager * gset chan :=
  let (m', woken) := release_range m owner keys in
  (set_waits m' (delete owner (waits m')), woken).

(** ** Writing *)

(** A session other than [owner] holds the entry. *)
Definition held_by_other (m : RowLockManager) (owner : session) (a : addr) : bool :=
  match heap m !! a with
  | None => false
  | Some e => existsb (fun o => bool_decide (o <> owner)) (map fst (map_to_list (owners e)))
  end.

(** [BeginWrite]: [keys] are the rows written, [prefixes] the key prefixes of the tables; the gate is
    held until the batch is published. *)
Definition BeginWrite (m : RowLockManager) (owner : session) (keys prefixes : list string)
    : option lock_error :=
  if decide (active m = 0%Z) then None
  else if existsb (fun key => match entry m key with
                              | Some a => held_by_other m owner a
                              | None => false
                              end) keys then Some ErrRowLocked
  else if existsb (fun ka => existsb (fun p => String.prefix p (fst ka)) prefixes
                             && held_by_other m owner (snd ka)) (map_to_list (entries m))
  then Some ErrRowLocked
  else None.

Definition BeginTableWrite (m : RowLockManager) (owner : session) (prefix : string)
    : option lock_error := BeginWrite m owner [] [prefix].

(** ** Interleaving

    Every session runs one operation at a time; [pc] is where it is between two critical
    sections.  The gate is held for writing from the load of the entry to the end of [tryLock].
    [granted] records what each session was granted and has not begun to release. *)
Module Sys.

Inductive pc : Set :=
  | Idle
  | AcqStart (key : string) (mode : LockMode) (wait : LockWait)
  | AcqLoaded (key : string) (mode : LockMode) (wait : LockWait) (loaded : option addr)
  | WaitStart (key : string) (mode : LockMode) (other : option session)
  | WaitLoaded (key : string) (mode : LockMode) (other : option session) (a : addr)
  | WaitQueued (key : string) (mode : LockMode) (other : option session) (a : addr) (ch : chan)
  | Sleeping (key : string) (mode : LockMode) (other : option session) (a : addr) (ch : chan)
  | RelLoaded (key : string) (a : addr)
  | RangeNext (keys : list string)
  | RangeLoaded (key : string) (a : addr) (keys : list string).

Record sys : Set := mkSys {
  mgr : RowLockManager;
  gate : option session;
  pcs : gmap session pc;
  woken : gset chan;
  granted : gmap (session * string) LockMode;
  failed : gmap session lock_error
}.

Definition init : sys := mkSys NewRowLockManager None ∅ ∅ ∅ ∅.

Definition at_pc (y : sys) (s : session) : pc := default Idle (pcs y !! s).

Definition goto (y : sys) (s : session) (p : pc) : sys :=
  mkSys (mgr y) (gate y) (<[s := p]> (pcs y)) (woken y) (granted y) (failed y).

Definition with_mgr (y : sys) (m : RowLockManager) : sys :=
  mkSys m (gate y) (pcs y) (woken y) (granted y) (failed y).

Definition fail_with (y : sys) (s : session) (e : lock_error) : sys :=
  mkSys (mgr y) (gate y) (<[s := Idle]> (pcs y)) (woken y) (granted y) (<[s := e]> (failed y)).

Inductive label : Set :=
  | Acquire (key : string) (mode : LockMode) (wait : LockWait)
  | EnterGate
  | Try (order : list session)
  | LoadWait
  | Enqueue
  | Graph
  | Wake
  | Timeout_
  | CallRelease (key : string)
  | CallReleaseAll (keys : list string)
  | RangeLoad
  | Section_.

(** One step of session [s]; [None] when it is not at that point. *)
Definition step (s : session) (l : label) (y : sys) : option sys :=
  match l, at_pc y s with
  | Acquire key mode wait, Idle => Some (goto y s (AcqStart key mode wait))
  | EnterGate, AcqStart key mode wait =>
      match gate y with
      | Some _ => None
      | None =>
          let y' := goto y s (AcqLoaded key mode wait (entry (mgr y) key)) in
          Some (mkSys (mgr y') (Some s) (pcs y') (woken y') (granted y') (failed y'))
      end
  | Try order, AcqLoaded key mode wait loaded =>
      let (m, r) := tryLock_loaded order (mgr y) s key mode loaded in
      let y := mkSys m None (pcs y) (woken y) (granted y) (failed y) in
      if fst r then
        Some (mkSys m None (<[s := Idle]> (pcs y)) (woken y) (<[(s, key) := mode]> (granted y)) (failed y))
      else match wait with
           | LockWaitNoWait => Some (fail_with y s ErrLockNotAvailable)
           | LockWaitSkip => Some (fail_with y s ErrRowLocked)
           | LockWaitBlock => Some (goto y s (WaitStart key mode (snd r)))
           end
  | LoadWait, WaitStart key mode other =>
      match entry (mgr y) key with
      | None => Some (goto y s (AcqStart key mode LockWaitBlock))
      | Some a => Some (goto y s (WaitLoaded key mode other a))
      end
  | Enqueue, WaitLoaded key mode other a =>
      match enqueue (mgr y) key a with
      | None => Some (goto y s (AcqStart key mode LockWaitBlock))
      | Some (m, ch) => Some (goto (with_mgr y m) s (WaitQueued key mode other a ch))
      end
  | Graph, WaitQueued key mode other a ch =>
      let (m, deadlock) := wait_graph (mgr y) s other in
      if deadlock then Some (fail_with (with_mgr y (forget_waiter m a ch)) s ErrDeadlockDetected)
      else Some (goto (with_mgr y m) s (Sleeping key mode other a ch))
  | Wake, Sleeping key mode other a ch =>
      if decide (ch ∈ woken y)
      then Some (goto (with_mgr y (leave_graph (mgr y) s other)) s (AcqStart key mode LockWaitBlock))
      else None
  | Timeout_, Sleeping key mode other a ch =>
      Some (fail_with (with_mgr y (leave_graph (forget_waiter (mgr y) a ch) s other)) s
              ErrDeadlockDetected)
  | CallRelease key, Idle =>
      let y := mkSys (mgr y) (gate y) (pcs y) (woken y) (delete (s, key) (granted y)) (failed y) in
      match entry (mgr y) key with
      | None => Some y
      | Some a => Some (goto y s (RelLoaded key a))
      end
  | CallReleaseAll keys, Idle =>
      let y := mkSys (mgr y) (gate y) (pcs y) (woken y)
                 (filter (fun x => fst (fst x) <> s) (granted y)) (failed y) in
      Some (goto y s (RangeNext keys))
  | RangeLoad, RangeNext [] =>
      Some (goto (with_mgr y (set_waits (mgr y) (delete s (waits (mgr y))))) s Idle)
  | RangeLoad, RangeNext (key :: keys) =>
      match entry (mgr y) key with
      | None => Some (goto y s (RangeNext keys))
      | Some a => Some (goto y s (RangeLoaded key a keys))
      end
  | Section_, RelLoaded key a =>
      let (m, chs) := release_entry (mgr y) s key a in
      Some (goto (mkSys m (gate y) (pcs y) (woken y ∪ chs) (granted y) (failed y)) s Idle)
  | Section_, RangeLoaded key a keys =>
      let (m, chs) := release_entry (mgr y) s key a in
      Some (goto (mkSys m (gate y) (pcs y) (woken y ∪ chs) (granted y) (failed y)) s (RangeNext keys))
  | _, _ => None
  end.

Fixpoint run (trace : list (session * label)) (y : sys) : option sys :=
  match trace with
  | [] => Some y
  | (s, l) :: rest => match step s l y with Some y' => run rest y' | None => None end
  end.

End Sys.
