(* ===== verification/RowLockFacts.v ===== *)
(** * Properties of the row locks

    With its operations run one at a time, the manager keeps its invariant, grants exactly the
    compatible requests, and lets a write through exactly when no other session holds a written row;
    the deadlock walk finds exactly the cycles.  Interleaved, it does not: the last section has the
    schedules that break it. *)
From Stdlib Require Import NArith ZArith Lia String.
From stdpp Require Import base option list gmap sets strings.
From S2P Require Import Prelude RowLock.

(** ** The invariant *)

(** A session that holds a row for update is its only owner. *)
Definition exclusive (os : gmap session LockMode) : Prop :=
  forall o o', os !! o = Some LockUpdate -> is_Some (os !! o') -> o' = o.

Record inv (m : RowLockManager) : Prop := {
  inv_open : forall key a, entries m !! key = Some a ->
    exists e, heap m !! a = Some e /\ closed e = false /\ owners e <> ∅ /\ exclusive (owners e);
  inv_inj : forall k1 k2 a, entries m !! k1 = Some a -> entries m !! k2 = Some a -> k1 = k2;
  inv_fresh : forall key a, entries m !! key = Some a -> (a < next m)%positive;
  inv_active : active m = Z.of_nat (size (entries m))
}.

Lemma inv_new : inv NewRowLockManager.
Proof. split; cbn; try (intros *; rewrite lookup_empty; discriminate). reflexivity. Qed.

(** What a session holds of a key. *)
Definition holders (m : RowLockManager) (key : string) : gmap session LockMode :=
  match entries m !! key with
  | Some a => match heap m !! a with Some e => owners e | None => ∅ end
  | None => ∅
  end.

(** An iteration over the owners of a key visits each of them. *)
Definition order_ok (m : RowLockManager) (key : string) (order : list session) : Prop :=
  forall o, o ∈ order <-> is_Some (holders m key !! o).

(** ** Requests *)

(** A request is compatible with what the other sessions hold. *)
Definition compatible (os : gmap session LockMode) (owner : session) (mode : LockMode) : Prop :=
  os !! owner = Some LockUpdate \/
  forall o held, o <> owner -> os !! o = Some held -> mode = LockShare /\ held = LockShare.

(** The owners after a grant: a session keeps the stronger of its modes. *)
Definition grant (os : gmap session LockMode) (owner : session) (mode : LockMode) : gmap session LockMode :=
  match os !! owner with
  | Some LockUpdate => os
  | _ => <[owner := mode]> os
  end.

Lemma sole_owner (os : gmap session LockMode) (owner : session) (held : LockMode) :
  os !! owner = Some held ->
  size os = 1 <-> forall o, o <> owner -> os !! o = None.
Proof.
  intros H. pose proof (map_size_delete_Some owner os (ex_intro _ _ H)) as Hd. split.
  - intros Hs o Ho. assert (size (delete owner os) = 0) as Hz by lia.
    apply map_size_empty_iff in Hz. rewrite <- (lookup_delete_ne os owner o) by congruence.
    rewrite Hz. apply lookup_empty.
  - intros Ho. assert (delete owner os = ∅) as Hz.
    { apply map_eq. intros o. rewrite lookup_empty. destruct (decide (o = owner)) as [->|Hne].
      - apply lookup_delete_eq.
      - rewrite lookup_delete_ne by congruence. now apply Ho. }
    rewrite Hz, map_size_empty in Hd. assert (size os <> 0); [|lia].
    apply map_size_non_empty_iff. intros ->. rewrite lookup_empty in H. discriminate.
Qed.

Lemma head_in (order : list session) (os : gmap session LockMode) (o : session) :
  (forall x, x ∈ order <-> is_Some (os !! x)) -> is_Some (os !! o) ->
  exists x, head order = Some x /\ is_Some (os !! x).
Proof.
  intros Ho Hs. destruct order as [|x order].
  - apply Ho in Hs. now apply not_elem_of_nil in Hs.
  - exists x. split; [reflexivity|]. apply Ho. left.
Qed.

(** What [tryLock] decides on an open entry. *)
Lemma try_entry_spec (order : list session) (owner : session) (mode : LockMode) (e : rowLockEntry) :
  (forall o, o ∈ order <-> is_Some (owners e !! o)) -> exclusive (owners e) ->
  let (e', r) := try_entry order owner mode e in
  (compatible (owners e) owner mode /\ r = (true, None) /\
     e' = mkEntry (closed e) (grant (owners e) owner mode) (waiters e)) \/
  (~ compatible (owners e) owner mode /\ e' = e /\
     exists o, r = (false, Some o) /\ is_Some (owners e !! o)).
Proof.
  intros Hord Hex. destruct e as [cl os ws]. unfold try_entry, grant, with_owner, compatible.
  cbn [owners closed waiters] in *. destruct (os !! owner) as [[]|] eqn:Hcur; cbn [is_update negb orb].
  - left. split; [now left|]. split; reflexivity.
  - destruct mode; cbn [is_update negb orb].
    + case_decide as Hsize.
      * left. rewrite (sole_owner _ _ _ Hcur) in Hsize. repeat split. right. intros o held Hne Hh.
        rewrite Hsize in Hh by exact Hne. discriminate.
      * right. destruct (head_in order os owner Hord) as (x & Hx & Hs); [eauto|]. rewrite Hx.
        split; [|eauto]. intros [Hc|Hc]; [discriminate|]. apply Hsize, (sole_owner _ _ _ Hcur).
        intros o Hne. destruct (os !! o) as [held|] eqn:Hh; [|reflexivity].
        destruct (Hc o held Hne Hh). discriminate.
    + left. split; [|split; [reflexivity|now rewrite insert_id]].
      right. intros o held Hne Hh. split; [reflexivity|]. destruct held; [|reflexivity].
      contradict Hne. symmetry. apply (Hex o owner Hh). eauto.
  - case_decide as Hempty.
    + left. subst os. repeat split. right. intros o held _ Hh. rewrite lookup_empty in Hh. discriminate.
    + destruct (map_choose os Hempty) as (o0 & h0 & Ho0).
      assert (Hne0 : o0 <> owner) by congruence.
      destruct mode.
      * right. destruct (head_in order os o0 Hord) as (x & Hx & Hs); [eauto|]. rewrite Hx.
        split; [|eauto]. intros [Hc|Hc]; [discriminate|]. now destruct (Hc o0 h0 Hne0 Ho0).
      * destruct (find _ order) as [x|] eqn:Hf.
        -- apply find_some in Hf as [_ Hx]. apply bool_decide_eq_true in Hx. right.
           split; [|eauto]. intros [Hc|Hc]; [discriminate|].
           destruct (Hc x LockUpdate); [congruence|exact Hx|discriminate].
        -- left. repeat split. right. intros o held Hne Hh. split; [reflexivity|].
           destruct held; [|reflexivity]. exfalso.
           assert (Hin : o ∈ order) by (apply Hord; eauto). apply list_elem_of_In in Hin.
           pose proof (find_none _ _ Hf o Hin) as Hn. cbn beta in Hn.
           apply bool_decide_eq_false in Hn. contradiction.
Qed.

(** ** The operations on the invariant *)

Lemma grant_exclusive (os : gmap session LockMode) (owner : session) (mode : LockMode) :
  exclusive os -> compatible os owner mode -> exclusive (grant os owner mode).
Proof.
  intros Hex Hc. unfold grant.
  assert (G : os !! owner <> Some LockUpdate -> exclusive (<[owner := mode]> os)).
  { intros Hn. destruct Hc as [Hc|Hc]; [contradiction|]. intros o o' Ho [h Ho'].
    destruct (decide (o = owner)) as [->|H1], (decide (o' = owner)) as [->|H2]; try reflexivity.
    - rewrite lookup_insert_eq in Ho. injection Ho as ->. rewrite lookup_insert_ne in Ho' by congruence.
      now destruct (Hc o' h H2 Ho').
    - rewrite lookup_insert_ne in Ho by congruence. now destruct (Hc o LockUpdate H1 Ho).
    - rewrite lookup_insert_ne in Ho, Ho' by congruence. apply (Hex o o' Ho). eauto. }
  destruct (os !! owner) as [[]|]; [exact Hex|now apply G..].
Qed.

Lemma grant_not_empty (os : gmap session LockMode) (owner : session) (mode : LockMode) :
  grant os owner mode <> ∅.
Proof.
  unfold grant. destruct (os !! owner) as [[]|] eqn:H; try apply insert_non_empty.
  intros ->. rewrite lookup_empty in H. discriminate.
Qed.

(** Changing an open entry to another open entry. *)
Lemma inv_set_entry (m : RowLockManager) (key : string) (a : addr) (e : rowLockEntry) :
  inv m -> entries m !! key = Some a -> closed e = false -> owners e <> ∅ -> exclusive (owners e) ->
  inv (set_entry m a e).
Proof.
  intros Hi Ha Hc Hne Hex. split; cbn.
  - intros k b Hb. destruct (decide (b = a)) as [->|Hab].
    + rewrite lookup_insert_eq. eauto.
    + rewrite lookup_insert_ne by congruence. exact (inv_open _ Hi k b Hb).
  - apply Hi.
  - apply Hi.
  - apply Hi.
Qed.

Lemma inv_store_new (m : RowLockManager) (owner : session) (key : string) (mode : LockMode) :
  inv m -> entries m !! key = None -> inv (store_new m owner key mode).
Proof.
  intros Hi Hk. split; cbn.
  - intros k a Ha. destruct (decide (k = key)) as [->|Hne].
    + rewrite lookup_insert_eq in Ha. injection Ha as <-. rewrite lookup_insert_eq.
      eexists. split; [reflexivity|]. split; [reflexivity|]. cbn. split; [apply insert_non_empty|].
      intros o o' Ho [h Ho']. apply lookup_singleton_Some in Ho as [-> _].
      now apply lookup_singleton_Some in Ho' as [-> _].
    + rewrite lookup_insert_ne in Ha by congruence. pose proof (inv_fresh _ Hi k a Ha).
      rewrite lookup_insert_ne by lia. exact (inv_open _ Hi k a Ha).
  - intros k1 k2 a H1 H2. destruct (decide (k1 = key)) as [->|N1], (decide (k2 = key)) as [->|N2]; [done|..];
      repeat match goal with
      | H : <[key := _]> _ !! key = _ |- _ => rewrite lookup_insert_eq in H; injection H as <-
      | H : <[key := _]> _ !! _ = _ |- _ => rewrite lookup_insert_ne in H by congruence
      end.
    + pose proof (inv_fresh _ Hi _ _ H2). lia.
    + pose proof (inv_fresh _ Hi _ _ H1). lia.
    + exact (inv_inj _ Hi _ _ _ H1 H2).
  - intros k a Ha. destruct (decide (k = key)) as [->|Hne].
    + rewrite lookup_insert_eq in Ha. injection Ha as <-. lia.
    + rewrite lookup_insert_ne in Ha by congruence. pose proof (inv_fresh _ Hi k a Ha). lia.
  - rewrite map_size_insert_None by exact Hk. rewrite (inv_active _ Hi). lia.
Qed.

Lemma exclusive_empty : exclusive ∅.
Proof. intros o o' H. rewrite lookup_empty in H. discriminate. Qed.

Lemma holders_exclusive (m : RowLockManager) (key : string) : inv m -> exclusive (holders m key).
Proof.
  intros Hi. unfold holders. destruct (entries m !! key) as [a|] eqn:Ha; [|exact exclusive_empty].
  destruct (inv_open _ Hi key a Ha) as (e & -> & _ & _ & Hex). exact Hex.
Qed.

(** Writing the entry of one key leaves the other keys' holders alone. *)
Lemma holders_set_entry (m : RowLockManager) (key : string) (a : addr) (e : rowLockEntry) (k : string) :
  inv m -> entries m !! key = Some a ->
  holders (set_entry m a e) k = if decide (k = key) then owners e else holders m k.
Proof.
  intros Hi Ha. unfold holders. cbn. case_decide as Hk.
  - subst k. rewrite Ha. now rewrite lookup_insert_eq.
  - destruct (entries m !! k) as [b|] eqn:Hb; [|reflexivity].
    rewrite lookup_insert_ne; [reflexivity|]. intros <-. apply Hk. exact (inv_inj _ Hi _ _ _ Hb Ha).
Qed.

Lemma holders_store_new (m : RowLockManager) (owner : session) (key : string) (mode : LockMode) (k : string) :
  inv m -> holders (store_new m owner key mode) k =
    if decide (k = key) then {[owner := mode]} else holders m k.
Proof.
  intros Hi. unfold holders. cbn. case_decide as Hk.
  - subst k. now rewrite !lookup_insert_eq.
  - rewrite lookup_insert_ne by congruence. destruct (entries m !! k) as [b|] eqn:Hb; [|reflexivity].
    pose proof (inv_fresh _ Hi k b Hb). rewrite lookup_insert_ne by lia. reflexivity.
Qed.

Lemma set_entry_id (m : RowLockManager) (a : addr) (e : rowLockEntry) :
  heap m !! a = Some e -> set_entry m a e = m.
Proof. intros H. destruct m. unfold set_entry. cbn in *. now rewrite insert_id. Qed.

(** The outcome of a request, on the table of holders. *)
Definition request_outcome (m m' : RowLockManager) (owner : session) (key : string) (mode : LockMode)
    (r : bool * option session) : Prop :=
  (compatible (holders m key) owner mode /\ r = (true, None) /\
     forall k, holders m' k = if decide (k = key) then grant (holders m key) owner mode else holders m k) \/
  (~ compatible (holders m key) owner mode /\ m' = m /\
     exists o, r = (false, Some o) /\ is_Some (holders m key !! o)).

Lemma tryLock_outcome (order : list session) (m : RowLockManager) (owner : session) (key : string)
    (mode : LockMode) :
  inv m -> order_ok m key order ->
  let (m', r) := tryLock order m owner key mode in request_outcome m m' owner key mode r /\ inv m'.
Proof.
  intros Hi Ho. unfold tryLock, tryLock_loaded, entry. destruct (entries m !! key) as [a|] eqn:Ha.
  - destruct (inv_open _ Hi key a Ha) as (e & He & Hc & Hne & Hex). rewrite He, Hc.
    assert (Hh : holders m key = owners e) by (unfold holders; now rewrite Ha, He).
    unfold order_ok in Ho. rewrite Hh in Ho.
    pose proof (try_entry_spec order owner mode e Ho Hex) as Hspec.
    destruct (try_entry order owner mode e) as [e' r]. unfold request_outcome. rewrite Hh.
    destruct Hspec as [(Hcomp & -> & ->)|(Hcomp & -> & Hr)].
    + split.
      * left. split; [exact Hcomp|]. split; [reflexivity|]. intros k.
        now rewrite (holders_set_entry m key).
      * apply (inv_set_entry m key); cbn; auto using grant_not_empty, grant_exclusive.
    + rewrite set_entry_id by exact He. split; [|exact Hi]. right. auto.
  - assert (Hh : holders m key = ∅) by (unfold holders; now rewrite Ha).
    split; [|now apply inv_store_new]. left. rewrite Hh. split; [|split; [reflexivity|]].
    + right. intros o h _ H. rewrite lookup_empty in H. discriminate.
    + intros k. rewrite holders_store_new by exact Hi. unfold grant. now rewrite lookup_empty.
Qed.

(** ** Releases *)

Lemma release_entry_outcome (m : RowLockManager) (owner : session) (key : string) (a : addr) :
  inv m -> entries m !! key = Some a ->
  let m' := (release_entry m owner key a).1 in
  inv m' /\ forall k, holders m' k = if decide (k = key) then delete owner (holders m key) else holders m k.
Proof.
  intros Hi Ha. destruct (inv_open _ Hi key a Ha) as (e & He & Hc & Hne & Hex).
  assert (Hh : holders m key = owners e) by (unfold holders; now rewrite Ha, He).
  unfold release_entry. rewrite He, Hh. case_decide as Hempty; cbn [fst].
  - split; [split; cbn|].
    + intros k b Hb. apply lookup_delete_Some in Hb as [Hk Hb]. rewrite lookup_insert_ne.
      * exact (inv_open _ Hi k b Hb).
      * intros ->. apply Hk. exact (inv_inj _ Hi _ _ _ Ha Hb).
    + intros k1 k2 b H1 H2. apply lookup_delete_Some in H1 as [_ H1], H2 as [_ H2].
      exact (inv_inj _ Hi _ _ _ H1 H2).
    + intros k b Hb. apply lookup_delete_Some in Hb as [_ Hb]. exact (inv_fresh _ Hi k b Hb).
    + rewrite map_size_delete_Some by eauto. rewrite (inv_active _ Hi).
      assert (size (entries m) <> 0); [|lia]. apply map_size_non_empty_iff. intros E.
      rewrite E, lookup_empty in Ha. discriminate.
    + intros k. unfold holders. cbn. case_decide as Hk.
      * subst k. now rewrite lookup_delete_eq, Hempty.
      * rewrite lookup_delete_ne by congruence. destruct (entries m !! k) as [b|] eqn:Hb; [|reflexivity].
        rewrite lookup_insert_ne; [reflexivity|]. intros <-. apply Hk. exact (inv_inj _ Hi _ _ _ Hb Ha).
  - split.
    + apply (inv_set_entry m key); cbn; auto. intros o o' Ho [h Ho'].
      apply lookup_delete_Some in Ho as [_ Ho]. apply lookup_delete_Some in Ho' as [_ Ho'].
      apply (Hex o o' Ho). eauto.
    + intros k. now rewrite (holders_set_entry m key).
Qed.

Lemma Release_outcome (m : RowLockManager) (owner : session) (key : string) :
  inv m ->
  let m' := (Release m owner key).1 in
  inv m' /\ forall k, holders m' k = if decide (k = key) then delete owner (holders m key) else holders m k.
Proof.
  intros Hi. unfold Release, entry. destruct (entries m !! key) as [a|] eqn:Ha.
  - now apply release_entry_outcome.
  - split; [exact Hi|]. cbn. intros k. case_decide as Hk; [|reflexivity]. subst k.
    unfold holders. rewrite Ha. now rewrite delete_empty.
Qed.

Lemma release_range_outcome (keys : list string) : forall (m : RowLockManager) (owner : session),
  inv m ->
  let m' := (release_range m owner keys).1 in
  inv m' /\ forall k, holders m' k = if decide (k ∈ keys) then delete owner (holders m k) else holders m k.
Proof.
  induction keys as [|key keys IH]; intros m owner Hi; cbn [release_range].
  - split; [exact Hi|]. intros k. now rewrite decide_False by apply not_elem_of_nil.
  - destruct (Release m owner key) as [m1 w1] eqn:E1.
    pose proof (Release_outcome m owner key Hi) as [Hi1 H1]. rewrite E1 in Hi1, H1. cbn [fst] in *.
    destruct (release_range m1 owner keys) as [m2 w2] eqn:E2.
    pose proof (IH m1 owner Hi1) as [Hi2 H2]. rewrite E2 in Hi2, H2. cbn [fst] in *.
    split; [exact Hi2|]. intros k. rewrite H2, H1.
    destruct (decide (k ∈ keys)), (decide (k = key)) as [->|]; rewrite ?delete_delete_eq;
      first [now rewrite decide_True by (rewrite elem_of_cons; tauto)
            |now rewrite decide_False by (rewrite elem_of_cons; tauto)].
Qed.

Lemma set_waits_outcome (m : RowLockManager) (w : gmap session session) :
  inv m -> inv (set_waits m w) /\ forall k, holders (set_waits m w) k = holders m k.
Proof. intros Hi. split; [destruct Hi; now split|reflexivity]. Qed.

Lemma waiters_outcome (m : RowLockManager) (key : string) (a : addr) (ws : gset chan) (e : rowLockEntry) :
  inv m -> heap m !! a = Some e -> 
  let m' := set_entry m a (mkEntry (closed e) (owners e) ws) in
  inv m' /\ forall k, holders m' k = holders m k.
Proof.
  intros Hi He. split; [split; cbn; try apply Hi|].
  - intros k b Hb. destruct (inv_open _ Hi k b Hb) as (e' & He' & H').
    destruct (decide (a = b)) as [->|Hab].
    + rewrite lookup_insert_eq. eexists. split; [reflexivity|]. cbn. congruence.
    + rewrite lookup_insert_ne by exact Hab. eauto.
  - intros k. unfold holders. cbn. destruct (entries m !! k) as [b|]; [|reflexivity].
    destruct (decide (a = b)) as [->|Hab]; [now rewrite lookup_insert_eq, He|].
    now rewrite lookup_insert_ne by exact Hab.
Qed.

(** ** The manager, one operation at a time *)

(** The operations on the manager, each run without interruption. *)
Inductive op : Set :=
  | OTry (order : list session) (owner : session) (key : string) (mode : LockMode)
  | OEnqueue (key : string) (a : addr)
  | OForget (a : addr) (ch : chan)
  | OGraph (owner : session) (other : option session)
  | OLeave (owner : session) (other : option session)
  | ORelease (owner : session) (key : string)
  | OReleaseAll (owner : session) (keys : list string).

Definition perform (o : op) (m : RowLockManager) : RowLockManager :=
  match o with
  | OTry order owner key mode => (tryLock order m owner key mode).1
  | OEnqueue key a => match enqueue m key a with Some (m', _) => m' | None => m end
  | OForget a ch => forget_waiter m a ch
  | OGraph owner other => (wait_graph m owner other).1
  | OLeave owner other => leave_graph m owner other
  | ORelease owner key => (Release m owner key).1
  | OReleaseAll owner keys => (ReleaseAll m owner keys).1
  end.

(** Go visits every owner of an entry once, and every key of the map. *)
Definition iteration_ok (o : op) (m : RowLockManager) : Prop :=
  match o with
  | OTry order _ key _ => order_ok m key order
  | OReleaseAll _ keys => forall key, key ∈ keys <-> is_Some (entries m !! key)
  | _ => True
  end.

Inductive reachable : RowLockManager -> Prop :=
  | reach_new : reachable NewRowLockManager
  | reach_step m o : reachable m -> iteration_ok o m -> reachable (perform o m).

Lemma inv_perform (o : op) (m : RowLockManager) : inv m -> iteration_ok o m -> inv (perform o m).
Proof.
  intros Hi Ho. destruct o; cbn [perform iteration_ok] in *.
  - pose proof (tryLock_outcome order m owner key mode Hi Ho) as H.
    destruct (tryLock order m owner key mode). apply H.
  - unfold enqueue. destruct (heap m !! a) as [e|] eqn:He; [|exact Hi]. case_decide; [|exact Hi].
    destruct (waiters_outcome m key a ({[next m]} ∪ waiters e) e Hi He) as [[H1 H2 H3 H4] _].
    split; try assumption. cbn in *. intros k b Hb. specialize (H3 k b Hb). lia.
  - unfold forget_waiter. destruct (heap m !! a) as [e|] eqn:He; [|exact Hi].
    now apply (waiters_outcome m EmptyString a (waiters e ∖ {[ch]}) e Hi).
  - unfold wait_graph. destruct (hasCycleLocked _ _); now apply set_waits_outcome.
  - unfold leave_graph. case_decide; [now apply set_waits_outcome|exact Hi].
  - now apply Release_outcome.
  - unfold ReleaseAll. pose proof (release_range_outcome keys m owner Hi) as [H _].
    destruct (release_range m owner keys) as [m' w]. now apply set_waits_outcome.
Qed.

Lemma inv_reachable (m : RowLockManager) : reachable m -> inv m.
Proof. induction 1; [exact inv_new|now apply inv_perform]. Qed.

(** C16: row locks are exclusive when the operations run one at a time: in every state that
    acquisitions, waits and releases reach, a session that holds a row FOR UPDATE is its only
    holder, and the counter of active locks is the number of locked rows. *)
Theorem row_locks_exclusive (m : RowLockManager) (key : string) (owner other : session) :
  reachable m ->
  active m = Z.of_nat (size (entries m)) /\
  (holders m key !! owner = Some LockUpdate -> is_Some (holders m key !! other) -> other = owner).
Proof.
  intros Hr. pose proof (inv_reachable m Hr) as Hi. split; [apply Hi|]. apply (holders_exclusive m key Hi).
Qed.

(** A request is granted exactly when it is compatible.  In every reachable state [tryLock]
    grants the lock when the session already holds it for update, or when no other session holds
    the row, or when only readers do and a shared lock is asked for; a grant changes the holders
    of that row only, to the stronger of the session's modes; a refusal changes nothing and
    names a holder. *)
Theorem try_lock_decides (order : list session) (m : RowLockManager) (owner : session) (key : string)
    (mode : LockMode) :
  reachable m -> order_ok m key order ->
  let (m', r) := tryLock order m owner key mode in request_outcome m m' owner key mode r.
Proof.
  intros Hr Ho. pose proof (tryLock_outcome order m owner key mode (inv_reachable m Hr) Ho) as H.
  destruct (tryLock order m owner key mode). apply H.
Qed.

(** [ReleaseAll] releases exactly the locks of its session: in every reachable state, with
    the map visited in any order, no row is held by the session afterwards and every other
    holder is as before. *)
Theorem release_all_releases (m : RowLockManager) (owner : session) (keys : list string) (key : string) :
  reachable m -> (forall k, k ∈ keys <-> is_Some (entries m !! k)) ->
  holders (ReleaseAll m owner keys).1 key = delete owner (holders m key).
Proof.
  intros Hr Hk. pose proof (inv_reachable m Hr) as Hi. unfold ReleaseAll.
  pose proof (release_range_outcome keys m owner Hi) as [Hi' H].
  destruct (release_range m owner keys) as [m' w]. cbn [fst] in *.
  change (holders (set_waits m' (delete owner (waits m'))) key) with (holders m' key).
  rewrite H. case_decide as Hin; [reflexivity|]. unfold holders.
  destruct (entries m !! key) eqn:E; [|now rewrite delete_empty]. contradict Hin. apply Hk. eauto.
Qed.

(** ** Writes *)

Lemma held_by_other_false (m : RowLockManager) (owner : session) (key : string) (a : addr) :
  entries m !! key = Some a ->
  held_by_other m owner a = false <-> forall o, is_Some (holders m key !! o) -> o = owner.
Proof.
  intros Ha. unfold held_by_other, holders. rewrite Ha. destruct (heap m !! a) as [e|].
  - split.
    + intros H o [h Ho]. destruct (decide (o = owner)) as [->|Hne]; [reflexivity|]. exfalso.
      apply not_true_iff_false in H. apply H. apply existsb_exists. exists o.
      split; [|now apply bool_decide_eq_true]. apply in_map_iff. exists (o, h). split; [reflexivity|].
      apply list_elem_of_In. now apply elem_of_map_to_list.
    + intros H. apply not_true_iff_false. intros E. apply existsb_exists in E as (o & Hin & Ho).
      apply bool_decide_eq_true in Ho. apply in_map_iff in Hin as ([o' h] & <- & Hin).
      apply list_elem_of_In, elem_of_map_to_list in Hin. apply Ho, H. eauto.
  - split; [|reflexivity]. intros _ o [h Ho]. rewrite lookup_empty in Ho. discriminate.
Qed.

(** Nobody but [owner] holds a row of [keys], or a row of a table of [prefixes]. *)
Definition write_free (m : RowLockManager) (owner : session) (keys prefixes : list string) : Prop :=
  forall key o, is_Some (holders m key !! o) ->
    key ∈ keys \/ (exists p, p ∈ prefixes /\ String.prefix p key = true) -> o = owner.

(** The write-side check is exact when the operations run one at a time: in every reachable
    state [BeginWrite] lets a write through exactly when no other session holds a lock on a row
    it names, or on any row of a table it names. *)
Theorem begin_write_exact (m : RowLockManager) (owner : session) (keys prefixes : list string) :
  reachable m ->
  BeginWrite m owner keys prefixes = None <-> write_free m owner keys prefixes.
Proof.
  intros Hr. pose proof (inv_reachable m Hr) as Hi. unfold BeginWrite, write_free, entry.
  case_decide as Hact.
  { split; [|reflexivity]. intros _ key o [h Ho] _. exfalso. unfold holders in Ho.
    rewrite (inv_active _ Hi) in Hact. assert (size (entries m) = 0) as Hs by lia.
    apply map_size_empty_iff in Hs. rewrite Hs, lookup_empty, lookup_empty in Ho. discriminate. }
  assert (Hheld : forall key o, is_Some (holders m key !! o) -> exists a, entries m !! key = Some a).
  { intros key o [h Ho]. unfold holders in Ho. destruct (entries m !! key) eqn:E; [eauto|].
    rewrite lookup_empty in Ho. discriminate. }
  destruct (existsb _ keys) eqn:Hk; [|destruct (existsb _ (map_to_list _)) eqn:Hp].
  - split; [discriminate|]. intros H. exfalso. apply existsb_exists in Hk as (key & Hin & Hb).
    destruct (entries m !! key) as [a|] eqn:Ha; [|discriminate]. apply not_false_iff_true in Hb.
    apply Hb, (held_by_other_false m owner key a Ha). intros o Ho. apply (H key o Ho). left.
    now apply list_elem_of_In.
  - split; [discriminate|]. intros H. exfalso. apply existsb_exists in Hp as ([key a] & Hin & Hb).
    apply andb_prop in Hb as [Hpre Hb]. apply list_elem_of_In, elem_of_map_to_list in Hin. cbn [fst snd] in *.
    apply not_false_iff_true in Hb. apply Hb, (held_by_other_false m owner key a Hin).
    intros o Ho. apply (H key o Ho). right. apply existsb_exists in Hpre as (p & Hpin & Hpx).
    exists p. split; [now apply list_elem_of_In|exact Hpx].
  - split; [|reflexivity]. intros _ key o Ho [Hin|(p & Hpin & Hpx)]; destruct (Hheld key o Ho) as [a Ha].
    + apply (held_by_other_false m owner key a Ha); [|exact Ho].
      rewrite <- not_true_iff_false in Hk |- *. intros Hb. apply Hk, existsb_exists. exists key.
      split; [now apply list_elem_of_In|]. now rewrite Ha.
    + apply (held_by_other_false m owner key a Ha); [|exact Ho].
      rewrite <- not_true_iff_false in Hp |- *. intros Hb. apply Hp, existsb_exists. exists (key, a).
      split; [now apply list_elem_of_In, elem_of_map_to_list|]. cbn [fst snd]. rewrite Hb, andb_true_r.
      apply existsb_exists. exists p. split; [now apply list_elem_of_In|exact Hpx].
Qed.

(** ** The deadlock walk *)

Fixpoint follow (w : gmap session session) (n : nat) (s : session) : option session :=
  match n with
  | O => Some s
  | S k => match follow w k s with Some c => w !! c | None => None end
  end.

Lemma follow_add w a b s : follow w (a + b) s = match follow w b s with Some c => follow w a c | None => None end.
Proof.
  induction a as [|a IH]; cbn [Nat.add follow]; [now destruct (follow w b s)|].
  rewrite IH. now destruct (follow w b s).
Qed.

(** The state of the walk after [k] steps. *)
Record walking (w : gmap session session) (start : session) (k : nat) (seen : gset session) : Prop := {
  walk_seen : forall c, c ∈ seen <-> exists j, j < k /\ follow w j start = Some c;
  walk_some : forall j, j < k -> is_Some (follow w j start);
  walk_new : forall j, 1 <= j < k -> follow w j start <> Some start
}.

Lemma follow_none w s k n : follow w k s = None -> k <= n -> follow w n s = None.
Proof. intros H Hn. replace n with ((n - k) + k) by lia. now rewrite follow_add, H. Qed.

(** A walk that came back to a session other than [start] never meets [start] again. *)
Lemma walk_rho w start k i c :
  follow w i start = Some c -> follow w k start = Some c -> i < k -> 1 <= i ->
  (forall j, 1 <= j < k -> follow w j start <> Some start) ->
  forall n, 1 <= n -> follow w n start <> Some start.
Proof.
  intros Hi Hk Hik H1 Hnew n. induction n as [n IH] using lt_wf_ind. intros Hn.
  destruct (decide (n < k)) as [Hlt|Hge]; [now apply Hnew|].
  assert (E : follow w n start = follow w (n - k + i) start).
  { replace n with ((n - k) + k) at 1 by lia. now rewrite !follow_add, Hi, Hk. }
  rewrite E. apply IH; lia.
Qed.

Lemma walk_size w start k seen : walking w start k seen -> size seen = k -> k <= size w + 1.
Proof.
  intros [Hs Hsome _] Hk. destruct k as [|k]; [lia|].
  destruct (Hsome k ltac:(lia)) as [c Hc].
  assert (Hsub : seen ∖ {[c]} ⊆ dom w).
  { intros x Hx. apply elem_of_difference in Hx as [Hx Hne]. apply Hs in Hx as (j & Hj & Hf).
    apply elem_of_dom. destruct (decide (j = k)) as [->|].
    - exfalso. apply Hne, elem_of_singleton. congruence.
    - destruct (Hsome (S j) ltac:(lia)) as [y Hy]. cbn [follow] in Hy. rewrite Hf in Hy. eauto. }
  apply subseteq_size in Hsub. rewrite size_dom in Hsub.
  assert (Hin : c ∈ seen) by (apply Hs; eauto).
  rewrite size_difference in Hsub by now apply singleton_subseteq_l. rewrite size_singleton in Hsub. lia.
Qed.

Lemma walking_step w start k seen c :
  walking w start k seen -> follow w k start = Some c -> c ∉ seen -> walking w start (S k) ({[c]} ∪ seen).
Proof.
  intros [Hs Hsome Hnew] Hc Hfresh. split.
  - intros x. rewrite elem_of_union, elem_of_singleton, Hs. split.
    + intros [->|(j & Hj & Hf)]; [exists k|exists j]; (split; [lia|assumption]).
    + intros (j & Hj & Hf). destruct (decide (j = k)) as [->|]; [left; congruence|].
      right. exists j. split; [lia|exact Hf].
  - intros j Hj. destruct (decide (j = k)) as [->|]; [eauto|]. apply Hsome. lia.
  - intros j Hj. destruct (decide (j = k)) as [->|]; [|apply Hnew; lia].
    intros E. apply Hfresh, Hs. exists 0. split; [lia|]. cbn. congruence.
Qed.

Lemma cycle_walk_spec w start fuel : forall k seen,
  walking w start k seen -> size seen = k -> size w + 3 <= fuel + k ->
  exists b, cycle_walk fuel w start seen (follow w k start) = Some b /\
    (b = true <-> exists n, follow w (S n) start = Some start).
Proof.
  induction fuel as [|fuel IH]; intros k seen Hw Hk Hf.
  { pose proof (walk_size w start k seen Hw Hk). lia. }
  cbn [cycle_walk]. destruct (follow w k start) as [c|] eqn:Hc.
  - case_decide as Hin.
    + exists (bool_decide (c = start)). split; [reflexivity|]. rewrite bool_decide_eq_true.
      pose proof Hin as Hin'. apply (walk_seen _ _ _ _ Hw) in Hin' as (i & Hi & Hfi). split.
      * intros ->. destruct k as [|k]; [lia|]. eauto.
      * intros [n Hn]. destruct (decide (c = start)) as [|Hne]; [assumption|]. exfalso.
        refine (walk_rho w start k i c Hfi Hc Hi _ (walk_new _ _ _ _ Hw) (S n) ltac:(lia) Hn).
        destruct i; [cbn in Hfi; congruence|lia].
    + pose proof (walking_step w start k seen c Hw Hc Hin) as Hw'.
      destruct (IH (S k) ({[c]} ∪ seen) Hw') as (b & Hb & Hiff);
        [rewrite size_union by (now apply disjoint_singleton_l); rewrite size_singleton; lia|lia|].
      exists b. split; [|exact Hiff]. cbn [follow] in Hb. rewrite Hc in Hb. exact Hb.
  - exists false. split; [reflexivity|]. split; [discriminate|]. intros [n Hn]. exfalso.
    assert (Hmul : forall t, follow w (t * S n) start = Some start).
    { induction t as [|t IHt]; [reflexivity|]. cbn [Nat.mul]. now rewrite follow_add, IHt. }
    specialize (Hmul k). rewrite (follow_none w start k (k * S n)) in Hmul by (assumption || lia).
    discriminate.
Qed.

(** Deadlock detection is exact on the wait graph: [hasCycleLocked] returns on every graph, and
    reports a deadlock exactly when following the waits from the session leads back to it. *)
Theorem has_cycle_exact (w : gmap session session) (start : session) :
  (exists b, cycle_walk (size w + 3) w start ∅ (Some start) = Some b) /\
  (hasCycleLocked w start = true <-> exists n, follow w (S n) start = Some start).
Proof.
  destruct (cycle_walk_spec w start (size w + 3) 0 ∅) as (b & Hb & Hiff).
  - split; [|lia..]. intros c. rewrite elem_of_empty. split; [easy|]. intros (j & Hj & _). lia.
  - apply size_empty.
  - lia.
  - cbn [follow] in Hb. split; [eauto|]. unfold hasCycleLocked. now rewrite Hb.
Qed.

(** ** Schedules that break the locks *)

Section Schedules.
Import Sys.
Local Open Scope positive_scope.

Definition row : string := "t:1".

(** An uncontended [Acquire] of [row]: through the gate and [tryLock]. *)
Definition take (s : session) (mode : LockMode) (order : list session) : list (session * label) :=
  [(s, Acquire row mode LockWaitBlock); (s, EnterGate); (s, Try order)].

(** Session 1, which holds nothing, ends its transaction while session 2 releases the row: 1 has
    loaded the entry of 2 when 2 closes it, session 3 locks the row through a new entry, and 1
    then takes the old entry for a live one and removes the row from the map. *)
Definition race : list (session * label) :=
  take 2 LockUpdate [] ++ [(1, CallReleaseAll [row]); (1, RangeLoad)]
  ++ [(2, CallRelease row); (2, Section_)] ++ take 3 LockUpdate [] ++ [(1, Section_)].

(** Interleaved, [ReleaseAll] can drop another session's lock.  After the schedule [race],
    session 3 was granted the row FOR UPDATE and has not released it, yet a write of any other
    session to that row passes [BeginWrite], and session 4 is granted the row FOR UPDATE too. *)
Theorem release_all_race :
  (exists y, run race init = Some y /\
     granted y !! (3, row) = Some LockUpdate /\ BeginWrite (mgr y) 9 [row] [] = None) /\
  (exists y, run (race ++ take 4 LockUpdate []) init = Some y /\
     granted y !! (3, row) = Some LockUpdate /\ granted y !! (4, row) = Some LockUpdate).
Proof. split; (eexists; split; [vm_compute; reflexivity|]; split; vm_compute; reflexivity). Qed.

(** Sessions 1 and 2 read the row FOR SHARE; 1 then asks for it FOR UPDATE, and [tryLock] visits the
    owners in the order [order]. *)
Definition upgrade (order : list session) : list (session * label) :=
  take 1 LockShare [] ++ take 2 LockShare [1] ++ take 1 LockUpdate order
  ++ [(1, LoadWait); (1, Enqueue); (1, Graph)].

(** An upgrade from FOR SHARE to FOR UPDATE can fail with a deadlock although no session waits.
    When the iteration over the owners yields the upgrading session itself first, it is told to wait
    for itself and the wait graph reports a cycle; with the other order the same request waits. *)
Theorem upgrade_waits_for_itself :
  (exists y, run (upgrade [1; 2]) init = Some y /\ failed y !! 1 = Some ErrDeadlockDetected /\
     waits (mgr y) = ∅) /\
  (exists y a ch, run (upgrade [2; 1]) init = Some y /\ failed y = ∅ /\
     at_pc y 1 = Sleeping row LockUpdate (Some 2) a ch).
Proof.
  split.
  - eexists. split; [vm_compute; reflexivity|]. split; vm_compute; reflexivity.
  - eexists _, _, _. split; [vm_compute; reflexivity|]. split; vm_compute; reflexivity.
Qed.

(** An upgrade that waits is not woken when it could be granted.  After session 2 has released
    its shared lock the row is held by session 1 alone, but 1 still sleeps: its channel is not
    closed, because the release left the entry with an owner. *)
Theorem upgrade_is_not_woken :
  exists y, run (upgrade [2; 1] ++ [(2, CallRelease row); (2, Section_)]) init = Some y /\
    holders (mgr y) row = {[1 := LockShare]} /\ woken y = ∅ /\ step 1 Wake y = None.
Proof.
  eexists. split; [vm_compute; reflexivity|]. split; [|split]; vm_compute; reflexivity.
Qed.

End Schedules.

(** ** Witnesses *)

Definition two_readers : RowLockManager :=
  perform (OTry [1%positive] 2 "t:1" LockShare) (perform (OTry [] 1 "t:1" LockShare) NewRowLockManager).

Lemma two_readers_reachable : reachable two_readers.
Proof.
  unfold two_readers. apply reach_step; [apply reach_step; [apply reach_new|]|].
  - intros o. change (holders NewRowLockManager "t:1") with (∅ : gmap session LockMode).
    rewrite lookup_empty. split; [intros H; now apply not_elem_of_nil in H|intros [? ?]; discriminate].
  - intros o. change (holders _ "t:1") with ({[1%positive := LockShare]} : gmap session LockMode).
    rewrite elem_of_cons. split.
    + intros [->|H]; [rewrite lookup_singleton_eq; eauto|now apply not_elem_of_nil in H].
    + intros [h H]. apply lookup_singleton_Some in H as [<- _]. now left.
Qed.

Lemma row_locks_exclusive_witness :
  active two_readers = 1%Z /\
  (holders two_readers "t:1" !! 1%positive = Some LockUpdate ->
     is_Some (holders two_readers "t:1" !! 2%positive) -> 2%positive = 1%positive).
Proof. exact (row_locks_exclusive two_readers "t:1" 1 2 two_readers_reachable). Defined.

Lemma try_lock_decides_witness :
  let (m', r) := tryLock [2%positive; 1%positive] two_readers 3 "t:1" LockUpdate in
  request_outcome two_readers m' 3 "t:1" LockUpdate r.
Proof.
  apply (try_lock_decides [2%positive; 1%positive] two_readers 3 "t:1" LockUpdate two_readers_reachable).
  intros o. rewrite <- elem_of_dom. change (dom (holders two_readers "t:1")) with ({[1%positive; 2%positive]} : gset session).
  rewrite !elem_of_cons, elem_of_union, !elem_of_singleton. split; [|tauto].
  intros [H|[H|H]]; [tauto..|now apply not_elem_of_nil in H].
Defined.

Lemma release_all_releases_witness :
  holders (ReleaseAll two_readers 1 ["t:1"]%string).1 "t:1" = {[2%positive := LockShare]}.
Proof.
  refine (eq_trans (release_all_releases two_readers 1 ["t:1"]%string "t:1" two_readers_reachable _) _).
  - intros k. rewrite <- elem_of_dom. change (dom (entries two_readers)) with ({["t:1"%string]} : gset string).
    rewrite elem_of_cons, elem_of_singleton. split; [intros [H|H]; [exact H|now apply not_elem_of_nil in H]|tauto].
  - vm_compute. reflexivity.
Defined.

Lemma begin_write_exact_witness : write_free two_readers 1 ["t:2"]%string [].
Proof. apply (begin_write_exact two_readers 1 ["t:2"]%string [] two_readers_reachable). vm_compute. reflexivity. Defined.
