(* ===== verification/Notify.v ===== *)
(** * Notifications (pkg/storage/notify.go)

    The channel registry of a database: subscriptions, the non-blocking broadcast that drops a
    subscriber whose queue is full, and the numbering of notifications.  Subscribers are pointers;
    the hub's state carries the objects they point at.

    The properties: the registry invariant, what a broadcast does to every subscriber, the bound on the queues, and
    the order of the numbers a subscriber sees. *)
From Stdlib Require Import NArith ZArith Lia String.
From stdpp Require Import base option list gmap sets sorting strings.
From S2P Require Import Prelude.
#[local] Set Warnings "-clear-no-such-hyp".

Abbreviation sub := positive.

Record Notification : Set := mkNotification {
  PID : Z;
  Channel : string;
  Payload : string;
  LSN : N
}.

(** [notifications] is the buffered channel: its content and its capacity. *)
Record Subscriber : Set := mkSubscriber {
  id : Z;
  notifications : list Notification;
  capacity : nat;
  overflow : bool
}.

Definition defaultNotificationQueue : nat := 128.

Definition NewSubscriber (pid : Z) (queueSize : Z) : Subscriber :=
  mkSubscriber pid [] (if (queueSize <=? 0)%Z then defaultNotificationQueue else Z.to_nat queueSize) false.

Record Hub : Set := mkHub {
  channels : gmap string (gset sub);
  subscribers : gset sub;
  published : N;
  dropped : N;
  lastLSN : N;
  objects : gmap sub Subscriber
}.

Definition NewHub (objs : gmap sub Subscriber) : Hub := mkHub ∅ ∅ 0 0 0 objs.

(** [Add(1)] and [+ 1] on a uint64. *)
Definition incr64 (n : N) : N := ((n + 1) mod 2 ^ 64)%N.

Definition members (h : Hub) (channel : string) : gset sub := default ∅ (channels h !! channel).

Definition set_channels (h : Hub) (chs : gmap string (gset sub)) (subs : gset sub) : Hub :=
  mkHub chs subs (published h) (dropped h) (lastLSN h) (objects h).

(** ** Subscriptions *)

Definition Subscribe (h : Hub) (s : sub) (channel : string) : Hub :=
  if decide (channel = EmptyString) then h
  else set_channels h (<[channel := {[s]} ∪ members h channel]> (channels h)) ({[s]} ∪ subscribers h).

(** Whether the subscriber still listens to some channel. *)
Definition remaining (chs : gmap string (gset sub)) (s : sub) : bool :=
  existsb (fun x : string * gset sub => bool_decide (s ∈ snd x)) (map_to_list chs).

Definition unsubscribeLocked (h : Hub) (s : sub) (channel : string) : Hub :=
  match channels h !! channel with
  | None => h
  | Some subs =>
      let subs' := subs ∖ {[s]} in
      let chs := if decide (subs' = ∅) then delete channel (channels h)
                 else <[channel := subs']> (channels h) in
      set_channels h chs (if remaining chs s then subscribers h else subscribers h ∖ {[s]})
  end.

Definition Unsubscribe (h : Hub) (s : sub) (channel : string) : Hub := unsubscribeLocked h s channel.

(** [order] is the order in which [range h.channels] visits the channels. *)
Definition UnsubscribeAll (order : list string) (h : Hub) (s : sub) : Hub :=
  let h := fold_left (fun h channel => unsubscribeLocked h s channel) order h in
  set_channels h (channels h) (subscribers h ∖ {[s]}).

(** ** Publishing *)

(** [assignLSN]: one round of the compare-and-swap loop, which succeeds when the cursor is still
    [current]. *)
Definition nextLSN (current lsn : N) : N :=
  let next := incr64 current in if (next <? lsn)%N then lsn else next.

Definition assignLSN (h : Hub) (lsn : N) : Hub * N :=
  let next := nextLSN (lastLSN h) lsn in
  (mkHub (channels h) (subscribers h) (published h) (dropped h) next (objects h), next).

(** The select on one target: whether the subscriber overflowed. *)
Definition deliver (h : Hub) (s : sub) (n : Notification) : Hub * bool :=
  match objects h !! s with
  | None => (h, false)
  | Some x =>
      if (length (notifications x) <? capacity x)%nat
      then (mkHub (channels h) (subscribers h) (incr64 (published h)) (dropped h) (lastLSN h)
              (<[s := mkSubscriber (id x) (notifications x ++ [n]) (capacity x) (overflow x)]> (objects h)),
            false)
      else (mkHub (channels h) (subscribers h) (published h) (incr64 (dropped h)) (lastLSN h)
              (<[s := mkSubscriber (id x) (notifications x) (capacity x) true]> (objects h)),
            true)
  end.

(** The loop over the targets, and the subscribers that overflowed. *)
Fixpoint deliver_all (h : Hub) (targets : list sub) (n : Notification) : Hub * list sub :=
  match targets with
  | [] => (h, [])
  | s :: rest =>
      let (h', full) := deliver h s n in
      let (h'', more) := deliver_all h' rest n in
      (h'', if full then s :: more else more)
  end.

(** [targets] is the snapshot of the channel's members, in the order of the iteration; [orders]
    gives the iteration over the channels for each overflowed subscriber. *)
Definition Publish (targets : list sub) (orders : sub -> list string) (h : Hub) (n : Notification) : Hub :=
  if decide (Channel n = EmptyString) then h
  else
    let (h, lsn) := assignLSN h (LSN n) in
    let n := mkNotification (PID n) (Channel n) (Payload n) lsn in
    let (h, overflowed) := deliver_all h targets n in
    fold_left (fun h s => UnsubscribeAll (orders s) h s) overflowed h.

Definition Stats (h : Hub) : N * N := (published h, dropped h).

Definition Channels (h : Hub) : list string := map fst (map_to_list (channels h)).

(** The client's receive from its queue. *)
Definition receive (h : Hub) (s : sub) : option (Notification * Hub) :=
  match objects h !! s with
  | Some x =>
      match notifications x with
      | n :: rest =>
          Some (n, mkHub (channels h) (subscribers h) (published h) (dropped h) (lastLSN h)
                     (<[s := mkSubscriber (id x) rest (capacity x) (overflow x)]> (objects h)))
      | [] => None
      end
  | None => None
  end.

(** ** Properties of the notification hub *)

(** No channel without members, and the subscribers are the members of some channel. *)
Record hub_ok (h : Hub) : Prop := {
  hub_nonempty : forall ch, channels h !! ch <> Some ∅;
  hub_members : forall s, s ∈ subscribers h <-> exists ch, s ∈ members h ch
}.

Lemma remaining_spec (chs : gmap string (gset sub)) (s : sub) :
  remaining chs s = true <-> exists ch, s ∈ default ∅ (chs !! ch).
Proof.
  unfold remaining. rewrite existsb_exists. split.
  - intros ([ch ms] & Hin & Hs). apply list_elem_of_In, elem_of_map_to_list in Hin.
    apply bool_decide_eq_true in Hs. exists ch. now rewrite Hin.
  - intros [ch Hs]. destruct (chs !! ch) as [ms|] eqn:Hch; cbn in Hs; [|now apply elem_of_empty in Hs].
    exists (ch, ms). split; [now apply list_elem_of_In, elem_of_map_to_list|now apply bool_decide_eq_true].
Qed.

Lemma hub_new objs : hub_ok (NewHub objs).
Proof.
  split; cbn.
  - intros ch. rewrite lookup_empty. discriminate.
  - intros s. rewrite elem_of_empty. split; [easy|]. intros [ch H]. unfold members in H. cbn in H.
    rewrite lookup_empty in H. now apply elem_of_empty in H.
Qed.

(** ** Subscriptions *)

Lemma Subscribe_members (h : Hub) (s : sub) (channel ch : string) :
  channel <> EmptyString ->
  members (Subscribe h s channel) ch = if decide (ch = channel) then {[s]} ∪ members h ch else members h ch.
Proof.
  intros Hne. unfold Subscribe. rewrite decide_False by exact Hne. unfold members. cbn.
  case_decide as Hc; [subst; now rewrite lookup_insert_eq|now rewrite lookup_insert_ne by congruence].
Qed.

Lemma Subscribe_ok (h : Hub) (s : sub) (channel : string) : hub_ok h -> hub_ok (Subscribe h s channel).
Proof.
  intros [Hn Hm]. unfold Subscribe. case_decide as Hc; [now split|]. split; cbn.
  - intros ch. destruct (decide (ch = channel)) as [->|Hne].
    + rewrite lookup_insert_eq. intros E. injection E as E.
      apply (not_elem_of_empty (C := gset sub) s). rewrite <- E. apply elem_of_union_l, elem_of_singleton_2.
      reflexivity.
    + rewrite lookup_insert_ne by congruence. apply Hn.
  - intros x. rewrite elem_of_union, elem_of_singleton, Hm.
    pose proof (Subscribe_members h s channel) as Hs. unfold Subscribe in Hs.
    rewrite decide_False in Hs by exact Hc. split.
    + intros [->|[ch Hx]]; [exists channel|exists ch]; rewrite Hs by exact Hc; case_decide; set_solver.
    + intros [ch Hx]. rewrite Hs in Hx by exact Hc. case_decide; set_solver.
Qed.

Lemma unsubscribe_members (h : Hub) (s : sub) (channel ch : string) :
  members (unsubscribeLocked h s channel) ch =
    if decide (ch = channel) then members h ch ∖ {[s]} else members h ch.
Proof.
  unfold unsubscribeLocked. destruct (channels h !! channel) as [ms|] eqn:Hch.
  - unfold members. cbn. case_decide as Hempty; case_decide as Hc; subst;
      rewrite ?lookup_delete_eq, ?lookup_insert_eq, ?Hch; cbn; try reflexivity.
    + symmetry. exact Hempty.
    + now rewrite lookup_delete_ne by congruence.
    + now rewrite lookup_insert_ne by congruence.
  - case_decide as Hc; [|reflexivity]. subst. unfold members. rewrite Hch. cbn. set_solver.
Qed.

Lemma unsubscribe_subscribers (h : Hub) (s x : sub) (channel : string) :
  hub_ok h -> x ∈ subscribers (unsubscribeLocked h s channel) <->
    exists ch, x ∈ members (unsubscribeLocked h s channel) ch.
Proof.
  intros [Hn Hm]. pose proof (unsubscribe_members h s channel) as Hs.
  unfold unsubscribeLocked in *. destruct (channels h !! channel) as [ms|] eqn:Hch; [|apply Hm].
  set (chs := if decide (ms ∖ {[s]} = ∅) then _ else _) in *. cbn [subscribers set_channels].
  assert (Hrem : remaining chs s = true <->
    exists ch, s ∈ members (set_channels h chs (if remaining chs s then subscribers h else subscribers h ∖ {[s]})) ch)
    by apply remaining_spec.
  destruct (decide (x = s)) as [->|Hne].
  - destruct (remaining chs s) eqn:E.
    + split; [intros _; now apply Hrem|]. intros [ch Hx]. apply Hm. exists ch. rewrite Hs in Hx.
      case_decide; set_solver.
    + split; [set_solver|]. intros Hx. apply Hrem in Hx. discriminate.
  - assert ((x ∈ (if remaining chs s then subscribers h else subscribers h ∖ {[s]})) <-> x ∈ subscribers h) as ->.
    { destruct (remaining chs s); set_solver. }
    rewrite Hm. split; intros [ch Hx]; exists ch; rewrite Hs in *; case_decide; set_solver.
Qed.

Lemma unsubscribe_ok (h : Hub) (s : sub) (channel : string) : hub_ok h -> hub_ok (unsubscribeLocked h s channel).
Proof.
  intros Hok. split; [|intros x; now apply unsubscribe_subscribers].
  destruct Hok as [Hn Hm]. intros ch. unfold unsubscribeLocked.
  destruct (channels h !! channel) as [ms|] eqn:Hch; [|apply Hn]. cbn. case_decide as Hempty.
  - destruct (decide (ch = channel)) as [->|Hne]; [rewrite lookup_delete_eq; discriminate|].
    rewrite lookup_delete_ne by congruence. apply Hn.
  - destruct (decide (ch = channel)) as [->|Hne]; [rewrite lookup_insert_eq; congruence|].
    rewrite lookup_insert_ne by congruence. apply Hn.
Qed.

Lemma unsubscribe_objects (h : Hub) (s : sub) (channel : string) :
  objects (unsubscribeLocked h s channel) = objects h /\ lastLSN (unsubscribeLocked h s channel) = lastLSN h.
Proof. unfold unsubscribeLocked. now destruct (channels h !! channel). Qed.

Definition unsubscribe_each (order : list string) (h : Hub) (s : sub) : Hub :=
  fold_left (fun h channel => unsubscribeLocked h s channel) order h.

Lemma unsubscribe_each_spec (order : list string) (s : sub) : forall h,
  hub_ok h ->
  hub_ok (unsubscribe_each order h s) /\
  objects (unsubscribe_each order h s) = objects h /\
  lastLSN (unsubscribe_each order h s) = lastLSN h /\
  forall ch, members (unsubscribe_each order h s) ch =
    if decide (ch ∈ order) then members h ch ∖ {[s]} else members h ch.
Proof.
  induction order as [|channel order IH]; intros h Hok; cbn.
  - split; [exact Hok|]. split; [reflexivity|]. split; [reflexivity|]. intros ch.
    now rewrite decide_False by apply not_elem_of_nil.
  - destruct (IH (unsubscribeLocked h s channel)) as (H1 & H2 & H3 & H4); [now apply unsubscribe_ok|].
    destruct (unsubscribe_objects h s channel) as [Ho Hl]. rewrite Ho in H2. rewrite Hl in H3.
    split; [exact H1|]. split; [exact H2|]. split; [exact H3|]. intros ch.
    fold (unsubscribe_each order (unsubscribeLocked h s channel) s). rewrite H4, unsubscribe_members.
    destruct (decide (ch ∈ order)), (decide (ch = channel));
      first [rewrite (decide_True (P := ch ∈ channel :: order)) by (rewrite elem_of_cons; tauto)
            |rewrite (decide_False (P := ch ∈ channel :: order)) by (rewrite elem_of_cons; tauto)];
      set_solver.
Qed.

(** An iteration over the channels visits each of them. *)
Definition visits (order : list string) (h : Hub) : Prop :=
  forall ch, is_Some (channels h !! ch) -> ch ∈ order.

Lemma UnsubscribeAll_spec (order : list string) (h : Hub) (s : sub) :
  hub_ok h -> visits order h ->
  let h' := UnsubscribeAll order h s in
  hub_ok h' /\ objects h' = objects h /\ lastLSN h' = lastLSN h /\
  forall ch, members h' ch = members h ch ∖ {[s]}.
Proof.
  intros Hok Hv h'. destruct (unsubscribe_each_spec order s h Hok) as ([Hn Hm] & Ho & Hl & Hmem).
  assert (Hall : forall ch, members (unsubscribe_each order h s) ch = members h ch ∖ {[s]}).
  { intros ch. rewrite Hmem. case_decide as Hin; [reflexivity|]. unfold members.
    destruct (channels h !! ch) eqn:E; [|cbn; set_solver]. contradict Hin. apply Hv. eauto. }
  split; [|split; [exact Ho|split; [exact Hl|exact Hall]]]. split; [exact Hn|].
  intros x. change (subscribers h') with (subscribers (unsubscribe_each order h s) ∖ {[s]}).
  change (members h') with (members (unsubscribe_each order h s)).
  rewrite elem_of_difference, Hm, elem_of_singleton. split; [tauto|]. intros [ch Hx].
  split; [eauto|]. rewrite Hall in Hx. set_solver.
Qed.

(** The registry stays consistent: subscribing, unsubscribing from one channel and from all
    keep the invariant that no channel is empty and that the registered subscribers are exactly
    the members of the channels; and each changes the membership it is asked to change, and no
    other. *)
Theorem registry_consistent (h : Hub) (s : sub) (channel : string) (order : list string) :
  hub_ok h -> channel <> EmptyString -> visits order h ->
  (hub_ok (Subscribe h s channel) /\
     forall ch, members (Subscribe h s channel) ch =
       if decide (ch = channel) then {[s]} ∪ members h ch else members h ch) /\
  (hub_ok (Unsubscribe h s channel) /\
     forall ch, members (Unsubscribe h s channel) ch =
       (if decide (ch = channel) then members h ch ∖ {[s]} else members h ch)) /\
  (hub_ok (UnsubscribeAll order h s) /\ ~ (s ∈ subscribers (UnsubscribeAll order h s)) /\
     forall ch, members (UnsubscribeAll order h s) ch = members h ch ∖ {[s]}).
Proof.
  intros Hok Hne Hv. split; [|split].
  - split; [now apply Subscribe_ok|]. intros ch. now apply Subscribe_members.
  - split; [now apply unsubscribe_ok|]. intros ch. apply unsubscribe_members.
  - destruct (UnsubscribeAll_spec order h s Hok Hv) as (H1 & _ & _ & H2).
    split; [exact H1|]. split; [|exact H2]. cbn. set_solver.
Qed.

(** Two subscribers of one channel; the second has room for one notification. *)
Definition ex_objects : gmap sub Subscriber :=
  <[1%positive := NewSubscriber 10 0]> (<[2%positive := NewSubscriber 20 1]> ∅).
Definition ex_hub : Hub :=
  Subscribe (Subscribe (NewHub ex_objects) 1%positive "jobs") 2%positive "jobs".

Lemma ex_hub_ok : hub_ok ex_hub.
Proof. apply Subscribe_ok, Subscribe_ok, hub_new. Qed.

Lemma ex_visits : visits ["jobs"%string] ex_hub.
Proof.
  intros ch. destruct (decide (ch = "jobs"%string)) as [->|Hne]; [intros _; now left|].
  unfold ex_hub, Subscribe. rewrite !decide_False by discriminate. cbn.
  rewrite !lookup_insert_ne by congruence. rewrite lookup_empty. intros [? [=]].
Qed.

Lemma registry_consistent_witness :
  members (Unsubscribe ex_hub 1%positive "jobs") "jobs" = {[ 2%positive ]} /\
  members (UnsubscribeAll ["jobs"%string] ex_hub 1%positive) "jobs" = {[ 2%positive ]}.
Proof.
  destruct (registry_consistent ex_hub 1%positive "jobs" ["jobs"%string] ex_hub_ok) as (_ & [_ H2] & _ & _ & H3);
    [discriminate|exact ex_visits|].
  split; [rewrite H2|rewrite H3]; vm_compute; reflexivity.
Defined.

(** ** Broadcasts *)

(** What delivering does to a subscriber's object. *)
Definition delivered (n : Notification) (x : Subscriber) : Subscriber :=
  if (length (notifications x) <? capacity x)%nat
  then mkSubscriber (id x) (notifications x ++ [n]) (capacity x) (overflow x)
  else mkSubscriber (id x) (notifications x) (capacity x) true.

Definition is_full (h : Hub) (s : sub) : bool :=
  match objects h !! s with
  | Some x => negb (length (notifications x) <? capacity x)%nat
  | None => false
  end.

Lemma alter_insert (objs : gmap sub Subscriber) (s : sub) (f : Subscriber -> Subscriber) (x : Subscriber) :
  objs !! s = Some x -> alter f s objs = <[s := f x]> objs.
Proof.
  intros Hx. apply map_eq. intros i. destruct (decide (i = s)) as [->|Hne].
  - now rewrite lookup_alter_eq, lookup_insert_eq, Hx.
  - now rewrite lookup_alter_ne, lookup_insert_ne by congruence.
Qed.

Lemma deliver_spec (h : Hub) (s : sub) (n : Notification) :
  let (h', full) := deliver h s n in
  full = is_full h s /\ channels h' = channels h /\ subscribers h' = subscribers h /\
  lastLSN h' = lastLSN h /\ objects h' = alter (delivered n) s (objects h).
Proof.
  unfold deliver, is_full. destruct (objects h !! s) as [x|] eqn:Hx.
  - rewrite (alter_insert _ _ _ _ Hx). unfold delivered.
    now destruct (length (notifications x) <? capacity x)%nat.
  - do 4 (split; [reflexivity|]). cbn. apply map_eq. intros i. destruct (decide (i = s)) as [->|Hne].
    + now rewrite lookup_alter_eq, Hx.
    + now rewrite lookup_alter_ne by congruence.
Qed.

Lemma is_full_alter (h h' : Hub) (s x : sub) (f : Subscriber -> Subscriber) :
  x <> s -> objects h' = alter f s (objects h) -> is_full h' x = is_full h x.
Proof. intros Hne H. unfold is_full. now rewrite H, lookup_alter_ne by congruence. Qed.

Lemma deliver_all_spec (n : Notification) (targets : list sub) : forall h,
  NoDup targets ->
  let (h', overflowed) := deliver_all h targets n in
  channels h' = channels h /\ subscribers h' = subscribers h /\ lastLSN h' = lastLSN h /\
  overflowed = List.filter (is_full h) targets /\
  forall s, objects h' !! s =
    if decide (s ∈ targets) then delivered n <$> objects h !! s else objects h !! s.
Proof.
  induction targets as [|t targets IH]; intros h Hnd; cbn [deliver_all List.filter].
  - do 4 (split; [reflexivity|]). intros s. now rewrite decide_False by apply not_elem_of_nil.
  - apply NoDup_cons in Hnd as [Ht Hnd]. pose proof (deliver_spec h t n) as Hd.
    destruct (deliver h t n) as [h1 full]. destruct Hd as (-> & Hc & Hs & Hl & Ho).
    specialize (IH h1 Hnd). destruct (deliver_all h1 targets n) as [h2 more].
    destruct IH as (Hc2 & Hs2 & Hl2 & -> & Ho2).
    assert (Hfilter : List.filter (is_full h1) targets = List.filter (is_full h) targets).
    { apply List.filter_ext_in. intros x Hx. apply (is_full_alter h h1 t x (delivered n)); [|exact Ho].
      intros ->. apply Ht. now apply list_elem_of_In. }
    rewrite Hfilter. split; [congruence|]. split; [congruence|]. split; [congruence|].
    split; [reflexivity|]. intros s. rewrite Ho2, Ho. destruct (decide (s = t)) as [->|Hne].
    + rewrite (decide_False (P := t ∈ targets)), decide_True by (assumption || now left).
      apply lookup_alter_eq.
    + rewrite lookup_alter_ne by congruence. destruct (decide (s ∈ targets)) as [Hin|Hin].
      * now rewrite decide_True by now right.
      * now rewrite decide_False by (rewrite elem_of_cons; tauto).
Qed.

(** Dropping the overflowed subscribers. *)
Lemma drop_spec (orders : sub -> list string) (l : list sub) : forall h,
  hub_ok h -> (forall s, s ∈ l -> visits (orders s) h) ->
  let h' := fold_left (fun h s => UnsubscribeAll (orders s) h s) l h in
  hub_ok h' /\ objects h' = objects h /\ lastLSN h' = lastLSN h /\
  forall s ch, s ∈ members h' ch <-> s ∈ members h ch /\ s ∉ l.
Proof.
  induction l as [|t l IH]; intros h Hok Hv; cbn [fold_left].
  - repeat split; try apply Hok; intros; rewrite ?elem_of_nil in *; tauto.
  - destruct (UnsubscribeAll_spec (orders t) h t Hok) as (H1 & H2 & H3 & H4); [apply Hv; now left|].
    destruct (IH (UnsubscribeAll (orders t) h t) H1) as (I1 & I2 & I3 & I4).
    { intros s Hs ch [ms Hch]. apply (Hv s); [now right|].
      destruct (channels h !! ch) eqn:E; [eauto|]. exfalso.
      apply (hub_nonempty _ H1 ch). rewrite Hch. f_equal.
      pose proof (H4 ch) as Hm. unfold members in Hm. rewrite Hch, E in Hm. cbn in Hm. set_solver. }
    split; [exact I1|]. split; [congruence|]. split; [congruence|].
    intros s ch. rewrite I4, H4, elem_of_difference, elem_of_singleton, elem_of_cons. tauto.
Qed.

Definition numbered (n : Notification) (lsn : N) : Notification :=
  mkNotification (PID n) (Channel n) (Payload n) lsn.

(** [targets] lists the members of a channel, each once. *)
Definition enumerates (targets : list sub) (ms : gset sub) : Prop :=
  NoDup targets /\ forall s, s ∈ targets <-> s ∈ ms.

Lemma Publish_eq (targets : list sub) (orders : sub -> list string) (h : Hub) (n : Notification) :
  hub_ok h -> Channel n <> EmptyString -> NoDup targets -> (forall s, visits (orders s) h) ->
  let h' := Publish targets orders h n in
  let lsn := nextLSN (lastLSN h) (LSN n) in
  hub_ok h' /\ lastLSN h' = lsn /\
  (forall s, objects h' !! s =
     if decide (s ∈ targets) then delivered (numbered n lsn) <$> objects h !! s else objects h !! s) /\
  (forall s ch, s ∈ members h' ch <-> s ∈ members h ch /\ ~ (s ∈ targets /\ is_full h s = true)).
Proof.
  intros Hok Hne Hnd Hv h' lsn. subst h'. unfold Publish. rewrite decide_False by exact Hne. cbn [assignLSN].
  fold lsn. fold (numbered n lsn).
  set (h0 := mkHub (channels h) (subscribers h) (published h) (dropped h) lsn (objects h)).
  pose proof (deliver_all_spec (numbered n lsn) targets h0 Hnd) as Hd.
  destruct (deliver_all h0 targets (numbered n lsn)) as [h1 overflowed].
  destruct Hd as (Hc & Hs & Hl & -> & Ho).
  assert (Hok1 : hub_ok h1).
  { destruct Hok as [Hn Hm]. split; rewrite ?Hc, ?Hs; [exact Hn|]. intros s. unfold members. rewrite Hc.
    apply Hm. }
  destruct (drop_spec orders (List.filter (is_full h0) targets) h1 Hok1) as (D1 & D2 & D3 & D4).
  { intros s _ ch. rewrite Hc. apply Hv. }
  split; [exact D1|]. split; [now rewrite D3, Hl|]. split; [intros s; rewrite D2; apply Ho|].
  intros s ch. rewrite D4. unfold members at 1. rewrite Hc, !list_elem_of_In, List.filter_In. reflexivity.
Qed.

(** A broadcast reaches exactly the channel's members: each of them has the numbered
    notification appended to its queue or, when the queue is full, is marked overflowed, keeps its
    queue and is removed from every channel; no other subscriber changes, and the registry stays
    consistent.  Nothing blocks: the result is a function of the state. *)
Theorem publish_delivers (targets : list sub) (orders : sub -> list string) (h : Hub) (n : Notification) :
  hub_ok h -> Channel n <> EmptyString -> enumerates targets (members h (Channel n)) ->
  (forall s, visits (orders s) h) ->
  let h' := Publish targets orders h n in
  let lsn := nextLSN (lastLSN h) (LSN n) in
  hub_ok h' /\ lastLSN h' = lsn /\
  (forall s, s ∈ members h (Channel n) ->
     objects h' !! s = delivered (numbered n lsn) <$> objects h !! s) /\
  (forall s, ~ (s ∈ members h (Channel n)) -> objects h' !! s = objects h !! s) /\
  (forall s ch, s ∈ members h' ch <->
     s ∈ members h ch /\ ~ (s ∈ members h (Channel n) /\ is_full h s = true)).
Proof.
  intros Hok Hne [Hnd Ht] Hv h' lsn.
  destruct (Publish_eq targets orders h n Hok Hne Hnd Hv) as (H1 & H2 & H3 & H4).
  split; [exact H1|]. split; [exact H2|]. split; [|split].
  - intros s Hs. rewrite <- Ht in Hs. unfold h'. now rewrite H3, decide_True.
  - intros s Hs. rewrite <- Ht in Hs. unfold h'. now rewrite H3, decide_False.
  - intros s ch. unfold h'. now rewrite H4, Ht.
Qed.

Definition ex_note : Notification := mkNotification 10 "jobs" "x" 0.
Definition ex_full : Hub := Publish [1%positive; 2%positive] (fun _ => ["jobs"%string]) ex_hub ex_note.

(** The second publication overflows the second subscriber. *)
Definition ex_overflow : Hub :=
  Publish [2%positive; 1%positive] (fun _ => ["jobs"%string]) ex_full ex_note.

Lemma publish_delivers_witness :
  hub_ok ex_overflow /\ lastLSN ex_overflow = 2%N /\
  objects ex_overflow !! 2%positive = Some (mkSubscriber 20 [numbered ex_note 1] 1 true) /\
  ~ (2%positive ∈ members ex_overflow "jobs") /\ 1%positive ∈ members ex_overflow "jobs".
Proof.
  assert (Hmem : members ex_full "jobs" = {[ 1%positive; 2%positive ]}) by (vm_compute; reflexivity).
  assert (Hok : hub_ok ex_full).
  { refine (proj1 (Publish_eq _ _ ex_hub ex_note ex_hub_ok _ _ _)); [discriminate| |intros _; exact ex_visits].
    apply (bool_decide_eq_true_1 (NoDup [1%positive; 2%positive])). vm_compute. reflexivity. }
  destruct (publish_delivers [2%positive; 1%positive] (fun _ => ["jobs"%string]) ex_full ex_note Hok)
    as (H1 & H2 & H3 & _ & H5).
  - discriminate.
  - split.
    + apply (bool_decide_eq_true_1 (NoDup [2%positive; 1%positive])). vm_compute. reflexivity.
    + intros s. change (Channel ex_note) with "jobs"%string. rewrite Hmem.
      rewrite elem_of_union, !elem_of_singleton, !elem_of_cons, elem_of_nil. tauto.
  - intros _ ch. replace (channels ex_full) with (channels ex_hub) by (vm_compute; reflexivity).
    exact (ex_visits ch).
  - split; [exact H1|]. split; [refine (eq_trans H2 _); vm_compute; reflexivity|]. split; [|split].
    + refine (eq_trans (H3 _ _) _); [|vm_compute; reflexivity]. change (Channel ex_note) with "jobs"%string. rewrite Hmem. set_solver.
    + intros H. apply H5 in H as [_ H]. apply H. change (Channel ex_note) with "jobs"%string. rewrite Hmem.
      split; [set_solver|vm_compute; reflexivity].
    + apply H5. change (Channel ex_note) with "jobs"%string. rewrite Hmem.
      split; [set_solver|]. intros [_ H]. vm_compute in H. discriminate.
Defined.

(** ** The order of the numbers *)

Lemma nextLSN_gt (current lsn : N) :
  (current < 2 ^ 64 - 1)%N -> (lsn < 2 ^ 64)%N -> (current < nextLSN current lsn < 2 ^ 64)%N.
Proof.
  intros Hc Hl. unfold nextLSN, incr64. rewrite N.mod_small by lia. destruct (N.ltb_spec (current + 1) lsn); lia.
Qed.

(** What can happen to a hub when its operations run one after the other, with the notification the
    step hands to a client.  Publishing stops before the counter wraps. *)
Inductive hub_step : Hub -> list (sub * Notification) -> Hub -> Prop :=
  | step_subscribe h s channel : hub_step h [] (Subscribe h s channel)
  | step_unsubscribe h s channel : hub_step h [] (Unsubscribe h s channel)
  | step_unsubscribe_all h s order : visits order h -> hub_step h [] (UnsubscribeAll order h s)
  | step_publish h n targets orders :
      Channel n <> EmptyString -> NoDup targets -> (forall s, visits (orders s) h) ->
      (lastLSN h < 2 ^ 64 - 1)%N -> (LSN n < 2 ^ 64)%N ->
      hub_step h [] (Publish targets orders h n)
  | step_receive h s n h' : receive h s = Some (n, h') -> hub_step h [(s, n)] h'.

Inductive hub_run (h : Hub) : list (sub * Notification) -> Hub -> Prop :=
  | run_start : hub_run h [] h
  | run_step log out h1 h2 : hub_run h log h1 -> hub_step h1 out h2 -> hub_run h (log ++ out) h2.

(** What the client [s] has received, in order. *)
Definition received (s : sub) (log : list (sub * Notification)) : list Notification :=
  map snd (List.filter (fun x => bool_decide (fst x = s)) log).

Lemma received_app (s : sub) (a b : list (sub * Notification)) :
  received s (a ++ b) = received s a ++ received s b.
Proof. unfold received. now rewrite List.filter_app, map_app. Qed.

(** The numbers a subscriber has seen and will see: increasing, and not beyond the hub's. *)
Definition stream_ok (last : N) (l : list Notification) : Prop :=
  StronglySorted N.lt (map LSN l) /\ List.Forall (fun n => (LSN n <= last)%N) l.

Record queues_ok (log : list (sub * Notification)) (h : Hub) : Prop := {
  q_hub : hub_ok h;
  q_bound : forall s x, objects h !! s = Some x -> length (notifications x) <= capacity x;
  q_stream : forall s x, objects h !! s = Some x ->
    stream_ok (lastLSN h) (received s log ++ notifications x)
}.

Lemma sorted_snoc (l : list N) (x : N) :
  StronglySorted N.lt l -> List.Forall (fun y => (y < x)%N) l -> StronglySorted N.lt (l ++ [x]).
Proof.
  induction 1 as [|y l Hs IH Hy]; intros Hx; cbn; [repeat constructor|].
  inversion Hx; subst. constructor; [auto|]. apply List.Forall_app. split; [exact Hy|]. now constructor.
Qed.

Lemma stream_snoc (last : N) (l : list Notification) (n : Notification) :
  stream_ok last l -> (last < LSN n)%N -> stream_ok (LSN n) (l ++ [n]).
Proof.
  intros [Hs Hl] Hn. split.
  - rewrite map_app. apply sorted_snoc; [exact Hs|]. apply List.Forall_map.
    eapply List.Forall_impl; [|exact Hl]. cbn. intros. lia.
  - apply List.Forall_app. split; [|repeat constructor; lia].
    eapply List.Forall_impl; [|exact Hl]. cbn. intros. lia.
Qed.

Lemma stream_mono (a b : N) (l : list Notification) : stream_ok a l -> (a <= b)%N -> stream_ok b l.
Proof.
  intros [Hs Hl] Hab. split; [exact Hs|]. eapply List.Forall_impl; [|exact Hl]. cbn. intros. lia.
Qed.

(** The steps that leave the queues alone. *)
Lemma queues_same (log : list (sub * Notification)) (h h' : Hub) :
  queues_ok log h -> hub_ok h' -> objects h' = objects h -> lastLSN h' = lastLSN h -> queues_ok log h'.
Proof. intros [H1 H2 H3] Hok Ho Hl. split; [exact Hok| |]; intros s x; rewrite Ho, ?Hl; eauto. Qed.

Lemma Subscribe_objects (h : Hub) (s : sub) (channel : string) :
  objects (Subscribe h s channel) = objects h /\ lastLSN (Subscribe h s channel) = lastLSN h.
Proof. unfold Subscribe. now case_decide. Qed.

Lemma queues_publish (log : list (sub * Notification)) (h : Hub) n targets orders :
  queues_ok log h -> Channel n <> EmptyString -> NoDup targets -> (forall s, visits (orders s) h) ->
  (lastLSN h < 2 ^ 64 - 1)%N -> (LSN n < 2 ^ 64)%N -> queues_ok log (Publish targets orders h n).
Proof.
  intros [Q1 Q2 Q3] Hne Hnd Hv Hlast Hn.
  destruct (Publish_eq targets orders h n Q1 Hne Hnd Hv) as (H1 & H2 & H3 & _).
  pose proof (nextLSN_gt _ _ Hlast Hn) as Hgt. set (lsn := nextLSN _ _) in *.
  split; [exact H1| |]; intros s x; rewrite H3, ?H2; case_decide as Hin.
  - intros Hx. apply fmap_Some in Hx as (y & Hy & ->). specialize (Q2 _ _ Hy). unfold delivered.
    destruct (Nat.ltb_spec (length (notifications y)) (capacity y)); cbn; [rewrite length_app; cbn|]; lia.
  - apply Q2.
  - intros Hx. apply fmap_Some in Hx as (y & Hy & ->). specialize (Q3 _ _ Hy). unfold delivered.
    destruct (Nat.ltb_spec (length (notifications y)) (capacity y)); cbn.
    + rewrite app_assoc. apply (stream_snoc (lastLSN h)); [exact Q3|]. cbn. lia.
    + apply (stream_mono (lastLSN h)); [exact Q3|lia].
  - intros Hx. apply (stream_mono (lastLSN h)); [now apply Q3|lia].
Qed.

Lemma queues_receive (log : list (sub * Notification)) (h h' : Hub) s n :
  queues_ok log h -> receive h s = Some (n, h') -> queues_ok (log ++ [(s, n)]) h'.
Proof.
  intros [[Hn Hm] Q2 Q3]. unfold receive. destruct (objects h !! s) as [x|] eqn:Hx; [|discriminate].
  destruct (notifications x) as [|m rest] eqn:Hq; [discriminate|]. injection 1 as -> <-.
  split; [now split| |]; intros t y; cbn [objects lastLSN];
    (destruct (decide (t = s)) as [->|Hne];
      [rewrite lookup_insert_eq; injection 1 as <-; cbn|rewrite lookup_insert_ne by congruence; intros Hy]).
  - specialize (Q2 _ _ Hx). rewrite Hq in Q2. cbn in Q2. lia.
  - now apply (Q2 t).
  - specialize (Q3 _ _ Hx). rewrite Hq in Q3. rewrite received_app. unfold received at 2. cbn.
    rewrite bool_decide_eq_true_2 by reflexivity. cbn. now rewrite <- app_assoc.
  - rewrite received_app. unfold received at 2. cbn. rewrite bool_decide_eq_false_2 by congruence.
    cbn. rewrite app_nil_r. now apply Q3.
Qed.

Lemma queues_step (log out : list (sub * Notification)) (h h' : Hub) :
  queues_ok log h -> hub_step h out h' -> queues_ok (log ++ out) h'.
Proof.
  intros HQ Hstep. destruct Hstep; rewrite ?app_nil_r.
  - destruct (Subscribe_objects h s channel). apply (queues_same _ h); auto. apply Subscribe_ok, HQ.
  - destruct (unsubscribe_objects h s channel). apply (queues_same _ h); auto. apply unsubscribe_ok, HQ.
  - destruct (UnsubscribeAll_spec order h s (q_hub _ _ HQ)) as (? & ? & ? & _); [assumption|].
    now apply (queues_same _ h).
  - now apply queues_publish.
  - eapply queues_receive; eauto.
Qed.

(** As long as publishers take turns, a client sees every notification once and in the order
    of its numbers: over any run of the hub, what the client has received followed by what is
    still queued for it has strictly increasing numbers, and the queue never exceeds its
    capacity. *)
Theorem notifications_in_order (objs : gmap sub Subscriber) (log : list (sub * Notification)) (h : Hub) :
  (forall s x, objs !! s = Some x -> notifications x = []) ->
  hub_run (NewHub objs) log h ->
  forall s x, objects h !! s = Some x ->
    length (notifications x) <= capacity x /\
    StronglySorted N.lt (map LSN (received s log ++ notifications x)).
Proof.
  intros Hempty Hrun. assert (HQ : queues_ok log h).
  { induction Hrun as [|log out h1 h2 _ IH Hs]; [|now apply (queues_step _ _ h1)].
    split; [apply hub_new| |]; cbn; intros s x Hx; rewrite (Hempty _ _ Hx); cbn; [lia|].
    split; constructor. }
  intros s x Hx. split; [now apply (q_bound _ _ HQ s)|now apply (q_stream _ _ HQ s)].
Qed.

Lemma notifications_in_order_witness :
  exists log h x, hub_run (NewHub ex_objects) log h /\ objects h !! 1%positive = Some x /\
    length log = 1 /\ length (notifications x) = 1 /\
    length (notifications x) <= capacity x /\
    StronglySorted N.lt (map LSN (received 1%positive log ++ notifications x)).
Proof.
  set (h2 := Publish [1%positive] (fun _ => ["jobs"%string]) ex_full (mkNotification 10 "jobs" "y" 7)).
  assert (Hv : forall h, channels h = channels ex_hub -> visits ["jobs"%string] h).
  { intros h E ch. rewrite E. exact (ex_visits ch). }
  assert (Hnd : forall l : list sub, bool_decide (NoDup l) = true -> NoDup l)
    by (intros l; apply bool_decide_eq_true_1).
  destruct (receive h2 1%positive) as [[n h3]|] eqn:Hr; [|vm_compute in Hr; discriminate].
  assert (Hrun : hub_run (NewHub ex_objects) [(1%positive, n)] h3).
  { apply (run_step _ [] [(1%positive, n)] h2); [|now constructor].
    apply (run_step _ [] [] ex_full).
    - apply (run_step _ [] [] ex_hub).
      + apply (run_step _ [] [] (Subscribe (NewHub ex_objects) 1%positive "jobs")); [|constructor].
        apply (run_step _ [] [] (NewHub ex_objects)); constructor.
      + constructor; [discriminate|apply Hnd; vm_compute; reflexivity|intros _; now apply Hv| |]; vm_compute; reflexivity.
    - constructor; [discriminate|apply Hnd; vm_compute; reflexivity| | |]; try (vm_compute; reflexivity).
      intros _. apply Hv. vm_compute. reflexivity. }
  destruct (objects h3 !! 1%positive) as [x|] eqn:Hx.
  - exists [(1%positive, n)], h3, x. split; [exact Hrun|]. split; [exact Hx|]. split; [reflexivity|].
    split.
    + vm_compute in Hr. injection Hr as <- <-. vm_compute in Hx. injection Hx as <-. reflexivity.
    + apply (notifications_in_order ex_objects _ h3); [|exact Hrun|exact Hx].
      intros s y. unfold ex_objects.
      destruct (decide (s = 1%positive)) as [->|H1]; [rewrite lookup_insert_eq; now injection 1 as <-|].
      rewrite lookup_insert_ne by congruence.
      destruct (decide (s = 2%positive)) as [->|H2]; [rewrite lookup_insert_eq; now injection 1 as <-|].
      rewrite lookup_insert_ne by congruence. now rewrite lookup_empty.
  - vm_compute in Hr. injection Hr as <- <-. vm_compute in Hx. discriminate.
Defined.

(** Taking turns is needed: [Publish] assigns the number before it delivers, without a lock
    around both, so when two publishers are interleaved a client's queue receives the
    larger number first. *)
Theorem concurrent_publishers_reorder :
  let (h1, first) := assignLSN ex_hub 0 in
  let (h2, second) := assignLSN h1 0 in
  let (h3, _) := deliver_all h2 [1%positive] (numbered ex_note second) in
  let (h4, _) := deliver_all h3 [1%positive] (numbered ex_note first) in
  (first < second)%N /\
  exists x, objects h4 !! 1%positive = Some x /\ map LSN (notifications x) = [second; first].
Proof.
  vm_compute. split; [reflexivity|]. eexists. split; reflexivity.
Qed.
