(* ===== verification/Wire.v ===== *)
(** * The storage protocol: frames (pkg/storage/kv.go)

    The PKBFI wire format the storage client speaks: CRC-32C checksums, the 32-byte frame header,
    the validation of sizes, and the payloads and bodies of the requests. *)
From Stdlib Require Import NArith ZArith Lia Strings.String.
From Stdlib Require Strings.Byte.
From stdpp Require Import base option list list_numbers strings.
From S2P Require Import Prelude Bytes.

(** ** Constants *)

Definition headerSize : nat := 32.
Definition headerMagic : string := "PKBF".
Definition headerVersion : N := 1.

Definition opPing : N := 1.
Definition opGet : N := 3.
Definition opPut : N := 4.
Definition opDelete : N := 5.
Definition opExists : N := 6.
Definition opMultiGet : N := 7.
Definition opBatchWrite : N := 8.
Definition opScanOpen : N := 9.
Definition opScanNext : N := 10.
Definition opScanClose : N := 11.
Definition opCompareBatch : N := 12.

Definition batchPut : byte := Byte.x01.
Definition batchDelete : byte := Byte.x02.

Definition statusOK : N := 0.
Definition statusNotFound : N := 1.
Definition statusError : N := 2.

Definition maxKeySize : N := 1024 * 1024.
Definition maxValueSize : N := 64 * 1024 * 1024.
Definition maxTransactionSize : N := 64 * 1024 * 1024.
Definition maxOperations : N := 65535.
Definition maxFrameSize : N := maxKeySize + maxValueSize + 1024.

Definition scanPageSize : N := 1024.
Definition existsPipelineSize : nat := 128.

(** The errors of the client: the connection's, the protocol's, the server's and its own. *)
Inductive kv_error : Set :=
  | EOF
  | UnexpectedEOF
  | ErrProtocol (msg : string)
  | ErrKeyNotFound
  | ServerError (msg : string)
  | Refused (msg : string)
  | NetError (msg : string).

Abbreviation KO := (outcome kv_error).

(** ** Checksums

    CRC-32 with the Castagnoli polynomial, reflected, as hash/crc32 computes it. *)

Definition castagnoli : N := 0x82F63B78.

Definition crc_bit (c : N) : N :=
  if N.testbit c 0 then N.lxor (N.shiftr c 1) castagnoli else N.shiftr c 1.

Definition crc_byte (c : N) (b : byte) : N := Nat.iter 8 crc_bit (N.lxor c (Byte.to_N b)).

Definition crc_all (c : N) (p : list byte) : N := fold_left crc_byte p c.

Definition crc32c (p : list byte) : N := N.lxor (crc_all 0xFFFFFFFF p) 0xFFFFFFFF.

(** ** Integers in a buffer *)

Definition u16_bytes (v : N) : list byte := le_encode 2 v.
Definition putU32 (v : N) : list byte := le_encode 4 v.
Definition putU64 (v : N) : list byte := le_encode 8 v.

Definition getU16 (b : list byte) : KO N :=
  if (2 <=? length b)%nat then Done (le_decode (take 2 b)) else Panic.
Definition getU32 (b : list byte) : KO N := Uint32 b.
Definition getU64 (b : list byte) : KO N := Uint64 b.

(** [int], for the length of a slice. *)
Definition len (b : list byte) : N := N.of_nat (length b).

(** ** Frames *)

(** The 32 bytes of a header: the length and the checksum of the payload, and the header's own
    checksum. *)
Definition header_bytes (opcode flags requestID length payloadCRC headerCRC : N) : list byte :=
  bytes headerMagic ++ u16_bytes headerVersion ++ u16_bytes 0 ++ u16_bytes opcode ++ u16_bytes flags
  ++ putU64 requestID ++ putU32 length ++ putU32 payloadCRC ++ putU32 headerCRC.

(** The header's checksum is computed with that field zero. *)
Definition encodeFrame (opcode flags requestID : N) (payload : list byte) : list byte :=
  let header := header_bytes opcode flags requestID (len payload) (crc32c payload) in
  header (crc32c (header 0%N)) ++ payload.

(** [io.ReadFull]: the bytes read, and what is left of the stream. *)
Definition ReadFull (n : N) (r : list byte) : KO (list byte) * list byte :=
  if (len r <? n)%N then (if decide (r = []) then (Fail_ EOF, []) else (Fail_ UnexpectedEOF, []))
  else (Done (take (N.to_nat n) r), drop (N.to_nat n) r).

Record frame : Set := mkFrame {
  f_opcode : N; f_flags : N; f_id : N; f_payload : list byte
}.

(** The checks on the header, which give the length of the payload. *)
Definition check_header (header : list byte) : KO N :=
  magic ← slice header 0 4;
  if decide (magic <> bytes headerMagic) then Fail_ (ErrProtocol "invalid magic")
  else (
    version ← slice header 4 6 ≫= getU16;
    if decide (version <> headerVersion) then Fail_ (ErrProtocol "incompatible version")
    else (
      payloadLen ← slice header 20 24 ≫= getU32;
      if (maxFrameSize <? payloadLen)%N then Fail_ (ErrProtocol "frame too large")
      else (
        headerCRC ← slice header 28 32 ≫= getU32;
        front ← slice header 0 28;
        if decide (crc32c (front ++ putU32 0) <> headerCRC)
        then Fail_ (ErrProtocol "header checksum mismatch")
        else Done payloadLen))).

Definition check_payload (header payload : list byte) : KO frame :=
  payloadCRC ← slice header 24 28 ≫= getU32;
  if decide (crc32c payload <> payloadCRC) then Fail_ (ErrProtocol "payload checksum mismatch")
  else (
    opcode ← slice header 8 10 ≫= getU16;
    flags ← slice header 10 12 ≫= getU16;
    id ← slice header 12 20 ≫= getU64;
    Done (mkFrame opcode flags id payload)).

(** Reading a frame off the stream. *)
Definition readFrame (r : list byte) : KO frame * list byte :=
  match ReadFull (N.of_nat headerSize) r with
  | (Done header, r) =>
      match check_header header with
      | Done payloadLen =>
          match ReadFull payloadLen r with
          | (Done payload, r) => (check_payload header payload, r)
          | (Fail_ e, r) => (Fail_ e, r)
          | (Panic, r) => (Panic, r)
          end
      | Fail_ e => (Fail_ e, r)
      | Panic => (Panic, r)
      end
  | (Fail_ e, r) => (Fail_ e, r)
  | (Panic, r) => (Panic, r)
  end.

(** [opcode|0x8000] *)
Definition response_opcode (opcode : N) : N := N.lor opcode 0x8000.

Definition encodeResponse (opcode requestID : N) (body : list byte) : list byte :=
  encodeFrame (response_opcode opcode) 1 requestID body.

(** ** Payloads and bodies *)

Definition oneKeyPayload (key : list byte) : list byte := putU32 (len key) ++ key.

Definition validateKey (key : list byte) : KO () :=
  if (maxKeySize <? len key)%N then Fail_ (Refused "pkbfi: key exceeds 1048576 bytes") else Done ().

Definition validateValue (value : list byte) : KO () :=
  if (maxValueSize <? len value)%N then Fail_ (Refused "pkbfi: value exceeds 67108864 bytes") else Done ().

Definition parseOneKey (payload : list byte) : KO (option (list byte)) :=
  if (length payload <? 4)%nat then Done None
  else (
    l ← slice payload 0 4 ≫= getU32;
    if (maxKeySize <? l)%N || negb (4 + l =? len payload)%N then Done None
    else (key ← slice_from payload 4; Done (Some key))).

Definition errorBody (message : string) : list byte := u16_bytes statusError ++ bytes message.
