(* ===== verification/KVClient.v ===== *)
(** * The storage client (pkg/storage/kv.go)

    The requests of the client, the decoding of the responses, and the cursor over a scan.  The
    network and the server are a parameter: [send] gives the bytes that arrive in answer to the
    bytes written. *)
From Stdlib Require Import NArith ZArith Lia Strings.String.
From Stdlib Require Strings.Byte.
From stdpp Require Import base option list list_numbers strings.
From S2P Require Import Prelude Bytes Wire.

Record KVResult : Set := mkKVResult { Value : list byte; LSN : N; Found : bool }.

Record KVEntry : Set := mkKVEntry { e_Key : list byte; e_Value : list byte; e_LSN : N }.

Record BatchOp : Set := mkBatchOp { Op : byte; b_Key : list byte; b_Value : list byte }.

Record CompareCheck : Set := mkCompareCheck { c_Key : list byte; c_LSN : N }.

Definition zeros (n : nat) : list byte := replicate n Byte.x00.

(** ** The payloads of the requests *)

Definition put_payload (key value : list byte) : list byte :=
  putU32 (len key) ++ putU32 (len value) ++ key ++ value.

Definition multi_get_payload (keys : list (list byte)) : list byte :=
  putU32 (N.of_nat (length keys)) ++ concat (map (fun key => putU32 (len key) ++ key) keys).

Definition batch_entry (op : BatchOp) : list byte :=
  [Op op] ++ zeros 3 ++ putU32 (len (b_Key op)) ++ putU32 (len (b_Value op)) ++ b_Key op ++ b_Value op.

Definition batch_payload (ops : list BatchOp) (metadata : list byte) : list byte :=
  putU32 (N.of_nat (length ops)) ++ putU32 (len metadata) ++ metadata ++ concat (map batch_entry ops).

Definition check_entry (c : CompareCheck) : list byte :=
  putU32 (len (c_Key c)) ++ zeros 4 ++ putU64 (c_LSN c) ++ c_Key c.

Definition compare_payload (checks : list CompareCheck) (ops : list BatchOp) (metadata : list byte)
    : list byte :=
  putU32 (N.of_nat (length checks)) ++ putU32 (N.of_nat (length ops)) ++ putU32 (len metadata) ++ zeros 4
  ++ concat (map check_entry checks) ++ metadata ++ concat (map batch_entry ops).

Definition scan_open_payload (includeValues : bool) (pageSize : N) (prefix : list byte) : list byte :=
  [if includeValues then Byte.x01 else Byte.x00] ++ zeros 3 ++ putU32 pageSize ++ putU32 (len prefix) ++ prefix.

Definition scan_next_payload (id : N) : list byte := putU64 id ++ putU32 0.

Definition scan_close_payload (id : N) : list byte := putU64 id.

(** ** The checks on a request: each returns the size the payload will have *)

Definition exceeds (what : string) : kv_error := Refused ("pkbfi: " ++ what).

Fixpoint check_keys (size : N) (keys : list (list byte)) : KO N :=
  match keys with
  | [] => Done size
  | key :: rest =>
      _ ← validateKey key;
      let size := (size + (4 + len key))%N in
      if (maxFrameSize <? size)%N then Fail_ (exceeds "multi_get request exceeds frame limit")
      else check_keys size rest
  end.

Fixpoint check_ops (size : N) (ops : list BatchOp) : KO N :=
  match ops with
  | [] => Done size
  | op :: rest =>
      if decide (Op op <> batchPut /\ Op op <> batchDelete)
      then Fail_ (exceeds ("invalid batch opcode " ++ itoa (Byte.to_N (Op op))))
      else (
        _ ← validateKey (b_Key op);
        _ ← validateValue (b_Value op);
        if decide (Op op = batchDelete /\ b_Value op <> []) then Fail_ (exceeds "delete operation with value")
        else (
          let size := (size + (12 + len (b_Key op) + len (b_Value op)))%N in
          if (maxTransactionSize <? size)%N then Fail_ (exceeds "batch exceeds transaction limit")
          else check_ops size rest))
  end.

Fixpoint check_checks (size : N) (checks : list CompareCheck) : KO N :=
  match checks with
  | [] => Done size
  | c :: rest =>
      _ ← validateKey (c_Key c);
      let size := (size + (16 + len (c_Key c)))%N in
      if (maxFrameSize <? size)%N then Fail_ (exceeds "compare batch exceeds frame limit")
      else check_checks size rest
  end.

Definition operation_count_ok {A} (l : list A) : bool :=
  negb (length l =? 0)%nat && (N.of_nat (length l) <=? maxOperations)%N.

(** ** The bodies of the responses *)

Definition malformed (what : string) : kv_error := ErrProtocol ("malformed " ++ what).

(** A response that is a single LSN. *)
Definition lsn_response (what : string) (status : N) (body : list byte) : KO N :=
  if decide (status <> statusOK \/ length body <> 8) then Fail_ (malformed what)
  else (slice body 0 8 ≫= getU64).

(** A response that is a single flag. *)
Definition flag_response (what : string) (status : N) (body : list byte) : KO bool :=
  if decide (status <> statusOK \/ length body <> 1) then Fail_ (malformed what)
  else (b ← index body 0; Done (bool_decide (b <> Byte.x00))).

Definition get_response (status : N) (body : list byte) : KO KVResult :=
  if decide (status = statusNotFound) then Fail_ ErrKeyNotFound
  else if decide (status <> statusOK \/ length body < 12) then Fail_ (malformed "get response")
  else (
    lsn ← slice body 0 8 ≫= getU64;
    valueLen ← slice body 8 12 ≫= getU32;
    if (maxValueSize <? valueLen)%N || negb (len body =? 12 + valueLen)%N
    then Fail_ (malformed "get value length")
    else (value ← slice_from body 12; Done (mkKVResult value lsn true))).

(** The loop over the entries of a multi-get response. *)
Fixpoint multi_entries (body : list byte) (count : nat) (pos : nat) : KO (list KVResult * nat) :=
  match count with
  | O => Done ([], pos)
  | S k =>
      if (length body - pos <? 16)%nat then Fail_ (ErrProtocol "truncated multi_get entry")
      else (
        p ← index body pos;
        valueLen ← slice body (pos + 4) (pos + 8) ≫= getU32;
        lsn ← slice body (pos + 8) (pos + 16) ≫= getU64;
        let pos := pos + 16 in
        if bool_decide (p <> Byte.x00) then
          if (maxValueSize <? valueLen)%N || (N.of_nat (length body - pos) <? valueLen)%N
          then Fail_ (ErrProtocol "multi_get value length")
          else (
            value ← slice body pos (pos + N.to_nat valueLen);
            rest ← multi_entries body k (pos + N.to_nat valueLen);
            Done (mkKVResult value lsn true :: rest.1, rest.2))
        else (
          rest ← multi_entries body k pos;
          Done (mkKVResult [] lsn false :: rest.1, rest.2)))
  end.

Definition multi_get_response (n : nat) (status : N) (body : list byte) : KO (list KVResult) :=
  if decide (status <> statusOK \/ length body < 4) then Fail_ (malformed "multi_get response")
  else (
    count ← slice body 0 4 ≫= getU32;
    if decide (count <> N.of_nat n) then Fail_ (ErrProtocol "multi_get count mismatch")
    else (
      r ← multi_entries body (N.to_nat count) 4;
      if decide (r.2 <> length body) then Fail_ (ErrProtocol "multi_get trailing bytes") else Done r.1)).

Definition compare_response (status : N) (body : list byte) : KO (N * bool) :=
  if decide (status <> statusOK \/ length body <> 16)
  then Fail_ (malformed "compare_batch_write response")
  else (
    b ← index body 0;
    lsn ← slice body 8 16 ≫= getU64;
    Done (lsn, bool_decide (b <> Byte.x00))).

(** The loop over the entries of a page of a scan. *)
Fixpoint scan_entries (body : list byte) (count : nat) (pos : nat) : KO (list KVEntry * nat) :=
  match count with
  | O => Done ([], pos)
  | S k =>
      if (length body - pos <? 16)%nat then Fail_ (ErrProtocol "truncated scan entry")
      else (
        keyLen ← slice body pos (pos + 4) ≫= getU32;
        valueLen ← slice body (pos + 4) (pos + 8) ≫= getU32;
        lsn ← slice body (pos + 8) (pos + 16) ≫= getU64;
        let pos := pos + 16 in
        if (maxKeySize <? keyLen)%N || (maxValueSize <? valueLen)%N
           || (N.of_nat (length body - pos) <? keyLen + valueLen)%N
        then Fail_ (ErrProtocol "scan entry length")
        else (
          key ← slice body pos (pos + N.to_nat keyLen);
          let pos := pos + N.to_nat keyLen in
          value ← slice body pos (pos + N.to_nat valueLen);
          rest ← scan_entries body k (pos + N.to_nat valueLen);
          Done (mkKVEntry key value lsn :: rest.1, rest.2)))
  end.

Definition scan_next_response (status : N) (body : list byte) : KO (list KVEntry * bool) :=
  if decide (status <> statusOK \/ length body < 8) then Fail_ (malformed "scan_next response")
  else (
    d ← index body 0;
    count ← slice body 4 8 ≫= getU32;
    r ← scan_entries body (N.to_nat count) 8;
    if decide (r.2 <> length body) then Fail_ (ErrProtocol "scan trailing bytes")
    else Done (r.1, bool_decide (d <> Byte.x00))).


(** ** The connection *)

Section Client.
Context {Conn : Type} (send : Conn -> list byte -> (Conn * list byte) + kv_error).

(** [incoming] is what has arrived and has not been read. *)
Record KVClient : Type := mkKVClient { nextID : N; incoming : list byte; conn : Conn }.

Definition NewKVClient (c : Conn) : KVClient := mkKVClient 1 [] c.

(** An operation of the client: its outcome, and the client after it, also when it fails. *)
Definition K (A : Type) : Type := KVClient -> KO A * KVClient.

#[export] Instance K_ret : MRet K := fun A a c => (Done a, c).
#[export] Instance K_bind : MBind K := fun A B k m c =>
  match m c with
  | (Done a, c) => k a c
  | (Fail_ e, c) => (Fail_ e, c)
  | (Panic, c) => (Panic, c)
  end.

Definition lift {A} (m : KO A) : K A := fun c => (m, c).

(** Writing and flushing bytes; the answer arrives. *)
Definition write (bs : list byte) : K () := fun c =>
  match send (conn c) bs with
  | inl (cn, arrived) => (Done (), mkKVClient (nextID c) (incoming c ++ arrived) cn)
  | inr e => (Fail_ e, c)
  end.

Definition writeFrame (opcode flags requestID : N) (payload : list byte) : K () :=
  write (encodeFrame opcode flags requestID payload).

Definition receive : K frame := fun c =>
  let (r, rest) := readFrame (incoming c) in (r, mkKVClient (nextID c) rest (conn c)).

(** [c.nextID], and [c.nextID++] on a uint64. *)
Definition fresh : K N := fun c =>
  (Done (nextID c), mkKVClient ((nextID c + 1) mod 2 ^ 64) (incoming c) (conn c)).

Definition request (opcode : N) (payload : list byte) : K (N * list byte) :=
  requestID ← fresh;
  _ ← writeFrame opcode 0 requestID payload;
  resp ← receive;
  let body := f_payload resp in
  if decide (f_opcode resp <> response_opcode opcode)
  then lift (Fail_ (ErrProtocol ("unexpected response opcode " ++ itoa (f_opcode resp))))
  else if decide (f_flags resp <> 1%N)
  then lift (Fail_ (ErrProtocol ("unexpected response flags " ++ itoa (f_flags resp))))
  else if decide (f_id resp <> requestID)
  then lift (Fail_ (ErrProtocol ("response id " ++ itoa (f_id resp) ++ " does not match request "
                                 ++ itoa requestID)))
  else if (length body <? 2)%nat then lift (Fail_ (ErrProtocol "response too short"))
  else (
    status ← lift (slice body 0 2 ≫= getU16);
    rest ← lift (slice_from body 2);
    if decide (status = statusError) then lift (Fail_ (ServerError (string_of rest)))
    else mret (status, rest)).

(** ** The operations *)

Definition Put (key value : list byte) : K N :=
  _ ← lift (validateKey key);
  _ ← lift (validateValue value);
  r ← request opPut (put_payload key value);
  lift (lsn_response "put response" r.1 r.2).

Definition Get (key : list byte) : K KVResult :=
  _ ← lift (validateKey key);
  r ← request opGet (oneKeyPayload key);
  lift (get_response r.1 r.2).

Definition Del (key : list byte) : K bool :=
  _ ← lift (validateKey key);
  r ← request opDelete (oneKeyPayload key);
  lift (flag_response "delete response" r.1 r.2).

Definition Exists_ (key : list byte) : K bool :=
  _ ← lift (validateKey key);
  r ← request opExists (oneKeyPayload key);
  lift (flag_response "exists response" r.1 r.2).

(** The answer to one of the pipelined requests. *)
Definition exists_answer (requestID : N) : K bool :=
  resp ← receive;
  let body := f_payload resp in
  if decide (f_opcode resp <> response_opcode opExists \/ f_flags resp <> 1%N \/ f_id resp <> requestID)
  then lift (Fail_ (malformed "exists response frame"))
  else if (length body <? 2)%nat then lift (Fail_ (ErrProtocol "response too short"))
  else (
    status ← lift (slice body 0 2 ≫= getU16);
    if decide (status = statusError) then
      (msg ← lift (slice_from body 2); lift (Fail_ (ServerError (string_of msg))))
    else if decide (status <> statusOK \/ length body <> 3) then lift (Fail_ (malformed "exists response"))
    else (b ← lift (index body 2); mret (bool_decide (b <> Byte.x00)))).

(** A numbered frame per key. *)
Fixpoint exists_frames (keys : list (list byte)) : K (list N * list byte) :=
  match keys with
  | [] => mret ([], [])
  | key :: rest =>
      requestID ← fresh;
      r ← exists_frames rest;
      mret (requestID :: r.1, encodeFrame opExists 0 requestID (oneKeyPayload key) ++ r.2)
  end.

Fixpoint exists_answers (ids : list N) : K (list bool) :=
  match ids with
  | [] => mret []
  | requestID :: ids => b ← exists_answer requestID; bs ← exists_answers ids; mret (b :: bs)
  end.

Definition exists_chunk (keys : list (list byte)) : K (list bool) :=
  r ← exists_frames keys;
  _ ← write r.2;
  exists_answers r.1.

(** [n] bounds the chunks. *)
Fixpoint exists_chunks (n : nat) (keys : list (list byte)) : K (list bool) :=
  match n, keys with
  | _, [] | O, _ => mret []
  | S n, _ =>
      bs ← exists_chunk (take existsPipelineSize keys);
      more ← exists_chunks n (drop existsPipelineSize keys);
      mret (bs ++ more)
  end.

Definition validate_keys (keys : list (list byte)) : KO () :=
  foldr (fun key m => _ ← validateKey key; m) (Done ()) keys.

Definition ExistsMany (keys : list (list byte)) : K (list bool) :=
  if (maxOperations <? N.of_nat (length keys))%N then lift (Fail_ (exceeds "too many keys"))
  else (_ ← lift (validate_keys keys); exists_chunks (length keys) keys).

Definition MultiGet (keys : list (list byte)) : K (list KVResult) :=
  if (maxOperations <? N.of_nat (length keys))%N then lift (Fail_ (exceeds "too many keys"))
  else (
    _ ← lift (check_keys 4 keys);
    r ← request opMultiGet (multi_get_payload keys);
    lift (multi_get_response (length keys) r.1 r.2)).

Definition BatchWrite (ops : list BatchOp) (metadata : list byte) : K N :=
  if negb (operation_count_ok ops) then lift (Fail_ (exceeds "invalid operation count"))
  else if (maxTransactionSize - 8 <? len metadata)%N
  then lift (Fail_ (exceeds "batch metadata exceeds transaction limit"))
  else (
    _ ← lift (check_ops (8 + len metadata) ops);
    r ← request opBatchWrite (batch_payload ops metadata);
    lift (lsn_response "batch_write response" r.1 r.2)).

(** The LSN of the write, and whether it was committed. *)
Definition CompareBatchWrite (checks : list CompareCheck) (ops : list BatchOp) (metadata : list byte)
    : K (N * bool) :=
  if negb (operation_count_ok ops) then lift (Fail_ (exceeds "invalid operation count"))
  else if (maxOperations <? N.of_nat (length checks))%N
  then lift (Fail_ (exceeds "too many compare checks"))
  else if (maxTransactionSize - 16 <? len metadata)%N
  then lift (Fail_ (exceeds "batch metadata exceeds transaction limit"))
  else (
    size ← lift (check_checks (16 + len metadata) checks);
    _ ← lift (check_ops size ops);
    r ← request opCompareBatch (compare_payload checks ops metadata);
    lift (compare_response r.1 r.2)).

(** ** Scans: a cursor is the server's identifier of the scan *)

Definition openScan (prefix : list byte) (includeValues : bool) (pageSize : N) : K N :=
  _ ← lift (validateKey prefix);
  if (pageSize =? 0)%N || (4096 <? pageSize)%N
  then lift (Fail_ (exceeds "scan page size must be between 1 and 4096"))
  else (
    r ← request opScanOpen (scan_open_payload includeValues pageSize prefix);
    lift (lsn_response "scan_open response" r.1 r.2)).

Definition Scan (prefix : list byte) : K N := openScan prefix true scanPageSize.
Definition ScanWithLimit (prefix : list byte) (pageSize : N) : K N := openScan prefix true pageSize.
Definition ScanKeys (prefix : list byte) : K N := openScan prefix false scanPageSize.

Definition Next (id : N) : K (list KVEntry * bool) :=
  r ← request opScanNext (scan_next_payload id);
  lift (scan_next_response r.1 r.2).

Definition Close (id : N) : K () :=
  r ← request opScanClose (scan_close_payload id);
  if decide (r.1 <> statusOK \/ length r.2 <> 1) then lift (Fail_ (malformed "scan_close response"))
  else mret ().

(** The loop over the pages; [None] when [fuel] pages have not been enough. *)
Fixpoint all_pages (fuel : nat) (id : N) : K (option (list KVEntry)) :=
  match fuel with
  | O => mret None
  | S k =>
      p ← Next id;
      if p.2 : bool then mret (Some p.1)
      else (rest ← all_pages k id; mret (option_map (app p.1) rest))
  end.

(** A deferred [Close], whose own error is dropped. *)
Definition closing {A} (id : N) (m : K A) : K A := fun c =>
  let (r, c) := m c in
  match Close id c with (Panic, c) => (Panic, c) | (_, c) => (r, c) end.

Definition Reads (fuel : nat) (prefix : list byte) : K (option (list string)) :=
  id ← Scan prefix;
  closing id (
    entries ← all_pages fuel id;
    mret (option_map (map (fun e => string_of (e_Value e))) entries)).

(** ** Strings *)

Definition Write (key value : string) : K () := _ ← Put (bytes key) (bytes value); mret ().

Definition Read (key : string) : K string := r ← Get (bytes key); mret (string_of (Value r)).

(** A missing key is no error here. *)
Definition ReadWithLSN (key : string) : K (string * N * bool) := fun c =>
  match Get (bytes key) c with
  | (Done r, c) => (Done (string_of (Value r), LSN r, true), c)
  | (Fail_ ErrKeyNotFound, c) => (Done (EmptyString, 0%N, false), c)
  | (Fail_ e, c) => (Fail_ e, c)
  | (Panic, c) => (Panic, c)
  end.

Definition Delete (key : string) : K () := _ ← Del (bytes key); mret ().

Definition IsAlive : K bool := fun c =>
  match request opPing [] c with
  | (Done _, c) => (Done true, c)
  | (Fail_ _, c) => (Done false, c)
  | (Panic, c) => (Panic, c)
  end.
End Client.

(** Whether an error makes the pool discard the connection. *)
Definition isConnectionError (e : kv_error) : bool :=
  match e with EOF | UnexpectedEOF | ErrProtocol _ | NetError _ => true | _ => false end.
