(* ===== verification/TestKV.v ===== *)
(** * The in-memory storage server (pkg/testkv/testkv.go)

    The server the repository's tests run the client against: the parsing of requests, the store
    with its commit numbers, and the loop over the frames of a connection.  It serves as the
    reference the client's operations are checked against. *)
From Stdlib Require Import NArith ZArith Lia Strings.String.
From Stdlib Require Strings.Byte.
From stdpp Require Import base option list list_numbers gmap sorting strings.
From S2P Require Import Prelude Bytes Wire KVClient.

Module Server.

Record scan : Set := mkScan { keys : list string; offset : nat; limit : N; keysOnly : bool }.

Record Server : Set := mkServer {
  data : gmap string (list byte);
  lsns : gmap string N;
  nextLSN : N;
  requests : gmap N N;
  dropCompareReply : bool;
  scans : gmap N scan;
  nextScan : N
}.

Definition New : Server := mkServer ∅ ∅ 0 ∅ false ∅ 0.

Definition incr (n : N) : N := ((n + 1) mod 2 ^ 64)%N.

(** [lsns[key]], zero for a missing key. *)
Definition lsn_of (s : Server) (key : string) : N := default 0%N (lsns s !! key).

Definition with_store (s : Server) (d : gmap string (list byte)) (l : gmap string N) (n : N) : Server :=
  mkServer d l n (requests s) (dropCompareReply s) (scans s) (nextScan s).

Definition with_scans (s : Server) (sc : gmap N scan) (n : N) : Server :=
  mkServer (data s) (lsns s) (nextLSN s) (requests s) (dropCompareReply s) sc n.

Definition count_request (s : Server) (opcode : N) : Server :=
  mkServer (data s) (lsns s) (nextLSN s)
    (<[opcode := (default 0 (requests s !! opcode) + 1)%N]> (requests s)) (dropCompareReply s) (scans s)
    (nextScan s).

(** ** Parsing the payloads; [None] is the [false] of the code *)

Definition parseOneKey (p : list byte) : KO (option (list byte)) :=
  if (length p <? 4)%nat then Done None
  else (
    l ← slice p 0 4 ≫= getU32;
    if negb (4 + l =? len p)%N then Done None
    else (key ← slice_from p 4; Done (Some key))).

Definition parsePut (p : list byte) : KO (option (list byte * list byte)) :=
  if (length p <? 8)%nat then Done None
  else (
    kl ← slice p 0 4 ≫= getU32;
    vl ← slice p 4 8 ≫= getU32;
    if negb (8 + kl + vl =? len p)%N then Done None
    else (
      let kend := N.to_nat ((8 + kl) mod 2 ^ 32) in
      key ← slice p 8 kend;
      value ← slice_from p kend;
      Done (Some (key, value)))).

Fixpoint parse_keys (p : list byte) (n : nat) (pos : nat) : KO (option (list (list byte) * nat)) :=
  match n with
  | O => Done (Some ([], pos))
  | S k =>
      if (length p - pos <? 4)%nat then Done None
      else (
        l ← slice p pos (pos + 4) ≫= getU32;
        let pos := pos + 4 in
        if (N.of_nat (length p - pos) <? l)%N then Done None
        else (
          key ← slice p pos (pos + N.to_nat l);
          rest ← parse_keys p k (pos + N.to_nat l);
          Done (option_map (fun r => (key :: r.1, r.2)) rest)))
  end.

Definition parseMultiGet (p : list byte) : KO (option (list (list byte))) :=
  if (length p <? 4)%nat then Done None
  else (
    n ← slice p 0 4 ≫= getU32;
    r ← parse_keys p (N.to_nat n) 4;
    Done (match r with
          | Some (ks, pos) => if decide (pos = length p) then Some ks else None
          | None => None
          end)).

(** The loop over the operations of a batch. *)
Fixpoint parse_ops (p : list byte) (n : nat) (pos : nat) : KO (option (list BatchOp * nat)) :=
  match n with
  | O => Done (Some ([], pos))
  | S k =>
      if (length p - pos <? 12)%nat then Done None
      else (
        op ← index p pos;
        kl ← slice p (pos + 4) (pos + 8) ≫= getU32;
        vl ← slice p (pos + 8) (pos + 12) ≫= getU32;
        let pos := pos + 12 in
        if decide (op <> batchPut /\ op <> batchDelete) then Done None
        else if (N.of_nat (length p - pos) <? kl + vl)%N then Done None
        else (
          key ← slice p pos (pos + N.to_nat kl);
          let pos := pos + N.to_nat kl in
          value ← slice p pos (pos + N.to_nat vl);
          rest ← parse_ops p k (pos + N.to_nat vl);
          Done (option_map (fun r => (mkBatchOp op key value :: r.1, r.2)) rest)))
  end.

Definition parseBatchOps (p : list byte) : KO (option (list BatchOp)) :=
  if (length p <? 8)%nat then Done None
  else (
    n ← slice p 0 4 ≫= getU32;
    ml ← slice p 4 8 ≫= getU32;
    r ← parse_ops p (N.to_nat n) (8 + N.to_nat ml);
    Done (match r with
          | Some (ops, pos) => if decide (pos = length p) then Some ops else None
          | None => None
          end)).

Fixpoint parse_checks (p : list byte) (n : nat) (pos : nat) : KO (option (list CompareCheck * nat)) :=
  match n with
  | O => Done (Some ([], pos))
  | S k =>
      if (length p - pos <? 16)%nat then Done None
      else (
        kl ← slice p pos (pos + 4) ≫= getU32;
        lsn ← slice p (pos + 8) (pos + 16) ≫= getU64;
        let pos := pos + 16 in
        if (N.of_nat (length p - pos) <? kl)%N then Done None
        else (
          key ← slice p pos (pos + N.to_nat kl);
          rest ← parse_checks p k (pos + N.to_nat kl);
          Done (option_map (fun r => (mkCompareCheck key lsn :: r.1, r.2)) rest)))
  end.

Definition parseCompareBatch (p : list byte) : KO (option (list CompareCheck * list BatchOp)) :=
  if (length p <? 16)%nat then Done None
  else (
    nc ← slice p 0 4 ≫= getU32;
    no ← slice p 4 8 ≫= getU32;
    ml ← slice p 8 12 ≫= getU32;
    cs ← parse_checks p (N.to_nat nc) 16;
    match cs with
    | None => Done None
    | Some (checks, pos) =>
        r ← parse_ops p (N.to_nat no) (pos + N.to_nat ml);
        Done (match r with
              | Some (ops, pos) => if decide (pos = length p) then Some (checks, ops) else None
              | None => None
              end)
    end).

Definition parseScanOpen (p : list byte) : KO (option (bool * N * list byte)) :=
  if (length p <? 12)%nat then Done None
  else (
    i ← index p 0;
    limit ← slice p 4 8 ≫= getU32;
    pl ← slice p 8 12 ≫= getU32;
    if negb (12 + pl =? len p)%N then Done None
    else (prefix ← slice_from p 12; Done (Some (bool_decide (i <> Byte.x00), limit, prefix)))).

Definition parseScanID (p : list byte) : KO (option N) :=
  if (length p <? 8)%nat then Done None
  else (id ← slice p 0 8 ≫= getU64; Done (Some id)).

(** ** Bodies *)

Definition statusBody (status : N) (p : list byte) : list byte := u16_bytes status ++ p.
Definition statusOKBody (p : list byte) : list byte := statusBody statusOK p.
Definition errorBody (msg : string) : list byte := statusBody statusError (bytes msg).

Definition flag (b : bool) : byte := if b then Byte.x01 else Byte.x00.

(** ** The operations *)

Definition apply_op (lsn : N) (st : gmap string (list byte) * gmap string N) (op : BatchOp)
    : gmap string (list byte) * gmap string N :=
  let key := string_of (b_Key op) in
  if decide (Op op = batchPut) then (<[key := b_Value op]> st.1, <[key := lsn]> st.2)
  else (delete key st.1, delete key st.2).

Definition applyOps (d : gmap string (list byte)) (l : gmap string N) (ops : list BatchOp) (lsn : N)
    : gmap string (list byte) * gmap string N := fold_left (apply_op lsn) ops (d, l).

(** A write: a new commit number for all its operations. *)
Definition commit (s : Server) (ops : list BatchOp) : Server :=
  let lsn := incr (nextLSN s) in
  let dl := applyOps (data s) (lsns s) ops lsn in
  with_store s dl.1 dl.2 lsn.

Definition check_holds (s : Server) (c : CompareCheck) : bool :=
  let key := string_of (c_Key c) in
  if decide (c_LSN c = 0%N) then bool_decide (data s !! key = None)
  else bool_decide (lsn_of s key = c_LSN c).

Definition get_body (s : Server) (key : string) : list byte :=
  match data s !! key with
  | None => statusBody statusNotFound []
  | Some v => statusOKBody (putU64 (lsn_of s key) ++ putU32 (len v) ++ v)
  end.

Definition multi_entry (s : Server) (key : list byte) : list byte :=
  match data s !! string_of key with
  | None => zeros 16
  | Some v => [Byte.x01] ++ zeros 3 ++ putU32 (len v) ++ putU64 (lsn_of s (string_of key)) ++ v
  end.

Definition multi_body (s : Server) (ks : list (list byte)) : list byte :=
  statusOKBody (putU32 (N.of_nat (length ks)) ++ concat (map (multi_entry s) ks)).

(** The keys that start with the prefix, in order. *)
Definition scan_keys (s : Server) (prefix : string) : list string :=
  merge_sort str_le (List.filter (String.prefix prefix) (map fst (map_to_list (data s)))).

Definition scan_value (s : Server) (ko : bool) (key : string) : list byte :=
  if ko then [] else default [] (data s !! key).

Definition scan_entry (s : Server) (ko : bool) (key : string) : list byte :=
  putU32 (len (bytes key)) ++ putU32 (len (scan_value s ko key)) ++ putU64 (lsn_of s key)
  ++ bytes key ++ scan_value s ko key.

(** The page: how many keys it holds, whether it is the last one, and its body. *)
Definition page_count (sc : scan) : nat := Nat.min (N.to_nat (limit sc)) (length (keys sc) - offset sc).
Definition page_keys (sc : scan) : list string := take (page_count sc) (drop (offset sc) (keys sc)).
Definition page_done (sc : scan) : bool := (length (keys sc) <=? offset sc + page_count sc)%nat.
Definition advance (sc : scan) : scan :=
  mkScan (keys sc) (offset sc + page_count sc) (limit sc) (keysOnly sc).

Definition page_body (s : Server) (sc : scan) : list byte :=
  statusOKBody ([flag (page_done sc)] ++ zeros 3 ++ putU32 (N.of_nat (page_count sc))
                ++ concat (map (scan_entry s (keysOnly sc)) (page_keys sc))).

Definition or_invalid {A} (r : KO (option A)) (s : Server) (k : A -> list byte * Server)
    : KO (list byte) * Server :=
  match r with
  | Done (Some a) => (Done (fst (k a)), snd (k a))
  | Done None => (Done (errorBody "InvalidPayload"), s)
  | Fail_ e => (Fail_ e, s)
  | Panic => (Panic, s)
  end.

Definition execute (s : Server) (opcode : N) (payload : list byte) : KO (list byte) * Server :=
  let s := count_request s opcode in
  if decide (opcode = opPing) then (Done (statusOKBody []), s)
  else if decide (opcode = opGet) then
    or_invalid (parseOneKey payload) s (fun key => (get_body s (string_of key), s))
  else if decide (opcode = opPut) then
    or_invalid (parsePut payload) s (fun kv =>
      let s := commit s [mkBatchOp batchPut kv.1 kv.2] in (statusOKBody (putU64 (nextLSN s)), s))
  else if decide (opcode = opDelete) then
    or_invalid (parseOneKey payload) s (fun key =>
      (statusOKBody [flag (bool_decide (is_Some (data s !! string_of key)))],
       with_store s (delete (string_of key) (data s)) (delete (string_of key) (lsns s)) (nextLSN s)))
  else if decide (opcode = opExists) then
    or_invalid (parseOneKey payload) s (fun key =>
      (statusOKBody [flag (bool_decide (is_Some (data s !! string_of key)))], s))
  else if decide (opcode = opMultiGet) then
    or_invalid (parseMultiGet payload) s (fun ks => (multi_body s ks, s))
  else if decide (opcode = opBatchWrite) then
    or_invalid (parseBatchOps payload) s (fun ops =>
      let s := commit s ops in (statusOKBody (putU64 (nextLSN s)), s))
  else if decide (opcode = opCompareBatch) then
    or_invalid (parseCompareBatch payload) s (fun co =>
      if forallb (check_holds s) co.1 then
        let s := commit s co.2 in
        (statusOKBody ([Byte.x01] ++ zeros 7 ++ putU64 (nextLSN s)), s)
      else (statusOKBody (zeros 8 ++ putU64 0), s))
  else if decide (opcode = opScanOpen) then
    or_invalid (parseScanOpen payload) s (fun ilp =>
      let id := incr (nextScan s) in
      (statusOKBody (putU64 id),
       with_scans s (<[id := mkScan (scan_keys s (string_of ilp.2)) 0 ilp.1.2 (negb ilp.1.1)]> (scans s)) id))
  else if decide (opcode = opScanNext) then
    or_invalid (parseScanID payload) s (fun id =>
      match scans s !! id with
      | None => (errorBody "ScanNotFound", s)
      | Some sc => (page_body s sc, with_scans s (<[id := advance sc]> (scans s)) (nextScan s))
      end)
  else if decide (opcode = opScanClose) then
    or_invalid (parseScanID payload) s (fun id =>
      (statusOKBody [Byte.x01], with_scans s (delete id (scans s)) (nextScan s)))
  else (Done (errorBody "UnknownOpcode"), s).

(** ** A connection *)

Definition encodeFrame (opcode flags requestID : N) (payload : list byte) : list byte :=
  let header := header_bytes opcode flags requestID (len payload) (crc32c payload) in
  header (crc32c (header 0%N)) ++ payload.

Definition encodeResponse (opcode requestID : N) (body : list byte) : list byte :=
  encodeFrame (response_opcode opcode) 1 requestID body.

(** The next frame, its length on the stream included; [None] when it has not all arrived. *)
Definition readFrame (r : list byte) : KO (option (frame * nat)) :=
  if (length r <? headerSize)%nat then Done None
  else (
    payloadLen ← slice r 20 24 ≫= getU32;
    if (N.of_nat (length r - headerSize) <? payloadLen)%N then Done None
    else (
      let fin := headerSize + N.to_nat payloadLen in
      payload ← slice r headerSize fin;
      opcode ← slice r 8 10 ≫= getU16;
      flags ← slice r 10 12 ≫= getU16;
      id ← slice r 12 20 ≫= getU64;
      Done (Some (mkFrame opcode flags id payload, fin)))).

Definition clear_drop (s : Server) : Server :=
  mkServer (data s) (lsns s) (nextLSN s) (requests s) false (scans s) (nextScan s).

(** [unread] has arrived and is not yet a whole frame. *)
Record connection : Set := mkConnection { server : Server; unread : list byte; closed : bool }.

(** [handle]: the responses to the frames that have arrived.  [fuel] bounds the frames, each of
    which takes a header at least. *)
Fixpoint handle (fuel : nat) (s : Server) (r : list byte) : connection * list byte :=
  match fuel with
  | O => (mkConnection s r false, [])
  | S k =>
      match readFrame r with
      | Done (Some (f, n)) =>
          match execute s (f_opcode f) (f_payload f) with
          | (Done body, s) =>
              if bool_decide (f_opcode f = opCompareBatch) && dropCompareReply s
              then (mkConnection (clear_drop s) [] true, [])
              else
                let (c, out) := handle k s (drop n r) in
                (c, encodeResponse (f_opcode f) (f_id f) body ++ out)
          | (_, s) => (mkConnection s [] true, [])
          end
      | Done None => (mkConnection s r false, [])
      | _ => (mkConnection s [] true, [])
      end
  end.

Definition send (c : connection) (bs : list byte) : (connection * list byte) + kv_error :=
  if closed c then inr (NetError "broken pipe")
  else
    let r := unread c ++ bs in
    inl (handle (S (length r)) (server c) r).

End Server.
