(* ===== verification/WireFacts.v ===== *)
(** * Properties of the storage frames and of the sequences they carry

    Checksums detect every change of one byte, frames are read back as they were written, and reading never panics.
    Then reading at a position of a buffer, the sizes of the requests, and the round trips of the counted sequences
    that the requests and the responses carry. *)
From Stdlib Require Import NArith ZArith Lia Strings.String.
From Stdlib Require Strings.Byte.
From stdpp Require Import base option list list_numbers strings gmap.
From S2P Require Import Prelude Bytes Wire KVClient TestKV.

(** ** Bits below a width *)

Lemma bits_below (n x : N) : (x < 2 ^ n)%N <-> forall m, (n <= m)%N -> N.testbit x m = false.
Proof.
  split.
  - intros H m Hm. destruct (N.eq_dec x 0%N) as [->|Hx]; [apply N.bits_0|].
    apply N.bits_above_log2. apply N.log2_lt_pow2 in H; lia.
  - intros H. destruct (N.eq_dec x 0%N) as [->|Hx]; [apply N.neq_0_lt_0, N.pow_nonzero; lia|].
    apply N.log2_lt_pow2; [lia|]. destruct (N.le_gt_cases n (N.log2 x)) as [Hle|]; [|lia].
    specialize (H _ Hle). rewrite N.bit_log2 in H by exact Hx. discriminate.
Qed.

Lemma lxor_below (n x y : N) : (x < 2 ^ n -> y < 2 ^ n -> N.lxor x y < 2 ^ n)%N.
Proof.
  rewrite !bits_below. intros Hx Hy m Hm. now rewrite N.lxor_spec, Hx, Hy.
Qed.

(** ** The checksum register *)

Lemma byte_below (b : byte) : (Byte.to_N b < 2 ^ 32)%N.
Proof. pose proof (Byte.to_N_bounded b). lia. Qed.

Lemma crc_bit_below (c : N) : (c < 2 ^ 32)%N -> (crc_bit c < 2 ^ 32)%N.
Proof.
  intros H. assert (Hs : (N.shiftr c 1 < 2 ^ 32)%N).
  { rewrite N.shiftr_div_pow2. apply N.Div0.div_lt_upper_bound. lia. }
  unfold crc_bit. destruct (N.testbit c 0); [|exact Hs]. now apply lxor_below.
Qed.

(** One step of the register is undone: the top bit of the result tells which branch was taken. *)
Definition crc_unbit (r : N) : N :=
  if N.testbit r 31 then (2 * N.lxor r castagnoli + 1)%N else (2 * r)%N.

Lemma crc_unbit_bit (c : N) : (c < 2 ^ 32)%N -> crc_unbit (crc_bit c) = c.
Proof.
  intros H. assert (Htop : N.testbit (N.shiftr c 1) 31 = false).
  { rewrite N.shiftr_spec'. apply (proj1 (bits_below 32 c) H). lia. }
  pose proof (N.div2_odd c) as Hc. rewrite N.div2_spec in Hc.
  unfold crc_unbit, crc_bit. rewrite N.bit0_odd. destruct (N.odd c); cbn [N.b2n] in Hc.
  - rewrite N.lxor_spec, Htop. change (N.testbit castagnoli 31) with true. cbn [xorb].
    rewrite N.lxor_assoc, N.lxor_nilpotent, N.lxor_0_r. lia.
  - rewrite Htop. lia.
Qed.

Lemma crc_bit_inj (c d : N) : (c < 2 ^ 32)%N -> (d < 2 ^ 32)%N -> crc_bit c = crc_bit d -> c = d.
Proof. intros Hc Hd E. rewrite <- (crc_unbit_bit c Hc), E. now apply crc_unbit_bit. Qed.

Lemma crc_iter (k : nat) : forall c, (c < 2 ^ 32)%N ->
  (Nat.iter k crc_bit c < 2 ^ 32)%N /\
  forall d, (d < 2 ^ 32)%N -> Nat.iter k crc_bit c = Nat.iter k crc_bit d -> c = d.
Proof.
  induction k as [|k IH]; intros c Hc; cbn [Nat.iter]; [auto|].
  destruct (IH c Hc) as [Hb Hi]. split; [now apply crc_bit_below|].
  intros d Hd E. apply Hi; [exact Hd|]. apply crc_bit_inj in E; [exact E|exact Hb|now apply IH].
Qed.

Lemma crc_byte_below (c : N) (b : byte) : (c < 2 ^ 32)%N -> (crc_byte c b < 2 ^ 32)%N.
Proof. intros H. apply crc_iter, lxor_below; [exact H|apply byte_below]. Qed.

Lemma crc_byte_inj (c d : N) (a b : byte) : (c < 2 ^ 32)%N -> (d < 2 ^ 32)%N ->
  crc_byte c a = crc_byte d b -> N.lxor c (Byte.to_N a) = N.lxor d (Byte.to_N b).
Proof.
  intros Hc Hd E. revert E. apply crc_iter; apply lxor_below; auto using byte_below.
Qed.

Lemma to_N_inj (a b : byte) : Byte.to_N a = Byte.to_N b -> a = b.
Proof. intros E. rewrite <- (byte_of_N_to_N a), E. apply byte_of_N_to_N. Qed.

Lemma crc_all_below (p : list byte) : forall c, (c < 2 ^ 32)%N -> (crc_all c p < 2 ^ 32)%N.
Proof.
  induction p as [|b p IH]; intros c Hc; [exact Hc|]. apply IH. now apply crc_byte_below.
Qed.

Lemma crc_all_inj (p : list byte) : forall c d, (c < 2 ^ 32)%N -> (d < 2 ^ 32)%N ->
  crc_all c p = crc_all d p -> c = d.
Proof.
  induction p as [|b p IH]; intros c d Hc Hd E; [exact E|].
  apply IH in E; [|now apply crc_byte_below..]. apply crc_byte_inj in E; [|assumption..].
  apply (f_equal (fun x => N.lxor x (Byte.to_N b))) in E.
  now rewrite !N.lxor_assoc, !N.lxor_nilpotent, !N.lxor_0_r in E.
Qed.

Lemma crc32c_below (p : list byte) : (crc32c p < 2 ^ 32)%N.
Proof. apply lxor_below; [now apply crc_all_below|reflexivity]. Qed.

(** Two messages that differ in one byte have different checksums. *)
Lemma crc32c_one_byte (front back : list byte) (x y : byte) :
  crc32c (front ++ x :: back) = crc32c (front ++ y :: back) -> x = y.
Proof.
  unfold crc32c. intros E. apply (f_equal (fun c => N.lxor c 0xFFFFFFFF)) in E.
  rewrite !N.lxor_assoc, !N.lxor_nilpotent, !N.lxor_0_r in E.
  unfold crc_all in E. rewrite !fold_left_app in E. cbn [fold_left] in E.
  pose proof (crc_all_below front 0xFFFFFFFF eq_refl) as Hc. unfold crc_all in Hc.
  apply (crc_all_inj back) in E; [|now apply crc_byte_below..].
  apply crc_byte_inj in E; [|assumption..]. apply to_N_inj.
  apply (f_equal (N.lxor (fold_left crc_byte front 0xFFFFFFFF%N))) in E.
  now rewrite <- !N.lxor_assoc, !N.lxor_nilpotent, !N.lxor_0_l in E.
Qed.

Lemma crc32c_insert (p : list byte) (i : nat) (b : byte) :
  i < length p -> p !! i <> Some b -> crc32c (<[i := b]> p) <> crc32c p.
Proof.
  intros Hi Hb E. destruct (lookup_lt_is_Some_2 p i Hi) as [x Hx].
  rewrite <- (take_drop_middle p i x Hx) in E at 2. rewrite (insert_take_drop p i b Hi) in E.
  apply crc32c_one_byte in E. congruence.
Qed.

(** ** Integers in a buffer *)

Lemma le_decode_inj (a : list byte) : forall b,
  length a = length b -> le_decode a = le_decode b -> a = b.
Proof.
  induction a as [|x a IH]; intros [|y b] Hl E; try discriminate; [reflexivity|].
  cbn [le_decode] in E. injection Hl as Hl. pose proof (Byte.to_N_bounded x). pose proof (Byte.to_N_bounded y).
  assert (Byte.to_N x = Byte.to_N y /\ le_decode a = le_decode b) as [H1 H2] by lia.
  f_equal; [now apply to_N_inj|now apply IH].
Qed.

Lemma getU16_round (v : N) : (v < 2 ^ 16)%N -> getU16 (u16_bytes v) = Done v.
Proof.
  intros H. change (getU16 (u16_bytes v)) with (Done (E := kv_error) (le_decode (le_encode 2 v))).
  rewrite le_decode_encode. f_equal. now apply N.mod_small.
Qed.

Lemma getU32_round (v : N) : (v < 2 ^ 32)%N -> getU32 (putU32 v) = Done v.
Proof. apply Uint32_bytes. Qed.

Lemma getU64_round (v : N) : (v < 2 ^ 64)%N -> getU64 (putU64 v) = Done v.
Proof. apply Uint64_bytes. Qed.

(** ** The fields of a header *)

Section Header.
Context (opcode flags requestID len payloadCRC headerCRC : N).

#[local] Abbreviation header := (header_bytes opcode flags requestID len payloadCRC headerCRC).

Lemma header_length : length header = headerSize.
Proof. reflexivity. Qed.

Lemma header_magic : slice (E := kv_error) header 0 4 = Done (bytes headerMagic).
Proof. reflexivity. Qed.
Lemma header_version : slice (E := kv_error) header 4 6 = Done (u16_bytes headerVersion).
Proof. reflexivity. Qed.
Lemma header_opcode : slice (E := kv_error) header 8 10 = Done (u16_bytes opcode).
Proof. reflexivity. Qed.
Lemma header_flags : slice (E := kv_error) header 10 12 = Done (u16_bytes flags).
Proof. reflexivity. Qed.
Lemma header_id : slice (E := kv_error) header 12 20 = Done (putU64 requestID).
Proof. reflexivity. Qed.
Lemma header_len : slice (E := kv_error) header 20 24 = Done (putU32 len).
Proof. reflexivity. Qed.
Lemma header_payload_crc : slice (E := kv_error) header 24 28 = Done (putU32 payloadCRC).
Proof. reflexivity. Qed.
Lemma header_crc : slice (E := kv_error) header 28 32 = Done (putU32 headerCRC).
Proof. reflexivity. Qed.
Lemma header_front : slice (E := kv_error) header 0 28 = Done (take 28 header).
Proof. reflexivity. Qed.

(** The header over which the checksum is computed. *)
Lemma header_zeroed : take 28 header ++ putU32 0 = header_bytes opcode flags requestID len payloadCRC 0.
Proof. reflexivity. Qed.

Lemma header_split : header = take 28 header ++ putU32 headerCRC.
Proof. reflexivity. Qed.
End Header.

(** What the header of a frame says passes the checks. *)
Lemma check_header_frame (opcode flags id n pcrc : N) :
  (n <= maxFrameSize)%N ->
  check_header (header_bytes opcode flags id n pcrc (crc32c (header_bytes opcode flags id n pcrc 0))) = Done n.
Proof.
  intros Hn. unfold check_header. rewrite header_magic. rewrite bind_Done.
  rewrite decide_False by auto. rewrite header_version. rewrite bind_Done.
  rewrite getU16_round by reflexivity. rewrite bind_Done. rewrite decide_False by auto.
  rewrite header_len. rewrite bind_Done.
  rewrite getU32_round by (apply (N.le_lt_trans _ _ _ Hn); reflexivity).
  rewrite bind_Done. rewrite (proj2 (N.ltb_ge _ _)) by exact Hn. rewrite header_crc. rewrite bind_Done.
  rewrite getU32_round by apply crc32c_below. rewrite bind_Done. rewrite header_front. rewrite bind_Done.
  rewrite header_zeroed, decide_False by auto. reflexivity.
Qed.

Lemma check_payload_frame (opcode flags id n hcrc : N) (payload : list byte) :
  (opcode < 2 ^ 16)%N -> (flags < 2 ^ 16)%N -> (id < 2 ^ 64)%N ->
  check_payload (header_bytes opcode flags id n (crc32c payload) hcrc) payload =
  Done (mkFrame opcode flags id payload).
Proof.
  intros Ho Hf Hi. unfold check_payload. rewrite header_payload_crc. rewrite bind_Done.
  rewrite getU32_round by apply crc32c_below. rewrite bind_Done. rewrite decide_False by auto.
  rewrite header_opcode. rewrite bind_Done. rewrite getU16_round by exact Ho.
  rewrite bind_Done. rewrite header_flags. rewrite bind_Done.
  rewrite getU16_round by exact Hf. rewrite bind_Done. rewrite header_id.
  rewrite bind_Done. now rewrite getU64_round by exact Hi.
Qed.

Lemma ReadFull_app (n : N) (a r : list byte) : n = len a -> ReadFull n (a ++ r) = (Done a, r).
Proof.
  intros ->. unfold ReadFull, len. rewrite length_app, (proj2 (N.ltb_ge _ _)) by lia.
  now rewrite Nat2N.id, take_app_length, drop_app_length.
Qed.

Lemma readFrame_header (header r : list byte) :
  length header = headerSize ->
  readFrame (header ++ r) =
    match check_header header with
    | Done payloadLen =>
        match ReadFull payloadLen r with
        | (Done payload, r) => (check_payload header payload, r)
        | (Fail_ e, r) => (Fail_ e, r)
        | (Panic, r) => (Panic, r)
        end
    | Fail_ e => (Fail_ e, r)
    | Panic => (Panic, r)
    end.
Proof. intros H. unfold readFrame. now rewrite ReadFull_app by (unfold len; now rewrite H). Qed.

Lemma readFrame_encode (opcode flags id : N) (payload r : list byte) :
  (opcode < 2 ^ 16)%N -> (flags < 2 ^ 16)%N -> (id < 2 ^ 64)%N -> (len payload <= maxFrameSize)%N ->
  readFrame (encodeFrame opcode flags id payload ++ r) = (Done (mkFrame opcode flags id payload), r).
Proof.
  intros Ho Hf Hi Hl. unfold encodeFrame. rewrite <- app_assoc.
  rewrite readFrame_header by apply header_length. rewrite check_header_frame by exact Hl.
  rewrite ReadFull_app by reflexivity. now rewrite check_payload_frame.
Qed.

(** ** Damaged frames *)

Lemma safe_getU16 (b : list byte) : 2 <= length b -> safe (getU16 b) (fun v => (v < 2 ^ 16)%N).
Proof.
  intros H. unfold getU16. rewrite (proj2 (Nat.leb_le _ _)) by lia. cbn.
  pose proof (le_decode_bound (take 2 b)) as Hb. rewrite length_take, Nat.min_l in Hb by lia. exact Hb.
Qed.

(** A field of a header. *)
Lemma safe_field {A} (k : list byte -> KO A) (header : list byte) (lo hi : nat) (Q : A -> Prop) :
  lo <= hi -> hi <= length header ->
  (forall b, length b = hi - lo -> safe (k b) Q) -> safe (slice header lo hi ≫= k) Q.
Proof. intros H1 H2 Hk. eapply safe_bind; [apply safe_slice; assumption|exact Hk]. Qed.

Lemma safe_check_header (header : list byte) :
  length header = headerSize -> safe (check_header header) (fun n => (n <= maxFrameSize)%N).
Proof.
  unfold headerSize. intros H. unfold check_header.
  apply safe_field; [lia|lia|]. intros magic _. case_decide; [exact I|].
  eapply safe_bind.
  { apply (safe_field getU16 header 4 6 (fun _ => True)); [lia|lia|]. intros b Hb.
    eapply safe_mono; [apply safe_getU16; lia|auto]. }
  intros version _. case_decide; [exact I|]. eapply safe_bind.
  { apply (safe_field getU32 header 20 24 (fun _ => True)); [lia|lia|]. intros b Hb.
    eapply safe_mono; [apply safe_Uint32; lia|auto]. }
  intros payloadLen _. destruct (N.ltb_spec maxFrameSize payloadLen); [exact I|]. eapply safe_bind.
  { apply (safe_field getU32 header 28 32 (fun _ => True)); [lia|lia|]. intros b Hb.
    eapply safe_mono; [apply safe_Uint32; lia|auto]. }
  intros headerCRC _. apply safe_field; [lia|lia|]. intros front _. case_decide; [exact I|assumption].
Qed.

Lemma safe_check_payload (header payload : list byte) :
  length header = headerSize ->
  safe (check_payload header payload) (fun f => f_payload f = payload /\ (f_opcode f < 2 ^ 16)%N).
Proof.
  unfold headerSize. intros H. unfold check_payload. eapply safe_bind.
  { apply (safe_field getU32 header 24 28 (fun _ => True)); [lia|lia|]. intros b Hb.
    eapply safe_mono; [apply safe_Uint32; lia|auto]. }
  intros payloadCRC _. case_decide; [exact I|]. eapply safe_bind.
  { apply (safe_field getU16 header 8 10); [lia|lia|]. intros b Hb. apply safe_getU16. lia. }
  intros opcode Hop. eapply safe_bind.
  { apply (safe_field getU16 header 10 12 (fun _ => True)); [lia|lia|]. intros b Hb.
    eapply safe_mono; [apply safe_getU16; lia|auto]. }
  intros flags _. eapply safe_bind.
  { apply (safe_field getU64 header 12 20 (fun _ => True)); [lia|lia|]. intros b Hb.
    eapply safe_mono; [apply safe_Uint64; lia|auto]. }
  intros id _. cbn. auto.
Qed.

Lemma safe_ReadFull (n : N) (r : list byte) :
  safe (fst (ReadFull n r)) (fun a => len a = n).
Proof.
  unfold ReadFull. destruct (N.ltb_spec (len r) n); [now case_decide|]. unfold len in *.
  cbn. rewrite length_take. lia.
Qed.

Lemma safe_readFrame (r : list byte) :
  safe (fst (readFrame r)) (fun f => (len (f_payload f) <= maxFrameSize)%N).
Proof.
  unfold readFrame. pose proof (safe_ReadFull (N.of_nat headerSize) r) as Hr.
  destruct (ReadFull _ r) as [[header| |] r1]; cbn in Hr; [|exact I|exact Hr].
  assert (Hh : length header = headerSize) by (unfold len in Hr; lia).
  pose proof (safe_check_header header Hh) as Hc.
  destruct (check_header header) as [n| |]; cbn in Hc; [|exact I|exact Hc].
  pose proof (safe_ReadFull n r1) as Hp. destruct (ReadFull n r1) as [[payload| |] r2]; cbn in Hp;
    [|exact I|exact Hp]. cbn [fst].
  eapply safe_mono; [now apply safe_check_payload|]. cbn. intros f [-> _]. lia.
Qed.

(** A header whose checksum is not the checksum of its first 28 bytes is refused. *)
Lemma check_header_refuses (front check : list byte) :
  length front = 28 -> length check = 4 -> crc32c (front ++ putU32 0) <> le_decode check ->
  exists e, check_header (front ++ check) = Fail_ e.
Proof.
  intros Hf Hc Hne. assert (Hl : length (front ++ check) = headerSize) by (rewrite length_app; unfold headerSize; lia).
  unfold check_header.
  assert (Hcrc : slice (E := kv_error) (front ++ check) 28 32 = Done check).
  { rewrite <- (app_nil_r (front ++ check)), <- app_assoc. apply data_slice_app; [now rewrite Hf|lia]. }
  assert (Hfront : slice (E := kv_error) (front ++ check) 0 28 = Done front).
  { change (front ++ check) with ([] ++ front ++ check). now apply data_slice_app. }
  assert (Hget : getU32 check = Done (le_decode check)).
  { unfold getU32, Uint32. rewrite Hc. cbn [Nat.leb]. now rewrite firstn_all2 by lia. }
  pose proof (safe_check_header _ Hl) as Hsafe. unfold check_header in Hsafe.
  rewrite Hcrc, Hfront in *. rewrite !bind_Done, Hget in *.
  destruct (slice (front ++ check) 0 4) as [m|e|]; [|eexists; reflexivity|destruct Hsafe].
  rewrite bind_Done in *. case_decide; [eexists; reflexivity|].
  destruct (slice (front ++ check) 4 6 ≫= getU16) as [v|e|]; [|eexists; reflexivity|destruct Hsafe].
  rewrite bind_Done in *. case_decide; [eexists; reflexivity|].
  destruct (slice (front ++ check) 20 24 ≫= getU32) as [n|e|]; [|eexists; reflexivity|destruct Hsafe].
  rewrite bind_Done in *. destruct (maxFrameSize <? n)%N; [eexists; reflexivity|].
  rewrite !bind_Done. rewrite decide_True by exact Hne. eexists; reflexivity.
Qed.

Lemma check_payload_refuses (opcode flags id n hcrc : N) (payload payload' : list byte) :
  crc32c payload' <> crc32c payload ->
  exists e, check_payload (header_bytes opcode flags id n (crc32c payload) hcrc) payload' = Fail_ e.
Proof.
  intros Hne. unfold check_payload. rewrite header_payload_crc, bind_Done.
  rewrite getU32_round by apply crc32c_below. rewrite bind_Done, decide_True by exact Hne.
  eexists; reflexivity.
Qed.

(** The three parts of a frame: what the header's checksum covers, that checksum, the payload. *)
Lemma frame_parts (opcode flags id : N) (payload : list byte) :
  exists front, length front = 28 /\
    encodeFrame opcode flags id payload = front ++ putU32 (crc32c (front ++ putU32 0)) ++ payload /\
    front ++ putU32 (crc32c (front ++ putU32 0)) =
      header_bytes opcode flags id (len payload) (crc32c payload)
        (crc32c (header_bytes opcode flags id (len payload) (crc32c payload) 0)).
Proof.
  exists (take 28 (header_bytes opcode flags id (len payload) (crc32c payload) 0)).
  rewrite header_zeroed. split; [reflexivity|]. unfold encodeFrame.
  assert (E : take 28 (header_bytes opcode flags id (len payload) (crc32c payload) 0) ++
              putU32 (crc32c (header_bytes opcode flags id (len payload) (crc32c payload) 0)) =
              header_bytes opcode flags id (len payload) (crc32c payload)
                (crc32c (header_bytes opcode flags id (len payload) (crc32c payload) 0))).
  { generalize (crc32c (header_bytes opcode flags id (len payload) (crc32c payload) 0)).
    generalize (crc32c payload) (len payload). reflexivity. }
  split; [now rewrite app_assoc, E|exact E].
Qed.

Lemma readFrame_bad_header (front check r : list byte) :
  length front = 28 -> length check = 4 -> crc32c (front ++ putU32 0) <> le_decode check ->
  exists e, fst (readFrame (front ++ check ++ r)) = Fail_ e.
Proof.
  intros Hf Hc Hne. rewrite app_assoc, readFrame_header by (rewrite length_app, Hf, Hc; reflexivity).
  destruct (check_header_refuses front check Hf Hc Hne) as [e ->]. now exists e.
Qed.

Lemma le_decode_putU32 (v : N) : (v < 2 ^ 32)%N -> le_decode (putU32 v) = v.
Proof. apply u32_round. Qed.

Lemma frame_damaged (opcode flags id : N) (payload r : list byte) (i : nat) (b : byte) :
  (len payload <= maxFrameSize)%N ->
  let frame := encodeFrame opcode flags id payload in
  i < length frame -> frame !! i <> Some b ->
  exists e, fst (readFrame (<[i := b]> frame ++ r)) = Fail_ e.
Proof.
  intros Hl frame. unfold frame. clear frame.
  destruct (frame_parts opcode flags id payload) as (front & Hf & -> & Hh).
  set (check := putU32 (crc32c (front ++ putU32 0))) in *.
  assert (Hck : le_decode check = crc32c (front ++ putU32 0)) by apply le_decode_putU32, crc32c_below.
  rewrite !length_app. change (length check) with 4. rewrite Hf. intros Hi Hb.
  destruct (Nat.lt_ge_cases i 28) as [H1|H1].
  - rewrite lookup_app_l in Hb by lia. rewrite insert_app_l, <- app_assoc, <- app_assoc by lia.
    apply readFrame_bad_header; [now rewrite length_insert|reflexivity|]. rewrite Hck.
    rewrite <- insert_app_l by lia. apply crc32c_insert; [rewrite length_app; lia|].
    now rewrite lookup_app_l by lia.
  - rewrite lookup_app_r in Hb by lia. replace i with (length front + (i - 28)) by lia.
    rewrite insert_app_r. rewrite Hf in Hb. set (j := i - 28) in *.
    destruct (Nat.lt_ge_cases j 4) as [H2|H2].
    + rewrite lookup_app_l in Hb by exact H2. rewrite insert_app_l by exact H2. rewrite <- !app_assoc.
      apply readFrame_bad_header; [exact Hf|now rewrite length_insert|]. rewrite <- Hck. intros E.
      apply le_decode_inj in E; [|now rewrite length_insert]. apply Hb. rewrite E.
      now apply list_lookup_insert_eq.
    + rewrite lookup_app_r in Hb by exact H2. change (length check) with 4 in Hb.
      replace j with (length check + (j - 4)) by (change (length check) with 4; lia).
      rewrite insert_app_r, <- !app_assoc, app_assoc, Hh.
      rewrite readFrame_header by apply header_length. rewrite check_header_frame by exact Hl.
      rewrite ReadFull_app by (unfold len; now rewrite length_insert).
      apply check_payload_refuses, crc32c_insert; [lia|exact Hb].
Qed.

(** C25: a frame is read back as it was written, whatever follows it on the stream, and a frame in
    which one byte, of the header or of the payload, has been changed is never accepted. *)
Theorem frames_survive (opcode flags id : N) (payload rest : list byte)
    (Hop : (opcode < 2 ^ 16)%N) (Hflags : (flags < 2 ^ 16)%N) (Hid : (id < 2 ^ 64)%N)
    (Hlen : (len payload <= maxFrameSize)%N) :
  let frame := encodeFrame opcode flags id payload in
  readFrame (frame ++ rest) = (Done (mkFrame opcode flags id payload), rest) /\
  forall i b, i < length frame -> frame !! i <> Some b ->
    exists e, fst (readFrame (<[i := b]> frame ++ rest)) = Fail_ e.
Proof.
  intros frame. split; [now apply readFrame_encode|]. intros i b. now apply frame_damaged.
Qed.

Lemma frames_survive_witness :
  readFrame (encodeFrame opPut 0 7 (bytes "key") ++ bytes "next") =
    (Done (mkFrame opPut 0 7 (bytes "key")), bytes "next") /\
  exists e, fst (readFrame (<[33 := Byte.x00]> (encodeFrame opPut 0 7 (bytes "key")) ++ [])) = Fail_ e.
Proof.
  split.
  - apply (frames_survive opPut 0 7 (bytes "key") (bytes "next")); vm_compute; congruence.
  - apply (frames_survive opPut 0 7 (bytes "key") []); vm_compute; try congruence. lia.
Defined.

(** ** Payloads and bodies as sequences of entries *)

(** ** Positions *)

Lemma slice_at {E} (pre x : list byte) (a b : nat) :
  slice (E := E) (pre ++ x) (length pre + a) (length pre + b) = slice x a b.
Proof.
  unfold slice. rewrite length_app.
  replace (length pre + a <=? length pre + b)%nat with (a <=? b)%nat
    by (apply eq_true_iff_eq; rewrite !Nat.leb_le; lia).
  replace (length pre + b <=? length pre + length x)%nat with (b <=? length x)%nat
    by (apply eq_true_iff_eq; rewrite !Nat.leb_le; lia).
  rewrite drop_app_ge by lia. now replace (length pre + a - length pre) with a by lia;
    replace (length pre + b - (length pre + a)) with (b - a) by lia.
Qed.

Lemma slice_at_0 {E} (pre x : list byte) (b : nat) :
  slice (E := E) (pre ++ x) (length pre) (length pre + b) = slice x 0 b.
Proof. now rewrite <- (slice_at pre x 0 b), Nat.add_0_r. Qed.

Lemma index_at {E} (pre x : list byte) (a : nat) : index (E := E) (pre ++ x) (length pre + a) = index x a.
Proof. unfold index. rewrite lookup_app_r by lia. now replace (length pre + a - length pre) with a by lia. Qed.

Lemma slice_here {E} (pre a tl : list byte) (n : nat) :
  n = length a -> slice (E := E) (pre ++ a ++ tl) (length pre) (length pre + n) = Done a.
Proof. intros ->. now apply data_slice_app. Qed.

Lemma rest_length (pre x : list byte) : length (pre ++ x) - length pre = length x.
Proof. rewrite length_app. lia. Qed.

Lemma len_app (a b : list byte) : len (a ++ b) = (len a + len b)%N.
Proof. unfold len. rewrite length_app. lia. Qed.

Lemma len_nat (a : list byte) : N.to_nat (len a) = length a.
Proof. unfold len. lia. Qed.

Lemma len_concat_map {A} (f : A -> list byte) (l : list A) :
  len (concat (map f l)) = foldr (fun a n => (len (f a) + n)%N) 0%N l.
Proof. induction l as [|a l IH]; cbn [map concat foldr]; [reflexivity|]. now rewrite len_app, IH. Qed.

(** Sizes that fit the fields of the protocol. *)
Definition small (b : list byte) : Prop := (len b < 2 ^ 32)%N.

Lemma small_key (key : list byte) : (len key <= maxKeySize)%N -> small key.
Proof. unfold small. intros H. apply (N.le_lt_trans _ _ _ H). reflexivity. Qed.

Lemma small_value (value : list byte) : (len value <= maxValueSize)%N -> small value.
Proof. unfold small. intros H. apply (N.le_lt_trans _ _ _ H). reflexivity. Qed.

(** Reading the integer field between [a] and [b] of the entry after [pre]. *)
Ltac read_u32 pre a b H Hsmall :=
  rewrite (slice_at pre _ a b), H, bind_Done, getU32_round, bind_Done by exact Hsmall.
Ltac read_first pre b H Hsmall :=
  rewrite (slice_at_0 pre _ b), H, bind_Done, getU32_round, bind_Done by exact Hsmall.
Ltac read_u64 pre a b H Hsmall :=
  rewrite (slice_at pre _ a b), H, bind_Done, getU64_round, bind_Done by exact Hsmall.

(** ** Entries *)

Definition op_wf (op : BatchOp) : Prop :=
  (Op op = batchPut \/ Op op = batchDelete) /\ small (b_Key op) /\ small (b_Value op).

(** The twelve bytes in front of a batch operation. *)
Definition op_head (op : BatchOp) : list byte :=
  [Op op] ++ zeros 3 ++ putU32 (len (b_Key op)) ++ putU32 (len (b_Value op)).

Lemma batch_entry_head (op : BatchOp) : batch_entry op = op_head op ++ b_Key op ++ b_Value op.
Proof. unfold batch_entry, op_head. now rewrite <- !app_assoc. Qed.

Lemma op_head_fields (op : BatchOp) (tl : list byte) :
  index (E := kv_error) (op_head op ++ tl) 0 = Done (Op op) /\
  slice (E := kv_error) (op_head op ++ tl) 4 8 = Done (putU32 (len (b_Key op))) /\
  slice (E := kv_error) (op_head op ++ tl) 8 12 = Done (putU32 (len (b_Value op))).
Proof. now repeat split. Qed.

Lemma pair_fits (key value tl : list byte) :
  (N.of_nat (length (key ++ value ++ tl)) <? len key + len value)%N = false.
Proof. apply N.ltb_ge. unfold len. rewrite !length_app. lia. Qed.

Lemma one_fits (key tl : list byte) : (N.of_nat (length (key ++ tl)) <? len key)%N = false.
Proof. apply N.ltb_ge. unfold len. rewrite length_app. lia. Qed.

Lemma parse_ops_entries (ops : list BatchOp) (tl : list byte) : forall pre,
  List.Forall op_wf ops ->
  Server.parse_ops (pre ++ concat (map batch_entry ops) ++ tl) (length ops) (length pre) =
  Done (Some (ops, length (pre ++ concat (map batch_entry ops)))).
Proof.
  induction ops as [|op ops IH]; intros pre Hwf; cbn [map concat length Server.parse_ops].
  - now rewrite app_nil_r.
  - inversion Hwf as [|? ? [Hop [Hk Hv]] Hrest]; subst.
    rewrite batch_entry_head, <- !app_assoc. set (tl' := concat (map batch_entry ops) ++ tl).
    destruct (op_head_fields op (b_Key op ++ b_Value op ++ tl')) as (H1 & H2 & H3).
    rewrite rest_length. rewrite (proj2 (Nat.ltb_ge _ _)) by (rewrite length_app; change (length (op_head op)) with 12; lia).
    replace (index (pre ++ _) (length pre)) with (index (E := kv_error) (op_head op ++ b_Key op ++ b_Value op ++ tl') 0)
      by (rewrite <- (index_at pre); now rewrite Nat.add_0_r).
    rewrite H1, bind_Done. read_u32 pre 4 8 H2 Hk. read_u32 pre 8 12 H3 Hv.
    rewrite decide_False by tauto.
    rewrite app_assoc. replace (length pre + 12) with (length (pre ++ op_head op)) by (rewrite length_app; reflexivity).
    rewrite rest_length, pair_fits, !len_nat. rewrite slice_here, bind_Done by reflexivity.
    rewrite (app_assoc (pre ++ op_head op)), <- (length_app (pre ++ op_head op)).
    rewrite slice_here, bind_Done by reflexivity.
    rewrite <- (length_app (_ ++ b_Key op)), (app_assoc (_ ++ b_Key op)). unfold tl'.
    rewrite IH by exact Hrest. rewrite bind_Done. cbn [option_map fst snd].
    destruct op; cbn. now rewrite <- !app_assoc.
Qed.

Lemma index_here {E} (pre x : list byte) : index (E := E) (pre ++ x) (length pre) = index x 0.
Proof. now rewrite <- (index_at pre x 0), Nat.add_0_r. Qed.

Lemma skip_head (pre head x : list byte) (n : nat) :
  length head = n -> pre ++ head ++ x = (pre ++ head) ++ x /\ length pre + n = length (pre ++ head).
Proof. intros <-. split; [now rewrite app_assoc|now rewrite length_app]. Qed.

Lemma parse_keys_entries (ks : list (list byte)) (tl : list byte) : forall pre,
  List.Forall small ks ->
  Server.parse_keys (pre ++ concat (map oneKeyPayload ks) ++ tl) (length ks) (length pre) =
  Done (Some (ks, length (pre ++ concat (map oneKeyPayload ks)))).
Proof.
  induction ks as [|key ks IH]; intros pre Hwf; cbn [map concat length Server.parse_keys].
  - now rewrite app_nil_r.
  - inversion Hwf as [|? ? Hk Hrest]; subst. change (oneKeyPayload key) with (putU32 (len key) ++ key).
    rewrite <- !app_assoc. set (tl' := concat (map oneKeyPayload ks) ++ tl).
    assert (H1 : slice (E := kv_error) (putU32 (len key) ++ key ++ tl') 0 4 = Done (putU32 (len key))) by reflexivity.
    rewrite rest_length, (proj2 (Nat.ltb_ge _ _)) by (rewrite length_app; change (length (putU32 _)) with 4; lia).
    read_first pre 4 H1 Hk.
    destruct (skip_head pre (putU32 (len key)) (key ++ tl') 4 eq_refl) as [-> ->].
    rewrite rest_length, one_fits, !len_nat. rewrite slice_here, bind_Done by reflexivity.
    rewrite <- (length_app (pre ++ _)), (app_assoc (pre ++ _)). unfold tl'.
    rewrite IH by exact Hrest. rewrite bind_Done. cbn [option_map fst snd]. now rewrite <- !app_assoc.
Qed.

Definition check_wf (c : CompareCheck) : Prop := small (c_Key c) /\ (c_LSN c < 2 ^ 64)%N.

Definition check_head (c : CompareCheck) : list byte :=
  putU32 (len (c_Key c)) ++ zeros 4 ++ putU64 (c_LSN c).

Lemma check_entry_head (c : CompareCheck) : check_entry c = check_head c ++ c_Key c.
Proof. unfold check_entry, check_head. now rewrite <- !app_assoc. Qed.

Lemma parse_checks_entries (cs : list CompareCheck) (tl : list byte) : forall pre,
  List.Forall check_wf cs ->
  Server.parse_checks (pre ++ concat (map check_entry cs) ++ tl) (length cs) (length pre) =
  Done (Some (cs, length (pre ++ concat (map check_entry cs)))).
Proof.
  induction cs as [|c cs IH]; intros pre Hwf; cbn [map concat length Server.parse_checks].
  - now rewrite app_nil_r.
  - inversion Hwf as [|? ? [Hk Hl] Hrest]; subst.
    rewrite check_entry_head, <- !app_assoc. set (tl' := concat (map check_entry cs) ++ tl).
    assert (H1 : slice (E := kv_error) (check_head c ++ c_Key c ++ tl') 0 4 = Done (putU32 (len (c_Key c)))) by reflexivity.
    assert (H2 : slice (E := kv_error) (check_head c ++ c_Key c ++ tl') 8 16 = Done (putU64 (c_LSN c))) by reflexivity.
    rewrite rest_length, (proj2 (Nat.ltb_ge _ _)) by (rewrite length_app; change (length (check_head _)) with 16; lia).
    read_first pre 4 H1 Hk. read_u64 pre 8 16 H2 Hl.
    destruct (skip_head pre (check_head c) (c_Key c ++ tl') 16 eq_refl) as [-> ->].
    rewrite rest_length, one_fits, !len_nat. rewrite slice_here, bind_Done by reflexivity.
    rewrite <- (length_app (pre ++ _)), (app_assoc (pre ++ _)). unfold tl'.
    rewrite IH by exact Hrest. rewrite bind_Done. destruct c. cbn. now rewrite <- !app_assoc.
Qed.

(** ** Responses *)

(** The entry of a multi-get response for a result. *)
Definition result_entry (r : KVResult) : list byte :=
  if Found r then [Byte.x01] ++ zeros 3 ++ putU32 (len (Value r)) ++ putU64 (LSN r) ++ Value r
  else zeros 16.

Definition result_wf (r : KVResult) : Prop :=
  if Found r then (len (Value r) <= maxValueSize)%N /\ (LSN r < 2 ^ 64)%N
  else Value r = [] /\ LSN r = 0%N.

Definition result_head (r : KVResult) : list byte :=
  [Byte.x01] ++ zeros 3 ++ putU32 (len (Value r)) ++ putU64 (LSN r).

Lemma multi_entries_results (rs : list KVResult) (tl : list byte) : forall pre,
  List.Forall result_wf rs ->
  multi_entries (pre ++ concat (map result_entry rs) ++ tl) (length rs) (length pre) =
  Done (rs, length (pre ++ concat (map result_entry rs))).
Proof.
  induction rs as [|r rs IH]; intros pre Hwf; cbn [map concat length multi_entries].
  - now rewrite app_nil_r.
  - inversion Hwf as [|? ? Hr Hrest]; subst. destruct r as [v l found]. unfold result_wf in Hr.
    rewrite <- !app_assoc. set (tl' := concat (map result_entry rs) ++ tl).
    destruct found; cbn [Found Value LSN] in Hr.
    + destruct Hr as [Hv Hl]. pose proof (small_value _ Hv) as Hsv.
      change (result_entry (mkKVResult v l true)) with
        ([Byte.x01] ++ zeros 3 ++ putU32 (len v) ++ putU64 l ++ v).
      set (head := [Byte.x01] ++ zeros 3 ++ putU32 (len v) ++ putU64 l).
      replace ([Byte.x01] ++ zeros 3 ++ putU32 (len v) ++ putU64 l ++ v) with (head ++ v)
        by (unfold head; now rewrite <- !app_assoc).
      rewrite <- app_assoc.
      assert (H0 : index (E := kv_error) (head ++ v ++ tl') 0 = Done Byte.x01) by reflexivity.
      assert (H1 : slice (E := kv_error) (head ++ v ++ tl') 4 8 = Done (putU32 (len v))) by reflexivity.
      assert (H2 : slice (E := kv_error) (head ++ v ++ tl') 8 16 = Done (putU64 l)) by reflexivity.
      rewrite rest_length, (proj2 (Nat.ltb_ge _ _)) by (rewrite length_app; change (length head) with 16; lia).
      rewrite index_here, H0, bind_Done. read_u32 pre 4 8 H1 Hsv. read_u64 pre 8 16 H2 Hl.
      rewrite bool_decide_eq_true_2 by discriminate.
      destruct (skip_head pre head (v ++ tl') 16 eq_refl) as [-> ->].
      rewrite rest_length, one_fits, (proj2 (N.ltb_ge _ _)), !len_nat by exact Hv. cbn [orb].
      rewrite slice_here, bind_Done by reflexivity.
      rewrite <- (length_app (pre ++ _)), (app_assoc (pre ++ _)). unfold tl'.
      rewrite IH by exact Hrest. rewrite bind_Done. cbn [fst snd]. now rewrite <- !app_assoc.
    + destruct Hr as [-> ->]. change (result_entry (mkKVResult [] 0 false)) with (zeros 16).
      assert (H0 : index (E := kv_error) (zeros 16 ++ tl') 0 = Done Byte.x00) by reflexivity.
      assert (H1 : slice (E := kv_error) (zeros 16 ++ tl') 4 8 = Done (putU32 0)) by reflexivity.
      assert (H2 : slice (E := kv_error) (zeros 16 ++ tl') 8 16 = Done (putU64 0)) by reflexivity.
      rewrite rest_length, (proj2 (Nat.ltb_ge _ _)) by (rewrite length_app; change (length (zeros 16)) with 16; lia).
      rewrite index_here, H0, bind_Done. read_u32 pre 4 8 H1 (eq_refl : (0 < 2 ^ 32)%N).
      read_u64 pre 8 16 H2 (eq_refl : (0 < 2 ^ 64)%N).
      rewrite bool_decide_eq_false_2 by auto.
      destruct (skip_head pre (zeros 16) tl' 16 eq_refl) as [-> ->]. unfold tl'.
      rewrite IH by exact Hrest. rewrite bind_Done. cbn [fst snd]. now rewrite <- !app_assoc.
Qed.

(** The entry of a page of a scan. *)
Definition page_entry (e : KVEntry) : list byte :=
  putU32 (len (e_Key e)) ++ putU32 (len (e_Value e)) ++ putU64 (e_LSN e) ++ e_Key e ++ e_Value e.

Definition page_wf (e : KVEntry) : Prop :=
  (len (e_Key e) <= maxKeySize)%N /\ (len (e_Value e) <= maxValueSize)%N /\ (e_LSN e < 2 ^ 64)%N.

Lemma scan_entries_page (es : list KVEntry) (tl : list byte) : forall pre,
  List.Forall page_wf es ->
  scan_entries (pre ++ concat (map page_entry es) ++ tl) (length es) (length pre) =
  Done (es, length (pre ++ concat (map page_entry es))).
Proof.
  induction es as [|e es IH]; intros pre Hwf; cbn [map concat length scan_entries].
  - now rewrite app_nil_r.
  - inversion Hwf as [|? ? [Hk [Hv Hl]] Hrest]; subst. pose proof (small_key _ Hk) as Hsk.
    pose proof (small_value _ Hv) as Hsv. destruct e as [k v l]. cbn [e_Key e_Value e_LSN] in *.
    set (head := putU32 (len k) ++ putU32 (len v) ++ putU64 l).
    replace (page_entry (mkKVEntry k v l)) with (head ++ k ++ v)
      by (unfold head, page_entry; cbn [e_Key e_Value e_LSN]; now rewrite <- !app_assoc).
    rewrite <- !app_assoc. set (tl' := concat (map page_entry es) ++ tl).
    assert (H0 : slice (E := kv_error) (head ++ k ++ v ++ tl') 0 4 = Done (putU32 (len k))) by reflexivity.
    assert (H1 : slice (E := kv_error) (head ++ k ++ v ++ tl') 4 8 = Done (putU32 (len v))) by reflexivity.
    assert (H2 : slice (E := kv_error) (head ++ k ++ v ++ tl') 8 16 = Done (putU64 l)) by reflexivity.
    rewrite rest_length, (proj2 (Nat.ltb_ge _ _)) by (rewrite length_app; change (length head) with 16; lia).
    read_first pre 4 H0 Hsk.
    read_u32 pre 4 8 H1 Hsv. read_u64 pre 8 16 H2 Hl.
    destruct (skip_head pre head (k ++ v ++ tl') 16 eq_refl) as [-> ->].
    rewrite rest_length, pair_fits, !(proj2 (N.ltb_ge _ _)), !len_nat by assumption. cbn [orb].
    rewrite slice_here, bind_Done by reflexivity.
    rewrite (app_assoc (pre ++ head)), <- (length_app (pre ++ head)).
    rewrite slice_here, bind_Done by reflexivity.
    rewrite <- (length_app (_ ++ k)), (app_assoc (_ ++ k)). unfold tl'.
    rewrite IH by exact Hrest. rewrite bind_Done. cbn [fst snd]. now rewrite <- !app_assoc.
Qed.
