(* ===== verification/KVStore.v ===== *)
(** * The store behind the protocol

    The abstract store the client's operations are meant to act on: a finite map from keys to
    values with the commit number of their last write, and a clock.  [spec] gives the outcome
    of an operation and the store after it; [server_store] is the store a server holds. *)
From Stdlib Require Import NArith ZArith Lia Strings.String.
From Stdlib Require Strings.Byte.
From stdpp Require Import base option list list_numbers gmap strings.
From S2P Require Import Prelude Bytes Wire WireFacts KVClient TestKV.

Record Store : Set := mkStore { rows : gmap string (list byte * N); clock : N }.

Inductive op : Set :=
  | OGet (key : list byte)
  | OPut (key value : list byte)
  | ODel (key : list byte)
  | OExists (key : list byte)
  | OMultiGet (keys : list (list byte))
  | OBatchWrite (ops : list BatchOp) (metadata : list byte)
  | OCompareBatchWrite (checks : list CompareCheck) (ops : list BatchOp) (metadata : list byte).

Inductive answer : Set :=
  | AResult (r : KVResult)
  | AResults (l : list KVResult)
  | ALsn (lsn : N)
  | AFlag (b : bool)
  | ACas (lsn : N) (committed : bool).

(** ** Limits *)

Definition key_ok (key : list byte) : bool := (len key <=? maxKeySize)%N.
Definition value_ok (value : list byte) : bool := (len value <=? maxValueSize)%N.

Definition op_ok (op : BatchOp) : bool :=
  (bool_decide (Op op = batchPut) || bool_decide (Op op = batchDelete) && bool_decide (b_Value op = []))
  && key_ok (b_Key op) && value_ok (b_Value op).

Definition batch_ok (checks : list CompareCheck) (ops : list BatchOp) (metadata payload : list byte) : bool :=
  operation_count_ok ops && (N.of_nat (length checks) <=? maxOperations)%N
  && forallb (fun c => key_ok (c_Key c)) checks && forallb op_ok ops
  && (len payload <=? maxTransactionSize)%N.

(** The operations within the limits of the protocol. *)
Definition allowed (o : op) : bool :=
  match o with
  | OGet key | ODel key | OExists key => key_ok key
  | OPut key value => key_ok key && value_ok value
  | OMultiGet keys =>
      (N.of_nat (length keys) <=? maxOperations)%N && forallb key_ok keys
      && (len (multi_get_payload keys) <=? maxFrameSize)%N
  | OBatchWrite ops metadata => batch_ok [] ops metadata (batch_payload ops metadata)
  | OCompareBatchWrite checks ops metadata =>
      batch_ok checks ops metadata (compare_payload checks ops metadata)
  end.

(** ** What the operations do *)

Definition result_of (st : Store) (key : list byte) : KVResult :=
  match rows st !! string_of key with
  | Some (v, l) => mkKVResult v l true
  | None => mkKVResult [] 0 false
  end.

Definition spec_apply (lsn : N) (m : gmap string (list byte * N)) (op : BatchOp)
    : gmap string (list byte * N) :=
  if decide (Op op = batchPut) then <[string_of (b_Key op) := (b_Value op, lsn)]> m
  else delete (string_of (b_Key op)) m.

Definition spec_commit (st : Store) (ops : list BatchOp) : Store :=
  let lsn := (clock st + 1)%N in mkStore (fold_left (spec_apply lsn) ops (rows st)) lsn.

(** A check holds when the key is absent, for LSN zero, or was last written at the given LSN. *)
Definition spec_check (st : Store) (c : CompareCheck) : bool :=
  match rows st !! string_of (c_Key c) with
  | None => (c_LSN c =? 0)%N
  | Some (_, l) => (c_LSN c =? l)%N
  end.

Definition present (st : Store) (key : list byte) : bool := Found (result_of st key).

Definition spec (o : op) (st : Store) : KO answer * Store :=
  match o with
  | OGet key => (if present st key then Done (AResult (result_of st key)) else Fail_ ErrKeyNotFound, st)
  | OPut key value =>
      let st := spec_commit st [mkBatchOp batchPut key value] in (Done (ALsn (clock st)), st)
  | ODel key =>
      (Done (AFlag (present st key)), mkStore (delete (string_of key) (rows st)) (clock st))
  | OExists key => (Done (AFlag (present st key)), st)
  | OMultiGet keys => (Done (AResults (map (result_of st) keys)), st)
  | OBatchWrite ops _ => let st := spec_commit st ops in (Done (ALsn (clock st)), st)
  | OCompareBatchWrite checks ops _ =>
      if forallb (spec_check st) checks
      then let st := spec_commit st ops in (Done (ACas (clock st) true), st)
      else (Done (ACas 0 false), st)
  end.

(** ** The operations of the client *)

Section Run.
Context {Conn : Type} (send : Conn -> list byte -> (Conn * list byte) + kv_error).

Definition answers {A} (f : A -> answer) (m : K (Conn := Conn) A) : K (Conn := Conn) answer :=
  a ← m; mret (f a).

Definition run (o : op) : K (Conn := Conn) answer :=
  match o with
  | OGet key => answers AResult (Get send key)
  | OPut key value => answers ALsn (Put send key value)
  | ODel key => answers AFlag (Del send key)
  | OExists key => answers AFlag (Exists_ send key)
  | OMultiGet keys => answers AResults (MultiGet send keys)
  | OBatchWrite ops metadata => answers ALsn (BatchWrite send ops metadata)
  | OCompareBatchWrite checks ops metadata =>
      answers (fun r => ACas r.1 r.2) (CompareBatchWrite send checks ops metadata)
  end.
End Run.

(** ** The store of a server *)

Import Server.

Definition server_store (s : Server) : Store := mkStore (map_zip (data s) (lsns s)) (nextLSN s).

Record server_ok (s : Server) : Prop := {
  ok_dom : forall k, is_Some (data s !! k) <-> is_Some (lsns s !! k);
  ok_lsn : forall k l, lsns s !! k = Some l -> (0 < l <= nextLSN s)%N;
  ok_size : forall k v, data s !! k = Some v ->
    (len (bytes k) <= maxKeySize)%N /\ (len v <= maxValueSize)%N;
  ok_clock : (nextLSN s < 2 ^ 64)%N;
  ok_reply : dropCompareReply s = false
}.

(** A key is in both maps or in neither. *)
Lemma server_row (s : Server) (k : string) : server_ok s ->
  (data s !! k = None /\ lsns s !! k = None /\ rows (server_store s) !! k = None) \/
  exists v l, data s !! k = Some v /\ lsns s !! k = Some l /\
    rows (server_store s) !! k = Some (v, l) /\
    (len v <= maxValueSize)%N /\ (0 < l < 2 ^ 64)%N /\ lsn_of s k = l.
Proof.
  intros [Hd Hl Hs Hc _]. specialize (Hd k). unfold server_store, lsn_of. cbn [rows].
  rewrite map_lookup_zip_with.
  destruct (data s !! k) as [v|] eqn:Ev, (lsns s !! k) as [l|] eqn:El; cbn.
  - right. exists v, l. specialize (Hl _ _ El). destruct (Hs _ _ Ev). repeat split; auto; lia.
  - destruct (proj1 Hd) as [? [=]]. eauto.
  - destruct (proj2 Hd) as [? [=]]. eauto.
  - now left.
Qed.

Lemma server_new : server_ok New.
Proof.
  split; cbn; try reflexivity; intros k; rewrite ?lookup_empty; try easy.
  split; intros [? [=]].
Qed.

(** *** Writes *)

Lemma zip_apply (lsn : N) (d : gmap string (list byte)) (l : gmap string N) (op : BatchOp) :
  map_zip (apply_op lsn (d, l) op).1 (apply_op lsn (d, l) op).2 = spec_apply lsn (map_zip d l) op.
Proof.
  unfold apply_op, spec_apply. case_decide; cbn [fst snd]; symmetry.
  - apply map_insert_zip_with.
  - apply map_delete_zip_with.
Qed.

Lemma zip_apply_all (lsn : N) (ops : list BatchOp) : forall d l,
  map_zip (applyOps d l ops lsn).1 (applyOps d l ops lsn).2 = fold_left (spec_apply lsn) ops (map_zip d l).
Proof.
  unfold applyOps. induction ops as [|op ops IH]; intros d l; cbn [fold_left]; [reflexivity|].
  rewrite <- zip_apply. destruct (apply_op lsn (d, l) op) as [d' l']. apply IH.
Qed.

Lemma incr_small (n : N) : (n < 2 ^ 64 - 1)%N -> incr n = (n + 1)%N.
Proof. intros H. unfold incr. apply N.mod_small. lia. Qed.

Lemma commit_store (s : Server) (ops : list BatchOp) :
  (nextLSN s < 2 ^ 64 - 1)%N -> server_store (commit s ops) = spec_commit (server_store s) ops.
Proof.
  intros H. unfold server_store, commit, spec_commit. cbn. rewrite incr_small by exact H.
  f_equal. apply zip_apply_all.
Qed.

(** The maps a batch has been applied to. *)
Record maps_ok (d : gmap string (list byte)) (l : gmap string N) (top : N) : Prop := {
  m_dom : forall k, is_Some (d !! k) <-> is_Some (l !! k);
  m_lsn : forall k n, l !! k = Some n -> (0 < n <= top)%N;
  m_size : forall k v, d !! k = Some v -> (len (bytes k) <= maxKeySize)%N /\ (len v <= maxValueSize)%N
}.

Lemma maps_apply (top : N) (op : BatchOp) (d : gmap string (list byte)) (l : gmap string N) :
  (0 < top)%N -> op_ok op = true -> maps_ok d l top ->
  maps_ok (apply_op top (d, l) op).1 (apply_op top (d, l) op).2 top.
Proof.
  unfold op_ok, key_ok, value_ok. rewrite !andb_true_iff, !N.leb_le. intros Htop [[_ Hk] Hv] [H1 H2 H3].
  unfold apply_op. case_decide; cbn [fst snd]; split; intros k;
    (destruct (decide (k = string_of (b_Key op))) as [->|Hne];
     rewrite ?lookup_insert_eq, ?lookup_delete_eq, ?lookup_insert_ne, ?lookup_delete_ne by congruence);
    auto; try (split; intros [? [=]]); try discriminate; try (eauto; fail).
  - intros n [= <-]. lia.
  - intros v [= <-]. now rewrite bytes_of_string.
Qed.

Lemma maps_apply_all (top : N) (ops : list BatchOp) : forall d l,
  (0 < top)%N -> forallb op_ok ops = true -> maps_ok d l top ->
  maps_ok (applyOps d l ops top).1 (applyOps d l ops top).2 top.
Proof.
  unfold applyOps. induction ops as [|op ops IH]; intros d l Htop Hops H; cbn [fold_left]; [exact H|].
  cbn [forallb] in Hops. apply andb_true_iff in Hops as [Hop Hops].
  pose proof (maps_apply top op d l Htop Hop H) as H'. destruct (apply_op top (d, l) op). now apply IH.
Qed.

Lemma commit_ok (s : Server) (ops : list BatchOp) :
  (nextLSN s < 2 ^ 64 - 1)%N -> forallb op_ok ops = true -> server_ok s -> server_ok (commit s ops).
Proof.
  intros Hc Hops [H1 H2 H3 H4 H5]. pose proof (incr_small _ Hc) as Hi.
  destruct (maps_apply_all (incr (nextLSN s)) ops (data s) (lsns s)) as [M1 M2 M3]; [lia|exact Hops| |].
  - split; [exact H1| |exact H3]. intros k n Hn. specialize (H2 _ _ Hn). lia.
  - split; cbn; auto. rewrite Hi. lia.
Qed.
