(* ===== verification/KVRefine.v ===== *)
(** * The client against the server

    Every operation of the storage client, run against the in-memory server, acts on the server's
    store as the abstract operation does, and refuses what the limits of the protocol exclude. *)
From Stdlib Require Import NArith ZArith Lia Strings.String.
From Stdlib Require Strings.Byte.
From stdpp Require Import base option list list_numbers gmap strings.
From S2P Require Import Prelude Bytes Wire WireFacts KVClient TestKV KVStore.

Abbreviation connection := Server.connection.
Abbreviation client := (KVClient (Conn := Server.connection)).
Abbreviation KC := (K (Conn := Server.connection)).

(** Closed facts about the constants. *)
Ltac constants := vm_compute; first [discriminate|intros [=]|reflexivity].

(** ** Running a sequence *)

Lemma K_run {A B} (m : KC A) (k : A -> KC B) (c c' : client) (a : A) (r : KO B * client) :
  m c = (Done a, c') -> k a c' = r -> (m ≫= k) c = r.
Proof. intros H <-. unfold mbind, K_bind. now rewrite H. Qed.

Lemma K_stop {A B} (m : KC A) (k : A -> KC B) (c c' : client) (e : kv_error) :
  m c = (Fail_ e, c') -> (m ≫= k) c = (Fail_ e, c').
Proof. intros H. unfold mbind, K_bind. now rewrite H. Qed.

(** ** One request *)

Lemma server_readFrame (opcode flags id : N) (payload : list byte) :
  (opcode < 2 ^ 16)%N -> (flags < 2 ^ 16)%N -> (id < 2 ^ 64)%N -> (len payload < 2 ^ 32)%N ->
  Server.readFrame (encodeFrame opcode flags id payload) =
  Done (Some (mkFrame opcode flags id payload, length (encodeFrame opcode flags id payload))).
Proof.
  intros Ho Hf Hi Hl. unfold encodeFrame. generalize (crc32c payload). intros pcrc.
  generalize (crc32c (header_bytes opcode flags id (len payload) pcrc 0)). intros hcrc.
  set (h := header_bytes opcode flags id (len payload) pcrc hcrc).
  assert (Hh : length h = headerSize) by apply header_length.
  unfold Server.readFrame. rewrite length_app, Hh. rewrite (proj2 (Nat.ltb_ge _ _)) by lia.
  assert (F : forall lo hi b, slice (E := kv_error) h lo hi = Done b -> slice (E := kv_error) (h ++ payload) lo hi = Done b).
  { intros lo hi b. unfold slice. rewrite length_app.
    destruct (Nat.leb_spec lo hi), (Nat.leb_spec hi (length h)); try discriminate. cbn [andb].
    rewrite (proj2 (Nat.leb_le _ _)) by lia. intros [= <-].
    now rewrite drop_app_le, take_app_le by (rewrite ?length_drop; lia). }
  rewrite (F 20 24 _ (header_len _ _ _ _ _ _)), bind_Done, getU32_round, bind_Done by exact Hl.
  replace (headerSize + length payload - headerSize) with (length payload) by lia.
  rewrite (proj2 (N.ltb_ge _ _)) by (unfold len; lia).
  replace (slice (h ++ payload) headerSize (headerSize + N.to_nat (len payload))) with (Done (E := kv_error) payload).
  2:{ symmetry. rewrite <- (app_nil_r payload) at 1. apply data_slice_app; [easy|]. rewrite len_nat, Hh. reflexivity. }
  rewrite bind_Done, (F 8 10 _ (header_opcode _ _ _ _ _ _)), bind_Done, getU16_round, bind_Done by exact Ho.
  rewrite (F 10 12 _ (header_flags _ _ _ _ _ _)), bind_Done, getU16_round, bind_Done by exact Hf.
  rewrite (F 12 20 _ (header_id _ _ _ _ _ _)), bind_Done, getU64_round, bind_Done by exact Hi.
  now rewrite len_nat.
Qed.

(** A client with nothing in flight, connected to the server [s]. *)
Definition idle (c : client) (s : Server.Server) : Prop :=
  exists id, (id < 2 ^ 64)%N /\ c = mkKVClient id [] (Server.mkConnection s [] false).

Lemma encodeFrame_length (opcode flags id : N) (payload : list byte) :
  length (encodeFrame opcode flags id payload) = headerSize + length payload.
Proof. unfold encodeFrame. rewrite length_app. reflexivity. Qed.

Lemma handle_one (s s' : Server.Server) (opcode id : N) (payload body : list byte) (k : nat) :
  (opcode < 2 ^ 16)%N -> (id < 2 ^ 64)%N -> (len payload < 2 ^ 32)%N ->
  Server.execute s opcode payload = (Done body, s') -> Server.dropCompareReply s' = false ->
  Server.handle (S (S k)) s (encodeFrame opcode 0 id payload) =
  (Server.mkConnection s' [] false, encodeResponse opcode id body).
Proof.
  intros Ho Hi Hl Hex Hdrop. cbn [Server.handle]. rewrite server_readFrame by (assumption || reflexivity).
  cbn [f_opcode f_payload f_id]. rewrite Hex, Hdrop, andb_false_r, drop_all.
  change (Server.readFrame []) with (Done (E := kv_error) (@None (frame * nat))).
  cbn match. change (Server.encodeResponse opcode id body) with (encodeResponse opcode id body).
  now rewrite app_nil_r.
Qed.

Lemma request_answered (c : client) (s s' : Server.Server) (opcode status : N) (payload rest : list byte) :
  idle c s -> (opcode < 2 ^ 16)%N -> (response_opcode opcode < 2 ^ 16)%N -> (len payload < 2 ^ 32)%N ->
  Server.execute s opcode payload = (Done (Server.statusBody status rest), s') ->
  Server.dropCompareReply s' = false -> (status < 2 ^ 16)%N ->
  status <> statusError -> (2 + len rest <= maxFrameSize)%N ->
  exists c', request Server.send opcode payload c = (Done (status, rest), c') /\ idle c' s'.
Proof.
  intros (id & Hid & ->) Ho Hr Hl Hex Hdrop Hst Hne Hsize.
  exists (mkKVClient ((id + 1) mod 2 ^ 64) [] (Server.mkConnection s' [] false)).
  split; [|eexists; split; [|reflexivity]; apply N.mod_lt; discriminate].
  unfold request. eapply K_run; [reflexivity|].
  eapply K_run.
  { unfold writeFrame, write, Server.send. cbn [conn nextID incoming Server.closed Server.unread Server.server app].
    rewrite encodeFrame_length. change (headerSize + length payload) with (S (31 + length payload)).
    rewrite (handle_one s s' opcode id payload _ (31 + length payload) Ho Hid Hl Hex Hdrop). reflexivity. }
  eapply K_run.
  { unfold receive. cbn [incoming nextID conn]. unfold encodeResponse.
    rewrite <- (app_nil_r (encodeFrame _ _ _ _)), readFrame_encode; [reflexivity|assumption|reflexivity|assumption|].
    unfold Server.statusBody. rewrite len_app. exact Hsize. }
  cbn [f_opcode f_flags f_id f_payload]. rewrite !decide_False by auto.
  assert (Hs1 : slice (E := kv_error) (Server.statusBody status rest) 0 2 = Done (u16_bytes status)) by reflexivity.
  assert (Hs2 : slice_from (E := kv_error) (Server.statusBody status rest) 2 = Done rest)
    by (unfold Server.statusBody; now apply slice_from_app).
  rewrite (proj2 (Nat.ltb_ge _ _)) by (unfold Server.statusBody; rewrite length_app; cbn; lia).
  rewrite Hs1, Hs2, bind_Done, getU16_round by exact Hst.
  eapply K_run; [reflexivity|]. eapply K_run; [reflexivity|]. now rewrite decide_False by exact Hne.
Qed.

(** ** The local checks *)

Lemma validateKey_ok (key : list byte) : key_ok key = true -> validateKey key = Done ().
Proof. unfold key_ok, validateKey. rewrite N.leb_le. intros H. now rewrite (proj2 (N.ltb_ge _ _)). Qed.

Lemma validateKey_no (key : list byte) : key_ok key = false -> exists e, validateKey key = Fail_ e.
Proof. unfold key_ok, validateKey. rewrite N.leb_gt. intros H. rewrite (proj2 (N.ltb_lt _ _)) by exact H. eauto. Qed.

Lemma validateValue_ok (v : list byte) : value_ok v = true -> validateValue v = Done ().
Proof. unfold value_ok, validateValue. rewrite N.leb_le. intros H. now rewrite (proj2 (N.ltb_ge _ _)). Qed.

Lemma validateValue_no (v : list byte) : value_ok v = false -> exists e, validateValue v = Fail_ e.
Proof. unfold value_ok, validateValue. rewrite N.leb_gt. intros H. rewrite (proj2 (N.ltb_lt _ _)) by exact H. eauto. Qed.

(** A check of a list passes with the size it announces, or refuses. *)
Definition checked (m : KO N) (ok : bool) (empty : bool) (size limit : N) : Prop :=
  if ok && (empty || (size <=? limit)%N) then m = Done size else exists e, m = Fail_ e.

Lemma batch_entry_len (o : BatchOp) : len (batch_entry o) = (12 + len (b_Key o) + len (b_Value o))%N.
Proof. rewrite batch_entry_head, !len_app. change (len (op_head o)) with 12%N. lia. Qed.

Lemma check_entry_len (c : CompareCheck) : len (check_entry c) = (16 + len (c_Key c))%N.
Proof. rewrite check_entry_head, len_app. reflexivity. Qed.

Definition is_nil {A} (l : list A) : bool := match l with [] => true | _ => false end.

Lemma nil_within {A} (l : list A) (size limit : N) :
  (l = [] -> (size <= limit)%N) -> is_nil l || (size <=? limit)%N = (size <=? limit)%N.
Proof. destruct l; cbn; [|reflexivity]. intros H. symmetry. now apply N.leb_le, H. Qed.

Lemma op_guard (o : BatchOp) :
  op_ok o = true ->
  ~ (Op o <> batchPut /\ Op o <> batchDelete) /\ ~ (Op o = batchDelete /\ b_Value o <> []) /\
  key_ok (b_Key o) = true /\ value_ok (b_Value o) = true.
Proof.
  unfold op_ok. rewrite !andb_true_iff, orb_true_iff, andb_true_iff, !bool_decide_eq_true.
  intros [[[Ho|[Ho He]] Hk] Hv]; rewrite Ho; repeat split; auto; intros [H1 H2]; auto; discriminate.
Qed.

Lemma check_ops_checked (ops : list BatchOp) : forall n,
  checked (check_ops n ops) (forallb op_ok ops) (is_nil ops) (n + len (concat (map batch_entry ops)))
    maxTransactionSize.
Proof.
  unfold checked. induction ops as [|o ops IH]; intros n; cbn [forallb check_ops map concat is_nil].
  - cbn. f_equal. change (len []) with 0%N. lia.
  - cbn [orb]. rewrite len_app, batch_entry_len. destruct (op_ok o) eqn:Hok; cbn [andb].
    + destruct (op_guard o Hok) as (G1 & G2 & G3 & G4). rewrite decide_False by exact G1.
      rewrite validateKey_ok, validateValue_ok, !bind_Done by assumption.
      rewrite decide_False by exact G2.
      specialize (IH (n + (12 + len (b_Key o) + len (b_Value o)))%N).
      destruct (N.ltb_spec maxTransactionSize (n + (12 + len (b_Key o) + len (b_Value o)))) as [Hlt|Hle].
      * rewrite (proj2 (N.leb_gt _ _)) by lia. rewrite andb_false_r. eauto.
      * rewrite nil_within in IH by (intros ->; change (len (concat (map batch_entry []))) with 0%N; lia).
        now rewrite N.add_assoc.
    + case_decide as D1; [eauto|]. destruct (key_ok (b_Key o)) eqn:Hk.
      2:{ destruct (validateKey_no _ Hk) as [e ->]. eauto. }
      destruct (value_ok (b_Value o)) eqn:Hv.
      2:{ rewrite validateKey_ok, bind_Done by exact Hk. destruct (validateValue_no _ Hv) as [e ->]. eauto. }
      rewrite validateKey_ok, validateValue_ok, !bind_Done by assumption.
      case_decide as D2; [eauto|]. exfalso. unfold op_ok in Hok. rewrite Hk, Hv, !andb_true_r in Hok.
      apply orb_false_iff in Hok as [O1 O2]. apply bool_decide_eq_false in O1. apply andb_false_iff in O2.
      rewrite !bool_decide_eq_false in O2. destruct O2; tauto.
Qed.

Lemma check_checks_checked (cs : list CompareCheck) : forall n,
  checked (check_checks n cs) (forallb (fun c => key_ok (c_Key c)) cs) (is_nil cs)
    (n + len (concat (map check_entry cs))) maxFrameSize.
Proof.
  unfold checked. induction cs as [|c cs IH]; intros n; cbn [forallb check_checks map concat is_nil].
  - cbn. f_equal. change (len []) with 0%N. lia.
  - cbn [orb]. rewrite len_app, check_entry_len. destruct (key_ok (c_Key c)) eqn:Hk; cbn [andb].
    2:{ destruct (validateKey_no _ Hk) as [e ->]. eauto. }
    rewrite validateKey_ok, bind_Done by exact Hk. specialize (IH (n + (16 + len (c_Key c)))%N).
    destruct (N.ltb_spec maxFrameSize (n + (16 + len (c_Key c)))) as [Hlt|Hle].
    + rewrite (proj2 (N.leb_gt _ _)) by lia. rewrite andb_false_r. eauto.
    + rewrite nil_within in IH by (intros ->; change (len (concat (map check_entry []))) with 0%N; lia).
      now rewrite N.add_assoc.
Qed.

Lemma check_keys_checked (ks : list (list byte)) : forall n,
  checked (check_keys n ks) (forallb key_ok ks) (is_nil ks)
    (n + len (concat (map oneKeyPayload ks))) maxFrameSize.
Proof.
  unfold checked. induction ks as [|k ks IH]; intros n; cbn [forallb check_keys map concat is_nil].
  - cbn. f_equal. change (len []) with 0%N. lia.
  - cbn [orb]. rewrite len_app. change (len (oneKeyPayload k)) with (len (putU32 (len k) ++ k)).
    rewrite len_app. change (len (putU32 (len k))) with 4%N.
    destruct (key_ok k) eqn:Hk; cbn [andb].
    2:{ destruct (validateKey_no _ Hk) as [e ->]. eauto. }
    rewrite validateKey_ok, bind_Done by exact Hk. specialize (IH (n + (4 + len k))%N).
    destruct (N.ltb_spec maxFrameSize (n + (4 + len k))) as [Hlt|Hle].
    + rewrite (proj2 (N.leb_gt _ _)) by lia. rewrite andb_false_r. eauto.
    + rewrite nil_within in IH by (intros ->; change (len (concat (map oneKeyPayload []))) with 0%N; lia).
      now rewrite N.add_assoc.
Qed.

(** ** The operations *)

(** The response to a multi-get is the only one whose size depends on the number of keys asked. *)
Definition response_fits (o : op) (st : Store) : bool :=
  match o with
  | OMultiGet ks => (6 + len (concat (map result_entry (map (result_of st) ks))) <=? maxFrameSize)%N
  | _ => true
  end.

Definition refines (o : op) : Prop := forall c s,
  idle c s -> server_ok s -> (Server.nextLSN s < 2 ^ 64 - 1)%N -> allowed o = true ->
  response_fits o (server_store s) = true ->
  exists r c' s', run Server.send o c = (r, c') /\ idle c' s' /\ server_ok s' /\
    (r, server_store s') = spec o (server_store s).

Lemma answered {A} (f : A -> answer) (opcode status : N) (payload rest : list byte)
    (decode : N -> list byte -> KO A) (a : A) (c c' : client) :
  request Server.send opcode payload c = (Done (status, rest), c') -> decode status rest = Done a ->
  answers f (r ← request Server.send opcode payload; lift (decode r.1 r.2)) c = (Done (f a), c').
Proof.
  intros H Hd. unfold answers. eapply K_run; [|reflexivity]. eapply K_run; [exact H|].
  unfold lift. cbn [fst snd]. now rewrite Hd.
Qed.

Lemma guarded {A B} (m : KO A) (a : A) (k : A -> KC B) (f : B -> answer) (c : client) :
  m = Done a -> answers f (x ← lift m; k x) c = answers f (k a) c.
Proof. intros ->. reflexivity. Qed.

Lemma counted_ok (s : Server.Server) (opcode : N) : server_ok s -> server_ok (Server.count_request s opcode).
Proof. intros [H1 H2 H3 H4 H5]. now split. Qed.

Lemma parseOneKey_payload (key : list byte) :
  key_ok key = true -> Server.parseOneKey (oneKeyPayload key) = Done (Some key).
Proof.
  unfold key_ok. rewrite N.leb_le. intros Hk. apply small_key in Hk. unfold Server.parseOneKey.
  rewrite (proj2 (Nat.ltb_ge _ _)) by (unfold oneKeyPayload; rewrite length_app; cbn; lia).
  assert (H : slice (E := kv_error) (oneKeyPayload key) 0 4 = Done (putU32 (len key))) by reflexivity.
  rewrite H, bind_Done, getU32_round, bind_Done by exact Hk.
  unfold oneKeyPayload. rewrite len_app. change (len (putU32 (len key))) with 4%N. rewrite N.eqb_refl.
  cbn [negb]. now rewrite slice_from_app by reflexivity.
Qed.

Lemma key_payload_small (key : list byte) : key_ok key = true -> (len (oneKeyPayload key) < 2 ^ 32)%N.
Proof.
  unfold key_ok. rewrite N.leb_le. intros H. unfold oneKeyPayload. rewrite len_app.
  change (len (putU32 (len key))) with 4%N. apply (N.le_lt_trans _ (4 + maxKeySize)); [lia|reflexivity].
Qed.

Lemma get_response_found (v : list byte) (l : N) :
  (len v <= maxValueSize)%N -> (l < 2 ^ 64)%N ->
  get_response statusOK (putU64 l ++ putU32 (len v) ++ v) = Done (mkKVResult v l true).
Proof.
  intros Hv Hl. pose proof (small_value v Hv) as Hs. unfold get_response. rewrite decide_False by constants.
  rewrite decide_False by (rewrite !length_app; intros [H|H]; [auto|cbn in H; lia]).
  set (body := putU64 l ++ putU32 (len v) ++ v).
  assert (H1 : slice (E := kv_error) body 0 8 = Done (putU64 l)) by reflexivity.
  assert (H2 : slice (E := kv_error) body 8 12 = Done (putU32 (len v))) by reflexivity.
  rewrite H1, bind_Done, getU64_round, bind_Done by exact Hl.
  rewrite H2, bind_Done, getU32_round, bind_Done by exact Hs.
  rewrite (proj2 (N.ltb_ge _ _)) by exact Hv. unfold body at 1. rewrite !len_app.
  change (len (putU64 l)) with 8%N. change (len (putU32 (len v))) with 4%N.
  rewrite (proj2 (N.eqb_eq _ _)) by lia. cbn [orb negb]. unfold body. rewrite app_assoc.
  now rewrite slice_from_app by reflexivity.
Qed.

Lemma lsn_response_ok (what : string) (l : N) :
  (l < 2 ^ 64)%N -> lsn_response what statusOK (putU64 l) = Done l.
Proof.
  intros Hl. unfold lsn_response. rewrite decide_False by (intros [H|H]; now apply H).
  assert (H : slice (E := kv_error) (putU64 l) 0 8 = Done (putU64 l)) by reflexivity.
  now rewrite H, bind_Done, getU64_round.
Qed.

Lemma flag_response_ok (what : string) (b : bool) :
  flag_response what statusOK [Server.flag b] = Done b.
Proof. now destruct b. Qed.

Lemma refines_get (key : list byte) : refines (OGet key).
Proof.
  intros c s Hi Hok _ Ha _. cbn [allowed] in Ha. pose proof (counted_ok s opGet Hok) as Hok1.
  assert (Hex : Server.execute s opGet (oneKeyPayload key) =
                (Done (Server.get_body s (string_of key)), Server.count_request s opGet)).
  { change (Server.execute s opGet (oneKeyPayload key)) with
      (Server.or_invalid (Server.parseOneKey (oneKeyPayload key)) (Server.count_request s opGet)
         (fun key => (Server.get_body s (string_of key), Server.count_request s opGet))).
    now rewrite parseOneKey_payload. }
  pose proof (key_payload_small _ Ha) as Hsmall.
  cbn [run spec]. unfold present, result_of, Server.get_body in *.
  destruct (server_row s (string_of key) Hok) as [(Hd & Hl & Hr)|(v & l & Hd & Hl & Hr & Hv & Hn & Hlsn)];
    rewrite Hd in Hex; rewrite Hr; cbn [Found].
  - destruct (request_answered c s _ opGet _ _ _ Hi eq_refl eq_refl Hsmall Hex (ok_reply _ Hok1) eq_refl)
      as (c' & Hreq & Hi'); [constants|constants|].
    exists (Fail_ ErrKeyNotFound), c', (Server.count_request s opGet). 
    split; [|split; [exact Hi'|split; [exact Hok1|reflexivity]]].
    unfold Get. rewrite (guarded _ () _ _ _ (validateKey_ok _ Ha)).
    unfold answers. eapply K_stop. eapply K_run; [exact Hreq|]. reflexivity.
  - rewrite Hlsn in Hex.
    destruct (request_answered c s _ opGet _ _ _ Hi eq_refl eq_refl Hsmall Hex (ok_reply _ Hok1) eq_refl)
      as (c' & Hreq & Hi'); [constants| |].
    { rewrite !len_app. change (len (putU64 l)) with 8%N. change (len (putU32 (len v))) with 4%N.
      unfold maxFrameSize. lia. }
    exists (Done (AResult (mkKVResult v l true))), c', (Server.count_request s opGet).
    split; [|split; [exact Hi'|split; [exact Hok1|reflexivity]]].
    unfold Get. rewrite (guarded _ () _ _ _ (validateKey_ok _ Ha)).
    eapply answered; [exact Hreq|]. apply get_response_found; [exact Hv|lia].
Qed.

(** An operation that makes one request, which the server answers. *)
Lemma one_request (o : op) (c : client) (s s' : Server.Server) (opcode : N) (payload rest : list byte) (a : answer) :
  idle c s -> server_ok s' -> (opcode < 2 ^ 16)%N -> (response_opcode opcode < 2 ^ 16)%N ->
  (len payload < 2 ^ 32)%N -> (2 + len rest <= maxFrameSize)%N ->
  Server.execute s opcode payload = (Done (Server.statusOKBody rest), s') ->
  (forall c', request Server.send opcode payload c = (Done (statusOK, rest), c') ->
     run Server.send o c = (Done a, c')) ->
  (Done a, server_store s') = spec o (server_store s) ->
  exists r c' s', run Server.send o c = (r, c') /\ idle c' s' /\ server_ok s' /\
    (r, server_store s') = spec o (server_store s).
Proof.
  intros Hi Hok Ho Hr Hp Hb Hex Hrun Hspec.
  destruct (request_answered c s s' opcode statusOK payload rest) as (c' & Hreq & Hi');
    [exact Hi|exact Ho|exact Hr|exact Hp|exact Hex|apply (ok_reply _ Hok)|constants|constants|exact Hb|].
  exists (Done a), c', s'. auto.
Qed.

Lemma small_payload (p : list byte) (n : N) : (len p <= n)%N -> (n < 2 ^ 32)%N -> (len p < 2 ^ 32)%N.
Proof. lia. Qed.

Lemma flag_fits (b : bool) : (2 + len [Server.flag b] <= maxFrameSize)%N.
Proof. change (len [Server.flag b]) with 1%N. constants. Qed.

Lemma lsn_fits (l : N) : (2 + len (putU64 l) <= maxFrameSize)%N.
Proof. change (len (putU64 l)) with 8%N. constants. Qed.

Lemma parsePut_payload (key value : list byte) :
  key_ok key = true -> value_ok value = true ->
  Server.parsePut (put_payload key value) = Done (Some (key, value)).
Proof.
  unfold key_ok, value_ok. rewrite !N.leb_le. intros Hk Hv.
  pose proof (small_key _ Hk) as Hsk. pose proof (small_value _ Hv) as Hsv. unfold Server.parsePut.
  rewrite (proj2 (Nat.ltb_ge _ _)) by (unfold put_payload; rewrite !length_app; cbn; lia).
  assert (H1 : slice (E := kv_error) (put_payload key value) 0 4 = Done (putU32 (len key))) by reflexivity.
  assert (H2 : slice (E := kv_error) (put_payload key value) 4 8 = Done (putU32 (len value))) by reflexivity.
  rewrite H1, bind_Done, getU32_round, bind_Done by exact Hsk.
  rewrite H2, bind_Done, getU32_round, bind_Done by exact Hsv.
  assert (Hlen : len (put_payload key value) = (8 + len key + len value)%N).
  { unfold put_payload. rewrite !len_app. change (len (putU32 (len key))) with 4%N.
    change (len (putU32 (len value))) with 4%N. lia. }
  rewrite Hlen, N.eqb_refl. cbn [negb].
  assert (Hend : N.to_nat ((8 + len key) mod 2 ^ 32) = 8 + length key).
  { rewrite N.mod_small; [unfold len; lia|]. apply (N.le_lt_trans _ (8 + maxKeySize)); [lia|reflexivity]. }
  rewrite Hend. unfold put_payload. rewrite (app_assoc (putU32 (len key))).
  rewrite data_slice_app by reflexivity. rewrite bind_Done, app_assoc.
  now rewrite slice_from_app by (rewrite length_app; reflexivity).
Qed.

Lemma refines_put (key value : list byte) : refines (OPut key value).
Proof.
  intros c s Hi Hok Hc Ha _. cbn [allowed] in Ha. apply andb_true_iff in Ha as [Hk Hv].
  set (s1 := Server.count_request s opPut). set (ops := [mkBatchOp batchPut key value]).
  assert (Hops : forallb op_ok ops = true)
    by (unfold ops, op_ok; cbn [forallb Op b_Key b_Value]; now rewrite Hk, Hv).
  pose proof (commit_ok s1 ops Hc Hops (counted_ok s opPut Hok)) as Hok'.
  apply (one_request _ c s (Server.commit s1 ops) opPut (put_payload key value)
           (putU64 (Server.nextLSN (Server.commit s1 ops))) (ALsn (Server.nextLSN (Server.commit s1 ops))));
    [exact Hi|exact Hok'|constants|constants| | | | |].
  - unfold key_ok, value_ok in *. rewrite N.leb_le in *. unfold put_payload. rewrite !len_app.
    change (len (putU32 (len key))) with 4%N. change (len (putU32 (len value))) with 4%N.
    apply (N.le_lt_trans _ (8 + maxKeySize + maxValueSize)); [lia|reflexivity].
  - apply lsn_fits.
  - change (Server.execute s opPut (put_payload key value)) with
      (Server.or_invalid (Server.parsePut (put_payload key value)) s1 (fun kv =>
         let s' := Server.commit s1 [mkBatchOp batchPut kv.1 kv.2] in
         (Server.statusOKBody (putU64 (Server.nextLSN s')), s'))).
    now rewrite parsePut_payload.
  - intros c' Hreq. cbn [run]. unfold Put. rewrite (guarded _ () _ _ _ (validateKey_ok _ Hk)).
    rewrite (guarded _ () _ _ _ (validateValue_ok _ Hv)).
    eapply answered; [exact Hreq|]. apply lsn_response_ok, (ok_clock _ Hok').
  - cbn [spec]. rewrite commit_store by exact Hc. f_equal. f_equal. f_equal.
    cbn. apply incr_small, Hc.
Qed.

(** The server's test for a key is the store's. *)
Lemma server_present (s : Server.Server) (key : list byte) : server_ok s ->
  bool_decide (is_Some (Server.data s !! string_of key)) = present (server_store s) key.
Proof.
  intros Hok. unfold present, result_of.
  destruct (server_row s (string_of key) Hok) as [(-> & _ & ->)|(v & l & -> & _ & -> & _)]; reflexivity.
Qed.

Lemma refines_exists (key : list byte) : refines (OExists key).
Proof.
  intros c s Hi Hok _ Ha _. cbn [allowed] in Ha. set (s1 := Server.count_request s opExists).
  apply (one_request _ c s s1 opExists (oneKeyPayload key)
           [Server.flag (present (server_store s) key)] (AFlag (present (server_store s) key)));
    [exact Hi|now apply counted_ok|constants|constants|now apply key_payload_small|apply flag_fits| | |].
  - change (Server.execute s opExists (oneKeyPayload key)) with
      (Server.or_invalid (Server.parseOneKey (oneKeyPayload key)) s1 (fun key =>
         (Server.statusOKBody [Server.flag (bool_decide (is_Some (Server.data s1 !! string_of key)))], s1))).
    rewrite parseOneKey_payload by exact Ha. cbn [Server.or_invalid fst snd].
    now rewrite <- (server_present s key Hok).
  - intros c' Hreq. cbn [run]. unfold Exists_. rewrite (guarded _ () _ _ _ (validateKey_ok _ Ha)).
    eapply answered; [exact Hreq|]. apply flag_response_ok.
  - reflexivity.
Qed.

Lemma refines_del (key : list byte) : refines (ODel key).
Proof.
  intros c s Hi Hok _ Ha _. cbn [allowed] in Ha. set (s1 := Server.count_request s opDelete).
  set (s2 := Server.with_store s1 (delete (string_of key) (Server.data s))
               (delete (string_of key) (Server.lsns s)) (Server.nextLSN s)).
  apply (one_request _ c s s2 opDelete (oneKeyPayload key)
           [Server.flag (present (server_store s) key)] (AFlag (present (server_store s) key)));
    [exact Hi| |constants|constants|now apply key_payload_small|apply flag_fits| | |].
  - destruct Hok as [H1 H2 H3 H4 H5]. split; cbn; auto; intros k.
    + rewrite !lookup_delete_is_Some, H1. reflexivity.
    + intros l Hl. apply lookup_delete_Some in Hl as [_ Hl]. eauto.
    + intros v Hv. apply lookup_delete_Some in Hv as [_ Hv]. eauto.
  - change (Server.execute s opDelete (oneKeyPayload key)) with
      (Server.or_invalid (Server.parseOneKey (oneKeyPayload key)) s1 (fun key =>
         (Server.statusOKBody [Server.flag (bool_decide (is_Some (Server.data s1 !! string_of key)))],
          Server.with_store s1 (delete (string_of key) (Server.data s1))
            (delete (string_of key) (Server.lsns s1)) (Server.nextLSN s1)))).
    rewrite parseOneKey_payload by exact Ha. cbn [Server.or_invalid fst snd].
    now rewrite <- (server_present s key Hok).
  - intros c' Hreq. cbn [run]. unfold Del. rewrite (guarded _ () _ _ _ (validateKey_ok _ Ha)).
    eapply answered; [exact Hreq|]. apply flag_response_ok.
  - unfold s2, server_store. cbn. f_equal. f_equal. symmetry. apply map_delete_zip_with.
Qed.

(** *** Multi-get *)

Lemma key_ok_small (ks : list (list byte)) : forallb key_ok ks = true -> List.Forall small ks.
Proof.
  intros H. apply List.Forall_forall. intros k Hk. eapply forallb_forall in H; [|exact Hk].
  unfold key_ok in H. rewrite N.leb_le in H. now apply small_key.
Qed.

Lemma count_round (n : nat) : (N.of_nat n <= maxOperations)%N ->
  getU32 (putU32 (N.of_nat n)) = Done (N.of_nat n).
Proof. intros H. apply getU32_round. apply (N.le_lt_trans _ _ _ H). reflexivity. Qed.

Lemma parseMultiGet_payload (ks : list (list byte)) :
  (N.of_nat (length ks) <= maxOperations)%N -> forallb key_ok ks = true ->
  Server.parseMultiGet (multi_get_payload ks) = Done (Some ks).
Proof.
  intros Hn Hk. unfold Server.parseMultiGet.
  rewrite (proj2 (Nat.ltb_ge _ _)) by (unfold multi_get_payload; rewrite length_app; cbn; lia).
  assert (H1 : slice (E := kv_error) (multi_get_payload ks) 0 4 = Done (putU32 (N.of_nat (length ks)))) by reflexivity.
  rewrite H1, bind_Done, count_round, bind_Done, Nat2N.id by exact Hn.
  change (multi_get_payload ks) with (putU32 (N.of_nat (length ks)) ++ concat (map oneKeyPayload ks)).
  rewrite <- (app_nil_r (concat _)).
  change 4 with (length (putU32 (N.of_nat (length ks)))) at 1.
  rewrite parse_keys_entries, bind_Done by now apply key_ok_small.
  now rewrite app_nil_r, decide_True.
Qed.

Lemma server_entry (s : Server.Server) (key : list byte) : server_ok s ->
  Server.multi_entry s key = result_entry (result_of (server_store s) key).
Proof.
  intros Hok. unfold Server.multi_entry, result_of.
  destruct (server_row s (string_of key) Hok) as [(-> & _ & ->)|(v & l & -> & _ & -> & _ & _ & ->)]; reflexivity.
Qed.

Lemma server_result_wf (s : Server.Server) (key : list byte) : server_ok s ->
  result_wf (result_of (server_store s) key).
Proof.
  intros Hok. unfold result_of, result_wf.
  destruct (server_row s (string_of key) Hok) as [(_ & _ & ->)|(v & l & _ & _ & -> & Hv & Hl & _)]; cbn; auto.
  split; [exact Hv|lia].
Qed.

Lemma multi_get_response_ok (rs : list KVResult) :
  (N.of_nat (length rs) <= maxOperations)%N -> List.Forall result_wf rs ->
  multi_get_response (length rs) statusOK (putU32 (N.of_nat (length rs)) ++ concat (map result_entry rs)) = Done rs.
Proof.
  intros Hn Hwf. unfold multi_get_response.
  rewrite decide_False by (rewrite length_app; intros [H|H]; [now apply H|cbn in H; lia]).
  set (body := putU32 _ ++ _).
  assert (H1 : slice (E := kv_error) body 0 4 = Done (putU32 (N.of_nat (length rs)))) by reflexivity.
  rewrite H1, bind_Done, count_round, bind_Done, Nat2N.id by exact Hn. rewrite decide_False by auto.
  unfold body. rewrite <- (app_nil_r (concat _)).
  change 4 with (length (putU32 (N.of_nat (length rs)))) at 1.
  rewrite multi_entries_results, bind_Done by exact Hwf. cbn [fst snd].
  now rewrite app_nil_r, decide_False by auto.
Qed.

Lemma refines_multi_get (ks : list (list byte)) : refines (OMultiGet ks).
Proof.
  intros c s Hi Hok _ Ha Hfit. cbn [allowed response_fits] in Ha, Hfit. rewrite !andb_true_iff, !N.leb_le in Ha.
  destruct Ha as [[Hn Hk] Hsize]. apply N.leb_le in Hfit. set (s1 := Server.count_request s opMultiGet).
  set (rs := map (result_of (server_store s)) ks) in *.
  set (body := putU32 (N.of_nat (length ks)) ++ concat (map result_entry rs)).
  apply (one_request _ c s s1 opMultiGet (multi_get_payload ks) body (AResults rs));
    [exact Hi|now apply counted_ok|constants|constants| | | | |reflexivity].
  - apply (small_payload _ _ Hsize). reflexivity.
  - unfold body. rewrite len_app. change (len (putU32 _)) with 4%N. lia.
  - change (Server.execute s opMultiGet (multi_get_payload ks)) with
      (Server.or_invalid (Server.parseMultiGet (multi_get_payload ks)) s1 (fun ks => (Server.multi_body s1 ks, s1))).
    rewrite parseMultiGet_payload by assumption. cbn [Server.or_invalid fst snd].
    unfold Server.multi_body, body, rs. rewrite map_map. do 5 f_equal.
    apply map_ext. intros key. now apply (server_entry s).
  - intros c' Hreq. cbn [run]. unfold MultiGet. rewrite (proj2 (N.ltb_ge _ _)) by exact Hn.
    pose proof (check_keys_checked ks 4) as Hck. unfold checked in Hck. rewrite Hk in Hck.
    assert (Hsize' : (4 + len (concat (map oneKeyPayload ks)) <= maxFrameSize)%N).
    { change (multi_get_payload ks) with (putU32 (N.of_nat (length ks)) ++ concat (map oneKeyPayload ks)) in Hsize.
      rewrite len_app in Hsize. exact Hsize. }
    rewrite (proj2 (N.leb_le _ _) Hsize'), orb_true_r in Hck.
    rewrite (guarded _ _ _ _ _ Hck). eapply (answered _ _ _ _ _ (multi_get_response (length ks))); [exact Hreq|].
    unfold body. replace (length ks) with (length rs) by apply length_map.
    apply multi_get_response_ok; [unfold rs; now rewrite length_map|].
    apply List.Forall_forall. intros r Hr. unfold rs in Hr. apply in_map_iff in Hr as (k & <- & _).
    now apply server_result_wf.
Qed.

(** *** Batches *)

Lemma op_ok_wf (ops : list BatchOp) : forallb op_ok ops = true -> List.Forall op_wf ops.
Proof.
  intros H. apply List.Forall_forall. intros o Ho. eapply forallb_forall in H; [|exact Ho].
  unfold op_ok, key_ok, value_ok in H. rewrite !andb_true_iff, !N.leb_le, orb_true_iff, andb_true_iff,
    !bool_decide_eq_true in H. destruct H as [[Hop Hk] Hv]. split; [tauto|].
  split; [now apply small_key|now apply small_value].
Qed.

Lemma count_ok_bounds {A} (l : list A) : operation_count_ok l = true ->
  l <> [] /\ (N.of_nat (length l) <= maxOperations)%N.
Proof.
  unfold operation_count_ok. rewrite andb_true_iff, N.leb_le, negb_true_iff, Nat.eqb_neq.
  intros [H1 H2]. split; [|exact H2]. now intros ->.
Qed.

Lemma parseBatchOps_payload (ops : list BatchOp) (md : list byte) :
  (N.of_nat (length ops) <= maxOperations)%N -> small md -> forallb op_ok ops = true ->
  Server.parseBatchOps (batch_payload ops md) = Done (Some ops).
Proof.
  intros Hn Hmd Hops. unfold Server.parseBatchOps.
  rewrite (proj2 (Nat.ltb_ge _ _)) by (unfold batch_payload; rewrite !length_app; cbn; lia).
  assert (H1 : slice (E := kv_error) (batch_payload ops md) 0 4 = Done (putU32 (N.of_nat (length ops)))) by reflexivity.
  assert (H2 : slice (E := kv_error) (batch_payload ops md) 4 8 = Done (putU32 (len md))) by reflexivity.
  rewrite H1, bind_Done, count_round, bind_Done, Nat2N.id by exact Hn.
  rewrite H2, bind_Done, getU32_round, bind_Done by exact Hmd.
  set (pre := putU32 (N.of_nat (length ops)) ++ putU32 (len md) ++ md).
  replace (batch_payload ops md) with (pre ++ concat (map batch_entry ops) ++ [])
    by (unfold pre, batch_payload; now rewrite app_nil_r, <- !app_assoc).
  replace (8 + N.to_nat (len md)) with (length pre)
    by (unfold pre; rewrite !length_app, len_nat; reflexivity).
  rewrite parse_ops_entries, bind_Done by now apply op_ok_wf.
  now rewrite app_nil_r, decide_True.
Qed.

Lemma batch_sizes (ops : list BatchOp) (md : list byte) :
  len (batch_payload ops md) = (8 + len md + len (concat (map batch_entry ops)))%N.
Proof.
  unfold batch_payload. rewrite !len_app. change (len (putU32 (N.of_nat (length ops)))) with 4%N.
  change (len (putU32 (len md))) with 4%N. lia.
Qed.

Lemma max_transaction : (maxTransactionSize < 2 ^ 32)%N.
Proof. reflexivity. Qed.

Lemma refines_batch (ops : list BatchOp) (md : list byte) : refines (OBatchWrite ops md).
Proof.
  intros c s Hi Hok Hc Ha _. cbn [allowed] in Ha. unfold batch_ok in Ha. rewrite !andb_true_iff, !N.leb_le in Ha.
  destruct Ha as [[[[Hcount _] _] Hops] Hsize]. destruct (count_ok_bounds ops Hcount) as [Hne Hn].
  set (s1 := Server.count_request s opBatchWrite).
  pose proof (commit_ok s1 ops Hc Hops (counted_ok s opBatchWrite Hok)) as Hok'.
  pose proof Hsize as Hsize'. rewrite batch_sizes in Hsize'.
  assert (Hmd : small md) by (unfold small; pose proof max_transaction; lia).
  apply (one_request _ c s (Server.commit s1 ops) opBatchWrite (batch_payload ops md)
           (putU64 (Server.nextLSN (Server.commit s1 ops))) (ALsn (Server.nextLSN (Server.commit s1 ops))));
    [exact Hi|exact Hok'|constants|constants| |apply lsn_fits| | |].
  - apply (small_payload _ _ Hsize max_transaction).
  - change (Server.execute s opBatchWrite (batch_payload ops md)) with
      (Server.or_invalid (Server.parseBatchOps (batch_payload ops md)) s1 (fun ops =>
         let s' := Server.commit s1 ops in (Server.statusOKBody (putU64 (Server.nextLSN s')), s'))).
    now rewrite parseBatchOps_payload.
  - intros c' Hreq. cbn [run]. unfold BatchWrite. rewrite Hcount. cbn [negb].
    rewrite (proj2 (N.ltb_ge _ _)) by (unfold maxTransactionSize in *; lia).
    pose proof (check_ops_checked ops (8 + len md)) as Hck. unfold checked in Hck.
    rewrite Hops, (proj2 (N.leb_le _ _) Hsize'), orb_true_r in Hck.
    rewrite (guarded _ _ _ _ _ Hck). eapply answered; [exact Hreq|]. apply lsn_response_ok, (ok_clock _ Hok').
  - cbn [spec]. rewrite commit_store by exact Hc. f_equal. f_equal. f_equal. cbn. apply incr_small, Hc.
Qed.

(** *** Compare and write *)

Lemma server_check (s : Server.Server) (c : CompareCheck) : server_ok s ->
  Server.check_holds s c = spec_check (server_store s) c.
Proof.
  intros Hok. unfold Server.check_holds, spec_check.
  destruct (server_row s (string_of (c_Key c)) Hok)
    as [(Hd & Hl & ->)|(v & l & Hd & Hl & -> & _ & Hn & Hlsn)].
  - case_decide as Hz; [now rewrite Hz, Hd|]. unfold Server.lsn_of. rewrite Hl. cbn.
    rewrite (proj2 (N.eqb_neq _ _) Hz). now apply bool_decide_eq_false.
  - rewrite Hlsn, Hd. case_decide as Hz.
    + rewrite Hz, (proj2 (N.eqb_neq 0 l)) by lia. reflexivity.
    + destruct (N.eqb_spec (c_LSN c) l); [now apply bool_decide_eq_true|apply bool_decide_eq_false; congruence].
Qed.

Lemma compare_payload_head (checks : list CompareCheck) (ops : list BatchOp) (md : list byte) :
  compare_payload checks ops md =
  (putU32 (N.of_nat (length checks)) ++ putU32 (N.of_nat (length ops)) ++ putU32 (len md) ++ zeros 4)
  ++ concat (map check_entry checks) ++ md ++ concat (map batch_entry ops) ++ [].
Proof. unfold compare_payload. now rewrite app_nil_r, <- !app_assoc. Qed.

Lemma compare_sizes (checks : list CompareCheck) (ops : list BatchOp) (md : list byte) :
  len (compare_payload checks ops md) =
  (16 + len md + len (concat (map check_entry checks)) + len (concat (map batch_entry ops)))%N.
Proof.
  rewrite compare_payload_head, len_app. change (len (putU32 _ ++ _)) with 16%N.
  rewrite !len_app. change (len []) with 0%N. lia.
Qed.

Lemma parseCompareBatch_payload (checks : list CompareCheck) (ops : list BatchOp) (md : list byte) :
  (N.of_nat (length ops) <= maxOperations)%N -> (N.of_nat (length checks) <= maxOperations)%N ->
  small md -> forallb op_ok ops = true -> List.Forall check_wf checks ->
  Server.parseCompareBatch (compare_payload checks ops md) = Done (Some (checks, ops)).
Proof.
  intros Hno Hnc Hmd Hops Hcs. rewrite compare_payload_head.
  set (head := putU32 _ ++ _). set (tl := md ++ concat (map batch_entry ops) ++ []).
  unfold Server.parseCompareBatch.
  rewrite (proj2 (Nat.ltb_ge _ _)) by (rewrite length_app; change (length head) with 16; lia).
  assert (H1 : slice (E := kv_error) (head ++ concat (map check_entry checks) ++ tl) 0 4 =
               Done (putU32 (N.of_nat (length checks)))) by reflexivity.
  assert (H2 : slice (E := kv_error) (head ++ concat (map check_entry checks) ++ tl) 4 8 =
               Done (putU32 (N.of_nat (length ops)))) by reflexivity.
  assert (H3 : slice (E := kv_error) (head ++ concat (map check_entry checks) ++ tl) 8 12 =
               Done (putU32 (len md))) by reflexivity.
  rewrite H1, bind_Done, count_round, bind_Done, Nat2N.id by exact Hnc.
  rewrite H2, bind_Done, count_round, bind_Done, Nat2N.id by exact Hno.
  rewrite H3, bind_Done, getU32_round, bind_Done by exact Hmd.
  change 16 with (length head) at 1. rewrite parse_checks_entries, bind_Done by exact Hcs.
  unfold tl. rewrite !app_assoc, <- (app_assoc _ _ []), len_nat, <- (length_app (head ++ _)).
  rewrite parse_ops_entries, bind_Done by now apply op_ok_wf.
  now rewrite app_nil_r, decide_True.
Qed.

Definition clocks_ok (o : op) : Prop :=
  match o with OCompareBatchWrite checks _ _ => List.Forall (fun c => (c_LSN c < 2 ^ 64)%N) checks | _ => True end.

Lemma compare_checks_pass (checks : list CompareCheck) (ops : list BatchOp) (md : list byte) :
  allowed (OCompareBatchWrite checks ops md) = true ->
  exists size size', check_checks (16 + len md) checks = Done size /\ check_ops size ops = Done size'.
Proof.
  cbn [allowed]. unfold batch_ok. rewrite !andb_true_iff, !N.leb_le, compare_sizes.
  intros [[[[Hcount _] Hck] Hops] Hsize].
  pose proof (check_checks_checked checks (16 + len md)) as H1. unfold checked in H1. rewrite Hck in H1.
  rewrite (proj2 (N.leb_le _ maxFrameSize)), orb_true_r in H1
    by (apply (N.le_trans _ maxTransactionSize); [lia|constants]).
  pose proof (check_ops_checked ops (16 + len md + len (concat (map check_entry checks)))) as H2.
  unfold checked in H2. rewrite Hops, (proj2 (N.leb_le _ maxTransactionSize)), orb_true_r in H2 by lia.
  eexists _, _. split; [exact H1|exact H2].
Qed.

Lemma compare_response_ok (b : bool) (l : N) : (l < 2 ^ 64)%N ->
  compare_response statusOK ([Server.flag b] ++ zeros 7 ++ putU64 l) = Done (l, b).
Proof.
  intros Hl. unfold compare_response. rewrite decide_False by (intros [H|H]; now apply H).
  set (body := [Server.flag b] ++ zeros 7 ++ putU64 l).
  assert (H0 : index (E := kv_error) body 0 = Done (Server.flag b)) by reflexivity.
  assert (H1 : slice (E := kv_error) body 8 16 = Done (putU64 l)) by reflexivity.
  rewrite H0, bind_Done, H1, bind_Done, getU64_round, bind_Done by exact Hl. now destruct b.
Qed.

Lemma cas_fits (b : bool) (l : N) : (2 + len ([Server.flag b] ++ zeros 7 ++ putU64 l) <= maxFrameSize)%N.
Proof. change (len _) with 16%N. constants. Qed.

Lemma refines_compare (checks : list CompareCheck) (ops : list BatchOp) (md : list byte) :
  clocks_ok (OCompareBatchWrite checks ops md) -> refines (OCompareBatchWrite checks ops md).
Proof.
  intros Hclocks c s Hi Hok Hc Ha _. destruct (compare_checks_pass checks ops md Ha) as (size & size' & Hs1 & Hs2).
  cbn [allowed] in Ha. unfold batch_ok in Ha. rewrite !andb_true_iff, !N.leb_le in Ha.
  destruct Ha as [[[[Hcount Hnc] Hck] Hops] Hsize]. destruct (count_ok_bounds ops Hcount) as [_ Hn].
  pose proof Hsize as Hsize'. rewrite compare_sizes in Hsize'. pose proof max_transaction as Hmax.
  set (s1 := Server.count_request s opCompareBatch). pose proof (counted_ok s opCompareBatch Hok) as Hok1.
  pose proof (commit_ok s1 ops Hc Hops Hok1) as Hok2.
  set (yes := forallb (spec_check (server_store s)) checks).
  set (s2 := if yes then Server.commit s1 ops else s1).
  set (lsn := if yes then Server.nextLSN s2 else 0%N).
  assert (Hok' : server_ok s2) by (unfold s2; now destruct yes).
  assert (Hlsn : (lsn < 2 ^ 64)%N) by (unfold lsn; destruct yes; [apply (ok_clock _ Hok')|constants]).
  apply (one_request _ c s s2 opCompareBatch (compare_payload checks ops md)
           ([Server.flag yes] ++ zeros 7 ++ putU64 lsn) (ACas lsn yes));
    [exact Hi|exact Hok'|constants|constants|apply (small_payload _ _ Hsize Hmax)|apply cas_fits| | |].
  - change (Server.execute s opCompareBatch (compare_payload checks ops md)) with
      (Server.or_invalid (Server.parseCompareBatch (compare_payload checks ops md)) s1 (fun co =>
         if forallb (Server.check_holds s1) co.1 then
           let s := Server.commit s1 co.2 in
           (Server.statusOKBody ([Byte.x01] ++ zeros 7 ++ putU64 (Server.nextLSN s)), s)
         else (Server.statusOKBody (zeros 8 ++ putU64 0), s1))).
    rewrite parseCompareBatch_payload; [|exact Hn|exact Hnc|unfold small; lia|exact Hops|].
    2:{ apply List.Forall_forall. intros k Hk. split.
        - eapply forallb_forall in Hck; [|exact Hk]. unfold key_ok in Hck. rewrite N.leb_le in Hck. now apply small_key.
        - cbn [clocks_ok] in Hclocks. rewrite List.Forall_forall in Hclocks. now apply Hclocks. }
    cbn [Server.or_invalid fst snd].
    replace (forallb (Server.check_holds s1) checks) with yes.
    2:{ unfold yes. clear -Hok1. induction checks as [|k ks IH]; cbn [forallb]; [reflexivity|].
        rewrite IH. f_equal. now rewrite (server_check s1 k Hok1). }
    unfold lsn, s2. now destruct yes.
  - intros c' Hreq. cbn [run]. unfold CompareBatchWrite. rewrite Hcount. cbn [negb].
    rewrite (proj2 (N.ltb_ge _ _)) by exact Hnc.
    rewrite (proj2 (N.ltb_ge _ _)) by (unfold maxTransactionSize in *; lia).
    rewrite (guarded _ _ _ _ _ Hs1), (guarded _ _ _ _ _ Hs2).
    apply (answered (fun r => ACas r.1 r.2) _ _ _ _ compare_response (lsn, yes) _ _ Hreq).
    now apply compare_response_ok.
  - cbn [spec]. fold yes. unfold lsn, s2. destruct yes; [|reflexivity].
    rewrite commit_store by exact Hc. f_equal. f_equal. f_equal. cbn. apply incr_small, Hc.
Qed.

(** *** What the limits exclude *)

Lemma stopped {A B} (m : KO A) (e : kv_error) (k : A -> KC B) (f : B -> answer) (c : client) :
  m = Fail_ e -> answers f (x ← lift m; k x) c = (Fail_ e, c).
Proof. intros ->. reflexivity. Qed.

Lemma failed {B} (e : kv_error) (f : B -> answer) (c : client) :
  answers f (lift (Fail_ e)) c = (Fail_ e, c).
Proof. reflexivity. Qed.

Lemma checked_no (m : KO N) (ok empty : bool) (size limit : N) :
  checked m ok empty size limit -> ok && (empty || (size <=? limit)%N) = false -> exists e, m = Fail_ e.
Proof. unfold checked. intros H E. now rewrite E in H. Qed.

Lemma checked_yes (m : KO N) (ok empty : bool) (size limit : N) :
  checked m ok empty size limit -> ok && (empty || (size <=? limit)%N) = true -> m = Done size.
Proof. unfold checked. intros H E. now rewrite E in H. Qed.

Lemma refused_batch (ops : list BatchOp) (md : list byte) (c : client) :
  allowed (OBatchWrite ops md) = false -> exists e, run Server.send (OBatchWrite ops md) c = (Fail_ e, c).
Proof.
  cbn [allowed run]. unfold batch_ok, BatchWrite. cbn [length forallb]. rewrite batch_sizes.
  destruct (operation_count_ok ops) eqn:Hcount; cbn [negb andb]; [|intros _; eexists; apply failed].
  destruct (N.ltb_spec (maxTransactionSize - 8) (len md)); [intros _; eexists; apply failed|].
  intros Ha. destruct (count_ok_bounds _ Hcount) as [Hne _].
  destruct (checked_no _ _ _ _ _ (check_ops_checked ops (8 + len md))) as [e He].
  - destruct ops; [now contradict Hne|exact Ha].
  - exists e. now apply stopped.
Qed.

Lemma refused_compare (checks : list CompareCheck) (ops : list BatchOp) (md : list byte) (c : client) :
  allowed (OCompareBatchWrite checks ops md) = false ->
  exists e, run Server.send (OCompareBatchWrite checks ops md) c = (Fail_ e, c).
Proof.
  cbn [allowed run]. unfold batch_ok, CompareBatchWrite. rewrite compare_sizes.
  destruct (operation_count_ok ops) eqn:Hcount; cbn [negb andb]; [|intros _; eexists; apply failed].
  destruct (N.leb_spec (N.of_nat (length checks)) maxOperations) as [Hn|Hn].
  2:{ intros _. rewrite (proj2 (N.ltb_lt _ _)) by exact Hn. eexists; apply failed. }
  rewrite (proj2 (N.ltb_ge _ _)) by exact Hn. cbn [andb].
  destruct (N.ltb_spec (maxTransactionSize - 16) (len md)); [intros _; eexists; apply failed|].
  intros Ha. destruct (count_ok_bounds _ Hcount) as [Hne _].
  pose proof (check_checks_checked checks (16 + len md)) as H1.
  destruct (forallb (fun c => key_ok (c_Key c)) checks && (is_nil checks ||
    (16 + len md + len (concat (map check_entry checks)) <=? maxFrameSize)%N)) eqn:Hck.
  - pose proof (checked_yes _ _ _ _ _ H1 Hck) as Hd. apply andb_true_iff in Hck as [Hk _].
    destruct (checked_no _ _ _ _ _ (check_ops_checked ops (16 + len md + len (concat (map check_entry checks))))) as [e He].
    + rewrite Hk in Ha. destruct ops; [now contradict Hne|exact Ha].
    + exists e. rewrite (guarded _ _ _ _ _ Hd). now apply stopped.
  - destruct (checked_no _ _ _ _ _ H1 Hck) as [e He]. exists e. now apply stopped.
Qed.

Lemma refused_multi_get (ks : list (list byte)) (c : client) :
  allowed (OMultiGet ks) = false -> exists e, run Server.send (OMultiGet ks) c = (Fail_ e, c).
Proof.
  cbn [allowed run]. unfold MultiGet.
  destruct (N.leb_spec (N.of_nat (length ks)) maxOperations) as [Hn|Hn].
  2:{ intros _. rewrite (proj2 (N.ltb_lt _ _)) by exact Hn. eexists; apply failed. }
  rewrite (proj2 (N.ltb_ge _ _)) by exact Hn. cbn [andb]. intros Ha.
  change (multi_get_payload ks) with (putU32 (N.of_nat (length ks)) ++ concat (map oneKeyPayload ks)) in Ha.
  rewrite len_app in Ha. change (len (putU32 _)) with 4%N in Ha.
  destruct (checked_no _ _ _ _ _ (check_keys_checked ks 4)) as [e He]; [|exists e; now apply stopped].
  destruct ks; [|exact Ha]. cbn in Ha. discriminate.
Qed.

Lemma refused (o : op) (c : client) :
  allowed o = false -> exists e, run Server.send o c = (Fail_ e, c).
Proof.
  destruct o; intros Ha.
  1,3,4: destruct (validateKey_no _ Ha) as [e He]; exists e; now apply stopped.
  - cbn [allowed] in Ha. cbn [run]. unfold Put. destruct (key_ok key) eqn:Hk.
    + destruct (validateValue_no _ Ha) as [e He]. exists e.
      rewrite (guarded _ () _ _ _ (validateKey_ok _ Hk)). now apply stopped.
    + destruct (validateKey_no _ Hk) as [e He]. exists e. now apply stopped.
  - now apply refused_multi_get.
  - now apply refused_batch.
  - now apply refused_compare.
Qed.

(** C18: run against the server, every operation of the storage client is the operation of the
    abstract store: a get, a put, a delete, a test, a multi-get, a batch and a compare-and-write
    have the outcome [spec] gives them on the store the server holds, leave the server holding
    the store [spec] gives, and leave the connection without a byte in flight; an operation
    beyond the limits of the protocol fails and changes nothing. *)
Theorem client_refines_store (o : op) (c : client) (s : Server.Server)
    (Hidle : idle c s) (Hok : server_ok s) (Hclock : (Server.nextLSN s < 2 ^ 64 - 1)%N)
    (Hchecks : clocks_ok o) (Hfits : response_fits o (server_store s) = true) :
  if allowed o
  then exists r c' s', run Server.send o c = (r, c') /\ idle c' s' /\ server_ok s' /\
         (r, server_store s') = spec o (server_store s)
  else exists e, run Server.send o c = (Fail_ e, c).
Proof.
  destruct (allowed o) eqn:Ha; [|now apply refused].
  assert (H : refines o); [|now apply H].
  destruct o; auto using refines_get, refines_put, refines_del, refines_exists, refines_multi_get,
    refines_batch, refines_compare.
Qed.

(** A put, then a compare-and-write on the key it wrote. *)
Definition ex_client : client := NewKVClient (Server.mkConnection Server.New [] false).
Definition ex_write : op :=
  OCompareBatchWrite [mkCompareCheck (bytes "k") 0] [mkBatchOp batchPut (bytes "k") (bytes "v")] [].

Lemma client_refines_store_witness :
  exists r c' s', run Server.send ex_write ex_client = (r, c') /\ idle c' s' /\ server_ok s' /\
    (r, server_store s') = spec ex_write (server_store Server.New).
Proof.
  apply (client_refines_store ex_write ex_client Server.New).
  - exists 1%N. split; reflexivity.
  - exact server_new.
  - reflexivity.
  - repeat constructor.
  - reflexivity.
Defined.
