(* ===== verification/KVScan.v ===== *)
(** * The storage client: no panics, and scans

    Whatever bytes arrive, no operation of the client slices or indexes a response out of range.

    A scan against the server, read to its end gives every key with the prefix once, in order, with its value and its
    commit number, and leaves the store as it was. *)
From Stdlib Require Import NArith ZArith Lia Strings.String.
From Stdlib Require Strings.Byte.
From stdpp Require Import base option list list_numbers gmap strings sorting.
From S2P Require Import Prelude Bytes Wire WireFacts KVClient TestKV KVStore KVRefine.

(** ** Decoding a body *)

Lemma safe_u32_field {B} (body : list byte) (lo : nat) (k : N -> KO B) (Q : B -> Prop) :
  lo + 4 <= length body -> (forall v, safe (k v) Q) -> safe ((slice body lo (lo + 4) ≫= getU32) ≫= k) Q.
Proof.
  intros H Hk. eapply (safe_bind _ _ (fun _ => True)); [|intros v _; apply Hk].
  apply safe_field; [lia|lia|]. intros b Hb. eapply safe_mono; [apply safe_Uint32; lia|auto].
Qed.

Lemma safe_u64_field {B} (body : list byte) (lo : nat) (k : N -> KO B) (Q : B -> Prop) :
  lo + 8 <= length body -> (forall v, safe (k v) Q) -> safe ((slice body lo (lo + 8) ≫= getU64) ≫= k) Q.
Proof.
  intros H Hk. eapply (safe_bind _ _ (fun _ => True)); [|intros v _; apply Hk].
  apply safe_field; [lia|lia|]. intros b Hb. eapply safe_mono; [apply safe_Uint64; lia|auto].
Qed.

Lemma safe_index_field {B} (body : list byte) (i : nat) (k : byte -> KO B) (Q : B -> Prop) :
  i < length body -> (forall b, safe (k b) Q) -> safe (index body i ≫= k) Q.
Proof. intros H Hk. eapply safe_bind; [now apply safe_index|auto]. Qed.

Lemma safe_lsn_response (what : string) (status : N) (body : list byte) :
  safe (lsn_response what status body) (fun _ => True).
Proof.
  unfold lsn_response. case_decide as D; [exact I|].
  assert (H : length body = 8) by (apply Decidable.not_not; [unfold Decidable.decidable; lia|tauto]).
  apply safe_field; [lia|lia|]. intros b Hb. eapply safe_mono; [apply safe_Uint64; lia|auto].
Qed.

Lemma safe_flag_response (what : string) (status : N) (body : list byte) :
  safe (flag_response what status body) (fun _ => True).
Proof.
  unfold flag_response. case_decide as D; [exact I|].
  assert (H : length body = 1) by (apply Decidable.not_not; [unfold Decidable.decidable; lia|tauto]).
  apply safe_index_field; [lia|]. intros b. exact I.
Qed.

Lemma safe_compare_response (status : N) (body : list byte) :
  safe (compare_response status body) (fun _ => True).
Proof.
  unfold compare_response. case_decide as D; [exact I|].
  assert (H : length body = 16) by (apply Decidable.not_not; [unfold Decidable.decidable; lia|tauto]).
  apply safe_index_field; [lia|]. intros b. apply (safe_u64_field body 8); [lia|]. intros v. exact I.
Qed.

Lemma safe_get_response (status : N) (body : list byte) :
  safe (get_response status body) (fun _ => True).
Proof.
  unfold get_response. case_decide as D1; [exact I|]. case_decide as D2; [exact I|].
  assert (H : 12 <= length body) by (apply Nat.nlt_ge; tauto).
  apply (safe_u64_field body 0); [lia|]. intros lsn. apply (safe_u32_field body 8); [lia|]. intros n.
  destruct (_ || _); [exact I|]. eapply safe_bind; [apply safe_slice; lia|]. intros b _. exact I.
Qed.

(** A loop over entries that stays inside the body. *)
Lemma safe_multi_entries (body : list byte) (count : nat) : forall pos,
  pos <= length body -> safe (multi_entries body count pos) (fun _ => True).
Proof.
  induction count as [|k IH]; intros pos Hpos; cbn [multi_entries]; [exact I|].
  destruct (Nat.ltb_spec (length body - pos) 16) as [|Hlen]; [exact I|].
  apply safe_index_field; [lia|]. intros p.
  replace (pos + 8) with (pos + 4 + 4) at 1 by lia. apply safe_u32_field; [lia|]. intros n.
  replace (pos + 16) with (pos + 8 + 8) at 1 by lia. apply safe_u64_field; [lia|]. intros lsn.
  case_bool_decide.
  - destruct (_ <? n)%N eqn:E1; [exact I|]. cbn [orb].
    destruct (N.ltb_spec (N.of_nat (length body - (pos + 16))) n); [exact I|].
    eapply safe_bind; [apply safe_slice; lia|]. intros v _.
    eapply safe_bind; [apply IH; lia|]. intros r _. exact I.
  - eapply safe_bind; [apply IH; lia|]. intros r _. exact I.
Qed.

Lemma safe_multi_get_response (n : nat) (status : N) (body : list byte) :
  safe (multi_get_response n status body) (fun _ => True).
Proof.
  unfold multi_get_response. case_decide as D; [exact I|].
  assert (H : 4 <= length body) by (apply Nat.nlt_ge; tauto).
  apply (safe_u32_field body 0); [lia|]. intros count. case_decide; [exact I|].
  eapply safe_bind; [apply safe_multi_entries; lia|]. intros r _. now case_decide.
Qed.

Lemma safe_scan_entries (body : list byte) (count : nat) : forall pos,
  pos <= length body -> safe (scan_entries body count pos) (fun _ => True).
Proof.
  induction count as [|k IH]; intros pos Hpos; cbn [scan_entries]; [exact I|].
  destruct (Nat.ltb_spec (length body - pos) 16) as [|Hlen]; [exact I|].
  apply safe_u32_field; [lia|]. intros kl.
  replace (pos + 8) with (pos + 4 + 4) at 1 by lia. apply safe_u32_field; [lia|]. intros vl.
  replace (pos + 16) with (pos + 8 + 8) at 1 by lia. apply safe_u64_field; [lia|]. intros lsn.
  destruct (N.ltb_spec (N.of_nat (length body - (pos + 16))) (kl + vl)); [now rewrite orb_true_r|].
  destruct (_ || _); [exact I|].
  eapply safe_bind; [apply safe_slice; lia|]. intros key _.
  eapply safe_bind; [apply safe_slice; lia|]. intros v _.
  eapply safe_bind; [apply IH; lia|]. intros r _. exact I.
Qed.

Lemma safe_scan_next_response (status : N) (body : list byte) :
  safe (scan_next_response status body) (fun _ => True).
Proof.
  unfold scan_next_response. case_decide as D; [exact I|].
  assert (H : 8 <= length body) by (apply Nat.nlt_ge; tauto).
  apply safe_index_field; [lia|]. intros d. apply (safe_u32_field body 4); [lia|]. intros count.
  eapply safe_bind; [apply safe_scan_entries; lia|]. intros r _. now case_decide.
Qed.

(** ** Operations *)

Section Client.
Context {Conn : Type} (send : Conn -> list byte -> (Conn * list byte) + kv_error).

(** An operation that does not panic, from any state of the client. *)
Definition calm {A} (m : K (Conn := Conn) A) : Prop := forall c, safe (fst (m c)) (fun _ => True).

Lemma calm_bind {A B} (m : K A) (k : A -> K B) : calm m -> (forall a, calm (k a)) -> calm (m ≫= k).
Proof.
  intros Hm Hk c. specialize (Hm c). unfold mbind, K_bind. destruct (m c) as [[a|e|] c']; cbn in *; auto.
  apply Hk.
Qed.

Lemma calm_lift {A} (m : KO A) : safe m (fun _ => True) -> calm (lift m).
Proof. intros H c. exact H. Qed.

Lemma calm_ret {A} (a : A) : calm (mret a).
Proof. intros c. exact I. Qed.

Lemma calm_write (bs : list byte) : calm (write send bs).
Proof. intros c. unfold write. now destruct (send _ _) as [[] |]. Qed.

Lemma calm_receive : calm receive.
Proof.
  intros c. unfold receive. pose proof (safe_readFrame (incoming c)) as H.
  destruct (readFrame (incoming c)). cbn in *. eapply safe_mono; [exact H|auto].
Qed.

Lemma calm_fresh : calm fresh.
Proof. intros c. exact I. Qed.

Lemma calm_request (opcode : N) (payload : list byte) : calm (request send opcode payload).
Proof.
  unfold request. apply calm_bind; [apply calm_fresh|]. intros id.
  apply calm_bind; [apply calm_write|]. intros _. apply calm_bind; [apply calm_receive|]. intros resp.
  repeat (case_decide; [apply calm_lift; exact I|]).
  destruct (Nat.ltb_spec (length (f_payload resp)) 2); [apply calm_lift; exact I|].
  apply calm_bind.
  { apply calm_lift. apply safe_field; [lia|lia|]. intros b Hb.
    eapply safe_mono; [apply safe_getU16; lia|auto]. }
  intros status. apply calm_bind.
  { apply calm_lift. eapply safe_mono; [apply safe_slice; lia|auto]. }
  intros rest. case_decide; [apply calm_lift; exact I|apply calm_ret].
Qed.

Lemma safe_validateKey (key : list byte) : safe (validateKey key) (fun _ => True).
Proof. unfold validateKey. now destruct (_ <? _)%N. Qed.

Lemma safe_validateValue (v : list byte) : safe (validateValue v) (fun _ => True).
Proof. unfold validateValue. now destruct (_ <? _)%N. Qed.

Lemma safe_check_keys (ks : list (list byte)) : forall n, safe (check_keys n ks) (fun _ => True).
Proof.
  induction ks as [|k ks IH]; intros n; cbn [check_keys]; [exact I|].
  eapply safe_bind; [apply safe_validateKey|]. intros _ _. destruct (_ <? _)%N; [exact I|apply IH].
Qed.

Lemma safe_check_checks (cs : list CompareCheck) : forall n, safe (check_checks n cs) (fun _ => True).
Proof.
  induction cs as [|k ks IH]; intros n; cbn [check_checks]; [exact I|].
  eapply safe_bind; [apply safe_validateKey|]. intros _ _. destruct (_ <? _)%N; [exact I|apply IH].
Qed.

Lemma safe_check_ops (ops : list BatchOp) : forall n, safe (check_ops n ops) (fun _ => True).
Proof.
  induction ops as [|o ops IH]; intros n; cbn [check_ops]; [exact I|]. case_decide; [exact I|].
  eapply safe_bind; [apply safe_validateKey|]. intros _ _.
  eapply safe_bind; [apply safe_validateValue|]. intros _ _.
  case_decide; [exact I|]. destruct (_ <? _)%N; [exact I|apply IH].
Qed.

Lemma safe_validate_keys (ks : list (list byte)) : safe (validate_keys ks) (fun _ => True).
Proof.
  induction ks as [|k ks IH]; cbn; [exact I|]. eapply safe_bind; [apply safe_validateKey|]. intros _ _. exact IH.
Qed.

Create HintDb calm.
#[local] Hint Resolve calm_request calm_write calm_receive calm_fresh calm_ret safe_validateKey
  safe_validateValue safe_check_keys safe_check_checks safe_check_ops safe_validate_keys
  safe_lsn_response safe_flag_response safe_compare_response safe_get_response
  safe_multi_get_response safe_scan_next_response : calm.

(** One layer of an operation. *)
Ltac calm_step :=
  first
    [ solve [auto with calm]
    | apply calm_bind; [|intros ?]
    | apply calm_lift
    | match goal with
      | |- calm (if ?b then _ else _) => destruct b
      | |- calm (answers _ _) => apply calm_bind; [|intros ?; apply calm_ret]
      end
    | exact I ].

Lemma calm_run (o : op) : calm (run send o).
Proof.
  destruct o; cbn [run]; unfold Get, Put, Del, Exists_, MultiGet, BatchWrite, CompareBatchWrite;
    repeat calm_step.
Qed.

Lemma calm_exists_answer (id : N) : calm (exists_answer id).
Proof.
  unfold exists_answer. apply calm_bind; [apply calm_receive|]. intros resp.
  case_decide; [apply calm_lift; exact I|].
  destruct (Nat.ltb_spec (length (f_payload resp)) 2); [apply calm_lift; exact I|].
  apply calm_bind.
  { apply calm_lift. apply safe_field; [lia|lia|]. intros b Hb.
    eapply safe_mono; [apply safe_getU16; lia|auto]. }
  intros status. case_decide.
  - apply calm_bind; [|intros; apply calm_lift; exact I]. apply calm_lift.
    eapply safe_mono; [apply safe_slice; lia|auto].
  - case_decide as D; [apply calm_lift; exact I|].
    assert (Hthree : length (f_payload resp) = 3) by (apply Decidable.not_not; [unfold Decidable.decidable; lia|tauto]).
    apply calm_bind; [|intros; apply calm_ret]. apply calm_lift, safe_index. lia.
Qed.

Lemma calm_exists_frames (ks : list (list byte)) : calm (exists_frames ks).
Proof. induction ks as [|k ks IH]; cbn [exists_frames]; repeat calm_step. Qed.

Lemma calm_exists_answers (ids : list N) : calm (exists_answers ids).
Proof.
  induction ids as [|i ids IH]; cbn [exists_answers]; [apply calm_ret|].
  apply calm_bind; [apply calm_exists_answer|]. intros b. repeat calm_step.
Qed.

Lemma calm_exists_chunks (n : nat) : forall ks, calm (exists_chunks send n ks).
Proof.
  induction n as [|n IH]; intros [|k ks]; cbn [exists_chunks]; try apply calm_ret.
  apply calm_bind.
  - unfold exists_chunk. apply calm_bind; [apply calm_exists_frames|]. intros r.
    apply calm_bind; [apply calm_write|]. intros _. apply calm_exists_answers.
  - intros bs. apply calm_bind; [apply IH|]. intros more. apply calm_ret.
Qed.

Lemma calm_ExistsMany (ks : list (list byte)) : calm (ExistsMany send ks).
Proof. unfold ExistsMany. repeat calm_step. apply calm_exists_chunks. Qed.

Lemma calm_openScan (prefix : list byte) (values : bool) (size : N) : calm (openScan send prefix values size).
Proof. unfold openScan. repeat calm_step. Qed.

Lemma calm_Next (id : N) : calm (Next send id).
Proof. unfold Next. repeat calm_step. Qed.

Lemma calm_Close (id : N) : calm (Close send id).
Proof.
  unfold Close. apply calm_bind; [apply calm_request|]. intros r.
  case_decide; [apply calm_lift; exact I|apply calm_ret].
Qed.

Lemma calm_all_pages (fuel : nat) (id : N) : calm (all_pages send fuel id).
Proof.
  induction fuel as [|k IH]; cbn [all_pages]; [apply calm_ret|].
  apply calm_bind; [apply calm_Next|]. intros p. repeat calm_step.
Qed.

Lemma calm_closing {A} (id : N) (m : K A) : calm m -> calm (closing send id m).
Proof.
  intros Hm c. specialize (Hm c). unfold closing. destruct (m c) as [r c']. cbn [fst] in Hm.
  pose proof (calm_Close id c') as Hc. destruct (Close send id c') as [[u|e|] c'']; cbn in *; auto.
Qed.

Lemma calm_Reads (fuel : nat) (prefix : list byte) : calm (Reads send fuel prefix).
Proof.
  unfold Reads, Scan. apply calm_bind; [apply calm_openScan|]. intros id.
  apply calm_closing, calm_bind; [apply calm_all_pages|]. intros es. apply calm_ret.
Qed.

(** No operation of the storage client panics, whatever the server and the network do: any
    bytes, in any number, may arrive in answer to what the client writes. *)
Theorem client_never_panics (c : KVClient (Conn := Conn)) :
  (forall o, fst (run send o c) <> Panic) /\
  (forall keys, fst (ExistsMany send keys c) <> Panic) /\
  (forall prefix values size, fst (openScan send prefix values size c) <> Panic) /\
  (forall id, fst (Next send id c) <> Panic) /\
  (forall id, fst (Close send id c) <> Panic) /\
  (forall fuel prefix, fst (Reads send fuel prefix c) <> Panic).
Proof.
  assert (H : forall A (m : K (Conn := Conn) A), calm m -> fst (m c) <> Panic).
  { intros A m Hm. specialize (Hm c). intros E. now rewrite E in Hm. }
  repeat split; intros; apply H; auto using calm_run, calm_ExistsMany, calm_openScan, calm_Next, calm_Close, calm_Reads.
Qed.
End Client.

(** ** Scans of the storage client against the server *)

(** The entries the server sends for some keys. *)
Definition entry_of (s : Server.Server) (ko : bool) (k : string) : KVEntry :=
  mkKVEntry (bytes k) (Server.scan_value s ko k) (Server.lsn_of s k).

Lemma scan_entry_page (s : Server.Server) (ko : bool) (k : string) :
  Server.scan_entry s ko k = page_entry (entry_of s ko k).
Proof. reflexivity. Qed.

Lemma entry_wf (s : Server.Server) (ko : bool) (k : string) :
  server_ok s -> is_Some (Server.data s !! k) -> page_wf (entry_of s ko k).
Proof.
  intros Hok [v Hv]. destruct (ok_size _ Hok _ _ Hv) as [Hk Hsize].
  unfold page_wf, entry_of, Server.scan_value. cbn [e_Key e_Value e_LSN]. split; [exact Hk|]. split.
  - destruct ko; [apply N.le_0_l|]. now rewrite Hv.
  - unfold Server.lsn_of. pose proof (ok_clock _ Hok). destruct (Server.lsns s !! k) as [l|] eqn:El; cbn.
    + pose proof (ok_lsn _ Hok _ _ El). lia.
    + reflexivity.
Qed.

(** The stored data the entries are read from. *)
Definition same_data (s s' : Server.Server) : Prop :=
  Server.data s' = Server.data s /\ Server.lsns s' = Server.lsns s /\
  Server.nextLSN s' = Server.nextLSN s /\ Server.dropCompareReply s' = Server.dropCompareReply s.

Lemma same_data_ok (s s' : Server.Server) : same_data s s' -> server_ok s -> server_ok s'.
Proof. intros (E1 & E2 & E3 & E4) [H1 H2 H3 H4 H5]. split; rewrite ?E1, ?E2, ?E3, ?E4; auto. Qed.

Lemma same_data_entry (s s' : Server.Server) (ko : bool) (k : string) :
  same_data s s' -> entry_of s' ko k = entry_of s ko k.
Proof.
  intros (E1 & E2 & _). unfold entry_of, Server.scan_value, Server.lsn_of. now rewrite E1, E2.
Qed.

Lemma same_data_store (s s' : Server.Server) : same_data s s' -> server_store s' = server_store s.
Proof. intros (E1 & E2 & E3 & _). unfold server_store. now rewrite E1, E2, E3. Qed.

Lemma same_data_trans (a b c : Server.Server) : same_data a b -> same_data b c -> same_data a c.
Proof. intros (?&?&?&?) (?&?&?&?). repeat split; congruence. Qed.

(** ** A page *)

Lemma scan_id_parsed (id : N) (tl : list byte) : (id < 2 ^ 64)%N ->
  Server.parseScanID (putU64 id ++ tl) = Done (Some id).
Proof.
  intros Hid. unfold Server.parseScanID.
  rewrite (proj2 (Nat.ltb_ge _ _)) by (rewrite length_app; cbn; lia).
  assert (H : slice (E := kv_error) (putU64 id ++ tl) 0 8 = Done (putU64 id)) by reflexivity.
  now rewrite H, bind_Done, getU64_round, bind_Done by exact Hid.
Qed.

Definition page_of (s : Server.Server) (sc : Server.scan) : list KVEntry :=
  map (entry_of s (Server.keysOnly sc)) (Server.page_keys sc).

Definition page_rest (s : Server.Server) (sc : Server.scan) : list byte :=
  [Server.flag (Server.page_done sc)] ++ zeros 3 ++ putU32 (N.of_nat (Server.page_count sc))
  ++ concat (map page_entry (page_of s sc)).

Lemma page_keys_length (sc : Server.scan) :
  length (Server.page_keys sc) = Server.page_count sc.
Proof.
  unfold Server.page_keys, Server.page_count. rewrite length_take, length_drop. lia.
Qed.

Lemma page_read (s : Server.Server) (sc : Server.scan) :
  server_ok s -> (forall k, k ∈ Server.keys sc -> is_Some (Server.data s !! k)) ->
  (Server.limit sc <= 4096)%N ->
  scan_next_response statusOK (page_rest s sc) = Done (page_of s sc, Server.page_done sc).
Proof.
  intros Hok Hin Hl. unfold scan_next_response.
  set (head := [Server.flag (Server.page_done sc)] ++ zeros 3 ++ putU32 (N.of_nat (Server.page_count sc))).
  assert (E : page_rest s sc = head ++ concat (map page_entry (page_of s sc)) ++ [])
    by (unfold head, page_rest; now rewrite app_nil_r, <- !app_assoc).
  rewrite E. set (body := head ++ _ ++ _).
  rewrite decide_False by (unfold body; rewrite length_app; change (length head) with 8;
                           intros [H|H]; [now apply H|lia]).
  assert (H1 : index (E := kv_error) body 0 = Done (Server.flag (Server.page_done sc))) by reflexivity.
  assert (H2 : slice (E := kv_error) body 4 8 = Done (putU32 (N.of_nat (Server.page_count sc)))) by reflexivity.
  rewrite H1, bind_Done, H2, bind_Done, getU32_round, bind_Done, Nat2N.id.
  2:{ apply (N.le_lt_trans _ 4096); [|reflexivity]. unfold Server.page_count. lia. }
  unfold body. change 8 with (length head) at 1.
  replace (Server.page_count sc) with (length (page_of s sc))
    by (unfold page_of; now rewrite length_map, page_keys_length).
  rewrite scan_entries_page, bind_Done.
  2:{ apply List.Forall_forall. intros e He. unfold page_of in He. apply in_map_iff in He as (k & <- & Hk).
      apply entry_wf; [exact Hok|]. apply Hin. apply list_elem_of_In in Hk. unfold Server.page_keys in Hk.
      exact (subseteq_drop _ _ _ (subseteq_take _ _ _ Hk)). }
  cbn [fst snd]. rewrite app_nil_r, decide_False by auto. now destruct (Server.page_done sc).
Qed.

(** The page fits in a frame. *)
Definition page_fits (s : Server.Server) (sc : Server.scan) : Prop :=
  (2 + len (page_rest s sc) <= maxFrameSize)%N.

Lemma next_page (c : client) (s : Server.Server) (id : N) (sc : Server.scan) :
  idle c s -> server_ok s -> (id < 2 ^ 64)%N -> Server.scans s !! id = Some sc ->
  (forall k, k ∈ Server.keys sc -> is_Some (Server.data s !! k)) ->
  (Server.limit sc <= 4096)%N -> page_fits s sc ->
  exists c' s', Next Server.send id c = (Done (page_of s sc, Server.page_done sc), c') /\
    idle c' s' /\ same_data s s' /\ Server.scans s' !! id = Some (Server.advance sc).
Proof.
  intros Hi Hok Hid Hsc Hin Hl Hfit. set (s1 := Server.count_request s opScanNext).
  set (s' := Server.with_scans s1 (<[id := Server.advance sc]> (Server.scans s1)) (Server.nextScan s1)).
  destruct (request_answered c s s' opScanNext statusOK (scan_next_payload id) (page_rest s sc))
    as (c' & Hreq & Hi');
    [exact Hi|constants|constants|reflexivity| |apply (ok_reply _ Hok)|constants|constants|exact Hfit|].
  - change (Server.execute s opScanNext (scan_next_payload id)) with
      (Server.or_invalid (Server.parseScanID (scan_next_payload id)) s1 (fun id =>
         match Server.scans s1 !! id with
         | None => (Server.errorBody "ScanNotFound", s1)
         | Some sc => (Server.page_body s1 sc,
                       Server.with_scans s1 (<[id := Server.advance sc]> (Server.scans s1)) (Server.nextScan s1))
         end)).
    unfold scan_next_payload. rewrite scan_id_parsed by exact Hid. cbn [Server.or_invalid].
    change (Server.scans s1) with (Server.scans s). rewrite Hsc. cbn [fst snd].
    unfold Server.page_body, page_rest, page_of. rewrite map_map. reflexivity.
  - exists c', s'. split; [|split; [exact Hi'|split; [repeat split|apply lookup_insert_eq]]].
    unfold Next. eapply K_run; [exact Hreq|]. unfold lift. cbn [fst snd].
    now rewrite (page_read s sc Hok Hin Hl).
Qed.

Lemma page_rest_same (s s' : Server.Server) (sc : Server.scan) :
  same_data s s' -> page_rest s' sc = page_rest s sc.
Proof.
  intros H. unfold page_rest, page_of.
  now rewrite (map_ext _ _ (fun x => same_data_entry s s' _ x H)).
Qed.

(** ** All pages *)

(** Every page from the scan's offset on fits. *)
Definition pages_fit (s : Server.Server) (sc : Server.scan) : Prop := forall n,
  page_fits s (Server.mkScan (Server.keys sc) n (Server.limit sc) (Server.keysOnly sc)).

Lemma page_keys_split (sc : Server.scan) :
  drop (Server.offset sc) (Server.keys sc) =
  Server.page_keys sc ++ drop (Server.offset (Server.advance sc)) (Server.keys sc).
Proof.
  unfold Server.page_keys, Server.advance. cbn [Server.offset]. rewrite <- drop_drop.
  now rewrite take_drop.
Qed.

Lemma page_last (sc : Server.scan) : Server.page_done sc = true ->
  drop (Server.offset sc) (Server.keys sc) = Server.page_keys sc.
Proof.
  unfold Server.page_done. rewrite Nat.leb_le. intros H. rewrite page_keys_split.
  unfold Server.advance. cbn [Server.offset]. rewrite drop_ge by lia. apply app_nil_r.
Qed.

Lemma all_pages_read (fuel : nat) (id : N) : forall c s sc,
  idle c s -> server_ok s -> (id < 2 ^ 64)%N -> Server.scans s !! id = Some sc ->
  (forall k, k ∈ Server.keys sc -> is_Some (Server.data s !! k)) ->
  (0 < Server.limit sc <= 4096)%N -> pages_fit s sc ->
  length (Server.keys sc) - Server.offset sc < fuel ->
  exists c' s', all_pages Server.send fuel id c =
      (Done (Some (map (entry_of s (Server.keysOnly sc)) (drop (Server.offset sc) (Server.keys sc)))), c') /\
    idle c' s' /\ same_data s s'.
Proof.
  induction fuel as [|k IH]; intros c s sc Hi Hok Hid Hsc Hin Hl Hfit Hfuel; [lia|]. cbn [all_pages].
  destruct (next_page c s id sc Hi Hok Hid Hsc Hin) as (c1 & s1 & Hn & Hi1 & Hsame & Hsc1); [lia| |].
  { specialize (Hfit (Server.offset sc)). now destruct sc. }
  destruct (Server.page_done sc) eqn:Hdone.
  - exists c1, s1. split; [|auto]. eapply K_run; [exact Hn|]. cbn [fst snd]. now rewrite page_last.
  - destruct (IH c1 s1 (Server.advance sc)) as (c2 & s2 & Hrest & Hi2 & Hsame2);
      [exact Hi1|exact (same_data_ok _ _ Hsame Hok)|exact Hid|exact Hsc1| |exact Hl| | |].
    + intros x Hx. destruct Hsame as (-> & _). now apply Hin.
    + intros n. unfold page_fits. rewrite (page_rest_same s s1) by exact Hsame. apply Hfit.
    + unfold Server.page_done in Hdone. apply Nat.leb_gt in Hdone. cbn [Server.advance Server.keys Server.offset].
      unfold Server.page_count in *. lia.
    + exists c2, s2. split; [|split; [exact Hi2|eapply same_data_trans; eauto]].
      eapply K_run; [exact Hn|]. cbn [fst snd]. eapply K_run; [exact Hrest|].
      cbn [option_map Server.advance Server.keysOnly Server.keys Server.offset].
      unfold page_of. rewrite page_keys_split, map_app. cbn [Server.advance Server.keys Server.offset].
      now rewrite (map_ext _ _ (fun x => same_data_entry s s1 _ x Hsame)).
Qed.

(** ** Opening and closing *)

Lemma parseScanOpen_payload (values : bool) (size : N) (prefix : list byte) :
  key_ok prefix = true -> (size <= 4096)%N ->
  Server.parseScanOpen (scan_open_payload values size prefix) = Done (Some (values, size, prefix)).
Proof.
  unfold key_ok. rewrite N.leb_le. intros Hp Hsize. pose proof (small_key _ Hp) as Hs.
  unfold Server.parseScanOpen.
  set (p := scan_open_payload values size prefix).
  assert (Hlen : length p = 12 + length prefix).
  { unfold p, scan_open_payload. rewrite !length_app. reflexivity. }
  rewrite (proj2 (Nat.ltb_ge _ _)) by lia.
  assert (H0 : index (E := kv_error) p 0 = Done (if values then Byte.x01 else Byte.x00)) by reflexivity.
  assert (H1 : slice (E := kv_error) p 4 8 = Done (putU32 size)) by reflexivity.
  assert (H2 : slice (E := kv_error) p 8 12 = Done (putU32 (len prefix))) by reflexivity.
  rewrite H0, bind_Done, H1, bind_Done, getU32_round, bind_Done by (apply (N.le_lt_trans _ _ _ Hsize); reflexivity).
  rewrite H2, bind_Done, getU32_round, bind_Done by exact Hs.
  unfold len at 2. rewrite Hlen. rewrite (proj2 (N.eqb_eq _ _)) by (unfold len; lia). cbn [negb].
  replace p with (([if values then Byte.x01 else Byte.x00] ++ zeros 3 ++ putU32 size ++ putU32 (len prefix)) ++ prefix)
    by (unfold p, scan_open_payload; now rewrite <- !app_assoc).
  rewrite slice_from_app by reflexivity. rewrite bind_Done. now destruct values.
Qed.

Lemma open_scan (c : client) (s : Server.Server) (prefix : list byte) (values : bool) (size : N) :
  idle c s -> server_ok s -> key_ok prefix = true -> (0 < size <= 4096)%N ->
  exists id c' s', openScan Server.send prefix values size c = (Done id, c') /\ idle c' s' /\
    same_data s s' /\ (id < 2 ^ 64)%N /\
    Server.scans s' !! id = Some (Server.mkScan (Server.scan_keys s (string_of prefix)) 0 size (negb values)).
Proof.
  intros Hi Hok Hp Hsize. set (s1 := Server.count_request s opScanOpen).
  set (id := Server.incr (Server.nextScan s)).
  set (s' := Server.with_scans s1 (<[id := Server.mkScan (Server.scan_keys s1 (string_of prefix)) 0 size (negb values)]>
                                    (Server.scans s1)) id).
  assert (Hid : (id < 2 ^ 64)%N) by (apply N.mod_lt; discriminate).
  destruct (request_answered c s s' opScanOpen statusOK (scan_open_payload values size prefix) (putU64 id))
    as (c' & Hreq & Hi');
    [exact Hi|constants|constants| | |apply (ok_reply _ Hok)|constants|constants|apply lsn_fits|].
  - unfold key_ok in Hp. rewrite N.leb_le in Hp. unfold scan_open_payload. rewrite !len_app.
    change (len [if values then Byte.x01 else Byte.x00]) with 1%N. change (len (zeros 3)) with 3%N.
    change (len (putU32 size)) with 4%N. change (len (putU32 (len prefix))) with 4%N.
    apply (N.le_lt_trans _ (12 + maxKeySize)); [lia|reflexivity].
  - change (Server.execute s opScanOpen (scan_open_payload values size prefix)) with
      (Server.or_invalid (Server.parseScanOpen (scan_open_payload values size prefix)) s1 (fun ilp =>
         let id := Server.incr (Server.nextScan s1) in
         (Server.statusOKBody (putU64 id),
          Server.with_scans s1 (<[id := Server.mkScan (Server.scan_keys s1 (string_of ilp.2)) 0 ilp.1.2 (negb ilp.1.1)]>
                                 (Server.scans s1)) id))).
    rewrite parseScanOpen_payload by (assumption || lia). reflexivity.
  - exists id, c', s'. split; [|split; [exact Hi'|split; [repeat split|split; [exact Hid|apply lookup_insert_eq]]]].
    unfold openScan. rewrite (validateKey_ok _ Hp). eapply K_run; [reflexivity|].
    rewrite (proj2 (N.eqb_neq _ _)), (proj2 (N.ltb_ge _ _)) by lia. cbn [orb].
    eapply K_run; [exact Hreq|]. unfold lift. cbn [fst snd]. now rewrite lsn_response_ok.
Qed.

Lemma close_scan (c : client) (s : Server.Server) (id : N) :
  idle c s -> server_ok s -> (id < 2 ^ 64)%N ->
  exists c' s', Close Server.send id c = (Done (), c') /\ idle c' s' /\ same_data s s'.
Proof.
  intros Hi Hok Hid. set (s1 := Server.count_request s opScanClose).
  set (s' := Server.with_scans s1 (delete id (Server.scans s1)) (Server.nextScan s1)).
  destruct (request_answered c s s' opScanClose statusOK (scan_close_payload id) [Byte.x01])
    as (c' & Hreq & Hi');
    [exact Hi|constants|constants|reflexivity| |apply (ok_reply _ Hok)|constants|constants|constants|].
  - change (Server.execute s opScanClose (scan_close_payload id)) with
      (Server.or_invalid (Server.parseScanID (scan_close_payload id)) s1 (fun id =>
         (Server.statusOKBody [Byte.x01],
          Server.with_scans s1 (delete id (Server.scans s1)) (Server.nextScan s1)))).
    unfold scan_close_payload. rewrite <- (app_nil_r (putU64 id)), scan_id_parsed by exact Hid. reflexivity.
  - exists c', s'. split; [|split; [exact Hi'|repeat split]].
    unfold Close. eapply K_run; [exact Hreq|]. reflexivity.
Qed.

(** ** Reading a prefix *)

Lemma scan_keys_spec (s : Server.Server) (p : string) :
  StronglySorted str_le (Server.scan_keys s p) /\ NoDup (Server.scan_keys s p) /\
  forall k, k ∈ Server.scan_keys s p <-> String.prefix p k = true /\ is_Some (Server.data s !! k).
Proof.
  unfold Server.scan_keys. set (l := List.filter _ _).
  assert (Hperm : merge_sort str_le l ≡ₚ l) by apply merge_sort_Permutation.
  split; [|split].
  - apply Sorted_StronglySorted; [exact str_le_trans|]. apply Sorted_merge_sort. exact str_le_total.
  - rewrite Hperm. apply NoDup_ListNoDup, List.NoDup_filter, NoDup_ListNoDup, NoDup_fst_map_to_list.
  - intros k. rewrite Hperm. unfold l. rewrite list_elem_of_In, filter_In, <- list_elem_of_In.
    rewrite list_elem_of_fmap. split.
    + intros [([k' v] & -> & Hin) Hp]. split; [exact Hp|]. apply elem_of_map_to_list in Hin. eauto.
    + intros [Hp [v Hv]]. split; [|exact Hp]. exists (k, v). split; [reflexivity|]. now apply elem_of_map_to_list.
Qed.

Lemma server_value (s : Server.Server) (k : string) : server_ok s ->
  Server.scan_value s false k = Value (result_of (server_store s) (bytes k)).
Proof.
  intros Hok. unfold Server.scan_value, result_of. rewrite string_of_bytes.
  destruct (server_row s k Hok) as [(-> & _ & ->)|(v & l & -> & _ & -> & _)]; reflexivity.
Qed.

Lemma server_key (s : Server.Server) (k : string) : server_ok s ->
  is_Some (Server.data s !! k) <-> is_Some (rows (server_store s) !! k).
Proof.
  intros Hok. destruct (server_row s k Hok) as [(-> & _ & ->)|(v & l & -> & _ & -> & _)]; split; intros [? [=]]; eauto.
Qed.

(** Reading a prefix opens a scan, follows its pages to the last one and closes it, and gives
    the values of exactly the keys that start with the prefix, each once and in the order of the
    keys; the store is unchanged.  One page per key is enough, and more are not asked for. *)
Theorem reads_prefix (fuel : nat) (c : client) (s : Server.Server) (prefix : list byte)
    (Hidle : idle c s) (Hok : server_ok s) (Hprefix : key_ok prefix = true)
    (Hfit : pages_fit s (Server.mkScan (Server.scan_keys s (string_of prefix)) 0 scanPageSize false))
    (Hfuel : length (Server.scan_keys s (string_of prefix)) < fuel) :
  exists ks c' s',
    Reads Server.send fuel prefix c =
      (Done (Some (map (fun k => string_of (Value (result_of (server_store s) (bytes k)))) ks)), c') /\
    idle c' s' /\ server_store s' = server_store s /\
    StronglySorted str_le ks /\ NoDup ks /\
    (forall k, k ∈ ks <-> String.prefix (string_of prefix) k = true /\ is_Some (rows (server_store s) !! k)).
Proof.
  set (ks := Server.scan_keys s (string_of prefix)) in *. exists ks.
  destruct (scan_keys_spec s (string_of prefix)) as (Hsort & Hnd & Hks). fold ks in Hsort, Hnd, Hks.
  destruct (open_scan c s prefix true scanPageSize Hidle Hok Hprefix) as (id & c1 & s1 & Ho & Hi1 & Hs1 & Hid & Hsc);
    [unfold scanPageSize; lia|]. fold ks in Hsc.
  pose proof (same_data_ok _ _ Hs1 Hok) as Hok1.
  destruct (all_pages_read fuel id c1 s1 _ Hi1 Hok1 Hid Hsc) as (c2 & s2 & Hp & Hi2 & Hs2);
    cbn [Server.keys Server.limit Server.offset Server.keysOnly negb] in *.
  - intros k Hk. destruct Hs1 as (-> & _). now apply Hks.
  - unfold scanPageSize. lia.
  - intros n. unfold page_fits. rewrite (page_rest_same s s1) by exact Hs1. apply Hfit.
  - lia.
  - destruct (close_scan c2 s2 id Hi2 (same_data_ok _ _ Hs2 Hok1) Hid) as (c3 & s3 & Hc & Hi3 & Hs3).
    exists c3, s3. split; [|split; [exact Hi3|split; [|split; [exact Hsort|split; [exact Hnd|]]]]].
    + unfold Reads, Scan. eapply K_run; [exact Ho|]. unfold closing.
      match goal with |- context [(all_pages Server.send fuel id ≫= ?k) c1] =>
        rewrite (K_run (all_pages Server.send fuel id) k _ _ _ _ Hp eq_refl) end.
      unfold mret, K_ret. rewrite Hc. cbn [option_map].
      rewrite drop_0, map_map. do 3 f_equal. apply map_ext. intros k.
      rewrite (same_data_entry s s1 false k Hs1). cbn [entry_of e_Value]. now rewrite (server_value s k Hok).
    + apply same_data_store. eapply same_data_trans; [exact Hs1|]. eapply same_data_trans; eauto.
    + intros k. rewrite Hks. now rewrite (server_key s k Hok).
Qed.

(** When all the entries fit in one frame, so does every page. *)
Lemma pages_fit_all (s : Server.Server) (sc : Server.scan) :
  (10 + len (concat (map (Server.scan_entry s (Server.keysOnly sc)) (Server.keys sc))) <= maxFrameSize)%N ->
  pages_fit s sc.
Proof.
  intros H n. unfold page_fits, page_rest, page_of, Server.page_keys. cbn [Server.keys Server.offset Server.keysOnly].
  set (count := Server.page_count _). set (done := Server.page_done _). rewrite map_map.
  change (fun x : string => page_entry (entry_of s (Server.keysOnly sc) x)) with (Server.scan_entry s (Server.keysOnly sc)).
  rewrite !len_app. change (len [Server.flag done]) with 1%N. change (len (zeros 3)) with 3%N.
  change (len (putU32 (N.of_nat count))) with 4%N.
  rewrite <- (take_drop n (Server.keys sc)), map_app, concat_app, len_app in H.
  rewrite <- (take_drop count (drop n (Server.keys sc))), map_app, concat_app, len_app in H. lia.
Qed.

Definition ex_server : Server.Server :=
  Server.commit Server.New [mkBatchOp batchPut (bytes "b:2") (bytes "two"); mkBatchOp batchPut (bytes "b:1") (bytes "one");
                            mkBatchOp batchPut (bytes "c") (bytes "three")].

Lemma reads_prefix_witness :
  exists ks c' s',
    Reads Server.send 3 (bytes "b:") (NewKVClient (Server.mkConnection ex_server [] false)) =
      (Done (Some (map (fun k => string_of (Value (result_of (server_store ex_server) (bytes k)))) ks)), c') /\
    idle c' s' /\ server_store s' = server_store ex_server /\
    StronglySorted str_le ks /\ NoDup ks /\
    (forall k, k ∈ ks <-> String.prefix "b:" k = true /\ is_Some (rows (server_store ex_server) !! k)).
Proof.
  apply (reads_prefix 3 _ ex_server (bytes "b:")).
  - exists 1%N. split; reflexivity.
  - apply commit_ok; [reflexivity|reflexivity|exact server_new].
  - reflexivity.
  - apply pages_fit_all. vm_compute. discriminate.
  - vm_compute. lia.
Defined.

Example ex_reads :
  fst (Reads Server.send 3 (bytes "b:") (NewKVClient (Server.mkConnection ex_server [] false))) =
  Done (Some ["one"%string; "two"%string]).
Proof. vm_compute. reflexivity. Qed.
