(* ===== verification/Pool.v ===== *)
(** * The connection pool (pkg/storage/kv.go)

    [KVPool]: a buffered channel of connections, from which [WithClient] takes one and to which it
    returns it or an empty slot, and which [Close] closes and drains.  The threads that use the
    pool interleave between the steps the code makes atomic: a critical section on [mu], a channel
    operation, a dial.  A connection is identified by a number, never reused.

    The properties: no slot is lost while the pool is open, no connection is in two places at once, and the race
    between returning a connection and closing the pool. *)
From Stdlib Require Import NArith ZArith Lia.
From stdpp Require Import base option list gmap sets.
From S2P Require Import Prelude Bytes Wire KVClient.
#[local] Set Warnings "-clear-no-such-hyp".

Module Pool.

Abbreviation thread := positive.
Abbreviation connection := nat.

(** [pool] is the content of the channel, whose capacity is [size]; [None] is a nil client, a slot
    whose connection is to be dialled again.  [closed] is the flag, [chan_closed] the channel.
    [dead] are the connections that have been closed, [next] numbers the next one. *)
Record KVPool : Type := mkKVPool {
  pool : list (option connection);
  size : nat;
  closed : bool;
  chan_closed : bool;
  dead : gset connection;
  next : connection
}.

(** [NewKVPool], when every dial succeeds. *)
Definition NewKVPool (n : nat) : KVPool := mkKVPool (map Some (seq 0 n)) n false false ∅ n.

(** The non-blocking send of a slot: [None] is the panic of a send on a closed channel, and the
    boolean tells whether the slot was taken. *)
Definition send (p : KVPool) (slot : option connection) : option (KVPool * bool) :=
  if chan_closed p then None
  else if (length (pool p) <? size p)%nat
  then Some (mkKVPool (pool p ++ [slot]) (size p) (closed p) (chan_closed p) (dead p) (next p), true)
  else Some (p, false).

Definition close_client (p : KVPool) (c : connection) : KVPool :=
  mkKVPool (pool p) (size p) (closed p) (chan_closed p) ({[c]} ∪ dead p) (next p).

(** The critical section that gives back an empty slot, unless the pool has been closed. *)
Definition return_nil (p : KVPool) : option KVPool :=
  if closed p then Some p else option_map fst (send p None).

(** Where a thread is: nowhere; in [Get] before the receive; with a connection to check; about to
    dial; using a connection; in [Put] between the critical section and the send; in [Close]
    between the flag and the channel; stopped by a panic. *)
Inductive pc : Set :=
  | Idle
  | Receiving
  | Checking (c : connection)
  | Replacing
  | Holding (c : connection)
  | Sending (c : connection)
  | Closing
  | Panicked.

Record sys : Type := mkSys { the_pool : KVPool; threads : gmap thread pc }.

Definition at_pc (y : sys) (t : thread) : pc := default Idle (threads y !! t).

Definition goto (y : sys) (p : KVPool) (t : thread) (c : pc) : sys := mkSys p (<[t := c]> (threads y)).

(** What happens next to a thread; the labels carry what the environment decides. *)
Inductive label : Set :=
  | LGet              (** [Get] tests the flag *)
  | LReceive          (** the receive, from a channel that is not empty or is closed *)
  | LTimeout          (** 30 seconds without a connection *)
  | LCheck (alive : bool)  (** the age and liveness test of a connection *)
  | LDial (ok : bool) (** [replacementClient] *)
  | LDone (fails : bool)  (** [fn] returns, with a connection error or without *)
  | LSend             (** the send of [Put] *)
  | LClose            (** [Close] sets the flag *)
  | LCloseChannel.    (** [Close] closes and drains the channel *)

Definition with_slots (p : KVPool) (l : list (option connection)) : KVPool :=
  mkKVPool l (size p) (closed p) (chan_closed p) (dead p) (next p).

Definition step (t : thread) (l : label) (y : sys) : option sys :=
  let p := the_pool y in
  match l, at_pc y t with
  | LGet, Idle => Some (if closed p then y else goto y p t Receiving)
  | LReceive, Receiving =>
      match pool p with
      | Some c :: rest => Some (goto y (with_slots p rest) t (Checking c))
      | None :: rest => Some (goto y (with_slots p rest) t Replacing)
      | [] => if chan_closed p then Some (goto y p t Replacing) else None
      end
  | LTimeout, Receiving => Some (goto y p t Idle)
  | LCheck alive, Checking c =>
      Some (if alive : bool then goto y p t (Holding c) else goto y (close_client p c) t Replacing)
  | LDial true, Replacing =>
      Some (goto y (mkKVPool (pool p) (size p) (closed p) (chan_closed p) (dead p) (S (next p))) t
              (Holding (next p)))
  | LDial false, Replacing =>
      match return_nil p with
      | Some p => Some (goto y p t Idle)
      | None => Some (goto y p t Panicked)
      end
  | LDone true, Holding c =>
      let p := close_client p c in
      match return_nil p with
      | Some p => Some (goto y p t Idle)
      | None => Some (goto y p t Panicked)
      end
  | LDone false, Holding c =>
      Some (if closed p then goto y (close_client p c) t Idle else goto y p t (Sending c))
  | LSend, Sending c =>
      match send p (Some c) with
      | None => Some (goto y p t Panicked)
      | Some (p, true) => Some (goto y p t Idle)
      | Some (p, false) => Some (goto y (close_client p c) t Idle)
      end
  | LClose, Idle =>
      Some (if closed p then y
            else goto y (mkKVPool (pool p) (size p) true (chan_closed p) (dead p) (next p)) t Closing)
  | LCloseChannel, Closing =>
      Some (goto y (mkKVPool [] (size p) (closed p) true
                      (list_to_set (omap id (pool p)) ∪ dead p) (next p)) t Idle)
  | _, _ => None
  end.

Fixpoint run (trace : list (thread * label)) (y : sys) : option sys :=
  match trace with
  | [] => Some y
  | (t, l) :: rest => y ← step t l y; run rest y
  end.

Definition start (n : nat) : sys := mkSys (NewKVPool n) ∅.

(** ** Slots and connections *)

(** A thread that took a slot and has not given it back. *)
Definition owes (c : pc) : bool :=
  match c with Checking _ | Replacing | Holding _ | Sending _ => true | _ => false end.

Definition conn_of (c : pc) : option connection :=
  match c with Checking c | Holding c | Sending c => Some c | _ => None end.

Definition debtors (y : sys) : gset thread := dom (filter (fun x => owes x.2 = true) (threads y)).

(** While the pool is open, so is the channel, no thread is closing it, and the slots in the channel
    and those threads owe make up its size. *)
Definition slots_kept (y : sys) : Prop :=
  closed (the_pool y) = false ->
  chan_closed (the_pool y) = false /\ (forall t, at_pc y t <> Closing) /\
  length (pool (the_pool y)) + base.size (debtors y) = size (the_pool y).

(** A connection is in one place: one thread, or one slot; and it is one of those numbered. *)
Record owned (y : sys) : Prop := {
  own_threads : forall t t' c, conn_of (at_pc y t) = Some c -> conn_of (at_pc y t') = Some c -> t = t';
  own_slots : NoDup (omap id (pool (the_pool y)));
  own_apart : forall t c, conn_of (at_pc y t) = Some c -> ~ (Some c ∈ pool (the_pool y));
  own_used : forall t c, conn_of (at_pc y t) = Some c -> c < next (the_pool y);
  own_free : forall c, Some c ∈ pool (the_pool y) -> c < next (the_pool y)
}.

Lemma at_goto (y : sys) (p : KVPool) (t t' : thread) (c : pc) :
  at_pc (goto y p t c) t' = if decide (t' = t) then c else at_pc y t'.
Proof.
  unfold at_pc, goto. cbn. case_decide as H; [subst; now rewrite lookup_insert_eq|].
  now rewrite lookup_insert_ne by congruence.
Qed.

Lemma debtors_spec (y : sys) (t : thread) : t ∈ debtors y <-> owes (at_pc y t) = true.
Proof.
  unfold debtors, at_pc. rewrite elem_of_dom. split.
  - intros [c Hc]. apply map_lookup_filter_Some in Hc as [-> H]. exact H.
  - destruct (threads y !! t) as [c|] eqn:E; cbn; [|discriminate]. intros H. exists c.
    now apply map_lookup_filter_Some.
Qed.

Lemma debtors_goto (y : sys) (p : KVPool) (t : thread) (c : pc) :
  debtors (goto y p t c) = if owes c then {[t]} ∪ debtors y else debtors y ∖ {[t]}.
Proof.
  apply set_eq. intros t'. rewrite debtors_spec, at_goto.
  destruct (owes c) eqn:E; case_decide as H; subst;
    rewrite ?E, ?elem_of_union, ?elem_of_difference, ?elem_of_singleton, ?debtors_spec; intuition congruence.
Qed.

(** How many slots are owed after a step of [t]. *)
Lemma debt (y : sys) (p : KVPool) (t : thread) (c : pc) :
  base.size (debtors (goto y p t c)) + (if owes (at_pc y t) then 1 else 0) =
  base.size (debtors y) + (if owes c then 1 else 0).
Proof.
  rewrite debtors_goto. pose proof (debtors_spec y t) as Ht.
  destruct (owes c) eqn:Ec, (owes (at_pc y t)) eqn:Eo.
  - assert (t ∈ debtors y) by now apply Ht.
    assert ({[t]} ∪ debtors y = debtors y) as -> by set_solver. lia.
  - assert (~ (t ∈ debtors y)) by (intros H; apply Ht in H; discriminate).
    rewrite size_union by set_solver. rewrite size_singleton. lia.
  - assert (t ∈ debtors y) by now apply Ht.
    rewrite size_difference by set_solver. rewrite size_singleton.
    assert (base.size (debtors y) <> 0) by (intros H0; apply size_empty_inv in H0; set_solver). lia.
  - assert (~ (t ∈ debtors y)) by (intros H; apply Ht in H; discriminate).
    assert (debtors y ∖ {[t]} = debtors y) as -> by set_solver. lia.
Qed.

End Pool.
Import Pool.

(** ** Properties of the connection pool *)

(** ** Slots *)

(** A step that moves [t] to [c] and changes the channel by as many slots as [t] took or gave. *)
Lemma slots_goto (y : sys) (p : KVPool) (t : thread) (c : pc) :
  slots_kept y -> (closed p = false -> closed (the_pool y) = false) ->
  chan_closed p = chan_closed (the_pool y) -> size p = size (the_pool y) -> c <> Closing ->
  (closed p = false ->
   length (pool p) + (if owes c then 1 else 0) =
   length (pool (the_pool y)) + (if owes (at_pc y t) then 1 else 0)) ->
  slots_kept (goto y p t c).
Proof.
  intros H Hcl Hch Hsize Hc Hlen Hopen. cbn [the_pool goto] in *.
  destruct (H (Hcl Hopen)) as (H1 & H2 & H3). split; [congruence|]. split.
  - intros t'. rewrite at_goto. case_decide; auto.
  - pose proof (debt y p t c). specialize (Hlen Hopen). lia.
Qed.

Lemma slots_closed (y : sys) (p : KVPool) (t : thread) (c : pc) :
  closed p = true -> slots_kept (goto y p t c).
Proof. intros E Hopen. cbn in Hopen. congruence. Qed.

Lemma return_nil_spec (p : KVPool) :
  (closed p = false -> chan_closed p = false /\ length (pool p) < size p) ->
  exists p', return_nil p = Some p' /\ closed p' = closed p /\ chan_closed p' = chan_closed p /\
    size p' = size p /\ next p' = next p /\
    (closed p = true /\ p' = p \/ closed p = false /\ pool p' = pool p ++ [None]).
Proof.
  intros H. unfold return_nil, send. destruct (closed p) eqn:E.
  - exists p. repeat split; auto.
  - destruct (H eq_refl) as [-> Hl]. rewrite (proj2 (Nat.ltb_lt _ _)) by exact Hl.
    eexists. repeat split; cbn; auto.
Qed.

(** A thread that owes a slot leaves room in the channel. *)
Lemma room (y : sys) (t : thread) :
  slots_kept y -> owes (at_pc y t) = true -> closed (the_pool y) = false ->
  chan_closed (the_pool y) = false /\ length (pool (the_pool y)) < size (the_pool y).
Proof.
  intros H Ho Hc. destruct (H Hc) as (H1 & _ & H2). split; [exact H1|].
  assert (base.size (debtors y) <> 0); [|lia]. intros H0. apply size_empty_inv in H0.
  apply debtors_spec in Ho. set_solver.
Qed.

(** Giving back an empty slot. *)
Lemma slots_return (y : sys) (p : KVPool) (t : thread) :
  slots_kept y -> owes (at_pc y t) = true -> pool p = pool (the_pool y) -> closed p = closed (the_pool y) ->
  chan_closed p = chan_closed (the_pool y) -> size p = size (the_pool y) ->
  exists p', return_nil p = Some p' /\ next p' = next p /\
    (pool p' = pool p \/ pool p' = pool p ++ [None]) /\ slots_kept (goto y p' t Idle).
Proof.
  intros H Ho E1 E2 E3 E4. destruct (return_nil_spec p) as (p' & Hp & F1 & F2 & F3 & F4 & F5).
  { rewrite E1, E2, E3, E4. now apply (room y t). }
  exists p'. split; [exact Hp|]. split; [exact F4|]. destruct F5 as [[F5 ->]|[F5 F6]].
  - split; [now left|]. now apply slots_closed.
  - split; [now right|]. apply slots_goto;
      [exact H|intros; congruence|congruence|congruence|discriminate|].
    intros _. rewrite F6, Ho, length_app, E1. cbn. lia.
Qed.

(** The cases of a step. *)
Ltac step_cases y t :=
  unfold step;
  match goal with
  | |- match ?l with _ => _ end = _ -> _ => destruct l as [| | |alive|[]|[]| | |]
  end;
  destruct (at_pc y t) as [| |c| |c|c| |] eqn:Hat; try discriminate.

Lemma slots_step (t : thread) (l : label) (y y' : sys) :
  slots_kept y -> step t l y = Some y' -> slots_kept y'.
Proof.
  intros H. step_cases y t.
  - destruct (closed (the_pool y)) eqn:E; intros [= <-]; [exact H|].
    apply slots_goto; auto; try discriminate. intros _. now rewrite Hat.
  - destruct (pool (the_pool y)) as [|[c|] rest] eqn:E; [destruct (chan_closed (the_pool y)) eqn:Ec| |];
      intros [= <-].
    + intros Hopen. cbn [the_pool goto] in Hopen. destruct (H Hopen). congruence.
    + apply slots_goto; auto; try discriminate. intros _. rewrite Hat, E. cbn. lia.
    + apply slots_goto; auto; try discriminate. intros _. rewrite Hat, E. cbn. lia.
  - intros [= <-]. apply slots_goto; auto; try discriminate. intros _. now rewrite Hat.
  - destruct alive; intros [= <-]; apply slots_goto; auto; try discriminate; intros _; now rewrite Hat.
  - intros [= <-]. apply slots_goto; auto; try discriminate. intros _. now rewrite Hat.
  - destruct (slots_return y (the_pool y) t) as (p & -> & _ & _ & Hp); auto; [now rewrite Hat|].
    now intros [= <-].
  - destruct (slots_return y (close_client (the_pool y) c) t) as (p & -> & _ & _ & Hp); auto; [now rewrite Hat|].
    now intros [= <-].
  - destruct (closed (the_pool y)) eqn:E; intros [= <-]; [now apply slots_closed|].
    apply slots_goto; auto; try discriminate. intros _. now rewrite Hat.
  - unfold send. destruct (chan_closed (the_pool y)) eqn:Ec.
    + intros [= <-] Hopen. cbn [the_pool goto] in *. destruct (H Hopen). congruence.
    + destruct (Nat.ltb_spec (length (pool (the_pool y))) (size (the_pool y))) as [Hl|Hl]; intros [= <-].
      * apply slots_goto; auto; try discriminate. intros _. rewrite Hat. cbn. rewrite length_app. cbn. lia.
      * apply slots_goto; auto; try discriminate. intros Hopen.
        destruct (room y t H) as [_ Hr]; [now rewrite Hat|exact Hopen|]. lia.
  - destruct (closed (the_pool y)) eqn:E; intros [= <-]; [exact H|]. now apply slots_closed.
  - intros [= <-] Hopen. cbn in Hopen. destruct (H Hopen) as (_ & Hc & _). now destruct (Hc t).
Qed.

(** ** Connections *)

(** A step that moves [t] to [c], when [c]'s connection comes from [t] or from a slot that goes. *)
Lemma owned_goto (y : sys) (p : KVPool) (t : thread) (c : pc) :
  owned y -> NoDup (omap id (pool p)) -> next (the_pool y) <= next p ->
  (forall x, Some x ∈ pool p -> Some x ∈ pool (the_pool y) \/ conn_of (at_pc y t) = Some x) ->
  (forall x, conn_of c = Some x ->
     ~ (Some x ∈ pool p) /\
     (conn_of (at_pc y t) = Some x \/ Some x ∈ pool (the_pool y) \/ next (the_pool y) <= x < next p)) ->
  owned (goto y p t c).
Proof.
  intros [O1 O2 O3 O4 O5] Hnd Hnext Hpool Hc.
  assert (Hother : forall t' x, t' <> t -> conn_of (at_pc y t') = Some x -> conn_of c <> Some x).
  { intros t' x Hne Hx E. destruct (Hc x E) as [_ [H|[H|H]]].
    - apply Hne. eapply O1; eauto.
    - eapply O3; eauto.
    - specialize (O4 _ _ Hx). lia. }
  split.
  - intros t1 t2 x. rewrite !at_goto. repeat case_decide; subst; auto; intros H1 H2.
    + now destruct (Hother t2 x).
    + now destruct (Hother t1 x).
    + eapply O1; eauto.
  - exact Hnd.
  - intros t' x. rewrite at_goto. case_decide as Ht; intros Hx; cbn [the_pool goto]; [now apply Hc|].
    intros Hin. destruct (Hpool x Hin) as [H|H]; [eapply O3; eauto|]. apply Ht. eapply O1; eauto.
  - intros t' x. rewrite at_goto. case_decide as Ht; intros Hx; cbn [the_pool goto].
    + destruct (Hc x Hx) as [_ [H|[H|H]]]; [specialize (O4 _ _ H)|specialize (O5 _ H)|]; lia.
    + specialize (O4 _ _ Hx). lia.
  - cbn [the_pool goto]. intros x Hin. destruct (Hpool x Hin) as [H|H]; [specialize (O5 _ H)|specialize (O4 _ _ H)]; lia.
Qed.

Lemma in_omap_id (l : list (option connection)) (x : connection) : x ∈ omap id l <-> Some x ∈ l.
Proof. rewrite list_elem_of_omap. split; [intros (o & H & E); cbn in E; now subst|intros H; now exists (Some x)]. Qed.

Lemma owned_step (t : thread) (l : label) (y y' : sys) :
  slots_kept y -> owned y -> step t l y = Some y' -> owned y'.
Proof.
  intros HS HO. pose proof HO as [O1 O2 O3 O4 O5]. step_cases y t.
  - destruct (closed (the_pool y)); intros [= <-]; [exact HO|]. apply owned_goto; auto. discriminate.
  - destruct (pool (the_pool y)) as [|[c|] rest] eqn:E; [destruct (chan_closed (the_pool y))| |]; intros [= <-].
    + apply owned_goto; auto; [rewrite E; constructor|discriminate].
    + cbn in O2. apply NoDup_cons in O2 as [Hn O2].
      apply owned_goto; auto; cbn.
      * intros x Hx. left. rewrite E. now right.
      * intros x [= <-]. split; [now rewrite <- in_omap_id|]. right. left. rewrite E. now left.
    + apply owned_goto; auto; cbn; [|discriminate]. intros x Hx. left. rewrite E. now right.
  - intros [= <-]. apply owned_goto; auto. discriminate.
  - destruct alive; intros [= <-]; apply owned_goto; auto; try discriminate.
    intros x Hx. rewrite Hat. split; [|now left]. apply (O3 t). rewrite Hat. exact Hx.
  - intros [= <-]. apply owned_goto; auto; cbn; [lia|]. intros x [= <-]. split; [|right; right; lia].
    intros Hin. specialize (O5 _ Hin). lia.
  - destruct (slots_return y (the_pool y) t) as (p & -> & En & Ep & _); auto; [now rewrite Hat|].
    intros [= <-]. apply owned_goto; auto; try discriminate; try lia.
    + destruct Ep as [->| ->]; [exact O2|]. rewrite omap_app. cbn. now rewrite app_nil_r.
    + intros x. destruct Ep as [->| ->]; [now left|]. rewrite elem_of_app, list_elem_of_singleton. intros [H|[=]]. now left.
  - destruct (slots_return y (close_client (the_pool y) c) t) as (p & -> & En & Ep & _); auto; [now rewrite Hat|].
    intros [= <-]. apply owned_goto; auto; try discriminate; cbn in *; try lia.
    + destruct Ep as [->| ->]; [exact O2|]. rewrite omap_app. cbn. now rewrite app_nil_r.
    + intros x. destruct Ep as [->| ->]; [now left|]. rewrite elem_of_app, list_elem_of_singleton. intros [H|[=]]. now left.
  - destruct (closed (the_pool y)); intros [= <-]; apply owned_goto; auto; try discriminate.
    intros x Hx. rewrite Hat. split; [|now left]. apply (O3 t). rewrite Hat. exact Hx.
  - unfold send. destruct (chan_closed (the_pool y)); [|destruct (length _ <? _)]; intros [= <-];
      apply owned_goto; auto; try discriminate; cbn.
    + rewrite omap_app. cbn. apply NoDup_app. split; [exact O2|]. split; [|apply NoDup_singleton].
      intros x Hx. rewrite list_elem_of_singleton. intros ->. apply in_omap_id in Hx.
      apply (O3 t c); [now rewrite Hat|exact Hx].
    + intros x. rewrite elem_of_app, list_elem_of_singleton, Hat. intros [H|[= ->]]; auto.
  - destruct (closed (the_pool y)); intros [= <-]; [exact HO|]. apply owned_goto; auto. discriminate.
  - intros [= <-]. apply owned_goto; auto; cbn; try discriminate; [constructor|].
    intros x Hx. now apply elem_of_nil in Hx.
Qed.

(** ** Reachable states *)

Lemma slots_start (n : nat) : slots_kept (start n).
Proof.
  intros _. split; [reflexivity|]. split.
  - intros t. unfold at_pc. cbn. rewrite lookup_empty. discriminate.
  - cbn. rewrite length_map, length_seq. unfold debtors. cbn.
    rewrite map_filter_empty, dom_empty_L, size_empty. lia.
Qed.

Lemma owned_start (n : nat) : owned (start n).
Proof.
  assert (H : forall t, conn_of (at_pc (start n) t) = None)
    by (intros t; unfold at_pc; cbn; now rewrite lookup_empty).
  split; try (intros t; rewrite H; discriminate).
  - cbn. assert (E : omap id (map Some (seq 0 n)) = seq 0 n) by (induction (seq 0 n); cbn; congruence).
    rewrite E. apply NoDup_seq.
  - cbn. intros c Hc. apply list_elem_of_fmap in Hc as (x & [= ->] & Hx). apply elem_of_seq in Hx. lia.
Qed.

Lemma run_kept (trace : list (thread * label)) : forall y y',
  slots_kept y -> owned y -> run trace y = Some y' -> slots_kept y' /\ owned y'.
Proof.
  induction trace as [|[t l] trace IH]; intros y y' HS HO; cbn [run].
  - now intros [= <-].
  - destruct (step t l y) as [y1|] eqn:E; [|discriminate]. apply IH.
    + eapply slots_step; eauto.
    + eapply owned_step; eauto.
Qed.

(** However the threads that share a pool interleave, and whichever dials, checks and requests
    fail, a connection is held by one thread or waits in one slot, never two; and as long as the
    pool is open the slots in the channel and the slots the threads owe add up to the pool's
    size, so no slot is lost and returning one never finds the channel full. *)
Theorem pool_keeps_slots (n : nat) (trace : list (thread * label)) (y : sys)
    (Hrun : run trace (start n) = Some y) :
  (forall t t' c, conn_of (at_pc y t) = Some c -> conn_of (at_pc y t') = Some c -> t = t') /\
  (forall t c, conn_of (at_pc y t) = Some c -> ~ (Some c ∈ pool (the_pool y))) /\
  NoDup (omap id (pool (the_pool y))) /\
  (closed (the_pool y) = false ->
   length (pool (the_pool y)) + base.size (debtors y) = size (the_pool y) /\
   forall t, owes (at_pc y t) = true -> length (pool (the_pool y)) < size (the_pool y)).
Proof.
  destruct (run_kept trace _ _ (slots_start n) (owned_start n) Hrun) as [HS [O1 O2 O3 _ _]].
  split; [exact O1|]. split; [exact O3|]. split; [exact O2|]. intros Hopen.
  destruct (HS Hopen) as (_ & _ & H). split; [exact H|]. intros t Ht. now apply (room y t).
Qed.

(** Two threads take the two connections of a pool; the first request breaks its connection. *)
Definition two_users : list (thread * label) :=
  [(1%positive, LGet); (1%positive, LReceive); (2%positive, LGet); (2%positive, LReceive);
   (1%positive, LCheck true); (1%positive, LDone true); (2%positive, LCheck true)].

Lemma pool_keeps_slots_witness :
  exists y, run two_users (start 2) = Some y /\
    length (pool (the_pool y)) + base.size (debtors y) = size (the_pool y).
Proof.
  destruct (run two_users (start 2)) as [y|] eqn:E; [|vm_compute in E; discriminate].
  exists y. split; [reflexivity|].
  apply (pool_keeps_slots 2 two_users y E). vm_compute in E. injection E as <-. reflexivity.
Defined.

(** [Put] tests the flag in a critical section and sends after it; a [Close] that runs in
    between closes the channel, and the send panics. *)
Theorem put_close_race :
  exists y, run [(1%positive, LGet); (1%positive, LReceive); (1%positive, LCheck true);
                 (1%positive, LDone false); (2%positive, LClose); (2%positive, LCloseChannel);
                 (1%positive, LSend)] (start 1) = Some y /\
    at_pc y 1%positive = Panicked.
Proof. eexists. split; vm_compute; reflexivity. Qed.
