(* ===== verification/Float.v ===== *)
(** * Floating-point numbers of the standard library

    What the program uses of Go's float64 and float32: IEEE 754 values ([spec_float]) and their
    bits, [strconv.ParseFloat], [strconv.FormatFloat] with the shortest precision, the conversions
    from and to int64.  All of it is computed on integers: a decimal is rounded once, exactly. *)
From Stdlib Require Import NArith ZArith Lia Bool Ascii String List Floats.SpecFloat.
From S2P Require Import Prelude.
Import ListNotations.

#[local] Open Scope Z_scope.

(** A binary format: the bits of the mantissa with the implicit one, the exponent of the infinities. *)
Record format : Set := mkFormat { prec : Z; emax : Z; total_bits : Z }.

Definition binary64 : format := mkFormat 53 1024 64.
Definition binary32 : format := mkFormat 24 128 32.

Definition round_int (f : format) (z : Z) : spec_float := binary_normalize (prec f) (emax f) z 0 false.

(** ** Bits *)

(** [math.Float64frombits]; every NaN is one value. *)
Definition of_bits (f : format) (n : N) : spec_float :=
  let z := Z.of_N n in
  let mb := prec f - 1 in
  let m := z mod 2 ^ mb in
  let e := (z / 2 ^ mb) mod (2 ^ (total_bits f - prec f)) in
  let s := Z.testbit z (total_bits f - 1) in
  if e =? 2 ^ (total_bits f - prec f) - 1
  then (if m =? 0 then S754_infinity s else S754_nan)
  else
    let mant := if e =? 0 then m else m + 2 ^ mb in
    let exp := Z.max e 1 + 3 - emax f - prec f - 1 in
    match mant with
    | Zpos p => S754_finite s p exp
    | _ => S754_zero s
    end.

(** [math.Float64bits]; a NaN has the bits of [math.NaN()]. *)
Definition to_bits (f : format) (x : spec_float) : N :=
  let mb := prec f - 1 in
  let sign (s : bool) := if s then 2 ^ (total_bits f - 1) else 0 in
  let top := 2 ^ (total_bits f - prec f) - 1 in
  Z.to_N
    match x with
    | S754_zero s => sign s
    | S754_infinity s => sign s + top * 2 ^ mb
    | S754_nan => top * 2 ^ mb + 2 ^ (mb - 1) + (if total_bits f =? 64 then 1 else 0)
    | S754_finite s m e =>
        if Zpos m <? 2 ^ mb then sign s + Zpos m
        else sign s + (e - (3 - emax f - prec f) + 1) * 2 ^ mb + (Zpos m - 2 ^ mb)
    end.

Definition is_zero (x : spec_float) : bool := match x with S754_zero _ => true | _ => false end.
Definition is_inf (x : spec_float) : bool := match x with S754_infinity _ => true | _ => false end.

(** ** Integers *)

(** The integer part, towards zero. *)
Definition trunc_to_Z (x : spec_float) : option Z :=
  match x with
  | S754_zero _ => Some 0
  | S754_finite s m e =>
      let a := if 0 <=? e then Zpos m * 2 ^ e else Zpos m / 2 ^ (- e) in
      Some (if s then - a else a)
  | _ => None
  end.

(** [int64(x)]: out of range the result is the one of amd64, the least integer. *)
Definition int64_of_float (x : spec_float) : Z :=
  match trunc_to_Z x with
  | Some z => if (- 2 ^ 63 <=? z) && (z <? 2 ^ 63) then z else - 2 ^ 63
  | None => - 2 ^ 63
  end.

(** [x == math.Trunc(x)]: false for a NaN, true for the infinities. *)
Definition is_integral (x : spec_float) : bool :=
  match x with
  | S754_zero _ | S754_infinity _ => true
  | S754_nan => false
  | S754_finite _ m e => (0 <=? e) || (Zpos m mod 2 ^ (- e) =? 0)
  end.

(** ** Decimals

    [m * 10 ^ e], rounded to nearest, ties to even. *)
Definition of_decimal (f : format) (s : bool) (m e : Z) : spec_float :=
  match m with
  | Zpos p =>
      if 0 <=? e then binary_round (prec f) (emax f) s (p * Z.to_pos (10 ^ e)) 0
      else let '(q, x, l) := SFdiv_core_binary (prec f) (emax f) (Zpos p) 0 (10 ^ (- e)) 0 in
           binary_round_aux (prec f) (emax f) s q x l
  | _ => S754_zero s
  end.

(** [m * 2 ^ e], for hexadecimal literals. *)
Definition of_binary (f : format) (s : bool) (m e : Z) : spec_float :=
  match m with
  | Zpos p => binary_round (prec f) (emax f) s p e
  | _ => S754_zero s
  end.

(** ** [strconv.ParseFloat] *)

Definition digit_of (c : ascii) : option Z :=
  if ("0" <=b c) && (c <=b "9") then Some (Z.of_N (N_of_ascii c) - 48) else None.

Definition hex_digit_of (c : ascii) : option Z :=
  match digit_of c with
  | Some d => Some d
  | None => let c := lower_byte c in
            if ("a" <=b c) && (c <=b "f") then Some (Z.of_N (N_of_ascii c) - 87) else None
  end.

(** The digits of a mantissa: the value, the digits seen after the point, whether there was a digit
    and whether there was a point; then the rest.  Underscores are skipped. *)
Fixpoint mantissa (hex : bool) (s : string) (m frac : Z) (seen point : bool)
    : Z * Z * bool * string :=
  match s with
  | EmptyString => (m, frac, seen, s)
  | String c r =>
      if c =b "_" then mantissa hex r m frac seen point
      else if c =b "." then
        (if point then (m, frac, seen, s) else mantissa hex r m frac seen true)
      else match (if hex then hex_digit_of c else digit_of c) with
           | Some d => mantissa hex r ((if hex then 16 else 10) * m + d)
                         (if point then frac + 1 else frac) true point
           | None => (m, frac, seen, s)
           end
  end.

(** The digits of an exponent; the value stops growing at 10000. *)
Fixpoint exponent (s : string) (e : Z) : Z * string :=
  match s with
  | EmptyString => (e, s)
  | String c r =>
      if c =b "_" then exponent r e
      else match digit_of c with
           | Some d => exponent r (if e <? 10000 then 10 * e + d else e)
           | None => (e, s)
           end
  end.

Definition is_some {A} (o : option A) : bool := match o with Some _ => true | None => false end.

(** [underscoreOK]: an underscore stands between digits, or after a base prefix. *)
Fixpoint underscores_ok (hex : bool) (s : string) (saw : ascii) : bool :=
  match s with
  | EmptyString => negb (saw =b "_")
  | String c r =>
      if is_some (if hex then hex_digit_of c else digit_of c) then underscores_ok hex r "0"%char
      else if c =b "_" then (saw =b "0") && underscores_ok hex r "_"
      else negb (saw =b "_") && underscores_ok hex r "!"
  end.

Definition strip_sign (s : string) : bool * string :=
  match s with
  | String c r => if c =b "+" then (false, r) else if c =b "-" then (true, r) else (false, s)
  | EmptyString => (false, s)
  end.

Definition underscoreOK (s : string) : bool :=
  match snd (strip_sign s) with
  | String "0" (String p r) =>
      let p := lower_byte p in
      if (p =b "b") || (p =b "o") || (p =b "x") then underscores_ok (p =b "x") r "0"%char
      else underscores_ok false (snd (strip_sign s)) "^"%char
  | s => underscores_ok false s "^"%char
  end.

Fixpoint ascii_lower (s : string) : string :=
  match s with EmptyString => EmptyString | String c r => String (lower_byte c) (ascii_lower r) end.

(** [special]: the infinities and NaN; a sign excludes NaN. *)
Definition special (s : string) : option spec_float :=
  let (neg, r) := strip_sign s in
  let r' := ascii_lower r in
  if (r' =s "inf") || (r' =s "infinity") then Some (S754_infinity neg)
  else if (r' =s "nan") && (r =s s) then Some S754_nan
  else None.

(** [readFloat] and the rounding: [None] for a syntax error. *)
Definition read_number (f : format) (s : string) : option spec_float :=
  let (neg, r) := strip_sign s in
  let (hex, r) := match r with
                  | String "0" (String x (String c r')) =>
                      if lower_byte x =b "x" then (true, String c r') else (false, r)
                  | _ => (false, r)
                  end in
  let '(m, frac, seen, r) := mantissa hex r 0 0 false false in
  if negb seen then None
  else
    let exp_char := if hex then "p"%char else "e"%char in
    let parsed :=
      match r with
      | String c r' =>
          if lower_byte c =b exp_char then
            let (esign, r'') := strip_sign r' in
            match r'' with
            | String d _ =>
                match digit_of d with
                | Some _ => let (e, rest) := exponent r'' 0 in Some (if esign then - e else e, true, rest)
                | None => None
                end
            | EmptyString => None
            end
          else Some (0, false, r)
      | EmptyString => Some (0, false, r)
      end in
    match parsed with
    | Some (e, has_exp, EmptyString) =>
        if hex && negb has_exp then None
        else if negb (count_byte "_" s =? 0)%nat && negb (underscoreOK s) then None
        else Some (if hex then of_binary f neg m (e - 4 * frac) else of_decimal f neg m (e - frac))
    | _ => None
    end.

(** The value, unless there is an error: a syntax error, or an overflow of a finite literal. *)
Definition ParseFloat (f : format) (s : string) : option spec_float :=
  match special s with
  | Some x => Some x
  | None => match read_number f s with
            | Some x => if is_inf x then None else Some x
            | None => None
            end
  end.

(** ** [strconv.FormatFloat] with precision -1 *)

(** The decimal digits of a non-negative integer. *)
Definition decimal (z : Z) : string := itoa (Z.to_N z).

Definition itoaZ (z : Z) : string := if z <? 0 then String "-" (decimal (- z)) else decimal z.

(** The numerator and denominator of a positive finite value. *)
Definition ratio (m : positive) (e : Z) : Z * Z :=
  if 0 <=? e then (Zpos m * 2 ^ e, 1) else (Zpos m, 2 ^ (- e)).

(** The number of decimal digits of the integer part of [a / b], or minus the number of zeros after
    the point: the exponent [dp] with [10 ^ (dp - 1) <= a / b < 10 ^ dp]. *)
Definition decimal_point (a b : Z) : Z :=
  let guess := (Z.log2 a - Z.log2 b) * 30103 / 100000 in
  let fits (d : Z) := if 0 <=? d then a <? b * 10 ^ d else a * 10 ^ (- d) <? b in
  if fits guess then guess else if fits (guess + 1) then guess + 1 else guess + 2.

(** [n] digits of [a / b]: the truncation, as an integer to be scaled by [10 ^ (dp - n)], and the
    comparison of the remainder with one half. *)
Definition scaled (a b dp n : Z) : Z * comparison :=
  let k := n - dp in
  let num := if 0 <=? k then a * 10 ^ k else a in
  let den := if 0 <=? k then b else b * 10 ^ (- k) in
  let (q, r) := Z.div_eucl num den in (q, Z.compare (2 * r) den).

Definition sf_same (x y : spec_float) : bool :=
  match x, y with
  | S754_finite s m e, S754_finite s' m' e' => Bool.eqb s s' && (m =? m')%positive && (e =? e')
  | _, _ => false
  end.

(** The shortest digits that read back as the value ([roundShortest]): rounding down, up, or to the
    nearest when both are possible. *)
Fixpoint shortest (fuel : nat) (f : format) (x : spec_float) (a b dp n : Z) : Z * Z :=
  let (q, half) := scaled a b dp n in
  match fuel with
  | O => (q, dp - n)
  | S k =>
      let back (d : Z) := sf_same (of_decimal f false d (dp - n)) x in
      match back q, back (q + 1) with
      | true, true => (match half with Lt => q | Gt => q + 1
                       | Eq => if Z.even q then q else q + 1 end, dp - n)
      | true, false => (q, dp - n)
      | false, true => (q + 1, dp - n)
      | false, false => shortest k f x a b dp (n + 1)
      end
  end.

(** Trailing zeros carry no digit. *)
Fixpoint strip_zeros (fuel : nat) (d e : Z) : Z * Z :=
  match fuel with
  | O => (d, e)
  | S k => if (d mod 10 =? 0) && negb (d =? 0) then strip_zeros k (d / 10) (e + 1) else (d, e)
  end.

Definition zeros (n : Z) : string := string_of_list_ascii (repeat "0"%char (Z.to_nat n)).

(** [%e]: one digit before the point, an exponent of at least two digits. *)
Definition format_e (digits : string) (exp : Z) : string :=
  let frac := substring 1 (String.length digits - 1) digits in
  (substring 0 1 digits ++ (if (frac =s EmptyString) then EmptyString else String "." frac)
   ++ (if (exp <? 0)%Z then "e-" else "e+")
   ++ (let a := decimal (Z.abs exp)%Z in if (String.length a <? 2)%nat then String "0" a else a))%string.

(** [%f] with all the digits and no more; the point is after [dp] digits. *)
Definition format_f (digits : string) (dp : Z) : string :=
  let nd := Z.of_nat (String.length digits) in
  if dp <=? 0 then ("0." ++ zeros (- dp) ++ digits)%string
  else if nd <=? dp then (digits ++ zeros (dp - nd))%string
  else (substring 0 (Z.to_nat dp) digits ++ "." ++ substring (Z.to_nat dp) (String.length digits) digits)%string.

(** [strconv.FormatFloat(x, 'g', -1, bits)], and the verb v of [fmt]. *)
Definition FormatFloat (f : format) (x : spec_float) : string :=
  match x with
  | S754_nan => "NaN"
  | S754_infinity s => if s then "-Inf" else "+Inf"
  | S754_zero s => if s then "-0" else "0"
  | S754_finite s m e =>
      let (a, b) := ratio m e in
      let dp := decimal_point a b in
      let '(d, t) := shortest 18 f (S754_finite false m e) a b dp 1 in
      let '(d, t) := strip_zeros 20 d t in
      let digits := decimal d in
      let dp := Z.of_nat (String.length digits) + t in
      ((if s then "-" else EmptyString)
       ++ (if ((dp - 1 <? -4) || (6 <=? dp - 1))%Z then format_e digits (dp - 1)%Z
           else format_f digits dp))%string
  end.
