(* ===== verification/Values.v ===== *)
(** * Values of rows (pkg/storage: the scalar helpers of table.go, constraints.go, foreign_key.go)

    How the storage layer prints, compares and encodes the [interface{}] values of a row.  The
    values of dynamic types the row encoding does not know (slices, maps, times) are [other]; how
    [fmt] prints them and how encoding/json writes and reads a row that holds them is given by the
    class [Dynamic]. *)
From Stdlib Require Import NArith ZArith Lia Ascii String Floats.SpecFloat.
From stdpp Require Import base option list list_numbers gmap sorting strings.
From S2P Require Import Prelude Bytes RowCodec Float.

#[global] Arguments VNil {other}.
#[global] Arguments VBool {other} b.
#[global] Arguments VInt {other} k z.
#[global] Arguments VUint {other} k n.
#[global] Arguments VFloat32 {other} bits.
#[global] Arguments VFloat64 {other} bits.
#[global] Arguments VString {other} s.
#[global] Arguments VBytes {other} l.
#[global] Arguments VNumber {other} s.
#[global] Arguments VOther {other} o.

#[export] Instance int_kind_eq : EqDecision int_kind.
Proof. solve_decision. Defined.
#[export] Instance uint_kind_eq : EqDecision uint_kind.
Proof. solve_decision. Defined.

Class Dynamic : Type := {
  other : Type;
  other_eq :: EqDecision other;
  fmt_other : other -> string;
  row_marshal : gmap string (value other) -> list byte + string;
  row_unmarshal : list byte -> gmap string (value other) + string
}.

Abbreviation val := (value other).
Abbreviation Row := (gmap string (value other)).

#[export] Instance value_eq `{Dynamic} : EqDecision val.
Proof. solve_decision. Defined.

(** Rows that hold only scalars, and no JSON: the instance the examples use. *)
Definition plain : Dynamic := {|
  other := Empty_set; other_eq := _; fmt_other o := match o with end;
  row_marshal _ := inr "unsupported"; row_unmarshal _ := inr "unsupported" |}.

Section Values.
Context `{Dynamic}.

Definition is_nil (v : val) : bool := match v with VNil => true | _ => false end.

(** [row[name]]: nil when the field is missing. *)
Definition get (row : Row) (name : string) : val := default VNil (row !! name).

(** ** Printing *)

Definition itoaN (n : N) : string := itoa n.

(** [fmt.Sprintf] with the verb v. *)
Definition sprint (v : val) : string :=
  match v with
  | VNil => "<nil>"
  | VBool b => if b then "true" else "false"
  | VInt _ z => itoaZ z
  | VUint _ n => itoa n
  | VFloat32 bits => FormatFloat binary32 (of_bits binary32 bits)
  | VFloat64 bits => FormatFloat binary64 (of_bits binary64 bits)
  | VString s | VNumber s => s
  | VBytes l => "[" ++ Join (map (fun b => itoa (Byte.to_N b)) l) " " ++ "]"
  | VOther o => fmt_other o
  end.

Definition format_number (x : spec_float) : string :=
  if is_zero x then "0" else FormatFloat binary64 x.

Definition format_text (s : string) : string :=
  match ParseFloat binary64 s with Some x => format_number x | None => s end.

Definition formatIndexValue (v : val) : string :=
  match v with
  | VFloat64 bits => format_number (of_bits binary64 bits)
  | VInt GoInt64 z | VInt GoInt z => format_number (round_int binary64 z)
  | VBool b => if b then "1" else "0"
  | VBytes l => format_text (string_of l)
  | VString s => format_text s
  | _ => sprint v
  end.

(** ** Numbers *)

Definition valueAsInt64 (v : val) : option Z :=
  match v with
  | VInt GoInt64 z | VInt GoInt z => Some z
  | VFloat64 bits => Some (int64_of_float (of_bits binary64 bits))
  | _ => None
  end.

Definition rowIDFromRow (row : Row) : option Z := valueAsInt64 (get row "_rowid_").

(** ** The encoding of unique values *)

Definition encodeIntegralFloat (x : spec_float) : option string :=
  if negb (is_integral x) then None
  else match trunc_to_Z x with
       | Some z => if (- 2 ^ 63 <=? z)%Z && (z <? 2 ^ 63)%Z then Some (String "i" (itoaZ z)) else None
       | None => None
       end.

Definition encodeUniqueScalar (v : val) : string :=
  match v with
  | VBool b => if b then "b1" else "b0"
  | VInt GoInt z | VInt GoInt64 z => String "i" (itoaZ z)
  | VUint _ n => String "i" (itoa n)
  | VFloat64 bits =>
      let x := of_bits binary64 bits in
      match encodeIntegralFloat x with Some s => s | None => String "r" (FormatFloat binary64 x) end
  | VString s => String "s" s
  | VBytes l => String "x" (string_of l)
  | _ => String "s" (sprint v)
  end.

(** ** Fields by name *)

(** [rowColumnValue]: the field of that name, or else a field whose name is equal but for case. *)
Definition rowColumnValue (row : Row) (name : string) : option val :=
  match row !! name with
  | Some v => Some v
  | None => snd <$> find (fun kv => EqualFold (fst kv) name) (map_to_list row)
  end.

(** ** Lists of strings in one string *)

(** A string behind its length. *)
Definition length_prefixed (s : string) : string :=
  (itoa (N.of_nat (String.length s)) ++ ":" ++ s)%string.

Definition joinForeignKeyValues (values : list string) : string :=
  Join (map length_prefixed values) EmptyString.

Definition foreignKeyValues (row : Row) (columns : list string) : option (list string) :=
  mapM (fun name => match rowColumnValue row name with
                    | Some v => if is_nil v then None else Some (formatIndexValue v)
                    | None => None
                    end) columns.

Definition foreignKeyRawValues (row : Row) (columns : list string) : option (list val) :=
  mapM (rowColumnValue row) columns.

(** A NULL component is kept apart by a byte no number starts with. *)
Definition null_key : string := String NUL "NULL".

Definition foreignKeyActionKey (row : Row) (columns : list string) : option (list string) :=
  mapM (fun name => v ← rowColumnValue row name;
                    Some (if is_nil v then null_key else formatIndexValue v)) columns.

Definition foreignKeyMatches (row : Row) (columns want : list string) : bool :=
  (length columns =? length want)%nat
  && match foreignKeyValues row columns with Some got => bool_decide (got = want) | None => false end.

Definition foreignKeyValuesEqual (a b : list string) : bool := bool_decide (a = b).

End Values.

(** ** Decimal digits

    The digits of an integer determine it, and hold no other byte. *)

Definition is_digit (c : ascii) : bool := ("0" <=b c) && (c <=b "9").

Fixpoint digits_value (s : string) (acc : N) : N :=
  match s with
  | EmptyString => acc
  | String c r => digits_value r (10 * acc + (N_of_ascii c - 48))
  end.

Lemma digit_byte (n : N) : (n < 10)%N -> N_of_ascii (Prelude.byte (48 + n)) = (48 + n)%N.
Proof. intros Hn. unfold Prelude.byte. rewrite N_ascii_embedding; lia. Qed.

Lemma digits_value_app (a b : string) : forall acc,
  digits_value (a ++ b) acc = digits_value b (digits_value a acc).
Proof. induction a as [|c a IH]; intros acc; cbn; [reflexivity|]. apply IH. Qed.

Lemma decimal_digits_value (fuel : nat) : forall n, (n < 10 ^ N.of_nat fuel)%N ->
  digits_value (decimal_digits fuel n) 0 = n /\ string_forallb is_digit (decimal_digits fuel n) = true.
Proof.
  induction fuel as [|k IH]; intros n Hn.
  - change (10 ^ N.of_nat 0)%N with 1%N in Hn. cbn. split; [lia|reflexivity].
  - pose proof (N.mod_lt n 10 ltac:(lia)) as Hm.
    pose proof (N.div_mod n 10 ltac:(lia)) as Hd.
    rewrite Nat2N.inj_succ, N.pow_succ_r in Hn by lia.
    cbn [decimal_digits]. cbv zeta. set (d := (n mod 10)%N) in *. set (q := (n / 10)%N) in *.
    clearbody d q.
    assert (Hdig : is_digit (Prelude.byte (48 + d)) = true).
    { unfold is_digit. rewrite digit_byte by exact Hm.
      change (N_of_ascii "0") with 48%N. change (N_of_ascii "9") with 57%N.
      apply andb_true_iff. split; apply N.leb_le; lia. }
    destruct (N.eqb_spec q 0) as [E|E].
    + unfold str1. cbn [digits_value string_forallb]. rewrite digit_byte, Hdig by exact Hm.
      split; [lia|reflexivity].
    + destruct (IH q) as [IHv IHd]; [lia|].
      rewrite digits_value_app, IHv, string_forallb_app, IHd. unfold str1. cbn [digits_value string_forallb].
      rewrite digit_byte, Hdig by exact Hm. split; [lia|reflexivity].
Qed.

Lemma itoa_fuel (n : N) : (n < 10 ^ N.of_nat (S (N.to_nat (N.log2 n))))%N.
Proof.
  rewrite Nat2N.inj_succ, N2Nat.id. destruct (N.eq_dec n 0%N) as [->|Hn]; [reflexivity|].
  eapply N.lt_le_trans; [apply N.log2_spec; lia|]. apply N.pow_le_mono_l. lia.
Qed.

Lemma itoa_value (n : N) : digits_value (itoa n) 0 = n.
Proof. apply decimal_digits_value, itoa_fuel. Qed.

Lemma itoa_digits (n : N) : string_forallb is_digit (itoa n) = true.
Proof. apply decimal_digits_value, itoa_fuel. Qed.

Lemma itoa_inj (n m : N) : itoa n = itoa m -> n = m.
Proof. intros E. rewrite <- (itoa_value n), <- (itoa_value m). now rewrite E. Qed.

(** Two texts that agree up to a byte outside a class of bytes have the same part in the class. *)
Lemma break_at (p : ascii -> bool) (c : ascii) (a a' r r' : string) :
  p c = false -> string_forallb p a = true -> string_forallb p a' = true ->
  (a ++ String c r)%string = (a' ++ String c r')%string -> a = a' /\ r = r'.
Proof.
  intros Hc. revert a'. induction a as [|x a IH]; intros [|y a'] Ha Ha' E; cbn in *.
  - now injection E.
  - injection E as -> _. bool_hyps. congruence.
  - injection E as -> _. bool_hyps. congruence.
  - injection E as -> E. bool_hyps. destruct (IH a') as [-> ->]; auto.
Qed.

Lemma append_inj_length (a a' b b' : string) :
  String.length a = String.length a' -> (a ++ b)%string = (a' ++ b')%string -> a = a' /\ b = b'.
Proof.
  revert a'. induction a as [|x a IH]; intros [|y a'] Hl E; cbn in *; try discriminate; auto.
  injection E as -> E. destruct (IH a') as [-> ->]; auto.
Qed.

Lemma length_prefixed_inj (s s' r r' : string) :
  (length_prefixed s ++ r)%string = (length_prefixed s' ++ r')%string -> s = s' /\ r = r'.
Proof.
  unfold length_prefixed. rewrite !Prelude.append_assoc. cbn [String.append]. intros E.
  apply (break_at is_digit) in E as [E1 E2]; [|reflexivity|apply itoa_digits|apply itoa_digits].
  apply itoa_inj in E1. apply append_inj_length; [lia|exact E2].
Qed.

Lemma join_cons (x : string) (l : list string) :
  Join (map length_prefixed (x :: l)) EmptyString
  = (length_prefixed x ++ Join (map length_prefixed l) EmptyString)%string.
Proof. unfold Join. cbn [map String.concat]. destruct (map length_prefixed l); [|reflexivity].
  cbn. now rewrite Prelude.append_nil_r. Qed.

(** The texts that are joined can be told from the text they are joined to. *)
Lemma join_inj (l l' : list string) : joinForeignKeyValues l = joinForeignKeyValues l' -> l = l'.
Proof.
  unfold joinForeignKeyValues. revert l'. induction l as [|x l IH]; intros [|y l']; try reflexivity.
  - rewrite join_cons. unfold length_prefixed. cbn [map Join String.concat]. intros E.
    destruct (itoa _); discriminate E.
  - rewrite join_cons. unfold length_prefixed. cbn [map Join String.concat]. intros E.
    destruct (itoa _); discriminate E.
  - rewrite !join_cons. intros E. apply length_prefixed_inj in E as [-> E]. f_equal. now apply IH.
Qed.
