(* ===== verification/Schema.v ===== *)
(** * Schemas and row constraints (pkg/storage/schema.go, constraints.go and the index values of table.go)

    Table and index definitions, primary keys and their encoding, column defaults, the NOT NULL
    and CHECK constraints, and the values an index derives from a row.  A row image is a value:
    a function that completes a row in place returns the completed row. *)
From Stdlib Require Import NArith ZArith Lia Ascii String.
From stdpp Require Import base option list list_numbers gmap sorting strings.
From S2P Require Import Prelude Bytes RowCodec Float Values Wire.

Section Schema.
Context `{Dynamic}.

(** ** Definitions of tables and indexes *)

Record ForeignKeyConstraint : Type := mkFK {
  fk_Name : string; fk_Columns : list string; RefTable : string; RefColumns : list string;
  OnDelete : string; OnUpdate : string }.

Record CheckConstraint : Type := mkCheck { ck_Name : string; Expression : string }.

(** A nil [Default] is no default. *)
Record Column : Type := mkColumn {
  col_Name : string; col_Type : string; Nullable : bool; Default : val; DefaultExpr : string;
  col_PrimaryKey : bool; GeneratedExpr : string; GeneratedStored : bool }.

Record IndexColumn : Type := mkIndexColumn { ic_Name : string; Desc : bool; ic_Expression : string }.

Record Index : Type := mkIndex {
  idx_Name : string; idx_Table : string; idx_Columns : list IndexColumn; Unique : bool;
  idx_CreatedAt : Z; OnConflict : string }.

Record Schema : Type := mkSchema {
  Name : string; Columns : list Column; PrimaryKey : string; PrimaryKeyColumns : list string;
  CreatedAt : Z; NextRowID : Z; AutoIncrement : bool; Checks : list CheckConstraint;
  ForeignKeys : list ForeignKeyConstraint }.

Definition is_empty (s : string) : bool := s =s EmptyString.

Definition fk_Label (fk : ForeignKeyConstraint) : string :=
  if is_empty (fk_Name fk) then (Join (fk_Columns fk) ", " ++ " -> " ++ RefTable fk)%string else fk_Name fk.

Definition ck_Label (c : CheckConstraint) : string :=
  if is_empty (ck_Name c) then Expression c else ck_Name c.

Definition DefaultLiteral (c : Column) : val :=
  if is_empty (DefaultExpr c) then Default c else VString (DefaultExpr c).

(** ** Errors of the storage layer *)

Inductive error : Type :=
  | EKV (e : kv_error)
  | ErrIndexNotFound (name : string)
  | ErrSerialization (detail : string)
  | PrimaryKeyViolation (table key : string)
  | NotNullViolation (table column : string)
  | CheckViolation (table constraint : string)
  | UniqueViolation (constraint : string)
  | ForeignKeyViolation (table constraint : string)
  | Errorf (msg : string)
  | Wrapf (msg : string) (e : error).

Abbreviation res := (outcome error).

Definition TableNotFound (name : string) : error := Errorf ("table not found: " ++ name).

(** ** Primary keys *)

Definition PrimaryKeyList (s : Schema) : list string :=
  match PrimaryKeyColumns s with
  | [] => if is_empty (PrimaryKey s) then ["_rowid_"] else [PrimaryKey s]
  | l => l
  end.

Definition UsesSyntheticRowID (s : Schema) : bool :=
  match PrimaryKeyList s with [c] => EqualFold c "_rowid_" | _ => false end.

Definition IsCompositePrimaryKey (s : Schema) : bool := (1 <? length (PrimaryKeyList s))%nat.
Definition IsSingleColumnPrimaryKey (s : Schema) : bool := (length (PrimaryKeyList s) =? 1)%nat.

Definition IsPrimaryKeyColumn (s : Schema) (name : string) : bool :=
  existsb (fun c => EqualFold c name) (PrimaryKeyList s).

Definition PrimaryKeyTargetMatches (s : Schema) (columns : list string) : bool :=
  (length (PrimaryKeyList s) =? length columns)%nat
  && forallb (fun c => existsb (EqualFold c) columns) (PrimaryKeyList s).

Definition key_column (c : Column) : Column :=
  mkColumn (col_Name c) (col_Type c) false (Default c) (DefaultExpr c) true (GeneratedExpr c) (GeneratedStored c).

Definition with_key (s : Schema) (pk : string) (cols : list string) (columns : list Column) : Schema :=
  mkSchema (Name s) columns pk cols (CreatedAt s) (NextRowID s) (AutoIncrement s) (Checks s) (ForeignKeys s).

(** The ordered key: the declared list, the single column, the columns marked, or the row id. *)
Definition key_columns (s : Schema) : list string :=
  match PrimaryKeyColumns s with
  | [] => if is_empty (PrimaryKey s)
          then match map col_Name (List.filter col_PrimaryKey (Columns s)) with
               | [] => ["_rowid_"]
               | l => l
               end
          else [PrimaryKey s]
  | l => l
  end.

Definition normalizePrimaryKey (s : Schema) : Schema :=
  let s := match key_columns s with
           | [c] => with_key s c [] (Columns s)
           | l => with_key s EmptyString l (Columns s)
           end in
  with_key s (PrimaryKey s) (PrimaryKeyColumns s)
    (map (fun c => if IsPrimaryKeyColumn s (col_Name c) then key_column c else c) (Columns s)).

(** The components of a row's key; the first one that is missing or NULL is an error. *)
Definition key_part (s : Schema) (row : Row) (column : string) : res string :=
  match rowColumnValue row column with
  | Some v => if is_nil v then Fail_ (NotNullViolation (Name s) column) else Done (sprint v)
  | None => Fail_ (NotNullViolation (Name s) column)
  end.

Fixpoint key_parts (s : Schema) (row : Row) (columns : list string) : res (list string) :=
  match columns with
  | [] => Done []
  | c :: rest => p ← key_part s row c; ps ← key_parts s row rest; Done (p :: ps)
  end.

Definition encode_key (parts : list string) : string :=
  match parts with [p] => p | _ => joinForeignKeyValues parts end.

Definition PrimaryKeyForRow (s : Schema) (row : Row) : res string :=
  parts ← key_parts s row (PrimaryKeyList s); Done (encode_key parts).

Definition GetColumn (s : Schema) (name : string) : option Column :=
  find (fun c => ToLower (col_Name c) =s ToLower name) (Columns s).

(** ** Violations *)

Definition quoted (s : string) : string :=
  String SQUOTE (ReplaceAll1 s SQUOTE (String SQUOTE (str1 SQUOTE)) ++ str1 SQUOTE).

Definition primaryKeyComponent (v : val) : string :=
  match v with
  | VString s => quoted s
  | VBytes l => quoted (string_of l)
  | _ => sprint v
  end.

Definition primaryKeyLabel (s : Schema) (row : Row) : string :=
  match map (fun c => primaryKeyComponent (default VNil (rowColumnValue row c))) (PrimaryKeyList s) with
  | [p] => p
  | parts => ("(" ++ Join parts "," ++ ")")%string
  end.

Definition newPrimaryKeyViolation (table : string) (s : Schema) (row : Row) : error :=
  PrimaryKeyViolation table (primaryKeyLabel s row).

(** ** Evaluators

    The functions the executor installs; [None] where none is installed. *)
Record Evaluators : Type := mkEvaluators {
  checkEval : option (string -> Row -> bool + string);
  defaultEval : option (string -> Z -> val + string);
  exprEval : option (string -> Row -> val + string) }.

Context (ev : Evaluators).

(** ** Row constraints *)

Fixpoint check_not_null (table : string) (cols : list Column) (row : Row) : res () :=
  match cols with
  | [] => Done ()
  | c :: rest =>
      if negb (Nullable c) && is_nil (get row (col_Name c))
      then Fail_ (NotNullViolation table (col_Name c))
      else check_not_null table rest row
  end.

Definition validateNotNull (s : Schema) (row : Row) : res () := check_not_null (Name s) (Columns s) row.

Fixpoint run_checks (eval : string -> Row -> bool + string) (table : string)
    (checks : list CheckConstraint) (row : Row) : res () :=
  match checks with
  | [] => Done ()
  | c :: rest =>
      match eval (Expression c) row with
      | inr e => Fail_ (Errorf ("evaluate CHECK constraint " ++ ck_Label c ++ " on " ++ table ++ ": " ++ e))
      | inl false => Fail_ (CheckViolation table (ck_Label c))
      | inl true => run_checks eval table rest row
      end
  end.

Definition validateChecks (s : Schema) (row : Row) : res () :=
  match Checks s with
  | [] => Done ()
  | checks =>
      match checkEval ev with
      | None => Fail_ (Errorf ("cannot validate CHECK constraints on " ++ Name s
                               ++ ": no CHECK evaluator installed"))
      | Some eval => run_checks eval (Name s) checks row
      end
  end.

Definition validateRowConstraints (s : Schema) (row : Row) : res () :=
  _ ← validateNotNull s row; validateChecks s row.

(** The verb q of [fmt], for a name without bytes that need an escape. *)
Definition goquote (s : string) : string := (str1 DQUOTE ++ s ++ str1 DQUOTE)%string.

(** The value a row receives for a column it omits. *)
Definition columnDefaultValue (c : Column) (now : Z) : res (option val) :=
  if negb (is_empty (DefaultExpr c)) then
    match defaultEval ev with
    | None => Fail_ (Errorf ("column " ++ goquote (col_Name c)
                             ++ " has a DEFAULT expression but no evaluator is installed"))
    | Some eval =>
        match eval (DefaultExpr c) now with
        | inl v => Done (Some v)
        | inr e => Fail_ (Errorf ("evaluate DEFAULT for column " ++ goquote (col_Name c) ++ ": " ++ e))
        end
    end
  else if is_nil (Default c) then Done None else Done (Some (Default c)).

Definition columnHasDefault (c : Column) : bool :=
  negb (is_empty (DefaultExpr c)) || negb (is_nil (Default c)).

Fixpoint fill_defaults (cols : list Column) (now : Z) (row : Row) : res Row :=
  match cols with
  | [] => Done row
  | c :: rest =>
      match rowColumnValue row (col_Name c) with
      | Some _ => fill_defaults rest now row
      | None =>
          d ← columnDefaultValue c now;
          fill_defaults rest now (match d with Some v => <[col_Name c := v]> row | None => row end)
      end
  end.

Definition applySchemaDefaults (s : Schema) (now : Z) (row : Row) : res Row :=
  row ← fill_defaults (Columns s) now row;
  _ ← validateNotNull s row;
  Done row.

(** ** Index values *)

Definition indexColumnValue (row : Row) (c : IndexColumn) : res val :=
  if negb (is_empty (ic_Expression c)) then
    match exprEval ev with
    | None => Fail_ (Errorf ("expression index column " ++ goquote (ic_Expression c)
                             ++ " requires an expression evaluator"))
    | Some eval => match eval (ic_Expression c) row with inl v => Done v | inr e => Fail_ (Errorf e) end
    end
  else Done (default VNil (rowColumnValue row (ic_Name c))).

Fixpoint index_column_values (row : Row) (cols : list IndexColumn) : res (list val) :=
  match cols with
  | [] => Done []
  | c :: rest => v ← indexColumnValue row c; vs ← index_column_values row rest; Done (v :: vs)
  end.

Definition NUL_sep : string := str1 NUL.

Definition buildIndexValue (row : Row) (cols : list IndexColumn) : res string :=
  vs ← index_column_values row cols;
  Done (match vs with
        | [v] => formatIndexValue v
        | _ => Join (map formatIndexValue vs) NUL_sep
        end).

Definition IndexRowKey (idx : Index) (row : Row) : res string :=
  v ← buildIndexValue row (idx_Columns idx); Done (formatIndexValue (VString v)).

(** [None] when a column is NULL: the row is exempt.  The columns after a NULL are not evaluated. *)
Fixpoint unique_parts (row : Row) (cols : list IndexColumn) : res (option (list string)) :=
  match cols with
  | [] => Done (Some [])
  | c :: rest =>
      v ← indexColumnValue row c;
      if is_nil v then Done None
      else (ps ← unique_parts row rest; Done (option_map (cons (encodeUniqueScalar v)) ps))
  end.

Definition encodeUniqueValue (row : Row) (cols : list IndexColumn) : res (option string) :=
  ps ← unique_parts row cols; Done (option_map joinForeignKeyValues ps).

Definition IndexValueContainsNull (idx : Index) (row : Row) : res bool :=
  v ← encodeUniqueValue row (idx_Columns idx); Done (match v with Some _ => false | None => true end).

Definition cacheableColumnIndex (idx : Index) : bool :=
  forallb (fun c => is_empty (ic_Expression c)) (idx_Columns idx).

Definition isIntegerType (typeName : string) : bool :=
  existsb (String.eqb (ToUpper typeName)) ["INTEGER"; "INT"; "SMALLINT"; "BIGINT"; "TINYINT"; "MEDIUMINT"].

Definition IsRowIDColumn (name : string) : bool :=
  let n := ToLower name in (n =s "rowid") || (n =s "oid") || (n =s "_rowid_").

(** ** Referential actions *)

Inductive ReferentialAction : Set :=
  | ReferentialActionNoAction | ReferentialActionRestrict | ReferentialActionCascade
  | ReferentialActionSetNull | ReferentialActionSetDefault.

Definition is_space (c : ascii) : bool :=
  (c =b " ") || (c =b TAB) || (c =b LF) || (c =b CR) || (c =b Prelude.byte 11) || (c =b Prelude.byte 12).

Fixpoint trim_left (s : string) : string :=
  match s with String c r => if is_space c then trim_left r else s | EmptyString => s end.

Fixpoint trim_right (s : string) : string :=
  match s with
  | EmptyString => EmptyString
  | String c r => match trim_right r with
                  | EmptyString => if is_space c then EmptyString else str1 c
                  | r' => String c r'
                  end
  end.

(** [strings.TrimSpace] on the ASCII spaces. *)
Definition TrimSpace (s : string) : string := trim_right (trim_left s).

Definition parseReferentialAction (text : string) : ReferentialAction :=
  let t := ToUpper (TrimSpace text) in
  if t =s "CASCADE" then ReferentialActionCascade
  else if t =s "SET NULL" then ReferentialActionSetNull
  else if t =s "SET DEFAULT" then ReferentialActionSetDefault
  else if t =s "RESTRICT" then ReferentialActionRestrict
  else ReferentialActionNoAction.

Definition DeleteAction (fk : ForeignKeyConstraint) : ReferentialAction := parseReferentialAction (OnDelete fk).
Definition UpdateAction (fk : ForeignKeyConstraint) : ReferentialAction := parseReferentialAction (OnUpdate fk).

Definition rewritesReferencingRows (a : ReferentialAction) : bool :=
  match a with
  | ReferentialActionCascade | ReferentialActionSetNull | ReferentialActionSetDefault => true
  | _ => false
  end.

End Schema.
