(* ===== verification/UniqueCache.v ===== *)
(** * UNIQUE constraints (pkg/storage/unique_cache.go)

    A unique index keeps, for each encoded value, the durable keys of the rows that have it.  A
    write is planned against the cache before it is durable and the plan is applied after; the
    theorem says that the plan fails exactly when the rows after the write would share a value. *)
From Stdlib Require Import NArith ZArith Lia Ascii String.
From stdpp Require Import base option list list_numbers gmap sorting strings.
From S2P Require Import Prelude Bytes RowCodec Float Values Wire Schema.
#[local] Set Warnings "-clear-no-such-hyp".

(** ** The cache of one index *)

(** [uc_id] is the identity of the cache object. *)
Record uniqueIndexCache : Type := mkUC {
  uc_id : N; uc_table : string; uc_values : gmap string (gset string); uc_keys : gmap string string }.

Definition owners_of (c : uniqueIndexCache) (value : string) : gset string := default ∅ (uc_values c !! value).

Definition uc_remove (c : uniqueIndexCache) (key : string) : uniqueIndexCache :=
  match uc_keys c !! key with
  | None => c
  | Some value =>
      let rest := owners_of c value ∖ {[key]} in
      mkUC (uc_id c) (uc_table c)
        (if decide (rest = ∅) then delete value (uc_values c) else <[value := rest]> (uc_values c))
        (delete key (uc_keys c))
  end.

Definition uc_add (c : uniqueIndexCache) (key value : string) : uniqueIndexCache :=
  mkUC (uc_id c) (uc_table c) (<[value := {[key]} ∪ owners_of c value]> (uc_values c))
    (<[key := value]> (uc_keys c)).

Definition empty_cache (id : N) (table : string) : uniqueIndexCache := mkUC id table ∅ ∅.

Section Plan.
Context `{Dynamic} (ev : Evaluators).

(** A staged row, or a deleted one. *)
Record overlayEntry : Type := mkEntry { row : Row; absent : bool }.

(** [change_values] has every staged key: [None] removes it or stands for a NULL value. *)
Record uniqueCacheChange : Type := mkChange {
  change_name : string; change_cache : N; change_values : gmap string (option string) }.

(** The loop over the staged entries. *)
Fixpoint plan_entries (idx : Index) (c : uniqueIndexCache) (staged : gset string)
    (todo : list (string * overlayEntry)) (seen : gset string) (values : gmap string (option string))
    : outcome error (gmap string (option string)) :=
  match todo with
  | [] => Done values
  | (key, e) :: rest =>
      if absent e then plan_entries idx c staged rest seen (<[key := None]> values)
      else (
        value ← encodeUniqueValue ev (row e) (idx_Columns idx);
        match value with
        | None => plan_entries idx c staged rest seen (<[key := None]> values)
        | Some v =>
            if decide (v ∈ seen) then Fail_ (UniqueViolation (idx_Name idx))
            else if decide (owners_of c v ⊆ staged)
            then plan_entries idx c staged rest ({[v]} ∪ seen) (<[key := Some v]> values)
            else Fail_ (UniqueViolation (idx_Name idx))
        end)
  end.

Definition plan_index (idx : Index) (c : uniqueIndexCache) (entries : gmap string overlayEntry)
    : outcome error uniqueCacheChange :=
  values ← plan_entries idx c (dom entries) (map_to_list entries) ∅ ∅;
  Done (mkChange (ToLower (idx_Name idx)) (uc_id c) values).

(** [prepareUniqueRowsWith], once the caches of the indexes are there. *)
Fixpoint prepare_changes (indexes : list Index) (caches : gmap string uniqueIndexCache)
    (entries : gmap string overlayEntry) : outcome error (list uniqueCacheChange) :=
  match indexes with
  | [] => Done []
  | idx :: rest =>
      ch ← plan_index idx (default (empty_cache 0 EmptyString) (caches !! idx_Name idx)) entries;
      chs ← prepare_changes rest caches entries;
      Done (ch :: chs)
  end.

(** ** Publication *)

Definition is_accepted (accepted : option (gset string)) (key : string) : bool :=
  match accepted with None => true | Some s => bool_decide (key ∈ s) end.

Definition remove_keys (accepted : option (gset string)) (l : list (string * option string))
    (c : uniqueIndexCache) : uniqueIndexCache :=
  fold_left (fun c kv => if is_accepted accepted (fst kv) then uc_remove c (fst kv) else c) l c.

Definition add_keys (accepted : option (gset string)) (l : list (string * option string))
    (c : uniqueIndexCache) : uniqueIndexCache :=
  fold_left (fun c kv => match snd kv with
                         | Some v => if is_accepted accepted (fst kv) then uc_add c (fst kv) v else c
                         | None => c
                         end) l c.

Definition apply_change (accepted : option (gset string)) (ch : uniqueCacheChange) (c : uniqueIndexCache)
    : uniqueIndexCache :=
  let l := map_to_list (change_values ch) in add_keys accepted l (remove_keys accepted l c).

(** A change is dropped when the cache it was planned against is no longer the registered one. *)
Definition applyUniquePlan (caches : gmap string uniqueIndexCache) (plan : list uniqueCacheChange)
    (accepted : option (gset string)) : gmap string uniqueIndexCache :=
  fold_left (fun caches ch =>
    match caches !! change_name ch with
    | Some c => if (uc_id c =? change_cache ch)%N
                then <[change_name ch := apply_change accepted ch c]> caches else caches
    | None => caches
    end) plan caches.

(** [removeUniqueKey] *)
Definition removeUniqueKey (caches : gmap string uniqueIndexCache) (table key : string)
    : gmap string uniqueIndexCache :=
  (fun c => if uc_table c =s ToLower table then uc_remove c key else c) <$> caches.

(** One row read while a cache is built. *)
Definition scan_row (columns : list IndexColumn) (c : uniqueIndexCache) (key : string) (r : Row)
    : outcome error uniqueIndexCache :=
  value ← encodeUniqueValue ev r columns;
  Done (match value with Some v => uc_add c key v | None => c end).

(** ** The rows a cache describes *)

(** The rows after a write of the staged entries. *)
Definition final_rows (rows : gmap string Row) (entries : gmap string overlayEntry) : gmap string Row :=
  ((fun e => row e) <$> filter (fun ke => absent ke.2 = false) entries) ∪ (filter (fun kr => entries !! kr.1 = None) rows).

(** No two rows have the same value. *)
Definition unique_ok (enc : Row -> option string) (rows : gmap string Row) : Prop :=
  forall k1 k2 r1 r2 v, rows !! k1 = Some r1 -> rows !! k2 = Some r2 ->
    enc r1 = Some v -> enc r2 = Some v -> k1 = k2.

(** The cache holds the values of exactly these rows. *)
Definition exact (enc : Row -> option string) (rows : gmap string Row) (c : uniqueIndexCache) : Prop :=
  (forall k v, uc_keys c !! k = Some v <-> exists r, rows !! k = Some r /\ enc r = Some v) /\
  (forall k v, k ∈ owners_of c v <-> uc_keys c !! k = Some v).

(** *** Adding and removing *)

Definition coherent (c : uniqueIndexCache) : Prop :=
  forall k v, k ∈ owners_of c v <-> uc_keys c !! k = Some v.

Lemma remove_coherent c key : coherent c -> coherent (uc_remove c key).
Proof.
  intros Hc k v. unfold uc_remove. destruct (uc_keys c !! key) as [v0|] eqn:E; [|apply Hc].
  unfold owners_of at 1. cbn [uc_values uc_keys].
  rewrite lookup_delete_Some, <- (Hc k v).
  assert (Hv0 : key ∈ owners_of c v0) by now apply Hc.
  set (rest := owners_of c v0 ∖ {[key]}).
  assert (Hl : default ∅ ((if decide (rest = ∅) then delete v0 (uc_values c) else <[v0:=rest]> (uc_values c)) !! v)
               = if decide (v = v0) then rest else owners_of c v).
  { case_decide as Hr; case_decide as Hv; subst.
    - now rewrite lookup_delete_eq.
    - now rewrite lookup_delete_ne by congruence.
    - now rewrite lookup_insert_eq.
    - now rewrite lookup_insert_ne by congruence. }
  rewrite Hl. destruct (decide (v = v0)) as [->|Hv].
  - subst rest. set_solver.
  - split; [|now intros []]. intros Hk. split; [|exact Hk]. intros ->. apply Hc in Hk. congruence.
Qed.

Lemma remove_keys_lookup c key k :
  uc_keys (uc_remove c key) !! k = if decide (k = key) then None else uc_keys c !! k.
Proof.
  unfold uc_remove. destruct (uc_keys c !! key) eqn:E; cbn [uc_keys]; case_decide; subst; auto.
  - apply lookup_delete_eq.
  - now apply lookup_delete_ne.
Qed.

Lemma add_coherent c key value : uc_keys c !! key = None -> coherent c -> coherent (uc_add c key value).
Proof.
  intros Hk Hc k v. unfold uc_add, owners_of at 1. cbn [uc_values uc_keys].
  destruct (decide (v = value)) as [->|Hv].
  - rewrite lookup_insert_eq. cbn [from_option id]. fold (owners_of c value).
    rewrite elem_of_union, elem_of_singleton, (Hc k value), lookup_insert_Some. naive_solver.
  - rewrite lookup_insert_ne by congruence. fold (owners_of c v).
    rewrite (Hc k v), lookup_insert_Some. naive_solver.
Qed.

Lemma removed_all (l : list (string * option string)) : forall c, coherent c ->
  coherent (remove_keys None l c) /\
  forall k, uc_keys (remove_keys None l c) !! k = if decide (k ∈ l.*1) then None else uc_keys c !! k.
Proof.
  induction l as [|[key v] l IH]; intros c Hc; cbn [remove_keys fold_left].
  - split; [exact Hc|]. intros k. case_decide; [set_solver|reflexivity].
  - cbn [is_accepted fst]. destruct (IH (uc_remove c key) (remove_coherent c key Hc)) as [IH1 IH2].
    split; [exact IH1|]. intros k. unfold remove_keys in IH2. cbn [is_accepted] in IH2. rewrite IH2.
    rewrite remove_keys_lookup. cbn [fmap list_fmap fst].
    repeat case_decide; subst; try reflexivity; set_solver.
Qed.

Lemma added_all (l : list (string * option string)) : forall c, coherent c -> NoDup l.*1 ->
  (forall k, k ∈ l.*1 -> uc_keys c !! k = None) ->
  coherent (add_keys None l c) /\
  forall k, uc_keys (add_keys None l c) !! k =
    match (list_to_map l : gmap string (option string)) !! k with Some v => v | None => uc_keys c !! k end.
Proof.
  induction l as [|[key v] l IH]; intros c Hc Hnd Hfree; cbn [add_keys fold_left].
  - split; [exact Hc|]. intros k. cbn [list_to_map foldr]. now rewrite lookup_empty.
  - cbn [fmap list_fmap fst] in Hnd, Hfree. apply NoDup_cons in Hnd as [Hnk Hnd].
    cbn [is_accepted fst snd list_to_map foldr uncurry].
    set (c' := match v with Some v => uc_add c key v | None => c end).
    assert (Hc' : coherent c').
    { destruct v; [|exact Hc]. apply add_coherent; [apply Hfree; left|exact Hc]. }
    assert (Hk' : forall k, uc_keys c' !! k = if decide (k = key) then v else uc_keys c !! k).
    { intros k. subst c'. destruct v; cbn [uc_add uc_keys]; case_decide; subst; auto.
      - apply lookup_insert_eq.
      - now apply lookup_insert_ne.
      - apply Hfree. left. }
    destruct (IH c' Hc' Hnd) as [IH1 IH2].
    { intros k Hk. rewrite Hk'. case_decide; subst; [contradiction|]. apply Hfree. now right. }
    split; [exact IH1|]. intros k. unfold add_keys in IH2. cbn [is_accepted] in IH2. rewrite IH2.
    change (foldr _ ∅ l) with (list_to_map (M := gmap string (option string)) l).
    destruct (decide (k = key)) as [->|Hne].
    + rewrite lookup_insert_eq, (not_elem_of_list_to_map_1 l key) by exact Hnk.
      rewrite Hk'. now rewrite decide_True.
    + rewrite lookup_insert_ne by congruence. destruct (list_to_map l !! k); [reflexivity|].
      rewrite Hk'. now rewrite decide_False.
Qed.

Lemma apply_change_keys ch c : coherent c ->
  coherent (apply_change None ch c) /\
  forall k, uc_keys (apply_change None ch c) !! k =
    match change_values ch !! k with Some v => v | None => uc_keys c !! k end.
Proof.
  intros Hc. unfold apply_change. destruct (removed_all (map_to_list (change_values ch)) c Hc) as [H1 H2].
  destruct (added_all (map_to_list (change_values ch)) _ H1 (NoDup_fst_map_to_list _)) as [H3 H4].
  - intros k Hk. rewrite H2. now rewrite decide_True.
  - split; [exact H3|]. intros k. rewrite H4, list_to_map_to_list.
    destruct (change_values ch !! k) as [v|] eqn:E; [reflexivity|]. rewrite H2.
    rewrite decide_False; [reflexivity|]. rewrite list_elem_of_fmap.
    intros ([k' v'] & -> & Hin). apply elem_of_map_to_list in Hin. cbn in E. congruence.
Qed.

(** *** Planning *)

Section Exact.
Context (idx : Index).

Definition encodes (r : Row) : Prop := exists o, encodeUniqueValue ev r (idx_Columns idx) = Done o.

(** The value of a row under the index; [None] for an exempt row. *)
Definition enc (r : Row) : option string :=
  match encodeUniqueValue ev r (idx_Columns idx) with Done o => o | _ => None end.

Definition staged_value (e : overlayEntry) : option string := if absent e then None else enc (row e).

Definition staged_values (l : list (string * overlayEntry)) : list string := omap (fun ke => staged_value ke.2) l.

(** What the loop demands of the entries that are left. *)
Definition fits (c : uniqueIndexCache) (staged seen : gset string) (l : list (string * overlayEntry)) : Prop :=
  NoDup (staged_values l) /\
  forall v, v ∈ staged_values l -> (v ∉ seen) /\ owners_of c v ⊆ staged.

Lemma plan_entries_spec c staged todo : forall seen values,
  NoDup todo.*1 ->
  (forall key e, (key, e) ∈ todo -> absent e = false -> encodes (row e)) ->
  match plan_entries idx c staged todo seen values with
  | Done vs => fits c staged seen todo /\
      forall k, vs !! k = match (list_to_map todo : gmap string overlayEntry) !! k with
                          | Some e => Some (staged_value e) | None => values !! k end
  | Fail_ er => er = UniqueViolation (idx_Name idx) /\ ~ fits c staged seen todo
  | Panic => False
  end.
Proof.
  induction todo as [|[key e] todo IH]; intros seen values Hnd Henc; cbn [plan_entries].
  - split; [split; [constructor|intros v Hv; inversion Hv]|]. intros k. cbn [list_to_map foldr].
    now rewrite lookup_empty.
  - cbn [fmap list_fmap fst] in Hnd. apply NoDup_cons in Hnd as [Hkey Hnd].
    assert (Hstep : forall seen' o, staged_value e = o ->
      (fits c staged seen ((key, e) :: todo) <-> fits c staged seen' todo) ->
      match plan_entries idx c staged todo seen' (<[key := o]> values) with
      | Done vs => fits c staged seen ((key, e) :: todo) /\
          forall k, vs !! k = match (list_to_map ((key, e) :: todo) : gmap string overlayEntry) !! k with
                              | Some e => Some (staged_value e) | None => values !! k end
      | Fail_ er => er = UniqueViolation (idx_Name idx) /\ ~ fits c staged seen ((key, e) :: todo)
      | Panic => False
      end).
    { intros seen' o Ho Hfit. specialize (IH seen' (<[key := o]> values) Hnd).
      destruct (plan_entries _ _ _ _ _ _) as [vs|er|].
      - destruct IH as [IH1 IH2]; [intros; eapply Henc; [right|]; eauto|]. split; [now apply Hfit|].
        intros k. rewrite IH2. cbn [list_to_map foldr uncurry fst snd].
        change (foldr _ ∅ todo) with (list_to_map (M := gmap string overlayEntry) todo).
        destruct (decide (k = key)) as [->|Hne].
        + rewrite (not_elem_of_list_to_map_1 todo key Hkey), !lookup_insert_eq. now rewrite Ho.
        + now rewrite !lookup_insert_ne by congruence.
      - destruct IH as [IH1 IH2]; [intros; eapply Henc; [right|]; eauto|]. split; [exact IH1|].
        intros Hf. now apply IH2, Hfit.
      - apply IH. intros; eapply Henc; [right|]; eauto. }
    assert (Hnone : staged_value e = None ->
      (fits c staged seen ((key, e) :: todo) <-> fits c staged seen todo)).
    { intros E. unfold fits, staged_values. cbn [omap list_omap snd]. now rewrite E. }
    destruct (absent e) eqn:Ea.
    + apply Hstep; [unfold staged_value; now rewrite Ea|]. apply Hnone. unfold staged_value. now rewrite Ea.
    + destruct (Henc key e) as [o Ho]; [left|exact Ea|]. rewrite Ho, bind_Done.
      assert (Hsv : staged_value e = o) by (unfold staged_value, enc; now rewrite Ea, Ho).
      destruct o as [v|]; [|apply Hstep; [exact Hsv|now apply Hnone]].
      assert (Hcons : staged_values ((key, e) :: todo) = v :: staged_values todo)
        by (unfold staged_values; cbn [omap list_omap snd]; now rewrite Hsv).
      case_decide as Hseen.
      { split; [reflexivity|]. intros [_ Hf]. rewrite Hcons in Hf. destruct (Hf v); [left|contradiction]. }
      case_decide as Hown.
      2:{ split; [reflexivity|]. intros [_ Hf]. rewrite Hcons in Hf. destruct (Hf v); [left|contradiction]. }
      apply Hstep; [exact Hsv|]. unfold fits. rewrite Hcons, NoDup_cons. split.
      * intros [[Hv Hn] Hf]. split; [exact Hn|]. intros w Hw. destruct (Hf w) as [H1 H2]; [now right|].
        split; [|exact H2]. rewrite elem_of_union, elem_of_singleton. intros [->|?]; contradiction.
      * intros [Hn Hf]. split; [split; [|exact Hn]|].
        -- intros Hv. destruct (Hf v Hv) as [H1 _]. set_solver.
        -- intros w Hw. apply elem_of_cons in Hw as [->|Hw]; [now split|].
           destruct (Hf w Hw) as [H1 H2]. split; [set_solver|exact H2].
Qed.

Lemma staged_values_elem (l : list (string * overlayEntry)) (v : string) :
  v ∈ staged_values l <-> exists k e, (k, e) ∈ l /\ staged_value e = Some v.
Proof.
  unfold staged_values. rewrite list_elem_of_omap. split.
  - intros ([k e] & Hin & E). eauto.
  - intros (k & e & Hin & E). exists (k, e). now split.
Qed.

Lemma staged_values_nodup (l : list (string * overlayEntry)) : NoDup l.*1 ->
  (NoDup (staged_values l) <->
   forall k1 e1 k2 e2 v, (k1, e1) ∈ l -> (k2, e2) ∈ l ->
     staged_value e1 = Some v -> staged_value e2 = Some v -> k1 = k2).
Proof.
  induction l as [|[k e] l IH]; cbn [fmap list_fmap fst]; intros Hnd.
  - split; [intros _ k1 e1 k2 e2 v H1; inversion H1|constructor].
  - apply NoDup_cons in Hnd as [Hk Hnd]. specialize (IH Hnd).
    assert (Hin : forall k' e', (k', e') ∈ l -> k' <> k).
    { intros k' e' Hl ->. apply Hk. apply list_elem_of_fmap. now exists (k, e'). }
    unfold staged_values. cbn [omap list_omap snd]. fold (staged_values l).
    destruct (staged_value e) as [w|] eqn:Ew.
    + rewrite NoDup_cons, IH, staged_values_elem. split.
      * intros [Hw Hl] k1 e1 k2 e2 v H1 H2 E1 E2.
        apply elem_of_cons in H1 as [[= -> ->]|H1]; apply elem_of_cons in H2 as [[= -> ->]|H2]; auto.
        -- destruct Hw. exists k2, e2. split; [exact H2|congruence].
        -- destruct Hw. exists k1, e1. split; [exact H1|congruence].
        -- eapply Hl; eauto.
      * intros Hl. split.
        -- intros (k' & e' & Hin' & E'). apply (Hin _ _ Hin').
           symmetry. eapply (Hl k e k' e' w); eauto; [left|now right].
        -- intros k1 e1 k2 e2 v H1 H2. apply (Hl k1 e1 k2 e2 v); now right.
    + rewrite IH. split.
      * intros Hl k1 e1 k2 e2 v H1 H2 E1 E2.
        apply elem_of_cons in H1 as [[= -> ->]|H1]; apply elem_of_cons in H2 as [[= -> ->]|H2]; try congruence.
        eapply Hl; eauto.
      * intros Hl k1 e1 k2 e2 v H1 H2. apply (Hl k1 e1 k2 e2 v); now right.
Qed.

Lemma final_rows_lookup (rows : gmap string Row) (entries : gmap string overlayEntry) (k : string) :
  final_rows rows entries !! k =
  match entries !! k with Some e => if absent e then None else Some (row e) | None => rows !! k end.
Proof.
  unfold final_rows. rewrite lookup_union, lookup_fmap, !map_lookup_filter.
  destruct (entries !! k) as [e|] eqn:E, (rows !! k) as [r|] eqn:Er; try destruct (absent e) eqn:Ea;
    simplify_option_eq; congruence.
Qed.

Lemma fits_unique (rows : gmap string Row) (entries : gmap string overlayEntry) (c : uniqueIndexCache) :
  exact enc rows c -> unique_ok enc rows ->
  (fits c (dom entries) ∅ (map_to_list entries) <-> unique_ok enc (final_rows rows entries)).
Proof.
  intros [Hkeys Hown] Hrows. unfold fits. rewrite staged_values_nodup by apply NoDup_fst_map_to_list.
  assert (Hst : forall k e v, entries !! k = Some e -> staged_value e = Some v ->
    absent e = false /\ enc (row e) = Some v).
  { intros k e v _. unfold staged_value. destruct (absent e); [discriminate|auto]. }
  split.
  - intros [Hnd Hf] k1 k2 r1 r2 v. rewrite !final_rows_lookup. intros H1 H2 E1 E2.
    assert (Hmix : forall k e k' r', entries !! k = Some e -> absent e = false -> entries !! k' = None ->
      rows !! k' = Some r' -> enc (row e) = Some v -> enc r' = Some v -> False).
    { intros k e k' r' He Ha Hk' Hr' Ee Er'.
      assert (Hv : v ∈ staged_values (map_to_list entries)).
      { apply staged_values_elem. exists k, e. split; [now apply elem_of_map_to_list|].
        unfold staged_value. now rewrite Ha. }
      destruct (Hf v Hv) as [_ Hsub]. assert (Hin : k' ∈ owners_of c v) by (apply Hown, Hkeys; eauto).
      apply Hsub, elem_of_dom in Hin as [? Hin]. congruence. }
    destruct (entries !! k1) as [e1|] eqn:F1, (entries !! k2) as [e2|] eqn:F2;
      try (destruct (absent e1) eqn:A1; [discriminate|injection H1 as <-]);
      try (destruct (absent e2) eqn:A2; [discriminate|injection H2 as <-]).
    + apply (Hnd k1 e1 k2 e2 v); try (now apply elem_of_map_to_list);
        unfold staged_value; [now rewrite A1|now rewrite A2].
    + destruct (Hmix k1 e1 k2 r2); auto.
    + destruct (Hmix k2 e2 k1 r1); auto.
    + eapply Hrows; eauto.
  - intros Hfin. split.
    + intros k1 e1 k2 e2 v H1 H2 E1 E2. apply elem_of_map_to_list in H1, H2.
      destruct (Hst _ _ _ H1 E1), (Hst _ _ _ H2 E2).
      apply (Hfin k1 k2 (row e1) (row e2) v); auto; rewrite final_rows_lookup.
      * rewrite H1. now destruct (absent e1).
      * rewrite H2. now destruct (absent e2).
    + intros v Hv. split; [set_solver|]. intros k Hk. apply elem_of_dom.
      destruct (entries !! k) eqn:Ek; [eauto|]. exfalso.
      apply staged_values_elem in Hv as (k1 & e1 & H1 & E1). apply elem_of_map_to_list in H1.
      destruct (Hst _ _ _ H1 E1) as [A1 E1']. apply Hown, Hkeys in Hk as (r & Hr & Er).
      assert (k = k1) as ->; [|congruence].
      apply (Hfin k k1 r (row e1) v); auto; rewrite final_rows_lookup; [now rewrite Ek|].
      rewrite H1. now destruct (absent e1).
Qed.

Lemma plan_index_spec (rows : gmap string Row) (entries : gmap string overlayEntry) (c : uniqueIndexCache) :
  exact enc rows c -> unique_ok enc rows ->
  (forall key e, entries !! key = Some e -> absent e = false -> encodes (row e)) ->
  match plan_index idx c entries with
  | Done ch => unique_ok enc (final_rows rows entries) /\
      exact enc (final_rows rows entries) (apply_change None ch c)
  | Fail_ er => er = UniqueViolation (idx_Name idx) /\ ~ unique_ok enc (final_rows rows entries)
  | Panic => False
  end.
Proof.
  intros Hex Hok Henc. pose proof (fits_unique rows entries c Hex Hok) as Hfits.
  pose proof (plan_entries_spec c (dom entries) (map_to_list entries) ∅ ∅ (NoDup_fst_map_to_list _)) as Hp.
  unfold plan_index. destruct (plan_entries _ _ _ _ _ _) as [vs|er|].
  - rewrite bind_Done. destruct Hp as [Hp Hvs]; [intros key e Hin; apply (Henc key); now apply elem_of_map_to_list|].
    split; [now apply Hfits|]. set (ch := mkChange _ _ vs).
    destruct Hex as [Hkeys Hown]. destruct (apply_change_keys ch c Hown) as [Hc Hk].
    split; [|exact Hc]. intros k v. rewrite Hk, final_rows_lookup. cbn [change_values ch].
    rewrite Hvs, list_to_map_to_list, lookup_empty. unfold staged_value.
    destruct (entries !! k) as [e|] eqn:Ee; [|apply Hkeys].
    destruct (absent e); [naive_solver|]. naive_solver.
  - destruct Hp as [-> Hp]; [intros key e Hin; apply (Henc key); now apply elem_of_map_to_list|].
    split; [reflexivity|]. now rewrite <- Hfits.
  - apply Hp. intros key e Hin. apply (Henc key). now apply elem_of_map_to_list.
Qed.
End Exact.

(** *** Plans of several indexes *)

Lemma applied_other (plan : list uniqueCacheChange) (name : string) : forall caches,
  name ∉ map change_name plan -> applyUniquePlan caches plan None !! name = caches !! name.
Proof.
  induction plan as [|ch plan IH]; intros caches Hn; [reflexivity|]. cbn [map] in Hn.
  apply not_elem_of_cons in Hn as [Hne Hn]. unfold applyUniquePlan. cbn [fold_left].
  fold (applyUniquePlan (match caches !! change_name ch with
    | Some c => if (uc_id c =? change_cache ch)%N then <[change_name ch := apply_change None ch c]> caches else caches
    | None => caches end) plan None).
  rewrite IH by exact Hn. destruct (caches !! change_name ch); [|reflexivity].
  destruct (_ =? _)%N; [|reflexivity]. now rewrite lookup_insert_ne by congruence.
Qed.

Lemma prepared_names (entries : gmap string overlayEntry) (caches : gmap string uniqueIndexCache)
    (indexes : list Index) : forall plan,
  prepare_changes indexes caches entries = Done plan ->
  map change_name plan = map (fun idx => ToLower (idx_Name idx)) indexes.
Proof.
  induction indexes as [|idx indexes IH]; intros plan; cbn [prepare_changes map].
  - now intros [= <-].
  - unfold plan_index. destruct (plan_entries _ _ _ _ _ _); try discriminate. rewrite !bind_Done.
    destruct (prepare_changes indexes caches entries); try discriminate. rewrite bind_Done.
    intros [= <-]. cbn [map change_name]. f_equal. now apply IH.
Qed.

(** The cache of an index is exact, the index holds, and every staged row has a value under it. *)
Definition index_ready (caches : gmap string uniqueIndexCache) (rows : gmap string Row)
    (entries : gmap string overlayEntry) (idx : Index) : Prop :=
  (exists c, caches !! idx_Name idx = Some c /\ exact (enc idx) rows c) /\ unique_ok (enc idx) rows /\
  forall key e, entries !! key = Some e -> absent e = false -> encodes idx (row e).

(** C6: a write is planned against the unique indexes of its table, whose caches hold the values of
    the rows; the plan fails exactly when the rows after the write, with the staged rows in place of
    the old ones and the deleted rows gone, would break one of the indexes, and the error names such
    an index.  A plan that is made and then applied leaves the registered caches exact for the new
    rows, so the next write is judged correctly. *)
Theorem unique_writes_exact (indexes : list Index) (caches registered : gmap string uniqueIndexCache)
    (rows : gmap string Row) (entries : gmap string overlayEntry)
    (Hready : forall idx, idx ∈ indexes -> index_ready caches rows entries idx)
    (Hnames : NoDup (map (fun idx => ToLower (idx_Name idx)) indexes)) :
  match prepare_changes indexes caches entries with
  | Done plan => forall idx, idx ∈ indexes ->
      unique_ok (enc idx) (final_rows rows entries) /\
      (registered !! ToLower (idx_Name idx) = caches !! idx_Name idx ->
       exists c, applyUniquePlan registered plan None !! ToLower (idx_Name idx) = Some c /\
         exact (enc idx) (final_rows rows entries) c)
  | Fail_ er => exists idx, idx ∈ indexes /\ er = UniqueViolation (idx_Name idx) /\
      ~ unique_ok (enc idx) (final_rows rows entries)
  | Panic => False
  end.
Proof.
  revert registered. induction indexes as [|i indexes IH]; intros registered; cbn [prepare_changes].
  - intros idx Hin. inversion Hin.
  - cbn [map] in Hnames. apply NoDup_cons in Hnames as [Hi Hnames].
    destruct (Hready i) as ((c & Hc & Hex) & Hok & Henc); [left|]. rewrite Hc. cbn [from_option id].
    pose proof (plan_index_spec i rows entries c Hex Hok Henc) as Hplan.
    destruct (plan_index i c entries) as [ch|er|] eqn:Ech; [rewrite bind_Done|exists i; split; [left|exact Hplan]|exact Hplan].
    assert (Hch : change_name ch = ToLower (idx_Name i) /\ change_cache ch = uc_id c).
    { unfold plan_index in Ech. destruct (plan_entries _ _ _ _ _ _); try discriminate Ech.
      rewrite bind_Done in Ech. now injection Ech as <-. }
    destruct Hch as [Hn Hid]. destruct Hplan as [Hp1 Hp2].
    assert (Hrest : forall idx, idx ∈ indexes -> index_ready caches rows entries idx)
      by (intros; apply Hready; now right).
    pose proof (IH Hrest Hnames) as IH'. clear IH.
    destruct (prepare_changes indexes caches entries) as [plan|er|] eqn:Eplan;
      [rewrite bind_Done|destruct (IH' registered) as (idx & Hin & Hx); exists idx; split; [now right|exact Hx]|now apply IH'].
    set (reg := match registered !! change_name ch with
                | Some c => if (uc_id c =? change_cache ch)%N
                            then <[change_name ch := apply_change None ch c]> registered else registered
                | None => registered end).
    change (applyUniquePlan registered (ch :: plan) None) with (applyUniquePlan reg plan None).
    pose proof (prepared_names _ _ _ _ Eplan) as Hnm.
    intros idx Hin. apply elem_of_cons in Hin as [->|Hin].
    + split; [exact Hp1|]. intros Hreg. rewrite applied_other by (rewrite Hnm; exact Hi).
      exists (apply_change None ch c). split; [|exact Hp2]. unfold reg.
      rewrite Hn, Hreg, Hc, Hid, N.eqb_refl. apply lookup_insert_eq.
    + destruct (IH' reg idx Hin) as [H1 H2]. split; [exact H1|]. intros Hreg. apply H2.
      rewrite <- Hreg. unfold reg. destruct (registered !! change_name ch); [|reflexivity].
      destruct (_ =? _)%N; [|reflexivity]. rewrite lookup_insert_ne; [reflexivity|].
      rewrite Hn. intros E. apply Hi. rewrite E. apply list_elem_of_fmap. now exists idx.
Qed.
End Plan.

(** An index on column a; two rows, one of which moves to the value of the other. *)
#[local] Existing Instance plain.

Definition no_evaluators : Evaluators := mkEvaluators None None None.
Definition index_a : Index := mkIndex "ia" "t" [mkIndexColumn "a" false EmptyString] true 0 EmptyString.
Definition row_a (z : Z) : Row := {["a" := VInt GoInt64 z]}.
Definition sample_rows : gmap string Row := {["k1" := row_a 1; "k2" := row_a 2]}.
Definition sample_cache : uniqueIndexCache := uc_add (uc_add (empty_cache 7 "t") "k1" "2:i1") "k2" "2:i2".
Definition sample_entries : gmap string overlayEntry := {["k1" := mkEntry (row_a 2) false]}.
Definition swap_entries : gmap string overlayEntry :=
  {["k1" := mkEntry (row_a 2) false; "k2" := mkEntry (row_a 1) false]}.

Example ex_duplicate : prepare_changes no_evaluators [index_a] {["ia" := sample_cache]} sample_entries
  = Fail_ (UniqueViolation "ia").
Proof. vm_compute. reflexivity. Qed.

Lemma sample_ready : index_ready no_evaluators {["ia" := sample_cache]} sample_rows swap_entries index_a.
Proof.
  split; [|split].
  - exists sample_cache. split; [reflexivity|]. split.
    + intros k v. split.
      * intros E. assert (Hk : k ∈ dom (uc_keys sample_cache)) by (apply elem_of_dom; eauto).
        change (dom (uc_keys sample_cache)) with ({["k1"; "k2"]} : gset string) in Hk.
        apply elem_of_union in Hk as [Hk|Hk]; apply elem_of_singleton in Hk as ->;
          injection E as <-; eexists; split; reflexivity.
      * intros (r & Hr & Er). assert (Hk : k ∈ dom sample_rows) by (apply elem_of_dom; eauto).
        change (dom sample_rows) with ({["k1"; "k2"]} : gset string) in Hk.
        apply elem_of_union in Hk as [Hk|Hk]; apply elem_of_singleton in Hk as ->;
          injection Hr as <-; injection Er as <-; reflexivity.
    + unfold sample_cache. apply add_coherent; [reflexivity|]. apply add_coherent; [reflexivity|].
      intros k v. unfold owners_of. cbn. rewrite !lookup_empty. set_solver.
  - intros k1 k2 r1 r2 v H1 H2 E1 E2.
    assert (Hd : forall k r, sample_rows !! k = Some r -> (k = "k1" /\ r = row_a 1) \/ (k = "k2" /\ r = row_a 2)).
    { intros k r Hr. assert (Hk : k ∈ dom sample_rows) by (apply elem_of_dom; eauto).
      change (dom sample_rows) with ({["k1"; "k2"]} : gset string) in Hk.
      apply elem_of_union in Hk as [Hk|Hk]; apply elem_of_singleton in Hk as ->; injection Hr as <-; auto. }
    destruct (Hd _ _ H1) as [[-> ->]|[-> ->]], (Hd _ _ H2) as [[-> ->]|[-> ->]]; try reflexivity;
      vm_compute in E1, E2; congruence.
  - intros key e He _. assert (Hk : key ∈ dom swap_entries) by (apply elem_of_dom; eauto).
    change (dom swap_entries) with ({["k1"; "k2"]} : gset string) in Hk.
    apply elem_of_union in Hk as [Hk|Hk]; apply elem_of_singleton in Hk as ->;
      injection He as <-; eexists; vm_compute; reflexivity.
Qed.

(** The two rows exchange their values in one write. *)
Lemma unique_writes_exact_witness :
  match prepare_changes no_evaluators [index_a] {["ia" := sample_cache]} swap_entries with
  | Done plan => forall idx, idx ∈ [index_a] ->
      unique_ok (enc no_evaluators idx) (final_rows sample_rows swap_entries) /\
      (({["ia" := sample_cache]} : gmap string uniqueIndexCache) !! ToLower (idx_Name idx)
         = ({["ia" := sample_cache]} : gmap string uniqueIndexCache) !! idx_Name idx ->
       exists c, applyUniquePlan {["ia" := sample_cache]} plan None !! ToLower (idx_Name idx) = Some c /\
         exact (enc no_evaluators idx) (final_rows sample_rows swap_entries) c)
  | Fail_ er => exists idx, idx ∈ [index_a] /\ er = UniqueViolation (idx_Name idx) /\
      ~ unique_ok (enc no_evaluators idx) (final_rows sample_rows swap_entries)
  | Panic => False
  end.
Proof.
  apply (unique_writes_exact no_evaluators [index_a] {["ia" := sample_cache]} {["ia" := sample_cache]}
           sample_rows swap_entries).
  - intros idx Hin. apply list_elem_of_singleton in Hin as ->. exact sample_ready.
  - cbn [map]. apply NoDup_singleton.
Defined.
