(* ===== verification/ForeignKey.v ===== *)
(** * Foreign keys (pkg/storage/foreign_key.go): the catalogue and the validation of a state

    The graph of the tables that constraints connect, its closure, and the validation of a set of
    final row images against every constraint among them. *)
From Stdlib Require Import NArith ZArith Lia Ascii String.
From stdpp Require Import base option list list_numbers gmap sorting strings relations.
From S2P Require Import Prelude Bytes RowCodec Float Values Wire Schema.
#[local] Set Warnings "-clear-no-such-hyp".

(** ** The catalogue *)

Section Catalogue.
Context `{Dynamic}.

Record referencingForeignKey : Type := mkRef { ref_Table : string; ref_FK : ForeignKeyConstraint }.

Record foreignKeyCatalog : Type := mkCatalog {
  fkc_version : N; participants : gset string;
  referencing : gmap string (list referencingForeignKey);
  adjacency : gmap string (gset string) }.

Definition neighbors (adj : gmap string (gset string)) (t : string) : gset string := default ∅ (adj !! t).

Definition link (a b : string) (adj : gmap string (gset string)) : gmap string (gset string) :=
  <[a := {[b]} ∪ neighbors adj a]> adj.

Definition add_constraint (s : Schema) (c : foreignKeyCatalog) (fk : ForeignKeyConstraint) : foreignKeyCatalog :=
  let child := ToLower (Name s) in
  let parent := ToLower (RefTable fk) in
  mkCatalog (fkc_version c) ({[parent]} ∪ ({[child]} ∪ participants c))
    (<[parent := default [] (referencing c !! parent) ++ [mkRef (Name s) fk]]> (referencing c))
    (link parent child (link child parent (adjacency c))).

(** [buildForeignKeyCatalog], from the definitions of the tables in the order of the list. *)
Definition buildForeignKeyCatalog (version : N) (schemas : list Schema) : foreignKeyCatalog :=
  fold_left (fun c s => fold_left (add_constraint s) (ForeignKeys s) c) schemas
    (mkCatalog version ∅ ∅ ∅).

(** ** The closure *)

(** The work list; [None] when the fuel is used up. *)
Fixpoint closure_loop (fuel : nat) (adj : gmap string (gset string)) (queue : list string)
    (closed : gset string) : option (gset string) :=
  match fuel with
  | O => None
  | S k =>
      match queue with
      | [] => Some closed
      | t :: queue =>
          if decide (t ∈ closed) then closure_loop k adj queue closed
          else
            let closed := {[t]} ∪ closed in
            let next := List.filter (fun n => negb (bool_decide (n ∈ closed)))
                          (merge_sort str_le (elements (neighbors adj t))) in
            closure_loop k adj (queue ++ next) closed
      end
  end.

(** Each table is opened once and adds its neighbours to the list. *)
Definition closure_fuel (adj : gmap string (gset string)) (queue : list string) : nat :=
  S (length queue + map_fold (fun _ ns n => size ns + n) 0 adj).

Definition closure (c : foreignKeyCatalog) (tables : list string) : gset string :=
  let queue := List.filter (fun t => bool_decide (t ∈ participants c)) (map ToLower tables) in
  default ∅ (closure_loop (closure_fuel (adjacency c) queue) (adjacency c) queue ∅).

(** ** Dependencies *)

Definition foreignKeyReferenceName (child : string) (fk : ForeignKeyConstraint) : string :=
  (fk_Label fk ++ " on " ++ child)%string.

Definition add_label (labels : list string) (l : string) : list string :=
  if existsb (String.eqb l) labels then labels else labels ++ [l].

Definition column_dependency (c : foreignKeyCatalog) (s : Schema) (table column : string) : list string :=
  let own := map (foreignKeyReferenceName (Name s))
               (List.filter (fun fk => existsb (fun n => EqualFold n column) (fk_Columns fk)) (ForeignKeys s)) in
  let others := map (fun r => foreignKeyReferenceName (ref_Table r) (ref_FK r))
                  (List.filter (fun r => existsb (fun n => EqualFold n column) (RefColumns (ref_FK r)))
                     (default [] (referencing c !! ToLower table))) in
  merge_sort str_le (fold_left add_label (own ++ others) []).

Definition table_dependency (c : foreignKeyCatalog) (table : string) : list string :=
  merge_sort str_le (fold_left add_label
    (map (fun r => foreignKeyReferenceName (ref_Table r) (ref_FK r))
       (default [] (referencing c !! ToLower table))) []).

(** ** Validation of a state *)

(** The keys the parent rows hold. *)
Definition parent_keys (rows : list Row) (columns : list string) : gset string :=
  list_to_set (omap (fun r => joinForeignKeyValues <$> foreignKeyValues r columns) rows).

Definition set_key (parent : string) (columns : list string) : string :=
  (parent ++ String NUL (joinForeignKeyValues columns))%string.

Abbreviation key_sets := (gmap string (gset string)).

Definition dangling (fk : ForeignKeyConstraint) (keys : gset string) (r : Row) : bool :=
  match foreignKeyValues r (fk_Columns fk) with
  | Some vs => negb (bool_decide (joinForeignKeyValues vs ∈ keys))
  | None => false
  end.

(** One constraint of a table: the set of parent keys is computed once. *)
Definition validate_constraint (tables : gmap string (list Row)) (s : Schema) (rows : list Row)
    (sets : key_sets) (fk : ForeignKeyConstraint) : outcome error key_sets :=
  let parent := ToLower (RefTable fk) in
  match tables !! parent with
  | None => Fail_ (Errorf ("foreign key " ++ fk_Label fk ++ ": parent table " ++ RefTable fk
                           ++ " is not available for validation"))
  | Some parentRows =>
      let key := set_key parent (RefColumns fk) in
      let set := match sets !! key with Some s => s | None => parent_keys parentRows (RefColumns fk) end in
      if existsb (dangling fk set) rows then Fail_ (ForeignKeyViolation (Name s) (fk_Label fk))
      else Done (<[key := set]> sets)
  end.

Fixpoint validate_constraints (tables : gmap string (list Row)) (s : Schema) (rows : list Row)
    (fks : list ForeignKeyConstraint) (sets : key_sets) : outcome error key_sets :=
  match fks with
  | [] => Done sets
  | fk :: rest =>
      sets ← validate_constraint tables s rows sets fk;
      validate_constraints tables s rows rest sets
  end.

Fixpoint validate_tables (tables : gmap string (list Row)) (schemas : gmap string Schema)
    (todo : list (string * list Row)) (sets : key_sets) : outcome error () :=
  match todo with
  | [] => Done ()
  | (t, rows) :: rest =>
      match schemas !! t with
      | None => validate_tables tables schemas rest sets
      | Some s =>
          sets ← validate_constraints tables s rows (ForeignKeys s) sets;
          validate_tables tables schemas rest sets
      end
  end.

Definition validateForeignKeyState (tables : gmap string (list Row)) (schemas : gmap string Schema)
    : outcome error () := validate_tables tables schemas (map_to_list tables) ∅.

(** ** The closure is what the constraints connect *)

Definition step_adj (adj : gmap string (gset string)) (a b : string) : Prop := b ∈ neighbors adj a.

(** The tables that [t] in the queue leads to. *)
Definition leads (adj : gmap string (gset string)) (from : list string) (t : string) : Prop :=
  exists a, a ∈ from /\ rtc (step_adj adj) a t.

Definition open_degrees (adj : gmap string (gset string)) (closed : gset string) : nat :=
  map_fold (fun _ ns n => size ns + n) 0 (filter (fun tn => tn.1 ∉ closed) adj).

Lemma open_degrees_close (adj : gmap string (gset string)) (closed : gset string) (t : string) :
  t ∉ closed -> size (neighbors adj t) + open_degrees adj ({[t]} ∪ closed) = open_degrees adj closed.
Proof.
  intros Ht. unfold open_degrees, neighbors. destruct (adj !! t) as [ns|] eqn:E; cbn [from_option id].
  - assert (Hf : filter (fun tn => tn.1 ∉ closed) adj
                 = <[t := ns]> (filter (fun tn => tn.1 ∉ {[t]} ∪ closed) adj)).
    { apply map_eq. intros k. destruct (decide (k = t)) as [->|Hk].
      - rewrite lookup_insert_eq. apply map_lookup_filter_Some. now split.
      - rewrite lookup_insert_ne by congruence. apply option_eq. intros x.
        rewrite !map_lookup_filter_Some. cbn. rewrite not_elem_of_union, not_elem_of_singleton. naive_solver. }
    rewrite Hf, map_fold_insert_L.
    + reflexivity.
    + intros. lia.
    + apply map_lookup_filter_None. right. intros x _. cbn. rewrite not_elem_of_union, not_elem_of_singleton. naive_solver.
  - rewrite size_empty. cbn. f_equal. apply map_eq. intros k. apply option_eq. intros x.
    rewrite !map_lookup_filter_Some. cbn. rewrite not_elem_of_union, not_elem_of_singleton.
    split; [naive_solver|]. intros [Hx Hc]. split; [exact Hx|]. split; [congruence|exact Hc].
Qed.

(** From a closed table one stays in the closed tables or passes through the list. *)
Definition guarded (adj : gmap string (gset string)) (queue : list string) (closed : gset string) : Prop :=
  forall a b, a ∈ closed -> step_adj adj a b -> (b ∈ closed) \/ (b ∈ queue).

Lemma guarded_leads adj queue closed x u :
  guarded adj queue closed -> rtc (step_adj adj) x u -> x ∈ closed -> (u ∈ closed) \/ leads adj queue u.
Proof.
  intros Hg Hr. induction Hr as [x|x y z Hxy Hyz IH]; intros Hx; [auto|].
  destruct (Hg x y Hx Hxy) as [Hy|Hy]; [auto|]. right. exists y. now split.
Qed.

Lemma closure_loop_spec (adj : gmap string (gset string)) (fuel : nat) : forall queue closed,
  length queue + open_degrees adj closed < fuel ->
  guarded adj queue closed ->
  exists res, closure_loop fuel adj queue closed = Some res /\
    forall t, t ∈ res <-> (t ∈ closed) \/ leads adj queue t.
Proof.
  induction fuel as [|k IH]; intros queue closed Hf Hinv; [lia|]. cbn [closure_loop].
  destruct queue as [|t queue].
  { exists closed. split; [reflexivity|]. intros t. split; [auto|]. intros [Ht|(a & Ha & _)]; [exact Ht|inversion Ha]. }
  (* what is reached from a closed table is reached from the queue *)
  cbn [length] in Hf. case_decide as Ht.
  - assert (Hinv' : guarded adj queue closed).
    { intros a b Ha Hab. destruct (Hinv a b Ha Hab) as [?|Hb]; [auto|].
      apply elem_of_cons in Hb as [->|?]; auto. }
    destruct (IH queue closed) as (res & Hres & Hspec); [lia|exact Hinv'|].
    exists res. split; [exact Hres|]. intros u. rewrite Hspec. split.
    + intros [?|(a & Ha & Hr)]; [auto|]. right. exists a. split; [now right|exact Hr].
    + intros [?|(a & Ha & Hr)]; [auto|]. apply elem_of_cons in Ha as [->|Ha].
      * eapply guarded_leads; eauto.
      * right. exists a. now split.
  - set (closed' := {[t]} ∪ closed).
    set (next := List.filter _ _).
    assert (Hnext : forall n, n ∈ next <-> (n ∈ neighbors adj t) /\ (n ∉ closed')).
    { intros n. unfold next. rewrite list_elem_of_In, filter_In, <- list_elem_of_In.
      rewrite (merge_sort_Permutation str_le), elem_of_elements, negb_true_iff, bool_decide_eq_false. tauto. }
    assert (Hlen : length next <= size (neighbors adj t)).
    { unfold next. etransitivity; [apply filter_length_le|].
      rewrite (Permutation_length (merge_sort_Permutation str_le _)). reflexivity. }
    pose proof (open_degrees_close adj closed t Ht) as Hdeg. fold closed' in Hdeg.
    assert (Hinv' : guarded adj (queue ++ next) closed').
    { intros a b Ha Hab. destruct (decide (b ∈ closed')) as [?|Hb]; [auto|right].
      apply elem_of_app. unfold closed' in Ha. apply elem_of_union in Ha as [Ha|Ha].
      - apply elem_of_singleton in Ha as ->. right. apply Hnext. now split.
      - destruct (Hinv a b Ha Hab) as [Hc|Hc]; [set_solver|].
        apply elem_of_cons in Hc as [->|?]; [set_solver|now left]. }
    destruct (IH (queue ++ next) closed') as (res & Hres & Hspec); [rewrite length_app; lia|exact Hinv'|].
    exists res. split; [exact Hres|]. intros u. rewrite Hspec. split.
    + intros [Hu|(a & Ha & Hr)].
      * unfold closed' in Hu. apply elem_of_union in Hu as [Hu|Hu]; [|auto].
        apply elem_of_singleton in Hu as ->. right. exists t. split; [left|constructor].
      * right. apply elem_of_app in Ha as [Ha|Ha].
        -- exists a. split; [now right|exact Hr].
        -- exists t. split; [left|]. apply Hnext in Ha as [Ha _]. eapply rtc_l; eauto.
    + intros [Hu|(a & Ha & Hr)]; [left; unfold closed'; set_solver|]. apply elem_of_cons in Ha as [->|Ha].
      * eapply guarded_leads; eauto. unfold closed'. set_solver.
      * right. exists a. split; [apply elem_of_app; now left|exact Hr].
Qed.

(** C39: the closure of a set of tables is found, and it is exactly the tables that the constraints
    connect, in any number of steps, with those of the set that take part in a constraint. *)
Theorem closure_connected (c : foreignKeyCatalog) (tables : list string) (t : string) :
  t ∈ closure c tables <->
  exists u, u ∈ tables /\ (ToLower u ∈ participants c) /\ rtc (step_adj (adjacency c)) (ToLower u) t.
Proof.
  unfold closure. set (queue := List.filter _ _).
  destruct (closure_loop_spec (adjacency c) (closure_fuel (adjacency c) queue) queue ∅) as (res & -> & Hres).
  - unfold closure_fuel, open_degrees. rewrite map_filter_id by (intros; set_solver). lia.
  - intros a b Ha. now apply elem_of_empty in Ha.
  - cbn [from_option id]. rewrite Hres. unfold leads, queue. split.
    + intros [Ht|(a & Ha & Hr)]; [set_solver|].
      apply list_elem_of_In, filter_In in Ha as [Ha Hp]. apply in_map_iff in Ha as (u & <- & Hu).
      exists u. split; [now apply list_elem_of_In|]. split; [now apply bool_decide_eq_true in Hp|exact Hr].
    + intros (u & Hu & Hp & Hr). right. exists (ToLower u). split; [|exact Hr].
      apply list_elem_of_In, filter_In. split; [apply in_map_iff; exists u; split; [easy|now apply list_elem_of_In]|].
      now apply bool_decide_eq_true.
Qed.

(** ** The validation is exact *)

Definition no_nul (s : string) : bool := string_forallb (fun c => negb (c =b NUL)) s.

Lemma set_key_inj (p p' : string) (cols cols' : list string) : no_nul p = true -> no_nul p' = true ->
  set_key p cols = set_key p' cols' -> p = p' /\ cols = cols'.
Proof.
  intros Hp Hp' E. apply (break_at (fun c => negb (c =b NUL))) in E as [-> E]; [|reflexivity|exact Hp|exact Hp'].
  split; [reflexivity|now apply join_inj].
Qed.

Definition sets_ok (tables : gmap string (list Row)) (sets : key_sets) : Prop :=
  forall parent cols set, no_nul parent = true -> sets !! set_key parent cols = Some set ->
    exists rows, tables !! parent = Some rows /\ set = parent_keys rows cols.

(** The row refers to a row of the parent table. *)
Definition referenced (tables : gmap string (list Row)) (fk : ForeignKeyConstraint) (r : Row) : Prop :=
  forall vs, foreignKeyValues r (fk_Columns fk) = Some vs ->
    exists rows pr, tables !! ToLower (RefTable fk) = Some rows /\ pr ∈ rows /\
      foreignKeyValues pr (RefColumns fk) = Some vs.

Lemma dangling_spec (tables : gmap string (list Row)) (fk : ForeignKeyConstraint) (parentRows : list Row) (r : Row) :
  tables !! ToLower (RefTable fk) = Some parentRows ->
  dangling fk (parent_keys parentRows (RefColumns fk)) r = false <-> referenced tables fk r.
Proof.
  intros Hp. unfold dangling, referenced. destruct (foreignKeyValues r (fk_Columns fk)) as [vs|]; [|naive_solver].
  rewrite negb_false_iff, bool_decide_eq_true. unfold parent_keys. rewrite elem_of_list_to_set, list_elem_of_omap.
  split.
  - intros (pr & Hin & E) vs' [= <-]. exists parentRows, pr. split; [exact Hp|]. split; [exact Hin|].
    apply fmap_Some in E as (ws & Ew & E). apply join_inj in E as ->. exact Ew.
  - intros Hr. destruct (Hr vs eq_refl) as (rows & pr & Hrows & Hin & E).
    exists pr. split; [congruence|]. now rewrite E.
Qed.

(** Every parent name is free of NUL bytes, as the lexer makes them. *)
Definition names_ok (fks : list ForeignKeyConstraint) : Prop :=
  Forall (fun fk => no_nul (ToLower (RefTable fk)) = true) fks.

Definition constraint_holds (tables : gmap string (list Row)) (rows : list Row) (fk : ForeignKeyConstraint) : Prop :=
  is_Some (tables !! ToLower (RefTable fk)) /\ Forall (referenced tables fk) rows.

Lemma validate_constraint_spec tables s rows sets fk :
  no_nul (ToLower (RefTable fk)) = true -> sets_ok tables sets ->
  match validate_constraint tables s rows sets fk with
  | Done sets' => constraint_holds tables rows fk /\ sets_ok tables sets'
  | Fail_ e => ~ constraint_holds tables rows fk
  | Panic => False
  end.
Proof.
  intros Hnul Hsets. unfold validate_constraint. cbv zeta. destruct (tables !! ToLower (RefTable fk)) as [prs|] eqn:Ep.
  2:{ intros [[? [=]] _]. congruence. }
  set (set_ := match sets !! _ with Some s => s | None => _ end).
  assert (Hset : set_ = parent_keys prs (RefColumns fk)).
  { unfold set_. destruct (sets !! _) as [st|] eqn:E; [|reflexivity].
    destruct (Hsets _ _ _ Hnul E) as (rs & Hrs & ->). congruence. }
  rewrite Hset. destruct (existsb _ rows) eqn:Ed.
  - intros [_ Hall]. apply existsb_exists in Ed as (r & Hin & Hr). apply list_elem_of_In in Hin.
    rewrite Forall_forall in Hall. apply Hall, (dangling_spec tables fk prs r Ep) in Hin. congruence.
  - split; [split; [eauto|]|].
    + apply Forall_forall. intros r Hin. apply (dangling_spec tables fk prs r Ep).
      destruct (dangling fk _ r) eqn:E; [|reflexivity]. rewrite <- Ed. symmetry.
      apply existsb_exists. exists r. split; [now apply list_elem_of_In|exact E].
    + intros parent cols st Hpn. destruct (decide (set_key parent cols = set_key (ToLower (RefTable fk)) (RefColumns fk))) as [E|E].
      * rewrite E. rewrite lookup_insert_eq. intros [= <-]. apply set_key_inj in E as [-> ->]; auto. eauto.
      * rewrite lookup_insert_ne by congruence. now apply Hsets.
Qed.

Lemma validate_constraints_spec tables s rows fks : forall sets,
  names_ok fks -> sets_ok tables sets ->
  match validate_constraints tables s rows fks sets with
  | Done sets' => Forall (constraint_holds tables rows) fks /\ sets_ok tables sets'
  | Fail_ e => ~ Forall (constraint_holds tables rows) fks
  | Panic => False
  end.
Proof.
  induction fks as [|fk fks IH]; intros sets Hn Hsets; cbn [validate_constraints]; [now split|].
  apply Forall_cons in Hn as [Hfk Hn]. pose proof (validate_constraint_spec tables s rows sets fk Hfk Hsets) as H1.
  destruct (validate_constraint tables s rows sets fk) as [sets'|e|]; [|intros HF; now apply Forall_cons in HF as [? _]|exact H1].
  rewrite bind_Done. destruct H1 as [H1 Hsets']. specialize (IH sets' Hn Hsets').
  destruct (validate_constraints tables s rows fks sets') as [sets''|e|].
  - destruct IH as [IH1 IH2]. split; [now constructor|exact IH2].
  - intros HF. now apply Forall_cons in HF as [_ ?].
  - exact IH.
Qed.

Definition table_holds (tables : gmap string (list Row)) (schemas : gmap string Schema) (tr : string * list Row) : Prop :=
  forall s, schemas !! tr.1 = Some s -> Forall (constraint_holds tables tr.2) (ForeignKeys s).

Lemma validate_tables_spec tables schemas todo : forall sets,
  (forall t s, schemas !! t = Some s -> names_ok (ForeignKeys s)) -> sets_ok tables sets ->
  match validate_tables tables schemas todo sets with
  | Done _ => Forall (table_holds tables schemas) todo
  | Fail_ e => ~ Forall (table_holds tables schemas) todo
  | Panic => False
  end.
Proof.
  induction todo as [|[t rows] todo IH]; intros sets Hn Hsets; cbn [validate_tables]; [constructor|].
  destruct (schemas !! t) as [s|] eqn:Es.
  - pose proof (validate_constraints_spec tables s rows (ForeignKeys s) sets (Hn _ _ Es) Hsets) as H1.
    assert (Hh : table_holds tables schemas (t, rows) <-> Forall (constraint_holds tables rows) (ForeignKeys s)).
    { unfold table_holds. cbn. rewrite Es. naive_solver. }
    destruct (validate_constraints _ _ _ _ _) as [sets'|e|]; [|intros HF; apply Forall_cons in HF as [HF _]; apply H1; exact (proj1 Hh HF)|exact H1].
    rewrite bind_Done. destruct H1 as [H1 Hsets']. specialize (IH sets' Hn Hsets').
    destruct (validate_tables tables schemas todo sets'); [constructor; [now apply Hh|exact IH]| |exact IH].
    intros HF. now apply Forall_cons in HF as [_ ?].
  - specialize (IH sets Hn Hsets). destruct (validate_tables tables schemas todo sets); [constructor; [|exact IH]| |exact IH].
    + intros s'. cbn. congruence.
    + intros HF. now apply Forall_cons in HF as [_ ?].
Qed.

(** C5: the validation of a state accepts it exactly when, for every row of every table that declares a
    foreign key with no NULL in it, some row of the parent table has the same texts in the referenced
    columns, column by column, although the texts are joined into one string, and although the set of
    parent keys is computed once per parent and columns; the names of the parent tables hold no NUL
    byte.  The texts are those of formatIndexValue, so values with one text count as the same: the
    integers 2^53 and 2^53+1 do, as [SessionView.foreign_key_confuses_large_integers] shows. *)
Theorem foreign_keys_exact (tables : gmap string (list Row)) (schemas : gmap string Schema)
    (Hnames : forall t s, schemas !! t = Some s -> names_ok (ForeignKeys s)) :
  validateForeignKeyState tables schemas = Done () <->
  forall t s rows fk, tables !! t = Some rows -> schemas !! t = Some s -> fk ∈ ForeignKeys s ->
    is_Some (tables !! ToLower (RefTable fk)) /\ forall r, r ∈ rows -> referenced tables fk r.
Proof.
  pose proof (validate_tables_spec tables schemas (map_to_list tables) ∅ Hnames) as H1.
  unfold validateForeignKeyState.
  assert (Hall : Forall (table_holds tables schemas) (map_to_list tables) <->
    forall t s rows fk, tables !! t = Some rows -> schemas !! t = Some s -> fk ∈ ForeignKeys s ->
      is_Some (tables !! ToLower (RefTable fk)) /\ forall r, r ∈ rows -> referenced tables fk r).
  { rewrite Forall_forall. unfold table_holds, constraint_holds. split.
    - intros HF t s rows fk Ht Hs Hfk. apply elem_of_map_to_list in Ht. specialize (HF _ Ht s Hs).
      rewrite Forall_forall in HF. destruct (HF fk Hfk) as [Hp Hr]. split; [exact Hp|]. now apply Forall_forall.
    - intros HF [t rows] Hin s Hs. apply elem_of_map_to_list in Hin. apply Forall_forall. intros fk Hfk.
      destruct (HF t s rows fk Hin Hs Hfk) as [Hp Hr]. split; [exact Hp|]. now apply Forall_forall. }
  rewrite <- Hall.
  destruct (validate_tables _ _ _ _) as [[]|e|]; (split; [try discriminate; intros _|intros Hx]);
    try reflexivity; try (apply H1; intros ? ? ? ? E; now rewrite lookup_empty in E).
  - exfalso. revert Hx. apply H1. intros ? ? ? ? E. now rewrite lookup_empty in E.
  - exfalso. apply H1. intros ? ? ? ? E. now rewrite lookup_empty in E.
Qed.

End Catalogue.

(** A child row that refers to the second of two parents. *)
#[local] Existing Instance plain.

Definition sample_fk : ForeignKeyConstraint := mkFK EmptyString ["p"] "Parent" ["id"] EmptyString EmptyString.
Definition sample_child : Schema :=
  mkSchema "child" [] "id" [] 0 0 false [] [sample_fk].
Definition sample_tables : gmap string (list Row) :=
  {["parent" := [{["id" := VInt GoInt64 1]}; {["id" := VInt GoInt64 2]}];
    "child" := [{["p" := VInt GoInt64 2]}; {["p" := VNil]}]]}.

Lemma foreign_keys_exact_witness :
  validateForeignKeyState sample_tables {["child" := sample_child]} = Done () <->
  forall t s rows fk, sample_tables !! t = Some rows ->
    ({["child" := sample_child]} : gmap string Schema) !! t = Some s -> fk ∈ ForeignKeys s ->
    is_Some (sample_tables !! ToLower (RefTable fk)) /\ forall r, r ∈ rows -> referenced sample_tables fk r.
Proof.
  apply foreign_keys_exact. intros t s Hs. apply lookup_singleton_Some in Hs as [<- <-].
  constructor; [reflexivity|constructor].
Defined.

Example ex_validate : validateForeignKeyState sample_tables {["child" := sample_child]} = Done ().
Proof. vm_compute. reflexivity. Qed.
