(* ===== verification/TableCache.v ===== *)
(** * The derived state of the tables (pkg/storage/table.go and cache_commit.go)

    What the table manager keeps in memory about the durable rows: the equality indexes with the
    row ids and keys they need, the row counts, the generations that transactions compare, the
    caches of the unique indexes.  A commit prepares its changes to the indexes before it is durable
    and applies them after.  A write to a map that is not there stops the program: [Panic]. *)
From Stdlib Require Import NArith ZArith Lia Ascii String.
From stdpp Require Import base option list list_numbers gmap sorting strings.
From S2P Require Import Prelude Bytes RowCodec Float Values Wire Schema UniqueCache.
#[local] Set Warnings "-clear-no-such-hyp".

(** The maps under [cacheMu]; an index that is not a key of [indexCache] has not been built. *)
Record IndexCaches : Type := mkIC {
  indexCache : gmap string (gmap string (list Z));
  indexRowValues : gmap string (gmap Z string);
  indexTable : gmap string string;
  rowKeyCache : gmap string (gmap Z string);
  keyRowCache : gmap string (gmap string Z) }.

(** [countsInit] holds the tables whose count is known; [countGeneration] the creation time it is for. *)
Record Counts : Type := mkCounts {
  counts : gmap string Z; countsInit : gset string; countGeneration : gmap string Z }.

Record Generations : Type := mkGens {
  generations : gmap string N; predicateGenerations : gmap string N }.

Record TableManager : Type := mkTM {
  uniqueCache : gmap string uniqueIndexCache; next_uc : N;
  caches : IndexCaches; disabledIndexes : gset string; tm_counts : Counts; gens : Generations }.

Definition no_caches : IndexCaches := mkIC ∅ ∅ ∅ ∅ ∅.
Definition NewTableManager : TableManager := mkTM ∅ 1 no_caches ∅ (mkCounts ∅ ∅ ∅) (mkGens ∅ ∅).

Definition with_unique (u : gmap string uniqueIndexCache) (m : TableManager) : TableManager :=
  mkTM u (next_uc m) (caches m) (disabledIndexes m) (tm_counts m) (gens m).
Definition with_caches (c : IndexCaches) (m : TableManager) : TableManager :=
  mkTM (uniqueCache m) (next_uc m) c (disabledIndexes m) (tm_counts m) (gens m).
Definition with_disabled (d : gset string) (m : TableManager) : TableManager :=
  mkTM (uniqueCache m) (next_uc m) (caches m) d (tm_counts m) (gens m).
Definition with_counts (c : Counts) (m : TableManager) : TableManager :=
  mkTM (uniqueCache m) (next_uc m) (caches m) (disabledIndexes m) c (gens m).
Definition with_gens (g : Generations) (m : TableManager) : TableManager :=
  mkTM (uniqueCache m) (next_uc m) (caches m) (disabledIndexes m) (tm_counts m) g.
Definition fresh_uc (m : TableManager) : TableManager :=
  mkTM (uniqueCache m) (next_uc m + 1) (caches m) (disabledIndexes m) (tm_counts m) (gens m).

(** ** Generations *)

Definition incr64 (n : N) : N := (n + 1) mod 2 ^ 64.

Definition generation (m : TableManager) (table : string) : N :=
  default 0%N (generations (gens m) !! ToLower table).

Definition bumpGeneration (table : string) (m : TableManager) : TableManager :=
  with_gens (mkGens (<[ToLower table := incr64 (generation m table)]> (generations (gens m)))
               (predicateGenerations (gens m))) m.

Definition indexPredicateKey (table indexName value : string) : string :=
  (ToLower table ++ String NUL (ToLower indexName ++ String NUL value))%string.

Definition indexPredicateWildcardKey (table : string) : string := (ToLower table ++ String NUL "*")%string.

Definition predicateGeneration (m : TableManager) (key : string) : N :=
  default 0%N (predicateGenerations (gens m) !! key).

Definition bump_predicate (key : string) (m : TableManager) : TableManager :=
  with_gens (mkGens (generations (gens m))
               (<[key := incr64 (predicateGeneration m key)]> (predicateGenerations (gens m)))) m.

Definition bumpIndexPredicateWildcard (table : string) (m : TableManager) : TableManager :=
  bump_predicate (indexPredicateWildcardKey table) m.

(** ** Dropping derived state *)

(** The maps of the indexes of a table. *)
Definition drop_table_indexes (key : string) (c : IndexCaches) : IndexCaches :=
  let gone := dom (filter (fun it => it.2 = key) (indexTable c)) in
  mkIC (filter (fun kv => kv.1 ∉ gone) (indexCache c)) (filter (fun kv => kv.1 ∉ gone) (indexRowValues c))
    (filter (fun kv => kv.1 ∉ gone) (indexTable c)) (delete key (rowKeyCache c)) (delete key (keyRowCache c)).

Definition invalidateCache (table : string) (m : TableManager) : TableManager :=
  let key := ToLower table in
  with_counts (mkCounts (delete key (counts (tm_counts m))) (countsInit (tm_counts m) ∖ {[key]})
                 (delete key (countGeneration (tm_counts m))))
    (with_caches (drop_table_indexes key (caches m)) m).

Definition InvalidateCache (table : string) (m : TableManager) : TableManager :=
  let m := invalidateCache table m in
  with_unique (filter (fun nc => uc_table nc.2 <> ToLower table) (uniqueCache m)) m.

Definition invalidateWriteFailure (table : string) (m : TableManager) : TableManager :=
  bumpGeneration table (bumpIndexPredicateWildcard table (InvalidateCache table m)).

Definition delete_index (name : string) (c : IndexCaches) : IndexCaches :=
  mkIC (delete name (indexCache c)) (delete name (indexRowValues c)) (delete name (indexTable c))
    (rowKeyCache c) (keyRowCache c).

Definition ClearIndex (indexName tableName : string) (m : TableManager) : TableManager :=
  let indexKey := ToLower indexName in
  let tableKey := ToLower tableName in
  let c := delete_index indexKey (caches m) in
  let needed := existsb (fun it => it.2 =s tableKey) (map_to_list (indexTable c)) in
  let c := if needed then c
           else mkIC (indexCache c) (indexRowValues c) (indexTable c) (delete tableKey (rowKeyCache c))
                  (delete tableKey (keyRowCache c)) in
  with_disabled ({[indexKey]} ∪ disabledIndexes m)
    (with_unique (delete indexKey (uniqueCache m)) (with_caches c m)).

(** ** Counts *)

Definition countInitialized (table : string) (m : TableManager) : bool :=
  bool_decide (ToLower table ∈ countsInit (tm_counts m)).

(** The count is for the table created at that time; an older one is forgotten. *)
Definition refresh_count (key : string) (created : Z) (c : Counts) : Counts :=
  if decide (countGeneration c !! key = Some created) then c
  else mkCounts (delete key (counts c)) (countsInit c ∖ {[key]}) (<[key := created]> (countGeneration c)).

Definition known_count (key : string) (c : Counts) : option Z :=
  if decide (key ∈ countsInit c) then Some (default 0%Z (counts c !! key)) else None.

Definition set_count (key : string) (n : Z) (c : Counts) : Counts :=
  mkCounts (<[key := n]> (counts c)) ({[key]} ∪ countsInit c) (countGeneration c).

Definition incrCount (table : string) (created delta : Z) (wasInit : bool) (m : TableManager) : TableManager :=
  let key := ToLower table in
  let c := refresh_count key created (tm_counts m) in
  let c := if wasInit && bool_decide (key ∈ countsInit c)
           then mkCounts (<[key := (default 0%Z (counts c !! key) + delta)%Z]> (counts c)) (countsInit c) (countGeneration c)
           else c in
  let c := if wasInit then c else mkCounts (counts c) (countsInit c ∖ {[key]}) (countGeneration c) in
  with_counts c m.

(** ** Index entries *)

Definition removeIndexEntryLocked (name value : string) (id : Z) (c : IndexCaches) : IndexCaches :=
  match indexCache c !! name with
  | None => c
  | Some values =>
      let remaining := List.filter (fun x => negb (x =? id)%Z) (default [] (values !! value)) in
      let values := match remaining with [] => delete value values | _ => <[value := remaining]> values end in
      let indexed := default ∅ (indexRowValues c !! name) in
      mkIC (<[name := values]> (indexCache c))
        (if decide (indexed !! id = Some value)
         then <[name := delete id indexed]> (indexRowValues c) else indexRowValues c)
        (indexTable c) (rowKeyCache c) (keyRowCache c)
  end.

Definition installIndexCacheLocked (name table : string) (values : gmap string (list Z)) (keys : gmap Z string)
    (c : IndexCaches) : IndexCaches :=
  mkIC (<[name := values]> (indexCache c))
    (<[name := map_fold (fun value ids m => foldr (fun id m => <[id := value]> m) m ids) ∅ values]> (indexRowValues c))
    (<[name := table]> (indexTable c)) (<[table := keys]> (rowKeyCache c))
    (<[table := map_fold (fun id key m => <[key := id]> m) ∅ keys]> (keyRowCache c)).

Section Plan.
Context `{Dynamic} (ev : Evaluators).

(** A row id is added to the entry of a value, and removed from it, if the index has been built. *)
Definition AddIndexEntry (indexName : string) (colValue : val) (id : Z) (c : IndexCaches) : IndexCaches :=
  let name := ToLower indexName in
  let value := formatIndexValue colValue in
  match indexCache c !! name with
  | None => c
  | Some values =>
      let ids := default [] (values !! value) in
      if existsb (Z.eqb id) ids then c
      else mkIC (<[name := <[value := ids ++ [id]]> values]> (indexCache c))
             (<[name := <[id := value]> (default ∅ (indexRowValues c !! name))]> (indexRowValues c))
             (indexTable c) (rowKeyCache c) (keyRowCache c)
  end.

Definition RemoveIndexEntry (indexName : string) (colValue : val) (id : Z) (c : IndexCaches) : IndexCaches :=
  removeIndexEntryLocked (ToLower indexName) (formatIndexValue colValue) id c.

(** *** The changes of a commit *)

Record cachedRowChange : Type := mkRowChange {
  rc_pk : string; rc_rowid : Z; rc_absent : bool; rc_values : gmap string string }.

Record tableCachePlan : Type := mkPlan {
  tp_table : string; tp_rows : list cachedRowChange; tp_indexes : list string; tp_drop : list string;
  countDelta : Z }.

(** [strings.TrimPrefix]. *)
Definition TrimPrefix (s prefix : string) : string :=
  if String.prefix prefix s then substring (String.length prefix) (String.length s) s else s.

(** The built indexes of the table: those with an expression are dropped, the others are warm. *)
Definition built_indexes (c : IndexCaches) (indexes : list Index) : list Index :=
  List.filter (fun idx => bool_decide (is_Some (indexCache c !! ToLower (idx_Name idx)))) indexes.

Fixpoint warm_values (warm : list Index) (r : Row) : outcome error (gmap string string) :=
  match warm with
  | [] => Done ∅
  | idx :: rest =>
      v ← buildIndexValue ev r (idx_Columns idx);
      vs ← warm_values rest r;
      Done (<[ToLower (idx_Name idx) := formatIndexValue (VString v)]> vs)
  end.

Definition row_change (prefix : string) (warm : list Index) (key : string) (e : overlayEntry)
    : outcome error cachedRowChange :=
  let pk := TrimPrefix key prefix in
  if absent e then Done (mkRowChange pk 0 true ∅)
  else (vs ← warm_values warm (row e);
        Done (mkRowChange pk (default 0%Z (rowIDFromRow (row e))) false vs)).

Fixpoint row_changes (prefix : string) (warm : list Index) (todo : list (string * overlayEntry))
    : outcome error (list cachedRowChange) :=
  match todo with
  | [] => Done []
  | (key, e) :: rest =>
      c ← row_change prefix warm key e; cs ← row_changes prefix warm rest; Done (c :: cs)
  end.

Definition count_delta (reads : gmap string N) (key : string) (e : overlayEntry) : Z :=
  let old := negb (default 0 (reads !! key) =? 0)%N in
  if absent e then (if old then -1 else 0)%Z else (if old then 0 else 1)%Z.

(** [prepareTableCache], given the indexes of the table. *)
Definition prepareTableCache (m : TableManager) (prefix table : string) (indexes : list Index)
    (entries : gmap string overlayEntry) (reads : gmap string N) : outcome error tableCachePlan :=
  let built := built_indexes (caches m) indexes in
  let warm := List.filter cacheableColumnIndex built in
  let drop := List.filter (fun idx => negb (cacheableColumnIndex idx)) built in
  let delta := foldr (fun ke n => (count_delta reads ke.1 ke.2 + n)%Z) 0%Z (map_to_list entries) in
  rows ← (match warm with [] => Done [] | _ => row_changes prefix warm (map_to_list entries) end);
  Done (mkPlan (ToLower table) rows (map (fun idx => ToLower (idx_Name idx)) warm)
          (map (fun idx => ToLower (idx_Name idx)) drop) delta).

(** The previous owner of a key leaves every index. *)
Definition forget_row (table : string) (indexes : list string) (pk : string) (c : IndexCaches) : IndexCaches :=
  match default ∅ (keyRowCache c !! table) !! pk with
  | None => c
  | Some id =>
      let c := fold_left (fun c name =>
                 match default ∅ (indexRowValues c !! name) !! id with
                 | Some value => removeIndexEntryLocked name value id c
                 | None => c
                 end) indexes c in
      mkIC (indexCache c) (indexRowValues c) (indexTable c)
        (alter (delete id) table (rowKeyCache c)) (alter (delete pk) table (keyRowCache c))
  end.

(** One index value of a row; the maps of the index must be there. *)
Definition add_value (id : Z) (name value : string) (c : IndexCaches) : outcome error IndexCaches :=
  match indexCache c !! name, indexRowValues c !! name with
  | Some values, Some indexed =>
      Done (mkIC (<[name := <[value := default [] (values !! value) ++ [id]]> values]> (indexCache c))
              (<[name := <[id := value]> indexed]> (indexRowValues c))
              (indexTable c) (rowKeyCache c) (keyRowCache c))
  | _, _ => Panic
  end.

Fixpoint add_values (id : Z) (vs : list (string * string)) (c : IndexCaches) : outcome error IndexCaches :=
  match vs with
  | [] => Done c
  | (name, value) :: rest => c ← add_value id name value c; add_values id rest c
  end.

Definition remember_row (table : string) (rc : cachedRowChange) (c : IndexCaches) : outcome error IndexCaches :=
  if rc_absent rc then Done c
  else match rowKeyCache c !! table, keyRowCache c !! table with
       | Some keys, Some reverse =>
           add_values (rc_rowid rc) (map_to_list (rc_values rc))
             (mkIC (indexCache c) (indexRowValues c) (indexTable c)
                (<[table := <[rc_rowid rc := rc_pk rc]> keys]> (rowKeyCache c))
                (<[table := <[rc_pk rc := rc_rowid rc]> reverse]> (keyRowCache c)))
       | _, _ => Panic
       end.

Fixpoint remember_rows (table : string) (rows : list cachedRowChange) (c : IndexCaches)
    : outcome error IndexCaches :=
  match rows with
  | [] => Done c
  | rc :: rest => c ← remember_row table rc c; remember_rows table rest c
  end.

Definition applyTableCache (plan : tableCachePlan) (m : TableManager) : outcome error TableManager :=
  let c := fold_left (fun c name => delete_index name c) (tp_drop plan) (caches m) in
  let c := fold_left (fun c rc => forget_row (tp_table plan) (tp_indexes plan) (rc_pk rc) c) (tp_rows plan) c in
  c ← remember_rows (tp_table plan) (tp_rows plan) c;
  let cs := tm_counts m in
  let cs := if decide (tp_table plan ∈ countsInit cs)
            then mkCounts (<[tp_table plan := (default 0%Z (counts cs !! tp_table plan) + countDelta plan)%Z]> (counts cs))
                   (countsInit cs) (countGeneration cs)
            else cs in
  Done (with_counts cs (with_caches c m)).

End Plan.
