(* ===== verification/Storage.v ===== *)
(** * The storage state and the schema manager (pkg/storage/schema.go)

    The state the storage layer shares between sessions: the store behind the protocol, the schema
    manager, the table manager, the row locks.  An operation runs on it to the end or to an error;
    the gates that order the operations of one table are why each is one step.  A request to the
    store can fail before or after the server has acted: [faults] says which requests do. *)
From Stdlib Require Import NArith ZArith Lia Ascii String.
From stdpp Require Import base option list list_numbers gmap sorting strings.
From S2P Require Import Prelude Bytes RowCodec Float Values Wire KVClient TestKV KVStore Schema UniqueCache TableCache ForeignKey RowLock.

(** How encoding/json writes the catalogue records and reads them back. *)
Class Json `{Dynamic} : Type := {
  schema_json : Schema -> list byte + string; schema_parse : list byte -> Schema + string;
  index_json : Index -> list byte; index_parse : list byte -> Index + string;
  names_json : list string -> list byte; names_parse : list byte -> list string + string
}.

(** The fate of a request: answered, lost before the server acts, or acted on with the answer lost. *)
Inductive fault : Set := Answered | LostRequest (e : kv_error) | LostAnswer (e : kv_error).

Section Storage.
Context `{Json} (db : string) (ev : Evaluators).

(** [sm_indexList] is the cached list, if it is cached; an allocator that is not a key is not initialised. *)
Record SchemaManager : Type := mkSM {
  sm_cache : gmap string Schema; sm_indexCache : gmap string Index; sm_indexList : option (list string);
  version : N; rowIDAlloc : gmap string Z; sm_fkCatalog : option foreignKeyCatalog }.

Record World : Type := mkWorld {
  store : Store; faults : list fault; now : Z; sm : SchemaManager; tm : TableManager; locks : RowLockManager }.

Definition NewSchemaManager : SchemaManager := mkSM ∅ ∅ None 0 ∅ None.
Definition NewWorld : World := mkWorld (mkStore ∅ 0) [] 0 NewSchemaManager NewTableManager NewRowLockManager.

Definition set_store (st : Store) (w : World) : World := mkWorld st (faults w) (now w) (sm w) (tm w) (locks w).
Definition set_faults (fs : list fault) (w : World) : World := mkWorld (store w) fs (now w) (sm w) (tm w) (locks w).
Definition set_sm (m : SchemaManager) (w : World) : World := mkWorld (store w) (faults w) (now w) m (tm w) (locks w).
Definition set_tm (m : TableManager) (w : World) : World := mkWorld (store w) (faults w) (now w) (sm w) m (locks w).
Definition set_locks (l : RowLockManager) (w : World) : World := mkWorld (store w) (faults w) (now w) (sm w) (tm w) l.

(** ** Operations *)

Definition M (A : Type) : Type := World -> outcome error A * World.

#[export] Instance M_ret : MRet M := fun A a w => (Done a, w).
#[export] Instance M_bind : MBind M := fun A B k m w =>
  match m w with
  | (Done a, w) => k a w
  | (Fail_ e, w) => (Fail_ e, w)
  | (Panic, w) => (Panic, w)
  end.

Definition lift {A} (r : outcome error A) : M A := fun w => (r, w).
Definition fail {A} (e : error) : M A := fun w => (Fail_ e, w).
Definition gets {A} (f : World -> A) : M A := fun w => (Done (f w), w).
Definition modify (f : World -> World) : M () := fun w => (Done (), f w).
Definition modify_sm (f : SchemaManager -> SchemaManager) : M () := modify (fun w => set_sm (f (sm w)) w).
Definition modify_tm (f : TableManager -> TableManager) : M () := modify (fun w => set_tm (f (tm w)) w).

(** The error as a value, where the code inspects it. *)
Definition attempt {A} (m : M A) : M (A + error) := fun w =>
  match m w with
  | (Done a, w) => (Done (inl a), w)
  | (Fail_ e, w) => (Done (inr e), w)
  | (Panic, w) => (Panic, w)
  end.

Fixpoint each {A} (f : A -> M ()) (l : list A) : M () :=
  match l with [] => mret () | x :: r => _ ← f x; each f r end.

Fixpoint collect {A B} (f : A -> M B) (l : list A) : M (list B) :=
  match l with [] => mret [] | x :: r => y ← f x; ys ← collect f r; mret (y :: ys) end.

(** ** The store *)

Definition refuse_or_spec (o : op) (st : Store) : outcome error answer * Store :=
  if allowed o
  then (match spec o st with
        | (Done a, st) => (Done a, st)
        | (Fail_ e, st) => (Fail_ (EKV e), st)
        | (Panic, st) => (Panic, st)
        end)
  else (Fail_ (EKV (Refused "outside the limits of the protocol")), st).

(** One request of a pooled client. *)
Definition kv (o : op) : M answer := fun w =>
  match faults w with
  | LostRequest e :: fs => (Fail_ (EKV e), set_faults fs w)
  | LostAnswer e :: fs =>
      let (_, st) := refuse_or_spec o (store w) in (Fail_ (EKV e), set_store st (set_faults fs w))
  | Answered :: fs => let (r, st) := refuse_or_spec o (store w) in (r, set_store st (set_faults fs w))
  | [] => let (r, st) := refuse_or_spec o (store w) in (r, set_store st w)
  end.

Definition kv_get (key : string) : M KVResult :=
  a ← kv (OGet (bytes key));
  match a with AResult r => mret r | _ => mret (mkKVResult [] 0 false) end.

Definition kv_read (key : string) : M (list byte) := r ← kv_get key; mret (KVClient.Value r).
Definition kv_write (key : string) (data : list byte) : M () := _ ← kv (OPut (bytes key) data); mret ().
Definition kv_delete (key : string) : M () := _ ← kv (ODel (bytes key)); mret ().
Definition kv_batch (ops : list BatchOp) : M () := _ ← kv (OBatchWrite ops []); mret ().

Definition kv_compare (checks : list CompareCheck) (ops : list BatchOp) : M (N * bool) :=
  a ← kv (OCompareBatchWrite checks ops []);
  match a with ACas lsn ok => mret (lsn, ok) | _ => mret (0%N, false) end.

Definition kv_multi_get (keys : list string) : M (list KVResult) :=
  a ← kv (OMultiGet (map bytes keys));
  match a with AResults rs => mret rs | _ => mret [] end.

(** A found key with its LSN; a missing key is no error. *)
Definition readDurable (key : string) : M (option (list byte * N)) :=
  r ← attempt (kv_get key);
  match r with
  | inl r => mret (Some (KVClient.Value r, KVClient.LSN r))
  | inr (EKV ErrKeyNotFound) => mret None
  | inr e => fail e
  end.

(** The keys with a prefix, in order. *)
Definition scan_keys (st : Store) (prefix : string) : list string :=
  merge_sort str_le (List.filter (String.prefix prefix) (map fst (map_to_list (rows st)))).

(** A scan from its first page to its last; a lost request ends it. *)
Definition kv_scan (prefix : string) : M (list KVEntry) := fun w =>
  let entries := map (fun k => let r := result_of (store w) (bytes k) in
                               mkKVEntry (bytes k) (KVClient.Value r) (KVClient.LSN r))
                   (scan_keys (store w) prefix) in
  if negb (key_ok (bytes prefix)) then (Fail_ (EKV (Refused "outside the limits of the protocol")), w)
  else match faults w with
  | (LostRequest e | LostAnswer e) :: fs => (Fail_ (EKV e), set_faults fs w)
  | Answered :: fs => (Done entries, set_faults fs w)
  | [] => (Done entries, w)
  end.

(** [decodeRow], with its error as an error of this layer. *)
Definition decode_text (e : decode_error) : string :=
  match e with
  | MalformedRow => "malformed row"
  | UnsupportedVersion _ => "unsupported row version"
  | UnknownTag _ => "unknown row tag"
  | UnmarshalError msg => msg
  end.

Definition decode (data : list byte) : outcome error Row :=
  match decodeRow other row_unmarshal data with
  | Done r => Done r
  | Fail_ e => Fail_ (Errorf (decode_text e))
  | Panic => Panic
  end.

Definition encode_text (e : encode_error) : string :=
  match e with
  | TooManyFields => "row has too many fields"
  | FieldNameTooLong => "row field name is too long"
  | MarshalError msg => msg
  end.

Definition encode (r : Row) : outcome error (list byte) :=
  match encodeRow other row_marshal (map fst (map_to_list r)) r with
  | inl data => Done data
  | inr e => Fail_ (Errorf (encode_text e))
  end.

(** The rows under a prefix, passed one by one to [visit], which may stop the scan. *)
Fixpoint visit_entries (visit : string -> Row -> N -> M bool) (l : list KVEntry) : M () :=
  match l with
  | [] => mret ()
  | e :: rest =>
      r ← lift (decode (e_Value e));
      stop ← visit (string_of (e_Key e)) r (e_LSN e);
      if stop : bool then mret () else visit_entries visit rest
  end.

Definition scanRowsAtPrefix (prefix : string) (visit : string -> Row -> N -> M bool) : M () :=
  l ← kv_scan prefix; visit_entries visit l.

(** The rows under a prefix, all of them. *)
Fixpoint decode_entries (l : list KVEntry) : outcome error (list (string * Row * N)) :=
  match l with
  | [] => Done []
  | e :: rest =>
      r ← decode (e_Value e); rs ← decode_entries rest;
      Done ((string_of (e_Key e), r, e_LSN e) :: rs)
  end.

Definition scan_rows (prefix : string) : M (list (string * Row * N)) :=
  l ← kv_scan prefix; lift (decode_entries l).

(** ** Keys *)

Definition schemaKey (table : string) : string := (db ++ ":_schema:" ++ ToLower table)%string.
Definition catalogKey : string := (db ++ ":_sys:tables")%string.
Definition rowIDKey (table : string) : string := (db ++ ":_sys:rowid:" ++ ToLower table)%string.
Definition indexKey (name : string) : string := (db ++ ":index:" ++ ToLower name)%string.
Definition indexListKey : string := (db ++ ":indexes")%string.
Definition dataPrefix (table : string) : string := (db ++ ":_data:" ++ ToLower table ++ ":")%string.
Definition dataKey (table pk : string) : string := (dataPrefix table ++ pk)%string.

(** ** The caches of the schema manager *)

Definition with_schema (name : string) (s : Schema) (m : SchemaManager) : SchemaManager :=
  mkSM (<[ToLower name := s]> (sm_cache m)) (sm_indexCache m) (sm_indexList m) (version m) (rowIDAlloc m) (sm_fkCatalog m).
Definition without_schema (name : string) (m : SchemaManager) : SchemaManager :=
  mkSM (delete (ToLower name) (sm_cache m)) (sm_indexCache m) (sm_indexList m) (version m) (rowIDAlloc m) (sm_fkCatalog m).
Definition with_index (name : string) (i : Index) (m : SchemaManager) : SchemaManager :=
  mkSM (sm_cache m) (<[ToLower name := i]> (sm_indexCache m)) (sm_indexList m) (version m) (rowIDAlloc m) (sm_fkCatalog m).
Definition without_index (name : string) (m : SchemaManager) : SchemaManager :=
  mkSM (sm_cache m) (delete (ToLower name) (sm_indexCache m)) (sm_indexList m) (version m) (rowIDAlloc m) (sm_fkCatalog m).
Definition with_index_list (l : option (list string)) (m : SchemaManager) : SchemaManager :=
  mkSM (sm_cache m) (sm_indexCache m) l (version m) (rowIDAlloc m) (sm_fkCatalog m).
Definition with_alloc (a : gmap string Z) (m : SchemaManager) : SchemaManager :=
  mkSM (sm_cache m) (sm_indexCache m) (sm_indexList m) (version m) a (sm_fkCatalog m).
Definition with_fk (c : option foreignKeyCatalog) (m : SchemaManager) : SchemaManager :=
  mkSM (sm_cache m) (sm_indexCache m) (sm_indexList m) (version m) (rowIDAlloc m) c.
Definition bumpVersionLocked (m : SchemaManager) : SchemaManager :=
  mkSM (sm_cache m) (sm_indexCache m) (sm_indexList m) (incr64 (version m)) (rowIDAlloc m) (sm_fkCatalog m).

Definition Version : M N := gets (fun w => version (sm w)).

Definition invalidate_schema (name : string) (m : SchemaManager) : SchemaManager :=
  let m := without_schema name m in with_alloc (delete (ToLower name) (rowIDAlloc m)) m.

(** [invalidateCommittedDDL] *)
Definition invalidateCommittedDDL (tables : list string) (m : SchemaManager) : SchemaManager :=
  bumpVersionLocked
    (mkSM ∅ ∅ None (version m) (foldr (fun t a => delete (ToLower t) a) (rowIDAlloc m) tables) None).

(** ** Tables *)

Definition parse_schema (data : list byte) : outcome error Schema :=
  match schema_parse data with
  | inl s => Done (normalizePrimaryKey s)
  | inr e => Fail_ (Errorf ("failed to parse schema: " ++ e))
  end.

Definition GetSchema (name : string) : M Schema :=
  cached ← gets (fun w => sm_cache (sm w) !! ToLower name);
  match cached with
  | Some s => mret s
  | None =>
      r ← attempt (kv_read (schemaKey name));
      match r with
      | inr (EKV ErrKeyNotFound) => fail (TableNotFound name)
      | inr e => fail e
      | inl data =>
          s ← lift (parse_schema data);
          _ ← modify_sm (with_schema name s);
          mret s
      end
  end.

(** [getSchemaUnsafe]: every failure to read is a missing table. *)
Definition getSchemaUnsafe (name : string) : M Schema :=
  cached ← gets (fun w => sm_cache (sm w) !! ToLower name);
  match cached with
  | Some s => mret s
  | None =>
      r ← attempt (kv_read (schemaKey name));
      match r with
      | inr e => fail (TableNotFound name)
      | inl data =>
          match schema_parse data with
          | inr e => fail (Errorf e)
          | inl s => let s := normalizePrimaryKey s in _ ← modify_sm (with_schema name s); mret s
          end
      end
  end.

Definition TableExists (name : string) : M bool :=
  r ← attempt (GetSchema name); mret (match r with inl _ => true | inr _ => false end).

Definition parse_names (what : string) (data : list byte) : outcome error (list string) :=
  match names_parse data with
  | inl l => Done l
  | inr e => Fail_ (Errorf ("failed to parse " ++ what ++ ": " ++ e))
  end.

Definition ListTables : M (list string) :=
  r ← attempt (kv_read catalogKey);
  match r with
  | inr (EKV ErrKeyNotFound) => mret []
  | inr e => fail e
  | inl data => lift (parse_names "catalog" data)
  end.

Definition addToCatalog (name : string) : M () :=
  tables ← ListTables;
  if existsb (fun t => ToLower t =s ToLower name) tables then mret ()
  else kv_write catalogKey (names_json (tables ++ [name])).

Definition removeFromCatalog (name : string) : M () :=
  tables ← ListTables;
  kv_write catalogKey (names_json (List.filter (fun t => negb (ToLower t =s ToLower name)) tables)).

Definition with_created (t : Z) (s : Schema) : Schema :=
  mkSchema (Name s) (Columns s) (PrimaryKey s) (PrimaryKeyColumns s) t (NextRowID s) (AutoIncrement s)
    (Checks s) (ForeignKeys s).

Definition marshal_schema (s : Schema) : outcome error (list byte) :=
  match schema_json s with
  | inl d => Done d
  | inr e => Fail_ (Errorf ("failed to serialize schema: " ++ e))
  end.

(** An error is wrapped, or replaced. *)
Definition wrapping {A} (msg : string) (m : M A) : M A :=
  r ← attempt m; match r with inl a => mret a | inr e => fail (Wrapf msg e) end.

Definition replacing {A} (e : error) (m : M A) : M A :=
  r ← attempt m; match r with inl a => mret a | inr _ => fail e end.

Definition CreateTable (s : Schema) : M () :=
  let key := schemaKey (Name s) in
  r ← attempt (kv_read key);
  match r with
  | inl _ => fail (Errorf ("table already exists: " ++ Name s))
  | inr _ =>
      t ← gets now;
      let s := normalizePrimaryKey (with_created t s) in
      data ← lift (marshal_schema s);
      _ ← wrapping "failed to write schema" (kv_write key data);
      r ← attempt (addToCatalog (Name s));
      match r with
      | inr e => _ ← attempt (kv_delete key); fail e
      | inl _ => _ ← modify_sm (with_schema (Name s) s); modify_sm bumpVersionLocked
      end
  end.

(** *** Deleting the keys with a prefix

    Batches of deletes within the limits of the protocol. *)
Definition bulkBatchByteBudget : N := 60 * 1024 * 1024.

Definition flush (ops : list BatchOp) : M () := match ops with [] => mret () | _ => kv_batch ops end.

Fixpoint delete_batches (keys : list (list byte)) (ops : list BatchOp) (size : N) : M () :=
  match keys with
  | [] => flush ops
  | key :: rest =>
      let n := (12 + len key)%N in
      let op := mkBatchOp batchDelete key [] in
      if (N.of_nat (length ops) =? maxOperations)%N || (bulkBatchByteBudget <? size + n)%N
      then (_ ← flush ops; delete_batches rest [op] (8 + n))
      else delete_batches rest (ops ++ [op]) (size + n)
  end.

Definition deleteKeysWithPrefix (prefix : string) : M () :=
  l ← kv_scan prefix; delete_batches (map e_Key l) [] 8.

Definition DropTable (name : string) : M () :=
  let key := schemaKey name in
  r ← attempt (kv_read key);
  match r with
  | inr _ => fail (TableNotFound name)
  | inl _ =>
      _ ← deleteKeysWithPrefix (dataPrefix name);
      _ ← wrapping "failed to delete schema" (kv_delete key);
      _ ← attempt (kv_delete (rowIDKey name));
      _ ← removeFromCatalog name;
      _ ← modify_sm (invalidate_schema name);
      modify_sm bumpVersionLocked
  end.

(** ** Row ids *)

Definition max_rowid (prefix : string) : M Z :=
  l ← kv_scan prefix;
  (fix go (l : list KVEntry) (top : Z) : M Z :=
     match l with
     | [] => mret top
     | e :: rest =>
         match decode (e_Value e) with
         | Done r => go rest (match rowIDFromRow r with Some id => Z.max id top | None => top end)
         | Fail_ er => fail (Errorf "failed to parse row while deriving ROWID")
         | Panic => fun w => (Panic, w)
         end
     end) l 0%Z.

(** A sum on int64. *)
Definition wrap64 (z : Z) : Z := to_int64 (to_uint64 z).

Definition deriveNextRowID (table : string) : M Z := top ← max_rowid (dataPrefix table); mret (wrap64 (top + 1)).

Definition set_next (table : string) (n : Z) : M () :=
  modify_sm (fun m => with_alloc (<[ToLower table := n]> (rowIDAlloc m)) m).

Definition nextRowIDLocked (table : string) : M Z :=
  a ← gets (fun w => rowIDAlloc (sm w) !! ToLower table);
  match a with
  | Some n => mret n
  | None =>
      next ← deriveNextRowID table;
      let next := if (next <? 1)%Z then 1%Z else next in
      _ ← set_next table next; mret next
  end.

Definition GetNextRowID (table : string) : M Z :=
  next ← nextRowIDLocked table; _ ← set_next table (wrap64 (next + 1)); mret next.

Definition UpdateMaxRowID (table : string) (rowid : Z) : M () :=
  next ← nextRowIDLocked table;
  if (next <=? rowid)%Z then set_next table (wrap64 (rowid + 1)) else mret ().

(** ** Indexes *)

Definition parse_index (data : list byte) : outcome error Index :=
  match index_parse data with inl i => Done i | inr e => Fail_ (Errorf ("failed to parse index: " ++ e)) end.

Definition GetIndex (name : string) : M Index :=
  cached ← gets (fun w => sm_indexCache (sm w) !! ToLower name);
  match cached with
  | Some i => mret i
  | None =>
      r ← attempt (kv_read (indexKey name));
      match r with
      | inr (EKV ErrKeyNotFound) => fail (ErrIndexNotFound name)
      | inr e => fail e
      | inl data => i ← lift (parse_index data); _ ← modify_sm (with_index name i); mret i
      end
  end.

Definition indexExistsUnsafe (name : string) : M bool :=
  cached ← gets (fun w => sm_indexCache (sm w) !! ToLower name);
  match cached with
  | Some _ => mret true
  | None => r ← attempt (kv_read (indexKey name)); mret (match r with inl _ => true | inr _ => false end)
  end.

Definition ListIndexes : M (list string) :=
  cached ← gets (fun w => sm_indexList (sm w));
  match cached with
  | Some l => mret l
  | None =>
      r ← attempt (kv_read indexListKey);
      match r with
      | inr (EKV ErrKeyNotFound) => _ ← modify_sm (with_index_list (Some [])); mret []
      | inr e => fail e
      | inl data =>
          l ← lift (parse_names "index list" data);
          _ ← modify_sm (with_index_list (Some l)); mret l
      end
  end.

(** An index that is gone is skipped; any other failure is not. *)
Fixpoint table_indexes (table : string) (names : list string) : M (list Index) :=
  match names with
  | [] => mret []
  | name :: rest =>
      r ← attempt (GetIndex name);
      match r with
      | inl idx =>
          others ← table_indexes table rest;
          mret (if EqualFold (idx_Table idx) table then idx :: others else others)
      | inr (ErrIndexNotFound _) => table_indexes table rest
      | inr e => fail e
      end
  end.

Definition ListTableIndexes (table : string) : M (list Index) := names ← ListIndexes; table_indexes table names.

(** The list as it is read for an update: an unreadable list is empty. *)
Definition index_names : M (list string) :=
  r ← attempt (kv_read indexListKey);
  mret (match r with inl data => match names_parse data with inl l => l | inr _ => [] end | inr _ => [] end).

Definition addToIndexList (name : string) : M () :=
  l ← index_names;
  let l := l ++ [name] in
  _ ← kv_write indexListKey (names_json l);
  modify_sm (with_index_list (Some l)).

Definition removeFromIndexList (name : string) : M () :=
  r ← attempt (kv_read indexListKey);
  match r with
  | inr _ => mret ()
  | inl data =>
      let l := match names_parse data with inl l => l | inr _ => [] end in
      let l := List.filter (fun n => negb (EqualFold n name)) l in
      _ ← kv_write indexListKey (names_json l);
      modify_sm (with_index_list (Some l))
  end.

Definition with_idx_created (t : Z) (i : Index) : Index :=
  mkIndex (idx_Name i) (idx_Table i) (idx_Columns i) (Unique i) t (OnConflict i).

Definition CreateIndex (i : Index) : M () :=
  let key := indexKey (idx_Name i) in
  r ← attempt (kv_read key);
  match r with
  | inl _ => fail (Errorf ("index already exists: " ++ idx_Name i))
  | inr _ =>
      _ ← replacing (TableNotFound (idx_Table i)) (GetSchema (idx_Table i));
      t ← gets now;
      let i := with_idx_created t i in
      _ ← wrapping "failed to write index" (kv_write key (index_json i));
      _ ← addToIndexList (idx_Name i);
      _ ← modify_sm (with_index (idx_Name i) i);
      modify_sm bumpVersionLocked
  end.

Definition DropIndex (name : string) : M () :=
  _ ← wrapping "failed to delete index" (kv_delete (indexKey name));
  _ ← removeFromIndexList name;
  _ ← modify_sm (without_index name);
  modify_sm bumpVersionLocked.

(** ** Foreign keys of the committed catalogue *)

Definition build_snapshot (v : N) : M foreignKeyCatalog :=
  tables ← ListTables;
  schemas ← collect GetSchema tables;
  let c := buildForeignKeyCatalog v schemas in
  _ ← modify_sm (with_fk (Some c)); mret c.

Definition foreignKeyCatalogSnapshot : M foreignKeyCatalog :=
  v ← Version;
  cached ← gets (fun w => sm_fkCatalog (sm w));
  match cached with
  | Some c => if (fkc_version c =? v)%N then mret c else build_snapshot v
  | None => build_snapshot v
  end.

Definition referencingForeignKeys (table : string) : M (list referencingForeignKey) :=
  c ← foreignKeyCatalogSnapshot; mret (default [] (referencing c !! ToLower table)).

Definition ForeignKeyParticipants (table : string) : M bool :=
  c ← foreignKeyCatalogSnapshot; mret (bool_decide (ToLower table ∈ participants c)).

Definition ForeignKeyClosure (tables : list string) : M (gset string) :=
  c ← foreignKeyCatalogSnapshot; mret (closure c tables).

Definition ForeignKeyColumnDependency (table column : string) : M (list string) :=
  c ← foreignKeyCatalogSnapshot; s ← GetSchema table; mret (column_dependency c s table column).

Definition ForeignKeyTableDependency (table : string) : M (list string) :=
  c ← foreignKeyCatalogSnapshot; mret (table_dependency c table).

(** Whether the table is a parent whose DELETE (or UPDATE) action rewrites the rows that refer to it. *)
Definition HasCascadingReference (table : string) (forDelete : bool) : M bool :=
  refs ← referencingForeignKeys table;
  mret (existsb (fun r => rewritesReferencingRows
                            (if forDelete then DeleteAction (ref_FK r) else UpdateAction (ref_FK r))) refs).

End Storage.
