(* ===== verification/Table.v ===== *)
(** * The table manager (pkg/storage/table.go, and the parts of unique_cache.go and foreign_key.go that read the store)

    The autocommit operations on rows: insert, bulk insert, point reads and writes, scans, counts,
    equality indexes, unique indexes, the foreign-key checks of one statement. *)
From Stdlib Require Import NArith ZArith Lia Ascii String.
From stdpp Require Import base option list list_numbers gmap sorting strings.
From S2P Require Import Prelude Bytes RowCodec Float Values Wire KVClient TestKV KVStore Schema UniqueCache TableCache ForeignKey Storage.

Section Table.
Context `{Json} (db : string) (ev : Evaluators).

(** ** Reading rows *)

Definition failed_to_parse {A} (r : outcome error A) : outcome error A :=
  match r with Fail_ e => Fail_ (Wrapf "failed to parse row" e) | r => r end.

Definition getKeyWithLSN (key : string) : M (Row * N) :=
  r ← kv_get key;
  row ← lift (failed_to_parse (decode (KVClient.Value r)));
  mret (row, KVClient.LSN r).

Definition getByPKWithLSN (table pk : string) : M (Row * N) := getKeyWithLSN (dataKey db table pk).

(** [scanRows]: the rows of a table, passed to a visitor. *)
Definition scanRows (table : string) (visit : Row -> M bool) : M () :=
  scanRowsAtPrefix (dataPrefix db table) (fun _ r _ => visit r).

Definition must_exist (table : string) : M () :=
  b ← TableExists db table; if b : bool then mret () else fail (TableNotFound table).

Definition passes (filter : option (Row -> bool)) (r : Row) : bool :=
  match filter with None => true | Some f => f r end.

Definition Select (table : string) (filter : option (Row -> bool)) : M (list Row) :=
  _ ← must_exist table;
  rs ← scan_rows (dataPrefix db table);
  mret (List.filter (passes filter) (map (fun krl => krl.1.2) rs)).

(** The loop of [SelectWithLimit]: a limit that is not positive is none. *)
Fixpoint limited (filter : option (Row -> bool)) (limit offset : Z) (l : list KVEntry) (skipped : Z)
    (acc : list Row) : outcome error (list Row) :=
  match l with
  | [] => Done acc
  | e :: rest =>
      r ← decode (e_Value e);
      if negb (passes filter r) then limited filter limit offset rest skipped acc
      else if (skipped <? offset)%Z then limited filter limit offset rest (skipped + 1) acc
      else
        let acc := acc ++ [r] in
        if (0 <? limit)%Z && (limit <=? Z.of_nat (length acc))%Z then Done acc
        else limited filter limit offset rest skipped acc
  end.

Definition SelectWithLimit (table : string) (filter : option (Row -> bool)) (limit offset : Z) : M (list Row) :=
  _ ← must_exist table;
  l ← kv_scan (dataPrefix db table);
  lift (limited filter limit offset l 0 []).

Definition Count (table : string) (filter : option (Row -> bool)) : M Z :=
  rs ← Select table filter; mret (Z.of_nat (length rs)).

Definition GetByPK (table pk : string) : M Row :=
  _ ← must_exist table; r ← getByPKWithLSN table pk; mret r.1.

(** ** Counting *)

Definition scanCountKeys (table : string) : M Z :=
  l ← kv_scan (dataPrefix db table); mret (Z.of_nat (length l)).

Definition CountFast (table : string) : M Z :=
  s ← GetSchema db table;
  let key := ToLower table in
  _ ← modify_tm (fun m => with_counts (refresh_count key (CreatedAt s) (tm_counts m)) m);
  known ← gets (fun w => known_count key (tm_counts (tm w)));
  match known with
  | Some n => mret n
  | None =>
      n ← scanCountKeys table;
      _ ← modify_tm (fun m => with_counts (set_count key n (tm_counts m)) m);
      mret n
  end.

(** ** Unique indexes *)

Definition uniqueIndexes (table : string) : M (list Index) :=
  l ← ListTableIndexes db table; mret (List.filter Unique l).

Definition hasUniqueIndex (table : string) : M bool :=
  l ← uniqueIndexes table; mret (0 <? length l)%nat.

(** The gate a point write takes is exclusive when there is a unique index; the index is looked up
    again under the gate. *)
Definition lockForWrite (table : string) : M bool :=
  _ ← hasUniqueIndex table; hasUniqueIndex table.

Definition registered (idx : Index) (m : TableManager) : option uniqueIndexCache :=
  if cacheableColumnIndex idx then uniqueCache m !! ToLower (idx_Name idx) else None.

(** New caches, with a fresh identity each. *)
Fixpoint fresh_caches (table : string) (missing : list Index) : M (list (Index * uniqueIndexCache)) :=
  match missing with
  | [] => mret []
  | idx :: rest =>
      id ← gets (fun w => next_uc (tm w));
      _ ← modify_tm fresh_uc;
      cs ← fresh_caches table rest;
      mret ((idx, empty_cache id (ToLower table)) :: cs)
  end.

(** A row joins the caches that are being built. *)
Fixpoint fill_caches (cs : list (Index * uniqueIndexCache)) (key : string) (r : Row)
    : outcome error (list (Index * uniqueIndexCache)) :=
  match cs with
  | [] => Done []
  | (idx, c) :: rest =>
      c ← scan_row ev (idx_Columns idx) c key r;
      cs ← fill_caches rest key r;
      Done ((idx, c) :: cs)
  end.

Fixpoint fill_all (cs : list (Index * uniqueIndexCache)) (l : list KVEntry)
    : outcome error (list (Index * uniqueIndexCache)) :=
  match l with
  | [] => Done cs
  | e :: rest => r ← decode (e_Value e); cs ← fill_caches cs (string_of (e_Key e)) r; fill_all cs rest
  end.

Definition found_caches (m : TableManager) (indexes : list Index) : gmap string uniqueIndexCache :=
  fold_left (fun cs idx => match registered idx m with
                           | Some c => <[idx_Name idx := c]> cs
                           | None => cs
                           end) indexes ∅.

Definition install_cache (m : TableManager) (ic : Index * uniqueIndexCache) : TableManager :=
  if cacheableColumnIndex ic.1 then with_unique (<[ToLower (idx_Name ic.1) := ic.2]> (uniqueCache m)) m else m.

Definition ensureUniqueCaches (table : string) (indexes : list Index) : M (gmap string uniqueIndexCache) :=
  m ← gets tm;
  let found := found_caches m indexes in
  let missing := List.filter (fun idx => match registered idx m with Some _ => false | None => true end) indexes in
  match missing with
  | [] => mret found
  | _ =>
      cs ← fresh_caches table missing;
      l ← kv_scan (dataPrefix db table);
      cs ← lift (fill_all cs l);
      _ ← modify_tm (fun m => fold_left install_cache cs m);
      mret (fold_left (fun found ic => <[idx_Name ic.1 := ic.2]> found) cs found)
  end.

Definition prepareUniqueRowsWith (table : string) (entries : gmap string overlayEntry) (indexes : list Index)
    : M (list uniqueCacheChange) :=
  match indexes with
  | [] => mret []
  | _ => cs ← ensureUniqueCaches table indexes; lift (prepare_changes ev indexes cs entries)
  end.

Definition prepareUniqueRows (table : string) (entries : gmap string overlayEntry) : M (list uniqueCacheChange) :=
  indexes ← uniqueIndexes table; prepareUniqueRowsWith table entries indexes.

Definition apply_plan (plan : list uniqueCacheChange) (accepted : option (gset string)) : M () :=
  modify_tm (fun m => with_unique (applyUniquePlan (uniqueCache m) plan accepted) m).

(** The loop of [ValidateUniqueIndex] and of its transactional form; a row is decoded when its turn comes. *)
Fixpoint no_duplicates (idx : Index) (rows : list (outcome error Row)) (seen : gset string) : outcome error () :=
  match rows with
  | [] => Done ()
  | r :: rest =>
      r ← r;
      v ← encodeUniqueValue ev r (idx_Columns idx);
      match v with
      | None => no_duplicates idx rest seen
      | Some v => if decide (v ∈ seen) then Fail_ (UniqueViolation (idx_Name idx))
                  else no_duplicates idx rest ({[v]} ∪ seen)
      end
  end.

Definition ValidateUniqueIndex (idx : Index) : M () :=
  l ← kv_scan (dataPrefix db (idx_Table idx));
  lift (no_duplicates idx (map (fun e => decode (e_Value e)) l) ∅).

Definition CreateUniqueIndex (idx : Index) : M () :=
  _ ← ValidateUniqueIndex idx; CreateIndex db idx.

(** ** Equality indexes *)

Definition add_row_key (table pk : string) (id : Z) (c : IndexCaches) : IndexCaches :=
  match rowKeyCache c !! table with
  | Some keys =>
      mkIC (indexCache c) (indexRowValues c) (indexTable c) (<[table := <[id := pk]> keys]> (rowKeyCache c))
        (alter <[pk := id]> table (keyRowCache c))
  | None => c
  end.

Definition remove_row_key (table pk : string) (id : Z) (c : IndexCaches) : IndexCaches :=
  match rowKeyCache c !! table with
  | Some keys =>
      mkIC (indexCache c) (indexRowValues c) (indexTable c) (<[table := delete id keys]> (rowKeyCache c))
        (alter (delete pk) table (keyRowCache c))
  | None => c
  end.

Definition update_entry (r : Row) (add : bool) (id : Z) (idx : Index) : M () :=
  built ← gets (fun w => indexCache (caches (tm w)) !! ToLower (idx_Name idx));
  match built with
  | None => mret ()
  | Some _ =>
      v ← lift (buildIndexValue ev r (idx_Columns idx));
      modify_tm (fun m => with_caches
        (if add then AddIndexEntry (idx_Name idx) (VString v) id (caches m)
         else RemoveIndexEntry (idx_Name idx) (VString v) id (caches m)) m)
  end.

Definition updateIndexesForRow (table : string) (r : Row) (add : bool) (actualKey : string) : M () :=
  indexes ← ListTableIndexes db table;
  match indexes, rowIDFromRow r with
  | [], _ | _, None => mret ()
  | _, Some id =>
      let pk := TrimPrefix actualKey (dataPrefix db table) in
      _ ← modify_tm (fun m => with_caches
            ((if add then add_row_key else remove_row_key) (ToLower table) pk id (caches m)) m);
      each (update_entry r add id) indexes
  end.

Definition bump_predicates (table : string) (r : Row) (idx : Index) : M () :=
  v ← lift (buildIndexValue ev r (idx_Columns idx));
  modify_tm (bump_predicate (indexPredicateKey table (idx_Name idx) v)).

Definition bumpIndexPredicates (table : string) (rows : list Row) : M () :=
  indexes ← ListTableIndexes db table;
  each (fun r => each (bump_predicates table r) indexes) rows.

(** The entries and the row keys of an index, built from the rows; a row without a row id is left out. *)
Fixpoint build_entries (s : Schema) (cols : list IndexColumn) (rows : list (outcome error Row))
    (values : gmap string (list Z)) (keys : gmap Z string) : outcome error (gmap string (list Z) * gmap Z string) :=
  match rows with
  | [] => Done (values, keys)
  | r :: rest =>
      r ← r;
      match rowIDFromRow r with
      | None => build_entries s cols rest values keys
      | Some id =>
          v ← buildIndexValue ev r cols;
          pk ← PrimaryKeyForRow s r;
          let key := formatIndexValue (VString v) in
          build_entries s cols rest (<[key := default [] (values !! key) ++ [id]]> values) (<[id := pk]> keys)
      end
  end.

Definition build_from_rows (table : string) (cols : list IndexColumn) : M (gmap string (list Z) * gmap Z string) :=
  s ← GetSchema db table;
  l ← kv_scan (dataPrefix db table);
  lift (build_entries s cols (map (fun e => decode (e_Value e)) l) ∅ ∅).

Definition install (name table : string) (vk : gmap string (list Z) * gmap Z string) : M () :=
  modify_tm (fun m => with_caches (installIndexCacheLocked name table vk.1 vk.2 (caches m)) m).

(** Afterwards the index is built, unless it is disabled. *)
Definition ensureIndex (idx : Index) : M () :=
  let name := ToLower (idx_Name idx) in
  disabled ← gets (fun w => bool_decide (name ∈ disabledIndexes (tm w)));
  built ← gets (fun w => bool_decide (is_Some (indexCache (caches (tm w)) !! name)));
  if (disabled : bool) || (built : bool) then mret ()
  else (vk ← build_from_rows (idx_Table idx) (idx_Columns idx); install name (ToLower (idx_Table idx)) vk).

Definition index_disabled (name : string) : error := Wrapf "index is disabled" (ErrIndexNotFound name).

Definition LookupIndex (indexName : string) (colValue : val) : M (list Z) :=
  idx ← GetIndex db indexName;
  _ ← ensureIndex idx;
  disabled ← gets (fun w => bool_decide (ToLower indexName ∈ disabledIndexes (tm w)));
  if disabled : bool then fail (index_disabled indexName)
  else gets (fun w => default [] (default ∅ (indexCache (caches (tm w)) !! ToLower indexName)
                                   !! formatIndexValue colValue)).

Definition forget_index (name : string) (m : TableManager) : TableManager :=
  with_disabled (disabledIndexes m ∖ {[name]}) (with_caches (delete_index name (caches m)) m).

Definition BuildIndex (indexName tableName : string) (columns : list string) : M () :=
  let name := ToLower indexName in
  _ ← modify_tm (forget_index name);
  r ← attempt (GetIndex db indexName);
  match r with
  | inl idx => ensureIndex idx
  | inr (ErrIndexNotFound _) =>
      vk ← build_from_rows tableName (map (fun n => mkIndexColumn n false EmptyString) columns);
      install name (ToLower tableName) vk
  | inr e => fail e
  end.

(** *** Reading by an index *)

Record indexPredicateSnapshot : Type := mkSnapshot {
  valueKey : string; valueGen : N; wildcardKey : string; wildcardGen : N }.

Definition predicateSnapshot (table indexName value : string) (m : TableManager) : indexPredicateSnapshot :=
  let vk := indexPredicateKey table indexName value in
  let wk := indexPredicateWildcardKey table in
  mkSnapshot vk (predicateGeneration m vk) wk (predicateGeneration m wk).

Record indexedRowVersion : Type := mkVersion { v_row : Row; v_key : string; v_lsn : N }.

(** The keys of the row ids; an id without a key is an error. *)
Fixpoint keys_of (name : string) (keys : gmap Z string) (ids : list Z) : outcome error (list string) :=
  match ids with
  | [] => Done []
  | id :: rest =>
      match keys !! id with
      | None => Fail_ (Errorf ("index " ++ name ++ " is missing rowid " ++ itoaZ id))
      | Some pk => pks ← keys_of name keys rest; Done (pk :: pks)
      end
  end.

Fixpoint versions_of (table name : string) (pks : list string) (rs : list KVResult)
    : outcome error (list indexedRowVersion) :=
  match pks, rs with
  | pk :: pks, r :: rs =>
      if negb (KVClient.Found r)
      then Fail_ (Errorf ("index " ++ name ++ " references missing primary key " ++ pk))
      else (row ← decode (KVClient.Value r);
            vs ← versions_of table name pks rs;
            Done (mkVersion row (dataKey db table pk) (KVClient.LSN r) :: vs))
  | _, _ => Done []
  end.

Definition selectByIndexKeyWithLSN (table indexName key : string)
    : M (list indexedRowVersion * indexPredicateSnapshot) :=
  idx ← GetIndex db indexName;
  _ ← ensureIndex idx;
  _ ← must_exist table;
  disabled ← gets (fun w => bool_decide (ToLower indexName ∈ disabledIndexes (tm w)));
  if disabled : bool then fail (index_disabled indexName)
  else (
    m ← gets tm;
    let snapshot := predicateSnapshot table indexName key m in
    let ids := default [] (default ∅ (indexCache (caches m) !! ToLower indexName) !! key) in
    pks ← lift (keys_of indexName (default ∅ (rowKeyCache (caches m) !! ToLower table)) ids);
    match ids with
    | [] => mret ([], snapshot)
    | _ => rs ← kv_multi_get (map (dataKey db table) pks);
           vs ← lift (versions_of table indexName pks rs); mret (vs, snapshot)
    end).

Definition selectByIndexWithLSN (table indexName : string) (colValue : val)
    : M (list indexedRowVersion * indexPredicateSnapshot) :=
  selectByIndexKeyWithLSN table indexName (formatIndexValue colValue).

Definition SelectByIndex (table indexName : string) (colValue : val) : M (list Row) :=
  vs ← selectByIndexWithLSN table indexName colValue; mret (map v_row vs.1).

(** ** The foreign-key checks of a statement *)

(** A scan that stops at the first row that satisfies the test. *)
Fixpoint any_entry (p : Row -> bool) (l : list KVEntry) : outcome error bool :=
  match l with
  | [] => Done false
  | e :: rest => r ← decode (e_Value e); if p r : bool then Done true else any_entry p rest
  end.

Definition any_row (table : string) (p : Row -> bool) : M bool :=
  l ← kv_scan (dataPrefix db table); lift (any_entry p l).

(** The rows of the statement itself are looked at before the table. *)
Definition parentRowExists (table : string) (extra : list Row) (columns want : list string) : M bool :=
  if existsb (fun r => foreignKeyMatches r columns want) extra then mret true
  else any_row table (fun r => foreignKeyMatches r columns want).

Definition check_reference (s : Schema) (rows : list Row) (fk : ForeignKeyConstraint) (r : Row) : M () :=
  match foreignKeyValues r (fk_Columns fk) with
  | None => mret ()
  | Some want =>
      let extra := if EqualFold (RefTable fk) (Name s) then rows else [] in
      found ← wrapping ("validate foreign key " ++ fk_Label fk)
                (parentRowExists (RefTable fk) extra (RefColumns fk) want);
      if found : bool then mret () else fail (ForeignKeyViolation (Name s) (fk_Label fk))
  end.

Definition validateInsertForeignKeys (s : Schema) (rows : list Row) : M () :=
  each (fun fk => each (check_reference s rows fk) rows) (ForeignKeys s).

(** A row of the child table that refers to the old key, other than the row that changes. *)
Definition orphans (ref : referencingForeignKey) (self : option (Schema * string)) (oldKey : list string) (r : Row)
    : bool :=
  match self with
  | Some (s, pk) =>
      match PrimaryKeyForRow s r with
      | Done pk' => if pk' =s pk then false else foreignKeyMatches r (fk_Columns (ref_FK ref)) oldKey
      | _ => foreignKeyMatches r (fk_Columns (ref_FK ref)) oldKey
      end
  | None => foreignKeyMatches r (fk_Columns (ref_FK ref)) oldKey
  end.

Definition check_removal (table : string) (s : Schema) (oldRow : Row) (newRow : option Row)
    (ref : referencingForeignKey) : M () :=
  match foreignKeyValues oldRow (RefColumns (ref_FK ref)) with
  | None => mret ()
  | Some oldKey =>
      let kept := match newRow with
                  | Some nr => match foreignKeyValues nr (RefColumns (ref_FK ref)) with
                               | Some newKey => foreignKeyValuesEqual oldKey newKey
                               | None => false
                               end
                  | None => false
                  end in
      if kept then mret ()
      else
        let selfTable := EqualFold (ref_Table ref) table in
        let self := match PrimaryKeyForRow s oldRow with
                    | Done pk => if selfTable && negb (is_empty pk) then Some (s, pk) else None
                    | _ => None
                    end in
        found ← wrapping ("validate foreign key " ++ fk_Label (ref_FK ref))
                  (any_row (ref_Table ref) (orphans ref self oldKey));
        let again := match newRow with
                     | Some nr => selfTable && foreignKeyMatches nr (fk_Columns (ref_FK ref)) oldKey
                     | None => false
                     end in
        if (found : bool) || again then fail (ForeignKeyViolation (ref_Table ref) (fk_Label (ref_FK ref))) else mret ()
  end.

Definition validateParentKeyRemoval (table : string) (oldRow : Row) (newRow : option Row) : M () :=
  refs ← referencingForeignKeys db table;
  match refs with
  | [] => mret ()
  | _ => s ← GetSchema db table; each (check_removal table s oldRow newRow) refs
  end.

(** ** Completing a row for an insert *)

Definition pick_field (row : Row) (c : Column) : option val :=
  snd <$> find (fun kv => EqualFold kv.1 (col_Name c)) (map_to_list row).

Definition pick_fields (cols : list Column) (row : Row) : Row :=
  fold_left (fun nr c => match pick_field row c with Some v => <[col_Name c := v]> nr | None => nr end) cols ∅.

Fixpoint insert_defaults (cols : list Column) (t : Z) (nr : Row) : outcome error Row :=
  match cols with
  | [] => Done nr
  | c :: rest =>
      match nr !! col_Name c with
      | Some _ => insert_defaults rest t nr
      | None =>
          d ← columnDefaultValue ev c t;
          insert_defaults rest t (match d with Some v => <[col_Name c := v]> nr | None => nr end)
      end
  end.

Definition int64_val (z : Z) : val := VInt GoInt64 z.

(** The row id an integer primary key stands for; zero when it does not. *)
Definition rowid_of_key (v : val) : outcome error Z :=
  match v with
  | VInt GoInt64 z | VInt GoInt z => Done z
  | VFloat64 bits =>
      let x := of_bits binary64 bits in
      if is_integral x then Done (int64_of_float x)
      else Fail_ (Errorf ("invalid integer primary key: " ++ sprint v))
  | _ => Done 0%Z
  end.

(** A single INTEGER PRIMARY KEY column is an alias of the row id. *)
Definition alias_column (s : Schema) : option string :=
  if IsSingleColumnPrimaryKey s && negb (UsesSyntheticRowID s) then
    match GetColumn s (PrimaryKey s) with
    | Some c => if isIntegerType (col_Type c) then Some (PrimaryKey s) else None
    | None => None
    end
  else None.

Definition alias_rowid (table : string) (s : Schema) (nr : Row) : M (Row * Z) :=
  match alias_column s with
  | None => mret (nr, 0%Z)
  | Some pk =>
      match get nr pk with
      | VNil => id ← GetNextRowID db table; mret (<[pk := int64_val id]> nr, id)
      | v =>
          id ← lift (rowid_of_key v);
          if (0 <? id)%Z then (_ ← UpdateMaxRowID db table id; mret (nr, id)) else mret (nr, id)
      end
  end.

(** The completed row, its key, its row id alias, and the caller's row with the key filled in. *)
Definition normalizeInsertRow (table : string) (s : Schema) (row : Row) : M (Row * string * Z * Row) :=
  t ← gets now;
  nr ← lift (insert_defaults (Columns s) t (pick_fields (Columns s) row));
  ai ← alias_rowid table s nr;
  let (nr, rowid) := ai : Row * Z in
  id ← (if (0 <? rowid)%Z then mret rowid else GetNextRowID db table);
  let nr := <["_rowid_" := int64_val id]> nr in
  key ← lift (PrimaryKeyForRow s nr);
  _ ← lift (validateRowConstraints ev s nr);
  let row := fold_left (fun row c => match nr !! c with Some v => <[c := v]> row | None => row end)
               (PrimaryKeyList s) row in
  mret (nr, dataKey db table key, rowid, row).

Definition prepareInsertWithSchema (table : string) (s : Schema) (row : Row) : M (Row * string) :=
  r ← normalizeInsertRow table s row; mret (r.1.1.1, r.1.1.2).

(** ** Point writes *)

(** A compare and write of one key. *)
Definition compareWritePoint (checks : list CompareCheck) (ops : list BatchOp) : M bool :=
  r ← kv_compare checks ops; mret r.2.

(** The publication of a point write: an error of the request may hide a durable write. *)
Definition publish (table : string) (checks : list CompareCheck) (ops : list BatchOp) (conflict : error) : M () :=
  r ← attempt (compareWritePoint checks ops);
  match r with
  | inr e => _ ← modify_tm (invalidateWriteFailure table); fail e
  | inl false => fail conflict
  | inl true => mret ()
  end.

Definition put (key : string) (data : list byte) : BatchOp := mkBatchOp batchPut (bytes key) data.
Definition del (key : string) : BatchOp := mkBatchOp batchDelete (bytes key) [].
Definition check (key : string) (lsn : N) : CompareCheck := mkCompareCheck (bytes key) lsn.

Definition InsertWithRowID (table : string) (row : Row) : M Z :=
  s0 ← GetSchema db table;
  nk ← prepareInsertWithSchema table s0 row;
  let (nr, key) := nk : Row * string in
  let rowid := default 0%Z (rowIDFromRow nr) in
  wasInit ← gets (fun w => countInitialized table (tm w));
  _ ← ForeignKeyParticipants db table;
  uniq ← lockForWrite table;
  s ← GetSchema db table;
  t ← gets now;
  nr ← lift (applySchemaDefaults ev s t nr);
  _ ← lift (validateChecks ev s nr);
  _ ← validateInsertForeignKeys s [nr];
  data ← wrapping "failed to serialize row" (lift (encode nr));
  plan ← (if uniq : bool then prepareUniqueRows table {[key := mkEntry nr false]} else mret []);
  _ ← publish table [check key 0] [put key data] (newPrimaryKeyViolation table s nr);
  _ ← apply_plan plan None;
  _ ← updateIndexesForRow table nr true key;
  _ ← bumpIndexPredicates table [nr];
  _ ← modify_tm (bumpGeneration table);
  _ ← modify_tm (incrCount table (CreatedAt s) 1 wasInit);
  mret rowid.

(** The assignments of an UPDATE: a name that is no column is ignored. *)
Definition assign (cols : list Column) (row : Row) (name : string) (v : val) : Row :=
  match find (fun c => EqualFold name (col_Name c)) cols with
  | Some c => <[col_Name c := v]> row
  | None => row
  end.

Definition assign_all (cols : list Column) (updates : Row) (row : Row) : Row :=
  fold_left (fun row nv => assign cols row nv.1 nv.2) (map_to_list updates) row.

Definition UpdateByPK (table pk : string) (updateFn : Row -> M Row) : M (option Row) :=
  let key := dataKey db table pk in
  _ ← ForeignKeyParticipants db table;
  uniq ← lockForWrite table;
  s ← GetSchema db table;
  r ← attempt (getByPKWithLSN table pk);
  match r with
  | inr (EKV ErrKeyNotFound) => mret None
  | inr e => fail e
  | inl (oldRow, lsn) =>
      updates ← updateFn oldRow;
      t ← gets now;
      row ← lift (applySchemaDefaults ev s t (assign_all (Columns s) updates oldRow));
      _ ← lift (validateChecks ev s row);
      _ ← validateInsertForeignKeys s [row];
      _ ← validateParentKeyRemoval table oldRow (Some row);
      data ← lift (encode row);
      plan ← (if uniq : bool then prepareUniqueRows table {[key := mkEntry row false]} else mret []);
      _ ← publish table [check key lsn] [put key data] (ErrSerialization EmptyString);
      _ ← apply_plan plan None;
      _ ← updateIndexesForRow table oldRow false key;
      _ ← updateIndexesForRow table row true key;
      _ ← bumpIndexPredicates table [oldRow; row];
      _ ← modify_tm (bumpGeneration table);
      mret (Some oldRow)
  end.

Definition DeleteByPK (table pk : string) : M (option Row) :=
  s ← GetSchema db table;
  _ ← ForeignKeyParticipants db table;
  let key := dataKey db table pk in
  wasInit ← gets (fun w => countInitialized table (tm w));
  r ← attempt (getByPKWithLSN table pk);
  match r with
  | inr (EKV ErrKeyNotFound) => mret None
  | inr e => fail e
  | inl (row, lsn) =>
      _ ← validateParentKeyRemoval table row None;
      _ ← publish table [check key lsn] [del key] (ErrSerialization EmptyString);
      _ ← modify_tm (fun m => with_unique (removeUniqueKey (uniqueCache m) table key) m);
      _ ← updateIndexesForRow table row false key;
      _ ← bumpIndexPredicates table [row];
      _ ← modify_tm (bumpGeneration table);
      _ ← modify_tm (incrCount table (CreatedAt s) (-1) wasInit);
      mret (Some row)
  end.

(** ** Bulk inserts *)

(** The number of operations, and their size, that fit into one batch; at least one does. *)
Fixpoint chunk_length (ops : list BatchOp) (room : nat) (size : N) (first : bool) : nat :=
  match ops, room with
  | [], _ | _, O => O
  | op :: rest, S room =>
      let n := (12 + len (b_Key op) + len (b_Value op))%N in
      if negb first && (bulkBatchByteBudget <? size + n)%N then O
      else S (chunk_length rest room (size + n) false)
  end.

Fixpoint chunks (fuel : nat) (ops : list BatchOp) : list (list BatchOp) :=
  match fuel, ops with
  | O, _ | _, [] => []
  | S fuel, _ =>
      let j := Nat.max 1 (chunk_length ops (N.to_nat maxOperations) 0 true) in
      take j ops :: chunks fuel (drop j ops)
  end.

Definition chunkBatchOps (ops : list BatchOp) : list (list BatchOp) := chunks (length ops) ops.

(** The chunks are written one after the other up to the first that fails. *)
Fixpoint write_chunks (cs : list (list BatchOp)) (done : nat) : M (nat * option error) :=
  match cs with
  | [] => mret (done, None)
  | c :: rest =>
      r ← attempt (kv_batch c);
      match r with
      | inr e => mret (done, Some e)
      | inl _ => write_chunks rest (done + length c)
      end
  end.

Definition kv_exists (key : string) : M bool :=
  a ← kv (OExists (bytes key)); match a with AFlag b => mret b | _ => mret false end.

(** The first row whose key satisfies a test is a violation. *)
Fixpoint first_bad (table : string) (s : Schema) (bad : list bool) (rows : list Row) : outcome error () :=
  match bad, rows with
  | b :: bad, r :: rows => if b : bool then Fail_ (newPrimaryKeyViolation table s r) else first_bad table s bad rows
  | _, _ => Done ()
  end.

Fixpoint repeated (seen : gset string) (keys : list string) : list bool :=
  match keys with
  | [] => []
  | k :: rest => bool_decide (k ∈ seen) :: repeated ({[k]} ∪ seen) rest
  end.

(** The rows written, the row id of the last one, and the error that ended the writing, if any. *)
Definition InsertBulkWithLastRowID (table : string) (rows : list Row) : M (nat * Z * option error) :=
  match rows with
  | [] => mret (0, 0%Z, None)
  | _ =>
      _ ← ForeignKeyParticipants db table;
      s ← GetSchema db table;
      wasInit ← gets (fun w => countInitialized table (tm w));
      ns ← collect (fun r => n ← normalizeInsertRow table s r; mret (n.1.1.1, n.1.1.2)) rows;
      let normalized := map fst ns in
      let keys := map snd ns in
      _ ← validateInsertForeignKeys s normalized;
      datas ← collect (fun r => lift (encode r)) normalized;
      let ops := zip_with put keys datas in
      _ ← lift (first_bad table s (repeated ∅ keys) normalized);
      existing ← collect kv_exists keys;
      _ ← lift (first_bad table s existing normalized);
      unique ← hasUniqueIndex table;
      plan ← (if unique : bool
              then prepareUniqueRows table (list_to_map (zip keys (map (fun r => mkEntry r false) normalized)))
              else mret []);
      written ← write_chunks (chunkBatchOps ops) 0;
      let (numOK, firstErr) := written : nat * option error in
      _ ← (match plan with
           | [] => mret ()
           | _ => apply_plan plan (Some (list_to_set (take numOK keys)))
           end);
      _ ← each (fun kr => updateIndexesForRow table kr.2 true kr.1) (take numOK (zip keys normalized));
      _ ← (if (0 <? numOK)%nat
           then (_ ← modify_tm (bumpGeneration table); bumpIndexPredicates table (take numOK normalized))
           else mret ());
      _ ← modify_tm (incrCount table (CreatedAt s) (Z.of_nat numOK) wasInit);
      _ ← (match firstErr with Some _ => modify_tm (invalidateWriteFailure table) | None => mret () end);
      let lastRowID := match last (take numOK normalized) with
                       | Some r => default 0%Z (rowIDFromRow r)
                       | None => 0%Z
                       end in
      mret (numOK, lastRowID, firstErr)
  end.

End Table.
