(* ===== verification/SessionState.v ===== *)
(** * The state of a session (pkg/storage/tx.go, schema_tx.go)

    What a transaction holds until it commits: the staged rows with the log of their changes, what it
    has read, and the staged catalogue.  A savepoint is a copy of it; a rollback to a savepoint puts
    the copy back.  The session's own lock makes each operation one step. *)
From Stdlib Require Import NArith ZArith Lia Ascii String.
From stdpp Require Import base option list list_numbers gmap sorting strings.
From S2P Require Import Prelude RowLock Bytes RowCodec Float Values Wire KVClient TestKV KVStore Schema UniqueCache TableCache ForeignKey Storage Table.

Section SessionState.
Context `{Json} (db : string) (ev : Evaluators).

(** ** The staged rows *)

Record predicateRead : Type := mkPred { pr_table : string; pr_gen : N }.
Record txMutation : Type := mkMut { m_table : string; m_key : string; m_prev : option overlayEntry }.

(** What a savepoint copies of the rows.  [overlay] is keyed by table, then by data key; a read of
    LSN 0 is of a key that was not there. *)
Record TxData : Type := mkData {
  overlay : gmap string (gmap string overlayEntry); log : list txMutation; reads : gmap string N;
  scanGens : gmap string N; predicateGens : gmap string predicateRead }.

Definition no_data : TxData := mkData ∅ [] ∅ ∅ ∅.

Definition staged_rows (d : TxData) (table : string) : gmap string overlayEntry := default ∅ (overlay d !! table).
Definition staged_entry (d : TxData) (table key : string) : option overlayEntry := staged_rows d table !! key.

Definition with_overlay (o : gmap string (gmap string overlayEntry)) (d : TxData) : TxData :=
  mkData o (log d) (reads d) (scanGens d) (predicateGens d).
Definition with_reads (r : gmap string N) (d : TxData) : TxData :=
  mkData (overlay d) (log d) r (scanGens d) (predicateGens d).
Definition with_scans (g : gmap string N) (d : TxData) : TxData :=
  mkData (overlay d) (log d) (reads d) g (predicateGens d).
Definition with_predicates (p : gmap string predicateRead) (d : TxData) : TxData :=
  mkData (overlay d) (log d) (reads d) (scanGens d) p.

(** A value that is only recorded the first time. *)
Definition once {A} (k : string) (x : A) (m : gmap string A) : gmap string A :=
  match m !! k with Some _ => m | None => <[k := x]> m end.

Definition record_read (key : string) (lsn : N) (d : TxData) : TxData := with_reads (<[key := lsn]> (reads d)) d.
Definition record_scan (table : string) (gen : N) (d : TxData) : TxData := with_scans (once table gen (scanGens d)) d.
Definition record_predicate (key : string) (p : predicateRead) (d : TxData) : TxData :=
  with_predicates (once key p (predicateGens d)) d.

(** [stagePut] and [stageDelete], of an entry. *)
Definition stage (table key : string) (e : overlayEntry) (d : TxData) : TxData :=
  let tl := ToLower table in
  mkData (<[tl := <[key := e]> (staged_rows d tl)]> (overlay d))
    (log d ++ [mkMut tl key (staged_entry d tl key)]) (once key 0%N (reads d)) (scanGens d) (predicateGens d).

Definition stagePut (table key : string) (r : Row) : TxData -> TxData := stage table key (mkEntry r false).
Definition stageDelete (table key : string) (r : Row) : TxData -> TxData := stage table key (mkEntry r true).

(** Undoing one change; a table without staged rows leaves the overlay. *)
Definition undo (o : gmap string (gmap string overlayEntry)) (m : txMutation) : gmap string (gmap string overlayEntry) :=
  let rows := default ∅ (o !! m_table m) in
  match m_prev m with
  | None => let rows := delete (m_key m) rows in
            if decide (rows = ∅) then delete (m_table m) o else <[m_table m := rows]> o
  | Some e => <[m_table m := <[m_key m := e]> rows]> o
  end.

(** [rollbackToLocked]: what was read stays recorded. *)
Definition rollbackToLocked (pos : nat) (d : TxData) : TxData :=
  mkData (fold_left undo (rev (drop pos (log d))) (overlay d)) (take pos (log d))
    (reads d) (scanGens d) (predicateGens d).

Definition overlayHolds (d : TxData) (lowerTable key : string) : bool :=
  bool_decide (is_Some (staged_entry d lowerTable key)).

Definition dropOverlayTableLocked (lower : string) (d : TxData) : TxData :=
  mkData (delete lower (overlay d)) (List.filter (fun m => negb (m_table m =s lower)) (log d))
    (filter (fun kl => String.prefix (dataPrefix db lower) kl.1 = false) (reads d))
    (delete lower (scanGens d)) (filter (fun kp => pr_table kp.2 <> lower) (predicateGens d)).

(** *** The staged rows under another name *)

Definition move_key (oldPrefix newPrefix key : string) : string := (newPrefix ++ TrimPrefix key oldPrefix)%string.

Definition move_prefixed (oldPrefix newPrefix key : string) : string :=
  if String.prefix oldPrefix key then move_key oldPrefix newPrefix key else key.

Definition rekey_log (oldLower newLower oldPrefix newPrefix : string) (m : txMutation) : txMutation :=
  if m_table m =s oldLower then mkMut newLower (move_key oldPrefix newPrefix (m_key m)) (m_prev m) else m.

Definition rekeyOverlayLocked (oldTable newTable : string) (d : TxData) : TxData :=
  let oldLower := ToLower oldTable in
  let newLower := ToLower newTable in
  if oldLower =s newLower then d
  else
    let oldPrefix := dataPrefix db oldLower in
    let newPrefix := dataPrefix db newLower in
    mkData
      (match overlay d !! oldLower with
       | Some entries => <[newLower := kmap (move_key oldPrefix newPrefix) entries]> (delete oldLower (overlay d))
       | None => overlay d
       end)
      (map (rekey_log oldLower newLower oldPrefix newPrefix) (log d))
      (list_to_map (map (fun kl => (move_prefixed oldPrefix newPrefix kl.1, kl.2)) (map_to_list (reads d))))
      (match scanGens d !! oldLower with
       | Some gen => <[newLower := gen]> (delete oldLower (scanGens d))
       | None => scanGens d
       end)
      (list_to_map (map (fun kp =>
         (move_prefixed oldPrefix newPrefix kp.1,
          if pr_table kp.2 =s oldLower then mkPred newLower (pr_gen kp.2) else kp.2)) (map_to_list (predicateGens d)))).

(** ** The staged catalogue *)

(** A pending transformation of the rows of a table. *)
Inductive rowRewrite : Type :=
  | RwDefault (name : string) (value : val)
  | RwDrop (column : string)
  | RwRename (oldName newName : string).

Definition named_field (name : string) (r : Row) : option (string * val) :=
  find (fun kv => EqualFold kv.1 name) (map_to_list r).

Definition run_rewrite (w : rowRewrite) (r : Row) : Row * bool :=
  match w with
  | RwDefault name value =>
      match rowColumnValue r name with Some _ => (r, false) | None => (<[name := value]> r, true) end
  | RwDrop column =>
      match named_field column r with Some (k, _) => (delete k r, true) | None => (r, false) end
  | RwRename oldName newName =>
      match named_field oldName r with Some (k, v) => (<[newName := v]> (delete k r), true) | None => (r, false) end
  end.

Definition run_rewrites (ws : list rowRewrite) (r : Row) : Row * bool :=
  fold_left (fun rc w => let (r', c) := run_rewrite w rc.1 in (r', rc.2 || c)) ws (r, false).

(** What a savepoint copies of the catalogue.  A list that is not loaded is [None]. *)
Record TxCatalog : Type := mkTxCat {
  tx_version : N; staged : gmap string (option Schema); stagedIndexes : gmap string (option Index);
  tx_tables : option (list string); indexList : option (list string); catalogDirty : bool; indexListDirty : bool;
  rewrites : gmap string (list rowRewrite); dataSources : gmap string string; drops : gset string;
  renames : gmap string string }.

Record SchemaTx : Type := mkTx {
  cat : TxCatalog; committedSchemas : gmap string Schema; committedIndexes : gmap string Index;
  tx_reads : gmap string N; rekeys : list (string * string) }.

Definition newSchemaTx (version : N) : SchemaTx :=
  mkTx (mkTxCat version ∅ ∅ None None false false ∅ ∅ ∅ ∅) ∅ ∅ ∅ [].

Definition with_cat (f : TxCatalog -> TxCatalog) (t : SchemaTx) : SchemaTx :=
  mkTx (f (cat t)) (committedSchemas t) (committedIndexes t) (tx_reads t) (rekeys t).

Definition bump (c : TxCatalog) : TxCatalog :=
  mkTxCat (incr64 (tx_version c)) (staged c) (stagedIndexes c) (tx_tables c) (indexList c) (catalogDirty c)
    (indexListDirty c) (rewrites c) (dataSources c) (drops c) (renames c).
Definition with_staged (s : gmap string (option Schema)) (c : TxCatalog) : TxCatalog :=
  mkTxCat (tx_version c) s (stagedIndexes c) (tx_tables c) (indexList c) (catalogDirty c)
    (indexListDirty c) (rewrites c) (dataSources c) (drops c) (renames c).
Definition with_stagedIndexes (s : gmap string (option Index)) (c : TxCatalog) : TxCatalog :=
  mkTxCat (tx_version c) (staged c) s (tx_tables c) (indexList c) (catalogDirty c)
    (indexListDirty c) (rewrites c) (dataSources c) (drops c) (renames c).
Definition with_tables (l : option (list string)) (dirty : bool) (c : TxCatalog) : TxCatalog :=
  mkTxCat (tx_version c) (staged c) (stagedIndexes c) l (indexList c) dirty
    (indexListDirty c) (rewrites c) (dataSources c) (drops c) (renames c).
Definition with_indexList (l : option (list string)) (dirty : bool) (c : TxCatalog) : TxCatalog :=
  mkTxCat (tx_version c) (staged c) (stagedIndexes c) (tx_tables c) l (catalogDirty c)
    dirty (rewrites c) (dataSources c) (drops c) (renames c).
Definition with_rewrites (r : gmap string (list rowRewrite)) (c : TxCatalog) : TxCatalog :=
  mkTxCat (tx_version c) (staged c) (stagedIndexes c) (tx_tables c) (indexList c) (catalogDirty c)
    (indexListDirty c) r (dataSources c) (drops c) (renames c).
Definition with_sources (s : gmap string string) (c : TxCatalog) : TxCatalog :=
  mkTxCat (tx_version c) (staged c) (stagedIndexes c) (tx_tables c) (indexList c) (catalogDirty c)
    (indexListDirty c) (rewrites c) s (drops c) (renames c).
Definition with_drops (s : gset string) (c : TxCatalog) : TxCatalog :=
  mkTxCat (tx_version c) (staged c) (stagedIndexes c) (tx_tables c) (indexList c) (catalogDirty c)
    (indexListDirty c) (rewrites c) (dataSources c) s (renames c).
Definition with_renames (r : gmap string string) (c : TxCatalog) : TxCatalog :=
  mkTxCat (tx_version c) (staged c) (stagedIndexes c) (tx_tables c) (indexList c) (catalogDirty c)
    (indexListDirty c) (rewrites c) (dataSources c) (drops c) r.

(** [append([]string(nil), l...)]: the copy of a list without elements is nil, which reads as not loaded. *)
Definition copy_list (l : option (list string)) : option (list string) :=
  match l with Some [] => None | l => l end.

Record schemaTxSnapshot : Type := mkSnap { snap_cat : TxCatalog; snap_rekeys : nat }.

Definition copy_lists (c : TxCatalog) : TxCatalog :=
  with_tables (copy_list (tx_tables c)) (catalogDirty c) (with_indexList (copy_list (indexList c)) (indexListDirty c) c).

Definition snapshot (t : SchemaTx) : schemaTxSnapshot := mkSnap (copy_lists (cat t)) (length (rekeys t)).

(** The renames after the snapshot are undone on the staged rows, the last one first. *)
Definition undo_rekeys (t : SchemaTx) (snap : schemaTxSnapshot) (d : TxData) : TxData :=
  fold_left (fun d r => rekeyOverlayLocked r.2 r.1 d) (rev (drop (snap_rekeys snap) (rekeys t))) d.

Definition restore (t : SchemaTx) (snap : schemaTxSnapshot) : SchemaTx :=
  mkTx (copy_lists (snap_cat snap)) (committedSchemas t) (committedIndexes t) (tx_reads t)
    (take (snap_rekeys snap) (rekeys t)).

(** ** Sessions *)

(** [s_id] is the session as an owner of row locks.  The cached foreign keys carry the version they
    were built for. *)
Record Session : Type := mkSession {
  s_id : session; inTx : bool; aborted : bool; autoLocks : bool; lockingRead : bool; lockingTable : string;
  txdata : TxData; schemaTx : option SchemaTx; s_fkCatalog : option foreignKeyCatalog }.

Definition NewSession (id : session) : Session := mkSession id false false false false EmptyString no_data None None.

Definition set_data (d : TxData) (s : Session) : Session :=
  mkSession (s_id s) (inTx s) (aborted s) (autoLocks s) (lockingRead s) (lockingTable s) d (schemaTx s) (s_fkCatalog s).
Definition set_tx (t : option SchemaTx) (s : Session) : Session :=
  mkSession (s_id s) (inTx s) (aborted s) (autoLocks s) (lockingRead s) (lockingTable s) (txdata s) t (s_fkCatalog s).
Definition set_fk (c : option foreignKeyCatalog) (s : Session) : Session :=
  mkSession (s_id s) (inTx s) (aborted s) (autoLocks s) (lockingRead s) (lockingTable s) (txdata s) (schemaTx s) c.
Definition set_aborted (b : bool) (s : Session) : Session :=
  mkSession (s_id s) (inTx s) b (autoLocks s) (lockingRead s) (lockingTable s) (txdata s) (schemaTx s) (s_fkCatalog s).
Definition set_autoLocks (b : bool) (s : Session) : Session :=
  mkSession (s_id s) (inTx s) (aborted s) b (lockingRead s) (lockingTable s) (txdata s) (schemaTx s) (s_fkCatalog s).
Definition set_locking (b : bool) (table : string) (s : Session) : Session :=
  mkSession (s_id s) (inTx s) (aborted s) (autoLocks s) b table (txdata s) (schemaTx s) (s_fkCatalog s).

(** *** Operations on a session and the shared state *)

Definition SM (A : Type) : Type := Session -> World -> outcome error A * (Session * World).

#[export] Instance SM_ret : MRet SM := fun A a s w => (Done a, (s, w)).
#[export] Instance SM_bind : MBind SM := fun A B k m s w =>
  match m s w with
  | (Done a, (s, w)) => k a s w
  | (Fail_ e, sw) => (Fail_ e, sw)
  | (Panic, sw) => (Panic, sw)
  end.

Definition liftM {A} (m : M A) : SM A := fun s w => let (r, w) := m w in (r, (s, w)).
Definition lift_res {A} (r : outcome error A) : SM A := fun s w => (r, (s, w)).
Definition failS {A} (e : error) : SM A := fun s w => (Fail_ e, (s, w)).
Definition getS {A} (f : Session -> A) : SM A := fun s w => (Done (f s), (s, w)).
Definition modS (f : Session -> Session) : SM () := fun s w => (Done (), (f s, w)).
Definition getD {A} (f : TxData -> A) : SM A := getS (fun s => f (txdata s)).
Definition modD (f : TxData -> TxData) : SM () := modS (fun s => set_data (f (txdata s)) s).

(** The staged catalogue; without one the program stops. *)
Definition getT {A} (f : SchemaTx -> A) : SM A := fun s w =>
  match schemaTx s with Some t => (Done (f t), (s, w)) | None => (Panic, (s, w)) end.
Definition modT (f : SchemaTx -> SchemaTx) : SM () := fun s w =>
  match schemaTx s with Some t => (Done (), (set_tx (Some (f t)) s, w)) | None => (Panic, (s, w)) end.
Definition modC (f : TxCatalog -> TxCatalog) : SM () := modT (with_cat f).

Definition attemptS {A} (m : SM A) : SM (A + error) := fun s w =>
  match m s w with
  | (Done a, sw) => (Done (inl a), sw)
  | (Fail_ e, sw) => (Done (inr e), sw)
  | (Panic, sw) => (Panic, sw)
  end.

Fixpoint eachS {A} (f : A -> SM ()) (l : list A) : SM () :=
  match l with [] => mret () | x :: r => _ ← f x; eachS f r end.

Fixpoint collectS {A B} (f : A -> SM B) (l : list A) : SM (list B) :=
  match l with [] => mret [] | x :: r => y ← f x; ys ← collectS f r; mret (y :: ys) end.

(** *** The life of a transaction *)

Definition begun (version : N) (s : Session) : Session :=
  mkSession (s_id s) true false (autoLocks s) (lockingRead s) (lockingTable s) no_data (Some (newSchemaTx version)) None.

Definition Begin : SM () :=
  open ← getS inTx;
  if open : bool then failS (Errorf "cannot start a transaction within a transaction")
  else (v ← liftM Version; modS (begun v)).

Definition release_all (s : Session) (w : World) : World :=
  set_locks (ReleaseAll (locks w) (s_id s) (map fst (map_to_list (entries (locks w))))).1 w.

Definition resetLocked : SM () := fun s w => (Done (), (NewSession (s_id s), release_all s w)).

Definition Rollback : SM () :=
  open ← getS inTx;
  if open : bool then resetLocked else failS (Errorf "cannot rollback: no transaction in progress").

Definition Abort_ : SM () := modS (fun s => if inTx s then set_aborted true s else s).

Definition Snapshot : SM nat := getD (fun d => length (log d)).
Definition RollbackTo (pos : nat) : SM () := _ ← modD (rollbackToLocked pos); modS (set_aborted false).

Record SessionSavepoint : Type := mkSavepoint { sp_data : TxData; sp_schema : option schemaTxSnapshot }.

Definition savepointLocked (s : Session) : SessionSavepoint := mkSavepoint (txdata s) (snapshot <$> schemaTx s).
Definition Savepoint : SM SessionSavepoint := getS savepointLocked.

(** The staged rows are put back first; then the renames after the savepoint are undone on them. *)
Definition rollbackToSavepointLocked (sp : SessionSavepoint) (s : Session) : Session :=
  let s := set_data (sp_data sp) s in
  set_fk None
    (match schemaTx s, sp_schema sp with
     | Some t, Some snap => set_tx (Some (restore t snap)) (set_data (undo_rekeys t snap (txdata s)) s)
     | _, _ => s
     end).

Definition RollbackToSavepoint (sp : SessionSavepoint) : SM () :=
  modS (fun s => set_aborted false (rollbackToSavepointLocked sp s)).

(** [stageDDL]: a statement that fails leaves the transaction as it was. *)
Definition stageDDL {A} (apply : SM A) : SM A :=
  sp ← Savepoint;
  r ← attemptS apply;
  match r with
  | inl a => mret a
  | inr e => _ ← modS (rollbackToSavepointLocked sp); failS e
  end.

(** *** Locking reads *)

Definition BeginLockStatement : SM () := modS (fun s => if inTx s then s else set_autoLocks true s).

Definition EndLockStatement : SM () := fun s w =>
  (Done (), (set_autoLocks false s, if negb (inTx s) && autoLocks s then release_all s w else w)).

Definition BeginLockingRead (table : string) : SM () := modS (set_locking true table).
Definition EndLockingRead : SM () := modS (set_locking false EmptyString).

Definition lockingTableIs (s : Session) (table : string) : bool := lockingRead s && EqualFold table (lockingTable s).

Definition RowLockKey (table pk : string) : string := dataKey db table pk.

(** A request for a row lock that does not wait: granted, or refused with the error of its mode.
    [order] is the order in which the owners are visited. *)
Definition AcquireRowLock (order : list session) (table pk : string) (mode : LockMode) (wait : LockWait)
    : SM (option lock_error) := fun s w =>
  let (m, r) := tryLock order (locks w) (s_id s) (RowLockKey table pk) mode in
  (Done (if r.1 : bool then None
         else Some (match wait with LockWaitNoWait => ErrLockNotAvailable | _ => ErrRowLocked end)),
   (s, set_locks m w)).

Definition lock_text (e : lock_error) : string :=
  match e with
  | ErrRowLocked => "row is locked by another transaction"
  | ErrLockNotAvailable => "row lock is not available"
  | ErrDeadlockDetected => "deadlock detected"
  end.

(** The gate of a write: a row that another session has locked fails it. *)
Definition begin_write (keys prefixes : list string) : SM () := fun s w =>
  match BeginWrite (locks w) (s_id s) keys prefixes with
  | Some e => (Fail_ (ErrSerialization (lock_text e)), (s, w))
  | None => (Done (), (s, w))
  end.

Definition guardKeys {A} (keys : list string) (m : SM A) : SM A := _ ← begin_write keys []; m.
Definition guardTable {A} (table : string) (m : SM A) : SM A := _ ← begin_write [] [dataPrefix db table]; m.

(** [markTableScanned] *)
Definition markTableScanned (table : string) : SM () :=
  let lower := ToLower table in
  gen ← liftM (gets (fun w => generation (tm w) lower)); modD (record_scan lower gen).

End SessionState.
