(* ===== verification/SchemaTx.v ===== *)
(** * The staged catalogue of a transaction (pkg/storage/schema_tx.go)

    DDL inside a transaction is staged: the catalogue reads through it to the durable records, whose
    commit numbers it remembers, and the commit turns it into writes and checks of one batch. *)
From Stdlib Require Import NArith ZArith Lia Ascii String.
From stdpp Require Import base option list list_numbers gmap sorting strings.
From S2P Require Import Prelude RowLock Bytes RowCodec Float Values Wire KVClient TestKV KVStore Schema UniqueCache TableCache ForeignKey Storage Table SessionState.

Section SchemaTx.
Context `{Json} (db : string) (ev : Evaluators).

(** ** Reading *)

Definition recordRead (key : string) (lsn : N) : SM () :=
  modT (fun t => mkTx (cat t) (committedSchemas t) (committedIndexes t) (once key lsn (tx_reads t)) (rekeys t)).

Definition with_committedSchemas (f : gmap string Schema -> gmap string Schema) (t : SchemaTx) : SchemaTx :=
  mkTx (cat t) (f (committedSchemas t)) (committedIndexes t) (tx_reads t) (rekeys t).
Definition with_committedIndexes (f : gmap string Index -> gmap string Index) (t : SchemaTx) : SchemaTx :=
  mkTx (cat t) (committedSchemas t) (f (committedIndexes t)) (tx_reads t) (rekeys t).

(** Before the final validation: what was read of the committed catalogue is dropped, what is staged stays. *)
Definition refreshCommitted : SM () :=
  modT (fun t =>
    mkTx (with_tables (if catalogDirty (cat t) then tx_tables (cat t) else None) (catalogDirty (cat t))
            (with_indexList (if indexListDirty (cat t) then indexList (cat t) else None) (indexListDirty (cat t)) (cat t)))
      ∅ ∅ (tx_reads t) (rekeys t)).

Definition loadSchema (name : string) : SM Schema :=
  let lower := ToLower name in
  cached ← getT (fun t => committedSchemas t !! lower);
  match cached with
  | Some s => mret s
  | None =>
      let key := schemaKey db name in
      r ← liftM (readDurable key);
      _ ← recordRead key (match r with Some (_, lsn) => lsn | None => 0%N end);
      match r with
      | None => failS (TableNotFound name)
      | Some (data, _) =>
          s ← lift_res (parse_schema data);
          _ ← modT (with_committedSchemas <[lower := s]>);
          mret s
      end
  end.

Definition getSchema (name : string) : SM Schema :=
  st ← getT (fun t => staged (cat t) !! ToLower name);
  match st with
  | Some None => failS (TableNotFound name)
  | Some (Some s) => mret s
  | None => loadSchema name
  end.

(** Any failure to read the definition is a table that does not exist. *)
Definition tableExists (name : string) : SM bool :=
  r ← attemptS (getSchema name); mret (match r with inl _ => true | inr _ => false end).

(** A durable list of names; a missing record, or null, is no list. *)
Definition list_of_json (what : string) (data : list byte) : outcome error (option (list string)) :=
  l ← parse_names what data; Done (if bool_decide (data = bytes "null") then None else Some l).

Definition list_durable (what key : string) : M (option (list string) * N) :=
  r ← readDurable key;
  match r with
  | None => mret (None, 0%N)
  | Some (data, lsn) => l ← lift (list_of_json what data); mret (l, lsn)
  end.

Definition catalogTablesDurable : M (option (list string) * N) := list_durable "catalog" (catalogKey db).
Definition indexListDurable : M (option (list string) * N) := list_durable "index list" (indexListKey db).

Definition listTables : SM (list string) :=
  cached ← getT (fun t => tx_tables (cat t));
  match cached with
  | Some l => mret l
  | None =>
      r ← liftM catalogTablesDurable;
      _ ← recordRead (catalogKey db) r.2;
      _ ← modC (fun c => with_tables r.1 (catalogDirty c) c);
      mret (default [] r.1)
  end.

Definition stageTableList (l : list string) : SM () := modC (with_tables (Some l) true).

Definition getIndex (name : string) : SM Index :=
  let lower := ToLower name in
  st ← getT (fun t => stagedIndexes (cat t) !! lower);
  match st with
  | Some None => failS (ErrIndexNotFound name)
  | Some (Some i) => mret i
  | None =>
      cached ← getT (fun t => committedIndexes t !! lower);
      match cached with
      | Some i => mret i
      | None =>
          let key := indexKey db name in
          r ← liftM (readDurable key);
          _ ← recordRead key (match r with Some (_, lsn) => lsn | None => 0%N end);
          match r with
          | None => failS (ErrIndexNotFound name)
          | Some (data, _) =>
              i ← lift_res (parse_index data);
              _ ← modT (with_committedIndexes <[lower := i]>);
              mret i
          end
      end
  end.

Definition indexExists (name : string) : SM bool :=
  r ← attemptS (getIndex name); mret (match r with inl _ => true | inr _ => false end).

Definition listIndexes : SM (list string) :=
  cached ← getT (fun t => indexList (cat t));
  match cached with
  | Some l => mret l
  | None =>
      r ← liftM indexListDurable;
      _ ← recordRead (indexListKey db) r.2;
      _ ← modC (fun c => with_indexList r.1 (indexListDirty c) c);
      mret (default [] r.1)
  end.

Definition stageIndexList (l : list string) : SM () := modC (with_indexList (Some l) true).

(** The indexes of a table: one that is gone is skipped, any other failure ends the listing. *)
Fixpoint indexes_of (table : string) (names : list string) : SM (list Index) :=
  match names with
  | [] => mret []
  | name :: rest =>
      r ← attemptS (getIndex name);
      match r with
      | inl idx =>
          others ← indexes_of table rest;
          mret (if EqualFold (idx_Table idx) table then idx :: others else others)
      | inr (ErrIndexNotFound _) => indexes_of table rest
      | inr e => failS e
      end
  end.

Definition listTableIndexes (table : string) : SM (list Index) := names ← listIndexes; indexes_of table names.

(** The same, where a failure skips the index or leaves the list empty. *)
Fixpoint indexes_found (table : string) (names : list string) : SM (list Index) :=
  match names with
  | [] => mret []
  | name :: rest =>
      r ← attemptS (getIndex name);
      others ← indexes_found table rest;
      mret (match r with
            | inl idx => if EqualFold (idx_Table idx) table then idx :: others else others
            | inr _ => others
            end)
  end.

Definition tableIndexes (lower : string) : SM (list Index) :=
  r ← attemptS listIndexes;
  match r with inl names => indexes_found lower names | inr _ => mret [] end.

(** ** Staging *)

Definition stage_index (i : Index) (c : TxCatalog) : TxCatalog :=
  with_stagedIndexes (<[ToLower (idx_Name i) := Some i]> (stagedIndexes c)) c.

Definition stageSchema (s : Schema) : SM () :=
  let lower := ToLower (Name s) in
  _ ← modT (with_committedSchemas (delete lower));
  _ ← modC (fun c => with_sources (once lower lower (dataSources c)) (with_staged (<[lower := Some s]> (staged c)) c));
  _ ← recordRead (schemaKey db (Name s)) 0;
  modC bump.

Definition stageDroppedTable (lower : string) : SM () :=
  _ ← modT (with_committedSchemas (delete lower));
  _ ← modC (fun c => with_staged (<[lower := None]> (staged c)) c);
  _ ← recordRead (schemaKey db lower) 0;
  modC bump.

(** The durable name whose prefix holds the rows of a table; empty for a table of this transaction. *)
Definition durableSource (c : TxCatalog) (lower : string) : string := default lower (dataSources c !! lower).

Definition createTable (s : Schema) : SM () :=
  exists_ ← tableExists (Name s);
  if exists_ : bool then failS (Errorf ("table already exists: " ++ Name s))
  else (
    t ← liftM (gets now);
    let lower := ToLower (Name s) in
    let s := normalizePrimaryKey (with_created t s) in
    _ ← modC (fun c => with_sources (<[lower := EmptyString]> (dataSources c))
                         (with_staged (<[lower := Some s]> (staged c)) c));
    tables ← listTables;
    if existsb (fun n => EqualFold n (Name s)) tables
    then failS (Errorf ("table already exists: " ++ Name s))
    else (_ ← stageTableList (tables ++ [Name s]); modC bump)).

Definition createIndex (i : Index) : SM () :=
  exists_ ← indexExists (idx_Name i);
  if exists_ : bool then failS (Errorf ("index already exists: " ++ idx_Name i))
  else (
    table ← tableExists (idx_Table i);
    if negb table then failS (TableNotFound (idx_Table i))
    else (
      t ← liftM (gets now);
      let i := with_idx_created t i in
      _ ← modT (with_committedIndexes (delete (ToLower (idx_Name i))));
      _ ← modC (stage_index i);
      names ← listIndexes;
      _ ← stageIndexList (names ++ [idx_Name i]);
      _ ← recordRead (indexKey db (idx_Name i)) 0;
      modC bump)).

Definition dropIndex (name : string) : SM () :=
  r ← attemptS (getIndex name);
  match r with
  | inr _ => failS (Errorf ("index not found: " ++ name))
  | inl i =>
      let lower := ToLower name in
      _ ← modT (with_committedIndexes (delete lower));
      _ ← modC (fun c => with_stagedIndexes (<[lower := None]> (stagedIndexes c)) c);
      names ← listIndexes;
      _ ← stageIndexList (List.filter (fun n => negb (EqualFold n name)) names);
      _ ← recordRead (indexKey db (idx_Name i)) 0;
      modC bump
  end.

(** The names a drop removes from the catalogue of tables. *)
Definition without_name (name : string) (l : list string) : list string :=
  List.filter (fun n => negb (EqualFold n name)) l.

Definition dropTable (name : string) : SM () :=
  let lower := ToLower name in
  r ← attemptS (getSchema name);
  match r with
  | inr _ => failS (TableNotFound name)
  | inl _ =>
      source ← getT (fun t => durableSource (cat t) lower);
      _ ← (if is_empty source then mret () else modC (fun c => with_drops ({[source]} ∪ drops c) c));
      _ ← modC (fun c => with_sources (delete lower (dataSources c)) (with_rewrites (delete lower (rewrites c)) c));
      renamed ← getT (fun t => bool_decide (is_Some (renames (cat t) !! lower)));
      _ ← (if renamed : bool then mret () else recordRead (schemaKey db lower) 0);
      _ ← stageDroppedTable lower;
      indexes ← tableIndexes lower;
      _ ← eachS (fun i => dropIndex (idx_Name i)) indexes;
      tables ← listTables;
      _ ← stageTableList (without_name name tables);
      _ ← modD (dropOverlayTableLocked db lower);
      markTableScanned lower
  end.

(** ** ALTER TABLE *)

Definition checkColumnAbsent (s : Schema) (name : string) : outcome error () :=
  if existsb (fun c => EqualFold (col_Name c) name) (Columns s)
  then Fail_ (Errorf ("column already exists: " ++ name)) else Done ().

Definition with_columns (cols : list Column) (s : Schema) : Schema :=
  mkSchema (Name s) cols (PrimaryKey s) (PrimaryKeyColumns s) (CreatedAt s) (NextRowID s) (AutoIncrement s)
    (Checks s) (ForeignKeys s).
Definition with_checks (cs : list CheckConstraint) (s : Schema) : Schema :=
  mkSchema (Name s) (Columns s) (PrimaryKey s) (PrimaryKeyColumns s) (CreatedAt s) (NextRowID s) (AutoIncrement s)
    cs (ForeignKeys s).
Definition with_name (n : string) (s : Schema) : Schema :=
  mkSchema n (Columns s) (PrimaryKey s) (PrimaryKeyColumns s) (CreatedAt s) (NextRowID s) (AutoIncrement s)
    (Checks s) (ForeignKeys s).

(** One row under the new column: its value, its checks, and its value among those seen. *)
Definition probe_row (table : string) (c : Column) (checks : list CheckConstraint) (unique : option Index)
    (t : Z) (r : Row) (seen : gset string) : outcome error (gset string) :=
  v ← (match rowColumnValue r (col_Name c) with
       | Some v => Done (Some v)
       | None => columnDefaultValue ev c t
       end);
  _ ← (match checks, checkEval ev with
       | _ :: _, Some eval =>
           run_checks eval table checks (match v with Some v => <[col_Name c := v]> r | None => r end)
       | _, _ => Done ()
       end);
  match unique, v with
  | Some idx, Some v =>
      if is_nil v then Done seen
      else
        let e := encodeUniqueScalar v in
        if decide (e ∈ seen) then Fail_ (UniqueViolation (idx_Name idx)) else Done ({[e]} ∪ seen)
  | _, _ => Done seen
  end.

Fixpoint probe_rows (table : string) (c : Column) (checks : list CheckConstraint) (unique : option Index)
    (t : Z) (rows : list Row) (seen : gset string) : outcome error () :=
  match rows with
  | [] => Done ()
  | r :: rest => seen ← probe_row table c checks unique t r seen; probe_rows table c checks unique t rest seen
  end.

(** The committed rows of a table. *)
Definition durableRows (table : string) : SM (list Row) :=
  source ← getT (fun t => durableSource (cat t) (ToLower table));
  rs ← liftM (scan_rows (dataPrefix db source)); mret (map (fun krl => krl.1.2) rs).

Definition addRewrite (table : string) (w : rowRewrite) : SM () :=
  let lower := ToLower table in
  modC (fun c => with_rewrites (<[lower := default [] (rewrites c !! lower) ++ [w]]> (rewrites c)) c).

Definition stage_unique (u : Index) : SM () :=
  _ ← modC (stage_index u);
  names ← listIndexes;
  _ ← stageIndexList (names ++ [idx_Name u]);
  recordRead (indexKey db (idx_Name u)) 0.

Definition check_new_index (s : Schema) (u : Index) : SM () :=
  if negb (EqualFold (idx_Table u) (Name s))
  then failS (Errorf ("index " ++ idx_Name u ++ " belongs to table " ++ idx_Table u ++ ", not " ++ Name s))
  else (b ← indexExists (idx_Name u);
        if b : bool then failS (Errorf ("index already exists: " ++ idx_Name u)) else mret ()).

Definition no_check_evaluator (table : string) (checks : list CheckConstraint) : outcome error () :=
  match checks, checkEval ev with
  | _ :: _, None => Fail_ (Errorf ("cannot validate CHECK constraints on " ++ table ++ ": no CHECK evaluator installed"))
  | _, _ => Done ()
  end.

Definition when_some {A} (o : option A) (f : A -> SM ()) : SM () := match o with Some a => f a | None => mret () end.

Definition addColumn (table : string) (c : Column) (checks : list CheckConstraint) (unique : option Index) : SM () :=
  s ← getSchema table;
  _ ← lift_res (checkColumnAbsent s (col_Name c));
  _ ← when_some unique (check_new_index s);
  t ← liftM (gets now);
  _ ← markTableScanned (ToLower table);
  rows ← durableRows table;
  _ ← (if negb (Nullable c) && negb (columnHasDefault c) && (0 <? length rows)%nat
       then failS (NotNullViolation (Name s) (col_Name c)) else mret ());
  _ ← lift_res (no_check_evaluator table checks);
  _ ← lift_res (probe_rows table c checks unique t rows ∅);
  _ ← stageSchema (with_checks (Checks s ++ checks) (with_columns (Columns s ++ [c]) s));
  _ ← when_some unique stage_unique;
  if columnHasDefault c
  then (d ← lift_res (columnDefaultValue ev c t);
        when_some d (fun v => addRewrite table (RwDefault (col_Name c) v)))
  else mret ().

Definition dropColumn (table column : string) : SM () :=
  s ← getSchema table;
  if IsPrimaryKeyColumn s column then failS (Errorf ("cannot drop primary key column: " ++ column))
  else if negb (existsb (fun c => EqualFold (col_Name c) column) (Columns s))
  then failS (Errorf ("column not found: " ++ column))
  else (
    _ ← stageSchema (with_columns (List.filter (fun c => negb (EqualFold (col_Name c) column)) (Columns s)) s);
    _ ← addRewrite table (RwDrop column);
    markTableScanned (ToLower table)).

Definition rename_col (newName : string) (c : Column) : Column :=
  mkColumn newName (col_Type c) (Nullable c) (Default c) (DefaultExpr c) (col_PrimaryKey c) (GeneratedExpr c)
    (GeneratedStored c).

(** The first column of the name is renamed. *)
Fixpoint rename_columns (oldName newName : string) (cols : list Column) : list Column :=
  match cols with
  | [] => []
  | c :: rest => if EqualFold (col_Name c) oldName then rename_col newName c :: rest
                 else c :: rename_columns oldName newName rest
  end.

Definition rename_word (oldName newName n : string) : string := if EqualFold n oldName then newName else n.

Definition renamed_schema (oldName newName : string) (s : Schema) : Schema :=
  mkSchema (Name s) (rename_columns oldName newName (Columns s)) (rename_word oldName newName (PrimaryKey s))
    (map (rename_word oldName newName) (PrimaryKeyColumns s)) (CreatedAt s) (NextRowID s) (AutoIncrement s)
    (Checks s) (ForeignKeys s).

(** An expression keeps its text. *)
Definition rename_index_column (oldName newName : string) (c : IndexColumn) : IndexColumn :=
  if is_empty (ic_Expression c) && EqualFold (ic_Name c) oldName
  then mkIndexColumn newName (Desc c) (ic_Expression c) else c.

Definition with_idx_columns (cols : list IndexColumn) (i : Index) : Index :=
  mkIndex (idx_Name i) (idx_Table i) cols (Unique i) (idx_CreatedAt i) (OnConflict i).

Definition names_column (name : string) (i : Index) : bool :=
  existsb (fun c => is_empty (ic_Expression c) && EqualFold (ic_Name c) name) (idx_Columns i).

Definition renamed_index (oldName newName : string) (i : Index) : Index :=
  with_idx_columns (map (rename_index_column oldName newName) (idx_Columns i)) i.

Definition stage_changed_index (i : Index) : SM () :=
  _ ← modC (stage_index i); recordRead (indexKey db (idx_Name i)) 0.

Definition renameColumn (table oldName newName : string) : SM () :=
  s ← getSchema table;
  if existsb (fun c => EqualFold (col_Name c) newName) (Columns s)
  then failS (Errorf ("column already exists: " ++ newName))
  else if negb (existsb (fun c => EqualFold (col_Name c) oldName) (Columns s))
  then failS (Errorf ("column not found: " ++ oldName))
  else (
    _ ← stageSchema (renamed_schema oldName newName s);
    indexes ← tableIndexes (ToLower table);
    _ ← eachS (fun i => if names_column oldName i then stage_changed_index (renamed_index oldName newName i)
                        else mret ()) indexes;
    _ ← addRewrite table (RwRename oldName newName);
    markTableScanned (ToLower table)).

Definition with_idx_table (table : string) (i : Index) : Index :=
  mkIndex (idx_Name i) table (idx_Columns i) (Unique i) (idx_CreatedAt i) (OnConflict i).

Fixpoint replace_first (oldName newName : string) (l : list string) : option (list string) :=
  match l with
  | [] => None
  | n :: rest => if EqualFold n oldName then Some (newName :: rest)
                 else option_map (cons n) (replace_first oldName newName rest)
  end.

(** The definitions move at once; the rows stay under the durable name until the commit. *)
Definition move_definition (s : Schema) (oldLower newName source : string) (c : TxCatalog) : TxCatalog :=
  let newLower := ToLower newName in
  let c := with_staged (<[newLower := Some (with_name newName s)]> (<[oldLower := None]> (staged c))) c in
  let c := with_sources (<[newLower := source]> (dataSources c)) c in
  let c := if is_empty source then c
           else with_renames (if EqualFold source newLower then delete source (renames c)
                              else <[source := newName]> (renames c)) c in
  let c := with_sources (delete oldLower (dataSources c)) c in
  let c := with_drops (drops c ∖ {[newLower]}) c in
  match rewrites c !! oldLower with
  | Some ws => with_rewrites (<[newLower := ws]> (delete oldLower (rewrites c))) c
  | None => c
  end.

Definition add_rekey (from to : string) (t : SchemaTx) : SchemaTx :=
  mkTx (cat t) (committedSchemas t) (committedIndexes t) (tx_reads t) (rekeys t ++ [(from, to)]).

Definition renameTable (oldName newName : string) : SM () :=
  s ← getSchema oldName;
  exists_ ← tableExists newName;
  if exists_ : bool then failS (Errorf ("table already exists: " ++ newName))
  else (
    let oldLower := ToLower oldName in
    let newLower := ToLower newName in
    source ← getT (fun t => durableSource (cat t) oldLower);
    _ ← modT (with_committedSchemas (fun m => delete newLower (delete oldLower m)));
    _ ← modC (move_definition s oldLower newName source);
    indexes ← tableIndexes oldLower;
    _ ← eachS (fun i => stage_changed_index (with_idx_table newName i)) indexes;
    tables ← listTables;
    match replace_first oldName newName tables with
    | None => failS (Errorf ("table not found in catalog: " ++ oldName))
    | Some tables =>
        _ ← stageTableList tables;
        _ ← modT (add_rekey oldLower newLower);
        _ ← modD (rekeyOverlayLocked db oldLower newLower);
        source ← getT (fun t => durableSource (cat t) newLower);
        _ ← (if is_empty source then mret () else markTableScanned source);
        modC bump
    end).

(** ** The writes of a commit *)

Definition rewriteRow (c : TxCatalog) (table : string) (r : Row) : Row * bool :=
  match rewrites c !! ToLower table with Some ws => run_rewrites ws r | None => (r, false) end.

(** The writes of the records of one kind, with the keys they check. *)
Definition opkeys : Type := list BatchOp * list string.
Definition app_ops (a b : opkeys) : opkeys := (a.1 ++ b.1, a.2 ++ b.2).

Definition schema_ops (c : TxCatalog) (ls : string * option Schema) : outcome error opkeys :=
  match ls.2 with
  | None =>
      match renames c !! ls.1 with
      | Some _ => Done ([], [])
      | None => Done ([del (schemaKey db ls.1); del (rowIDKey db ls.1)], [schemaKey db ls.1])
      end
  | Some s =>
      data ← marshal_schema s;
      Done ([put (schemaKey db (Name s)) data], [schemaKey db (Name s)])
  end.

Definition rename_ops (sn : string * string) : opkeys :=
  if EqualFold sn.1 sn.2 then ([], [])
  else ([del (schemaKey db sn.1); del (rowIDKey db sn.1)], [schemaKey db sn.1]).

Definition index_ops (li : string * option Index) : opkeys :=
  match li.2 with
  | None => ([del (indexKey db li.1)], [indexKey db li.1])
  | Some i => ([put (indexKey db (idx_Name i)) (index_json i)], [indexKey db (idx_Name i)])
  end.

(** A list that is nil is written as null. *)
Definition list_json (l : option (list string)) : list byte :=
  match l with Some l => names_json l | None => bytes "null" end.

Fixpoint all_schema_ops (c : TxCatalog) (l : list (string * option Schema)) : outcome error opkeys :=
  match l with
  | [] => Done ([], [])
  | ls :: rest => a ← schema_ops c ls; b ← all_schema_ops c rest; Done (app_ops a b)
  end.

Definition concat_ops (l : list opkeys) : opkeys := foldr app_ops ([], []) l.

(** Each key is checked once. *)
Fixpoint dedup (l : list string) (seen : gset string) : list string :=
  match l with
  | [] => []
  | k :: rest => if decide (k ∈ seen) then dedup rest seen else k :: dedup rest ({[k]} ∪ seen)
  end.

Definition catalog_ops (t : SchemaTx) : outcome error opkeys :=
  let c := cat t in
  s ← all_schema_ops c (map_to_list (staged c));
  Done (concat_ops
    ([s] ++ map rename_ops (map_to_list (renames c)) ++ map index_ops (map_to_list (stagedIndexes c))
     ++ [(if catalogDirty c then ([put (catalogKey db) (list_json (tx_tables c))], [catalogKey db]) else ([], []));
         (if indexListDirty c then ([put (indexListKey db) (list_json (indexList c))], [indexListKey db]) else ([], []))])).

Definition commitCatalogOps (t : SchemaTx) : outcome error (list BatchOp * list CompareCheck) :=
  ok ← catalog_ops t;
  Done (ok.1, map (fun k => check k (default 0%N (tx_reads t !! k))) (dedup ok.2 ∅)).

(** *** The writes of the rows *)

(** [ddlBatchBudget]: operations and bytes so far. *)
Definition budget : Type := N * N.

Definition batchOpBytes (op : BatchOp) : N := (12 + len (b_Key op) + len (b_Value op))%N.

Definition reserve (b : budget) (table : string) (ops bytes : N) : outcome error budget :=
  let b := ((b.1 + ops)%N, (b.2 + bytes)%N) in
  if (maxOperations <? b.1)%N || (maxTransactionSize <? b.2)%N
  then Fail_ (Errorf ("transactional DDL on " ++ table
         ++ " cannot be published atomically: the rewrite needs more than the storage batch limit ("
         ++ itoaN maxOperations ++ " operations / " ++ itoaN maxTransactionSize ++ " bytes, reached "
         ++ itoaN b.1 ++ " operations / " ++ itoaN b.2
         ++ " bytes); run the statement outside a transaction so it can page its writes, or split the migration"))
  else Done b.

(** A row is left, deleted, or replaced. *)
Inductive row_effect : Type := Leave | Remove | Replace (r : Row).

Fixpoint ddl_ops (table : string) (transform : string -> Row -> row_effect) (l : list KVEntry) (b : budget)
    : outcome error (list BatchOp * budget) :=
  match l with
  | [] => Done ([], b)
  | e :: rest =>
      r ← decode (e_Value e);
      match transform (string_of (e_Key e)) r with
      | Leave => ddl_ops table transform rest b
      | Remove =>
          let op := mkBatchOp batchDelete (e_Key e) [] in
          b ← reserve b table 1 (batchOpBytes op);
          res ← ddl_ops table transform rest b;
          Done (op :: res.1, res.2)
      | Replace r =>
          data ← encode r;
          let op := mkBatchOp batchPut (e_Key e) data in
          b ← reserve b table 1 (batchOpBytes op);
          res ← ddl_ops table transform rest b;
          Done (op :: res.1, res.2)
      end
  end.

Definition scanRowsForDDL (table : string) (b : budget) (transform : string -> Row -> row_effect)
    : M (list BatchOp * budget) :=
  l ← kv_scan (dataPrefix db table); lift (ddl_ops table transform l b).

Abbreviation entry_map := (gmap string overlayEntry).

(** The rows of a renamed table: a row that is staged under the new name only loses its old key. *)
Fixpoint move_rows (d : TxData) (c : TxCatalog) (source newName : string) (l : list KVEntry) (b : budget)
    : outcome error (list BatchOp * entry_map * budget) :=
  match l with
  | [] => Done ([], ∅, b)
  | e :: rest =>
      r ← decode (e_Value e);
      let r := (rewriteRow c newName r).1 in
      let oldKey := string_of (e_Key e) in
      let newKey := (dataPrefix db newName ++ TrimPrefix oldKey (dataPrefix db source))%string in
      let gone := mkBatchOp batchDelete (e_Key e) [] in
      if overlayHolds d (ToLower newName) newKey
      then (b ← reserve b source 1 (batchOpBytes gone);
            res ← move_rows d c source newName rest b;
            Done (gone :: res.1.1, res.1.2, res.2))
      else (data ← encode r;
            let op := put newKey data in
            b ← reserve b source 2 (batchOpBytes op + batchOpBytes gone);
            res ← move_rows d c source newName rest b;
            Done (op :: gone :: res.1.1, <[newKey := mkEntry r false]> res.1.2, res.2))
  end.

Definition renameRowOps (d : TxData) (c : TxCatalog) (source newName : string) (b : budget)
    : M (list BatchOp * entry_map * budget) :=
  l ← kv_scan (dataPrefix db source); lift (move_rows d c source newName l b).

(** The rows the rewritten operations hold. *)
Fixpoint op_entries (ops : list BatchOp) : outcome error entry_map :=
  match ops with
  | [] => Done ∅
  | op :: rest =>
      r ← decode (b_Value op); es ← op_entries rest;
      Done (<[string_of (b_Key op) := mkEntry r false]> es)
  end.

Definition add_entries (table : string) (es : entry_map) (all : gmap string entry_map) : gmap string entry_map :=
  <[table := es ∪ default ∅ (all !! table)]> all.

(** One durable table: dropped, moved, or rewritten. *)
Definition source_ops (d : TxData) (c : TxCatalog) (source : string) (acc : list BatchOp * gmap string entry_map * budget)
    : M (list BatchOp * gmap string entry_map * budget) :=
  let '(ops, entries, b) := acc in
  if decide (source ∈ drops c) then (
    r ← scanRowsForDDL source b (fun key _ => if overlayHolds d (ToLower source) key then Leave else Remove);
    mret (ops ++ r.1, entries, r.2))
  else
    let moved := match renames c !! source with
                 | Some n => if EqualFold source n then None else Some n
                 | None => None
                 end in
    match moved with
    | Some newName =>
        r ← renameRowOps d c source newName b;
        mret (ops ++ r.1.1, add_entries (ToLower newName) r.1.2 entries, r.2)
    | None =>
        match default [] (rewrites c !! source) with
        | [] => mret acc
        | _ =>
            r ← scanRowsForDDL source b (fun key r =>
                  if overlayHolds d (ToLower source) key then Leave
                  else let (r, changed) := rewriteRow c source r in if changed then Replace r else Leave);
            es ← lift (op_entries r.1);
            mret (ops ++ r.1, add_entries (ToLower source) es entries, r.2)
        end
    end.

Fixpoint all_source_ops (d : TxData) (c : TxCatalog) (sources : list string)
    (acc : list BatchOp * gmap string entry_map * budget) : M (list BatchOp * gmap string entry_map * budget) :=
  match sources with
  | [] => mret acc
  | s :: rest => acc ← source_ops d c s acc; all_source_ops d c rest acc
  end.

Definition rewritten_sources (c : TxCatalog) : gset string :=
  list_to_set (List.filter (fun s => negb (is_empty s) && negb (bool_decide (s ∈ drops c)))
    (map (fun tw => durableSource c tw.1) (map_to_list (rewrites c)))).

Definition commitDataOps (d : TxData) (c : TxCatalog) : M (list BatchOp * gmap string entry_map) :=
  let affected := drops c ∪ dom (renames c) ∪ rewritten_sources c in
  r ← all_source_ops d c (merge_sort str_le (elements affected)) ([], ∅, (0%N, 0%N));
  mret (r.1.1, r.1.2).

(** ** What a commit touches *)

Definition staged_names (c : TxCatalog) (ls : string * option Schema) : list string :=
  ls.1 :: match ls.2 with
          | None => []
          | Some s => ToLower (Name s) :: match dataSources c !! ls.1 with
                                          | Some src => if is_empty src then [] else [src]
                                          | None => []
                                          end
          end.

Definition touchedTables (c : TxCatalog) : list string :=
  merge_sort str_le (elements (
    (list_to_set (flat_map (staged_names c) (map_to_list (staged c))) : gset string)
    ∪ drops c ∪ dom (renames c)
    ∪ list_to_set (flat_map (fun tw => let src := durableSource c tw.1 in
                                       if is_empty src then [tw.1] else [tw.1; src]) (map_to_list (rewrites c))))).

Definition touchedIndexes (c : TxCatalog) : list string :=
  merge_sort str_le (elements (dom (stagedIndexes c))).

Definition hasDataEffects (c : TxCatalog) : bool :=
  negb (bool_decide (drops c = ∅)) || negb (bool_decide (renames c = ∅)) || negb (bool_decide (rewrites c = ∅)).

Definition hasDDL (c : TxCatalog) : bool :=
  negb (bool_decide (dom (staged c) = ∅)) || negb (bool_decide (dom (stagedIndexes c) = ∅))
  || catalogDirty c || indexListDirty c || hasDataEffects c.

End SchemaTx.
