(* ===== verification/Session.v ===== *)
(** * Reading and writing in a session (pkg/storage/tx.go, foreign_key_cascade.go)

    The reads of a transaction merge the staged rows into the durable ones and record what they
    depend on; its writes are staged, with the referential actions they trigger.  Outside a
    transaction an operation goes to the table manager, or runs as a transaction of its own when it
    triggers an action. *)
From Stdlib Require Import NArith ZArith Lia Ascii String.
From stdpp Require Import base option list list_numbers gmap sorting strings.
From S2P Require Import Prelude RowLock Bytes RowCodec Float Values Wire KVClient TestKV KVStore Schema UniqueCache TableCache ForeignKey Storage Table SessionState SchemaTx.

Section Session.
Context `{Json} (db : string) (ev : Evaluators).

(** ** The catalogue of the session *)

Definition in_tx : SM bool := getS (fun s => match schemaTx s with Some _ => true | None => false end).

Definition getSchemaLocked (name : string) : SM Schema :=
  b ← in_tx; if b : bool then getSchema db name else liftM (GetSchema db name).

Definition getIndexLocked (name : string) : SM Index :=
  b ← in_tx; if b : bool then getIndex db name else liftM (GetIndex db name).

Definition ListTables_s : SM (list string) :=
  b ← in_tx; if b : bool then listTables db else liftM (ListTables db).
Definition ListIndexes_s : SM (list string) :=
  b ← in_tx; if b : bool then listIndexes db else liftM (ListIndexes db).
Definition ListTableIndexes_s (table : string) : SM (list Index) :=
  b ← in_tx; if b : bool then listTableIndexes db table else liftM (ListTableIndexes db table).

Definition versionLocked : SM N :=
  b ← in_tx; if b : bool then getT (fun t => tx_version (cat t)) else liftM Version.

Definition hasUniqueIndexLocked (table : string) : SM bool :=
  l ← ListTableIndexes_s table; mret (existsb Unique l).

(** A failure to list the indexes is no index. *)
Definition uniqueIndexesLocked (table : string) : SM (list Index) :=
  r ← attemptS (ListTableIndexes_s table);
  mret (match r with inl l => List.filter Unique l | inr _ => [] end).

Definition build_catalog (v : N) : SM foreignKeyCatalog :=
  tables ← listTables db;
  schemas ← collectS getSchemaLocked tables;
  let c := buildForeignKeyCatalog v schemas in
  _ ← modS (set_fk (Some c)); mret c.

Definition foreignKeyCatalogLocked : SM foreignKeyCatalog :=
  v ← versionLocked;
  cached ← getS s_fkCatalog;
  match cached with
  | Some c => if (fkc_version c =? v)%N then mret c else build_catalog v
  | None => build_catalog v
  end.

Definition referencingForeignKeysLocked (table : string) : SM (list referencingForeignKey) :=
  b ← in_tx;
  if b : bool then (c ← foreignKeyCatalogLocked; mret (default [] (referencing c !! ToLower table)))
  else liftM (referencingForeignKeys db table).

Definition ForeignKeyParticipants_s (table : string) : SM bool :=
  b ← in_tx;
  if b : bool then (c ← foreignKeyCatalogLocked; mret (bool_decide (ToLower table ∈ participants c)))
  else liftM (ForeignKeyParticipants db table).

Definition ForeignKeyColumnDependency_s (table column : string) : SM (list string) :=
  b ← in_tx;
  if b : bool then (c ← foreignKeyCatalogLocked; s ← getSchemaLocked table; mret (column_dependency c s table column))
  else liftM (ForeignKeyColumnDependency db table column).

Definition ForeignKeyTableDependency_s (table : string) : SM (list string) :=
  b ← in_tx;
  if b : bool then (c ← foreignKeyCatalogLocked; mret (table_dependency c table))
  else liftM (ForeignKeyTableDependency db table).

Definition ForeignKeyClosure_s (tables : list string) : SM (gset string) :=
  b ← in_tx;
  if b : bool then (c ← foreignKeyCatalogLocked; mret (closure c tables)) else liftM (ForeignKeyClosure db tables).

(** ** Reading *)

(** The durable name of a table whose rename is staged. *)
Definition durable_source (s : Session) (table : string) : string :=
  match schemaTx s with
  | None => table
  | Some t => match dataSources (cat t) !! ToLower table with
              | Some src => if is_empty src then table else src
              | None => table
              end
  end.

Definition hasStagedSource (s : Session) (table : string) : bool :=
  match schemaTx s with
  | None => false
  | Some t => match dataSources (cat t) !! ToLower table with
              | Some src => negb (is_empty src) && negb (src =s ToLower table)
              | None => false
              end
  end.

Definition durableDataKeyLocked (s : Session) (table pk : string) : string := dataKey db (durable_source s table) pk.

Definition applyStagedRewrites (s : Session) (table : string) (r : Row) : Row :=
  match schemaTx s with Some t => (rewriteRow (cat t) table r).1 | None => r end.

Definition rewritten (table : string) (r : Row) : SM Row := getS (fun s => applyStagedRewrites s table r).

(** A staged row as it is, or the durable row under the pending rewrites. *)
Definition get_by_pk (table pk : string) (recordRead : bool) : SM Row :=
  e ← getD (fun d => staged_entry d (ToLower table) (dataKey db table pk));
  match e with
  | Some e => if absent e then failS (EKV ErrKeyNotFound) else mret (row e)
  | None =>
      durableKey ← getS (fun s => durableDataKeyLocked s table pk);
      r ← attemptS (liftM (getKeyWithLSN durableKey));
      match r with
      | inr (EKV ErrKeyNotFound) =>
          _ ← (if recordRead then modD (record_read durableKey 0) else mret ());
          failS (EKV ErrKeyNotFound)
      | inr e => failS e
      | inl (r, lsn) =>
          _ ← (if recordRead then modD (record_read durableKey lsn) else mret ());
          rewritten table r
      end
  end.

Definition getByPKLocked (table pk : string) : SM Row := get_by_pk table pk true.

Definition getByPK (table pk : string) (recordRead : bool) : SM Row :=
  open ← getS inTx;
  if open : bool then get_by_pk table pk recordRead else liftM (GetByPK db table pk).

Definition GetByPK_s (table pk : string) : SM Row := getByPK table pk true.
Definition GetByPKNoRead (table pk : string) : SM Row := getByPK table pk false.

(** The durable rows that are not staged, under the pending rewrites; each is recorded unless the
    scan is of a locking read. *)
Fixpoint merge_durable (table : string) (schema : Schema) (staged : gmap string overlayEntry) (track : bool)
    (filter : option (Row -> bool)) (l : list KVEntry) : SM (list Row) :=
  match l with
  | [] => mret []
  | e :: rest =>
      r ← lift_res (decode (e_Value e));
      pk ← lift_res (PrimaryKeyForRow schema r);
      match staged !! dataKey db table pk with
      | Some _ => merge_durable table schema staged track filter rest
      | None =>
          _ ← (if track then modD (record_read (string_of (e_Key e)) (e_LSN e)) else mret ());
          r ← rewritten table r;
          rs ← merge_durable table schema staged track filter rest;
          mret (if passes filter r then r :: rs else rs)
      end
  end.

(** The staged rows, under the pending rewrites. *)
Definition staged_images (s : Session) (table : string) (staged : gmap string overlayEntry) : list Row :=
  map (fun ke => applyStagedRewrites s table (row ke.2))
    (List.filter (fun ke => negb (absent ke.2)) (map_to_list staged)).

Definition selectLocked (table : string) (filter : option (Row -> bool)) : SM (list Row) :=
  schema ← getSchemaLocked table;
  let tl := ToLower table in
  track ← getS (fun s => negb (lockingTableIs s table));
  _ ← (if track : bool then markTableScanned tl else mret ());
  staged ← getD (fun d => staged_rows d tl);
  source ← getS (fun s => durable_source s table);
  _ ← (if negb (ToLower source =s tl) && track then markTableScanned (ToLower source) else mret ());
  l ← liftM (kv_scan (dataPrefix db source));
  durable ← merge_durable table schema staged track filter l;
  images ← getS (fun s => staged_images s table staged);
  mret (durable ++ List.filter (passes filter) images).

Definition Select_s (table : string) (filter : option (Row -> bool)) : SM (list Row) :=
  open ← getS inTx;
  if open : bool then selectLocked table filter else liftM (Select db table filter).

Definition SelectLimited (table : string) (filter : option (Row -> bool)) (maxRows : Z) : SM (list Row) :=
  open ← getS inTx;
  if open : bool then selectLocked table filter
  else if (maxRows =? 0)%Z then mret []
  else liftM (SelectWithLimit db table filter maxRows 0).

Definition CountFast_s (table : string) : SM Z :=
  open ← getS inTx;
  if open : bool then (rs ← selectLocked table None; mret (Z.of_nat (length rs))) else liftM (CountFast db table).

(** *** By an index *)

(** The rows whose test holds, up to the first error. *)
Fixpoint filter_res (p : Row -> outcome error bool) (l : list Row) : outcome error (list Row) :=
  match l with
  | [] => Done []
  | r :: rest => b ← p r; rs ← filter_res p rest; Done (if b : bool then r :: rs else rs)
  end.

Definition has_key (idx : Index) (valueKey : string) (r : Row) : outcome error bool :=
  k ← IndexRowKey ev idx r; Done (k =s valueKey).

Definition filterByIndexLocked (table : string) (idx : Index) (valueKey : string) : SM (list Row) :=
  rows ← selectLocked table None; lift_res (filter_res (has_key idx valueKey) rows).

Definition indexIsCommittedLocked (name : string) : SM bool :=
  r ← attemptS (liftM (GetIndex db name)); mret (match r with inl _ => true | inr _ => false end).

Fixpoint merge_versions (table : string) (staged : gmap string overlayEntry) (track : bool)
    (l : list indexedRowVersion) : SM (list Row) :=
  match l with
  | [] => mret []
  | v :: rest =>
      match staged !! v_key v with
      | Some _ => merge_versions table staged track rest
      | None =>
          _ ← (if track then modD (record_read (v_key v) (v_lsn v)) else mret ());
          r ← rewritten table (v_row v);
          rs ← merge_versions table staged track rest;
          mret (r :: rs)
      end
  end.

Definition record_predicates (tableKey : string) (p : indexPredicateSnapshot) (d : TxData) : TxData :=
  record_predicate (wildcardKey p) (mkPred tableKey (wildcardGen p))
    (record_predicate (valueKey p) (mkPred tableKey (valueGen p)) d).

(** The versions an index lists, with the staged rows that pass the test. *)
Definition select_indexed (table indexName : string) (idx : Index) (key : string) (matches : Row -> outcome error bool)
    : SM (list Row) :=
  let tl := ToLower table in
  moved ← getS (fun s => hasStagedSource s table);
  committed ← (if moved : bool then mret false else indexIsCommittedLocked (idx_Name idx));
  if negb committed then filterByIndexLocked table idx key
  else (
    r ← liftM (selectByIndexKeyWithLSN db ev table indexName key);
    track ← getS (fun s => negb (lockingTableIs s table));
    _ ← (if track : bool then modD (record_predicates tl r.2) else mret ());
    staged ← getD (fun d => staged_rows d tl);
    durable ← merge_versions table staged track r.1;
    own ← lift_res (filter_res matches
            (map (fun ke => row ke.2) (List.filter (fun ke => negb (absent ke.2)) (map_to_list staged))));
    mret (durable ++ own)).

(** The first column of the index is compared as the row holds it. *)
Definition SelectByIndex_s (table indexName : string) (colValue : val) : SM (list Row) :=
  open ← getS inTx;
  if negb open then liftM (SelectByIndex db ev table indexName colValue)
  else (
    idx ← getIndexLocked indexName;
    match idx_Columns idx with
    | [] => lift_res Panic
    | c :: _ =>
        let want := formatIndexValue colValue in
        select_indexed table indexName idx want (fun r => Done (formatIndexValue (get r (ic_Name c)) =s want))
    end).

Definition SelectByIndexKey (table : string) (idx : Index) (valueKey : string) : SM (list Row) :=
  open ← getS inTx;
  if negb open
  then (r ← liftM (selectByIndexKeyWithLSN db ev table (idx_Name idx) valueKey); mret (map v_row r.1))
  else select_indexed table (idx_Name idx) idx valueKey (has_key idx valueKey).

(** ** Inserting *)

Definition insertLocked (table : string) (r : Row) : SM Z :=
  schema ← getSchemaLocked table;
  nk ← liftM (prepareInsertWithSchema db ev table schema r);
  let (nr, key) := nk : Row * string in
  let pk := TrimPrefix key (dataPrefix db table) in
  e ← getD (fun d => staged_entry d (ToLower table) key);
  _ ← (match e with
       | Some e => if absent e then mret () else failS (newPrimaryKeyViolation table schema nr)
       | None =>
           durableKey ← getS (fun s => durableDataKeyLocked s table pk);
           r ← attemptS (liftM (getKeyWithLSN durableKey));
           match r with
           | inl (_, lsn) =>
               _ ← modD (record_read durableKey lsn); failS (newPrimaryKeyViolation table schema nr)
           | inr (EKV ErrKeyNotFound) => modD (record_read durableKey 0)
           | inr e => failS e
           end
       end);
  _ ← modD (stagePut table key nr);
  mret (default 0%Z (rowIDFromRow nr)).

Definition InsertWithRowID_s (table : string) (r : Row) : SM Z :=
  open ← getS inTx;
  if open : bool then insertLocked table r else liftM (InsertWithRowID db ev table r).

(** The rows staged before the first failure stay staged. *)
Fixpoint insert_all (table : string) (rows : list Row) (count : nat) (lastRowID : Z) : SM (nat * Z * option error) :=
  match rows with
  | [] => mret (count, lastRowID, None)
  | r :: rest =>
      res ← attemptS (insertLocked table r);
      match res with
      | inl id => insert_all table rest (S count) id
      | inr e => mret (count, lastRowID, Some e)
      end
  end.

Definition InsertBulkWithLastRowID_s (table : string) (rows : list Row) : SM (nat * Z * option error) :=
  open ← getS inTx;
  if open : bool then insert_all table rows 0 0 else liftM (InsertBulkWithLastRowID db ev table rows).

(** ** Referential actions *)

Definition delete_id (table key : string) : string := ("D" ++ String NUL (ToLower table ++ String NUL key))%string.

Definition update_id (table key : string) (fk : ForeignKeyConstraint) (oldKey newKey : list string) : string :=
  ("U" ++ String NUL (ToLower table ++ String NUL (key ++ String NUL (ToLower (RefTable fk)
   ++ String NUL (joinForeignKeyValues (fk_Columns fk) ++ String NUL (joinForeignKeyValues oldKey
   ++ String NUL (joinForeignKeyValues newKey)))))))%string.

Definition referencingRows (ref : referencingForeignKey) (key : list string) : SM (list Row) :=
  selectLocked (ref_Table ref) (Some (fun r => foreignKeyMatches r (fk_Columns (ref_FK ref)) key)).

(** The child row with its columns set to NULL, or to their defaults. *)
Fixpoint set_columns (s : Schema) (fk : ForeignKeyConstraint) (action : ReferentialAction) (t : Z)
    (cols : list string) (r : Row) : outcome error Row :=
  match cols with
  | [] => Done r
  | name :: rest =>
      match action with
      | ReferentialActionSetNull => set_columns s fk action t rest (<[name := VNil]> r)
      | _ =>
          match GetColumn s name with
          | None => Fail_ (Errorf ("foreign key " ++ fk_Label fk ++ ": column " ++ name
                                   ++ " is missing from table " ++ Name s))
          | Some c => d ← columnDefaultValue ev c t; set_columns s fk action t rest (<[name := default VNil d]> r)
          end
      end
  end.

Definition applySetAction (s : Schema) (fk : ForeignKeyConstraint) (child : Row) (action : ReferentialAction) (t : Z)
    : outcome error Row := set_columns s fk action t (fk_Columns fk) child.

(** The child row with the new key of its parent. *)
Definition cascaded (fk : ForeignKeyConstraint) (values : list val) (child : Row) : Row :=
  fold_left (fun r cv => <[cv.1 := cv.2]> r) (zip (fk_Columns fk) values) child.

(** One row to delete, or to write with the row it replaces. *)
Inductive job : Type := JDelete (table key : string) (r : Row) | JUpdate (table : string) (oldRow newRow : Row).

(** The actions that were applied in a statement are remembered, and its time is fixed. *)
Definition applied : Type := gset string.

Fixpoint foldS {A B} (f : A -> B -> SM B) (l : list A) (acc : B) : SM B :=
  match l with [] => mret acc | x :: r => acc ← f x acc; foldS f r acc end.

Section Cascade.
Context (t : Z) (run : job -> applied -> SM applied).

(** [applyDeleteAction] *)
Definition apply_delete_action (ref : referencingForeignKey) (action : ReferentialAction) (child : Row) (exp : applied)
    : SM applied :=
  schema ← getSchemaLocked (ref_Table ref);
  pk ← lift_res (PrimaryKeyForRow schema child);
  match action with
  | ReferentialActionCascade => run (JDelete (ref_Table ref) (dataKey db (ref_Table ref) pk) child) exp
  | _ =>
      updated ← lift_res (applySetAction schema (ref_FK ref) child action t);
      run (JUpdate (ref_Table ref) child updated) exp
  end.

Definition delete_ref (r : Row) (ref : referencingForeignKey) (exp : applied) : SM applied :=
  let action := DeleteAction (ref_FK ref) in
  if negb (rewritesReferencingRows action) then mret exp
  else match foreignKeyValues r (RefColumns (ref_FK ref)) with
       | None => mret exp
       | Some key =>
           children ← referencingRows ref key;
           foldS (apply_delete_action ref action) children exp
       end.

Definition cascadeAfterDelete (table : string) (r : Row) (exp : applied) : SM applied :=
  refs ← referencingForeignKeysLocked table; foldS (delete_ref r) refs exp.

Definition update_child (ref : referencingForeignKey) (childSchema : Schema) (action : ReferentialAction)
    (oldKey newKey : list string) (parentValues : list val) (child : Row) (exp : applied) : SM applied :=
  pk ← lift_res (PrimaryKeyForRow childSchema child);
  let id := update_id (ref_Table ref) (dataKey db (ref_Table ref) pk) (ref_FK ref) oldKey newKey in
  if decide (id ∈ exp) then mret exp
  else (
    updated ← lift_res (match action with
                        | ReferentialActionCascade => Done (cascaded (ref_FK ref) parentValues child)
                        | _ => applySetAction childSchema (ref_FK ref) child action t
                        end);
    run (JUpdate (ref_Table ref) child updated) ({[id]} ∪ exp)).

Definition update_ref (oldRow newRow : Row) (ref : referencingForeignKey) (exp : applied) : SM applied :=
  let fk := ref_FK ref in
  let action := UpdateAction fk in
  if negb (rewritesReferencingRows action) then mret exp
  else match foreignKeyValues oldRow (RefColumns fk), foreignKeyActionKey newRow (RefColumns fk),
             foreignKeyRawValues newRow (RefColumns fk) with
       | Some oldKey, Some newKey, Some parentValues =>
           if foreignKeyValuesEqual oldKey newKey then mret exp
           else (
             children ← referencingRows ref oldKey;
             childSchema ← getSchemaLocked (ref_Table ref);
             foldS (update_child ref childSchema action oldKey newKey parentValues) children exp)
       | _, _, _ => mret exp
       end.

Definition cascadeAfterUpdate (table : string) (oldRow newRow : Row) (exp : applied) : SM applied :=
  refs ← referencingForeignKeysLocked table; foldS (update_ref oldRow newRow) refs exp.

(** [stageCascadeDelete] *)
Definition stage_delete (table key : string) (r : Row) (exp : applied) : SM applied :=
  if decide (delete_id table key ∈ exp) then mret exp
  else (
    let exp := {[delete_id table key]} ∪ exp in
    gone ← getD (fun d => match staged_entry d (ToLower table) key with Some e => absent e | None => false end);
    if gone : bool then mret exp
    else (_ ← modD (stageDelete table key r); cascadeAfterDelete table r exp)).

(** [stageCascadeUpdate] *)
Definition stage_update (table : string) (oldRow newRow : Row) (exp : applied) : SM applied :=
  schema ← getSchemaLocked table;
  _ ← lift_res (validateRowConstraints ev schema newRow);
  oldPK ← lift_res (PrimaryKeyForRow schema oldRow);
  newPK ← lift_res (PrimaryKeyForRow schema newRow);
  let oldKey := dataKey db table oldPK in
  let newKey := dataKey db table newPK in
  _ ← (if oldKey =s newKey then mret ()
       else (
         r ← attemptS (getByPKLocked table newPK);
         match r with
         | inl _ => failS (newPrimaryKeyViolation table schema newRow)
         | inr (EKV ErrKeyNotFound) => modD (stageDelete table oldKey oldRow)
         | inr e => failS e
         end));
  _ ← modD (stagePut table newKey newRow);
  cascadeAfterUpdate table oldRow newRow exp.
End Cascade.

(** The fuel is the depth of the actions; when it is used up the operation does not end. *)
Fixpoint cascade (fuel : nat) (t : Z) (j : job) (exp : applied) : SM applied :=
  match fuel with
  | O => lift_res Panic
  | S k =>
      match j with
      | JDelete table key r => stage_delete t (cascade k t) table key r exp
      | JUpdate table oldRow newRow => stage_update t (cascade k t) table oldRow newRow exp
      end
  end.

(** ** Updating and deleting *)

Context (fuel : nat).

(** A statement that fails gives back the rows it staged. *)
Definition undoing {A} (pos : nat) (m : SM A) : SM A :=
  r ← attemptS m;
  match r with inl a => mret a | inr e => _ ← modD (rollbackToLocked pos); failS e end.

Definition not_found {A} (m : SM A) : SM (option A) :=
  r ← attemptS m;
  match r with
  | inl a => mret (Some a)
  | inr (EKV ErrKeyNotFound) => mret None
  | inr e => failS e
  end.

Definition updateByPKLocked (table pk : string) (updateFn : Row -> SM Row) : SM (option Row) :=
  schema ← getSchemaLocked table;
  r ← not_found (getByPKLocked table pk);
  match r with
  | None => mret None
  | Some oldRow =>
      updates ← updateFn oldRow;
      let newRow := assign_all (Columns schema) updates oldRow in
      _ ← lift_res (validateRowConstraints ev schema newRow);
      pos ← Snapshot;
      t ← liftM (gets now);
      _ ← undoing pos (cascade fuel t (JUpdate table oldRow newRow) ∅);
      mret (Some oldRow)
  end.

Definition deleteByPKLocked (table pk : string) : SM (option Row) :=
  r ← not_found (getByPKLocked table pk);
  match r with
  | None => mret None
  | Some r =>
      pos ← Snapshot;
      t ← liftM (gets now);
      _ ← undoing pos (cascade fuel t (JDelete table (dataKey db table pk) r) ∅);
      mret (Some r)
  end.

Definition update_one (table : string) (schema : Schema) (updateFn : Row -> SM Row) (t : Z) (oldRow : Row)
    (exp : applied) : SM applied :=
  updates ← updateFn oldRow;
  let newRow := assign_all (Columns schema) updates oldRow in
  _ ← lift_res (validateRowConstraints ev schema newRow);
  cascade fuel t (JUpdate table oldRow newRow) exp.

Definition update_func (table : string) (updateFn : Row -> SM Row) (filter : option (Row -> bool)) : SM nat :=
  schema ← getSchemaLocked table;
  rows ← selectLocked table filter;
  t ← liftM (gets now);
  pos ← Snapshot;
  _ ← undoing pos (foldS (update_one table schema updateFn t) rows ∅);
  mret (length rows).

Definition delete_one (table : string) (schema : Schema) (t : Z) (r : Row) (exp : applied) : SM applied :=
  pk ← lift_res (PrimaryKeyForRow schema r);
  cascade fuel t (JDelete table (dataKey db table pk) r) exp.

Definition delete_func (table : string) (filter : option (Row -> bool)) : SM nat :=
  schema ← getSchemaLocked table;
  rows ← selectLocked table filter;
  t ← liftM (gets now);
  pos ← Snapshot;
  _ ← undoing pos (foldS (delete_one table schema t) rows ∅);
  mret (length rows).

End Session.
