(* ===== verification/AlterTable.v ===== *)
(** * ALTER TABLE outside a transaction (pkg/storage/schema.go)

    The rows are rewritten in bounded batches before the definition is published, so a statement
    that is cut short can be run again: the rewrites are idempotent. *)
From Stdlib Require Import NArith ZArith Lia Ascii String.
From stdpp Require Import base option list list_numbers gmap sorting strings.
From S2P Require Import Prelude RowLock Bytes RowCodec Float Values Wire KVClient TestKV KVStore Schema UniqueCache TableCache ForeignKey Storage Table SessionState SchemaTx.

Section AlterTable.
Context `{Json} (db : string) (ev : Evaluators).

(** ** Rewriting the rows *)

(** A pass over the rows of a table with a state of its own: a row is left or replaced. *)
Section Pass.
Context {St : Type} (transform : St -> Row -> outcome error (St * option Row)).

Fixpoint apply_entries (l : list KVEntry) (st : St) (ops : list BatchOp) (size : N) : M () :=
  match l with
  | [] => flush ops
  | e :: rest =>
      r ← lift (decode (e_Value e));
      sr ← lift (transform st r);
      match sr.2 with
      | None => apply_entries rest sr.1 ops size
      | Some r =>
          data ← lift (encode r);
          let n := (12 + len (e_Key e) + len data)%N in
          let op := mkBatchOp batchPut (e_Key e) data in
          if (N.of_nat (length ops) =? maxOperations)%N || (bulkBatchByteBudget <? size + n)%N
          then (_ ← flush ops; apply_entries rest sr.1 [op] (8 + n))
          else apply_entries rest sr.1 (ops ++ [op]) (size + n)
      end
  end.

Definition applyRows (table : string) (st : St) : M () :=
  l ← kv_scan (dataPrefix db table); apply_entries l st [] 8.
End Pass.

(** A pass that only validates. *)
Definition dry {St} (transform : St -> Row -> outcome error (St * option Row)) (st : St) (r : Row)
    : outcome error (St * option Row) := sr ← transform st r; Done (sr.1, None).

Definition dryRunRows {St} (transform : St -> Row -> outcome error (St * option Row)) (table : string) (st : St) : M () :=
  applyRows (dry transform) table st.

Definition by_rewrite (w : rowRewrite) (st : ()) (r : Row) : outcome error (() * option Row) :=
  let (r, changed) := run_rewrite w r in Done (st, if changed : bool then Some r else None).

Definition rewriteRows (table : string) (w : rowRewrite) : M () := applyRows (by_rewrite w) table tt.

(** ** Publishing a definition *)

Definition updateSchemaUnsafe (s : Schema) : M () :=
  _ ← kv_write (schemaKey db (Name s)) (match schema_json s with inl d => d | inr _ => [] end);
  _ ← modify_sm (with_schema (Name s) s);
  modify_sm bumpVersionLocked.

Definition cached_index_list : M (list string) := ListIndexes db.

Definition publishAddedColumn (s : Schema) (c : Column) (checks : list CheckConstraint) (unique : option Index) : M () :=
  let s := with_checks (Checks s ++ checks) (with_columns (Columns s ++ [c]) s) in
  data ← lift (marshal_schema s);
  let op := put (schemaKey db (Name s)) data in
  match unique with
  | None =>
      _ ← wrapping ("failed to publish column " ++ col_Name c) (kv_batch [op]);
      _ ← modify_sm (with_schema (Name s) s);
      modify_sm bumpVersionLocked
  | Some u =>
      t ← gets now;
      let u := with_idx_created t u in
      l ← cached_index_list;
      let l := l ++ [idx_Name u] in
      _ ← wrapping ("failed to publish column " ++ col_Name c)
            (kv_batch [op; put (indexKey db (idx_Name u)) (index_json u); put (indexListKey db) (names_json l)]);
      _ ← modify_sm (fun m => with_index_list (copy_list (Some l)) (with_index (idx_Name u) u (with_schema (Name s) s m)));
      modify_sm bumpVersionLocked
  end.

(** ** Adding a column *)

(** The value of the new column in a row: what the row holds, or the default. *)
Definition new_value (c : Column) (t : Z) (r : Row) : outcome error (val * bool) :=
  match rowColumnValue r (col_Name c) with
  | Some v => Done (v, true)
  | None => d ← columnDefaultValue ev c t; Done (default VNil d, false)
  end.

Definition see_unique (idx : Index) (v : val) (seen : gset string) : outcome error (gset string) :=
  if is_nil v then Done seen
  else
    let e := encodeUniqueScalar v in
    if decide (e ∈ seen) then Fail_ (UniqueViolation (idx_Name idx)) else Done ({[e]} ∪ seen).

Definition unique_probe (c : Column) (idx : Index) (t : Z) (seen : gset string) (r : Row)
    : outcome error (gset string * option Row) :=
  vp ← new_value c t r; seen ← see_unique idx vp.1 seen; Done (seen, None).

Definition validateAddColumnUnique (table : string) (c : Column) (idx : Index) (t : Z) : M () :=
  applyRows (unique_probe c idx t) table ∅.

Definition check_probe (table : string) (c : Column) (eval : string -> Row -> bool + string)
    (checks : list CheckConstraint) (t : Z) (st : ()) (r : Row) : outcome error (() * option Row) :=
  r ← (match rowColumnValue r (col_Name c) with
       | Some _ => Done r
       | None => d ← columnDefaultValue ev c t; Done (match d with Some v => <[col_Name c := v]> r | None => r end)
       end);
  _ ← run_checks eval table checks r;
  Done (st, None).

Definition validateAddColumnChecks (table : string) (c : Column) (checks : list CheckConstraint) (t : Z) : M () :=
  match checks, checkEval ev with
  | [], _ => mret ()
  | _, None => fail (Errorf ("cannot validate CHECK constraints on " ++ table ++ ": no CHECK evaluator installed"))
  | _, Some eval => applyRows (check_probe table c eval checks t) table tt
  end.

Definition tableHasRows (table : string) : M bool :=
  l ← kv_scan (dataPrefix db table); mret (0 <? length l)%nat.

(** The rewrite of a row; [seen] is there when the values written have to differ. *)
Definition fill_row (c : Column) (unique : option Index) (t : Z) (seen : gset string) (r : Row)
    : outcome error (gset string * option Row) :=
  vp ← new_value c t r;
  let out := if vp.2 : bool then None else Some (<[col_Name c := vp.1]> r) in
  match unique with
  | None => Done (seen, out)
  | Some idx => seen ← see_unique idx vp.1 seen; Done (seen, out)
  end.

Definition check_new_index_m (s : Schema) (table : string) (c : Column) (t : Z) (u : Index) : M () :=
  if negb (EqualFold (idx_Table u) (Name s))
  then fail (Errorf ("index " ++ idx_Name u ++ " belongs to table " ++ idx_Table u ++ ", not " ++ Name s))
  else (b ← indexExistsUnsafe db (idx_Name u);
        if b : bool then fail (Errorf ("index already exists: " ++ idx_Name u))
        else if is_empty (DefaultExpr c) then validateAddColumnUnique table c u t else mret ()).

Definition AddColumn (table : string) (c : Column) (checks : list CheckConstraint) (unique : option Index) : M () :=
  t ← gets now;
  s ← getSchemaUnsafe db table;
  _ ← lift (checkColumnAbsent s (col_Name c));
  _ ← (match unique with Some u => check_new_index_m s table c t u | None => mret () end);
  _ ← validateAddColumnChecks table c checks t;
  _ ← (if negb (Nullable c) && negb (columnHasDefault c)
       then (b ← tableHasRows table; if b : bool then fail (NotNullViolation (Name s) (col_Name c)) else mret ())
       else mret ());
  _ ← (if columnHasDefault c
       then
         let computed := negb (is_empty (DefaultExpr c)) in
         let watched := if computed then unique else None in
         _ ← (if computed then dryRunRows (fill_row c watched t) table ∅ else mret ());
         applyRows (fill_row c watched t) table ∅
       else mret ());
  publishAddedColumn s c checks unique.

(** ** Dropping and renaming *)

Definition DropColumn (table column : string) : M () :=
  s ← getSchemaUnsafe db table;
  if IsPrimaryKeyColumn s column then fail (Errorf ("cannot drop primary key column: " ++ column))
  else if negb (existsb (fun c => EqualFold (col_Name c) column) (Columns s))
  then fail (Errorf ("column not found: " ++ column))
  else (
    _ ← rewriteRows table (RwDrop column);
    updateSchemaUnsafe (with_columns (List.filter (fun c => negb (EqualFold (col_Name c) column)) (Columns s)) s)).

(** The definitions of the indexes of a table that change, in one batch. *)
Definition stored_index_list : M (list string) :=
  cached ← gets (fun w => sm_indexList (sm w));
  match cached with
  | Some l => mret l
  | None =>
      r ← attempt (kv_read (indexListKey db));
      match r with
      | inr (EKV ErrKeyNotFound) => mret []
      | inr e => fail e
      | inl data => match names_parse data with inl l => mret l | inr e => fail (Errorf e) end
      end
  end.

Fixpoint changed_indexes (table : string) (mutate : Index -> option Index) (names : list string)
    : M (list (string * Index)) :=
  match names with
  | [] => mret []
  | name :: rest =>
      let key := indexKey db name in
      r ← attempt (kv_read key);
      match r with
      | inr (EKV ErrKeyNotFound) => changed_indexes table mutate rest
      | inr e => fail e
      | inl data =>
          i ← lift (match index_parse data with inl i => Done i | inr e => Fail_ (Errorf e) end);
          others ← changed_indexes table mutate rest;
          mret (if EqualFold (idx_Table i) table
                then match mutate i with Some i => (key, i) :: others | None => others end
                else others)
      end
  end.

(** An index that is cached is replaced in the cache. *)
Definition recache_index (m : SchemaManager) (ki : string * Index) : SchemaManager :=
  match sm_indexCache m !! ToLower (idx_Name ki.2) with
  | Some _ => with_index (idx_Name ki.2) ki.2 m
  | None => m
  end.

Definition updateIndexesOfTableLocked (table : string) (mutate : Index -> option Index) : M () :=
  names ← stored_index_list;
  updates ← changed_indexes table mutate names;
  match updates with
  | [] => mret ()
  | _ =>
      _ ← wrapping ("update index definitions for table " ++ table)
            (kv_batch (map (fun ki => put ki.1 (index_json ki.2)) updates));
      modify_sm (fun m => fold_left recache_index updates m)
  end.

Definition repointIndexesLocked (oldName newName : string) : M () :=
  updateIndexesOfTableLocked oldName (fun i => Some (with_idx_table newName i)).

Definition renameIndexColumnsLocked (table oldName newName : string) : M () :=
  updateIndexesOfTableLocked table
    (fun i => if names_column oldName i then Some (renamed_index oldName newName i) else None).

(** The values are moved as they are. *)
Fixpoint move_entries (oldPrefix newPrefix : string) (l : list KVEntry) (ops : list BatchOp) (size : N) : M () :=
  match l with
  | [] => flush ops
  | e :: rest =>
      let newKey := (newPrefix ++ TrimPrefix (string_of (e_Key e)) oldPrefix)%string in
      let n := (24 + len (bytes newKey) + len (e_Value e) + len (e_Key e))%N in
      let moved := [put newKey (e_Value e); mkBatchOp batchDelete (e_Key e) []] in
      if (maxOperations <? N.of_nat (length ops) + 2)%N || (bulkBatchByteBudget <? size + n)%N
      then (_ ← flush ops; move_entries oldPrefix newPrefix rest moved (8 + n))
      else move_entries oldPrefix newPrefix rest (ops ++ moved) (size + n)
  end.

Definition renameDataKeys (oldName newName : string) : M () :=
  l ← kv_scan (dataPrefix db oldName); move_entries (dataPrefix db oldName) (dataPrefix db newName) l [] 8.

Definition forget_table (oldName : string) (s : Schema) (m : SchemaManager) : SchemaManager :=
  bumpVersionLocked (with_schema (Name s) s (invalidate_schema oldName m)).

Definition RenameTable (oldName newName : string) : M () :=
  s ← getSchemaUnsafe db oldName;
  r ← attempt (getSchemaUnsafe db newName);
  match r with
  | inl _ => fail (Errorf ("table already exists: " ++ newName))
  | inr _ =>
      let s := with_name newName s in
      _ ← renameDataKeys oldName newName;
      _ ← repointIndexesLocked oldName newName;
      tables ← ListTables db;
      match replace_first oldName newName tables with
      | None => fail (Errorf ("table not found in catalog: " ++ oldName))
      | Some tables =>
          data ← lift (match schema_json s with inl d => Done d | inr e => Fail_ (Errorf e) end);
          _ ← kv_batch [put (schemaKey db newName) data; del (schemaKey db oldName); del (rowIDKey db oldName);
                        put (catalogKey db) (names_json tables)];
          modify_sm (forget_table oldName s)
      end
  end.

Definition RenameColumn (table oldName newName : string) : M () :=
  s ← getSchemaUnsafe db table;
  if existsb (fun c => EqualFold (col_Name c) newName) (Columns s)
  then fail (Errorf ("column already exists: " ++ newName))
  else if negb (existsb (fun c => EqualFold (col_Name c) oldName) (Columns s))
  then fail (Errorf ("column not found: " ++ oldName))
  else (
    _ ← rewriteRows table (RwRename oldName newName);
    _ ← updateSchemaUnsafe (renamed_schema oldName newName s);
    renameIndexColumnsLocked table oldName newName).

End AlterTable.
