(* ===== verification/Commit.v ===== *)
(** * Committing a transaction (pkg/storage/tx.go, foreign_key.go, schema_tx.go)

    A commit validates what the transaction read and the state it leaves, and publishes the staged
    rows and the staged catalogue as one batch that the store accepts or refuses as a whole.  The
    gates a commit holds while it does so are why it is one step. *)
From Stdlib Require Import NArith ZArith Lia Ascii String.
From stdpp Require Import base option list list_numbers gmap sorting strings.
From S2P Require Import Prelude RowLock Bytes RowCodec Float Values Wire KVClient TestKV KVStore Schema UniqueCache TableCache ForeignKey Storage Table SessionState SchemaTx Session AlterTable.

Section Commit.
Context `{Json} (db : string) (ev : Evaluators).

(** ** The tables of a commit *)

Definition written_tables (d : TxData) : list string := map fst (map_to_list (overlay d)).
Definition write_keys (d : TxData) : list string :=
  flat_map (fun te => map fst (map_to_list te.2)) (map_to_list (overlay d)).

Definition predicate_tables (d : TxData) : list string := map (fun kp => pr_table kp.2) (map_to_list (predicateGens d)).

(** The tables whose rows, or whose definition, the transaction changes. *)
Definition foreignKeyClosure : SM (gset string) :=
  d ← getS txdata;
  created ← getS (fun s => match schemaTx s with
                           | Some t => map fst (List.filter (fun ls => match ls.2 with Some _ => true | None => false end)
                                                  (map_to_list (staged (cat t))))
                           | None => []
                           end);
  match written_tables d ++ created with
  | [] => mret ∅
  | tables => ForeignKeyClosure_s db tables
  end.

(** The first probe for unique indexes, of every written table. *)
Fixpoint unique_tables (tables : list string) : SM (gset string) :=
  match tables with
  | [] => mret ∅
  | t :: rest =>
      b ← hasUniqueIndexLocked db t;
      others ← unique_tables rest;
      mret (if b : bool then {[t]} ∪ others else others)
  end.

(** The gates of a commit.  Under them the tables whose gate is shared are probed again; nothing
    runs in between, so the answers are those of the first probe and no gate is taken twice. *)
Definition acquireCommitLocks : SM (gset string) :=
  d ← getS txdata;
  unique ← unique_tables (written_tables d);
  touched ← getT (fun t => if hasDDL (cat t) then touchedTables (cat t) else []);
  let exclusive : gset string := dom (scanGens d) ∪ list_to_set (predicate_tables d) ∪ list_to_set touched ∪ unique in
  _ ← unique_tables (List.filter (fun t => negb (bool_decide (t ∈ exclusive))) (written_tables d));
  mret unique.

(** ** The final rows *)

(** The rows of the store that are not staged, and the staged ones. *)
Fixpoint final_durable (s : Session) (table : string) (schema : Schema) (staged : gmap string overlayEntry)
    (l : list KVEntry) : outcome error (list Row) :=
  match l with
  | [] => Done []
  | e :: rest =>
      r ← decode (e_Value e);
      pk ← PrimaryKeyForRow schema r;
      rs ← final_durable s table schema staged rest;
      Done (match staged !! dataKey db table pk with
            | Some _ => rs
            | None => applyStagedRewrites s table r :: rs
            end)
  end.

Definition finalRows (table : string) (schema : Schema) : SM (list Row) :=
  staged ← getD (fun d => staged_rows d (ToLower table));
  source ← getS (fun s => durable_source s table);
  l ← liftM (kv_scan (dataPrefix db source));
  s ← getS id;
  rs ← lift_res (final_durable s table schema staged l);
  mret (rs ++ staged_images s table staged).

Fixpoint final_tables (tables : list string) : SM (gmap string (list Row) * gmap string Schema) :=
  match tables with
  | [] => mret (∅, ∅)
  | t :: rest =>
      schema ← getSchemaLocked db t;
      rs ← finalRows t schema;
      others ← final_tables rest;
      mret (<[t := rs]> others.1, <[t := schema]> others.2)
  end.

Definition validateForeignKeyFinalState (closure : gset string) : SM () :=
  ts ← final_tables (elements closure); lift_res (validateForeignKeyState ts.1 ts.2).

(** A staged row under the definition that is in effect. *)
Definition complete_entry (s : Session) (table : string) (schema : Schema) (t : Z) (e : overlayEntry)
    : outcome error overlayEntry :=
  if absent e then Done e
  else (r ← applySchemaDefaults ev schema t (applyStagedRewrites s table (row e));
        _ ← validateChecks ev schema r;
        Done (mkEntry r false)).

Fixpoint complete_entries (s : Session) (table : string) (schema : Schema) (t : Z) (l : list (string * overlayEntry))
    : outcome error (gmap string overlayEntry) :=
  match l with
  | [] => Done ∅
  | (key, e) :: rest =>
      e ← complete_entry s table schema t e;
      es ← complete_entries s table schema t rest;
      Done (<[key := e]> es)
  end.

Definition completed (table : string) (entries : gmap string overlayEntry) : SM (gmap string overlayEntry) :=
  schema ← getSchemaLocked db table;
  t ← liftM (gets now);
  s ← getS id;
  lift_res (complete_entries s table schema t (map_to_list entries)).

Fixpoint complete_tables (l : list (string * gmap string overlayEntry)) : SM () :=
  match l with
  | [] => mret ()
  | (table, entries) :: rest =>
      es ← completed table entries;
      _ ← modD (fun d => with_overlay (<[table := es]> (overlay d)) d);
      complete_tables rest
  end.

Definition applyOverlaySchemaDefaults : SM () :=
  d ← getS txdata; complete_tables (map_to_list (overlay d)).

(** ** Validation *)

(** No table, and no value of an index, that was scanned has changed since. *)
Definition gens_current (d : TxData) (m : TableManager) : bool :=
  forallb (fun tg => (generation m tg.1 =? tg.2)%N) (map_to_list (scanGens d))
  && forallb (fun kp => (predicateGeneration m kp.1 =? pr_gen kp.2)%N) (map_to_list (predicateGens d)).

Definition validate_gens : SM () :=
  d ← getS txdata;
  m ← liftM (gets tm);
  if gens_current d m then mret () else failS (ErrSerialization EmptyString).

Record ddl_effects : Type := mkDDL {
  ddl_ops : list BatchOp; ddl_checks : list CompareCheck; ddl_entries : gmap string (gmap string overlayEntry);
  ddl_tables : list string; ddl_indexes : list string }.

Definition no_ddl : ddl_effects := mkDDL [] [] ∅ [] [].

Definition ddl_writes : SM ddl_effects :=
  t ← getT id;
  d ← getS txdata;
  oc ← lift_res (commitCatalogOps db t);
  oe ← liftM (commitDataOps db d (cat t));
  mret (mkDDL (oc.1 ++ oe.1) oc.2 oe.2 (touchedTables (cat t)) (touchedIndexes (cat t))).

(** A row the rewrite produces stands before a staged one. *)
Definition finalRowEntries (d : TxData) (ddl : ddl_effects) (table : string) : gmap string overlayEntry :=
  default ∅ (ddl_entries ddl !! table) ∪ staged_rows d table.

Abbreviation unique_plans := (gmap string (list uniqueCacheChange)).
Abbreviation cache_plans := (gmap string tableCachePlan).

Fixpoint plan_unique (ddl : ddl_effects) (tables : list string) : SM unique_plans :=
  match tables with
  | [] => mret ∅
  | t :: rest =>
      entries ← getD (fun d => finalRowEntries d ddl t);
      indexes ← uniqueIndexesLocked db t;
      plan ← liftM (prepareUniqueRowsWith db ev t entries indexes);
      plans ← plan_unique ddl rest;
      mret (<[t := plan]> plans)
  end.

Fixpoint plan_caches (ddl : ddl_effects) (tables : list string) : SM cache_plans :=
  match tables with
  | [] => mret ∅
  | t :: rest =>
      d ← getS txdata;
      indexes ← liftM (ListTableIndexes db t);
      m ← liftM (gets tm);
      plan ← lift_res (prepareTableCache ev m (dataPrefix db t) t indexes (finalRowEntries d ddl t) (reads d));
      plans ← plan_caches ddl rest;
      mret (<[t := plan]> plans)
  end.

(** ** The batch *)

Definition read_checks (d : TxData) : list CompareCheck := map (fun kl => check kl.1 kl.2) (map_to_list (reads d)).

Definition entry_op (ke : string * overlayEntry) : outcome error BatchOp :=
  if absent ke.2 then Done (del ke.1) else (data ← encode (row ke.2); Done (put ke.1 data)).

Fixpoint entry_ops (l : list (string * overlayEntry)) : outcome error (list BatchOp) :=
  match l with
  | [] => Done []
  | ke :: rest => op ← entry_op ke; ops ← entry_ops rest; Done (op :: ops)
  end.

Definition overlay_list (d : TxData) : list (string * overlayEntry) :=
  flat_map (fun te => map_to_list te.2) (map_to_list (overlay d)).

Definition check_le (a b : CompareCheck) : Prop := str_le (string_of (c_Key a)) (string_of (c_Key b)).
Definition op_le (a b : BatchOp) : Prop := str_le (string_of (b_Key a)) (string_of (b_Key b)).
#[export] Instance check_le_dec : RelDecision check_le := fun a b => decide (str_le _ _).
#[export] Instance op_le_dec : RelDecision op_le := fun a b => decide (str_le _ _).

Definition too_large (ops : list BatchOp) : option error :=
  let n := N.of_nat (length ops) in
  let size := foldr (fun op k => (batchOpBytes op + k)%N) 0%N ops in
  let advice := "; split the transaction or run the DDL outside a transaction so it can page its writes"%string in
  if (maxOperations <? n)%N
  then Some (Errorf ("transaction cannot be published atomically: " ++ itoa n
                     ++ " operations exceed the storage batch limit of " ++ itoa maxOperations ++ advice))
  else if (maxTransactionSize <? size)%N
  then Some (Errorf ("transaction cannot be published atomically: " ++ itoa size
                     ++ " bytes exceed the storage batch limit of " ++ itoa maxTransactionSize ++ advice))
  else None.

(** ** Publication *)

(** What is derived from the rows of a written table cannot be trusted after an unclear answer. *)
Definition distrust (d : TxData) (ddl : ddl_effects) (hasDDL : bool) : M () :=
  _ ← modify_tm (fun m => fold_left (fun m t => invalidateWriteFailure t m) (written_tables d) m);
  if hasDDL
  then (_ ← modify_sm (invalidateCommittedDDL (ddl_tables ddl));
        modify_tm (fun m => fold_left (fun m t => invalidateWriteFailure t m) (ddl_tables ddl) m))
  else mret ().

Definition publish_table (uniques : unique_plans) (plans : cache_plans) (t : string) (m : TableManager)
    : outcome error TableManager :=
  m ← (match plans !! t with
       | Some plan => applyTableCache plan m
       | None => Done (invalidateCache t m)
       end);
  let m := with_unique (applyUniquePlan (uniqueCache m) (default [] (uniques !! t)) None) m in
  Done (bumpGeneration t (bumpIndexPredicateWildcard t m)).

Fixpoint publish_tables (uniques : unique_plans) (plans : cache_plans) (tables : list string) (m : TableManager)
    : outcome error TableManager :=
  match tables with
  | [] => Done m
  | t :: rest => m ← publish_table uniques plans t m; publish_tables uniques plans rest m
  end.

Definition publish_rows (uniques : unique_plans) (plans : cache_plans) (tables : list string) : M () :=
  m ← gets tm; m ← lift (publish_tables uniques plans tables m); modify_tm (fun _ => m).

Definition publishCommittedCatalog (tables : list string) : M () :=
  _ ← modify_sm (invalidateCommittedDDL tables);
  modify_tm (fun m => fold_left (fun m t =>
    bumpGeneration t (bumpIndexPredicateWildcard t (InvalidateCache t m))) tables m).

Definition reset_index (known : gset string) (index : string) : M () :=
  if negb (bool_decide (index ∈ known)) then modify_tm (ClearIndex index EmptyString)
  else (
    r ← attempt (GetIndex db index);
    match r with
    | inl i => _ ← attempt (BuildIndex db ev (idx_Name i) (idx_Table i) []); mret ()
    | inr _ => mret ()
    end).

Definition publishCommittedIndexes (indexes : list string) : M () :=
  r ← attempt (ListIndexes db);
  let committed := match r with inl l => l | inr _ => [] end in
  each (reset_index (list_to_set (map ToLower committed))) indexes.

(** The batch is sent; its answer decides. *)
Definition send (d : TxData) (ddl : ddl_effects) (hasDDL : bool) (checks : list CompareCheck) (ops : list BatchOp) : M N :=
  r ← attempt (kv_compare checks ops);
  match r with
  | inr e => _ ← distrust d ddl hasDDL; fail e
  | inl (lsn, committed) =>
      if committed : bool then mret lsn
      else (_ ← distrust d ddl hasDDL; fail (ErrSerialization EmptyString))
  end.

(** The rows whose cached state the commit keeps up to date. *)
Definition cached_tables (d : TxData) (unique : gset string) : list string :=
  let exclusive : gset string := unique ∪ dom (scanGens d) ∪ list_to_set (predicate_tables d) in
  List.filter (fun t => bool_decide (t ∈ exclusive)) (written_tables d).

Definition publish (d : TxData) (ddl : ddl_effects) (hasDDL : bool) (uniques : unique_plans) (plans : cache_plans) : M () :=
  _ ← publish_rows uniques plans (written_tables d);
  if hasDDL
  then (_ ← publishCommittedCatalog (ddl_tables ddl); publishCommittedIndexes (ddl_indexes ddl))
  else mret ().

(** The gates, and the catalogue that is in effect under them. *)
Definition enter (hasDDL : bool) : SM (gset string * gset string) :=
  d ← getS txdata;
  touched ← getT (fun t => if hasDDL then touchedTables (cat t) else []);
  _ ← begin_write (write_keys d) (map (dataPrefix db) touched);
  closure ← foreignKeyClosure;
  m ← liftM (gets tm);
  _ ← modD (fun d => fold_left (fun d t => record_scan t (generation m t) d) (elements closure) d);
  unique ← acquireCommitLocks;
  _ ← refreshCommitted;
  _ ← modS (set_fk None);
  mret (closure, unique).

(** What is validated and planned once the staged rows are complete. *)
Definition validate (hasDDL : bool) (closure unique : gset string) : SM (ddl_effects * unique_plans * cache_plans) :=
  _ ← validate_gens;
  ddl ← (if hasDDL then ddl_writes else mret no_ddl);
  _ ← (if decide (closure = ∅) then mret () else validateForeignKeyFinalState closure);
  uniques ← plan_unique ddl (elements unique);
  d ← getS txdata;
  plans ← plan_caches ddl (cached_tables d unique);
  mret (ddl, uniques, plans).

Definition prepare (hasDDL : bool) : SM (ddl_effects * unique_plans * cache_plans) :=
  cu ← enter hasDDL;
  _ ← applyOverlaySchemaDefaults;
  validate hasDDL cu.1 cu.2.

Definition commit_body : SM N :=
  hasDDL ← getT (fun t => hasDDL (cat t));
  p ← prepare hasDDL;
  let '(ddl, uniques, plans) := p in
  d ← getS txdata;
  own ← lift_res (entry_ops (overlay_list d));
  let checks := merge_sort check_le (read_checks d ++ ddl_checks ddl) in
  let ops := merge_sort op_le (own ++ ddl_ops ddl) in
  match ops with
  | [] => mret 0%N
  | _ =>
      match too_large ops with
      | Some e => failS e
      | None =>
          lsn ← liftM (send d ddl hasDDL checks ops);
          _ ← liftM (publish d ddl hasDDL uniques plans);
          mret lsn
      end
  end.

(** Every way out of a commit ends the transaction. *)
Definition CommitWithLSN : SM N :=
  s ← getS id;
  if negb (inTx s) then failS (Errorf "cannot commit: no transaction in progress")
  else if aborted s then (_ ← resetLocked; failS (Errorf "current transaction is aborted"))
  else (
    r ← attemptS commit_body;
    _ ← resetLocked;
    match r with inl lsn => mret lsn | inr e => failS e end).

(** ** Outside a transaction *)

Context (fuel : nat).

(** [beginCascadingPointWrite]: a write that triggers an action runs in a transaction. *)
Definition beginCascadingPointWrite (table : string) (forDelete : bool) : SM bool :=
  participates ← liftM (ForeignKeyParticipants db table);
  if negb participates then mret false
  else (
    cascades ← liftM (HasCascadingReference db table forDelete);
    if negb cascades then mret false else (_ ← Begin; mret true)).

(** The implicit transaction: staged and committed, or undone. *)
Definition implicitly {A} (m : SM A) : SM A :=
  r ← attemptS m;
  match r with
  | inr e => _ ← attemptS Rollback; failS e
  | inl a => _ ← CommitWithLSN; mret a
  end.

(** A callback that reads outside a transaction leaves the session as it is. *)
Definition reading {A B} (s : Session) (f : A -> SM B) (a : A) : M B := fun w => let (r, sw) := f a s w in (r, sw.2).

Definition UpdateByPK_s (table pk : string) (updateFn : Row -> SM Row) : SM (option Row) :=
  open ← getS inTx;
  if open : bool then updateByPKLocked db ev fuel table pk updateFn
  else (
    cascading ← beginCascadingPointWrite table false;
    if cascading : bool then implicitly (updateByPKLocked db ev fuel table pk updateFn)
    else guardKeys [RowLockKey db table pk] (s ← getS id; liftM (UpdateByPK db ev table pk (reading s updateFn)))).

Definition DeleteByPK_s (table pk : string) : SM (option Row) :=
  open ← getS inTx;
  if open : bool then deleteByPKLocked db ev fuel table pk
  else (
    cascading ← beginCascadingPointWrite table true;
    if cascading : bool then implicitly (deleteByPKLocked db ev fuel table pk)
    else guardKeys [RowLockKey db table pk] (liftM (DeleteByPK db ev table pk))).

(** A statement of the table manager runs in a session of its own. *)
Definition own_session {A} (id : session) (m : SM A) : M A := fun w =>
  let (r, sw) := (_ ← Begin; a ← m; _ ← CommitWithLSN; mret a) (NewSession id) w in
  (r, (Rollback sw.1 sw.2).2.2).

Definition UpdateFunc_m (id : session) (table : string) (updateFn : Row -> SM Row) (filter : option (Row -> bool)) : M nat :=
  own_session id (update_func db ev fuel table updateFn filter).
Definition Delete_m (id : session) (table : string) (filter : option (Row -> bool)) : M nat :=
  own_session id (delete_func db ev fuel table filter).
Definition Truncate (id : session) (table : string) : M nat := Delete_m id table None.

(** [fresh] is the identity of the session the statement runs in. *)
Definition UpdateFunc_s (fresh : session) (table : string) (updateFn : Row -> SM Row) (filter : option (Row -> bool))
    : SM nat :=
  open ← getS inTx;
  if open : bool then update_func db ev fuel table updateFn filter
  else guardTable db table (liftM (UpdateFunc_m fresh table updateFn filter)).

Definition Delete_s (fresh : session) (table : string) (filter : option (Row -> bool)) : SM nat :=
  open ← getS inTx;
  if open : bool then delete_func db ev fuel table filter
  else guardTable db table (liftM (Delete_m fresh table filter)).

(** ** DDL of a session *)

Definition validateUniqueIndexLocked (i : Index) : SM () :=
  rows ← selectLocked db (idx_Table i) None; lift_res (no_duplicates ev i (map Done rows) ∅).

Definition staged_or {A} (tx : SM A) (auto : SM A) : SM A := b ← in_tx; if b : bool then stageDDL db tx else auto.

Definition CreateTable_s (s : Schema) : SM () := staged_or (createTable db s) (liftM (CreateTable db s)).
Definition DropTable_s (name : string) : SM () :=
  staged_or (dropTable db name) (guardTable db name (liftM (DropTable db name))).
Definition CreateIndex_s (i : Index) : SM () :=
  staged_or (_ ← createIndex db i; if Unique i then validateUniqueIndexLocked i else mret ())
    (guardTable db (idx_Table i) (liftM (if Unique i then CreateUniqueIndex db ev i else CreateIndex db i))).
Definition DropIndex_s (name : string) : SM () := staged_or (dropIndex db name) (liftM (DropIndex db name)).
Definition AddColumn_s (table : string) (c : Column) (checks : list CheckConstraint) (unique : option Index) : SM () :=
  staged_or (addColumn db ev table c checks unique) (guardTable db table (liftM (AddColumn db ev table c checks unique))).
Definition DropColumn_s (table column : string) : SM () :=
  staged_or (dropColumn db table column) (guardTable db table (liftM (DropColumn db table column))).
Definition RenameTable_s (oldName newName : string) : SM () :=
  staged_or (renameTable db oldName newName) (guardTable db oldName (liftM (RenameTable db oldName newName))).
Definition RenameColumn_s (table oldName newName : string) : SM () :=
  staged_or (renameColumn db table oldName newName) (guardTable db table (liftM (RenameColumn db table oldName newName))).

(** The derived state of an index or a table is left alone inside a transaction. *)
Definition unless_tx (m : SM ()) : SM () := b ← in_tx; if b : bool then mret () else m.

Definition ClearIndex_s (indexName tableName : string) : SM () :=
  unless_tx (liftM (modify_tm (ClearIndex indexName tableName))).
Definition InvalidateCache_s (table : string) : SM () := unless_tx (liftM (modify_tm (InvalidateCache table))).
Definition BuildIndex_s (indexName tableName : string) (columns : list string) : SM () :=
  unless_tx (liftM (BuildIndex db ev indexName tableName columns)).

End Commit.
