(* ===== verification/Sample.v ===== *)
(** * A small database to run the model on

    One table [t] with an integer key and a text column, a store that holds it, and the codec of the
    catalogue records that the examples use: a record is written as its name, and every table has the
    same columns. *)
From Stdlib Require Import NArith ZArith Lia Ascii String.
From stdpp Require Import base option list list_numbers gmap sorting strings.
From S2P Require Import Prelude RowLock Bytes RowCodec Float Values Wire KVClient TestKV KVStore Schema UniqueCache TableCache ForeignKey Storage Table SessionState SchemaTx Session AlterTable Commit.

#[export] Existing Instance plain.

Definition sample_column (name type : string) (nullable key : bool) : Column :=
  mkColumn name type nullable VNil EmptyString key EmptyString false.

Definition sample_schema (name : string) : Schema :=
  mkSchema name [sample_column "id" "INTEGER" false true; sample_column "v" "TEXT" true false] "id" [] 0 0 false [] [].

Definition sample_index (name : string) : Index :=
  mkIndex name "t" [mkIndexColumn "v" false EmptyString] true 0 EmptyString.

(** Names separated by commas. *)
Fixpoint split_commas (s word : string) : list string :=
  match s with
  | EmptyString => [word]
  | String c r => if c =b "," then word :: split_commas r EmptyString else split_commas r (word ++ str1 c)
  end.

#[export] Instance sample_json : Json := {|
  schema_json s := inl (bytes (Name s)); schema_parse data := inl (sample_schema (string_of data));
  index_json i := bytes (idx_Name i); index_parse data := inl (sample_index (string_of data));
  names_json l := bytes (Join l ",");
  names_parse data := inl (match data with [] => [] | _ => split_commas (string_of data) EmptyString end) |}.

Definition sample_evaluators : Evaluators := mkEvaluators None None None.

Definition sample_row (id : Z) (v : string) : Row := {["id" := VInt GoInt64 id; "v" := VString v]}.

Definition run_m {A} (m : M A) (w : World) : World := (m w).2.
Definition run_s {A} (m : SM A) (sw : Session * World) : Session * World := (m sw.1 sw.2).2.

Lemma parts {A B C} (x : A * (B * C)) : x = (x.1, (x.2.1, x.2.2)).
Proof. now destruct x as [? [? ?]]. Qed.

(** The table [t] with the row 1. *)
Definition sample_world : World :=
  run_m (InsertWithRowID "db" sample_evaluators "t" (sample_row 1 "one"))
    (run_m (CreateTable "db" (sample_schema "t")) NewWorld).

(** A session that has staged a row and read another. *)
Definition sample_session : Session * World :=
  run_s (insertLocked "db" sample_evaluators "t" (sample_row 2 "two"))
    (run_s (getByPKLocked "db" "t" "1")
      (run_s Begin (NewSession 1, sample_world))).
