(* ===== verification/StorageFacts.v ===== *)
(** * Operations that leave the store alone

    [Quiet] says that an operation changes nothing that is durable.  Instances for the primitives and
    the composition make it automatic for the reads, for the caches, and for the checks before a
    commit.  [completed_row] says what row an insert writes, and [normalized_row] that normalizeInsertRow
    of table.go builds it, under its primary key. *)
From Stdlib Require Import NArith ZArith Lia Ascii String.
From stdpp Require Import base option list list_numbers gmap sorting strings.
From S2P Require Import Prelude RowLock Bytes RowCodec Float Values Wire KVClient TestKV KVStore Schema UniqueCache TableCache ForeignKey Storage Table SessionState SchemaTx.

(** The steps of a computation that succeeds. *)
Lemma bind_done {E A B} (m : outcome E A) (k : A -> outcome E B) (b : B) :
  mbind k m = Done b -> exists a, m = Done a /\ k a = Done b.
Proof. destruct m; cbn; [eauto|discriminate|discriminate]. Qed.

Ltac res_inv :=
  repeat match goal with
  | E : mbind _ _ = Done _ |- _ => apply bind_done in E as (? & ? & E)
  | E : Done _ = Done _ |- _ => injection E as E; subst
  | E : Fail_ _ = Done _ |- _ => discriminate E
  | E : Panic = Done _ |- _ => discriminate E
  end.

Section Quiet.
Context `{Json}.

Class Quiet {A} (m : M A) : Prop := quiet_store : forall w, store (m w).2 = store w.

Lemma quiet_bind {A B} (m : M A) (k : A -> M B) : Quiet m -> (forall a, Quiet (k a)) -> Quiet (mbind k m).
Proof.
  intros Hm Hk w. specialize (Hm w). unfold mbind, M_bind. destruct (m w) as [[a|e|] w']; cbn in *; auto.
  rewrite Hk. exact Hm.
Qed.

(** The steps of an operation that succeeds. *)
Lemma m_bind_done {A B} (m : M A) (k : A -> M B) w b w' :
  mbind k m w = (Done b, w') -> exists a w1, m w = (Done a, w1) /\ k a w1 = (Done b, w').
Proof. unfold mbind, M_bind. destruct (m w) as [[a|e|] w1]; [eauto|discriminate|discriminate]. Qed.

Lemma s_bind_done {A B} (m : SM A) (k : A -> SM B) s w b sw :
  mbind k m s w = (Done b, sw) -> exists a s1 w1, m s w = (Done a, (s1, w1)) /\ k a s1 w1 = (Done b, sw).
Proof. unfold mbind, SM_bind. destruct (m s w) as [[a|e|] [s1 w1]]; [eauto|discriminate|discriminate]. Qed.

#[export] Instance quiet_ret {A} (a : A) : Quiet (mret a). Proof. now intros w. Qed.
#[export] Instance quiet_lift {A} (r : outcome error A) : Quiet (lift r). Proof. now intros w. Qed.
#[export] Instance quiet_fail {A} (e : error) : Quiet (fail (A := A) e). Proof. now intros w. Qed.
#[export] Instance quiet_gets {A} (f : World -> A) : Quiet (gets f). Proof. now intros w. Qed.
#[export] Instance quiet_sm f : Quiet (modify_sm f). Proof. now intros w. Qed.
#[export] Instance quiet_tm f : Quiet (modify_tm f). Proof. now intros w. Qed.

#[export] Instance quiet_attempt {A} (m : M A) : Quiet m -> Quiet (attempt m).
Proof. intros Hm w. specialize (Hm w). unfold attempt. now destruct (m w) as [[a|e|] w']. Qed.

Lemma quiet_each {A} (f : A -> M ()) (l : list A) : (forall x, Quiet (f x)) -> Quiet (each f l).
Proof. intros Hf. induction l; cbn; [apply _|]. apply quiet_bind; auto. Qed.

Lemma quiet_collect {A B} (f : A -> M B) (l : list A) : (forall x, Quiet (f x)) -> Quiet (collect f l).
Proof.
  intros Hf. induction l; cbn; [apply _|]. apply quiet_bind; [auto|]. intros. apply quiet_bind; [auto|]. apply _.
Qed.

(** The operations of the store that only read. *)
Definition reading_op (o : op) : bool :=
  match o with OGet _ | OExists _ | OMultiGet _ => true | _ => false end.

Lemma quiet_kv (o : op) : reading_op o = true -> Quiet (kv o).
Proof.
  intros Ho w. unfold kv, refuse_or_spec. destruct o; try discriminate Ho; cbn [spec];
    destruct (faults w) as [|[]?]; cbn [allowed]; repeat case_match; cbn in *; simplify_eq; auto.
Qed.

#[export] Instance quiet_scan (prefix : string) : Quiet (kv_scan prefix).
Proof. intros w. unfold kv_scan. repeat case_match; reflexivity. Qed.
End Quiet.

Ltac m_inv :=
  repeat match goal with
  | E : mbind _ _ _ = (Done _, _) |- _ => apply m_bind_done in E as (? & ? & ? & E); cbv beta zeta in E
  end.

Ltac s_inv :=
  repeat match goal with
  | E : mbind _ _ _ _ = (Done _, _) |- _ => apply s_bind_done in E as (? & ? & ? & ? & E); cbv beta zeta in E
  end.

Create HintDb quiet discriminated.

(** Composition, branches, and the known operations. *)
Ltac quiet :=
  repeat first
    [ progress intros
    | solve [auto with quiet nocore]
    | apply quiet_bind
    | apply quiet_attempt
    | apply quiet_each
    | apply quiet_collect
    | solve [apply quiet_kv; reflexivity]
    | solve [apply _]
    | match goal with
      | |- Quiet (match ?x with _ => _ end) => destruct x
      | |- Quiet (let '(_, _) := ?x in _) => destruct x
      end ].

Section Reads.
Context `{Json} (db : string) (ev : Evaluators).

Lemma quiet_read key : Quiet (kv_read key). Proof. unfold kv_read, kv_get. quiet. Qed.
Lemma quiet_exists key : Quiet (kv_exists key). Proof. unfold kv_exists. quiet. Qed.
Lemma quiet_multi_get keys : Quiet (kv_multi_get keys). Proof. unfold kv_multi_get. quiet. Qed.
Lemma quiet_durable key : Quiet (readDurable key). Proof. unfold readDurable, kv_get. quiet. Qed.
Lemma quiet_scan_rows p : Quiet (scan_rows p). Proof. unfold scan_rows. quiet. Qed.
Lemma quiet_version : Quiet Version. Proof. unfold Version. quiet. Qed.
Lemma quiet_wrapping {A} msg (m : M A) : Quiet m -> Quiet (wrapping msg m).
Proof. intros. unfold wrapping. quiet. Qed.
#[local] Hint Resolve quiet_read quiet_exists quiet_multi_get quiet_durable quiet_scan_rows quiet_version quiet_wrapping : quiet.

Lemma quiet_GetSchema t : Quiet (GetSchema db t). Proof. unfold GetSchema. quiet. Qed.
Lemma quiet_getSchemaUnsafe t : Quiet (getSchemaUnsafe db t). Proof. unfold getSchemaUnsafe. quiet. Qed.
Lemma quiet_ListTables : Quiet (ListTables db). Proof. unfold ListTables. quiet. Qed.
Lemma quiet_GetIndex i : Quiet (GetIndex db i). Proof. unfold GetIndex. quiet. Qed.
Lemma quiet_ListIndexes : Quiet (ListIndexes db). Proof. unfold ListIndexes. quiet. Qed.
#[local] Hint Resolve quiet_GetSchema quiet_getSchemaUnsafe quiet_ListTables quiet_GetIndex quiet_ListIndexes : quiet.

Lemma quiet_table_indexes t names : Quiet (table_indexes db t names).
Proof. induction names; cbn [table_indexes]; quiet. Qed.
#[local] Hint Resolve quiet_table_indexes : quiet.

Lemma quiet_ListTableIndexes t : Quiet (ListTableIndexes db t). Proof. unfold ListTableIndexes. quiet. Qed.
Lemma quiet_TableExists t : Quiet (TableExists db t). Proof. unfold TableExists. quiet. Qed.
Lemma quiet_build_snapshot v : Quiet (build_snapshot db v). Proof. unfold build_snapshot. quiet. Qed.
#[local] Hint Resolve quiet_ListTableIndexes quiet_TableExists quiet_build_snapshot : quiet.

Lemma quiet_snapshot : Quiet (foreignKeyCatalogSnapshot db). Proof. unfold foreignKeyCatalogSnapshot. quiet. Qed.
#[local] Hint Resolve quiet_snapshot : quiet.

Lemma quiet_ForeignKeyParticipants t : Quiet (ForeignKeyParticipants db t).
Proof. unfold ForeignKeyParticipants. quiet. Qed.
Lemma quiet_ForeignKeyClosure ts : Quiet (ForeignKeyClosure db ts). Proof. unfold ForeignKeyClosure. quiet. Qed.
Lemma quiet_referencing t : Quiet (referencingForeignKeys db t). Proof. unfold referencingForeignKeys. quiet. Qed.

Lemma quiet_list_durable what key : Quiet (list_durable what key). Proof. unfold list_durable. quiet. Qed.

(** *** Rows *)

Lemma quiet_must_exist t : Quiet (must_exist db t). Proof. unfold must_exist. quiet. Qed.
#[local] Hint Resolve quiet_must_exist : quiet.
Lemma quiet_getKeyWithLSN key : Quiet (getKeyWithLSN key). Proof. unfold getKeyWithLSN, kv_get. quiet. Qed.
#[local] Hint Resolve quiet_getKeyWithLSN : quiet.
Lemma quiet_GetByPK t pk : Quiet (GetByPK db t pk). Proof. unfold GetByPK, getByPKWithLSN. quiet. Qed.
Lemma quiet_Select t f : Quiet (Select db t f). Proof. unfold Select. quiet. Qed.
Lemma quiet_SelectWithLimit t f n o : Quiet (SelectWithLimit db t f n o). Proof. unfold SelectWithLimit. quiet. Qed.
Lemma quiet_CountFast t : Quiet (CountFast db t). Proof. unfold CountFast, scanCountKeys. quiet. Qed.

Lemma quiet_fresh t l : Quiet (fresh_caches t l).
Proof. induction l; cbn [fresh_caches]; quiet. Qed.
#[local] Hint Resolve quiet_fresh : quiet.
Lemma quiet_prepareUnique t es l : Quiet (prepareUniqueRowsWith db ev t es l).
Proof. unfold prepareUniqueRowsWith, ensureUniqueCaches. quiet. Qed.

Lemma quiet_build t cols : Quiet (build_from_rows db ev t cols). Proof. unfold build_from_rows. quiet. Qed.
#[local] Hint Resolve quiet_build : quiet.
Lemma quiet_install n t vk : Quiet (install n t vk). Proof. unfold install. quiet. Qed.
#[local] Hint Resolve quiet_install : quiet.
Lemma quiet_ensureIndex i : Quiet (ensureIndex db ev i). Proof. unfold ensureIndex. quiet. Qed.
#[local] Hint Resolve quiet_ensureIndex : quiet.
Lemma quiet_BuildIndex i t cols : Quiet (BuildIndex db ev i t cols). Proof. unfold BuildIndex. quiet. Qed.
Lemma quiet_LookupIndex i v : Quiet (LookupIndex db ev i v). Proof. unfold LookupIndex. quiet. Qed.
Lemma quiet_selectByIndex t i k : Quiet (selectByIndexKeyWithLSN db ev t i k).
Proof. unfold selectByIndexKeyWithLSN. quiet. Qed.

(** *** Completing a row *)

Lemma quiet_max p : Quiet (max_rowid p).
Proof.
  unfold max_rowid. apply quiet_bind; [apply _|]. intros l. generalize 0%Z as top.
  induction l as [|e l IH]; intros top; [apply _|]. destruct (decode (e_Value e)); [apply IH|apply _|now intros w].
Qed.
#[local] Hint Resolve quiet_max : quiet.
Lemma quiet_nextLocked t : Quiet (nextRowIDLocked db t).
Proof. unfold nextRowIDLocked, deriveNextRowID, set_next. quiet. Qed.
#[local] Hint Resolve quiet_nextLocked : quiet.
Lemma quiet_GetNextRowID t : Quiet (GetNextRowID db t). Proof. unfold GetNextRowID, set_next. quiet. Qed.
Lemma quiet_UpdateMaxRowID t n : Quiet (UpdateMaxRowID db t n). Proof. unfold UpdateMaxRowID, set_next. quiet. Qed.
#[local] Hint Resolve quiet_GetNextRowID quiet_UpdateMaxRowID : quiet.
Lemma quiet_alias t s r : Quiet (alias_rowid db t s r). Proof. unfold alias_rowid. quiet. Qed.
#[local] Hint Resolve quiet_alias : quiet.
Lemma quiet_normalizeInsertRow t s r : Quiet (normalizeInsertRow db ev t s r).
Proof. unfold normalizeInsertRow. quiet. Qed.
#[local] Hint Resolve quiet_normalizeInsertRow : quiet.
Lemma quiet_prepareInsert t s r : Quiet (prepareInsertWithSchema db ev t s r).
Proof. unfold prepareInsertWithSchema. quiet. Qed.

(** *** Foreign keys of a statement *)

Lemma quiet_any_row t p : Quiet (any_row db t p). Proof. unfold any_row. quiet. Qed.
#[local] Hint Resolve quiet_any_row : quiet.
Lemma quiet_check_reference s rs fk r : Quiet (check_reference db s rs fk r).
Proof. unfold check_reference, parentRowExists, wrapping. quiet. Qed.
#[local] Hint Resolve quiet_check_reference : quiet.
Lemma quiet_insertForeignKeys s rs : Quiet (validateInsertForeignKeys db s rs).
Proof. unfold validateInsertForeignKeys. quiet. Qed.
Lemma quiet_check_removal t s o n ref : Quiet (check_removal db t s o n ref).
Proof. unfold check_removal, wrapping. cbv zeta. quiet. Qed.
#[local] Hint Resolve quiet_check_removal quiet_referencing : quiet.
Lemma quiet_parentRemoval t o n : Quiet (validateParentKeyRemoval db t o n).
Proof. unfold validateParentKeyRemoval. quiet. Qed.

(** *** What follows a write *)

Lemma quiet_hasUnique t : Quiet (hasUniqueIndex db t). Proof. unfold hasUniqueIndex, uniqueIndexes. quiet. Qed.
#[local] Hint Resolve quiet_hasUnique quiet_prepareUnique : quiet.
Lemma quiet_lockForWrite t : Quiet (lockForWrite db t). Proof. unfold lockForWrite. quiet. Qed.
Lemma quiet_prepareUniqueRows t es : Quiet (prepareUniqueRows db ev t es).
Proof. unfold prepareUniqueRows, uniqueIndexes. quiet. Qed.
Lemma quiet_apply_plan p a : Quiet (apply_plan p a). Proof. unfold apply_plan. quiet. Qed.
Lemma quiet_update_entry r b id i : Quiet (update_entry ev r b id i). Proof. unfold update_entry. quiet. Qed.
#[local] Hint Resolve quiet_update_entry : quiet.
Lemma quiet_updateIndexes t r b k : Quiet (updateIndexesForRow db ev t r b k). Proof. unfold updateIndexesForRow. quiet. Qed.
Lemma quiet_bump t r i : Quiet (bump_predicates ev t r i). Proof. unfold bump_predicates. quiet. Qed.
#[local] Hint Resolve quiet_bump : quiet.
Lemma quiet_bumps t rs : Quiet (bumpIndexPredicates db ev t rs). Proof. unfold bumpIndexPredicates. quiet. Qed.

End Reads.

#[export] Hint Resolve quiet_max quiet_GetNextRowID quiet_UpdateMaxRowID quiet_normalizeInsertRow quiet_prepareInsert
  quiet_insertForeignKeys quiet_parentRemoval quiet_hasUnique quiet_lockForWrite quiet_prepareUniqueRows quiet_apply_plan
  quiet_updateIndexes quiet_bumps quiet_any_row : quiet.

#[export] Hint Resolve quiet_read quiet_exists quiet_multi_get quiet_durable quiet_scan_rows quiet_version quiet_wrapping
  quiet_GetSchema quiet_getSchemaUnsafe quiet_ListTables quiet_GetIndex quiet_ListIndexes quiet_table_indexes
  quiet_ListTableIndexes quiet_TableExists quiet_build_snapshot quiet_snapshot quiet_ForeignKeyParticipants
  quiet_ForeignKeyClosure quiet_referencing quiet_list_durable quiet_must_exist quiet_getKeyWithLSN quiet_GetByPK
  quiet_Select quiet_SelectWithLimit quiet_CountFast quiet_fresh quiet_prepareUnique quiet_build quiet_install
  quiet_ensureIndex quiet_BuildIndex quiet_LookupIndex quiet_selectByIndex : quiet.

(** ** The completed row

    What an insert writes, stated without the code that builds it: for each column the value that the
    caller gives under a name equal up to case, or the column's default, or none; a generated value
    for the alias of the row id where the caller gives none or NULL; a row id; and nothing else. *)
Section Completed.
Context `{Json} (db : string) (ev : Evaluators).

Definition provides (r : Row) (name : string) (v : val) : Prop :=
  exists k, EqualFold k name = true /\ r !! k = Some v.

Definition base_value (t : Z) (r : Row) (c : Column) (o : option val) : Prop :=
  (exists v, o = Some v /\ provides r (col_Name c) v) \/
  ((forall v, ~ provides r (col_Name c) v) /\ columnDefaultValue ev c t = Done o).

Record completed_row (s : Schema) (t : Z) (r nr : Row) : Prop := {
  cr_column : forall c, NoDup (map col_Name (Columns s)) -> In c (Columns s) -> col_Name c <> "_rowid_"%string ->
    base_value t r c (nr !! col_Name c) \/
    (alias_column s = Some (col_Name c) /\ (exists id, nr !! col_Name c = Some (int64_val id)) /\
     exists o, base_value t r c o /\ default VNil o = VNil);
  cr_rowid : exists id, nr !! "_rowid_"%string = Some (int64_val id) /\
    forall a v z, alias_column s = Some a -> a <> "_rowid_"%string -> nr !! a = Some v ->
      rowid_of_key v = Done z -> (0 < z)%Z -> id = z;
  cr_only : forall k, is_Some (nr !! k) -> k = "_rowid_"%string \/ alias_column s = Some k \/ In k (map col_Name (Columns s)) }.

Lemma pick_field_spec r c :
  match pick_field r c with
  | Some v => provides r (col_Name c) v
  | None => forall v, ~ provides r (col_Name c) v
  end.
Proof.
  unfold pick_field. destruct (find _ _) as [[k v]|] eqn:E; cbn.
  - apply find_some in E as [Hin Hk]. exists k. split; [exact Hk|].
    now apply elem_of_map_to_list, list_elem_of_In.
  - intros v (k & Hk & Hv). apply elem_of_map_to_list, list_elem_of_In in Hv.
    pose proof (find_none _ _ E _ Hv : EqualFold k (col_Name c) = false) as Hn. congruence.
Qed.

Definition pick (r : Row) (nr : Row) (c : Column) : Row :=
  match pick_field r c with Some v => <[col_Name c := v]> nr | None => nr end.

Lemma pick_name r c c' : col_Name c = col_Name c' -> pick_field r c = pick_field r c'.
Proof. unfold pick_field. now intros ->. Qed.

Lemma picked_fields r cols : forall nr,
  let nr' := fold_left (pick r) cols nr in
  (forall c, In c cols -> (pick_field r c = None /\ nr' !! col_Name c = nr !! col_Name c) \/
                          (exists v, pick_field r c = Some v /\ nr' !! col_Name c = Some v)) /\
  (forall k, ~ In k (map col_Name cols) -> nr' !! k = nr !! k).
Proof.
  induction cols as [|c cols IH]; intros nr; [easy|]. cbn [fold_left map]. destruct (IH (pick r nr c)) as [Hin Hout].
  assert (Hself : (pick_field r c = None /\ pick r nr c !! col_Name c = nr !! col_Name c) \/
                  (exists v, pick_field r c = Some v /\ pick r nr c !! col_Name c = Some v)).
  { unfold pick. destruct (pick_field r c) as [v|]; [right; exists v; now rewrite lookup_insert_eq|now left]. }
  assert (Hother : forall k, k <> col_Name c -> pick r nr c !! k = nr !! k).
  { intros k Hk. unfold pick. destruct (pick_field r c); [now rewrite lookup_insert_ne by congruence|reflexivity]. }
  split; [|intros k Hk; rewrite Hout, Hother; [easy|intros ->; apply Hk; now left|intros Hi; apply Hk; now right]].
  intros c' Hc'. destruct (in_dec String.string_dec (col_Name c') (map col_Name cols)) as [Hi|Hi].
  - apply in_map_iff in Hi as (c2 & En & Hc2). destruct (Hin c2 Hc2) as [[Hp Hv]|(v & Hp & Hv)]; rewrite (pick_name r c2 c' En), En in *.
    + left. split; [exact Hp|]. rewrite Hv. destruct (decide (col_Name c' = col_Name c)) as [E|E]; [|now apply Hother].
      unfold pick. now rewrite (pick_name r c c' (eq_sym E)), Hp.
    + right. now exists v.
  - destruct Hc' as [<-|Hc']; [|destruct Hi; now apply in_map]. rewrite !Hout by exact Hi. exact Hself.
Qed.

Lemma pick_fields_spec r cols :
  (forall c, In c cols -> pick_fields cols r !! col_Name c = pick_field r c) /\
  (forall k, is_Some (pick_fields cols r !! k) -> In k (map col_Name cols)).
Proof.
  destruct (picked_fields r cols ∅) as [Hin Hout]. split.
  - intros c Hc. destruct (Hin c Hc) as [[Hp Hv]|(v & Hp & Hv)]; rewrite Hp; [exact Hv|exact Hv].
  - intros k Hk. destruct (in_dec String.string_dec k (map col_Name cols)) as [Hi|Hi]; [exact Hi|].
    apply Hout in Hi. change (fold_left (pick r) cols ∅) with (pick_fields cols r) in Hi. rewrite Hi in Hk. now destruct Hk.
Qed.

Lemma insert_defaults_spec t cols : forall nr nr', insert_defaults ev cols t nr = Done nr' ->
  nr ⊆ nr' /\ (forall k, ~ In k (map col_Name cols) -> nr' !! k = nr !! k) /\
  (NoDup (map col_Name cols) -> forall c, In c cols -> nr !! col_Name c = None -> columnDefaultValue ev c t = Done (nr' !! col_Name c)).
Proof.
  induction cols as [|c cols IH]; cbn [insert_defaults map]; intros nr nr' E.
  { injection E as <-. easy. }
  destruct (nr !! col_Name c) as [v|] eqn:Ev.
  - apply IH in E as (Hs & Hout & Hin). split; [exact Hs|]. split; [intros k Hk; apply Hout; intros Hi; apply Hk; now right|].
    intros Hnd c' [<-|Hc'] Hn; [congruence|]. apply Hin; [now inversion Hnd|exact Hc'|exact Hn].
  - apply bind_done in E as (d & Ed & E). apply IH in E as (Hs & Hout & Hin).
    assert (Hother : forall k, k <> col_Name c -> match d with Some v => <[col_Name c := v]> nr | None => nr end !! k = nr !! k)
      by (intros k Hk; destruct d; [now rewrite lookup_insert_ne by congruence|reflexivity]).
    assert (Hself : match d with Some v => <[col_Name c := v]> nr | None => nr end !! col_Name c = d)
      by (destruct d; [now rewrite lookup_insert_eq|exact Ev]).
    split; [etransitivity; [|exact Hs]; destruct d; [now apply insert_subseteq|reflexivity]|].
    split; [intros k Hk; rewrite Hout, Hother; [easy|intros ->; apply Hk; now left|intros Hi; apply Hk; now right]|].
    intros Hnd c' Hc' Hn. inversion Hnd as [|? ? Hni Hnd']; subst. rewrite list_elem_of_In in Hni.
    destruct Hc' as [<-|Hc']; [now rewrite Hout, Hself by exact Hni|].
    apply Hin; [assumption|assumption|]. rewrite Hother; [exact Hn|]. intros Ek. apply Hni. rewrite <- Ek. now apply in_map.
Qed.

Lemma base_values s t r nr : insert_defaults ev (Columns s) t (pick_fields (Columns s) r) = Done nr ->
  (NoDup (map col_Name (Columns s)) -> forall c, In c (Columns s) -> base_value t r c (nr !! col_Name c)) /\
  (forall k, is_Some (nr !! k) -> In k (map col_Name (Columns s))).
Proof.
  intros E. apply insert_defaults_spec in E as (Hs & Hout & Hin). destruct (pick_fields_spec r (Columns s)) as [Hp Hk]. split.
  - intros Hnd c Hc. specialize (Hp c Hc). pose proof (pick_field_spec r c) as Hf. destruct (pick_field r c) as [v|].
    + left. exists v. split; [exact (lookup_weaken _ _ _ _ Hp Hs)|exact Hf].
    + right. split; [exact Hf|]. now apply Hin.
  - intros k Hv. destruct (in_dec String.string_dec k (map col_Name (Columns s))) as [Hi|Hi]; [exact Hi|].
    apply Hk. now rewrite <- (Hout k Hi).
Qed.

(** The alias of the row id receives a generated value where it has none. *)
Lemma alias_cases t s nr w nr' id w' : alias_rowid db t s nr w = (Done (nr', id), w') ->
  match alias_column s with
  | None => nr' = nr /\ id = 0%Z
  | Some a => (nr' = nr /\ rowid_of_key (get nr a) = Done id /\ get nr a <> VNil) \/
              (nr' = <[a := int64_val id]> nr /\ get nr a = VNil)
  end.
Proof.
  unfold alias_rowid. destruct (alias_column s) as [a|]; [|now intros [= <- <- _]].
  intros E. destruct (get nr a) eqn:Eg;
    [right; m_inv; unfold mret, M_ret in E; injection E as <- <- _; auto|left..];
    (m_inv; match goal with Hl : lift _ _ = (Done _, _) |- _ => apply pair_equal_spec in Hl as [Hl _] end;
     assert (Hr : nr' = nr /\ id = x) by (case_match; m_inv; unfold mret, M_ret in E; now injection E as <- <- _);
     destruct Hr as [-> ->]; repeat split; easy).
Qed.

Lemma completes s t r nr nr' rid id :
  insert_defaults ev (Columns s) t (pick_fields (Columns s) r) = Done nr ->
  match alias_column s with
  | None => nr' = nr /\ rid = 0%Z
  | Some a => (nr' = nr /\ rowid_of_key (get nr a) = Done rid /\ get nr a <> VNil) \/
              (nr' = <[a := int64_val rid]> nr /\ get nr a = VNil)
  end ->
  ((0 < rid)%Z -> id = rid) -> completed_row s t r (<["_rowid_"%string := int64_val id]> nr').
Proof.
  intros Hd Ha Hid. apply base_values in Hd as [Hbase Honly]. constructor.
  - intros c Hnd Hc Hr. rewrite lookup_insert_ne by congruence. specialize (Hbase Hnd c Hc).
    destruct (alias_column s) as [a|]; [|left; now destruct Ha as [-> _]].
    destruct Ha as [(-> & _ & _)|[-> Hn]]; [now left|].
    destruct (decide (a = col_Name c)) as [->|Hac]; [right|left; now rewrite lookup_insert_ne].
    split; [reflexivity|]. split; [exists rid; apply lookup_insert_eq|]. now exists (nr !! col_Name c).
  - exists id. split; [apply lookup_insert_eq|]. intros a v z Hs Hr Hv Hz Hpos. rewrite Hs in Ha.
    rewrite lookup_insert_ne in Hv by congruence. destruct Ha as [(-> & Hk & _)|[-> _]].
    + unfold get in Hk. rewrite Hv in Hk. assert (rid = z) as -> by (cbn in Hk, Hz; congruence). auto.
    + rewrite lookup_insert_eq in Hv. injection Hv as <-. injection Hz as ->. auto.
  - intros k Hk. destruct (decide (k = "_rowid_"%string)) as [->|Hr]; [now left|right]. rewrite lookup_insert_ne in Hk by congruence.
    destruct (alias_column s) as [a|]; [|right; apply Honly; now destruct Ha as [-> _]].
    destruct (decide (a = k)) as [->|Hak]; [now left|right]. apply Honly.
    destruct Ha as [(-> & _ & _)|[-> _]]; [exact Hk|]. now rewrite lookup_insert_ne in Hk.
Qed.

(** What an insert writes is the completed row, under the key of its primary key. *)
Lemma normalized_row t s r w nr key id r' w' :
  normalizeInsertRow db ev t s r w = (Done (nr, key, id, r'), w') ->
  completed_row s (now w) r nr /\ exists pk, PrimaryKeyForRow s nr = Done pk /\ key = dataKey db t pk.
Proof.
  unfold normalizeInsertRow. intros E. m_inv.
  match goal with p : (Row * Z)%type |- _ => destruct p as [nr1 rid] end. m_inv.
  unfold mret, M_ret in E. injection E as <- <- _ _ _. unfold lift, gets in *. simplify_eq.
  match goal with Ha : alias_rowid _ _ _ _ _ = _ |- _ => apply alias_cases in Ha end.
  split; [|eauto]. eapply completes; [eassumption|eassumption|].
  intros Hpos. apply Z.ltb_lt in Hpos. rewrite Hpos in *. unfold mret, M_ret in *. simplify_eq. reflexivity.
Qed.
End Completed.
