(* ===== verification/CommitProps.v ===== *)
(** * What a commit publishes

    The checks and plans before the batch change nothing durable and nothing the transaction read
    or wrote; the batch is accepted or refused as a whole.

    The properties state the commit of a transaction as one step of the store: all of its writes under one commit number,
    with every key it read as it was when it was read; or nothing. *)
From Stdlib Require Import NArith ZArith Lia Ascii String.
From stdpp Require Import base option list list_numbers gmap sorting strings.
From S2P Require Import Prelude Bytes RowCodec RowLock Wire KVClient TestKV KVStore Float Values Schema UniqueCache.
From S2P Require Import ForeignKey TableCache Storage Table SessionState SchemaTx Session AlterTable Commit Sample.
From S2P Require Import StorageFacts.
#[local] Set Warnings "-clear-no-such-hyp".

(** ** Operations that keep part of the state *)

Section Keeps.
Context `{Json}.

Class KeepsOn {T} (f : Session -> World -> T) {A} (m : SM A) : Prop :=
  keeps_on : forall s w, f (m s w).2.1 (m s w).2.2 = f s w.

(** What the checks of a commit leave alone, and the part that the completion of the rows keeps. *)
Definition pending (s : Session) : option (gmap string (list rowRewrite) * gmap string string) :=
  (fun t => (rewrites (cat t), dataSources (cat t))) <$> schemaTx s.
Definition frozen (s : Session) (w : World) :=
  (store w, s_id s, reads (txdata s), overlay (txdata s), log (txdata s), pending s, inTx s).
Definition stored (s : Session) (w : World) := (store w, s_id s, reads (txdata s)).

Section Any.
Context {T : Type} (f : Session -> World -> T).

Lemma keeps_bind {A B} (m : SM A) (k : A -> SM B) :
  KeepsOn f m -> (forall a, KeepsOn f (k a)) -> KeepsOn f (mbind k m).
Proof.
  intros Hm Hk s w. specialize (Hm s w). unfold mbind, SM_bind. destruct (m s w) as [[a|e|] [s' w']]; cbn in *; auto.
  rewrite Hk. exact Hm.
Qed.

#[export] Instance keeps_ret {A} (a : A) : KeepsOn f (mret a). Proof. now intros s w. Qed.
#[export] Instance keeps_res {A} (r : outcome error A) : KeepsOn f (lift_res r). Proof. now intros s w. Qed.
#[export] Instance keeps_fail {A} (e : error) : KeepsOn f (failS (A := A) e). Proof. now intros s w. Qed.
#[export] Instance keeps_getS {A} (g : Session -> A) : KeepsOn f (getS g). Proof. now intros s w. Qed.
#[export] Instance keeps_getT {A} (g : SchemaTx -> A) : KeepsOn f (getT g).
Proof. intros s w. unfold getT. now destruct (schemaTx s). Qed.

Lemma keeps_attempt {A} (m : SM A) : KeepsOn f m -> KeepsOn f (attemptS m).
Proof. intros Hm s w. specialize (Hm s w). unfold attemptS. now destruct (m s w) as [[a|e|] [s' w']]. Qed.

Lemma keeps_collect {A B} (g : A -> SM B) (l : list A) : (forall x, KeepsOn f (g x)) -> KeepsOn f (collectS g l).
Proof.
  intros Hf. induction l; cbn; [apply _|]. apply keeps_bind; [auto|]. intros. apply keeps_bind; [auto|]. apply _.
Qed.
End Any.

Abbreviation Keeps := (KeepsOn frozen).

Lemma keeps_stored {A} (m : SM A) : Keeps m -> KeepsOn stored m.
Proof. intros Hm s w. specialize (Hm s w). unfold frozen, stored in *. congruence. Qed.

#[export] Instance keeps_fk c : Keeps (modS (set_fk c)). Proof. now intros s w. Qed.

Lemma keeps_modT f :
  (forall t, (rewrites (cat (f t)), dataSources (cat (f t))) = (rewrites (cat t), dataSources (cat t))) -> Keeps (modT f).
Proof.
  intros Hf s w. unfold modT. destruct (schemaTx s) as [t|] eqn:E; [|reflexivity].
  unfold frozen, pending. cbn. now rewrite E, Hf.
Qed.

Lemma keeps_modD f : (forall d, (reads (f d), overlay (f d), log (f d)) = (reads d, overlay d, log d)) -> Keeps (modD f).
Proof. intros Hf s w. unfold modD, modS, frozen. cbn. specialize (Hf (txdata s)).
  injection Hf as -> -> ->. reflexivity. Qed.

Lemma keeps_liftM {A} (m : M A) : Quiet m -> Keeps (liftM m).
Proof.
  intros Hm s w. specialize (Hm w). unfold liftM. destruct (m w) as [r w']. unfold frozen. cbn in *. now rewrite Hm.
Qed.
End Keeps.

Abbreviation Keeps := (KeepsOn frozen).

Create HintDb keeps discriminated.

Ltac keep :=
  repeat first
    [ progress intros
    | solve [auto with keeps nocore]
    | apply keeps_bind
    | apply keeps_attempt
    | apply keeps_collect
    | apply keeps_liftM; solve [quiet]
    | apply keeps_modT; solve [reflexivity]
    | solve [apply _]
    | match goal with |- KeepsOn _ (match ?x with _ => _ end) => destruct x end ].

Section Prepare.
Context `{Json} (db : string) (ev : Evaluators).

(** ** The steps before the batch *)

Lemma keeps_recordRead k n : Keeps (recordRead k n). Proof. unfold recordRead. keep. Qed.
#[local] Hint Resolve keeps_recordRead : keeps.
Lemma keeps_getSchema n : Keeps (getSchema db n). Proof. unfold getSchema, loadSchema. keep. Qed.
Lemma keeps_listTables : Keeps (listTables db). Proof. unfold listTables, catalogTablesDurable, modC. keep. Qed.
Lemma keeps_getIndex n : Keeps (getIndex db n). Proof. unfold getIndex. keep. Qed.
Lemma keeps_listIndexes : Keeps (listIndexes db). Proof. unfold listIndexes, indexListDurable, modC. keep. Qed.
#[local] Hint Resolve keeps_getSchema keeps_listTables keeps_getIndex keeps_listIndexes : keeps.
Lemma keeps_indexes_of t l : Keeps (indexes_of db t l). Proof. induction l; cbn [indexes_of]; keep. Qed.
#[local] Hint Resolve keeps_indexes_of : keeps.
Lemma keeps_getSchemaLocked n : Keeps (getSchemaLocked db n). Proof. unfold getSchemaLocked, in_tx. keep. Qed.
Lemma keeps_ListTableIndexes_s t : Keeps (ListTableIndexes_s db t).
Proof. unfold ListTableIndexes_s, in_tx, listTableIndexes. keep. Qed.
#[local] Hint Resolve keeps_getSchemaLocked keeps_ListTableIndexes_s : keeps.
Lemma keeps_hasUnique t : Keeps (hasUniqueIndexLocked db t). Proof. unfold hasUniqueIndexLocked. keep. Qed.
Lemma keeps_uniqueIndexes t : Keeps (uniqueIndexesLocked db t). Proof. unfold uniqueIndexesLocked. keep. Qed.
Lemma keeps_build v : Keeps (build_catalog db v). Proof. unfold build_catalog. keep. Qed.
#[local] Hint Resolve keeps_hasUnique keeps_uniqueIndexes keeps_build : keeps.
Lemma keeps_catalog : Keeps (foreignKeyCatalogLocked db).
Proof. unfold foreignKeyCatalogLocked, versionLocked, in_tx. keep. Qed.
#[local] Hint Resolve keeps_catalog : keeps.
Lemma keeps_closure : Keeps (foreignKeyClosure db).
Proof. unfold foreignKeyClosure, ForeignKeyClosure_s, in_tx. keep. Qed.
Lemma keeps_unique_tables l : Keeps (unique_tables db l). Proof. induction l; cbn [unique_tables]; keep. Qed.
#[local] Hint Resolve keeps_closure keeps_unique_tables : keeps.
Lemma keeps_acquire : Keeps (acquireCommitLocks db). Proof. unfold acquireCommitLocks. keep. Qed.
Lemma keeps_refresh : Keeps refreshCommitted. Proof. unfold refreshCommitted. keep. Qed.
Lemma keeps_begin_write ks ps : Keeps (begin_write ks ps).
Proof. intros s w. unfold begin_write. now destruct (BeginWrite _ _ _ _). Qed.
#[local] Hint Resolve keeps_acquire keeps_refresh keeps_begin_write : keeps.

Lemma keeps_scans (m : TableManager) (l : list string) :
  Keeps (modD (fun d => fold_left (fun d t => record_scan t (generation m t) d) l d)).
Proof.
  apply keeps_modD. induction l as [|t l IH]; intros d; cbn [fold_left]; [easy|]. now rewrite IH.
Qed.
#[local] Hint Resolve keeps_scans : keeps.

Lemma keeps_enter b : Keeps (enter db b). Proof. unfold enter. keep. Qed.

(** *** Completing the staged rows *)

(** A staged row keeps the fields it has under the pending rewrites; a deletion stays one. *)
Definition completes (s : Session) (table : string) (e e' : overlayEntry) : Prop :=
  if absent e then e' = e else absent e' = false /\ applyStagedRewrites s table (row e) ⊆ row e'.

Lemma completes_pending s s' t e e' : pending s = pending s' -> completes s t e e' -> completes s' t e e'.
Proof.
  unfold pending, completes, applyStagedRewrites, rewriteRow. intros Hp. destruct (absent e); [easy|].
  destruct (schemaTx s), (schemaTx s'); try discriminate Hp; [|easy]. injection Hp as -> _. easy.
Qed.

Lemma fill_defaults_more cols n : forall r r', fill_defaults ev cols n r = Done r' -> r ⊆ r'.
Proof.
  induction cols as [|c cols IH]; intros r r' E; cbn [fill_defaults] in E; res_inv; [reflexivity|].
  destruct (rowColumnValue r (col_Name c)) eqn:Ec; [now apply IH|]. res_inv.
  etransitivity; [|eapply IH; eassumption]. destruct x as [v|]; [|reflexivity]. apply insert_subseteq.
  unfold rowColumnValue in Ec. now destruct (r !! col_Name c).
Qed.

Lemma entry_completes s t schema n e e' : complete_entry ev s t schema n e = Done e' -> completes s t e e'.
Proof.
  unfold complete_entry, completes. destruct (absent e); intros E; res_inv; [reflexivity|].
  unfold applySchemaDefaults in *. res_inv. split; [reflexivity|]. cbn [row]. eapply fill_defaults_more; eassumption.
Qed.

Definition entries_complete (s : Session) (t : string) : gmap string overlayEntry -> gmap string overlayEntry -> Prop :=
  map_Forall2 (fun _ e e' => completes s t e e').

(** Every staged row is complete. *)
Definition overlay_complete (s : Session) : relation (gmap string (gmap string overlayEntry)) :=
  map_Forall2 (entries_complete s).

Lemma entries_pending s s' t es es' : pending s = pending s' -> entries_complete s t es es' -> entries_complete s' t es es'.
Proof. intros Hp Hes. eapply map_Forall2_impl; [exact Hes|]. intros ? e e'. now apply completes_pending. Qed.

Lemma complete_spec s t schema n (l : list (string * overlayEntry)) : forall es,
  complete_entries ev s t schema n l = Done es -> entries_complete s t (list_to_map l : gmap string overlayEntry) es.
Proof.
  induction l as [|[k e] l IH]; intros es E; cbn [complete_entries] in E; res_inv.
  - apply map_Forall2_empty.
  - cbn [list_to_map foldr]. apply map_Forall2_insert_2; [eapply entry_completes; eassumption|now apply IH].
Qed.

Lemma keeps_completed t es : Keeps (completed db ev t es). Proof. unfold completed. keep. Qed.

Lemma completed_spec t es s w es' sw :
  completed db ev t es s w = (Done es', sw) -> entries_complete s t es es'.
Proof.
  unfold completed. unfold mbind, SM_bind, getS, liftM, gets, lift_res. pose proof (keeps_getSchemaLocked t s w) as Hk.
  destruct (getSchemaLocked db t s w) as [[sc|e|] [s' w']]; try discriminate.
  cbn in *. intros [= E _]. apply complete_spec in E. rewrite list_to_map_to_list in E.
  eapply entries_pending; [|exact E]. unfold frozen in Hk. congruence.
Qed.

(** The loop over the tables: those of the list are completed, the others stay. *)
Lemma complete_tables_spec (l : list (string * gmap string overlayEntry)) : forall s w s' w',
  NoDup l.*1 -> complete_tables db ev l s w = (Done (), (s', w')) ->
  stored s' w' = stored s w /\ pending s' = pending s /\
  forall t, match (list_to_map l : gmap string (gmap string overlayEntry)) !! t with
            | None => overlay (txdata s') !! t = overlay (txdata s) !! t
            | Some es => exists es', overlay (txdata s') !! t = Some es' /\ entries_complete s t es es'
            end.
Proof.
  induction l as [|[t es] l IH]; intros s w s' w' Hnd E; cbn [complete_tables] in E.
  { injection E as <- <-. split; [easy|]. split; [easy|]. intros t. cbn. now rewrite lookup_empty. }
  cbn [fmap list_fmap fst] in Hnd. apply NoDup_cons in Hnd as [Hnt Hnd].
  unfold mbind at 1, SM_bind at 1 in E. pose proof (keeps_completed t es s w) as Hk.
  pose proof (completed_spec t es s w) as Hs.
  destruct (completed db ev t es s w) as [[es'|e|] [s1 w1]]; [|discriminate E|discriminate E].
  specialize (Hs es' _ eq_refl). cbn [fst snd] in Hk. unfold mbind, SM_bind, modD, modS in E.
  apply IH in E as (Hst & Hp & Hov); [|exact Hnd].
  cbn [txdata set_data overlay with_overlay] in Hov. unfold stored, frozen in *.
  cbn [txdata set_data reads with_overlay s_id] in Hst.
  assert (Hps : pending s1 = pending s) by congruence.
  change (pending (set_data _ s1)) with (pending s1) in Hp.
  split; [congruence|]. split; [congruence|]. intros u. specialize (Hov u). cbn [list_to_map foldr fst snd].
  destruct (decide (u = t)) as [->|Hne].
  - rewrite lookup_insert_eq. rewrite (not_elem_of_list_to_map_1 _ _ Hnt) in Hov.
    rewrite lookup_insert_eq in Hov. eauto.
  - rewrite lookup_insert_ne by congruence. cbn in Hov. destruct (list_to_map l !! u) as [us|].
    + destruct Hov as (us' & Hu & Hr). exists us'. split; [exact Hu|]. now apply (entries_pending s1).
    + rewrite Hov, lookup_insert_ne by congruence. congruence.
Qed.

Lemma defaults_spec s w s' w' :
  applyOverlaySchemaDefaults db ev s w = (Done (), (s', w')) ->
  stored s' w' = stored s w /\ pending s' = pending s /\
  overlay_complete s (overlay (txdata s)) (overlay (txdata s')).
Proof.
  unfold applyOverlaySchemaDefaults, mbind, SM_bind, getS. cbv beta iota. intros E.
  apply complete_tables_spec in E as (Hst & Hp & Hov); [|apply NoDup_fst_map_to_list].
  split; [exact Hst|]. split; [exact Hp|]. intros t. specialize (Hov t). rewrite list_to_map_to_list in Hov.
  destruct (overlay (txdata s) !! t) as [es|].
  - destruct Hov as (es' & -> & Hr). now constructor.
  - rewrite Hov. constructor.
Qed.

Lemma stored_complete_tables l : KeepsOn stored (complete_tables db ev l).
Proof.
  induction l as [|[t es] l IH]; cbn [complete_tables]; [apply _|].
  apply keeps_bind; [apply keeps_stored, keeps_completed|]. intros es'. apply keeps_bind; [now intros s w|]. intros; exact IH.
Qed.

Lemma stored_defaults : KeepsOn stored (applyOverlaySchemaDefaults db ev).
Proof. unfold applyOverlaySchemaDefaults. apply keeps_bind; [apply _|]. intros. apply stored_complete_tables. Qed.

(** *** The writes of the catalogue, and the plans *)

Lemma quiet_source_ops d c src acc : Quiet (source_ops db d c src acc).
Proof. destruct acc as [[ops es] b]. unfold source_ops, scanRowsForDDL, renameRowOps. cbv zeta. quiet. Qed.
#[local] Hint Resolve quiet_source_ops : quiet.
Lemma quiet_sources d c l : forall acc, Quiet (all_source_ops db d c l acc).
Proof. induction l; cbn [all_source_ops]; quiet. Qed.
#[local] Hint Resolve quiet_sources : quiet.
Lemma keeps_ddl : Keeps (ddl_writes db). Proof. unfold ddl_writes, commitDataOps. keep. Qed.

Lemma keeps_finalRows t sc : Keeps (finalRows db t sc). Proof. unfold finalRows. keep. Qed.
#[local] Hint Resolve keeps_finalRows : keeps.
Lemma keeps_final_tables l : Keeps (final_tables db l). Proof. induction l; cbn [final_tables]; keep. Qed.
#[local] Hint Resolve keeps_final_tables : keeps.
Lemma keeps_final_state c : Keeps (validateForeignKeyFinalState db c).
Proof. unfold validateForeignKeyFinalState. keep. Qed.
Lemma keeps_plan_unique ddl l : Keeps (plan_unique db ev ddl l).
Proof. induction l; cbn [plan_unique]; unfold getD; keep. Qed.
Lemma keeps_plan_caches ddl l : Keeps (plan_caches db ev ddl l). Proof. induction l; cbn [plan_caches]; keep. Qed.
Lemma keeps_gens : Keeps validate_gens. Proof. unfold validate_gens. keep. Qed.
#[local] Hint Resolve keeps_ddl keeps_final_state keeps_plan_unique keeps_plan_caches keeps_gens : keeps.

Lemma keeps_validate b c u : Keeps (validate db ev b c u). Proof. unfold validate. keep. Qed.

(** All that comes before the batch. *)
Lemma stored_prepare b : KeepsOn stored (prepare db ev b).
Proof.
  unfold prepare. apply keeps_bind; [apply keeps_stored, keeps_enter|]. intros cu.
  apply keeps_bind; [apply stored_defaults|]. intros _. apply keeps_stored, keeps_validate.
Qed.

Lemma prepare_spec b s w p s' w' : prepare db ev b s w = (Done p, (s', w')) ->
  stored s' w' = stored s w /\
  overlay_complete s (overlay (txdata s)) (overlay (txdata s')).
Proof.
  unfold prepare, mbind, SM_bind. pose proof (keeps_enter b s w) as He.
  destruct (enter db b s w) as [[cu|e|] [s1 w1]]; try discriminate. cbn [fst snd] in He.
  destruct (applyOverlaySchemaDefaults db ev s1 w1) as [[[]|e|] [s2 w2]] eqn:E; try discriminate.
  apply defaults_spec in E as (Hst & Hp & Hov). pose proof (keeps_validate b cu.1 cu.2 s2 w2) as Hv.
  intros Ev. rewrite Ev in Hv. cbn [fst snd] in Hv. unfold frozen, stored in *.
  split; [congruence|]. assert (overlay (txdata s1) = overlay (txdata s)) as Ho by congruence.
  assert (overlay (txdata s') = overlay (txdata s2)) as -> by congruence. rewrite Ho in Hov.
  eapply map_Forall2_impl; [exact Hov|]. intros t es es'. apply entries_pending. congruence.
Qed.

(** Without staged DDL there is none to write. *)
Lemma prepare_ddl b s w ddl us ps s' w' :
  prepare db ev b s w = (Done (ddl, us, ps), (s', w')) -> b = false -> ddl_ops ddl = [].
Proof.
  intros E ->. unfold prepare, mbind, SM_bind in E.
  destruct (enter db false s w) as [[cu|e|] [s1 w1]]; try discriminate.
  destruct (applyOverlaySchemaDefaults db ev s1 w1) as [[[]|e|] [s2 w2]]; try discriminate.
  unfold validate, mbind, SM_bind in E.
  destruct (validate_gens s2 w2) as [[[]|e|] [s3 w3]]; try discriminate. cbn [mret SM_ret] in E.
  destruct ((if decide (cu.1 = ∅) then mret () else validateForeignKeyFinalState db cu.1) s3 w3) as [[[]|e|] [s4 w4]]; try discriminate.
  destruct (plan_unique _ _ _ _ s4 w4) as [[us'|e|] [s5 w5]]; try discriminate. unfold getS in E.
  destruct (plan_caches _ _ _ _ s5 w5) as [[ps'|e|] [s6 w6]]; try discriminate.
  injection E as <- _ _ _ _. reflexivity.
Qed.
End Prepare.

#[export] Hint Resolve keeps_recordRead keeps_getSchema keeps_listTables keeps_getIndex keeps_listIndexes keeps_indexes_of
  keeps_getSchemaLocked keeps_ListTableIndexes_s keeps_build keeps_catalog keeps_begin_write : keeps.

(** ** The batch *)

Section Batch.
Context `{Json} (db : string) (ev : Evaluators).

(** The commit number of a key, 0 when it is not there. *)
Definition lsn_at (st : Store) (key : string) : N := match rows st !! key with Some (_, l) => l | None => 0%N end.

Lemma check_current (st : Store) (key : string) (n : N) : spec_check st (check key n) = true -> lsn_at st key = n.
Proof.
  unfold spec_check, lsn_at, check. cbn [c_Key c_LSN]. rewrite string_of_bytes.
  destruct (rows st !! key) as [[v l]|]; rewrite N.eqb_eq; congruence.
Qed.

Lemma refuse_cases (checks : list CompareCheck) (ops : list BatchOp) (st st' : Store) r :
  refuse_or_spec (OCompareBatchWrite checks ops []) st = (r, st') ->
  (st' = st /\ (forall lsn, r <> Done (ACas lsn true)) /\ forall a, r = Done a -> exists lsn b, a = ACas lsn b) \/
  (forallb (spec_check st) checks = true /\ st' = spec_commit st ops /\ r = Done (ACas (clock st') true)).
Proof.
  unfold refuse_or_spec. destruct (allowed _); [|intros [= <- <-]; left; repeat split; congruence].
  unfold spec. destruct (forallb (spec_check st) checks).
  - intros [= <- <-]. right. repeat split.
  - intros [= <- <-]. left. split; [reflexivity|]. split; [congruence|]. intros a [= <-]. eauto.
Qed.

(** Refused or lost before the server acts, and nothing is written; or all of it is. *)
Lemma compare_cases (checks : list CompareCheck) (ops : list BatchOp) (w w' : World) r :
  kv_compare checks ops w = (r, w') ->
  (store w' = store w /\ forall lsn, r <> Done (lsn, true)) \/
  (forallb (spec_check (store w)) checks = true /\ store w' = spec_commit (store w) ops /\
   (r = Done (clock (store w'), true) \/ exists e, r = Fail_ (EKV e))).
Proof.
  unfold kv_compare, mbind, M_bind, kv.
  destruct (refuse_or_spec (OCompareBatchWrite checks ops []) (store w)) as [rr st] eqn:E.
  apply refuse_cases in E.
  assert (Ho : forall w1, store w1 = store w -> (match rr with
                | Done a => match a with ACas lsn ok => (Done (lsn, ok), set_store st w1) | _ => (Done (0%N, false), set_store st w1) end
                | Fail_ e => (Fail_ e, set_store st w1)
                | Panic => (Panic, set_store st w1)
                end) = (r, w') ->
    (store w' = store w /\ forall lsn, r <> Done (lsn, true)) \/
    (forallb (spec_check (store w)) checks = true /\ store w' = spec_commit (store w) ops /\
     (r = Done (clock (store w'), true) \/ exists e, r = Fail_ (EKV e)))).
  { intros w1 Hw1 E'. destruct E as [(-> & Hn & Ha)|(Hc & -> & ->)].
    - left. destruct rr as [a|e|]; [|injection E' as <- <-; now split|injection E' as <- <-; now split].
      destruct (Ha a eq_refl) as (lsn & b & ->). injection E' as <- <-. split; [reflexivity|].
      intros lsn' [= -> ->]. now destruct (Hn lsn').
    - injection E' as <- <-. right. split; [exact Hc|]. split; [reflexivity|]. now left. }
  destruct (faults w) as [|[|e|e] fs].
  - intros E'. apply (Ho w); [reflexivity|]. rewrite <- E'. destruct rr as [[]| |]; reflexivity.
  - intros E'. apply (Ho (set_faults fs w)); [reflexivity|]. rewrite <- E'. destruct rr as [[]| |]; reflexivity.
  - intros [= <- <-]. left. now split.
  - intros [= <- <-]. destruct E as [(-> & _ & _)|(Hc & -> & _)]; [left; now split|].
    right. split; [exact Hc|]. split; [reflexivity|]. right. eauto.
Qed.

Definition never_fails {A} (m : M A) : Prop := forall w e, (m w).1 <> Fail_ e.

Lemma never_bind {A B} (m : M A) (k : A -> M B) : never_fails m -> (forall a, never_fails (k a)) -> never_fails (mbind k m).
Proof.
  intros Hm Hk w e. specialize (Hm w). unfold mbind, M_bind. destruct (m w) as [[a|e'|] w']; cbn in *; [apply Hk|now destruct (Hm e')|easy].
Qed.

Lemma add_values_ok id vs : forall c e, add_values id vs c <> Fail_ e.
Proof.
  induction vs as [|[n v] vs IH]; intros c e; cbn [add_values]; [easy|]. unfold add_value.
  destruct (indexCache c !! n); [|easy]. destruct (indexRowValues c !! n); [|easy]. apply IH.
Qed.

Lemma remember_ok t rs : forall c e, remember_rows t rs c <> Fail_ e.
Proof.
  induction rs as [|r rs IH]; intros c e; cbn [remember_rows]; [easy|]. unfold remember_row.
  destruct (rc_absent r); [apply IH|]. destruct (rowKeyCache c !! t); [|easy]. destruct (keyRowCache c !! t); [|easy].
  match goal with |- mbind _ ?m <> _ => destruct m as [c'|e'|] eqn:E end; [apply IH| |easy].
  now apply add_values_ok in E.
Qed.

Lemma publish_tables_ok us ps ts : forall m e, publish_tables us ps ts m <> Fail_ e.
Proof.
  induction ts as [|t ts IH]; intros m e; cbn [publish_tables]; [easy|]. unfold publish_table.
  destruct (ps !! t) as [plan|]; [|apply IH]. unfold applyTableCache.
  destruct (remember_rows _ _ _) as [c|e'|] eqn:E; [apply IH|now apply remember_ok in E|easy].
Qed.

Lemma publish_never_fails d ddl b us ps : never_fails (publish db ev d ddl b us ps).
Proof.
  unfold publish. apply never_bind.
  - intros w e. unfold publish_rows, mbind, M_bind, gets, lift, modify_tm, modify. cbn.
    destruct (publish_tables us ps (written_tables d) (tm w)) as [m|e'|] eqn:E; try easy. now apply publish_tables_ok in E.
  - intros _. destruct b; [|easy]. apply never_bind; [now intros w e|]. intros _.
    unfold publishCommittedIndexes. apply never_bind.
    { intros w e. unfold attempt. now destruct (ListIndexes db w) as [[]?]. }
    intros r. generalize (list_to_set (C := gset string) (map ToLower match r with inl l => l | inr _ => [] end)) as known.
    intros known. induction (ddl_indexes ddl) as [|i l IH]; cbn [each]; [now intros w e|]. apply never_bind; [|intros; exact IH].
    unfold reset_index. destruct (negb _); [now intros w e|]. apply never_bind.
    { intros w e. unfold attempt. now destruct (GetIndex db i w) as [[]?]. }
    intros [x|x]; [|now intros w e]. apply never_bind; [|now intros ? w e].
    intros w e. unfold attempt. now destruct (BuildIndex db ev _ _ _ w) as [[]?].
Qed.

Lemma quiet_reset_index known i : Quiet (reset_index db ev known i). Proof. unfold reset_index. quiet. Qed.
#[local] Hint Resolve quiet_reset_index : quiet.
Lemma quiet_publish d ddl b us ps : Quiet (publish db ev d ddl b us ps).
Proof. unfold publish, publish_rows, publishCommittedCatalog, publishCommittedIndexes. quiet. Qed.

Lemma quiet_distrust d ddl b : Quiet (distrust d ddl b). Proof. unfold distrust. quiet. Qed.

Lemma distrust_done d ddl b w : exists w', distrust d ddl b w = (Done (), w').
Proof. unfold distrust. destruct b; cbn; eauto. Qed.

(** The batch and what follows it in the same words. *)
Lemma send_cases d ddl b checks ops (w w' : World) r :
  send d ddl b checks ops w = (r, w') ->
  (store w' = store w /\ forall lsn, r <> Done lsn) \/
  (forallb (spec_check (store w)) checks = true /\ store w' = spec_commit (store w) ops /\
   (r = Done (clock (store w')) \/ exists e, r = Fail_ (EKV e))).
Proof.
  unfold send, mbind at 1, M_bind at 1, attempt. intros E.
  destruct (kv_compare checks ops w) as [rc w1] eqn:Ec. apply compare_cases in Ec.
  assert (Hd : forall e' w2 A (k : () -> M A), (forall u w, k u w = (Fail_ e', w)) ->
    forall r, (mbind k (distrust d ddl b)) w1 = (r, w2) -> r = Fail_ e' /\ store w2 = store w1).
  { intros e' w2 A k Hk r0. unfold mbind, M_bind. destruct (distrust_done d ddl b w1) as [w3 Hw3].
    pose proof (quiet_distrust d ddl b w1) as Hq. rewrite Hw3 in *. rewrite Hk. intros [= <- <-]. now split. }
  destruct rc as [[lsn [|]]|e|]; cbn in E.
  - injection E as <- <-. destruct Ec as [[_ Hn]|(Hc & Hs & Hr)]; [now destruct (Hn lsn)|].
    right. split; [exact Hc|]. split; [exact Hs|]. left. destruct Hr as [[= ->]|[e [=]]]. reflexivity.
  - apply (Hd (ErrSerialization EmptyString)) in E as [-> Hs]; [|reflexivity].
    destruct Ec as [[Hs' _]|(_ & _ & [Hr|[e Hr]])]; try congruence. left. split; [congruence|easy].
  - apply (Hd e) in E as [-> Hs]; [|reflexivity]. destruct Ec as [[Hs' _]|(Hc & Hs' & [Hr|[e' Hr]])]; try congruence.
    + left. split; [congruence|easy].
    + right. split; [exact Hc|]. split; [congruence|]. right. exists e'. congruence.
  - injection E as <- <-. destruct Ec as [[Hs' _]|(Hc & Hs' & [Hr|[e' Hr]])]; try congruence. left. split; [congruence|easy].
Qed.
End Batch.

(** ** What a commit publishes *)

Section Atomic.
Context `{Json} (db : string) (ev : Evaluators).

(** The transaction stages DDL. *)
Definition stages_ddl (s : Session) : bool := match schemaTx s with Some t => hasDDL (cat t) | None => false end.

Definition staged_list (o : gmap string (gmap string overlayEntry)) : list (string * overlayEntry) :=
  flat_map (fun te => map_to_list te.2) (map_to_list o).

(** One batch takes the store from [st] to [st']: it writes the completed rows, and the catalogue if
    DDL is staged; every key that was read is unchanged. *)
Record published (s : Session) (st st' : Store) : Prop := {
  pub_current : forall key n, reads (txdata s) !! key = Some n -> lsn_at st key = n;
  pub_batch : exists o own ddl ops,
    overlay_complete s (overlay (txdata s)) o /\ entry_ops (staged_list o) = Done own /\
    ops ≡ₚ own ++ ddl /\ (stages_ddl s = false -> ddl = []) /\ st' = spec_commit st ops }.

Definition nothing_staged (s : Session) : Prop := forall t es, overlay (txdata s) !! t = Some es -> es = ∅.

Lemma staged_list_nil (o : gmap string (gmap string overlayEntry)) (t : string) (es : gmap string overlayEntry) :
  staged_list o = [] -> o !! t = Some es -> es = ∅.
Proof.
  intros Hnil Hes. apply map_eq. intros k. rewrite lookup_empty. destruct (es !! k) as [e|] eqn:Ee; [|reflexivity].
  exfalso. assert (Hin : In (k, e) (staged_list o)); [|rewrite Hnil in Hin; inversion Hin].
  apply in_flat_map. exists (t, es). split; apply list_elem_of_In, elem_of_map_to_list; assumption.
Qed.

Lemma entry_ops_length l : forall ops, entry_ops l = Done ops -> length ops = length l.
Proof.
  induction l as [|ke l IH]; intros ops E; cbn [entry_ops] in E; res_inv; [reflexivity|]. cbn. f_equal. now apply IH.
Qed.

(** A batch of a transaction without writes is empty, and then nothing was staged. *)
Lemma no_ops_nothing (s : Session) o own ddl :
  overlay_complete s (overlay (txdata s)) o -> entry_ops (staged_list o) = Done own ->
  merge_sort op_le (own ++ ddl) = [] -> nothing_staged s.
Proof.
  intros Ho Eown Enil t es Hes. assert (Hl : length (own ++ ddl) = 0).
  { rewrite <- (Permutation_length (merge_sort_Permutation op_le (own ++ ddl))), Enil. reflexivity. }
  rewrite length_app in Hl. apply entry_ops_length in Eown. assert (Hs : staged_list o = []) by (apply nil_length_inv; lia).
  specialize (Ho t). rewrite Hes in Ho. inversion Ho as [? es' Hc Ex Ey|]; subst.
  symmetry in Ey. pose proof (staged_list_nil o t es' Hs Ey) as ->.
  apply map_eq. intros k. rewrite lookup_empty. specialize (Hc k). rewrite lookup_empty in Hc. now inversion Hc.
Qed.

(** The body of a commit: the store is as it was, or the transaction is published. *)
Lemma body_cases (s s' : Session) (w w' : World) r :
  commit_body db ev s w = (r, (s', w')) ->
  s_id s' = s_id s /\
  ((store w' = store w /\ forall lsn, r = Done lsn -> lsn = 0%N /\ nothing_staged s) \/
   (published s (store w) (store w') /\ (r = Done (clock (store w')) \/ (exists e, r = Fail_ (EKV e)) \/ r = Panic))).
Proof.
  unfold commit_body. unfold mbind at 1, SM_bind at 1, getT. destruct (schemaTx s) as [t|] eqn:Et.
  2:{ intros [= <- <- <-]. split; [reflexivity|]. left. now split. }
  unfold mbind at 1, SM_bind at 1.
  pose proof (stored_prepare db ev (hasDDL (cat t)) s w) as Hst. pose proof (prepare_spec db ev (hasDDL (cat t)) s w) as Hsp.
  pose proof (prepare_ddl db ev (hasDDL (cat t)) s w) as Hddl.
  destruct (prepare db ev (hasDDL (cat t)) s w) as [[p|e|] [s1 w1]]; cbn [fst snd] in Hst; unfold stored in Hst.
  2,3: intros [= <- <- <-]; split; [congruence|]; left; (split; [congruence|easy]).
  destruct (Hsp p s1 w1 eq_refl) as (_ & Ho). destruct p as [[ddl us] ps]. specialize (Hddl _ _ _ _ _ eq_refl).
  unfold getS, lift_res. unfold mbind at 1, SM_bind at 1. unfold mbind at 1, SM_bind at 1.
  change (overlay_list (txdata s1)) with (staged_list (overlay (txdata s1))).
  destruct (entry_ops (staged_list (overlay (txdata s1)))) as [own|e|] eqn:Eown.
  2,3: intros [= <- <- <-]; split; [congruence|]; left; (split; [congruence|easy]).
  destruct (merge_sort op_le (own ++ ddl_ops ddl)) as [|op0 ops0] eqn:Eops.
  { intros [= <- <- <-]. split; [congruence|]. left. split; [congruence|]. intros lsn [= <-].
    split; [reflexivity|]. eapply no_ops_nothing; eauto. }
  rewrite <- Eops. set (ops := merge_sort op_le (own ++ ddl_ops ddl)) in *. clear Eops op0 ops0.
  destruct (too_large ops).
  { intros [= <- <- <-]. split; [congruence|]. left. split; [congruence|easy]. }
  unfold mbind at 1, SM_bind at 1, liftM at 1.
  set (checks := merge_sort check_le _).
  destruct (send (txdata s1) ddl (hasDDL (cat t)) checks ops w1) as [rs w2] eqn:Es. apply send_cases in Es.
  assert (Hpub : forallb (spec_check (store w1)) checks = true -> published s (store w) (spec_commit (store w) ops)).
  { intros Hc. split.
    - intros key n Hn. apply check_current. assert (store w = store w1) as -> by congruence.
      rewrite forallb_forall in Hc. apply Hc, list_elem_of_In. unfold checks.
      rewrite (merge_sort_Permutation check_le), elem_of_app. left. unfold read_checks.
      apply list_elem_of_fmap. exists (key, n). split; [reflexivity|]. apply elem_of_map_to_list.
      assert (reads (txdata s1) = reads (txdata s)) as -> by congruence. exact Hn.
    - exists (overlay (txdata s1)), own, (ddl_ops ddl), ops. repeat split; auto.
      + unfold ops. apply merge_sort_Permutation.
      + unfold stages_ddl. rewrite Et. intros E. now apply Hddl. }
  destruct rs as [lsn|e|].
  - destruct Es as [[_ Hn]|(Hc & Hs & Hr)]; [now destruct (Hn lsn)|].
    unfold mbind at 1, SM_bind at 1, liftM.
    pose proof (quiet_publish db ev (txdata s1) ddl (hasDDL (cat t)) us ps w2) as Hq.
    pose proof (publish_never_fails db ev (txdata s1) ddl (hasDDL (cat t)) us ps w2) as Hnf.
    destruct (publish db ev (txdata s1) ddl (hasDDL (cat t)) us ps w2) as [[[]|e|] w3]; cbn [fst snd] in Hq, Hnf.
    + intros [= <- <- <-]. split; [congruence|]. right.
      rewrite Hq. split; [rewrite Hs; replace (store w1) with (store w) by congruence; now apply Hpub|].
      left. f_equal. destruct Hr as [[= ->]|[e [=]]]. reflexivity.
    + now destruct (Hnf e).
    + intros [= <- <- <-]. split; [congruence|]. right. rewrite Hq.
      split; [rewrite Hs; replace (store w1) with (store w) by congruence; now apply Hpub|]. now right; right.
  - intros [= <- <- <-]. split; [congruence|]. destruct Es as [[Hs _]|(Hc & Hs & Hr)].
    + left. split; [congruence|easy].
    + right. split; [rewrite Hs; replace (store w1) with (store w) by congruence; now apply Hpub|].
      right. left. destruct Hr as [[=]|[e' [= ->]]]. eauto.
  - intros [= <- <- <-]. split; [congruence|]. destruct Es as [[Hs _]|(Hc & Hs & [[=]|[e' [=]]])].
    left. split; [congruence|easy].
Qed.

(** The body of the commit decides. *)
Lemma commit_body_of (s s' : Session) (w w' : World) r : inTx s = true -> aborted s = false ->
  CommitWithLSN db ev s w = (r, (s', w')) ->
  exists s1 w1, commit_body db ev s w = (r, (s1, w1)) /\ store w' = store w1 /\
    (r <> Panic -> s' = NewSession (s_id s1)).
Proof.
  intros Hin Ha. unfold CommitWithLSN, mbind, SM_bind, getS, id. cbv beta iota. rewrite Hin, Ha. cbn [negb].
  unfold attemptS. destruct (commit_body db ev s w) as [rb [s1 w1]].
  destruct rb as [lsn|e|]; cbn; intros [= <- <- <-]; exists s1, w1; easy.
Qed.

(** What a commit does to the store and to the session, on every way out. *)
Lemma commit_cases (s s' : Session) (w w' : World) r : inTx s = true ->
  CommitWithLSN db ev s w = (r, (s', w')) ->
  match r with
  | Done lsn => s' = NewSession (s_id s) /\
      ((lsn = 0%N /\ store w' = store w /\ nothing_staged s) \/
       (published s (store w) (store w') /\ lsn = clock (store w')))
  | Fail_ e => s' = NewSession (s_id s) /\
      (store w' = store w \/ (published s (store w) (store w') /\ exists ke, e = EKV ke))
  | Panic => store w' = store w \/ published s (store w) (store w')
  end.
Proof.
  intros Hin E. destruct (aborted s) eqn:Ha.
  { unfold CommitWithLSN, mbind, SM_bind, getS, id in E. rewrite Hin, Ha in E. cbn in E. injection E as <- <- <-.
    split; [reflexivity|]. now left. }
  apply commit_body_of in E as (s1 & w1 & E & -> & Hr); [|exact Hin|exact Ha]. apply body_cases in E as [Hid E].
  destruct r as [lsn|e|]; try (rewrite Hr, Hid by easy).
  - split; [reflexivity|]. destruct E as [[Hs Hn]|[Hp Hl]]; [left|right].
    + destruct (Hn lsn eq_refl) as [-> Hno]. auto.
    + split; [exact Hp|]. destruct Hl as [[= ->]|[[? [=]]|[=]]]. reflexivity.
  - split; [reflexivity|]. destruct E as [[Hs _]|[Hp [[=]|[[ke [= ->]]|[=]]]]]; eauto.
  - destruct E as [[Hs _]|[Hp _]]; auto.
Qed.

(** C1: a commit is atomic.  When it succeeds, either nothing was staged and the store is as it was,
    or one batch has taken the store to the staged state, with every key that the transaction read
    unchanged since, and its commit number is the result.  When it fails, the store is as it was;
    only if the error is one of the connection to the store can the same batch have been applied.
    The transaction is over in both cases. *)
Theorem commit_atomic (s s' : Session) (w w' : World) r : inTx s = true ->
  CommitWithLSN db ev s w = (r, (s', w')) ->
  match r with
  | Done lsn => s' = NewSession (s_id s) /\
      ((lsn = 0%N /\ store w' = store w /\ nothing_staged s) \/
       (published s (store w) (store w') /\ lsn = clock (store w')))
  | Fail_ e => s' = NewSession (s_id s) /\
      (store w' = store w \/ (published s (store w) (store w') /\ exists ke, e = EKV ke))
  | Panic => store w' = store w \/ published s (store w) (store w')
  end.
Proof. apply commit_cases. Qed.

(** ** The rows after a commit *)

Definition op_key (op : BatchOp) : string := string_of (b_Key op).

Lemma spec_apply_other lsn m op k : op_key op <> k -> spec_apply lsn m op !! k = m !! k.
Proof.
  intros Hk. unfold spec_apply, op_key in *. case_decide; [now apply lookup_insert_ne|now apply lookup_delete_ne].
Qed.

Lemma spec_apply_own lsn m m' op : spec_apply lsn m op !! op_key op = spec_apply lsn m' op !! op_key op.
Proof. unfold spec_apply, op_key. case_decide; now rewrite ?lookup_insert_eq, ?lookup_delete_eq. Qed.

(** Each key is written by the one operation on it. *)
Lemma batch_lookup lsn (ops : list BatchOp) : forall m, NoDup (map op_key ops) ->
  (forall op, op ∈ ops -> fold_left (spec_apply lsn) ops m !! op_key op = spec_apply lsn ∅ op !! op_key op) /\
  (forall k, k ∉ map op_key ops -> fold_left (spec_apply lsn) ops m !! k = m !! k).
Proof.
  induction ops as [|op ops IH]; intros m Hnd; cbn [fold_left map] in *.
  { split; [intros op Hop; inversion Hop|reflexivity]. }
  apply NoDup_cons in Hnd as [Hn Hnd]. destruct (IH (spec_apply lsn m op) Hnd) as [IH1 IH2]. split.
  - intros op' [->|Hop']%elem_of_cons; [|now apply IH1]. rewrite IH2 by exact Hn. apply spec_apply_own.
  - intros k Hk. apply not_elem_of_cons in Hk as [Hk1 Hk2]. rewrite IH2 by exact Hk2.
    apply spec_apply_other. congruence.
Qed.

Lemma entry_op_key ke op : entry_op ke = Done op -> op_key op = ke.1.
Proof.
  unfold entry_op. destruct (absent ke.2); intros E; res_inv; unfold op_key; cbn; apply string_of_bytes.
Qed.

Lemma entry_ops_spec l : forall ops, entry_ops l = Done ops ->
  map op_key ops = l.*1 /\ forall ke, ke ∈ l -> exists op, op ∈ ops /\ entry_op ke = Done op.
Proof.
  induction l as [|ke l IH]; intros ops E; cbn [entry_ops] in E; res_inv.
  - split; [reflexivity|]. intros ke Hke. inversion Hke.
  - destruct (IH _ ltac:(eassumption)) as [Hk Hl]. cbn. rewrite Hk. split; [f_equal; now apply entry_op_key|].
    intros ke' [->|Hke']%elem_of_cons; [eexists; split; [left|eassumption]|].
    destruct (Hl ke' Hke') as (op & Hop & E'). exists op. split; [now right|exact E'].
Qed.

Lemma in_staged_list o k e :
  (k, e) ∈ staged_list o <-> exists t es, o !! t = Some es /\ es !! k = Some e.
Proof.
  unfold staged_list. rewrite list_elem_of_In, in_flat_map. split.
  - intros ([t es] & Ht & Hk). exists t, es. cbn in Hk.
    apply list_elem_of_In, elem_of_map_to_list in Ht, Hk. easy.
  - intros (t & es & Ht & Hk). exists (t, es). cbn. rewrite <- !list_elem_of_In, !elem_of_map_to_list. easy.
Qed.

(** A data key is staged for one table only. *)
Definition keys_apart (o : gmap string (gmap string overlayEntry)) : Prop :=
  forall t1 t2 es1 es2 k e1 e2, o !! t1 = Some es1 -> o !! t2 = Some es2 ->
    es1 !! k = Some e1 -> es2 !! k = Some e2 -> t1 = t2.

Lemma staged_list_NoDup o : keys_apart o -> NoDup (staged_list o).*1.
Proof.
  intros Ho. assert (Hb : (staged_list o).*1 = map_to_list o ≫= (fun te => (map_to_list te.2).*1)).
  { unfold staged_list. induction (map_to_list o) as [|te l IH]; [reflexivity|].
    cbn [flat_map]. rewrite fmap_app, IH. reflexivity. }
  rewrite Hb. apply NoDup_bind.
  - intros [t1 es1] [t2 es2] k H1 H2 Hk1 Hk2. cbn in Hk1, Hk2.
    apply list_elem_of_fmap in Hk1 as ([k1 e1] & -> & Hk1), Hk2 as ([k2 e2] & E & Hk2). cbn in E, Hk1, Hk2. subst k2.
    apply elem_of_map_to_list in H1, H2, Hk1, Hk2.
    assert (t1 = t2) as -> by (eapply Ho; eassumption). congruence.
  - intros [t es] _. apply NoDup_fst_map_to_list.
  - apply NoDup_map_to_list.
Qed.

Lemma complete_back s o o' t es' k e' : overlay_complete s o o' -> o' !! t = Some es' -> es' !! k = Some e' ->
  exists es e, o !! t = Some es /\ es !! k = Some e /\ completes s t e e'.
Proof.
  intros Ho Ht Hk. specialize (Ho t). rewrite Ht in Ho. inversion Ho as [es ? Hes Ex Ey|]; subst.
  specialize (Hes k). rewrite Hk in Hes. inversion Hes as [e ? He Ex' Ey'|]; subst. eauto.
Qed.

Lemma complete_forth s o o' t es k e : overlay_complete s o o' -> o !! t = Some es -> es !! k = Some e ->
  exists es' e', o' !! t = Some es' /\ es' !! k = Some e' /\ completes s t e e'.
Proof.
  intros Ho Ht Hk. specialize (Ho t). rewrite Ht in Ho. inversion Ho as [? es' Hes Ex Ey|]; subst.
  specialize (Hes k). rewrite Hk in Hes. inversion Hes as [? e' He Ex' Ey'|]; subst. eauto.
Qed.

(** C2: a commit without DDL publishes exactly the staged rows: a key that is not staged keeps its
    row, a staged deletion leaves no row, and a staged row is there under the number of the commit
    with every field it was staged with. *)
Theorem commit_exact (s s' : Session) (w w' : World) (lsn : N) : inTx s = true ->
  stages_ddl s = false -> keys_apart (overlay (txdata s)) ->
  CommitWithLSN db ev s w = (Done lsn, (s', w')) ->
  (forall k, (forall t, staged_entry (txdata s) t k = None) -> rows (store w') !! k = rows (store w) !! k) /\
  forall t k e, staged_entry (txdata s) t k = Some e ->
    if absent e then rows (store w') !! k = None
    else exists r data, applyStagedRewrites s t (row e) ⊆ r /\ encode r = Done data /\
           rows (store w') !! k = Some (data, lsn).
Proof.
  intros Hin Hddl Hapart E.
  destruct (aborted s) eqn:Ha.
  { unfold CommitWithLSN, mbind, SM_bind, getS, id in E. rewrite Hin, Ha in E. discriminate. }
  apply commit_body_of in E as (s1 & w1 & E & -> & _); [|exact Hin|exact Ha].
  apply body_cases in E as [_ [[Hs Hno]|[Hp [[= ->]|[[? [=]]|[=]]]]]].
  { destruct (Hno lsn eq_refl) as [_ Hno']. clear Hno. rename Hno' into Hno. split; [congruence|]. intros t k e He. unfold staged_entry, staged_rows in He.
    destruct (overlay (txdata s) !! t) as [es|] eqn:Et; cbn in He; [|now rewrite lookup_empty in He].
    rewrite (Hno t es Et), lookup_empty in He. discriminate. }
  destruct Hp as [_ (o & own & ddl & ops & Ho & Eown & Hops & Hd & Hst)]. specialize (Hd Hddl) as ->.
  rewrite app_nil_r in Hops. destruct (entry_ops_spec _ _ Eown) as [Hkeys Hown].
  assert (Hoa : keys_apart o).
  { intros t1 t2 es1 es2 k e1 e2 H1 H2 Hk1 Hk2.
    destruct (complete_back _ _ _ _ _ _ _ Ho H1 Hk1) as (? & ? & ? & ? & _).
    destruct (complete_back _ _ _ _ _ _ _ Ho H2 Hk2) as (? & ? & ? & ? & _). eapply Hapart; eassumption. }
  assert (Hnd : NoDup (map op_key ops)).
  { rewrite Hops, Hkeys. now apply staged_list_NoDup. }
  rewrite Hst. unfold spec_commit. cbn [rows clock].
  destruct (batch_lookup (clock (store w) + 1) ops (rows (store w)) Hnd) as [Hin_b Hout_b]. split.
  - intros k Hk. apply Hout_b. rewrite Hops, Hkeys. intros Hin'. apply list_elem_of_fmap in Hin' as ([k' e'] & -> & Hin').
    apply in_staged_list in Hin' as (t & es' & Ht & Hk'). destruct (complete_back _ _ _ _ _ _ _ Ho Ht Hk') as (es & e & Hes & He & _).
    specialize (Hk t). unfold staged_entry, staged_rows in Hk. rewrite Hes in Hk. cbn in Hk, He. congruence.
  - intros t k e He. unfold staged_entry, staged_rows in He.
    destruct (overlay (txdata s) !! t) as [es|] eqn:Et; cbn in He; [|now rewrite lookup_empty in He].
    destruct (complete_forth _ _ _ _ _ _ _ Ho Et He) as (es' & e' & Ht' & Hk' & Hc).
    destruct (Hown (k, e')) as (op & Hop & Eop); [apply in_staged_list; eauto|].
    pose proof (entry_op_key _ _ Eop) as Hkey. cbn in Hkey. rewrite <- Hkey, Hin_b by now rewrite Hops.
    unfold completes in Hc. unfold entry_op in Eop. cbn [fst snd] in Eop.
    destruct (absent e) eqn:Ea; [subst e'; rewrite Ea in Eop|destruct Hc as [Ha' Hc]; rewrite Ha' in Eop]; res_inv.
    + unfold spec_apply, op_key. cbn. apply lookup_delete_eq.
    + exists (row e'), x. split; [exact Hc|]. split; [assumption|].
      unfold spec_apply, op_key. cbn. apply lookup_insert_eq.
Qed.
End Atomic.

(** ** At work *)

Definition committed : outcome error N * (Session * World) :=
  CommitWithLSN "db" sample_evaluators sample_session.1 sample_session.2.

Lemma sample_apart : keys_apart (overlay (txdata sample_session.1)).
Proof.
  intros t1 t2 es1 es2 k e1 e2 H1 H2 _ _.
  assert (Ho : forall t es, overlay (txdata sample_session.1) !! t = Some es -> t = "t"); [|now rewrite (Ho _ _ H1), (Ho _ _ H2)].
  clear. intros t es Ht. assert (Hin : (t, es) ∈ map_to_list (overlay (txdata sample_session.1))) by now apply elem_of_map_to_list.
  assert (Hall : Forall (fun te => te.1 = "t") (map_to_list (overlay (txdata sample_session.1)))); [vm_compute; repeat constructor|].
  rewrite Forall_forall in Hall. exact (Hall _ Hin).
Qed.

Definition sample_staged : Row := <["_rowid_" := VInt GoInt64 2]> (sample_row 2 "two").

(** The commit of the sample transaction: the batch is written under the number 4. *)
Lemma commit_atomic_witness :
  committed.1 = Done 4%N /\
  published sample_session.1 (store sample_session.2) (store committed.2.2).
Proof.
  assert (Hr : committed.1 = Done 4%N) by (vm_compute; reflexivity). split; [exact Hr|].
  pose proof (commit_atomic "db" sample_evaluators sample_session.1 committed.2.1 sample_session.2 committed.2.2
    committed.1 ltac:(vm_compute; reflexivity) (parts committed)) as Hc.
  rewrite Hr in Hc. destruct Hc as [_ [[He _]|[Hp _]]]; [discriminate|exact Hp].
Defined.

Lemma commit_exact_witness :
  exists data, rows (store committed.2.2) !! "db:_data:t:2" = Some (data, 4%N).
Proof.
  destruct (commit_exact "db" sample_evaluators sample_session.1 committed.2.1 sample_session.2 committed.2.2 4%N
    ltac:(vm_compute; reflexivity) ltac:(vm_compute; reflexivity) sample_apart
    ltac:(vm_compute; reflexivity)) as [_ Hw].
  destruct (Hw "t" "db:_data:t:2" (mkEntry sample_staged false)
    ltac:(vm_compute; reflexivity)) as (r & data & _ & _ & Hd).
  exists data. exact Hd.
Defined.
