(* ===== verification/SessionFacts.v ===== *)
(** * A statement that fails leaves no trace in the staged rows

    The log of a transaction undoes what was staged after a position, and every write of the session
    goes through it. *)
From Stdlib Require Import NArith ZArith Lia Ascii String.
From stdpp Require Import base option list list_numbers gmap sorting strings.
From S2P Require Import Prelude RowLock Bytes RowCodec Float Values Wire KVClient TestKV KVStore Schema UniqueCache TableCache ForeignKey Storage Table SessionState SchemaTx Session AlterTable Commit Sample StorageFacts CommitProps.
#[local] Set Warnings "-clear-no-such-hyp".

(** ** The log *)

Section Log.
Context `{Json}.

(** No table has an empty set of staged rows. *)
Definition tight (o : gmap string (gmap string overlayEntry)) : Prop := forall t es, o !! t = Some es -> es <> ∅.

(** [d'] is [d] with more rows staged, and its log leads back. *)
Definition extends (d d' : TxData) : Prop :=
  tight (overlay d) -> tight (overlay d') /\
  exists muts, log d' = log d ++ muts /\ fold_left undo (rev muts) (overlay d') = overlay d.

Lemma extends_same d d' : overlay d' = overlay d -> log d' = log d -> extends d d'.
Proof. intros Ho Hl Ht. rewrite Ho, Hl. split; [exact Ht|]. exists []. split; [now rewrite app_nil_r|reflexivity]. Qed.

Lemma extends_trans d1 d2 d3 : extends d1 d2 -> extends d2 d3 -> extends d1 d3.
Proof.
  intros H1 H2 Ht. destruct (H1 Ht) as (Ht2 & m1 & Hl1 & Hu1). destruct (H2 Ht2) as (Ht3 & m2 & Hl2 & Hu2).
  split; [exact Ht3|]. exists (m1 ++ m2). split; [now rewrite Hl2, Hl1, app_assoc|].
  now rewrite rev_app_distr, fold_left_app, Hu2.
Qed.

Lemma insert_not_empty (es : gmap string overlayEntry) k e : <[k := e]> es <> ∅.
Proof. apply insert_non_empty. Qed.

(** Undoing the last change gives back the overlay. *)
Lemma undo_stage t k e d : tight (overlay d) ->
  undo (overlay (stage t k e d)) (mkMut (ToLower t) k (staged_entry d (ToLower t) k)) = overlay d.
Proof.
  intros Ht. unfold undo, stage. cbn [m_table m_key m_prev overlay]. set (tl := ToLower t).
  unfold staged_entry, staged_rows. rewrite lookup_insert_eq. cbn [from_option id].
  destruct (overlay d !! tl) as [es|] eqn:Et; cbn [from_option id].
  - destruct (es !! k) as [e0|] eqn:Ek.
    + rewrite !insert_insert_eq, (insert_id es) by exact Ek. now apply insert_id.
    + rewrite delete_insert_id by exact Ek. specialize (Ht tl es Et).
      rewrite decide_False by exact Ht. rewrite insert_insert_eq. now apply insert_id.
  - rewrite lookup_empty. rewrite delete_insert_id by apply lookup_empty.
    rewrite decide_True by reflexivity. now rewrite delete_insert_id.
Qed.

Lemma extends_stage t k e d : extends d (stage t k e d).
Proof.
  intros Ht. split.
  - intros u es. unfold stage. cbn [overlay]. destruct (decide (u = ToLower t)) as [->|Hu].
    + rewrite lookup_insert_eq. intros [= <-]. apply insert_not_empty.
    + rewrite lookup_insert_ne by congruence. apply Ht.
  - exists [mkMut (ToLower t) k (staged_entry d (ToLower t) k)]. split; [reflexivity|]. cbn [rev app fold_left].
    now apply undo_stage.
Qed.

(** The rollback to the position of [d] gives back its rows and its log. *)
Lemma rollback_extends d d' : tight (overlay d) -> extends d d' ->
  overlay (rollbackToLocked (length (log d)) d') = overlay d /\
  log (rollbackToLocked (length (log d)) d') = log d.
Proof.
  intros Ht He. destruct (He Ht) as (_ & muts & Hl & Hu). unfold rollbackToLocked. cbn [overlay log].
  rewrite Hl, drop_app_length, take_app_length. now split.
Qed.

(** ** Operations that only stage *)

Class Stages {A} (m : SM A) : Prop := stages_rows :
  forall s w, (store (m s w).2.2, inTx (m s w).2.1) = (store w, inTx s) /\ extends (txdata s) (txdata (m s w).2.1).

Lemma stages_bind {A B} (m : SM A) (k : A -> SM B) : Stages m -> (forall a, Stages (k a)) -> Stages (mbind k m).
Proof.
  intros Hm Hk s w. specialize (Hm s w). unfold mbind, SM_bind. destruct (m s w) as [[a|e|] [s' w']]; cbn in *; auto.
  destruct (Hk a s' w') as [Hs He], Hm as [Hs' He']. split; [congruence|]. eapply extends_trans; eauto.
Qed.

Lemma stages_keeps {A} (m : SM A) : KeepsOn frozen m -> Stages m.
Proof.
  intros Hm s w. specialize (Hm s w). unfold frozen in Hm. injection Hm as Hs _ _ Ho Hl _ Hi.
  split; [congruence|]. now apply extends_same.
Qed.

Lemma stages_modD f : (forall d, extends d (f d)) -> Stages (modD f).
Proof. intros Hf s w. split; [reflexivity|]. apply Hf. Qed.

Lemma stages_attempt {A} (m : SM A) : Stages m -> Stages (attemptS m).
Proof. intros Hm s w. specialize (Hm s w). unfold attemptS. now destruct (m s w) as [[a|e|] [s' w']]. Qed.

Lemma stages_fold {A B} (f : A -> B -> SM B) (l : list A) : (forall x b, Stages (f x b)) -> forall b, Stages (foldS f l b).
Proof.
  intros Hf. induction l; intros b; cbn [foldS]; [apply stages_keeps, _|]. apply stages_bind; auto.
Qed.

Lemma extends_read key n d : extends d (record_read key n d). Proof. now apply extends_same. Qed.
Lemma extends_scan t g d : extends d (record_scan t g d). Proof. now apply extends_same. Qed.
Lemma extends_predicates t p d : extends d (record_predicates t p d). Proof. now apply extends_same. Qed.
Lemma extends_put t k r d : extends d (stagePut t k r d). Proof. apply extends_stage. Qed.
Lemma extends_delete t k r d : extends d (stageDelete t k r d). Proof. apply extends_stage. Qed.
End Log.

Create HintDb stages discriminated.
#[export] Hint Resolve extends_read extends_scan extends_predicates extends_put extends_delete : stages.

Ltac stages :=
  repeat first
    [ progress intros
    | solve [auto with stages nocore]
    | solve [apply stages_keeps; keep]
    | apply stages_bind
    | apply stages_attempt
    | apply stages_fold
    | apply stages_modD; solve [auto with stages nocore]
    | match goal with |- Stages (match ?x with _ => _ end) => destruct x end ].

Section Statements.
Context `{Json} (db : string) (ev : Evaluators).

Lemma stages_scanned t : Stages (markTableScanned t). Proof. unfold markTableScanned. stages. Qed.
#[local] Hint Resolve stages_scanned : stages.

Lemma stages_getByPK t pk b : Stages (get_by_pk db t pk b). Proof. unfold get_by_pk, getD, rewritten. stages. Qed.
#[local] Hint Resolve stages_getByPK : stages.

Lemma stages_merge t sc staged track f l : Stages (merge_durable db t sc staged track f l).
Proof. induction l; cbn [merge_durable]; unfold rewritten; stages. Qed.
#[local] Hint Resolve stages_merge : stages.

Lemma stages_select t f : Stages (selectLocked db t f). Proof. unfold selectLocked, getD. stages. Qed.
#[local] Hint Resolve stages_select : stages.

(** ** Referential actions *)

Lemma stages_refs t : Stages (referencingForeignKeysLocked db t).
Proof. unfold referencingForeignKeysLocked, in_tx. stages. Qed.
#[local] Hint Resolve stages_refs : stages.

Section Cascade.
Context (t : Z) (run : job -> applied -> SM applied) (Hrun : forall j exp, Stages (run j exp)).
#[local] Hint Resolve Hrun : stages.

Lemma stages_delete_action ref a child exp : Stages (apply_delete_action db ev t run ref a child exp).
Proof. unfold apply_delete_action. stages. Qed.
#[local] Hint Resolve stages_delete_action : stages.
Lemma stages_delete_ref r ref exp : Stages (delete_ref db ev t run r ref exp).
Proof. unfold delete_ref, referencingRows. cbv zeta. stages. Qed.
#[local] Hint Resolve stages_delete_ref : stages.
Lemma stages_delete table key r exp : Stages (stage_delete db ev t run table key r exp).
Proof. unfold stage_delete, cascadeAfterDelete, getD. cbv zeta. stages. Qed.

Lemma stages_update_child ref sc a ok nk pv child exp : Stages (update_child db ev t run ref sc a ok nk pv child exp).
Proof. unfold update_child. cbv zeta. stages. Qed.
#[local] Hint Resolve stages_update_child : stages.
Lemma stages_update_ref o n ref exp : Stages (update_ref db ev t run o n ref exp).
Proof. unfold update_ref, referencingRows. cbv zeta. stages. Qed.
#[local] Hint Resolve stages_update_ref : stages.
Lemma stages_update table o n exp : Stages (stage_update db ev t run table o n exp).
Proof. unfold stage_update, cascadeAfterUpdate, getByPKLocked. cbv zeta. stages. Qed.
End Cascade.

Lemma stages_cascade fuel t : forall j exp, Stages (cascade db ev fuel t j exp).
Proof.
  induction fuel as [|k IH]; intros j exp; cbn [cascade]; [stages|].
  destruct j; [now apply stages_delete|now apply stages_update].
Qed.
#[local] Hint Resolve stages_cascade : stages.

(** ** The statements of a transaction *)

Lemma stages_insert t r : Stages (insertLocked db ev t r).
Proof. unfold insertLocked, getD. stages. Qed.

Lemma stages_not_found {A} (m : SM A) : Stages m -> Stages (not_found m).
Proof. intros. unfold not_found. stages. Qed.

(** The steps of a statement before the rows are staged change neither the rows nor the log, nor do they end the
    transaction. *)
Definition still (s : Session) (w : World) := (store w, overlay (txdata s), log (txdata s), inTx s).

(** What fails inside is undone to the position it started from. *)
Lemma undoing_undone {A} (m : SM A) (s s' : Session) (w w' : World) e : Stages m -> tight (overlay (txdata s)) ->
  undoing (length (log (txdata s))) m s w = (Fail_ e, (s', w')) ->
  still s' w' = still s w.
Proof.
  intros Hm Ht. specialize (Hm s w) as [Hs He]. unfold undoing, mbind, SM_bind, attemptS.
  destruct (m s w) as [[a|er|] [s1 w1]]; cbn in *; try discriminate. intros [= <- <- <-].
  destruct (rollback_extends _ _ Ht He) as [Ho Hl]. unfold still. cbn in *. congruence.
Qed.

Lemma keeps_still {A} (m : SM A) : KeepsOn frozen m -> KeepsOn still m.
Proof. intros Hm s w. specialize (Hm s w). unfold frozen, still in *. congruence. Qed.

Lemma still_modD f : (forall d, overlay (f d) = overlay d /\ log (f d) = log d) -> KeepsOn still (modD f).
Proof. intros Hf s w. unfold modD, modS, still. cbn. now destruct (Hf (txdata s)) as [-> ->]. Qed.

Ltac still :=
  repeat first
    [ progress intros
    | solve [auto with still nocore]
    | solve [apply keeps_still; keep]
    | apply keeps_bind
    | apply keeps_attempt
    | solve [apply still_modD; easy]
    | match goal with |- KeepsOn _ (match ?x with _ => _ end) => destruct x end ].

Create HintDb still discriminated.

Lemma still_scanned t : KeepsOn still (markTableScanned t). Proof. unfold markTableScanned. still. Qed.
#[local] Hint Resolve still_scanned : still.
Lemma still_getByPK t pk b : KeepsOn still (get_by_pk db t pk b). Proof. unfold get_by_pk, getD, rewritten. still. Qed.
#[local] Hint Resolve still_getByPK : still.
Lemma still_merge t sc staged track f l : KeepsOn still (merge_durable db t sc staged track f l).
Proof. induction l; cbn [merge_durable]; unfold rewritten; still. Qed.
#[local] Hint Resolve still_merge : still.
Lemma still_select t f : KeepsOn still (selectLocked db t f). Proof. unfold selectLocked, getD. still. Qed.
Lemma still_not_found {A} (m : SM A) : KeepsOn still m -> KeepsOn still (not_found m).
Proof. intros. unfold not_found. still. Qed.
#[local] Hint Resolve still_select still_not_found : still.

(** Whatever fails leaves the rows and the log. *)
Definition Undone {A} (m : SM A) : Prop :=
  forall s w e s' w', tight (overlay (txdata s)) -> m s w = (Fail_ e, (s', w')) -> still s' w' = still s w.

Lemma undone_still {A} (m : SM A) : KeepsOn still m -> Undone m.
Proof. intros Hm s w e s' w' _ E. specialize (Hm s w). now rewrite E in Hm. Qed.

Lemma undone_bind {A B} (m : SM A) (k : A -> SM B) : KeepsOn still m -> (forall a, Undone (k a)) -> Undone (mbind k m).
Proof.
  intros Hm Hk s w e s' w' Ht. specialize (Hm s w). unfold mbind, SM_bind.
  destruct (m s w) as [[a|er|] [s1 w1]]; cbn in Hm; [|now intros [= _ <- <-]|discriminate].
  intros E. apply Hk in E; [congruence|]. unfold still in Hm. injection Hm as _ Ho _ _. now rewrite Ho.
Qed.

(** A failure of the staging is undone, and nothing fails after it. *)
Lemma undone_staging {A B} (m : Z -> SM A) (b : B) : (forall t, Stages (m t)) ->
  Undone (pos ← Snapshot; t ← liftM (gets now); _ ← undoing pos (m t); mret b).
Proof.
  intros Hm s w e s' w' Ht. unfold mbind, SM_bind, Snapshot, getD, getS, liftM, gets. cbv beta iota.
  destruct (undoing (length (log (txdata s))) (m (now w)) s w) as [[a|er|] [s1 w1]] eqn:E; try discriminate.
  intros [= _ <- <-]. apply undoing_undone in E; [exact E|apply Hm|exact Ht].
Qed.

Lemma undone_staging' {A B} (m : Z -> SM A) (b : B) : (forall t, Stages (m t)) ->
  Undone (t ← liftM (gets now); pos ← Snapshot; _ ← undoing pos (m t); mret b).
Proof. intros Hm s w e s' w' Ht E. exact (undone_staging m b Hm s w e s' w' Ht E). Qed.

(** The writing statements of a transaction. *)
Inductive statement : Type :=
  | SInsert (table : string) (r : Row)
  | SUpdateByPK (table pk : string) (f : Row -> SM Row)
  | SDeleteByPK (table pk : string)
  | SUpdate (table : string) (f : Row -> SM Row) (filter : option (Row -> bool))
  | SDelete (table : string) (filter : option (Row -> bool)).

Definition execute (fuel : nat) (st : statement) : SM () :=
  match st with
  | SInsert t r => _ ← insertLocked db ev t r; mret ()
  | SUpdateByPK t pk f => _ ← updateByPKLocked db ev fuel t pk f; mret ()
  | SDeleteByPK t pk => _ ← deleteByPKLocked db ev fuel t pk; mret ()
  | SUpdate t f filter => _ ← update_func db ev fuel t f filter; mret ()
  | SDelete t filter => _ ← delete_func db ev fuel t filter; mret ()
  end.

(** The callback of an update only reads. *)
Definition callback_reads (st : statement) : Prop :=
  match st with
  | SUpdateByPK _ _ f | SUpdate _ f _ => forall r, KeepsOn still (f r)
  | _ => True
  end.

Lemma undone_ret {A B} (m : SM A) (b : B) : Undone m -> Undone (_ ← m; mret b).
Proof.
  intros Hm s w e s' w' Ht. specialize (Hm s w). unfold mbind, SM_bind.
  destruct (m s w) as [[a|er|] [s1 w1]]; [discriminate| |discriminate]. intros [= <- <- <-]. eapply Hm; eauto.
Qed.

Lemma stages_still {A} (m : SM A) : KeepsOn still m -> Stages m.
Proof.
  intros Hm s w. specialize (Hm s w). unfold still in Hm. split; [congruence|]. apply extends_same; congruence.
Qed.

Lemma undone_insert t r : Undone (insertLocked db ev t r).
Proof.
  unfold insertLocked, getD. repeat (apply undone_bind; [solve [still]|intros ?; cbv beta zeta; try case_match]).
  all: intros ????? _ E; discriminate E.
Qed.

Lemma undone_execute fuel st : callback_reads st -> Undone (execute fuel st).
Proof.
  intros Hcb. destruct st as [t r|t pk f|t pk|t f filter|t filter]; cbn [execute callback_reads] in *; apply undone_ret.
  - apply undone_insert.
  - unfold updateByPKLocked, getByPKLocked. apply undone_bind; [still|intros sc]. apply undone_bind; [still|intros [r|]].
    2:{ apply undone_still. still. }
    apply undone_bind; [auto|intros u]. apply undone_bind; [still|intros _]. apply undone_staging. intros. apply stages_cascade.
  - unfold deleteByPKLocked, getByPKLocked. apply undone_bind; [still|intros [r|]].
    2:{ apply undone_still. still. }
    apply undone_staging. intros. apply stages_cascade.
  - unfold update_func. apply undone_bind; [still|intros sc]. apply undone_bind; [still|intros rs].
    apply undone_staging'. intros z. apply stages_fold. intros r b. unfold update_one.
    apply stages_bind; [now apply stages_still|]. intros u. apply stages_bind; [apply stages_keeps; keep|]. intros.
    apply stages_cascade.
  - unfold delete_func. apply undone_bind; [still|intros sc]. apply undone_bind; [still|intros rs].
    apply undone_staging'. intros z. apply stages_fold. intros r b. unfold delete_one.
    apply stages_bind; [apply stages_keeps; keep|]. intros. apply stages_cascade.
Qed.

(** C12: a statement of a transaction that fails, in its own validation or in the referential actions
    it triggered, however many rows and tables it had already changed, leaves the store, the staged
    rows and their log as they were before it. *)
Theorem failed_statement_undone (fuel : nat) (st : statement) (s s' : Session) (w w' : World) (e : error) :
  tight (overlay (txdata s)) -> callback_reads st -> execute fuel st s w = (Fail_ e, (s', w')) ->
  store w' = store w /\ overlay (txdata s') = overlay (txdata s) /\ log (txdata s') = log (txdata s).
Proof.
  intros Ht Hcb E. apply undone_execute in E; [|exact Hcb|exact Ht]. unfold still in E.
  injection E as -> -> -> _. easy.
Qed.

(** Statements one after the other, whatever becomes of each. *)
Definition attempt_all (fuel : nat) (sts : list statement) : SM () := eachS (fun st => _ ← attemptS (execute fuel st); mret ()) sts.

(** A statement, failed or not, can be undone from the log. *)
Lemma stages_staging {A B} (m : Z -> SM A) (b : B) : (forall t, Stages (m t)) ->
  Stages (pos ← Snapshot; t ← liftM (gets now); _ ← undoing pos (m t); mret b).
Proof.
  intros Hm s w. specialize (Hm (now w) s w) as [Hs He].
  unfold mbind, SM_bind, Snapshot, getD, getS, liftM, gets, undoing, attemptS. cbv beta iota. unfold mbind, SM_bind.
  destruct (m (now w) s w) as [[a|e|] [s1 w1]]; cbn [fst snd] in *; [now split| |now split].
  split; [exact Hs|]. intros Ht. destruct (rollback_extends _ _ Ht He) as [Ho Hl].
  apply extends_same; [exact Ho|exact Hl|exact Ht].
Qed.

Lemma stages_staging' {A B} (m : Z -> SM A) (b : B) : (forall t, Stages (m t)) ->
  Stages (t ← liftM (gets now); pos ← Snapshot; _ ← undoing pos (m t); mret b).
Proof. intros Hm s w. exact (stages_staging m b Hm s w). Qed.

Lemma stages_execute fuel st : callback_reads st -> Stages (execute fuel st).
Proof.
  intros Hcb. destruct st as [t r|t pk f|t pk|t f filter|t filter]; cbn [execute callback_reads] in *;
    (apply stages_bind; [|intros; apply stages_keeps, _]).
  - apply stages_insert.
  - unfold updateByPKLocked, getByPKLocked. apply stages_bind; [stages|intros sc].
    apply stages_bind; [apply stages_not_found, stages_still; still|intros [r|]]; [|stages].
    apply stages_bind; [now apply stages_still|intros u]. apply stages_bind; [apply stages_keeps; keep|intros _].
    apply stages_staging. intros. apply stages_cascade.
  - unfold deleteByPKLocked, getByPKLocked. apply stages_bind; [apply stages_not_found, stages_still; still|intros [r|]]; [|stages].
    apply stages_staging. intros. apply stages_cascade.
  - unfold update_func. apply stages_bind; [stages|intros sc]. apply stages_bind; [apply stages_still; still|intros rs].
    apply stages_staging'. intros z. apply stages_fold. intros r b. unfold update_one.
    apply stages_bind; [now apply stages_still|]. intros u. apply stages_bind; [apply stages_keeps; keep|]. intros.
    apply stages_cascade.
  - unfold delete_func. apply stages_bind; [stages|intros sc]. apply stages_bind; [apply stages_still; still|intros rs].
    apply stages_staging'. intros z. apply stages_fold. intros r b. unfold delete_one.
    apply stages_bind; [apply stages_keeps; keep|]. intros. apply stages_cascade.
Qed.

Lemma stages_attempt_all fuel sts : Forall callback_reads sts -> Stages (attempt_all fuel sts).
Proof.
  unfold attempt_all. induction 1 as [|st sts Hst _ IH]; cbn [eachS]; [apply stages_keeps, _|].
  apply stages_bind; [|intros; exact IH]. apply stages_bind; [|intros; apply stages_keeps, _].
  now apply stages_attempt, stages_execute.
Qed.

(** The statements between a position of the log and the rollback to it. *)
Definition attempt_and_undo (fuel : nat) (sts : list statement) : SM () :=
  pos ← Snapshot; _ ← attempt_all fuel sts; RollbackTo pos.

(** C26: a rollback to a position of the log puts the staged rows and the log back to what they were
    at that position, after any statements in between, those that failed included; neither touches
    the store. *)
Theorem rollback_to_position (fuel : nat) (sts : list statement) (s s' : Session) (w w' : World) :
  tight (overlay (txdata s)) -> Forall callback_reads sts ->
  attempt_and_undo fuel sts s w = (Done (), (s', w')) ->
  store w' = store w /\ overlay (txdata s') = overlay (txdata s) /\ log (txdata s') = log (txdata s).
Proof.
  intros Ht Hcb. destruct (stages_attempt_all fuel sts Hcb s w) as [Hs He].
  unfold attempt_and_undo, mbind, SM_bind, Snapshot, getD, getS. cbv beta iota zeta.
  destruct (attempt_all fuel sts s w) as [[a|e|] [s1 w1]]; cbn [fst snd] in *; [|discriminate|discriminate].
  injection Hs as Hs _.
  unfold RollbackTo, mbind, SM_bind, modD, modS. intros [= <- <-]. destruct (rollback_extends _ _ Ht He) as [Ho Hl].
  cbn. now split.
Qed.
End Statements.

(** ** At work *)

(** An update that fails at the row it reaches last. *)
Definition stop_at_two (r : Row) : SM Row :=
  if decide (get r "id" = VInt GoInt64 1) then mret {["v" := VString "changed"]} else failS (Errorf "stop").

Lemma stop_at_two_reads r : KeepsOn still (stop_at_two r).
Proof. intros s w. unfold stop_at_two. now case_decide. Qed.

Lemma sample_tight : tight (overlay (txdata sample_session.1)).
Proof.
  intros t es Ht. assert (Hin : (t, es) ∈ map_to_list (overlay (txdata sample_session.1))) by now apply elem_of_map_to_list.
  assert (Hall : Forall (fun te => te.2 <> ∅) (map_to_list (overlay (txdata sample_session.1)))).
  { vm_compute. repeat constructor. discriminate. }
  rewrite Forall_forall in Hall. exact (Hall _ Hin).
Qed.

Definition failed_update : outcome error () * (Session * World) :=
  execute "db" sample_evaluators 5 (SUpdate "t" stop_at_two None) sample_session.1 sample_session.2.

Lemma failed_statement_undone_witness :
  failed_update.1 = Fail_ (Errorf "stop") /\ overlay (txdata failed_update.2.1) = overlay (txdata sample_session.1).
Proof.
  assert (Hr : failed_update.1 = Fail_ (Errorf "stop")) by (vm_compute; reflexivity). split; [exact Hr|].
  apply (failed_statement_undone "db" sample_evaluators 5 (SUpdate "t" stop_at_two None) sample_session.1 failed_update.2.1
    sample_session.2 failed_update.2.2 (Errorf "stop") sample_tight stop_at_two_reads).
  rewrite <- Hr. exact (parts failed_update).
Defined.

Definition undone_statements : list statement :=
  [SInsert "t" (sample_row 3 "three"); SUpdate "t" stop_at_two None; SDelete "t" None].

Lemma undone_read : Forall callback_reads undone_statements.
Proof. repeat constructor. exact stop_at_two_reads. Qed.

Definition rolled_back : outcome error () * (Session * World) :=
  attempt_and_undo "db" sample_evaluators 5 undone_statements sample_session.1 sample_session.2.

Lemma rollback_to_position_witness :
  rolled_back.1 = Done () /\ overlay (txdata rolled_back.2.1) = overlay (txdata sample_session.1).
Proof.
  assert (Hr : rolled_back.1 = Done ()) by (vm_compute; reflexivity). split; [exact Hr|].
  apply (rollback_to_position "db" sample_evaluators 5 undone_statements sample_session.1 rolled_back.2.1
    sample_session.2 rolled_back.2.2 sample_tight undone_read).
  rewrite <- Hr. exact (parts rolled_back).
Defined.
