(* ===== verification/SessionView.v ===== *)
(** * What a transaction sees

    The reads of a transaction are reads of one map: the durable rows of the table under the staged
    ones.  The reads refine the lookups of that map, and the writes its updates.

    At the end are runs in which the code does not do what it means to: each is a run of the model on the sample database, evaluated by the kernel. *)
From Stdlib Require Import NArith ZArith Lia Ascii String.
From stdpp Require Import base option list list_numbers gmap sorting strings.
From S2P Require Import Prelude Bytes RowCodec RowLock Wire KVClient TestKV KVStore Float Values Schema UniqueCache.
From S2P Require Import ForeignKey TableCache Storage Table SessionState SchemaTx Session AlterTable Commit Sample.
From S2P Require Import StorageFacts CommitProps SessionFacts.
#[local] Set Warnings "-clear-no-such-hyp".
#[local] Open Scope string_scope.

Section View.
Context `{Json} (db : string) (ev : Evaluators).

(** ** The view *)

Definition row_of (data : list byte) : Row := match decode data with Done r => r | _ => ∅ end.

Definition durable_rows (st : Store) (prefix : string) : gmap string Row :=
  (fun vl => row_of vl.1) <$> filter (fun kv => String.prefix prefix kv.1 = true) (rows st).

Definition view (s : Session) (w : World) (table : string) : gmap string Row :=
  final_rows (durable_rows (store w) (dataPrefix db table)) (staged_rows (txdata s) (ToLower table)).

(** The rows under the prefix of the table are rows of the table, each under the key of its row. *)
Definition well_kept (st : Store) (table : string) (schema : Schema) : Prop :=
  forall k v l, rows st !! k = Some (v, l) -> String.prefix (dataPrefix db table) k = true ->
    exists r pk, decode v = Done r /\ PrimaryKeyForRow schema r = Done pk /\ k = dataKey db table pk.

(** No rename and no rewrite of the table is staged. *)
Definition settled (s : Session) (table : string) : Prop :=
  durable_source s table = table /\ forall r, applyStagedRewrites s table r = r.

Lemma view_lookup s w table k :
  view s w table !! k =
    match staged_entry (txdata s) (ToLower table) k with
    | Some e => if absent e then None else Some (row e)
    | None => durable_rows (store w) (dataPrefix db table) !! k
    end.
Proof.
  unfold view, staged_entry. rewrite final_rows_lookup. reflexivity.
Qed.

Lemma durable_lookup st p k r :
  durable_rows st p !! k = Some r <-> exists v l, rows st !! k = Some (v, l) /\ String.prefix p k = true /\ r = row_of v.
Proof.
  unfold durable_rows. rewrite lookup_fmap_Some. split.
  - intros ([v l] & <- & Hf). apply map_lookup_filter_Some in Hf as [Hk Hp]. eauto.
  - intros (v & l & Hk & Hp & ->). exists (v, l). split; [reflexivity|]. now apply map_lookup_filter_Some_2.
Qed.

(** ** Scans *)

Definition scan_entries (st : Store) (p : string) : list KVEntry :=
  map (fun k => let r := result_of st (bytes k) in mkKVEntry (bytes k) (KVClient.Value r) (KVClient.LSN r)) (scan_keys st p).

Lemma scan_done p w l w' : kv_scan p w = (Done l, w') -> l = scan_entries (store w) p.
Proof.
  unfold kv_scan. destruct (negb _); [discriminate|]. destruct (faults w) as [|[]]; try discriminate; now intros [= <- _].
Qed.

Definition pair_of (e : KVEntry) : string * Row := (string_of (e_Key e), row_of (e_Value e)).

Lemma in_scan_keys st p k : k ∈ scan_keys st p <-> is_Some (rows st !! k) /\ String.prefix p k = true.
Proof.
  unfold scan_keys. rewrite (merge_sort_Permutation str_le), list_elem_of_In, filter_In, in_map_iff. split.
  - intros [([k' x] & <- & Hin) Hp]. apply list_elem_of_In, elem_of_map_to_list in Hin. cbn. eauto.
  - intros [[x Hx] Hp]. split; [|exact Hp]. exists (k, x). split; [reflexivity|].
    now apply list_elem_of_In, elem_of_map_to_list.
Qed.

Lemma scan_keys_NoDup st p : NoDup (scan_keys st p).
Proof.
  unfold scan_keys. rewrite (merge_sort_Permutation str_le). apply NoDup_ListNoDup, List.NoDup_filter.
  apply NoDup_ListNoDup, NoDup_fst_map_to_list.
Qed.

Lemma scan_pairs st p : NoDup (map pair_of (scan_entries st p)).*1 /\
  forall k r, (k, r) ∈ map pair_of (scan_entries st p) <-> durable_rows st p !! k = Some r.
Proof.
  assert (Hm : map pair_of (scan_entries st p) = map (fun k => (k, row_of (KVClient.Value (result_of st (bytes k))))) (scan_keys st p)).
  { unfold scan_entries. rewrite map_map. apply map_ext. intros k. unfold pair_of. cbn [e_Key e_Value]. now rewrite string_of_bytes. }
  rewrite Hm. split.
  - assert (Hf : (map (fun k => (k, row_of (KVClient.Value (result_of st (bytes k))))) (scan_keys st p)).*1 = scan_keys st p).
    { clear Hm. induction (scan_keys st p) as [|k l IH]; [reflexivity|]. cbn [map fmap list_fmap fst]. f_equal. exact IH. }
    rewrite Hf. apply scan_keys_NoDup.
  - intros k r. rewrite durable_lookup, list_elem_of_In, in_map_iff. unfold result_of. split.
    + intros (k' & [= <- <-] & Hin). apply list_elem_of_In, in_scan_keys in Hin as [[[v l] Hk] Hp].
      rewrite string_of_bytes, Hk. cbn [KVClient.Value]. eauto.
    + intros (v & l & Hk & Hp & ->). exists k. rewrite string_of_bytes, Hk. cbn [KVClient.Value]. split; [reflexivity|].
      apply list_elem_of_In, in_scan_keys. eauto.
Qed.

(** The scan of the durable rows: those that are not staged and pass the filter. *)
Definition unstaged (staged : gmap string overlayEntry) (l : list (string * Row)) : list (string * Row) :=
  List.filter (fun kr => negb (bool_decide (is_Some (staged !! kr.1)))) l.

Definition entry_kept (table : string) (schema : Schema) (e : KVEntry) : Prop :=
  exists r pk, decode (e_Value e) = Done r /\ PrimaryKeyForRow schema r = Done pk /\
    string_of (e_Key e) = dataKey db table pk.

Lemma settled_pending s s' table : pending s = pending s' ->
  (forall r, applyStagedRewrites s table r = r) -> forall r, applyStagedRewrites s' table r = r.
Proof.
  unfold pending, applyStagedRewrites, rewriteRow. intros Hp Hr r. specialize (Hr r).
  destruct (schemaTx s), (schemaTx s'); try discriminate Hp; [|easy]. injection Hp as Hp _. now rewrite <- Hp.
Qed.

Lemma merge_spec table schema staged track f (l : list KVEntry) : forall s w rs s' w',
  (forall r, applyStagedRewrites s table r = r) -> Forall (entry_kept table schema) l ->
  merge_durable db table schema staged track f l s w = (Done rs, (s', w')) ->
  rs = List.filter (passes f) (map snd (unstaged staged (map pair_of l))) /\
  overlay (txdata s') = overlay (txdata s) /\ pending s' = pending s /\ store w' = store w.
Proof.
  induction l as [|e l IH]; intros s w rs s' w' Hs Hl E; cbn [merge_durable] in E.
  { injection E as <- <- <-. easy. }
  apply Forall_cons in Hl as [(r & pk & Hd & Hpk & Hk) Hl].
  assert (Hp : pair_of e = (dataKey db table pk, r)) by (unfold pair_of, row_of; now rewrite Hd, Hk).
  cbn [map unstaged List.filter]. rewrite Hp. cbn [fst].
  unfold mbind, SM_bind, lift_res in E. rewrite Hd, Hpk in E.
  destruct (staged !! dataKey db table pk) as [x|] eqn:Ex.
  { rewrite bool_decide_true by eauto. cbn [negb]. now eapply IH. }
  rewrite bool_decide_false by (intros []; congruence). cbn [negb map List.filter snd].
  assert (Ht : exists s1, (if track then modD (record_read (string_of (e_Key e)) (e_LSN e)) else mret ()) s w
            = (Done (), (s1, w)) /\ overlay (txdata s1) = overlay (txdata s) /\ pending s1 = pending s).
  { destruct track; eexists; repeat split. }
  destruct Ht as (s1 & Ht & Ho & Hpe). rewrite Ht in E. unfold rewritten, getS in E.
  rewrite (settled_pending s s1 table) in E by easy.
  destruct (merge_durable db table schema staged track f l s1 w) as [[rs'|er|] [s2 w2]] eqn:E2; try discriminate.
  injection E as <- <- <-. apply IH in E2 as (-> & Ho2 & Hp2 & Hs2); [|now apply (settled_pending s)|exact Hl].
  split; [now destruct (passes f r)|]. split; [congruence|]. split; [congruence|exact Hs2].
Qed.

(** The two halves of a scan are the pairs of the view. *)
Lemma view_pairs s w table :
  unstaged (staged_rows (txdata s) (ToLower table)) (map pair_of (scan_entries (store w) (dataPrefix db table)))
  ++ map (fun ke => (ke.1, row ke.2))
       (List.filter (fun ke => negb (absent ke.2)) (map_to_list (staged_rows (txdata s) (ToLower table))))
  ≡ₚ map_to_list (view s w table).
Proof.
  set (staged := staged_rows _ _). destruct (scan_pairs (store w) (dataPrefix db table)) as [Hnd Hin].
  assert (H1 : forall k r, (k, r) ∈ unstaged staged (map pair_of (scan_entries (store w) (dataPrefix db table))) <->
    staged !! k = None /\ durable_rows (store w) (dataPrefix db table) !! k = Some r).
  { intros k r. unfold unstaged. rewrite list_elem_of_In, filter_In, <- list_elem_of_In, Hin. cbn [fst].
    rewrite negb_true_iff, bool_decide_eq_false. destruct (staged !! k); split; intros [A B]; split; try easy.
    destruct B. eauto. }
  assert (H2 : forall k r, (k, r) ∈ map (fun ke => (ke.1, row ke.2)) (List.filter (fun ke => negb (absent ke.2)) (map_to_list staged)) <->
    exists e, staged !! k = Some e /\ absent e = false /\ r = row e).
  { intros k r. rewrite list_elem_of_In, in_map_iff. split.
    - intros ([k' e] & [= <- <-] & He). apply filter_In in He as [He Ha]. apply list_elem_of_In, elem_of_map_to_list in He.
      apply negb_true_iff in Ha. eauto.
    - intros (e & He & Ha & ->). exists (k, e). split; [reflexivity|]. apply filter_In. cbn. rewrite Ha.
      split; [|reflexivity]. now apply list_elem_of_In, elem_of_map_to_list. }
  apply NoDup_Permutation.
  - apply NoDup_app. split; [|split].
    + apply NoDup_ListNoDup, List.NoDup_filter, NoDup_ListNoDup. now apply (NoDup_fmap_1 fst).
    + intros [k r] A B. apply H1 in A as [A _]. apply H2 in B as (e & B & _). congruence.
    + apply (NoDup_fmap_1 fst).
      assert (Hm : forall l : list (string * overlayEntry), (map (fun ke => (ke.1, row ke.2)) l).*1 = l.*1).
      { induction l as [|ke l IH]; [reflexivity|]. cbn [map fmap list_fmap fst]. f_equal. exact IH. }
      assert (Hsub : forall l : list (string * overlayEntry), NoDup l.*1 -> NoDup (List.filter (fun ke => negb (absent ke.2)) l).*1).
      { clear. induction l as [|[k e] l IH]; intros Hl; [constructor|]. cbn [fmap list_fmap fst] in Hl.
        apply NoDup_cons in Hl as [Hk Hl]. cbn [List.filter snd]. destruct (absent e); [now apply IH|].
        cbn [negb fmap list_fmap fst]. apply NoDup_cons. split; [|now apply IH]. intros Hin. apply Hk.
        apply list_elem_of_fmap in Hin as ([k' e'] & -> & Hin). apply list_elem_of_In, filter_In in Hin as [Hin _].
        apply list_elem_of_fmap. exists (k', e'). split; [reflexivity|]. now apply list_elem_of_In. }
      rewrite Hm. apply Hsub, NoDup_fst_map_to_list.
  - apply NoDup_map_to_list.
  - intros [k r]. rewrite elem_of_app, H1, H2, elem_of_map_to_list, view_lookup. unfold staged_entry. fold staged.
    clear H1 H2 Hin Hnd. destruct (staged !! k) as [e|]; [destruct (absent e) eqn:Ea|]; split.
    + intros [[[=] _]|(e' & [= <-] & Ha & _)]. congruence.
    + discriminate.
    + intros [[[=] _]|(e' & [= <-] & _ & ->)]. reflexivity.
    + intros [= <-]. right. eauto.
    + intros [[_ Hd]|(e' & [=] & _)]. exact Hd.
    + intros Hd. now left.
Qed.

Lemma source_pending s s' table : pending s = pending s' -> durable_source s' table = durable_source s table.
Proof.
  unfold pending, durable_source. destruct (schemaTx s), (schemaTx s'); intros Hp; try discriminate Hp; [|easy].
  now injection Hp as _ ->.
Qed.

(** The catalogue the session sees fits the rows of the table. *)
Definition fits_rows (s : Session) (w : World) (table : string) : Prop :=
  forall schema sw, getSchemaLocked db table s w = (Done schema, sw) -> well_kept (store w) table schema.

Lemma kept_entries st table schema : well_kept st table schema ->
  Forall (entry_kept table schema) (scan_entries st (dataPrefix db table)).
Proof.
  intros Hw. apply Forall_forall. intros e He. unfold scan_entries in He.
  apply list_elem_of_In, in_map_iff in He as (k & <- & Hk). apply list_elem_of_In, in_scan_keys in Hk as [[[v l] Hk] Hp].
  destruct (Hw k v l Hk Hp) as (r & pk & Hd & Hpk & ->). exists r, pk. cbn [e_Value e_Key]. unfold result_of.
  rewrite string_of_bytes, Hk. cbn [KVClient.Value]. easy.
Qed.

Lemma filter_perm {A} (p : A -> bool) (l l' : list A) : l ≡ₚ l' -> List.filter p l ≡ₚ List.filter p l'.
Proof.
  induction 1 as [|x l l' _ IH|x y l|l1 l2 l3 _ IH1 _ IH2]; cbn [List.filter]; [constructor| | |now rewrite IH1].
  - destruct (p x); [now constructor|exact IH].
  - destruct (p x), (p y); try reflexivity. constructor.
Qed.

(** Recording a scan. *)
Lemma scanned_done (b : bool) t s w : exists s1,
  (if b then markTableScanned t else mret ()) s w = (Done (), (s1, w)) /\
  overlay (txdata s1) = overlay (txdata s) /\ schemaTx s1 = schemaTx s.
Proof. destruct b; eexists; (split; [reflexivity|]); split; reflexivity. Qed.

Lemma select_spec (s s' : Session) (w w' : World) (table : string) filter rs :
  settled s table -> fits_rows s w table ->
  selectLocked db table filter s w = (Done rs, (s', w')) ->
  rs ≡ₚ List.filter (passes filter) (map snd (map_to_list (view s w table))).
Proof.
  intros [Hsrc Hrw] Hfit E. unfold selectLocked in E. unfold mbind at 1, SM_bind at 1 in E.
  pose proof (keeps_getSchemaLocked db table s w) as Hk. pose proof (Hfit) as Hf.
  destruct (getSchemaLocked db table s w) as [[schema|er|] [s1 w1]] eqn:Eg; try discriminate.
  specialize (Hf schema _ Eg). cbn [fst snd] in Hk. unfold frozen in Hk. injection Hk as Hst _ _ Hov _ Hpe _.
  unfold getS, getD in E. unfold mbind at 1, SM_bind at 1 in E. cbv zeta in E.
  unfold mbind at 1, SM_bind at 1 in E.
  destruct (scanned_done (negb (lockingTableIs s1 table)) (ToLower table) s1 w1) as (s2 & E2 & Ho2 & Ht2). rewrite E2 in E.
  unfold mbind at 1, SM_bind at 1, getS in E. unfold mbind at 1, SM_bind at 1 in E.
  assert (Hp2 : pending s2 = pending s) by (unfold pending in *; congruence).
  rewrite (source_pending s s2 table ltac:(congruence)), Hsrc in E.
  unfold mbind at 1, SM_bind at 1 in E.
  match type of E with context [if ?b then markTableScanned ?t else mret ()] =>
    destruct (scanned_done b t s2 w1) as (s3 & E3 & Ho3 & Ht3); rewrite E3 in E end.
  unfold mbind at 1, SM_bind at 1, liftM in E.
  pose proof (quiet_scan (dataPrefix db table) w1) as Hq. unfold quiet_store in Hq.
  destruct (kv_scan (dataPrefix db table) w1) as [[l|er|] w2] eqn:El; try discriminate. apply scan_done in El.
  cbn [snd] in Hq. unfold mbind at 1, SM_bind at 1 in E.
  match type of E with context [merge_durable ?a ?b ?c ?d ?e ?f ?g ?s ?w] =>
    destruct (merge_durable a b c d e f g s w) as [[ds|er|] [s4 w4]] eqn:Em end; try discriminate.
  assert (Hp3 : pending s3 = pending s) by (unfold pending in *; congruence).
  apply merge_spec in Em as (-> & Ho4 & Hp4 & Hs4); [|now apply (settled_pending s)|].
  2:{ rewrite El, Hst. now apply kept_entries. }
  unfold mbind, SM_bind in E. injection E as <- _ _.
  assert (Hsr : staged_rows (txdata s2) (ToLower table) = staged_rows (txdata s) (ToLower table)).
  { unfold staged_rows. congruence. }
  rewrite Hsr, El, Hst.
  rewrite <- (filter_perm _ _ _ (Permutation_map snd (view_pairs s w table))), map_app, List.filter_app. apply Permutation_app; [reflexivity|].
  match goal with |- List.filter _ ?a ≡ₚ List.filter _ ?b => enough (a = b) as -> by reflexivity end.
  unfold staged_images. rewrite map_map. apply map_ext. intros ke. cbn [snd].
  apply (settled_pending s s4); [congruence|exact Hrw].
Qed.

(** ** Point reads *)

Lemma prefix_append (p k : string) : String.prefix p (p ++ k) = true.
Proof.
  induction p as [|c p IH]; [now destruct k|]. change (String.prefix (String c p) (String c p +:+ k)) with (if ascii_dec c c then String.prefix p (p +:+ k) else false). destruct (ascii_dec c c); [exact IH|congruence].
Qed.

Lemma substring_all (k : string) : forall n, String.length k <= n -> substring 0 n k = k.
Proof.
  induction k as [|c k IH]; intros n Hn; [now destruct n|]. destruct n; cbn in *; [lia|]. f_equal. apply IH. lia.
Qed.

Lemma substring_skip (p k : string) : forall n, substring (String.length p) n (p ++ k) = substring 0 n k.
Proof. induction p as [|c p IH]; intros n; [reflexivity|]. cbn. apply IH. Qed.

Lemma trim_append (p k : string) : TrimPrefix (p ++ k) p = k.
Proof.
  unfold TrimPrefix. rewrite prefix_append, substring_skip. apply substring_all. rewrite length_append. lia.
Qed.

(** A read of a durable key, when no request is lost. *)
Lemma read_key (key : string) (w : World) : faults w = [] -> key_ok (bytes key) = true ->
  getKeyWithLSN key w =
    (match rows (store w) !! key with
     | Some (v, l) => match decode v with
                      | Done r => Done (r, l)
                      | Fail_ e => Fail_ (Wrapf "failed to parse row" e)
                      | Panic => Panic
                      end
     | None => Fail_ (EKV ErrKeyNotFound)
     end, w).
Proof.
  intros Hf Hk. destruct w as [st fs t m1 m2 lk]. cbn in Hf. subst fs.
  unfold getKeyWithLSN, kv_get, mbind, M_bind, kv, refuse_or_spec. cbn [faults store allowed spec]. rewrite Hk.
  unfold present, result_of. rewrite string_of_bytes. destruct (rows st !! key) as [[v l]|]; cbn; [|reflexivity].
  now destruct (decode v).
Qed.

(** A point read in a transaction, when no request to the store is lost, is the lookup of the key
    in the view of the table: the row it returns is the staged or the durable row, and it is
    [ErrKeyNotFound] exactly when the view has no row there. *)
Theorem point_read_is_view (s : Session) (w : World) (table pk : string) (record : bool) (schema : Schema) :
  inTx s = true -> settled s table -> well_kept (store w) table schema -> faults w = [] ->
  key_ok (bytes (dataKey db table pk)) = true ->
  (getByPK db table pk record s w).1 =
    match view s w table !! dataKey db table pk with
    | Some r => Done r
    | None => Fail_ (EKV ErrKeyNotFound)
    end.
Proof.
  intros Hin [Hsrc Hrw] Hw Hf Hk. rewrite view_lookup.
  unfold getByPK, get_by_pk, mbind, SM_bind, getD, getS. rewrite Hin. cbv beta iota.
  destruct (staged_entry (txdata s) (ToLower table) (dataKey db table pk)) as [e|]; [now destruct (absent e)|].
  unfold durableDataKeyLocked. rewrite Hsrc. unfold attemptS, liftM. rewrite read_key by assumption.
  destruct (rows (store w) !! dataKey db table pk) as [[v l]|] eqn:Er.
  - destruct (Hw _ _ _ Er) as (r & pk' & Hd & _ & _); [apply prefix_append|]. rewrite Hd.
    rewrite (proj2 (durable_lookup _ _ _ r)).
    2:{ exists v, l. unfold row_of. rewrite Hd. split; [exact Er|]. split; [apply prefix_append|reflexivity]. }
    unfold rewritten, getS. destruct record; cbn; f_equal; [|apply Hrw]. apply (settled_pending s); [reflexivity|exact Hrw].
  - assert (Hn : durable_rows (store w) (dataPrefix db table) !! dataKey db table pk = None).
    { apply eq_None_not_Some. intros [r Hr]. apply durable_lookup in Hr as (v & l & Hr & _). congruence. }
    rewrite Hn. now destruct record.
Qed.

(** C4: a scan in a transaction returns exactly the rows of its view of the table that pass the
    filter, each once: the durable rows that are not staged, and the staged rows that are not deleted. *)
Theorem select_is_view (s s' : Session) (w w' : World) (table : string) filter rs :
  inTx s = true -> settled s table -> fits_rows s w table ->
  Select_s db table filter s w = (Done rs, (s', w')) ->
  rs ≡ₚ List.filter (passes filter) (map snd (map_to_list (view s w table))).
Proof.
  intros Hin Hs Hf. unfold Select_s, mbind, SM_bind, getS. rewrite Hin. cbv beta iota. now apply select_spec.
Qed.

(** ** Inserting *)

(** The staged rows of other tables, and the key in its own, after an insert. *)
Lemma view_put s s' w w' table t k r :
  overlay (txdata s') = overlay (stagePut table k r (txdata s)) -> store w' = store w ->
  view s' w' t = if decide (ToLower t = ToLower table) then <[k := r]> (view s w t) else view s w t.
Proof.
  intros Ho Hs. apply map_eq. intros k'. unfold view at 1. rewrite final_rows_lookup.
  unfold staged_rows. rewrite Ho, Hs. unfold stagePut, stage. cbn [overlay].
  case_decide as Ht.
  - rewrite Ht, lookup_insert_eq. cbn [from_option id]. destruct (decide (k' = k)) as [->|Hk].
    + now rewrite !lookup_insert_eq.
    + rewrite !lookup_insert_ne by congruence. unfold view. rewrite final_rows_lookup, Ht. reflexivity.
  - rewrite lookup_insert_ne by congruence. unfold view. now rewrite final_rows_lookup.
Qed.

(** C27: an insert in a transaction that has staged no rename and no rewrite of the table adds one row to
    the view of the table and changes the view of no other.  The row is the caller's row completed by the schema that the session reads
    ([completed_row]: the given values, defaults for the columns left out, generated row ids, and
    nothing else, where the names of the columns differ), and its key is the primary key of that row.  The key was deleted in this
    transaction, or it is recorded as absent, which the commit checks. *)
Theorem insert_is_view (s s' : Session) (w w' : World) (table : string) (r : Row) (rowid : Z) :
  inTx s = true -> settled s table ->
  InsertWithRowID_s db ev table r s w = (Done rowid, (s', w')) ->
  exists schema sw nr pk key,
    getSchemaLocked db table s w = (Done schema, sw) /\
    completed_row ev schema (now sw.2) r nr /\ PrimaryKeyForRow schema nr = Done pk /\ key = dataKey db table pk /\
    rowid = default 0%Z (rowIDFromRow nr) /\
    (forall t, view s' w' t = if decide (ToLower t = ToLower table) then <[key := nr]> (view s w t) else view s w t) /\
    ((exists e, staged_entry (txdata s) (ToLower table) key = Some e /\ absent e = true) \/
     reads (txdata s') !! key = Some 0%N).
Proof.
  intros Hin [Hsrc _]. unfold InsertWithRowID_s. unfold mbind at 1, SM_bind at 1, getS at 1. rewrite Hin. cbv beta iota.
  unfold insertLocked. intros E. apply s_bind_done in E as (schema & s1 & w1 & E1 & E).
  pose proof (keeps_getSchemaLocked db table s w) as Hk1. rewrite E1 in Hk1. cbn [fst snd] in Hk1.
  apply s_bind_done in E as ([nr key] & s2 & w2 & E2 & E). unfold liftM in E2.
  pose proof (quiet_prepareInsert db ev table schema r w1) as Hq2.
  destruct (prepareInsertWithSchema db ev table schema r w1) as [rr w2'] eqn:Ep.
  injection E2 as -> <- <-. cbn [snd] in Hq2.
  unfold prepareInsertWithSchema in Ep. m_inv. destruct x as [[[nr0 key0] id0] r0]. cbn in Ep. injection Ep as -> -> ->.
  match goal with Hn : normalizeInsertRow _ _ _ _ _ _ = _ |- _ => apply normalized_row in Hn as (Hrow & pk & Hpk & ->) end.
  cbv beta iota zeta in E. unfold getD in E. apply s_bind_done in E as (e & s3 & w3 & E3 & E).
  injection E3 as <- <- <-.
  unfold frozen in Hk1. injection Hk1 as Hst _ Hrd Hov _ Hpe _.
  assert (Hse : staged_entry (txdata s1) (ToLower table) (dataKey db table pk)
                = staged_entry (txdata s) (ToLower table) (dataKey db table pk)) by (unfold staged_entry, staged_rows; congruence).
  apply s_bind_done in E as ([] & s4 & w4 & E4 & E).
  assert (Hmid : overlay (txdata s4) = overlay (txdata s1) /\ store w4 = store w1 /\
    ((exists e, staged_entry (txdata s) (ToLower table) (dataKey db table pk) = Some e /\ absent e = true) \/
     reads (txdata s4) !! dataKey db table pk = Some 0%N)).
  { destruct (staged_entry (txdata s1) (ToLower table) (dataKey db table pk)) as [e|] eqn:Ee.
    - destruct (absent e) eqn:Ea; [|discriminate]. unfold mret, SM_ret in E4. injection E4 as <- <-. split; [reflexivity|]. split; [exact Hq2|].
      left. exists e. now rewrite <- Hse.
    - apply s_bind_done in E4 as (dk & s5 & w5 & E5 & E4). injection E5 as <- <- <-.
      unfold durableDataKeyLocked in E4. rewrite (source_pending s s1 table), Hsrc in E4 by congruence.
      rewrite (trim_append (dataPrefix db table) pk : TrimPrefix (dataKey db table pk) _ = pk) in E4.
      apply s_bind_done in E4 as (res & s6 & w6 & E6 & E4).
      unfold attemptS, liftM in E6. pose proof (quiet_getKeyWithLSN (dataKey db table pk) w2') as Hq6.
      destruct (getKeyWithLSN (dataKey db table pk) w2') as [[x|er|] w7]; cbn [snd] in Hq6; try discriminate.
      + injection E6 as <- <- <-. destruct x. discriminate E4.
      + injection E6 as <- <- <-. destruct er as [[]| | | | | | | | |]; try discriminate E4.
        unfold modD, modS in E4. injection E4 as <- <-. split; [reflexivity|]. split; [congruence|]. right. cbn. apply lookup_insert_eq. }
  destruct Hmid as (Hov4 & Hst4 & Hfresh). apply s_bind_done in E as ([] & s5 & w5 & E5 & E).
  unfold modD, modS in E5. injection E5 as <- <-. unfold mret, SM_ret in E. injection E as <- <- <-.
  exists schema, (s1, w1), nr, pk, (dataKey db table pk).
  split; [exact E1|]. split; [exact Hrow|]. split; [exact Hpk|]. split; [reflexivity|]. split; [reflexivity|]. split.
  - intros t. rewrite (view_put s _ w _ table t (dataKey db table pk) nr); [reflexivity| |congruence].
    cbn [txdata set_data]. unfold stagePut, stage. cbn [overlay]. unfold staged_rows. now rewrite Hov4, Hov.
  - destruct Hfresh as [He|Hr]; [now left|right]. cbn [txdata set_data]. unfold stagePut, stage. cbn [reads]. unfold once.
    now rewrite Hr.
Qed.
End View.

(** ** At work *)

Definition row_kept (db table : string) (schema : Schema) (kv : string * (list byte * N)) : bool :=
  negb (String.prefix (dataPrefix db table) kv.1) ||
  match decode (H := plain) kv.2.1 with
  | Done r => match PrimaryKeyForRow schema r with Done pk => kv.1 =s dataKey db table pk | _ => false end
  | _ => false
  end.

Lemma rows_kept db table schema (st : Store) :
  forallb (row_kept db table schema) (map_to_list (rows st)) = true -> well_kept db st table schema.
Proof.
  intros Hall k v l Hk Hp. rewrite forallb_forall in Hall.
  specialize (Hall (k, (v, l)) (proj1 (list_elem_of_In _ _) (proj2 (elem_of_map_to_list _ _ _) Hk))).
  unfold row_kept in Hall. cbn [fst snd] in Hall. rewrite Hp in Hall. cbn [negb orb] in Hall.
  destruct (decode v) as [r|e|]; try discriminate. destruct (PrimaryKeyForRow schema r) as [pk|e|] eqn:Epk; try discriminate.
  exists r, pk. split; [reflexivity|]. split; [exact Epk|]. now apply String.eqb_eq.
Qed.

Lemma sample_settled : settled sample_session.1 "t".
Proof. split; [vm_compute; reflexivity|reflexivity]. Qed.

Lemma sample_fits : fits_rows "db" sample_session.1 sample_session.2 "t".
Proof.
  intros schema sw E. apply rows_kept.
  assert (Hs : (getSchemaLocked "db" "t" sample_session.1 sample_session.2).1 = Done (normalizePrimaryKey (sample_schema "t"))) by (vm_compute; reflexivity).
  rewrite E in Hs. injection Hs as ->. vm_compute. reflexivity.
Qed.

Lemma point_read_is_view_witness :
  (getByPK "db" "t" "2" false sample_session.1 sample_session.2).1 =
  match view "db" sample_session.1 sample_session.2 "t" !! dataKey "db" "t" "2" with
  | Some r => Done r
  | None => Fail_ (EKV ErrKeyNotFound)
  end.
Proof.
  apply (point_read_is_view "db" sample_session.1 sample_session.2 "t" "2" false (normalizePrimaryKey (sample_schema "t"))).
  - vm_compute. reflexivity.
  - exact sample_settled.
  - apply rows_kept. vm_compute. reflexivity.
  - vm_compute. reflexivity.
  - vm_compute. reflexivity.
Defined.

Definition scanned : outcome error (list Row) * (Session * World) := Select_s "db" "t" None sample_session.1 sample_session.2.
Definition scanned_rows : list Row := match scanned.1 with Done rs => rs | _ => [] end.

Lemma select_is_view_witness :
  length scanned_rows = 2 /\ scanned_rows ≡ₚ List.filter (passes None) (map snd (map_to_list (view "db" sample_session.1 sample_session.2 "t"))).
Proof.
  split; [vm_compute; reflexivity|].
  assert (Hr : scanned.1 = Done scanned_rows) by (vm_compute; reflexivity).
  apply (select_is_view "db" sample_session.1 scanned.2.1 sample_session.2 scanned.2.2 "t" None scanned_rows
    ltac:(vm_compute; reflexivity) sample_settled sample_fits).
  rewrite <- Hr. exact (parts scanned).
Defined.

Definition inserted : outcome error Z * (Session * World) :=
  InsertWithRowID_s "db" sample_evaluators "t" (sample_row 3 "three") sample_session.1 sample_session.2.

Lemma insert_is_view_witness :
  exists schema nr pk, completed_row sample_evaluators schema (now sample_session.2) (sample_row 3 "three") nr /\
    PrimaryKeyForRow schema nr = Done pk /\ 3%Z = default 0%Z (rowIDFromRow nr) /\
    view "db" inserted.2.1 inserted.2.2 "t" = <[dataKey "db" "t" pk := nr]> (view "db" sample_session.1 sample_session.2 "t").
Proof.
  assert (Hr : inserted.1 = Done 3%Z) by (vm_compute; reflexivity).
  destruct (insert_is_view "db" sample_evaluators sample_session.1 inserted.2.1 sample_session.2 inserted.2.2 "t" (sample_row 3 "three") 3
    ltac:(vm_compute; reflexivity) sample_settled ltac:(rewrite <- Hr; exact (parts inserted))) as (schema & sw & nr & pk & key & Hs & Hrow & Hpk & -> & Hid & Hv & _).
  exists schema, nr, pk. split; [|split; [exact Hpk|split; [exact Hid|exact (Hv "t")]]].
  assert (Hnow : now (getSchemaLocked "db" "t" sample_session.1 sample_session.2).2.2 = now sample_session.2) by (vm_compute; reflexivity).
  rewrite Hs in Hnow. rewrite <- Hnow. exact Hrow.
Defined.

(** ** Runs of the session in which the code does not do what it means to *)

#[local] Abbreviation ev := sample_evaluators.

Definition begin_at (w : World) : Session * World := run_s Begin (NewSession 1, w).
Definition result_of_s {A} (m : SM A) (sw : Session * World) : outcome error A := (m sw.1 sw.2).1.
Definition names_of (rs : outcome error (list Row)) : outcome error (list val) := rs ← rs; Done (map (fun r => get r "v") rs).
Definition staged_keys (s : Session) : list (string * list string) :=
  map (fun te => (te.1, map fst (map_to_list te.2))) (map_to_list (overlay (txdata s))).
Definition stored_value (w : World) (key : string) : option string := (fun vl => string_of vl.1) <$> rows (store w) !! key.
Definition stored_v (w : World) (key : string) : option (outcome error val) :=
  (fun vl => r ← decode vl.1; Done (get r "v")) <$> rows (store w) !! key.

(** ** A read is recorded at its last value *)

(** Another session's update of the row 1. *)
Definition updated_elsewhere (sw : Session * World) : Session * World :=
  (sw.1, run_m (UpdateByPK "db" ev "t" "1" (fun _ => mret {["v" := VString "other"]})) sw.2).

(** The transaction reads the row, the other session updates it, the transaction writes what it
    computed from the first read: the write reads the row again, and the commit sees no conflict. *)
Definition overtaken : Session * World :=
  run_s (updateByPKLocked "db" ev 5 "t" "1" (fun _ => mret {["v" := VString "mine"]}))
    (updated_elsewhere (run_s (getByPKLocked "db" "t" "1") (begin_at sample_world))).

Theorem lost_update :
  stored_v overtaken.2 "db:_data:t:1" = Some (Done (VString "other")) /\
  result_of_s (CommitWithLSN "db" ev) overtaken = Done 5%N /\
  stored_v (run_s (CommitWithLSN "db" ev) overtaken).2 "db:_data:t:1" = Some (Done (VString "mine")).
Proof. vm_compute. repeat split. Qed.

(** ** A table that is dropped and created again *)

Definition recreated : Session * World :=
  run_s (CreateTable_s "db" (sample_schema "t")) (run_s (DropTable_s "db" "t") (begin_at sample_world)).

(** The new table holds the rows of the old one, and refuses its keys. *)
Theorem recreated_table_has_old_rows :
  names_of (result_of_s (Select_s "db" "t" None) recreated) = Done [VString "one"] /\
  result_of_s (InsertWithRowID_s "db" ev "t" (sample_row 1 "new")) recreated = Fail_ (PrimaryKeyViolation "t" "1").
Proof. vm_compute. repeat split. Qed.

(** ** A name that is free after a rename *)

Definition renamed_and_created : Session * World :=
  run_s (CreateTable_s "db" (sample_schema "t")) (run_s (RenameTable_s "db" "t" "u") (begin_at sample_world)).

(** The commit writes the record of the new table and deletes it: the catalogue lists a table that is not there. *)
Theorem renamed_then_created_is_lost :
  result_of_s (CommitWithLSN "db" ev) renamed_and_created = Done 4%N /\
  let w := (run_s (CommitWithLSN "db" ev) renamed_and_created).2 in
  (ListTables "db" w).1 = Done ["u"; "t"] /\ (GetSchema "db" "t" w).1 = Fail_ (TableNotFound "t").
Proof. vm_compute. repeat split. Qed.

(** A generated key of the renamed table starts again at 1. *)
Theorem renamed_table_repeats_keys :
  result_of_s (InsertWithRowID_s "db" ev "u" {["v" := VString "new"]})
    (run_s (RenameTable_s "db" "t" "u") (begin_at sample_world)) = Fail_ (PrimaryKeyViolation "u" "1").
Proof. vm_compute. reflexivity. Qed.

(** ** Rolling back to a savepoint *)

Definition two_tables : World := run_m (CreateTable "db" (sample_schema "c")) sample_world.

(** A row is staged for [c]; after the savepoint [c] is dropped and [t] takes its name. *)
Definition before_savepoint : Session * World := run_s (insertLocked "db" ev "c" (sample_row 5 "five")) (begin_at two_tables).
Definition after_rename : Session * World :=
  run_s (RenameTable_s "db" "t" "c") (run_s (DropTable_s "db" "c") before_savepoint).

(** The rollback puts the rows back and then undoes the rename on them: the row of [c] is one of [t]. *)
Theorem rollback_moves_rows :
  staged_keys before_savepoint.1 = [("c", ["db:_data:c:5"])] /\
  staged_keys (run_s (RollbackToSavepoint "db" (savepointLocked before_savepoint.1)) after_rename).1
    = [("t", ["db:_data:t:5"])].
Proof. vm_compute. repeat split. Qed.

(** The list of a catalogue without tables is copied as one that is not loaded: a statement that is
    refused brings the dropped table back. *)
Definition emptied : Session * World := run_s (DropTable_s "db" "t") (begin_at sample_world).
Definition refused : Session * World := run_s (DropTable_s "db" "nosuch") emptied.

Theorem refused_ddl_restores_dropped_table :
  result_of_s (DropTable_s "db" "nosuch") emptied = Fail_ (TableNotFound "nosuch") /\
  result_of_s (ListTables_s "db") emptied = Done [] /\ result_of_s (ListTables_s "db") refused = Done ["t"] /\
  result_of_s (CommitWithLSN "db" ev) (run_s (CreateTable_s "db" (sample_schema "u")) refused)
    = Fail_ (TableNotFound "t").
Proof. vm_compute. repeat split. Qed.

(** ** Keys *)

(** The rows of a table lie under the prefix of a table whose name it extends by a colon. *)
Definition nested_tables : World :=
  run_m (InsertWithRowID "db" ev "t:x" (sample_row 1 "inner")) (run_m (CreateTable "db" (sample_schema "t:x")) sample_world).

Theorem drop_deletes_other_table :
  dataKey "db" "t" "x:1" = dataKey "db" "t:x" "1" /\
  is_Some (stored_v nested_tables (dataKey "db" "t:x" "1")) /\
  stored_v (run_m (DropTable "db" "t") nested_tables) (dataKey "db" "t:x" "1") = None.
Proof. vm_compute. repeat split. eexists. reflexivity. Qed.

(** Integers are compared as floating-point numbers: two keys match that differ. *)
Theorem foreign_key_confuses_large_integers :
  foreignKeyMatches ({["p" := VInt GoInt64 (2 ^ 53 + 1)]} : Row) ["p"]
    (default [] (foreignKeyValues ({["id" := VInt GoInt64 (2 ^ 53)]} : Row) ["id"])) = true.
Proof. vm_compute. reflexivity. Qed.

(** ** A commit and a dropped index *)

Definition warm_index : Index := mkIndex "i" "t" [mkIndexColumn "v" false EmptyString] false 0 EmptyString.

(** The index is built when a commit prepares its changes, and cleared before it applies them. *)
Definition warm_manager : TableManager :=
  with_caches (installIndexCacheLocked "i" "t" ∅ ∅ no_caches) NewTableManager.

Theorem cleared_index_stops_commit :
  (plan ← prepareTableCache ev warm_manager "db:_data:t:" "t" [warm_index]
            {["db:_data:t:1" := mkEntry (<["_rowid_" := VInt GoInt64 1]> (sample_row 1 "one")) false]} ∅;
   applyTableCache plan (ClearIndex "i" "t" warm_manager)) = Panic.
Proof. vm_compute. reflexivity. Qed.

(** ** Writes that are durable and reported as errors *)

(** An index on an expression that cannot be evaluated for the new row. *)
Definition failing_ev : Evaluators := mkEvaluators None None (Some (fun _ _ => inr "division by zero")).
Definition expression_index : Index :=
  mkIndex "ix" "t" [mkIndexColumn EmptyString false "1/(id-1)"] false 0 EmptyString.
Definition indexed_world : World :=
  run_m (CreateIndex "db" expression_index) (run_m (CreateTable "db" (sample_schema "t")) NewWorld).

(** The row is stored, and the generation of the table is not advanced, so that transactions that
    scanned the table do not see the change. *)
Theorem failed_insert_is_durable :
  (InsertWithRowID "db" failing_ev "t" (sample_row 1 "one") indexed_world).1 = Fail_ (Errorf "division by zero") /\
  let w := run_m (InsertWithRowID "db" failing_ev "t" (sample_row 1 "one")) indexed_world in
  stored_v w "db:_data:t:1" = Some (Done (VString "one")) /\
  generation (tm w) "t" = generation (tm indexed_world) "t".
Proof. vm_compute. repeat split. Qed.

(** ** The greatest row id *)

Definition full_world : World :=
  run_m (InsertWithRowID "db" ev "t" (sample_row (2 ^ 63 - 1) "last")) sample_world.

(** The allocator wraps around: the next generated key is negative, and after a restart it is 1, the key of a stored row. *)
Theorem row_ids_wrap_around :
  (GetNextRowID "db" "t" full_world).1 = Done (- 2 ^ 63)%Z /\
  (GetNextRowID "db" "t" (set_sm (sm NewWorld) full_world)).1 = Done 1%Z.
Proof. vm_compute. repeat split. Qed.
