(* ===== verification/TableProps.v ===== *)
(** * What the table manager's writes do to the store

    The chunks of a bulk write fit the protocol; the key of a row tells its key columns apart; a
    point write is one compare-and-write of one key; generated row ids are fresh. *)
From Stdlib Require Import NArith ZArith Lia Ascii String.
From stdpp Require Import base option list list_numbers gmap sorting strings.
From S2P Require Import Prelude RowLock Bytes RowCodec Float Values Wire KVClient TestKV WireFacts KVStore KVRefine Schema UniqueCache TableCache ForeignKey Storage Table SessionState SchemaTx Session AlterTable Commit StorageFacts CommitProps SessionFacts SessionView Sample.

(** ** Chunks *)

Section Chunks.
Context `{Json}.

Definition op_bytes (op : BatchOp) : N := (12 + len (b_Key op) + len (b_Value op))%N.
Definition total_bytes (ops : list BatchOp) : N := foldr (fun op n => (op_bytes op + n)%N) 0%N ops.

Lemma chunk_length_le ops : forall room size first, chunk_length ops room size first <= Nat.min room (length ops).
Proof.
  induction ops as [|op ops IH]; intros [|room] size first; cbn [chunk_length]; try lia.
  destruct (_ && _)%bool; [lia|]. specialize (IH room (size + (12 + len (b_Key op) + len (b_Value op)))%N false). cbn [length]. lia.
Qed.

(** A chunk that is not the first operation alone stays within the budget. *)
Lemma chunk_budget ops : forall room size, (size <= bulkBatchByteBudget)%N ->
  (size + total_bytes (take (chunk_length ops room size false) ops) <= bulkBatchByteBudget)%N.
Proof.
  induction ops as [|op ops IH]; intros [|room] size Hs; cbn [chunk_length take total_bytes foldr]; try (cbn; lia).
  cbn [negb andb]. destruct (bulkBatchByteBudget <? _)%N eqn:E; [cbn; lia|]. apply N.ltb_ge in E.
  cbn [take total_bytes foldr]. specialize (IH room _ E). unfold total_bytes, op_bytes in *. lia.
Qed.

Lemma chunk_first op ops room : room <> 0 ->
  let j := chunk_length (op :: ops) room 0 true in
  1 <= j /\ (j = 1 \/ (total_bytes (take j (op :: ops)) <= bulkBatchByteBudget)%N).
Proof.
  destruct room as [|room]; [easy|]. intros _. cbn [chunk_length negb andb]. cbv zeta. split; [lia|].
  set (n := (0 + (12 + len (b_Key op) + len (b_Value op)))%N).
  destruct (N.le_gt_cases n bulkBatchByteBudget) as [Hn|Hn].
  - right. cbn [take total_bytes foldr]. pose proof (chunk_budget ops room n Hn). unfold total_bytes, op_bytes, n in *. lia.
  - left. f_equal. destruct ops as [|op' ops], room; try reflexivity. cbn [chunk_length negb andb].
    now rewrite (proj2 (N.ltb_lt _ _)) by lia.
Qed.

Definition chunk_ok (c : list BatchOp) : Prop :=
  c <> [] /\ (N.of_nat (length c) <= maxOperations)%N /\
  (length c = 1 \/ (total_bytes c <= bulkBatchByteBudget)%N).

Lemma chunks_spec fuel : forall ops, length ops <= fuel -> concat (chunks fuel ops) = ops /\ Forall chunk_ok (chunks fuel ops).
Proof.
  induction fuel as [|k IH]; intros ops Hf.
  { destruct ops; [split; [reflexivity|constructor]|cbn in Hf; lia]. }
  destruct ops as [|op ops]; cbn [chunks]; [split; [reflexivity|constructor]|].
  set (j := Nat.max 1 _).
  pose proof (chunk_first op ops (N.to_nat maxOperations)) as Hj. cbv zeta in Hj.
  destruct Hj as [Hj1 Hj2]; [unfold maxOperations; lia|].
  pose proof (chunk_length_le (op :: ops) (N.to_nat maxOperations) 0 true) as Hle.
  assert (Ej : j = chunk_length (op :: ops) (N.to_nat maxOperations) 0 true) by (unfold j; lia). clearbody j. subst j.
  set (j := chunk_length _ _ _ _) in *. clearbody j.
  destruct (IH (drop j (op :: ops))) as [IH1 IH2]; [rewrite length_drop; cbn [length] in *; lia|].
  cbn [concat]. rewrite IH1, take_drop. split; [reflexivity|]. constructor; [|exact IH2].
  assert (Hl : length (take j (op :: ops)) = j) by (rewrite length_take; lia).
  repeat split.
  - intros E. rewrite E in Hl. cbn in Hl. lia.
  - rewrite Hl. lia.
  - rewrite Hl. exact Hj2.
Qed.

Lemma total_payload (ops : list BatchOp) : len (batch_payload ops []) = (8 + total_bytes ops)%N.
Proof.
  rewrite batch_sizes. change (len []) with 0%N. rewrite len_concat_map, N.add_0_r. f_equal.
  unfold total_bytes. induction ops as [|op ops IH]; cbn [foldr]; [reflexivity|]. rewrite IH. f_equal.
  unfold batch_entry, op_bytes. rewrite !len_app. change (len [Op op]) with 1%N. change (len (zeros 3)) with 3%N.
  change (len (putU32 (len (b_Key op)))) with 4%N. change (len (putU32 (len (b_Value op)))) with 4%N. lia.
Qed.

(** A bulk write is cut into chunks that are the operations in their order, each of them not
    empty, and each a batch that the protocol accepts when each operation alone is within the budget: the
    number of operations and the size of the request are within the limits, and so is the size of
    each value and key. *)
Theorem chunks_fit (ops : list BatchOp) : forallb op_ok ops = true ->
  Forall (fun op => (op_bytes op <= bulkBatchByteBudget)%N) ops ->
  concat (chunkBatchOps ops) = ops /\
  Forall (fun c => c <> [] /\ allowed (OBatchWrite c []) = true /\
                   (total_bytes c <= bulkBatchByteBudget)%N) (chunkBatchOps ops).
Proof.
  intros Hops Hsize. destruct (chunks_spec (length ops) ops) as [Hc Hf]; [lia|]. fold (chunkBatchOps ops) in *.
  split; [exact Hc|]. apply Forall_forall. intros c Hin. rewrite Forall_forall in Hf. destruct (Hf c Hin) as (Hne & Hn & Hs).
  assert (Hcok : forallb op_ok c = true).
  { apply forallb_forall. intros op Hop. rewrite forallb_forall in Hops. apply Hops. rewrite <- Hc.
    apply in_concat. exists c. split; [now apply list_elem_of_In|exact Hop]. }
  assert (Ht : (total_bytes c <= bulkBatchByteBudget)%N).
  { destruct Hs as [H1|Hb]; [|exact Hb]. destruct c as [|op [|? ?]]; try discriminate.
    rewrite Forall_forall in Hsize. specialize (Hsize op). unfold total_bytes. cbn [foldr]. rewrite N.add_0_r.
    apply Hsize. rewrite <- Hc. apply list_elem_of_In, in_concat. exists [op]. split; [now apply list_elem_of_In|now left]. }
  split; [exact Hne|]. split; [|exact Ht].
  cbn [allowed]. unfold batch_ok, operation_count_ok. rewrite Hcok, total_payload. cbn [length forallb].
  rewrite (proj2 (Nat.eqb_neq (length c) 0)) by (destruct c; [easy|discriminate]).
  rewrite (proj2 (N.leb_le _ _) Hn). cbn [negb andb N.of_nat]. apply N.leb_le.
  unfold bulkBatchByteBudget, maxTransactionSize in *. lia.
Qed.
End Chunks.

(** ** Keys of rows *)

Section Keys.
Context (db : string).

(** A table name without a colon. *)
Definition plain_table (table : string) : bool := string_forallb (fun c => negb (c =b ":")) (ToLower table).

Lemma key_parts_length s row : forall cols ps, key_parts s row cols = Done ps -> length ps = length cols.
Proof.
  induction cols as [|c cols IH]; intros ps E; cbn [key_parts] in E; res_inv; [reflexivity|]. cbn. f_equal. now apply IH.
Qed.

Lemma encode_key_inj (ps ps' : list string) : length ps = length ps' -> encode_key ps = encode_key ps' -> ps = ps'.
Proof.
  destruct ps as [|p [|q ps]], ps' as [|p' [|q' ps']]; cbn [length encode_key]; try discriminate; intros _ E.
  - reflexivity.
  - congruence.
  - now apply join_inj.
Qed.

Lemma dataKey_inj (t t' pk pk' : string) : plain_table t = true -> plain_table t' = true ->
  dataKey db t pk = dataKey db t' pk' -> ToLower t = ToLower t' /\ pk = pk'.
Proof.
  intros Ht Ht'. unfold dataKey, dataPrefix. rewrite !Prelude.append_assoc. intros E.
  apply append_inj_length in E as [_ E]; [|reflexivity]. cbn in E. injection E as E.
  now apply (break_at (fun c => negb (c =b ":"))) in E.
Qed.

(** C38: in tables whose names hold no colon, two rows are stored under the same key exactly when
    they are rows of the same table and agree in every key column as it is printed: no key of a
    composite primary key runs into another. *)
Theorem row_keys_exact (t t' : string) (s s' : Schema) (r r' : Row) (k k' : string) (ps ps' : list string) :
  plain_table t = true -> plain_table t' = true -> length (PrimaryKeyList s) = length (PrimaryKeyList s') ->
  key_parts s r (PrimaryKeyList s) = Done ps -> key_parts s' r' (PrimaryKeyList s') = Done ps' ->
  PrimaryKeyForRow s r = Done k -> PrimaryKeyForRow s' r' = Done k' ->
  (dataKey db t k = dataKey db t' k' <-> ToLower t = ToLower t' /\ ps = ps').
Proof.
  intros Ht Ht' Hl Hps Hps'. unfold PrimaryKeyForRow. rewrite Hps, Hps'. cbn. intros [= <-] [= <-]. split.
  - intros E. apply dataKey_inj in E as [-> E]; [|assumption|assumption]. split; [reflexivity|].
    apply encode_key_inj; [|exact E]. rewrite (key_parts_length _ _ _ _ Hps), (key_parts_length _ _ _ _ Hps'). exact Hl.
  - intros [E ->]. unfold dataKey, dataPrefix. now rewrite E.
Qed.
End Keys.

(** ** Row ids *)

Section RowIds.
Context `{Json} (db : string).

(** Every row id that the rows of a table hold satisfies [P]. *)
Definition row_ids (st : Store) (table : string) (P : Z -> Prop) : Prop :=
  forall k r i, durable_rows st (dataPrefix db table) !! k = Some r -> rowIDFromRow r = Some i -> P i.

Definition maxInt64 : Z := (2 ^ 63 - 1)%Z.

(** The next row id of a table, once it is known, is above the row ids of its rows. *)
Definition allocates (w : World) (table : string) : Prop :=
  match rowIDAlloc (sm w) !! ToLower table with
  | None => True
  | Some n => (1 <= n <= maxInt64)%Z /\ row_ids (store w) table (fun i => i < n)%Z
  end.

Lemma wrap64_small z : (- 2 ^ 63 <= z <= maxInt64)%Z -> wrap64 z = z.
Proof. unfold wrap64, maxInt64. intros Hz. apply to_int64_round. lia. Qed.

(** The scan of the rows finds the greatest row id, or 0. *)
Lemma max_rowid_spec prefix w top w' : max_rowid prefix w = (Done top, w') ->
  store w' = store w /\ sm w' = sm w /\ (0 <= top)%Z /\
  (forall k r i, durable_rows (store w) prefix !! k = Some r -> rowIDFromRow r = Some i -> i <= top)%Z /\
  (top = 0 \/ exists k r, durable_rows (store w) prefix !! k = Some r /\ rowIDFromRow r = Some top)%Z.
Proof.
  unfold max_rowid. intros E. m_inv.
  match goal with Hs : kv_scan prefix w = (Done ?l, ?w0) |- _ =>
    pose proof (scan_done _ _ _ _ Hs) as Hl; pose proof (quiet_scan prefix w) as Hq; rewrite Hs in Hq; cbn [snd] in Hq;
    assert (Hsm : sm w0 = sm w) by (revert Hs; unfold kv_scan; repeat case_match; intros; simplify_eq; reflexivity);
    rename l into es; rename w0 into w1; clear Hs end.
  assert (Hgo : forall l top0, (fix go (l : list KVEntry) (top : Z) : M Z :=
      match l with
      | [] => mret top
      | e :: rest =>
          match decode (e_Value e) with
          | Done r => go rest (match rowIDFromRow r with Some id => Z.max id top | None => top end)
          | Fail_ er => fail (Errorf "failed to parse row while deriving ROWID")
          | Panic => fun w => (Panic, w)
          end
      end) l top0 w1 = (Done top, w') ->
    w' = w1 /\ (top0 <= top)%Z /\ (forall k r i, (k, r) ∈ map pair_of l -> rowIDFromRow r = Some i -> i <= top)%Z /\
    (top = top0 \/ exists k r, (k, r) ∈ map pair_of l /\ rowIDFromRow r = Some top)).
  { induction l as [|e l IH]; intros top0.
    - intros [= <- <-]. split; [reflexivity|]. split; [lia|]. split; [|now left]. intros k r i Hin. inversion Hin.
    - destruct (decode (e_Value e)) as [r|er|] eqn:Ed; [|discriminate|discriminate]. intros Eg.
      apply IH in Eg as (-> & Hle & Hall & Hex). cbn [map].
      assert (Hp : (pair_of e).2 = r) by (unfold pair_of, row_of; now rewrite Ed).
      split; [reflexivity|]. split; [destruct (rowIDFromRow r); lia|]. split.
      + intros k' r' i [Hin|Hin]%elem_of_cons Hi; [|eapply Hall; eassumption].
        rewrite <- Hin in Hp. cbn in Hp. subst r'. rewrite Hi in Hle. lia.
      + destruct Hex as [->|(k & r' & Hin & Hi)]; [|right; exists k, r'; split; [now right|exact Hi]].
        destruct (rowIDFromRow r) as [id|] eqn:Ei; [|now left].
        destruct (Z.max_spec id top0) as [[_ ->]|[_ Em]]; [now left|]. rewrite Em. right.
        exists (pair_of e).1, r. split; [|congruence]. rewrite <- Hp. destruct (pair_of e). now left. }
  apply Hgo in E as (-> & Hle & Hall & Hex). destruct (scan_pairs (store w) prefix) as [_ Hpairs]. subst es.
  split; [exact Hq|]. split; [exact Hsm|]. split; [exact Hle|]. split.
  - intros k r i Hk. apply Hall with (k := k). now apply Hpairs.
  - destruct Hex as [->|(k & r & Hin & Hi)]; [now left|right]. exists k, r. split; [now apply Hpairs|exact Hi].
Qed.

Lemma next_spec table w n w' : allocates w table -> row_ids (store w) table (fun i => i < maxInt64)%Z ->
  nextRowIDLocked db table w = (Done n, w') ->
  store w' = store w /\ rowIDAlloc (sm w') = <[ToLower table := n]> (rowIDAlloc (sm w)) /\
  (1 <= n <= maxInt64)%Z /\ row_ids (store w) table (fun i => i < n)%Z.
Proof.
  unfold allocates, nextRowIDLocked. intros Ha Hmax E. m_inv.
  match goal with Hg : gets _ w = _ |- _ => injection Hg as <- <- end.
  destruct (rowIDAlloc (sm w) !! ToLower table) as [m|] eqn:Em.
  { unfold mret, M_ret in E. injection E as <- <-. destruct Ha as [Hm Ha]. split; [reflexivity|]. split; [now rewrite insert_id|]. now split. }
  m_inv. unfold set_next, modify_sm, modify, mret, M_ret in *. repeat match goal with Hx : (_, _) = (_, _) |- _ => injection Hx; clear Hx; intros; subst end.
  unfold deriveNextRowID in *. m_inv. unfold mret, M_ret in *.
  repeat match goal with Hx : (_, _) = (_, _) |- _ => injection Hx; clear Hx; intros; subst end.
  match goal with Hm : max_rowid _ w = (Done ?t, _) |- _ => rename t into top; apply max_rowid_spec in Hm as (Hst & Hsm & Hpos & Hall & Hex) end.
  assert (Htop : (0 <= top < maxInt64)%Z).
  { split; [exact Hpos|]. destruct Hex as [->|(k & r & Hk & Hi)]; [unfold maxInt64; lia|]. exact (Hmax k r top Hk Hi). }
  rewrite wrap64_small by (unfold maxInt64 in *; lia).
  assert (Hn : (top + 1 <? 1)%Z = false) by (apply Z.ltb_ge; lia). rewrite Hn.
  cbn. rewrite Hsm. split; [exact Hst|]. split; [reflexivity|]. split; [unfold maxInt64 in *; lia|].
  intros k r i Hk Hi. specialize (Hall k r i Hk Hi). lia.
Qed.

(** A run of the allocators: each generates a row id, or is told of one that a row brings along. *)
Inductive row_id : Type := Generated (table : string) (id : Z) | Brought (table : string) (id : Z).

Definition table_of (e : row_id) : string := match e with Generated t _ | Brought t _ => t end.
Definition id_of (e : row_id) : Z := match e with Generated _ i | Brought _ i => i end.

Definition serve_one (request : string + string * Z) : M row_id :=
  match request with
  | inl t => id ← GetNextRowID db t; mret (Generated t id)
  | inr (t, id) => _ ← UpdateMaxRowID db t id; mret (Brought t id)
  end.

Definition requested (request : string + string * Z) : string := match request with inl t => t | inr (t, _) => t end.

(** A row id that is generated is above every earlier one of its table. *)
Definition above (earlier later : row_id) : Prop :=
  match later with
  | Generated t i => ToLower (table_of earlier) = ToLower t -> (id_of earlier < i)%Z
  | Brought _ _ => True
  end.

Definition at_least (w : World) (e : row_id) : Prop :=
  match e with
  | Generated t i => row_ids (store w) t (fun j => j < i)%Z /\
                     forall n, rowIDAlloc (sm w) !! ToLower t = Some n -> (n <= i)%Z
  | Brought _ _ => True
  end.

(** What one request does, as long as the table has row ids left. *)
Lemma serve_one_spec request w e w' : allocates w (requested request) ->
  row_ids (store w) (requested request) (fun i => i < maxInt64)%Z ->
  serve_one request w = (Done e, w') -> (id_of e < maxInt64)%Z ->
  table_of e = requested request /\ store w' = store w /\ at_least w e /\
  exists n, rowIDAlloc (sm w') = <[ToLower (table_of e) := n]> (rowIDAlloc (sm w)) /\
    (id_of e < n <= maxInt64)%Z /\ (1 <= n)%Z /\ row_ids (store w) (table_of e) (fun i => i < n)%Z /\
    forall m, rowIDAlloc (sm w) !! ToLower (table_of e) = Some m -> (m <= n)%Z.
Proof.
  intros Ha Hmax E Hid.
  assert (Hnext : forall t n w1, t = requested request -> nextRowIDLocked db t w = (Done n, w1) ->
    store w1 = store w /\ rowIDAlloc (sm w1) = <[ToLower t := n]> (rowIDAlloc (sm w)) /\ (1 <= n <= maxInt64)%Z /\
    row_ids (store w) t (fun i => i < n)%Z /\ forall m, rowIDAlloc (sm w) !! ToLower t = Some m -> m = n).
  { intros t n w1 -> En. pose proof En as En'. apply next_spec in En; [|apply Ha|apply Hmax]. destruct En as (? & ? & ? & ?).
    repeat split; try assumption; try lia. intros m Hm. unfold nextRowIDLocked, mbind, M_bind, gets in En'.
    rewrite Hm in En'. now injection En'. }
  destruct request as [t|[t id]]; cbn [serve_one] in E; m_inv; unfold mret, M_ret in E; injection E as <- <-; cbn [table_of id_of at_least] in *.
  - unfold GetNextRowID in *. m_inv. unfold mret, M_ret, set_next, modify_sm, modify in *. simplify_eq.
    match goal with En : nextRowIDLocked _ _ _ = _ |- _ => apply Hnext in En as (Hst & Hal & Hn & Hrow & Heq); [|reflexivity] end. split; [reflexivity|].
    cbn. rewrite Hal, insert_insert_eq, wrap64_small by (unfold maxInt64 in *; lia).
    split; [exact Hst|]. split; [split; [exact Hrow|]; intros n Hm; rewrite (Heq n Hm); lia|].
    eexists. split; [reflexivity|]. split; [unfold maxInt64 in *; lia|]. split; [lia|]. split.
    + intros k r i Hk Hi. specialize (Hrow k r i Hk Hi). cbn in Hrow. lia.
    + intros m Hm. rewrite (Heq m Hm). lia.
  - unfold UpdateMaxRowID in *. m_inv.
    match goal with En : nextRowIDLocked _ _ _ = (Done ?n, _) |- _ => rename n into next; apply Hnext in En as (Hst & Hal & Hn & Hrow & Heq); [|reflexivity] end. split; [reflexivity|].
    unfold mret, M_ret, set_next, modify_sm, modify in *. case_match eqn:Ec; rewrite ?Z.leb_le, ?Z.leb_gt in Ec; simplify_eq; cbn; rewrite Hal.
    + rewrite insert_insert_eq, wrap64_small by (unfold maxInt64 in *; lia). split; [exact Hst|]. split; [exact I|].
      eexists. split; [reflexivity|]. split; [lia|]. split; [lia|]. split.
      * intros k r i Hk Hi. specialize (Hrow k r i Hk Hi). cbn in Hrow. lia.
      * intros m Hm. rewrite (Heq m Hm). lia.
    + split; [exact Hst|]. split; [exact I|]. exists next. split; [reflexivity|]. split; [lia|]. split; [lia|].
      split; [exact Hrow|]. intros m Hm. rewrite (Heq m Hm). lia.
Qed.

Lemma serve_spec (requests : list (string + string * Z)) : forall w es w',
  (forall q, q ∈ requests -> allocates w (requested q)) ->
  (forall q, q ∈ requests -> row_ids (store w) (requested q) (fun i => i < maxInt64)%Z) ->
  collect serve_one requests w = (Done es, w') -> Forall (fun e => id_of e < maxInt64)%Z es ->
  store w' = store w /\ Forall (at_least w) es /\ StronglySorted above es /\ forall t, allocates w t -> allocates w' t.
Proof.
  induction requests as [|q qs IH]; intros w es w' Ha Hmax E Hes; cbn [collect] in E.
  { injection E as <- <-. repeat split; try constructor. auto. }
  m_inv. unfold mret, M_ret in E. injection E as <- <-. apply Forall_cons in Hes as [He Hes].
  match goal with Hs : serve_one _ _ = _ |- _ => apply serve_one_spec in Hs as (Htab & Hst & Hal & n & Hset & Hn & Hpos & Hrow & Hmono); [|apply Ha, elem_of_cons; now left|apply Hmax, elem_of_cons; now left|exact He] end.
  match goal with Hs : rowIDAlloc (sm ?w1) = _ |- _ => assert (Hkeep : forall t, allocates w t -> allocates w1 t) end.
  { intros t. unfold allocates. rewrite Hset, Hst.
    destruct (decide (ToLower t = ToLower (table_of x))) as [Et|Et].
    - intros _. rewrite Et, lookup_insert_eq. split; [lia|]. unfold row_ids, dataPrefix in *. now rewrite Et.
    - now rewrite lookup_insert_ne by congruence. }
  match goal with Hc : collect _ _ ?w1 = _ |- _ => apply IH in Hc as (Hst' & Hall & Hsort & Hlast) end.
  - split; [congruence|]. split; [constructor; [exact Hal|]|split; [constructor; [exact Hsort|]|auto]].
    + eapply Forall_impl; [exact Hall|]. intros [t i|t i]; [|easy]. cbn. rewrite Hst, Hset. intros [Hr Hm]. split; [exact Hr|].
      intros m Hm'. destruct (decide (ToLower t = ToLower (table_of x))) as [Et|Et].
      * specialize (Hm n). rewrite Et, lookup_insert_eq in Hm. rewrite Et in Hm'. specialize (Hmono m Hm'). specialize (Hm eq_refl). lia.
      * apply Hm. now rewrite lookup_insert_ne by congruence.
    + eapply Forall_impl; [exact Hall|]. intros [t i|t i]; [|easy]. cbn. rewrite Hset. intros [_ Hm] Et.
      specialize (Hm n). rewrite Et, lookup_insert_eq in Hm. specialize (Hm eq_refl). lia.
  - intros q' Hq. apply Hkeep, Ha, elem_of_cons. now right.
  - intros q' Hq. rewrite Hst. apply Hmax, elem_of_cons. now right.
  - exact Hes.
Qed.

(** C30: take a state in which the allocator of each requested table, where it is initialised, is above
    the row ids of the stored rows of that name ([allocates]): it is so after a start, when none is
    initialised.  Then the row ids that any sequence of requests to the allocators generates for a table
    are above those of its stored rows, and above those generated or brought along before them: they
    are fresh and strictly increasing, as long as the ids stay below the greatest 64-bit integer; and the
    requests keep what is asked of the allocators.  A rename does not: RenameTable forgets the allocator
    of the old name only, so one that the new name has from a table of before stays, below the ids of the
    rows that come in, and ids repeat: [rename_keeps_allocator]. *)
Theorem row_ids_fresh (requests : list (string + string * Z)) (w w' : World) (es : list row_id) :
  (forall q, q ∈ requests -> allocates w (requested q)) ->
  (forall q, q ∈ requests -> row_ids (store w) (requested q) (fun i => i < maxInt64)%Z) ->
  collect serve_one requests w = (Done es, w') -> Forall (fun e => id_of e < maxInt64)%Z es ->
  store w' = store w /\ StronglySorted above es /\
  (forall t i, Generated t i ∈ es -> row_ids (store w) t (fun j => j < i)%Z) /\
  forall t, allocates w t -> allocates w' t.
Proof.
  intros Ha Hmax E Hes. apply serve_spec in E as (Hst & Hall & Hsort & Hkeep); [|assumption..].
  split; [exact Hst|]. split; [exact Hsort|]. split; [|exact Hkeep]. intros t i Hin. rewrite Forall_forall in Hall. exact (proj1 (Hall _ Hin)).
Qed.
End RowIds.

(** ** Point writes *)

Section PointWrites.
Context `{Json} (db : string) (ev : Evaluators).

Lemma quiet_then {A B} (m : M A) (k : A -> M B) w r w' : Quiet m -> mbind k m w = (r, w') ->
  (store w' = store w /\ forall b, r <> Done b) \/
  exists a w1, m w = (Done a, w1) /\ store w1 = store w /\ k a w1 = (r, w').
Proof.
  intros Hm. specialize (Hm w). unfold mbind, M_bind. destruct (m w) as [[a|e|] w1]; cbn in Hm.
  - intros E. right. eauto.
  - intros [= <- <-]. left. now split.
  - intros [= <- <-]. left. now split.
Qed.

(** The publication followed by work on the caches: nothing is written, or the batch is. *)
Lemma publish_then {B} table checks ops conflict (k : () -> M B) w r w' : (forall u, Quiet (k u)) ->
  mbind k (Table.publish table checks ops conflict) w = (r, w') ->
  (store w' = store w /\ forall b, r <> Done b) \/
  (forallb (spec_check (store w)) checks = true /\ store w' = spec_commit (store w) ops /\
   forall b, r = Done b -> exists u w1, k u w1 = (Done b, w')).
Proof.
  intros Hk. unfold Table.publish, compareWritePoint, attempt, mbind, M_bind.
  destruct (kv_compare checks ops w) as [rc w1] eqn:Ec. apply compare_cases in Ec.
  destruct rc as [[lsn [|]]|e|]; cbn.
  - intros E. specialize (Hk () w1). rewrite E in Hk. cbn in Hk. destruct Ec as [[_ Hn]|(Hc & Hs & _)]; [now destruct (Hn lsn)|].
    right. split; [exact Hc|]. split; [congruence|]. intros b ->. eauto.
  - intros [= <- <-]. destruct Ec as [[Hs _]|(_ & _ & [Hr|[e Hr]])]; [left; now split| |]; congruence.
  - intros [= <- <-]. cbn. destruct Ec as [[Hs _]|(Hc & Hs & _)]; [left; now split|]. right. repeat split; try assumption. congruence.
  - intros [= <- <-]. destruct Ec as [[Hs _]|(Hc & Hs & _)]; [left; now split|]. right. repeat split; try assumption. congruence.
Qed.

Inductive point_write : Type :=
  | PInsert (table : string) (r : Row)
  | PUpdate (table pk : string) (f : Row -> M Row)
  | PDelete (table pk : string).

(** Whether a row was written. *)
Definition execute_point (p : point_write) : M bool :=
  match p with
  | PInsert t r => _ ← InsertWithRowID db ev t r; mret true
  | PUpdate t pk f => o ← UpdateByPK db ev t pk f; mret (bool_decide (is_Some o))
  | PDelete t pk => o ← DeleteByPK db ev t pk; mret (bool_decide (is_Some o))
  end.

(** The one operation of a point write, and what the store held at its key.  An insert writes the
    caller's row, completed by the schema and under the primary key it then has; an update the row that it
    read, under the assignments that it made of it.  The schema that the defaults of a stored row come from is
    read again under the gate of the table. *)
Definition point_effect (p : point_write) (w : World) (op : BatchOp) : Prop :=
  match p with
  | PInsert t r => exists schema w1 nr pk w2 schema' w3 row data,
      GetSchema db t w = (Done schema, w1) /\ completed_row ev schema (now w1) r nr /\
      PrimaryKeyForRow schema nr = Done pk /\ lsn_at (store w) (dataKey db t pk) = 0%N /\
      store w2 = store w /\ GetSchema db t w2 = (Done schema', w3) /\
      applySchemaDefaults ev schema' (now w3) nr = Done row /\ nr ⊆ row /\
      encode row = Done data /\ op = put (dataKey db t pk) data
  | PUpdate t pk f => exists v l old w1 schema w2 w3 updates w4 row data,
      rows (store w) !! dataKey db t pk = Some (v, l) /\ decode v = Done old /\
      store w1 = store w /\ GetSchema db t w1 = (Done schema, w2) /\
      store w3 = store w /\ f old w3 = (Done updates, w4) /\
      applySchemaDefaults ev schema (now w4) (assign_all (Columns schema) updates old) = Done row /\
      encode row = Done data /\ op = put (dataKey db t pk) data
  | PDelete t pk => exists v l old, rows (store w) !! dataKey db t pk = Some (v, l) /\ decode v = Done old /\
                      op = del (dataKey db t pk)
  end.

Definition point_reads (p : point_write) : Prop :=
  match p with PUpdate _ _ f => forall r, Quiet (f r) | _ => True end.

Lemma got_row key w r lsn w' : getKeyWithLSN key w = (Done (r, lsn), w') ->
  exists v, rows (store w) !! key = Some (v, lsn) /\ decode v = Done r.
Proof.
  intros E. unfold getKeyWithLSN in E. m_inv. unfold mret, M_ret in E. injection E as -> <- <-.
  match goal with Hg : kv_get _ _ = _ |- _ => unfold kv_get in Hg; m_inv; rename Hg into Hk end.
  match goal with Hl : lift _ _ = _ |- _ => unfold lift in Hl; apply pair_equal_spec in Hl as [Hd <-] end.
  match goal with Hr : kv _ _ = (Done ?a, _) |- _ =>
    assert (Hs : (refuse_or_spec (OGet (bytes key)) (store w)).1 = Done a);
    [revert Hr; unfold kv; destruct (refuse_or_spec _ _) as [rr st]; destruct (faults w) as [|[]?]; cbn; congruence|clear Hr] end.
  revert Hs. unfold refuse_or_spec. destruct (allowed _); [|discriminate]. cbn [spec]. unfold present, result_of. rewrite string_of_bytes.
  destruct (rows (store w) !! key) as [[v l]|] eqn:Ev; cbn; [|discriminate]. intros [= <-].
  unfold mret, M_ret in Hk. injection Hk as <- <-. cbn [KVClient.Value KVClient.LSN] in *. exists v. split; [reflexivity|].
  revert Hd. unfold failed_to_parse. destruct (decode v); congruence.
Qed.

Lemma got_attempt key w r w' : attempt (getKeyWithLSN key) w = (Done r, w') ->
  match r with
  | inl (row, lsn) => exists v, rows (store w) !! key = Some (v, lsn) /\ decode v = Done row
  | inr _ => True
  end.
Proof.
  unfold attempt. destruct (getKeyWithLSN key w) as [[[row lsn]|e|] w1] eqn:E; intros [= <- <-]; [|easy]. eapply got_row, E.
Qed.

Ltac step E := apply quiet_then in E as [[? ?]|(? & ? & ? & ? & E)]; [left; split; congruence| |solve [quiet]]; cbv beta zeta in E.

(** The publication of one operation, with the check that the key has the commit number [n]. *)
Ltac published_one E n :=
  apply publish_then in E; [|intros; quiet];
  destruct E as [[? ?]|(Hcheck & Hstore & Hdone)]; [left; split; congruence|right];
  cbn [forallb] in Hcheck; rewrite andb_true_r in Hcheck; apply check_current in Hcheck.

Lemma wrapped {A} msg (r : outcome error A) w a w' : wrapping msg (lift r) w = (Done a, w') -> r = Done a.
Proof.
  unfold wrapping, lift, attempt, mbind, M_bind. destruct r as [d|e|]; [|discriminate|discriminate].
  unfold mret, M_ret. now intros [= -> _].
Qed.

Lemma filled_defaults cols t : forall row row', fill_defaults ev cols t row = Done row' -> row ⊆ row'.
Proof.
  induction cols as [|c cols IH]; intros row row' E; cbn [fill_defaults] in E; [now injection E as <-|].
  destruct (rowColumnValue row (col_Name c)) eqn:Ec; [now apply IH|].
  apply StorageFacts.bind_done in E as (d & _ & E). apply IH in E. etransitivity; [|exact E].
  destruct d; [|reflexivity]. apply insert_subseteq. revert Ec. unfold rowColumnValue. now destruct (row !! col_Name c).
Qed.

Lemma schema_defaults s t row row' : applySchemaDefaults ev s t row = Done row' -> row ⊆ row'.
Proof.
  unfold applySchemaDefaults. intros E. apply StorageFacts.bind_done in E as (r & Er & E).
  apply StorageFacts.bind_done in E as (_ & _ & [= <-]). exact (filled_defaults _ _ _ _ Er).
Qed.

Lemma insert_cases t r w res w' : InsertWithRowID db ev t r w = (res, w') ->
  (store w' = store w /\ forall b, res <> Done b) \/
  exists op, point_effect (PInsert t r) w op /\ store w' = spec_commit (store w) [op].
Proof.
  unfold InsertWithRowID. intros E. step E. step E. destruct x1 as [nr key].
  match goal with Hp : prepareInsertWithSchema _ _ _ _ _ _ = _ |- _ => unfold prepareInsertWithSchema in Hp; m_inv;
    destruct x1 as [[[nr0 key0] id0] r1]; cbn in Hp; unfold mret, M_ret in Hp; injection Hp as -> -> -> end.
  match goal with Hn : normalizeInsertRow _ _ _ _ _ _ = _ |- _ => apply normalized_row in Hn as (Hrow & pk & Hpk & ->) end.
  repeat step E. match goal with Hd : wrapping _ _ _ = (Done ?d, _) |- _ => rename d into data; rename Hd into Hdata end.
  published_one E 0. eexists. split; [|etransitivity; [exact Hstore|f_equal; congruence]].
  match goal with
  | Hs : GetSchema _ _ ?w2 = (Done ?s2, ?w3), Hn : gets now ?w3 = _, Hd : lift (applySchemaDefaults _ ?s2 _ nr) _ = (Done ?row, _) |- _ =>
      unfold gets in Hn; injection Hn as <- _; apply pair_equal_spec in Hd as [Hd _];
      exists x, x0, nr, pk, w2, s2, w3, row, data; rename Hd into Hdef
  end.
  split; [assumption|]. split; [assumption|]. split; [assumption|].
  split; [etransitivity; [|exact Hcheck]; f_equal; congruence|]. split; [congruence|]. split; [assumption|].
  split; [exact Hdef|]. split; [exact (schema_defaults _ _ _ _ Hdef)|]. split; [exact (wrapped _ _ _ _ _ Hdata)|reflexivity].
Qed.

Lemma update_cases t pk f w res w' : (forall r, Quiet (f r)) -> UpdateByPK db ev t pk f w = (res, w') ->
  (store w' = store w /\ forall old, res <> Done (Some old)) \/
  exists op, point_effect (PUpdate t pk f) w op /\ store w' = spec_commit (store w) [op] /\ res <> Done None.
Proof.
  intros Hf. unfold UpdateByPK, getByPKWithLSN. intros E. step E. step E. step E. step E.
  match goal with Ha : attempt (getKeyWithLSN _) _ = _ |- _ => apply got_attempt in Ha as Hgot end.
  match type of E with match ?x with _ => _ end _ = _ => destruct x as [[old lsn]|e] end.
  2:{ left. destruct e as [[]| | | | | | | | |]; unfold mret, M_ret, fail in E; injection E as <- <-; (split; [congruence|easy]). }
  repeat step E. match goal with Hd : lift (encode ?r) _ = (Done ?d, _) |- _ => apply pair_equal_spec in Hd as [Hdata _]; rename r into row, d into data end.
  published_one E lsn. destruct Hgot as (v & Hv & Hd). eexists. split; [|split; [etransitivity; [exact Hstore|f_equal; congruence]|]].
  - match goal with
    | Hs : GetSchema _ _ ?w1 = (Done ?s1, ?w2), Hu : f old ?w3 = (Done ?up, ?w4), Hn : gets now ?w4 = _,
      Ha : lift (applySchemaDefaults _ ?s1 _ _) _ = (Done row, _) |- _ =>
        unfold gets in Hn; injection Hn as <- _; apply pair_equal_spec in Ha as [Ha _];
        exists v, lsn, old, w1, s1, w2, w3, up, w4, row, data
    end.
    split; [etransitivity; [|exact Hv]; f_equal; congruence|]. repeat split; first [assumption|congruence].
  - intros ->. destruct (Hdone _ eq_refl) as (? & ? & Hk). clear - Hk. m_inv. discriminate.
Qed.

Lemma delete_cases t pk w res w' : DeleteByPK db ev t pk w = (res, w') ->
  (store w' = store w /\ forall old, res <> Done (Some old)) \/
  exists op, point_effect (PDelete t pk) w op /\ store w' = spec_commit (store w) [op] /\ res <> Done None.
Proof.
  unfold DeleteByPK, getByPKWithLSN. intros E. step E. step E. step E. step E.
  match goal with Ha : attempt (getKeyWithLSN _) _ = _ |- _ => apply got_attempt in Ha as Hgot end.
  match type of E with match ?x with _ => _ end _ = _ => destruct x as [[old lsn]|e] end.
  2:{ left. destruct e as [[]| | | | | | | | |]; unfold mret, M_ret, fail in E; injection E as <- <-; (split; [congruence|easy]). }
  step E. published_one E lsn. destruct Hgot as (v & Hv & Hd). eexists. split; [|split; [etransitivity; [exact Hstore|f_equal; congruence]|]].
  - exists v, lsn, old. split; [etransitivity; [|exact Hv]; f_equal; congruence|]. now split.
  - intros ->. destruct (Hdone _ eq_refl) as (? & ? & Hk). clear - Hk. m_inv. discriminate.
Qed.

Lemma bind_ret_cases {A B} (m : M A) (g : A -> B) w r w' : (a ← m; mret (g a)) w = (r, w') ->
  exists r0, m w = (r0, w') /\ r = match r0 with Done a => Done (g a) | Fail_ e => Fail_ e | Panic => Panic end.
Proof.
  unfold mbind, M_bind. destruct (m w) as [[a|e|] w1]; intros E; unfold mret, M_ret in E; injection E as <- <-; eauto.
Qed.

End PointWrites.

(** ** At work *)

Definition three_puts : list BatchOp := [put "db:_data:t:1" (bytes "x"); put "db:_data:t:2" (bytes "y"); del "db:_data:t:3"].

Lemma chunks_fit_witness :
  chunkBatchOps three_puts = [three_puts] /\ concat (chunkBatchOps three_puts) = three_puts.
Proof.
  split; [vm_compute; reflexivity|].
  apply (chunks_fit three_puts); [vm_compute; reflexivity|]. repeat (apply Forall_cons_2; [vm_compute; discriminate|]). apply Forall_nil_2.
Defined.

(** Two composite keys whose columns run together when they are only joined. *)
Definition two_keys : Schema := mkSchema "t" [] EmptyString ["a"; "b"] 0 0 false [] [].
Definition ab_row (a b : string) : Row := {["a" := VString a; "b" := VString b]}.

Lemma row_keys_exact_witness :
  dataKey "db" "t" "1:x2:yz" = dataKey "db" "t" "2:xy1:z" <-> ToLower "t" = ToLower "t" /\ ["x"; "yz"] = ["xy"; "z"].
Proof.
  apply (row_keys_exact "db" "t" "t" two_keys two_keys (ab_row "x" "yz") (ab_row "xy" "z")); vm_compute; reflexivity.
Defined.

Definition three_requests : list (string + string * Z) := [inl "t"; inr ("t", 7%Z); inl "T"].

Lemma sample_ids (t : string) (n : Z) : (1 < n)%Z -> row_ids "db" (store sample_world) t (fun i => i < n)%Z.
Proof.
  intros Hn k r i Hk Hi. apply durable_lookup in Hk as (v & l & Hk & _ & ->).
  assert (Hall : forallb (fun kv => match rowIDFromRow (row_of (H := plain) kv.2.1) with Some i => (i <=? 1)%Z | None => true end)
                   (map_to_list (rows (store sample_world))) = true) by (vm_compute; reflexivity).
  rewrite forallb_forall in Hall. apply elem_of_map_to_list, list_elem_of_In in Hk. specialize (Hall _ Hk). cbn [fst snd] in Hall.
  rewrite Hi in Hall. apply Z.leb_le in Hall. lia.
Qed.

Lemma row_ids_fresh_witness :
  exists es w', collect (serve_one "db") three_requests sample_world = (Done es, w') /\
    es = [Generated "t" 2; Brought "t" 7; Generated "T" 8] /\ StronglySorted above es.
Proof.
  destruct (collect (serve_one "db") three_requests sample_world) as [[es|e|] w'] eqn:E;
    [|exfalso; apply (f_equal fst) in E; vm_compute in E; discriminate..].
  exists es, w'. split; [reflexivity|].
  assert (He : es = [Generated "t" 2; Brought "t" 7; Generated "T" 8]).
  { apply (f_equal fst) in E. vm_compute in E. now injection E as <-. }
  split; [exact He|].
  apply (row_ids_fresh "db" three_requests sample_world w' es).
  - intros q _. unfold allocates. destruct (rowIDAlloc _ !! ToLower (requested q)) as [n|] eqn:En; [|exact I].
    assert (n = 2)%Z as ->.
    { apply elem_of_map_to_list in En. revert En. vm_compute (map_to_list _). intros En. inversion En as [|? ? ? Hn]; [reflexivity|inversion Hn]. }
    split; [unfold maxInt64; lia|]. apply sample_ids. lia.
  - intros q _. apply sample_ids. unfold maxInt64. lia.
  - exact E.
  - rewrite He. repeat constructor.
Defined.

Definition pointed : outcome error bool * World :=
  execute_point "db" sample_evaluators (PUpdate "t" "1" (fun _ => mret {["v" := VString "new"]})) sample_world.


(** ** A rename and the allocator of the new name *)

(** A table [u] that is created and filled in a transaction which is rolled back leaves its allocator. *)
Definition forgotten_table : World :=
  (run_s Rollback (run_s (InsertWithRowID_s "db" sample_evaluators "u" (sample_row 1 "gone"))
    (run_s (CreateTable_s "db" (sample_schema "u")) (begin_at sample_world)))).2.

Definition renamed_over : World :=
  run_m (RenameTable "db" "t" "u") (run_m (InsertWithRowID "db" sample_evaluators "t" (sample_row 2 "two")) forgotten_table).

(** The table that is renamed to [u] has the rows 1 and 2, and is given the row id 2 again. *)
Theorem rename_keeps_allocator :
  (InsertWithRowID "db" sample_evaluators "u" {["v" := VString "new"]} renamed_over).1 = Fail_ (PrimaryKeyViolation "u" "2") /\
  ~ allocates "db" renamed_over "u".
Proof.
  split; [vm_compute; reflexivity|]. intros Ha.
  assert (Hn : rowIDAlloc (sm renamed_over) !! "u" = Some 2%Z) by (vm_compute; reflexivity).
  unfold allocates in Ha. change (ToLower "u") with "u" in Ha. rewrite Hn in Ha. destruct Ha as [_ Hr].
  assert (Hi : (durable_rows (store renamed_over) (dataPrefix "db" "u") !! dataKey "db" "u" "2") ≫= rowIDFromRow = Some 2%Z)
    by (vm_compute; reflexivity).
  destruct (_ !! dataKey "db" "u" "2") as [r|] eqn:Er; [|discriminate]. specialize (Hr _ r 2%Z Er Hi). cbn in Hr. lia.
Qed.
