(* ===== verification/ExecTx.v ===== *)
(** * The transaction of a connection (pkg/executor: executor.go, notify.go, session_settings.go)

    BEGIN, COMMIT, ROLLBACK and the savepoints of one connection, with what is staged until the
    commit: LISTEN, UNLISTEN and NOTIFY, and the settings.  The executor owns the storage session; the
    hub of the notifications is shared with the other connections. *)
From Stdlib Require Import NArith ZArith Lia Ascii String.
From stdpp Require Import base option list list_numbers gmap sorting strings.
From S2P Require Import Prelude Token Ast Notify RowLock Bytes RowCodec Float Values Wire KVClient TestKV KVStore Schema UniqueCache TableCache ForeignKey Storage Table SessionState SchemaTx Session AlterTable Commit.

Section ExecTx.
Context `{Json} (db : string) (ev : Evaluators).

(** ** The state of a connection *)

Inductive listenOp : Set :=
  | listenOpListen (channel : string)
  | listenOpUnlisten (channel : string)
  | listenOpUnlistenAll.

(** The lengths of the staged lists. *)
Record notificationSnapshot : Set := mkNSnapshot { ns_listenOps : nat; ns_notifyQueue : nat }.

(** A search path is never empty where it is set, so the empty list is the [nil] of the code. *)
Record Executor : Type := mkExec {
  inTransaction : bool; savepoints : list string; savepointStates : list SessionSavepoint;
  localSearchPathSaves : list (list string);
  searchPath : list string; txSearchPath : list string; localSearchPath : list string;
  hasHub : bool; subscriber : option sub; backendPID : Z;
  listens : gset string; listenOps : list listenOp; notifyQueue : list Notification;
  notificationSaves : list notificationSnapshot;
  lastInsertRowID : Z; changes : Z; totalChanges : Z }.

Record Conn : Type := mkConn { exec : Executor; ses : Session; wld : World; hub : Hub }.

Definition with_exec (f : Executor -> Executor) (c : Conn) : Conn := mkConn (f (exec c)) (ses c) (wld c) (hub c).
Definition with_hub (h : Hub) (c : Conn) : Conn := mkConn (exec c) (ses c) (wld c) h.

(** *** Updates of the executor *)

Definition with_tx (open : bool) (names : list string) (states : list SessionSavepoint) (paths : list (list string))
    (e : Executor) : Executor :=
  mkExec open names states paths (searchPath e) (txSearchPath e) (localSearchPath e) (hasHub e) (subscriber e)
    (backendPID e) (listens e) (listenOps e) (notifyQueue e) (notificationSaves e) (lastInsertRowID e) (changes e)
    (totalChanges e).
Definition with_paths (search tx local : list string) (e : Executor) : Executor :=
  mkExec (inTransaction e) (savepoints e) (savepointStates e) (localSearchPathSaves e) search tx local (hasHub e)
    (subscriber e) (backendPID e) (listens e) (listenOps e) (notifyQueue e) (notificationSaves e) (lastInsertRowID e)
    (changes e) (totalChanges e).
Definition with_subscriber (present : bool) (s : option sub) (pid : Z) (e : Executor) : Executor :=
  mkExec (inTransaction e) (savepoints e) (savepointStates e) (localSearchPathSaves e) (searchPath e) (txSearchPath e)
    (localSearchPath e) present s pid (listens e) (listenOps e) (notifyQueue e) (notificationSaves e)
    (lastInsertRowID e) (changes e) (totalChanges e).
Definition with_listens (l : gset string) (e : Executor) : Executor :=
  mkExec (inTransaction e) (savepoints e) (savepointStates e) (localSearchPathSaves e) (searchPath e) (txSearchPath e)
    (localSearchPath e) (hasHub e) (subscriber e) (backendPID e) l (listenOps e) (notifyQueue e) (notificationSaves e)
    (lastInsertRowID e) (changes e) (totalChanges e).
Definition with_staged_notifications (ops : list listenOp) (queue : list Notification) (saves : list notificationSnapshot)
    (e : Executor) : Executor :=
  mkExec (inTransaction e) (savepoints e) (savepointStates e) (localSearchPathSaves e) (searchPath e) (txSearchPath e)
    (localSearchPath e) (hasHub e) (subscriber e) (backendPID e) (listens e) ops queue saves
    (lastInsertRowID e) (changes e) (totalChanges e).
Definition with_counters (last changed total : Z) (e : Executor) : Executor :=
  mkExec (inTransaction e) (savepoints e) (savepointStates e) (localSearchPathSaves e) (searchPath e) (txSearchPath e)
    (localSearchPath e) (hasHub e) (subscriber e) (backendPID e) (listens e) (listenOps e) (notifyQueue e)
    (notificationSaves e) last changed total.

(** The executor that [New] makes. *)
Definition NewExecutor : Executor :=
  mkExec false [] [] [] ["public"] [] [] false None 0 ∅ [] [] [] 0 0 0.

(** ** The monad of the statements *)

Definition EM (A : Type) : Type := Conn -> outcome error A * Conn.

#[export] Instance EM_ret : MRet EM := fun A a c => (Done a, c).
#[export] Instance EM_bind : MBind EM := fun A B k m c =>
  match m c with
  | (Done a, c) => k a c
  | (Fail_ e, c) => (Fail_ e, c)
  | (Panic, c) => (Panic, c)
  end.

Definition failE {A} (e : error) : EM A := fun c => (Fail_ e, c).
Definition getE {A} (f : Executor -> A) : EM A := fun c => (Done (f (exec c)), c).
Definition modE (f : Executor -> Executor) : EM () := fun c => (Done (), with_exec f c).
Definition modH (f : Hub -> Hub) : EM () := fun c => (Done (), with_hub (f (hub c)) c).

Definition storage {A} (m : SM A) : EM A := fun c =>
  let (r, sw) := m (ses c) (wld c) in (r, mkConn (exec c) sw.1 sw.2 (hub c)).

Definition attemptE {A} (m : EM A) : EM (A + error) := fun c =>
  match m c with
  | (Done a, c) => (Done (inl a), c)
  | (Fail_ e, c) => (Done (inr e), c)
  | (Panic, c) => (Panic, c)
  end.

Fixpoint eachE {A} (f : A -> EM ()) (l : list A) : EM () :=
  match l with [] => mret () | x :: r => _ ← f x; eachE f r end.

(** The command tag, and the commit number of a COMMIT. *)
Record Result : Set := mkResult { Tag : string; r_LSN : N }.
Definition NewResult (tag : string) : Result := mkResult tag 0.

(** ** Notifications (notify.go) *)

Definition SetBackendPID (fresh : sub) (pid : Z) : EM () := fun c =>
  match subscriber (exec c), hasHub (exec c) with
  | None, true =>
      (Done (), mkConn (with_subscriber true (Some fresh) pid (exec c)) (ses c) (wld c)
                  (mkHub (channels (hub c)) (subscribers (hub c)) (published (hub c)) (dropped (hub c)) (lastLSN (hub c))
                     (<[fresh := NewSubscriber pid 0]> (objects (hub c)))))
  | s, h => (Done (), with_exec (with_subscriber h s pid) c)
  end.

(** [fresh] is the address of the new subscriber. *)
Definition SetNotificationHub (fresh : sub) (present : bool) : EM () := fun c =>
  match subscriber (exec c), present with
  | None, true =>
      (Done (), mkConn (with_subscriber true (Some fresh) (backendPID (exec c)) (exec c)) (ses c) (wld c)
                  (mkHub (channels (hub c)) (subscribers (hub c)) (published (hub c)) (dropped (hub c)) (lastLSN (hub c))
                     (<[fresh := NewSubscriber (backendPID (exec c)) 0]> (objects (hub c)))))
  | s, _ => (Done (), with_exec (with_subscriber present s (backendPID (exec c))) c)
  end.

(** What an operation does to the hub and to the set of the channels listened to. *)
Definition listen_effect (s : sub) (op : listenOp) (hl : Hub * gset string) : Hub * gset string :=
  let (h, l) := hl in
  match op with
  | listenOpListen channel => if decide (channel ∈ l) then (h, l) else (Subscribe h s channel, {[channel]} ∪ l)
  | listenOpUnlisten channel => if decide (channel ∈ l) then (Unsubscribe h s channel, l ∖ {[channel]}) else (h, l)
  | listenOpUnlistenAll => (fold_left (fun h channel => Unsubscribe h s channel) (elements l) h, ∅)
  end.

Definition applyListenOp (op : listenOp) : EM () := fun c =>
  match hasHub (exec c), subscriber (exec c) with
  | true, Some s =>
      let (h, l) := listen_effect s op (hub c, listens (exec c)) in
      (Done (), with_hub h (with_exec (with_listens l) c))
  | _, _ => (Done (), c)
  end.

Definition publish_to (h : Hub) (n : Notification) : Hub :=
  Publish (elements (members h (Channel n))) (fun _ => Channels h) h n.

Definition publish_notification (n : Notification) : EM () := fun c =>
  (Done (), if hasHub (exec c) then with_hub (publish_to (hub c) n) c else c).

Definition empty_channel : error := Errorf "channel name cannot be empty".

(** Staged inside a transaction, applied at once outside. *)
Definition stage_listen (op : listenOp) : EM () :=
  open ← getE inTransaction;
  if open : bool
  then modE (fun e => with_staged_notifications (listenOps e ++ [op]) (notifyQueue e) (notificationSaves e) e)
  else applyListenOp op.

Definition executeListen (channel : string) : EM Result :=
  if is_empty channel then failE empty_channel
  else (_ ← stage_listen (listenOpListen channel); mret (NewResult "LISTEN")).

Definition executeUnlisten (stmt : UnlistenStmt) : EM Result :=
  if negb (un_All stmt) && is_empty (un_Channel stmt) then failE empty_channel
  else (_ ← stage_listen (if un_All stmt then listenOpUnlistenAll else listenOpUnlisten (un_Channel stmt));
        mret (NewResult "UNLISTEN")).

Definition same_notification (a b : Notification) : bool := (Channel a =s Channel b) && (Payload a =s Payload b).

(** A notification that is queued already is not queued again. *)
Definition enqueue (n : Notification) (queue : list Notification) : list Notification :=
  if existsb (fun q => same_notification q n) queue then queue else queue ++ [n].

Definition executeNotify (stmt : NotifyStmt) : EM Result :=
  if (8000 <? N.of_nat (String.length (nt_Payload stmt)))%N
  then failE (Errorf "notification payload is longer than 8000 bytes")
  else
    pid ← getE backendPID;
    let n := mkNotification pid (nt_Channel stmt) (nt_Payload stmt) 0 in
    open ← getE inTransaction;
    _ ← (if open : bool
         then modE (fun e => with_staged_notifications (listenOps e) (enqueue n (notifyQueue e)) (notificationSaves e) e)
         else publish_notification n);
    mret (NewResult "NOTIFY").

Definition clearNotificationState : Executor -> Executor := with_staged_notifications [] [] [].

Definition snapshot_of (e : Executor) : notificationSnapshot :=
  mkNSnapshot (length (listenOps e)) (length (notifyQueue e)).

Definition rollbackNotificationsTo (s : notificationSnapshot) (e : Executor) : Executor :=
  with_staged_notifications
    (if (ns_listenOps s <=? length (listenOps e))%nat then take (ns_listenOps s) (listenOps e) else listenOps e)
    (if (ns_notifyQueue s <=? length (notifyQueue e))%nat then take (ns_notifyQueue s) (notifyQueue e) else notifyQueue e)
    (notificationSaves e) e.

(** The disconnect: the subscriptions end, and an open transaction is rolled back. *)
Definition release_subscriptions : EM () := fun c =>
  let h := match hasHub (exec c), subscriber (exec c) with
           | true, Some s => UnsubscribeAll (Channels (hub c)) (hub c) s
           | _, _ => hub c
           end in
  (Done (), with_hub h (with_exec (fun e => clearNotificationState (with_listens ∅ e)) c)).

(** ** Settings (session_settings.go) *)

(** [strings.Split] at one byte. *)
Fixpoint Split (sep : ascii) (s : string) : list string :=
  match s with
  | EmptyString => [EmptyString]
  | String c r =>
      if c =b sep then EmptyString :: Split sep r
      else match Split sep r with w :: ws => String c w :: ws | [] => [str1 c] end
  end.

(** [strings.Fields]: the words between white space. *)
Fixpoint Fields (s : string) : list string :=
  match s with
  | EmptyString => []
  | String c r =>
      if is_space c then Fields r
      else match r with
           | String c' _ =>
               if is_space c' then str1 c :: Fields r
               else match Fields r with w :: ws => String c w :: ws | [] => [str1 c] end
           | EmptyString => [str1 c]
           end
  end.

Definition normalizeSettingName (name : string) : string := ToLower (Join (Fields name) " ").

(** [strings.Trim] of double quotes. *)
Fixpoint unquote_left (s : string) : string :=
  match s with String c r => if c =b DQUOTE then unquote_left r else s | EmptyString => s end.

Fixpoint unquote_right (s : string) : string :=
  match s with
  | EmptyString => EmptyString
  | String c r => match unquote_right r with
                  | EmptyString => if c =b DQUOTE then EmptyString else str1 c
                  | r' => String c r'
                  end
  end.

Definition path_entry (part : string) : string := unquote_right (unquote_left (TrimSpace part)).

Definition known_schemas : list string := ["public"; "pg_catalog"; "information_schema"].

(** The entries of a SET search_path that name a schema the engine has; [public] when there is none. *)
Definition known_path (values : list string) : list string :=
  let entries := List.filter (fun e => negb (is_empty e)) (map path_entry (flat_map (Split ",") values)) in
  match List.filter (fun e => existsb (fun k => ToLower e =s k) known_schemas) entries with
  | [] => ["public"]
  | l => map ToLower l
  end.

Definition effectiveSearchPath (e : Executor) : list string :=
  match localSearchPath e with
  | [] => match searchPath e with [] => ["public"] | l => l end
  | l => l
  end.

Definition beginSettingScope (e : Executor) : Executor := with_paths (searchPath e) (searchPath e) [] e.
Definition commitSettingScope (e : Executor) : Executor := with_paths (searchPath e) [] [] e.
Definition rollbackSettingScope (e : Executor) : Executor :=
  with_paths (match txSearchPath e with [] => searchPath e | l => l end) [] [] e.

(** A SET LOCAL outside a transaction has no effect. *)
Definition set_path (known : list string) (local : bool) (e : Executor) : Executor :=
  if local then (if inTransaction e then with_paths (searchPath e) (txSearchPath e) known e else e)
  else with_paths known (txSearchPath e) [] e.

Definition executeSet (stmt : SetStmt) : EM Result :=
  _ ← (if normalizeSettingName (set_Name stmt) =s "search_path"
       then modE (set_path (known_path (set_Values stmt)) (set_Local stmt)) else mret ());
  mret (NewResult "SET").

Definition setting_constants : list (string * string) :=
  [("server_version", "14.0"); ("server_version_num", "140000"); ("server_encoding", "UTF8");
   ("client_encoding", "UTF8"); ("transaction_isolation", "read committed");
   ("default_transaction_isolation", "read committed"); ("standard_conforming_strings", "on");
   ("integer_datetimes", "on"); ("datestyle", "ISO, MDY"); ("timezone", "UTC"); ("time zone", "UTC");
   ("application_name", EmptyString); ("is_superuser", "off")].

Definition settingValue (name : string) (e : Executor) : outcome error string :=
  let name := normalizeSettingName name in
  if name =s "search_path" then Done (Join (effectiveSearchPath e) ", ")
  else match find (fun kv => name =s kv.1) setting_constants with
       | Some kv => Done kv.2
       | None => Fail_ (Errorf ("feature not supported: unrecognized configuration parameter " ++ goquote name))
       end.

(** The column name and the value that SHOW returns. *)
Definition executeShow (name : string) : EM (string * string) := fun c =>
  (v ← settingValue (normalizeSettingName name) (exec c); Done (normalizeSettingName name, v), c).

(** ** Transactions (executor.go) *)

Definition ErrNoTransaction : error := Errorf "no transaction in progress".

Definition finishCommit (lsn : N) : EM () :=
  ops ← getE listenOps;
  _ ← eachE applyListenOp ops;
  queue ← getE notifyQueue;
  _ ← eachE (fun n => publish_notification (mkNotification (PID n) (Channel n) (Payload n) lsn)) queue;
  _ ← modE clearNotificationState;
  modE commitSettingScope.

Definition finishRollback : EM () := modE (fun e => rollbackSettingScope (clearNotificationState e)).

Definition executeBegin : EM Result :=
  open ← getE inTransaction;
  if open : bool then failE (Errorf "cannot start a transaction within a transaction")
  else (
    _ ← storage Begin;
    _ ← modE (fun e => clearNotificationState (beginSettingScope (with_tx true [] [] [] e)));
    mret (NewResult "BEGIN")).

(** A commit that fails keeps the saved values of SET LOCAL. *)
Definition executeCommit : EM Result :=
  open ← getE inTransaction;
  if negb open then failE (Wrapf "cannot commit" ErrNoTransaction)
  else (
    r ← attemptE (storage (CommitWithLSN db ev));
    match r with
    | inr err => _ ← modE (fun e => with_tx false [] [] (localSearchPathSaves e) e); _ ← finishRollback; failE err
    | inl lsn => _ ← modE (with_tx false [] [] []); _ ← finishCommit lsn; mret (mkResult "COMMIT" lsn)
    end).

(** The innermost savepoint of a name. *)
Fixpoint last_index (name : string) (names : list string) : option nat :=
  match names with
  | [] => None
  | n :: rest => match last_index name rest with
                 | Some i => Some (S i)
                 | None => if n =s name then Some 0 else None
                 end
  end.

Definition no_such_savepoint (name : string) : error := Errorf ("no such savepoint: " ++ name).

(** The state that is put back has the index of the name; a missing one stops the program. *)
Definition restore_paths (i : nat) (e : Executor) : Executor :=
  match localSearchPathSaves e !! i with
  | Some local =>
      with_tx (inTransaction e) (savepoints e) (savepointStates e) (take (S i) (localSearchPathSaves e))
        (with_paths (searchPath e) (txSearchPath e) local e)
  | None => e
  end.

Definition restore_notifications (i : nat) (e : Executor) : Executor :=
  match notificationSaves e !! i with
  | Some s =>
      let e := rollbackNotificationsTo s e in
      with_staged_notifications (listenOps e) (notifyQueue e) (take (S i) (notificationSaves e)) e
  | None => e
  end.

Definition rollbackToSavepoint (name : string) : EM Result :=
  names ← getE savepoints;
  states ← getE savepointStates;
  match last_index name names with
  | None => failE (no_such_savepoint name)
  | Some i =>
      match states !! i with
      | None => fun c => (Panic, c)
      | Some sp =>
          _ ← storage (RollbackToSavepoint db sp);
          _ ← modE (fun e => restore_paths i (restore_notifications i e));
          _ ← modE (fun e => with_tx (inTransaction e) (take (S i) (savepoints e)) (take (S i) (savepointStates e))
                               (localSearchPathSaves e) e);
          mret (NewResult "ROLLBACK")
      end
  end.

Definition executeRollback (name : string) : EM Result :=
  open ← getE inTransaction;
  if negb open then failE (Wrapf "cannot rollback" ErrNoTransaction)
  else if negb (is_empty name) then rollbackToSavepoint name
  else (
    _ ← storage Rollback;
    _ ← modE (with_tx false [] [] []);
    _ ← finishRollback;
    mret (NewResult "ROLLBACK")).

(** Outside a transaction a savepoint begins one; the settings have no scope of their own then. *)
Definition implicit_begin : EM () :=
  open ← getE inTransaction;
  if open : bool then mret ()
  else (
    _ ← storage Begin;
    modE (fun e => clearNotificationState (with_tx true [] [] (localSearchPathSaves e) e))).

Definition executeSavepoint (name : string) : EM Result :=
  _ ← implicit_begin;
  sp ← storage Savepoint;
  _ ← modE (fun e => with_staged_notifications (listenOps e) (notifyQueue e) (notificationSaves e ++ [snapshot_of e])
                       (with_tx (inTransaction e) (savepoints e ++ [name]) (savepointStates e ++ [sp])
                          (localSearchPathSaves e ++ [localSearchPath e]) e));
  mret (NewResult "SAVEPOINT").

Definition executeRelease (name : string) : EM Result :=
  open ← getE inTransaction;
  if negb open then failE (Wrapf "cannot release savepoint" ErrNoTransaction)
  else (
    names ← getE savepoints;
    match last_index name names with
    | None => failE (no_such_savepoint name)
    | Some i =>
        _ ← modE (fun e => with_staged_notifications (listenOps e) (notifyQueue e) (take i (notificationSaves e))
                             (with_tx (inTransaction e) (take i (savepoints e)) (take i (savepointStates e))
                                (take i (localSearchPathSaves e)) e));
        mret (NewResult "RELEASE")
    end).

Definition RollbackActive : EM () :=
  open ← getE inTransaction;
  if open : bool then (_ ← executeRollback EmptyString; mret ()) else mret ().

(** [Close]; the code clears the staged notifications first, and the rollback follows. *)
Definition Close_ : EM () := _ ← release_subscriptions; RollbackActive.

(** ** Statements that change rows *)

(** [executeAtomicMutation]: the statement, its RETURNING included, happens or does not.  [stamp] puts the number
    of the commit into the result. *)
Definition executeAtomicMutation {R} (stamp : N -> R -> R) (apply : EM R) : EM R :=
  open ← storage (getS inTx);
  let owned := negb open in
  _ ← (if owned then storage Begin else mret ());
  pos ← storage Snapshot;
  before ← getE (fun e => (lastInsertRowID e, changes e, totalChanges e));
  r ← attemptE (result ← apply;
                if owned then (lsn ← storage (CommitWithLSN db ev); mret (stamp lsn result)) else mret result);
  match r with
  | inl result => mret result
  | inr err =>
      _ ← (if owned then (_ ← attemptE (storage Rollback); mret ()) else storage (RollbackTo pos));
      let '(last, changed, total) := before in
      _ ← modE (with_counters last changed total);
      failE err
  end.

(** [runDMLAtomicForce], with [runDMLAtomic] as the case without force. *)
Definition runDMLAtomicForce {A} (tableName : string) (force : bool) (apply : EM A) : EM A :=
  open ← storage (getS inTx);
  if open : bool
  then (
    pos ← storage Snapshot;
    r ← attemptE apply;
    match r with inl a => mret a | inr err => _ ← storage (RollbackTo pos); failE err end)
  else (
    uniq ← storage (liftM (hasUniqueIndex db tableName));
    if negb uniq && negb force then apply
    else (
      _ ← storage Begin;
      r ← attemptE apply;
      match r with
      | inr err => _ ← attemptE (storage Rollback); failE err
      | inl a => _ ← storage (CommitWithLSN db ev); mret a
      end)).

Definition runDMLAtomic {A} (tableName : string) : EM A -> EM A := runDMLAtomicForce tableName false.

(** [executeDDL]: a statement that fails inside a transaction leaves the staged state as it was.  The
    catalogue of the analyzer, which is read again afterwards, is not part of this state. *)
Definition executeDDL {R} (apply : EM R) : EM R :=
  open ← storage (getS inTx);
  if negb open then apply
  else (
    sp ← storage Savepoint;
    r ← attemptE apply;
    match r with inl result => mret result | inr err => _ ← storage (RollbackToSavepoint db sp); failE err end).

(** ** The statements of this file *)

(** [Execute], for the statements it handles without the analyzer; [other] stands for the rest. *)
Definition execute_control (other : Statement -> EM Result) (st : Statement) : EM Result :=
  match st with
  | StBegin _ => executeBegin
  | StCommit => executeCommit
  | StRollback name => executeRollback name
  | StSavepoint name => executeSavepoint name
  | StRelease name => executeRelease name
  | StListen channel => executeListen channel
  | StUnlisten s => executeUnlisten s
  | StNotify s => executeNotify s
  | StSet s => executeSet s
  | _ => other st
  end.
End ExecTx.
