(* ===== verification/ExecTxFacts.v ===== *)
(** * What a transaction of a connection stages

    The reference keeps a whole copy of the staged state at every savepoint; the executor keeps
    lengths, in four stacks that must stay aligned.  The executor refines the reference, and what the
    reference has staged at the end is what a commit does, and what a rollback does not. *)
From Stdlib Require Import NArith ZArith Lia Ascii String.
From stdpp Require Import base option list list_numbers gmap sorting strings.
From S2P Require Import Prelude Token Ast Notify RowLock Bytes RowCodec Float Values Wire KVClient TestKV KVStore Schema UniqueCache TableCache ForeignKey Storage Table SessionState SchemaTx Session AlterTable Commit Sample StorageFacts CommitProps SessionFacts ExecTx.
#[local] Set Warnings "-clear-no-such-hyp".

Section Staged.
Context `{Json} (db : string) (ev : Evaluators).

(** ** The statements of a transaction *)

Inductive event : Type :=
  | EvListen (channel : string)
  | EvUnlisten (s : UnlistenStmt)
  | EvNotify (s : NotifyStmt)
  | EvSet (s : SetStmt)
  | EvSavepoint (name : string)
  | EvRelease (name : string)
  | EvRollbackTo (name : string)
  | EvData (m : SM ()).

Definition run_event (e : event) : EM () :=
  match e with
  | EvListen c => _ ← executeListen c; mret ()
  | EvUnlisten s => _ ← executeUnlisten s; mret ()
  | EvNotify s => _ ← executeNotify s; mret ()
  | EvSet s => _ ← executeSet s; mret ()
  | EvSavepoint n => _ ← executeSavepoint n; mret ()
  | EvRelease n => _ ← executeRelease n; mret ()
  | EvRollbackTo n => _ ← rollbackToSavepoint db n; mret ()
  | EvData m => storage m
  end.

(** One statement after the other, whatever becomes of each. *)
Definition run_events (l : list event) : EM () := eachE (fun e => _ ← attemptE (run_event e); mret ()) l.

(** ** The reference *)

Record staged : Type := mkStaged { st_ops : list listenOp; st_queue : list Notification; st_local : list string }.
Record tx_spec : Type := mkSpec { now_staged : staged; session_path : list string; saved : list (string * staged) }.

Definition spec_begin (path : list string) : tx_spec := mkSpec (mkStaged [] [] []) path [].

Definition spec_listen (op : listenOp) (sp : tx_spec) : tx_spec :=
  let s := now_staged sp in
  mkSpec (mkStaged (st_ops s ++ [op]) (st_queue s) (st_local s)) (session_path sp) (saved sp).

Definition spec_event (pid : Z) (sp : tx_spec) (e : event) : tx_spec :=
  let s := now_staged sp in
  match e with
  | EvListen c => if is_empty c then sp else spec_listen (listenOpListen c) sp
  | EvUnlisten u =>
      if un_All u then spec_listen listenOpUnlistenAll sp
      else if is_empty (un_Channel u) then sp else spec_listen (listenOpUnlisten (un_Channel u)) sp
  | EvNotify n =>
      if (8000 <? N.of_nat (String.length (nt_Payload n)))%N then sp
      else mkSpec (mkStaged (st_ops s) (enqueue (mkNotification pid (nt_Channel n) (nt_Payload n) 0) (st_queue s)) (st_local s))
             (session_path sp) (saved sp)
  | EvSet t =>
      if normalizeSettingName (set_Name t) =s "search_path"
      then let known := known_path (set_Values t) in
           if set_Local t then mkSpec (mkStaged (st_ops s) (st_queue s) known) (session_path sp) (saved sp)
           else mkSpec (mkStaged (st_ops s) (st_queue s) []) known (saved sp)
      else sp
  | EvSavepoint n => mkSpec s (session_path sp) (saved sp ++ [(n, s)])
  | EvRelease n =>
      match last_index n (map fst (saved sp)) with
      | Some i => mkSpec s (session_path sp) (take i (saved sp))
      | None => sp
      end
  | EvRollbackTo n =>
      match last_index n (map fst (saved sp)) with
      | Some i => match saved sp !! i with
                  | Some (_, old) => mkSpec old (session_path sp) (take (S i) (saved sp))
                  | None => sp
                  end
      | None => sp
      end
  | EvData _ => sp
  end.

(** ** The refinement *)

(** What is saved is a beginning of what was staged later. *)
Definition begins (a b : staged) : Prop := st_ops a `prefix_of` st_ops b /\ st_queue a `prefix_of` st_queue b.

Record refines (e : Executor) (sp : tx_spec) : Prop := {
  ref_open : inTransaction e = true;
  ref_names : savepoints e = map fst (saved sp);
  ref_states : length (savepointStates e) = length (saved sp);
  ref_local : localSearchPathSaves e = map (fun ns => st_local ns.2) (saved sp);
  ref_lengths : notificationSaves e = map (fun ns => mkNSnapshot (length (st_ops ns.2)) (length (st_queue ns.2))) (saved sp);
  ref_now : now_staged sp = mkStaged (listenOps e) (notifyQueue e) (localSearchPath e);
  ref_path : searchPath e = session_path sp;
  ref_prefix : StronglySorted begins (map snd (saved sp) ++ [now_staged sp]) }.

(** What the statements of a transaction leave alone. *)
Definition outside (c : Conn) := (hub c, listens (exec c), txSearchPath (exec c), hasHub (exec c), subscriber (exec c),
  backendPID (exec c)).

Lemma last_index_lt name names i : last_index name names = Some i -> i < length names.
Proof.
  revert i. induction names as [|n names IH]; intros i; cbn [last_index length]; [discriminate|].
  destruct (last_index name names) as [j|]; [intros [= <-]; specialize (IH j eq_refl); lia|].
  destruct (n =s name); [intros [= <-]; lia|discriminate].
Qed.

Lemma begins_trans a b c : begins a b -> begins b c -> begins a c.
Proof. intros [? ?] [? ?]. split; etransitivity; eassumption. Qed.

(** The sequence of the saved states, with another one now. *)
Lemma staged_snoc (l : list staged) (a : staged) :
  StronglySorted begins (l ++ [a]) <-> StronglySorted begins l /\ Forall (fun x => begins x a) l.
Proof.
  induction l as [|x l IH]; cbn [app].
  - split; [intros _; split; constructor|intros _; repeat constructor].
  - split.
    + intros Hs. inversion Hs as [|? ? Hs' Hf]; subst. apply IH in Hs' as [Hl Ha].
      rewrite Forall_app, Forall_singleton in Hf. destruct Hf as [Hf Hx]. split; constructor; assumption.
    + intros [Hs Hf]. inversion Hs as [|? ? Hs' Hx]; subst. apply Forall_cons in Hf as [Hxa Hf].
      constructor; [apply IH; now split|]. rewrite Forall_app, Forall_singleton. now split.
Qed.

Lemma sorted_more l a b : begins a b -> StronglySorted begins (l ++ [a]) -> StronglySorted begins (l ++ [b]).
Proof.
  intros Hab. rewrite !staged_snoc. intros [Hs Hf]. split; [exact Hs|].
  eapply Forall_impl; [exact Hf|]. intros x Hx. exact (begins_trans _ _ _ Hx Hab).
Qed.

(** *** One statement *)

Lemma listen_refines c sp op : refines (exec c) sp ->
  exists c', stage_listen op c = (Done (), c') /\ refines (exec c') (spec_listen op sp) /\ outside c' = outside c /\ ses c' = ses c.
Proof.
  intros [Hopen Hn Hst Hl Hle Hnow Hp Hpre]. unfold stage_listen, mbind, EM_bind, getE, modE. rewrite Hopen. eexists. split; [reflexivity|].
  split; [|now split]. unfold spec_listen. rewrite Hnow in *. split; cbn; try assumption; try reflexivity.
  eapply sorted_more; [|exact Hpre]. split; cbn; [now apply prefix_app_r|reflexivity].
Qed.

Lemma notify_refines c sp n : refines (exec c) sp -> exists r c',
  run_event (EvNotify n) c = (r, c') /\ r <> Panic /\ refines (exec c') (spec_event (backendPID (exec c)) sp (EvNotify n)) /\
  outside c' = outside c /\ ses c' = ses c.
Proof.
  intros Href. cbn [run_event spec_event]. unfold executeNotify. destruct (8000 <? _)%N.
  { eexists _, c. split; [reflexivity|]. split; [discriminate|]. now split. }
  destruct Href as [Hopen Hn Hst Hl Hle Hnow Hp Hpre].
  unfold mbind, EM_bind, getE, modE. rewrite Hopen. eexists _, _. split; [reflexivity|]. split; [discriminate|].
  split; [|now split]. rewrite Hnow in *. split; cbn; try assumption; try reflexivity.
  eapply sorted_more; [|exact Hpre]. split; cbn; [reflexivity|]. unfold enqueue. destruct (existsb _ _); [reflexivity|now apply prefix_app_r].
Qed.

Lemma set_refines c sp t : refines (exec c) sp -> exists c',
  run_event (EvSet t) c = (Done (), c') /\ refines (exec c') (spec_event (backendPID (exec c)) sp (EvSet t)) /\
  outside c' = outside c /\ ses c' = ses c.
Proof.
  intros Href. cbn [run_event spec_event]. unfold executeSet, mbind, EM_bind. destruct (_ =s "search_path")%string; [|eexists; split; [reflexivity|now split]].
  destruct Href as [Hopen Hn Hst Hl Hle Hnow Hp Hpre]. unfold modE, mret, EM_ret. cbn. eexists. split; [reflexivity|].
  unfold with_exec, set_path. cbn [exec ses hub wld]. rewrite Hopen. rewrite Hnow in *. destruct (set_Local t); (split; [|now split]); split; cbn; try assumption; try reflexivity;
    (eapply sorted_more; [|exact Hpre]); split; cbn; reflexivity.
Qed.

Lemma savepoint_refines c sp n : refines (exec c) sp -> exists c',
  run_event (EvSavepoint n) c = (Done (), c') /\ refines (exec c') (spec_event (backendPID (exec c)) sp (EvSavepoint n)) /\
  outside c' = outside c /\ ses c' = ses c.
Proof.
  intros [Hopen Hn Hst Hl Hle Hnow Hp Hpre]. cbn [run_event spec_event].
  unfold executeSavepoint, implicit_begin, storage, Savepoint, getS, modE, getE, mbind, EM_bind. rewrite Hopen. cbn.
  eexists. split; [reflexivity|]. split; [|now split]. split; cbn; try assumption.
  - now rewrite Hn, map_app.
  - rewrite !length_app. cbn. lia.
  - rewrite Hl, map_app. cbn. now rewrite Hnow.
  - rewrite Hle, map_app. unfold snapshot_of. cbn. now rewrite Hnow.
  - rewrite map_app. cbn. apply staged_snoc. split; [exact Hpre|]. apply staged_snoc in Hpre as [_ Hf].
    rewrite Forall_app, Forall_singleton. split; [exact Hf|]. now split.
Qed.

Lemma map_take {A B} (f : A -> B) n (l : list A) : map f (take n l) = take n (map f l).
Proof. apply fmap_take. Qed.

Lemma release_refines c sp n : refines (exec c) sp -> exists r c',
  run_event (EvRelease n) c = (r, c') /\ r <> Panic /\ refines (exec c') (spec_event (backendPID (exec c)) sp (EvRelease n)) /\
  outside c' = outside c /\ ses c' = ses c.
Proof.
  intros Href. pose proof Href as [Hopen Hn Hst Hl Hle Hnow Hp Hpre]. cbn [run_event spec_event].
  unfold executeRelease, getE, modE, mbind, EM_bind. cbv beta iota. rewrite Hopen. cbn [negb]. rewrite Hn.
  destruct (last_index n (map fst (saved sp))) as [i|] eqn:Ei; eexists _, _; (split; [reflexivity|]); (split; [discriminate|]); [|now split].
  split; [|now split]. split; cbn; try assumption.
  - now rewrite Hn, map_take.
  - rewrite !length_take. lia.
  - now rewrite Hl, map_take.
  - now rewrite Hle, map_take.
  - apply staged_snoc in Hpre as [Hs Hf]. apply staged_snoc. rewrite <- (take_drop i (saved sp)), map_app in Hs, Hf.
    apply Forall_app in Hf as [Hf _]. split; [|exact Hf]. clear - Hs. revert Hs. generalize (map snd (drop i (saved sp))) as l2.
    induction (map snd (take i (saved sp))) as [|x l1 IH]; intros l2 Hs; [constructor|]. cbn in Hs.
    inversion Hs as [|? ? Hs' Hx]; subst. apply Forall_app in Hx as [Hx _]. constructor; [now apply (IH l2)|exact Hx].
Qed.

(** Of a sorted list what comes before a member, and the member, is sorted. *)
Lemma sorted_upto (l : list staged) (a : staged) (i : nat) (x : staged) :
  StronglySorted begins (l ++ [a]) -> l !! i = Some x -> StronglySorted begins (take i l ++ [x]) /\ begins x a.
Proof.
  intros Hs Hx. apply staged_snoc in Hs as [Hs Hf]. split; [|exact (proj1 (Forall_lookup _ _) Hf i x Hx)].
  assert (Hl : l = ((take i l ++ [x]) ++ drop (S i) l)%list) by (rewrite <- app_assoc; symmetry; now apply take_drop_middle).
  rewrite Hl in Hs. revert Hs. generalize (drop (S i) l) as l2. clear.
  induction (take i l ++ [x])%list as [|y l1 IH]; intros l2 Hs; [constructor|]. cbn in Hs.
  inversion Hs as [|? ? Hs' Hy]; subst. apply Forall_app in Hy as [Hy _]. constructor; [now apply (IH l2)|exact Hy].
Qed.

Lemma begins_length x a : begins x a -> length (st_ops x) <= length (st_ops a) /\ length (st_queue x) <= length (st_queue a).
Proof. intros [Ho Hq]. split; [exact (prefix_length _ _ Ho)|exact (prefix_length _ _ Hq)]. Qed.

Lemma take_prefix {A} (x a : list A) : x `prefix_of` a -> take (length x) a = x.
Proof. intros [k ->]. apply take_app_length. Qed.

Lemma rollback_to_inTx sp s : inTx (rollbackToSavepointLocked db sp s) = inTx s.
Proof. unfold rollbackToSavepointLocked. cbn. now destruct (schemaTx s), (sp_schema sp). Qed.

Lemma rollback_refines c sp n : refines (exec c) sp -> exists r c',
  run_event (EvRollbackTo n) c = (r, c') /\ r <> Panic /\ refines (exec c') (spec_event (backendPID (exec c)) sp (EvRollbackTo n)) /\
  outside c' = outside c /\ inTx (ses c') = inTx (ses c).
Proof.
  intros Href. pose proof Href as [Hopen Hn Hst Hl Hle Hnow Hp Hpre]. cbn [run_event spec_event].
  unfold rollbackToSavepoint, getE, mbind, EM_bind. cbv beta iota. rewrite Hn.
  destruct (last_index n (map fst (saved sp))) as [i|] eqn:Ei.
  2:{ eexists _, _. split; [reflexivity|]. split; [discriminate|]. now split. }
  pose proof (last_index_lt _ _ _ Ei) as Hi. rewrite length_map in Hi.
  destruct (savepointStates (exec c) !! i) as [state|] eqn:Es.
  2:{ apply lookup_ge_None in Es. lia. }
  destruct (saved sp !! i) as [[n' old]|] eqn:Eo; [|apply lookup_ge_None in Eo; lia].
  assert (Hold : map snd (saved sp) !! i = Some old) by (change (map snd (saved sp)) with (snd <$> saved sp); now rewrite list_lookup_fmap, Eo).
  destruct (sorted_upto _ _ _ _ Hpre Hold) as [Hsort Hb].
  assert (Hls : localSearchPathSaves (exec c) !! i = Some (st_local old)).
  { rewrite Hl. change (map ?f ?l) with (f <$> l). now rewrite list_lookup_fmap, Eo. }
  assert (Hns : notificationSaves (exec c) !! i = Some (mkNSnapshot (length (st_ops old)) (length (st_queue old)))).
  { rewrite Hle. change (map ?f ?l) with (f <$> l). now rewrite list_lookup_fmap, Eo. }
  unfold storage, RollbackToSavepoint, modS, modE. cbv beta iota. cbn [fst snd exec with_exec].
  eexists _, _. split; [reflexivity|]. split; [discriminate|].
  destruct (begins_length _ _ Hb) as [Hbo Hbq]. rewrite Hnow in Hbo, Hbq, Hb. cbn in Hbo, Hbq. destruct Hb as [Hpo Hpq]. cbn in Hpo, Hpq.
  unfold with_exec. cbn [exec]. unfold restore_notifications. rewrite Hns. unfold rollbackNotificationsTo. cbn [ns_listenOps ns_notifyQueue].
  rewrite (proj2 (Nat.leb_le _ _) Hbo), (proj2 (Nat.leb_le _ _) Hbq), (take_prefix _ _ Hpo), (take_prefix _ _ Hpq).
  unfold restore_paths. cbn [localSearchPathSaves with_staged_notifications]. rewrite Hls.
  split; [|split; [now split|apply rollback_to_inTx]]. split; cbn; try assumption.
  - now rewrite Hn, map_take.
  - rewrite !length_take. lia.
  - now rewrite Hl, map_take.
  - now rewrite Hle, map_take.
  - now destruct old.
  - rewrite (take_S_r _ _ _ Eo), map_app, map_take. cbn [map snd]. apply staged_snoc. split; [exact Hsort|].
    apply staged_snoc in Hsort as [_ Hf]. rewrite Forall_app, Forall_singleton. split; [exact Hf|now split].
Qed.

(** A statement on rows does not end the transaction of the session. *)
Definition data_ok (e : event) : Prop :=
  match e with EvData m => forall s w, inTx (m s w).2.1 = inTx s | _ => True end.

Lemma event_refines c sp e : refines (exec c) sp -> data_ok e ->
  let (r, c') := run_event e c in
  refines (exec c') (spec_event (backendPID (exec c)) sp e) /\ outside c' = outside c /\ inTx (ses c') = inTx (ses c).
Proof.
  intros Href Hok. destruct e as [ch|u|n|t|n|n|n|m].
  - cbn [run_event spec_event]. unfold executeListen, mbind, EM_bind. destruct (is_empty ch); [now split|].
    destruct (listen_refines c sp (listenOpListen ch) Href) as (c' & -> & ? & ? & Hs). cbn. now rewrite Hs.
  - cbn [run_event spec_event]. unfold executeUnlisten, mbind, EM_bind. destruct (un_All u); cbn [negb andb].
    + destruct (listen_refines c sp listenOpUnlistenAll Href) as (c' & -> & ? & ? & Hs). cbn. now rewrite Hs.
    + destruct (is_empty (un_Channel u)); [now split|].
      destruct (listen_refines c sp (listenOpUnlisten (un_Channel u)) Href) as (c' & -> & ? & ? & Hs). cbn. now rewrite Hs.
  - destruct (notify_refines c sp n Href) as (r & c' & -> & _ & ? & ? & Hs). now rewrite Hs.
  - destruct (set_refines c sp t Href) as (c' & -> & ? & ? & Hs). now rewrite Hs.
  - destruct (savepoint_refines c sp n Href) as (c' & -> & ? & ? & Hs). now rewrite Hs.
  - destruct (release_refines c sp n Href) as (r & c' & -> & _ & ? & ? & Hs). now rewrite Hs.
  - destruct (rollback_refines c sp n Href) as (r & c' & -> & _ & ? & ? & Hs). now split.
  - cbn [run_event spec_event]. unfold storage. specialize (Hok (ses c) (wld c)).
    destruct (m (ses c) (wld c)) as [r [s w]]. cbn in *. now split.
Qed.

Lemma events_refine (l : list event) : forall c sp, refines (exec c) sp -> Forall data_ok l ->
  let (r, c') := run_events l c in
  (forall e, r <> Fail_ e) /\
  (r = Done () -> refines (exec c') (fold_left (spec_event (backendPID (exec c))) l sp) /\ outside c' = outside c /\
     inTx (ses c') = inTx (ses c)) /\ outside c' = outside c.
Proof.
  induction l as [|e l IH]; intros c sp Href Hok; [now split|].
  apply Forall_cons in Hok as [He Hok]. unfold run_events in *. cbn [eachE fold_left].
  pose proof (event_refines c sp e Href He) as Hev. unfold mbind, EM_bind, attemptE.
  destruct (run_event e c) as [r c1]. destruct Hev as (Hr & Ho & Ht).
  assert (Hpid : backendPID (exec c1) = backendPID (exec c)) by (unfold outside in Ho; congruence).
  specialize (IH c1 _ Hr Hok). rewrite Hpid in IH.
  destruct r as [x|er|]; cbn; [| |now split].
  all: destruct (eachE _ l c1) as [r' c']; destruct IH as (Hn & Hd & Ho'); (split; [exact Hn|]); (split; [|congruence]);
    intros Hr'; destruct (Hd Hr') as (? & ? & ?); (split; [assumption|split; congruence]).
Qed.

(** C28: in an open transaction the executor stages what a reference stages that keeps whole copies at
    its savepoints, although it keeps only lengths and truncates: the pending LISTEN and UNLISTEN
    operations, the queue of notifications, the search paths and the stack of savepoints are those of
    the reference after any statements, failed ones included.  Neither the shared hub nor the set of the
    channels that are listened to is touched. *)
Theorem staged_state_refines (l : list event) (c c' : Conn) (sp : tx_spec) : refines (exec c) sp ->
  Forall data_ok l -> run_events l c = (Done (), c') ->
  refines (exec c') (fold_left (spec_event (backendPID (exec c))) l sp) /\
  hub c' = hub c /\ listens (exec c') = listens (exec c).
Proof.
  intros Href Hok E. pose proof (events_refine l c sp Href Hok) as Hl. rewrite E in Hl. destruct Hl as (_ & Hd & Ho).
  destruct (Hd eq_refl) as (Hr & _). unfold outside in Ho. split; [exact Hr|split; congruence].
Qed.

(** ** The end of a transaction *)

Definition transaction (l : list event) (commit : bool) : EM Result :=
  _ ← executeBegin; _ ← run_events l; if commit then executeCommit db ev else executeRollback db EmptyString.

(** The subscriptions that the staged operations make, in their order. *)
Definition listened (e : Executor) (ops : list listenOp) (hl : Hub * gset string) : Hub * gset string :=
  match hasHub e, subscriber e with
  | true, Some s => fold_left (fun hl op => listen_effect s op hl) ops hl
  | _, _ => hl
  end.

(** The notifications of the queue, published in its order under the number of the commit. *)
Definition announced (e : Executor) (lsn : N) (queue : list Notification) (h : Hub) : Hub :=
  if hasHub e
  then fold_left (fun h n => publish_to h (mkNotification (PID n) (Channel n) (Payload n) lsn)) queue h else h.

Lemma apply_all ops : forall c, exists c', eachE applyListenOp ops c = (Done (), c') /\
  (hub c', listens (exec c')) = listened (exec c) ops (hub c, listens (exec c)) /\
  exec c' = with_listens (listens (exec c')) (exec c).
Proof.
  induction ops as [|op ops IH]; intros c; cbn [eachE].
  { exists c. split; [reflexivity|]. unfold listened. split.
    - now destruct (hasHub (exec c)), (subscriber (exec c)).
    - now destruct (exec c). }
  unfold mbind at 1, EM_bind at 1, applyListenOp at 1.
  destruct (hasHub (exec c)) eqn:Eh, (subscriber (exec c)) as [s|] eqn:Es; cbn [hub exec].
  1: destruct (listen_effect s op (hub c, listens (exec c))) as [h l] eqn:El.
  - destruct (IH (with_hub h (with_exec (with_listens l) c))) as (c' & E & Hl & He). exists c'. split; [exact E|].
    rewrite Hl. cbn in He. split; [|rewrite He; reflexivity]. unfold listened. unfold with_hub, with_exec, with_listens. cbn [exec hasHub subscriber hub listens fold_left]. now rewrite Eh, Es, El.
  - destruct (IH c) as (c' & E & Hl & He). exists c'. split; [exact E|]. split; [|exact He].
    rewrite Hl. unfold listened. now rewrite Eh, Es.
  - destruct (IH c) as (c' & E & Hl & He). exists c'. split; [exact E|]. split; [|exact He].
    rewrite Hl. unfold listened. now rewrite Eh.
  - destruct (IH c) as (c' & E & Hl & He). exists c'. split; [exact E|]. split; [|exact He].
    rewrite Hl. unfold listened. now rewrite Eh.
Qed.

Lemma publish_all (lsn : N) queue : forall c, exists c',
  eachE (fun n => publish_notification (mkNotification (PID n) (Channel n) (Payload n) lsn)) queue c = (Done (), c') /\
  hub c' = announced (exec c) lsn queue (hub c) /\ exec c' = exec c.
Proof.
  induction queue as [|n queue IH]; intros c; cbn [eachE].
  { exists c. split; [reflexivity|]. unfold announced. now destruct (hasHub (exec c)). }
  unfold mbind at 1, EM_bind at 1, publish_notification at 1. destruct (hasHub (exec c)) eqn:Eh; cbv beta iota.
  - edestruct IH as (c' & E & Hh & He). exists c'. split; [exact E|]. rewrite Hh, He. unfold announced. cbn. now rewrite Eh.
  - destruct (IH c) as (c' & E & Hh & He). exists c'. split; [exact E|]. split; [|exact He]. rewrite Hh. unfold announced. now rewrite Eh.
Qed.

Lemma finish_spec (lsn : N) c : exists c', finishCommit lsn c = (Done (), c') /\
  let hl := listened (exec c) (listenOps (exec c)) (hub c, listens (exec c)) in
  hub c' = announced (exec c) lsn (notifyQueue (exec c)) hl.1 /\ listens (exec c') = hl.2 /\
  searchPath (exec c') = searchPath (exec c) /\ inTransaction (exec c') = inTransaction (exec c).
Proof.
  unfold finishCommit, mbind, EM_bind, getE. cbv beta iota.
  destruct (apply_all (listenOps (exec c)) c) as (c1 & -> & Hl & He). cbv beta iota.
  edestruct (publish_all lsn) as (c2 & E2 & Hh & He2). rewrite E2. unfold modE. cbv beta iota. eexists. split; [reflexivity|].
  cbv zeta. rewrite <- Hl. cbn [fst snd]. unfold with_exec. cbn [hub exec]. cbn.
  rewrite Hh, He2, He. unfold announced. cbn. now split.
Qed.

Lemma begin_refines c r c1 : inTransaction (exec c) = false -> executeBegin c = (r, c1) ->
  match r with
  | Done _ => refines (exec c1) (spec_begin (searchPath (exec c))) /\ inTx (ses c1) = true /\
      txSearchPath (exec c1) = searchPath (exec c) /\ hub c1 = hub c /\ listens (exec c1) = listens (exec c) /\
      backendPID (exec c1) = backendPID (exec c) /\ hasHub (exec c1) = hasHub (exec c) /\
      subscriber (exec c1) = subscriber (exec c)
  | _ => exec c1 = exec c /\ hub c1 = hub c
  end.
Proof.
  intros Hopen. unfold executeBegin, mbind, EM_bind, getE. rewrite Hopen. unfold storage, Begin, mbind, SM_bind, getS, liftM, modS, failS.
  destruct (inTx (ses c)); cbn; [intros [= <- <-]; now split|].
  intros [= <- <-]. cbn.
  split; [|easy]. split; cbn; try reflexivity. constructor; constructor.
Qed.

Lemma outside_exec c c' : outside c' = outside c ->
  hub c' = hub c /\ listens (exec c') = listens (exec c) /\ txSearchPath (exec c') = txSearchPath (exec c) /\
  hasHub (exec c') = hasHub (exec c) /\ subscriber (exec c') = subscriber (exec c).
Proof. unfold outside. intros E. injection E. intros. repeat split; assumption. Qed.

(** What one transaction does: the changes of a reference run when it commits, and none otherwise. *)
Definition transaction_spec (l : list event) (commit : bool) (c c' : Conn) (r : outcome error Result) : Prop :=
  let sp := fold_left (spec_event (backendPID (exec c))) l (spec_begin (searchPath (exec c))) in
  match r with
  | Panic => True
  | Done res =>
      inTransaction (exec c') = false /\
      if commit
      then let hl := listened (exec c) (st_ops (now_staged sp)) (hub c, listens (exec c)) in
           hub c' = announced (exec c) (r_LSN res) (st_queue (now_staged sp)) hl.1 /\ listens (exec c') = hl.2 /\
           searchPath (exec c') = session_path sp
      else hub c' = hub c /\ listens (exec c') = listens (exec c) /\ searchPath (exec c') = searchPath (exec c)
  | Fail_ _ =>
      inTransaction (exec c') = false /\
      hub c' = hub c /\ listens (exec c') = listens (exec c) /\ searchPath (exec c') = searchPath (exec c)
  end.

Lemma commit_spec l c c1 c' r (sp := fold_left (spec_event (backendPID (exec c))) l (spec_begin (searchPath (exec c)))) :
  searchPath (exec c) <> [] -> refines (exec c1) sp -> hub c1 = hub c -> listens (exec c1) = listens (exec c) ->
  txSearchPath (exec c1) = searchPath (exec c) -> hasHub (exec c1) = hasHub (exec c) ->
  subscriber (exec c1) = subscriber (exec c) -> executeCommit db ev c1 = (r, c') -> transaction_spec l true c c' r.
Proof.
  intros Hne Href Hh Hl Ht Hhub Hsub. unfold executeCommit, mbind, EM_bind, getE. rewrite (ref_open _ _ Href). cbn [negb].
  unfold attemptE, storage. destruct (CommitWithLSN db ev (ses c1) (wld c1)) as [[lsn|e|] [s w]]; cbn [fst snd]; [| |now intros [= <- <-]].
  - unfold modE at 1. cbv beta iota. edestruct (finish_spec lsn) as (c2 & E2 & Hf). rewrite E2. cbv zeta in Hf.
    unfold mret, EM_ret. intros [= <- <-]. unfold transaction_spec. cbn [r_LSN]. fold sp. cbv zeta.
    destruct Hf as (Hf1 & Hf2 & Hf3 & Hf4). unfold with_exec in *. cbn [exec hub] in *. rewrite (ref_now _ _ Href). cbn [st_ops st_queue].
    split; [rewrite Hf4; reflexivity|]. rewrite Hf1, Hf2, Hf3. unfold listened, announced. cbn. rewrite Hhub, Hsub, Hh, Hl.
    split; [reflexivity|]. split; [reflexivity|]. exact (ref_path _ _ Href).
  - unfold modE, finishRollback, failE. intros [= <- <-]. unfold transaction_spec. cbn.
    rewrite Ht. split; [reflexivity|]. split; [exact Hh|]. split; [exact Hl|]. now destruct (searchPath (exec c)).
Qed.

Lemma rollback_spec l c c1 c' r (sp := fold_left (spec_event (backendPID (exec c))) l (spec_begin (searchPath (exec c)))) :
  searchPath (exec c) <> [] -> refines (exec c1) sp -> hub c1 = hub c -> listens (exec c1) = listens (exec c) ->
  txSearchPath (exec c1) = searchPath (exec c) -> inTx (ses c1) = true ->
  executeRollback db EmptyString c1 = (r, c') -> transaction_spec l false c c' r.
Proof.
  intros Hne Href Hh Hl Ht Hin. unfold executeRollback, mbind, EM_bind, getE. rewrite (ref_open _ _ Href). cbn [negb is_empty].
  unfold storage, Rollback, mbind, SM_bind, getS, resetLocked. change (negb (is_empty EmptyString)) with false. cbv beta iota. rewrite Hin. cbn [fst snd].
  unfold modE, finishRollback, mret, EM_ret. intros [= <- <-]. unfold transaction_spec. cbn.
  rewrite Ht. split; [reflexivity|]. split; [exact Hh|]. split; [exact Hl|]. now destruct (searchPath (exec c)).
Qed.

(** C13: a transaction that BEGIN opens, on a connection whose search path is not empty, is all or
    nothing for what the connection stages, too.  Whatever statements it consists of - those on rows
    leave the transaction of the session open - some of them failed and some rolled back to savepoints: when it commits, the hub and
    the set of channels are those after the staged LISTEN and UNLISTEN operations and the staged
    notifications, each once, in their order, under the number of the commit, and the search path is
    the one last set; when it is rolled back, or its commit fails, all three are what they were before
    it began.  Of a transaction that SAVEPOINT opens this is not true: [savepoint_transaction_keeps_setting]. *)
Theorem transaction_effects (l : list event) (commit : bool) (c c' : Conn) (r : outcome error Result) :
  inTransaction (exec c) = false -> searchPath (exec c) <> [] -> Forall data_ok l ->
  transaction l commit c = (r, c') -> transaction_spec l commit c c' r.
Proof.
  intros Hopen Hne Hok. unfold transaction, mbind at 1, EM_bind at 1.
  destruct (executeBegin c) as [rb c1] eqn:Eb. apply begin_refines in Eb; [|exact Hopen].
  destruct rb as [x|e|].
  2:{ destruct Eb as [He Hh]. intros [= <- <-]. unfold transaction_spec. rewrite He, Hh. now split. }
  2:{ now intros [= <- <-]. }
  destruct Eb as (Href & Hin & Ht & Hh & Hl & Hp & Hhub & Hsub).
  pose proof (events_refine l c1 _ Href Hok) as Hev. rewrite Hp in Hev. unfold mbind, EM_bind.
  destruct (run_events l c1) as [[[]|e|] c2]; destruct Hev as (Hn & Hd & Ho); [|now destruct (Hn e)|now intros [= <- <-]].
  destruct (Hd eq_refl) as (Href2 & _ & Hin2). apply outside_exec in Ho as (Hh2 & Hl2 & Ht2 & Hhub2 & Hsub2).
  intros E. destruct commit; [eapply commit_spec in E|eapply rollback_spec in E]; try exact E; try exact Href2; congruence.
Qed.

(** ** Statements that change rows *)

(** An operation that only stages, and leaves the transaction open, where there is one. *)
Definition only_stages {R} (m : EM R) : Prop := forall c, inTx (ses c) = true ->
  store (wld (m c).2) = store (wld c) /\ extends (txdata (ses c)) (txdata (ses (m c).2)) /\
  inTx (ses (m c).2) = inTx (ses c).

Definition counters (e : Executor) : Z * Z * Z := (lastInsertRowID e, changes e, totalChanges e).

Lemma mutation_inside {R} stamp (apply : EM R) c c' err : tight (overlay (txdata (ses c))) -> only_stages apply -> inTx (ses c) = true ->
  executeAtomicMutation db ev stamp apply c = (Fail_ err, c') ->
  counters (exec c') = counters (exec c) /\ store (wld c') = store (wld c) /\
  overlay (txdata (ses c')) = overlay (txdata (ses c)) /\ log (txdata (ses c')) = log (txdata (ses c)).
Proof.
  intros Ht Ha Hin. specialize (Ha c Hin) as (Hs & He & _).
  unfold executeAtomicMutation, storage, getS, getD, Snapshot, getE, attemptE, mbind, EM_bind. cbn [fst snd]. rewrite Hin. cbn [negb].
  destruct c as [e s w h]. cbn in *.
  destruct (apply (mkConn e s w h)) as [[res|er|] [e1 s1 w1 h1]]; cbn in *; [discriminate| |discriminate].
  intros [= <- <-]. cbn. destruct (rollback_extends _ _ Ht He) as [Ho Hl]. cbn in Ho, Hl. now repeat split.
Qed.

Lemma mutation_alone {R} stamp (apply : EM R) c c' err : only_stages apply -> inTx (ses c) = false ->
  executeAtomicMutation db ev stamp apply c = (Fail_ err, c') ->
  store (wld c') = store (wld c) \/
  exists s ke, published s (store (wld c)) (store (wld c')) /\ err = EKV ke.
Proof.
  intros Ha Hin. unfold executeAtomicMutation, mbind at 1, EM_bind at 1, storage at 1, getS. cbv beta iota. rewrite Hin. cbn [negb fst snd].
  destruct c as [e s w h]. cbn [exec ses wld hub fst snd] in *. unfold mbind at 1, EM_bind at 1, storage at 1, Begin, mbind at 1, SM_bind at 1, getS.
  cbv beta iota. cbn [ses wld]. rewrite Hin. unfold liftM, Version, gets, modS, mbind at 1, SM_bind at 1. cbv beta iota. cbn [fst snd].
  set (s0 := begun _ s). unfold mbind at 1, EM_bind at 1, storage at 1, Snapshot, getD, getS. cbv beta iota. cbn [fst snd exec ses wld hub].
  unfold mbind at 1, EM_bind at 1, getE. cbv beta iota. unfold mbind at 1, EM_bind at 1, attemptE at 1. unfold mbind at 1, EM_bind at 1.
  specialize (Ha (mkConn e s0 w h) eq_refl) as (Hs & _ & Hin1). cbn [ses wld] in *.
  destruct (apply (mkConn e s0 w h)) as [[res|er|] [e1 s1 w1 h1]]; cbn [exec ses wld hub fst snd] in *; [| |discriminate].
  - unfold mbind, EM_bind, storage, attemptE, mret, EM_ret, modE, failE. cbn. destruct (CommitWithLSN db ev s1 w1) as [rc [s2 w2]] eqn:Ec. cbn.
    apply commit_cases in Ec; [|now rewrite Hin1]. destruct rc as [lsn|ce|]; cbn; [discriminate| |discriminate].
    destruct Ec as [-> Hc]. cbn. unfold Rollback, resetLocked, mbind, SM_bind, getS. cbn. intros [= <- <-]. cbn.
    rewrite <- Hs. destruct Hc as [Hc|[Hp [ke ->]]]; [now left|right; exists s1, ke; now split].
  - unfold mbind, EM_bind, storage, attemptE, mret, EM_ret, modE, failE, Rollback, resetLocked, mbind, SM_bind, getS. cbn.
    change (inTx s0) with true in Hin1. rewrite Hin1. cbn. intros [= <- <-]. left. cbn. exact Hs.
Qed.

(** An INSERT, UPDATE or DELETE with its RETURNING that fails leaves no trace.  In a transaction,
    the staged rows, their log, the store and the counters that the client can ask for are as before
    it; outside, it runs in a transaction of its own, and the store is as before it unless the
    connection to the store failed while the commit was on its way. *)
Theorem mutation_atomic {R} (stamp : N -> R -> R) (apply : EM R) (c c' : Conn) (err : error) :
  tight (overlay (txdata (ses c))) -> only_stages apply -> executeAtomicMutation db ev stamp apply c = (Fail_ err, c') ->
  if inTx (ses c)
  then counters (exec c') = counters (exec c) /\ store (wld c') = store (wld c) /\
       overlay (txdata (ses c')) = overlay (txdata (ses c)) /\ log (txdata (ses c')) = log (txdata (ses c))
  else store (wld c') = store (wld c) \/
       exists s ke, published s (store (wld c)) (store (wld c')) /\ err = EKV ke.
Proof.
  intros Ht Ha E. destruct (inTx (ses c)) eqn:Hin; [eapply mutation_inside|eapply mutation_alone]; eassumption.
Qed.
End Staged.

(** ** At work *)

#[local] Open Scope string_scope.

Definition other_session : Hub := Subscribe (NewHub {[2%positive := NewSubscriber 20 0]}) 2%positive "news".

(** A connection whose subscriber is 1; subscriber 2 of another connection listens to [news]. *)
Definition sample_conn : Conn :=
  (SetNotificationHub 1 true (mkConn NewExecutor (NewSession 1) sample_world other_session)).2.

Definition sample_events : list event :=
  [EvListen "jobs"; EvNotify (mkNotifyStmt "news" "one"); EvSavepoint "a"; EvNotify (mkNotifyStmt "news" "two");
   EvSet (mkSetStmt "search_path" ["pg_catalog"] true); EvUnlisten (mkUnlistenStmt EmptyString true); EvRollbackTo "a";
   EvNotify (mkNotifyStmt "news" "one"); EvSet (mkSetStmt "SEARCH_PATH" ["pg_catalog, public"] false);
   EvData (modD (stagePut "t" "db:_data:t:2" sample_staged))].

Lemma sample_data_ok : Forall data_ok sample_events.
Proof. repeat (apply Forall_cons_2; [first [exact I|intros s w; reflexivity]|]). apply Forall_nil_2. Qed.

Definition committed_conn : outcome error Result * Conn := transaction "db" sample_evaluators sample_events true sample_conn.

(** The notification that the savepoint took back is not sent, and the other is sent once. *)
Lemma transaction_effects_witness :
  committed_conn.1 = Done (mkResult "COMMIT" 4) /\ listens (exec committed_conn.2) = {["jobs"]} /\
  searchPath (exec committed_conn.2) = ["pg_catalog"; "public"] /\
  map Payload (default [] (notifications <$> objects (hub committed_conn.2) !! 2%positive)) = ["one"].
Proof.
  assert (Hr : committed_conn.1 = Done (mkResult "COMMIT" 4)) by (vm_compute; reflexivity). split; [exact Hr|].
  pose proof (transaction_effects "db" sample_evaluators sample_events true sample_conn committed_conn.2 (Done (mkResult "COMMIT" 4))
    ltac:(vm_compute; reflexivity) ltac:(vm_compute; discriminate) sample_data_ok
    ltac:(rewrite <- Hr; unfold committed_conn; apply surjective_pairing)) as (_ & Hh & Hl & Hp).
  rewrite Hh, Hl, Hp. vm_compute. repeat split.
Defined.

Definition staged_conn : outcome error () * Conn := run_events "db" sample_events (executeBegin sample_conn).2.

Lemma staged_state_refines_witness :
  staged_conn.1 = Done () /\
  refines (exec staged_conn.2)
    (fold_left (spec_event 0) sample_events (spec_begin ["public"])) /\ hub staged_conn.2 = hub sample_conn.
Proof.
  assert (Hr : staged_conn.1 = Done ()) by (vm_compute; reflexivity). split; [exact Hr|].
  destruct (staged_state_refines "db" sample_events (executeBegin sample_conn).2 staged_conn.2 (spec_begin ["public"])) as (H1 & H2 & _).
  - split; try (vm_compute; reflexivity). constructor; constructor.
  - exact sample_data_ok.
  - rewrite <- Hr. unfold staged_conn. apply surjective_pairing.
  - split; [exact H1|]. exact H2.
Defined.

(** An UPDATE that stages a row and then fails. *)
Definition failing_apply : EM Result :=
  _ ← storage (modD (stagePut "t" "db:_data:t:2" sample_staged)); failE (Errorf "division by zero").

Lemma failing_stages : only_stages failing_apply.
Proof. intros c _. cbn. split; [reflexivity|]. split; [apply extends_put|reflexivity]. Qed.

Definition failed_mutation : outcome error Result * Conn :=
  executeAtomicMutation "db" sample_evaluators (fun lsn r => mkResult (Tag r) lsn) failing_apply (executeBegin sample_conn).2.

Lemma mutation_atomic_witness :
  failed_mutation.1 = Fail_ (Errorf "division by zero") /\ overlay (txdata (ses failed_mutation.2)) = ∅.
Proof.
  assert (Hr : failed_mutation.1 = Fail_ (Errorf "division by zero")) by (vm_compute; reflexivity). split; [exact Hr|].
  pose proof (mutation_atomic "db" sample_evaluators (fun lsn r => mkResult (Tag r) lsn) failing_apply (executeBegin sample_conn).2 failed_mutation.2 (Errorf "division by zero")
    ltac:(intros t es Ht; vm_compute in Ht; discriminate) failing_stages
    ltac:(rewrite <- Hr; unfold failed_mutation; apply surjective_pairing)) as Hm.
  assert (Hin : inTx (ses (executeBegin sample_conn).2) = true) by (vm_compute; reflexivity). rewrite Hin in Hm.
  destruct Hm as (_ & _ & Ho & _). rewrite Ho. vm_compute. reflexivity.
Defined.

(** ** Where the code does not do what it means to *)

Definition then_ (c : Conn) (m : EM Result) : Conn := (m c).2.
Definition set_session_path (path : string) : EM Result := executeSet (mkSetStmt "search_path" [path] false).
Definition set_local_path (path : string) : EM Result := executeSet (mkSetStmt "search_path" [path] true).

(** A transaction that a savepoint begins does not remember the search path. *)
Theorem savepoint_transaction_keeps_setting :
  searchPath (exec (then_ (then_ (then_ sample_conn executeBegin) (set_session_path "pg_catalog"))
                      (executeRollback "db" EmptyString))) = ["public"] /\
  searchPath (exec (then_ (then_ (then_ sample_conn (executeSavepoint "a")) (set_session_path "pg_catalog"))
                      (executeRollback "db" EmptyString))) = ["pg_catalog"].
Proof. vm_compute. repeat split. Qed.

(** The network fails from here on. *)
Definition disconnected (c : Conn) : Conn := mkConn (exec c) (ses c) (set_faults [LostRequest EOF] (wld c)) (hub c).

(** After a commit that failed, the saved values of SET LOCAL stay, and those of the next transaction
    that a savepoint begins are not where their savepoints are. *)
Definition after_failed_commit : Conn :=
  let c := then_ (then_ (then_ (then_ sample_conn executeBegin) (executeSavepoint "a")) (set_local_path "pg_catalog"))
             (executeSavepoint "b") in
  let c := (storage (modD (stagePut "t" "db:_data:t:2" sample_staged)) c).2 in
  then_ (disconnected c) (executeCommit "db" sample_evaluators).

Theorem failed_commit_leaves_setting :
  inTransaction (exec after_failed_commit) = false /\ effectiveSearchPath (exec after_failed_commit) = ["public"] /\
  effectiveSearchPath (exec (then_ (then_ (then_ after_failed_commit (executeSavepoint "s")) (executeSavepoint "t"))
                               (executeRollback "db" "t"))) = ["pg_catalog"].
Proof. vm_compute. repeat split. Qed.

(** The subscriber keeps the process id it was made with. *)
Theorem backend_pid_of_subscriber :
  let c := (SetBackendPID 3 77 sample_conn).2 in
  backendPID (exec c) = 77%Z /\ (id <$> objects (hub c) !! 1%positive) = Some 0%Z.
Proof. vm_compute. repeat split. Qed.
