(* ===== verification/ExecValue.v ===== *)
(** * Values of expressions (pkg/executor: the helpers of executor.go and compat.go)

    The values an expression evaluates to, beyond those of a row: the text of a JSON document and an
    object identifier with its name.  Their conversions to numbers, truth values and text, the order
    the executor compares them in, its arithmetic on 64 bits, and the patterns of LIKE and GLOB. *)
From Stdlib Require Import NArith ZArith Lia Bool Ascii String List Floats.SpecFloat.
From stdpp Require Import base option list gmap strings.
From S2P Require Import Prelude Token Bytes RowCodec Float Values Schema.

#[local] Set Warnings "-register-all".
#[local] Open Scope string_scope.

(** ** Values *)

Inductive exec_value (A : Type) : Type :=
  | JsonText (text : string)
  | RegOID (oid : Z) (name : string)
  | Foreign_ (a : A).
Arguments JsonText {A} text.
Arguments RegOID {A} oid name.
Arguments Foreign_ {A} a.

#[export] Instance exec_value_eq (A : Type) `{EqDecision A} : EqDecision (exec_value A).
Proof. solve_decision. Defined.

(** Values of any other dynamic type, which the executor only prints. *)
Class Foreign : Type := {
  foreign : Type;
  foreign_eq :: EqDecision foreign;
  fmt_foreign : foreign -> string;
  foreign_marshal : gmap string (value (exec_value foreign)) -> list byte + string;
  foreign_unmarshal : list byte -> gmap string (value (exec_value foreign)) + string
}.

#[export] Instance exec_dynamic `{Foreign} : Dynamic := {|
  other := exec_value foreign;
  fmt_other o := match o with JsonText s => s | RegOID _ name => name | Foreign_ a => fmt_foreign a end;
  row_marshal := foreign_marshal;
  row_unmarshal := foreign_unmarshal |}.

(** No further values: the instance the examples use. *)
Definition no_foreign : Foreign := {|
  foreign := Empty_set; foreign_eq := _; fmt_foreign a := match a with end;
  foreign_marshal _ := inr "unsupported"; foreign_unmarshal _ := inr "unsupported" |}.

(** ** Outcomes

    A function of the executor returns a value or an error, or it panics.  An error is the format it
    is made of with its arguments; [Wrapped] is an error inside another. *)
Inductive xerror : Type :=
  | InvalidText (what : string) (args : list string)
  | DatatypeMismatch (what : string) (args : list string)
  | NotSupported (what : string) (args : list string)
  | UndefinedTable (what : string) (args : list string)
  | LockNotAvailable (what : string) (args : list string)
  | DeadlockDetected (what : string) (args : list string)
  | Errorf (what : string) (args : list string)
  | Wrapped (what : string) (args : list string) (inner : xerror).

Inductive ev (A : Type) : Type :=
  | Ok (a : A)
  | Fails (e : xerror)
  | Crash (why : string).
Arguments Ok {A} a.
Arguments Fails {A} e.
Arguments Crash {A} why.

#[export] Instance ev_ret : MRet ev := @Ok.
#[export] Instance ev_bind : MBind ev := fun A B f m =>
  match m with Ok a => f a | Fails e => Fails e | Crash w => Crash w end.

#[export] Instance ev_fmap : FMap ev := fun A B f m =>
  match m with Ok a => Ok (f a) | Fails e => Fails e | Crash w => Crash w end.

(** [fmt.Errorf("...: %w", err)] *)
Definition wrap_error {A} (what : string) (args : list string) (m : ev A) : ev A :=
  match m with Fails e => Fails (Wrapped what args e) | m => m end.

(** [v, _ := f()]: an error gives the zero value. *)
Definition ignore_error {A} (zero : A) (m : ev A) : ev A :=
  match m with Fails _ => Ok zero | m => m end.

(** A loop over a slice that stops at the first error. *)
Definition mapE {A B} (f : A -> ev B) : list A -> ev (list B) :=
  fix go l := match l with
              | [] => Ok []
              | x :: r => y ← f x; ys ← go r; Ok (y :: ys)
              end.

Definition foldE {A B} (f : A -> B -> ev A) : list B -> A -> ev A :=
  fix go l a := match l with
                | [] => Ok a
                | x :: r => a ← f a x; go r a
                end.

Lemma bind_ok {A B} (m : ev A) (f : A -> ev B) (b : B) :
  (x ← m; f x) = Ok b <-> exists a, m = Ok a /\ f a = Ok b.
Proof. destruct m; cbn; split; intros; naive_solver. Qed.

(** Open the binds of a hypothesis that says a computation returns. *)
Ltac inv_ok :=
  repeat match goal with
  | H : mbind _ _ = Ok _ |- _ => apply bind_ok in H as (? & ? & H)
  | H : mret _ = Ok _ |- _ => unfold mret, ev_ret in H
  | H : Ok _ = Ok _ |- _ => injection H as H; try subst
  | H : Fails _ = Ok _ |- _ => discriminate H
  | H : Crash _ = Ok _ |- _ => discriminate H
  end.

(** ** Machine integers *)

Definition min_int64 : Z := - 2 ^ 63.

(** The value a 64-bit register holds. *)
Definition wrap64 (z : Z) : Z := (z + 2 ^ 63) mod 2 ^ 64 - 2 ^ 63.

Lemma wrap64_range (z : Z) : (- 2 ^ 63 <= wrap64 z < 2 ^ 63)%Z.
Proof. unfold wrap64. pose proof (Z.mod_pos_bound (z + 2 ^ 63) (2 ^ 64) ltac:(lia)). lia. Qed.

Lemma wrap64_id (z : Z) : (- 2 ^ 63 <= z < 2 ^ 63)%Z -> wrap64 z = z.
Proof. intros Hz. unfold wrap64. rewrite Z.mod_small; lia. Qed.

(** [strconv.ParseInt(s, 10, 64)]: [None] is an error. *)
Definition ParseInt (s : string) : option Z :=
  let (neg, digits) := strip_sign s in
  match digits with
  | EmptyString => None
  | _ => if string_forallb is_digit digits then
           let n := Z.of_N (digits_value digits 0) in
           let z := if neg then (- n)%Z else n in
           if (- 2 ^ 63 <=? z)%Z && (z <? 2 ^ 63)%Z then Some z else None
         else None
  end.

(** [f, _ := strconv.ParseFloat(s, 64)]: an overflow gives an infinity, a syntax error zero. *)
Definition parse_float_value (s : string) : spec_float :=
  match special s with
  | Some x => x
  | None => match read_number binary64 s with Some x => x | None => S754_zero false end
  end.

(** ** Floats *)

Definition fadd := SFadd 53 1024.
Definition fsub := SFsub 53 1024.
Definition fmul := SFmul 53 1024.
Definition fdiv := SFdiv 53 1024.
Definition flt (x y : spec_float) : bool := SFltb x y.
Definition feq (x y : spec_float) : bool := SFeqb x y.
Definition of_int (z : Z) : spec_float := round_int binary64 z.

(** [n] digits after the point or an exponent: [strconv.FormatFloat(f, 'g', 15, 64)] of a finite
    value that is not zero.  The digits are rounded to nearest, ties to even; trailing zeros go. *)
Definition format_g15 (s : bool) (m : positive) (e : Z) : string :=
  let (a, b) := ratio m e in
  let dp := decimal_point a b in
  let (q, half) := scaled a b dp 15 in
  let q := match half with Lt => q | Gt => (q + 1)%Z | Eq => if Z.even q then q else (q + 1)%Z end in
  let '(d, t) := strip_zeros 20 q (dp - 15) in
  let digits := decimal d in
  let nd := Z.of_nat (String.length digits) in
  let dp := (nd + t)%Z in
  let eprec := (if (nd <? 15) && (dp <=? nd) then nd else 15)%Z in
  ((if s then "-" else EmptyString)
   ++ (if ((dp - 1 <? -4) || (eprec <=? dp - 1))%Z then format_e digits (dp - 1)%Z
       else format_f digits dp))%string.

Definition has_byte (p : ascii -> bool) (s : string) : bool := negb (string_forallb (fun c => negb (p c)) s).

Definition point_or_exponent (c : ascii) : bool := (c =b ".") || (c =b "e") || (c =b "E").

Definition formatSQLiteReal (x : spec_float) : string :=
  match x with
  | S754_nan => "NaN"
  | S754_infinity s => if s then "-Inf" else "Inf"
  | S754_zero s => if s then "-0.0" else "0.0"
  | S754_finite s m e =>
      match trunc_to_Z x with
      | Some z => if is_integral x && (Z.abs z <? 10 ^ 15)%Z then itoaZ z ++ ".0"
                  else let t := format_g15 s m e in
                       if has_byte point_or_exponent t then t else t ++ ".0"
      | None => EmptyString
      end
  end.

Section ExecValue.
Context `{Foreign}.

Definition Int (z : Z) : val := VInt GoInt64 z.
Definition Real (x : spec_float) : val := VFloat64 (to_bits binary64 x).
Definition real (bits : N) : spec_float := of_bits binary64 bits.
Definition Bool (b : bool) : val := VBool b.
Definition Text (s : string) : val := VString s.

(** ** Conversions *)

Definition isIntVal (v : val) : bool :=
  match v with
  | VInt GoInt64 _ | VInt GoInt _ | VBool _ | VOther (RegOID _ _) => true
  | _ => false
  end.

Definition toInt64 (v : val) : Z :=
  match v with
  | VInt GoInt64 z | VInt GoInt z => z
  | VFloat64 bits => int64_of_float (real bits)
  | VOther (RegOID oid _) => oid
  | VBool b => if b then 1 else 0
  | VOther (JsonText s) =>
      match ParseInt s with Some z => z | None => int64_of_float (parse_float_value s) end
  | _ => 0
  end.

Definition toFloat (v : val) : spec_float :=
  match v with
  | VInt GoInt64 z | VInt GoInt z => of_int z
  | VFloat64 bits => real bits
  | VBool b => if b then of_int 1 else S754_zero false
  | VString s | VOther (JsonText s) => parse_float_value s
  | _ => S754_zero false
  end.

Definition text_is_true (s : string) : bool :=
  negb (s =s EmptyString) && negb (s =s "0") && negb (ToLower s =s "false").

Definition toBool (v : val) : bool :=
  match v with
  | VBool b => b
  | VInt GoInt64 z | VInt GoInt z => negb (z =? 0)%Z
  | VFloat64 bits => negb (is_zero (real bits))
  | VString s | VOther (JsonText s) => text_is_true s
  | _ => false
  end.

Definition toString (v : val) : string :=
  match v with
  | VNil => EmptyString
  | VString s | VOther (JsonText s) => s
  | VBytes l => string_of l
  | VOther (RegOID _ name) => name
  | VBool b => if b then "1" else "0"
  | VInt GoInt z | VInt GoInt64 z => itoaZ z
  | VUint GoUint n | VUint GoUint64 n => itoa n
  | VFloat32 bits => formatSQLiteReal (of_bits binary32 bits)
  | VFloat64 bits => formatSQLiteReal (real bits)
  | _ => sprint v
  end.

Definition toNumeric (v : val) : option spec_float :=
  match v with
  | VInt GoInt64 z | VInt GoInt z => Some (of_int z)
  | VFloat64 bits => Some (real bits)
  | VOther (RegOID oid _) => Some (of_int oid)
  | VString s | VOther (JsonText s) => ParseFloat binary64 s
  | _ => None
  end.

(** ** Order *)

(** [strings.Compare] *)
Definition compare_text (a b : string) : comparison := String.compare a b.

Definition compare_float (x y : spec_float) : comparison :=
  if flt x y then Lt else if flt y x then Gt else Eq.

Definition compare (a b : val) : comparison :=
  match is_nil a, is_nil b with
  | true, true => Eq
  | true, false => Lt
  | false, true => Gt
  | false, false =>
      match toNumeric a, toNumeric b with
      | Some x, Some y => compare_float x y
      | _, _ => compare_text (toString a) (toString b)
      end
  end.

Definition isComparisonOp (op : TokenType) : bool :=
  token_in op [TokenEq; TokenNeq; TokenLt; TokenLte; TokenGt; TokenGte].

(** The comparison of a three-way result with zero. *)
Definition holds (op : TokenType) (c : comparison) : option bool :=
  match op with
  | TokenEq => Some match c with Eq => true | _ => false end
  | TokenNeq => Some match c with Eq => false | _ => true end
  | TokenLt => Some match c with Lt => true | _ => false end
  | TokenLte => Some match c with Gt => false | _ => true end
  | TokenGt => Some match c with Gt => true | _ => false end
  | TokenGte => Some match c with Lt => false | _ => true end
  | _ => None
  end.

Definition comparisonOperatorResult (op : TokenType) (c : comparison) : ev bool :=
  match holds op c with
  | Some b => Ok b
  | None => Fails (Errorf "unsupported comparison operator: %v" [TokenType_String op])
  end.

(** ** Bits *)

Definition isBitwiseOp (op : TokenType) : bool :=
  token_in op [TokenBitAnd; TokenBitOr; TokenShiftLeft; TokenShiftRight].

(** A negative count shifts the other way: two calls are enough, except for the one count whose
    negation is itself, on which the code calls itself until the stack is full. *)
Fixpoint bitShift (fuel : nat) (left : bool) (v shift : Z) : ev Z :=
  match fuel with
  | O => Crash "stack overflow"
  | S k =>
      if (shift <? 0)%Z then bitShift k (negb left) v (wrap64 (- shift))
      else if (64 <=? shift)%Z then Ok (if left then 0 else if (v <? 0)%Z then -1 else 0)%Z
      else Ok (if left then wrap64 (Z.shiftl v shift) else Z.shiftr v shift)
  end.

Definition bitShiftLeft (v shift : Z) : ev Z := bitShift 3 true v shift.
Definition bitShiftRight (v shift : Z) : ev Z := bitShift 3 false v shift.

Definition applyBitwise (op : TokenType) (left right : val) : ev val :=
  let li := toInt64 left in
  let ri := toInt64 right in
  match op with
  | TokenBitAnd => Ok (Int (Z.land li ri))
  | TokenBitOr => Ok (Int (Z.lor li ri))
  | TokenShiftLeft => Int <$> bitShiftLeft li ri
  | TokenShiftRight => Int <$> bitShiftRight li ri
  | _ => Fails (Errorf "unsupported bitwise operator: %v" [TokenType_String op])
  end.

End ExecValue.
