(* ===== verification/Arrays.v ===== *)
(** * Array values (pkg/executor/arrays.go)

    An array is carried as its canonical array-literal text.  The parser and the printer of that
    text, the canonical spelling of the elements, exact comparison of numerals, and the operators on
    arrays: quantified comparison, subscripts, containment.  What depends on the evaluator is in Eval. *)
From Stdlib Require Import NArith ZArith Lia Bool Ascii String List Floats.SpecFloat.
From stdpp Require Import base option list gmap strings.
From S2P Require Import Prelude Token Bytes RowCodec Float Values Schema ExecValue.

#[local] Open Scope string_scope.

(** ** Element types *)

Inductive arrayElementKind : Set :=
  | arrayElementText | arrayElementInteger | arrayElementReal | arrayElementNumeric | arrayElementBoolean.

#[export] Instance arrayElementKind_eq : EqDecision arrayElementKind.
Proof. solve_decision. Defined.

(** [strings.HasSuffix] and [strings.TrimSuffix]: the text before a suffix. *)
Fixpoint cut_suffix (suffix s : string) : option string :=
  if s =s suffix then Some EmptyString
  else match s with EmptyString => None | String c r => String c <$> cut_suffix suffix r end.

Definition name_in (name : string) (l : list string) : bool := existsb (String.eqb name) l.

(** The element type of a type name that ends in a pair of brackets. *)
Definition arrayElementType (typeName : string) : option string :=
  TrimSpace <$> cut_suffix "[]" (ToUpper (TrimSpace typeName)).

Definition text_type_names : list string :=
  ["TEXT"; "VARCHAR"; "CHAR"; "CHARACTER"; "CLOB"; "NCHAR"; "NVARCHAR"; "UUID"].
Definition integer_type_names : list string :=
  ["INTEGER"; "INT"; "TINYINT"; "SMALLINT"; "MEDIUMINT"; "BIGINT"].

Definition arrayElementKindForName (name : string) : ev arrayElementKind :=
  let n := ToUpper (TrimSpace name) in
  if name_in n text_type_names then Ok arrayElementText
  else if name_in n integer_type_names then Ok arrayElementInteger
  else if name_in n ["REAL"; "FLOAT"; "DOUBLE"] then Ok arrayElementReal
  else if name_in n ["NUMERIC"; "DECIMAL"] then Ok arrayElementNumeric
  else if name_in n ["BOOLEAN"; "BOOL"] then Ok arrayElementBoolean
  else Fails (NotSupported "arrays of %s are not supported" [ToUpper name]).

Definition arrayElementKindOf (typeName : string) : ev arrayElementKind :=
  match arrayElementType typeName with
  | None => Fails (Errorf "%s is not an array type" [typeName])
  | Some element => arrayElementKindForName element
  end.

(** ** Array literals

    An element is [None] for NULL. *)

Definition isArraySpace (c : ascii) : bool := (c =b " ") || (c =b TAB) || (c =b LF) || (c =b CR).

Fixpoint skip_array_spaces (s : string) : string :=
  match s with String c r => if isArraySpace c then skip_array_spaces r else s | EmptyString => s end.

Definition invalidArrayInput {A} (text reason : string) : ev A :=
  Fails (InvalidText "invalid array input %q: %s" [text; reason]).

Definition BACKSLASH : ascii := Prelude.byte 92.

(** The rest of a quoted element: its text, and what follows the closing quote. *)
Fixpoint scan_quoted (text s : string) : ev (string * string) :=
  match s with
  | EmptyString => invalidArrayInput text "unterminated quoted element"
  | String c r =>
      if c =b BACKSLASH then
        match r with
        | EmptyString => invalidArrayInput text "trailing backslash in quoted element"
        | String d r' => '(v, rest) ← scan_quoted text r'; Ok (String d v, rest)
        end
      else if c =b DQUOTE then Ok (EmptyString, r)
      else '(v, rest) ← scan_quoted text r; Ok (String c v, rest)
  end.

(** A bare element: up to the next comma. *)
Fixpoint scan_bare (text s : string) : ev (string * string) :=
  match s with
  | EmptyString => Ok (EmptyString, EmptyString)
  | String c r =>
      if c =b "," then Ok (EmptyString, s)
      else if (c =b "{") || (c =b "}") || (c =b DQUOTE) then invalidArrayInput text "malformed array element"
      else '(v, rest) ← scan_bare text r; Ok (String c v, rest)
  end.

Definition scan_element (text s : string) : ev (option string * string) :=
  match s with
  | EmptyString => invalidArrayInput text "missing } after comma"
  | String c r =>
      if c =b DQUOTE then '(v, rest) ← scan_quoted text r; Ok (Some v, skip_array_spaces rest)
      else if c =b "{" then Fails (NotSupported "multidimensional arrays are not supported" [])
      else
        '(v, rest) ← scan_bare text s;
        let raw := TrimSpace v in
        if raw =s EmptyString then invalidArrayInput text "empty array element"
        else Ok (if EqualFold raw "NULL" then None else Some raw, rest)
  end.

(** The loop over the elements.  Each round consumes a byte: [fuel] is the length of the text. *)
Fixpoint scan_elements (fuel : nat) (text s : string) : ev (list (option string)) :=
  match fuel with
  | O => Crash "loop"
  | S k =>
      '(v, rest) ← scan_element text (skip_array_spaces s);
      match rest with
      | EmptyString => Ok [v]
      | String c r =>
          if negb (c =b ",") then invalidArrayInput text "expected , between elements"
          else if r =s EmptyString then invalidArrayInput text "trailing comma"
          else vs ← scan_elements k text r; Ok (v :: vs)
      end
  end.

(** The text between the braces. *)
Definition inner_text (s : string) : option string :=
  match s with
  | String "{" r => cut_suffix "}" r
  | _ => None
  end.

Definition parseArrayLiteral (text : string) : ev (list (option string)) :=
  match inner_text (TrimSpace text) with
  | None => invalidArrayInput text "array text must be enclosed in {}"
  | Some inner =>
      if TrimSpace inner =s EmptyString then Ok []
      else scan_elements (String.length inner) text inner
  end.

Definition needs_quote (text : string) : bool :=
  (text =s EmptyString) || EqualFold text "NULL"
  || has_byte (fun c => (c =b "{") || (c =b "}") || (c =b ",") || (c =b DQUOTE) || (c =b BACKSLASH)
                        || isArraySpace c) text.

Fixpoint escape_array_text (s : string) : string :=
  match s with
  | EmptyString => EmptyString
  | String c r => let e := String c (escape_array_text r) in
                  if (c =b DQUOTE) || (c =b BACKSLASH) then String BACKSLASH e else e
  end.

Definition formatArrayElementText (text : string) : string :=
  if needs_quote text then (str1 DQUOTE ++ escape_array_text text ++ str1 DQUOTE)%string else text.

Definition format_element (e : option string) : string :=
  match e with None => "NULL" | Some t => formatArrayElementText t end.

Definition formatArrayLiteral (elements : list (option string)) : string :=
  ("{" ++ Join (map format_element elements) "," ++ "}")%string.

(** ** Numerals

    The scan of a NUMERIC: sign, digits before and after the point, exponent.  One pass serves the
    validation and the exact value. *)
Fixpoint span_digits (s : string) : string * string :=
  match s with
  | String c r => if is_digit c then let (d, rest) := span_digits r in (String c d, rest) else (EmptyString, s)
  | EmptyString => (EmptyString, EmptyString)
  end.

Record numeral : Set := mkNumeral { n_neg : bool; n_int : string; n_frac : string; n_exp : option (bool * string) }.

Definition scan_numeral (text : string) : option numeral :=
  let (neg, s) := match text with String "-" r => (true, r) | _ => (false, text) end in
  let (int, s) := span_digits s in
  let (frac, s) := match s with String "." r => span_digits r | _ => (EmptyString, s) end in
  if (int =s EmptyString) && (frac =s EmptyString) then None
  else match s with
       | EmptyString => Some (mkNumeral neg int frac None)
       | String c r =>
           if (c =b "e") || (c =b "E") then
             let (eneg, r) := strip_sign r in
             let (digits, r) := span_digits r in
             if (digits =s EmptyString) || negb (r =s EmptyString) then None
             else Some (mkNumeral neg int frac (Some (eneg, digits)))
           else None
       end.

Definition strip_plus (s : string) : string := match s with String "+" r => r | _ => s end.

Definition normalizeNumericArrayElement (raw : string) : option string :=
  let text := strip_plus (TrimSpace raw) in
  _ ← scan_numeral text; Some text.

(** An exact rational, its denominator positive. *)
Record rat : Set := mkRat { rnum : Z; rden : positive }.
Definition rat_cmp (a b : rat) : comparison := Z.compare (rnum a * Zpos (rden b)) (rnum b * Zpos (rden a)).

(** [big.Rat.SetString]: a power of ten beyond a million is refused unless the value is zero. *)
Definition rat_of_numeral (n : numeral) : option rat :=
  let m := Z.of_N (digits_value (n_int n ++ n_frac n) 0) in
  let m := if n_neg n then (- m)%Z else m in
  let e := match n_exp n with
           | None => Some 0%Z
           | Some (neg, d) => let e := Z.of_N (digits_value d 0) in
                              let e := if neg then (- e)%Z else e in
                              if (- 2 ^ 63 <=? e)%Z && (e <? 2 ^ 63)%Z then Some e else None
           end in
  e ← e;
  if (m =? 0)%Z then Some (mkRat 0 1)
  else let exp5 := (e - Z.of_nat (String.length (n_frac n)))%Z in
       if (10 ^ 6 <? Z.abs exp5)%Z then None
       else if (0 <=? exp5)%Z then Some (mkRat (m * 10 ^ exp5) 1)
       else Some (mkRat m (Z.to_pos (10 ^ (- exp5)))).

Definition parseArrayBoolean (raw : string) : option bool :=
  let t := ToLower (TrimSpace raw) in
  if name_in t ["t"; "true"; "1"; "y"; "yes"; "on"] then Some true
  else if name_in t ["f"; "false"; "0"; "n"; "no"; "off"] then Some false
  else None.

(** ** Canonical elements *)

Definition invalid_element {A} (typeName raw : string) : ev A :=
  Fails (InvalidText "invalid input syntax for type %s: %q" [typeName; raw]).

Definition some_or {A B} (o : option A) (f : A -> B) (e : ev B) : ev B :=
  match o with Some a => Ok (f a) | None => e end.

Definition canonicalArrayElement (element : option string) (kind : arrayElementKind) (typeName : string)
    : ev (option string) :=
  match element with
  | None => Ok None
  | Some raw =>
      match kind with
      | arrayElementInteger =>
          some_or (ParseInt (TrimSpace raw)) (fun n => Some (itoaZ n)) (invalid_element typeName raw)
      | arrayElementReal =>
          some_or (ParseFloat binary64 (TrimSpace raw)) (fun x => Some (FormatFloat binary64 x))
            (invalid_element typeName raw)
      | arrayElementNumeric =>
          some_or (normalizeNumericArrayElement raw) Some (invalid_element typeName raw)
      | arrayElementBoolean =>
          some_or (parseArrayBoolean raw) (fun b => Some (if b : bool then "t" else "f"))
            (invalid_element typeName raw)
      | arrayElementText => Ok (Some raw)
      end
  end.

Definition canonicalArrayText (text typeName : string) : ev string :=
  kind ← arrayElementKindOf typeName;
  elements ← parseArrayLiteral text;
  canonical ← mapE (fun e => canonicalArrayElement e kind typeName) elements;
  Ok (formatArrayLiteral canonical).

Definition CanonicalizeArrayText (text typeName : string) : ev string := canonicalArrayText text typeName.
Definition ParseArrayText (text : string) : ev (list (option string)) := parseArrayLiteral text.

(** ** The parse cache of a statement

    [parsedArray] keeps the parse of an expression's value by the address of its node, and uses it
    when the text is the one it was made from. *)
Record arrayParseEntry : Type := mkParseEntry { pe_text : string; pe_result : ev (list (option string)) }.

Definition parsedArray (cache : gmap nat arrayParseEntry) (node : nat) (text : string)
    : ev (list (option string)) * gmap nat arrayParseEntry :=
  match cache !! node with
  | Some e => if pe_text e =s text then (pe_result e, cache)
              else let r := parseArrayLiteral text in (r, <[node := mkParseEntry text r]> cache)
  | None => let r := parseArrayLiteral text in (r, <[node := mkParseEntry text r]> cache)
  end.

Definition cache_consistent (cache : gmap nat arrayParseEntry) : Prop :=
  map_Forall (fun _ e => pe_result e = parseArrayLiteral (pe_text e)) cache.

(** ** Values *)

(** The name of a value's dynamic type ([%T]); other types all print as one. *)
Definition type_name `{Foreign} (v : val) : string :=
  match v with
  | VNil => "<nil>" | VBool _ => "bool" | VFloat32 _ => "float32" | VFloat64 _ => "float64"
  | VInt GoInt _ => "int" | VInt GoInt8 _ => "int8" | VInt GoInt16 _ => "int16"
  | VInt GoInt32 _ => "int32" | VInt GoInt64 _ => "int64"
  | VUint GoUint _ => "uint" | VUint GoUint8 _ => "uint8" | VUint GoUint16 _ => "uint16"
  | VUint GoUint32 _ => "uint32" | VUint GoUint64 _ => "uint64" | VUint GoUintptr _ => "uintptr"
  | VString _ => "string" | VBytes _ => "[]uint8" | VNumber _ => "json.Number"
  | VOther (JsonText _) => "executor.jsonText" | VOther (RegOID _ _) => "executor.RegOID"
  | VOther (Foreign_ _) => "interface {}"
  end.

Section Arrays.
Context `{Foreign}.

(** [arrayElementValue] *)
Definition arrayElementValue (element : option string) (elementType : string) : ev val :=
  match element with
  | None => Ok VNil
  | Some raw =>
      kind ← arrayElementKindForName elementType;
      match kind with
      | arrayElementInteger => some_or (ParseInt raw) Int (invalid_element "integer" raw)
      | arrayElementReal => some_or (ParseFloat binary64 raw) Real (invalid_element "double precision" raw)
      | arrayElementNumeric =>
          some_or (normalizeNumericArrayElement raw) Text (invalid_element "numeric" raw)
      | arrayElementBoolean => some_or (parseArrayBoolean raw) Bool (invalid_element "boolean" raw)
      | arrayElementText => Ok (Text raw)
      end
  end.

(** [arrayValueElement] *)
Definition arrayValueElement (v : val) : ev (option string) :=
  match v with
  | VNil => Ok None
  | VBool b => Ok (Some (if b then "t" else "f"))
  | VInt GoInt64 z | VInt GoInt z => Ok (Some (itoaZ z))
  | VFloat64 bits => Ok (Some (FormatFloat binary64 (real bits)))
  | VString s => Ok (Some s)
  | VBytes _ => Fails (NotSupported "arrays of BLOB are not supported" [])
  | _ => Fails (NotSupported "ARRAY[...] element type %T is not supported" [type_name v])
  end.

(** [numericValueRat]: a float by its shortest decimal spelling. *)
Definition numericValueRat (v : val) : option rat :=
  match v with
  | VString s => text ← normalizeNumericArrayElement s; scan_numeral text ≫= rat_of_numeral
  | VInt GoInt64 z | VInt GoInt z => Some (mkRat z 1)
  | VFloat64 bits => scan_numeral (FormatFloat binary64 (real bits)) ≫= rat_of_numeral
  | _ => None
  end.

Definition compareNumericValues (left right : val) : option comparison :=
  a ← numericValueRat left; b ← numericValueRat right; Some (rat_cmp a b).

(** The element-wise loop of [numericArrayTextEqual]. *)
Fixpoint numeric_elements_equal (l r : list (option string)) : ev bool :=
  match l, r with
  | Some a :: l, Some b :: r =>
      match compareNumericValues (Text a) (Text b) with
      | None => invalid_element "numeric" a
      | Some Eq => numeric_elements_equal l r
      | Some _ => Ok false
      end
  | None :: l, None :: r => numeric_elements_equal l r
  | [], [] => Ok true
  | _, _ => Ok false
  end.

Definition numericArrayTextEqual (left right typeName : string) : ev bool :=
  kind ← arrayElementKindOf typeName;
  if decide (kind = arrayElementNumeric) then
    l ← parseArrayLiteral left;
    r ← parseArrayLiteral right;
    if (length l =? length r)%nat then numeric_elements_equal l r else Ok false
  else Ok (left =s right).

(** ** Quantified comparison *)

Definition compareArrayElement (op : TokenType) (left : val) (element elementType : string) : ev bool :=
  let scalar :=
    match left with
    | VBool _ => match parseArrayBoolean element with
                 | Some b => comparisonOperatorResult op (compare left (Bool b))
                 | None => invalid_element "boolean" element
                 end
    | _ => comparisonOperatorResult op (compare left (Text element))
    end in
  match arrayElementKindForName elementType with
  | Ok arrayElementNumeric =>
      match compareNumericValues left (Text element) with
      | Some c => comparisonOperatorResult op c
      | None => invalid_element "numeric" element
      end
  | _ => scalar
  end.

Fixpoint quantified_loop (op : TokenType) (all : bool) (left : val) (elements : list (option string))
    (elementType : string) (sawNull : bool) : ev val :=
  match elements with
  | [] => Ok (if sawNull then VNil else Bool all)
  | None :: r => quantified_loop op all left r elementType true
  | Some e :: r =>
      matched ← compareArrayElement op left e elementType;
      if all && negb matched then Ok (Bool false)
      else if negb all && matched then Ok (Bool true)
      else quantified_loop op all left r elementType sawNull
  end.

Definition evalQuantifiedComparison (op : TokenType) (all : bool) (left : val)
    (elements : list (option string)) (elementType : string) : ev val :=
  match elements with
  | [] => Ok (Bool all)
  | _ => if is_nil left then Ok VNil else quantified_loop op all left elements elementType false
  end.

(** ** Subscripts and length *)

Definition arrayIndexValue (v : val) (what : string) : ev Z :=
  match v with
  | VInt _ z => Ok z
  | _ => Fails (DatatypeMismatch "%s must be an integer, got %T" [what; type_name v])
  end.

Definition subscriptArrayValue (elementType : option string) (value index : val) : ev val :=
  if is_nil value || is_nil index then Ok VNil
  else
    position ← arrayIndexValue index "array subscript";
    elements ← wrap_error "array subscript requires an array value: %w" [] (parseArrayLiteral (toString value));
    if ((position <? 1) || (Z.of_nat (length elements) <? position))%Z then Ok VNil
    else match nth (Z.to_nat (position - 1)) elements None with
         | None => Ok VNil
         | Some e => match elementType with
                     | None => Ok (Text e)
                     | Some t => arrayElementValue (Some e) t
                     end
         end.

Definition evalArrayLength (args : list val) : ev val :=
  match args with
  | [array; dim] =>
      if is_nil array || is_nil dim then Ok VNil
      else
        dimension ← arrayIndexValue dim "array dimension";
        if negb (dimension =? 1)%Z then Ok VNil
        else
          elements ← wrap_error "array_length requires an array value: %w" [] (parseArrayLiteral (toString array));
          Ok (match elements with [] => VNil | _ => Int (Z.of_nat (length elements)) end)
  | _ => Fails (Errorf "array_length requires two arguments" [])
  end.

(** ** Containment *)

Definition canonicalArrayElements (elements : list (option string)) (kind : arrayElementKind)
    (arrayType : string) : ev (list (option string)) :=
  if decide (kind = arrayElementNumeric) then Ok elements
  else mapE (fun e => canonicalArrayElement e kind arrayType) elements.

Definition arrayElementsEqual (left right : option string) (kind : arrayElementKind) (arrayType : string)
    : ev bool :=
  match left, right with
  | Some l, Some r =>
      if decide (kind = arrayElementNumeric) then
        match numericValueRat (Text l), numericValueRat (Text r) with
        | Some a, Some b => Ok match rat_cmp a b with Eq => true | _ => false end
        | None, _ => invalid_element arrayType l
        | _, None => invalid_element arrayType r
        end
      else Ok (l =s r)
  | None, None => Ok true
  | _, _ => Ok false
  end.

Fixpoint container_has (container : list (option string)) (candidate : option string)
    (kind : arrayElementKind) (arrayType : string) : ev bool :=
  match container with
  | [] => Ok false
  | e :: r => equal ← arrayElementsEqual e candidate kind arrayType;
              if equal : bool then Ok true else container_has r candidate kind arrayType
  end.

Fixpoint contains_all (container contained : list (option string)) (kind : arrayElementKind)
    (arrayType : string) : ev bool :=
  match contained with
  | [] => Ok true
  | c :: r => matched ← container_has container c kind arrayType;
              if matched : bool then contains_all container r kind arrayType else Ok false
  end.

Definition arrayContainsElements (container contained : list (option string)) (arrayType : string) : ev bool :=
  kind ← arrayElementKindOf arrayType;
  container ← canonicalArrayElements container kind arrayType;
  contained ← canonicalArrayElements contained kind arrayType;
  contains_all container contained kind arrayType.

Definition arrayContainment (op : TokenType) (arrayType : string) (left right : val) : ev val :=
  if is_nil left || is_nil right then Ok VNil
  else
    l ← wrap_error "array containment requires an array value: %w" [] (parseArrayLiteral (toString left));
    r ← wrap_error "array containment requires an array value: %w" [] (parseArrayLiteral (toString right));
    Bool <$> (if op =t TokenLtAt then arrayContainsElements r l arrayType
              else arrayContainsElements l r arrayType).

(** ** Casts, defaults and stored rows *)

(** [evalArrayCast]; [sqlType] is the SQL name of the target. *)
Definition evalArrayCast (sqlType : string) (v : val) : ev val :=
  match v with
  | VNil => Ok VNil
  | VString text => Text <$> canonicalArrayText text sqlType
  | _ => Fails (InvalidText "cannot cast %T to %s" [type_name v; sqlType])
  end.

Definition canonicalArrayDefault (typeName : string) (v : val) (exprText : string) : ev (val * string) :=
  match arrayElementType typeName with
  | None => Ok (v, exprText)
  | Some _ =>
      if negb (exprText =s EmptyString) || is_nil v then Ok (v, exprText)
      else match v with
           | VString text => canonical ← canonicalArrayText text typeName; Ok (Text canonical, EmptyString)
           | _ => Fails (InvalidText "DEFAULT for %s must be array text, got %T" [typeName; type_name v])
           end
  end.

(** One column of [normalizeArrayRow]. *)
Definition normalize_array_column (row : Row) (c : Column) : ev Row :=
  match arrayElementType (col_Type c), rowColumnValue row (col_Name c) with
  | None, _ | _, None | _, Some VNil => Ok row
  | Some _, Some (VString text) =>
      canonical ← wrap_error "column %q: %w" [col_Name c] (canonicalArrayText text (col_Type c));
      Ok (<[col_Name c := Text canonical]> row)
  | Some _, Some v =>
      Fails (InvalidText "column %q is %s and accepts array text, got %T" [col_Name c; col_Type c; type_name v])
  end.

Fixpoint normalizeArrayRow (columns : list Column) (row : Row) : ev Row :=
  match columns with
  | [] => Ok row
  | c :: r => row ← normalize_array_column row c; normalizeArrayRow r row
  end.

End Arrays.
