(* ===== verification/ExprTypes.v ===== *)
(** * Types of expressions (pkg/executor/result_types.go)

    The SQL type a projection reports: by the declared types of columns and the shape of the
    expression.  Resolvers of column types nest, the innermost first. *)
From Stdlib Require Import NArith ZArith Lia Bool Ascii String List Floats.SpecFloat.
From stdpp Require Import base option list strings.
From S2P Require Import Prelude Token Ast Bytes RowCodec Float Values Schema ExecValue Arrays.

#[local] Open Scope string_scope.
#[local] Set Warnings "-register-all".

(** [columnTypeResolver]: [None] is a resolver that is nil or does not know the column. *)
Definition columnTypeResolver : Type := string -> string -> option string.

Definition trimmed_upper (name : string) : string := ToUpper (TrimSpace name).

Definition isUnknownTypeName (name : string) : bool :=
  name_in (trimmed_upper name) [EmptyString; "ANY"; "UNKNOWN"; "NULL"].

Definition exactInt2TypeName : string := "INT2".

Definition isIntegerTypeName (name : string) : bool :=
  name_in (trimmed_upper name)
    ["INTEGER"; "INT"; "TINYINT"; "SMALLINT"; "MEDIUMINT"; "BIGINT"; exactInt2TypeName].

Definition isFloatCarrierTypeName (name : string) : bool :=
  name_in (trimmed_upper name) ["REAL"; "FLOAT"; "DOUBLE"; "NUMERIC"; "DECIMAL"].

Definition carrierColumnTypes (types : list string) : list string :=
  map (fun t => if EqualFold t exactInt2TypeName then "BIGINT" else t) types.

Definition literalType (ty : TokenType) (value : string) : string :=
  match ty with
  | TokenNumber =>
      if has_byte point_or_exponent value then "DOUBLE"
      else match ParseInt value with
           | Some n => if (-2147483648 <=? n)%Z && (n <=? 2147483647)%Z then "INTEGER" else "BIGINT"
           | None => "BIGINT"
           end
  | TokenBlob => "BLOB"
  | TokenTRUE | TokenFALSE => "BOOLEAN"
  | _ => "TEXT"
  end.

Fixpoint constantNumericValue (e : Expr) : option spec_float :=
  match e with
  | ParenExpr e => constantNumericValue e
  | UnaryExpr op e =>
      match op with
      | TokenMinus => SFopp <$> constantNumericValue e
      | TokenPlus => constantNumericValue e
      | _ => None
      end
  | LiteralExpr TokenNumber v | LiteralExpr TokenString v => ParseFloat binary64 v
  | LiteralExpr TokenTRUE _ => Some (of_int 1)
  | LiteralExpr TokenFALSE _ => Some (S754_zero false)
  | _ => None
  end.

Definition fle (x y : spec_float) : bool := SFleb x y.

(** [math.MaxFloat32] *)
Definition MaxFloat32 : spec_float := of_int (2 ^ 128 - 2 ^ 104).

Definition between_floats (lo hi : spec_float) (e : Expr) : bool :=
  match constantNumericValue e with Some v => fle lo v && fle v hi | None => false end.

Definition arrayResultTypeName (elementType : string) : string :=
  let n := trimmed_upper elementType in
  if name_in n ["INTEGER"; "INT"; "INT4"] then "INTEGER[]"
  else if name_in n ["BIGINT"; "INT8"; "SMALLINT"; exactInt2TypeName; "TINYINT"; "MEDIUMINT"] then "BIGINT[]"
  else if name_in n ["REAL"; "FLOAT"; "FLOAT4"] then "REAL[]"
  else if name_in n ["DOUBLE"; "FLOAT8"] then "DOUBLE[]"
  else if name_in n ["NUMERIC"; "DECIMAL"] then "NUMERIC[]"
  else if name_in n ["BOOLEAN"; "BOOL"] then "BOOLEAN[]"
  else if name_in n ["VARCHAR"; "NVARCHAR"; "CHARACTER VARYING"] then "VARCHAR[]"
  else "TEXT[]".

Definition castResultType (name : string) (operand : Expr) : option string :=
  match arrayElementType name with
  | Some element => Some (arrayResultTypeName element)
  | None =>
      let n := trimmed_upper name in
      if n =s "SMALLINT" then
        Some (if between_floats (of_int (-32768)) (of_int 32767) operand then exactInt2TypeName else "BIGINT")
      else if name_in n ["INTEGER"; "INT"] then
        Some (if between_floats (of_int (-2147483648)) (of_int 2147483647) operand then "INTEGER" else "BIGINT")
      else if name_in n ["TINYINT"; "MEDIUMINT"; "BIGINT"] then Some "BIGINT"
      else if name_in n ["REAL"; "FLOAT"] then
        Some (if match constantNumericValue operand with
                 | Some v => fle (SFabs v) MaxFloat32 | None => false end then "REAL" else "DOUBLE")
      else if n =s "DOUBLE" then Some "DOUBLE"
      else if name_in n ["NUMERIC"; "DECIMAL"] then Some "DOUBLE"
      else if name_in n ["TEXT"; "VARCHAR"; "CHAR"; "CHARACTER"; "CLOB"; "NCHAR"; "NVARCHAR"] then Some "TEXT"
      else if name_in n ["BLOB"; "JSONB"; "REGCLASS"; "REGTYPE"; "OID"; "NAME"] then Some n
      else None
  end.

Definition sumResultType (argType : string) : string :=
  if isFloatCarrierTypeName argType then "DOUBLE"
  else if isIntegerTypeName argType then "BIGINT" else "TEXT".

Definition jsonb_result_functions : list string :=
  ["TO_JSONB"; "JSONB_SET"; "JSONB_INSERT"; "JSONB_REPLACE"; "JSONB_REMOVE"; "JSONB_STRIP_NULLS";
   "JSONB_BUILD_OBJECT"; "JSONB_BUILD_ARRAY"].

(** Functions that return one of their arguments. *)
Definition argument_functions : list string :=
  ["MIN"; "MAX"; "COALESCE"; "IFNULL"; "NVL"; "NULLIF"; "PIZZASQL_PARAM"].

(** The type of a call by its name and the type of its first argument. *)
Definition function_type (name firstArg : string) : string :=
  let n := ToUpper name in
  if n =s "COUNT" then "BIGINT"
  else if n =s "SUM" then sumResultType firstArg
  else if name_in n ["TOTAL"; "AVG"] then "DOUBLE"
  else if name_in n ["ARRAY_LENGTH"; "JSONB_ARRAY_LENGTH"] then "INTEGER"
  else if name_in n ["JSONB_TYPEOF"; "JSONB_PRETTY"] then "TEXT"
  else if name_in n jsonb_result_functions then "JSONB"
  else if name_in n argument_functions then firstArg
  else if n =s "TO_REGCLASS" then "REGCLASS"
  else if n =s "TO_REGTYPE" then "REGTYPE"
  else "TEXT".

Definition boolean_operators : list TokenType :=
  [TokenEq; TokenNeq; TokenLt; TokenLte; TokenGt; TokenGte; TokenAND; TokenOR; TokenAtArrow; TokenLtAt;
   TokenQuestion; TokenQuestionPipe; TokenQuestionAmp].

Definition arithmetic_type (left right : string) : string :=
  if isFloatCarrierTypeName left || isFloatCarrierTypeName right then "DOUBLE"
  else if isIntegerTypeName left && isIntegerTypeName right then "BIGINT" else "TEXT".

(** The type of an operator by the types of its operands. *)
Definition binary_type (op : TokenType) (left right : string) : string :=
  if token_in op boolean_operators then "BOOLEAN"
  else match op with
       | TokenConcat => if EqualFold left "JSONB" || EqualFold right "JSONB" then "JSONB" else "TEXT"
       | TokenArrow | TokenHashArrow | TokenHashMinus => if EqualFold left "JSONB" then "JSONB" else "TEXT"
       | TokenBitAnd | TokenBitOr | TokenShiftLeft | TokenShiftRight => "BIGINT"
       | TokenMinus => if EqualFold left "JSONB" then "JSONB" else arithmetic_type left right
       | TokenPlus | TokenStar | TokenSlash | TokenPercent => arithmetic_type left right
       | _ => "TEXT"
       end.

Definition unary_type (op : TokenType) (operand : string) : string :=
  match op with
  | TokenNOT => "BOOLEAN"
  | TokenBitNot => "BIGINT"
  | TokenMinus | TokenPlus =>
      if isFloatCarrierTypeName operand then "DOUBLE" else if isIntegerTypeName operand then operand else "TEXT"
  | _ => "TEXT"
  end.

(** The type of a CASE by the types of its branches: [None] when two of them differ. *)
Fixpoint whens_type (acc : string) (types : list string) : option string :=
  match types with
  | [] => Some acc
  | t :: r => if acc =s EmptyString then whens_type t r
              else if EqualFold acc t then whens_type acc r else None
  end.

Definition branch_type (whens : list string) (els : option string) : string :=
  match whens_type EmptyString whens, els with
  | None, _ => "TEXT"
  | Some t, Some e => if (t =s EmptyString) || negb (EqualFold t e) then "TEXT" else t
  | Some t, None => if t =s EmptyString then "TEXT" else t
  end.

(** The element type of a constructor: that of the elements with a known type, when they agree. *)
Fixpoint constructor_type (acc : string) (types : list string) : string :=
  match types with
  | [] => if acc =s EmptyString then "TEXT" else acc
  | t :: r =>
      if isUnknownTypeName t then constructor_type acc r
      else if acc =s EmptyString then constructor_type t r
      else constructor_type (if EqualFold acc t then acc else "TEXT") r
  end.

Definition subscript_type (operand : string) : string := default "TEXT" (arrayElementType operand).

Section Infer.
Variable resolve : columnTypeResolver.

(** [inferExprType]; the types of a list of expressions are inferred in order. *)
Fixpoint inferExprType (e : Expr) : string :=
  match e with
  | ColumnRef table column =>
      match resolve table column with
      | Some t => if isUnknownTypeName t then (if IsRowIDColumn column then "BIGINT" else "TEXT") else t
      | None => if IsRowIDColumn column then "BIGINT" else "TEXT"
      end
  | ParenExpr e => inferExprType e
  | LiteralExpr ty v => literalType ty v
  | CastExpr operand ty => default "TEXT" (castResultType (SQLTypeName ty) operand)
  | ArrayExpr elements => arrayResultTypeName (constructor_type EmptyString (map inferExprType elements))
  | SubscriptExpr operand _ => subscript_type (inferExprType operand)
  | AnyAllExpr _ _ _ _ => "BOOLEAN"
  | FunctionCallExpr f => functionResultType f
  | BinaryExpr l op r => binary_type op (inferExprType l) (inferExprType r)
  | UnaryExpr op e => unary_type op (inferExprType e)
  | CaseExpr _ whens els =>
      branch_type (map when_type whens) (match els with Some e => Some (inferExprType e) | None => None end)
  | InExpr _ _ _ _ | BetweenExpr _ _ _ _ | LikeExpr _ _ _ _ | IsNullExpr _ _ | IsDistinctExpr _ _ _
  | ExistsExpr _ => "BOOLEAN"
  | _ => "TEXT"
  end
with functionResultType (f : FunctionCall) : string :=
  match f with
  | mkFunctionCall name args _ _ =>
      function_type name (match args with [] => "TEXT" | a :: _ => inferExprType a end)
  end
with when_type (w : WhenClause) : string :=
  match w with mkWhenClause _ result => inferExprType result end.

End Infer.

(** ** Resolvers *)

Section Resolvers.
Context `{Dynamic}.

Definition column_type (columns : list Column) (name : string) : option string :=
  col_Type <$> find (fun c => EqualFold (col_Name c) name) columns.

Definition schemaTypeResolver (schema : option Schema) : columnTypeResolver := fun _ column =>
  match schema with None => None | Some s => column_type (Columns s) column end.

(** The tables of a FROM clause with their aliases and columns, read up front. *)
Record tableSnapshot : Type := mkTableSnapshot { ts_name : string; ts_alias : string; ts_columns : list Column }.

Definition snapshot_type (t : tableSnapshot) (column : string) : option string :=
  col_Type <$> find (fun c => ToUpper (col_Name c) =s ToUpper column) (rev (ts_columns t)).

Fixpoint snapshotTypeResolver (tables : list tableSnapshot) : columnTypeResolver := fun table column =>
  match tables with
  | [] => None
  | t :: r =>
      if negb (table =s EmptyString) && negb (EqualFold table (ts_alias t)) && negb (EqualFold table (ts_name t))
      then snapshotTypeResolver r table column
      else match snapshot_type t column with
           | Some ty => Some ty
           | None => if table =s EmptyString then snapshotTypeResolver r table column else None
           end
  end.

Definition typeAt (types : list string) (i : nat) : string := nth i types EmptyString.

(** [materializedTypeResolver]: a known column without a type answers with the empty name. *)
Definition materializedTypeResolver (columns types qualifiers : list string) : columnTypeResolver :=
  fun table column =>
    (fix go i cols :=
       match cols with
       | [] => None
       | name :: r =>
           if EqualFold name column
              && ((table =s EmptyString) || EqualFold table (nth i qualifiers EmptyString))
           then Some (typeAt types i) else go (S i) r
       end) O columns.

(** The scope of a join: the types of the relations materialised on its right. *)
Record joinTypeScope : Type := mkJoinScope { qualified : gmap.gmap string string; unqualified : gmap.gmap string string }.

Definition record_column (s : joinTypeScope) (qualifier name typeName : string) : joinTypeScope :=
  let q := if qualifier =s EmptyString then qualified s
           else <[ToUpper (qualifier ++ "." ++ name)%string := typeName]> (qualified s) in
  let key := ToUpper name in
  mkJoinScope q (match unqualified s !! key with
                 | Some _ => unqualified s
                 | None => <[key := typeName]> (unqualified s)
                 end).

Definition scope_resolve (s : joinTypeScope) : columnTypeResolver := fun table column =>
  if table =s EmptyString then unqualified s !! ToUpper column
  else qualified s !! ToUpper (table ++ "." ++ column)%string.

(** [resolveColumnType]: the scopes, innermost first; a scope that is nil is skipped. *)
Fixpoint resolveColumnType (scopes : list (option columnTypeResolver)) : columnTypeResolver :=
  fun table column =>
    match scopes with
    | [] => None
    | None :: r => resolveColumnType r table column
    | Some f :: r => match f table column with
                     | Some t => Some t
                     | None => resolveColumnType r table column
                     end
    end.

(** The types of a projection over one table. *)
Definition selectColumnTypes (columns : list SelectColumn) (schema : Schema) : list string :=
  flat_map (fun c => match c with
                     | mkSelectColumn value _ star tableStar =>
                         if star || negb (tableStar =s EmptyString) then map col_Type (Columns schema)
                         else [match value with
                               | Some e => inferExprType (schemaTypeResolver (Some schema)) e
                               | None => "TEXT"
                               end]
                     end) columns.

End Resolvers.
