(* ===== verification/Operators.v ===== *)
(** * Operators, patterns and scalar functions (pkg/executor/executor.go)

    The binary operators on evaluated values, LIKE and GLOB, the scalar functions on evaluated
    arguments.  The function families of other files (JSON, dates, the catalogue) are the class
    [Builtins]. *)
From Stdlib Require Import NArith ZArith Lia Bool Ascii String List Floats.SpecFloat.
From stdpp Require Import base option list gmap strings.
From S2P Require Import Prelude Token Ast Bytes RowCodec Float Values Schema ExecValue Arrays ExprTypes.

#[local] Open Scope string_scope.

(** ** Runes *)

Definition is_cont (c : ascii) : bool := (N_of_ascii c / 64 =? 2)%N.
Definition low (c : ascii) (bits : N) : N := (N_of_ascii c mod 2 ^ bits)%N.
Definition replacement : N := 0xFFFD.

Definition rune2 (a b : ascii) : option N :=
  let n := N_of_ascii a in
  if ((0xC2 <=? n) && (n <=? 0xDF))%N && is_cont b then Some (low a 5 * 64 + low b 6)%N else None.

Definition rune3 (a b c : ascii) : option N :=
  let n := N_of_ascii a in
  let m := N_of_ascii b in
  if ((0xE0 <=? n) && (n <=? 0xEF))%N && is_cont b && is_cont c
     && negb ((n =? 0xE0) && (m <? 0xA0))%N && negb ((n =? 0xED) && (0x9F <? m))%N
  then Some ((low a 4 * 64 + low b 6) * 64 + low c 6)%N else None.

Definition rune4 (a b c d : ascii) : option N :=
  let n := N_of_ascii a in
  let m := N_of_ascii b in
  if ((0xF0 <=? n) && (n <=? 0xF4))%N && is_cont b && is_cont c && is_cont d
     && negb ((n =? 0xF0) && (m <? 0x90))%N && negb ((n =? 0xF4) && (0x8F <? m))%N
  then Some (((low a 3 * 64 + low b 6) * 64 + low c 6) * 64 + low d 6)%N else None.

(** [[]rune(s)]: a byte that starts no valid sequence is the replacement rune. *)
Fixpoint runes (s : string) : list N :=
  match s with
  | EmptyString => []
  | String a r =>
      if (N_of_ascii a <? 128)%N then N_of_ascii a :: runes r
      else match r with
           | EmptyString => [replacement]
           | String b r1 =>
               match rune2 a b with
               | Some n => n :: runes r1
               | None =>
                   match r1 with
                   | EmptyString => replacement :: runes r
                   | String c r2 =>
                       match rune3 a b c with
                       | Some n => n :: runes r2
                       | None => match r2 with
                                 | EmptyString => replacement :: runes r
                                 | String d r3 => match rune4 a b c d with
                                                  | Some n => n :: runes r3
                                                  | None => replacement :: runes r
                                                  end
                                 end
                       end
                   end
               end
           end
  end.

Definition encode_rune (n : N) : string :=
  let tail k := Prelude.byte (0x80 + (n / 2 ^ (6 * k)) mod 64) in
  (if n <? 0x80 then str1 (Prelude.byte n)
   else if n <? 0x800 then String (Prelude.byte (0xC0 + n / 64)) (str1 (tail 0))
   else if n <? 0x10000 then String (Prelude.byte (0xE0 + n / 4096)) (String (tail 1) (str1 (tail 0)))
   else String (Prelude.byte (0xF0 + n / 262144)) (String (tail 2) (String (tail 1) (str1 (tail 0)))))%N.

Definition string_of_runes (l : list N) : string := fold_right (fun n s => (encode_rune n ++ s)%string) EmptyString l.

(** ** LIKE and GLOB *)

(** The loop over the suffixes of a string. *)
Fixpoint any_suffix (f : string -> bool) (s : string) : bool :=
  f s || match s with EmptyString => false | String _ r => any_suffix f r end.

Fixpoint matchLikeHelper (p s : string) : bool :=
  match p with
  | EmptyString => s =s EmptyString
  | String c p' =>
      if c =b "%" then any_suffix (matchLikeHelper p') s
      else match s with
           | EmptyString => false
           | String d s' => ((c =b "_") || (c =b d)) && matchLikeHelper p' s'
           end
  end.

Definition matchLike (s pattern : string) : bool := matchLikeHelper (ToLower pattern) (ToLower s).

(** The text before the first closing bracket, and what follows it. *)
Fixpoint split_bracket (p : string) : option (string * string) :=
  match p with
  | EmptyString => None
  | String c r => if c =b "]" then Some (EmptyString, r)
                  else match split_bracket r with Some (a, b) => Some (String c a, b) | None => None end
  end.

(** Whether a byte is in a class; the code compares the low byte of each rune. *)
Definition class_match (class : string) (c : ascii) : bool :=
  let (negate, class) := match class with String "^" r => (true, r) | _ => (false, class) end in
  let found := existsb (fun n => N.eqb (n mod 256) (N_of_ascii c)) (runes class) in
  if negate then negb found else found.

(** The pattern shrinks by more than a byte at a class: [fuel] is its length. *)
Fixpoint matchGlobHelper (fuel : nat) (p s : string) : bool :=
  match p, fuel with
  | EmptyString, _ => s =s EmptyString
  | _, O => false
  | String c p', S k =>
      if c =b "*" then any_suffix (matchGlobHelper k p') s
      else match s with
           | EmptyString => false
           | String d s' =>
               if (c =b "?") || (c =b d) then matchGlobHelper k p' s'
               else if c =b "[" then
                 match split_bracket p' with
                 | Some (class, rest) => class_match class d && matchGlobHelper k rest s'
                 | None => false
                 end
               else false
           end
  end.

Definition matchGlob (pattern s : string) : bool := matchGlobHelper (String.length pattern) pattern s.

(** ** Text functions *)

Fixpoint has_prefix (prefix s : string) : option string :=
  match prefix, s with
  | EmptyString, _ => Some s
  | String a p, String b r => if a =b b then has_prefix p r else None
  | _, _ => None
  end.

(** [strings.Index] *)
Fixpoint index_of (sub s : string) : option Z :=
  match has_prefix sub s, s with
  | Some _, _ => Some 0%Z
  | None, String _ r => Z.succ <$> index_of sub r
  | None, EmptyString => None
  end.

(** [strings.ReplaceAll] for a text that is not empty. *)
Fixpoint replace_text (fuel : nat) (old new s : string) : string :=
  match fuel, s with
  | S k, String c r => match has_prefix old s with
                       | Some rest => (new ++ replace_text k old new rest)%string
                       | None => String c (replace_text k old new r)
                       end
  | _, _ => s
  end.

(** An empty text occurs before every rune and at the end; an invalid byte is a rune of one byte. *)
Fixpoint rune_chunks (fuel : nat) (s : string) : list string :=
  match fuel, s with
  | S k, String _ _ =>
      let w := match runes s with
               | n :: _ => if (n =? replacement)%N
                           then match has_prefix (encode_rune replacement) s with Some _ => 3 | None => 1 end
                           else String.length (encode_rune n)
               | [] => 1
               end%nat in
      substring 0 w s :: rune_chunks k (substring w (String.length s - w) s)
  | _, _ => []
  end.

Definition ReplaceAll (s old new : string) : string :=
  if old =s EmptyString
  then (fold_right (fun c acc => new ++ c ++ acc)%string new (rune_chunks (String.length s) s))
  else replace_text (String.length s) old new s.

(** [hex.DecodeString] *)
Fixpoint hex_bytes (s : string) : option string :=
  match s with
  | EmptyString => Some EmptyString
  | String a (String b r) =>
      match hex_digit_of a, hex_digit_of b, hex_bytes r with
      | Some x, Some y, Some t => Some (String (Prelude.byte (Z.to_N (16 * x + y))) t)
      | _, _, _ => None
      end
  | String _ EmptyString => None
  end.

(** [s[i:j]] of a slice: a bound outside the slice panics. *)
Definition slice_runes (l : list N) (i j : Z) : ev (list N) :=
  if ((0 <=? i) && (i <=? j) && (j <=? Z.of_nat (length l)))%Z
  then Ok (firstn (Z.to_nat (j - i)) (skipn (Z.to_nat i) l))
  else Crash "slice bounds out of range".

(** SUBSTR: the 1-based window of [y] and the length [z]; every sum wraps on 64 bits. *)
Definition substr_window (n y : Z) (z : option Z) : Z * Z :=
  let start1 := if (y <? 0)%Z then wrap64 (wrap64 (n + y) + 1) else if (y =? 0)%Z then 1%Z else y in
  match z with
  | None => (start1, n)
  | Some z =>
      if (z <? 0)%Z then let end1 := wrap64 (start1 - 1) in (wrap64 (wrap64 (end1 + z) + 1), end1)
      else if (y <? 0)%Z then (start1, wrap64 (wrap64 (start1 + z) - 1))
      else if (y =? 0)%Z then (start1, wrap64 (z - 1))
      else (start1, wrap64 (wrap64 (y + z) - 1))
  end.

Definition substr (l : list N) (y : Z) (z : option Z) : ev string :=
  let n := Z.of_nat (length l) in
  let (start1, end1) := substr_window n y z in
  let start1 := if (start1 <? 1)%Z then 1%Z else start1 in
  let end1 := if (n <? end1)%Z then n else end1 in
  if ((n <? start1) || (end1 <? start1))%Z then Ok EmptyString
  else string_of_runes <$> slice_runes l (start1 - 1) end1.

(** ** Other function families *)

Record query_result `{Foreign} : Type := mkResult { q_columns : list string; q_rows : list (list val) }.

Class Builtins `{Foreign} : Type := {
  canonicalizeJSONB : string -> ev string;
  jsonArrowExtract : val -> val -> bool -> ev val;
  jsonbArrowExtract : val -> val -> bool -> ev val;
  jsonbPathExtract : val -> val -> bool -> ev val;
  jsonbPathDelete : val -> val -> ev val;
  jsonbContainment : TokenType -> Expr -> Expr -> val -> val -> ev val;
  jsonbKeyExists : val -> val -> ev val;
  jsonbAnyKeysExist : TokenType -> val -> val -> ev val;
  jsonbConcat : val -> val -> ev string;
  jsonbDeleteValue : Expr -> Expr -> val -> val -> ev val;
  jsonb_call : string -> FunctionCall -> list val -> ev val;
  json_call : string -> list val -> ev val;
  (** [jsonEncode] of the array of the nodes of some values. *)
  json_array : list val -> ev string;
  catalog_call : string -> list val -> ev val;
  reg_cast : string -> val -> ev val;
  date_call : string -> list val -> ev val;
  Sprintf : string -> list val -> string;
  random_int63 : Z;
  random_bytes : nat -> list byte;
  current_time_text : string -> string;
  version_string : string;
  (** [executeSelect] with the row of the outer query, or none. *)
  run_query : option Row -> SelectStmt -> ev query_result
}.

Section Operators.
Context `{Builtins}.

(** ** Binary operators *)

Definition arithmetic (ints : Z -> Z -> ev val) (floats : spec_float -> spec_float -> ev val) (l r : val) : ev val :=
  if is_nil l || is_nil r then Ok VNil
  else if isIntVal l && isIntVal r then ints (toInt64 l) (toInt64 r)
  else floats (toFloat l) (toFloat r).

Definition divide : val -> val -> ev val :=
  arithmetic (fun a b => Ok (if (b =? 0)%Z then VNil else Int (wrap64 (Z.quot a b))))
             (fun x y => Ok (if is_zero y then VNil else Real (fdiv x y))).

(** On floats the operands are truncated first, and a divisor that is truncated to zero panics. *)
Definition remainder : val -> val -> ev val :=
  arithmetic (fun a b => Ok (if (b =? 0)%Z then VNil else Int (Z.rem a b)))
             (fun x y => let b := int64_of_float y in
                         if (b =? 0)%Z then Crash "integer divide by zero"
                         else Ok (Int (Z.rem (int64_of_float x) b))).

Definition and3 (l r : val) : val :=
  if negb (is_nil l) && negb (toBool l) then Bool false
  else if negb (is_nil r) && negb (toBool r) then Bool false
  else if is_nil l || is_nil r then VNil else Bool true.

Definition or3 (l r : val) : val :=
  if negb (is_nil l) && toBool l then Bool true
  else if negb (is_nil r) && toBool r then Bool true
  else if is_nil l || is_nil r then VNil else Bool false.

Definition not3 (v : val) : val := if is_nil v then VNil else Bool (negb (toBool v)).

(** [compare(left, right) op 0], NULL when an operand is. *)
Definition compare3 (op : TokenType) (l r : val) : ev val :=
  if is_nil l || is_nil r then Ok VNil else Bool <$> comparisonOperatorResult op (compare l r).

(** The operators after the cases that depend on the operand expressions. *)
Definition binary_switch (op : TokenType) (l r : val) : ev val :=
  match op with
  | TokenPlus => arithmetic (fun a b => Ok (Int (wrap64 (a + b)))) (fun x y => Ok (Real (fadd x y))) l r
  | TokenMinus => arithmetic (fun a b => Ok (Int (wrap64 (a - b)))) (fun x y => Ok (Real (fsub x y))) l r
  | TokenStar => arithmetic (fun a b => Ok (Int (wrap64 (a * b)))) (fun x y => Ok (Real (fmul x y))) l r
  | TokenSlash => divide l r
  | TokenPercent => remainder l r
  | TokenEq | TokenNeq | TokenLt | TokenLte | TokenGt | TokenGte => compare3 op l r
  | TokenAND => Ok (and3 l r)
  | TokenOR => Ok (or3 l r)
  | TokenConcat => Ok (Text (toString l ++ toString r))
  | _ => Fails (Errorf "unsupported operator: %v" [TokenType_String op])
  end.

Definition bitwise_or_arrow (op : TokenType) (l r : val) : option (ev val) :=
  if isBitwiseOp op then Some (if is_nil l || is_nil r then Ok VNil else applyBitwise op l r)
  else if (op =t TokenArrow) || (op =t TokenArrowText)
  then Some (jsonArrowExtract l r (op =t TokenArrowText))
  else None.

Definition applyBinaryOp (op : TokenType) (l r : val) : ev val :=
  match bitwise_or_arrow op l r with Some v => v | None => binary_switch op l r end.

(** ** Unary minus and plus *)

Definition negate (v : val) : val :=
  if is_nil v then VNil
  else if isIntVal v then Int (wrap64 (- toInt64 v)) else Real (SFopp (toFloat v)).

Definition unary_plus (v : val) : val :=
  if is_nil v then VNil else if isIntVal v then Int (toInt64 v) else Real (toFloat v).

Definition applyUnary (op : TokenType) (v : val) : val :=
  match op with
  | TokenMinus => negate v
  | TokenPlus => unary_plus v
  | TokenNOT => not3 v
  | TokenBitNot => if is_nil v then VNil else Int (Z.lnot (toInt64 v))
  | _ => v
  end.

(** ** BETWEEN on values *)

(** A comparison as a value: NULL when an operand is. *)
Definition compare_value (op : TokenType) (l r : val) : val :=
  if is_nil l || is_nil r then VNil
  else match holds op (compare l r) with Some b => Bool b | None => VNil end.

Definition between (v low high : val) : val :=
  if is_nil v then VNil
  else if is_nil low then
    if negb (is_nil high) && match compare v high with Gt => true | _ => false end then Bool false else VNil
  else match compare v low with
       | Lt => Bool false
       | _ => if is_nil high then VNil
              else Bool match compare v high with Gt => false | _ => true end
       end.

Definition not_between (v low high : val) : val :=
  let lessThan := compare_value TokenLt v low in
  let greaterThan := compare_value TokenGt v high in
  if toBool lessThan || toBool greaterThan then Bool true
  else if is_nil lessThan || is_nil greaterThan then VNil else Bool false.

End Operators.
