(* ===== verification/Eval.v ===== *)
(** * Evaluation of expressions (pkg/executor/executor.go, with the dispatch of arrays.go and jsonb.go)

    [evalExpr] on the syntax trees of Ast, a row and the state of the executor that expressions read.
    The row is [None] where the code passes nil.  The caches of a statement (parsed arrays, constant
    array operands, results of subqueries) hold what the functions below compute and are left out. *)
From Stdlib Require Import NArith ZArith Lia Bool Ascii String List Floats.SpecFloat.
From stdpp Require Import base option list gmap strings.
From S2P Require Import Prelude Token Ast Bytes RowCodec Float Values Schema ExecValue Arrays ExprTypes Operators.

#[local] Open Scope string_scope.

(** What an expression reads of the executor. *)
Record Env `{Foreign} : Type := mkEnv {
  outerRow : option Row;
  typeScopes : list (option columnTypeResolver);
  lastInsertRowID : Z; changes : Z; totalChanges : Z; backendPID : Z }.

Definition contains_text (s sub : string) : bool := match index_of sub s with Some _ => true | None => false end.

Definition jsonb_functions : list string :=
  ["TO_JSONB"; "JSONB_TYPEOF"; "JSONB_ARRAY_LENGTH"; "JSONB_PRETTY"; "JSONB_STRIP_NULLS"; "JSONB_BUILD_ARRAY";
   "JSONB_BUILD_OBJECT"; "JSONB_SET"; "JSONB_INSERT"; "JSONB_REPLACE"; "JSONB_REMOVE"; "JSONB_EACH";
   "JSONB_EACH_TEXT"; "JSONB_ARRAY_ELEMENTS"; "JSONB_ARRAY_ELEMENTS_TEXT"; "JSONB_OBJECT_KEYS";
   "JSONB_PATH_EXISTS"; "JSONB_PATH_EXISTS_TZ"; "JSONB_PATH_MATCH"; "JSONB_PATH_MATCH_TZ"; "JSONB_PATH_QUERY";
   "JSONB_PATH_QUERY_TZ"; "JSONB_PATH_QUERY_ARRAY"; "JSONB_PATH_QUERY_ARRAY_TZ"; "JSONB_PATH_QUERY_FIRST";
   "JSONB_PATH_QUERY_FIRST_TZ"].
Definition json_functions : list string :=
  ["JSON"; "JSONB"; "JSON_VALID"; "JSONB_VALID"; "JSON_TYPE"; "JSON_EXTRACT"; "JSONB_EXTRACT"; "JSON_SET";
   "JSONB_SET"; "JSON_INSERT"; "JSONB_INSERT"; "JSON_REPLACE"; "JSONB_REPLACE"; "JSON_REMOVE"; "JSONB_REMOVE";
   "JSON_ARRAY_LENGTH"; "JSON_ARRAY"; "JSONB_ARRAY"; "JSON_OBJECT"; "JSONB_OBJECT"; "JSON_QUOTE"; "JSONB_QUOTE"].
Definition catalog_functions : list string :=
  ["CURRENT_SCHEMA"; "CURRENT_DATABASE"; "PG_GET_SERIAL_SEQUENCE"; "OBJ_DESCRIPTION"; "COL_DESCRIPTION";
   "PG_GET_USERBYID"; "CURRENT_SETTING"; "PG_GET_EXPR"; "FORMAT_TYPE"; "PG_TABLE_IS_VISIBLE"; "PG_GET_INDEXDEF";
   "PG_GET_CONSTRAINTDEF"; "HAS_TABLE_PRIVILEGE"; "TO_REGCLASS"; "TO_REGTYPE"].
Definition date_functions : list string :=
  ["DATE"; "TIME"; "DATETIME"; "JULIANDAY"; "UNIXEPOCH"; "STRFTIME"; "TIMEDIFF"].

(** The length of a blob, clamped. *)
Definition blob_length (n : Z) : nat := Z.to_nat (if (n <=? 0)%Z then 1 else if (1000000 <? n)%Z then 1000000 else n)%Z.

Section Eval.
Context `{Builtins}.
Variable env : Env.

Definition resolve : columnTypeResolver := resolveColumnType (typeScopes env).

(** ** Literals and columns *)

Definition evalLiteral (ty : TokenType) (value : string) : ev val :=
  match ty with
  | TokenNumber =>
      if has_byte point_or_exponent value then
        match ParseFloat binary64 value with
        | None => Fails (Errorf "strconv.ParseFloat: parsing %q" [value])
        | Some f => Ok (if feq f (of_int (int64_of_float f)) then Int (int64_of_float f) else Real f)
        end
      else some_or (ParseInt value) Int (Fails (Errorf "strconv.ParseInt: parsing %q" [value]))
  | TokenBlob => Ok (VBytes (bytes value))
  | TokenNULL => Ok VNil
  | TokenTRUE => Ok (Bool true)
  | TokenFALSE => Ok (Bool false)
  | _ => Ok (Text value)
  end.

Definition canonicalizeJSONBReadValue (typeName : string) (v : val) : ev val :=
  if is_nil v || negb (EqualFold (TrimSpace typeName) "JSONB") then Ok v
  else match v with
       | VString s | VOther (JsonText s) => Text <$> canonicalizeJSONB s
       | _ => Ok v
       end.

Definition canonicalizeJSONBColumnValue (table column : string) (v : val) : ev val :=
  if is_nil v then Ok v
  else match resolve table column with
       | None => Ok v
       | Some t => canonicalizeJSONBReadValue t v
       end.

Definition sqliteCurrentTimeValue (name : string) : option val :=
  let n := ToLower name in
  if name_in n ["current_timestamp"; "current_date"; "current_time"] then Some (Text (current_time_text n)) else None.

(** The places a column is looked up in, in order; the hidden row id comes last. *)
Definition find_column (table column : string) (row : Row) : option val :=
  let outer name := match outerRow env with Some o => rowColumnValue o name | None => None end in
  let qualified := (table ++ "." ++ column)%string in
  let hidden := if IsRowIDColumn column then row !! "_rowid_" else None in
  if table =s EmptyString
  then rowColumnValue row column ∪ outer column ∪ hidden
  else outer qualified ∪ rowColumnValue row qualified ∪ outer column ∪ rowColumnValue row column ∪ hidden.

Definition evalColumnRef (table column : string) (row : option Row) : ev val :=
  let plain := match row with
               | None => Fails (Errorf "no row context for column: %s" [column])
               | Some r => match find_column table column r with
                           | Some v => canonicalizeJSONBColumnValue table column v
                           | None => Ok VNil
                           end
               end in
  if (table =s EmptyString) && match rowColumnValue (default ∅ row) column with None => true | _ => false end
  then match sqliteCurrentTimeValue column with Some v => Ok v | None => plain end
  else plain.

(** ** Types of operands *)

Definition arrayTypeOf (e : option Expr) : option string :=
  match e with
  | None => None
  | Some e => let t := inferExprType resolve e in
              match arrayElementType t with Some _ => Some t | None => None end
  end.

Definition arrayElementTypeOf (e : Expr) : option string := arrayElementType (inferExprType resolve e).

Definition infers_jsonb (e : Expr) : bool := EqualFold (TrimSpace (inferExprType resolve e)) "JSONB".

Fixpoint is_jsonb (e : Expr) : bool :=
  match e with
  | ParenExpr e => is_jsonb e
  | CastExpr _ ty => EqualFold (TrimSpace (dt_Name ty)) "JSONB"
  | BinaryExpr l op r =>
      match op with
      | TokenArrow | TokenHashArrow | TokenHashMinus | TokenMinus => is_jsonb l
      | TokenConcat => is_jsonb l || is_jsonb r
      | _ => false
      end
  | FunctionCallExpr (mkFunctionCall name _ _ _) =>
      name_in (ToUpper name) jsonb_result_functions || infers_jsonb e
  | _ => infers_jsonb e
  end.

Definition isJSONBExpr (e : option Expr) : bool := match e with None => false | Some e => is_jsonb e end.

Fixpoint is_numeric_type (e : Expr) : bool :=
  match e with
  | ParenExpr e => is_numeric_type e
  | CastExpr _ ty => name_in (trimmed_upper (dt_Name ty)) ["NUMERIC"; "DECIMAL"]
  | _ => name_in (trimmed_upper (inferExprType resolve e)) ["NUMERIC"; "DECIMAL"]
  end.

Definition isNumericExprType (e : option Expr) : bool := match e with None => false | Some e => is_numeric_type e end.

Definition jsonbComparisonValue (v : val) : bool :=
  match v with VString _ | VOther (JsonText _) | VBytes _ => true | _ => false end.

(** ** Comparison *)

Definition arrayEqualityType (l r : option Expr) : option string := arrayTypeOf l ∪ arrayTypeOf r.

Definition jsonb_operands : xerror := DatatypeMismatch "jsonb comparison requires jsonb or text operands" [].

Definition compare_jsonb (op : TokenType) (left right : val) : ev bool :=
  l ← canonicalizeJSONB (toString left);
  r ← canonicalizeJSONB (toString right);
  comparisonOperatorResult op (compare_text l r).

Definition compare_scalars (op : TokenType) (le re : option Expr) (left right : val) : ev bool :=
  match (if isNumericExprType le || isNumericExprType re then compareNumericValues left right else None) with
  | Some c => comparisonOperatorResult op c
  | None => comparisonOperatorResult op (compare left right)
  end.

Definition compareExprValues (op : TokenType) (le re : option Expr) (left right : val) : ev bool :=
  if isJSONBExpr le || isJSONBExpr re then
    if (isJSONBExpr le && negb (jsonbComparisonValue left)) || (isJSONBExpr re && negb (jsonbComparisonValue right))
    then Fails jsonb_operands
    else compare_jsonb op left right
  else match (if (op =t TokenEq) || (op =t TokenNeq) then arrayEqualityType le re else None) with
       | Some t => equal ← numericArrayTextEqual (toString left) (toString right) t;
                   Ok (if op =t TokenNeq then negb equal else equal)
       | None => compare_scalars op le re left right
       end.

Definition canonicalArrayValue (e : option Expr) (v : val) : ev val :=
  match arrayTypeOf e, v with
  | Some t, VString text => Text <$> canonicalArrayText text t
  | _, _ => Ok v
  end.

Definition canonicalizeArrayComparison (le re : option Expr) (left right : val) : ev (val * val) :=
  right ← canonicalArrayValue le right;
  left ← canonicalArrayValue re left;
  Ok (left, right).

(** ** The operators of jsonb: [None] when they do not apply *)

Definition evalJSONBBinary (op : TokenType) (le re : Expr) (left right : val) : option (ev val) :=
  let lj := is_jsonb le in
  let rj := is_jsonb re in
  let containment := if ((op =t TokenAtArrow) || (op =t TokenLtAt)) && negb lj && negb rj
                     then arrayEqualityType (Some le) (Some re) else None in
  match containment with
  | Some t => Some (arrayContainment op t left right)
  | None =>
      if isComparisonOp op && (lj || rj) then
        Some (if is_nil left || is_nil right then Ok VNil
              else if (lj && negb (jsonbComparisonValue right)) || (rj && negb (jsonbComparisonValue left))
              then Fails jsonb_operands
              else Bool <$> compare_jsonb op left right)
      else
        match op with
        | TokenArrow | TokenArrowText =>
            if lj then Some (jsonbArrowExtract left right (op =t TokenArrowText)) else None
        | TokenHashArrow | TokenHashArrowText => Some (jsonbPathExtract left right (op =t TokenHashArrowText))
        | TokenHashMinus => Some (jsonbPathDelete left right)
        | TokenAtArrow | TokenLtAt => Some (jsonbContainment op le re left right)
        | TokenQuestion => Some (jsonbKeyExists left right)
        | TokenQuestionPipe | TokenQuestionAmp => Some (jsonbAnyKeysExist op left right)
        | TokenConcat =>
            if lj || rj then Some (if is_nil left || is_nil right then Ok VNil else Text <$> jsonbConcat left right)
            else None
        | TokenMinus =>
            if lj then Some (if is_nil left || is_nil right then Ok VNil else jsonbDeleteValue le re left right)
            else if rj then Some (Fails (DatatypeMismatch "cannot subtract a jsonb value from a non-jsonb value" []))
            else None
        | TokenPlus | TokenStar | TokenSlash | TokenPercent =>
            if lj || rj then Some (Fails (DatatypeMismatch "arithmetic operator %s requires numeric operands, got jsonb"
                                            [TokenType_String op]))
            else None
        | _ => None
        end
  end.

(** A binary expression once its operands are evaluated. *)
Definition binary_values (op : TokenType) (le re : Expr) (left right : val) : ev val :=
  match evalJSONBBinary op le re left right with
  | Some v => v
  | None =>
      if isComparisonOp op then
        '(left, right) ← canonicalizeArrayComparison (Some le) (Some re) left right;
        if is_nil left || is_nil right then Ok VNil
        else Bool <$> compareExprValues op (Some le) (Some re) left right
      else match bitwise_or_arrow op left right with
           | Some v => v
           | None => binary_switch op left right
           end
  end.

(** ** IS DISTINCT FROM, IN and CASE on values *)

Definition distinct_values (le re : Expr) (left right : val) : ev bool :=
  '(left, right) ← canonicalizeArrayComparison (Some le) (Some re) left right;
  if is_nil left && is_nil right then Ok false
  else if is_nil left || is_nil right then Ok true
  else negb <$> compareExprValues TokenEq (Some le) (Some re) left right.

(** One member of an IN list: its evaluation, and whether it equals the left value; NULL is [None]. *)
Definition in_member (le : Expr) (left v : val) : ev (option bool) :=
  if is_nil v then Ok None
  else v ← canonicalArrayValue (Some le) v; Some <$> compareExprValues TokenEq (Some le) None left v.

Definition in_end (neg sawNull : bool) : val := if sawNull then VNil else Bool neg.

(** ** Casts *)

Definition catalogCast (typeName : string) (v : val) : option (ev val) :=
  let n := trimmed_upper typeName in
  if name_in n ["REGCLASS"; "REGTYPE"] then Some (reg_cast n v)
  else match v with
       | VOther (RegOID oid name) =>
           if name_in n ["TEXT"; "VARCHAR"; "CHAR"; "CHARACTER"; "CLOB"; "NCHAR"; "NVARCHAR"] then Some (Ok (Text name))
           else if n =s "OID" then Some (Ok (Int oid)) else None
       | _ => None
       end.

Definition cast_jsonb (v : val) : ev val :=
  match v with
  | VString s | VOther (JsonText s) => Text <$> canonicalizeJSONB s
  | _ => Fails (InvalidText "cannot cast %T to JSONB" [type_name v])
  end.

Definition cast_value (ty : DataType) (v : val) : ev val :=
  if is_nil v then Ok VNil
  else if dt_Array ty then evalArrayCast (SQLTypeName ty) v
  else match catalogCast (dt_Name ty) v with
       | Some r => r
       | None =>
           let n := ToUpper (dt_Name ty) in
           if n =s "JSONB" then cast_jsonb v
           else if contains_text n "INT" then Ok (Int (int64_of_float (toFloat v)))
           else if contains_text n "REAL" || contains_text n "FLOAT" || contains_text n "DOUBLE" then Ok (Real (toFloat v))
           else if contains_text n "BLOB" then
             Ok (match v with VBytes b => VBytes b | _ => VBytes (bytes (toString v)) end)
           else if contains_text n "TEXT" || contains_text n "CHAR" then Ok (Text (toString v))
           else Ok v
       end.

(** ** Scalar functions *)

Definition first_or (args : list val) (f : val -> ev val) : ev val :=
  match args with [] => Ok VNil | a :: _ => f a end.

(** NULL for a NULL argument. *)
Definition strict (args : list val) (f : val -> ev val) : ev val :=
  first_or args (fun a => if is_nil a then Ok VNil else f a).

Definition typeof (v : val) : string :=
  match v with
  | VNil => "null" | VInt GoInt64 _ | VInt GoInt _ => "integer" | VFloat64 _ => "real" | VBytes _ => "blob"
  | _ => "text"
  end.

(** The greatest or the least of the arguments; the first one wins among equals. *)
Definition extreme (c : comparison) (args : list val) : val :=
  match args with
  | [] => VNil
  | a :: r => fold_left (fun m x => if decide (compare x m = c) then x else m) r a
  end.

Definition half : spec_float := fdiv (of_int 1) (of_int 2).

Definition round_value (v : spec_float) (decimals : Z) : spec_float :=
  let mult := Z.iter decimals (fun m => fmul m (of_int 10)) (of_int 1) in
  fdiv (of_int (int64_of_float (fadd (fmul v mult) half))) mult.

Definition percent_diff (args : list val) : ev val :=
  match args with
  | [a; b] =>
      if is_nil a || is_nil b then Ok VNil
      else let start := toFloat a in
           Ok (Real (if is_zero start then S754_infinity false
                     else fmul (fdiv (fsub (toFloat b) start) start) (of_int 100)))
  | _ => Fails (Errorf "percent_diff() requires exactly 2 arguments" [])
  end.

Definition int_arg (v : val) : Z := int64_of_float (toFloat v).

(** Text functions; [None] for the other names. *)
Definition text_function (name : string) (args : list val) : option (ev val) :=
  match name with
  | "UPPER" => Some (strict args (fun a => Ok (Text (ToUpper (toString a)))))
  | "LOWER" => Some (strict args (fun a => Ok (Text (ToLower (toString a)))))
  | "LENGTH" => Some (strict args (fun a => Ok (Int (Z.of_nat (String.length (toString a))))))
  | "SUBSTR" | "SUBSTRING" =>
      Some match args with
           | [a; y] => Text <$> substr (runes (toString a)) (int_arg y) None
           | a :: y :: z :: _ => Text <$> substr (runes (toString a)) (int_arg y) (Some (int_arg z))
           | _ => Ok VNil
           end
  | "TRIM" => Some (first_or args (fun a => Ok (Text (TrimSpace (toString a)))))
  | "REPLACE" =>
      Some match args with
           | a :: b :: c :: _ => Ok (Text (ReplaceAll (toString a) (toString b) (toString c)))
           | _ => Ok VNil
           end
  | "PRINTF" => Some (first_or args (fun a => Ok (Text (Sprintf (toString a) (tl args)))))
  | "HEX" => Some (strict args (fun a => Ok (Text (hex_upper (toString a)))))
  | "UNHEX" => Some (strict args (fun a => Ok match hex_bytes (TrimSpace (toString a)) with
                                              | Some b => VBytes (bytes b) | None => VNil end))
  | "INSTR" =>
      Some match args with
           | s :: sub :: _ => Ok (Int match index_of (toString sub) (toString s) with
                                      | Some i => (i + 1)%Z | None => 0%Z end)
           | _ => Ok VNil
           end
  | "GLOB" =>
      Some match args with
           | p :: s :: _ => Ok (Bool (matchGlob (toString p) (toString s)))
           | _ => Ok VNil
           end
  | "CONCAT" => Some (Ok (Text (Join (map toString args) EmptyString)))
  | "CONCAT_WS" =>
      Some (strict args (fun sep => Ok (Text (Join (map toString (base.filter (fun a => is_nil a = false) (tl args)))
                                                (toString sep)))))
  | _ => None
  end.

(** The other functions of the switch; a name it does not know, or too few arguments, give NULL. *)
Definition value_function (name : string) (args : list val) : ev val :=
  match name with
  | "ABS" => strict args (fun a => let v := toFloat a in
                                   Ok (Real (if flt v (S754_zero false) then SFopp v else v)))
  | "COALESCE" => Ok (default VNil (find (fun a => negb (is_nil a)) args))
  | "NULLIF" =>
      match args with
      | a :: b :: _ => Ok (if decide (compare a b = Eq) then VNil else a)
      | [a] => Ok a
      | [] => Ok VNil
      end
  | "IFNULL" => match args with a :: b :: _ => Ok (if is_nil a then b else a) | _ => Ok VNil end
  | "TYPEOF" => first_or args (fun a => Ok (Text (typeof a)))
  | "RANDOM" => Ok (Int random_int63)
  | "RANDOMBLOB" => first_or args (fun a => Ok (VBytes (random_bytes (blob_length (int_arg a)))))
  | "ZEROBLOB" => first_or args (fun a => Ok (VBytes (repeat Byte.x00 (blob_length (int_arg a)))))
  | "ROUND" =>
      match args with
      | [a] => Ok (Real (round_value (toFloat a) 0))
      | a :: d :: _ => Ok (Real (round_value (toFloat a) (int_arg d)))
      | [] => Ok VNil
      end
  | "MAX" => Ok (extreme Gt args)
  | "MIN" => Ok (extreme Lt args)
  | "PERCENT_DIFF" => percent_diff args
  | "UNNEST" => Fails (NotSupported "unnest() is only supported as a table function in FROM" [])
  | "VERSION" => Ok (Text "PostgreSQL 14.0 (PizzaSQL)")
  | "PIZZASQL_VERSION" => Ok (Text version_string)
  | "SQLITE_VERSION" => Ok (Text "3.35.0")
  | "LAST_INSERT_ROWID" => Ok (Int (lastInsertRowID env))
  | "PG_BACKEND_PID" => Ok (Int (backendPID env))
  | "CHANGES" => Ok (Int (changes env))
  | "TOTAL_CHANGES" => Ok (Int (totalChanges env))
  | _ => Ok VNil
  end.

(** [evalFunctionCall] once the arguments are evaluated. *)
Definition function_values (f : FunctionCall) (args : list val) : ev val :=
  match f with
  | mkFunctionCall name exprs _ _ =>
      let n := ToUpper name in
      if n =s "PIZZASQL_PARAM" then
        match args with
        | [a] => Ok a
        | _ => Fails (Errorf "pizzasql_param expects exactly one argument" [])
        end
      else if name_in n jsonb_functions then jsonb_call n f args
      else if name_in n json_functions then json_call n args
      else if name_in n catalog_functions then catalog_call n args
      else if name_in n date_functions then date_call n args
      else if n =s "ARRAY_LENGTH" then evalArrayLength args
      else match text_function n args with Some v => v | None => value_function n args end
  end.

(** ** Subqueries *)

Definition scalar_subquery (row : option Row) (query : SelectStmt) : ev val :=
  result ← wrap_error "subquery error: %w" [] (run_query row query);
  match q_rows result with
  | [] => Ok VNil
  | r :: _ =>
      match q_columns result with
      | [] => Fails (Errorf "subquery must return at least one column" [])
      | _ => Ok (hd VNil r)
      end
  end.

(** The rows of the subquery of an IN, by their first values. *)
Definition in_subquery (query : SelectStmt) : ev (list val) :=
  result ← wrap_error "IN subquery error: %w" [] (run_query (outerRow env) query);
  match q_columns result with
  | [_] => Ok (omap head (q_rows result))
  | _ => Fails (Errorf "subquery in IN must return exactly one column" [])
  end.

Fixpoint in_values (le : Expr) (neg : bool) (left : val) (vs : list val) (sawNull : bool) : ev val :=
  match vs with
  | [] => Ok (in_end neg sawNull)
  | v :: r =>
      m ← in_member le left v;
      match m with
      | None => in_values le neg left r true
      | Some true => Ok (Bool (negb neg))
      | Some false => in_values le neg left r sawNull
      end
  end.

(** ** The evaluator *)

Fixpoint evalExpr (e : Expr) (row : option Row) {struct e} : ev val :=
  match e with
  | LiteralExpr ty v => evalLiteral ty v
  | ColumnRef table column => evalColumnRef table column row
  | BinaryExpr l op r =>
      left ← evalExpr l row;
      right ← evalExpr r row;
      binary_values op l r left right
  | UnaryExpr op e => applyUnary op <$> evalExpr e row
  | FunctionCallExpr f => evalFunctionCall f row
  | ParenExpr e => evalExpr e row
  | CaseExpr operand whens els =>
      subject ← match operand with None => Ok None | Some o => v ← evalExpr o row; Ok (Some (o, v)) end;
      (fix branches ws :=
         match ws with
         | [] => match els with Some e => evalExpr e row | None => Ok VNil end
         | mkWhenClause c result :: rest =>
             cond ← evalExpr c row;
             match' ← match subject with
                      | None => Ok (toBool cond)
                      | Some (o, v) => if is_nil v then Ok false
                                       else compareExprValues TokenEq (Some o) (Some c) v cond
                      end;
             if match' : bool then evalExpr result row else branches rest
         end) whens
  | InExpr le neg values subquery =>
      left ← evalExpr le row;
      match subquery with
      | Some q => vs ← in_subquery q; if is_nil left then Ok VNil else in_values le neg left vs false
      | None =>
          match values with
          | [] => Ok (Bool neg)
          | _ =>
              if is_nil left then Ok VNil
              else (fix members vs sawNull :=
                      match vs with
                      | [] => Ok (in_end neg sawNull)
                      | x :: r =>
                          v ← evalExpr x row;
                          m ← in_member le left v;
                          match m with
                          | None => members r true
                          | Some true => Ok (Bool (negb neg))
                          | Some false => members r sawNull
                          end
                      end) values false
          end
      end
  | BetweenExpr x neg lo hi =>
      v ← evalExpr x row;
      low ← evalExpr lo row;
      high ← evalExpr hi row;
      Ok (if neg then not_between v low high else between v low high)
  | LikeExpr x neg p _ =>
      v ← evalExpr x row;
      pattern ← evalExpr p row;
      Ok (Bool (xorb neg (matchLike (toString v) (toString pattern))))
  | IsNullExpr x neg => v ← evalExpr x row; Ok (Bool (xorb neg (is_nil v)))
  | IsDistinctExpr l r neg =>
      left ← evalExpr l row;
      right ← evalExpr r row;
      d ← distinct_values l r left right;
      Ok (Bool (xorb neg d))
  | CastExpr x ty => v ← evalExpr x row; cast_value ty v
  | SubqueryExpr q => scalar_subquery row q
  | ExistsExpr q =>
      result ← wrap_error "EXISTS subquery error: %w" [] (run_query row q);
      Ok (Bool match q_rows result with [] => false | _ => true end)
  | ArrayExpr elements =>
      texts ← mapE (fun x => v ← evalExpr x row; wrap_error "ARRAY element %d: %w" [] (arrayValueElement v)) elements;
      Ok (Text (formatArrayLiteral texts))
  | SubscriptExpr x i =>
      v ← evalExpr x row;
      index ← evalExpr i row;
      subscriptArrayValue (arrayElementTypeOf x) v index
  | AnyAllExpr l op all array =>
      left ← evalExpr l row;
      v ← evalExpr array row;
      if is_nil v then Ok VNil
      else
        elements ← wrap_error "ANY/ALL requires an array operand: %w" [] (parseArrayLiteral (toString v));
        evalQuantifiedComparison op all left elements (default EmptyString (arrayElementTypeOf array))
  | WindowExpr _ _ _ => Fails (Errorf "unsupported expression type: %T" ["*parser.WindowExpr"])
  end
with evalFunctionCall (f : FunctionCall) (row : option Row) {struct f} : ev val :=
  match f with
  | mkFunctionCall name args d star =>
      vs ← mapE (fun a => evalExpr a row) args;
      function_values (mkFunctionCall name args d star) vs
  end.

(** [evalIntExpr]: LIMIT and OFFSET; an error counts as zero. *)
Definition evalIntExpr (e : Expr) : ev Z :=
  v ← ignore_error VNil (evalExpr e None);
  Ok (int64_of_float (toFloat v)).

End Eval.

(** No further functions: the instance the examples use. *)
Section NoBuiltins.
#[local] Existing Instance no_foreign.

Definition not_here {A} : ev A := Fails (Errorf "not available" []).

Definition no_builtins : Builtins := {|
  canonicalizeJSONB _ := not_here; jsonArrowExtract _ _ _ := not_here; jsonbArrowExtract _ _ _ := not_here;
  jsonbPathExtract _ _ _ := not_here; jsonbPathDelete _ _ := not_here; jsonbContainment _ _ _ _ _ := not_here;
  jsonbKeyExists _ _ := not_here; jsonbAnyKeysExist _ _ _ := not_here; jsonbConcat _ _ := not_here;
  jsonbDeleteValue _ _ _ _ := not_here; jsonb_call _ _ _ := not_here; json_call _ _ := not_here; json_array _ := not_here;
  catalog_call _ _ := not_here; reg_cast _ _ := not_here; date_call _ _ := not_here; Sprintf f _ := f;
  random_int63 := 4; random_bytes n := repeat Byte.x00 n; current_time_text _ := EmptyString;
  version_string := "dev"; run_query _ _ := not_here |}.

Definition no_env : Env := mkEnv no_foreign None [] 0 0 0 0.
End NoBuiltins.
