(* ===== verification/Aggregates.v ===== *)
(** * Aggregates and grouping (pkg/executor/executor.go)

    Aggregates over the rows of a group, expressions that contain them, and GROUP BY in both of its
    forms: the rows of each group collected first, or one accumulator for each aggregate and group. *)
From Stdlib Require Import NArith ZArith Lia Bool Ascii String List Floats.SpecFloat.
From stdpp Require Import base option list gmap strings.
From S2P Require Import Prelude Token Ast Bytes RowCodec Float Values Schema ExecValue Arrays ExprTypes Operators Eval.

#[local] Open Scope string_scope.

Definition aggregate_names : list string :=
  ["COUNT"; "SUM"; "AVG"; "MIN"; "MAX"; "TOTAL"; "GROUP_CONCAT"; "STRING_AGG"; "JSON_GROUP_ARRAY";
   "JSONB_GROUP_ARRAY"].

Definition isAggregateCallName (name : string) : bool := name_in (ToUpper name) aggregate_names.

(** The aggregates an accumulator can compute. *)
Definition accumulator_names : list string := ["COUNT"; "SUM"; "AVG"; "MIN"; "MAX"].

(** Whether an expression contains an aggregate call. *)
Fixpoint isAggregate (e : Expr) : bool :=
  match e with
  | FunctionCallExpr f => call_has_aggregate f
  | UnaryExpr _ e | ParenExpr e | CastExpr e _ | IsNullExpr e _ => isAggregate e
  | BinaryExpr l _ r | IsDistinctExpr l r _ | SubscriptExpr l r | AnyAllExpr l _ _ r => isAggregate l || isAggregate r
  | BetweenExpr x _ lo hi => isAggregate x || isAggregate lo || isAggregate hi
  | CaseExpr operand whens els =>
      match operand with Some o => isAggregate o | None => false end
      || existsb when_has_aggregate whens
      || match els with Some x => isAggregate x | None => false end
  | ArrayExpr l => existsb isAggregate l
  | InExpr x _ values _ => isAggregate x || existsb isAggregate values
  | _ => false
  end
with call_has_aggregate (f : FunctionCall) : bool :=
  match f with mkFunctionCall name args _ _ => isAggregateCallName name || existsb isAggregate args end
with when_has_aggregate (w : WhenClause) : bool :=
  match w with mkWhenClause c r => isAggregate c || isAggregate r end.

Section Aggregates.
Context `{Builtins}.
Variable env : Env.

(** [val, _ := e.evalExpr(arg, row)] *)
Definition row_value (e : Expr) (row : Row) : ev val := ignore_error VNil (evalExpr env e (Some row)).

(** ** Aggregates over rows *)

(** Equality of interface values as the keys of a map: the dynamic types are compared too, zeros of
    either sign are equal, a NaN is not equal to itself. *)
Definition same_key (a b : val) : bool :=
  match a, b with
  | VFloat64 x, VFloat64 y => feq (real x) (real y)
  | VFloat32 x, VFloat32 y => feq (of_bits binary32 x) (of_bits binary32 y)
  | _, _ => bool_decide (a = b)
  end.

(** [seen[v] = struct{}{}]: a slice cannot be a key. *)
Definition add_key (seen : list val) (v : val) : ev (list val) :=
  match v with
  | VBytes _ => Crash "hash of unhashable type []uint8"
  | _ => Ok (if existsb (same_key v) seen then seen else v :: seen)
  end.

Definition count_distinct (arg : Expr) (rows : list Row) : ev val :=
  seen ← foldE (fun seen row => v ← row_value arg row; if is_nil v then Ok seen else add_key seen v) rows [];
  Ok (Int (Z.of_nat (length seen))).

Definition count_values (arg : Expr) (rows : list Row) : ev val :=
  n ← foldE (fun n row => v ← row_value arg row; Ok (if is_nil v then n else (n + 1)%Z)) rows 0%Z;
  Ok (Int n).

(** The variables of the loop of SUM: the two sums, whether all values were integers, whether there
    was a value, and with DISTINCT the texts of the values seen. *)
Record sum_state : Type := mkSum {
  sumInt : Z; sumFloat : spec_float; allInt : bool; hasValues : bool; seen : list string }.

Definition sum_value (distinct : bool) (s : sum_state) (v : val) : sum_state :=
  if is_nil v then s
  else
    let key := sprint v in
    if distinct && name_in key (seen s) then s
    else
      let seen' := if distinct then key :: seen s else seen s in
      if isIntVal v then mkSum (wrap64 (sumInt s + toInt64 v)) (sumFloat s) (allInt s) true seen'
      else mkSum (sumInt s) (fadd (sumFloat s) (toFloat v)) false true seen'.

Definition zero_float : spec_float := S754_zero false.

Definition sum_result (s : sum_state) : val :=
  if negb (hasValues s) then VNil
  else if allInt s then Int (sumInt s) else Real (fadd (sumFloat s) (of_int (sumInt s))).

Definition sum_values (distinct : bool) (arg : Expr) (rows : list Row) : ev val :=
  s ← foldE (fun s row => v ← row_value arg row; Ok (sum_value distinct s v)) rows
        (mkSum 0 zero_float true false []);
  Ok (sum_result s).

Definition float_sum (arg : Expr) (rows : list Row) : ev (spec_float * Z) :=
  foldE (fun '(s, n) row => v ← row_value arg row;
                            Ok (if is_nil v then (s, n) else (fadd s (toFloat v), (n + 1)%Z))) rows (zero_float, 0%Z).

Definition average (s : spec_float * Z) : val :=
  let (sum, n) := s in if (n =? 0)%Z then VNil else Real (fdiv sum (of_int n)).

(** MIN and MAX: the first of the extreme values. *)
Definition better (c : comparison) (m v : val) : val :=
  if negb (is_nil v) && (is_nil m || bool_decide (compare v m = c)) then v else m.

Definition extreme_of (c : comparison) (arg : Expr) (rows : list Row) : ev val :=
  foldE (fun m row => v ← row_value arg row; Ok (better c m v)) rows VNil.

(** The texts of the values that are not NULL, without repetition if asked. *)
Definition add_text (distinct : bool) (parts : list string) (v : val) : list string :=
  if is_nil v then parts
  else let t := toString v in if distinct && name_in t parts then parts else (parts ++ [t])%list.

Definition string_agg (distinct : bool) (args : list Expr) (rows : list Row) : ev val :=
  match args with
  | [] => Fails (Errorf "STRING_AGG requires at least one argument" [])
  | arg :: rest =>
      separator ← match rest, rows with
                  | s :: _, r :: _ => Some <$> evalExpr env s (Some r)
                  | _, _ => Ok None
                  end;
      match separator with
      | Some VNil => Ok VNil
      | _ =>
          parts ← foldE (fun parts row => v ← evalExpr env arg (Some row); Ok (add_text distinct parts v)) rows [];
          Ok (match parts with [] => VNil | _ => Text (Join parts (toString (default VNil separator))) end)
      end
  end.

(** GROUP_CONCAT evaluates its separator on the row of each value after the first. *)
Definition concat_row (distinct : bool) (arg : Expr) (rest : list Expr) (s : list string * string) (row : Row)
    : ev (list string * string) :=
  let (texts, out) := s in
  v ← evalExpr env arg (Some row);
  if is_nil v then Ok s
  else
    let t := toString v in
    if distinct && name_in t texts then Ok s
    else match texts with
         | [] => Ok ([t], t)
         | _ => sep ← match rest with [] => Ok "," | e :: _ => toString <$> evalExpr env e (Some row) end;
                Ok (t :: texts, out ++ sep ++ t)%string
         end.

Definition group_concat (distinct : bool) (args : list Expr) (rows : list Row) : ev val :=
  match args with
  | [] => Fails (Errorf "GROUP_CONCAT requires at least one argument" [])
  | arg :: rest =>
      s ← foldE (concat_row distinct arg rest) rows ([], EmptyString);
      Ok (match s.1 with [] => VNil | _ => Text s.2 end)
  end.

Definition json_group_array (distinct : bool) (args : list Expr) (rows : list Row) : ev val :=
  s ← foldE (fun '(texts, vs) row =>
               v ← match args with [] => Ok VNil | a :: _ => row_value a row end;
               Ok (if distinct && name_in (sprint v) texts then (texts, vs)
                   else (sprint v :: texts, (vs ++ [v])%list))) rows ([], []);
  (fun t => VOther (JsonText t)) <$> json_array s.2.

(** [evalAggregateExpr] of a call of an aggregate. *)
Definition aggregate (f : FunctionCall) (rows : list Row) : ev val :=
  match f with
  | mkFunctionCall name args distinct star =>
      let with_arg (k : Expr -> ev val) (none : val) := match args with [] => Ok none | a :: _ => k a end in
      match ToUpper name with
      | "COUNT" =>
          if star then Ok (Int (Z.of_nat (length rows)))
          else with_arg (fun a => if distinct then count_distinct a rows else count_values a rows) (Int 0)
      | "SUM" => with_arg (fun a => sum_values distinct a rows) VNil
      | "AVG" => with_arg (fun a => average <$> float_sum a rows) VNil
      | "MIN" => with_arg (fun a => extreme_of Lt a rows) VNil
      | "MAX" => with_arg (fun a => extreme_of Gt a rows) VNil
      | "TOTAL" => with_arg (fun a => (fun s => Real s.1) <$> float_sum a rows) (Real zero_float)
      | "STRING_AGG" => string_agg distinct args rows
      | "GROUP_CONCAT" => group_concat distinct args rows
      | "JSON_GROUP_ARRAY" | "JSONB_GROUP_ARRAY" => json_group_array distinct args rows
      | _ => Fails (Errorf "unsupported aggregate function: %s" [ToUpper name])
      end
  end.

(** ** Expressions with aggregates *)

(** [evalBuiltinFunction]: a few functions have a form of their own here; the arguments of the others
    are put in a row and read back as columns. *)
Definition arg_name (i : nat) : string := ("__arg" ++ itoa (N.of_nat i) ++ "__")%string.

Definition args_row (args : list val) : Row := list_to_map (imap (fun i v => (arg_name i, v)) args).

Definition evalBuiltinFunction (name : string) (args : list val) : ev val :=
  let fallback := evalFunctionCall env
    (mkFunctionCall name (imap (fun i _ => ColumnRef EmptyString (arg_name i)) args) false false)
    (Some (args_row args)) in
  match name, args with
  | "NULLIF", a :: b :: _ => Ok (if decide (compare a b = Eq) then VNil else a)
  | "NULLIF", [a] => Ok a
  | "IFNULL", a :: b :: _ | "NVL", a :: b :: _ => Ok (if is_nil a then b else a)
  | "COALESCE", _ => Ok (default VNil (find (fun a => negb (is_nil a)) args))
  | "ABS", a :: _ =>
      if is_nil a then fallback
      else if isIntVal a then Ok (Int (if (toInt64 a <? 0)%Z then wrap64 (- toInt64 a) else toInt64 a))
      else Ok (Real (if flt (toFloat a) zero_float then SFopp (toFloat a) else toFloat a))
  | "LENGTH", a :: _ => if is_nil a then fallback else Ok (Int (Z.of_nat (String.length (sprint a))))
  | _, _ => fallback
  end.

Definition aggregate_unary (op : TokenType) (v : val) : ev val :=
  match op with
  | TokenPlus => Ok v
  | TokenMinus => Ok (negate v)
  | TokenNOT => Ok (not3 v)
  | _ => Fails (Errorf "unsupported unary operator: %v" [TokenType_String op])
  end.

(** The casts of this evaluator; they are not those of [evalCastExpr]. *)
Definition aggregate_cast (ty : DataType) (v : val) : ev val :=
  let n := ToUpper (dt_Name ty) in
  if is_nil v then Ok VNil
  else if dt_Array ty then evalArrayCast (SQLTypeName ty) v
  else if EqualFold (dt_Name ty) "JSONB" then cast_jsonb v
  else if name_in n ["INTEGER"; "INT"; "BIGINT"; "SMALLINT"; "TINYINT"; "SIGNED"]
  then Ok (Int (if isIntVal v then toInt64 v else int64_of_float (toFloat v)))
  else if name_in n ["REAL"; "FLOAT"; "DOUBLE"; "NUMERIC"; "DECIMAL"] then Ok (Real (toFloat v))
  else if name_in n ["TEXT"; "VARCHAR"; "CHAR"; "STRING"] then Ok (Text (sprint v))
  else Ok v.

Definition aggregate_binary (op : TokenType) (le re : Expr) (left right : val) : ev val :=
  match evalJSONBBinary env op le re left right with
  | Some v => v
  | None =>
      if isComparisonOp op then
        '(left, right) ← canonicalizeArrayComparison env (Some le) (Some re) left right;
        if is_nil left || is_nil right then Ok VNil
        else Bool <$> compareExprValues env op (Some le) (Some re) left right
      else applyBinaryOp op left right
  end.

Variable rows : list Row.

Fixpoint evalExprWithAggregates (e : Expr) : ev val :=
  match e with
  | BinaryExpr l op r =>
      left ← evalExprWithAggregates l;
      right ← evalExprWithAggregates r;
      aggregate_binary op l r left right
  | FunctionCallExpr f => call_with_aggregates f
  | ParenExpr e => evalExprWithAggregates e
  | UnaryExpr op e => v ← evalExprWithAggregates e; aggregate_unary op v
  | CastExpr e ty => v ← evalExprWithAggregates e; aggregate_cast ty v
  | CaseExpr operand whens els =>
      subject ← match operand with
                | None => Ok None
                | Some o => v ← ignore_error VNil (evalExprWithAggregates o); Ok (Some (o, v))
                end;
      (fix branches ws :=
         match ws with
         | [] => match els with Some e => evalExprWithAggregates e | None => Ok VNil end
         | mkWhenClause c result :: rest =>
             cond ← ignore_error VNil (evalExprWithAggregates c);
             matched ← match subject with
                       | None => Ok (toBool cond)
                       | Some (o, v) => if is_nil v || is_nil cond then Ok false
                                        else compareExprValues env TokenEq (Some o) (Some c) v cond
                       end;
             if matched : bool then evalExprWithAggregates result else branches rest
         end) whens
  | IsNullExpr x neg => v ← evalExprWithAggregates x; Ok (Bool (xorb neg (is_nil v)))
  | IsDistinctExpr l r neg =>
      left ← evalExprWithAggregates l;
      right ← evalExprWithAggregates r;
      d ← distinct_values env l r left right;
      Ok (Bool (xorb neg d))
  | BetweenExpr x neg lo hi =>
      v ← evalExprWithAggregates x;
      low ← evalExprWithAggregates lo;
      high ← evalExprWithAggregates hi;
      Ok (if neg then not_between v low high else between v low high)
  | ArrayExpr elements =>
      texts ← mapE (fun x => v ← evalExprWithAggregates x;
                             wrap_error "ARRAY element %d: %w" [] (arrayValueElement v)) elements;
      Ok (Text (formatArrayLiteral texts))
  | SubscriptExpr x i =>
      v ← evalExprWithAggregates x;
      index ← evalExprWithAggregates i;
      subscriptArrayValue (arrayElementTypeOf env x) v index
  | AnyAllExpr l op all array =>
      left ← evalExprWithAggregates l;
      v ← evalExprWithAggregates array;
      if is_nil v then Ok VNil
      else
        elements ← wrap_error "ANY/ALL requires an array operand: %w" [] (parseArrayLiteral (toString v));
        evalQuantifiedComparison op all left elements (default EmptyString (arrayElementTypeOf env array))
  | InExpr le neg values subquery =>
      left ← evalExprWithAggregates le;
      match subquery with
      | Some q => vs ← in_subquery env q; if is_nil left then Ok VNil else in_values env le neg left vs false
      | None =>
          match values with
          | [] => Ok (Bool neg)
          | _ =>
              if is_nil left then Ok VNil
              else (fix members vs sawNull :=
                      match vs with
                      | [] => Ok (in_end neg sawNull)
                      | x :: r =>
                          v ← evalExprWithAggregates x;
                          m ← in_member env le left v;
                          match m with
                          | None => members r true
                          | Some true => Ok (Bool (negb neg))
                          | Some false => members r sawNull
                          end
                      end) values false
          end
      end
  | _ => evalExpr env e (Some (default ∅ (head rows)))
  end
with call_with_aggregates (f : FunctionCall) : ev val :=
  match f with
  | mkFunctionCall name args d star =>
      if isAggregateCallName name then aggregate (mkFunctionCall name args d star) rows
      else
        vs ← mapE evalExprWithAggregates args;
        if name_in (ToUpper name) jsonb_functions
        then jsonb_call (ToUpper name) (mkFunctionCall name args d star) vs
        else evalBuiltinFunction (ToUpper name) vs
  end.

(** [evalAggregateExpr]: a call of an aggregate, or an expression around aggregates. *)
Definition evalAggregateExpr (e : Expr) : ev val := evalExprWithAggregates e.

End Aggregates.

(** ** GROUP BY *)

Section Groups.
Context `{Builtins}.
Variable env : Env.

(** [buildGroupKey]: the texts of the values, separated by bars; errors count as NULL. *)
Definition buildGroupKey (groupBy : list Expr) (row : Row) : ev string :=
  parts ← mapE (fun e => sprint <$> row_value env e row) groupBy;
  Ok (Join parts "|").

(** A map of groups filled in the order of the rows. *)
Definition add_to_group (groups : gmap string (list Row)) (key : string) (row : Row) : gmap string (list Row) :=
  <[key := (default [] (groups !! key) ++ [row])%list]> groups.

Definition collect_groups (groupBy : list Expr) (rows : list Row) : ev (gmap string (list Row)) :=
  foldE (fun groups row => key ← buildGroupKey groupBy row; Ok (add_to_group groups key row)) rows ∅.

(** One column of a group: an aggregate of its rows, or the value on its first row. *)
Definition group_column (e : Expr) (rows : list Row) : ev val :=
  if isAggregate e then evalAggregateExpr env rows e
  else evalExpr env e (Some (default ∅ (head rows))).

(** HAVING: an error is taken for false. *)
Definition having_holds (having : option Expr) (rows : list Row) : ev bool :=
  match having with
  | None => Ok true
  | Some h => v ← ignore_error VNil (evalAggregateExpr env rows h); Ok (negb (is_nil v) && toBool v)
  end.

Fixpoint slow_groups (columns : list Expr) (having : option Expr) (groups : list (list Row)) : ev (list (list val)) :=
  match groups with
  | [] => Ok []
  | rows :: rest =>
      keep ← having_holds having rows;
      if keep : bool then
        values ← mapE (fun e => group_column e rows) columns;
        more ← slow_groups columns having rest;
        Ok (values :: more)
      else slow_groups columns having rest
  end.

Definition group_by_slow (columns groupBy : list Expr) (having : option Expr) (rows : list Row)
    : ev (list (list val)) :=
  groups ← collect_groups groupBy rows;
  slow_groups columns having (map snd (map_to_list groups)).

(** *** Accumulators *)

Record aggAccum : Type := mkAccum {
  acc_count : Z; acc_sumI : Z; acc_sumF : spec_float; acc_allInt : bool; acc_hasVal : bool;
  acc_extreme : val; acc_seen : list string }.

Definition new_accum : aggAccum := mkAccum 0 0 zero_float true false VNil [].

Definition count_more (a : aggAccum) : aggAccum :=
  mkAccum (acc_count a + 1) (acc_sumI a) (acc_sumF a) (acc_allInt a) (acc_hasVal a) (acc_extreme a) (acc_seen a).

(** The DISTINCT test: whether the value is new, and the accumulator that has seen it. *)
Definition see (distinct : bool) (a : aggAccum) (v : val) : option aggAccum :=
  if distinct then
    let key := sprint v in
    if name_in key (acc_seen a) then None
    else Some (mkAccum (acc_count a) (acc_sumI a) (acc_sumF a) (acc_allInt a) (acc_hasVal a) (acc_extreme a)
                 (key :: acc_seen a))
  else Some a.

Definition feed_count (distinct : bool) (a : aggAccum) (v : val) : aggAccum :=
  if is_nil v then a else match see distinct a v with None => a | Some a => count_more a end.

Definition feed_sum (distinct : bool) (a : aggAccum) (v : val) : aggAccum :=
  if is_nil v then a
  else match see distinct a v with
       | None => a
       | Some a =>
           if isIntVal v
           then mkAccum (acc_count a) (wrap64 (acc_sumI a + toInt64 v)) (acc_sumF a) (acc_allInt a) true
                  (acc_extreme a) (acc_seen a)
           else mkAccum (acc_count a) (acc_sumI a) (fadd (acc_sumF a) (toFloat v)) false true
                  (acc_extreme a) (acc_seen a)
       end.

Definition feed_avg (a : aggAccum) (v : val) : aggAccum :=
  if is_nil v then a
  else mkAccum (acc_count a + 1) (acc_sumI a) (fadd (acc_sumF a) (toFloat v)) (acc_allInt a) true
         (acc_extreme a) (acc_seen a).

Definition feed_extreme (c : comparison) (a : aggAccum) (v : val) : aggAccum :=
  mkAccum (acc_count a) (acc_sumI a) (acc_sumF a) (acc_allInt a) (acc_hasVal a)
    (better c (acc_extreme a) v) (acc_seen a).

Definition feedAggAccum (f : FunctionCall) (a : aggAccum) (row : Row) : ev aggAccum :=
  match f with
  | mkFunctionCall name args distinct star =>
      let with_value (k : val -> aggAccum) :=
        match args with [] => Ok a | e :: _ => v ← row_value env e row; Ok (k v) end in
      match ToUpper name with
      | "COUNT" => if star then Ok (count_more a) else with_value (feed_count distinct a)
      | "SUM" => with_value (feed_sum distinct a)
      | "AVG" => with_value (feed_avg a)
      | "MIN" => with_value (feed_extreme Lt a)
      | "MAX" => with_value (feed_extreme Gt a)
      | _ => Ok a
      end
  end.

Definition finalizeAggAccum (f : FunctionCall) (a : aggAccum) : val :=
  match f with
  | mkFunctionCall name _ _ _ =>
      match ToUpper name with
      | "COUNT" => Int (acc_count a)
      | "SUM" => if negb (acc_hasVal a) then VNil
                 else if acc_allInt a then Int (acc_sumI a) else Real (fadd (acc_sumF a) (of_int (acc_sumI a)))
      | "AVG" => if negb (acc_hasVal a) || (acc_count a =? 0)%Z then VNil
                 else Real (fdiv (acc_sumF a) (of_int (acc_count a)))
      | "MIN" | "MAX" => acc_extreme a
      | _ => VNil
      end
  end.

(** Whether the accumulators can be used: no HAVING, and every column with an aggregate is a call of one. *)
Definition accum_call (e : Expr) : option FunctionCall :=
  match e with
  | FunctionCallExpr (mkFunctionCall name a d s) =>
      if name_in (ToUpper name) accumulator_names then Some (mkFunctionCall name a d s) else None
  | _ => None
  end.

Definition canUseGroupAccum (columns : list Expr) (having : option Expr) : bool :=
  match having with
  | Some _ => false
  | None => forallb (fun e => negb (isAggregate e) || match accum_call e with Some _ => true | None => false end) columns
  end.

(** The state of a group: its first row and an accumulator for each aggregate column. *)
Record groupAccumState : Type := mkGroupState { firstRow : Row; accums : list aggAccum }.

(** The aggregate columns, in order. *)
Definition agg_calls (columns : list Expr) : list FunctionCall :=
  omap (fun e => if isAggregate e then accum_call e else None) columns.

Fixpoint feed_all (calls : list FunctionCall) (accs : list aggAccum) (row : Row) : ev (list aggAccum) :=
  match calls, accs with
  | f :: calls, a :: accs => a ← feedAggAccum f a row; accs ← feed_all calls accs row; Ok (a :: accs)
  | _, _ => Ok []
  end.

(** The groups in the order their keys first occur. *)
Definition accum_row (calls : list FunctionCall) (groupBy : list Expr)
    (s : gmap string groupAccumState * list string) (row : Row) : ev (gmap string groupAccumState * list string) :=
  let (states, keyOrder) := s in
  key ← buildGroupKey groupBy row;
  let '(state, keyOrder) := match states !! key with
                            | Some st => (st, keyOrder)
                            | None => (mkGroupState row (map (fun _ => new_accum) calls), (keyOrder ++ [key])%list)
                            end in
  accs ← feed_all calls (accums state) row;
  Ok (<[key := mkGroupState (firstRow state) accs]> states, keyOrder).

(** The columns of a group: aggregates take the accumulators in order, errors of the others are NULL. *)
Fixpoint accum_columns (columns : list Expr) (first : Row) (accs : list aggAccum) : ev (list val) :=
  match columns with
  | [] => Ok []
  | e :: rest =>
      if isAggregate e then
        match accum_call e, accs with
        | Some f, a :: accs => more ← accum_columns rest first accs; Ok (finalizeAggAccum f a :: more)
        | _, _ => Crash "interface conversion"
        end
      else
        v ← row_value env e first;
        more ← accum_columns rest first accs;
        Ok (v :: more)
  end.

Definition group_by_accum (columns groupBy : list Expr) (rows : list Row) : ev (list (list val)) :=
  s ← foldE (accum_row (agg_calls columns) groupBy) rows (∅, []);
  mapE (fun key => match s.1 !! key with
                   | Some st => accum_columns columns (firstRow st) (accums st)
                   | None => Ok []
                   end) s.2.

(** The rows of [executeGroupBy] before DISTINCT, ORDER BY and LIMIT. *)
Definition group_rows (columns groupBy : list Expr) (having : option Expr) (rows : list Row) : ev (list (list val)) :=
  if canUseGroupAccum columns having then group_by_accum columns groupBy rows
  else group_by_slow columns groupBy having rows.

(** The row of a query with aggregates and without GROUP BY. *)
Definition executeAggregateSelect (columns : list Expr) (rows : list Row) : ev (list val) :=
  mapE (evalAggregateExpr env rows) columns.

End Groups.

(** [resolveGroupByAliases]: an alias in upper case stands for its column; the last one wins. *)
Definition resolveGroupByAliases (groupBy : list Expr) (columns : list (string * option Expr)) : list Expr :=
  let aliases := rev (omap (fun '(a, e) => if a =s EmptyString then None
                                           else match e with Some e => Some (ToUpper a, e) | None => None end) columns) in
  map (fun e => match e with
                | ColumnRef _ c => match find (fun p => p.1 =s ToUpper c) aliases with Some p => p.2 | None => e end
                | _ => e
                end) groupBy.
