(* ===== verification/Sorting.v ===== *)
(** * ORDER BY, LIMIT, OFFSET and DISTINCT (pkg/executor/executor.go, result.go)

    Rows are sorted by keys that are computed once.  With a LIMIT only as many rows as are wanted are
    kept while the keys are read, in the binary heap of container/heap.  [sort.Slice] is an insertion
    sort here, which keeps equal keys in their order. *)
From Stdlib Require Import NArith ZArith Lia Bool Ascii String List.
From stdpp Require Import base option list gmap strings.
From S2P Require Import Prelude Token Ast Bytes RowCodec Float Values Schema ExecValue Arrays ExprTypes Operators Eval.

#[local] Open Scope string_scope.

(** ** Sorting indices by a "less than" *)

Section Sort.
Variable less : nat -> nat -> bool.

Fixpoint insert_index (x : nat) (l : list nat) : list nat :=
  match l with
  | [] => [x]
  | y :: r => if less y x then y :: insert_index x r else x :: l
  end.

Definition sort_slice (l : list nat) : list nat := fold_right insert_index [] l.

(** ** The heap of the greatest, as a list

    [Less(i, j)] of the heap is "the element at j sorts before the element at i". *)
Definition heap_less (h : list nat) (i j : nat) : bool := less (h !!! j) (h !!! i).

Definition heap_swap (h : list nat) (i j : nat) : list nat := <[i := h !!! j]> (<[j := h !!! i]> h).

(** [up(h, j)]; [j] halves. *)
Fixpoint heap_up (fuel : nat) (h : list nat) (j : nat) : list nat :=
  match fuel with
  | O => h
  | S k =>
      let i := (j - 1) / 2 in
      if (i =? j) || negb (heap_less h j i) then h else heap_up k (heap_swap h i j) i
  end%nat.

(** [down(h, i, n)]; [i] doubles. *)
Fixpoint heap_down (fuel : nat) (h : list nat) (i : nat) : list nat :=
  match fuel with
  | O => h
  | S k =>
      let n := length h in
      let j1 := 2 * i + 1 in
      if n <=? j1 then h
      else
        let j := if (j1 + 1 <? n) && heap_less h (j1 + 1) j1 then j1 + 1 else j1 in
        if negb (heap_less h j i) then h else heap_down k (heap_swap h i j) j
  end%nat.

(** [heap.Push(h, x)] *)
Definition heap_push (h : list nat) (x : nat) : list nat := heap_up (length h) (h ++ [x])%list (length h).

(** [h.idx[0] = x; heap.Fix(h, 0)]: an element that does not move down at the root does not move up. *)
Definition heap_replace (h : list nat) (x : nat) : list nat := heap_down (length h) (<[0%nat := x]> h) 0.

(** The loop over the keys. *)
Definition top_step (k : nat) (h : list nat) (i : nat) : list nat :=
  if (length h <? k)%nat then heap_push h i
  else if less i (h !!! 0%nat) then heap_replace h i else h.

Definition top_heap (k n : nat) : list nat := fold_left (top_step k) (seq 0 n) [].

End Sort.

(** ** Keys *)

Section Order.
Context `{Foreign}.

Definition item_desc (o : OrderByItem) : bool := match o with mkOrderByItem _ d _ => d end.
Definition item_nulls (o : OrderByItem) : NullsOrder := match o with mkOrderByItem _ _ n => n end.
Definition item_key (o : OrderByItem) : Expr := match o with mkOrderByItem e _ _ => e end.

Definition nulls_first (o : OrderByItem) : bool :=
  match item_nulls o with NullsFirst => true | NullsLast => false | NullsDefault => negb (item_desc o) end.

(** The comparison of one column: [None] goes on with the next. *)
Definition item_less (o : OrderByItem) (a b : val) : option bool :=
  match is_nil a, is_nil b with
  | true, true => None
  | true, false => Some (nulls_first o)
  | false, true => Some (negb (nulls_first o))
  | false, false =>
      match compare a b with
      | Eq => None
      | c => Some (bool_decide (c = if item_desc o then Gt else Lt))
      end
  end.

(** There is a key value for each item. *)
Fixpoint orderByLess (orderBy : list OrderByItem) (a b : list val) : bool :=
  match orderBy, a, b with
  | o :: orderBy, x :: a, y :: b =>
      match item_less o x y with Some r => r | None => orderByLess orderBy a b end
  | _, _, _ => false
  end.

Definition key_less (orderBy : list OrderByItem) (keys : list (list val)) (i j : nat) : bool :=
  orderByLess orderBy (keys !!! i) (keys !!! j).

Definition sortKeyOrder (keys : list (list val)) (orderBy : list OrderByItem) : list nat :=
  sort_slice (key_less orderBy keys) (seq 0 (length keys)).

Definition topNKeyOrder (keys : list (list val)) (orderBy : list OrderByItem) (k : Z) : list nat :=
  if (k <=? 0)%Z then []
  else if (Z.of_nat (length keys) <=? k)%Z then sortKeyOrder keys orderBy
  else sort_slice (key_less orderBy keys) (top_heap (key_less orderBy keys) (Z.to_nat k) (length keys)).

(** The elements of a slice in an order. *)
Definition reorder {A} `{Inhabited A} (l : list A) (order : list nat) : list A := map (fun i => l !!! i) order.

(** ** OFFSET and LIMIT on a slice: a negative bound panics. *)

Definition drop_rows {A} (offset : Z) (l : list A) : ev (list A) :=
  if (offset <? Z.of_nat (length l))%Z
  then if (offset <? 0)%Z then Crash "slice bounds out of range" else Ok (drop (Z.to_nat offset) l)
  else Ok [].

Definition take_rows {A} (limit : Z) (l : list A) : ev (list A) :=
  if (limit <? Z.of_nat (length l))%Z
  then if (limit <? 0)%Z then Crash "slice bounds out of range" else Ok (take (Z.to_nat limit) l)
  else Ok l.

Definition offset_limit {A} (offset limit : option Z) (l : list A) : ev (list A) :=
  l ← match offset with Some o => drop_rows o l | None => Ok l end;
  match limit with Some n => take_rows n l | None => Ok l end.

(** The choice between the full sort and the bounded one. *)
Definition ordered {A} `{Inhabited A} (orderBy : list OrderByItem) (offset limit : option Z)
    (keys : list (list val)) (l : list A) : list A :=
  match orderBy with
  | [] => l
  | _ =>
      let k := wrap64 (default 0%Z offset + default 0%Z limit) in
      if match limit with Some n => (0 <=? n)%Z | None => false end
         && (0 <=? k)%Z && (k <? Z.of_nat (length l))%Z
      then reorder l (topNKeyOrder keys orderBy k)
      else reorder l (sortKeyOrder keys orderBy)
  end.

(** ** Keys of rows and of results *)

(** A position [1 .. n] in ORDER BY stands for the select column. *)
Definition resolveOrderByPositions (orderBy : list OrderByItem) (columns : list SelectColumn) : list OrderByItem :=
  map (fun o => match o with
                | mkOrderByItem (LiteralExpr _ v) d n =>
                    match ParseInt v with
                    | Some pos =>
                        if ((1 <=? pos) && (pos <=? Z.of_nat (length columns)))%Z then
                          match nth_error columns (Z.to_nat (pos - 1)) with
                          | Some (mkSelectColumn (Some e) _ _ _) => mkOrderByItem e d n
                          | _ => o
                          end
                        else o
                    | None => o
                    end
                | _ => o
                end) orderBy.

End Order.

Record Result `{Foreign} : Type := mkRes {
  r_Columns : list string; r_ColumnTypes : list string; r_Rows : list (list val); r_RowCount : Z }.

Section Limits.
Context `{Builtins}.
Variable env : Env.

(** [AddRow]: a JSON text is stored as a string. *)
Definition stored_value (v : val) : val := match v with VOther (JsonText s) => Text s | _ => v end.

Definition NewResult (columns types : list string) (rows : list (list val)) : Result :=
  mkRes _ columns types (map (map stored_value) rows) (Z.of_nat (length rows)).

Definition sortRowKeys (rows : list Row) (orderBy : list OrderByItem) : ev (list (list val)) :=
  mapE (fun row => mapE (fun o => ignore_error VNil (evalExpr env (item_key o) (Some row))) orderBy) rows.

Definition limit_value (e : option Expr) : ev (option Z) :=
  match e with None => Ok None | Some e => Some <$> evalIntExpr env e end.

Definition orderAndLimitRows (rows : list Row) (orderBy : list OrderByItem) (limitExpr offsetExpr : option Expr)
    (columns : list SelectColumn) : ev (list Row) :=
  let orderBy := resolveOrderByPositions orderBy columns in
  offset ← limit_value offsetExpr;
  limit ← limit_value limitExpr;
  keys ← sortRowKeys rows orderBy;
  offset_limit offset limit (ordered orderBy offset limit keys rows).

(** The row of a result as a row of a table: the last column of a name wins. *)
Definition resultRowToStorageRow (columns : list string) (row : list val) : Row :=
  fold_left (fun m '(c, v) => <[c := v]> m) (zip columns row) ∅.

(** A column that ORDER BY names is read from the result. *)
Definition resultRowKey (columns : list string) (names : list string) (row : list val) (o : OrderByItem) : ev val :=
  let evaluated := ignore_error VNil (evalExpr env (item_key o) (Some (resultRowToStorageRow columns row))) in
  match item_key o with
  | ColumnRef EmptyString c =>
      match find (fun '(n, _) => EqualFold n c) (zip names row) with
      | Some (_, v) => Ok v
      | None => evaluated
      end
  | _ => evaluated
  end.

Definition resultRowKeys (r : Result) (orderBy : list OrderByItem) (names : list string) : ev (list (list val)) :=
  mapE (fun row => mapE (resultRowKey (r_Columns r) names row) orderBy) (r_Rows r).

Definition with_rows (r : Result) (rows : list (list val)) (count : Z) : Result :=
  mkRes _ (r_Columns r) (r_ColumnTypes r) rows count.

Definition sortResultRows (r : Result) (orderBy : list OrderByItem) (columns : list SelectColumn) (names : list string)
    : ev Result :=
  let orderBy := resolveOrderByPositions orderBy columns in
  keys ← resultRowKeys r orderBy names;
  Ok (with_rows r (reorder (r_Rows r) (sortKeyOrder keys orderBy)) (r_RowCount r)).

Definition orderAndLimitResultRows (r : Result) (orderBy : list OrderByItem) (limitExpr offsetExpr : option Expr)
    (columns : list SelectColumn) (names : list string) : ev Result :=
  let orderBy := resolveOrderByPositions orderBy columns in
  offset ← limit_value offsetExpr;
  limit ← limit_value limitExpr;
  keys ← resultRowKeys r orderBy names;
  rows ← offset_limit offset limit (ordered orderBy offset limit keys (r_Rows r));
  Ok (with_rows r rows (match offset, limit with
                        | None, None => r_RowCount r
                        | _, _ => Z.of_nat (length rows)
                        end)).

(** ** DISTINCT *)

(** The key of a row: the texts of its values, separated by NUL bytes. *)
Definition distinct_key (row : list val) : string := Join (map sprint row) (str1 NUL).

Fixpoint distinct_rows (seen : list string) (rows : list (list val)) : list (list val) :=
  match rows with
  | [] => []
  | row :: r => if name_in (distinct_key row) seen then distinct_rows seen r
                else row :: distinct_rows (distinct_key row :: seen) r
  end.

Definition applyDistinct (rows : list (list val)) : list (list val) := distinct_rows [] rows.

End Limits.
