(* ===== verification/Joins.v ===== *)
(** * Joins (pkg/executor/executor.go)

    The rows of a join in its two forms: nested loops over the condition, and a hash table when the
    condition is an equality of two columns.  The relations on the right come from subqueries, common
    table expressions, catalogue views and tables: [Relations] is how the executor reads them. *)
From Stdlib Require Import NArith ZArith Lia Bool Ascii String List.
From stdpp Require Import base option list gmap strings.
From S2P Require Import Prelude Token Ast Bytes RowCodec Float Values Schema ExecValue Arrays ExprTypes Operators Eval.

#[local] Open Scope string_scope.

(** [strings.Contains(k, ".")] *)
Definition is_qualified (k : string) : bool := has_byte (fun c => c =b ".") k.

Definition qualify (alias k : string) : string := (alias ++ "." ++ k)%string.

(** ** Keys *)

(** The name a reference has in the rows on the left of a join, or on the right. *)
Definition leftJoinKey (leftName leftAlias rightName rightAlias table column : string) : option string :=
  if (table =s EmptyString) || (table =s leftAlias) || (table =s leftName) then Some column
  else if negb (table =s rightAlias) && negb (table =s rightName) then Some (qualify table column)
  else None.

Definition rightJoinKey (rightName rightAlias table column : string) : option string :=
  if (table =s EmptyString) || (table =s rightAlias) || (table =s rightName) then Some column else None.

Definition extractEqualityJoinKeys (condition : option Expr) (leftName leftAlias rightName rightAlias : string)
    : option (string * string) :=
  let keys lt lc rt rc :=
    l ← leftJoinKey leftName leftAlias rightName rightAlias lt lc;
    r ← rightJoinKey rightName rightAlias rt rc;
    Some (l, r) in
  match condition with
  | Some (BinaryExpr (ColumnRef t1 c1) op (ColumnRef t2 c2)) =>
      if op =t TokenEq then keys t1 c1 t2 c2 ∪ keys t2 c2 t1 c1 else None
  | _ => None
  end.

Section Joins.
Context `{Builtins}.
Variable env : Env.

Definition joinKeyString (row : Row) (column : string) : string :=
  match row !! column with Some v => sprint v | None => str1 NUL end.

(** ** Merged rows

    A column of the left keeps its name, a column of the right its name where the left has none; both
    get a qualified name. *)
Definition merge_left (alias : string) (m : Row) (kv : string * val) : Row :=
  let m := <[kv.1 := kv.2]> m in
  if negb (alias =s EmptyString) && negb (is_qualified kv.1) then <[qualify alias kv.1 := kv.2]> m else m.

Definition merge_right (alias : string) (m : Row) (kv : string * val) : Row :=
  if is_qualified kv.1 then <[kv.1 := kv.2]> m
  else
    let m := match m !! kv.1 with Some _ => m | None => <[kv.1 := kv.2]> m end in
    if negb (alias =s EmptyString) then <[qualify alias kv.1 := kv.2]> m else m.

Definition mergeRows (left right : Row) (leftAlias rightAlias : string) : Row :=
  fold_left (merge_right rightAlias) (map_to_list right) (fold_left (merge_left leftAlias) (map_to_list left) ∅).

Definition addTableAlias (row : Row) (alias : string) : Row :=
  fold_left (fun m kv => let m := <[kv.1 := kv.2]> m in
                         if is_qualified kv.1 then m else <[qualify alias kv.1 := kv.2]> m) (map_to_list row) ∅.

(** [normalizeRowBySchema]: a float in an integer or boolean column becomes an integer. *)
Definition normalizeRowBySchema (row : Row) (columns : list Column) : Row :=
  fold_left (fun m c =>
    let upper := ToUpper (col_Type c) in
    if contains_text upper "INT" || (upper =s "BOOLEAN") || (upper =s "BOOL") then
      match m !! col_Name c with
      | Some (VFloat64 bits) => <[col_Name c := Int (int64_of_float (real bits))]> m
      | _ => m
      end
    else m) columns row.

(** The row of NULLs for a left row without a match. *)
Definition makeNullRow (rightRows : list Row) (schemaColumns : list string) : Row :=
  match rightRows with
  | r :: _ => (fun _ => VNil) <$> r
  | [] => list_to_map (map (fun c => (c, VNil)) schemaColumns)
  end.

(** ** Matching *)

Definition using_matches (left right : Row) (column : string) : bool :=
  match rowColumnValue left column, rowColumnValue right column with
  | Some a, Some b => negb (is_nil a) && negb (is_nil b) && bool_decide (compare a b = Eq)
  | _, _ => false
  end.

Definition joinMatches (left right merged : Row) (condition : option Expr) (shared : list string) : ev bool :=
  match condition with
  | Some c => toBool <$> evalExpr env c (Some merged)
  | None => Ok (forallb (using_matches left right) shared)
  end.

(** ** The two ways to join

    [pairs] computes the merged rows of the matches of one left row. *)
Definition nested_pairs (condition : option Expr) (shared : list string) (la ra : string)
    (rightRows : list Row) (left : Row) : ev (list Row) :=
  foldE (fun acc right =>
           let merged := mergeRows left right la ra in
           m ← joinMatches left right merged condition shared;
           Ok (if m : bool then acc ++ [merged] else acc)%list) rightRows [].

Definition hash_table (rightKey : string) (rightRows : list Row) : gmap string (list Row) :=
  fold_left (fun t right => let k := joinKeyString right rightKey in
                            <[k := (default [] (t !! k) ++ [right])%list]> t) rightRows ∅.

Definition hash_pairs (table : gmap string (list Row)) (leftKey la ra : string) (left : Row) : list Row :=
  map (fun right => mergeRows left right la ra) (default [] (table !! joinKeyString left leftKey)).

(** An inner join keeps the matches; a left join gives a row without one the NULLs. *)
Definition or_null (keep : bool) (la ra : string) (nullRight left : Row) (matches : list Row) : list Row :=
  match matches with [] => if keep then [mergeRows left nullRight la ra] else [] | _ => matches end.

Definition nested_join (keep : bool) (condition : option Expr) (shared : list string) (la ra : string)
    (leftRows rightRows : list Row) (nullRight : Row) : ev (list Row) :=
  rows ← mapE (fun left => or_null keep la ra nullRight left <$> nested_pairs condition shared la ra rightRows left)
           leftRows;
  Ok (concat rows).

Definition hash_join (keep : bool) (keys : string * string) (la ra : string)
    (leftRows rightRows : list Row) (nullRight : Row) : list Row :=
  let table := hash_table keys.2 rightRows in
  concat (map (fun left => or_null keep la ra nullRight left (hash_pairs table keys.1 la ra left)) leftRows).

Definition cross_join (la ra : string) (leftRows rightRows : list Row) : list Row :=
  concat (map (fun left => map (fun right => mergeRows left right la ra) rightRows) leftRows).

(** The join itself; a RIGHT or FULL join has no case and gives no row. *)
Definition join_rows (type : JoinType) (condition : option Expr) (shared : list string) (keys : option (string * string))
    (la ra : string) (leftRows rightRows : list Row) (nullRight : Row) : ev (list Row) :=
  let matching keep :=
    match keys with
    | Some keys => Ok (hash_join keep keys la ra leftRows rightRows nullRight)
    | None => nested_join keep condition shared la ra leftRows rightRows nullRight
    end in
  match type with
  | JoinInner => matching false
  | JoinLeft => matching true
  | JoinCross => Ok (cross_join la ra leftRows rightRows)
  | JoinRight | JoinFull => Ok []
  end.

End Joins.

(** ** Relations *)

(** How the executor reads the relation of a table reference: its rows, as a chain of joins and as the
    join of a derived table reads them, the columns of the table or catalogue view that has its name (none
    if there is none), the column of a primary key of one column (tables only), and the row of a key. *)
Class Relations `{Foreign} : Type := {
  rel_rows : TableRef -> ev (list Row);
  rel_scan : TableRef -> ev (list Row);
  rel_columns : TableRef -> list string;
  rel_primary_key : TableRef -> option string;
  rel_get : TableRef -> string -> ev (option Row)
}.

Definition tr_Schema (t : TableRef) : string := match t with mkTableRef s _ _ _ _ _ _ => s end.
Definition tr_Name (t : TableRef) : string := match t with mkTableRef _ n _ _ _ _ _ => n end.
Definition tr_Alias (t : TableRef) : string := match t with mkTableRef _ _ a _ _ _ _ => a end.

(** The alias, or else the name. *)
Definition qualifier (t : TableRef) : string := if tr_Alias t =s EmptyString then tr_Name t else tr_Alias t.

Section JoinChain.
Context `{Builtins} `{!Relations}.
Variable env : Env.

(** The rows of the keys that occur on the left, each key once. *)
Fixpoint probe (t : TableRef) (leftKey : string) (seen : list string) (leftRows : list Row) : ev (list Row) :=
  match leftRows with
  | [] => Ok []
  | l :: rest =>
      let key := joinKeyString l leftKey in
      if (key =s str1 NUL) || name_in key seen then probe t leftKey seen rest
      else
        row ← rel_get t key;
        rows ← probe t leftKey (key :: seen) rest;
        Ok (match row with Some r => r :: rows | None => rows end)
  end.

Definition right_rows (t : TableRef) (keys : option (string * string)) (leftRows : list Row) : ev (list Row) :=
  match keys, rel_primary_key t with
  | Some (leftKey, rightKey), Some pk =>
      if EqualFold pk rightKey && (length leftRows <=? 256)%nat then probe t leftKey [] leftRows
      else rel_rows t
  | _, _ => rel_rows t
  end.

(** [executeJoinsWithMode]: the chain of joins behind a table; only the first join qualifies the left. *)
Fixpoint executeJoins (t : TableRef) (leftRows : list Row) (qualifyLeft : bool) : ev (list Row) :=
  match t with
  | mkTableRef _ _ _ _ (Some (mkJoinClause type rt condition shared)) _ _ =>
      let la := qualifier t in
      let ra := qualifier rt in
      let keys := match shared with
                  | [] => extractEqualityJoinKeys condition (tr_Name t) la (tr_Name rt) ra
                  | _ => None
                  end in
      rightRows ← right_rows rt keys leftRows;
      let nullRight := makeNullRow rightRows (rel_columns rt) in
      rows ← join_rows env type condition shared keys (if qualifyLeft then la else EmptyString) ra
               leftRows rightRows nullRight;
      executeJoins rt rows false
  | _ => Ok leftRows
  end.

(** [executeJoin]: the one join of a derived table or a common table expression. *)
Definition executeJoin (t : TableRef) (leftRows : list Row) : ev (list Row) :=
  match tr_Join t with
  | None => Ok leftRows
  | Some (mkJoinClause type rt condition shared) =>
      rightRows ← rel_scan rt;
      let keys := match shared with
                  | [] => extractEqualityJoinKeys condition (tr_Name t) (tr_Alias t) (tr_Name rt) (tr_Alias rt)
                  | _ => None
                  end in
      join_rows env type condition shared keys (tr_Alias t) (tr_Alias rt) leftRows rightRows
        (makeNullRow rightRows (rel_columns rt))
  end.

End JoinChain.

(** [collectAllTableRefs]: the tables of a FROM clause with the chains behind them, as name and alias. *)
Fixpoint chain_refs (t : TableRef) : list (string * string) :=
  match t with
  | mkTableRef _ name alias _ j _ _ =>
      (name, if alias =s EmptyString then name else alias)
      :: match j with Some (mkJoinClause _ t' _ _) => chain_refs t' | None => [] end
  end.

Definition collectAllTableRefs (from : list TableRef) : list (string * string) := flat_map chain_refs from.
