(* ===== verification/Select.v ===== *)
(** * SELECT over results (pkg/executor/executor.go)

    What a SELECT does with rows once it has them: joins, WHERE, GROUP BY and aggregates, ORDER BY and
    LIMIT, the projection; the set operations; SELECT without FROM, and over derived tables.  A SELECT
    that reads tables, common table expressions or views is [select_tables]. *)
From Stdlib Require Import NArith ZArith Lia Bool Ascii String List.
From stdpp Require Import base option list gmap strings.
From S2P Require Import Prelude Token Ast Bytes RowCodec Float Values Schema ExecValue Arrays ExprTypes Operators Eval.
From S2P Require Import Aggregates Sorting Joins.

#[local] Open Scope string_scope.

(** What a SELECT needs of the tables of its FROM clause: their types, the columns and the row prefix of
    [table.*], the values of the window functions of a projection by column and row, the columns with
    their types of a relation that a join materialises on its right (none for a table). *)
Class Tables `{Foreign} : Type := {
  from_types : list TableRef -> columnTypeResolver;
  star_columns : list TableRef -> string -> ev (list string * string);
  window_values : Env -> SelectStmt -> list Row -> ev (nat -> nat -> val);
  join_columns : TableRef -> list (string * string)
}.

(** The SELECTs that read tables, common table expressions, views and catalogue views. *)
Class Sources `{Foreign} : Type := {
  select_tables : Env -> SelectStmt -> ev Result;
  reads_catalog : list TableRef -> bool
}.

Definition push_scope `{Foreign} (env : Env) (r : columnTypeResolver) : Env :=
  mkEnv _ (outerRow env) (Some r :: typeScopes env) (lastInsertRowID env) (changes env) (totalChanges env)
    (backendPID env).

(** A select column: its expression (a missing one is NULL), alias, and wildcards. *)
Definition sc_expr (c : SelectColumn) : Expr :=
  match c with mkSelectColumn e _ _ _ => default (LiteralExpr TokenNULL EmptyString) e end.
Definition sc_alias (c : SelectColumn) : string := match c with mkSelectColumn _ a _ _ => a end.
Definition sc_star (c : SelectColumn) : bool := match c with mkSelectColumn _ _ s _ => s end.
Definition sc_table (c : SelectColumn) : string := match c with mkSelectColumn _ _ _ t => t end.

Definition plain_column (table column : string) : SelectColumn :=
  mkSelectColumn (Some (ColumnRef table column)) EmptyString false EmptyString.

Definition column_number (i : nat) : string := ("column" ++ itoa (N.of_nat (S i)))%string.

(** ** The parts of a SELECT *)

Definition sel_From (s : SelectStmt) : list TableRef := match s with mkSelectStmt _ _ f _ _ _ _ _ _ _ _ _ => f end.
Definition sel_Distinct (s : SelectStmt) : bool := match s with mkSelectStmt d _ _ _ _ _ _ _ _ _ _ _ => d end.
Definition sel_Where (s : SelectStmt) : option Expr := match s with mkSelectStmt _ _ _ w _ _ _ _ _ _ _ _ => w end.
Definition sel_GroupBy (s : SelectStmt) : list Expr := match s with mkSelectStmt _ _ _ _ g _ _ _ _ _ _ _ => g end.
Definition sel_Having (s : SelectStmt) : option Expr := match s with mkSelectStmt _ _ _ _ _ h _ _ _ _ _ _ => h end.
Definition sel_OrderBy (s : SelectStmt) : list OrderByItem :=
  match s with mkSelectStmt _ _ _ _ _ _ o _ _ _ _ _ => o end.
Definition sel_Limit (s : SelectStmt) : option Expr := match s with mkSelectStmt _ _ _ _ _ _ _ l _ _ _ _ => l end.
Definition sel_Offset (s : SelectStmt) : option Expr := match s with mkSelectStmt _ _ _ _ _ _ _ _ o _ _ _ => o end.

Definition sel_With (s : SelectStmt) : list CTE := match s with mkSelectStmt _ _ _ _ _ _ _ _ _ _ w _ => w end.
Definition sel_Locking (s : SelectStmt) : option LockingClause :=
  match s with mkSelectStmt _ _ _ _ _ _ _ _ _ _ _ l => l end.

Definition is_none {A} (o : option A) : bool := match o with None => true | Some _ => false end.
Definition is_some {A} (o : option A) : bool := negb (is_none o).
Definition is_empty_list {A} (l : list A) : bool := match l with [] => true | _ => false end.

Definition has_aggregates (columns : list SelectColumn) : bool := existsb (fun c => isAggregate (sc_expr c)) columns.

(** A locking clause is for one table, and for rows that are rows of it. *)
Definition validateLockingSelect (stmt : SelectStmt) : ev () :=
  if negb match sel_From stmt with [mkTableRef _ _ _ None None None _] => true | _ => false end
  then Fails (NotSupported "row locking requires exactly one base table in FROM" [])
  else if negb (is_empty_list (sel_With stmt)) || is_some (sel_Compound stmt)
  then Fails (NotSupported "row locking is not supported on a CTE or compound SELECT" [])
  else if sel_Distinct stmt || negb (is_empty_list (sel_GroupBy stmt)) || is_some (sel_Having stmt)
          || has_aggregates (sel_Columns stmt)
  then Fails (NotSupported "row locking is not supported with DISTINCT, GROUP BY, HAVING, or aggregates" [])
  else Ok ().

Section Select.
Context `{Builtins} `{!Relations} `{!Tables}.

(** ** Aggregates *)

Definition aggregate_header (i : nat) (c : SelectColumn) : string :=
  if negb (sc_alias c =s EmptyString) then sc_alias c else if sc_star c then "*" else column_number i.

Definition column_types (schema : Schema) (columns : list SelectColumn) : list string :=
  map (fun c => if sc_star c || negb (sc_table c =s EmptyString) then "TEXT"
                else inferExprType (schemaTypeResolver (Some schema)) (sc_expr c)) columns.

Definition execute_aggregates (env : Env) (columns : list SelectColumn) (rows : list Row) (schema : Schema) : ev Result :=
  values ← executeAggregateSelect env (map sc_expr columns) rows;
  Ok (NewResult (imap aggregate_header columns) (column_types schema columns) [values]).

(** The columns of a grouped projection, the wildcards expanded. *)
Definition expand_column (from : list TableRef) (schema : Schema) (c : SelectColumn) : ev (list SelectColumn) :=
  if sc_star c then Ok (map (fun c => plain_column EmptyString (col_Name c)) (Columns schema))
  else if negb (sc_table c =s EmptyString) then
    '(cols, prefix) ← star_columns from (sc_table c);
    Ok (map (plain_column prefix) cols)
  else Ok [c].

Definition group_header (i : nat) (c : SelectColumn) : string :=
  if negb (sc_alias c =s EmptyString) then sc_alias c
  else match sc_expr c with ColumnRef _ name => name | _ => column_number i end.

Definition executeGroupBy (env : Env) (stmt : SelectStmt) (rows : list Row) (schema : Schema) : ev Result :=
  expanded ← (fun l => concat l) <$> mapE (expand_column (sel_From stmt) schema) (sel_Columns stmt);
  let names := imap group_header expanded in
  let types := map (fun c => inferExprType (schemaTypeResolver (Some schema)) (sc_expr c)) expanded in
  let groupBy := resolveGroupByAliases (sel_GroupBy stmt) (map (fun c => (sc_alias c, Some (sc_expr c))) expanded) in
  groups ← group_rows env (map sc_expr expanded) groupBy (sel_Having stmt) rows;
  let result := NewResult names types groups in
  let result := if sel_Distinct stmt then with_rows result (applyDistinct (r_Rows result)) (r_RowCount result)
                else result in
  orderAndLimitResultRows env result (sel_OrderBy stmt) (sel_Limit stmt) (sel_Offset stmt) expanded names.

(** ** A SELECT over materialised rows *)

Definition schemaFromColumns (columns : list string) : Schema :=
  mkSchema "derived" (map (fun c => mkColumn c "ANY" false VNil EmptyString false EmptyString false) columns)
    EmptyString [] 0 0 false [] [].

(** The rows a condition holds of; an error is an error of the statement. *)
Fixpoint filter_rows (env : Env) (condition : Expr) (rows : list Row) : ev (list Row) :=
  match rows with
  | [] => Ok []
  | r :: rest =>
      v ← evalExpr env condition (Some r);
      kept ← filter_rows env condition rest;
      Ok (if toBool v then r :: kept else kept)
  end.

Definition materialized_header (columns : list string) (c : SelectColumn) : list string :=
  if sc_star c then columns
  else if negb (sc_alias c =s EmptyString) then [sc_alias c]
  else match c with
       | mkSelectColumn (Some (ColumnRef _ name)) _ _ _ => [name]
       | _ => ["column"]
       end.

(** The values of one column; a qualified wildcard has neither a star nor an expression. *)
Definition materialized_value (env : Env) (windows : nat -> nat -> val) (starKeys : list string) (rowIdx : nat) (row : Row)
    (colIdx : nat) (c : SelectColumn) : ev (list val) :=
  if sc_star c then Ok (map (get row) starKeys)
  else match c with
       | mkSelectColumn (Some (WindowExpr _ _ _)) _ _ _ => Ok [windows colIdx rowIdx]
       | mkSelectColumn (Some e) _ _ _ => v ← evalExpr env e (Some row); Ok [v]
       | mkSelectColumn None _ _ _ => Ok []
       end.

Definition project (env : Env) (windows : nat -> nat -> val) (starKeys : list string) (columns : list SelectColumn)
    (rows : list Row) : ev (list (list val)) :=
  mapE (fun '(i, row) =>
          (fun l => concat l) <$> mapE (fun '(j, c) => materialized_value env windows starKeys i row j c) (imap pair columns))
    (imap pair rows).

(** The scope that the joins add: the columns of the relations that they materialise on their right.  A
    derived table has its first join only. *)
Fixpoint chain_tables (t : TableRef) : list TableRef :=
  match t with
  | mkTableRef _ _ _ _ j _ _ =>
      match j with Some (mkJoinClause _ r _ _) => r :: chain_tables r | None => [] end
  end.

Definition joined_tables (from : list TableRef) : list TableRef :=
  match from with
  | mkTableRef _ _ _ (Some _) (Some (mkJoinClause _ r _ _)) _ _ :: _ => [r]
  | mkTableRef _ _ _ None (Some _) _ _ :: _ => flat_map chain_tables from
  | _ => []
  end.

Definition record_relation (s : joinTypeScope) (r : TableRef) : joinTypeScope :=
  fold_left (fun s '(c, ty) => record_column s (qualifier r) c ty) (join_columns r) s.

Definition join_scope (stmt : SelectStmt) : columnTypeResolver :=
  scope_resolve (fold_left record_relation (joined_tables (sel_From stmt)) (mkJoinScope ∅ ∅)).

Definition executeSelectOnMaterializedRows (env : Env) (stmt : SelectStmt) (columns starKeys : list string)
    (rows : list Row) : ev Result :=
  rows ← match sel_From stmt with t :: _ => executeJoin env t rows | [] => Ok rows end;
  rows ← match sel_Where stmt with Some c => filter_rows env c rows | None => Ok rows end;
  match sel_GroupBy stmt with
  | _ :: _ => executeGroupBy env stmt rows (schemaFromColumns columns)
  | [] =>
      if has_aggregates (sel_Columns stmt)
      then execute_aggregates env (sel_Columns stmt) rows (schemaFromColumns columns)
      else
        rows ← orderAndLimitRows env rows (sel_OrderBy stmt) (sel_Limit stmt) (sel_Offset stmt) (sel_Columns stmt);
        windows ← window_values env stmt rows;
        values ← project env windows starKeys (sel_Columns stmt) rows;
        Ok (NewResult (flat_map (materialized_header columns) (sel_Columns stmt)) [] values)
  end.

(** [setMaterializedColumnTypes] *)
Definition materialized_types (stmt : SelectStmt) (columns types : list string) : list string :=
  let resolve : columnTypeResolver := fun _ column =>
    (fun p => typeAt types p.1) <$> find (fun p => EqualFold p.2 column) (imap pair columns) in
  flat_map (fun c =>
    if sc_star c || negb (sc_table c =s EmptyString)
    then imap (fun i _ => if typeAt types i =s EmptyString then "TEXT" else typeAt types i) columns
    else [inferExprType resolve (sc_expr c)]) (sel_Columns stmt).

Definition with_types (r : Result) (types : list string) : Result := mkRes _ (r_Columns r) types (r_Rows r) (r_RowCount r).

Definition executeSelectOnMaterializedTyped (env : Env) (stmt : SelectStmt) (columns types : list string)
    (values : list (list val)) (qual : string) : ev Result :=
  let env := push_scope env (materializedTypeResolver columns types (map (fun _ => qual) columns)) in
  result ← executeSelectOnMaterializedRows env stmt columns columns (map (resultRowToStorageRow columns) values);
  Ok (with_types result (materialized_types stmt columns types)).

(** [executeSelectFromSubquery]: only the first entry of FROM is read. *)
Definition select_from_subquery (env : Env) (stmt : SelectStmt) (name alias : string) (sub : ev Result) : ev Result :=
  sub ← wrap_error "subquery error: %w" [] sub;
  executeSelectOnMaterializedTyped env stmt (r_Columns sub) (r_ColumnTypes sub) (r_Rows sub)
    (if alias =s EmptyString then name else alias).

(** *** Several derived tables: their cross product *)

Record derived : Type := mkDerived {
  d_rows : list Row; d_columns : list string; d_keys : list string; d_types : list string; d_quals : list string }.

Definition cross_step (d : derived) (alias : string) (res : Result) : derived :=
  let rows := map (fun vs => addTableAlias (resultRowToStorageRow (r_Columns res) vs) alias) (r_Rows res) in
  mkDerived (concat (map (fun l => map (fun r => r ∪ l) rows) (d_rows d)))
    (d_columns d ++ r_Columns res) (d_keys d ++ map (qualify alias) (r_Columns res))
    (d_types d ++ imap (fun i _ => typeAt (r_ColumnTypes res) i) (r_Columns res))
    (d_quals d ++ map (fun _ => alias) (r_Columns res)).

Definition select_from_derived (env : Env) (stmt : SelectStmt) (d : derived) : ev Result :=
  let env := push_scope env (materializedTypeResolver (d_columns d) (d_types d) (d_quals d)) in
  result ← executeSelectOnMaterializedRows env stmt (d_columns d) (d_keys d) (d_rows d);
  Ok (with_types result (materialized_types stmt (d_columns d) (d_types d))).

(** ** SELECT without FROM *)

Definition expr_header (i : nat) (c : SelectColumn) : string :=
  if negb (sc_alias c =s EmptyString) then sc_alias c else column_number i.

Definition executeSelectExpr (env : Env) (stmt : SelectStmt) : ev Result :=
  let columns := sel_Columns stmt in
  if has_aggregates columns
  then execute_aggregates env columns [∅] (schemaFromColumns [])
  else
    values ← mapE (fun c => match c with
                            | mkSelectColumn None _ _ _ => Ok VNil
                            | mkSelectColumn (Some e) _ _ _ => evalExpr env e None
                            end) columns;
    Ok (NewResult (imap expr_header columns) (map (fun c => inferExprType (fun _ _ => None) (sc_expr c)) columns) [values]).

(** ** Set operations *)

(** The key of a row: NULL apart from every text, the values separated by a byte. *)
Definition row_key (row : list val) : string :=
  Join (map (fun v => if is_nil v then null_key else sprint v) row) (str1 (Prelude.byte 1)).

(** The rows of a list whose key is wanted, each key once. *)
Fixpoint new_rows (wanted : string -> bool) (seen : list string) (rows : list (list val)) : list (list val) :=
  match rows with
  | [] => []
  | row :: r =>
      let k := row_key row in
      if wanted k && negb (name_in k seen) then row :: new_rows wanted (k :: seen) r else new_rows wanted seen r
  end.

Definition set_operation (op : SetOpType) (l r : list (list val)) : list (list val) :=
  let keys := map row_key r in
  match op with
  | SetOpUnion => new_rows (fun _ => true) [] (l ++ r)
  | SetOpUnionAll => l ++ r
  | SetOpIntersect => new_rows (fun k => name_in k keys) [] l
  | SetOpExcept => new_rows (fun k => negb (name_in k keys)) [] l
  end.

(** The tail of a compound: ORDER BY, then LIMIT, then OFFSET; an error in a bound is ignored. *)
Definition compound_limit (env : Env) (limit : option Expr) (rows : list (list val)) : ev (list (list val)) :=
  match limit with
  | None => Ok rows
  | Some e => match evalExpr env e None with
              | Ok v => take_rows (int64_of_float (toFloat v)) rows
              | Fails _ => Ok rows
              | Crash w => Crash w
              end
  end.

Definition compound_offset (env : Env) (offset : option Expr) (rows : list (list val)) : ev (list (list val)) :=
  match offset with
  | None => Ok rows
  | Some e => match evalExpr env e None with
              | Ok v => let o := int64_of_float (toFloat v) in
                        Ok (if (Z.of_nat (length rows) <=? o)%Z then []
                            else if (0 <? o)%Z then drop (Z.to_nat o) rows else rows)
              | Fails _ => Ok rows
              | Crash w => Crash w
              end
  end.

Definition compound_result (env : Env) (op : SetOpType) (orderBy : list OrderByItem) (limit offset : option Expr)
    (l r : Result) : ev Result :=
  let types := match op with
               | SetOpUnion | SetOpUnionAll => carrierColumnTypes (r_ColumnTypes l)
               | _ => r_ColumnTypes l
               end in
  let result := NewResult (r_Columns l) types (set_operation op (r_Rows l) (r_Rows r)) in
  result ← match orderBy with [] => Ok result | _ => sortResultRows env result orderBy [] [] end;
  rows ← compound_limit env limit (r_Rows result);
  rows ← compound_offset env offset rows;
  Ok (with_rows result rows (r_RowCount result)).

(** ** The dispatch *)

Context `{!Sources}.

Definition is_inline (t : TableRef) : bool :=
  match t with mkTableRef _ _ _ (Some (Inline _)) None _ _ => true | _ => false end.

(** [executeSelect]; a FROM subquery is one the statement holds itself. *)
Fixpoint executeSelect (env : Env) (stmt : SelectStmt) {struct stmt} : ev Result :=
  match stmt with
  | mkSelectStmt _ _ from _ _ _ _ _ _ compound with_ _ =>
      let inner := push_scope (push_scope env (join_scope stmt)) (from_types from) in
      _ ← match sel_Locking stmt with Some _ => validateLockingSelect stmt | None => Ok () end;
      match with_, compound, from with
      | _ :: _, _, _ => select_tables inner stmt
      | [], Some c, _ => executeCompound inner c
      | [], None, [] => executeSelectExpr inner stmt
      | [], None, t :: rest =>
          if reads_catalog from then select_tables inner stmt
          else
            match t with
            | mkTableRef _ name alias (Some (Inline q)) _ None _ =>
                match rest with
                | _ :: _ =>
                    if forallb is_inline from then
                      d ← (fix all ts d :=
                             match ts with
                             | [] => Ok d
                             | t :: ts =>
                                 sub ← wrap_error "subquery error: %w" [] (table_result inner t);
                                 all ts (cross_step d (tr_Alias t) sub)
                             end) from (mkDerived [∅] [] [] [] []);
                      select_from_derived inner stmt d
                    else select_from_subquery inner stmt name alias (executeSelect inner q)
                | [] => select_from_subquery inner stmt name alias (executeSelect inner q)
                end
            | _ => select_tables inner stmt
            end
      end
  end
with executeCompound (env : Env) (c : CompoundSelect) {struct c} : ev Result :=
  match c with
  | mkCompoundSelect l op r orderBy limit offset =>
      left ← executeSelect env l;
      right ← executeSelect env r;
      compound_result env op orderBy limit offset left right
  end
with table_result (env : Env) (t : TableRef) {struct t} : ev Result :=
  match t with
  | mkTableRef _ _ _ (Some (Inline q)) _ _ _ => executeSelect env q
  | _ => Fails (Errorf "subquery" [])
  end.

End Select.

(** No tables: the instance the examples use. *)
Section NoTables.
#[local] Existing Instance no_foreign.

Definition no_relations : Relations := {|
  rel_rows _ := not_here; rel_scan _ := not_here; rel_columns _ := []; rel_primary_key _ := None; rel_get _ _ := not_here |}.

Definition no_tables : Tables := {|
  from_types _ := fun _ _ => None; star_columns _ _ := not_here; window_values _ _ _ := Ok (fun _ _ => VNil); join_columns _ := [] |}.

Definition no_sources : Sources := {| select_tables _ _ := not_here; reads_catalog _ := false |}.
End NoTables.
