(* ===== verification/TableReads.v ===== *)
(** * Reading tables (pkg/executor/executor.go, result_types.go)

    First what the executor reads off a WHERE clause before it scans: the columns it refers to, its
    conjuncts, an equality of a column and a constant, the number of rows that are wanted.  [TableReads]
    is what a SELECT reads of its session: schemas, the rows of a scan, the rows of a key and of an
    index, a lock on a row.  Here are the scan that evaluates a condition while it reads, and the
    relations, types and wildcards of a FROM clause over tables. *)
From Stdlib Require Import NArith ZArith Lia Bool Ascii String List.
From stdpp Require Import base option list gmap strings.
From S2P Require Import Prelude Token Ast Bytes RowCodec Float Values Schema ExecValue Arrays ExprTypes Operators Eval.
From S2P Require Import Aggregates Sorting Joins Select.
#[local] Open Scope string_scope.

(** ** Columns *)

(** [collectTableColumnRefs]: the references to columns with their qualifiers, in order. *)
Fixpoint collectTableColumnRefs (e : Expr) : list (string * string) :=
  match e with
  | ColumnRef table column => [(table, column)]
  | BinaryExpr l _ r | IsDistinctExpr l r _ | SubscriptExpr l r | AnyAllExpr l _ _ r | LikeExpr l _ r _ =>
      collectTableColumnRefs l ++ collectTableColumnRefs r
  | UnaryExpr _ e | IsNullExpr e _ | ParenExpr e | CastExpr e _ => collectTableColumnRefs e
  | InExpr x _ values _ => collectTableColumnRefs x ++ flat_map collectTableColumnRefs values
  | BetweenExpr x _ lo hi => collectTableColumnRefs x ++ collectTableColumnRefs lo ++ collectTableColumnRefs hi
  | CaseExpr operand whens els =>
      match operand with Some o => collectTableColumnRefs o | None => [] end
      ++ flat_map when_refs whens
      ++ match els with Some x => collectTableColumnRefs x | None => [] end
  | FunctionCallExpr f => call_refs f
  | ArrayExpr l => flat_map collectTableColumnRefs l
  | _ => []
  end
with call_refs (f : FunctionCall) : list (string * string) :=
  match f with mkFunctionCall _ args _ _ => flat_map collectTableColumnRefs args end
with when_refs (w : WhenClause) : list (string * string) :=
  match w with mkWhenClause c r => collectTableColumnRefs c ++ collectTableColumnRefs r end.

(** Whether a query occurs in an expression. *)
Fixpoint has_subquery (e : Expr) : bool :=
  match e with
  | SubqueryExpr _ | ExistsExpr _ => true
  | BinaryExpr l _ r | IsDistinctExpr l r _ | SubscriptExpr l r | AnyAllExpr l _ _ r | LikeExpr l _ r _ =>
      has_subquery l || has_subquery r
  | UnaryExpr _ e | IsNullExpr e _ | ParenExpr e | CastExpr e _ => has_subquery e
  | InExpr x _ values q =>
      match q with Some _ => true | None => false end || has_subquery x || existsb has_subquery values
  | BetweenExpr x _ lo hi => has_subquery x || has_subquery lo || has_subquery hi
  | CaseExpr operand whens els =>
      match operand with Some o => has_subquery o | None => false end
      || existsb when_has_subquery whens
      || match els with Some x => has_subquery x | None => false end
  | FunctionCallExpr f => call_has_subquery f
  | ArrayExpr l => existsb has_subquery l
  | _ => false
  end
with call_has_subquery (f : FunctionCall) : bool :=
  match f with mkFunctionCall _ args _ _ => existsb has_subquery args end
with when_has_subquery (w : WhenClause) : bool :=
  match w with mkWhenClause c r => has_subquery c || has_subquery r end.

(** [collectColumnRefs]: the names of the columns, with a sentinel after them for a query. *)
Definition subquery_sentinel : string := "__subquery__".

Definition collectColumnRefs (e : Expr) : list string :=
  (map snd (collectTableColumnRefs e) ++ if has_subquery e then [subquery_sentinel] else [])%list.

(** ** Conjuncts *)

Fixpoint splitANDClauses (e : Expr) : list Expr :=
  match e with
  | BinaryExpr l TokenAND r => splitANDClauses l ++ splitANDClauses r
  | _ => [e]
  end.

Definition combineAND (clauses : list Expr) : option Expr :=
  match clauses with
  | [] => None
  | c :: rest => Some (fold_left (fun acc c => BinaryExpr acc TokenAND c) rest c)
  end.

(** ** Lookups *)

(** A literal, or a bound parameter around one. *)
Fixpoint parameterLiteral (e : Expr) : option (TokenType * string) :=
  match e with
  | LiteralExpr ty v => Some (ty, v)
  | FunctionCallExpr f => call_literal f
  | _ => None
  end
with call_literal (f : FunctionCall) : option (TokenType * string) :=
  match f with
  | mkFunctionCall name args _ _ =>
      if EqualFold name "PIZZASQL_PARAM" then match args with [a] => parameterLiteral a | _ => None end else None
  end.

Section Lookups.
Context `{Builtins}.

Definition literal_value (l : TokenType * string) : val :=
  match evalLiteral l.1 l.2 with Ok v => v | _ => VNil end.

(** [column = literal], or the other way round, of a column without a qualifier. *)
Definition extractIndexableCondition (e : Expr) : option (string * val) :=
  match e with
  | BinaryExpr l TokenEq r =>
      match l, parameterLiteral r with
      | ColumnRef EmptyString c, Some lit => Some (c, literal_value lit)
      | _, _ =>
          match parameterLiteral l, r with
          | Some lit, ColumnRef EmptyString c => Some (c, literal_value lit)
          | _, _ => None
          end
      end
  | _ => None
  end.

(** No join of the chain is a RIGHT or FULL one. *)
Fixpoint preserved (t : TableRef) : bool :=
  match t with
  | mkTableRef _ _ _ _ j _ _ =>
      match j with
      | Some (mkJoinClause ty t' _ _) => negb (match ty with JoinRight | JoinFull => true | _ => false end) && preserved t'
      | None => true
      end
  end.

(** One side of the equality: a column loses its qualifier when that is the one of the table; without
    a qualifier it is refused in a join. *)
Definition own_side (t : TableRef) (e : Expr) : option Expr :=
  match e with
  | ColumnRef table column =>
      if (table =s EmptyString) && match tr_Join t with Some _ => true | None => false end then None
      else if negb (table =s EmptyString) && negb (EqualFold table (qualifier t)) then None
      else Some (ColumnRef EmptyString column)
  | _ => Some e
  end.

Definition extractSelectLookupCondition (e : Expr) (t : TableRef) : option (string * val) :=
  if preserved t then
    match e with
    | BinaryExpr l op r => l ← own_side t l; r ← own_side t r; extractIndexableCondition (BinaryExpr l op r)
    | _ => None
    end
  else None.

(** A key is looked up by its text: a text that reads as a number is not. *)
Definition safePrimaryKeyLiteral (v : val) : bool :=
  match v with
  | VNil => false
  | VString s => match toNumeric (Text s) with Some _ => false | None => true end
  | _ => true
  end.
End Lookups.

(** ** Bounded scans *)

Definition literal_int (e : Expr) : option Z :=
  match e with
  | LiteralExpr TokenNumber v => n ← ParseInt v; if (0 <=? n)%Z then Some n else None
  | _ => None
  end.

Definition plain_projection (c : SelectColumn) : bool :=
  match c with
  | mkSelectColumn (Some (ColumnRef _ _)) _ _ _ | mkSelectColumn (Some (LiteralExpr _ _)) _ _ _ => true
  | mkSelectColumn _ _ star _ => star
  end.

Definition max_int : Z := 2 ^ 63 - 1.

(** How many rows a scan needs at most: a SELECT of columns and literals from one table without an
    alias, and nothing that looks at other rows. *)
Definition scanLimit (s : SelectStmt) : option Z :=
  match sel_Limit s, sel_From s with
  | Some limit, [t] =>
      if is_none (tr_Join t) && (tr_Alias t =s EmptyString) && negb (sel_Distinct s) && is_empty_list (sel_GroupBy s)
         && is_none (sel_Having s) && is_empty_list (sel_OrderBy s) && is_none (sel_Compound s)
         && is_empty_list (sel_With s) && forallb plain_projection (sel_Columns s)
      then
        n ← literal_int limit;
        if (n =? 0)%Z then Some 0%Z
        else match sel_Offset s with
             | None => Some n
             | Some o => k ← literal_int o; if (max_int - n <? k)%Z then None else Some (n + k)%Z
             end
      else None
  | _, _ => None
  end.

(** [SELECT COUNT] of all rows of one table, and nothing else. *)
Definition isCountStarSingleTable (s : SelectStmt) : bool :=
  is_none (sel_Compound s) && negb (sel_Distinct s) && is_none (sel_Where s) && is_none (sel_Having s)
  && is_empty_list (sel_GroupBy s) && is_empty_list (sel_OrderBy s) && is_none (sel_Limit s) && is_none (sel_Offset s)
  && match sel_From s with
     | [mkTableRef _ _ _ None None None _] => true
     | _ => false
     end
  && match sel_Columns s with
     | [mkSelectColumn (Some (FunctionCallExpr (mkFunctionCall name [] _ true))) _ false _] => EqualFold name "count"
     | _ => false
     end.

(** The answer to a request for a lock on a row. *)
Inductive lock_answer : Type :=
  | Locked
  | RowIsLocked
  | Unavailable
  | Deadlocked
  | LockFails (e : xerror).

(** What the session gives a SELECT.  [tb_rows] are the rows that a scan passes to its filter, in order;
    [tb_stops] tells whether a bounded scan stops once it has its rows (it does outside a transaction).
    A key without a row is [None].  [tb_reread] reads a row after its lock was granted.  [tb_other] are
    the rows and columns of a derived table, common table expression or catalogue view, [tb_virtual]
    tells the names of the last two, [tb_catalog] the columns of a catalogue view. *)
Class TableReads `{Foreign} : Type := {
  tb_schema : string -> ev Schema;
  tb_exists : string -> bool;
  tb_rows : string -> ev (list Row);
  tb_stops : bool;
  tb_get : string -> string -> ev (option Row);
  tb_indexes : string -> list Index;
  tb_by_index : string -> string -> val -> ev (list Row);
  tb_count : string -> ev Z;
  tb_lock : string -> string -> LockStrength -> LockWait -> lock_answer;
  tb_reread : string -> string -> ev (option Row);
  tb_other : TableRef -> option (ev (list Row * list (string * string)));
  tb_virtual : string -> bool;
  tb_catalog : string -> list string;
  tb_windows : Env -> SelectStmt -> list Row -> ev (nat -> nat -> val)
}.

Section Reads.
Context `{Builtins} `{!TableReads}.

(** [schema, _ := e.session.GetSchema(name)] *)
Definition schema_of (name : string) : option Schema := match tb_schema name with Ok s => Some s | _ => None end.

Definition columns_of (name : string) : list Column := match schema_of name with Some s => Columns s | None => [] end.

(** ** The scan with a condition

    The condition is evaluated while the session is locked: an error does not stop the scan, and the last
    one is reported. *)
Fixpoint scan_rows (env : Env) (where_ : option Expr) (limit : option nat) (rows : list Row)
    : ev (list Row * option xerror) :=
  match limit, rows with
  | Some O, _ | _, [] => Ok ([], None)
  | _, r :: rest =>
      match (match where_ with Some c => toBool <$> evalExpr env c (Some r) | None => Ok true end) with
      | Ok true => '(kept, e) ← scan_rows env where_ (pred <$> limit) rest; Ok (r :: kept, e)
      | Ok false => scan_rows env where_ limit rest
      | Fails e => '(kept, e') ← scan_rows env where_ limit rest; Ok (kept, Some (default e e'))
      | Crash w => Crash w
      end
  end.

Definition scan (env : Env) (table : string) (schema : Schema) (where_ : option Expr) (limit : option Z)
    : ev (list Row) :=
  rows ← tb_rows table;
  '(kept, e) ← scan_rows env where_ (if tb_stops then Z.to_nat <$> limit else None) rows;
  match e with
  | Some e => Fails e
  | None => Ok (map (fun r => normalizeRowBySchema r (Columns schema)) kept)
  end.

(** The rows of a table under its alias, as the joins of a FROM list read them. *)
Definition aliased_rows (table alias : string) : ev (list Row) :=
  rows ← tb_rows table;
  Ok (map (fun r => addTableAlias (normalizeRowBySchema r (columns_of table)) alias) rows).

(** ** Relations of a FROM clause *)

Definition table_scan (t : TableRef) : ev (list Row) :=
  match tb_other t with
  | Some r => fst <$> r
  | None => tb_rows (tr_Name t)
  end.

Definition table_rel_rows (t : TableRef) : ev (list Row) :=
  match tb_other t with
  | Some r => fst <$> r
  | None => schema ← tb_schema (tr_Name t);
            rows ← tb_rows (tr_Name t);
            Ok (map (fun r => normalizeRowBySchema r (Columns schema)) rows)
  end.

Definition table_key (t : TableRef) : option string :=
  match tb_other t, schema_of (tr_Name t) with
  | None, Some s => if IsSingleColumnPrimaryKey s then Some (PrimaryKey s) else None
  | _, _ => None
  end.

Definition table_get (t : TableRef) (key : string) : ev (option Row) :=
  row ← tb_get (tr_Name t) key;
  Ok (match row with Some r => Some (normalizeRowBySchema r (columns_of (tr_Name t))) | None => None end).

#[export] Instance table_relations : Relations := {|
  rel_rows := table_rel_rows; rel_scan := table_scan;
  rel_columns t := match schema_of (tr_Name t) with
                   | Some s => map col_Name (Columns s)
                   | None => tb_catalog (tr_Name t)
                   end;
  rel_primary_key := table_key; rel_get := table_get |}.

(** ** Types and wildcards *)

(** [resolveTableStar]: the table whose alias matches, or else whose name does. *)
Definition resolveTableStar (from : list TableRef) (star : string) : ev (list Column * string) :=
  let refs := collectAllTableRefs from in
  match find (fun r => EqualFold r.2 star) refs with
  | Some (name, alias) => s ← tb_schema name; Ok (Columns s, alias)
  | None =>
      match find (fun r => EqualFold r.1 star) refs with
      | Some (name, alias) => s ← tb_schema name; Ok (Columns s, alias)
      | None => Fails (Errorf "no such table or alias: %s" [star])
      end
  end.

Definition snapshot_tables (from : list TableRef) : list tableSnapshot :=
  omap (fun '(name, alias) =>
          if (name =s EmptyString) || tb_virtual name then None
          else mkTableSnapshot name alias ∘ Columns <$> schema_of name)
       (collectAllTableRefs from).

(** [joinedTypeResolver] *)
Fixpoint joinedTypeResolver (refs : list (string * string)) : columnTypeResolver := fun table column =>
  match refs with
  | [] => None
  | (name, alias) :: rest =>
      if negb (table =s EmptyString) && negb (EqualFold table alias) && negb (EqualFold table name)
      then joinedTypeResolver rest table column
      else match schema_of name with
           | None => joinedTypeResolver rest table column
           | Some s => match column_type (Columns s) column with
                       | Some ty => Some ty
                       | None => if table =s EmptyString then joinedTypeResolver rest table column else None
                       end
           end
  end.

(** [joinedSelectColumnTypes]: an unknown [table.*] has no types. *)
Definition joinedSelectColumnTypes (from : list TableRef) (columns : list SelectColumn) : list string :=
  let refs := collectAllTableRefs from in
  flat_map (fun c =>
    if sc_star c then flat_map (fun r => map col_Type (columns_of r.1)) refs
    else if negb (sc_table c =s EmptyString)
         then match resolveTableStar from (sc_table c) with Ok (cols, _) => map col_Type cols | _ => [] end
         else [inferExprType (joinedTypeResolver refs) (sc_expr c)]) columns.

#[export] Instance table_tables : Tables := {|
  from_types from := snapshotTypeResolver (snapshot_tables from);
  star_columns from star := '(cols, prefix) ← resolveTableStar from star; Ok (map col_Name cols, prefix);
  window_values := tb_windows;
  join_columns t := match tb_other t with Some (Ok (_, columns)) => columns | _ => [] end |}.
End Reads.
