(* ===== verification/CrossJoin.v ===== *)
(** * FROM lists (pkg/executor/executor.go, executeSelect: implicit cross joins)

    A FROM list of several tables is joined in an order that the conditions suggest.  A conjunct that
    refers to one table filters its rows; the others are edges between tables.  Tables without a filter
    of their own that edges connect are joined among themselves first; the rest is joined greedily, and a
    conjunct is applied as soon as the tables it refers to are there.  The plan is computed from the
    conditions, and then carried out. *)
From Stdlib Require Import NArith ZArith Lia Bool Ascii String List.
From stdpp Require Import base option list gmap strings.
From S2P Require Import Prelude Token Ast Bytes RowCodec Float Values Schema ExecValue Arrays ExprTypes Operators Eval.
From S2P Require Import Aggregates Sorting Joins Select TableReads.

#[local] Open Scope string_scope.

Record tableInfo : Type := mkTableInfo { ti_alias : string; ti_name : string; ti_cols : list string }.

Section Plan.
Variable infos : list tableInfo.

Definition has_column (i : nat) (column : string) : bool :=
  match nth_error infos i with Some t => name_in (ToLower column) (ti_cols t) | None => false end.

Definition all_tables : list nat := seq 0 (length infos).

(** ** Conjuncts *)

(** The table that all columns of a conjunct belong to. *)
Fixpoint clause_owner (owner : option nat) (columns : list string) : option nat :=
  match columns with
  | [] => owner
  | c :: rest =>
      match List.filter (fun i => has_column i c) all_tables with
      | [] => clause_owner owner rest
      | [i] => match owner with
               | None => clause_owner (Some i) rest
               | Some o => if (o =? i)%nat then clause_owner owner rest else None
               end
      | _ => None
      end
  end.

Definition owner_of (c : Expr) : option nat := clause_owner None (collectColumnRefs c).

Definition table_filters (clauses : list Expr) (i : nat) : list Expr :=
  List.filter (fun c => bool_decide (owner_of c = Some i)) clauses.

Definition cross_filters (clauses : list Expr) : list Expr :=
  List.filter (fun c => is_none (owner_of c)) clauses.

(** A conjunct that touches two tables connects them. *)
Definition cross_edge (c : Expr) : option (nat * nat) :=
  match List.filter (fun i => existsb (has_column i) (collectColumnRefs c)) all_tables with
  | [a; b] => Some (a, b)
  | _ => None
  end.

Definition touches (i : nat) (e : nat * nat) : bool := (e.1 =? i)%nat || (e.2 =? i)%nat.

Definition connects (i : nat) (seen : list nat) (e : nat * nat) : bool :=
  ((e.1 =? i)%nat && existsb (Nat.eqb e.2) seen) || ((e.2 =? i)%nat && existsb (Nat.eqb e.1) seen).

(** The index of an alias; the last table of that alias counts. *)
Definition alias_index (table : string) : option nat :=
  find (fun i => match nth_error infos i with Some t => ToLower (ti_alias t) =s ToLower table | None => false end)
    (rev all_tables).

(** Whether all columns of a conjunct are in tables that are joined already. *)
Definition ref_ready (seen : list nat) (ref : string * string) : bool :=
  if ref.1 =s EmptyString then existsb (fun i => has_column i ref.2 && existsb (Nat.eqb i) seen) all_tables
  else match alias_index ref.1 with Some i => existsb (Nat.eqb i) seen | None => false end.

Definition clause_ready (seen : list nat) (c : Expr) : bool := forallb (ref_ready seen) (collectTableColumnRefs c).

Definition applyWhenSeen (seen : list nat) (pending : list Expr) : list Expr * list Expr :=
  (List.filter (clause_ready seen) pending, List.filter (fun c => negb (clause_ready seen c)) pending).

(** ** The plan *)

Variable filters : nat -> list Expr.
Variable edges : list (nat * nat).

(** A table without conjuncts of its own that an edge touches. *)
Definition cross_only (i : nat) : bool := is_empty_list (filters i) && existsb (touches i) edges.

Definition edge_end (cur : nat) (e : nat * nat) : option nat :=
  if (e.1 =? cur)%nat && cross_only e.2 then Some e.2
  else if (e.2 =? cur)%nat && cross_only e.1 then Some e.1 else None.

Definition visit (k cur : nat) (s : gmap nat nat * list nat) (e : nat * nat) : gmap nat nat * list nat :=
  match edge_end cur e with
  | Some nb => match s.1 !! nb with
               | None => (<[nb := k]> s.1, (s.2 ++ [nb])%list)
               | Some _ => s
               end
  | None => s
  end.

(** The search through one component; a table enters the queue once. *)
Fixpoint bfs (fuel k : nat) (comp : gmap nat nat) (queue : list nat) : gmap nat nat :=
  match fuel, queue with
  | S fuel, cur :: rest => let s := fold_left (visit k cur) edges (comp, rest) in bfs fuel k s.1 s.2
  | _, _ => comp
  end.

Definition component_step (s : gmap nat nat * nat) (start : nat) : gmap nat nat * nat :=
  if cross_only start && is_none (s.1 !! start)
  then (bfs (length infos) s.2 (<[start := s.2]> s.1) [start], S s.2) else s.

Definition component_of : gmap nat nat * nat := fold_left component_step all_tables (∅, 0%nat).

Definition components : list (list nat) :=
  map (fun k => List.filter (fun i => bool_decide (component_of.1 !! i = Some k)) all_tables) (seq 0 component_of.2).

Definition degree (i : nat) : nat := length (List.filter (touches i) edges).

(** The table with the most edges, the first one among equals. *)
Definition pick_seed (comp : list nat) : nat :=
  match comp with
  | [] => 0
  | i :: rest => fold_left (fun seed j => if (degree seed <? degree j)%nat then j else seed) rest i
  end.

Definition unseen (seen : list nat) (i : nat) : bool := negb (existsb (Nat.eqb i) seen).

(** The next table of a component: one with an edge to a table that is there, or else any. *)
Definition next_in_component (comp seen : list nat) : option nat :=
  match find (fun i => unseen seen i && existsb (connects i seen) edges) comp with
  | Some i => Some i
  | None => find (unseen seen) comp
  end.

Fixpoint component_order (fuel : nat) (comp seen : list nat) : list nat :=
  match fuel with
  | O => seen
  | S fuel => match next_in_component comp seen with
              | Some i => component_order fuel comp (seen ++ [i])%list
              | None => seen
              end
  end.

(** The components of at least two tables, each in the order it is joined in. *)
Definition pre_joins : list (list nat) :=
  map (fun comp => component_order (length comp - 1) comp [pick_seed comp])
    (List.filter (fun comp => (2 <=? length comp)%nat) components).

(** The other tables: first the one with the most conjuncts, then by edges to what is joined. *)
Definition best_by (score : nat -> nat) (l : list nat) : option nat :=
  match l with
  | [] => None
  | i :: rest => Some (fold_left (fun best j => if (score best <? score j)%nat then j else best) rest i)
  end.

Definition score (joined : list nat) (i : nat) : nat :=
  length (filters i) + 1000 * length (List.filter (connects i joined) edges).

Fixpoint greedy_order (fuel : nat) (tables joined : list nat) : list nat :=
  match fuel with
  | O => joined
  | S fuel => match best_by (score joined) (List.filter (unseen joined) tables) with
              | Some i => greedy_order fuel tables (joined ++ [i])%list
              | None => joined
              end
  end.

Definition other_tables : list nat := List.filter (unseen (concat pre_joins)) all_tables.

Definition order : list nat :=
  match best_by (fun i => length (filters i)) other_tables with
  | Some i => greedy_order (length other_tables - 1) other_tables [i]
  | None => []
  end.
End Plan.

(** ** Carrying it out *)

Section Join.
Context `{Builtins} `{!TableReads}.
Variable env : Env.

Definition table_info (t : TableRef) : tableInfo :=
  mkTableInfo (qualifier t) (tr_Name t) (map (fun c => ToLower (col_Name c)) (columns_of (tr_Name t))).

Definition filter_all (clauses : list Expr) (rows : list Row) : ev (list Row) :=
  match combineAND clauses with Some c => filter_rows env c rows | None => Ok rows end.

(** The pairs that pass; the columns of the right row take precedence. *)
Definition inlineJoin (clauses : list Expr) (left right : list Row) : ev (list Row) :=
  filter_all clauses (concat (map (fun l => map (fun r => r ∪ l) right) left)).

Section Execution.
Variable infos : list tableInfo.
Variable filters : nat -> list Expr.

Definition load (i : nat) : ev (list Row) :=
  match nth_error infos i with
  | Some t => aliased_rows (ti_name t) (ti_alias t)
  | None => Ok []
  end.

(** The rows joined so far, the tables they come from, the conjuncts to come. *)
Record join_state : Type := mkJoinState { js_rows : list Row; js_seen : list nat; js_pending : list Expr }.

(** Join further rows, of the tables [more]. *)
Definition join_with (s : join_state) (more : list nat) (right : list Row) : ev join_state :=
  let seen := (js_seen s ++ more)%list in
  let (now, later) := applyWhenSeen infos seen (js_pending s) in
  rows ← inlineJoin now (js_rows s) right;
  Ok (mkJoinState rows seen later).

Definition join_table (s : join_state) (i : nat) : ev join_state :=
  right ← load i;
  right ← filter_all (filters i) right;
  join_with s [i] right.

(** The rows of a component, and what is left of the conjuncts. *)
Definition pre_join (s : list (list Row * list nat) * list Expr) (comp : list nat)
    : ev (list (list Row * list nat) * list Expr) :=
  match comp with
  | [] => Ok s
  | seed :: rest =>
      rows ← load seed;
      j ← foldE join_table rest (mkJoinState rows [seed] s.2);
      Ok ((s.1 ++ [(js_rows j, js_seen j)])%list, js_pending j)
  end.

(** The other tables; without any there is one empty row.  The first table was read already when it is
    the first of the list. *)
Definition join_others (first_rows : list Row) (order : list nat) (pending : list Expr) : ev join_state :=
  match order with
  | [] => Ok (mkJoinState [∅] [] pending)
  | i :: rest =>
      rows ← (if (i =? 0)%nat then Ok first_rows else load i);
      rows ← filter_all (filters i) rows;
      foldE join_table rest (mkJoinState rows [i] pending)
  end.

Definition carry_out (first_rows : list Row) (comps : list (list nat)) (order : list nat) (pending : list Expr)
    : ev (list Row) :=
  pre ← foldE pre_join comps ([], pending);
  s ← join_others first_rows order pre.2;
  s ← foldE (fun s (u : list Row * list nat) => join_with s u.2 u.1) pre.1 s;
  filter_all (js_pending s) (js_rows s).
End Execution.

(** ** Chains of joins behind the tables of a list

    A chain is joined to the rows of the whole list; the type of its joins is not looked at. *)
Definition merge_chain (l r : Row) : Row :=
  base.filter (fun kv : string * val => is_qualified kv.1 = true) r ∪ l ∪ r.

Fixpoint join_chain (t : TableRef) (rows : list Row) : ev (list Row) :=
  match t with
  | mkTableRef _ _ _ _ j _ _ =>
      match j with
      | None => Ok rows
      | Some (mkJoinClause _ rt condition shared) =>
          right ← aliased_rows (tr_Name rt) (qualifier rt);
          joined ← foldE (fun acc (p : Row * Row) =>
                            let m := merge_chain p.1 p.2 in
                            b ← joinMatches env p.1 p.2 m condition shared;
                            Ok (if b : bool then acc ++ [m] else acc)%list)
                     (concat (map (fun l => map (pair l) right) rows)) [];
          join_chain rt joined
      end
  end.

(** The rows of a FROM list under its condition. *)
Definition cross_rows (from : list TableRef) (where_ : option Expr) (first_rows : list Row) : ev (list Row) :=
  let infos := map table_info from in
  let clauses := match where_ with Some c => splitANDClauses c | None => [] end in
  let filters := table_filters infos clauses in
  let cross := cross_filters infos clauses in
  let edges := omap (cross_edge infos) cross in
  rows ← carry_out infos filters first_rows (pre_joins infos filters edges) (order infos filters edges) cross;
  foldE (fun rows t => join_chain t rows) from rows.
End Join.
