(* ===== verification/TableSelect.v ===== *)
(** * SELECT over tables (pkg/executor/executor.go, executeSelect)

    The rows of the first table come from a key, an index or a scan, with the condition in the scan where
    it may be; then joins or the FROM list, the condition, groups, order, locks and the projection. *)
From Stdlib Require Import NArith ZArith Lia Bool Ascii String List.
From stdpp Require Import base option list gmap strings.
From S2P Require Import Prelude Token Ast Bytes RowCodec Float Values Schema ExecValue Arrays ExprTypes Operators Eval.
From S2P Require Import Aggregates Sorting Joins Select TableReads CrossJoin.

#[local] Open Scope string_scope.

Section TableSelect.
Context `{Builtins} `{!TableReads}.
Variable env : Env.

(** ** The rows of the first table *)

Definition single_index (table column : string) : option Index :=
  find (fun idx => match idx_Columns idx with [c] => EqualFold (ic_Name c) column | _ => false end) (tb_indexes table).

(** The first conjunct that a key or an index answers.  [pending] is the error of an index that could not be
    read: the scan forgets it, the read of a key does not. *)
Fixpoint lookup_rows (t : TableRef) (schema : Schema) (clauses : list Expr) (pending : option xerror)
    : ev (option (list Row)) :=
  let table := tr_Name t in
  let normal r := normalizeRowBySchema r (Columns schema) in
  match clauses with
  | [] => Ok None
  | c :: rest =>
      match extractSelectLookupCondition c t with
      | None => lookup_rows t schema rest pending
      | Some (column, v) =>
          if IsSingleColumnPrimaryKey schema && EqualFold (PrimaryKey schema) column && safePrimaryKeyLiteral v then
            row ← tb_get table (sprint v);
            match pending with
            | Some e => Fails e
            | None => Ok (Some (match row with Some r => [normal r] | None => [] end))
            end
          else
            match single_index table column with
            | None => lookup_rows t schema rest pending
            | Some idx =>
                match tb_by_index table (idx_Name idx) v with
                | Ok rows => Ok (Some (map normal rows))
                | Fails e => lookup_rows t schema rest (Some e)
                | Crash w => Crash w
                end
            end
      end
  end.

(** Whether the condition may be evaluated in the scan. *)
Definition filters_in_scan (t : TableRef) (where_ : option Expr) (multi : bool) : bool :=
  match where_ with
  | Some c => negb (name_in subquery_sentinel (collectColumnRefs c)) && (tr_Alias t =s EmptyString) && negb multi
              && is_none (tr_Join t)
  | None => false
  end.

(** The rows read, and whether the condition was applied to them. *)
Definition base_rows (stmt : SelectStmt) (t : TableRef) (schema : Schema) (where_ : option Expr) (multi : bool)
    : ev (list Row * bool) :=
  let clauses := match where_ with Some c => if multi then [] else splitANDClauses c | None => [] end in
  found ← lookup_rows t schema clauses None;
  match found with
  | Some rows => Ok (rows, false)
  | None =>
      let in_scan := filters_in_scan t where_ multi in
      let limit := if is_none (sel_Locking stmt) && (is_none where_ || in_scan) then scanLimit stmt else None in
      rows ← scan env (tr_Name t) schema (if in_scan then where_ else None) limit;
      Ok (rows, in_scan)
  end.

Definition filter_option (where_ : option Expr) (rows : list Row) : ev (list Row) :=
  match where_ with Some c => filter_rows env c rows | None => Ok rows end.

(** ** The rows of the whole FROM clause under the condition *)

(** [FROM a JOIN b ..., c]: the entries after the first are multiplied in as they are scanned. *)
Definition multiply (rows : list Row) (t : TableRef) : ev (list Row) :=
  right ← tb_rows (tr_Name t);
  let right := map (fun r => addTableAlias r (qualifier t)) right in
  let rows := concat (map (fun l => map (fun r => r ∪ l) right) rows) in
  executeJoins env t rows true.

Definition is_multi (from : list TableRef) : bool :=
  match from with t :: _ :: _ => is_none (tr_Join t) | _ => false end.

Definition from_rows (stmt : SelectStmt) (t : TableRef) (schema : Schema) (where_ : option Expr) : ev (list Row) :=
  let multi := is_multi (sel_From stmt) in
  '(rows, applied) ← base_rows stmt t schema where_ multi;
  let rows := if negb (tr_Alias t =s EmptyString) then map (fun r => addTableAlias r (tr_Alias t)) rows
              else if multi then map (fun r => addTableAlias r (tr_Name t)) rows else rows in
  if multi then cross_rows env (sel_From stmt) (sel_Where stmt) rows
  else match tr_Join t with
       | None => if applied : bool then Ok rows else filter_option where_ rows
       | Some _ =>
           rows ← executeJoins env t rows true;
           rows ← foldE multiply (tl (sel_From stmt)) rows;
           filter_option where_ rows
       end.

(** ** Locks *)

Definition lockingRowLimit (stmt : SelectStmt) : ev Z :=
  limit ← limit_value env (sel_Limit stmt);
  match limit with
  | None => Ok (-1)%Z
  | Some n =>
      if (n <? 0)%Z then Ok (-1)%Z
      else offset ← limit_value env (sel_Offset stmt);
           Ok (wrap64 (Z.max 0 (default 0%Z offset) + n))
  end.

(** The rows in order: lock, read again, test again, until there are enough. *)
Fixpoint lock_rows (l : LockingClause) (t : TableRef) (schema : Schema) (where_ : option Expr) (maxRows : Z)
    (got : Z) (rows : list Row) : ev (list Row) :=
  match rows with
  | [] => Ok []
  | row :: rest =>
      match PrimaryKeyForRow schema row with
      | Done pk =>
          match tb_lock (tr_Name t) pk (Strength l) (Wait l) with
          | RowIsLocked =>
              match Wait l with
              | LockWaitSkipLocked => lock_rows l t schema where_ maxRows got rest
              | _ => Fails (Errorf "row is locked by another transaction" [])
              end
          | Unavailable => Fails (LockNotAvailable "could not obtain lock on row" [])
          | Deadlocked => Fails (DeadlockDetected "deadlock detected while waiting for a row lock" [])
          | LockFails e => Fails e
          | Locked =>
              fresh ← tb_reread (tr_Name t) pk;
              match fresh with
              | None => lock_rows l t schema where_ maxRows got rest
              | Some fresh =>
                  let row := if tr_Alias t =s EmptyString then fresh else addTableAlias fresh (tr_Alias t) in
                  keep ← match where_ with Some c => toBool <$> evalExpr env c (Some row) | None => Ok true end;
                  if keep : bool then
                    if ((0 <=? maxRows) && (maxRows <=? got + 1))%Z then Ok [row]
                    else more ← lock_rows l t schema where_ maxRows (got + 1) rest; Ok (row :: more)
                  else lock_rows l t schema where_ maxRows got rest
              end
          end
      | _ => Fails (NotSupported "row locking requires a table with a primary key" [])
      end
  end.

Definition applyRowLocks (l : LockingClause) (t : TableRef) (schema : Schema) (where_ : option Expr) (rows : list Row)
    (maxRows : Z) : ev (list Row) :=
  if (maxRows =? 0)%Z then Ok [] else lock_rows l t schema where_ maxRows 0 rows.

(** ORDER BY, LIMIT and OFFSET; a locking SELECT locks between the order and the limit. *)
Definition limited_rows (stmt : SelectStmt) (t : TableRef) (schema : Schema) (where_ : option Expr) (rows : list Row)
    : ev (list Row) :=
  match sel_Locking stmt with
  | None => orderAndLimitRows env rows (sel_OrderBy stmt) (sel_Limit stmt) (sel_Offset stmt) (sel_Columns stmt)
  | Some l =>
      rows ← orderAndLimitRows env rows (sel_OrderBy stmt) None None (sel_Columns stmt);
      maxRows ← lockingRowLimit stmt;
      rows ← applyRowLocks l t schema where_ rows maxRows;
      orderAndLimitRows env rows [] (sel_Limit stmt) (sel_Offset stmt) (sel_Columns stmt)
  end.

(** ** The projection *)

(** [resolveTableStars]: an unknown wildcard is an error of the statement. *)
Definition check_stars (from : list TableRef) (columns : list SelectColumn) : ev () :=
  foldE (fun _ c => if sc_table c =s EmptyString then Ok () else _ ← resolveTableStar from (sc_table c); Ok ())
    columns ().

Definition star_of (from : list TableRef) (star : string) : list Column * string :=
  match resolveTableStar from star with Ok p => p | _ => ([], EmptyString) end.

Definition many_tables (from : list TableRef) : bool :=
  is_multi from || match from with t :: _ => is_some (tr_Join t) | [] => false end.

Definition column_names (from : list TableRef) (schema : Schema) (i : nat) (c : SelectColumn) : list string :=
  if negb (sc_alias c =s EmptyString) then [sc_alias c]
  else if sc_star c then
    if many_tables from then flat_map (fun r => map col_Name (columns_of r.1)) (collectAllTableRefs from)
    else map col_Name (Columns schema)
  else if negb (sc_table c =s EmptyString) then map col_Name (star_of from (sc_table c)).1
  else match sc_expr c with ColumnRef _ name => [name] | _ => [column_number i] end.

Definition selectColumnNames (from : list TableRef) (schema : Schema) (columns : list SelectColumn) : list string :=
  concat (imap (column_names from schema) columns).

Definition projection_types (from : list TableRef) (schema : Schema) (columns : list SelectColumn) : list string :=
  if many_tables from then joinedSelectColumnTypes from columns else selectColumnTypes columns schema.

(** The value of a column under its qualified name, or else under its own. *)
Definition star_value (row : Row) (prefix : string) (c : Column) : ev val :=
  canonicalizeJSONBReadValue (col_Type c)
    (match row !! qualify prefix (col_Name c) with Some v => v | None => get row (col_Name c) end).

Definition projected (from : list TableRef) (schema : Schema) (windows : nat -> nat -> val) (rowIdx : nat) (row : Row)
    (colIdx : nat) (c : SelectColumn) : ev (list val) :=
  if sc_star c then
    if many_tables from
    then (fun l => concat l) <$> mapE (fun r => mapE (star_value row r.2) (columns_of r.1)) (collectAllTableRefs from)
    else mapE (fun c => canonicalizeJSONBReadValue (col_Type c) (get row (col_Name c))) (Columns schema)
  else if negb (sc_table c =s EmptyString) then
    let (cols, prefix) := star_of from (sc_table c) in mapE (star_value row prefix) cols
  else match sc_expr c with
       | WindowExpr _ _ _ => Ok [windows colIdx rowIdx]
       | e => v ← evalExpr env e (Some row); Ok [v]
       end.

Definition projection (from : list TableRef) (schema : Schema) (windows : nat -> nat -> val) (columns : list SelectColumn)
    (rows : list Row) : ev (list (list val)) :=
  mapE (fun '(i, row) =>
          (fun l => concat l) <$> mapE (fun '(j, c) => projected from schema windows i row j c) (imap pair columns))
    (imap pair rows).

(** ** The statement *)

(** The condition when it refers to no column: evaluated once. *)
Definition constant_where (stmt : SelectStmt) : ev (option bool) :=
  match sel_Where stmt with
  | Some c =>
      if is_empty_list (collectColumnRefs c) then
        v ← evalExpr env c None;
        Ok (if is_multi (sel_From stmt) then None else Some (toBool v))
      else Ok None
  | None => Ok None
  end.

(** No row passes: an aggregate without groups is computed on no rows. *)
Definition empty_result (stmt : SelectStmt) (schema : Schema) : ev Result :=
  if has_aggregates (sel_Columns stmt) && is_empty_list (sel_GroupBy stmt)
  then execute_aggregates env (sel_Columns stmt) [] schema
  else
    _ ← check_stars (sel_From stmt) (sel_Columns stmt);
    Ok (NewResult (selectColumnNames (sel_From stmt) schema (sel_Columns stmt))
          (projection_types (sel_From stmt) schema (sel_Columns stmt)) []).

(** Groups, aggregates, or the rows in order and projected; DISTINCT comes after LIMIT. *)
Definition finish (stmt : SelectStmt) (t : TableRef) (schema : Schema) (where_ : option Expr) (rows : list Row)
    : ev Result :=
  let columns := sel_Columns stmt in
  match sel_GroupBy stmt with
  | _ :: _ => executeGroupBy env stmt rows schema
  | [] =>
      if has_aggregates columns then execute_aggregates env columns rows schema
      else
        rows ← limited_rows stmt t schema where_ rows;
        _ ← check_stars (sel_From stmt) columns;
        windows ← tb_windows env stmt rows;
        values ← projection (sel_From stmt) schema windows columns rows;
        let result := NewResult (selectColumnNames (sel_From stmt) schema columns)
                        (projection_types (sel_From stmt) schema columns) values in
        let distinct := applyDistinct (r_Rows result) in
        Ok (if sel_Distinct stmt then with_rows result distinct (Z.of_nat (length distinct)) else result)
  end.

Definition count_result (stmt : SelectStmt) (n : Z) : Result :=
  match sel_Columns stmt with
  | c :: _ => NewResult [if sc_alias c =s EmptyString then "column1" else sc_alias c]
                [inferExprType (fun _ _ => None) (sc_expr c)] [[Int n]]
  | [] => NewResult [] [] []
  end.

(** The schema; a table that is not there is reported under its qualified name. *)
Definition base_schema (t : TableRef) : ev Schema :=
  match tb_schema (tr_Name t) with
  | Fails e =>
      if tb_exists (tr_Name t) then Fails e
      else Fails (UndefinedTable "relation %q does not exist"
                    [if tr_Schema t =s EmptyString then tr_Name t else (tr_Schema t ++ "." ++ tr_Name t)%string])
  | r => r
  end.

Definition select_from_tables (stmt : SelectStmt) (t : TableRef) : ev Result :=
  schema ← base_schema t;
  if isCountStarSingleTable stmt then count_result stmt <$> tb_count (tr_Name t)
  else
    constant ← constant_where stmt;
    match constant with
    | Some false => empty_result stmt schema
    | _ =>
        let where_ := match constant with Some true => None | _ => sel_Where stmt end in
        rows ← from_rows stmt t schema where_;
        finish stmt t schema where_ rows
    end.

End TableSelect.

(** The SELECTs that [executeSelect] leaves to the tables of a session.  [special] are those over common table
    expressions, views, catalogue views and table functions. *)
Section Sources.
Context `{Builtins} `{!TableReads}.
Variable special : Env -> SelectStmt -> option (ev Result).
Variable catalog_names : list TableRef -> bool.

Definition table_sources : Sources := {|
  select_tables env stmt :=
    match special env stmt, sel_From stmt with
    | Some r, _ => r
    | None, t :: _ => select_from_tables env stmt t
    | None, [] => executeSelectExpr env stmt
    end;
  reads_catalog := catalog_names |}.
End Sources.
