(* ===== verification/ArrayFacts.v ===== *)
(** * Arrays: round trips and quantified comparison

    The text of an array is read back as the array; canonical text is stable; a quantified comparison
    is the disjunction or the conjunction, in three values, of the comparisons of the elements. *)
From Stdlib Require Import NArith ZArith Lia Bool Ascii String List Floats.SpecFloat.
From stdpp Require Import base option list gmap strings.
From S2P Require Import Prelude Token Bytes RowCodec Float Values Schema ExecValue Arrays.

#[local] Open Scope string_scope.
#[local] Set Warnings "-clear-no-such-hyp".
#[local] Arguments String.append _ _ : simpl nomatch.

(** ** Trimming *)

Definition starts_plain (s : string) : bool :=
  match s with String c _ => negb (is_space c) | EmptyString => false end.

Fixpoint ends_plain (s : string) : bool :=
  match s with
  | EmptyString => false
  | String c EmptyString => negb (is_space c)
  | String _ r => ends_plain r
  end.

Lemma trim_left_plain (s : string) : starts_plain s = true -> trim_left s = s.
Proof. destruct s as [|c s]; cbn; [easy|]. now destruct (is_space c). Qed.

Lemma trim_right_plain (s : string) : ends_plain s = true -> trim_right s = s.
Proof.
  induction s as [|c s IH]; [easy|]. intros Hs. cbn [trim_right].
  destruct s as [|d s]; [cbn in *; now destruct (is_space c)|].
  rewrite IH by exact Hs. reflexivity.
Qed.

Lemma trim_plain (s : string) : starts_plain s = true -> ends_plain s = true -> TrimSpace s = s.
Proof. intros Ha Hb. unfold TrimSpace. now rewrite trim_left_plain, trim_right_plain. Qed.

Lemma trim_left_starts (s : string) : trim_left s = EmptyString \/ starts_plain (trim_left s) = true.
Proof.
  induction s as [|c s IH]; [now left|]. cbn. destruct (is_space c) eqn:E; [exact IH|].
  right. cbn. now rewrite E.
Qed.

Lemma trim_right_ends (s : string) : trim_right s = EmptyString \/ ends_plain (trim_right s) = true.
Proof.
  induction s as [|c s IH]; [now left|]. cbn [trim_right]. destruct IH as [E|E].
  - rewrite E. destruct (is_space c) eqn:Hc; [now left|]. right. cbn. now rewrite Hc.
  - destruct (trim_right s) as [|d r] eqn:Hr; [discriminate E|]. right. exact E.
Qed.

Lemma trim_right_starts (s : string) : starts_plain s = true -> starts_plain (trim_right s) = true.
Proof.
  destruct s as [|c s]; [easy|]. cbn. intros Hc. destruct (trim_right s); [|exact Hc].
  destruct (is_space c) eqn:E; [easy|]. cbn. now rewrite E.
Qed.

Lemma trim_ok (s : string) :
  TrimSpace s = EmptyString \/ (starts_plain (TrimSpace s) = true /\ ends_plain (TrimSpace s) = true).
Proof.
  unfold TrimSpace. destruct (trim_left_starts s) as [E|E]; [rewrite E; now left|].
  destruct (trim_right_ends (trim_left s)) as [E'|E']; [now left|].
  right. split; [now apply trim_right_starts|exact E'].
Qed.

Lemma trim_idempotent (s : string) : TrimSpace (TrimSpace s) = TrimSpace s.
Proof. destruct (trim_ok s) as [->|[Ha Hb]]; [reflexivity|now apply trim_plain]. Qed.

Lemma trim_fixed (s : string) :
  TrimSpace s = s -> s = EmptyString \/ (starts_plain s = true /\ ends_plain s = true).
Proof. intros E. destruct (trim_ok s) as [H|H]; rewrite E in H; auto. Qed.

(** ** Scanning what was formatted *)

Definition special_byte (c : ascii) : bool :=
  (c =b "{") || (c =b "}") || (c =b ",") || (c =b DQUOTE) || (c =b BACKSLASH) || isArraySpace c.

Lemma needs_quote_false (t : string) :
  needs_quote t = false ->
  t <> EmptyString /\ EqualFold t "NULL" = false /\ string_forallb (fun c => negb (special_byte c)) t = true.
Proof.
  unfold needs_quote, has_byte. intros Hq. bool_hyps. split; [|split]; auto.
Qed.

Lemma scan_quoted_escape (text t rest : string) :
  scan_quoted text (escape_array_text t ++ String DQUOTE rest) = Ok (t, rest).
Proof.
  induction t as [|c t IH]; [reflexivity|]. cbn [escape_array_text].
  destruct ((c =b DQUOTE) || (c =b BACKSLASH)) eqn:E.
  - cbn [String.append scan_quoted]. change (BACKSLASH =b BACKSLASH) with true. cbv beta iota.
    rewrite IH. reflexivity.
  - cbn [String.append scan_quoted]. apply orb_false_iff in E as [E1 E2]. rewrite E1, E2, IH. reflexivity.
Qed.

Definition at_comma (rest : string) : Prop := rest = EmptyString \/ exists r, rest = String "," r.

Lemma scan_bare_plain (text t rest : string) :
  string_forallb (fun c => negb (special_byte c)) t = true -> at_comma rest ->
  scan_bare text (t ++ rest) = Ok (t, rest).
Proof.
  intros Ht Hr. induction t as [|c t IH].
  - destruct Hr as [->|(r & ->)]; reflexivity.
  - cbn [string_forallb] in Ht. apply andb_prop in Ht as [Hc Ht]. cbn [String.append scan_bare].
    unfold special_byte in Hc. apply negb_true_iff in Hc.
    repeat (apply orb_false_iff in Hc as [Hc ?]).
    destruct (c =b ",") eqn:E1; [congruence|]. rewrite Hc.
    destruct (c =b "}") eqn:E2; [congruence|]. destruct (c =b DQUOTE) eqn:E3; [congruence|].
    cbn [orb]. rewrite IH by exact Ht. reflexivity.
Qed.

(** An element that keeps its spaces: quoted, or without a space at its ends. *)
Definition keeps_spaces (t : string) : Prop := needs_quote t = true \/ TrimSpace t = t.

Definition element_ok (e : option string) : Prop := match e with None => True | Some t => keeps_spaces t end.

Lemma array_space (c : ascii) : is_space c = false -> isArraySpace c = false.
Proof.
  unfold is_space, isArraySpace. intros Hc.
  repeat (apply orb_false_iff in Hc as [Hc ?]). now rewrite Hc, H2, H1, H0 || now rewrite Hc, H3, H2, H1.
Qed.

Lemma skip_array_spaces_plain (t rest : string) :
  starts_plain t = true -> skip_array_spaces (t ++ rest) = (t ++ rest)%string.
Proof.
  destruct t as [|c t]; [easy|]. cbn. intros Hc%negb_true_iff%array_space. now rewrite Hc.
Qed.

Lemma comma_not_space (rest : string) : at_comma rest -> skip_array_spaces rest = rest.
Proof. intros [->|(r & ->)]; reflexivity. Qed.

Lemma scan_bare_element (text t rest : string) :
  string_forallb (fun c => negb (special_byte c)) t = true -> starts_plain t = true -> TrimSpace t = t ->
  at_comma rest ->
  scan_element text (skip_array_spaces (t ++ rest)) = Ok (if EqualFold t "NULL" then None else Some t, rest).
Proof.
  intros Hb Hs Ht Hr. rewrite skip_array_spaces_plain by exact Hs.
  destruct t as [|c t]; [discriminate Hs|]. cbn [String.append scan_element].
  assert (Hc : special_byte c = false) by (cbn in Hb; now apply andb_prop in Hb as [?%negb_true_iff ?]).
  unfold special_byte in Hc. repeat (apply orb_false_iff in Hc as [Hc ?]).
  destruct (c =b DQUOTE) eqn:E1; [congruence|]. rewrite Hc.
  change (String c (t ++ rest)) with (String c t ++ rest)%string.
  rewrite (scan_bare_plain text (String c t) rest) by assumption.
  unfold mbind, ev_bind. cbv beta iota zeta. rewrite Ht. reflexivity.
Qed.

Lemma scan_format_element (text rest : string) (e : option string) :
  element_ok e -> at_comma rest ->
  scan_element text (skip_array_spaces (format_element e ++ rest)) = Ok (e, rest).
Proof.
  intros He Hr. destruct e as [t|]; [|now apply (scan_bare_element text "NULL" rest)].
  cbn [format_element]. unfold formatArrayElementText. destruct (needs_quote t) eqn:Hq.
  - cbn [String.append str1 skip_array_spaces]. change (isArraySpace DQUOTE) with false. cbv beta iota.
    cbn [scan_element]. change (DQUOTE =b DQUOTE) with true. cbv beta iota.
    rewrite append_assoc. change (str1 DQUOTE ++ rest) with (String DQUOTE rest). rewrite scan_quoted_escape. unfold mbind, ev_bind. cbv beta iota.
    now rewrite comma_not_space.
  - destruct He as [He|He]; [congruence|].
    destruct (needs_quote_false t Hq) as (Hn & Hf & Hb).
    destruct (trim_fixed t He) as [->|[Hs _]]; [easy|].
    rewrite scan_bare_element by assumption. now rewrite Hf.
Qed.

Lemma Join_cons (sep a b : string) (l : list string) :
  Join (a :: b :: l) sep = (a ++ sep ++ Join (b :: l) sep)%string.
Proof. reflexivity. Qed.

Lemma format_element_nonempty (e : option string) : format_element e <> EmptyString.
Proof.
  destruct e as [t|]; [|easy]. cbn. unfold formatArrayElementText. destruct (needs_quote t) eqn:E; [easy|].
  intros ->. discriminate E.
Qed.

Lemma scan_elements_format (text : string) (l : list (option string)) (fuel : nat) :
  l <> [] -> Forall element_ok l -> length l <= fuel ->
  scan_elements fuel text (Join (map format_element l) ",") = Ok l.
Proof.
  revert fuel. induction l as [|e l IH]; intros fuel Hn Hok Hf; [easy|].
  destruct fuel as [|k]; [cbn in Hf; lia|]. inversion Hok as [|? ? He Hl]; subst.
  destruct l as [|e' l].
  - cbn [map scan_elements]. change (Join [format_element e] ",") with (format_element e).
    rewrite <- (append_nil_r (format_element e)) at 1.
    rewrite scan_format_element by (try assumption; now left). reflexivity.
  - cbn [map scan_elements]. rewrite Join_cons.
    rewrite scan_format_element by (try assumption; right; eexists; reflexivity).
    unfold mbind, ev_bind. cbv beta iota. cbn [String.append].
    change (negb ("," =b ",")) with false. cbv beta iota.
    destruct (_ =s EmptyString) eqn:E.
    { exfalso. apply String.eqb_eq in E. cbn [map] in E. unfold Join in E. cbn [String.concat] in E.
      destruct (map format_element l); [now apply format_element_nonempty in E|].
      destruct (format_element e') eqn:E'; [now apply format_element_nonempty in E'|discriminate E]. }
    change (Join (format_element e' :: map format_element l) ",") with (Join (map format_element (e' :: l)) ",").
    rewrite IH by (try assumption; cbn in *; try easy; lia). reflexivity.
Qed.

(** ** The round trip of literals *)

Lemma format_element_starts (e : option string) : element_ok e -> starts_plain (format_element e) = true.
Proof.
  destruct e as [t|]; [|easy]. cbn. unfold formatArrayElementText. destruct (needs_quote t) eqn:Hq; [easy|].
  intros [He|He]; [congruence|]. destruct (trim_fixed t He) as [->|[Hs _]]; [discriminate Hq|exact Hs].
Qed.

Lemma join_starts (e : option string) (l : list (option string)) :
  element_ok e -> starts_plain (Join (map format_element (e :: l)) ",") = true.
Proof.
  intros He%format_element_starts. cbn [map]. destruct l as [|e' l]; [exact He|].
  cbn [map]. rewrite Join_cons. now destruct (format_element e).
Qed.

Lemma starts_not_blank (s : string) : starts_plain s = true -> TrimSpace s <> EmptyString.
Proof.
  intros Hs E. apply trim_right_starts in Hs as Hr.
  unfold TrimSpace in E. rewrite trim_left_plain in E by exact Hs. now rewrite E in Hr.
Qed.

Lemma join_length (l : list (option string)) : length l <= String.length (Join (map format_element l) ",").
Proof.
  induction l as [|e l IH]; [cbn; lia|]. pose proof (format_element_nonempty e) as He.
  assert (1 <= String.length (format_element e)) by (destruct (format_element e); [easy|cbn; lia]).
  destruct l as [|e' l]; [exact H|]. cbn [map]. rewrite Join_cons, !length_append. cbn in IH |- *. lia.
Qed.

Lemma ends_plain_app (a b : string) : ends_plain b = true -> ends_plain (a ++ b) = true.
Proof.
  intros Hb. induction a as [|c a IH]; [exact Hb|]. cbn [String.append].
  revert IH. now destruct (a ++ b).
Qed.

Lemma cut_brace (s : string) : cut_suffix "}" (s ++ "}") = Some s.
Proof.
  induction s as [|c s IH]; [reflexivity|]. cbn [String.append cut_suffix].
  destruct (String c (s ++ "}") =s "}") eqn:E.
  - exfalso. apply String.eqb_eq in E. injection E as _ E. now destruct s.
  - now rewrite IH.
Qed.

Lemma array_text_roundtrip (l : list (option string)) :
  Forall element_ok l -> parseArrayLiteral (formatArrayLiteral l) = Ok l.
Proof.
  intros Hl. unfold parseArrayLiteral, formatArrayLiteral.
  rewrite trim_plain; [|reflexivity|now apply (ends_plain_app "{"), ends_plain_app].
  cbn [String.append inner_text]. rewrite cut_brace. destruct l as [|e l]; [reflexivity|].
  inversion Hl as [|? ? He ?]; subst. pose proof (join_starts e l He) as Hs.
  pose proof (starts_not_blank _ Hs) as Hn.
  destruct (TrimSpace _ =s EmptyString) eqn:E; [apply String.eqb_eq in E; congruence|].
  apply scan_elements_format; [easy|exact Hl|apply join_length].
Qed.

(** ** The parser returns *)

Definition returns {A} (m : ev A) : Prop := match m with Crash _ => False | _ => True end.

Lemma scan_quoted_returns (text s : string) :
  match scan_quoted text s with Ok (_, r) => String.length r < String.length s | Fails _ => True | Crash _ => False end.
Proof.
  remember (String.length s) as n eqn:Hn. revert s Hn. induction n as [n IH] using lt_wf_ind. intros s ->.
  destruct s as [|c s]; [exact I|]. cbn [scan_quoted String.length]. destruct (c =b BACKSLASH).
  - destruct s as [|d s]; [exact I|]. specialize (IH (String.length s) ltac:(cbn; lia) s eq_refl).
    destruct (scan_quoted text s) as [[v r]| |]; cbn in *; try easy; lia.
  - destruct (c =b DQUOTE); [cbn; lia|]. specialize (IH (String.length s) ltac:(cbn; lia) s eq_refl).
    destruct (scan_quoted text s) as [[v r]| |]; cbn in *; try easy; lia.
Qed.

Lemma scan_bare_returns (text s : string) :
  match scan_bare text s with
  | Ok (v, r) => String.length v + String.length r = String.length s | Fails _ => True | Crash _ => False end.
Proof.
  induction s as [|c s IH]; [reflexivity|]. cbn [scan_bare]. destruct (c =b ","); [reflexivity|].
  destruct (_ || _); [exact I|]. destruct (scan_bare text s) as [[v r]| |]; cbn in *; try easy; lia.
Qed.

Lemma skip_length (s : string) : String.length (skip_array_spaces s) <= String.length s.
Proof. induction s as [|c s IH]; [easy|]. cbn. destruct (isArraySpace c); cbn in *; lia. Qed.

Lemma scan_element_returns (text s : string) :
  match scan_element text s with Ok (_, r) => String.length r < String.length s | Fails _ => True | Crash _ => False end.
Proof.
  destruct s as [|c s]; [exact I|]. cbn [scan_element]. destruct (c =b DQUOTE).
  - pose proof (scan_quoted_returns text s). destruct (scan_quoted text s) as [[v r]| |]; cbn in *; try easy.
    pose proof (skip_length r). lia.
  - destruct (c =b "{"); [exact I|]. pose proof (scan_bare_returns text (String c s)) as Hb.
    destruct (scan_bare text (String c s)) as [[v r]| |]; cbn [mbind ev_bind]; try easy.
    unfold mbind, ev_bind. cbv beta iota zeta. destruct (TrimSpace v =s EmptyString) eqn:E; [exact I|].
    destruct v; [discriminate E|]. cbn in *. lia.
Qed.

Lemma scan_elements_returns (fuel : nat) (text s : string) :
  String.length s <= fuel -> s <> EmptyString -> returns (scan_elements fuel text s).
Proof.
  revert s. induction fuel as [|k IH]; intros s Hs Hn; [destruct s; [easy|cbn in Hs; lia]|].
  cbn [scan_elements]. pose proof (scan_element_returns text (skip_array_spaces s)) as He.
  pose proof (skip_length s) as Hk.
  destruct (scan_element _ _) as [[v [|c r]]| |]; unfold mbind, ev_bind; cbv beta iota; try exact I; [|easy].
  destruct (negb _); [exact I|]. destruct (r =s EmptyString) eqn:E; [exact I|]. apply String.eqb_neq in E.
  specialize (IH r ltac:(cbn in *; lia) E). now destruct (scan_elements k text r).
Qed.

Lemma parse_array_returns (text : string) : returns (parseArrayLiteral text).
Proof.
  unfold parseArrayLiteral. destruct (inner_text _) as [inner|]; [|exact I].
  destruct (TrimSpace inner =s EmptyString) eqn:E; [exact I|].
  apply scan_elements_returns; [reflexivity|]. intros ->. discriminate E.
Qed.

(** ** Bytes that are kept *)

(** No vertical tab and no form feed: the two spaces that [strings.TrimSpace] removes and that do not
    make an element quoted. *)
Definition no_vt_ff (s : string) : bool :=
  string_forallb (fun c => negb ((c =b Prelude.byte 11) || (c =b Prelude.byte 12))) s.

Lemma no_vt_ff_keeps (t : string) : no_vt_ff t = true -> keeps_spaces t.
Proof.
  intros Ht. destruct (needs_quote t) eqn:Hq; [now left|right].
  apply needs_quote_false in Hq as (_ & _ & Hb).
  assert (Hs : string_forallb (fun c => negb (is_space c)) t = true).
  { induction t as [|c t IH]; [reflexivity|]. cbn [string_forallb no_vt_ff] in *.
    apply andb_prop in Hb as [Hc Hb]. unfold no_vt_ff in Ht. cbn [string_forallb] in Ht.
    apply andb_prop in Ht as [Hv Ht]. rewrite (IH Ht Hb), andb_true_r.
    apply negb_true_iff in Hc, Hv. apply negb_true_iff. unfold special_byte, isArraySpace in Hc. unfold is_space.
    apply orb_false_iff in Hc as [_ Hc], Hv as [Hv1 Hv2]. now rewrite Hc, Hv1, Hv2. }
  destruct t as [|c t]; [reflexivity|]. apply trim_plain.
  - cbn in *. now apply andb_prop in Hs as [Hc _].
  - clear Ht Hb. revert c Hs. induction t as [|d t IH]; intros c Hs.
    + cbn in *. now rewrite andb_true_r in Hs.
    + cbn [string_forallb] in Hs. apply andb_prop in Hs as [_ Hs]. apply (IH d). exact Hs.
Qed.

Section Kept.
Variable p : ascii -> bool.
#[local] Abbreviation all := (string_forallb p).

Lemma trim_left_all (s : string) : all s = true -> all (trim_left s) = true.
Proof. induction s as [|c s IH]; [easy|]. cbn. intros [Hc Hs]%andb_prop. destruct (is_space c); [auto|]. cbn. now rewrite Hc, Hs. Qed.

Lemma trim_right_all (s : string) : all s = true -> all (trim_right s) = true.
Proof.
  induction s as [|c s IH]; [easy|]. cbn. intros [Hc Hs]%andb_prop. specialize (IH Hs).
  destruct (trim_right s) as [|d r]; [|cbn in *; now rewrite Hc, IH].
  destruct (is_space c); [reflexivity|]. cbn. now rewrite Hc.
Qed.

Lemma trim_all (s : string) : all s = true -> all (TrimSpace s) = true.
Proof. intros Hs. now apply trim_right_all, trim_left_all. Qed.

Lemma skip_all (s : string) : all s = true -> all (skip_array_spaces s) = true.
Proof.
  induction s as [|c s IH]; [easy|]. cbn. intros [Hc Hs]%andb_prop. destruct (isArraySpace c); [auto|].
  cbn. now rewrite Hc, Hs.
Qed.

Lemma cut_suffix_all (suffix s r : string) : all s = true -> cut_suffix suffix s = Some r -> all r = true.
Proof.
  revert r. induction s as [|c s IH]; intros r Hs; cbn [cut_suffix].
  - destruct (String.eqb _ _); [|easy]. intros [= <-]. reflexivity.
  - destruct (String.eqb _ _); [now intros [= <-]|]. cbn in Hs. apply andb_prop in Hs as [Hc Hs].
    destruct (cut_suffix suffix s) as [t|]; [|easy]. intros [= <-]. cbn. now rewrite Hc, (IH t).
Qed.

Lemma scan_quoted_all (text s v rest : string) :
  all s = true -> scan_quoted text s = Ok (v, rest) -> all v = true /\ all rest = true.
Proof.
  remember (String.length s) as n eqn:Hn. revert s v rest Hn. induction n as [n IH] using lt_wf_ind.
  intros s v rest -> Hs. destruct s as [|c s]; [discriminate|]. cbn [scan_quoted] in *.
  cbn [string_forallb] in Hs. apply andb_prop in Hs as [Hc Hs]. destruct (c =b BACKSLASH).
  - destruct s as [|d s]; [discriminate|]. cbn [string_forallb] in Hs. apply andb_prop in Hs as [Hd Hs].
    destruct (scan_quoted text s) as [[v' r']| |] eqn:E; try discriminate. intros [= <- <-].
    destruct (IH (String.length s) ltac:(cbn; lia) s v' r' eq_refl Hs E) as [Hv Hr]. cbn. now rewrite Hd, Hv.
  - destruct (c =b DQUOTE); [now intros [= <- <-]|].
    destruct (scan_quoted text s) as [[v' r']| |] eqn:E; try discriminate. intros [= <- <-].
    destruct (IH (String.length s) ltac:(cbn; lia) s v' r' eq_refl Hs E) as [Hv Hr]. cbn. now rewrite Hc, Hv.
Qed.

Lemma scan_bare_all (text s v rest : string) :
  all s = true -> scan_bare text s = Ok (v, rest) -> all v = true /\ all rest = true.
Proof.
  revert v rest. induction s as [|c s IH]; intros v rest Hs; cbn [scan_bare]; [now intros [= <- <-]|].
  destruct (c =b ","); [now intros [= <- <-]|]. destruct (_ || _); [discriminate|].
  cbn in Hs. apply andb_prop in Hs as [Hc Hs].
  destruct (scan_bare text s) as [[v' r']| |] eqn:E; try discriminate. intros [= <- <-].
  destruct (IH v' r' Hs eq_refl) as [Hv Hr]. cbn. now rewrite Hc, Hv.
Qed.

Definition element_all (e : option string) : Prop := match e with None => True | Some t => all t = true end.

Lemma scan_element_all (text s rest : string) (e : option string) :
  all s = true -> scan_element text s = Ok (e, rest) -> element_all e /\ all rest = true.
Proof.
  intros Hs. destruct s as [|c s]; [discriminate|]. cbn [scan_element].
  destruct (c =b DQUOTE).
  - cbn in Hs. apply andb_prop in Hs as [_ Hs].
    destruct (scan_quoted text s) as [[v r]| |] eqn:E; try discriminate. intros [= <- <-].
    destruct (scan_quoted_all text s v r Hs E). split; [assumption|now apply skip_all].
  - destruct (c =b "{"); [discriminate|].
    destruct (scan_bare text (String c s)) as [[v r]| |] eqn:E; try discriminate.
    destruct (scan_bare_all text _ v r Hs E) as [Hv Hr]. unfold mbind, ev_bind. cbv beta iota zeta.
    destruct (TrimSpace v =s EmptyString); [discriminate|]. intros [= <- <-]. split; [|exact Hr].
    destruct (EqualFold _ _); [exact I|]. now apply trim_all.
Qed.

Lemma scan_elements_all (fuel : nat) (text s : string) (l : list (option string)) :
  all s = true -> scan_elements fuel text s = Ok l -> Forall element_all l.
Proof.
  revert s l. induction fuel as [|k IH]; intros s l Hs; [discriminate|]. cbn [scan_elements].
  destruct (scan_element _ _) as [[v rest]| |] eqn:E; try discriminate.
  destruct (scan_element_all _ _ _ _ (skip_all s Hs) E) as [Hv Hr]. unfold mbind, ev_bind. cbv beta iota.
  destruct rest as [|c r]; [intros [= <-]; now constructor|]. destruct (negb _); [discriminate|].
  destruct (String.eqb _ _); [discriminate|]. destruct (scan_elements k text r) as [vs| |] eqn:E'; try discriminate.
  intros [= <-]. constructor; [exact Hv|]. cbn in Hr. apply andb_prop in Hr as [_ Hr]. now apply (IH r).
Qed.

Lemma parse_array_all (text : string) (l : list (option string)) :
  all text = true -> parseArrayLiteral text = Ok l -> Forall element_all l.
Proof.
  intros Ht. unfold parseArrayLiteral. destruct (inner_text _) as [inner|] eqn:E; [|discriminate].
  assert (Hi : all inner = true).
  { apply trim_all in Ht. unfold inner_text in E. destruct (TrimSpace text) as [|c r]; [discriminate|].
    cbn in Ht. apply andb_prop in Ht as [_ Ht]. apply (cut_suffix_all "}" r); [exact Ht|].
    destruct c as [[] [] [] [] [] [] [] []]; try discriminate E; exact E. }
  destruct (String.eqb _ _); [now intros [= <-]|]. now apply scan_elements_all.
Qed.
End Kept.

(** ** Canonical text *)

Lemma digit_not_space (c : ascii) : is_digit c = true -> is_space c = false.
Proof. destruct c as [[] [] [] [] [] [] [] []]; vm_compute; congruence. Qed.

Lemma digits_plain (s : string) :
  string_forallb is_digit s = true -> s <> EmptyString -> starts_plain s = true /\ ends_plain s = true.
Proof.
  induction s as [|c s IH]; [easy|]. cbn [string_forallb]. intros [Hc Hs]%andb_prop _.
  apply digit_not_space in Hc. split; [cbn; now rewrite Hc|].
  destruct s as [|d s]; [cbn; now rewrite Hc|]. now apply IH.
Qed.

Lemma itoa_nonempty (n : N) : itoa n <> EmptyString.
Proof.
  unfold itoa. cbn [decimal_digits]. destruct (_ =? 0)%N; [easy|].
  intros E. apply (f_equal String.length) in E. rewrite length_append in E. cbn in E. lia.
Qed.

Lemma itoaZ_plain (z : Z) : starts_plain (itoaZ z) = true /\ ends_plain (itoaZ z) = true.
Proof.
  unfold itoaZ, decimal. destruct (z <? 0)%Z;
    [split; [reflexivity|apply (ends_plain_app "-")]|];
    apply digits_plain; auto using itoa_digits, itoa_nonempty.
Qed.

Lemma digit_not_sign (s : string) :
  string_forallb is_digit s = true -> strip_sign s = (false, s).
Proof. destruct s as [|c s]; [easy|]. cbn. destruct c as [[] [] [] [] [] [] [] []]; easy. Qed.

Lemma ParseInt_itoaZ (z : Z) : (- 2 ^ 63 <= z < 2 ^ 63)%Z -> ParseInt (itoaZ z) = Some z.
Proof.
  intros Hz. unfold ParseInt, itoaZ, decimal. destruct (Z.ltb_spec z 0).
  - cbn [strip_sign]. change ("-" =b "+") with false. change ("-" =b "-") with true. cbv beta iota.
    rewrite itoa_digits, itoa_value. destruct (itoa _) eqn:E; [now apply itoa_nonempty in E|].
    rewrite Z2N.id, Z.opp_involutive by lia. cbv zeta.
    rewrite (proj2 (Z.leb_le _ _)), (proj2 (Z.ltb_lt _ _)) by lia. reflexivity.
  - rewrite digit_not_sign by apply itoa_digits. rewrite itoa_digits, itoa_value.
    destruct (itoa _) eqn:E; [now apply itoa_nonempty in E|].
    rewrite Z2N.id by lia. cbv zeta.
    rewrite (proj2 (Z.leb_le _ _)), (proj2 (Z.ltb_lt _ _)) by lia. reflexivity.
Qed.

Lemma ParseInt_range (s : string) (z : Z) : ParseInt s = Some z -> (- 2 ^ 63 <= z < 2 ^ 63)%Z.
Proof.
  unfold ParseInt. destruct (strip_sign s) as [neg [|c d]]; [discriminate|].
  destruct (string_forallb _ _); [|discriminate]. cbv zeta.
  destruct (_ && _) eqn:E; [|discriminate]. intros [= <-].
  apply andb_prop in E as [E1%Z.leb_le E2%Z.ltb_lt]. now split.
Qed.

Lemma scan_numeral_starts (t : string) (n : numeral) :
  scan_numeral t = Some n -> starts_plain t = true /\ strip_plus t = t.
Proof.
  destruct t as [|c t]; [discriminate|].
  destruct c as [[] [] [] [] [] [] [] []]; intros Hn; try (split; reflexivity); discriminate Hn.
Qed.

Lemma strip_plus_ends (s : string) : strip_plus s <> EmptyString -> ends_plain s = true -> ends_plain (strip_plus s) = true.
Proof.
  unfold strip_plus. destruct s as [|c s]; [easy|].
  destruct c as [[] [] [] [] [] [] [] []]; auto. destruct s; [easy|auto].
Qed.

Lemma normalize_numeric_stable (raw t : string) :
  normalizeNumericArrayElement raw = Some t -> TrimSpace t = t /\ normalizeNumericArrayElement t = Some t.
Proof.
  unfold normalizeNumericArrayElement. destruct (scan_numeral _) as [n|] eqn:E; [|discriminate]. intros [= <-].
  destruct (scan_numeral_starts _ _ E) as [Hs Hp]. set (u := strip_plus (TrimSpace raw)) in *.
  assert (Ht : TrimSpace u = u).
  { apply trim_plain; [exact Hs|]. apply strip_plus_ends; [fold u; now intros -> |].
    destruct (trim_ok raw) as [H0|[_ He]]; [|exact He]. unfold u in Hs. rewrite H0 in Hs. discriminate Hs. }
  split; [exact Ht|]. rewrite Ht, Hp, E. reflexivity.
Qed.

(** The kinds whose spelling of an element does not go through a float. *)
Definition exact_kind (kind : arrayElementKind) : bool := match kind with arrayElementReal => false | _ => true end.

Lemma canonical_element_stable (kind : arrayElementKind) (ty raw : string) (e : option string) :
  exact_kind kind = true -> no_vt_ff raw = true -> canonicalArrayElement (Some raw) kind ty = Ok e ->
  element_ok e /\ canonicalArrayElement e kind ty = Ok e.
Proof.
  intros Hk Hr. destruct kind; try discriminate Hk; cbn [canonicalArrayElement]; unfold some_or.
  - intros [= <-]. split; [now apply no_vt_ff_keeps|reflexivity].
  - destruct (ParseInt _) as [z|] eqn:E; [|discriminate]. intros [= <-]. cbn.
    destruct (itoaZ_plain z) as [Ha Hb]. rewrite trim_plain, ParseInt_itoaZ by eauto using ParseInt_range.
    split; [right; now apply trim_plain|reflexivity].
  - destruct (normalizeNumericArrayElement raw) as [t|] eqn:E; [|discriminate]. intros [= <-].
    destruct (normalize_numeric_stable raw t E) as [Ht Hn]. cbn. rewrite Hn. split; [now right|reflexivity].
  - destruct (parseArrayBoolean raw) as [b|]; [|discriminate]. intros [= <-].
    destruct b; (split; [now right|reflexivity]).
Qed.

Lemma canonical_elements_stable (kind : arrayElementKind) (ty : string) (l l' : list (option string)) :
  exact_kind kind = true -> Forall (fun e => match e with None => True | Some t => no_vt_ff t = true end) l ->
  mapE (fun e => canonicalArrayElement e kind ty) l = Ok l' ->
  Forall element_ok l' /\ mapE (fun e => canonicalArrayElement e kind ty) l' = Ok l'.
Proof.
  intros Hk. revert l'. induction l as [|e l IH]; intros l' Hl Hm; cbn in Hm; [injection Hm as <-; split; [constructor|reflexivity]|].
  inversion Hl as [|? ? He Hl']; subst. inv_ok. destruct (IH _ Hl' H0) as [Ho Hs]. clear IH.
  assert (element_ok x /\ canonicalArrayElement x kind ty = Ok x) as [Hx Hc].
  { destruct e as [t|]; [now apply (canonical_element_stable kind ty t)|]. injection H as <-. now split. }
  split; [now constructor|]. cbn. rewrite Hc. unfold mbind, ev_bind. cbv beta iota. now rewrite Hs.
Qed.

Lemma canonical_text_stable (text ty t : string) :
  no_vt_ff text = true -> arrayElementKindOf ty <> Ok arrayElementReal ->
  canonicalArrayText text ty = Ok t -> canonicalArrayText t ty = Ok t.
Proof.
  intros Ht Hk Hc. unfold canonicalArrayText in Hc. inv_ok. rename x into kind, x0 into l, x1 into l'.
  destruct (canonical_elements_stable kind ty l l') as [Ho Hs];
    [|now apply (parse_array_all _ text l)|assumption|].
  - destruct kind; try reflexivity. congruence.
  - unfold canonicalArrayText. rewrite H. unfold mbind, ev_bind. cbv beta iota.
    now rewrite array_text_roundtrip, Hs.
Qed.

(** ** Three truth values

    [None] is unknown. *)

Definition tri_not (a : option bool) : option bool := match a with Some b => Some (negb b) | None => None end.

Definition tri_and (a b : option bool) : option bool :=
  match a, b with
  | Some false, _ | _, Some false => Some false
  | Some true, Some true => Some true
  | _, _ => None
  end.

Definition tri_or (a b : option bool) : option bool := tri_not (tri_and (tri_not a) (tri_not b)).

(** The conjunction and the disjunction of a list. *)
Definition every_of (l : list (option bool)) : option bool := fold_right tri_and (Some true) l.
Definition any_of (l : list (option bool)) : option bool := fold_right tri_or (Some false) l.

Section Truth.
Context `{Foreign}.

(** The value of a truth value. *)
Definition truth_value (t : option bool) : val := match t with Some b => Bool b | None => VNil end.

(** ** Quantified comparison *)

Definition element_truth (op : TokenType) (left : val) (elementType : string) (e : option string)
    : ev (option bool) :=
  if is_nil left then Ok None
  else match e with
       | None => Ok None
       | Some t => Some <$> compareArrayElement op left t elementType
       end.

Definition quantified_truth (all : bool) (l : list (option bool)) : option bool :=
  if all then every_of l else any_of l.

Lemma quantified_truth_cons (all : bool) (t : option bool) (l : list (option bool)) :
  quantified_truth all (t :: l) = (if all then tri_and else tri_or) t (quantified_truth all l).
Proof. now destruct all. Qed.

(** What the loop has seen is one more unknown element. *)
Lemma quantified_loop_truth (op : TokenType) (all sawNull : bool) (left : val) (l : list (option string))
    (ty : string) (ts : list (option bool)) :
  is_nil left = false -> mapE (element_truth op left ty) l = Ok ts ->
  quantified_loop op all left l ty sawNull
  = Ok (truth_value (quantified_truth all (if sawNull then None :: ts else ts))).
Proof.
  intros Hleft. revert ts sawNull. induction l as [|e l IH]; intros ts sawNull Hm; cbn [mapE] in Hm.
  - injection Hm as <-. now destruct sawNull, all.
  - inv_ok. rename x into t, x0 into ts. unfold element_truth in H0. rewrite Hleft in H0.
    destruct e as [e|]; [|injection H0 as <-]; cbn [quantified_loop].
    + destruct (compareArrayElement op left e ty) as [b| |]; try discriminate. injection H0 as <-.
      unfold mbind, ev_bind. cbv beta iota.
      destruct all, b; cbn [andb negb]; rewrite ?(IH ts) by assumption;
        destruct sawNull; rewrite ?quantified_truth_cons; cbn;
        try reflexivity; destruct (every_of ts) as [[]|], (any_of ts) as [[]|]; reflexivity.
    + rewrite (IH ts true) by assumption. destruct sawNull; [|reflexivity].
      do 2 f_equal. rewrite !quantified_truth_cons. now destruct all, (quantified_truth _ ts) as [[]|].
Qed.

Lemma unknown_elements (op : TokenType) (left : val) (ty : string) (l : list (option string))
    (ts : list (option bool)) :
  is_nil left = true -> mapE (element_truth op left ty) l = Ok ts -> Forall (eq None) ts /\ length ts = length l.
Proof.
  intros Hleft. revert ts. induction l as [|e l IH]; intros ts Hm; cbn in Hm; [injection Hm as <-; now split|].
  inv_ok. unfold element_truth in H0. rewrite Hleft in H0. injection H0 as <-.
  destruct (IH _ H1). cbn. split; [now constructor|congruence].
Qed.

Lemma unknown_truth (all : bool) (ts : list (option bool)) :
  Forall (eq None) ts -> ts <> [] -> quantified_truth all ts = None.
Proof.
  induction ts as [|t ts IH]; [easy|]. intros Hf _. inversion Hf as [|? ? <- Hf']; subst.
  rewrite quantified_truth_cons. destruct ts as [|t ts]; [now destruct all|]. rewrite IH by easy. now destruct all.
Qed.

(** The operator that holds when the other does not. *)
Definition negated (op : TokenType) : TokenType :=
  match op with
  | TokenEq => TokenNeq | TokenNeq => TokenEq | TokenLt => TokenGte | TokenGte => TokenLt
  | TokenGt => TokenLte | TokenLte => TokenGt | op => op
  end.

Lemma holds_negated (op : TokenType) (c : comparison) :
  isComparisonOp op = true -> exists b, holds op c = Some b /\ holds (negated op) c = Some (negb b).
Proof. intros Ho. destruct op; try discriminate Ho; destruct c; eexists; split; reflexivity. Qed.

Lemma result_negated (op : TokenType) (c : comparison) :
  isComparisonOp op = true ->
  comparisonOperatorResult (negated op) c = negb <$> comparisonOperatorResult op c.
Proof.
  intros Ho. destruct (holds_negated op c Ho) as (b & H1 & H2). unfold comparisonOperatorResult.
  now rewrite H1, H2.
Qed.

Lemma element_negated (op : TokenType) (left : val) (e ty : string) :
  isComparisonOp op = true ->
  compareArrayElement (negated op) left e ty = negb <$> compareArrayElement op left e ty.
Proof.
  intros Ho. unfold compareArrayElement.
  assert (Hs : forall v : val, comparisonOperatorResult (negated op) (compare left v)
                    = negb <$> comparisonOperatorResult op (compare left v))
    by (intros; now apply result_negated).
  destruct (arrayElementKindForName ty) as [[]| |];
    try (destruct left; try destruct (parseArrayBoolean e); try apply Hs; reflexivity).
  destruct (compareNumericValues _ _); [now apply result_negated|reflexivity].
Qed.

Lemma loop_negated (op : TokenType) (all sawNull : bool) (left : val) (l : list (option string)) (ty : string) :
  isComparisonOp op = true ->
  quantified_loop (negated op) (negb all) left l ty sawNull
  = (fun v : val => match v with VBool b => Bool (negb b) | v => v end) <$> quantified_loop op all left l ty sawNull.
Proof.
  intros Ho. revert sawNull. induction l as [|[e|] l IH]; intros sawNull; cbn [quantified_loop];
    [destruct sawNull, all; reflexivity| |apply IH].
  rewrite element_negated by exact Ho. destruct (compareArrayElement op left e ty) as [b| |]; try reflexivity.
  unfold mbind, ev_bind, fmap, ev_fmap. cbv beta iota. destruct all, b; cbn [negb andb]; try reflexivity; apply IH.
Qed.
End Truth.

(** ** Properties *)

(** C19: The text of an array is read back as the array: for every list of elements, NULL among them
    and texts with braces, commas, quotes and backslashes, [parseArrayLiteral] of [formatArrayLiteral]
    is the list. An element is required to be quoted or to keep its bytes under trimming (the code
    does not quote a text with a vertical tab or a form feed at an end, and trims it away). *)
Theorem array_roundtrip (l : list (option string)) :
  Forall element_ok l -> parseArrayLiteral (formatArrayLiteral l) = Ok l.
Proof. apply array_text_roundtrip. Qed.

Definition sample_array : list (option string) := [Some "a,b"; None; Some "null"; Some EmptyString; Some "x\y"; Some "12"].

Lemma array_roundtrip_witness : parseArrayLiteral (formatArrayLiteral sample_array) = Ok sample_array.
Proof. apply array_roundtrip. repeat constructor; (left; reflexivity) || (right; reflexivity). Defined.

(** Canonical text is stable: what [canonicalArrayText] gives for a text without vertical tabs and
    form feeds is its own canonical text, for every element type that is not a float. *)
Theorem canonical_stable (text ty t : string) :
  no_vt_ff text = true -> arrayElementKindOf ty <> Ok arrayElementReal ->
  canonicalArrayText text ty = Ok t -> canonicalArrayText t ty = Ok t.
Proof. apply canonical_text_stable. Qed.

Lemma canonical_stable_witness : canonicalArrayText "{7,NULL,-12}" "integer[]" = Ok "{7,NULL,-12}".
Proof. apply (canonical_stable " { 007 , null, -12 }" "integer[]"); [reflexivity|vm_compute; congruence|vm_compute; reflexivity]. Defined.

Section Properties.
Context `{Foreign}.

(** A quantified comparison is the three-valued disjunction (ANY) or conjunction (ALL) of the
    comparisons with the elements, an unknown element or an unknown left operand being NULL, and an
    empty array giving false or true whatever the left operand is. *)
Theorem quantified_exact (op : TokenType) (all : bool) (left : val) (l : list (option string)) (ty : string)
    (ts : list (option bool)) :
  mapE (element_truth op left ty) l = Ok ts ->
  evalQuantifiedComparison op all left l ty = Ok (truth_value (quantified_truth all ts)).
Proof.
  intros Hm. unfold evalQuantifiedComparison. destruct l as [|e l].
  - injection Hm as <-. now destruct all.
  - destruct (is_nil left) eqn:Hleft.
    + destruct (unknown_elements _ _ _ _ _ Hleft Hm) as [Hf Hlen].
      rewrite unknown_truth; [reflexivity|exact Hf|]. destruct ts; [discriminate Hlen|easy].
    + now rewrite (quantified_loop_truth op all false left (e :: l) ty ts Hleft Hm).
Qed.

(** [x <> ALL (a)] is the negation of [x = ANY (a)], [x >= ANY (a)] that of [x < ALL (a)], and so on
    for every comparison: with the negated operator and the other quantifier the result is the negated
    one, NULL stays NULL, and an operand that is refused is refused by both. *)
Theorem quantified_dual (op : TokenType) (all : bool) (left : val) (l : list (option string)) (ty : string) :
  isComparisonOp op = true ->
  evalQuantifiedComparison (negated op) (negb all) left l ty
  = (fun v : val => match v with VBool b => Bool (negb b) | v => v end) <$> evalQuantifiedComparison op all left l ty.
Proof.
  intros Ho. unfold evalQuantifiedComparison. destruct l as [|e l]; [reflexivity|].
  destruct (is_nil left); [reflexivity|]. now apply loop_negated.
Qed.

(** The cache of parsed arrays is never seen: a consistent cache stays consistent, and the answer is
    the parse of the text. *)
Lemma parsed_array_transparent (cache : gmap nat arrayParseEntry) (node : nat) (text : string) :
  cache_consistent cache ->
  (parsedArray cache node text).1 = parseArrayLiteral text
  /\ cache_consistent (parsedArray cache node text).2.
Proof.
  intros Hc. assert (Hi : cache_consistent (<[node := mkParseEntry text (parseArrayLiteral text)]> cache))
    by (now apply map_Forall_insert_2).
  unfold parsedArray. destruct (cache !! node) as [e|] eqn:E; [|now split].
  destruct (pe_text e =s text) eqn:Et; [|now split]. apply String.eqb_eq in Et. split; [|exact Hc].
  rewrite <- Et. exact (map_Forall_lookup_1 _ _ _ _ Hc E).
Qed.
End Properties.

Section Witnesses.
#[local] Existing Instance no_foreign.

Lemma quantified_exact_witness :
  evalQuantifiedComparison TokenLt false (Int 5) [Some "3"; None; Some "4"] "INTEGER" = Ok VNil.
Proof. 
  refine (quantified_exact TokenLt false (Int 5) [Some "3"; None; Some "4"] "INTEGER" [Some false; None; Some false] _).
  vm_compute. reflexivity.
 Defined.

Lemma quantified_dual_witness :
  evalQuantifiedComparison TokenNeq true (Int 5) [Some "3"; Some "5"] "INTEGER" = Ok (Bool false).
Proof. rewrite (quantified_dual TokenEq false) by reflexivity. vm_compute. reflexivity. Defined.

(** An element that is a vertical tab is not read back. *)
Definition vertical_tab : string := str1 (Prelude.byte 11).

Theorem vertical_tab_lost : parseArrayLiteral (formatArrayLiteral [Some vertical_tab]) = Ok [].
Proof. vm_compute. reflexivity. Qed.
End Witnesses.
