(* ===== verification/OperatorFacts.v ===== *)
(** * Operators: comparison of floats and integers, patterns

    The order of the values of a comparison is lexicographic on sign, exponent and mantissa, so it is
    a strict weak order away from NaN; integers below 2^53 in size keep their order when they are
    compared as floats.

    LIKE and GLOB match the texts their patterns describe. *)
From Stdlib Require Import NArith ZArith Lia Bool Ascii String List Floats.SpecFloat.
From stdpp Require Import base option list strings.
From S2P Require Import Prelude Token Ast Bytes RowCodec Float Values Schema ExecValue Arrays ExprTypes Operators.
#[local] Open Scope Z_scope.

(** ** Lexicographic order *)

Definition lex_compare (a b : Z * Z * Z) : comparison :=
  let '(a1, a2, a3) := a in
  let '(b1, b2, b3) := b in
  match a1 ?= b1 with
  | Eq => match a2 ?= b2 with Eq => a3 ?= b3 | c => c end
  | c => c
  end.

Lemma lex_refl (a : Z * Z * Z) : lex_compare a a = Eq.
Proof. destruct a as [[x y] z]. cbn. now rewrite !Z.compare_refl. Qed.

Lemma lex_antisym (a b : Z * Z * Z) : lex_compare b a = CompOpp (lex_compare a b).
Proof.
  destruct a as [[x y] z], b as [[x' y'] z']. cbn.
  rewrite (Z.compare_antisym x x'), (Z.compare_antisym y y'), (Z.compare_antisym z z').
  now destruct (x ?= x'), (y ?= y'), (z ?= z').
Qed.

(** Substitute what three-way comparisons of integers say. *)
Ltac cmp :=
  repeat match goal with
  | H : context [?x ?= ?y] |- _ => destruct (Z.compare_spec x y); try discriminate; try lia
  | |- context [?x ?= ?y] => destruct (Z.compare_spec x y); try discriminate; try lia
  end; try reflexivity.

Lemma lex_eq (a b : Z * Z * Z) : lex_compare a b = Eq -> a = b.
Proof. destruct a as [[x y] z], b as [[x' y'] z']. cbn. intros Hc. cmp. congruence. Qed.

Lemma lex_trans (a b c : Z * Z * Z) : lex_compare a b = Lt -> lex_compare b c = Lt -> lex_compare a c = Lt.
Proof.
  destruct a as [[x y] z], b as [[x' y'] z'], c as [[x'' y''] z'']. cbn. intros Hab Hbc. cmp.
Qed.

(** ** The key of a float *)

Definition float_key (x : spec_float) : Z * Z * Z :=
  match x with
  | S754_infinity s => ((if s then -2 else 2), 0, 0)
  | S754_finite s m e => if s then (-1, - e, Zneg m) else (1, e, Zpos m)
  | _ => (0, 0, 0)
  end.

Definition is_nan (x : spec_float) : bool := match x with S754_nan => true | _ => false end.

Lemma SFcompare_key (x y : spec_float) :
  is_nan x = false -> is_nan y = false -> SFcompare x y = Some (lex_compare (float_key x) (float_key y)).
Proof.
  intros Hx Hy. destruct x as [[]|[]| |[] m e], y as [[]|[]| |[] m' e']; try discriminate; try reflexivity; cbn.
  rewrite Z.compare_opp, (Z.compare_antisym e e'). f_equal. now destruct (e ?= e').
Qed.

Lemma compare_float_key (x y : spec_float) :
  is_nan x = false -> is_nan y = false -> compare_float x y = lex_compare (float_key x) (float_key y).
Proof.
  intros Hx Hy. unfold compare_float, flt, SFltb. rewrite !SFcompare_key, (lex_antisym (float_key x)) by assumption.
  now destruct (lex_compare _ _).
Qed.

Lemma compare_float_nan (x y : spec_float) : is_nan x || is_nan y = true -> compare_float x y = Eq.
Proof. destruct x, y; try discriminate; reflexivity. Qed.

(** ** Integers *)

Lemma digits2_pos_spec (p : positive) : 2 ^ (Zpos (digits2_pos p) - 1) <= Zpos p < 2 ^ Zpos (digits2_pos p).
Proof.
  induction p as [p IH|p IH|]; cbn [digits2_pos]; [| |cbn; lia];
    rewrite Pos2Z.inj_succ, Z.pow_succ_r by lia;
    replace (Z.succ (Zpos (digits2_pos p)) - 1) with (Z.succ (Zpos (digits2_pos p) - 1)) by lia;
    rewrite Z.pow_succ_r by lia; lia.
Qed.

Lemma digits2_pos_bound (p : positive) (n : Z) : 0 <= n -> Zpos p < 2 ^ n -> Zpos (digits2_pos p) <= n.
Proof.
  intros Hn Hp. pose proof (digits2_pos_spec p) as [Hd _].
  assert (Zpos (digits2_pos p) - 1 < n) by (apply (Z.pow_lt_mono_r_iff 2); lia). lia.
Qed.

Lemma digits2_pos_shift (p d : positive) :
  Zpos (digits2_pos (Pos.iter xO p d)) = Zpos (digits2_pos p) + Zpos d.
Proof.
  revert p. induction d using Pos.peano_ind; intros p; [cbn; lia|].
  rewrite Pos.iter_succ. cbn [digits2_pos]. rewrite Pos2Z.inj_succ, IHd. lia.
Qed.

Lemma iter_xO (p d : positive) : Zpos (Pos.iter xO p d) = Zpos p * 2 ^ Zpos d.
Proof.
  induction d using Pos.peano_ind; [cbn; lia|].
  rewrite Pos.iter_succ, Pos2Z.inj_xO, IHd, Pos2Z.inj_succ, Z.pow_succ_r by lia. lia.
Qed.

(** A mantissa of 53 bits is kept as it is. *)
Lemma round_aux_exact (s : bool) (m : positive) (e : Z) :
  Zpos (digits2_pos m) = 53 -> -1074 <= e <= 971 ->
  binary_round_aux 53 1024 s (Zpos m) e loc_Exact = S754_finite s m e.
Proof.
  intros Hd He. unfold binary_round_aux, shr_fexp. cbn [Zdigits2]. rewrite Hd.
  assert (Hf : fexp 53 1024 (53 + e) - e = 0) by (unfold fexp, emin; lia). rewrite Hf.
  cbn [shr shr_record_of_loc shr_m shr_r shr_s loc_of_shr_record round_nearest_even Zdigits2]. rewrite Hd, Hf.
  cbn [shr shr_record_of_loc shr_m]. now rewrite (proj2 (Z.leb_le e (1024 - 53))) by lia.
Qed.

Lemma of_pos_exact (s : bool) (p : positive) :
  Zpos p < 2 ^ 53 ->
  exists m, binary_round 53 1024 s p 0 = S754_finite s m (Zpos (digits2_pos p) - 53)
            /\ Zpos m = Zpos p * 2 ^ (53 - Zpos (digits2_pos p)).
Proof.
  intros Hp. pose proof (digits2_pos_bound p 53 ltac:(lia) Hp) as Hd.
  unfold binary_round, shl_align. rewrite Z.add_0_r, Z.sub_0_r.
  replace (fexp 53 1024 (Zpos (digits2_pos p))) with (Zpos (digits2_pos p) - 53) by (unfold fexp, emin; lia).
  destruct (Zpos (digits2_pos p) - 53) as [|q|q] eqn:E; [|lia|].
  - exists p. split; [apply round_aux_exact; lia|]. replace (Zpos (digits2_pos p)) with 53 by lia. cbn. lia.
  - exists (Pos.iter xO p q). split; [apply round_aux_exact; [rewrite digits2_pos_shift|]; lia|].
    rewrite iter_xO. do 2 f_equal. lia.
Qed.

(** The key of an integer: its sign, its number of bits, and the bits scaled to 53. *)
Definition int_key (z : Z) : Z * Z * Z :=
  match z with
  | Z0 => (0, 0, 0)
  | Zpos p => (1, Zpos (digits2_pos p) - 53, Zpos p * 2 ^ (53 - Zpos (digits2_pos p)))
  | Zneg p => (-1, - (Zpos (digits2_pos p) - 53), Zneg p * 2 ^ (53 - Zpos (digits2_pos p)))
  end.

Lemma of_int_key (z : Z) : Z.abs z < 2 ^ 53 -> is_nan (of_int z) = false /\ float_key (of_int z) = int_key z.
Proof.
  intros Hz. unfold of_int, round_int, binary_normalize. cbn [prec emax binary64].
  destruct z as [|p|p]; [now split| |].
  - destruct (of_pos_exact false p Hz) as (m & -> & Hm). split; [reflexivity|]. cbn. now rewrite Hm.
  - destruct (of_pos_exact true p Hz) as (m & -> & Hm). split; [reflexivity|]. cbn.
    f_equal. change (Zneg m) with (- Zpos m). rewrite Hm. lia.
Qed.

Lemma scaled_compare (p q : positive) :
  Zpos p < 2 ^ 53 -> Zpos q < 2 ^ 53 ->
  (match Zpos (digits2_pos p) - 53 ?= Zpos (digits2_pos q) - 53 with
   | Eq => Zpos p * 2 ^ (53 - Zpos (digits2_pos p)) ?= Zpos q * 2 ^ (53 - Zpos (digits2_pos q))
   | c => c
   end) = (Zpos p ?= Zpos q).
Proof.
  intros Bp Bq. pose proof (digits2_pos_bound p 53 ltac:(lia) Bp). pose proof (digits2_pos_bound q 53 ltac:(lia) Bq).
  pose proof (digits2_pos_spec p) as Hp. pose proof (digits2_pos_spec q) as Hq.
  set (dp := Zpos (digits2_pos p)) in *. set (dq := Zpos (digits2_pos q)) in *.
  assert (Hmono : forall a b, a <= b -> 2 ^ a <= 2 ^ b) by (intros; apply Z.pow_le_mono_r; lia).
  destruct (Z.compare_spec (dp - 53) (dq - 53)) as [E|E|E].
  - replace dq with dp by lia. symmetry. apply Zmult_compare_compat_r.
    assert (0 < 2 ^ (53 - dp)) by (apply Z.pow_pos_nonneg; lia). lia.
  - symmetry. apply Z.compare_lt_iff. specialize (Hmono dp (dq - 1)). lia.
  - symmetry. apply Z.compare_gt_iff. specialize (Hmono dq (dp - 1)). lia.
Qed.

Lemma int_key_compare (a b : Z) :
  Z.abs a < 2 ^ 53 -> Z.abs b < 2 ^ 53 -> lex_compare (int_key a) (int_key b) = (a ?= b).
Proof.
  intros Ha Hb. destruct a as [|p|p], b as [|q|q]; try reflexivity; cbn [Z.abs] in *.
  - exact (scaled_compare p q Ha Hb).
  - change (Zneg p ?= Zneg q) with (CompOpp (Zpos p ?= Zpos q)). rewrite <- scaled_compare by assumption.
    unfold int_key, lex_compare. change (-1 ?= -1) with Eq. cbv beta iota.
    change (Zneg p) with (- Zpos p). change (Zneg q) with (- Zpos q).
    rewrite !Z.mul_opp_l, !Z.compare_opp, (Z.compare_antisym (Zpos (digits2_pos p) - 53)).
    rewrite (Z.compare_antisym (Zpos p * _)).
    now destruct (_ - _ ?= _), (_ * _ ?= _).
Qed.

Lemma of_int_compare (a b : Z) :
  Z.abs a < 2 ^ 53 -> Z.abs b < 2 ^ 53 -> compare_float (of_int a) (of_int b) = (a ?= b).
Proof.
  intros Ha Hb. destruct (of_int_key a Ha) as [Na Ka], (of_int_key b Hb) as [Nb Kb].
  now rewrite compare_float_key, Ka, Kb, int_key_compare.
Qed.

(** ** Patterns: LIKE and GLOB match the texts their patterns describe *)
#[local] Close Scope Z_scope.
#[local] Open Scope string_scope.

#[local] Arguments String.append _ _ : simpl nomatch.

(** The texts of a LIKE pattern: [%] stands for any text, [_] for a byte, another byte for itself. *)
Inductive like : string -> string -> Prop :=
  | like_end : like EmptyString EmptyString
  | like_any (p w s : string) : like p s -> like (String "%" p) (w ++ s)
  | like_one (p s : string) (d : ascii) : like p s -> like (String "_" p) (String d s)
  | like_byte (p s : string) (c : ascii) : c <> "%"%char -> like p s -> like (String c p) (String c s).

(** The texts of a GLOB pattern: [*], [?], a class between brackets, and bytes for themselves. *)
Inductive glob : string -> string -> Prop :=
  | glob_end : glob EmptyString EmptyString
  | glob_any (p w s : string) : glob p s -> glob (String "*" p) (w ++ s)
  | glob_one (p s : string) (d : ascii) : glob p s -> glob (String "?" p) (String d s)
  | glob_class (p class rest s : string) (d : ascii) :
      split_bracket p = Some (class, rest) -> d <> "["%char -> class_match class d = true -> glob rest s ->
      glob (String "[" p) (String d s)
  | glob_byte (p s : string) (c : ascii) : c <> "*"%char -> glob p s -> glob (String c p) (String c s).

Lemma any_suffix_exact (f : string -> bool) (s : string) :
  any_suffix f s = true <-> exists w r, s = (w ++ r)%string /\ f r = true.
Proof.
  split.
  - induction s as [|c s IH]; cbn; intros [Hf|Hs]%orb_prop.
    + now exists EmptyString, EmptyString.
    + discriminate Hs.
    + now exists EmptyString, (String c s).
    + destruct (IH Hs) as (w & r & -> & Hr). now exists (String c w), r.
  - intros (w & r & -> & Hr). induction w as [|c w IH]; cbn.
    + destruct r; cbn; now rewrite Hr.
    + now rewrite IH, orb_true_r.
Qed.

Lemma like_helper_exact (p s : string) : matchLikeHelper p s = true <-> like p s.
Proof.
  split.
  - revert s. induction p as [|c p IH]; intros s; cbn [matchLikeHelper].
    + intros ->%String.eqb_eq. constructor.
    + destruct (c =b "%") eqn:Ec.
      * apply Ascii.eqb_eq in Ec as ->. intros (w & r & -> & Hr)%any_suffix_exact. constructor. now apply IH.
      * destruct s as [|d s]; [easy|]. intros [Hc Hs]%andb_prop. apply IH in Hs.
        apply orb_prop in Hc as [->%Ascii.eqb_eq| ->%Ascii.eqb_eq]; [now constructor|].
        constructor; [|exact Hs]. now apply Ascii.eqb_neq.
  - induction 1 as [|p w s _ IH|p s d _ IH|p s c Hc _ IH]; cbn [matchLikeHelper]; [reflexivity| |exact IH|].
    + change ("%" =b "%") with true. cbv beta iota. apply any_suffix_exact. now exists w, s.
    + apply Ascii.eqb_neq in Hc as ->. now rewrite Ascii.eqb_refl, orb_true_r.
Qed.

Lemma split_bracket_length (p class rest : string) :
  split_bracket p = Some (class, rest) -> String.length rest < String.length p.
Proof.
  revert class rest. induction p as [|c p IH]; intros class rest; cbn; [easy|].
  destruct (c =b "]"); [intros [= <- <-]; lia|].
  destruct (split_bracket p) as [[a b]|]; [|easy]. intros [= <- <-]. specialize (IH a b eq_refl). lia.
Qed.

Lemma glob_helper_exact (fuel : nat) (p s : string) :
  String.length p <= fuel -> matchGlobHelper fuel p s = true <-> glob p s.
Proof.
  revert p s. induction fuel as [|k IH]; intros p s Hp.
  - destruct p; [|cbn in Hp; lia]. cbn. rewrite String.eqb_eq. split; [intros ->; constructor|now inversion 1].
  - destruct p as [|c p]; [cbn; rewrite String.eqb_eq; split; [intros ->; constructor|now inversion 1]|].
    cbn [String.length] in Hp. cbn [matchGlobHelper]. split.
    + destruct (c =b "*") eqn:Ec.
      * apply Ascii.eqb_eq in Ec as ->. intros (w & r & -> & Hr)%any_suffix_exact. constructor.
        apply IH; [lia|exact Hr].
      * destruct s as [|d s]; [easy|]. apply Ascii.eqb_neq in Ec.
        destruct (c =b "?") eqn:Eq; cbn [orb].
        { apply Ascii.eqb_eq in Eq as ->. intros Hs. constructor. apply IH; [lia|exact Hs]. }
        destruct (c =b d) eqn:Ed; cbn [orb].
        { apply Ascii.eqb_eq in Ed as ->. intros Hs. constructor; [exact Ec|]. apply IH; [lia|exact Hs]. }
        destruct (c =b "[") eqn:Eb; [|easy]. apply Ascii.eqb_eq in Eb as ->.
        destruct (split_bracket p) as [[class rest]|] eqn:E; [|easy]. intros [Hc Hs]%andb_prop.
        pose proof (split_bracket_length _ _ _ E). apply (glob_class p class rest); auto.
        -- intros ->. discriminate Ed.
        -- apply IH; [lia|exact Hs].
    + inversion 1 as [|? w s' Hs|? s' d Hs|? class rest s' d E Hd Hc Hs|? s' ? Hc Hs]; subst.
      * change ("*" =b "*") with true. cbv beta iota. apply any_suffix_exact. exists w, s'. split; [reflexivity|].
        apply IH; [lia|exact Hs].
      * change ("?" =b "*") with false. change ("?" =b "?") with true. cbn [orb]. apply IH; [lia|exact Hs].
      * change ("[" =b "*") with false. change ("[" =b "?") with false. cbn [orb].
        rewrite (proj2 (Ascii.eqb_neq "[" d)) by congruence. change ("[" =b "[") with true. cbv beta iota.
        rewrite E, Hc. pose proof (split_bracket_length _ _ _ E). apply IH; [lia|exact Hs].
      * apply Ascii.eqb_neq in Hc as ->. rewrite Ascii.eqb_refl, orb_true_r. apply IH; [lia|exact Hs].
Qed.

(** C22: [matchLike] accepts exactly the texts the pattern describes, letters compared in lower case, and
    [matchGlob] exactly those its pattern describes, letters as they are; both end on every input. *)
Theorem patterns_exact (pattern s : string) :
  (matchLike s pattern = true <-> like (ToLower pattern) (ToLower s))
  /\ (matchGlob pattern s = true <-> glob pattern s).
Proof. split; [apply like_helper_exact|now apply glob_helper_exact]. Qed.
