(* ===== verification/EvalFacts.v ===== *)
(** * Evaluation: three-valued logic, membership, ranges, and the two ways to panic

    The connectives are Kleene's; IN is the disjunction of the comparisons; BETWEEN is a conjunction of
    two comparisons; evaluation panics only at a remainder of floats and at a shift by one count. *)
From Stdlib Require Import NArith ZArith Lia Bool Ascii String List Floats.SpecFloat.
From stdpp Require Import base option list gmap strings.
From S2P Require Import Prelude Token Ast Bytes RowCodec Float Values Schema ExecValue Arrays ExprTypes.
From S2P Require Import Operators Eval OperatorFacts ArrayFacts.

#[local] Open Scope string_scope.
#[local] Set Warnings "-clear-no-such-hyp".

(** ** Induction on expressions

    The recursion of the evaluator: it does not enter queries and windows. *)
Section ExprInd.
Variable P : Expr -> Prop.

Definition opt_P (o : option Expr) : Prop := match o with None => True | Some e => P e end.
Definition when_P (w : WhenClause) : Prop := match w with mkWhenClause c r => P c /\ P r end.

Hypothesis HBinary : forall l op r, P l -> P r -> P (BinaryExpr l op r).
Hypothesis HUnary : forall op e, P e -> P (UnaryExpr op e).
Hypothesis HLiteral : forall ty v, P (LiteralExpr ty v).
Hypothesis HColumn : forall t c, P (ColumnRef t c).
Hypothesis HCall : forall n args d s, Forall P args -> P (FunctionCallExpr (mkFunctionCall n args d s)).
Hypothesis HWindow : forall f p o, P (WindowExpr f p o).
Hypothesis HSubquery : forall q, P (SubqueryExpr q).
Hypothesis HCase : forall o ws e, opt_P o -> Forall when_P ws -> opt_P e -> P (CaseExpr o ws e).
Hypothesis HIn : forall l n vs q, P l -> Forall P vs -> P (InExpr l n vs q).
Hypothesis HBetween : forall x n lo hi, P x -> P lo -> P hi -> P (BetweenExpr x n lo hi).
Hypothesis HLike : forall x n p e, P x -> P p -> P (LikeExpr x n p e).
Hypothesis HIsNull : forall x n, P x -> P (IsNullExpr x n).
Hypothesis HDistinct : forall l r n, P l -> P r -> P (IsDistinctExpr l r n).
Hypothesis HCast : forall x ty, P x -> P (CastExpr x ty).
Hypothesis HExists : forall q, P (ExistsExpr q).
Hypothesis HArray : forall l, Forall P l -> P (ArrayExpr l).
Hypothesis HSubscript : forall x i, P x -> P i -> P (SubscriptExpr x i).
Hypothesis HAnyAll : forall l op all a, P l -> P a -> P (AnyAllExpr l op all a).
Hypothesis HParen : forall e, P e -> P (ParenExpr e).

Fixpoint expr_sub_ind (e : Expr) : P e :=
  let opt (o : option Expr) : opt_P o := match o with None => I | Some e => expr_sub_ind e end in
  let all := fix all (l : list Expr) : Forall P l :=
    match l with [] => Forall_nil_2 P | e :: r => Forall_cons_2 P e r (expr_sub_ind e) (all r) end in
  match e with
  | BinaryExpr l op r => HBinary l op r (expr_sub_ind l) (expr_sub_ind r)
  | UnaryExpr op e => HUnary op e (expr_sub_ind e)
  | LiteralExpr ty v => HLiteral ty v
  | ColumnRef t c => HColumn t c
  | FunctionCallExpr (mkFunctionCall n args d s) => HCall n args d s (all args)
  | WindowExpr f p o => HWindow f p o
  | SubqueryExpr q => HSubquery q
  | CaseExpr o ws els =>
      HCase o ws els (opt o)
        ((fix whens (l : list WhenClause) : Forall when_P l :=
            match l with
            | [] => Forall_nil_2 when_P
            | mkWhenClause c r :: l =>
                Forall_cons_2 when_P (mkWhenClause c r) l (conj (expr_sub_ind c) (expr_sub_ind r)) (whens l)
            end) ws) (opt els)
  | InExpr l n vs q => HIn l n vs q (expr_sub_ind l) (all vs)
  | BetweenExpr x n lo hi => HBetween x n lo hi (expr_sub_ind x) (expr_sub_ind lo) (expr_sub_ind hi)
  | LikeExpr x n p esc => HLike x n p esc (expr_sub_ind x) (expr_sub_ind p)
  | IsNullExpr x n => HIsNull x n (expr_sub_ind x)
  | IsDistinctExpr l r n => HDistinct l r n (expr_sub_ind l) (expr_sub_ind r)
  | CastExpr x ty => HCast x ty (expr_sub_ind x)
  | ExistsExpr q => HExists q
  | ArrayExpr l => HArray l (all l)
  | SubscriptExpr x i => HSubscript x i (expr_sub_ind x) (expr_sub_ind i)
  | AnyAllExpr l op b a => HAnyAll l op b a (expr_sub_ind l) (expr_sub_ind a)
  | ParenExpr e => HParen e (expr_sub_ind e)
  end.
End ExprInd.

(** ** What returns *)

Create HintDb returns.

Lemma returns_bind {A B} (m : ev A) (f : A -> ev B) :
  returns m -> (forall a, m = Ok a -> returns (f a)) -> returns (mbind f m).
Proof. destruct m; cbn; auto. Qed.

Lemma returns_fmap {A B} (f : A -> B) (m : ev A) : returns m -> returns (f <$> m).
Proof. now destruct m. Qed.

Lemma returns_wrap {A} (w : string) (args : list string) (m : ev A) : returns m -> returns (wrap_error w args m).
Proof. now destruct m. Qed.

Lemma returns_some_or {A B} (o : option A) (f : A -> B) (e : ev B) : returns e -> returns (some_or o f e).
Proof. now destruct o. Qed.

Lemma returns_mapE {A B} (f : A -> ev B) (l : list A) : Forall (fun x => returns (f x)) l -> returns (mapE f l).
Proof.
  induction 1 as [|x l Hx _ IH]; [exact I|]. cbn. apply returns_bind; [exact Hx|]. intros a _.
  apply returns_bind; [exact IH|]. easy.
Qed.

#[export] Hint Resolve returns_bind returns_fmap returns_wrap returns_some_or returns_mapE parse_array_returns : returns.
#[export] Hint Extern 1 (returns (Ok _)) => exact I : returns.
#[export] Hint Extern 1 (returns (Fails _)) => exact I : returns.

(** Reduce a claim that a computation returns to its parts. *)
Ltac returns_step :=
  match goal with
  | |- returns (mbind _ _) => apply returns_bind; [|intros ? ?]
  | |- returns (fmap _ _) => apply returns_fmap
  | |- returns (wrap_error _ _ _) => apply returns_wrap
  | |- returns (some_or _ _ _) => apply returns_some_or
  | |- returns (mapE _ _) => apply returns_mapE
  | |- returns (invalid_element _ _) => exact I
  | |- returns (Ok _) => exact I
  | |- returns (Fails _) => exact I
  | |- returns (match ?x with _ => _ end) => destruct x
  | |- returns (let '(_, _) := ?x in _) => destruct x
  end.
Ltac returns := cbv zeta; repeat first [returns_step | solve [auto 2 with returns]].

Section Returns.
Context `{Foreign}.

Lemma comparison_result_returns (op : TokenType) (c : comparison) : returns (comparisonOperatorResult op c).
Proof. unfold comparisonOperatorResult. returns. Qed.

Lemma kind_for_name_returns (n : string) : returns (arrayElementKindForName n).
Proof. unfold arrayElementKindForName. returns. Qed.

Lemma kind_of_returns (n : string) : returns (arrayElementKindOf n).
Proof. unfold arrayElementKindOf. returns. apply kind_for_name_returns. Qed.

Lemma canonical_element_returns (e : option string) (k : arrayElementKind) (ty : string) :
  returns (canonicalArrayElement e k ty).
Proof. unfold canonicalArrayElement. returns. Qed.
#[local] Hint Resolve comparison_result_returns kind_for_name_returns kind_of_returns canonical_element_returns : returns.

Lemma canonical_text_returns (t ty : string) : returns (canonicalArrayText t ty).
Proof. unfold canonicalArrayText. returns. apply Forall_forall. auto with returns. Qed.

Lemma numeric_elements_returns (l r : list (option string)) : returns (numeric_elements_equal l r).
Proof.
  revert r. induction l as [|[a|] l IH]; intros [|[b|] r]; cbn; try exact I; auto.
  returns.
Qed.
#[local] Hint Resolve canonical_text_returns numeric_elements_returns : returns.

Lemma numeric_text_equal_returns (a b ty : string) : returns (numericArrayTextEqual a b ty).
Proof. unfold numericArrayTextEqual. returns. Qed.

Lemma compare_element_returns (op : TokenType) (v : val) (e ty : string) : returns (compareArrayElement op v e ty).
Proof.
  unfold compareArrayElement. cbv zeta.
  assert (Hs : returns match v with
                  | VBool _ => match parseArrayBoolean e with
                      | Some b => comparisonOperatorResult op (compare v (Bool b))
                      | None => invalid_element "boolean" e end
                  | _ => comparisonOperatorResult op (compare v (Text e))
                  end) by (destruct v; returns).
  destruct (arrayElementKindForName ty) as [[]| |]; try exact Hs. returns.
Qed.
#[local] Hint Resolve numeric_text_equal_returns compare_element_returns : returns.

Lemma quantified_returns (op : TokenType) (all : bool) (v : val) (l : list (option string)) (ty : string) :
  returns (evalQuantifiedComparison op all v l ty).
Proof.
  assert (Hl : forall saw, returns (quantified_loop op all v l ty saw)).
  { induction l as [|[e|] l IH]; intros saw; cbn; [returns| |apply IH]. returns. }
  unfold evalQuantifiedComparison. returns.
Qed.

Lemma array_index_returns (v : val) (w : string) : returns (arrayIndexValue v w).
Proof. unfold arrayIndexValue. returns. Qed.

Lemma element_value_returns (e : option string) (t : string) : returns (arrayElementValue e t).
Proof. unfold arrayElementValue. returns. Qed.
#[local] Hint Resolve quantified_returns array_index_returns element_value_returns : returns.

Lemma subscript_returns (t : option string) (v i : val) : returns (subscriptArrayValue t v i).
Proof. unfold subscriptArrayValue. returns. Qed.

Lemma array_length_returns (args : list val) : returns (evalArrayLength args).
Proof. unfold evalArrayLength. returns. Qed.

Lemma canonical_elements_returns (l : list (option string)) (k : arrayElementKind) (ty : string) :
  returns (canonicalArrayElements l k ty).
Proof. unfold canonicalArrayElements. returns. apply Forall_forall. auto with returns. Qed.

Lemma elements_equal_returns (l r : option string) (k : arrayElementKind) (ty : string) :
  returns (arrayElementsEqual l r k ty).
Proof. unfold arrayElementsEqual. returns. Qed.
#[local] Hint Resolve subscript_returns array_length_returns canonical_elements_returns elements_equal_returns : returns.

Lemma contains_returns (l r : list (option string)) (ty : string) : returns (arrayContainsElements l r ty).
Proof.
  unfold arrayContainsElements. returns. generalize a0 a1. clear. intros l r. rename a into k.
  assert (Hc : forall e, returns (container_has l e k ty)) by (intros e; induction l; cbn; returns).
  induction r; cbn; returns.
Qed.
#[local] Hint Resolve contains_returns : returns.

Lemma containment_returns (op : TokenType) (ty : string) (l r : val) : returns (arrayContainment op ty l r).
Proof. unfold arrayContainment. returns. Qed.

Lemma array_cast_returns (ty : string) (v : val) : returns (evalArrayCast ty v).
Proof. unfold evalArrayCast. returns. Qed.

Lemma value_element_returns (v : val) : returns (arrayValueElement v).
Proof. unfold arrayValueElement. returns. Qed.

(** SUBSTR slices within its bounds, whatever the start and the length are. *)
Lemma substr_returns (l : list N) (y : Z) (z : option Z) : returns (substr l y z).
Proof.
  unfold substr. destruct (substr_window _ y z) as [s e]. cbv zeta.
  destruct ((_ <? (if (s <? 1)%Z then _ else _))%Z || _) eqn:E; [exact I|]. apply returns_fmap.
  apply orb_false_iff in E as [E1%Z.ltb_ge E2%Z.ltb_ge]. unfold slice_runes.
  rewrite (proj2 (Z.leb_le 0 _)), (proj2 (Z.leb_le (_ - 1) _)), (proj2 (Z.leb_le _ (Z.of_nat _)));
    [exact I| | |]; destruct (Z.ltb_spec s 1), (Z.ltb_spec (Z.of_nat (length l)) e); lia.
Qed.
End Returns.

#[export] Hint Resolve comparison_result_returns kind_for_name_returns kind_of_returns canonical_element_returns
  canonical_text_returns numeric_elements_returns numeric_text_equal_returns compare_element_returns
  quantified_returns array_index_returns element_value_returns subscript_returns array_length_returns
  contains_returns containment_returns array_cast_returns value_element_returns substr_returns : returns.

(** ** Equations of the evaluator *)

Section Equations.
Context `{Builtins} (env : Env).

(** The loop of IN over its list. *)
Definition in_list (row : option Row) (le : Expr) (left : val) (neg : bool) : list Expr -> bool -> ev val :=
  fix members vs sawNull :=
    match vs with
    | [] => Ok (in_end neg sawNull)
    | x :: r =>
        v ← evalExpr env x row;
        m ← in_member env le left v;
        match m with
        | None => members r true
        | Some true => Ok (Bool (negb neg))
        | Some false => members r sawNull
        end
    end.

Lemma eval_in (le : Expr) (neg : bool) (vs : list Expr) (row : option Row) :
  evalExpr env (InExpr le neg vs None) row
  = (left ← evalExpr env le row;
     match vs with
     | [] => Ok (Bool neg)
     | _ => if is_nil left then Ok VNil else in_list row le left neg vs false
     end).
Proof. reflexivity. Qed.

Lemma eval_call (n : string) (args : list Expr) (d s : bool) (row : option Row) :
  evalExpr env (FunctionCallExpr (mkFunctionCall n args d s)) row
  = (vs ← mapE (fun a => evalExpr env a row) args; function_values env (mkFunctionCall n args d s) vs).
Proof. reflexivity. Qed.

End Equations.

(** ** Evaluation panics in two ways *)

Definition panic_reasons : list string := ["integer divide by zero"; "stack overflow"].

(** A computation that does not panic, or, when [b] holds, panics for one of the two reasons. *)
Definition fine {A} (b : bool) (m : ev A) : Prop :=
  match m with Crash w => b = true /\ In w panic_reasons | _ => True end.

Lemma fine_returns {A} (b : bool) (m : ev A) : returns m -> fine b m.
Proof. now destruct m. Qed.

Lemma fine_bind {A B} (b : bool) (m : ev A) (f : A -> ev B) :
  fine b m -> (forall a, m = Ok a -> fine b (f a)) -> fine b (mbind f m).
Proof. destruct m; cbn; auto. Qed.

Lemma fine_fmap {A B} (b : bool) (f : A -> B) (m : ev A) : fine b m -> fine b (f <$> m).
Proof. now destruct m. Qed.

Lemma fine_wrap {A} (b : bool) (w : string) (args : list string) (m : ev A) : fine b m -> fine b (wrap_error w args m).
Proof. now destruct m. Qed.

Lemma fine_mapE {A B} (b : bool) (f : A -> ev B) (l : list A) : Forall (fun x => fine b (f x)) l -> fine b (mapE f l).
Proof.
  induction 1 as [|x l Hx _ IH]; [exact I|]. cbn. apply fine_bind; [exact Hx|]. intros a _.
  apply fine_bind; [exact IH|]. easy.
Qed.

Ltac fine_step :=
  match goal with
  | |- fine _ (mbind _ _) => apply fine_bind; [|intros ? ?]
  | |- fine _ (fmap _ _) => apply fine_fmap
  | |- fine _ (wrap_error _ _ _) => apply fine_wrap
  | |- fine _ (Ok _) => exact I
  | |- fine _ (Fails _) => exact I
  | |- fine _ (match ?x with _ => _ end) => destruct x
  | |- fine _ (let '(_, _) := ?x in _) => destruct x
  end.
Ltac fine :=
  cbv zeta; repeat first [solve [auto 2 with returns] | solve [apply fine_returns; auto 2 with returns] | fine_step].

(** What is not in the source returns. *)
Record builtins_return `{Builtins} : Prop := {
  br_canonical s : returns (canonicalizeJSONB s);
  br_json_arrow l r t : returns (jsonArrowExtract l r t);
  br_jsonb_arrow l r t : returns (jsonbArrowExtract l r t);
  br_path l r t : returns (jsonbPathExtract l r t);
  br_path_delete l r : returns (jsonbPathDelete l r);
  br_containment op le re l r : returns (jsonbContainment op le re l r);
  br_exists l r : returns (jsonbKeyExists l r);
  br_any_exist op l r : returns (jsonbAnyKeysExist op l r);
  br_concat l r : returns (jsonbConcat l r);
  br_delete le re l r : returns (jsonbDeleteValue le re l r);
  br_jsonb n f args : returns (jsonb_call n f args);
  br_json n args : returns (json_call n args);
  br_catalog n args : returns (catalog_call n args);
  br_reg n v : returns (reg_cast n v);
  br_date n args : returns (date_call n args);
  br_query row q : returns (run_query row q) }.

Definition panicking_operator (op : TokenType) : bool := token_in op [TokenPercent; TokenShiftLeft; TokenShiftRight].

(** No remainder and no shift, outside queries and windows. *)
Fixpoint safe_expr (e : Expr) : bool :=
  let opt (o : option Expr) := match o with None => true | Some e => safe_expr e end in
  match e with
  | BinaryExpr l op r => negb (panicking_operator op) && safe_expr l && safe_expr r
  | UnaryExpr _ e | IsNullExpr e _ | CastExpr e _ | ParenExpr e => safe_expr e
  | FunctionCallExpr (mkFunctionCall _ args _ _) => forallb safe_expr args
  | CaseExpr o ws els =>
      opt o && forallb (fun w => match w with mkWhenClause c r => safe_expr c && safe_expr r end) ws && opt els
  | InExpr l _ vs _ => safe_expr l && forallb safe_expr vs
  | BetweenExpr x _ lo hi => safe_expr x && safe_expr lo && safe_expr hi
  | LikeExpr x _ p _ => safe_expr x && safe_expr p
  | IsDistinctExpr l r _ | SubscriptExpr l r | AnyAllExpr l _ _ r => safe_expr l && safe_expr r
  | ArrayExpr l => forallb safe_expr l
  | _ => true
  end.

Lemma bit_shift_fine (fuel : nat) (left : bool) (v s : Z) : fine true (bitShift fuel left v s).
Proof.
  revert left v s. induction fuel as [|k IH]; intros left v s; cbn [bitShift]; [split; [reflexivity|cbn; auto]|].
  destruct (_ <? 0)%Z; [apply IH|]. destruct (64 <=? s)%Z; exact I.
Qed.

(** Case analysis on what a match at the head of the goal is about. *)
Ltac head_case :=
  match goal with
  | |- match ?x with _ => _ end =>
      let rec go t := match t with match ?y with _ => _ end => go y | ?y => destruct y; try exact I end in go x
  end.

Section Panics.
Context `{Builtins} (env : Env) (BR : builtins_return).
Variable b : bool.

Lemma compare_jsonb_returns (op : TokenType) (l r : val) : returns (compare_jsonb op l r).
Proof. unfold compare_jsonb. returns; apply BR. Qed.
#[local] Hint Resolve compare_jsonb_returns : returns.

Lemma compare_values_returns (op : TokenType) (le re : option Expr) (l r : val) :
  returns (compareExprValues env op le re l r).
Proof.
  unfold compareExprValues. returns; unfold compare_scalars; returns.
Qed.

Lemma canonical_value_returns (e : option Expr) (v : val) : returns (canonicalArrayValue env e v).
Proof. unfold canonicalArrayValue. returns. Qed.
#[local] Hint Resolve compare_values_returns canonical_value_returns : returns.

Lemma canonical_comparison_returns (le re : option Expr) (l r : val) :
  returns (canonicalizeArrayComparison env le re l r).
Proof. unfold canonicalizeArrayComparison. returns. Qed.
#[local] Hint Resolve canonical_comparison_returns : returns.

Lemma distinct_returns (le re : Expr) (l r : val) : returns (distinct_values env le re l r).
Proof. unfold distinct_values. returns. Qed.

Lemma in_member_returns (le : Expr) (l v : val) : returns (in_member env le l v).
Proof. unfold in_member. returns. Qed.
#[local] Hint Resolve distinct_returns in_member_returns : returns.

Lemma in_values_returns (le : Expr) (neg : bool) (l : val) (vs : list val) (saw : bool) :
  returns (in_values env le neg l vs saw).
Proof. revert saw. induction vs as [|v vs IH]; intros saw; cbn; returns. Qed.

Lemma jsonb_binary_returns (op : TokenType) (le re : Expr) (l r : val) :
  match evalJSONBBinary env op le re l r with Some m => returns m | None => True end.
Proof.
  unfold evalJSONBBinary. cbv zeta. match goal with |- context [if ?c then arrayEqualityType ?e ?l ?r else None] => destruct (if c then arrayEqualityType e l r else None) as [t|] end; [auto with returns|].
  destruct (_ && (_ || _)); [returns|].
  destruct op; try exact I; destruct (is_jsonb env le), (is_jsonb env re); cbn [orb];
    solve [exact I | apply BR | returns; apply BR].
Qed.

Lemma bitwise_fine (op : TokenType) (l r : val) :
  b || negb (panicking_operator op) = true ->
  match bitwise_or_arrow op l r with Some m => fine b m | None => True end.
Proof.
  intros Hop. unfold bitwise_or_arrow. destruct (isBitwiseOp op) eqn:Eo.
  - destruct (is_nil l || is_nil r); [exact I|]. unfold applyBitwise.
    destruct op; try discriminate Eo; try exact I;
      (destruct b; [apply fine_fmap, bit_shift_fine|discriminate Hop]).
  - destruct ((op =t TokenArrow) || (op =t TokenArrowText)); [|exact I]. apply fine_returns, BR.
Qed.

Lemma binary_switch_fine (op : TokenType) (l r : val) :
  b || negb (panicking_operator op) = true -> fine b (binary_switch op l r).
Proof.
  intros Hop. unfold binary_switch.
  destruct op; try exact I; unfold divide, remainder, arithmetic, compare3; fine.
  destruct b; [|discriminate Hop]. split; [reflexivity|cbn; auto].
Qed.

Lemma binary_values_fine (op : TokenType) (le re : Expr) (l r : val) :
  b || negb (panicking_operator op) = true -> fine b (binary_values env op le re l r).
Proof.
  intros Hop. unfold binary_values. pose proof (jsonb_binary_returns op le re l r) as Hj.
  destruct (evalJSONBBinary _ _ _ _ _ _) as [m|]; [now apply fine_returns|].
  destruct (isComparisonOp op); [fine|]. pose proof (bitwise_fine op l r Hop) as Hb.
  destruct (bitwise_or_arrow op l r); [exact Hb|]. now apply binary_switch_fine.
Qed.

Lemma catalog_cast_returns (n : string) (v : val) :
  match catalogCast n v with Some m => returns m | None => True end.
Proof.
  unfold catalogCast. cbv zeta. destruct (name_in _ _); [apply BR|].
  destruct v as [| | | | | | | | |[|oid name|]]; try exact I.
  destruct (name_in _ _); [exact I|]. now destruct (_ =s _).
Qed.

Lemma cast_returns (ty : DataType) (v : val) : returns (cast_value ty v).
Proof.
  unfold cast_value. destruct (is_nil v); [exact I|]. destruct (dt_Array ty); [auto with returns|].
  pose proof (catalog_cast_returns (dt_Name ty) v). destruct (catalogCast _ _); [assumption|].
  unfold cast_jsonb. returns; apply BR.
Qed.

Lemma text_function_returns (n : string) (args : list val) :
  match text_function n args with Some m => returns m | None => True end.
Proof.
  unfold text_function, strict, first_or. repeat head_case; returns.
Qed.

Lemma value_function_returns (n : string) (args : list val) : returns (value_function env n args).
Proof. unfold value_function, strict, first_or, percent_diff. returns. Qed.

Lemma function_values_returns (f : FunctionCall) (args : list val) : returns (function_values env f args).
Proof.
  destruct f as [n exprs d s]. unfold function_values. cbv zeta.
  repeat match goal with |- returns (if ?c then _ else _) => destruct c; [solve [returns; apply BR | apply BR]|] end.
  pose proof (text_function_returns (ToUpper n) args). destruct (text_function _ _); [assumption|].
  apply value_function_returns.
Qed.

Lemma column_returns (t c : string) (row : option Row) : returns (evalColumnRef env t c row).
Proof.
  unfold evalColumnRef, canonicalizeJSONBColumnValue, canonicalizeJSONBReadValue. returns; apply BR.
Qed.

Lemma literal_returns (ty : TokenType) (v : string) : returns (evalLiteral ty v).
Proof. unfold evalLiteral. returns. Qed.

Lemma scalar_subquery_returns (row : option Row) (q : SelectStmt) : returns (scalar_subquery row q).
Proof. unfold scalar_subquery. returns; apply BR. Qed.

Lemma in_subquery_returns (q : SelectStmt) : returns (in_subquery env q).
Proof. unfold in_subquery. returns; apply BR. Qed.
#[local] Hint Resolve function_values_returns column_returns literal_returns scalar_subquery_returns
  in_subquery_returns distinct_returns in_member_returns in_values_returns cast_returns compare_values_returns : returns.

(** Split what is allowed of an expression into what is allowed of its parts. *)
Ltac split_allowed :=
  repeat match goal with
  | H : (b || (_ && _)) = true |- _ => rewrite orb_andb_distrib_r in H; apply andb_prop in H as [? H]
  end.

Lemma allowed_list {A} (f : A -> bool) (l : list A) : b || forallb f l = true -> Forall (fun x => b || f x = true) l.
Proof.
  intros Hl. apply Forall_forall. intros x Hx. destruct b; [reflexivity|]. cbn in *.
  rewrite forallb_forall in Hl. apply Hl. now apply list_elem_of_In.
Qed.

Lemma allowed_fine (row : option Row) (l : list Expr) :
  Forall (fun e => b || safe_expr e = true -> fine b (evalExpr env e row)) l ->
  b || forallb safe_expr l = true -> Forall (fun e => fine b (evalExpr env e row)) l.
Proof. intros Hl Ha%allowed_list. rewrite Forall_forall in *. auto. Qed.

Lemma eval_fine (e : Expr) (row : option Row) : b || safe_expr e = true -> fine b (evalExpr env e row).
Proof.
  induction e using expr_sub_ind; cbn [safe_expr]; intros Ha; split_allowed;
    try rewrite eval_call; try (destruct q as [q|]; [|rewrite eval_in]); cbn [evalExpr].
  - fine; auto. now apply binary_values_fine.
  - fine; auto.
  - fine.
  - fine.
  - apply fine_bind; [apply fine_mapE; now apply allowed_fine|]. intros vs _. fine.
  - exact I.
  - fine.
  - apply fine_bind; [destruct o as [o|]; [|exact I]; apply fine_bind; [auto|easy]|]. intros subject _.
    apply allowed_list in H4. revert H2 H4. induction ws as [|[c r] ws IH]; intros Hw Ha'.
    + destruct e as [e|]; [auto|exact I].
    + inversion Hw as [|? ? Hcw Hw']; inversion Ha' as [|? ? Hcr Ha'']; subst.
      cbn [when_P] in Hcw. destruct Hcw as [Hc Hr]. split_allowed.
      apply fine_bind; [auto|]. intros cond _. apply fine_bind; [fine|]. intros [|] _; auto.
  - apply fine_bind; [auto|]. intros left _. fine.
  - apply fine_bind; [auto|]. intros left _.
    apply allowed_fine with (row := row) in Ha; [|assumption]. clear - BR Ha. destruct vs as [|v vs]; [exact I|].
    destruct (is_nil left); [exact I|]. revert Ha. generalize false. generalize (v :: vs). clear v vs. intros l.
    induction l as [|x l IH]; intros saw Hf; [exact I|]. inversion Hf; subst. cbn [in_list].
    apply fine_bind; [assumption|]. intros w _. apply fine_bind; [fine|]. intros [[|]|] _; try exact I; apply IH; auto.
  - fine; auto.
  - fine; auto.
  - fine; auto.
  - fine; auto.
  - fine; auto.
  - fine. apply fine_returns, BR.
  - apply fine_bind; [|easy]. apply fine_mapE. apply allowed_fine with (row := row) in Ha; [|exact H1].
    eapply Forall_impl; [exact Ha|]. intros x Hx. apply fine_bind; [exact Hx|]. intros v _. fine.
  - fine; auto.
  - fine; auto.
  - auto.
Qed.
End Panics.

(** ** Truth values *)

Section Logic.
Context `{Builtins} (env : Env).

(** The truth value of a value: NULL is unknown. *)
Definition truth (v : val) : option bool := if is_nil v then None else Some (toBool v).

Lemma and3_truth (l r : val) : and3 l r = truth_value (tri_and (truth l) (truth r)).
Proof. unfold and3, truth. now destruct (is_nil l), (is_nil r), (toBool l), (toBool r). Qed.

Lemma or3_truth (l r : val) : or3 l r = truth_value (tri_or (truth l) (truth r)).
Proof. unfold or3, truth. now destruct (is_nil l), (is_nil r), (toBool l), (toBool r). Qed.

Lemma not3_truth (v : val) : not3 v = truth_value (tri_not (truth v)).
Proof. unfold not3, truth. now destruct (is_nil v). Qed.

Lemma truth_of_value (t : option bool) : truth (truth_value t) = t.
Proof. now destruct t as [[]|]. Qed.

Definition connective (op : TokenType) : option (option bool -> option bool -> option bool) :=
  match op with TokenAND => Some tri_and | TokenOR => Some tri_or | _ => None end.

Lemma eval_connective (op : TokenType) f (l r : Expr) (row : option Row) :
  connective op = Some f ->
  evalExpr env (BinaryExpr l op r) row
  = (a ← evalExpr env l row; b ← evalExpr env r row; Ok (truth_value (f (truth a) (truth b)))).
Proof.
  intros Hf. cbn [evalExpr]. destruct op; try discriminate Hf; injection Hf as <-;
    destruct (evalExpr env l row) as [a| |]; try reflexivity;
    destruct (evalExpr env r row) as [b| |]; try reflexivity;
    unfold mbind, ev_bind; cbv beta iota; unfold binary_values, evalJSONBBinary; cbn;
    [now rewrite and3_truth|now rewrite or3_truth].
Qed.

Lemma eval_not (e : Expr) (row : option Row) :
  evalExpr env (UnaryExpr TokenNOT e) row = (a ← evalExpr env e row; Ok (truth_value (tri_not (truth a)))).
Proof. cbn [evalExpr]. destruct (evalExpr env e row); try reflexivity. cbn. now rewrite not3_truth. Qed.

(** ** IN *)

(** The truth of one member of the list: unknown for a member that is NULL. *)
Lemma in_list_truth (row : option Row) (le : Expr) (left : val) (neg saw : bool) (vs : list Expr)
    (ts : list (option bool)) :
  mapE (fun x => v ← evalExpr env x row; in_member env le left v) vs = Ok ts ->
  in_list env row le left neg vs saw
  = Ok (truth_value ((if neg then tri_not else id) (any_of (if saw then None :: ts else ts)))).
Proof.
  revert saw ts. induction vs as [|x vs IH]; intros saw ts Hm; cbn [mapE] in Hm.
  - injection Hm as <-. now destruct saw, neg.
  - apply bind_ok in Hm as (t & Ht & Hm). apply bind_ok in Hm as (ts' & Hts & [= <-]).
    apply bind_ok in Ht as (v & Hv & Ht). cbn [in_list]. rewrite Hv. unfold mbind, ev_bind. cbv beta iota. rewrite Ht.
    destruct t as [[]|]; rewrite ?(IH _ ts' Hts);
      destruct saw, neg; cbn; fold (any_of ts'); destruct (any_of ts') as [[]|]; reflexivity.
Qed.

(** ** BETWEEN *)

(** An expression whose comparisons are those of plain values. *)
Definition plain (e : Expr) : Prop :=
  is_jsonb env e = false /\ is_numeric_type env e = false /\ arrayTypeOf env (Some e) = None.

Lemma plain_comparison (op : TokenType) (le re : Expr) (l r : val) :
  isComparisonOp op = true -> plain le -> plain re ->
  binary_values env op le re l r = Ok (compare_value op l r).
Proof.
  intros Ho (Jl & Nl & Al) (Jr & Nr & Ar).
  assert (Hv : evalJSONBBinary env op le re l r = None).
  { unfold evalJSONBBinary. rewrite Jl, Jr. destruct op; try discriminate Ho; reflexivity. }
  unfold binary_values. rewrite Hv, Ho. unfold canonicalizeArrayComparison, canonicalArrayValue. rewrite Al, Ar.
  unfold mbind, ev_bind, compare_value. cbv beta iota. destruct (is_nil l || is_nil r); [reflexivity|].
  unfold compareExprValues, isJSONBExpr, arrayEqualityType. rewrite Jl, Jr, Al, Ar. cbn [orb andb].
  replace (if (op =t TokenEq) || (op =t TokenNeq) then None ∪ None else None) with (@None string)
    by now destruct (_ || _).
  unfold compare_scalars, isNumericExprType. rewrite Nl, Nr. cbn [orb]. unfold comparisonOperatorResult.
  destruct (holds op (compare l r)) eqn:E; [reflexivity|]. destruct op; discriminate.
Qed.

Lemma between_truth (v lo hi : val) :
  between v lo hi
  = truth_value (tri_and (truth (compare_value TokenGte v lo)) (truth (compare_value TokenLte v hi))).
Proof.
  unfold between, compare_value. destruct (is_nil v); [reflexivity|]. cbn [orb].
  destruct (is_nil lo), (is_nil hi), (compare v lo), (compare v hi); reflexivity.
Qed.

Lemma not_between_truth (v lo hi : val) :
  not_between v lo hi
  = truth_value (tri_not (tri_and (truth (compare_value TokenGte v lo)) (truth (compare_value TokenLte v hi)))).
Proof.
  unfold not_between, compare_value. destruct (is_nil v); [reflexivity|]. cbn [orb].
  destruct (is_nil lo), (is_nil hi), (compare v lo), (compare v hi); reflexivity.
Qed.
End Logic.

(** ** Shifts *)

Lemma wrap64_multiple (v : Z) (n : Z) : (64 <= n)%Z -> wrap64 (v * 2 ^ n) = 0%Z.
Proof.
  intros Hn. unfold wrap64. replace (2 ^ n)%Z with (2 ^ (n - 64) * 2 ^ 64)%Z by (rewrite <- Z.pow_add_r; f_equal; lia).
  rewrite Z.mul_assoc, Z.add_comm, Z_mod_plus_full. reflexivity.
Qed.

Lemma div_far (v n : Z) : (- 2 ^ 63 <= v < 2 ^ 63 -> 64 <= n -> v / 2 ^ n = if v <? 0 then -1 else 0)%Z.
Proof.
  intros Hv Hn. assert (2 ^ 64 <= 2 ^ n)%Z by (apply Z.pow_le_mono_r; lia).
  destruct (Z.ltb_spec v 0); symmetry; [apply (Z.div_unique_pos v (2 ^ n) (-1) (v + 2 ^ n)); lia|].
  apply (Z.div_unique_pos v (2 ^ n) 0 v); lia.
Qed.

(** The shift by a count that is not negative: to the left the product by a power of two, on 64 bits;
    to the right the floor of the quotient. *)
Definition shifted (left : bool) (v n : Z) : Z := if left then wrap64 (v * 2 ^ n) else (v / 2 ^ n)%Z.

Lemma bit_shift_forward (fuel : nat) (left : bool) (v n : Z) :
  (- 2 ^ 63 <= v < 2 ^ 63)%Z -> (0 <= n)%Z -> bitShift (S fuel) left v n = Ok (shifted left v n).
Proof.
  intros Hv Hn. cbn [bitShift]. rewrite (proj2 (Z.ltb_ge n 0)) by exact Hn. unfold shifted.
  destruct (Z.leb_spec 64 n).
  - destruct left; [now rewrite wrap64_multiple|now rewrite div_far].
  - rewrite Z.shiftl_mul_pow2, Z.shiftr_div_pow2 by lia. now destruct left.
Qed.

Lemma bit_shift_exact (left : bool) (v n : Z) :
  (- 2 ^ 63 <= v < 2 ^ 63)%Z -> (- 2 ^ 63 <= n < 2 ^ 63)%Z ->
  bitShift 3 left v n
  = if (n =? min_int64)%Z then Crash "stack overflow"
    else Ok (if (n <? 0)%Z then shifted (negb left) v (- n) else shifted left v n).
Proof.
  intros Hv Hn. destruct (Z.eqb_spec n min_int64) as [->|Hm].
  - destruct left; reflexivity.
  - destruct (Z.ltb_spec n 0); [|now apply bit_shift_forward].
    unfold min_int64 in Hm. remember 2%nat as k. cbn [bitShift]. rewrite (proj2 (Z.ltb_lt n 0)) by assumption.
    rewrite wrap64_id by lia. subst k. apply bit_shift_forward; lia.
Qed.

(** ** Properties *)

Section Properties.
Context `{Builtins} (env : Env).

(** C15: Evaluating an expression panics for two reasons only - a remainder whose divisor is truncated
    to zero, and a shift that calls itself without end - and an expression without remainders and
    shifts (outside its queries) always returns a value or an error, whatever the row and the values
    are, provided the functions that are not part of the model return. *)
Theorem evaluation_panics (BR : builtins_return) (e : Expr) (row : option Row) :
  match evalExpr env e row with
  | Crash why => safe_expr e = false /\ In why panic_reasons
  | _ => True
  end.
Proof.
  pose proof (eval_fine env BR true e row eq_refl) as Ht. pose proof (eval_fine env BR false e row) as Hf.
  destruct (evalExpr env e row); try exact I. destruct (safe_expr e); [now destruct (Hf eq_refl)|].
  split; [reflexivity|apply Ht].
Qed.

(** C23: AND, OR and NOT compute Kleene's three-valued logic on the truth values of their operands,
    NULL being unknown, and give TRUE, FALSE or NULL. *)
Theorem three_valued_logic (op : TokenType) f (l r : Expr) (row : option Row) :
  connective op = Some f ->
  evalExpr env (BinaryExpr l op r) row
  = (a ← evalExpr env l row; b ← evalExpr env r row; Ok (truth_value (f (truth a) (truth b))))
  /\ evalExpr env (UnaryExpr TokenNOT l) row
     = (a ← evalExpr env l row; Ok (truth_value (tri_not (truth a)))).
Proof. intros Hf. split; [now apply eval_connective|apply eval_not]. Qed.

(** [x IN (v1, ..., vn)] is the three-valued disjunction of the comparisons of x with the members,
    and NOT IN its negation: a NULL member makes a miss unknown, an empty list gives FALSE. *)
Theorem in_list_exact (le : Expr) (neg : bool) (vs : list Expr) (row : option Row) (left : val)
    (ts : list (option bool)) :
  evalExpr env le row = Ok left -> is_nil left = false ->
  mapE (fun x => v ← evalExpr env x row; in_member env le left v) vs = Ok ts ->
  evalExpr env (InExpr le neg vs None) row = Ok (truth_value ((if neg then tri_not else id) (any_of ts))).
Proof.
  intros Hl Hn Hts. rewrite eval_in, Hl. unfold mbind, ev_bind. cbv beta iota.
  destruct vs as [|x vs]; [injection Hts as <-; now destruct neg|]. rewrite Hn.
  exact (in_list_truth env row le left neg false (x :: vs) ts Hts).
Qed.

(** [x BETWEEN lo AND hi] is [x >= lo AND x <= hi], and NOT BETWEEN its negation, NULLs and errors
    included, for operands that are neither jsonb, nor arrays, nor of type NUMERIC. *)
Theorem between_is_conjunction (x lo hi : Expr) (neg : bool) (row : option Row) :
  plain env x -> plain env lo -> plain env hi ->
  let both := BinaryExpr (BinaryExpr x TokenGte lo) TokenAND (BinaryExpr x TokenLte hi) in
  evalExpr env (BetweenExpr x neg lo hi) row
  = evalExpr env (if neg then UnaryExpr TokenNOT both else both) row.
Proof.
  intros Px Plo Phi both.
  assert (Hb : evalExpr env both row
    = (v ← evalExpr env x row; low ← evalExpr env lo row; high ← evalExpr env hi row;
       Ok (truth_value (tri_and (truth (compare_value TokenGte v low)) (truth (compare_value TokenLte v high)))))).
  { unfold both. rewrite (eval_connective env TokenAND tri_and) by reflexivity. cbn [evalExpr].
    destruct (evalExpr env x row) as [v| |]; try reflexivity. unfold mbind, ev_bind. cbv beta iota.
    destruct (evalExpr env lo row) as [low| |]; try reflexivity. rewrite plain_comparison by easy.
    destruct (evalExpr env hi row) as [high| |]; try reflexivity. now rewrite plain_comparison. }
  assert (Hx : evalExpr env (BetweenExpr x neg lo hi) row
    = (v ← evalExpr env x row; low ← evalExpr env lo row; high ← evalExpr env hi row;
       Ok (if neg then not_between v low high else between v low high))) by reflexivity.
  rewrite Hx. destruct neg; [rewrite eval_not|]; rewrite Hb; unfold mbind, ev_bind;
    destruct (evalExpr env x row); try reflexivity; destruct (evalExpr env lo row); try reflexivity;
    destruct (evalExpr env hi row); try reflexivity;
    [now rewrite not_between_truth, truth_of_value|now rewrite between_truth].
Qed.
End Properties.

(** A shift by [n] is the 64-bit product by [2^n] or the floor of the quotient by it, in the other
    direction for a negative count, and 64 and more are no exception; the one count whose negation
    overflows makes the function call itself until the stack is full. *)
Theorem shifts_exact (v n : Z) :
  (- 2 ^ 63 <= v < 2 ^ 63)%Z -> (- 2 ^ 63 <= n < 2 ^ 63)%Z ->
  bitShiftLeft v n
  = (if (n =? min_int64)%Z then Crash "stack overflow"
     else Ok (if (n <? 0)%Z then shifted false v (- n) else shifted true v n))
  /\ bitShiftRight v n
  = (if (n =? min_int64)%Z then Crash "stack overflow"
     else Ok (if (n <? 0)%Z then shifted true v (- n) else shifted false v n)).
Proof. intros Hv Hn. split; now apply bit_shift_exact. Qed.

(** C24: Integers below 2^53 in size compare as integers, although the comparison goes through floats;
    NULL comes before every one of them. *)
Theorem integers_compare_exactly `{Foreign} (a b : Z) :
  (Z.abs a < 2 ^ 53)%Z -> (Z.abs b < 2 ^ 53)%Z ->
  compare (Int a) (Int b) = Z.compare a b /\ compare VNil (Int b) = Lt /\ compare (Int a) VNil = Gt.
Proof. intros Ha Hb. split; [exact (of_int_compare a b Ha Hb)|now split]. Qed.

(** ** Witnesses and panics *)

Section Witnesses.
#[local] Existing Instance no_foreign.
#[local] Existing Instance no_builtins.

Lemma no_builtins_return : builtins_return.
Proof. split; intros; exact I. Qed.

Definition num (s : string) : Expr := LiteralExpr TokenNumber s.
Definition null : Expr := LiteralExpr TokenNULL EmptyString.
Definition col (name : string) : Expr := ColumnRef EmptyString name.
Definition sample_row : Row := {[ "a" := Int 5 ]}.

Lemma evaluation_panics_witness :
  match evalExpr no_env (BinaryExpr (col "a") TokenPercent (num "0.5")) (Some sample_row) with
  | Crash why => False \/ In why panic_reasons
  | _ => False
  end.
Proof.
  pose proof (evaluation_panics no_env no_builtins_return (BinaryExpr (col "a") TokenPercent (num "0.5")) (Some sample_row)) as Hp.
  destruct (evalExpr no_env _ _) eqn:E; [vm_compute in E; discriminate E|vm_compute in E; discriminate E|].
  right. exact (proj2 Hp).
Defined.

Lemma three_valued_logic_witness :
  evalExpr no_env (BinaryExpr null TokenAND (num "0")) None = Ok (Bool false).
Proof.
  destruct (three_valued_logic no_env TokenAND tri_and null (num "0") None eq_refl) as [E _].
  rewrite E. vm_compute. reflexivity.
Defined.

Lemma in_list_exact_witness :
  evalExpr no_env (InExpr (col "a") true [num "1"; null; num "3"] None) (Some sample_row) = Ok VNil.
Proof.
  refine (in_list_exact no_env (col "a") true [num "1"; null; num "3"] (Some sample_row) (Int 5)
    [Some false; None; Some false] _ _ _); vm_compute; reflexivity.
Defined.

Lemma between_is_conjunction_witness :
  evalExpr no_env (BetweenExpr (col "a") true (num "1") null) (Some sample_row) = Ok VNil.
Proof.
  rewrite (between_is_conjunction no_env (col "a") (num "1") null true (Some sample_row));
    [vm_compute; reflexivity|split; [|split]; vm_compute; reflexivity..].
Defined.

Lemma shifts_exact_witness : bitShiftLeft (-3) (-1) = Ok (-2)%Z.
Proof. destruct (shifts_exact (-3) (-1)) as [E _]; [lia|lia|]. rewrite E. vm_compute. reflexivity. Defined.

Lemma integers_compare_exactly_witness : compare (Int (-7)) (Int 9007199254740991) = Lt.
Proof. destruct (integers_compare_exactly (-7) 9007199254740991) as (E & _ & _); [lia|lia|]. rewrite E. reflexivity. Defined.

(** [5 % 0.5] panics: the divisor is truncated to zero after it has been tested as a float. *)
Theorem remainder_of_fraction_panics :
  evalExpr no_env (BinaryExpr (num "5") TokenPercent (num "0.5")) None = Crash "integer divide by zero".
Proof. vm_compute. reflexivity. Qed.

(** [1 << (-9223372036854775807 - 1)] overflows the stack. *)
Theorem shift_by_minimum_panics :
  evalExpr no_env (BinaryExpr (num "1") TokenShiftLeft
    (ParenExpr (BinaryExpr (UnaryExpr TokenMinus (num "9223372036854775807")) TokenMinus (num "1")))) None
  = Crash "stack overflow".
Proof. vm_compute. reflexivity. Qed.

(** Integers that differ compare equal beyond 2^53. *)
Theorem large_integers_compare_equal :
  evalExpr no_env (BinaryExpr (num "9007199254740993") TokenEq (num "9007199254740992")) None = Ok (Bool true).
Proof. vm_compute. reflexivity. Qed.

(** [1.0 / 2] is [0]: a number with a point whose value is integral is an integer. *)
Theorem integral_literal_is_integer :
  evalExpr no_env (BinaryExpr (num "1.0") TokenSlash (num "2")) None = Ok (Int 0).
Proof. vm_compute. reflexivity. Qed.

Definition str (s : string) : Expr := LiteralExpr TokenString s.
Definition less (a b : string) : ev val := evalExpr no_env (BinaryExpr (str a) TokenLt (str b)) None.

(** The order of texts has a cycle: '9' < '10' as numbers, '10' < '1a' < '9' as texts. *)
Theorem text_order_has_a_cycle :
  less "9" "10" = Ok (Bool true) /\ less "10" "1a" = Ok (Bool true) /\ less "1a" "9" = Ok (Bool true).
Proof. vm_compute. auto. Qed.

(** The text 'nan' is a number that compares equal to every number. *)
Theorem nan_text_equals_numbers :
  evalExpr no_env (BinaryExpr (str "nan") TokenEq (num "5")) None = Ok (Bool true).
Proof. vm_compute. reflexivity. Qed.

(** [NULL LIKE 'x'] is FALSE and [NOT LIKE] TRUE, not NULL; the ESCAPE clause is not read. *)
Theorem like_of_null_is_false :
  evalExpr no_env (LikeExpr null false (str "x") None) None = Ok (Bool false)
  /\ evalExpr no_env (LikeExpr null true (str "x") None) None = Ok (Bool true)
  /\ evalExpr no_env (LikeExpr (str "a_b") false (str "a!_b") (Some (str "!"))) None = Ok (Bool false).
Proof. vm_compute. auto. Qed.

(** [ROUND(-1.7)] is [-1]: half is added before the value is truncated towards zero. *)
Theorem round_of_negative :
  evalExpr no_env (FunctionCallExpr (mkFunctionCall "ROUND" [UnaryExpr TokenMinus (num "1.7")] false false)) None
  = Ok (Real (of_int (-1))).
Proof. vm_compute. reflexivity. Qed.

Definition call (name : string) (args : list Expr) : Expr := FunctionCallExpr (mkFunctionCall name args false false).

(** The type of COALESCE is that of its first argument: [COALESCE(NULL, 4)] is an integer of type TEXT. *)
Theorem coalesce_type_of_first :
  inferExprType (resolve no_env) (call "COALESCE" [null; num "4"]) = "TEXT"
  /\ evalExpr no_env (call "COALESCE" [null; num "4"]) None = Ok (Int 4).
Proof. vm_compute. auto. Qed.

(** [CAST(x AS NUMERIC)] leaves the value as it is, and its type is reported as DOUBLE. *)
Theorem cast_to_numeric_keeps_text :
  evalExpr no_env (CastExpr (str "abc") (mkDataType "NUMERIC" 0 0 false)) None = Ok (Text "abc")
  /\ inferExprType (resolve no_env) (CastExpr (str "abc") (mkDataType "NUMERIC" 0 0 false)) = "DOUBLE".
Proof. vm_compute. auto. Qed.
End Witnesses.
