(* ===== verification/AggregateFacts.v ===== *)
(** * Aggregates: the accumulators compute what the collected groups do

    Each accumulator simulates the loop of its aggregate; the groups of the accumulators are those that
    are collected, so the two forms of GROUP BY give the same rows, in another order. *)
From Stdlib Require Import NArith ZArith Lia Bool Ascii String List Floats.SpecFloat.
From stdpp Require Import base option list gmap strings.
From S2P Require Import Prelude Token Ast Bytes RowCodec Float Values Schema ExecValue Arrays ExprTypes.
From S2P Require Import Operators Eval Aggregates ArrayFacts EvalFacts.

#[local] Open Scope string_scope.
#[local] Set Warnings "-clear-no-such-hyp".

(** ** Loops *)

(** Two outcomes of the same kind, with related values. *)
Definition relE {A B} (R : A -> B -> Prop) (m : ev A) (n : ev B) : Prop :=
  match m, n with
  | Ok a, Ok b => R a b
  | Fails e, Fails e' => e = e'
  | Crash w, Crash w' => w = w'
  | _, _ => False
  end.

Lemma foldE_simulation {A B C} (R : A -> B -> Prop) (f : A -> C -> ev A) (g : B -> C -> ev B) (l : list C) :
  (forall a b x, R a b -> relE R (f a x) (g b x)) ->
  forall a b, R a b -> relE R (foldE f l a) (foldE g l b).
Proof.
  intros Hs. induction l as [|x l IH]; intros a b Hab; [exact Hab|]. cbn. specialize (Hs a b x Hab).
  destruct (f a x), (g b x); cbn in *; try easy. now apply IH.
Qed.

Lemma foldE_cons {A B} (f : A -> B -> ev A) (x : B) (l : list B) (a : A) :
  foldE f (x :: l) a = (b ← f a x; foldE f l b).
Proof. reflexivity. Qed.

Lemma foldE_app {A B} (f : A -> B -> ev A) (l l' : list B) (a : A) :
  foldE f (l ++ l') a = (b ← foldE f l a; foldE f l' b).
Proof.
  revert a. induction l as [|x l IH]; intros a; [reflexivity|]. cbn. destruct (f a x); try reflexivity. apply IH.
Qed.

Lemma foldE_snoc {A B} (f : A -> B -> ev A) (l : list B) (x : B) (a b c : A) :
  foldE f l a = Ok b -> f b x = Ok c -> foldE f (l ++ [x]) a = Ok c.
Proof. intros Hl Hx. rewrite foldE_app, Hl. cbn. now rewrite Hx. Qed.

Lemma mapE_ok {A B} (f : A -> ev B) (l : list A) (ys : list B) :
  mapE f l = Ok ys <-> Forall2 (fun x y => f x = Ok y) l ys.
Proof.
  revert ys. induction l as [|x l IH]; intros ys; cbn.
  - split; [intros [= <-]; constructor|now inversion 1].
  - split.
    + intros (y & Hy & (zs & Hz & [= <-])%bind_ok)%bind_ok. constructor; [exact Hy|now apply IH].
    + inversion 1 as [|? y ? zs Hy Hz]; subst. apply bind_ok. exists y. split; [exact Hy|].
      apply bind_ok. exists zs. split; [now apply IH|reflexivity].
Qed.

Lemma mapE_permutation {A B} (f : A -> ev B) (l l' : list A) (ys : list B) :
  l ≡ₚ l' -> mapE f l = Ok ys -> exists ys', mapE f l' = Ok ys' /\ ys' ≡ₚ ys.
Proof.
  intros Hp. revert ys. induction Hp as [|x l l' _ IH|x y l|l l' l'' _ IH1 _ IH2]; intros ys; rewrite ?mapE_ok.
  - inversion 1; subst. now exists [].
  - inversion 1 as [|? y ? zs Hy Hz]; subst. apply mapE_ok in Hz. destruct (IH zs Hz) as (zs' & Hz' & Hp).
    exists (y :: zs'). split; [|now constructor]. apply mapE_ok. constructor; [exact Hy|now apply mapE_ok].
  - inversion 1 as [|? a ? zs Ha Hz]; subst. inversion Hz as [|? b ? zs' Hb Hz']; subst.
    exists (b :: a :: zs'). rewrite mapE_ok. split; [constructor; [exact Hb|constructor; [exact Ha|exact Hz']]|constructor].
  - intros Hy%mapE_ok. destruct (IH1 ys Hy) as (ys' & Hy' & P1). destruct (IH2 ys' Hy') as (ys'' & Hy'' & P2).
    exists ys''. split; [exact Hy''|now transitivity ys'].
Qed.

Lemma mapE_map {A B C} (f : B -> ev C) (g : A -> B) (l : list A) : mapE f (map g l) = mapE (fun x => f (g x)) l.
Proof. induction l as [|x l IH]; [reflexivity|]. cbn. now rewrite IH. Qed.

Lemma mapE_ext {A B} (f g : A -> ev B) (l : list A) :
  Forall (fun x => f x = g x) l -> mapE f l = mapE g l.
Proof. induction 1 as [|x l Hx _ IH]; [reflexivity|]. cbn. now rewrite Hx, IH. Qed.

(** Go on with the value of the argument on a row. *)
Ltac value_of v :=
  match goal with
  | |- relE _ (mbind _ (row_value ?env ?e ?row)) _ =>
      destruct (row_value env e row) as [v| |]; [cbn [mbind ev_bind relE]|reflexivity..]
  end.

(** ** One accumulator *)

Section Accumulators.
Context `{Builtins} (env : Env).

(** COUNT(DISTINCT x) is left out: collected groups tell values of different types apart, and the
    accumulator compares their texts. *)
Definition exact_call (f : FunctionCall) : bool :=
  match f with
  | mkFunctionCall name _ distinct star =>
      name_in (ToUpper name) accumulator_names && negb ((ToUpper name =s "COUNT") && distinct && negb star)
  end.

(** An aggregate is a loop over the values of its argument and a result of its state. *)
Lemma accumulated {S} (R : S -> aggAccum -> Prop) (f : S -> Row -> ev S) (g : aggAccum -> Row -> ev aggAccum)
    (result : S -> val) (final : aggAccum -> val) (s : S) (rows : list Row) :
  (forall s a row, R s a -> relE R (f s row) (g a row)) -> R s new_accum ->
  (forall s a, R s a -> result s = final a) ->
  (s ← foldE f rows s; Ok (result s)) = final <$> foldE g rows new_accum.
Proof.
  intros Hs H0' Hr. pose proof (foldE_simulation R f g rows Hs s new_accum H0') as Hf.
  destruct (foldE f rows s), (foldE g rows new_accum); cbn in *; try easy; [now rewrite (Hr _ _ Hf)|congruence..].
Qed.

Lemma foldE_constant {A B} (l : list B) (a : A) : foldE (fun a _ => Ok a) l a = Ok a.
Proof. induction l; [reflexivity|assumption]. Qed.

Definition count_related (n : Z) (a : aggAccum) : Prop := n = acc_count a.
Definition sum_related (s : sum_state) (a : aggAccum) : Prop :=
  s = mkSum (acc_sumI a) (acc_sumF a) (acc_allInt a) (acc_hasVal a) (acc_seen a).
Definition avg_related (s : spec_float * Z) (a : aggAccum) : Prop :=
  s = (acc_sumF a, acc_count a) /\ (0 <= acc_count a)%Z /\ acc_hasVal a = (0 <? acc_count a)%Z.
Definition extreme_related (m : val) (a : aggAccum) : Prop := m = acc_extreme a.

Lemma sum_simulated (distinct : bool) (a : aggAccum) (v : val) (s : sum_state) :
  sum_related s a -> sum_related (sum_value distinct s v) (feed_sum distinct a v).
Proof.
  intros ->. unfold sum_value, feed_sum, see, sum_related. destruct (is_nil v); [reflexivity|].
  cbn. unfold name_in. destruct distinct; cbn; [destruct (existsb _ (acc_seen a)); [reflexivity|]|]; destruct (isIntVal v); reflexivity.
Qed.

Lemma count_star (rows : list Row) :
  foldE (fun a (_ : Row) => Ok (count_more a)) rows new_accum
  = Ok (mkAccum (Z.of_nat (length rows)) 0 zero_float true false VNil []).
Proof.
  assert (Hg : forall n, foldE (fun a (_ : Row) => Ok (count_more a)) rows (mkAccum n 0 zero_float true false VNil [])
    = Ok (mkAccum (n + Z.of_nat (length rows)) 0 zero_float true false VNil [])).
  { induction rows as [|r rows IH]; intros n; [cbn; now rewrite Z.add_0_r|].
    rewrite foldE_cons. transitivity (foldE (fun a (_ : Row) => Ok (count_more a)) rows
      (mkAccum (n + 1) 0 zero_float true false VNil [])); [reflexivity|].
    rewrite IH. cbn [length]. do 2 f_equal. lia. }
  exact (Hg 0%Z).
Qed.

(** The accumulator of a call computes the aggregate of the rows. *)
Lemma accumulator_exact (f : FunctionCall) (rows : list Row) :
  exact_call f = true ->
  aggregate env f rows = finalizeAggAccum f <$> foldE (feedAggAccum env f) rows new_accum.
Proof.
  destruct f as [name args distinct star]. unfold exact_call, aggregate, finalizeAggAccum, feedAggAccum.
  intros [Hn Hd]%andb_prop. unfold name_in, accumulator_names in Hn. cbn [existsb] in Hn.
  repeat (apply orb_prop in Hn as [Hn|Hn]); try discriminate Hn; apply String.eqb_eq in Hn; rewrite Hn in *; cbv beta iota zeta.
  - destruct star; [now rewrite count_star|]. destruct args as [|e args]; [now rewrite foldE_constant|].
    destruct distinct; [discriminate Hd|]. unfold count_values.
    apply (accumulated count_related); [|reflexivity|now intros ? a ->].
    intros n a row ->. value_of v. unfold feed_count. now destruct (is_nil v).
  - destruct args as [|e args]; [now rewrite foldE_constant|]. unfold sum_values.
    apply (accumulated sum_related); [|reflexivity|now intros ? a ->].
    intros s a row Hs. value_of v. now apply sum_simulated.
  - destruct args as [|e args]; [now rewrite foldE_constant|]. unfold float_sum.
    transitivity (s ← foldE (fun '(s, n) row => v ← row_value env e row;
        Ok (if is_nil v then (s, n) else (fadd s (toFloat v), (n + 1)%Z))) rows (zero_float, 0%Z); Ok (average s));
      [now destruct (foldE _ _ _)|].
    apply (accumulated avg_related); [|now repeat split|].
    + intros s a row (-> & Hp & Hh). value_of v. unfold feed_avg, avg_related.
      destruct (is_nil v); [auto|]. cbn. repeat split; [lia|]. symmetry. apply Z.ltb_lt. lia.
    + intros s a (-> & Hp & ->). unfold average.
      destruct (Z.eqb_spec (acc_count a) 0) as [->|E]; [reflexivity|]. now rewrite (proj2 (Z.ltb_lt 0 _)) by lia.
  - destruct args as [|e args]; [now rewrite foldE_constant|]. unfold extreme_of.
    transitivity (m ← foldE (fun m row => v ← row_value env e row; Ok (better Lt m v)) rows VNil; Ok (id m));
      [now destruct (foldE _ _ _)|].
    apply (accumulated extreme_related); [|reflexivity|now intros ? a ->].
    intros m a row ->. value_of v. reflexivity.
  - destruct args as [|e args]; [now rewrite foldE_constant|]. unfold extreme_of.
    transitivity (m ← foldE (fun m row => v ← row_value env e row; Ok (better Gt m v)) rows VNil; Ok (id m));
      [now destruct (foldE _ _ _)|].
    apply (accumulated extreme_related); [|reflexivity|now intros ? a ->].
    intros m a row ->. value_of v. reflexivity.
Qed.
End Accumulators.

(** ** The groups *)

Section Groups.
Context `{Builtins} (env : Env).
Variable columns groupBy : list Expr.

#[local] Abbreviation calls := (agg_calls columns).

(** What the accumulators of a group are after its rows. *)
Definition accumulates (rows : list Row) (st : groupAccumState) : Prop :=
  head rows = Some (firstRow st)
  /\ Forall2 (fun f a => foldE (feedAggAccum env f) rows new_accum = Ok a) calls (accums st).

Definition groups_agree (groups : gmap string (list Row)) (s : gmap string groupAccumState * list string) : Prop :=
  NoDup s.2 /\ (forall k, k ∈ s.2 <-> is_Some (groups !! k))
  /\ forall k, option_Forall2 accumulates (groups !! k) (s.1 !! k).

Definition never_panics (f : FunctionCall) (row : Row) : Prop := forall a, exists a', feedAggAccum env f a row = Ok a'.

Lemma feed_all_snoc (fs : list FunctionCall) (rows : list Row) (row : Row) (accs : list aggAccum) :
  Forall (fun f => never_panics f row) fs ->
  Forall2 (fun f a => foldE (feedAggAccum env f) rows new_accum = Ok a) fs accs ->
  exists accs', feed_all env fs accs row = Ok accs'
    /\ Forall2 (fun f a => foldE (feedAggAccum env f) (rows ++ [row]) new_accum = Ok a) fs accs'.
Proof.
  intros Hp Ha. revert Hp. induction Ha as [|f a fs accs Hf _ IH]; intros Hp; [now exists []|].
  inversion Hp as [|? ? Hf' Hp']; subst. destruct (Hf' a) as (a' & Ha'). destruct (IH Hp') as (accs' & E & Hs).
  exists (a' :: accs'). cbn [feed_all]. rewrite Ha'. unfold mbind, ev_bind. cbv beta iota. rewrite E.
  split; [reflexivity|]. constructor; [now apply (foldE_snoc _ _ _ _ a)|exact Hs].
Qed.

Lemma new_accums (fs : list FunctionCall) :
  Forall2 (fun f a => foldE (feedAggAccum env f) [] new_accum = Ok a) fs (map (fun _ => new_accum) fs).
Proof. induction fs; cbn; constructor; auto. Qed.

Lemma group_step (groups : gmap string (list Row)) (s : gmap string groupAccumState * list string) (row : Row)
    (key : string) :
  Forall (fun f => never_panics f row) calls -> buildGroupKey env groupBy row = Ok key ->
  groups_agree groups s ->
  exists s', accum_row env calls groupBy s row = Ok s' /\ groups_agree (add_to_group groups key row) s'.
Proof.
  intros Hp Hk (Hn & Hd & Hg). destruct s as [states order]. unfold accum_row. rewrite Hk.
  unfold mbind, ev_bind. cbv beta iota. cbn [fst snd] in *. pose proof (Hg key) as Hkey. pose proof (Hd key) as Hin.
  unfold add_to_group. destruct (groups !! key) as [rows|] eqn:Eg, (states !! key) as [st|] eqn:Es;
    inversion Hkey as [? ? [Hh Ha]|]; subst.
  - destruct (feed_all_snoc calls rows row (accums st) Hp Ha) as (accs' & -> & Ha').
    eexists. split; [reflexivity|]. split; [exact Hn|]. split; cbn [fst snd].
    + intros k. rewrite Hd. destruct (decide (k = key)) as [->|Ek];
        [rewrite lookup_insert_eq, Eg; split; eauto|now rewrite lookup_insert_ne by congruence].
    + intros k. destruct (decide (k = key)) as [->|Ek];
        [rewrite !lookup_insert_eq|now rewrite !lookup_insert_ne by congruence].
      constructor. split; [|exact Ha']. cbn [firstRow default]. destruct rows; [discriminate Hh|exact Hh].
  - destruct (feed_all_snoc calls [] row _ Hp (new_accums calls)) as (accs' & E & Ha').
    cbn [accums firstRow]. rewrite E.
    eexists. split; [reflexivity|]. split; cbn [fst snd].
    + apply NoDup_app. split; [exact Hn|]. split; [|apply NoDup_singleton].
      intros k Hk1 ->%list_elem_of_singleton. apply Hin in Hk1. now destruct Hk1.
    + split.
      * intros k. rewrite elem_of_app, list_elem_of_singleton, Hd. destruct (decide (k = key)) as [->|Ek].
        -- rewrite lookup_insert_eq. split; eauto.
        -- rewrite lookup_insert_ne by congruence. naive_solver.
      * intros k. destruct (decide (k = key)) as [->|Ek];
          [rewrite !lookup_insert_eq|now rewrite !lookup_insert_ne by congruence].
        constructor. split; [reflexivity|exact Ha'].
Qed.

Lemma groups_simulated (rows : list Row) (groups : gmap string (list Row)) s0 groups' :
  Forall (fun row => Forall (fun f => never_panics f row) calls) rows ->
  foldE (fun groups row => key ← buildGroupKey env groupBy row; Ok (add_to_group groups key row)) rows groups = Ok groups' ->
  groups_agree groups s0 ->
  exists s, foldE (accum_row env calls groupBy) rows s0 = Ok s /\ groups_agree groups' s.
Proof.
  revert groups s0. induction rows as [|row rows IH]; intros groups s0 Hp Hf Hg.
  - injection Hf as <-. now exists s0.
  - inversion Hp as [|? ? Hr Hp']; subst. rewrite foldE_cons in Hf.
    apply bind_ok in Hf as (? & (key & Ek & [= <-])%bind_ok & Hf).
    destruct (group_step groups s0 row key Hr Ek Hg) as (s1 & E & Hg1). rewrite foldE_cons, E.
    exact (IH _ s1 Hp' Hf Hg1).
Qed.

Lemma no_groups : groups_agree ∅ (∅, []).
Proof.
  split; [constructor|]. split; intros k; cbn [fst snd].
  - rewrite lookup_empty. split; [easy|now intros [? ?]].
  - rewrite !lookup_empty. constructor.
Qed.

(** ** The columns of a group *)

Definition accumulable : Prop :=
  canUseGroupAccum columns None = true /\ Forall (fun f => exact_call f = true) calls.

Lemma columns_agree (rows : list Row) (first : Row) (accs : list aggAccum) (values : list val) :
  head rows = Some first -> accumulable ->
  Forall2 (fun f a => foldE (feedAggAccum env f) rows new_accum = Ok a) calls accs ->
  mapE (fun e => group_column env e rows) columns = Ok values ->
  accum_columns env columns first accs = Ok values.
Proof.
  intros Hh [Hc Hx]. revert Hc Hx accs values. unfold canUseGroupAccum.
  induction columns as [|e cs IH]; intros Hc Hx accs values Ha Hv; [now injection Hv as <-|].
  cbn [forallb] in Hc. apply andb_prop in Hc as [He Hc]. cbn [mapE] in Hv.
  apply bind_ok in Hv as (v & Hv & (vs & Hvs & [= <-])%bind_ok). cbn [accum_columns]. unfold agg_calls in *. cbn [omap list_omap] in *.
  unfold group_column in Hv. destruct (isAggregate e) eqn:Eagg.
  - cbn [negb orb] in He. destruct (accum_call e) as [f|] eqn:Ef; [|discriminate He].
    inversion Hx as [|? ? Hf Hx']; subst. inversion Ha as [|? a ? accs' Hfold Ha']; subst.
    rewrite (IH Hc Hx' accs' vs Ha' Hvs). unfold mbind, ev_bind. cbv beta iota. do 2 f_equal.
    assert (aggregate env f rows = Ok v).
    { unfold accum_call in Ef. destruct e as [| | | |[name args d star]| | | | | | | | | | | | | |]; try discriminate Ef.
      destruct (name_in (ToUpper name) accumulator_names) eqn:En; [|discriminate Ef]. injection Ef as <-.
      unfold evalAggregateExpr in Hv. cbn [evalExprWithAggregates call_with_aggregates] in Hv.
      assert (Hagg : isAggregateCallName name = true).
      { unfold isAggregateCallName, aggregate_names, accumulator_names, name_in in *. cbn [existsb] in *.
        repeat (apply orb_prop in En as [En|En]; [rewrite En; now rewrite ?orb_true_r|]). discriminate En. }
      now rewrite Hagg in Hv. }
    rewrite (accumulator_exact env f rows Hf), Hfold in H1. now injection H1.
  - unfold row_value, ignore_error. rewrite Hh in Hv. change (default ∅ (Some first)) with first in Hv. rewrite Hv. unfold mbind, ev_bind. cbv beta iota.
    now rewrite (IH Hc Hx accs vs Ha Hvs).
Qed.

Lemma slow_groups_none (groups : list (list Row)) :
  slow_groups env columns None groups = mapE (fun rows => mapE (fun e => group_column env e rows) columns) groups.
Proof.
  induction groups as [|rows groups IH]; [reflexivity|]. cbn [slow_groups having_holds]. 
  unfold mbind at 1, ev_bind at 1. cbv beta iota. now rewrite IH.
Qed.

Lemma keys_permutation (groups : gmap string (list Row)) (s : gmap string groupAccumState * list string) :
  groups_agree groups s -> map snd (map_to_list groups) ≡ₚ omap (fun k => groups !! k) s.2.
Proof.
  intros (Hn & Hd & _).
  assert (Hp : map fst (map_to_list groups) ≡ₚ s.2).
  { apply NoDup_Permutation; [apply NoDup_fst_map_to_list|exact Hn|]. intros k. rewrite Hd, list_elem_of_fmap. split.
    - intros ([k' v] & -> & Hv%elem_of_map_to_list). eauto.
    - intros [v Hv]. exists (k, v). split; [reflexivity|now apply elem_of_map_to_list]. }
  rewrite <- Hp.
  assert (Hl : forall l, Forall (fun kv => groups !! kv.1 = Some kv.2) l ->
    map snd l = omap (fun k => groups !! k) (map fst l)).
  { induction 1 as [|[k v] l Hk _ IH]; [reflexivity|]. cbn in *. now rewrite Hk, IH. }
  rewrite Hl; [reflexivity|]. apply Forall_forall. intros [k v] Hv. now apply elem_of_map_to_list.
Qed.

Lemma group_by_agree (rows : list Row) (out : list (list val)) :
  accumulable -> Forall (fun row => Forall (fun f => never_panics f row) calls) rows ->
  group_by_slow env columns groupBy None rows = Ok out ->
  exists out', group_by_accum env columns groupBy rows = Ok out' /\ out' ≡ₚ out.
Proof.
  intros Hc Hp Hs. unfold group_by_slow in Hs. apply bind_ok in Hs as (groups & Hg & Hs).
  rewrite slow_groups_none in Hs.
  destruct (groups_simulated rows ∅ (∅, []) groups Hp Hg no_groups) as (s & Hs' & Hagree).
  destruct (mapE_permutation _ _ _ _ (keys_permutation _ _ Hagree) Hs) as (out' & Ho & Hperm).
  exists out'. split; [|exact Hperm]. unfold group_by_accum. rewrite Hs'. unfold mbind, ev_bind. cbv beta iota.
  destruct Hagree as (_ & Hd & Hgr). revert out' Ho Hperm Hd. generalize s.2. clear Hs Hs'.
  intros order out' Ho _ Hd.
  assert (Hsome : Forall (fun k => is_Some (groups !! k)) order)
    by (apply Forall_forall; intros k Hk; now apply Hd). clear Hd.
  revert out' Ho. induction Hsome as [|k order [rs Hk] _ IH]; intros out' Ho.
  - now injection Ho as <-.
  - cbn [omap list_omap] in Ho. rewrite Hk in Ho. cbn [mapE] in Ho.
    apply bind_ok in Ho as (v & Hv & (vs & Hvs & [= <-])%bind_ok).
    pose proof (Hgr k) as Hk'. rewrite Hk in Hk'.
    destruct (s.1 !! k) as [st|] eqn:Es; inversion Hk' as [? ? [Hh Ha]|]; subst. cbn [mapE]. rewrite Es.
    rewrite (columns_agree rs (firstRow st) (accums st) v) by assumption.
    unfold mbind, ev_bind. cbv beta iota. now rewrite (IH vs Hvs).
Qed.
End Groups.

(** ** Properties *)

Section Properties.
Context `{Builtins} (env : Env).

(** Arguments without remainders and shifts give a value. *)
Lemma safe_row_value (BR : builtins_return) (e : Expr) (row : Row) :
  safe_expr e = true -> exists v, row_value env e row = Ok v.
Proof.
  intros Hs. pose proof (eval_fine env BR false e (Some row) Hs) as Hf. unfold row_value, ignore_error.
  destruct (evalExpr env e (Some row)); [eauto..|]. now destruct Hf.
Qed.

Lemma safe_feed (BR : builtins_return) (f : FunctionCall) (row : Row) :
  safe_expr (FunctionCallExpr f) = true -> never_panics env f row.
Proof.
  destruct f as [name args d s]. intros Hs a. unfold feedAggAccum. cbv zeta.
  assert (Hw : forall k : val -> aggAccum,
    exists a', match args with [] => Ok a | e :: _ => v ← row_value env e row; Ok (k v) end = Ok a').
  { intros k. destruct args as [|e args]; [eauto|]. cbn in Hs. apply andb_prop in Hs as [He _].
    destruct (safe_row_value BR e row He) as (v & ->). cbn. eauto. }
  repeat first [ solve [eauto] | apply Hw | match goal with
    | |- exists _, (match ?x with _ => _ end) = _ =>
        let rec go t := match t with match ?y with _ => _ end => go y | ?y => destruct y end in go x
    end ].
Qed.

Definition safe_columns (columns : list Expr) : Prop := Forall (fun e => safe_expr e = true) columns.

Lemma agg_calls_safe (columns : list Expr) :
  safe_columns columns -> Forall (fun f => safe_expr (FunctionCallExpr f) = true) (agg_calls columns).
Proof.
  induction 1 as [|e cs He _ IH]; [constructor|]. unfold agg_calls in *. cbn [omap list_omap].
  destruct (isAggregate e); [|exact IH]. destruct (accum_call e) as [f|] eqn:Ef; [|exact IH].
  constructor; [|exact IH]. unfold accum_call in Ef.
  destruct e as [| | | |[name args d s]| | | | | | | | | | | | | |]; try discriminate Ef.
  destruct (name_in _ _); [|discriminate Ef]. now injection Ef as <-.
Qed.

(** C7: GROUP BY computed with one accumulator per aggregate and group gives the rows that GROUP BY over
    the collected rows of each group gives, in another order: whenever the columns can be accumulated
    (COUNT(DISTINCT x) is not among them) and their arguments do not panic, and the reference form gives
    a result, so does the accumulator form, and the two are permutations of each other. *)
Theorem group_by_equivalence (BR : builtins_return) (columns groupBy : list Expr) (rows : list Row)
    (out : list (list val)) :
  accumulable columns -> safe_columns columns ->
  group_by_slow env columns groupBy None rows = Ok out ->
  exists out', group_by_accum env columns groupBy rows = Ok out' /\ out' ≡ₚ out.
Proof.
  intros Hc Hs. apply group_by_agree; [exact Hc|]. apply Forall_forall. intros row _.
  eapply Forall_impl; [apply agg_calls_safe, Hs|]. intros f Hf. now apply safe_feed.
Qed.
End Properties.

Section Witnesses.
#[local] Existing Instance no_foreign.
#[local] Existing Instance no_builtins.

Definition agg (name arg : string) : Expr := FunctionCallExpr (mkFunctionCall name [col arg] false false).
Definition team (t : string) (n : val) : Row := {[ "team" := Text t; "points" := n ]}.
Definition teams : list Row := [team "b" (Int 3); team "a" (Int 5); team "b" VNil; team "a" (Int 2)].
Definition team_columns : list Expr := [col "team"; agg "SUM" "points"; agg "MAX" "points"; agg "COUNT" "points"].

Lemma group_by_equivalence_witness :
  exists out', group_by_accum no_env team_columns [col "team"] teams = Ok out'
    /\ out' ≡ₚ [[Text "a"; Int 7; Int 5; Int 2]; [Text "b"; Int 3; Int 3; Int 1]].
Proof.
  apply (group_by_equivalence no_env no_builtins_return team_columns).
  - split; [reflexivity|]. repeat constructor.
  - repeat constructor.
  - vm_compute. reflexivity.
Defined.

(** COUNT(DISTINCT x) counts 1 and '1' as two values when the rows are collected (HAVING is present) and
    as one when they are accumulated. *)
Definition count_distinct_x : Expr := FunctionCallExpr (mkFunctionCall "COUNT" [col "x"] true false).
Definition mixed : list Row := [{[ "x" := Int 1 ]}; {[ "x" := Text "1" ]}].

Theorem count_distinct_differs :
  group_by_slow no_env [count_distinct_x] [] None mixed = Ok [[Int 2]]
  /\ group_by_accum no_env [count_distinct_x] [] mixed = Ok [[Int 1]].
Proof. vm_compute. auto. Qed.

(** Two groups become one when a bar in a text makes their keys equal. *)
Definition bars : list Row := [{[ "x" := Text "a|b"; "y" := Text "c" ]}; {[ "x" := Text "a"; "y" := Text "b|c" ]}].

Theorem group_keys_collide :
  group_by_slow no_env [FunctionCallExpr (mkFunctionCall "COUNT" [] false true)] [col "x"; col "y"] None bars
  = Ok [[Int 2]].
Proof. vm_compute. reflexivity. Qed.

(** COUNT(DISTINCT x) over blobs panics: the values are the keys of a map. *)
Theorem count_distinct_blobs_panics :
  count_distinct no_env (col "x") [{[ "x" := VBytes [Byte.x01] ]}] = Crash "hash of unhashable type []uint8".
Proof. vm_compute. reflexivity. Qed.

(** AVG(DISTINCT x) averages every value. *)
Theorem avg_ignores_distinct :
  aggregate no_env (mkFunctionCall "AVG" [col "x"] true false)
    [{[ "x" := Int 1 ]}; {[ "x" := Int 1 ]}; {[ "x" := Int 4 ]}] = Ok (Real (of_int 2)).
Proof. vm_compute. reflexivity. Qed.
End Witnesses.
