(* ===== verification/JoinFacts.v ===== *)
(** * Joins: the hash join is the nested loop

    For an equality of two qualified columns that hold small integers, or texts that are not numbers,
    the rows of the hash join are those of the nested loop, in the same order. *)
From Stdlib Require Import NArith ZArith Lia Bool Ascii String List Floats.SpecFloat.
From stdpp Require Import base option list gmap strings.
From S2P Require Import Prelude Token Ast Bytes RowCodec Float Values Schema ExecValue Arrays ExprTypes.
From S2P Require Import Operators Eval Joins OperatorFacts ArrayFacts EvalFacts AggregateFacts.

#[local] Open Scope string_scope.
#[local] Set Warnings "-clear-no-such-hyp".

(** ** Qualified names *)

Lemma qualify_qualified (a k : string) : is_qualified (qualify a k) = true.
Proof.
  unfold is_qualified, has_byte, qualify. rewrite string_forallb_app, negb_true_iff. cbn.
  now rewrite andb_false_r.
Qed.

Lemma qualify_inj (a a' k k' : string) :
  is_qualified a = false -> is_qualified a' = false -> qualify a k = qualify a' k' -> a = a' /\ k = k'.
Proof.
  unfold is_qualified, has_byte, qualify. rewrite !negb_false_iff. intros Ha Ha' E.
  now apply (break_at (fun c => negb (c =b ".")) "." a a' k k').

Qed.

Lemma unqualified_ne (a k k' : string) : is_qualified k = false -> k <> qualify a k'.
Proof. intros Hk ->. now rewrite qualify_qualified in Hk. Qed.

Lemma none_union {A} (o : option A) : None ∪ o = o.
Proof. now destruct o. Qed.

Lemma some_union {A} (a : A) (o : option A) : Some a ∪ o = Some a.
Proof. now destruct o. Qed.

Lemma union_none {A} (o : option A) : o ∪ None = o.
Proof. now destruct o. Qed.

Section Merge.
Context `{Foreign}.

Definition unqualified (row : Row) : Prop := map_Forall (fun k _ => is_qualified k = false) row.
Definition plain_alias (a : string) : Prop := a <> EmptyString /\ is_qualified a = false.

Lemma merge_left_step (la : string) (m : Row) (k c : string) (v : val) :
  plain_alias la -> is_qualified k = false ->
  merge_left la m (k, v) !! qualify la c = if decide (k = c) then Some v else m !! qualify la c.
Proof.
  intros [Hn%String.eqb_neq Hq] Hk. unfold merge_left. cbn [fst snd]. rewrite Hn, Hk. cbn [negb andb].
  destruct (decide (k = c)) as [->|E]; [now rewrite lookup_insert_eq|].
  rewrite !lookup_insert_ne; [reflexivity|now apply unqualified_ne|].
  intros E'. apply qualify_inj in E' as [_ ?]; auto.
Qed.

Lemma merge_right_step (ra : string) (m : Row) (k c : string) (v : val) :
  plain_alias ra -> is_qualified k = false ->
  merge_right ra m (k, v) !! qualify ra c = if decide (k = c) then Some v else m !! qualify ra c.
Proof.
  intros [Hn%String.eqb_neq Hq] Hk. unfold merge_right. cbn [fst snd]. rewrite Hn, Hk. cbn [negb andb].
  destruct (decide (k = c)) as [->|E]; [now rewrite lookup_insert_eq|].
  rewrite lookup_insert_ne by (intros E'; apply qualify_inj in E' as [_ ?]; auto).
  destruct (m !! k); [reflexivity|]. now rewrite lookup_insert_ne by now apply unqualified_ne.
Qed.

(** The fold of a step that puts the columns of a row under their qualified names. *)
Lemma merge_fold (a : string) (step : Row -> string * val -> Row) (l : list (string * val)) (m : Row) (c : string) :
  (forall m k v, is_qualified k = false ->
     step m (k, v) !! qualify a c = if decide (k = c) then Some v else m !! qualify a c) ->
  Forall (fun kv => is_qualified kv.1 = false) l -> NoDup (map fst l) ->
  fold_left step l m !! qualify a c = (list_to_map l : Row) !! c ∪ m !! qualify a c.
Proof.
  intros Hs. revert m. induction l as [|[k v] l IH]; intros m Hq Hn; cbn [fold_left list_to_map].
  - now destruct (m !! qualify a c).
  - inversion Hq; inversion Hn as [|? ? Hk Hn']; subst. rewrite IH, Hs by assumption.
    cbn. destruct (decide (k = c)) as [->|E].
    + rewrite lookup_insert_eq, (not_elem_of_list_to_map_1 (M := gmap string)) by exact Hk. now match goal with |- _ = _ ∪ ?o => destruct o end.
    + now rewrite lookup_insert_ne.
Qed.

Lemma merge_fold_other (a : string) (step : Row -> string * val -> Row) (l : list (string * val)) (m : Row) (q : string) :
  (forall m k v, is_qualified k = false -> step m (k, v) !! q = m !! q) ->
  Forall (fun kv => is_qualified kv.1 = false) l -> fold_left step l m !! q = m !! q.
Proof.
  intros Hs. revert m. induction l as [|[k v] l IH]; intros m Hq; [reflexivity|]. inversion Hq; subst.
  cbn [fold_left]. rewrite IH by assumption. now apply Hs.
Qed.

Lemma unqualified_list (row : Row) : unqualified row -> Forall (fun kv => is_qualified kv.1 = false) (map_to_list row).
Proof. intros Hr. apply map_Forall_to_list in Hr. eapply Forall_impl; [exact Hr|]. now intros [k v]. Qed.

Lemma merge_left_other (la ra : string) (m : Row) (k c : string) (v : val) :
  plain_alias la -> plain_alias ra -> la <> ra -> is_qualified k = false ->
  merge_left la m (k, v) !! qualify ra c = m !! qualify ra c.
Proof.
  intros [Hn Hq] [_ Hq'] Hne Hk. unfold merge_left. cbn [fst snd].
  destruct (_ && _); rewrite ?lookup_insert_ne; try reflexivity; try now apply unqualified_ne.
  intros E. apply qualify_inj in E as [? _]; auto.
Qed.

Lemma merge_right_other (la ra : string) (m : Row) (k c : string) (v : val) :
  plain_alias la -> plain_alias ra -> la <> ra -> is_qualified k = false ->
  merge_right ra m (k, v) !! qualify la c = m !! qualify la c.
Proof.
  intros [_ Hq] [Hn%String.eqb_neq Hq'] Hne Hk. unfold merge_right. cbn [fst snd]. rewrite Hk, Hn. cbn [negb].
  rewrite lookup_insert_ne by (intros E; apply qualify_inj in E as [? _]; auto).
  destruct (m !! k); [reflexivity|]. now rewrite lookup_insert_ne by now apply unqualified_ne.
Qed.

(** The merged row has the columns of both rows under their qualified names. *)
Lemma merged_columns (left right : Row) (la ra c : string) :
  unqualified left -> unqualified right -> plain_alias la -> plain_alias ra -> la <> ra ->
  mergeRows left right la ra !! qualify la c = left !! c
  /\ mergeRows left right la ra !! qualify ra c = right !! c.
Proof.
  intros Hl%unqualified_list Hr%unqualified_list La Ra Hne. unfold mergeRows. split.
  - rewrite (merge_fold_other ra) by (try assumption; intros; now apply merge_right_other).
    rewrite (merge_fold la) by (try assumption; try apply NoDup_fst_map_to_list; intros; now apply merge_left_step).
    rewrite list_to_map_to_list, lookup_empty. apply union_none.
  - rewrite (merge_fold ra) by (try assumption; try apply NoDup_fst_map_to_list; intros; now apply merge_right_step).
    rewrite (merge_fold_other la) by (try assumption; intros; now apply merge_left_other).
    rewrite list_to_map_to_list, lookup_empty. apply union_none.
Qed.
End Merge.

(** ** Keys *)

Section Keys.
Context `{Foreign}.

Definition small_int (v : val) : Prop := exists z, v = Int z /\ (Z.abs z < 2 ^ 53)%Z.
Definition plain_text (v : val) : Prop := exists s, v = Text s /\ ParseFloat binary64 s = None.

(** Columns whose values are all small integers, or all texts that are not numbers. *)
Definition joinable (leftRows rightRows : list Row) (lc rc : string) : Prop :=
  exists kind, (kind = small_int \/ kind = plain_text)
    /\ Forall (fun row => exists v, row !! lc = Some v /\ kind v) leftRows
    /\ Forall (fun row => exists v, row !! rc = Some v /\ kind v) rightRows.

Lemma itoaZ_inj (a b : Z) :
  (- 2 ^ 63 <= a < 2 ^ 63)%Z -> (- 2 ^ 63 <= b < 2 ^ 63)%Z -> itoaZ a = itoaZ b -> a = b.
Proof. intros Ha Hb E. pose proof (ParseInt_itoaZ a Ha) as P. rewrite E, ParseInt_itoaZ in P by exact Hb. congruence. Qed.

Lemma compare_refl (s : string) : String.compare s s = Eq.
Proof.
  induction s as [|c s IH]; [reflexivity|]. cbn. unfold Ascii.compare. now rewrite N.compare_refl.
Qed.

(** Values of one kind are equal for the comparison when their texts are. *)
Lemma kind_compare (kind : val -> Prop) (v w : val) :
  kind = small_int \/ kind = plain_text -> kind v -> kind w ->
  compare_value TokenEq v w = Bool (sprint v =s sprint w).
Proof.
  intros [-> | ->].
  - intros (a & -> & Ha) (b & -> & Hb). unfold compare_value. cbn [is_nil orb].
    change (compare (Int a) (Int b)) with (compare_float (of_int a) (of_int b)). rewrite of_int_compare by assumption.
    change (sprint (Int a)) with (itoaZ a). change (sprint (Int b)) with (itoaZ b).
    destruct (Z.compare_spec a b) as [->|E|E]; cbn [holds]; [now rewrite String.eqb_refl|..];
      destruct (String.eqb_spec (itoaZ a) (itoaZ b)) as [Ei|]; try reflexivity;
      apply itoaZ_inj in Ei; lia.
  - intros (a & -> & Ha) (b & -> & Hb). unfold compare_value, compare. cbn [is_nil orb toNumeric Text].
    rewrite Ha.
    change (toString (Text a)) with a. change (toString (Text b)) with b.
    change (sprint (Text a)) with a. change (sprint (Text b)) with b. unfold compare_text. destruct (String.compare a b) eqn:E; cbn [holds].
    + apply String.compare_eq_iff in E as ->. now rewrite String.eqb_refl.
    + destruct (String.eqb_spec a b) as [->|]; [|reflexivity]. now rewrite compare_refl in E.
    + destruct (String.eqb_spec a b) as [->|]; [|reflexivity]. now rewrite compare_refl in E.
Qed.

Lemma join_key (row : Row) (c : string) (v : val) : row !! c = Some v -> joinKeyString row c = sprint v.
Proof. unfold joinKeyString. now intros ->. Qed.

(** The table holds, for each key, the rows of the right with it, in order. *)
Lemma hash_table_lookup (rightKey : string) (rightRows : list Row) (k : string) :
  default [] (hash_table rightKey rightRows !! k)
  = base.filter (fun row => joinKeyString row rightKey = k) rightRows.
Proof.
  unfold hash_table.
  assert (Hg : forall t : gmap string (list Row), default [] (fold_left (fun t right =>
      let k := joinKeyString right rightKey in <[k := (default [] (t !! k) ++ [right])%list]> t) rightRows t !! k)
    = (default [] (t !! k) ++ base.filter (fun row => joinKeyString row rightKey = k) rightRows)%list).
  { induction rightRows as [|r rs IH]; intros t; cbn [fold_left]; [cbn; now rewrite app_nil_r|].
    rewrite IH. cbv zeta. rewrite filter_cons. destruct (decide (joinKeyString r rightKey = k)) as [->|E].
    - rewrite lookup_insert_eq. cbn. now rewrite <- app_assoc.
    - now rewrite lookup_insert_ne. }
  rewrite Hg. now rewrite lookup_empty.
Qed.
End Keys.

(** ** The condition on a merged row *)

Section HashJoin.
Context `{Builtins} (env : Env).
Variables la ra lc rc : string.

(** [la.lc = ra.rc] *)
Definition equality : Expr := BinaryExpr (ColumnRef la lc) TokenEq (ColumnRef ra rc).

(** A column of an ordinary type: not jsonb, not an array, not NUMERIC. *)
Definition ordinary (t c : string) : Prop :=
  plain env (ColumnRef t c) /\ forall ty, resolve env t c = Some ty -> EqualFold (TrimSpace ty) "JSONB" = false.

Hypothesis no_outer : outerRow env = None.
Hypothesis La : plain_alias la.
Hypothesis Ra : plain_alias ra.
Hypothesis Hne : la <> ra.
Hypothesis Ol : ordinary la lc.
Hypothesis Or : ordinary ra rc.

Lemma eval_qualified (t c : string) (row : Row) (v : val) :
  plain_alias t -> ordinary t c -> row !! qualify t c = Some v ->
  evalExpr env (ColumnRef t c) (Some row) = Ok v.
Proof.
  intros [Hn%String.eqb_neq _] [_ Hj] Hv. cbn [evalExpr]. unfold evalColumnRef. rewrite Hn. cbn [andb].
  unfold find_column. rewrite Hn, no_outer. change (t ++ "." ++ c)%string with (qualify t c).
  assert (Hr : rowColumnValue row (qualify t c) = Some v) by (unfold rowColumnValue; now rewrite Hv).
  rewrite Hr.
  rewrite none_union, !some_union.
  unfold canonicalizeJSONBColumnValue. destruct (is_nil v); [reflexivity|].
  destruct (resolve env t c) as [ty|] eqn:E; [|reflexivity]. unfold canonicalizeJSONBReadValue.
  rewrite (Hj ty eq_refl). now rewrite orb_true_r.
Qed.

Lemma equality_on_merged (left right : Row) (v w : val) (kind : val -> Prop) :
  kind = small_int \/ kind = plain_text -> unqualified left -> unqualified right ->
  left !! lc = Some v -> right !! rc = Some w -> kind v -> kind w ->
  joinMatches env left right (mergeRows left right la ra) (Some equality) [] = Ok (sprint v =s sprint w).
Proof.
  intros Hk Ul Ur Hv Hw Kv Kw. unfold joinMatches, equality.
  destruct (merged_columns left right la ra lc Ul Ur La Ra Hne) as [Ml _].
  destruct (merged_columns left right la ra rc Ul Ur La Ra Hne) as [_ Mr].
  assert (E : evalExpr env (BinaryExpr (ColumnRef la lc) TokenEq (ColumnRef ra rc)) (Some (mergeRows left right la ra))
    = (a ← evalExpr env (ColumnRef la lc) (Some (mergeRows left right la ra));
       b ← evalExpr env (ColumnRef ra rc) (Some (mergeRows left right la ra));
       binary_values env TokenEq (ColumnRef la lc) (ColumnRef ra rc) a b)) by reflexivity.
  rewrite E, (eval_qualified la lc _ v La Ol), (eval_qualified ra rc _ w Ra Or) by congruence.
  unfold mbind, ev_bind. cbv beta iota. rewrite plain_comparison by (reflexivity || apply Ol || apply Or).
  rewrite (kind_compare kind) by assumption. reflexivity.
Qed.

Variables leftRows rightRows : list Row.
Hypothesis Ul : Forall unqualified leftRows.
Hypothesis Ur : Forall unqualified rightRows.
Hypothesis HJ : joinable leftRows rightRows lc rc.

Lemma nested_pairs_hash (left : Row) :
  In left leftRows ->
  nested_pairs env (Some equality) [] la ra rightRows left
  = Ok (hash_pairs (hash_table rc rightRows) lc la ra left).
Proof.
  intros Hin. unfold hash_pairs. rewrite hash_table_lookup. destruct HJ as (kind & Hk & Hl & Hr).
  rewrite List.Forall_forall in Hl. destruct (Hl left Hin) as (v & Hv & Kv).
  rewrite List.Forall_forall in Ul. specialize (Ul left Hin). rewrite (join_key left lc v Hv).
  unfold nested_pairs. clear HJ Hl Hin.
  match goal with |- foldE ?f rightRows [] = _ => 
    assert (Hg : forall acc, foldE f rightRows acc = Ok (acc ++ map (fun right => mergeRows left right la ra)
      (base.filter (fun row => joinKeyString row rc = sprint v) rightRows))%list); [|exact (Hg [])] end.
  revert Ur Hr. induction rightRows as [|r rs IH]; intros Hur Hr acc; [cbn; now rewrite app_nil_r|].
  inversion Hur as [|? ? U1 U2]; inversion Hr as [|? ? (w & Hw & Kw) Hr']; subst.
  rewrite foldE_cons. cbv zeta. rewrite (equality_on_merged left r v w kind) by assumption.
  unfold mbind, ev_bind in *. cbv beta iota. rewrite IH by assumption. rewrite filter_cons.
  pose proof (join_key r rc w Hw) as Er.
  destruct (decide (joinKeyString r rc = sprint v)) as [Ew|Ew]; rewrite Er in Ew.
  - rewrite Ew, String.eqb_refl. cbn [map]. now rewrite <- app_assoc.
  - destruct (String.eqb_spec (sprint v) (sprint w)); [congruence|reflexivity].
Qed.

Lemma nested_is_hash (keep : bool) (nullRight : Row) :
  nested_join env keep (Some equality) [] la ra leftRows rightRows nullRight
  = Ok (hash_join keep (lc, rc) la ra leftRows rightRows nullRight).
Proof.
  unfold nested_join, hash_join. cbn [fst snd].
  assert (E : forall l, (forall x, In x l -> In x leftRows) ->
    mapE (fun left => or_null keep la ra nullRight left <$> nested_pairs env (Some equality) [] la ra rightRows left) l
    = Ok (map (fun left => or_null keep la ra nullRight left (hash_pairs (hash_table rc rightRows) lc la ra left)) l)).
  { induction l as [|x l IH]; intros Hin; [reflexivity|]. cbn [mapE map].
    rewrite nested_pairs_hash by (apply Hin; now left). unfold fmap, ev_fmap, mbind, ev_bind in *. cbv beta iota.
    rewrite IH; [reflexivity|]. intros y Hy. apply Hin. now right. }
  now rewrite (E leftRows).
Qed.
End HashJoin.

(** ** Probing a table by its primary key *)

Section Probe.
Context `{Builtins} `{!Relations}.
Variables (t : TableRef) (pk leftKey la ra : string) (rows : list Row).

#[local] Abbreviation key := (fun row : Row => joinKeyString row pk).

(** The keys of the table are distinct, and its rows are read by them. *)
Hypothesis unique : NoDup (map key rows).
Hypothesis present : Forall (fun row => key row <> str1 NUL) rows.
Hypothesis read : forall k, rel_get t k = Ok (find (fun row => key row =s k) rows).
(** Every row has the columns of the schema. *)
Hypothesis uniform : Forall (fun row : Row => (fun _ => VNil) <$> row
  = (list_to_map (map (fun c => (c, VNil)) (rel_columns t)) : Row)) rows.

Lemma find_filter (k : string) :
  base.filter (fun row => key row = k) rows
  = match find (fun row => key row =s k) rows with Some r => [r] | None => [] end.
Proof.
  clear read uniform present. revert unique. induction rows as [|r rs IH]; intros Hn; [reflexivity|].
  cbn in Hn. inversion Hn as [|? ? Hr Hn']; subst. rewrite filter_cons. cbn [find].
  destruct (decide (key r = k)) as [E|E].
  - rewrite (proj2 (String.eqb_eq _ _) E). f_equal. rewrite IH by exact Hn'.
    destruct (find _ rs) as [r'|] eqn:F; [|reflexivity]. apply find_some in F as [Hin Ek%String.eqb_eq].
    exfalso. apply Hr. rewrite E, <- Ek. apply list_elem_of_fmap. exists r'. split; [reflexivity|].
    now apply list_elem_of_In.
  - rewrite (proj2 (String.eqb_neq _ _) E). now apply IH.
Qed.

Lemma probe_filter (leftRows : list Row) (seen : list string) :
  exists probed, probe t leftKey seen leftRows = Ok probed
    /\ incl probed rows
    /\ forall k, base.filter (fun row => key row = k) probed
       = (if decide (k ∈ map (fun l => joinKeyString l leftKey) leftRows /\ k <> str1 NUL /\ k ∉ seen)
          then base.filter (fun row => key row = k) rows else []).
Proof.
  revert seen. induction leftRows as [|l rest IH]; intros seen.
  - exists []. split; [reflexivity|]. split; [easy|]. intros k. destruct (decide _) as [[Hk _]|]; [now apply not_elem_of_nil in Hk|reflexivity].
  - cbn [probe map]. cbv zeta. set (kl := joinKeyString l leftKey).
    destruct ((kl =s str1 NUL) || name_in kl seen) eqn:Eskip.
    + destruct (IH seen) as (probed & -> & Hi & Hf). exists probed. split; [reflexivity|]. split; [exact Hi|].
      intros k. rewrite Hf. apply decide_ext. rewrite elem_of_cons.
      assert (Hkl : kl = str1 NUL \/ kl ∈ seen).
      { apply orb_prop in Eskip as [E%String.eqb_eq|E]; [now left|right]. unfold name_in in E.
        apply existsb_exists in E as (x & Hx & ->%String.eqb_eq). now apply list_elem_of_In. }
      split; [tauto|]. intros ([->|Hk] & Hnul & Hseen); [destruct Hkl; easy|tauto].
    + apply orb_false_iff in Eskip as [En%String.eqb_neq Es].
      assert (Hns : kl ∉ seen).
      { intros Hin%list_elem_of_In. assert (name_in kl seen = true); [|congruence].
        unfold name_in. apply existsb_exists. exists kl. split; [exact Hin|apply String.eqb_refl]. }
      destruct (IH (kl :: seen)) as (probed & E & Hi & Hf). rewrite read, E. unfold mbind, ev_bind. cbv beta iota.
      assert (Hkl : base.filter (fun row => key row = kl) probed = []).
      { rewrite Hf. destruct (decide _) as [(_ & _ & Hno)|]; [|reflexivity]. destruct Hno. now left. }
      eexists. split; [reflexivity|]. split.
      * destruct (find _ rows) as [r|] eqn:F; [|exact Hi]. apply find_some in F as [Hr _]. now apply incl_cons.
      * intros k. destruct (decide (k = kl)) as [->|Ek].
        -- destruct (decide _) as [_|Hno]; [|exfalso; apply Hno; rewrite elem_of_cons; tauto].
           rewrite find_filter. destruct (find _ rows) as [r|] eqn:F; [|exact Hkl].
           apply find_some in F as [_ Er%String.eqb_eq]. rewrite filter_cons. destruct (decide _); [|easy]. now rewrite Hkl.
        -- transitivity (base.filter (fun row => key row = k) probed).
           ++ destruct (find _ rows) as [r|] eqn:F; [|reflexivity]. apply find_some in F as [_ Er%String.eqb_eq].
              rewrite filter_cons. destruct (decide _); [congruence|reflexivity].
           ++ rewrite Hf. apply decide_ext. rewrite !not_elem_of_cons, elem_of_cons. naive_solver.
Qed.

Lemma null_rows (probed : list Row) : incl probed rows ->
  makeNullRow probed (rel_columns t) = makeNullRow rows (rel_columns t).
Proof.
  intros Hi. assert (Hm : forall l, incl l rows -> makeNullRow l (rel_columns t)
    = (list_to_map (map (fun c => (c, VNil)) (rel_columns t)) : Row)).
  { intros [|r l] Hl; [reflexivity|]. cbn. rewrite List.Forall_forall in uniform. apply uniform, Hl. now left. }
  now rewrite !Hm by (exact Hi || easy).
Qed.

Lemma probed_matches (leftRows probed : list Row) (left : Row) :
  probe t leftKey [] leftRows = Ok probed -> In left leftRows ->
  hash_pairs (hash_table pk probed) leftKey la ra left = hash_pairs (hash_table pk rows) leftKey la ra left.
Proof.
  intros Hp Hin. unfold hash_pairs. rewrite !hash_table_lookup. f_equal.
  destruct (probe_filter leftRows []) as (probed' & E & _ & Hf). rewrite Hp in E. injection E as <-. rewrite Hf.
  destruct (decide _) as [_|Hno]; [reflexivity|]. symmetry.
  destruct (decide (joinKeyString left leftKey = str1 NUL)) as [Ek|Ek].
  - rewrite Ek. clear - present. revert present. induction rows as [|r rs IH]; [reflexivity|].
    inversion 1 as [|? ? Hr Hrs]; subst. rewrite filter_cons.
    destruct (decide _); [contradiction|exact (IH Hrs)].
  - exfalso. apply Hno. split; [|split; [exact Ek|apply not_elem_of_nil]].
    apply list_elem_of_fmap. exists left. split; [reflexivity|now apply list_elem_of_In].
Qed.

Lemma probed_join (leftRows probed : list Row) (keep : bool) :
  probe t leftKey [] leftRows = Ok probed ->
  hash_join keep (leftKey, pk) la ra leftRows probed (makeNullRow probed (rel_columns t))
  = hash_join keep (leftKey, pk) la ra leftRows rows (makeNullRow rows (rel_columns t)).
Proof.
  intros Hp. assert (Hi : incl probed rows).
  { destruct (probe_filter leftRows []) as (probed' & E & Hi & _).
    rewrite Hp in E. now injection E as ->. }
  rewrite (null_rows probed Hi). unfold hash_join. cbn [fst snd]. f_equal. apply map_ext_in. intros left Hin.
  now rewrite (probed_matches leftRows probed left Hp Hin).
Qed.
End Probe.

(** ** Properties *)

Section Properties.
Context `{Builtins} (env : Env).

(** C8: A join on [la.lc = ra.rc] gives the same rows in the same order by the hash table as by the
    nested loop over the condition, for every type of join: the keys are recognised, and the table pairs
    exactly the rows on whose merged row the condition is true, when the two columns hold small integers
    or texts that are not numbers, are of an ordinary type, and the rows have plain column names. *)
Theorem hash_join_exact (ty : JoinType) (la ra lc rc leftName rightName : string) (leftRows rightRows : list Row)
    (nullRight : Row) :
  outerRow env = None -> plain_alias la -> plain_alias ra -> la <> ra -> ordinary env la lc -> ordinary env ra rc ->
  Forall unqualified leftRows -> Forall unqualified rightRows -> joinable leftRows rightRows lc rc ->
  let condition := Some (equality la ra lc rc) in
  extractEqualityJoinKeys condition leftName la rightName ra = Some (lc, rc)
  /\ join_rows env ty condition [] (Some (lc, rc)) la ra leftRows rightRows nullRight
     = join_rows env ty condition [] None la ra leftRows rightRows nullRight.
Proof.
  intros No La Ra Hne Ol Or Ul Ur HJ condition. split.
  - assert (Kl : leftJoinKey leftName la rightName ra la lc = Some lc)
      by (unfold leftJoinKey; now rewrite String.eqb_refl, orb_true_r).
    assert (Kr : rightJoinKey rightName ra ra rc = Some rc)
      by (unfold rightJoinKey; now rewrite String.eqb_refl, orb_true_r).
    unfold extractEqualityJoinKeys, condition, equality. change (TokenEq =t TokenEq) with true. cbv beta iota zeta.
    rewrite Kl, Kr. apply some_union.
  - unfold join_rows, condition. destruct ty; try reflexivity; symmetry; now apply nested_is_hash.
Qed.

(** Joining a table by its primary key through reads of the keys that occur on the left gives the
    rows that joining all its rows gives, the row of NULLs of a left join included: each key is read once,
    keys without a row are skipped, left rows without the column have no match. *)
Theorem probed_join_exact `{!Relations} (t : TableRef) (pk leftKey la ra : string) (rows leftRows : list Row) (keep : bool) :
  NoDup (map (fun row => joinKeyString row pk) rows) ->
  Forall (fun row => joinKeyString row pk <> str1 NUL) rows ->
  (forall k, rel_get t k = Ok (find (fun row => joinKeyString row pk =s k) rows)) ->
  Forall (fun row : Row => (fun _ => VNil) <$> row
    = (list_to_map (map (fun c => (c, VNil)) (rel_columns t)) : Row)) rows ->
  exists probed, probe t leftKey [] leftRows = Ok probed
    /\ hash_join keep (leftKey, pk) la ra leftRows probed (makeNullRow probed (rel_columns t))
       = hash_join keep (leftKey, pk) la ra leftRows rows (makeNullRow rows (rel_columns t)).
Proof.
  intros Hn Hp Hr Hu. destruct (probe_filter t pk leftKey rows Hn Hr leftRows []) as (probed & E & _).
  exists probed. split; [exact E|]. now apply (probed_join t pk leftKey la ra rows Hn Hp Hr Hu).
Qed.
End Properties.

Section Witnesses.
#[local] Existing Instance no_foreign.
#[local] Existing Instance no_builtins.

Definition person (id : Z) (boss : Z) : Row := {[ "id" := Int id; "boss" := Int boss ]}.
Definition people : list Row := [person 1 2; person 2 2; person 3 1].

Lemma people_unqualified : Forall unqualified people.
Proof. repeat constructor; apply map_Forall_to_list; vm_compute; repeat constructor. Qed.

Lemma people_joinable : joinable people people "boss" "id".
Proof.
  exists small_int. split; [now left|].
  split; repeat constructor; (eexists; split; [vm_compute; reflexivity|]); (eexists; split; [reflexivity|lia]).
Qed.

Lemma ordinary_columns : ordinary no_env "e" "boss" /\ ordinary no_env "b" "id".
Proof. split; (split; [split; [|split]; vm_compute; reflexivity|vm_compute; congruence]). Qed.

Lemma hash_join_exact_witness :
  join_rows no_env JoinInner (Some (equality "e" "b" "boss" "id")) [] (Some ("boss", "id")) "e" "b" people people ∅
  = join_rows no_env JoinInner (Some (equality "e" "b" "boss" "id")) [] None "e" "b" people people ∅.
Proof.
  apply (hash_join_exact no_env JoinInner "e" "b" "boss" "id" "people" "people" people people ∅);
    try reflexivity; try (split; [discriminate|reflexivity]); try discriminate;
    try apply ordinary_columns; auto using people_unqualified, people_joinable.
Defined.

(** A table of the three rows, read by their ids. *)
Definition people_table : Relations := {|
  rel_rows _ := Ok people; rel_scan _ := Ok people; rel_columns _ := ["id"; "boss"]; rel_primary_key _ := Some "id";
  rel_get _ k := Ok (find (fun row => joinKeyString row "id" =s k) people) |}.
Definition any_table : TableRef := mkTableRef EmptyString "people" EmptyString None None None [].

Lemma probed_join_exact_witness :
  exists probed, @probe no_foreign people_table any_table "boss" [] people = Ok probed
    /\ hash_join true ("boss", "id") "e" "b" people probed (makeNullRow probed ["id"; "boss"])
       = hash_join true ("boss", "id") "e" "b" people people (makeNullRow people ["id"; "boss"]).
Proof.
  apply (@probed_join_exact no_foreign people_table any_table "id" "boss" "e" "b" people people true).
  - vm_compute. repeat constructor; set_solver.
  - repeat constructor; vm_compute; congruence.
  - reflexivity.
  - repeat constructor; vm_compute; reflexivity.
Defined.

(** The hash join matches NULL with NULL, which the condition does not, and not 1 with '1.0', which it does. *)
Definition one_row (c : string) (v : val) : list Row := [{[ c := v ]}].

Theorem hash_join_matches_nulls :
  join_rows no_env JoinInner (Some (equality "a" "b" "x" "y")) [] (Some ("x", "y")) "a" "b"
    (one_row "x" VNil) (one_row "y" VNil) ∅
  = Ok [mergeRows {[ "x" := VNil ]} {[ "y" := VNil ]} "a" "b"]
  /\ join_rows no_env JoinInner (Some (equality "a" "b" "x" "y")) [] None "a" "b"
    (one_row "x" VNil) (one_row "y" VNil) ∅ = Ok []
  /\ join_rows no_env JoinInner (Some (equality "a" "b" "x" "y")) [] (Some ("x", "y")) "a" "b"
    (one_row "x" (Int 1)) (one_row "y" (Text "1.0")) ∅ = Ok []
  /\ join_rows no_env JoinInner (Some (equality "a" "b" "x" "y")) [] None "a" "b"
    (one_row "x" (Int 1)) (one_row "y" (Text "1.0")) ∅
    = Ok [mergeRows {[ "x" := Int 1 ]} {[ "y" := Text "1.0" ]} "a" "b"].
Proof. vm_compute. auto. Qed.

(** RIGHT and FULL joins, which the README lists, give no row. *)
Theorem right_and_full_joins_are_empty (condition : option Expr) (shared : list string) keys (l r : list Row) (n : Row) :
  join_rows no_env JoinRight condition shared keys "a" "b" l r n = Ok []
  /\ join_rows no_env JoinFull condition shared keys "a" "b" l r n = Ok [].
Proof. split; reflexivity. Qed.
End Witnesses.
