(* ===== verification/SortingFacts.v ===== *)
(** * ORDER BY: the sort, and the heap of the first rows

    On keys that are ordered, the rows kept by the heap are the first rows of the full sort, up to rows
    with equal keys.  The order of keys is lexicographic in the columns of ORDER BY; the values of a
    column are ordered when they are numbers other than NaN, or texts that are not numbers, or NULL. *)
From Stdlib Require Import NArith ZArith Lia Bool Ascii String List Floats.SpecFloat.
From stdpp Require Import base option list gmap strings sorting.
From S2P Require Import Prelude Token Ast Bytes RowCodec Float Values Schema ExecValue Arrays ExprTypes.
From S2P Require Import Operators Eval Sorting OperatorFacts.

#[local] Open Scope nat_scope.
#[local] Set Warnings "-clear-no-such-hyp".

(** ** Three-way comparisons *)

Record ordering {A} (c : A -> A -> comparison) : Prop := mkOrdering {
  ord_antisym x y : c y x = CompOpp (c x y);
  ord_trans x y z : c x y = Lt -> c y z = Lt -> c x z = Lt;
  ord_eq x y z : c x y = Eq -> c x z = c y z }.

(** An order on a part of a type, as an order on the elements of a list. *)
Definition ordered_on {A} (P : A -> Prop) (c : A -> A -> comparison) : Prop :=
  (forall x y, P x -> P y -> c y x = CompOpp (c x y))
  /\ (forall x y z, P x -> P y -> P z -> c x y = Lt -> c y z = Lt -> c x z = Lt)
  /\ (forall x y z, P x -> P y -> P z -> c x y = Eq -> c x z = c y z).

(** ** Ranks

    An order on the indices below [n] is the order of a rank, the number of smaller indices. *)
Section Ranks.
Variable n : nat.
Variable c : nat -> nat -> comparison.
Hypothesis Hc : ordered_on (fun i => i < n) c.

Definition below (x y : nat) : bool := match c x y with Lt => true | _ => false end.

Definition rank (x : nat) : nat := length (base.filter (fun j => below j x = true) (seq 0 n)).

Lemma filter_length_le (P Q : nat -> bool) (l : list nat) :
  (forall x, In x l -> P x = true -> Q x = true) ->
  length (base.filter (fun j => P j = true) l) <= length (base.filter (fun j => Q j = true) l).
Proof.
  induction l as [|x l IH]; intros Hi; [easy|]. rewrite !filter_cons.
  specialize (IH (fun y Hy => Hi y (or_intror Hy))). specialize (Hi x (or_introl eq_refl)).
  destruct (decide (P x = true)), (decide (Q x = true)); cbn; try lia. exfalso. auto.
Qed.

Lemma filter_length_lt (P Q : nat -> bool) (l : list nat) (y : nat) :
  (forall x, In x l -> P x = true -> Q x = true) -> In y l -> P y = false -> Q y = true ->
  length (base.filter (fun j => P j = true) l) < length (base.filter (fun j => Q j = true) l).
Proof.
  induction l as [|x l IH]; intros Hi Hy HP HQ; [easy|]. rewrite !filter_cons.
  pose proof (filter_length_le P Q l (fun y Hy => Hi y (or_intror Hy))) as Hle.
  destruct Hy as [->|Hy].
  - rewrite HP, HQ. destruct (decide (false = true)), (decide (true = true)); cbn; try lia; congruence.
  - specialize (IH (fun y Hy => Hi y (or_intror Hy)) Hy HP HQ). specialize (Hi x (or_introl eq_refl)).
    destruct (decide (P x = true)), (decide (Q x = true)); cbn; try lia. exfalso. auto.
Qed.

Lemma below_rank (x y : nat) : x < n -> y < n -> below x y = (rank x <? rank y).
Proof.
  intros Hx Hy. destruct Hc as (Ha & Ht & He). unfold rank.
  assert (Hin : forall z, In z (seq 0 n) -> z < n) by (intros z Hz%in_seq; lia).
  destruct (below x y) eqn:E; symmetry; unfold below in E.
  - destruct (c x y) eqn:Exy; try discriminate E. apply Nat.ltb_lt.
    apply (filter_length_lt (fun j => below j x) (fun j => below j y) (seq 0 n) x).
    + intros z Hz. unfold below. destruct (c z x) eqn:Ez; try discriminate. intros _.
      now rewrite (Ht z x y) by auto.
    + apply in_seq. lia.
    + unfold below. specialize (Ha x x Hx Hx). destruct (c x x); try discriminate Ha; reflexivity.
    + unfold below. now rewrite Exy.
  - apply Nat.ltb_ge. apply (filter_length_le (fun j => below j y) (fun j => below j x)).
    intros z Hz%Hin. unfold below. destruct (c z y) eqn:Ez; try discriminate. intros _.
    destruct (c x y) eqn:Exy; try discriminate E.
    + pose proof (He x y z Hx Hy Hz Exy) as E1. rewrite (Ha x z), E1, <- (Ha y z), Ez by assumption. reflexivity.
    + specialize (Ha x y Hx Hy). rewrite Exy in Ha. cbn in Ha. now rewrite (Ht z y x) by auto.
Qed.
End Ranks.

(** ** The insertion sort *)

Section Sorted.
Variables (n : nat) (less : nat -> nat -> bool) (r : nat -> nat).
Hypothesis Hr : forall x y, x < n -> y < n -> less x y = (r x <? r y).

#[local] Abbreviation bounded := (Forall (fun i => i < n)).

Lemma insert_permutation (x : nat) (l : list nat) : insert_index less x l ≡ₚ x :: l.
Proof.
  induction l as [|y l IH]; [reflexivity|]. cbn. destruct (less y x); [|reflexivity].
  rewrite IH. apply perm_swap.
Qed.

Lemma sort_permutation (l : list nat) : sort_slice less l ≡ₚ l.
Proof.
  induction l as [|x l IH]; [reflexivity|].
  change (insert_index less x (sort_slice less l) ≡ₚ x :: l). now rewrite insert_permutation, IH.
Qed.

Lemma bounded_permutation (l l' : list nat) : l ≡ₚ l' -> bounded l -> bounded l'.
Proof. intros Hp. now rewrite Hp. Qed.

Definition sorted (l : list nat) : Prop := StronglySorted (fun x y => r x <= r y) l.

Lemma insert_sorted (x : nat) (l : list nat) : x < n -> bounded l -> sorted l -> sorted (insert_index less x l).
Proof.
  intros Hx Hb Hs. induction Hs as [|y l Hs IH Hy]; [now repeat constructor|]. cbn.
  inversion Hb as [|? ? Hyn Hb']; subst. rewrite Hr by assumption. destruct (Nat.ltb_spec (r y) (r x)).
  - constructor; [now apply IH|]. rewrite insert_permutation. constructor; [lia|exact Hy].
  - constructor; [now constructor|]. constructor; [lia|]. eapply Forall_impl; [exact Hy|]. cbn. lia.
Qed.

Lemma sort_sorted (l : list nat) : bounded l -> sorted (sort_slice less l).
Proof.
  induction 1 as [|x l Hx Hl IH]; [constructor|].
  change (sorted (insert_index less x (sort_slice less l))). apply insert_sorted; [exact Hx| |exact IH].
  now rewrite sort_permutation.
Qed.

Lemma sorted_ranks (l l' : list nat) : sorted l -> sorted l' -> map r l ≡ₚ map r l' -> map r l = map r l'.
Proof.
  assert (Hm : forall l, sorted l -> StronglySorted le (map r l)).
  { induction 1 as [|x k _ IH Hx]; cbn; constructor; [exact IH|]. rewrite Forall_map. exact Hx. }
  intros Hl Hl' Hp. now apply (StronglySorted_unique le); auto.
Qed.

Lemma sorted_app (l l' : list nat) :
  sorted l -> sorted l' -> Forall (fun x => Forall (fun y => r x <= r y) l') l -> sorted (l ++ l').
Proof.
  intros Hl Hl'. induction Hl as [|x l _ IH Hx]; intros Hf; [exact Hl'|]. inversion Hf; subst. cbn.
  constructor; [now apply IH|]. apply Forall_app. now split.
Qed.
End Sorted.

(** ** The heap *)

Definition parent (m : nat) : nat := (m - 1) / 2.

Lemma parent_spec (m : nat) : 0 < m -> 2 * parent m + 1 = m \/ 2 * parent m + 2 = m.
Proof.
  intros Hm. unfold parent. pose proof (Nat.div_mod_eq (m - 1) 2). pose proof (Nat.mod_upper_bound (m - 1) 2). lia.
Qed.

Lemma parent_left (i : nat) : parent (2 * i + 1) = i.
Proof. destruct (parent_spec (2 * i + 1)); lia. Qed.
Lemma parent_right (i : nat) : parent (2 * i + 2) = i.
Proof. destruct (parent_spec (2 * i + 2)); lia. Qed.

Lemma swap_permutation (h : list nat) (i j : nat) : i < length h -> j < length h -> heap_swap h i j ≡ₚ h.
Proof.
  intros Hi Hj. unfold heap_swap. apply Permutation_insert_swap; now apply list_lookup_lookup_total_lt.
Qed.

Lemma swap_length (h : list nat) (i j : nat) : length (heap_swap h i j) = length h.
Proof. unfold heap_swap. now rewrite !length_insert. Qed.

Lemma swap_lookup (h : list nat) (i j m : nat) :
  i < length h -> j < length h ->
  heap_swap h i j !!! m = h !!! (if decide (m = i) then j else if decide (m = j) then i else m).
Proof.
  intros Hi Hj. unfold heap_swap. rewrite !list_lookup_total_insert, length_insert.
  destruct (decide (i = m /\ _)) as [[-> _]|H1]; [now rewrite decide_True|]. rewrite (decide_False (P := m = i)) by lia.
  destruct (decide (j = m /\ _)) as [[-> _]|H2]; [now rewrite decide_True|]. now rewrite decide_False by lia.
Qed.

Section Heap.
Variables (n : nat) (less : nat -> nat -> bool) (r : nat -> nat).
Hypothesis Hr : forall x y, x < n -> y < n -> less x y = (r x <? r y).

#[local] Abbreviation bounded := (Forall (fun i => i < n)).

(** The rank of the element at a place; no element has a greater rank than its parent. *)
Definition R (h : list nat) (m : nat) : nat := r (h !!! m).
Definition is_heap (h : list nat) : Prop := forall m, 0 < m < length h -> R h m <= R h (parent m).

Lemma bounded_lookup (h : list nat) (m : nat) : bounded h -> m < length h -> h !!! m < n.
Proof. intros Hb Hm. rewrite Forall_lookup in Hb. apply (Hb m). now apply list_lookup_lookup_total_lt. Qed.

Lemma heap_less_rank (h : list nat) (i j : nat) :
  bounded h -> i < length h -> j < length h -> heap_less less h i j = (R h j <? R h i).
Proof. intros Hb Hi Hj. unfold heap_less, R. now rewrite Hr by now apply bounded_lookup. Qed.

(** A heap but for the element at [j], which may be greater than its parent. *)
Definition heap_but_up (h : list nat) (j : nat) : Prop :=
  (forall m, 0 < m < length h -> m <> j -> R h m <= R h (parent m))
  /\ (forall m, 0 < m < length h -> parent m = j -> 0 < j -> R h m <= R h (parent j)).

Lemma heap_up_spec (fuel : nat) (h : list nat) (j : nat) :
  bounded h -> j < length h -> j <= fuel -> heap_but_up h j ->
  is_heap (heap_up less fuel h j) /\ heap_up less fuel h j ≡ₚ h.
Proof.
  revert h j. induction fuel as [|k IH]; intros h j Hb Hj Hf (H1 & H2); cbn [heap_up].
  - split; [|reflexivity]. intros m Hm. apply H1; lia.
  - fold (parent j). destruct (Nat.eqb_spec (parent j) j) as [Ej|Ej]; cbn [orb].
    + split; [|reflexivity]. intros m Hm. apply H1; [lia|]. intros ->. destruct (parent_spec j); lia.
    + assert (Hj0 : 0 < j) by (destruct j; [exfalso; now apply Ej|lia]). pose proof (parent_spec j Hj0) as Pj.
      rewrite heap_less_rank by (try assumption; lia). destruct (Nat.ltb_spec (R h (parent j)) (R h j)) as [Hl|Hl]; cbn [negb].
      * pose proof (swap_permutation h (parent j) j ltac:(lia) Hj) as Hp.
        assert (Hs : forall m, R (heap_swap h (parent j) j) m
          = R h (if decide (m = parent j) then j else if decide (m = j) then parent j else m))
          by (intros m; unfold R; now rewrite swap_lookup by lia).
        destruct (IH (heap_swap h (parent j) j) (parent j)) as [Hh Hp']; rewrite ?swap_length; try lia.
        -- now rewrite Hp.
        -- split; rewrite swap_length; intros m Hm; rewrite !Hs; pose proof (parent_spec m ltac:(lia)) as Pm.
           ++ intros Hne. pose proof (H1 m Hm) as G1. pose proof (H2 m Hm) as G2. pose proof (H1 j) as G3.
              repeat destruct (decide _); subst; try lia.
              all: try (rewrite e in *); try lia.
           ++ intros Epm Hpos. pose proof (H1 m Hm) as G1. pose proof (H1 (parent j)) as G2.
              pose proof (parent_spec (parent j) Hpos) as Pp.
              repeat destruct (decide _); subst; try lia.
              all: try (rewrite Epm in *); try lia.
        -- split; [exact Hh|now rewrite Hp', Hp].
      * split; [|reflexivity]. intros m Hm. destruct (decide (m = j)) as [->|]; [lia|now apply H1].
Qed.

(** A heap but for the element at [i], which may be smaller than its children. *)
Definition heap_but_down (h : list nat) (i : nat) : Prop :=
  (forall m, 0 < m < length h -> parent m <> i -> R h m <= R h (parent m))
  /\ (forall m, 0 < m < length h -> parent m = i -> 0 < i -> R h m <= R h (parent i)).

(** The child that [down] compares with: the greater one. *)
Definition greater_child (h : list nat) (i : nat) : nat :=
  if (2 * i + 1 + 1 <? length h) && heap_less less h (2 * i + 1 + 1) (2 * i + 1) then 2 * i + 1 + 1 else 2 * i + 1.

Lemma greater_child_spec (h : list nat) (i : nat) :
  bounded h -> 2 * i + 1 < length h ->
  greater_child h i < length h /\ parent (greater_child h i) = i /\ i < greater_child h i
  /\ forall m, 0 < m < length h -> parent m = i -> R h m <= R h (greater_child h i).
Proof.
  intros Hb Hl. unfold greater_child.
  assert (Hm : forall m, 0 < m < length h -> parent m = i -> m = 2 * i + 1 \/ m = 2 * i + 1 + 1)
    by (intros m Hm <-; destruct (parent_spec m); lia).
  pose proof (parent_left i) as Pl. pose proof (parent_right i) as Pr.
  replace (2 * i + 2) with (2 * i + 1 + 1) in Pr by lia.
  destruct (Nat.ltb_spec (2 * i + 1 + 1) (length h)) as [H2|H2]; cbn [andb];
    [rewrite heap_less_rank by (assumption || lia);
     destruct (Nat.ltb_spec (R h (2 * i + 1)) (R h (2 * i + 1 + 1)))|];
    (split; [lia|]; split; [assumption|]; split; [lia|]);
    intros m Hm1 Hm2; destruct (Hm m Hm1 Hm2) as [-> | ->]; lia.
Qed.

Lemma heap_down_spec (fuel : nat) (h : list nat) (i : nat) :
  bounded h -> length h <= i + fuel -> heap_but_down h i ->
  is_heap (heap_down less fuel h i) /\ heap_down less fuel h i ≡ₚ h.
Proof.
  revert h i. induction fuel as [|k IH]; intros h i Hb Hf (H1 & H2); cbn [heap_down].
  - split; [|reflexivity]. intros m Hm. apply H1; [lia|]. destruct (parent_spec m); lia.
  - change (2 * i + 1) with (2 * i + 1). destruct (Nat.leb_spec (length h) (2 * i + 1)) as [Hl|Hl].
    + split; [|reflexivity]. intros m Hm. apply H1; [lia|]. destruct (parent_spec m); lia.
    + destruct (greater_child_spec h i Hb Hl) as (Gl & Gp & Gi & Gm).
      fold (greater_child h i). revert Gl Gp Gi Gm. generalize (greater_child h i). intros j Gl Gp Gi Gm.
      rewrite heap_less_rank by (assumption || lia). destruct (Nat.ltb_spec (R h i) (R h j)) as [Hlt|Hge]; cbn [negb].
      * pose proof (swap_permutation h i j ltac:(lia) Gl) as Hp.
        assert (Hs : forall m, R (heap_swap h i j) m
          = R h (if decide (m = i) then j else if decide (m = j) then i else m))
          by (intros m; unfold R; now rewrite swap_lookup by lia).
        destruct (IH (heap_swap h i j) j) as [Hh Hp']; rewrite ?swap_length; try lia.
        -- now rewrite Hp.
        -- split; rewrite swap_length; intros m Hm; rewrite !Hs; pose proof (parent_spec m ltac:(lia)) as Pm.
           ++ intros Hne. pose proof (H1 m Hm) as G1. pose proof (H2 j) as G2. pose proof (Gm m Hm) as G3.
              repeat destruct (decide _); subst; try lia.
              all: try (rewrite e in *); try lia.
           ++ intros Epm Hpos. pose proof (H1 m Hm) as G1.
              repeat destruct (decide _); subst; try lia.
              all: try (rewrite Epm in *); try lia.
        -- split; [exact Hh|now rewrite Hp', Hp].
      * split; [|reflexivity]. intros m Hm. destruct (decide (parent m = i)) as [E|E]; [|now apply H1].
        rewrite E. specialize (Gm m Hm E). lia.
Qed.

Lemma heap_root (h : list nat) : is_heap h -> forall m, m < length h -> R h m <= R h 0.
Proof.
  intros Hh m. induction m as [m IH] using lt_wf_ind. intros Hm. destruct m as [|m]; [lia|].
  pose proof (parent_spec (S m) ltac:(lia)). specialize (Hh (S m) ltac:(lia)).
  specialize (IH (parent (S m)) ltac:(lia) ltac:(lia)). lia.
Qed.

Lemma heap_push_spec (h : list nat) (x : nat) :
  bounded h -> x < n -> is_heap h -> is_heap (heap_push less h x) /\ heap_push less h x ≡ₚ x :: h.
Proof.
  intros Hb Hx Hh. unfold heap_push. destruct (heap_up_spec (length h) (h ++ [x]) (length h)) as [H1 H2].
  - apply Forall_app. split; [exact Hb|]. now constructor.
  - rewrite length_app. cbn. lia.
  - lia.
  - assert (Hs : forall m, m < length h -> R (h ++ [x]) m = R h m)
      by (intros m Hm; unfold R; now rewrite lookup_total_app_l).
    split; rewrite length_app; cbn [length]; intros m Hm; pose proof (parent_spec m ltac:(lia)) as Pm.
    + intros Hne. rewrite !Hs by lia. apply Hh. lia.
    + intros Ep _. lia.
  - split; [exact H1|]. rewrite H2. symmetry. apply Permutation_cons_append.
Qed.

Lemma heap_replace_spec (h : list nat) (root x : nat) (tail : list nat) :
  h = root :: tail -> bounded h -> x < n -> is_heap h ->
  is_heap (heap_replace less h x) /\ heap_replace less h x ≡ₚ x :: tail.
Proof.
  intros -> Hb Hx Hh. unfold heap_replace. cbn [length insert list_insert].
  inversion Hb as [|? ? Hroot Hb']; subst.
  destruct (heap_down_spec (S (length tail)) (x :: tail) 0) as [H1 H2].
  - now constructor.
  - cbn. lia.
  - assert (Hs : forall m, 0 < m -> R (x :: tail) m = R (root :: tail) m) by (intros [|m] Hm; [lia|reflexivity]).
    split; cbn [length]; intros m Hm; [|lia]. intros Hp. rewrite !Hs by lia. apply Hh. cbn. lia.
  - now split.
Qed.

(** ** The loop over the keys *)

(** The heap after the keys below [i]: the [k] smallest of them. *)
Definition keeps (k i : nat) (h : list nat) : Prop :=
  is_heap h /\ length h = Nat.min k i
  /\ exists rest, h ++ rest ≡ₚ seq 0 i /\ Forall (fun x => Forall (fun y => r y <= r x) h) rest.

Lemma top_step_keeps (k i : nat) (h : list nat) :
  0 < k -> i < n -> keeps k i h -> keeps k (S i) (top_step less k h i).
Proof.
  intros Hk Hi (Hh & Hl & rest & Hp & Hrest). unfold top_step.
  assert (Hb : bounded (h ++ rest)) by (rewrite Hp; apply Forall_seq; lia).
  apply Forall_app in Hb as [Hb Hb'].
  assert (Hseq : seq 0 (S i) ≡ₚ i :: h ++ rest) by (rewrite seq_S, Hp; symmetry; apply Permutation_cons_append).
  assert (Hlen : length h + length rest = i) by (rewrite <- length_app, Hp; apply length_seq).
  destruct (Nat.ltb_spec (length h) k) as [Hlt|Hge].
  - destruct (heap_push_spec h i Hb Hi Hh) as [Hh' Hp']. split; [exact Hh'|]. split; [rewrite Hp'; cbn; lia|].
    exists []. split; [|constructor]. destruct rest as [|y rest]; [|cbn in Hlen; lia].
    rewrite !app_nil_r in *. now rewrite Hp', Hseq.
  - destruct h as [|root tail] eqn:Eh; [cbn in Hge; lia|]. rewrite <- Eh in *.
    assert (Hroot : forall y, In y h -> r y <= r root).
    { intros y Hy. apply list_elem_of_In, list_elem_of_lookup_1 in Hy as (m & Hm).
      pose proof (heap_root h Hh m ltac:(now apply lookup_lt_Some in Hm)) as G. unfold R in G.
      rewrite (list_lookup_total_correct _ _ _ Hm), Eh in G. exact G. }
    replace (h !!! 0) with root by now rewrite Eh. assert (Hrn : root < n) by (rewrite Eh in Hb; now inversion Hb).
    rewrite Hr by assumption. destruct (Nat.ltb_spec (r i) (r root)) as [Hlt|Hle].
    + destruct (heap_replace_spec h root i tail Eh Hb Hi Hh) as [Hh' Hp']. split; [exact Hh'|].
      split; [rewrite Hp'; rewrite Eh in Hl; cbn in *; lia|]. exists (root :: rest). split.
      * rewrite Hp', Hseq, Eh. cbn. apply perm_skip. symmetry. apply Permutation_middle.
      * constructor.
        -- rewrite Hp'. constructor; [lia|]. apply List.Forall_forall. intros y Hy. apply Hroot. rewrite Eh. now right.
        -- eapply Forall_impl; [exact Hrest|]. cbn. intros x Hx. rewrite Hp'. rewrite Eh in Hx.
           inversion Hx; subst. constructor; [lia|assumption].
    + split; [exact Hh|]. split; [lia|]. exists (i :: rest). split.
      * rewrite Hseq. symmetry. apply Permutation_middle.
      * constructor; [|exact Hrest]. apply List.Forall_forall. intros y Hy. specialize (Hroot y Hy). lia.
Qed.

Lemma top_heap_keeps (k i : nat) : 0 < k -> i <= n -> keeps k i (top_heap less k i).
Proof.
  intros Hk. unfold top_heap. induction i as [|i IH]; intros Hi.
  - split; [intros m Hm; cbn in Hm; lia|]. split; [cbn; lia|]. exists []. split; [reflexivity|constructor].
  - rewrite seq_S, fold_left_app. cbn [fold_left]. apply top_step_keeps; [exact Hk|lia|]. apply IH. lia.
Qed.

(** The kept indices, sorted, have the ranks of the first of all the indices, sorted. *)
Lemma top_prefix (k : nat) :
  0 < k ->
  map r (sort_slice less (top_heap less k n)) = map r (take k (sort_slice less (seq 0 n)))
  /\ exists rest, sort_slice less (top_heap less k n) ++ rest ≡ₚ seq 0 n.
Proof.
  intros Hk. destruct (top_heap_keeps k n Hk ltac:(lia)) as (_ & Hl & rest & Hp & Hrest).
  set (h := top_heap less k n) in *. assert (Hb : bounded (h ++ rest)) by (rewrite Hp; apply Forall_seq; lia).
  apply Forall_app in Hb as [Hb Hb'].
  assert (Hps : sort_slice less h ++ sort_slice less rest ≡ₚ seq 0 n) by now rewrite !sort_permutation.
  split; [|now exists (sort_slice less rest)].
  assert (Hm : map r (sort_slice less h ++ sort_slice less rest) = map r (sort_slice less (seq 0 n))).
  { apply sorted_ranks.
    - apply sorted_app; [now apply (sort_sorted n)|now apply (sort_sorted n)|].
      rewrite (sort_permutation less h). apply List.Forall_forall. intros x Hx. rewrite (sort_permutation less rest).
      eapply Forall_impl; [exact Hrest|]. cbn. intros y Hy. rewrite List.Forall_forall in Hy. now apply Hy.
    - apply (sort_sorted n); [exact Hr|]. apply Forall_seq. lia.
    - rewrite Hps. now rewrite sort_permutation. }
  rewrite <- !firstn_map. rewrite <- Hm, map_app, firstn_app.
  assert (Hlen : length (map r (sort_slice less h)) = Nat.min k n) by (rewrite length_map, sort_permutation; exact Hl).
  destruct (le_lt_dec k n).
  - replace (k - length (map r (sort_slice less h))) with 0 by lia. cbn. rewrite app_nil_r.
    symmetry. apply firstn_all2. lia.
  - rewrite firstn_all2 by lia. assert (rest = []) as ->.
    { destruct rest; [reflexivity|]. pose proof (Permutation_length Hp) as G. rewrite length_app, length_seq in G. cbn in G. lia. }
    cbn. now rewrite firstn_nil, app_nil_r.
Qed.
End Heap.

(** ** The order of keys *)

Lemma ordered_by {A B} (P : A -> Prop) (c : A -> A -> comparison) (c' : B -> B -> comparison) (key : A -> B) :
  ordering c' -> (forall x y, P x -> P y -> c x y = c' (key x) (key y)) -> ordered_on P c.
Proof.
  intros [Ha Ht He] Hk. split; [|split].
  - intros x y Hx Hy. rewrite !Hk by assumption. apply Ha.
  - intros x y z Hx Hy Hz. rewrite !Hk by assumption. apply Ht.
  - intros x y z Hx Hy Hz. rewrite !Hk by assumption. apply He.
Qed.

Lemma lex_ordering : ordering lex_compare.
Proof.
  split; [intros; apply lex_antisym|intros; now apply (lex_trans x y z)|]. intros x y z E. now rewrite (lex_eq _ _ E).
Qed.

Lemma ascii_compare_antisym (a b : ascii) : Ascii.compare b a = CompOpp (Ascii.compare a b).
Proof. unfold Ascii.compare. apply N.compare_antisym. Qed.

Lemma text_ordering : ordering compare_text.
Proof.
  unfold compare_text. split.
  - intros x y. apply String.compare_antisym.
  - induction x as [|a x IH]; intros [|b y] [|c z]; cbn; try easy.
    unfold Ascii.compare. destruct (N.compare_spec (N_of_ascii a) (N_of_ascii b)) as [E|L|L]; try easy;
      destruct (N.compare_spec (N_of_ascii b) (N_of_ascii c)) as [E'|L'|L']; try easy.
    + rewrite E, E', N.compare_refl. apply IH.
    + intros _ _. rewrite E. now rewrite (proj2 (N.compare_lt_iff _ _)).
    + intros _ _. rewrite <- E'. now rewrite (proj2 (N.compare_lt_iff _ _)).
    + intros _ _. rewrite (proj2 (N.compare_lt_iff _ _)); [reflexivity|lia].
  - intros x y z E. apply String.compare_eq_iff in E. now subst.
Qed.

Section Keys.
Context `{Foreign}.

(** Columns of numbers and columns of texts; NULL is in both. *)
Definition numbers (v : val) : Prop := is_nil v = true \/ exists x, toNumeric v = Some x /\ is_nan x = false.
Definition texts (v : val) : Prop := is_nil v = true \/ toNumeric v = None.

Lemma compare_ordered (P : val -> Prop) :
  P = numbers \/ P = texts -> ordered_on (fun v => is_nil v = false /\ P v) compare.
Proof.
  intros [-> | ->].
  - apply (ordered_by _ _ lex_compare (fun v => float_key (default S754_nan (toNumeric v)))); [apply lex_ordering|].
    intros v w [Hv [?|(x & Ex & Nx)]] [Hw [?|(y & Ey & Ny)]]; try congruence. unfold compare.
    rewrite Hv, Hw, Ex, Ey. now apply compare_float_key.
  - apply (ordered_by _ _ compare_text toString); [apply text_ordering|].
    intros v w [Hv [?|Ev]] [Hw [?|Ew]]; try congruence. unfold compare. now rewrite Hv, Hw, Ev.
Qed.

(** [item_less] as a three-way comparison. *)
Definition item_compare (o : OrderByItem) (a b : val) : comparison :=
  match is_nil a, is_nil b with
  | true, true => Eq
  | true, false => if nulls_first o then Lt else Gt
  | false, true => if nulls_first o then Gt else Lt
  | false, false => if item_desc o then CompOpp (compare a b) else compare a b
  end.

Lemma item_less_compare (o : OrderByItem) (a b : val) :
  item_less o a b = match item_compare o a b with Eq => None | Lt => Some true | Gt => Some false end.
Proof.
  unfold item_less, item_compare. destruct (is_nil a), (is_nil b); try reflexivity; try now destruct (nulls_first o).
  now destruct (compare a b), (item_desc o).
Qed.

Lemma opp_lt (c : comparison) : CompOpp c = Lt -> c = Gt.
Proof. now destruct c. Qed.

Lemma item_ordered (o : OrderByItem) (P : val -> Prop) :
  P = numbers \/ P = texts -> ordered_on P (item_compare o).
Proof.
  intros HP. destruct (compare_ordered P HP) as (Ha & Ht & He). unfold item_compare. split; [|split].
  - intros x y Hx Hy. destruct (is_nil x) eqn:Ex, (is_nil y) eqn:Ey; try reflexivity; try now destruct (nulls_first o).
    rewrite (Ha x y) by auto. now destruct (item_desc o), (compare x y).
  - intros x y z Hx Hy Hz.
    destruct (is_nil x) eqn:Ex, (is_nil y) eqn:Ey, (is_nil z) eqn:Ez; try easy; try now destruct (nulls_first o).
    destruct (item_desc o); [|now apply Ht].
    intros E1%opp_lt E2%opp_lt. pose proof (Ha x y ltac:(auto) ltac:(auto)) as A1. pose proof (Ha y z ltac:(auto) ltac:(auto)) as A2.
    rewrite E1 in A1. rewrite E2 in A2. cbn in *. rewrite <- (Ha x z) by auto. now apply (Ht z y x).
  - intros x y z Hx Hy Hz.
    destruct (is_nil x) eqn:Ex, (is_nil y) eqn:Ey, (is_nil z) eqn:Ez; try easy; try now destruct (nulls_first o).
    destruct (item_desc o); intros E.
    + rewrite (He x y z); auto. now destruct (compare x y).
    + rewrite (He x y z); auto.
Qed.

(** Lexicographic in the columns. *)
Fixpoint keys_compare (orderBy : list OrderByItem) (a b : list val) : comparison :=
  match orderBy, a, b with
  | o :: orderBy, x :: a, y :: b =>
      match item_compare o x y with Eq => keys_compare orderBy a b | c => c end
  | _, _, _ => Eq
  end.

Lemma orderByLess_compare (orderBy : list OrderByItem) (a b : list val) :
  orderByLess orderBy a b = match keys_compare orderBy a b with Lt => true | _ => false end.
Proof.
  revert a b. induction orderBy as [|o os IH]; intros [|x a] [|y b]; try reflexivity. cbn.
  rewrite item_less_compare. destruct (item_compare o x y); auto.
Qed.

(** Keys whose columns are numbers or texts throughout. *)
Definition key_of (kinds : list (val -> Prop)) (key : list val) : Prop := Forall2 (fun P v => P v) kinds key.

Definition orderable (orderBy : list OrderByItem) (keys : list (list val)) : Prop :=
  exists kinds, Forall2 (fun (_ : OrderByItem) P => P = numbers \/ P = texts) orderBy kinds
    /\ Forall (key_of kinds) keys.

Lemma keys_ordered (orderBy : list OrderByItem) (kinds : list (val -> Prop)) :
  Forall2 (fun (_ : OrderByItem) P => P = numbers \/ P = texts) orderBy kinds ->
  ordered_on (key_of kinds) (keys_compare orderBy).
Proof.
  induction 1 as [|o P os Ps HP _ (Ia & It & Ie)]; [now split; [|split]|].
  destruct (item_ordered o P HP) as (Ha & Ht & He). split; [|split].
  - intros x y Hx Hy. inversion Hx as [|? v ? x' Hv Hx']; inversion Hy as [|? w ? y' Hw Hy']; subst. cbn.
    rewrite (Ha v w) by assumption. destruct (item_compare o v w); cbn; auto.
  - intros x y z Hx Hy Hz. inversion Hx as [|? v ? x' Hv Hx']; inversion Hy as [|? w ? y' Hw Hy'];
      inversion Hz as [|? u ? z' Hu Hz']; subst. cbn.
    destruct (item_compare o v w) eqn:E1; try easy.
    + rewrite (He v w u) by assumption. destruct (item_compare o w u); try easy. now apply It.
    + intros _. destruct (item_compare o w u) eqn:E2; try easy.
      * intros _.
        assert (E3 : item_compare o u w = Eq) by (now rewrite (Ha w u), E2).
        pose proof (He u w v Hu Hw Hv E3) as E4. rewrite (Ha v u) in E4 by assumption.
        rewrite (Ha v w), E1 in E4 by assumption. now destruct (item_compare o v u).
      * intros _. now rewrite (Ht v w u).
  - intros x y z Hx Hy Hz. inversion Hx as [|? v ? x' Hv Hx']; inversion Hy as [|? w ? y' Hw Hy'];
      inversion Hz as [|? u ? z' Hu Hz']; subst. cbn.
    destruct (item_compare o v w) eqn:E1; try easy. intros E. rewrite (He v w u) by assumption.
    destruct (item_compare o w u); auto.
Qed.
End Keys.

(** ** Properties *)

Section Properties.
Context `{Foreign}.

Definition same_key (orderBy : list OrderByItem) (keys : list (list val)) (i j : nat) : Prop :=
  keys_compare orderBy (keys !!! i) (keys !!! j) = Eq.

(** The order of the indices of keys. *)
Lemma indices_ordered (orderBy : list OrderByItem) (keys : list (list val)) :
  orderable orderBy keys ->
  ordered_on (fun i => i < length keys) (fun i j => keys_compare orderBy (keys !!! i) (keys !!! j)).
Proof.
  intros (kinds & Hk & Hkeys). destruct (keys_ordered orderBy kinds Hk) as (Ha & Ht & He).
  assert (Hi : forall i, i < length keys -> key_of kinds (keys !!! i)).
  { intros i Hi. rewrite Forall_lookup in Hkeys. apply (Hkeys i). now apply list_lookup_lookup_total_lt. }
  split; [|split]; intros; [apply Ha|apply (Ht _ (keys !!! y))|apply He]; auto.
Qed.

Lemma key_less_rank (orderBy : list OrderByItem) (keys : list (list val)) :
  orderable orderBy keys ->
  exists r, (forall i j, i < length keys -> j < length keys -> key_less orderBy keys i j = (r i <? r j))
    /\ (forall i j, i < length keys -> j < length keys -> r i = r j -> same_key orderBy keys i j).
Proof.
  intros Ho. pose proof (indices_ordered orderBy keys Ho) as Hc.
  set (c := fun i j => keys_compare orderBy (keys !!! i) (keys !!! j)) in *.
  assert (Hb : forall i j, key_less orderBy keys i j = below c i j) by (intros; apply orderByLess_compare).
  exists (rank (length keys) c). split.
  - intros i j Hi Hj. rewrite Hb. now apply below_rank.
  - intros i j Hi Hj E. unfold same_key. fold (c i j).
    pose proof (below_rank _ c Hc i j Hi Hj) as B1. pose proof (below_rank _ c Hc j i Hj Hi) as B2.
    rewrite E, Nat.ltb_irrefl in B1. rewrite E, Nat.ltb_irrefl in B2.
    unfold below in *. destruct Hc as (Ha & _). rewrite (Ha i j Hi Hj) in B2. now destruct (c i j).
Qed.

Lemma same_ranks (r : nat -> nat) (P : nat -> nat -> Prop) (n : nat) (l l' : list nat) :
  (forall i j, i < n -> j < n -> r i = r j -> P i j) -> Forall (fun i => i < n) l -> Forall (fun i => i < n) l' ->
  map r l = map r l' -> Forall2 P l l'.
Proof.
  intros HP Hl. revert l'. induction Hl as [|x l Hx _ IH]; intros [|y l'] Hl' E; try discriminate E; [constructor|].
  injection E as E1 E2. inversion Hl'; subst. constructor; auto.
Qed.

Lemma order_sorted (orderBy : list OrderByItem) (keys : list (list val)) :
  orderable orderBy keys ->
  sortKeyOrder keys orderBy ≡ₚ seq 0 (length keys)
  /\ StronglySorted (fun i j => key_less orderBy keys j i = false) (sortKeyOrder keys orderBy).
Proof.
  intros Ho. destruct (key_less_rank orderBy keys Ho) as (r & Hr & _). unfold sortKeyOrder.
  pose proof (sort_permutation (key_less orderBy keys) (seq 0 (length keys))) as Hp. split; [exact Hp|].
  assert (Hb : Forall (fun i => i < length keys) (sort_slice (key_less orderBy keys) (seq 0 (length keys))))
    by (rewrite Hp; apply Forall_seq; lia).
  assert (Hs : sorted r (sort_slice (key_less orderBy keys) (seq 0 (length keys))))
    by (apply (sort_sorted (length keys)); [exact Hr|apply Forall_seq; lia]).
  clear Hp. revert Hb. induction Hs as [|x l _ IH Hx]; intros Hb; [constructor|].
  inversion Hb as [|? ? Hxn Hln]; subst. constructor; [now apply IH|].
  apply List.Forall_forall. intros y Hy. rewrite List.Forall_forall in Hx, Hln.
  rewrite Hr by auto. apply Nat.ltb_ge. now apply Hx.
Qed.

(** C9: ORDER BY sorts: on keys whose columns are numbers or texts, NULLs among them, the order is a
    permutation of the rows in which no row comes after one it is less than. With a LIMIT, the heap of
    the first [k] rows gives the first [k] of that order, up to rows with equal keys, and keeps each row
    at most once. *)
Theorem top_rows_are_first (orderBy : list OrderByItem) (keys : list (list val)) (k : Z) :
  orderable orderBy keys -> (0 < k)%Z ->
  sortKeyOrder keys orderBy ≡ₚ seq 0 (length keys)
  /\ StronglySorted (fun i j => key_less orderBy keys j i = false) (sortKeyOrder keys orderBy)
  /\ Forall2 (same_key orderBy keys) (topNKeyOrder keys orderBy k) (take (Z.to_nat k) (sortKeyOrder keys orderBy))
  /\ exists rest, topNKeyOrder keys orderBy k ++ rest ≡ₚ seq 0 (length keys).
Proof.
  intros Ho Hk. destruct (order_sorted orderBy keys Ho) as [Hp Hs]. split; [exact Hp|]. split; [exact Hs|].
  destruct (key_less_rank orderBy keys Ho) as (r & Hr & Hsame). unfold topNKeyOrder.
  rewrite (proj2 (Z.leb_gt k 0)) by lia.
  assert (Hbs : forall l, l ≡ₚ seq 0 (length keys) -> Forall (fun i => i < length keys) l)
    by (intros l ->; apply Forall_seq; lia).
  destruct (Z.leb_spec (Z.of_nat (length keys)) k) as [Hle|Hgt].
  - split; [|exists []; now rewrite app_nil_r].
    rewrite firstn_all2 by (rewrite Hp, length_seq; lia).
    apply (same_ranks r _ (length keys)); auto.
  - destruct (top_prefix (length keys) (key_less orderBy keys) r Hr (Z.to_nat k) ltac:(lia)) as (Hm & rest & Hrest).
    split; [|now exists rest]. apply (same_ranks r _ (length keys)); [exact Hsame| | |exact Hm].
    + apply Hbs in Hrest. now apply Forall_app in Hrest as [? _].
    + apply Forall_take. now apply Hbs.
Qed.
End Properties.

Section Witnesses.
#[local] Existing Instance no_foreign.

Definition by_points : list OrderByItem :=
  [mkOrderByItem (ColumnRef EmptyString "points") true NullsDefault; mkOrderByItem (ColumnRef EmptyString "name") false NullsDefault].
Definition scores : list (list val) :=
  [[Int 3; Text "b"]; [VNil; Text "x"]; [Int 7; Text "c"]; [Int 3; Text "a"]; [Int 7; Text "c"]].

Lemma scores_orderable : orderable by_points scores.
Proof.
  exists [numbers; texts]. split; [constructor; [now left|constructor; [now right|constructor]]|].
  unfold scores. repeat apply Forall_cons_2; try apply Forall_nil_2;
    (apply Forall2_cons_2; [|apply Forall2_cons_2; [|apply Forall2_nil_2]]);
    first [ left; reflexivity | right; vm_compute; reflexivity | right; eexists; split; vm_compute; reflexivity ].
Qed.

Lemma top_rows_are_first_witness :
  Forall2 (same_key by_points scores) (topNKeyOrder scores by_points 3) [2; 4; 3].
Proof. apply (top_rows_are_first by_points scores 3 scores_orderable). lia. Defined.
End Witnesses.
