(* ===== verification/TypeFacts.v ===== *)
(** * Types: the inferred type of an expression is carried by its values

    The type a projection reports decides how clients decode its column.  For expressions outside the
    exceptions named in [typed], a value is NULL or of the dynamic type its inferred type is carried by. *)
From Stdlib Require Import NArith ZArith Lia Bool Ascii String List Floats.SpecFloat.
From stdpp Require Import base option list gmap strings.
From S2P Require Import Prelude Token Ast Bytes RowCodec Float Values Schema ExecValue Arrays ExprTypes.
From S2P Require Import Operators Eval ArrayFacts EvalFacts AggregateFacts.

#[local] Open Scope string_scope.
#[local] Set Warnings "-clear-no-such-hyp".

Section Carriers.
Context `{Foreign}.

Definition is_int (v : val) : bool := match v with VNil | VInt GoInt64 _ | VInt GoInt _ => true | _ => false end.
Definition is_number (v : val) : bool := is_int v || match v with VFloat64 _ => true | _ => false end.
Definition is_bool (v : val) : bool := match v with VNil | VBool _ => true | _ => false end.
Definition is_blob (v : val) : bool := match v with VNil | VBytes _ => true | _ => false end.
Definition is_text (v : val) : bool := match v with VNil | VString _ => true | _ => false end.

Definition real_names : list string := ["REAL"; "FLOAT"; "DOUBLE"].

(** What a type is carried by: NULL or an integer, a number, a truth value, bytes, the text of an array.
    Values of the other types are not constrained; NUMERIC and DECIMAL are among them. *)
Definition carrier_ok (t : string) (v : val) : bool :=
  if isIntegerTypeName t then is_int v
  else if name_in (trimmed_upper t) real_names then is_number v
  else if trimmed_upper t =s "BOOLEAN" then is_bool v
  else if trimmed_upper t =s "BLOB" then is_blob v
  else match arrayElementType t with Some _ => is_text v | None => true end.

Lemma carrier_null (t : string) : carrier_ok t VNil = true.
Proof. unfold carrier_ok. repeat match goal with |- (if ?c then _ else _) = _ => destruct c end; try reflexivity. Qed.
End Carriers.

(** What concrete names are carried by. *)
Lemma carrier_names `{Foreign} (v : val) :
  carrier_ok "BOOLEAN" v = is_bool v /\ carrier_ok "BIGINT" v = is_int v /\ carrier_ok "INTEGER" v = is_int v
  /\ carrier_ok "DOUBLE" v = is_number v /\ carrier_ok "BLOB" v = is_blob v
  /\ carrier_ok "TEXT" v = true /\ carrier_ok "JSONB" v = true.
Proof. repeat split. Qed.

Lemma carrier_integer `{Foreign} (t : string) (v : val) : isIntegerTypeName t = true -> carrier_ok t v = is_int v.
Proof. unfold carrier_ok. now intros ->. Qed.

(** Case analysis on the members of a list of names. *)
Ltac in_names H := unfold name_in in H; cbn [existsb] in H;
  repeat (apply orb_prop in H as [H|H]); try discriminate H; apply String.eqb_eq in H.

Section Typed.
Context `{Builtins} (env : Env).

#[local] Abbreviation infer := (inferExprType (resolve env)).

(** Operators whose result is computed by functions outside the model. *)
Definition json_predicates : list TokenType :=
  [TokenAtArrow; TokenLtAt; TokenQuestion; TokenQuestionPipe; TokenQuestionAmp].

(** Casts by a name without spaces around it; a cast to NUMERIC reports DOUBLE and changes nothing. *)
Definition cast_ok (ty : DataType) : bool :=
  match arrayElementType (SQLTypeName ty) with
  | Some _ => dt_Array ty
  | None => negb (dt_Array ty) && (TrimSpace (dt_Name ty) =s dt_Name ty)
            && negb (name_in (ToUpper (dt_Name ty)) ["NUMERIC"; "DECIMAL"])
  end.

Definition same_types (t : string) (l : list Expr) : bool := forallb (fun e => infer e =s t) l.

(** The expressions whose type is carried by their values: functions that return one of their arguments
    need arguments of one type, a CASE that reports a type needs branches of that type. *)
Fixpoint typed (e : Expr) : bool :=
  match e with
  | BinaryExpr l op r =>
      negb (token_in op json_predicates)
      && (isComparisonOp op || (negb (is_jsonb env l) && negb (is_jsonb env r))) && typed l && typed r
  | UnaryExpr _ e | ParenExpr e => typed e
  | FunctionCallExpr (mkFunctionCall name args _ _) =>
      negb (ToUpper name =s "JSONB_ARRAY_LENGTH")
      && (negb (name_in (ToUpper name) argument_functions)
          || (forallb typed args && match args with [] => true | a :: _ => same_types (infer a) args end))
  | CaseExpr o ws els =>
      let t := infer (CaseExpr o ws els) in
      (t =s "TEXT")
      || (forallb (fun w => match w with mkWhenClause _ r => typed r && (infer r =s t) end) ws
          && match els with Some x => typed x && (infer x =s t) | None => true end)
  | CastExpr _ ty => cast_ok ty
  | _ => true
  end.

(** The columns of a row have the types that are declared for them. *)
Definition typed_row (row : option Row) : Prop :=
  forall t c v, evalExpr env (ColumnRef t c) row = Ok v -> carrier_ok (infer (ColumnRef t c)) v = true.

Definition gives (p : val -> bool) (m : ev val) : Prop := forall v, m = Ok v -> p v = true.

Lemma gives_bind {A} (p : val -> bool) (m : ev A) (f : A -> ev val) :
  (forall a, m = Ok a -> gives p (f a)) -> gives p (mbind f m).
Proof. intros Hf v (a & Ha & Hv)%bind_ok. exact (Hf a Ha v Hv). Qed.

Lemma gives_ok (p : val -> bool) (v : val) : p v = true -> gives p (Ok v).
Proof. now intros Hp w [= <-]. Qed.

Lemma gives_fails (p : val -> bool) (e : xerror) : gives p (Fails e).
Proof. easy. Qed.

Lemma gives_crash (p : val -> bool) (w : string) : gives p (Crash w).
Proof. easy. Qed.

Lemma gives_fmap {A} (p : val -> bool) (f : A -> val) (m : ev A) : (forall a, p (f a) = true) -> gives p (f <$> m).
Proof. intros Hf v. destruct m; [intros [= <-]; apply Hf|easy..]. Qed.

Ltac gives :=
  repeat first
    [ apply gives_fails | apply gives_crash | apply gives_ok; repeat (match goal with |- context [if ?c then _ else _] => destruct c end); reflexivity
    | apply gives_fmap; intros; reflexivity
    | apply gives_bind; intros ? ?
    | match goal with |- gives _ (match ?x with _ => _ end) => destruct x end ].

(** ** What operators and forms of expressions give *)

Lemma comparison_bool (op : TokenType) (le re : Expr) (l r : val) :
  isComparisonOp op = true -> gives is_bool (binary_values env op le re l r).
Proof.
  intros Ho. unfold binary_values.
  assert (Hj : match evalJSONBBinary env op le re l r with Some m => gives is_bool m | None => True end).
  { unfold evalJSONBBinary. destruct op; try discriminate Ho; cbn [token_eqb isComparisonOp]; cbv zeta;
      change (TokenEq =t TokenAtArrow) with false; cbn;
      destruct (is_jsonb env le), (is_jsonb env re); cbn; try exact I; gives. }
  destruct (evalJSONBBinary env op le re l r); [exact Hj|]. rewrite Ho. gives.
Qed.

Lemma quantified_bool (op : TokenType) (all : bool) (l : val) (es : list (option string)) (ty : string) :
  gives is_bool (evalQuantifiedComparison op all l es ty).
Proof.
  unfold evalQuantifiedComparison.
  assert (Hl : forall saw, gives is_bool (quantified_loop op all l es ty saw)).
  { induction es as [|[e|] es IH]; intros saw; cbn [quantified_loop]; [gives| |apply IH].
    apply gives_bind. intros m _. repeat match goal with |- gives _ (if ?c then _ else _) => destruct c end; try gives.
    apply IH. }
  destruct es; [gives|]. destruct (is_nil l); [gives|apply Hl].
Qed.

Lemma in_list_bool (row : option Row) (le : Expr) (l : val) (neg saw : bool) (vs : list Expr) :
  gives is_bool (in_list env row le l neg vs saw).
Proof.
  revert saw. induction vs as [|x vs IH]; intros saw; cbn [in_list]; [unfold in_end; gives|].
  apply gives_bind. intros v _. apply gives_bind. intros [[|]|] _; [gives|apply IH|apply IH].
Qed.

Lemma in_values_bool (le : Expr) (l : val) (neg saw : bool) (vs : list val) :
  gives is_bool (in_values env le neg l vs saw).
Proof.
  revert saw. induction vs as [|x vs IH]; intros saw; cbn [in_values]; [unfold in_end; gives|].
  apply gives_bind. intros [[|]|] _; [gives|apply IH|apply IH].
Qed.

Lemma between_bool (v lo hi : val) : is_bool (between v lo hi) = true /\ is_bool (not_between v lo hi) = true.
Proof.
  rewrite between_truth, not_between_truth. split; match goal with |- is_bool (truth_value ?t) = _ => now destruct t as [[]|] end.
Qed.

Lemma arithmetic_number (op : TokenType) (l r : val) :
  token_in op [TokenPlus; TokenMinus; TokenStar; TokenSlash; TokenPercent] = true ->
  gives is_number (binary_switch op l r).
Proof.
  intros Ho. destruct op; try discriminate Ho; cbn [binary_switch]; unfold divide, remainder, arithmetic; gives.
Qed.

Lemma arithmetic_int (op : TokenType) (l r : val) :
  token_in op [TokenPlus; TokenMinus; TokenStar; TokenSlash; TokenPercent] = true ->
  is_int l = true -> is_int r = true -> gives is_int (binary_switch op l r).
Proof.
  intros Ho Hl Hr. assert (Hi : is_nil l || is_nil r = true \/ isIntVal l && isIntVal r = true).
  { destruct l as [| |[]| | | | | | |], r as [| |[]| | | | | | |]; try discriminate; auto. }
  destruct op; try discriminate Ho; cbn [binary_switch]; unfold divide, remainder, arithmetic;
    destruct (is_nil l || is_nil r); try gives; destruct Hi as [Hi|Hi]; try discriminate Hi; rewrite Hi; gives.
Qed.

Lemma bitwise_int (op : TokenType) (l r : val) : gives is_int (applyBitwise op l r).
Proof. unfold applyBitwise. destruct op; gives. Qed.

Lemma arithmetic_typed (op : TokenType) (tl tr : string) (l r : val) :
  token_in op [TokenPlus; TokenMinus; TokenStar; TokenSlash; TokenPercent] = true ->
  carrier_ok tl l = true -> carrier_ok tr r = true ->
  gives (carrier_ok (arithmetic_type tl tr)) (binary_switch op l r).
Proof.
  intros Ho Hl Hr. unfold arithmetic_type.
  destruct (isFloatCarrierTypeName tl || isFloatCarrierTypeName tr); [exact (arithmetic_number op l r Ho)|].
  destruct (isIntegerTypeName tl && isIntegerTypeName tr) eqn:E; [|easy]. apply andb_prop in E as [El Er].
  rewrite (carrier_integer tl) in Hl by exact El. rewrite (carrier_integer tr) in Hr by exact Er.
  exact (arithmetic_int op l r Ho Hl Hr).
Qed.

Lemma truth_bool (t : option bool) : is_bool (truth_value t) = true.
Proof. now destruct t as [[]|]. Qed.

Lemma json_or_text_typed (c : bool) (m : ev val) : gives (carrier_ok (if c then "JSONB" else "TEXT")) m.
Proof. intros v _. now destruct c. Qed.

Lemma binary_typed (op : TokenType) (le re : Expr) (l r : val) :
  negb (token_in op json_predicates) && (isComparisonOp op || (negb (is_jsonb env le) && negb (is_jsonb env re))) = true ->
  carrier_ok (infer le) l = true -> carrier_ok (infer re) r = true ->
  gives (carrier_ok (binary_type op (infer le) (infer re))) (binary_values env op le re l r).
Proof.
  intros [Hp Hj]%andb_prop Hl Hr. destruct (isComparisonOp op) eqn:Ho.
  - replace (binary_type op (infer le) (infer re)) with "BOOLEAN" by (destruct op; try discriminate Ho; reflexivity).
    exact (comparison_bool op le re l r Ho).
  - cbn [orb] in Hj. apply andb_prop in Hj as [Jl%negb_true_iff Jr%negb_true_iff].
    unfold binary_values, evalJSONBBinary. rewrite Jl, Jr, Ho. cbn [orb andb].
    assert (Hnone : (if ((op =t TokenAtArrow) || (op =t TokenLtAt)) && negb false && negb false
      then arrayEqualityType env (Some le) (Some re) else None) = None)
      by (destruct op; try discriminate Hp; reflexivity).
    rewrite Hnone.
    destruct op; try discriminate Hp; try discriminate Ho; try (intros v Hv; reflexivity).
    all: match goal with
      | |- gives (carrier_ok (binary_type ?op ?tl ?tr)) _ =>
          lazymatch op with
          | TokenMinus =>
              change (gives (carrier_ok (if EqualFold tl "JSONB" then "JSONB" else arithmetic_type tl tr)) (binary_switch op l r));
              destruct (EqualFold tl "JSONB"); [easy|now apply arithmetic_typed]
          | TokenConcat => change (binary_type op tl tr) with (if EqualFold tl "JSONB" || EqualFold tr "JSONB" then "JSONB" else "TEXT");
              apply json_or_text_typed
          | TokenArrow => change (binary_type op tl tr) with (if EqualFold tl "JSONB" then "JSONB" else "TEXT");
              apply json_or_text_typed
          | TokenHashArrow => change (binary_type op tl tr) with (if EqualFold tl "JSONB" then "JSONB" else "TEXT");
              apply json_or_text_typed
          | TokenHashMinus => change (binary_type op tl tr) with (if EqualFold tl "JSONB" then "JSONB" else "TEXT");
              apply json_or_text_typed
          | TokenAND => change (gives is_bool (Ok (and3 l r))); rewrite and3_truth; apply gives_ok, truth_bool
          | TokenOR => change (gives is_bool (Ok (or3 l r))); rewrite or3_truth; apply gives_ok, truth_bool
          | TokenPlus => change (gives (carrier_ok (arithmetic_type tl tr)) (binary_switch op l r)); now apply arithmetic_typed
          | TokenStar => change (gives (carrier_ok (arithmetic_type tl tr)) (binary_switch op l r)); now apply arithmetic_typed
          | TokenSlash => change (gives (carrier_ok (arithmetic_type tl tr)) (binary_switch op l r)); now apply arithmetic_typed
          | TokenPercent => change (gives (carrier_ok (arithmetic_type tl tr)) (binary_switch op l r)); now apply arithmetic_typed
          | _ => change (gives is_int (if is_nil l || is_nil r then Ok VNil else applyBitwise op l r));
                 destruct (is_nil l || is_nil r); [gives|apply bitwise_int]
          end
      end.
Qed.

Lemma unary_typed (op : TokenType) (t : string) (v : val) :
  carrier_ok t v = true -> carrier_ok (unary_type op t) (applyUnary op v) = true.
Proof.
  intros Hv. assert (Hsign : forall w, is_number w = true -> (is_int v = true -> is_int w = true) ->
    carrier_ok (if isFloatCarrierTypeName t then "DOUBLE" else if isIntegerTypeName t then t else "TEXT") w = true).
  { intros w Hn Hi. destruct (isFloatCarrierTypeName t); [exact Hn|]. destruct (isIntegerTypeName t) eqn:E; [|easy].
    rewrite carrier_integer in Hv |- * by exact E. auto. }
  destruct op; try reflexivity; cbn [unary_type applyUnary].
  - apply Hsign; unfold unary_plus; destruct v as [| |[]| | | | | | |]; try destruct o; easy.
  - apply Hsign; unfold negate; destruct v as [| |[]| | | | | | |]; try destruct o; easy.
  - change (is_int (if is_nil v then VNil else Int (Z.lnot (toInt64 v))) = true). now destruct (is_nil v).
  - change (is_bool (not3 v) = true). unfold not3. now destruct (is_nil v).
Qed.

Lemma literal_typed (ty : TokenType) (s : string) : gives (carrier_ok (literalType ty s)) (evalLiteral ty s).
Proof.
  destruct ty; try (intros v _; reflexivity); cbn [literalType evalLiteral]; try (apply gives_ok; reflexivity).
  destruct (has_byte point_or_exponent s).
  - destruct (ParseFloat binary64 s) as [f|]; [|gives]. apply gives_ok. now destruct (feq _ _).
  - unfold some_or. destruct (ParseInt s) as [n|]; [|gives]. apply gives_ok. now destruct (_ && _).
Qed.

Lemma array_result_text (element : string) (v : val) : is_text v = true -> carrier_ok (arrayResultTypeName element) v = true.
Proof.
  intros Hv. unfold arrayResultTypeName. cbv zeta.
  repeat match goal with |- carrier_ok (if ?c then _ else _) _ = _ => destruct c end; exact Hv.
Qed.

(** The cast of a value that is not NULL to a type that is not an array. *)
Definition cast_scalar (ty : DataType) (v : val) : ev val :=
  match catalogCast (dt_Name ty) v with
  | Some r => r
  | None =>
      let n := ToUpper (dt_Name ty) in
      if n =s "JSONB" then cast_jsonb v
      else if contains_text n "INT" then Ok (Int (int64_of_float (toFloat v)))
      else if contains_text n "REAL" || contains_text n "FLOAT" || contains_text n "DOUBLE" then Ok (Real (toFloat v))
      else if contains_text n "BLOB" then
        Ok (match v with VBytes b => VBytes b | _ => VBytes (bytes (toString v)) end)
      else if contains_text n "TEXT" || contains_text n "CHAR" then Ok (Text (toString v))
      else Ok v
  end.

Definition cast_carriers : list (list string * (val -> bool)) :=
  [(["SMALLINT"; "INTEGER"; "INT"; "TINYINT"; "MEDIUMINT"; "BIGINT"], is_int);
   (["REAL"; "FLOAT"; "DOUBLE"], is_number); (["BLOB"], is_blob)].

Lemma cast_scalar_gives (ty : DataType) (v : val) (names : list string) (p : val -> bool) :
  TrimSpace (dt_Name ty) = dt_Name ty -> In (names, p) cast_carriers -> name_in (ToUpper (dt_Name ty)) names = true ->
  gives p (cast_scalar ty v).
Proof.
  intros Ht Hin Hn. unfold cast_scalar, catalogCast, trimmed_upper. rewrite Ht.
  destruct Hin as [[= <- <-]|[[= <- <-]|[[= <- <-]|[]]]]; in_names Hn; rewrite Hn;
    destruct v as [| | | | | | | | |[|oid name|]]; intros w [= <-]; reflexivity.
Qed.

Lemma cast_typed (ty : DataType) (operand : Expr) (v : val) :
  cast_ok ty = true -> gives (carrier_ok (default "TEXT" (castResultType (SQLTypeName ty) operand))) (cast_value ty v).
Proof.
  intros Hc. unfold cast_value. destruct (is_nil v); [apply gives_ok, carrier_null|].
  unfold cast_ok in Hc. unfold castResultType. destruct (arrayElementType (SQLTypeName ty)) as [element|].
  - rewrite Hc. cbn [default]. unfold evalArrayCast. destruct v; try apply gives_fails.
    + apply gives_ok, carrier_null.
    + intros w Hw. destruct (canonicalArrayText s (SQLTypeName ty)); try discriminate Hw. injection Hw as <-.
      now apply array_result_text.
  - apply andb_prop in Hc as [[Ha%negb_true_iff Ht]%andb_prop Hn%negb_true_iff]. rewrite Ha.
    apply String.eqb_eq in Ht. fold (cast_scalar ty v). unfold SQLTypeName. rewrite Ha.
    pose proof (fun names p => cast_scalar_gives ty v names p Ht) as Hg. unfold trimmed_upper. rewrite Ht.
    set (n := ToUpper (dt_Name ty)) in *. clearbody n. cbv zeta.
    pose proof (Hg _ _ (or_introl eq_refl)) as Gi. pose proof (Hg _ _ (or_intror (or_introl eq_refl))) as Gr.
    pose proof (Hg _ _ (or_intror (or_intror (or_introl eq_refl)))) as Gb. clear Hg.
    destruct (n =s "SMALLINT") eqn:E1; [apply String.eqb_eq in E1 as ->; destruct (between_floats _ _ _); exact (Gi eq_refl)|].
    destruct (name_in n ["INTEGER"; "INT"]) eqn:E2;
      [in_names E2; subst n; destruct (between_floats _ _ _); exact (Gi eq_refl)|].
    destruct (name_in n ["TINYINT"; "MEDIUMINT"; "BIGINT"]) eqn:E3; [in_names E3; subst n; exact (Gi eq_refl)|].
    destruct (name_in n ["REAL"; "FLOAT"]) eqn:E4;
      [in_names E4; subst n; match goal with |- context [if ?c then "REAL" else _] => destruct c end; exact (Gr eq_refl)|].
    destruct (n =s "DOUBLE") eqn:E5; [apply String.eqb_eq in E5 as ->; exact (Gr eq_refl)|].
    rewrite Hn. clear Hn.
    destruct (name_in n ("TEXT" :: _)); [intros w _; reflexivity|].
    destruct (name_in n ("BLOB" :: "JSONB" :: _)) eqn:E6; [|intros w _; reflexivity].
    in_names E6; subst n; try (intros w _; reflexivity). exact (Gb eq_refl).
Qed.

(** A subscript gives a value of the element type. *)
Lemma element_typed (t raw : string) : gives (carrier_ok t) (arrayElementValue (Some raw) t).
Proof.
  cbn [arrayElementValue]. unfold arrayElementKindForName. fold (trimmed_upper t). cbv zeta.
  destruct (name_in (trimmed_upper t) text_type_names) eqn:E1.
  { cbn [mbind ev_bind]. apply gives_ok. unfold carrier_ok, isIntegerTypeName, real_names.
    unfold arrayElementType. fold (trimmed_upper t). unfold text_type_names in E1. in_names E1; rewrite E1; reflexivity. }
  destruct (name_in (trimmed_upper t) integer_type_names) eqn:E2.
  { cbn [mbind ev_bind]. assert (Hi : isIntegerTypeName t = true)
      by (unfold isIntegerTypeName; unfold integer_type_names in E2; in_names E2; now rewrite E2).
    unfold some_or. destruct (ParseInt raw); [|gives]. apply gives_ok. now rewrite carrier_integer. }
  destruct (name_in (trimmed_upper t) ["REAL"; "FLOAT"; "DOUBLE"]) eqn:E3.
  { cbn [mbind ev_bind]. unfold some_or. destruct (ParseFloat binary64 raw); [|gives]. apply gives_ok.
    unfold carrier_ok, isIntegerTypeName, real_names. in_names E3; rewrite E3; reflexivity. }
  destruct (name_in (trimmed_upper t) ["NUMERIC"; "DECIMAL"]) eqn:E4.
  { cbn [mbind ev_bind]. unfold some_or. destruct (normalizeNumericArrayElement raw); [|gives]. apply gives_ok.
    unfold carrier_ok, isIntegerTypeName, real_names, arrayElementType. fold (trimmed_upper t).
    in_names E4; rewrite E4; reflexivity. }
  destruct (name_in (trimmed_upper t) ["BOOLEAN"; "BOOL"]) eqn:E5; [|gives].
  cbn [mbind ev_bind]. unfold some_or. destruct (parseArrayBoolean raw); [|gives]. apply gives_ok.
  unfold carrier_ok, isIntegerTypeName, real_names, arrayElementType. fold (trimmed_upper t).
  in_names E5; rewrite E5; reflexivity.
Qed.

Lemma subscript_typed (t : string) (v i : val) :
  gives (carrier_ok (subscript_type t)) (subscriptArrayValue (arrayElementType t) v i).
Proof.
  unfold subscriptArrayValue, subscript_type. destruct (is_nil v || is_nil i); [apply gives_ok, carrier_null|].
  apply gives_bind. intros position _. apply gives_bind. intros elements _.
  destruct (_ || _); [apply gives_ok, carrier_null|]. destruct (nth _ _ _) as [e|]; [|apply gives_ok, carrier_null].
  destruct (arrayElementType t) as [element|]; [apply element_typed|apply gives_ok; reflexivity].
Qed.

(** *** Functions that return one of their arguments *)

Lemma extreme_in (c : comparison) (args : list val) : args <> [] -> In (extreme c args) args.
Proof.
  destruct args as [|a args]; [easy|]. intros _. cbn [extreme].
  assert (Hf : forall l m, In m (a :: args) -> incl l (a :: args) ->
    In (fold_left (fun m x => if decide (compare x m = c) then x else m) l m) (a :: args)).
  { induction l as [|x l IH]; intros m Hm Hl; [exact Hm|]. cbn. apply IH; [|intros y Hy; apply Hl; now right].
    destruct (decide _); [apply Hl; now left|exact Hm]. }
  apply Hf; [now left|]. intros x Hx. now right.
Qed.

Lemma argument_function_typed (f : FunctionCall) (t : string) (args : list val) :
  match f with mkFunctionCall name _ _ _ => name_in (ToUpper name) argument_functions = true end ->
  Forall (fun v => carrier_ok t v = true) args -> gives (carrier_ok t) (function_values env f args).
Proof.
  destruct f as [name exprs d s]. intros Hn Ha. unfold function_values. cbv zeta.
  assert (Hin : forall v, In v args -> carrier_ok t v = true) by (now apply List.Forall_forall).
  unfold argument_functions in Hn. in_names Hn; rewrite Hn; intros v Hv.
  - injection Hv as <-. destruct args as [|a args]; [apply carrier_null|]. now apply Hin, extreme_in.
  - injection Hv as <-. destruct args as [|a args]; [apply carrier_null|]. now apply Hin, extreme_in.
  - change (Ok (default VNil (find (fun a => negb (is_nil a)) args)) = Ok v) in Hv.
    destruct (find (fun a => negb (is_nil a)) args) as [a|] eqn:E;
      [|injection Hv as <-; apply carrier_null].
    injection Hv as <-. apply find_some in E as [Hi _]. now apply Hin.
  - destruct args as [|a [|b args]]; injection Hv as <-; try apply carrier_null. destruct (is_nil a); apply Hin; cbn; auto.
  - injection Hv as <-. apply carrier_null.
  - destruct args as [|a [|b args]]; injection Hv as <-; try apply carrier_null; [apply Hin; now left|].
    destruct (decide _); [apply carrier_null|apply Hin; now left].
  - destruct args as [|a [|b args]]; try discriminate Hv. injection Hv as <-. apply Hin. now left.
Qed.

(** The functions whose type is not TEXT give NULL where no aggregate is computed, or an integer. *)
Lemma other_function_typed (f : FunctionCall) (first : string) (args : list val) :
  match f with mkFunctionCall name _ _ _ =>
    name_in (ToUpper name) argument_functions = false /\ (ToUpper name =s "JSONB_ARRAY_LENGTH") = false end ->
  gives (carrier_ok (match f with mkFunctionCall name _ _ _ => function_type name first end)) (function_values env f args).
Proof.
  destruct f as [name exprs d s]. intros [Hn Hj]. unfold function_type, function_values. cbv zeta. rewrite Hn.
  set (n := ToUpper name) in *. clearbody n.
  destruct (n =s "COUNT") eqn:E1; [apply String.eqb_eq in E1 as ->; apply gives_ok, carrier_null|].
  destruct (n =s "SUM") eqn:E2; [apply String.eqb_eq in E2 as ->; apply gives_ok, carrier_null|].
  destruct (name_in n ["TOTAL"; "AVG"]) eqn:E3; [in_names E3; subst n; apply gives_ok, carrier_null|].
  destruct (name_in n ["ARRAY_LENGTH"; "JSONB_ARRAY_LENGTH"]) eqn:E4.
  { in_names E4; subst n; [|discriminate Hj]. change (gives is_int (evalArrayLength args)).
    unfold evalArrayLength. gives; apply gives_ok; now repeat match goal with |- context [match ?x with _ => _ end] => destruct x end. }
  repeat match goal with |- gives (carrier_ok (if ?c then _ else _)) _ => destruct c; [intros v _; reflexivity|] end.
  intros v _. reflexivity.
Qed.

(** *** CASE *)

(** The loop over the branches. *)
Definition case_loop (row : option Row) (subject : option (Expr * val)) (els : option Expr) : list WhenClause -> ev val :=
  fix branches ws :=
    match ws with
    | [] => match els with Some e => evalExpr env e row | None => Ok VNil end
    | mkWhenClause c result :: rest =>
        cond ← evalExpr env c row;
        match' ← match subject with
                 | None => Ok (toBool cond)
                 | Some (o, v) => if is_nil v then Ok false
                                  else compareExprValues env TokenEq (Some o) (Some c) v cond
                 end;
        if match' : bool then evalExpr env result row else branches rest
    end.

Lemma case_typed (row : option Row) (subject : option (Expr * val)) (els : option Expr) (ws : list WhenClause)
    (p : val -> bool) :
  p VNil = true -> Forall (fun w => match w with mkWhenClause _ r => gives p (evalExpr env r row) end) ws ->
  match els with Some e => gives p (evalExpr env e row) | None => True end ->
  gives p (case_loop row subject els ws).
Proof.
  intros Hn Hw He. induction Hw as [|[c r] ws Hr _ IH]; cbn [case_loop].
  - destruct els; [exact He|now apply gives_ok].
  - apply gives_bind. intros cond _. apply gives_bind. intros [|] _; assumption.
Qed.

(** ** Expressions *)

Lemma in_typed (row : option Row) (le : Expr) (neg : bool) (vs : list Expr) (q : option SelectStmt) :
  gives is_bool (evalExpr env (InExpr le neg vs q) row).
Proof.
  destruct q as [q|]; [cbn [evalExpr]|rewrite eval_in]; apply gives_bind; intros left _.
  - apply gives_bind. intros l _. destruct (is_nil left); [gives|apply in_values_bool].
  - destruct vs; [gives|]. destruct (is_nil left); [gives|apply in_list_bool].
Qed.

Lemma call_typed (row : option Row) (n : string) (args : list Expr) (d s : bool) :
  Forall (fun e => typed e = true -> gives (carrier_ok (infer e)) (evalExpr env e row)) args ->
  typed (FunctionCallExpr (mkFunctionCall n args d s)) = true ->
  gives (carrier_ok (infer (FunctionCallExpr (mkFunctionCall n args d s))))
    (evalExpr env (FunctionCallExpr (mkFunctionCall n args d s)) row).
Proof.
  intros IH Ht. rewrite eval_call. cbn [typed] in Ht. apply andb_prop in Ht as [Hj%negb_true_iff Ht].
  intros v (vs & Hvs & Hv)%bind_ok. revert v Hv. set (f := mkFunctionCall n args d s).
  set (first := match args with [] => "TEXT" | a :: _ => infer a end).
  change (infer (FunctionCallExpr f)) with (function_type n first).
  destruct (name_in (ToUpper n) argument_functions) eqn:En; [|now apply (other_function_typed f first vs)].
  cbn [negb orb] in Ht. apply andb_prop in Ht as [Hall Hsame].
  assert (Hf : function_type n first = first)
    by (unfold function_type; unfold argument_functions in En; in_names En; rewrite En; reflexivity).
  rewrite Hf. apply argument_function_typed; [exact En|].
  apply mapE_ok in Hvs. clear Hf. rewrite forallb_forall in Hall.
  assert (Hs : forall a, In a args -> infer a = first).
  { intros a Ha. unfold first. destruct args as [|b args]; [easy|]. unfold same_types in Hsame.
    rewrite forallb_forall in Hsame. now apply String.eqb_eq, Hsame. }
  clearbody first. clear Hsame Hj En f. induction Hvs as [|a v args vs Hav _ IHv]; [constructor|].
  inversion IH; subst. constructor.
  - rewrite <- (Hs a) by now left. apply (H3 (Hall a (or_introl eq_refl)) v Hav).
  - apply IHv; [assumption|intros; apply Hall; now right|intros; apply Hs; now right].
Qed.

(** A BOOLEAN is carried by a truth value. *)
Ltac as_bool := match goal with |- gives _ ?m => change (gives is_bool m) end.

Lemma types_carried (row : option Row) (e : Expr) :
  typed_row row -> typed e = true -> gives (carrier_ok (infer e)) (evalExpr env e row).
Proof.
  intros Hrow. induction e using expr_sub_ind; intros Ht.
  - cbn [typed] in Ht. apply andb_prop in Ht as [[Hop Hl]%andb_prop Hr].
    intros v (lv & Hlv & (rv & Hrv & Hv)%bind_ok)%bind_ok.
    exact (binary_typed op e1 e2 lv rv Hop (IHe1 Hl lv Hlv) (IHe2 Hr rv Hrv) v Hv).
  - intros v Hv. cbn [evalExpr] in Hv. destruct (evalExpr env e row) as [w| |] eqn:E; try discriminate Hv.
    injection Hv as <-. apply unary_typed. exact (IHe Ht w eq_refl).
  - apply literal_typed.
  - intros w Hw. now apply Hrow.
  - now apply call_typed.
  - apply gives_fails.
  - intros w _. reflexivity.
  - change (evalExpr env (CaseExpr o ws e) row) with
      (subject ← match o with None => Ok None | Some x => v ← evalExpr env x row; Ok (Some (x, v)) end;
       case_loop row subject e ws).
    apply gives_bind. intros subject _. cbn [typed] in Ht. apply orb_prop in Ht as [Ht|Ht].
    + apply String.eqb_eq in Ht. rewrite Ht. intros w _. reflexivity.
    + apply andb_prop in Ht as [Hw He]. set (t := infer (CaseExpr o ws e)) in *. clearbody t.
      apply case_typed; [apply carrier_null| |].
      * rewrite forallb_forall in Hw. apply List.Forall_forall. intros [c r] Hin.
        specialize (Hw _ Hin). cbn in Hw. apply andb_prop in Hw as [Hr Et%String.eqb_eq].
        rewrite List.Forall_forall in H2. destruct (H2 _ Hin) as [_ IHr]. rewrite <- Et. now apply IHr.
      * destruct e as [x|]; [|exact I]. apply andb_prop in He as [Hx Et%String.eqb_eq]. rewrite <- Et. now apply H3.
  - apply in_typed.
  - intros w (v & _ & (low & _ & (high & _ & [= <-])%bind_ok)%bind_ok)%bind_ok.
    change (is_bool (if n then not_between v low high else between v low high) = true).
    destruct n; apply between_bool.
  - as_bool. cbn [evalExpr]. gives.
  - as_bool. cbn [evalExpr]. gives.
  - as_bool. cbn [evalExpr]. gives.
  - cbn [typed] in Ht. cbn [evalExpr]. apply gives_bind. intros v _. now apply cast_typed.
  - as_bool. cbn [evalExpr]. apply gives_bind. intros result _. gives.
  - cbn [evalExpr]. apply gives_bind. intros texts _. apply gives_ok. now apply array_result_text.
  - cbn [evalExpr]. apply gives_bind. intros v _. apply gives_bind. intros i _. apply subscript_typed.
  - as_bool. cbn [evalExpr].
    apply gives_bind. intros left _. apply gives_bind. intros v _. destruct (is_nil v); [gives|].
    apply gives_bind. intros elements _. apply quantified_bool.
  - exact (IHe Ht).
Qed.
End Typed.

(** ** Properties *)

(** C10: The type reported for an expression is carried by its values: an expression of an integer type is
    NULL or an integer, of a float type NULL or a number, BOOLEAN a truth value, BLOB bytes, an array its
    text - for every row whose columns have their declared types and every expression outside the listed
    exceptions, which are operators and functions that are not in the model, casts to NUMERIC, and calls
    and CASEs over operands of different types. *)
Theorem inferred_types_are_carried `{Builtins} (env : Env) (row : option Row) (e : Expr) (v : val) :
  typed_row env row -> typed env e = true -> evalExpr env e row = Ok v ->
  carrier_ok (inferExprType (resolve env) e) v = true.
Proof. intros Hr Ht. exact (types_carried env row e Hr Ht v). Qed.

Section Witnesses.
#[local] Existing Instance no_foreign.
#[local] Existing Instance no_builtins.

(** [CASE WHEN TRUE THEN -(3 + 4.5) ELSE 0.5 END] *)
Definition sample_case : Expr :=
  CaseExpr None [mkWhenClause (LiteralExpr TokenTRUE EmptyString)
                   (UnaryExpr TokenMinus (ParenExpr (BinaryExpr (num "3") TokenPlus (num "4.5"))))] (Some (num "0.5")).

Lemma no_row_typed : typed_row no_env None.
Proof.
  intros t c v Hv. cbn [evalExpr] in Hv. unfold evalColumnRef in Hv. cbn [default] in Hv.
  destruct (_ && _); [|discriminate Hv]. unfold sqliteCurrentTimeValue in Hv. destruct (name_in _ _) eqn:E; [|discriminate Hv].
  injection Hv as <-. cbn [inferExprType resolve resolveColumnType typeScopes no_env].
  assert (IsRowIDColumn c = false) as ->; [|reflexivity].
  unfold IsRowIDColumn. in_names E; destruct (String.eqb_spec (ToLower c) "rowid");
    try congruence; rewrite E; reflexivity.
Qed.

Lemma inferred_types_are_carried_witness :
  inferExprType (resolve no_env) sample_case = "DOUBLE"
  /\ exists v, evalExpr no_env sample_case None = Ok v /\ carrier_ok "DOUBLE" v = true.
Proof.
  split; [vm_compute; reflexivity|]. eexists. split; [vm_compute; reflexivity|].
  apply (inferred_types_are_carried no_env None sample_case); [exact no_row_typed|vm_compute; reflexivity|vm_compute; reflexivity].
Defined.

(** A subscript of a NUMERIC array reports NUMERIC, which clients decode as a float, and gives a text. *)
Theorem numeric_element_is_text :
  let e := SubscriptExpr (CastExpr (str "{1.50}") (mkDataType "NUMERIC" 0 0 true)) (num "1") in
  inferExprType (resolve no_env) e = "NUMERIC" /\ evalExpr no_env e None = Ok (Text "1.50").
Proof. vm_compute. auto. Qed.
End Witnesses.
