(* ===== verification/SelectFacts.v ===== *)
(** * SELECT: set operations, DISTINCT, and queries from their text

    UNION, INTERSECT and EXCEPT as operations on the keys of rows, DISTINCT as the first row of each key.
    The queries at the end run from their text: they show where SELECT departs from what is documented. *)
From Stdlib Require Import NArith ZArith Lia Bool Ascii String List Floats.SpecFloat.
From stdpp Require Import base option list gmap strings.
From S2P Require Import Prelude Token Ast Bytes RowCodec Float Values Schema ExecValue Arrays ExprTypes.
From S2P Require Import Operators Eval Aggregates Sorting Joins Select.
From S2P Require ParserMonad Grammar Statements Lexer.

#[local] Open Scope string_scope.
#[local] Set Warnings "-clear-no-such-hyp".

(** ** Joined texts *)

Lemma join_byte_cons (c : ascii) (a b : string) (l : list string) :
  Join (a :: b :: l) (str1 c) = (a ++ String c (Join (b :: l) (str1 c)))%string.
Proof. reflexivity. Qed.

(** Texts without a byte can be told from the text they are joined to by it. *)
Lemma join_byte_inj (c : ascii) (l l' : list string) :
  Forall (fun t => string_forallb (fun b => negb (b =b c)) t = true) l ->
  Forall (fun t => string_forallb (fun b => negb (b =b c)) t = true) l' ->
  length l = length l' -> Join l (str1 c) = Join l' (str1 c) -> l = l'.
Proof.
  intros Hl. revert l'. induction Hl as [|a l Ha Hl IH]; intros [|a' l'] Hl' Hlen; try discriminate Hlen; [reflexivity|].
  inversion Hl' as [|? ? Ha' Hl'']; subst. destruct l as [|b l], l' as [|b' l']; try discriminate Hlen.
  - cbn. congruence.
  - rewrite !join_byte_cons. intros E. apply (break_at (fun x => negb (x =b c)) c) in E as [-> E]; auto.
    + f_equal. apply IH; auto.
    + now rewrite Ascii.eqb_refl.
Qed.

Section Sets.
Context `{Foreign}.

(** ** The rows that are kept *)

(** The rows of a list whose key is wanted and new, the first of each key. *)
Fixpoint first_rows (key : list val -> string) (wanted : string -> bool) (seen : list string) (rows : list (list val))
    : list (list val) :=
  match rows with
  | [] => []
  | row :: r =>
      let k := key row in
      if wanted k && negb (name_in k seen) then row :: first_rows key wanted (k :: seen) r
      else first_rows key wanted seen r
  end.

Lemma name_in_elem (k : string) (l : list string) : name_in k l = true <-> k ∈ l.
Proof.
  unfold name_in. rewrite existsb_exists, list_elem_of_In. split.
  - intros (x & Hx & ->%String.eqb_eq). exact Hx.
  - intros Hk. exists k. split; [exact Hk|apply String.eqb_refl].
Qed.

Lemma first_rows_spec (key : list val -> string) (wanted : string -> bool) (seen : list string) (rows : list (list val)) :
  let out := first_rows key wanted seen rows in
  NoDup (map key out)
  /\ (forall k, k ∈ map key out <-> k ∈ map key rows /\ wanted k = true /\ k ∉ seen)
  /\ sublist out rows.
Proof.
  revert seen. induction rows as [|row rows IH]; intros seen; cbn [first_rows].
  - split; [constructor|]. split; [|constructor]. intros k. cbn. split; [intros Hk; now apply not_elem_of_nil in Hk|intros [Hk _]; exact Hk].
  - cbv zeta. destruct (wanted (key row) && negb (name_in (key row) seen)) eqn:E.
    + apply andb_prop in E as [Ew Es%negb_true_iff]. assert (Hs : key row ∉ seen) by (rewrite <- name_in_elem; congruence).
      destruct (IH (key row :: seen)) as (Hn & Hk & Hsub). cbn [map]. split; [|split].
      * constructor; [|exact Hn]. rewrite Hk, not_elem_of_cons. tauto.
      * intros k. rewrite !elem_of_cons, Hk, not_elem_of_cons.
        destruct (decide (k = key row)) as [->|Ek]; tauto.
      * now apply sublist_skip.
    + destruct (IH seen) as (Hn & Hk & Hsub). split; [exact Hn|]. split; [|now apply sublist_cons].
      intros k. cbn [map]. rewrite elem_of_cons, Hk. split; [tauto|]. intros [[->|Hin] [Hw Hs]]; [|tauto].
      rewrite Hw in E. cbn in E. apply negb_false_iff, name_in_elem in E. contradiction.
Qed.

Lemma new_rows_first (wanted : string -> bool) (seen : list string) (rows : list (list val)) :
  new_rows wanted seen rows = first_rows row_key wanted seen rows.
Proof. revert seen. induction rows as [|row rows IH]; intros seen; cbn; [reflexivity|]. now rewrite !IH. Qed.

Lemma distinct_rows_first (seen : list string) (rows : list (list val)) :
  distinct_rows seen rows = first_rows distinct_key (fun _ => true) seen rows.
Proof.
  revert seen. induction rows as [|row rows IH]; intros seen; cbn; [reflexivity|]. rewrite !IH.
  now destruct (name_in _ _).
Qed.

(** The text of a value in the key of a row, and the rows whose keys are told apart. *)
Definition cell (v : val) : string := if is_nil v then null_key else sprint v.
Definition plain_row (row : list val) : Prop :=
  Forall (fun v => string_forallb (fun b => negb (b =b Prelude.byte 1)) (cell v) = true) row.

Lemma row_key_inj (a b : list val) :
  plain_row a -> plain_row b -> length a = length b -> row_key a = row_key b -> map cell a = map cell b.
Proof.
  intros Ha Hb Hlen. apply join_byte_inj; [now apply Forall_map|now apply Forall_map|now rewrite !length_map].
Qed.

(** No value of the row has the text that stands for NULL. *)
Definition no_marker (row : list val) : Prop := Forall (fun v => is_nil v = true \/ sprint v <> null_key) row.

Lemma cells_nil (a b : list val) : no_marker a -> no_marker b -> map cell a = map cell b -> map is_nil a = map is_nil b.
Proof.
  intros Ha. revert b. induction Ha as [|v a Hv Ha IH]; intros [|w b] Hb; try easy. cbn [map]. intros [= Hc Hr].
  apply Forall_cons in Hb as [Hw Hb]. f_equal; [|now apply IH]. unfold cell in Hc.
  destruct (is_nil v), (is_nil w); naive_solver.
Qed.

(** The keys a set operation is about. *)
Definition in_result (op : SetOpType) (k : string) (l r : list string) : Prop :=
  match op with
  | SetOpUnion | SetOpUnionAll => k ∈ l \/ k ∈ r
  | SetOpIntersect => k ∈ l /\ k ∈ r
  | SetOpExcept => k ∈ l /\ k ∉ r
  end.

(** C21: UNION, INTERSECT and EXCEPT are the set operations on the keys of rows: the result has each key
    once, has the keys of the union, the intersection or the difference, and is made of rows of the
    operands in their order; UNION ALL is the concatenation. Rows of one width whose texts have no byte 1
    have the same key only if they have the same texts, where NULL counts as the text of a NUL byte and
    the word NULL; where no value has that text ([no_marker]), they have NULL in the same places, too. Where one
    has, the two count as the same: [union_confuses_null]. *)
Theorem set_operations_exact (op : SetOpType) (l r : list (list val)) :
  let out := set_operation op l r in
  (op = SetOpUnionAll -> out = l ++ r)%list
  /\ (op <> SetOpUnionAll -> NoDup (map row_key out))
  /\ (forall k, k ∈ map row_key out <-> in_result op k (map row_key l) (map row_key r))
  /\ sublist out (l ++ r)%list
  /\ forall a b, In a out -> In b out -> plain_row a -> plain_row b -> length a = length b ->
     row_key a = row_key b ->
     map cell a = map cell b /\ (no_marker a -> no_marker b -> map is_nil a = map is_nil b).
Proof.
  cbv zeta. assert (Hinj : forall a b, plain_row a -> plain_row b -> length a = length b ->
    row_key a = row_key b -> map cell a = map cell b /\ (no_marker a -> no_marker b -> map is_nil a = map is_nil b))
    by (intros; split; [now apply row_key_inj|intros; now apply cells_nil, row_key_inj]).
  assert (Hall : forall w rows, rows = (l ++ r)%list \/ rows = l -> sublist (first_rows row_key w [] rows) (l ++ r)%list).
  { intros w rows Hr. destruct (first_rows_spec row_key w [] rows) as (_ & _ & Hs).
    destruct Hr as [->| ->]; [exact Hs|]. transitivity l; [exact Hs|]. apply sublist_inserts_r. reflexivity. }
  destruct op; cbn [set_operation in_result]; rewrite ?new_rows_first.
  - destruct (first_rows_spec row_key (fun _ => true) [] (l ++ r)) as (Hn & Hk & _).
    split; [easy|]. split; [auto|]. split; [|split; [apply Hall; auto|auto]].
    intros k. rewrite Hk, map_app, elem_of_app. pose proof (not_elem_of_nil k). tauto.
  - split; [auto|]. split; [easy|]. split; [|split; [reflexivity|auto]]. intros k. now rewrite map_app, elem_of_app.
  - destruct (first_rows_spec row_key (fun k => name_in k (map row_key r)) [] l) as (Hn & Hk & _).
    split; [easy|]. split; [auto|]. split; [|split; [apply Hall; auto|auto]].
    intros k. rewrite Hk, name_in_elem. pose proof (not_elem_of_nil k). tauto.
  - destruct (first_rows_spec row_key (fun k => negb (name_in k (map row_key r))) [] l) as (Hn & Hk & _).
    split; [easy|]. split; [auto|]. split; [|split; [apply Hall; auto|auto]].
    intros k. rewrite Hk, negb_true_iff, <- not_true_iff_false, name_in_elem. pose proof (not_elem_of_nil k). tauto.
Qed.

(** NULL, and the text of a NUL byte and the word NULL, are one row of a union. *)
Theorem union_confuses_null : set_operation SetOpUnion [[VNil]] [[Text null_key]] = [[VNil]].
Proof. vm_compute. reflexivity. Qed.

(** DISTINCT keeps the first row of each key. *)
Lemma distinct_exact (rows : list (list val)) :
  NoDup (map distinct_key (applyDistinct rows))
  /\ (forall k, k ∈ map distinct_key (applyDistinct rows) <-> k ∈ map distinct_key rows)
  /\ sublist (applyDistinct rows) rows.
Proof.
  unfold applyDistinct. rewrite distinct_rows_first.
  destruct (first_rows_spec distinct_key (fun _ => true) [] rows) as (Hn & Hk & Hs). split; [exact Hn|]. split; [|exact Hs].
  intros k. rewrite Hk. pose proof (not_elem_of_nil k). tauto.
Qed.
End Sets.

(** ** Queries *)

Section Queries.
#[local] Existing Instance no_foreign.
#[local] Existing Instance ParserMonad.lexer_source.
#[local] Existing Instance no_builtins.
#[local] Existing Instance no_relations.
#[local] Existing Instance no_tables.
#[local] Existing Instance no_sources.

(** The columns and rows of a query. *)
Definition query (sql : string) : ev (list string * list (list val)) :=
  match Statements.parse_source Statements.Parse sql with
  | ParserMonad.Ok (StSelect s) _ => r ← executeSelect no_env s; Ok (r_Columns r, r_Rows r)
  | _ => Fails (Errorf "syntax" [])
  end.

Definition three : string := "(SELECT 1 AS a UNION ALL SELECT 2 UNION ALL SELECT 2) t".

(** A query over a derived table: WHERE, ORDER BY and the projection. *)
Theorem query_runs :
  query ("SELECT a, a * 10 AS b FROM " ++ three ++ " WHERE a < 5 ORDER BY a DESC LIMIT 2")
  = Ok (["a"; "b"], [[Int 2; Int 20]; [Int 2; Int 20]]).
Proof. vm_compute. reflexivity. Qed.

(** LIMIT -1 and OFFSET -1 panic. *)
Theorem negative_limit_panics :
  query ("SELECT a FROM " ++ three ++ " LIMIT -1") = Crash "slice bounds out of range"
  /\ query ("SELECT a FROM " ++ three ++ " OFFSET -1") = Crash "slice bounds out of range".
Proof. vm_compute. auto. Qed.

(** DISTINCT over a derived table is ignored. *)
Theorem distinct_over_derived_table_ignored :
  query ("SELECT DISTINCT a FROM " ++ three) = Ok (["a"], [[Int 1]; [Int 2]; [Int 2]]).
Proof. vm_compute. reflexivity. Qed.

(** The LIMIT of a compound is applied before its OFFSET. *)
Theorem compound_limit_before_offset :
  query "SELECT 1 AS a UNION SELECT 2 UNION SELECT 3 ORDER BY a LIMIT 2 OFFSET 1" = Ok (["a"], [[Int 2]]).
Proof. vm_compute. reflexivity. Qed.

(** [t.*] over a derived table gives a column without values. *)
Theorem qualified_star_has_no_values :
  query ("SELECT t.* FROM " ++ three ++ " WHERE a = 1") = Ok (["column"], [[]]).
Proof. vm_compute. reflexivity. Qed.

Lemma set_operations_exact_witness :
  sublist (set_operation SetOpExcept [[Int 1]; [VNil]; [Int 1]] [[Text "1"]]) [[Int 1]; [VNil]; [Int 1]; [Text "1"]]
  /\ NoDup (map row_key (set_operation SetOpExcept [[Int 1]; [VNil]; [Int 1]] [[Text "1"]])).
Proof.
  destruct (set_operations_exact SetOpExcept [[Int 1]; [VNil]; [Int 1]] [[Text "1"]]) as (_ & Hn & _ & Hs & _).
  split; [exact Hs|now apply Hn].
Defined.
End Queries.
