(* ===== verification/PlanFacts.v ===== *)
(** * The plan of a FROM list joins each table once

    Whatever the conjuncts are, the components that are joined first and the order of the other tables
    are together a permutation of the tables; the tables of a component have no conjuncts of their own.

    A conjunction of conditions that do not fail filters as its conjuncts do, and a condition without
    queries depends on the columns that it refers to. *)
From Stdlib Require Import NArith ZArith Lia Bool Ascii String List Floats.SpecFloat.
From stdpp Require Import base option list list_numbers gmap strings.
From S2P Require Import Prelude Token Ast Bytes RowCodec Float Values Schema ExecValue Arrays ExprTypes Operators Eval.
From S2P Require Import Aggregates Sorting Joins Select TableReads CrossJoin ArrayFacts EvalFacts.
#[local] Set Warnings "-clear-no-such-hyp".
#[local] Open Scope string_scope.

Lemma existsb_nat (i : nat) (l : list nat) : existsb (Nat.eqb i) l = true <-> i ∈ l.
Proof.
  rewrite existsb_exists, list_elem_of_In. split; [|intros Hi; exists i; split; [exact Hi|apply Nat.eqb_refl]].
  intros (x & Hx & E%Nat.eqb_eq). congruence.
Qed.

Lemma unseen_spec (seen : list nat) (i : nat) : unseen seen i = true <-> i ∉ seen.
Proof. unfold unseen. rewrite negb_true_iff, <- not_true_iff_false, existsb_nat. reflexivity. Qed.

Lemma filter_elem {A} (f : A -> bool) (l : list A) (x : A) : x ∈ List.filter f l <-> x ∈ l /\ f x = true.
Proof. rewrite !list_elem_of_In. apply filter_In. Qed.

Lemma filter_partition {A} (f : A -> bool) (l : list A) :
  List.filter f l ++ List.filter (fun x => negb (f x)) l ≡ₚ l.
Proof.
  induction l as [|x l IH]; [reflexivity|]. cbn. destruct (f x); cbn; [now constructor|].
  rewrite <- Permutation_middle. now constructor.
Qed.

Lemma NoDup_list_filter {A} (f : A -> bool) (l : list A) : NoDup l -> NoDup (List.filter f l).
Proof. rewrite !NoDup_ListNoDup. apply List.NoDup_filter. Qed.

(** ** Orders that grow by a table that is not there yet *)

Section Grow.
Variable next : list nat -> option nat.
Variable tables : list nat.
Hypothesis next_new : forall seen i, next seen = Some i -> i ∈ tables /\ i ∉ seen.
Hypothesis next_some : forall seen, next seen = None -> forall i, i ∈ tables -> i ∈ seen.

Fixpoint grow (fuel : nat) (seen : list nat) : list nat :=
  match fuel with
  | O => seen
  | S fuel => match next seen with Some i => grow fuel (seen ++ [i]) | None => seen end
  end.

Lemma grow_permutes (fuel : nat) (seen : list nat) :
  NoDup tables -> NoDup seen -> (forall i, i ∈ seen -> i ∈ tables) -> length tables <= length seen + fuel ->
  grow fuel seen ≡ₚ tables.
Proof.
  intros Ht. revert seen. induction fuel as [|fuel IH]; intros seen Hn Hs Hl; cbn.
  - apply submseteq_length_Permutation; [|lia].
    apply NoDup_submseteq; [exact Hn|]. intros x. apply Hs.
  - destruct (next seen) as [i|] eqn:E.
    + apply next_new in E as [Hi Hf]. apply IH.
      * apply NoDup_app. split; [exact Hn|]. split; [|apply NoDup_singleton]. set_solver.
      * set_solver.
      * rewrite length_app. cbn. lia.
    + apply NoDup_Permutation; [exact Hn|exact Ht|]. intros x. split; [apply Hs|]. now apply next_some.
Qed.
End Grow.

Section Plan.
Variable infos : list tableInfo.
Variable filters : nat -> list Expr.
Variable edges : list (nat * nat).

(** ** Components *)

Lemma next_in_component_new (comp seen : list nat) (i : nat) :
  next_in_component edges comp seen = Some i -> i ∈ comp /\ i ∉ seen.
Proof.
  unfold next_in_component. destruct (find _ comp) as [j|] eqn:E.
  - intros [= <-]. apply find_some in E as [Hj E%andb_true_iff]. rewrite list_elem_of_In, <- unseen_spec. tauto.
  - intros E'. apply find_some in E' as [Hj Hu]. now rewrite list_elem_of_In, <- unseen_spec.
Qed.

Lemma next_in_component_none (comp seen : list nat) :
  next_in_component edges comp seen = None -> forall i, i ∈ comp -> i ∈ seen.
Proof.
  unfold next_in_component. destruct (find _ comp) as [j|]; [discriminate|]. intros E i Hi.
  rewrite list_elem_of_In in Hi. pose proof (find_none _ _ E i Hi) as Hu.
  destruct (decide (i ∈ seen)); [assumption|]. now rewrite <- unseen_spec, Hu in n.
Qed.

Lemma component_order_grow (fuel : nat) (comp seen : list nat) :
  component_order edges fuel comp seen = grow (next_in_component edges comp) fuel seen.
Proof.
  revert seen. induction fuel as [|fuel IH]; intros seen; cbn; [reflexivity|].
  destruct (next_in_component edges comp seen); [apply IH|reflexivity].
Qed.

Lemma fold_pick {A} (better : A -> A -> bool) (l : list A) (a : A) :
  fold_left (fun s x => if better s x then x else s) l a ∈ a :: l.
Proof.
  revert a. induction l as [|x l IH]; intros a; cbn; [set_solver|]. specialize (IH (if better a x then x else a)).
  destruct (better a x); set_solver.
Qed.

Lemma component_order_permutes (comp : list nat) :
  NoDup comp -> comp <> [] -> component_order edges (length comp - 1) comp [pick_seed edges comp] ≡ₚ comp.
Proof.
  intros Hn Hc. rewrite component_order_grow. apply grow_permutes.
  - apply next_in_component_new.
  - apply next_in_component_none.
  - exact Hn.
  - apply NoDup_singleton.
  - intros i ->%list_elem_of_singleton. destruct comp as [|i comp]; [easy|].
    apply (fold_pick (fun seed j => (degree edges seed <? degree edges j)%nat)).
  - destruct comp; [easy|]. cbn. lia.
Qed.

(** Every table that the search marks has no conjuncts of its own. *)
Definition marked_cross (m : gmap nat nat) : Prop := forall i k, m !! i = Some k -> cross_only filters edges i = true.

Lemma visit_cross (k cur : nat) (l : list (nat * nat)) (s : gmap nat nat * list nat) :
  marked_cross s.1 -> marked_cross (fold_left (visit filters edges k cur) l s).1.
Proof.
  revert s. induction l as [|e l IH]; intros s Hs; cbn [fold_left]; [exact Hs|]. apply IH.
  unfold visit. destruct (edge_end filters edges cur e) as [nb|] eqn:E; [|exact Hs].
  destruct (s.1 !! nb) eqn:E'; [exact Hs|]. cbn. intros i k' Hi.
  destruct (decide (i = nb)) as [->|Hne]; [|rewrite lookup_insert_ne in Hi by congruence; now apply (Hs i k')].
  unfold edge_end in E. destruct ((e.1 =? cur)%nat && cross_only filters edges e.2) eqn:E1.
  - injection E as <-. now apply andb_true_iff in E1.
  - destruct ((e.2 =? cur)%nat && cross_only filters edges e.1) eqn:E2; [|discriminate].
    injection E as <-. now apply andb_true_iff in E2.
Qed.

Lemma bfs_cross (fuel k : nat) (m : gmap nat nat) (queue : list nat) :
  marked_cross m -> marked_cross (bfs filters edges fuel k m queue).
Proof.
  revert m queue. induction fuel as [|fuel IH]; intros m queue Hm; [exact Hm|].
  destruct queue as [|cur rest]; [exact Hm|]. cbn [bfs]. apply IH. now apply visit_cross.
Qed.

Lemma component_of_cross : marked_cross (component_of infos filters edges).1.
Proof.
  unfold component_of. generalize (all_tables infos). intros l.
  assert (H : forall s, marked_cross s.1 -> marked_cross (fold_left (component_step infos filters edges) l s).1).
  { induction l as [|i l IH]; intros s Hs; cbn [fold_left]; [exact Hs|]. apply IH. unfold component_step.
    destruct (cross_only filters edges i && is_none (s.1 !! i)) eqn:E; [|exact Hs]. cbn. apply bfs_cross.
    intros j k Hj. destruct (decide (j = i)) as [->|Hne]; [now apply andb_true_iff in E|].
    rewrite lookup_insert_ne in Hj by congruence. now apply (Hs j k). }
  apply H. intros i k Hi. cbn in Hi. now rewrite lookup_empty in Hi.
Qed.

Lemma in_component (i : nat) (comp : list nat) :
  comp ∈ components infos filters edges -> i ∈ comp -> i ∈ all_tables infos /\ filters i = [].
Proof.
  unfold components. intros Hc Hi. apply list_elem_of_In, in_map_iff in Hc as (k & <- & _).
  apply filter_elem in Hi as [Hi Hk]. apply bool_decide_eq_true in Hk. split; [exact Hi|].
  apply component_of_cross in Hk. unfold cross_only in Hk. apply andb_true_iff in Hk as [Hk _].
  now destruct (filters i).
Qed.

Lemma all_tables_NoDup : NoDup (all_tables infos).
Proof. apply NoDup_ListNoDup, seq_NoDup. Qed.

Lemma filters_disjoint {A B} `{EqDecision B} (f : A -> option B) (l : list A) (ks : list B) :
  NoDup l -> NoDup ks -> NoDup (concat (map (fun k => List.filter (fun x => bool_decide (f x = Some k)) l) ks)).
Proof.
  intros Hl Hk. induction Hk as [|k ks Hn Hk IH]; cbn; [constructor|]. apply NoDup_app. split; [|split; [|exact IH]].
  - now apply NoDup_list_filter.
  - intros x [_ Hx%bool_decide_eq_true]%filter_elem Hx'. apply list_elem_of_In, in_concat in Hx' as (l' & Hl' & Hx').
    apply in_map_iff in Hl' as (k' & <- & Hk'). apply filter_In in Hx' as [_ Hx'%bool_decide_eq_true].
    rewrite Hx in Hx'. injection Hx' as ->. now apply Hn, list_elem_of_In.
Qed.

Lemma components_NoDup : NoDup (concat (components infos filters edges)).
Proof. apply filters_disjoint; [apply all_tables_NoDup|apply NoDup_ListNoDup, seq_NoDup]. Qed.

Lemma concat_filter_NoDup {A} (f : list A -> bool) (l : list (list A)) : NoDup (concat l) -> NoDup (concat (List.filter f l)).
Proof.
  induction l as [|x l IH]; cbn; [trivial|]. intros (Hx & Hd & Hl)%NoDup_app. destruct (f x); [|now apply IH].
  cbn. apply NoDup_app. split; [exact Hx|]. split; [|now apply IH]. intros y Hy Hy'. apply (Hd y Hy).
  apply list_elem_of_In, in_concat in Hy' as (l' & Hl' & Hy'). apply list_elem_of_In, in_concat. exists l'.
  split; [now apply filter_In in Hl'|exact Hy'].
Qed.

(** The components joined first, each a permutation of itself. *)
Lemma pre_joins_spec :
  NoDup (concat (pre_joins infos filters edges))
  /\ forall comp i, comp ∈ pre_joins infos filters edges -> i ∈ comp -> i ∈ all_tables infos /\ filters i = [].
Proof.
  pose proof components_NoDup as Hn.
  assert (Hp : forall comp, In comp (List.filter (fun comp => (2 <=? length comp)%nat) (components infos filters edges)) ->
    component_order edges (length comp - 1) comp [pick_seed edges comp] ≡ₚ comp).
  { intros comp [Hc Hl]%filter_In. apply component_order_permutes; [|now destruct comp].
    unfold components in Hc. apply in_map_iff in Hc as (k & <- & _). apply NoDup_list_filter, all_tables_NoDup. }
  split.
  - unfold pre_joins. apply (concat_filter_NoDup (fun comp => (2 <=? length comp)%nat)) in Hn. revert Hn Hp.
    generalize (List.filter (fun comp => (2 <=? length comp)%nat) (components infos filters edges)). intros l Hn Hp.
    assert (E : concat (map (fun comp => component_order edges (length comp - 1) comp [pick_seed edges comp]) l) ≡ₚ concat l).
    { clear Hn. induction l as [|c l IH]; cbn; [reflexivity|]. rewrite IH; [|intros; apply Hp; now right].
      now rewrite (Hp c) by now left. }
    now rewrite E.
  - unfold pre_joins. intros comp i Hc Hi. apply list_elem_of_In, in_map_iff in Hc as (c & <- & Hc).
    rewrite (Hp c Hc) in Hi. apply filter_In in Hc as [Hc _]. apply (in_component i c); [now apply list_elem_of_In|exact Hi].
Qed.

(** ** The other tables *)

Lemma best_by_new (sc : list nat -> nat -> nat) (tables joined : list nat) (i : nat) :
  best_by (sc joined) (List.filter (unseen joined) tables) = Some i -> i ∈ tables /\ i ∉ joined.
Proof.
  rewrite <- unseen_spec. intros E. apply (filter_elem (unseen joined)). revert E.
  destruct (List.filter (unseen joined) tables) as [|j l]; [discriminate|]. intros [= <-].
  apply (fold_pick (fun best j => (sc joined best <? sc joined j)%nat)).
Qed.

Lemma best_by_none (sc : list nat -> nat -> nat) (tables joined : list nat) :
  best_by (sc joined) (List.filter (unseen joined) tables) = None -> forall i, i ∈ tables -> i ∈ joined.
Proof.
  destruct (List.filter (unseen joined) tables) as [|j l] eqn:E; [|discriminate]. intros _ i Hi.
  destruct (decide (i ∈ joined)) as [|Hn]; [assumption|]. apply unseen_spec in Hn.
  assert (Hf : i ∈ List.filter (unseen joined) tables) by now apply filter_elem. rewrite E in Hf. set_solver.
Qed.

Lemma greedy_order_grow (fuel : nat) (tables joined : list nat) :
  greedy_order filters edges fuel tables joined
  = grow (fun joined => best_by (score filters edges joined) (List.filter (unseen joined) tables)) fuel joined.
Proof.
  revert joined. induction fuel as [|fuel IH]; intros joined; cbn; [reflexivity|].
  destruct (best_by _ _); [apply IH|reflexivity].
Qed.

Lemma order_permutes : order infos filters edges ≡ₚ other_tables infos filters edges.
Proof.
  unfold order. pose proof (NoDup_list_filter (unseen (concat (pre_joins infos filters edges))) _ all_tables_NoDup) as Hn.
  fold (other_tables infos filters edges) in Hn.
  destruct (best_by (fun i => length (filters i)) (other_tables infos filters edges)) as [i|] eqn:E.
  - rewrite greedy_order_grow. apply grow_permutes.
    + intros joined j. apply (best_by_new (score filters edges)).
    + intros joined. apply (best_by_none (score filters edges)).
    + exact Hn.
    + apply NoDup_singleton.
    + intros j ->%list_elem_of_singleton. destruct (other_tables infos filters edges) as [|j l]; [discriminate|].
      injection E as <-. apply (fold_pick (fun best j => (length (filters best) <? length (filters j))%nat)).
    + destruct (other_tables infos filters edges); [discriminate|]. cbn. lia.
  - destruct (other_tables infos filters edges); [reflexivity|discriminate].
Qed.

(** The plan is a permutation of the tables. *)
Lemma plan_permutes :
  order infos filters edges ++ concat (pre_joins infos filters edges) ≡ₚ all_tables infos.
Proof.
  rewrite order_permutes. destruct pre_joins_spec as [Hn Hin].
  unfold other_tables. apply NoDup_Permutation.
  - apply NoDup_app. split; [apply NoDup_list_filter, all_tables_NoDup|]. split; [|exact Hn].
    intros i [_ Hi%unseen_spec]%filter_elem. exact Hi.
  - apply all_tables_NoDup.
  - intros i. rewrite elem_of_app, filter_elem, unseen_spec. split.
    + intros [[Hi _]|Hi]; [exact Hi|]. apply list_elem_of_In, in_concat in Hi as (c & Hc & Hi).
      now apply (Hin c i); apply list_elem_of_In.
    + intros Hi. destruct (decide (i ∈ concat (pre_joins infos filters edges))); [now right|now left].
Qed.
End Plan.

(** ** Conditions as filters *)

(** ** Conditions that do not fail *)

Section Conditions.
Context `{Builtins}.
Variable env : Env.

Definition sat (c : Expr) (row : Row) : bool :=
  match evalExpr env c (Some row) with Ok v => toBool v | _ => false end.

Definition total (c : Expr) : Prop := forall row : Row, exists v, evalExpr env c (Some row) = Ok v.

Definition sat_all (cs : list Expr) (row : Row) : bool := forallb (fun c => sat c row) cs.

Lemma filter_rows_total (c : Expr) (rows : list Row) : total c -> filter_rows env c rows = Ok (List.filter (sat c) rows).
Proof.
  intros Hc. induction rows as [|r rows IH]; [reflexivity|]. cbn [filter_rows List.filter].
  destruct (Hc r) as [v E]. unfold sat at 1. rewrite E, IH. cbn. now destruct (toBool v).
Qed.

Lemma truth_and (a b : val) : toBool (truth_value (tri_and (truth a) (truth b))) = toBool a && toBool b.
Proof.
  assert (Hn : forall v, truth v = None -> toBool v = false) by (intros [] E; cbn in *; congruence).
  assert (Hs : forall v b, truth v = Some b -> toBool v = b) by (intros [] ? E; cbn in *; congruence).
  destruct (truth a) as [[]|] eqn:Ea, (truth b) as [[]|] eqn:Eb; cbn;
    repeat match goal with
    | E : truth _ = Some _ |- _ => apply Hs in E
    | E : truth _ = None |- _ => apply Hn in E
    end; rewrite ?Ea, ?Eb; reflexivity.
Qed.

Lemma sat_and (l r : Expr) : total l -> total r ->
  total (BinaryExpr l TokenAND r) /\ forall row, sat (BinaryExpr l TokenAND r) row = sat l row && sat r row.
Proof.
  intros Hl Hr. split; intros row; destruct (Hl row) as [a Ea], (Hr row) as [b Eb].
  - erewrite eval_connective by reflexivity. rewrite Ea, Eb. cbn. eauto.
  - unfold sat. erewrite eval_connective by reflexivity. rewrite Ea, Eb. cbn. apply truth_and.
Qed.

Lemma combine_and (cs : list Expr) (c : Expr) : Forall total cs -> combineAND cs = Some c ->
  total c /\ forall row, sat c row = sat_all cs row.
Proof.
  destruct cs as [|d cs]; [discriminate|]. intros Ht. inversion Ht as [|? ? Hd Hcs]; subst. intros [= <-]. clear Ht.
  cbn [sat_all forallb].
  assert (G : forall cs d, total d -> Forall total cs ->
    total (fold_left (fun acc c => BinaryExpr acc TokenAND c) cs d)
    /\ forall row, sat (fold_left (fun acc c => BinaryExpr acc TokenAND c) cs d) row = sat d row && sat_all cs row).
  { clear. intros cs. induction cs as [|c cs IH]; intros d Hd Hcs; cbn [fold_left].
    - split; [exact Hd|]. intros row. cbn. now rewrite andb_true_r.
    - inversion Hcs; subst. destruct (sat_and d c) as [Hdc Es]; [assumption|assumption|].
      destruct (IH _ Hdc) as [Ht E]; [assumption|]. split; [exact Ht|]. intros row. rewrite E, Es. cbn.
      now rewrite andb_assoc. }
  now apply G.
Qed.

Lemma filter_all_total (cs : list Expr) (rows : list Row) : Forall total cs ->
  filter_all env cs rows = Ok (List.filter (sat_all cs) rows).
Proof.
  intros Ht. unfold filter_all. destruct (combineAND cs) as [c|] eqn:E.
  - destruct (combine_and cs c Ht E) as [Hc Es]. rewrite filter_rows_total by exact Hc. f_equal.
    apply filter_ext. exact Es.
  - destruct cs; [|discriminate]. cbn. f_equal. symmetry. induction rows as [|r rows IH]; cbn; [reflexivity|].
    now f_equal.
Qed.

(** ** What a condition depends on *)

Definition agree (e : Expr) (m m' : Row) : Prop :=
  Forall (fun ref => evalColumnRef env ref.1 ref.2 (Some m) = evalColumnRef env ref.1 ref.2 (Some m'))
    (collectTableColumnRefs e).

Lemma mapE_agree {A} (f g : Expr -> ev A) (l : list Expr) : Forall (fun x => f x = g x) l -> mapE f l = mapE g l.
Proof. induction 1 as [|x l E _ IH]; [reflexivity|]. cbn [mapE]. now rewrite E, IH. Qed.

Lemma agree_list (l : list Expr) (m m' : Row) :
  Forall (fun e => has_subquery e = false -> agree e m m' -> evalExpr env e (Some m) = evalExpr env e (Some m')) l ->
  existsb has_subquery l = false ->
  Forall (fun ref => evalColumnRef env ref.1 ref.2 (Some m) = evalColumnRef env ref.1 ref.2 (Some m'))
    (flat_map collectTableColumnRefs l) ->
  Forall (fun e => evalExpr env e (Some m) = evalExpr env e (Some m')) l.
Proof.
  induction 1 as [|e l He _ IH]; intros Hs Ha; [constructor|]. cbn in Hs, Ha. apply orb_false_iff in Hs as [Hs1 Hs2].
  apply Forall_app in Ha as [Ha1 Ha2]. constructor; [now apply He|now apply IH].
Qed.

Lemma in_list_agree (le : Expr) (left : val) (neg saw : bool) (vs : list Expr) (m m' : Row) :
  Forall (fun e => evalExpr env e (Some m) = evalExpr env e (Some m')) vs ->
  in_list env (Some m) le left neg vs saw = in_list env (Some m') le left neg vs saw.
Proof.
  intros Hv. revert saw. induction Hv as [|x vs E _ IH]; intros saw; [reflexivity|]. cbn [in_list]. rewrite E.
  destruct (evalExpr env x (Some m')) as [v| |]; try reflexivity. unfold mbind, ev_bind; cbv beta iota.
  destruct (in_member env le left v) as [[[]|]| |]; try reflexivity; apply IH.
Qed.

(** The branches of CASE, for a subject. *)
Definition case_branches (row : option Row) (subject : option (Expr * val)) (els : option Expr) : list WhenClause -> ev val :=
  fix branches ws :=
    match ws with
    | [] => match els with Some e => evalExpr env e row | None => Ok VNil end
    | mkWhenClause c result :: rest =>
        cond ← evalExpr env c row;
        match' ← match subject with
                 | None => Ok (toBool cond)
                 | Some (o, v) => if is_nil v then Ok false
                                  else compareExprValues env TokenEq (Some o) (Some c) v cond
                 end;
        if match' : bool then evalExpr env result row else branches rest
    end.

Lemma eval_case (operand els : option Expr) (whens : list WhenClause) (row : option Row) :
  evalExpr env (CaseExpr operand whens els) row
  = (subject ← match operand with None => Ok None | Some o => v ← evalExpr env o row; Ok (Some (o, v)) end;
     case_branches row subject els whens).
Proof. reflexivity. Qed.

Definition same (m m' : Row) (e : Expr) : Prop := evalExpr env e (Some m) = evalExpr env e (Some m').

Lemma branches_agree (subject : option (Expr * val)) (els : option Expr) (whens : list WhenClause) (m m' : Row) :
  opt_P (same m m') els -> Forall (when_P (same m m')) whens ->
  case_branches (Some m) subject els whens = case_branches (Some m') subject els whens.
Proof.
  intros He. induction 1 as [|[c r] ws [Ec Er] _ IH]; cbn [case_branches]; [now destruct els|].
  rewrite Ec, Er, IH. reflexivity.
Qed.

(** A condition without queries depends on the columns it refers to. *)
Lemma eval_agree (e : Expr) (m m' : Row) :
  has_subquery e = false -> agree e m m' -> evalExpr env e (Some m) = evalExpr env e (Some m').
Proof.
  unfold agree. induction e using expr_sub_ind; cbn [has_subquery collectTableColumnRefs call_refs call_has_subquery];
    intros Hs Ha;
    repeat match goal with
    | E : _ || _ = false |- _ => apply orb_false_iff in E as [? ?]
    | A : Forall _ (_ ++ _) |- _ => apply Forall_app in A as [? ?]
    end; try discriminate; rewrite ?eval_call, ?eval_case;
    try (destruct q; [discriminate|]; rewrite !eval_in); cbn [evalExpr];
    repeat match goal with
    | IH : has_subquery ?x = false -> _ -> evalExpr env ?x _ = _ |- _ => rewrite IH by assumption; clear IH
    end; try reflexivity.
  - now inversion_clear Ha.
  - erewrite mapE_agree; [reflexivity|]. now apply agree_list.
  - assert (Hws : Forall (when_P (same m m')) ws).
    { clear dependent o. clear dependent e. induction ws as [|[c r] ws IH]; [constructor|]. cbn in *.
      repeat match goal with
      | E : _ || _ = false |- _ => apply orb_false_iff in E as [? ?]
      | A : Forall _ (_ ++ _) |- _ => apply Forall_app in A as [? ?]
      | A : Forall _ (_ :: _) |- _ => inversion_clear A
      | A : when_P _ _ |- _ => destruct A
      end. constructor; [split; unfold same; auto|auto]. }
    assert (He : opt_P (same m m') e) by (destruct e; cbn in *; unfold same; auto).
    destruct o as [o|]; cbn in *; [|now apply branches_agree].
    match goal with IH : has_subquery o = false -> _ |- _ => rewrite IH by assumption end.
    destruct (evalExpr env o (Some m')); try reflexivity. now apply branches_agree.
  - assert (Hv : Forall (fun e => evalExpr env e (Some m) = evalExpr env e (Some m')) vs) by now apply agree_list.
    destruct (evalExpr env e (Some m')) as [left| |]; try reflexivity. unfold mbind, ev_bind; cbv beta iota.
    destruct vs as [|x vs]; [reflexivity|]. destruct (is_nil left); [reflexivity|]. now apply in_list_agree.
  - erewrite mapE_agree; [reflexivity|].
    eapply Forall_impl; [apply (agree_list l m m'); assumption|]. intros x E. cbn beta. now rewrite E.
Qed.
End Conditions.
