(* ===== verification/CrossJoinFacts.v ===== *)
(** * FROM lists: the planned join is the filtered product

    Joining the tables of a FROM list by the plan gives the rows that filtering their product gives, in
    another order: a conjunct that is applied early sees the columns that it sees in the whole row. *)
From Stdlib Require Import NArith ZArith Lia Bool Ascii String List.
From stdpp Require Import base option list list_numbers gmap strings.
From S2P Require Import Prelude Token Ast Bytes RowCodec Float Values Schema ExecValue Arrays ExprTypes Operators Eval.
From S2P Require Import Aggregates Sorting Joins Select TableReads CrossJoin PlanFacts JoinFacts.

#[local] Open Scope string_scope.
#[local] Set Warnings "-clear-no-such-hyp".

(** ** Products *)

Section Products.
Context `{Foreign}.

Definition pairs (left right : list Row) : list Row := concat (map (fun l => map (fun r => r ∪ l) right) left).

Definition product (tables : list (list Row)) : list Row := foldr pairs [∅] tables.

Lemma in_pairs (A B : list Row) (m : Row) : In m (pairs A B) <-> exists a b, In a A /\ In b B /\ m = b ∪ a.
Proof.
  unfold pairs. rewrite in_concat. split.
  - intros (l & Hl & Hm). apply in_map_iff in Hl as (a & <- & Ha). apply in_map_iff in Hm as (b & <- & Hb). eauto.
  - intros (a & b & Ha & Hb & ->). eexists. split; apply in_map_iff; eauto.
Qed.

Lemma pairs_one (B : list Row) : pairs [∅] B = B.
Proof.
  unfold pairs. cbn. rewrite app_nil_r. rewrite <- map_id. apply map_ext. intros r. apply map_union_empty.
Qed.

Lemma pairs_cons (a : Row) (A B : list Row) : pairs (a :: A) B = (map (fun b => b ∪ a) B ++ pairs A B)%list.
Proof. reflexivity. Qed.

Lemma pairs_nil (A : list Row) : pairs A [∅] = A.
Proof. induction A as [|a A IH]; [reflexivity|]. rewrite pairs_cons, IH. cbn [map app]. f_equal. apply map_empty_union. Qed.

Lemma pairs_app (A A' B : list Row) : pairs (A ++ A') B = (pairs A B ++ pairs A' B)%list.
Proof. unfold pairs. now rewrite map_app, concat_app. Qed.

Lemma pairs_assoc (A B C : list Row) : pairs (pairs A B) C = pairs A (pairs B C).
Proof.
  induction A as [|a A IH]; [reflexivity|]. change (a :: A) with ([a] ++ A)%list.
  rewrite !pairs_app, IH. f_equal. unfold pairs at 2 4. cbn. rewrite !app_nil_r. clear.
  induction B as [|b B IH]; [reflexivity|]. unfold pairs in *. cbn. rewrite IH, map_app. f_equal.
  rewrite map_map. apply map_ext. intros c. now rewrite map_union_assoc.
Qed.

Lemma pairs_perm (A A' B B' : list Row) : A ≡ₚ A' -> B ≡ₚ B' -> pairs A B ≡ₚ pairs A' B'.
Proof.
  intros HA HB. transitivity (pairs A B').
  - clear HA. induction A as [|a A IH]; [reflexivity|]. unfold pairs in *. cbn. rewrite IH. now rewrite HB.
  - clear HB. unfold pairs. now rewrite HA.
Qed.

(** Rows without a common column can be joined in any order. *)
Lemma pairs_comm (A B : list Row) : (forall a b, In a A -> In b B -> a ##ₘ b) -> pairs A B ≡ₚ pairs B A.
Proof.
  induction A as [|a A IH]; intros Hd.
  - unfold pairs. cbn. induction B as [|b B IHB]; [reflexivity|]. cbn. apply IHB. intros ? ? [].
  - transitivity (map (fun b => a ∪ b) B ++ pairs B A)%list.
    + rewrite pairs_cons, IH by (intros; apply Hd; [now right|assumption]).
      apply Permutation_app_tail. erewrite map_ext_in; [reflexivity|]. intros b Hb. apply map_union_comm.
      apply map_disjoint_sym. apply Hd; [now left|exact Hb].
    + clear. induction B as [|b B IH]; [reflexivity|]. unfold pairs in *. cbn. constructor. rewrite <- IH.
      rewrite !app_assoc. now rewrite (Permutation_app_comm (map _ A)).
Qed.


(** Filters on the sides are filters on the pairs that do not look at the other side. *)
Lemma pairs_filter (f g h : Row -> bool) (A B : list Row) :
  (forall a b, In a A -> In b B -> h (b ∪ a) = f a && g b) ->
  pairs (List.filter f A) (List.filter g B) = List.filter h (pairs A B).
Proof.
  intros Hh. induction A as [|a A IH]; [reflexivity|].
  rewrite pairs_cons, List.filter_app, <- IH by (intros; apply Hh; [now right|assumption]). cbn [List.filter].
  assert (E : List.filter h (map (fun b => b ∪ a) B) = if f a then map (fun b => b ∪ a) (List.filter g B) else []).
  { assert (Ha : forall b, In b B -> h (b ∪ a) = f a && g b) by (intros; apply Hh; [now left|assumption]).
    clear Hh IH. induction B as [|b B IH]; [now destruct (f a)|]. cbn [map List.filter].
    rewrite (Ha b) by now left. rewrite IH by (intros; apply Ha; now right). destruct (f a), (g b); reflexivity. }
  rewrite E. destruct (f a); reflexivity.
Qed.
End Products.

(** ** Rows of several tables *)

Section Rows.
Context `{Builtins}.
Variable env : Env.

(** The names that several tables share: the columns of a row under them are not compared. *)
Variable shared : string -> bool.
Hypothesis shared_fold : forall a b, EqualFold a b = true -> shared a = shared b.

Definition visible (m : Row) : Row := base.filter (fun kv : string * val => shared kv.1 = false) m.

Definition known (k : string) (m : Row) : Prop := is_Some (m !! k) /\ shared k = false.

(** No two columns that count have the same name but for case. *)
Definition unique (m : Row) : Prop := forall k k', known k m -> known k' m -> EqualFold k k' = true -> k = k'.

Definition ref_name (ref : string * string) : string := if ref.1 =s EmptyString then ref.2 else qualify ref.1 ref.2.

(** The row has the column of a reference. *)
Definition resolved (m : Row) (ref : string * string) : Prop := exists k, known k m /\ EqualFold k (ref_name ref) = true.

Definition covers (m : Row) (c : Expr) : Prop := Forall (resolved m) (collectTableColumnRefs c).

Lemma EqualFold_refl (a : string) : EqualFold a a = true.
Proof. apply String.eqb_refl. Qed.

Lemma EqualFold_via (a b c : string) : EqualFold a c = true -> EqualFold b c = true -> EqualFold a b = true.
Proof. unfold EqualFold. rewrite !String.eqb_eq. congruence. Qed.

Lemma visible_lookup (m : Row) (k : string) : shared k = false -> visible m !! k = m !! k.
Proof.
  intros Hk. unfold visible. destruct (m !! k) eqn:E.
  - apply map_lookup_filter_Some. auto.
  - apply map_lookup_filter_None. now left.
Qed.

Lemma visible_union (a b : Row) : visible (a ∪ b) = visible a ∪ visible b.
Proof.
  apply map_eq. intros k. destruct (shared k) eqn:Ek.
  - assert (N : forall m, visible m !! k = None) by (intros m; apply map_lookup_filter_None; right; intros ? _; cbn; congruence).
    rewrite lookup_union, !N. reflexivity.
  - now rewrite lookup_union, !visible_lookup, lookup_union by exact Ek.
Qed.

Lemma visible_pairs (A B : list Row) : map visible (pairs A B) = pairs (map visible A) (map visible B).
Proof.
  induction A as [|a A IH]; [reflexivity|]. cbn [map]. rewrite !pairs_cons, map_app, IH. f_equal.
  rewrite !map_map. apply map_ext. intros r. apply visible_union.
Qed.

Lemma known_visible (k : string) (m : Row) : known k (visible m) <-> known k m.
Proof. unfold known. split; intros [Hm Hk]; (split; [|exact Hk]); revert Hm; now rewrite visible_lookup. Qed.

Lemma unique_visible (m : Row) : unique (visible m) <-> unique m.
Proof. unfold unique. split; intros Hu k k' Hk Hk'; apply Hu; now apply known_visible. Qed.

Lemma covers_visible (m : Row) (c : Expr) : covers (visible m) c <-> covers m c.
Proof.
  unfold covers. rewrite !Forall_forall. split; intros Hc ref Hr; destruct (Hc ref Hr) as (k & Hk & E); exists k;
    (split; [now apply known_visible|exact E]).
Qed.

Lemma known_mono (k : string) (m m' : Row) : visible m ⊆ visible m' -> known k m -> known k m' /\ m' !! k = m !! k.
Proof.
  intros Hs [[v Hv] Hk]. rewrite <- (visible_lookup m k Hk) in Hv. pose proof (lookup_weaken _ _ _ _ Hv Hs) as Hv'.
  rewrite !visible_lookup in * by exact Hk. split; [split; [eauto|exact Hk]|congruence].
Qed.

(** The column is what the row has under the one name that matches. *)
Lemma resolved_value (m : Row) (k name : string) :
  unique m -> known k m -> EqualFold k name = true -> rowColumnValue m name = m !! k.
Proof.
  intros Hu Hk E. unfold rowColumnValue.
  assert (Huniq : forall k', is_Some (m !! k') -> EqualFold k' name = true -> k' = k).
  { intros k' Hk' E'. apply Hu; [|exact Hk|now apply (EqualFold_via _ _ name)]. split; [exact Hk'|].
    destruct Hk as [_ <-]. apply shared_fold. now apply (EqualFold_via _ _ name). }
  destruct Hk as [[v Hv] _]. destruct (m !! name) as [w|] eqn:Ew.
  - rewrite <- (Huniq name) by (eauto using EqualFold_refl). now rewrite Ew.
  - destruct (find (fun kv => EqualFold kv.1 name) (map_to_list m)) as [[k' w]|] eqn:Ef.
    + apply find_some in Ef as [Hin E']. apply list_elem_of_In, elem_of_map_to_list in Hin. cbn in *.
      rewrite <- (Huniq k') by eauto. now rewrite Hin.
    + exfalso. apply find_none with (x := (k, v)) in Ef; [change (EqualFold k name = false) in Ef; congruence|].
      now apply list_elem_of_In, elem_of_map_to_list.
Qed.

Lemma resolved_column (m m' : Row) (ref : string * string) :
  unique m -> unique m' -> visible m ⊆ visible m' -> resolved m ref ->
  evalColumnRef env ref.1 ref.2 (Some m) = evalColumnRef env ref.1 ref.2 (Some m').
Proof.
  intros Hu Hu' Hs (k & Hk & E). destruct ref as [t c]. unfold ref_name in E. cbn [fst snd] in *.
  destruct (known_mono k m m' Hs Hk) as [Hk' Ev].
  unfold evalColumnRef, find_column. change (default ∅ (Some ?r)) with r. destruct (t =s EmptyString).
  - rewrite (resolved_value m k c), (resolved_value m' k c), Ev by assumption. destruct Hk as [[v ->] _].
    now rewrite !some_union.
  - unfold qualify in E. cbn [andb]. rewrite (resolved_value m k _ Hu Hk E), (resolved_value m' k _ Hu' Hk' E), Ev.
    destruct Hk as [[v ->] _]. destruct (outerRow env) as [o|]; [|now rewrite !none_union, !some_union].
    destruct (rowColumnValue o _); now rewrite ?none_union, !some_union.
Qed.

(** A condition has the same value on a row and on a larger one. *)
Lemma sat_stable (c : Expr) (m m' : Row) :
  has_subquery c = false -> unique m -> unique m' -> visible m ⊆ visible m' -> covers m c ->
  sat env c m = sat env c m'.
Proof.
  intros Hq Hu Hu' Hs Hc. unfold sat. rewrite (eval_agree env c m m'); [reflexivity|exact Hq|].
  unfold agree. eapply Forall_impl; [exact Hc|]. intros ref Hr. now apply resolved_column.
Qed.

Lemma sat_all_stable (cs : list Expr) (m m' : Row) :
  Forall (fun c => has_subquery c = false /\ covers m c) cs -> unique m -> unique m' -> visible m ⊆ visible m' ->
  sat_all env cs m = sat_all env cs m'.
Proof.
  intros Hcs Hu Hu' Hs. induction Hcs as [|c cs [Hq Hc] _ IH]; [reflexivity|].
  unfold sat_all. cbn [forallb]. f_equal; [now apply sat_stable|exact IH].
Qed.

(** ** Tables *)

Variable tables : list nat.
Variable R : nat -> list Row.

Hypothesis rows_unique : forall i m, i ∈ tables -> In m (R i) -> unique m.
Hypothesis rows_separate : forall i j m m' k k', i ∈ tables -> j ∈ tables -> i <> j -> In m (R i) -> In m' (R j) ->
  known k m -> known k' m' -> EqualFold k k' = false.

Definition joined (S : list nat) : list Row := product (map (fun i => map visible (R i)) S).

Definition among (S : list nat) : Prop := NoDup S /\ forall i, i ∈ S -> i ∈ tables.

Lemma among_cons (i : nat) (S : list nat) : among (i :: S) -> (i ∈ tables) /\ (i ∉ S) /\ among S.
Proof. intros [[Hi Hn]%NoDup_cons Hs]. split; [apply Hs; set_solver|]. split; [exact Hi|]. split; [exact Hn|set_solver]. Qed.

Lemma joined_app (S T : list nat) : joined (S ++ T) = pairs (joined S) (joined T).
Proof.
  induction S as [|i S IH]; [symmetry; apply pairs_one|].
  change (pairs (map visible (R i)) (joined (S ++ T)) = pairs (pairs (map visible (R i)) (joined S)) (joined T)).
  now rewrite IH, pairs_assoc.
Qed.

Lemma joined_single (i : nat) : joined [i] = map visible (R i).
Proof. apply pairs_nil. Qed.

Lemma joined_cons (i : nat) (S : list nat) : joined (i :: S) = pairs (map visible (R i)) (joined S).
Proof. reflexivity. Qed.

(** A column of a row of several tables comes from one of them. *)
Lemma joined_known (S : list nat) (m : Row) (k : string) :
  In m (joined S) -> known k m -> exists i r, (i ∈ S) /\ In r (R i) /\ known k r.
Proof.
  revert m. induction S as [|i S IH]; intros m.
  - intros [<-|[]] [Hk _]. rewrite lookup_empty in Hk. destruct Hk. discriminate.
  - rewrite joined_cons, in_pairs. intros (a & b & Ha & Hb & ->) [[v Hv] Hs].
    apply lookup_union_Some_raw in Hv as [Hv|[_ Hv]].
    + destruct (IH b Hb) as (j & r & Hj & Hr & Hk); [split; eauto|]. exists j, r. split; [set_solver|easy].
    + apply in_map_iff in Ha as (r & <- & Hr). exists i, r. split; [set_solver|]. split; [exact Hr|].
      apply known_visible. split; eauto.
Qed.

Lemma joined_shared (S : list nat) (m : Row) (k : string) : In m (joined S) -> is_Some (m !! k) -> shared k = false.
Proof.
  revert m. induction S as [|i S IH]; intros m.
  - intros [<-|[]] Hk. rewrite lookup_empty in Hk. now destruct Hk.
  - rewrite joined_cons, in_pairs. intros (a & b & Ha & Hb & ->) [v Hv].
    apply lookup_union_Some_raw in Hv as [Hv|[_ Hv]]; [eauto|].
    apply in_map_iff in Ha as (r & <- & Hr). unfold visible in Hv. now apply map_lookup_filter_Some in Hv as [_ Hv].
Qed.

Lemma joined_separate (S T : list nat) (a b : Row) (k k' : string) :
  among (S ++ T) -> In a (joined S) -> In b (joined T) -> known k a -> known k' b -> EqualFold k k' = false.
Proof.
  intros [Hn Ht] Ha Hb Hk Hk'. destruct (joined_known S a k Ha Hk) as (i & r & Hi & Hr & Kr).
  destruct (joined_known T b k' Hb Hk') as (j & r' & Hj & Hr' & Kr').
  apply (rows_separate i j r r'); try assumption; try (apply Ht; set_solver).
  intros <-. apply NoDup_app in Hn as (_ & Hn & _). now apply (Hn i).
Qed.

Lemma joined_disjoint (S T : list nat) (a b : Row) :
  among (S ++ T) -> In a (joined S) -> In b (joined T) -> a ##ₘ b.
Proof.
  intros Hn Ha Hb k. destruct (a !! k) as [v|] eqn:Ea, (b !! k) as [w|] eqn:Eb; cbn; try easy.
  assert (H' : EqualFold k k = false) by (apply (joined_separate S T a b); try assumption; split; eauto using joined_shared).
  now rewrite EqualFold_refl in H'.
Qed.

Lemma joined_unique (S : list nat) (m : Row) : among S -> In m (joined S) -> unique m.
Proof.
  revert m. induction S as [|i S IH]; intros m Hs.
  - intros [<-|[]] k k' [Hk _]. rewrite lookup_empty in Hk. now destruct Hk.
  - rewrite joined_cons, in_pairs. intros (a & b & Ha & Hb & ->).
    pose proof (among_cons _ _ Hs) as (Hi & Hf & Hs').
    assert (Ha' : In a (joined [i])) by (now rewrite joined_single).
    assert (Hua : unique a) by (apply in_map_iff in Ha as (r & <- & Hr); now apply unique_visible, (rows_unique i)).
    assert (Hside : forall k, known k (b ∪ a) -> known k a \/ known k b).
    { intros k [[v Hv] Hk]. apply lookup_union_Some_raw in Hv as [Hv|[_ Hv]]; [right|left]; split; eauto. }
    intros k k' [Hk|Hk]%Hside [Hk'|Hk']%Hside E.
    + now apply Hua.
    + rewrite (joined_separate [i] S a b k k') in E; try assumption; discriminate.
    + unfold EqualFold in E. rewrite String.eqb_sym in E. fold (EqualFold k' k) in E.
      rewrite (joined_separate [i] S a b k' k) in E; try assumption; discriminate.
    + now apply (IH b).
Qed.

(** The order of the tables does not matter. *)
Lemma joined_permutes (S S' : list nat) : S ≡ₚ S' -> among S -> joined S ≡ₚ joined S'.
Proof.
  induction 1 as [|i S S' _ IH|i j S|S S' S'' P IH _ IH']; intros Hs.
  - reflexivity.
  - rewrite !joined_cons. apply pairs_perm; [reflexivity|]. apply IH. now apply among_cons in Hs.
  - rewrite !joined_cons, <- !pairs_assoc. apply pairs_perm; [|reflexivity]. apply pairs_comm. intros a b Ha Hb.
    apply (joined_disjoint [j] [i]); rewrite ?joined_single; try assumption.
    destruct Hs as [[? [? _]%NoDup_cons]%NoDup_cons Ht]. split; [|set_solver].
    apply NoDup_cons. split; [set_solver|apply NoDup_singleton].
  - transitivity (joined S'); [now apply IH|]. apply IH'. destruct Hs as [Hn Ht].
    split; [now rewrite <- P|]. intros i Hi. apply Ht. now rewrite P.
Qed.

(** ** Rows joined so far

    The rows are those of the product of [S] that pass the conjuncts [D]. *)
Definition local (S : list nat) (c : Expr) : Prop :=
  total env c /\ has_subquery c = false /\ forall m, In m (joined S) -> covers m c.

Record unit_of (rows : list Row) (S : list nat) (D : list Expr) : Prop := {
  unit_among : among S;
  unit_local : Forall (local S) D;
  unit_rows : map visible rows ≡ₚ List.filter (sat_all env D) (joined S) }.

Lemma local_total (S : list nat) (D : list Expr) : Forall (local S) D -> Forall (total env) D.
Proof. intros Hl. eapply Forall_impl; [exact Hl|]. now intros c []. Qed.

Lemma among_app (S T : list nat) : among (S ++ T) -> among S /\ among T.
Proof. intros [(HS & _ & HT)%NoDup_app Ht]. split; (split; [assumption|set_solver]). Qed.

Lemma in_joined_app (S T : list nat) (m : Row) : In m (joined (S ++ T)) ->
  exists a b, In a (joined S) /\ In b (joined T) /\ m = b ∪ a.
Proof. rewrite joined_app. apply in_pairs. Qed.

Lemma covers_mono (c : Expr) (m m' : Row) : visible m ⊆ visible m' -> covers m c -> covers m' c.
Proof.
  intros Hs Hc. eapply Forall_impl; [exact Hc|]. intros ref (k & Hk & E). exists k. split; [|exact E].
  now apply (known_mono k m m').
Qed.

Lemma visible_sub (m m' : Row) : m ⊆ m' -> visible m ⊆ visible m'.
Proof.
  rewrite !map_subseteq_spec. intros Hs k v Hv. unfold visible in *.
  apply map_lookup_filter_Some in Hv as [Hv Hk]. apply map_lookup_filter_Some. auto.
Qed.

(** A conjunct of some tables on the rows of more. *)
Lemma local_left (S T : list nat) (a b : Row) : among (S ++ T) -> In a (joined S) -> In b (joined T) ->
  (forall D, Forall (local S) D -> sat_all env D (b ∪ a) = sat_all env D a)
  /\ forall D, Forall (local T) D -> sat_all env D (b ∪ a) = sat_all env D b.
Proof.
  intros Hn Ha Hb. pose proof (joined_disjoint S T a b Hn Ha Hb) as Hd. pose proof (among_app S T Hn) as [HS HT].
  assert (Hu : unique (b ∪ a)) by (apply (joined_unique (S ++ T)); [exact Hn|]; rewrite joined_app, in_pairs; eauto).
  split; intros D HD; symmetry; apply sat_all_stable; try exact Hu.
  1, 4: eapply Forall_impl; [exact HD|]; intros c (_ & Hq & Hc); auto.
  - now apply (joined_unique S).
  - apply visible_sub, map_union_subseteq_r. now symmetry.
  - now apply (joined_unique T).
  - apply visible_sub, map_union_subseteq_l.
Qed.

Lemma local_app (S T : list nat) (c : Expr) : among (S ++ T) -> local S c \/ local T c -> local (S ++ T) c.
Proof.
  intros Hn [(Ht & Hq & Hc)|(Ht & Hq & Hc)]; (split; [exact Ht|split; [exact Hq|]]);
    intros m (a & b & Ha & Hb & ->)%in_joined_app.
  - apply (covers_mono c a); [|now apply Hc]. apply visible_sub, map_union_subseteq_r. symmetry.
    now apply (joined_disjoint S T).
  - apply (covers_mono c b); [|now apply Hc]. apply visible_sub, map_union_subseteq_l.
Qed.

Lemma sat_all_app (D E : list Expr) (m : Row) : sat_all env (D ++ E) m = sat_all env D m && sat_all env E m.
Proof. apply forallb_app. Qed.

Lemma filter_map_comm {A B} (f : B -> bool) (g : A -> B) (l : list A) :
  List.filter f (map g l) = map g (List.filter (fun x => f (g x)) l).
Proof. induction l as [|x l IH]; [reflexivity|]. cbn. destruct (f (g x)); cbn; now rewrite IH. Qed.

Lemma filter_filter {A} (f g : A -> bool) (l : list A) :
  List.filter f (List.filter g l) = List.filter (fun x => g x && f x) l.
Proof. induction l as [|x l IH]; [reflexivity|]. cbn. destruct (g x); cbn; [|exact IH]. destruct (f x); now rewrite IH. Qed.

Lemma filter_rows_perm {A} (f : A -> bool) (l l' : list A) : l ≡ₚ l' -> List.filter f l ≡ₚ List.filter f l'.
Proof.
  induction 1 as [|x l l' _ IH|x y l|l l' l'' _ IH _ IH']; cbn; [reflexivity| | |now rewrite IH].
  - destruct (f x); [now constructor|exact IH].
  - destruct (f x), (f y); try reflexivity. apply perm_swap.
Qed.

Lemma eq_perm {A} (l l' : list A) : l = l' -> l ≡ₚ l'.
Proof. now intros ->. Qed.

(** Rows whose visible part is a row of the product pass what that part passes. *)
Lemma filter_visible (S : list nat) (D : list Expr) (rows : list Row) :
  among S -> Forall (local S) D -> (forall m, In m rows -> In (visible m) (joined S)) ->
  map visible (List.filter (sat_all env D) rows) = List.filter (sat_all env D) (map visible rows).
Proof.
  intros Hs HD Hr. rewrite filter_map_comm. f_equal. apply filter_ext_in. intros m Hm. symmetry.
  pose proof (Hr m Hm) as Hv. pose proof (joined_unique S _ Hs Hv) as Hu.
  apply sat_all_stable; [|exact Hu|now apply unique_visible|].
  - eapply Forall_impl; [exact HD|]. intros c (_ & Hq & Hc). auto.
  - apply map_subseteq_spec. intros k v Hk. unfold visible in Hk at 1. now apply map_lookup_filter_Some in Hk as [Hk _].
Qed.

Lemma unit_visible (rows : list Row) (S : list nat) (D : list Expr) (m : Row) :
  unit_of rows S D -> In m rows -> In (visible m) (joined S).
Proof.
  intros Hu Hm. apply (in_map visible), list_elem_of_In in Hm. rewrite (unit_rows _ _ _ Hu) in Hm.
  now apply list_elem_of_In, filter_In in Hm.
Qed.

(** More conjuncts on the rows of the same tables. *)
Lemma unit_filter (rows : list Row) (S : list nat) (D E : list Expr) :
  unit_of rows S D -> Forall (local S) E ->
  exists out, filter_all env E rows = Ok out /\ unit_of out S (D ++ E).
Proof.
  intros Hu HE. eexists. split; [apply filter_all_total; now apply (local_total S)|]. split.
  - apply Hu.
  - apply Forall_app. split; [apply Hu|exact HE].
  - rewrite (filter_visible S); [|apply Hu|exact HE|intros m; now apply (unit_visible _ _ D)].
    rewrite (filter_rows_perm _ _ _ (unit_rows _ _ _ Hu)), filter_filter. apply eq_perm, filter_ext. intros m.
    symmetry. apply sat_all_app.
Qed.

(** Two groups of tables. *)
Lemma unit_pairs (left right : list Row) (S T : list nat) (D E : list Expr) :
  unit_of left S D -> unit_of right T E -> among (S ++ T) -> unit_of (pairs left right) (S ++ T) (D ++ E).
Proof.
  intros Hl Hr Hn. split; [exact Hn| |].
  - apply Forall_app. split.
    + eapply Forall_impl; [apply Hl|]. intros c Hc. apply local_app; auto.
    + eapply Forall_impl; [apply Hr|]. intros c Hc. apply local_app; auto.
  - rewrite visible_pairs, (pairs_perm _ _ _ _ (unit_rows _ _ _ Hl) (unit_rows _ _ _ Hr)), joined_app.
    apply eq_perm, pairs_filter. intros a b Ha Hb. rewrite sat_all_app.
    destruct (local_left S T a b Hn Ha Hb) as [HS HT]. rewrite HS, HT; [reflexivity|apply Hr|apply Hl].
Qed.

(** ** Carrying out the plan *)

Variable infos : list tableInfo.

(** A reference to a table that is there has its column. *)
Definition present (ref : string * string) : Prop :=
  if ref.1 =s EmptyString
  then (forall i m, has_column infos i ref.2 = true -> i ∈ tables -> In m (R i) -> resolved m ref)
  else forall i m, alias_index infos ref.1 = Some i -> i ∈ tables -> In m (R i) -> resolved m ref.

Definition sound (c : Expr) : Prop :=
  total env c /\ has_subquery c = false /\ clause_ready infos tables c = true
  /\ Forall present (collectTableColumnRefs c).

Lemma resolved_joined (S : list nat) (i : nat) (ref : string * string) (m : Row) :
  among S -> i ∈ S -> (forall r, In r (R i) -> resolved r ref) -> In m (joined S) -> resolved m ref.
Proof.
  intros Hs Hi Hr. revert m. induction S as [|j S IH]; [set_solver|]. intros m. rewrite joined_cons, in_pairs.
  intros (a & b & Ha & Hb & ->). pose proof (among_cons _ _ Hs) as (Hj & Hf & Hs').
  assert (Hi' : i = j \/ i ∈ S) by set_solver. destruct Hi' as [->|Hi'].
  - apply in_map_iff in Ha as (r & <- & Hin). destruct (Hr r Hin) as (k & Hk & E). exists k. split; [|exact E].
    apply known_visible in Hk. destruct Hk as [[v Hv] Hk]. split; [|exact Hk]. apply lookup_union_is_Some. eauto.
  - destruct (IH Hs' Hi' b Hb) as (k & [Hk Hk'] & E). exists k. split; [|exact E]. split; [|exact Hk'].
    apply lookup_union_is_Some. auto.
Qed.

Lemma ready_local (S : list nat) (c : Expr) : among S -> sound c -> clause_ready infos S c = true -> local S c.
Proof.
  intros Hs (Ht & Hq & _ & Hp) Hr. split; [exact Ht|]. split; [exact Hq|]. intros m Hm. unfold covers, clause_ready in *.
  rewrite forallb_forall in Hr. apply Forall_forall. intros ref Href. rewrite Forall_forall in Hp. specialize (Hp ref Href).
  specialize (Hr ref (proj1 (list_elem_of_In _ _) Href)). unfold ref_ready, present in *. destruct (ref.1 =s EmptyString).
  - apply existsb_exists in Hr as (i & Hi & [Hc Hs']%andb_true_iff). apply existsb_nat in Hs'.
    apply (resolved_joined S i); try assumption. intros r Hin. apply (Hp i); [exact Hc|now apply Hs|exact Hin].
  - destruct (alias_index infos ref.1) as [i|] eqn:Ei; [|discriminate]. apply existsb_nat in Hr.
    apply (resolved_joined S i); try assumption. intros r Hin. apply (Hp i); [reflexivity|now apply Hs|exact Hin].
Qed.

(** What has been joined and what is to come are together the conjuncts. *)
Definition so_far (s : join_state) (D : list Expr) : Prop :=
  unit_of (js_rows s) (js_seen s) D /\ Forall sound (js_pending s).

Lemma join_with_spec (s : join_state) (D E : list Expr) (more : list nat) (right : list Row) :
  so_far s D -> unit_of right more E -> among (js_seen s ++ more) ->
  exists s' D', join_with env infos s more right = Ok s' /\ so_far s' D' /\ js_seen s' = (js_seen s ++ more)%list
    /\ D' ++ js_pending s' ≡ₚ D ++ E ++ js_pending s.
Proof.
  intros [Hu Hp] Hr Hn. unfold join_with, applyWhenSeen, inlineJoin.
  set (now' := List.filter (clause_ready infos (js_seen s ++ more)) (js_pending s)).
  assert (Hnow : Forall (local (js_seen s ++ more)) now').
  { apply Forall_forall. intros c Hc. apply filter_elem in Hc as [Hc Hready]. rewrite Forall_forall in Hp.
    apply ready_local; auto. }
  destruct (unit_filter _ _ _ now' (unit_pairs _ _ _ _ _ _ Hu Hr Hn) Hnow) as (out & Ho & Hu').
  unfold pairs in Ho. rewrite Ho. unfold mbind, ev_bind. cbv beta iota. do 2 eexists.
  split; [reflexivity|]. cbn [js_rows js_seen js_pending]. split; [split; [exact Hu'|]|split; [reflexivity|]].
  - apply Forall_forall. intros c Hc. apply filter_elem in Hc as [Hc _]. rewrite Forall_forall in Hp. auto.
  - rewrite <- !app_assoc. do 2 apply Permutation_app_head. apply filter_partition.
Qed.

Context `{!TableReads}.
Variable filters : nat -> list Expr.
Hypothesis loaded : forall i, i ∈ tables -> load infos i = Ok (R i).
Hypothesis filters_local : forall i, i ∈ tables -> Forall (local [i]) (filters i).

Lemma filter_true {A} (l : list A) : List.filter (fun _ => true) l = l.
Proof. induction l as [|x l IH]; cbn; [reflexivity|]. now rewrite IH. Qed.

Lemma unit_table (i : nat) : i ∈ tables -> unit_of (R i) [i] [].
Proof.
  intros Hi. split; [|constructor|].
  - split; [apply NoDup_singleton|]. intros j ->%list_elem_of_singleton. exact Hi.
  - rewrite joined_single. apply eq_perm. symmetry. apply filter_true.
Qed.

Lemma unit_filtered (i : nat) : i ∈ tables ->
  exists rows, filter_all env (filters i) (R i) = Ok rows /\ unit_of rows [i] (filters i).
Proof. intros Hi. now apply (unit_filter _ _ [] _ (unit_table i Hi)), filters_local. Qed.

Lemma join_table_spec (s : join_state) (D : list Expr) (i : nat) :
  so_far s D -> among (js_seen s ++ [i]) ->
  exists s' D', join_table env infos filters s i = Ok s' /\ so_far s' D' /\ js_seen s' = (js_seen s ++ [i])%list
    /\ D' ++ js_pending s' ≡ₚ D ++ filters i ++ js_pending s.
Proof.
  intros Hs Hn. assert (Hi : i ∈ tables) by (apply Hn; set_solver). unfold join_table. rewrite (loaded i Hi).
  destruct (unit_filtered i Hi) as (rows & E & Hu). unfold mbind, ev_bind. cbv beta iota. rewrite E.
  now apply join_with_spec.
Qed.

Lemma join_tables_spec (rest : list nat) (s : join_state) (D : list Expr) :
  so_far s D -> among (js_seen s ++ rest) ->
  exists s' D', foldE (join_table env infos filters) rest s = Ok s' /\ so_far s' D'
    /\ js_seen s' = (js_seen s ++ rest)%list
    /\ D' ++ js_pending s' ≡ₚ D ++ concat (map filters rest) ++ js_pending s.
Proof.
  revert s D. induction rest as [|i rest IH]; intros s D Hs Hn.
  - exists s, D. rewrite app_nil_r. now repeat split; try apply Hs.
  - change (js_seen s ++ i :: rest)%list with (js_seen s ++ [i] ++ rest)%list in *. rewrite app_assoc in *.
    destruct (join_table_spec s D i Hs) as (s1 & D1 & E1 & G1 & S1 & P1); [now apply among_app in Hn|].
    rewrite <- S1 in *. destruct (IH s1 D1 G1 Hn) as (s2 & D2 & E2 & G2 & S2 & P2). exists s2, D2.
    cbn [foldE]. rewrite E1. split; [exact E2|]. split; [exact G2|]. split; [exact S2|].
    rewrite P2. cbn [map concat]. rewrite <- app_assoc. rewrite (Permutation_app_swap_app D1), P1.
    rewrite (Permutation_app_swap_app (concat (map filters rest)) D). apply Permutation_app_head.
    apply Permutation_app_swap_app.
Qed.

(** The components that are joined first. *)
Definition units (us : list (list Row * list nat)) (Ds : list (list Expr)) : Prop :=
  Forall2 (fun u D => unit_of u.1 u.2 D) us Ds.

Lemma pre_join_spec (us : list (list Row * list nat)) (Ds : list (list Expr)) (pending : list Expr) (comp : list nat) :
  units us Ds -> Forall sound pending -> among comp -> (forall i, i ∈ comp -> filters i = []) ->
  exists us' Ds' pending', pre_join env infos filters (us, pending) comp = Ok (us', pending')
    /\ units us' Ds' /\ Forall sound pending'
    /\ concat (map snd us') = (concat (map snd us) ++ comp)%list
    /\ concat Ds' ++ pending' ≡ₚ concat Ds ++ pending.
Proof.
  intros Hu Hp Hn Hf. destruct comp as [|seed rest].
  - exists us, Ds, pending. rewrite app_nil_r. now repeat split.
  - cbn [pre_join]. rewrite (loaded seed) by (apply Hn; set_solver). unfold mbind, ev_bind. cbv beta iota.
    destruct (join_tables_spec rest (mkJoinState (R seed) [seed] pending) []) as (s' & D & E & [Hs' Hp'] & Hseen & P).
    + split; [apply unit_table; apply Hn; set_solver|exact Hp].
    + exact Hn.
    + cbn [fst snd] in *. rewrite E. exists (us ++ [(js_rows s', js_seen s')])%list, (Ds ++ [D])%list, (js_pending s').
      assert (Hz : concat (map filters rest) = []).
      { clear -Hf. induction rest as [|i rest IH]; [reflexivity|]. cbn. rewrite (Hf i) by set_solver. apply IH. set_solver. }
      rewrite Hz in P. cbn [app js_pending js_seen] in *.
      split; [reflexivity|]. split; [apply Forall2_app; [exact Hu|now constructor]|]. split; [exact Hp'|]. split.
      * rewrite map_app, concat_app. cbn. now rewrite app_nil_r, Hseen.
      * rewrite concat_app. cbn. now rewrite app_nil_r, <- app_assoc, P.
Qed.

Lemma pre_joins_run (comps : list (list nat)) us Ds pending :
  units us Ds -> Forall sound pending -> among (concat comps) -> (forall i, i ∈ concat comps -> filters i = []) ->
  exists us' Ds' pending', foldE (pre_join env infos filters) comps (us, pending) = Ok (us', pending')
    /\ units us' Ds' /\ Forall sound pending'
    /\ concat (map snd us') = (concat (map snd us) ++ concat comps)%list
    /\ concat Ds' ++ pending' ≡ₚ concat Ds ++ pending.
Proof.
  revert us Ds pending. induction comps as [|comp comps IH]; intros us Ds pending Hu Hp Hn Hf; cbn [concat] in *.
  - exists us, Ds, pending. rewrite app_nil_r. now repeat split.
  - apply among_app in Hn as [Hn1 Hn2].
    destruct (pre_join_spec us Ds pending comp) as (us1 & Ds1 & p1 & E1 & Hu1 & Hp1 & C1 & P1); try assumption; [set_solver|].
    destruct (IH us1 Ds1 p1) as (us2 & Ds2 & p2 & E2 & Hu2 & Hp2 & C2 & P2); try assumption; [set_solver|].
    exists us2, Ds2, p2. cbn [foldE]. rewrite E1. split; [exact E2|]. split; [exact Hu2|]. split; [exact Hp2|].
    split; [now rewrite C2, C1, app_assoc|now rewrite P2].
Qed.

Lemma join_others_spec (order : list nat) (first_rows : list Row) (pending : list Expr) :
  Forall sound pending -> among order -> (0 ∈ order -> first_rows = R 0) ->
  exists s D, join_others env infos filters first_rows order pending = Ok s /\ so_far s D /\ js_seen s = order
    /\ D ++ js_pending s ≡ₚ concat (map filters order) ++ pending.
Proof.
  intros Hp Hn Hf. destruct order as [|i rest].
  - exists (mkJoinState [∅] [] pending), []. cbn. split; [reflexivity|]. split; [|easy]. split; [|exact Hp]. split.
    + split; [constructor|set_solver].
    + constructor.
    + cbn. unfold visible. rewrite map_filter_empty. reflexivity.
  - cbn [join_others]. assert (Hi : i ∈ tables) by (apply Hn; set_solver).
    assert (E : (if (i =? 0)%nat then Ok first_rows else load infos i) = Ok (R i)).
    { destruct (i =? 0)%nat eqn:E; [|now apply loaded]. apply Nat.eqb_eq in E as ->. rewrite Hf by set_solver. reflexivity. }
    rewrite E. destruct (unit_filtered i Hi) as (rows & Er & Hu). unfold mbind, ev_bind. cbv beta iota. rewrite Er.
    destruct (join_tables_spec rest (mkJoinState rows [i] pending) (filters i)) as (s' & D & Ej & Hs & Hseen & P).
    + split; assumption.
    + exact Hn.
    + exists s', D. split; [exact Ej|]. split; [exact Hs|]. split; [exact Hseen|]. rewrite P. cbn. now rewrite app_assoc.
Qed.

Lemma join_units_spec (us : list (list Row * list nat)) (Ds : list (list Expr)) (s : join_state) (D : list Expr) :
  units us Ds -> so_far s D -> among (js_seen s ++ concat (map snd us)) ->
  exists s' D', foldE (fun s (u : list Row * list nat) => join_with env infos s u.2 u.1) us s = Ok s'
    /\ so_far s' D' /\ js_seen s' = (js_seen s ++ concat (map snd us))%list
    /\ D' ++ js_pending s' ≡ₚ D ++ concat Ds ++ js_pending s.
Proof.
  intros Hu. revert s D. induction Hu as [|u E us Es Hu Hus IH]; intros s D Hs Hn.
  - exists s, D. rewrite app_nil_r. now repeat split; try apply Hs.
  - cbn [map concat] in *. rewrite app_assoc in *.
    destruct (join_with_spec s D E u.2 u.1 Hs Hu) as (s1 & D1 & E1 & G1 & S1 & P1); [now apply among_app in Hn|].
    rewrite <- S1 in *. destruct (IH s1 D1 G1 Hn) as (s2 & D2 & E2 & G2 & S2 & P2). exists s2, D2.
    cbn [foldE]. rewrite E1. split; [exact E2|]. split; [exact G2|]. split; [exact S2|]. rewrite P2.
    rewrite <- app_assoc, (Permutation_app_swap_app D1), P1, (Permutation_app_swap_app (concat Es) D).
    apply Permutation_app_head, Permutation_app_swap_app.
Qed.

Lemma ready_perm (S S' : list nat) (c : Expr) : S ≡ₚ S' -> clause_ready infos S c = true -> clause_ready infos S' c = true.
Proof.
  intros P. unfold clause_ready. rewrite !forallb_forall. intros Hc ref Hr. specialize (Hc ref Hr). unfold ref_ready in *.
  assert (E : forall i, existsb (Nat.eqb i) S = true -> existsb (Nat.eqb i) S' = true)
    by (intros i; rewrite !existsb_nat; now rewrite P).
  destruct (ref.1 =s EmptyString).
  - rewrite existsb_exists in *. destruct Hc as (i & Hi & [Hh Hs]%andb_true_iff). exists i. split; [exact Hi|].
    apply andb_true_iff. auto.
  - destruct (alias_index infos ref.1); auto.
Qed.

(** Whatever the order: the rows are those of the product that pass all conjuncts. *)
Lemma carry_out_spec (comps : list (list nat)) (order : list nat) (first_rows : list Row) (pending : list Expr) :
  order ++ concat comps ≡ₚ tables -> NoDup tables -> Forall sound pending ->
  (forall i, i ∈ concat comps -> filters i = []) -> (0 ∈ order -> first_rows = R 0) ->
  exists rows D, carry_out env infos filters first_rows comps order pending = Ok rows
    /\ unit_of rows (order ++ concat comps) D /\ D ≡ₚ concat (map filters order) ++ pending.
Proof.
  intros P Ht Hp Hf Hz. assert (Hn : among (order ++ concat comps)).
  { split; [now rewrite P|]. intros i. now rewrite P. }
  unfold carry_out. pose proof (among_app _ _ Hn) as [Hn1 Hn2].
  destruct (pre_joins_run comps [] [] pending) as (us & Ds & p1 & E1 & Hu & Hp1 & C1 & P1); try assumption; [constructor|].
  destruct (join_others_spec order first_rows p1) as (s2 & D2 & E2 & G2 & S2 & P2); try assumption.
  cbn [map concat app] in C1. rewrite <- C1, <- S2 in Hn.
  destruct (join_units_spec us Ds s2 D2 Hu G2 Hn) as (s3 & D3 & E3 & [G3 Hp3] & S3 & P3).
  rewrite E1. unfold mbind, ev_bind. cbv beta iota. cbn [fst snd]. rewrite E2, E3.
  assert (Hloc : Forall (local (js_seen s3)) (js_pending s3)).
  { eapply Forall_impl; [exact Hp3|]. intros c Hc. apply ready_local; [apply G3|exact Hc|].
    apply (ready_perm tables); [now rewrite S3, S2, C1|apply Hc]. }
  destruct (unit_filter _ _ _ _ G3 Hloc) as (rows & E4 & G4). exists rows, (D3 ++ js_pending s3)%list.
  split; [exact E4|]. split; [now rewrite <- C1, <- S2, <- S3|]. rewrite P3.
  rewrite (Permutation_app_swap_app D2), P2. rewrite (Permutation_app_swap_app (concat Ds)).
  now rewrite P1.
Qed.

(** Filtering the product of the tables. *)
Lemma product_spec (D : list Expr) : among tables -> Forall (local tables) D ->
  unit_of (List.filter (sat_all env D) (product (map R tables))) tables D.
Proof.
  intros Hs HD. assert (Hv : map visible (product (map R tables)) = joined tables).
  { clear. induction tables as [|i S IH]; [cbn; f_equal; apply map_filter_empty|].
    rewrite joined_cons, <- IH. change (product (map R (i :: S))) with (pairs (R i) (product (map R S))).
    apply visible_pairs. }
  split; [exact Hs|exact HD|]. rewrite (filter_visible tables); [now rewrite Hv|exact Hs|exact HD|].
  intros m Hm. rewrite <- Hv. now apply in_map.
Qed.
End Rows.
