(* ===== verification/FromListFacts.v ===== *)
(** * FROM lists: what a query over several tables returns

    The hypotheses of CrossJoinFacts hold for tables whose names are ASCII, without a dot, and different
    but for case, when the rows have the columns of the schemas and the conditions refer to columns that
    are there and not ambiguous.  Then the rows of the FROM list are those of the product of the tables
    that pass the condition, in another order. *)
From Stdlib Require Import NArith ZArith Lia Bool Ascii String List.
From stdpp Require Import base option list list_numbers gmap strings.
From S2P Require Import Prelude Token Ast Bytes RowCodec Float Values Schema ExecValue Arrays ExprTypes Operators Eval.
From S2P Require Import Aggregates Sorting Joins Select TableReads CrossJoin PlanFacts JoinFacts.
From S2P Require Import TableSelect CrossJoinFacts.

#[local] Open Scope string_scope.
#[local] Set Warnings "-clear-no-such-hyp".

(** ** ASCII names *)

Definition ascii_text (s : string) : bool := string_forallb (fun c => (N_of_ascii c <? 128)%N) s.

Lemma not_ascii (c d : ascii) : (N_of_ascii c <? 128)%N = true -> (128 <=? N_of_ascii d)%N = true -> (c =b d) = false.
Proof.
  intros Hc Hd. apply Ascii.eqb_neq. intros ->. apply N.ltb_lt in Hc. apply N.leb_le in Hd. lia.
Qed.

Lemma fold_step (c : ascii) (s : string) : (N_of_ascii c <? 128)%N = true ->
  fold_key (String c s) = String (lower_byte c) (fold_key s) /\ ToLower (String c s) = String (lower_byte c) (ToLower s).
Proof.
  intros Hc. destruct s as [|d [|e s']]; cbn [fold_key ToLower]; rewrite ?(not_ascii c) by easy; now cbn [andb].
Qed.

Lemma fold_ascii (s : string) : ascii_text s = true -> fold_key s = ascii_lower s /\ ToLower s = ascii_lower s.
Proof.
  induction s as [|c s IH]; [easy|]. intros [Hc Hs]%andb_true_iff. destruct (IH Hs) as [IH1 IH2].
  destruct (fold_step c s Hc) as [-> ->]. now rewrite IH1, IH2.
Qed.

Lemma equal_fold_ascii (a b : string) : ascii_text a = true -> ascii_text b = true ->
  EqualFold a b = true <-> ascii_lower a = ascii_lower b.
Proof.
  intros Ha Hb. unfold EqualFold. rewrite String.eqb_eq.
  now rewrite (proj1 (fold_ascii a Ha)), (proj1 (fold_ascii b Hb)).
Qed.

Lemma lower_app (a b : string) : ascii_lower (a ++ b) = ascii_lower a ++ ascii_lower b.
Proof. induction a as [|c a IH]; [reflexivity|]. exact (f_equal (String (lower_byte c)) IH). Qed.

Lemma lower_byte_facts (c : ascii) : lower_byte (lower_byte c) = lower_byte c
  /\ ((lower_byte c =b ".") = (c =b ".")) /\ ((N_of_ascii c <? 128)%N = true -> (N_of_ascii (lower_byte c) <? 128)%N = true).
Proof. destruct c as [[] [] [] [] [] [] [] []]; vm_compute; auto. Qed.

Lemma lower_lower (s : string) : ascii_lower (ascii_lower s) = ascii_lower s.
Proof. induction s as [|c s IH]; cbn; [reflexivity|]. now rewrite (proj1 (lower_byte_facts c)), IH. Qed.

Lemma lower_ascii (s : string) : ascii_text s = true -> ascii_text (ascii_lower s) = true.
Proof.
  unfold ascii_text. induction s as [|c s IH]; cbn; [easy|]. intros [Hc Hs]%andb_true_iff. apply andb_true_iff.
  split; [now apply lower_byte_facts|auto].
Qed.

Lemma lower_qualified (s : string) : is_qualified (ascii_lower s) = is_qualified s.
Proof.
  unfold is_qualified, has_byte. f_equal. induction s as [|c s IH]; cbn; [reflexivity|].
  destruct (lower_byte_facts c) as (_ & -> & _). now rewrite IH.
Qed.

Lemma lower_qualify (a k : string) : ascii_lower (qualify a k) = qualify (ascii_lower a) (ascii_lower k).
Proof. unfold qualify. now rewrite !lower_app. Qed.

Definition plain_name (s : string) : bool := ascii_text s && negb (is_qualified s) && negb (s =s EmptyString).

Lemma plain_name_spec (s : string) : plain_name s = true -> ascii_text s = true /\ is_qualified s = false /\ plain_alias s.
Proof.
  unfold plain_name, plain_alias. rewrite !andb_true_iff, !negb_true_iff. intros [[Ha Hq] He%String.eqb_neq]. auto.
Qed.

Lemma ascii_qualify (a k : string) : ascii_text a = true -> ascii_text k = true -> ascii_text (qualify a k) = true.
Proof. intros Ha Hk. unfold ascii_text, qualify in *. now rewrite !string_forallb_app, Ha, Hk. Qed.

(** Qualified names are equal but for case when their parts are. *)
Lemma fold_qualify (a a' k k' : string) :
  ascii_text a = true -> ascii_text a' = true -> ascii_text k = true -> ascii_text k' = true ->
  is_qualified a = false -> is_qualified a' = false ->
  EqualFold (qualify a k) (qualify a' k') = true <-> ascii_lower a = ascii_lower a' /\ ascii_lower k = ascii_lower k'.
Proof.
  intros. rewrite equal_fold_ascii by now apply ascii_qualify. rewrite !lower_qualify. split.
  - intros E. apply qualify_inj in E; rewrite ?lower_qualified; auto.
  - now intros [-> ->].
Qed.

Lemma fold_mixed (a k k' : string) :
  ascii_text a = true -> ascii_text k = true -> ascii_text k' = true -> is_qualified k' = false ->
  EqualFold (qualify a k) k' = false.
Proof.
  intros. apply not_true_is_false. rewrite equal_fold_ascii by (try apply ascii_qualify; assumption). intros E.
  apply (f_equal is_qualified) in E. rewrite !lower_qualified, qualify_qualified in E. congruence.
Qed.

(** ** Rows under an alias *)

Section Alias.
Context `{Foreign}.

Lemma normalize_keys (cols : list Column) (r : Row) (k : string) :
  is_Some (normalizeRowBySchema r cols !! k) <-> is_Some (r !! k).
Proof.
  unfold normalizeRowBySchema. revert r. induction cols as [|c cols IH]; intros r; cbn [fold_left]; [reflexivity|].
  rewrite IH. destruct (_ || _); [|reflexivity]. destruct (r !! col_Name c) as [[]|] eqn:E; try reflexivity.
  destruct (decide (k = col_Name c)) as [->|Hne].
  - rewrite lookup_insert_eq, E. split; eauto.
  - now rewrite lookup_insert_ne by congruence.
Qed.

Lemma alias_keys (r : Row) (alias k : string) : unqualified r ->
  is_Some (addTableAlias r alias !! k) <-> is_Some (r !! k) \/ exists c, is_Some (r !! c) /\ k = qualify alias c.
Proof.
  intros Hr%unqualified_list. unfold addTableAlias.
  assert (G : forall l (m : Row), Forall (fun kv => is_qualified kv.1 = false) l ->
    is_Some (fold_left (fun (m : Row) (kv : string * val) => let m := <[kv.1 := kv.2]> m in
        if is_qualified kv.1 then m else <[qualify alias kv.1 := kv.2]> m) l m !! k)
    <-> is_Some (m !! k) \/ exists c, In c (map fst l) /\ (k = c \/ k = qualify alias c)).
  { clear. intros l. induction l as [|[c v] l IH]; intros m Hl; cbn [fold_left map fst In].
    - split; [auto|]. intros [Hm|(c & [] & _)]. exact Hm.
    - inversion_clear Hl as [|? ? Hc Hl']. cbn [fst snd] in *. cbv zeta. rewrite Hc, IH by exact Hl'.
      rewrite lookup_insert_is_Some, lookup_insert_is_Some. split.
      + intros [[<-|[_ [<-|[_ Hm]]]]|(c' & Hin & E)]; [right; exists c|right; exists c|left|right; exists c']; auto.
      + intros [Hm|(c' & [<-|Hin] & E)]; [|destruct E as [->| ->]|right; eauto].
        * left. destruct (decide (qualify alias c = k)); [now left|right]. split; [assumption|].
          destruct (decide (c = k)); [now left|right]. auto.
        * left. destruct (decide (qualify alias c = c)); [now left|right]. auto.
        * left. now left. }
  rewrite G by exact Hr. rewrite lookup_empty.
  assert (Hin : forall c, In c (map fst (map_to_list r)) <-> is_Some (r !! c)).
  { intros c. rewrite in_map_iff. split.
    - intros ([c' v] & <- & Hc%list_elem_of_In%elem_of_map_to_list). cbn. eauto.
    - intros [v Hv%elem_of_map_to_list%list_elem_of_In]. now exists (c, v). }
  split.
  - intros [[? [=]]|(c & Hc%Hin & [->| ->])]; eauto.
  - intros [Hk%Hin|(c & Hc%Hin & ->)]; right; eauto.
Qed.
End Alias.

(** ** The tables of a FROM list *)

Section Clauses.
Context `{Builtins}.
Variable env : Env.

Definition where_clauses (where_ : option Expr) : list Expr :=
  match where_ with Some c => splitANDClauses c | None => [] end.

Definition passes (where_ : option Expr) (row : Row) : bool := match where_ with Some c => sat env c row | None => true end.

Lemma sat_all_concat (D E : list Expr) (row : Row) : sat_all env (D ++ E) row = sat_all env D row && sat_all env E row.
Proof. apply forallb_app. Qed.

(** A condition holds when its conjuncts do. *)
Lemma split_sat (c : Expr) : Forall (total env) (splitANDClauses c) ->
  total env c /\ forall row, sat env c row = sat_all env (splitANDClauses c) row.
Proof.
  assert (Hone : forall e, Forall (total env) [e] -> total env e /\ forall row, sat env e row = sat_all env [e] row).
  { intros e He. inversion_clear He. split; [assumption|]. intros row. cbn. now rewrite andb_true_r. }
  induction c; try apply Hone. match goal with |- context [BinaryExpr _ ?op _] => destruct op end; try apply Hone. cbn [splitANDClauses]. intros [Hl Hr]%Forall_app.
  destruct (IHc1 Hl) as [T1 S1], (IHc2 Hr) as [T2 S2]. destruct (sat_and env c1 c2 T1 T2) as [T S]. split; [exact T|].
  intros row. now rewrite S, S1, S2, sat_all_concat.
Qed.

Lemma passes_all (where_ : option Expr) (row : Row) : Forall (total env) (where_clauses where_) ->
  passes where_ row = sat_all env (where_clauses where_) row.
Proof. destruct where_ as [c|]; [|reflexivity]. intros Hc. now apply split_sat. Qed.

End Clauses.

(** ** Owners *)

Section Owners.
Variable infos : list tableInfo.

(** The tables that have a column, and those that have one of that name but for case. *)
Definition having (column : string) : list nat := List.filter (fun i => has_column infos i column) (all_tables infos).

Definition has_folded (i : nat) (k : string) : bool :=
  match nth_error infos i with Some t => existsb (fun c => EqualFold c k) (ti_cols t) | None => false end.

(** The names that a joined row does not tell apart: those of several tables, and the hidden row id. *)
Definition shared_name (k : string) : bool :=
  EqualFold "_rowid_" k || (2 <=? length (List.filter (fun i => has_folded i k) (all_tables infos)))%nat.

(** A reference to one column of one table. *)
Definition scoped (ref : string * string) : bool :=
  ascii_text ref.1 && ascii_text ref.2 && negb (EqualFold "_rowid_" ref.2) &&
  (if ref.1 =s EmptyString then (length (having ref.2) =? 1)%nat
   else match alias_index infos ref.1 with Some i => has_column infos i ref.2 | None => false end).

Lemma shared_name_fold (a b : string) : EqualFold a b = true -> shared_name a = shared_name b.
Proof.
  intros E. assert (F : forall c, EqualFold c a = EqualFold c b).
  { intros c. unfold EqualFold in *. apply String.eqb_eq in E. now rewrite E. }
  unfold shared_name. rewrite F. f_equal. f_equal. f_equal. apply filter_ext. intros i. unfold has_folded.
  destruct (nth_error infos i); [|reflexivity]. induction (ti_cols t) as [|c l IH]; cbn; [reflexivity|]. now rewrite F, IH.
Qed.

Lemma clause_owner_spec (columns : list string) (o : option nat) (i : nat) :
  clause_owner infos o columns = Some i ->
  (o = None \/ o = Some i) /\ Forall (fun c => having c = [] \/ having c = [i]) columns.
Proof.
  revert o. induction columns as [|c columns IH]; intros o E; cbn [clause_owner] in E; [subst; split; [now right|constructor]|].
  fold (having c) in E. destruct (having c) as [|j [|? ?]] eqn:Ec; [| |discriminate].
  - destruct (IH o E) as [Ho Hf]. split; [exact Ho|]. constructor; auto.
  - destruct o as [o|].
    + destruct (o =? j)%nat eqn:Ej; [|discriminate]. apply Nat.eqb_eq in Ej as ->.
      destruct (IH _ E) as [[|[= ->]] Hf]; [discriminate|]. split; [now right|]. constructor; auto.
    + destruct (IH _ E) as [[|[= ->]] Hf]; [discriminate|]. split; [now left|]. constructor; auto.
Qed.

Lemma in_having (i : nat) (column : string) : i ∈ having column <-> has_column infos i column = true.
Proof.
  unfold having. rewrite filter_elem. split; [tauto|]. intros Hc. split; [|exact Hc]. unfold has_column in Hc.
  destruct (nth_error infos i) eqn:E; [|discriminate]. apply list_elem_of_In, in_seq.
  assert (i < length infos) by (apply nth_error_Some; congruence). lia.
Qed.

(** The columns of a conjunct that has an owner are its columns. *)
Lemma owner_ready (c : Expr) (i : nat) :
  owner_of infos c = Some i -> Forall (fun r => scoped r = true) (collectTableColumnRefs c) ->
  clause_ready infos [i] c = true.
Proof.
  unfold owner_of, collectColumnRefs. intros [_ Ho]%clause_owner_spec Hs. apply Forall_app in Ho as [Ho _].
  unfold clause_ready. apply forallb_forall. intros ref Hr.
  rewrite Forall_forall in Hs. specialize (Hs ref (proj2 (list_elem_of_In _ _) Hr)).
  rewrite Forall_forall in Ho. specialize (Ho ref.2 (proj2 (list_elem_of_In _ _) (in_map snd _ _ Hr))).
  unfold scoped, ref_ready in *. apply andb_true_iff in Hs as [_ Hs]. destruct (ref.1 =s EmptyString).
  - destruct Ho as [Ho|Ho]; rewrite Ho in Hs; [discriminate|]. apply existsb_exists. exists i.
    assert (Hi : i ∈ having ref.2) by (rewrite Ho; set_solver). split.
    + apply filter_elem in Hi as [Hi _]. now apply list_elem_of_In.
    + apply in_having in Hi. now rewrite Hi, (proj2 (existsb_nat i [i])) by set_solver.
  - destruct (alias_index infos ref.1) as [j|]; [|discriminate]. apply in_having in Hs.
    destruct Ho as [Ho|Ho]; rewrite Ho in Hs; [set_solver|]. apply existsb_nat. exact Hs.
Qed.

Lemma scoped_ready (c : Expr) : Forall (fun r => scoped r = true) (collectTableColumnRefs c) ->
  clause_ready infos (all_tables infos) c = true.
Proof.
  intros Hs. unfold clause_ready. apply forallb_forall. intros ref Hr. rewrite Forall_forall in Hs.
  specialize (Hs ref (proj2 (list_elem_of_In _ _) Hr)). unfold scoped, ref_ready in *.
  apply andb_true_iff in Hs as [_ Hs]. destruct (ref.1 =s EmptyString).
  - destruct (having ref.2) as [|i l] eqn:E; [discriminate|]. assert (Hi : i ∈ having ref.2) by (rewrite E; set_solver).
    apply existsb_exists. exists i. apply filter_elem in Hi as [Hi Hc]. split; [now apply list_elem_of_In|].
    rewrite Hc. now apply existsb_nat.
  - destruct (alias_index infos ref.1) as [i|]; [|discriminate]. apply existsb_nat.
    apply in_having, filter_elem in Hs. apply Hs.
Qed.
End Owners.

(** ** The product, filtered *)

Lemma Forall2_at {A B} (P : A -> B -> Prop) (l : list A) (l' : list B) (d : B) (i : nat) (x : A) :
  Forall2 P l l' -> nth_error l i = Some x -> P x (nth i l' d).
Proof.
  intros Hl. revert i. induction Hl as [|y y' l l' Hy _ IH]; intros [|i] E; cbn in *; try discriminate; [|now apply IH].
  now injection E as ->.
Qed.

Section FromList.
Context `{Builtins} `{!TableReads}.
Variable env : Env.
Variable from : list TableRef.

Definition columns_named (t : TableRef) : list string := map col_Name (columns_of (tr_Name t)).

(** The fields of a stored row: the columns, and the hidden row id. *)
Definition fields (t : TableRef) : list string := "_rowid_" :: columns_named t.

(** Tables side by side, with names that can be told apart. *)
Record plain_from : Prop := {
  pf_single : Forall (fun t => tr_Join t = None) from;
  pf_aliases : Forall (fun t => plain_name (qualifier t) = true) from;
  pf_distinct : NoDup (map (fun t => ascii_lower (qualifier t)) from);
  pf_fields : Forall (fun t => Forall (fun c => plain_name c = true) (fields t) /\ NoDup (map ascii_lower (fields t))) from }.

Definition stored_row (t : TableRef) (r : Row) : Prop :=
  (forall c, In c (columns_named t) -> is_Some (r !! c)) /\ forall k, is_Some (r !! k) -> In k (fields t).

(** The rows of a table under its alias. *)
Definition reads (t : TableRef) (rows : list Row) : Prop :=
  exists raw, tb_rows (tr_Name t) = Ok raw /\ Forall (stored_row t) raw
    /\ aliased_rows (tr_Name t) (qualifier t) = Ok rows.

(** A conjunct that does not fail, without queries, of columns that are there and not ambiguous. *)
Definition plain_clause (c : Expr) : Prop :=
  total env c /\ has_subquery c = false
  /\ Forall (fun ref => scoped (map table_info from) ref = true) (collectTableColumnRefs c).

Variable rowss : list (list Row).
Hypothesis plain : plain_from.
Hypothesis reading : Forall2 reads from rowss.

Let infos := map table_info from.
Let R (i : nat) : list Row := nth i rowss [].

Lemma info_of (i : nat) (t : TableRef) : nth_error from i = Some t -> nth_error infos i = Some (table_info t).
Proof. intros E. unfold infos. now rewrite nth_error_map, E. Qed.

Lemma in_tables (i : nat) : i ∈ all_tables infos <-> i < length from.
Proof. unfold all_tables, infos. rewrite list_elem_of_In, in_seq, length_map. lia. Qed.

Lemma table_at (i : nat) : i ∈ all_tables infos ->
  exists t, nth_error from i = Some t /\ reads t (R i) /\ plain_name (qualifier t) = true
    /\ Forall (fun c => plain_name c = true) (fields t) /\ NoDup (map ascii_lower (fields t)).
Proof.
  intros Hi%in_tables. destruct (nth_error from i) as [t|] eqn:E; [|apply nth_error_None in E; lia]. exists t.
  assert (Ht : In t from) by (eapply nth_error_In; exact E). split; [reflexivity|]. split.
  - exact (Forall2_at reads from rowss [] i t reading E).
  - split; [exact (proj1 (List.Forall_forall _ _) (pf_aliases plain) t Ht)|].
    exact (proj1 (List.Forall_forall _ _) (pf_fields plain) t Ht).
Qed.

Lemma aliases_distinct (i j : nat) (t u : TableRef) :
  nth_error from i = Some t -> nth_error from j = Some u ->
  ascii_lower (qualifier t) = ascii_lower (qualifier u) -> i = j.
Proof.
  intros Ei Ej E. pose proof (pf_distinct plain) as Hn. apply NoDup_ListNoDup in Hn.
  rewrite NoDup_nth_error in Hn. apply Hn.
  - rewrite length_map. apply nth_error_Some. congruence.
  - rewrite !nth_error_map, Ei, Ej. cbn. now f_equal.
Qed.

(** The keys of a row under its alias: the fields, with and without the alias. *)
Lemma row_keys (t : TableRef) (rows : list Row) (r : Row) (k : string) :
  Forall (fun c => plain_name c = true) (fields t) -> reads t rows -> In r rows ->
  (is_Some (r !! k) -> exists c, In c (fields t) /\ (k = c \/ k = qualify (qualifier t) c))
  /\ (forall c, In c (columns_named t) -> is_Some (r !! c) /\ is_Some (r !! qualify (qualifier t) c)).
Proof.
  intros Hf (raw & Er & Hraw & Ea) Hr. unfold aliased_rows in Ea. rewrite Er in Ea. injection Ea as <-.
  apply in_map_iff in Hr as (r0 & <- & Hr). rewrite List.Forall_forall in Hraw. destruct (Hraw r0 Hr) as [Hall Hkeys].
  assert (Hu : unqualified (normalizeRowBySchema r0 (columns_of (tr_Name t)))).
  { intros k' v Hk. assert (Hin : In k' (fields t)) by (apply Hkeys, (normalize_keys (columns_of (tr_Name t))); eauto).
    rewrite List.Forall_forall in Hf. now apply plain_name_spec, Hf. }
  split.
  - intros [Hk|(c & Hc & ->)]%alias_keys; [| |exact Hu].
    + apply normalize_keys in Hk. exists k. eauto.
    + apply normalize_keys in Hc. exists c. eauto.
  - intros c Hc. split; apply alias_keys; try exact Hu.
    + left. apply normalize_keys. auto.
    + right. exists c. split; [|reflexivity]. apply normalize_keys. auto.
Qed.

Lemma field_inj (t : TableRef) (c c' : string) :
  NoDup (map ascii_lower (fields t)) -> In c (fields t) -> In c' (fields t) -> ascii_lower c = ascii_lower c' -> c = c'.
Proof.
  intros Hn Hc Hc' E. apply (In_nth_error) in Hc as [n Hn1], Hc' as [n' Hn2].
  apply NoDup_ListNoDup in Hn. rewrite NoDup_nth_error in Hn.
  assert (n = n') as ->; [|congruence]. apply Hn.
  - rewrite length_map. apply nth_error_Some. congruence.
  - rewrite !nth_error_map, Hn1, Hn2. cbn. now f_equal.
Qed.

(** A field that is not shared belongs to no other table. *)
Lemma folded_field (i : nat) (t : TableRef) (c k : string) :
  nth_error from i = Some t -> In c (columns_named t) -> ascii_text c = true -> ascii_text k = true ->
  ascii_lower c = ascii_lower k -> has_folded infos i k = true.
Proof.
  intros Et Hc Ha Hk E. unfold has_folded. rewrite (info_of i t Et). cbn [ti_cols table_info]. apply existsb_exists.
  exists (ToLower c). split.
  - unfold columns_named in Hc. apply in_map_iff in Hc as (col & <- & Hcol). now apply (in_map (fun c => ToLower (col_Name c))).
  - rewrite (proj2 (fold_ascii c Ha)). apply equal_fold_ascii; [now apply lower_ascii|exact Hk|]. now rewrite lower_lower.
Qed.

Lemma two_folded (i j : nat) (k : string) : i <> j -> i ∈ all_tables infos -> j ∈ all_tables infos ->
  has_folded infos i k = true -> has_folded infos j k = true -> shared_name infos k = true.
Proof.
  intros Hne Hi Hj Fi Fj. unfold shared_name. apply orb_true_iff. right. apply Nat.leb_le.
  assert (Hsub : [i; j] ⊆+ List.filter (fun i => has_folded infos i k) (all_tables infos)).
  { apply NoDup_submseteq; [repeat constructor; set_solver|]. intros x Hx. apply filter_elem.
    assert (x = i \/ x = j) as [->| ->] by set_solver; auto. }
  apply submseteq_length in Hsub. exact Hsub.
Qed.

Lemma key_case (t : TableRef) (c : string) :
  Forall (fun c => plain_name c = true) (fields t) -> In c (fields t) -> ascii_text c = true /\ is_qualified c = false.
Proof. intros Hf Hc. rewrite List.Forall_forall in Hf. destruct (plain_name_spec c (Hf c Hc)) as (Ha & Hq & _). auto. Qed.

Lemma EqualFold_sym (a b : string) : EqualFold a b = EqualFold b a.
Proof. apply String.eqb_sym. Qed.

Lemma rows_unique (i : nat) (r : Row) : i ∈ all_tables infos -> In r (R i) -> unique (shared_name infos) r.
Proof.
  intros Hi Hr k k' [Hk _] [Hk' _] E. destruct (table_at i Hi) as (t & Et & Hrd & Ha & Hf & Hn).
  apply plain_name_spec in Ha as (Aa & Aq & _).
  destruct (row_keys t (R i) r k Hf Hrd Hr) as [K _], (row_keys t (R i) r k' Hf Hrd Hr) as [K' _].
  destruct (K Hk) as (c & Hc & Ec), (K' Hk') as (c' & Hc' & Ec').
  destruct (key_case t c Hf Hc) as [Ca Cq], (key_case t c' Hf Hc') as [Ca' Cq'].
  destruct Ec as [->| ->], Ec' as [->| ->].
  - apply equal_fold_ascii in E; [|assumption|assumption]. now apply (field_inj t).
  - rewrite EqualFold_sym, fold_mixed in E by assumption. discriminate.
  - rewrite fold_mixed in E by assumption. discriminate.
  - apply fold_qualify in E as [_ E]; try assumption. now rewrite (field_inj t c c').
Qed.

(** A column that is not the hidden row id. *)
Lemma field_column (t : TableRef) (c : string) : In c (fields t) -> shared_name infos c = false -> In c (columns_named t).
Proof. intros [<-|Hc] Hs; [|exact Hc]. unfold shared_name in Hs. now rewrite EqualFold_refl in Hs. Qed.

Lemma rows_separate (i j : nat) (r r' : Row) (k k' : string) :
  i ∈ all_tables infos -> j ∈ all_tables infos -> i <> j -> In r (R i) -> In r' (R j) ->
  known (shared_name infos) k r -> known (shared_name infos) k' r' -> EqualFold k k' = false.
Proof.
  intros Hi Hj Hne Hr Hr' [Hk Hs] [Hk' Hs']. apply not_true_is_false. intros E.
  destruct (table_at i Hi) as (t & Et & Hrd & Ha & Hf & Hn), (table_at j Hj) as (u & Eu & Hrd' & Ha' & Hf' & Hn').
  apply plain_name_spec in Ha as (Aa & Aq & _), Ha' as (Aa' & Aq' & _).
  destruct (row_keys t (R i) r k Hf Hrd Hr) as [K _], (row_keys u (R j) r' k' Hf' Hrd' Hr') as [K' _].
  destruct (K Hk) as (c & Hc & Ec), (K' Hk') as (c' & Hc' & Ec').
  destruct (key_case t c Hf Hc) as [Ca Cq], (key_case u c' Hf' Hc') as [Ca' Cq'].
  destruct Ec as [->| ->], Ec' as [->| ->].
  - apply equal_fold_ascii in E; [|assumption|assumption].
    rewrite (two_folded i j c) in Hs; try assumption; [discriminate| |].
    + apply (folded_field i t c); auto using field_column.
    + apply (folded_field j u c'); auto using field_column.
  - rewrite EqualFold_sym, fold_mixed in E by assumption. discriminate.
  - rewrite fold_mixed in E by assumption. discriminate.
  - apply fold_qualify in E as [E _]; try assumption. now apply Hne, (aliases_distinct i j t u).
Qed.

(** ** References *)

Lemma column_at (i : nat) (t : TableRef) (q : string) :
  nth_error from i = Some t -> Forall (fun c => plain_name c = true) (fields t) -> ascii_text q = true ->
  has_column infos i q = true <-> exists c, In c (columns_named t) /\ ascii_lower c = ascii_lower q.
Proof.
  intros Et Hf Hq. unfold has_column. rewrite (info_of i t Et). cbn [ti_cols table_info]. unfold name_in.
  assert (Hcol : forall col, In col (columns_of (tr_Name t)) -> ToLower (col_Name col) = ascii_lower (col_Name col)).
  { intros col Hc. apply fold_ascii. apply (key_case t); [exact Hf|]. right. now apply in_map. }
  rewrite existsb_exists, (proj2 (fold_ascii q Hq)). split.
  - intros (x & Hx & E%String.eqb_eq). apply in_map_iff in Hx as (col & <- & Hc). exists (col_Name col).
    split; [now apply in_map|]. rewrite <- Hcol by exact Hc. congruence.
  - intros (c & Hc & E). apply in_map_iff in Hc as (col & <- & Hc). exists (ToLower (col_Name col)).
    split; [now apply (in_map (fun c => ToLower (col_Name c)))|]. apply String.eqb_eq. now rewrite Hcol.
Qed.

Lemma folded_at (i : nat) (q : string) :
  i ∈ all_tables infos -> ascii_text q = true -> has_folded infos i q = has_column infos i q.
Proof.
  intros Hi Hq. destruct (table_at i Hi) as (t & Et & _ & _ & Hf & _). apply eq_iff_eq_true.
  rewrite (column_at i t q Et Hf Hq). unfold has_folded. rewrite (info_of i t Et). cbn [ti_cols table_info]. rewrite existsb_exists.
  assert (Hcol : forall col, In col (columns_of (tr_Name t)) ->
    ascii_text (col_Name col) = true /\ ToLower (col_Name col) = ascii_lower (col_Name col)).
  { intros col Hc. assert (Ha : ascii_text (col_Name col) = true) by (apply (key_case t); [exact Hf|]; right; now apply in_map).
    split; [exact Ha|]. now apply fold_ascii. }
  split.
  - intros (x & Hx & E). apply in_map_iff in Hx as (col & <- & Hc). destruct (Hcol col Hc) as [Ha El]. rewrite El in E.
    apply equal_fold_ascii in E; [|now apply lower_ascii|exact Hq]. rewrite lower_lower in E.
    exists (col_Name col). split; [now apply in_map|exact E].
  - intros (c & Hc & E). apply in_map_iff in Hc as (col & <- & Hc). destruct (Hcol col Hc) as [Ha El].
    exists (ToLower (col_Name col)). split; [now apply (in_map (fun c => ToLower (col_Name c)))|]. rewrite El.
    apply equal_fold_ascii; [now apply lower_ascii|exact Hq|]. now rewrite lower_lower.
Qed.

Lemma qualified_not_shared (a c : string) : ascii_text a = true -> ascii_text c = true ->
  shared_name infos (qualify a c) = false.
Proof.
  intros Ha Hc. unfold shared_name. rewrite EqualFold_sym, fold_mixed by easy. cbn [orb].
  assert (E : List.filter (fun i => has_folded infos i (qualify a c)) (all_tables infos) = []).
  { destruct (List.filter _ _) as [|i l] eqn:E; [reflexivity|].
    assert (Hi : i ∈ List.filter (fun i => has_folded infos i (qualify a c)) (all_tables infos)) by (rewrite E; set_solver).
    apply filter_elem in Hi as [Hi Hfold]. destruct (table_at i Hi) as (t & Et & _ & _ & Hf & _).
    unfold has_folded in Hfold. rewrite (info_of i t Et) in Hfold. cbn [ti_cols table_info] in Hfold.
    apply existsb_exists in Hfold as (x & Hx & Ex). apply in_map_iff in Hx as (col & <- & Hcol).
    destruct (key_case t (col_Name col) Hf) as [Xa Xq]; [right; now apply in_map|].
    rewrite (proj2 (fold_ascii _ Xa)), EqualFold_sym, fold_mixed in Ex; [discriminate|assumption|assumption| |].
    - now apply lower_ascii.
    - now rewrite lower_qualified. }
  now rewrite E.
Qed.

Lemma alias_index_at (q : string) (i : nat) : alias_index infos q = Some i ->
  exists t, nth_error from i = Some t /\ ToLower (qualifier t) = ToLower q.
Proof.
  unfold alias_index. intros [_ E]%find_some. destruct (nth_error infos i) as [x|] eqn:Ex; [|discriminate].
  unfold infos in Ex. rewrite nth_error_map in Ex. destruct (nth_error from i) as [t|]; [|discriminate].
  injection Ex as <-. exists t. split; [reflexivity|]. now apply String.eqb_eq in E.
Qed.

(** A reference in scope has a value in every row of its table. *)
Lemma scoped_present (ref : string * string) : scoped infos ref = true -> present (shared_name infos) (all_tables infos) R infos ref.
Proof.
  destruct ref as [q c]. unfold scoped, present, resolved, ref_name. cbn [fst snd].
  intros [[[Qa Ca]%andb_true_iff Hid%negb_true_iff]%andb_true_iff Hs]%andb_true_iff. destruct (q =s EmptyString) eqn:Eq.
  - intros i r Hc Hi Hr. destruct (table_at i Hi) as (t & Et & Hrd & Ha & Hf & _).
    apply (column_at i t c Et Hf Ca) in Hc as (n & Hn & E). exists n.
    destruct (key_case t n Hf) as [Na _]; [now right|].
    assert (Hfold : EqualFold n c = true) by now apply equal_fold_ascii.
    split; [split|exact Hfold]; [now apply (row_keys t (R i) r n Hf Hrd Hr)|].
    rewrite (shared_name_fold infos n c Hfold). unfold shared_name. rewrite Hid. cbn [orb]. apply Nat.leb_gt.
    apply Nat.eqb_eq in Hs. unfold having in Hs. erewrite filter_ext_in; [rewrite Hs; lia|].
    intros j Hj. apply folded_at; [now apply list_elem_of_In|exact Ca].
  - intros i r Hai Hi Hr. rewrite Hai in Hs. destruct (table_at i Hi) as (t & Et & Hrd & Ha & Hf & _).
    apply (column_at i t c Et Hf Ca) in Hs as (n & Hn & E). exists (qualify (qualifier t) n).
    destruct (key_case t n Hf) as [Na _]; [now right|]. apply plain_name_spec in Ha as (Aa & Aq & _).
    destruct (alias_index_at q i Hai) as (u & Eu & El). assert (u = t) as -> by congruence.
    rewrite (proj2 (fold_ascii _ Aa)), (proj2 (fold_ascii _ Qa)) in El.
    split; [split|]; [now apply (row_keys t (R i) r n Hf Hrd Hr)|now apply qualified_not_shared|].
    apply fold_qualify; try assumption; [|now split]. rewrite <- lower_qualified, <- El, lower_qualified. exact Aq.
Qed.

(** ** The conjuncts of a plan *)

Lemma clause_owner_in (columns : list string) (o : option nat) (i : nat) :
  clause_owner infos o columns = Some i -> o = Some i \/ i ∈ all_tables infos.
Proof.
  revert o. induction columns as [|c columns IH]; intros o E; cbn [clause_owner] in E; [now left|]. fold (having infos c) in E.
  destruct (having infos c) as [|j [|? ?]] eqn:Ec; [now apply IH| |discriminate].
  assert (Hj : j ∈ all_tables infos).
  { assert (Hj : j ∈ having infos c) by (rewrite Ec; set_solver). now apply filter_elem in Hj. }
  destruct o as [o|].
  - destruct (o =? j)%nat; [|discriminate]. now apply IH.
  - apply IH in E as [[= ->]|E]; auto.
Qed.

(** Each conjunct filters a table or is left to the joins. *)
Lemma plan_clauses (clauses : list Expr) (l : list nat) (c : Expr) :
  (forall i, i ∈ all_tables infos -> table_filters infos clauses i <> [] -> i ∈ l) ->
  In c (concat (map (table_filters infos clauses) l) ++ cross_filters infos clauses)%list <-> In c clauses.
Proof.
  intros Hl. rewrite in_app_iff, in_concat. split.
  - intros [(cs & Hcs & Hc)|Hc]; [|now apply filter_In in Hc].
    apply in_map_iff in Hcs as (i & <- & _). now apply filter_In in Hc.
  - intros Hc. destruct (owner_of infos c) as [i|] eqn:E.
    + left. exists (table_filters infos clauses i).
      assert (Hin : In c (table_filters infos clauses i)) by (apply filter_In; split; [exact Hc|now apply bool_decide_eq_true]).
      split; [|exact Hin]. apply in_map, list_elem_of_In, Hl; [|intros En; now rewrite En in Hin].
      unfold owner_of in E. apply clause_owner_in in E as [E|E]; [discriminate|exact E].
    + right. apply filter_In. now rewrite E.
Qed.

Lemma sat_all_same (D E : list Expr) (row : Row) : (forall c, In c D <-> In c E) -> sat_all env D row = sat_all env E row.
Proof.
  intros Hc. apply eq_iff_eq_true. unfold sat_all. rewrite !forallb_forall. split; intros Hs c Hin; apply Hs; now apply Hc.
Qed.

Lemma rows_at : map R (all_tables infos) = rowss.
Proof.
  apply nth_ext with (d := []) (d' := []).
  - unfold all_tables, infos. rewrite !length_map, length_seq. apply (Forall2_length _ _ _ reading).
  - intros n Hn. rewrite length_map in Hn. rewrite (nth_indep _ [] (R 0)) by now rewrite length_map.
    rewrite map_nth. unfold all_tables in *. rewrite length_seq in Hn. now rewrite seq_nth.
Qed.

Lemma loaded_at (i : nat) : i ∈ all_tables infos -> load infos i = Ok (R i).
Proof.
  intros Hi. destruct (table_at i Hi) as (t & Et & (raw & _ & _ & Ea) & _). unfold load. rewrite (info_of i t Et). exact Ea.
Qed.

Lemma no_chains (l : list TableRef) (rows : list Row) :
  Forall (fun t => tr_Join t = None) l -> foldE (fun rows t => join_chain env t rows) l rows = Ok rows.
Proof.
  induction 1 as [|t l Ht _ IH]; [reflexivity|]. cbn [foldE]. destruct t. cbn in Ht. subst. cbn [join_chain]. exact IH.
Qed.

(** The sound conjuncts of CrossJoinFacts. *)
Lemma plain_sound (c : Expr) : plain_clause c -> sound env (shared_name infos) (all_tables infos) R infos c.
Proof.
  intros (Ht & Hq & Hs). split; [exact Ht|]. split; [exact Hq|]. split; [now apply scoped_ready|].
  eapply Forall_impl; [exact Hs|]. apply scoped_present.
Qed.

Lemma among_all : among (all_tables infos) (all_tables infos).
Proof. split; [apply all_tables_NoDup|auto]. Qed.

Lemma filters_local (clauses : list Expr) (i : nat) : Forall plain_clause clauses -> i ∈ all_tables infos ->
  Forall (local env (shared_name infos) R [i]) (table_filters infos clauses i).
Proof.
  intros Hc Hi. apply Forall_forall. intros c [Hin Ho%bool_decide_eq_true]%filter_elem.
  rewrite Forall_forall in Hc. specialize (Hc c Hin).
  apply (ready_local env (shared_name infos) (shared_name_fold infos) (all_tables infos) R rows_unique rows_separate infos).
  - split; [apply NoDup_singleton|]. intros j ->%list_elem_of_singleton. exact Hi.
  - now apply plain_sound.
  - apply owner_ready; [exact Ho|apply Hc].
Qed.

Lemma all_local (clauses : list Expr) : Forall plain_clause clauses ->
  Forall (local env (shared_name infos) R (all_tables infos)) clauses.
Proof.
  intros Hc. eapply Forall_impl; [exact Hc|]. intros c Hp.
  apply (ready_local env (shared_name infos) (shared_name_fold infos) (all_tables infos) R rows_unique rows_separate infos).
  - exact among_all.
  - now apply plain_sound.
  - apply scoped_ready, Hp.
Qed.
End FromList.

Lemma cross_rows_exact `{Builtins} `{!TableReads} (env : Env) (from : list TableRef) (where_ : option Expr)
    (rowss : list (list Row)) :
  plain_from from -> Forall2 reads from rowss -> Forall (plain_clause env from) (where_clauses where_) ->
  exists rows, cross_rows env from where_ (hd [] rowss) = Ok rows
    /\ map (visible (shared_name (map table_info from))) rows
       ≡ₚ map (visible (shared_name (map table_info from))) (List.filter (passes env where_) (product rowss)).
Proof.
  intros Hp Hr Hc. unfold cross_rows. fold (where_clauses where_). set (clauses := where_clauses where_) in *.
  set (infos := map table_info from). set (R i := nth i rowss []). set (filters := table_filters infos clauses).
  set (edges := omap (cross_edge infos) (cross_filters infos clauses)). set (sh := shared_name infos).
  assert (Ht : Forall (total env) clauses) by (eapply Forall_impl; [exact Hc|]; now intros c []).
  destruct (carry_out_spec env sh (shared_name_fold infos) (all_tables infos) R (rows_unique from rowss Hp Hr)
    (rows_separate from rowss Hp Hr) infos filters (loaded_at from rowss Hp Hr)
    (fun i Hi => filters_local env from rowss Hp Hr clauses i Hc Hi)
    (pre_joins infos filters edges) (order infos filters edges) (hd [] rowss) (cross_filters infos clauses))
    as (rows & D & E & Hu & HD).
  - apply plan_permutes.
  - apply all_tables_NoDup.
  - apply Forall_forall. intros c [Hin _]%filter_elem. rewrite Forall_forall in Hc. apply plain_sound; auto.
  - intros i Hi. apply list_elem_of_In, in_concat in Hi as (comp & Hcomp & Hi).
    now apply (pre_joins_spec infos filters edges) with (comp := comp); apply list_elem_of_In.
  - intros _. unfold R. now destruct rowss.
  - exists rows. rewrite E. split; [now apply no_chains, Hp|].
    rewrite (unit_rows _ _ _ _ _ _ _ Hu).
    assert (Hpr : map (visible sh) (List.filter (sat_all env clauses) (product rowss))
                  ≡ₚ List.filter (sat_all env clauses) (joined sh R (all_tables infos))).
    { rewrite <- (rows_at from rowss Hr). eapply unit_rows, product_spec.
      all: eauto using rows_unique, rows_separate, shared_name_fold, among_all, all_local. }
    assert (Ef : List.filter (passes env where_) (product rowss) = List.filter (sat_all env clauses) (product rowss))
      by (apply filter_ext; intros row; now apply passes_all).
    rewrite Ef, Hpr, <- (filter_rows_perm _ _ _ (joined_permutes sh (shared_name_fold infos) (all_tables infos) R
      (rows_unique from rowss Hp Hr) (rows_separate from rowss Hp Hr) _ _ (plan_permutes infos filters edges)
      (unit_among _ _ _ _ _ _ _ Hu))).
    apply eq_perm, filter_ext. intros row. apply sat_all_same. intros c.
    rewrite <- (plan_clauses from rowss Hp Hr clauses (order infos filters edges)).
    + rewrite <- !list_elem_of_In. now rewrite HD.
    + intros i Hi Hne. change (i ∈ all_tables infos) in Hi. rewrite <- (plan_permutes infos filters edges) in Hi. apply elem_of_app in Hi as [Hi|Hi]; [exact Hi|].
      exfalso. apply Hne. apply list_elem_of_In, in_concat in Hi as (comp & Hcomp & Hi).
      now apply (pre_joins_spec infos filters edges) with (comp := comp); apply list_elem_of_In.
Qed.

(** A scan without a condition and without a bound. *)
Lemma scan_rows_all `{Builtins} (env : Env) (rows : list Row) : scan_rows env None None rows = Ok (rows, None).
Proof. induction rows as [|r rows IH]; [reflexivity|]. cbn [scan_rows fmap option_fmap option_map]. now rewrite IH. Qed.

Lemma base_rows_all `{Builtins} `{!TableReads} (env : Env) (stmt : SelectStmt) (t : TableRef) (schema : Schema)
    (where_ : option Expr) (raw : list Row) :
  scanLimit stmt = None -> tb_rows (tr_Name t) = Ok raw ->
  base_rows env stmt t schema where_ true = Ok (map (fun r => normalizeRowBySchema r (Columns schema)) raw, false).
Proof.
  intros El Er. unfold base_rows. assert (Ec : match where_ with Some _ => [] | None => [] end = @nil Expr) by now destruct where_.
  assert (Ei : filters_in_scan t where_ true = false).
  { unfold filters_in_scan. destruct where_; [|reflexivity]. cbn [negb]. now rewrite andb_false_r. }
  rewrite Ec, Ei, El. cbn [lookup_rows]. unfold mbind, ev_bind, scan. cbv beta iota. rewrite Er. unfold mbind, ev_bind.
  cbv beta iota. destruct (_ && _), tb_stops; cbn [fmap option_fmap option_map]; now rewrite scan_rows_all.
Qed.

(** C36: Take a SELECT over two or more stored tables, separated by commas and without a chain of JOINs, under
    plain names that differ, whose rows hold exactly the columns of their tables, and whose WHERE is a conjunction
    of conditions that hold no subquery, do not fail on any row, and name columns that are there and not
    ambiguous.  The rows that it groups, sorts and projects are then the rows of the product of its tables that
    pass WHERE, each as often, in the columns that are not ambiguous - whatever tables the plan filters early,
    joins first or joins greedily.  A condition with a subquery is outside: the plan does not see the columns that
    the subquery refers to, and filters by the condition before the others are joined: [exists_filtered_too_early]. *)
Theorem from_list_exact `{Builtins} `{!TableReads} (env : Env) (stmt : SelectStmt) (t u : TableRef) (rest : list TableRef)
    (schema : Schema) (where_ : option Expr) (rowss : list (list Row)) :
  sel_From stmt = t :: u :: rest -> tb_schema (tr_Name t) = Ok schema ->
  plain_from (sel_From stmt) -> Forall2 reads (sel_From stmt) rowss ->
  Forall (plain_clause env (sel_From stmt)) (where_clauses (sel_Where stmt)) ->
  let shown := map (visible (shared_name (map table_info (sel_From stmt)))) in
  exists rows, from_rows env stmt t schema where_ = Ok rows
    /\ shown rows ≡ₚ shown (List.filter (passes env (sel_Where stmt)) (product rowss)).
Proof.
  intros Ef Es Hp Hr Hc. cbv zeta. destruct (cross_rows_exact env _ _ _ Hp Hr Hc) as (rows & E & P).
  exists rows. split; [|exact P]. rewrite <- E. clear E P Hc. rewrite Ef in Hr.
  destruct rowss as [|first rowss]; [now inversion Hr|]. apply Forall2_cons in Hr as [(raw & Eraw & _ & Ea) _].
  pose proof (pf_single _ Hp) as Hj. rewrite Ef in Hj. apply Forall_cons in Hj as [Hj _].
  assert (El : scanLimit stmt = None) by (unfold scanLimit; rewrite Ef; now destruct (sel_Limit stmt)).
  unfold from_rows. replace (is_multi (sel_From stmt)) with true by (rewrite Ef; cbn; now rewrite Hj).
  rewrite (base_rows_all env stmt t schema where_ raw El Eraw). unfold mbind, ev_bind. cbv beta iota.
  unfold aliased_rows, columns_of, schema_of in Ea. rewrite Eraw, Es in Ea. injection Ea as <-. unfold qualifier. cbn [hd].
  f_equal. destruct (tr_Alias t =s EmptyString); cbn [negb]; now rewrite map_map.
Qed.

(** ** A sample: roads between cities *)

Section Sample.
#[local] Existing Instance no_foreign.
#[local] Existing Instance no_builtins.

Definition int_column (name : string) (key : bool) : Column := mkColumn name "INTEGER" (negb key) VNil EmptyString key EmptyString false.
Definition text_column (name : string) (key : bool) : Column := mkColumn name "TEXT" (negb key) VNil EmptyString key EmptyString false.

Definition stock_schema (name key : string) (columns : list Column) : Schema :=
  mkSchema name columns key [] 0 0 false [] [].

Definition city (id : Z) (name : string) (rank : val) : Row :=
  {["_rowid_" := Int id; "id" := Int id; "name" := Text name; "rank" := rank]}.
Definition road (id src dst : Z) : Row := {["_rowid_" := Int id; "id" := Int id; "src" := Int src; "dst" := Int dst]}.

Definition city_schema : Schema :=
  stock_schema "city" "id" [int_column "id" true; text_column "name" false; int_column "rank" false].

(** Tables with their rows; keys are texts, as the session has them. *)
Definition stock : list (Schema * list Row) :=
  [(city_schema,
    [city 1 "Pisa" (Int 2); city 2 "Rome" VNil; city 3 "Bari" (Int 1)]);
   (stock_schema "road" "id" [int_column "id" true; int_column "src" false; int_column "dst" false],
    [road 1 1 2; road 2 1 3; road 3 2 3]);
   (stock_schema "tag" "code" [text_column "code" true; int_column "of" false],
    [{["_rowid_" := Int 1; "code" := Text "5.0"; "of" := Int 1]}; {["_rowid_" := Int 2; "code" := Text "x"; "of" := Int 2]}])].

Definition stock_table {A} (name : string) (f : Schema -> list Row -> A) : ev A :=
  match find (fun t : Schema * list Row => EqualFold (Name t.1) name) stock with
  | Some t => Ok (f t.1 t.2)
  | None => Fails (Errorf "table %s does not exist" [name])
  end.

Definition stock_get (name key : string) : ev (option Row) :=
  stock_table name (fun s rows => find (fun r => joinKeyString r (PrimaryKey s) =s key) rows).

(** The table of the roads has an index on their starts. *)
Definition stock_indexes (name : string) : list Index :=
  if EqualFold name "road" then [mkIndex "road_src" "road" [mkIndexColumn "src" false EmptyString] false 0 EmptyString] else [].

Definition stock_by_index (name index : string) (v : val) : ev (list Row) :=
  stock_table name (fun _ rows => List.filter (fun r => formatIndexValue (get r "src") =s formatIndexValue v) rows).

Definition stock_reads : TableReads := {|
  tb_schema name := stock_table name (fun s _ => s); tb_exists name := match find (fun t : Schema * list Row => EqualFold (Name t.1) name) stock with Some _ => true | None => false end;
  tb_rows name := stock_table name (fun _ rows => rows);
  tb_stops := true; tb_get := stock_get; tb_indexes := stock_indexes; tb_by_index := stock_by_index;
  tb_count name := stock_table name (fun _ rows => Z.of_nat (length rows)); tb_lock _ _ _ _ := Locked; tb_reread := stock_get;
  tb_other _ := None; tb_virtual _ := false; tb_catalog _ := []; tb_windows _ _ _ := Ok (fun _ _ => VNil) |}.
#[local] Existing Instance stock_reads.

Definition entry (name alias : string) : TableRef := mkTableRef EmptyString name alias None None None [].
Definition equal (l r : Expr) : Expr := BinaryExpr l TokenEq r.

(** FROM city a, city b, road WHERE a.id = src AND dst = b.id AND a.name = 'Pisa' *)
Definition trip : list TableRef := [entry "city" "a"; entry "city" "b"; entry "road" EmptyString].
Definition trip_where : Expr :=
  BinaryExpr (BinaryExpr (equal (ColumnRef "a" "id") (ColumnRef EmptyString "src")) TokenAND
                (equal (ColumnRef EmptyString "dst") (ColumnRef "b" "id"))) TokenAND
    (equal (ColumnRef "A" "name") (LiteralExpr TokenString "Pisa")).

Definition under_alias (t : TableRef) : list Row :=
  match tb_rows (tr_Name t) with
  | Ok raw => map (fun r => addTableAlias (normalizeRowBySchema r (columns_of (tr_Name t))) (qualifier t)) raw
  | _ => []
  end.

Definition trip_rows : list (list Row) := map under_alias trip.

Lemma column_total (t c : string) (row : Row) : exists v, evalExpr no_env (ColumnRef t c) (Some row) = Ok v.
Proof.
  cbn [evalExpr]. unfold evalColumnRef.
  assert (Hp : exists v, match find_column no_env t c row with
    | Some v => canonicalizeJSONBColumnValue no_env t c v | None => Ok VNil end = Ok v).
  { destruct (find_column no_env t c row) as [v|]; [|eauto]. unfold canonicalizeJSONBColumnValue.
    destruct (is_nil v); [eauto|]. cbn. eauto. }
  destruct (_ && _); [|exact Hp]. destruct (sqliteCurrentTimeValue c); eauto.
Qed.

Lemma equal_total (l r : Expr) : EvalFacts.plain no_env l -> EvalFacts.plain no_env r ->
  (forall row : Row, exists v, evalExpr no_env l (Some row) = Ok v) ->
  (forall row : Row, exists v, evalExpr no_env r (Some row) = Ok v) -> total no_env (equal l r).
Proof.
  intros Pl Pr Hl Hr row. unfold equal. cbn [evalExpr]. destruct (Hl row) as [a ->], (Hr row) as [b ->].
  unfold mbind, ev_bind. cbv beta iota. rewrite EvalFacts.plain_comparison by easy. eauto.
Qed.

Definition stored_row_b (t : TableRef) (r : Row) : bool :=
  forallb (fun c => bool_decide (is_Some (r !! c))) (columns_named t)
  && forallb (fun kv => name_in kv.1 (fields t)) (map_to_list r).

Lemma stored_rows (t : TableRef) (rows : list Row) : forallb (stored_row_b t) rows = true -> Forall (stored_row t) rows.
Proof.
  intros Hr. apply List.Forall_forall. intros r Hin. rewrite forallb_forall in Hr.
  apply Hr, andb_true_iff in Hin as [Hc Hk]. rewrite forallb_forall in Hc, Hk. split.
  - intros c Hin. now apply (bool_decide_eq_true (is_Some (r !! c))), Hc.
  - intros k [v Hv]. apply elem_of_map_to_list, list_elem_of_In, Hk in Hv. unfold name_in in Hv.
    apply existsb_exists in Hv as (x & Hx & E%String.eqb_eq). cbn in E. now subst.
Qed.

Lemma Forall2_map_at {A B} (P : A -> B -> Prop) (f : A -> B) (l : list A) :
  (forall x, In x l -> P x (f x)) -> Forall2 P l (map f l).
Proof.
  induction l as [|x l IH]; intros Hl; cbn; constructor; [apply Hl; now left|]. apply IH. intros y Hy. apply Hl. now right.
Qed.

Lemma stock_read (t : TableRef) :
  match tb_rows (tr_Name t) with Ok raw => forallb (stored_row_b t) raw | _ => false end = true -> reads t (under_alias t).
Proof.
  unfold under_alias, reads, aliased_rows. destruct (tb_rows (tr_Name t)) as [raw| |]; try discriminate. intros Hr.
  exists raw. split; [reflexivity|]. split; [now apply stored_rows|reflexivity].
Qed.

Definition trip_query : SelectStmt :=
  mkSelectStmt false [] trip (Some trip_where) [] None [] None None None [] None.

Lemma from_list_exact_witness :
  let shown := map (visible (shared_name (map table_info trip))) in
  exists rows, from_rows no_env trip_query (entry "city" "a") city_schema (Some trip_where) = Ok rows
    /\ shown rows ≡ₚ shown (List.filter (passes no_env (Some trip_where)) (product trip_rows)).
Proof.
  apply (from_list_exact no_env trip_query (entry "city" "a") (entry "city" "b") [entry "road" EmptyString] city_schema
    (Some trip_where) trip_rows).
  - reflexivity.
  - reflexivity.
  - split.
    + repeat constructor.
    + repeat constructor.
    + apply (bool_decide_eq_true_1 _). vm_compute. reflexivity.
    + apply List.Forall_forall. intros t [<-|[<-|[<-|[]]]]; split; apply (bool_decide_eq_true_1 _); vm_compute; reflexivity.
  - apply Forall2_map_at. intros t [<-|[<-|[<-|[]]]]; apply stock_read; vm_compute; reflexivity.
  - repeat constructor; try (apply equal_total; [repeat split|repeat split| |]; intros row; try apply column_total; eexists; reflexivity).
Defined.

(** The trips there are: the plan starts with the filtered table and keeps the order of its rows. *)
Lemma trips_found :
  match cross_rows no_env trip (Some trip_where) (hd [] trip_rows) with
  | Ok rows => map (fun r : Row => (r !! "a.name", r !! "b.name")) rows
  | _ => []
  end = [(Some (Text "Pisa"), Some (Text "Rome")); (Some (Text "Pisa"), Some (Text "Bari"))].
Proof. vm_compute. reflexivity. Qed.

(** EXISTS (SELECT 1 WHERE src IS NOT NULL), whose subquery refers to a column of the roads. *)
Definition starts_query : SelectStmt :=
  mkSelectStmt false [] [] (Some (IsNullExpr (ColumnRef EmptyString "src") true)) [] None [] None None None [] None.

(** The functions of [no_builtins], and that subquery, which has a row when the outer row has a start. *)
Definition with_starts : Builtins := {|
  canonicalizeJSONB _ := not_here; jsonArrowExtract _ _ _ := not_here; jsonbArrowExtract _ _ _ := not_here;
  jsonbPathExtract _ _ _ := not_here; jsonbPathDelete _ _ := not_here; jsonbContainment _ _ _ _ _ := not_here;
  jsonbKeyExists _ _ := not_here; jsonbAnyKeysExist _ _ _ := not_here; jsonbConcat _ _ := not_here;
  jsonbDeleteValue _ _ _ _ := not_here; jsonb_call _ _ _ := not_here; json_call _ _ := not_here; json_array _ := not_here;
  catalog_call _ _ := not_here; reg_cast _ _ := not_here; date_call _ _ := not_here; Sprintf f _ := f;
  random_int63 := 4; random_bytes n := repeat Byte.x00 n; current_time_text _ := EmptyString; version_string := "dev";
  run_query row _ := Ok (mkResult _ ["1"] match row with
                                        | Some r => if is_nil (get r "src") then [] else [[Int 1]]
                                        | None => []
                                        end) |}.

(** A condition with a subquery is used before the tables are joined that the subquery refers to: every row of
    the product passes, but none is left after the first join. *)
Theorem exists_filtered_too_early :
  let where_ := Some (ExistsExpr starts_query) in
  from_rows (H0 := with_starts) no_env (mkSelectStmt false [] trip where_ [] None [] None None None [] None)
    (entry "city" "a") city_schema where_ = Ok []
  /\ length (List.filter (passes (H0 := with_starts) no_env where_) (product trip_rows)) = 27.
Proof. vm_compute. split; reflexivity. Qed.
End Sample.
