(* ===== verification/TableSelectFacts.v ===== *)
(** * SELECT from one table: lookups and bounded scans change nothing

    The rows of a table are read by a key, by an index, or by a scan that evaluates the condition and may
    stop early.  In each case they are the rows of the table that pass WHERE.  At the end are queries on
    the sample in which the code does not do what it means to. *)
From Stdlib Require Import NArith ZArith Lia Bool Ascii String List Floats.SpecFloat.
From stdpp Require Import base option list list_numbers gmap strings.
From S2P Require Import Prelude Token Ast Bytes RowCodec Float Values Schema ExecValue Arrays ExprTypes Operators Eval.
From S2P Require Import Aggregates Sorting Joins Select TableReads CrossJoin TableSelect EvalFacts PlanFacts.
From S2P Require Import JoinFacts CrossJoinFacts FromListFacts.
From S2P Require ParserMonad Statements.

#[local] Open Scope string_scope.
#[local] Set Warnings "-clear-no-such-hyp".

(** ** Names that are equal but for case *)

Lemma string_length_ind (P : string -> Prop) :
  (forall s, (forall s', String.length s' < String.length s -> P s') -> P s) -> forall s, P s.
Proof. intros Hs s. induction s as [s IH] using (induction_ltof1 _ String.length). exact (Hs s IH). Qed.

Lemma fold_two (c d : ascii) : fold_key (String c (String d EmptyString))
  = if (c =b Prelude.byte 0xC5) && (d =b Prelude.byte 0xBF) then "s" else String (lower_byte c) (fold_key (String d EmptyString)).
Proof. reflexivity. Qed.

Lemma fold_three (c d e : ascii) (r : string) : fold_key (String c (String d (String e r)))
  = if (c =b Prelude.byte 0xC5) && (d =b Prelude.byte 0xBF) then String "s" (fold_key (String e r))
    else if (c =b Prelude.byte 0xE2) && (d =b Prelude.byte 0x84) && (e =b Prelude.byte 0xAA) then String "k" (fold_key r)
    else String (lower_byte c) (fold_key (String d (String e r))).
Proof. reflexivity. Qed.

Lemma fold_before_dot (c : ascii) (b : string) :
  fold_key (String c (String "." b)) = String (lower_byte c) (String "." (fold_key b)).
Proof.
  destruct b as [|e b].
  - rewrite fold_two. now rewrite andb_false_r.
  - rewrite fold_three. change ("." =b Prelude.byte 0xBF) with false. change ("." =b Prelude.byte 0x84) with false.
    rewrite !andb_false_r. cbn [andb]. now rewrite (proj1 (fold_step "." _ eq_refl)).
Qed.

(** The dot is kept. *)
Lemma fold_dot (a b : string) : fold_key (a ++ String "." b) = fold_key a ++ String "." (fold_key b).
Proof.
  induction a as [a IH] using string_length_ind. destruct a as [|c [|d [|e a]]].
  - exact (proj1 (fold_step "." b eq_refl)).
  - exact (fold_before_dot c b).
  - change (String c (String d EmptyString) ++ String "." b) with (String c (String d (String "." b))).
    rewrite fold_three. rewrite fold_two.
    change ("." =b Prelude.byte 0xAA) with false. rewrite andb_false_r. destruct (_ && _).
    + rewrite (proj1 (fold_step "." b eq_refl)). reflexivity.
    + now rewrite fold_before_dot.
  - change (String c (String d (String e a)) ++ String "." b) with (String c (String d (String e (a ++ String "." b)))).
    rewrite !fold_three. pose proof (IH (String e a) ltac:(cbn; lia)) as I1.
    pose proof (IH (String d (String e a)) ltac:(cbn; lia)) as I2. pose proof (IH a ltac:(cbn; lia)) as I3.
    change (String e a ++ String "." b) with (String e (a ++ String "." b)) in I1.
    change (String d (String e a) ++ String "." b) with (String d (String e (a ++ String "." b))) in I2.
    rewrite I1, I2, I3. destruct (_ && _); [reflexivity|]. destruct (_ && _); reflexivity.
Qed.

Lemma has_dot (s : string) : is_qualified s = true -> exists a b, s = a ++ String "." b.
Proof.
  unfold is_qualified, has_byte. rewrite negb_true_iff. induction s as [|c s IH]; cbn; [discriminate|].
  destruct (c =b ".") eqn:E; cbn.
  - intros _. apply Ascii.eqb_eq in E as ->. now exists EmptyString, s.
  - intros Hs. destruct (IH Hs) as (a & b & ->). now exists (String c a), b.
Qed.

Lemma qualified_dot (a b : string) : is_qualified (a ++ String "." b) = true.
Proof. exact (qualify_qualified a b). Qed.

Lemma fold_keeps_dots (s : string) : is_qualified (fold_key s) = is_qualified s.
Proof.
  destruct (is_qualified s) eqn:E.
  - apply has_dot in E as (a & b & ->). rewrite fold_dot. apply qualified_dot.
  - induction s as [s IH] using string_length_ind.
    assert (Hc : forall c r, is_qualified (String c r) = false -> (c =b ".") = false /\ is_qualified r = false).
    { intros c r. unfold is_qualified, has_byte. cbn. rewrite !negb_false_iff, andb_true_iff, negb_true_iff. auto. }
    assert (Hs : forall c r, (c =b ".") = false -> is_qualified r = false -> is_qualified (String c r) = false).
    { intros c r. unfold is_qualified, has_byte. cbn. rewrite !negb_false_iff, andb_true_iff, negb_true_iff. auto. }
    assert (Hl : forall c r, (c =b ".") = false -> is_qualified r = false -> is_qualified (String (lower_byte c) r) = false).
    { intros c r Hd. apply Hs. now rewrite (proj1 (proj2 (lower_byte_facts c))). }
    destruct s as [|c [|d [|e r]]]; [reflexivity| | |]; apply Hc in E as [Ec E].
    + now apply Hl.
    + rewrite fold_two.
      destruct (_ && _); [reflexivity|]. apply Hl; [exact Ec|]. apply IH; [cbn; lia|exact E].
    + rewrite fold_three. pose proof (Hc _ _ E) as [_ E2]. pose proof (Hc _ _ E2) as [_ E3].
      destruct (_ && _); [apply Hs; [reflexivity|]; apply IH; [cbn; lia|exact E2]|].
      destruct (_ && _); [apply Hs; [reflexivity|]; apply IH; [cbn; lia|exact E3]|].
      apply Hl; [exact Ec|]. apply IH; [cbn; lia|exact E].
Qed.

Lemma fold_qualified (a b : string) : EqualFold a b = true -> is_qualified a = is_qualified b.
Proof. unfold EqualFold. intros E%String.eqb_eq. rewrite <- (fold_keeps_dots a), <- (fold_keeps_dots b). now rewrite E. Qed.

Lemma qualify_fold (a a' k k' : string) : EqualFold a a' = true -> EqualFold k k' = true ->
  EqualFold (qualify a k) (qualify a' k') = true.
Proof.
  unfold EqualFold, qualify. rewrite !String.eqb_eq. intros Ea Ek.
  change (a ++ "." ++ k) with (a ++ String "." k). change (a' ++ "." ++ k') with (a' ++ String "." k').
  now rewrite !fold_dot, Ea, Ek.
Qed.

Lemma append_inj (a b b' : string) : a ++ b = a ++ b' -> b = b'.
Proof. intros E. now apply append_inj_length in E as [_ E]. Qed.

Lemma qualify_same (a k k' : string) : qualify a k = qualify a k' -> k = k'.
Proof.
  unfold qualify. change (a ++ String "." k = a ++ String "." k' -> k = k'). intros E%append_inj. now injection E.
Qed.

Lemma qualify_fold_inj (a k k' : string) : EqualFold (qualify a k) (qualify a k') = true -> EqualFold k k' = true.
Proof.
  unfold EqualFold, qualify. rewrite !String.eqb_eq.
  change (a ++ "." ++ k) with (a ++ String "." k). change (a ++ "." ++ k') with (a ++ String "." k').
  rewrite !fold_dot. intros E%append_inj. now injection E.
Qed.

(** Upper case from folded case: no letter k, whose other forms are told apart. *)
Fixpoint ascii_upper (s : string) : string :=
  match s with EmptyString => EmptyString | String c r => String (upper_byte c) (ascii_upper r) end.

Definition foldable (s : string) : bool := string_forallb (fun c => (N_of_ascii c <? 128)%N && negb (c =b "k")) s.

Lemma upper_three (c d : ascii) (r : string) : ToUpper (String c (String d r))
  = if (c =b Prelude.byte 0xC5) && (d =b Prelude.byte 0xBF) then String "S" (ToUpper r)
    else if (c =b Prelude.byte 0xC4) && (d =b Prelude.byte 0xB1) then String "I" (ToUpper r)
    else String (upper_byte c) (ToUpper (String d r)).
Proof. reflexivity. Qed.

Lemma upper_lower (c : ascii) : upper_byte (lower_byte c) = upper_byte c.
Proof. destruct c as [[] [] [] [] [] [] [] []]; reflexivity. Qed.

Lemma upper_of_fold (s : string) : foldable (fold_key s) = true -> ToUpper s = ascii_upper (fold_key s).
Proof.
  assert (Hh : forall c r, foldable (String (lower_byte c) r) = true -> (c =b Prelude.byte 0xC4) = false /\ foldable r = true).
  { unfold foldable. cbn. intros c r. rewrite !andb_true_iff. intros [[Hc _] Hr]. split; [|exact Hr].
    apply Ascii.eqb_neq. intros ->. discriminate Hc. }
  induction s as [s IH] using string_length_ind. destruct s as [|c [|d [|e r]]]; [reflexivity| | |].
  - intros _. cbn. now rewrite upper_lower.
  - rewrite fold_two, upper_three. destruct ((c =b Prelude.byte 0xC5) && (d =b Prelude.byte 0xBF)); [reflexivity|].
    intros Hf. apply Hh in Hf as [-> Hf]. cbn [andb]. rewrite IH by (cbn; lia || exact Hf). cbn [ascii_upper].
    now rewrite upper_lower.
  - rewrite fold_three, upper_three. destruct ((c =b Prelude.byte 0xC5) && (d =b Prelude.byte 0xBF)).
    + intros Hf. rewrite IH; [reflexivity|cbn; lia|]. unfold foldable in *. cbn in Hf. exact Hf.
    + destruct (_ && _ && _); [intros Hf; discriminate Hf|]. intros Hf. apply Hh in Hf as [-> Hf]. cbn [andb].
      rewrite IH by (cbn; lia || exact Hf). cbn [ascii_upper]. now rewrite upper_lower.
Qed.

(** ** Rows under an alias *)

Section View.
Context `{Builtins} `{!TableReads}.
Variable env : Env.

(** The row that conditions see. *)
Definition view (t : TableRef) (r : Row) : Row := if tr_Alias t =s EmptyString then r else addTableAlias r (tr_Alias t).

(** The columns of a row have names of their own. *)
Definition plain_row (r : Row) : Prop := unqualified r /\ unique (fun _ => false) r.

Definition alias_step (a : string) (m : Row) (kv : string * val) : Row :=
  let m := <[kv.1 := kv.2]> m in if is_qualified kv.1 then m else <[qualify a kv.1 := kv.2]> m.

Lemma alias_step_plain (a : string) (l : list (string * val)) (m : Row) (q : string) :
  is_qualified q = false -> Forall (fun kv => is_qualified kv.1 = false) l -> NoDup (map fst l) ->
  fold_left (alias_step a) l m !! q = (list_to_map l : Row) !! q ∪ m !! q.
Proof.
  intros Hq. revert m. induction l as [|[k v] l IH]; intros m Hl Hn; cbn [fold_left list_to_map].
  - now destruct (m !! q).
  - apply Forall_cons in Hl as [Hk Hl]. apply NoDup_cons in Hn as [Hk' Hn]. cbn [fst snd] in *. rewrite IH by assumption.
    unfold alias_step. cbn [fst snd]. rewrite Hk.
    rewrite (lookup_insert_ne _ (qualify a k)) by (apply not_eq_sym; now apply unqualified_ne).
    rewrite list_to_map_cons. destruct (decide (k = q)) as [->|Hne].
    + rewrite !lookup_insert_eq, (not_elem_of_list_to_map_1 (M := gmap string)) by exact Hk'.
      now rewrite some_union, none_union.
    + now rewrite !lookup_insert_ne.
Qed.

Lemma alias_lookup (a : string) (r : Row) (k : string) : unqualified r -> is_qualified k = false ->
  addTableAlias r a !! k = r !! k /\ addTableAlias r a !! qualify a k = r !! k.
Proof.
  intros Hr%unqualified_list Hk. change (addTableAlias r a) with (fold_left (alias_step a) (map_to_list r) ∅). split.
  - rewrite alias_step_plain by (try assumption; apply NoDup_fst_map_to_list).
    rewrite list_to_map_to_list, lookup_empty. apply union_none.
  - rewrite (merge_fold a); [rewrite list_to_map_to_list, lookup_empty; apply union_none| |exact Hr|apply NoDup_fst_map_to_list].
    clear. intros m k' v Hk'. unfold alias_step. cbn [fst snd]. rewrite Hk'. destruct (decide (k' = k)) as [->|Hne].
    + now rewrite lookup_insert_eq.
    + rewrite !lookup_insert_ne; [reflexivity|now apply unqualified_ne|]. intros E%qualify_same. congruence.
Qed.

(** The one column of the row that a name stands for. *)
Lemma named_column (r : Row) (c : string) (w : val) : rowColumnValue r c = Some w ->
  exists k, r !! k = Some w /\ EqualFold k c = true.
Proof.
  unfold rowColumnValue. destruct (r !! c) as [v|] eqn:E.
  - intros [= ->]. exists c. split; [exact E|apply EqualFold_refl].
  - destruct (find _ _) as [[k v]|] eqn:Ef; [|discriminate]. intros [= ->]. apply find_some in Ef as [Hin Ek].
    exists k. split; [now apply elem_of_map_to_list, list_elem_of_In|exact Ek].
Qed.

Lemma rcv_fold (r : Row) (a b : string) : plain_row r -> EqualFold a b = true -> rowColumnValue r a = rowColumnValue r b.
Proof.
  intros [_ Hu] E.
  assert (G : forall a b w, EqualFold a b = true -> rowColumnValue r a = Some w -> rowColumnValue r b = Some w).
  { clear a b E. intros a b w E (k & Hk & Ek)%named_column.
    rewrite (resolved_value (fun _ => false) (fun _ _ _ => eq_refl) r k b Hu); [exact Hk|split; eauto|].
    unfold EqualFold in *. apply String.eqb_eq in Ek, E. apply String.eqb_eq. congruence. }
  destruct (rowColumnValue r a) as [w|] eqn:Ea, (rowColumnValue r b) as [w'|] eqn:Eb; try reflexivity.
  - now rewrite (G a b w E Ea) in Eb.
  - now rewrite (G a b w E Ea) in Eb.
  - rewrite EqualFold_sym in E. now rewrite (G b a w' E Eb) in Ea.
Qed.

Lemma view_column (t : TableRef) (r : Row) (c : string) (w : val) : plain_row r -> rowColumnValue r c = Some w ->
  rowColumnValue (view t r) c = Some w.
Proof.
  intros [Hr Hu] Hw. unfold view. destruct (tr_Alias t =s EmptyString); [exact Hw|].
  destruct (named_column r c w Hw) as (k & Hk & Ek). pose proof (Hr k w Hk) as Hq. cbv beta in Hq.
  rewrite (resolved_value is_qualified fold_qualified _ k c); [now rewrite (proj1 (alias_lookup _ r k Hr Hq))| |split; [|exact Hq]|exact Ek].
  - intros k1 k2 [Hk1 Q1] [Hk2 Q2] E. apply alias_keys in Hk1, Hk2; try exact Hr.
    destruct Hk1 as [Hk1|(? & _ & ->)]; [|now rewrite qualify_qualified in Q1].
    destruct Hk2 as [Hk2|(? & _ & ->)]; [|now rewrite qualify_qualified in Q2]. apply Hu; [split; auto..|exact E].
  - rewrite (proj1 (alias_lookup _ r k Hr Hq)). eauto.
Qed.

Lemma view_qualified (t : TableRef) (r : Row) (q c : string) (w : val) :
  plain_row r -> rowColumnValue r c = Some w -> EqualFold q (qualifier t) = true ->
  rowColumnValue (view t r) (qualify q c) = if tr_Alias t =s EmptyString then None else Some w.
Proof.
  intros [Hr Hu] Hw Eq. unfold view, qualifier in *. destruct (tr_Alias t =s EmptyString) eqn:Ea.
  - destruct (rowColumnValue r (qualify q c)) as [x|] eqn:E; [|reflexivity]. exfalso.
    destruct (named_column _ _ _ E) as (k & Hk & Ek%fold_qualified). pose proof (Hr k x Hk) as Hq. cbv beta in Hq.
    rewrite qualify_qualified in Ek. congruence.
  - destruct (named_column r c w Hw) as (k & Hk & Ek). pose proof (Hr k w Hk) as Hq. cbv beta in Hq. cbn [fst] in Hq.
    set (a := tr_Alias t) in *.
    rewrite (resolved_value (fun k => negb (is_qualified k)) (fun x y E => f_equal negb (fold_qualified x y E)) _ (qualify a k)).
    + now rewrite (proj2 (alias_lookup a r k Hr Hq)).
    + intros k1 k2 [Hk1 Q1%negb_false_iff] [Hk2 Q2%negb_false_iff] E. apply alias_keys in Hk1, Hk2; try exact Hr.
      destruct Hk1 as [[x Hk1]|(c1 & Hc1 & ->)]; [pose proof (Hr k1 x Hk1) as F; cbn in F; congruence|].
      destruct Hk2 as [[x Hk2]|(c2 & Hc2 & ->)]; [pose proof (Hr k2 x Hk2) as F; cbn in F; congruence|].
      f_equal. apply Hu; [split; auto..|]. now apply qualify_fold_inj in E.
    + split; [rewrite (proj2 (alias_lookup a r k Hr Hq)); eauto|]. now rewrite qualify_qualified.
    + apply qualify_fold; [now rewrite EqualFold_sym|exact Ek].
Qed.

Definition not_jsonb (q c : string) : Prop := forall ty, resolve env q c = Some ty -> EqualFold (TrimSpace ty) "JSONB" = false.

Lemma own_column (t : TableRef) (r : Row) (q c : string) (w : val) :
  outerRow env = None -> plain_row r -> q = EmptyString \/ EqualFold q (qualifier t) = true -> not_jsonb q c ->
  rowColumnValue r c = Some w -> evalExpr env (ColumnRef q c) (Some (view t r)) = Ok w.
Proof.
  intros Ho Hr Hq Hj Hw. pose proof (view_column t r c w Hr Hw) as Hv. cbn [evalExpr]. unfold evalColumnRef.
  assert (Hf : find_column env q c (view t r) = Some w).
  { unfold find_column. rewrite Ho. destruct (q =s EmptyString) eqn:E; [now rewrite Hv, !some_union|].
    destruct Hq as [->|Hq]; [discriminate|]. change (q ++ "." ++ c) with (qualify q c).
    rewrite (view_qualified t r q c w Hr Hw Hq), Hv. destruct (tr_Alias t =s EmptyString);
      now rewrite ?none_union, ?some_union. }
  change (default ∅ (Some ?x)) with x. rewrite Hv, andb_false_r, Hf. unfold canonicalizeJSONBColumnValue.
  destruct (is_nil w); [reflexivity|]. destruct (resolve env q c) as [ty|] eqn:E; [|reflexivity].
  unfold canonicalizeJSONBReadValue. now rewrite (Hj ty E), orb_true_r.
Qed.

(** ** Conjuncts that a key or an index answers *)

Lemma eval_parameter (e : Expr) (lit : TokenType * string) (row : option Row) :
  parameterLiteral e = Some lit -> evalExpr env e row = evalLiteral lit.1 lit.2.
Proof.
  revert lit. induction e using expr_sub_ind; intros lit; try discriminate.
  - intros [= <-]. reflexivity.
  - cbn [parameterLiteral call_literal]. destruct (EqualFold n "PIZZASQL_PARAM") eqn:En; [|discriminate].
    destruct args as [|a [|? ?]]; try discriminate. intros El. rewrite eval_call. cbn [mapE].
    match goal with IH : Forall _ [a] |- _ => apply Forall_cons in IH as [IH _]; rewrite (IH lit El) end.
    destruct (evalLiteral lit.1 lit.2); try reflexivity. unfold mbind, ev_bind. cbv beta iota.
    unfold function_values. apply String.eqb_eq in En. rewrite (upper_of_fold n); rewrite En; reflexivity.
Qed.

Definition plain_side (e : Expr) : Prop :=
  EvalFacts.plain env e /\ match e with ColumnRef q c => not_jsonb q c | _ => True end.

(** The column of a lookup holds small integers, or texts that are not numbers, or NULL, and so is the constant. *)
Definition comparable (t : TableRef) (raw : list Row) (c : Expr) (column : string) (v : val) : Prop :=
  match c with BinaryExpr l _ r => plain_side l /\ plain_side r | _ => False end
  /\ exists kind, (kind = small_int \/ kind = plain_text) /\ kind v
     /\ forall row, In row raw -> exists w, rowColumnValue row column = Some w /\ (is_nil w = true \/ kind w).

Lemma kind_not_nil (kind : val -> Prop) (v : val) : kind = small_int \/ kind = plain_text -> kind v -> is_nil v = false.
Proof. intros [-> | ->]; [intros (z & -> & _)|intros (s & -> & _)]; reflexivity. Qed.

Lemma kind_equal (kind : val -> Prop) (v w : val) :
  kind = small_int \/ kind = plain_text -> kind v -> kind w -> toBool (compare_value TokenEq v w) = true -> v = w.
Proof.
  intros Hk Hv Hw. rewrite (kind_compare kind) by assumption. cbn [toBool]. intros E%String.eqb_eq.
  destruct Hk as [-> | ->].
  - destruct Hv as (a & -> & Ha), Hw as (b & -> & Hb). change (itoaZ a = itoaZ b) in E. apply itoaZ_inj in E; [congruence|lia..].
  - destruct Hv as (a & -> & Ha), Hw as (b & -> & Hb). change (a = b) in E. congruence.
Qed.

Lemma compare_nil (op : TokenType) (v w : val) : is_nil v = true \/ is_nil w = true -> toBool (compare_value op v w) = false.
Proof. unfold compare_value. intros [-> | ->]; [reflexivity|]. now rewrite orb_true_r. Qed.

(** The two forms of a lookup. *)
Lemma lookup_form (c : Expr) (t : TableRef) (column : string) (v : val) :
  extractSelectLookupCondition c t = Some (column, v) ->
  exists q e lit, (c = BinaryExpr (ColumnRef q column) TokenEq e \/ c = BinaryExpr e TokenEq (ColumnRef q column))
    /\ (q = EmptyString \/ EqualFold q (qualifier t) = true) /\ parameterLiteral e = Some lit /\ v = literal_value lit.
Proof.
  assert (Hown : forall e x, own_side t e = Some (ColumnRef EmptyString x) ->
    exists q, e = ColumnRef q x /\ (q = EmptyString \/ EqualFold q (qualifier t) = true)).
  { intros e x. destruct e as [| | |q y| | | | | | | | | | | | | | |]; try discriminate. cbn [own_side].
    destruct (q =s EmptyString) eqn:Eq; cbn [negb andb].
    - apply String.eqb_eq in Eq as ->. destruct (tr_Join t); [discriminate|]. intros [= ->]. eauto.
    - destruct (EqualFold q (qualifier t)) eqn:Ef; cbn [negb]; [|discriminate]. intros [= ->]. eauto. }
  assert (Hlit : forall e e' lit, own_side t e = Some e' -> parameterLiteral e' = Some lit -> parameterLiteral e = Some lit).
  { intros e e' lit. destruct e; cbn [own_side]; try (intros [= <-] Hl; exact Hl).
    destruct (_ && _); [discriminate|]. destruct (_ && _); [discriminate|]. intros [= <-]. discriminate. }
  unfold extractSelectLookupCondition. destruct (preserved t); [|discriminate]. destruct c as [l op r| | | | | | | | | | | | | | | | | |]; try discriminate.
  intros (l' & El & E)%bind_Some. apply bind_Some in E as (r' & Er & E). unfold extractIndexableCondition in E.
  destruct op; try discriminate.
  assert (Hcases : (exists x lit, l' = ColumnRef EmptyString x /\ parameterLiteral r' = Some lit /\ (x, literal_value lit) = (column, v))
    \/ exists x lit, r' = ColumnRef EmptyString x /\ parameterLiteral l' = Some lit /\ (x, literal_value lit) = (column, v)).
  { assert (Hright : match parameterLiteral l', r' with
                     | Some lit, ColumnRef EmptyString c => Some (c, literal_value lit) | _, _ => None end = Some (column, v) ->
      exists x lit, r' = ColumnRef EmptyString x /\ parameterLiteral l' = Some lit /\ (x, literal_value lit) = (column, v)).
    { destruct (parameterLiteral l') as [lit|]; [|discriminate]. destruct r'; try discriminate.
      match goal with |- context [ColumnRef ?q ?y] => destruct q; [|discriminate] end. intros [= -> <-]. eauto 8. }
    destruct l'; try (right; exact (Hright E)).
    match goal with E : context [ColumnRef ?q ?y] |- _ => destruct q; [|right; exact (Hright E)] end.
    destruct (parameterLiteral r') as [lit|]; [|right; exact (Hright E)]. left. injection E as -> <-. eauto 8. }
  destruct Hcases as [(x & lit & -> & Hl & [= -> <-])|(x & lit & -> & Hl & [= -> <-])].
  - apply Hown in El as (q & -> & Hq). exists q, r, lit. eauto 6.
  - apply Hown in Er as (q & -> & Hq). exists q, l, lit. eauto 6.
Qed.

(** A row that passes a lookup has its constant in the column. *)
Lemma lookup_sound (t : TableRef) (raw : list Row) (c : Expr) (column : string) (v : val) (r : Row) :
  outerRow env = None -> extractSelectLookupCondition c t = Some (column, v) -> comparable t raw c column v ->
  In r raw -> plain_row r -> sat env c (view t r) = true -> rowColumnValue r column = Some v.
Proof.
  intros Ho Hx [Hs (kind & Hk & Hv & Hrows)] Hr Hp Hsat.
  destruct (lookup_form c t column v Hx) as (q & e & lit & Hc & Hq & Hlit & ->).
  destruct (Hrows r Hr) as (w & Hw & Hwk).
  assert (He : forall row, evalExpr env e row = Ok (literal_value lit)).
  { intros row. rewrite (eval_parameter e lit row Hlit). pose proof (kind_not_nil kind _ Hk Hv) as Hn.
    unfold literal_value in *. destruct (evalLiteral lit.1 lit.2); [reflexivity|discriminate Hn..]. }
  assert (Hcol : not_jsonb q column -> evalExpr env (ColumnRef q column) (Some (view t r)) = Ok w)
    by (intros Hj; now apply own_column).
  assert (Hne : forall a b, toBool (compare_value TokenEq a b) = true -> (a = w /\ b = literal_value lit \/ a = literal_value lit /\ b = w) ->
    w = literal_value lit).
  { intros a b Hb Hab. destruct Hwk as [Hwn|Hwk].
    - rewrite compare_nil in Hb; [discriminate|]. destruct Hab as [[-> _]|[_ ->]]; auto.
    - destruct Hab as [[-> ->]|[-> ->]]; [|symmetry]; now apply (kind_equal kind). }
  rewrite Hw. f_equal. unfold sat in Hsat.
  destruct Hc as [->| ->]; destruct Hs as [[Pl Sl] [Pr Sr]]; cbn [evalExpr] in Hsat.
  - change (evalColumnRef env q column (Some (view t r))) with (evalExpr env (ColumnRef q column) (Some (view t r))) in Hsat.
    rewrite (Hcol Sl), (He _) in Hsat. unfold mbind, ev_bind in Hsat. cbv beta iota in Hsat.
    rewrite plain_comparison in Hsat by easy. eapply Hne; [exact Hsat|auto].
  - change (evalColumnRef env q column (Some (view t r))) with (evalExpr env (ColumnRef q column) (Some (view t r))) in Hsat.
    rewrite (Hcol Sr), (He _) in Hsat. unfold mbind, ev_bind in Hsat. cbv beta iota in Hsat.
    rewrite plain_comparison in Hsat by easy. eapply Hne; [exact Hsat|auto].
Qed.

(** ** What the session promises *)

(** A part of the rows that has those with a value in a column. *)
Definition finds (raw found : list Row) (column : string) (v : val) : Prop :=
  exists P : Row -> bool, found ≡ₚ List.filter P raw
    /\ forall r, In r raw -> rowColumnValue r column = Some v -> P r = true.

(** The rows of a table, which a key and an index find by their values. *)
Record readable (t : TableRef) (schema : Schema) (raw : list Row) : Prop := {
  rd_rows : tb_rows (tr_Name t) = Ok raw;
  rd_plain : Forall plain_row raw;
  rd_normal : Forall (fun r => normalizeRowBySchema r (Columns schema) = r) raw;
  rd_get : forall v, IsSingleColumnPrimaryKey schema = true -> exists row, tb_get (tr_Name t) (sprint v) = Ok row
    /\ finds raw match row with Some r => [r] | None => [] end (PrimaryKey schema) v;
  rd_index : forall idx c v, single_index (tr_Name t) c = Some idx -> is_nil v = false ->
    exists rows, tb_by_index (tr_Name t) (idx_Name idx) v = Ok rows /\ finds raw rows c v }.

(** The columns that are looked up hold values that are equal as texts when they are equal. *)
Definition lookups_comparable (t : TableRef) (schema : Schema) (raw : list Row) (clauses : list Expr) : Prop :=
  forall c column v, In c clauses -> extractSelectLookupCondition c t = Some (column, v) ->
    EqualFold (PrimaryKey schema) column = true \/ single_index (tr_Name t) column <> None -> comparable t raw c column v.

Lemma normal_rows (schema : Schema) (rows : list Row) :
  Forall (fun r => normalizeRowBySchema r (Columns schema) = r) rows ->
  map (fun r => normalizeRowBySchema r (Columns schema)) rows = rows.
Proof. induction 1 as [|r rows E _ IH]; [reflexivity|]. cbn [map]. now rewrite E, IH. Qed.

Lemma normal_part (schema : Schema) (raw rows : list Row) (P : Row -> bool) :
  Forall (fun r => normalizeRowBySchema r (Columns schema) = r) raw -> rows ≡ₚ List.filter P raw ->
  map (fun r => normalizeRowBySchema r (Columns schema)) rows = rows.
Proof.
  intros Hn Hp. apply normal_rows. rewrite Hp. apply List.Forall_forall. intros r [Hr _]%filter_In.
  rewrite List.Forall_forall in Hn. auto.
Qed.

(** What a lookup finds has all the rows that pass. *)
Lemma lookup_rows_find (t : TableRef) (schema : Schema) (raw : list Row) (clauses : list Expr) :
  outerRow env = None -> readable t schema raw -> lookups_comparable t schema raw clauses ->
  lookup_rows t schema clauses None = Ok None
  \/ exists rows P, lookup_rows t schema clauses None = Ok (Some rows) /\ rows ≡ₚ List.filter P raw
     /\ forall r, In r raw -> sat_all env clauses (view t r) = true -> P r = true.
Proof.
  intros Ho Hr. induction clauses as [|c clauses IH]; intros Hc; [now left|]. cbn [lookup_rows].
  assert (IH' : lookups_comparable t schema raw clauses) by (intros x y z Hx; apply Hc; now right). specialize (IH IH').
  assert (Hrest : forall out, out = Ok None \/ (exists rows P, out = Ok (Some rows) /\ rows ≡ₚ List.filter P raw
      /\ forall r, In r raw -> sat_all env clauses (view t r) = true -> P r = true) ->
    out = Ok None \/ (exists rows P, out = Ok (Some rows) /\ rows ≡ₚ List.filter P raw
      /\ forall r, In r raw -> sat_all env (c :: clauses) (view t r) = true -> P r = true)).
  { intros out [H'|(rows & P & E & Hp & Hs)]; [now left|right]. exists rows, P. split; [exact E|]. split; [exact Hp|].
    intros r Hin Hall. apply Hs; [exact Hin|]. now apply andb_true_iff in Hall. }
  destruct (extractSelectLookupCondition c t) as [[column v]|] eqn:Ex; [|now apply Hrest].
  assert (Hfound : forall rows col, EqualFold (PrimaryKey schema) column = true \/ single_index (tr_Name t) column <> None ->
    EqualFold col column = true -> finds raw rows col v ->
    exists rows' P, Ok (Some (map (fun r => normalizeRowBySchema r (Columns schema)) rows)) = Ok (Some rows')
      /\ rows' ≡ₚ List.filter P raw /\ forall r, In r raw -> sat_all env (c :: clauses) (view t r) = true -> P r = true).
  { intros rows col Hl Ecol (P & Hp & Hs). exists rows, P. rewrite (normal_part schema raw rows P (rd_normal _ _ _ Hr) Hp).
    split; [reflexivity|]. split; [exact Hp|]. intros r Hin [Hc1 _]%andb_true_iff. apply Hs; [exact Hin|].
    pose proof (proj1 (List.Forall_forall _ _) (rd_plain _ _ _ Hr) r Hin) as Hpl.
    rewrite (rcv_fold r col column Hpl Ecol). apply (lookup_sound t raw c column v r); try assumption. apply Hc; [now left|exact Ex|exact Hl]. }
  destruct (IsSingleColumnPrimaryKey schema && EqualFold (PrimaryKey schema) column && safePrimaryKeyLiteral v) eqn:Ek.
  - apply andb_true_iff in Ek as [[Es Ek]%andb_true_iff _]. destruct (rd_get _ _ _ Hr v Es) as (row & Eg & Hf). rewrite Eg.
    unfold mbind, ev_bind. cbv beta iota. right.
    destruct (Hfound _ (PrimaryKey schema) (or_introl Ek) Ek Hf) as (rows' & P & E & G). exists rows', P.
    split; [|exact G]. rewrite <- E. now destruct row.
  - destruct (single_index (tr_Name t) column) as [idx|] eqn:Ei; [|now apply Hrest].
    assert (Hn : is_nil v = false).
    { destruct (Hc c column v (or_introl eq_refl) Ex) as [_ (kind & Hk & Hv & _)]; [right; congruence|]. now apply (kind_not_nil kind). }
    destruct (rd_index _ _ _ Hr idx column v Ei Hn) as (rows & Eb & Hf). rewrite Eb. right.
    apply (Hfound rows column); [right; congruence|apply EqualFold_refl|exact Hf].
Qed.

(** ** Scans *)

(** A scan with a condition that does not fail keeps the first rows that pass. *)
Lemma scan_rows_exact (where_ : option Expr) (limit : option nat) (rows : list Row) :
  match where_ with Some c => total env c | None => True end ->
  scan_rows env where_ limit rows
  = Ok (match limit with Some n => firstn n | None => id end (List.filter (passes env where_) rows), None).
Proof.
  intros Ht. revert limit. induction rows as [|r rows IH]; intros limit; [destruct limit as [[|n]|]; reflexivity|].
  destruct limit as [[|n]|]; [reflexivity|..]; cbn [scan_rows fmap option_fmap option_map pred List.filter].
  all: destruct where_ as [c|]; cbn [passes]; [destruct (Ht r) as [v Ev]; unfold sat at 1; rewrite Ev; cbn [fmap ev_fmap]|].
  all: rewrite ?IH; try destruct (toBool v); reflexivity.
Qed.

Lemma view_filter (t : TableRef) (f : Row -> bool) (raw : list Row) :
  List.filter f (map (view t) raw) = map (view t) (List.filter (fun r => f (view t r)) raw).
Proof. apply filter_map_comm. Qed.

Lemma filter_option_exact (where_ : option Expr) (rows : list Row) :
  match where_ with Some c => total env c | None => True end ->
  filter_option env where_ rows = Ok (List.filter (passes env where_) rows).
Proof.
  intros Ht. destruct where_ as [c|]; cbn [filter_option passes]; [now apply filter_rows_total|]. f_equal. symmetry. apply filter_true.
Qed.

(** The rows under the alias of the entry. *)
Lemma views (t : TableRef) (rows : list Row) :
  (if negb (tr_Alias t =s EmptyString) then map (fun r => addTableAlias r (tr_Alias t)) rows else rows) = map (view t) rows.
Proof.
  unfold view. destruct (tr_Alias t =s EmptyString); cbn [negb]; [|reflexivity]. symmetry. apply map_id.
Qed.

(** The rows that a scan keeps, with its condition and its bound. *)
Lemma scan_exact (t : TableRef) (schema : Schema) (where_ : option Expr) (bound : option Z) (raw : list Row) :
  readable t schema raw -> match where_ with Some c => total env c | None => True end ->
  exists n, scan env (tr_Name t) schema where_ bound
    = Ok (match n with Some n => firstn n | None => id end (List.filter (passes env where_) raw))
    /\ (n = None \/ exists b, bound = Some b /\ n = Some (Z.to_nat b)).
Proof.
  intros Hr Hw. unfold scan. rewrite (rd_rows _ _ _ Hr). unfold mbind, ev_bind. cbv beta iota.
  rewrite scan_rows_exact by exact Hw.
  exists (if tb_stops then Z.to_nat <$> bound else None). split.
  - f_equal. apply normal_rows. apply List.Forall_forall. intros x Hx.
    apply (proj1 (List.Forall_forall _ _) (rd_normal _ _ _ Hr)).
    assert (Hin : In x (List.filter (passes env where_) raw)).
    { destruct (if tb_stops then _ else _) as [n|]; [|exact Hx]. rewrite <- (firstn_skipn n). apply in_or_app. now left. }
    now apply filter_In in Hin.
  - destruct tb_stops, bound as [b|]; cbn; eauto.
Qed.

End View.

(** ** The sample *)

Section Sample.
#[local] Existing Instance no_foreign.
#[local] Existing Instance no_builtins.
#[local] Existing Instance stock_reads.

Definition road_schema : Schema :=
  stock_schema "road" "id" [int_column "id" true; int_column "src" false; int_column "dst" false].
Definition roads : list Row := [road 1 1 2; road 2 1 3; road 3 2 3].

(** FROM road r WHERE r.src = 1 AND dst = 3 *)
Definition road_where : Expr :=
  BinaryExpr (equal (ColumnRef "R" "src") (LiteralExpr TokenNumber "1")) TokenAND
    (equal (ColumnRef EmptyString "dst") (LiteralExpr TokenNumber "3")).
Definition road_query : SelectStmt := mkSelectStmt false [] [entry "road" "r"] (Some road_where) [] None [] None None None [] None.

Lemma road_plain (id src dst : Z) : plain_row (road id src dst).
Proof.
  assert (Hk : forall k, is_Some (road id src dst !! k) -> In k ["_rowid_"; "id"; "src"; "dst"]).
  { intros k [v Hv]. unfold road in Hv. rewrite !lookup_insert_Some, lookup_singleton_Some in Hv. cbn. naive_solver. }
  split.
  - intros k v Hv. assert (Hin : In k ["_rowid_"; "id"; "src"; "dst"]) by (apply Hk; eauto).
    repeat destruct Hin as [<-|Hin]; try reflexivity. destruct Hin.
  - intros k k' [H1 _] [H2 _] E. apply Hk in H1, H2.
    repeat destruct H1 as [<-|H1]; try destruct H1; repeat destruct H2 as [<-|H2]; try destruct H2; try reflexivity; discriminate E.
Qed.

Lemma found_once (f : Row -> string) (k : string) (rows : list Row) : NoDup (map f rows) ->
  List.filter (fun r => f r =s k) rows = match find (fun r => f r =s k) rows with Some r => [r] | None => [] end.
Proof.
  induction rows as [|r rows IH]; intros Hn; [reflexivity|]. cbn [map] in Hn. apply NoDup_cons in Hn as [Hr Hn].
  cbn [List.filter find]. destruct (f r =s k) eqn:E; [|now apply IH]. f_equal. rewrite IH by exact Hn.
  destruct (find _ rows) as [r'|] eqn:Ef; [|reflexivity]. apply find_some in Ef as [Hin E'].
  apply String.eqb_eq in E, E'. exfalso. apply Hr. rewrite E, <- E'. now apply list_elem_of_In, in_map.
Qed.

Lemma road_value (r : Row) (c : string) : In r roads -> In c ["id"; "src"] -> rowColumnValue r c = r !! c.
Proof. intros [<-|[<-|[<-|[]]]] [<-|[<-|[]]]; reflexivity. Qed.

Lemma roads_readable : readable (entry "road" "r") road_schema roads.
Proof.
  assert (Hp : Forall plain_row roads) by (repeat constructor; apply road_plain).
  split.
  - reflexivity.
  - exact Hp.
  - repeat constructor; vm_compute; reflexivity.
  - intros v _. exists (find (fun r => joinKeyString r "id" =s sprint v) roads). split; [reflexivity|].
    exists (fun r => joinKeyString r "id" =s sprint v). split.
    + apply eq_perm. symmetry. apply found_once. apply (bool_decide_eq_true_1 _). vm_compute. reflexivity.
    + intros r Hr Hv. apply String.eqb_eq. apply join_key. rewrite <- (road_value r "id"); [exact Hv|exact Hr|now left].
  - intros idx c v Hi _. assert (Ec : EqualFold "src" c = true).
    { destruct (EqualFold "src" c) eqn:E; [reflexivity|]. 
      change (single_index (tr_Name (entry "road" "r")) c) with (if EqualFold "src" c then head (stock_indexes "road") else None) in Hi.
      now rewrite E in Hi. }
    eexists. split; [reflexivity|]. exists (fun r => formatIndexValue (get r "src") =s formatIndexValue v).
    split; [reflexivity|]. intros r Hr Hv. apply String.eqb_eq. f_equal.
    rewrite <- (rcv_fold r "src" c) in Hv by (exact Ec || now apply (proj1 (List.Forall_forall _ _) Hp)).
    rewrite (road_value r "src") in Hv by (exact Hr || (right; now left)). unfold get. now rewrite Hv.
Qed.

(** ** Queries *)

#[local] Existing Instance ParserMonad.lexer_source.
#[local] Existing Instance table_relations.
#[local] Existing Instance table_tables.

Definition stock_sources : Sources := table_sources (fun _ _ => None) (fun _ => false).
#[local] Existing Instance stock_sources.

(** The columns and rows of a query over the sample. *)
Definition stock_query (sql : string) : ev (list string * list (list val)) :=
  match Statements.parse_source Statements.Parse sql with
  | ParserMonad.Ok (StSelect s) _ => r ← executeSelect no_env s; Ok (r_Columns r, r_Rows r)
  | _ => Fails (Errorf "syntax" [])
  end.

(** A FROM list, a lookup, a bounded scan, a wildcard. *)
Theorem table_queries_run :
  stock_query "SELECT a.name, b.name FROM city a, city b, road WHERE a.id = src AND dst = b.id"
  = Ok (["name"; "name"], [[Text "Pisa"; Text "Rome"]; [Text "Pisa"; Text "Bari"]; [Text "Rome"; Text "Bari"]])
  /\ stock_query "SELECT name FROM city WHERE id = 2 LIMIT 1" = Ok (["name"], [[Text "Rome"]])
  /\ stock_query "SELECT city.* FROM city LIMIT 1 OFFSET 1" = Ok (["id"; "name"; "rank"], [[Int 2; Text "Rome"; VNil]])
  /\ stock_query "SELECT COUNT(*) FROM road" = Ok (["column1"], [[Int 3]])
  /\ stock_query "SELECT * FROM nowhere" = Fails (UndefinedTable "relation %q does not exist" ["nowhere"]).
Proof. vm_compute. auto. Qed.

(** A LEFT JOIN behind an entry of a FROM list drops the rows without a match; behind one entry it keeps them. *)
Theorem left_join_in_list_is_inner :
  stock_query "SELECT c.name, r.id FROM city d, city c LEFT JOIN road r ON r.src = 99 WHERE d.id = 1" = Ok (["name"; "id"], [])
  /\ stock_query "SELECT c.name, r.id FROM city c LEFT JOIN road r ON r.src = 99 WHERE c.id = 1"
     = Ok (["name"; "id"], [[Text "Pisa"; VNil]]).
Proof. vm_compute. auto. Qed.

(** A number is looked up in a key of texts by its text, and not compared: the row '5.0' is lost. *)
Theorem numeric_lookup_misses_text_key :
  stock_query "SELECT code FROM tag WHERE code = 5" = Ok (["code"], [])
  /\ stock_query "SELECT code FROM tag WHERE code = 5 OR code = 5" = Ok (["code"], [[Text "5.0"]]).
Proof. vm_compute. auto. Qed.

(** DISTINCT comes after LIMIT. *)
Theorem distinct_after_limit :
  stock_query "SELECT DISTINCT src FROM road LIMIT 2" = Ok (["src"], [[Int 1]])
  /\ stock_query "SELECT DISTINCT src FROM road" = Ok (["src"], [[Int 1]; [Int 2]]).
Proof. vm_compute. auto. Qed.

(** ORDER BY the alias of a column leaves the order of the table. *)
Theorem order_by_alias_ignored :
  stock_query "SELECT name AS n FROM city ORDER BY n" = Ok (["n"], [[Text "Pisa"]; [Text "Rome"]; [Text "Bari"]])
  /\ stock_query "SELECT name AS n FROM city ORDER BY name" = Ok (["n"], [[Text "Bari"]; [Text "Pisa"]; [Text "Rome"]]).
Proof. vm_compute. auto. Qed.
End Sample.
