(* ===== verification/RowLockLive.v ===== *)
(** * Row locks: the sessions that wait

    Under every interleaving of the sessions, a session that sleeps on a row's entry is in the entry's
    queue while the entry has an owner, and from the moment the last owner leaves it until it runs it can
    run.  A session that waits to upgrade a lock of its own is an owner itself, and is not woken when the
    others leave ([RowLockFacts.upgrade_is_not_woken]). *)
From Stdlib Require Import NArith ZArith Lia String.
From stdpp Require Import base option list gmap sets strings.
From S2P Require Import Prelude RowLock.
Import Sys.

#[local] Set Warnings "-clear-no-such-hyp".

(** The entry and the channel a session waits on. *)
Definition channel_of (p : pc) : option (addr * chan) :=
  match p with
  | WaitQueued _ _ _ a ch | Sleeping _ _ _ a ch => Some (a, ch)
  | _ => None
  end.

(** ** One critical section *)

(** The queues of an entry: no entry without an owner has one, and entries are below the allocator. *)
Record queues_ok (m : RowLockManager) : Prop := {
  q_owned : forall a e, heap m !! a = Some e -> waiters e <> ∅ -> owners e <> ∅;
  q_fresh : forall a, is_Some (heap m !! a) -> (a < next m)%positive }.

Definition queued (m : RowLockManager) (a : addr) (ch : chan) : Prop :=
  exists e, heap m !! a = Some e /\ ch ∈ waiters e.

(** A section that keeps every waiter in its queue, except those it wakes and those in [gone]. *)
Record keeps (m m' : RowLockManager) (woken gone : gset chan) : Prop := {
  k_ok : queues_ok m';
  k_next : (next m <= next m')%positive;
  k_queued : forall a ch, queued m a ch -> ch ∈ woken \/ ch ∈ gone \/ queued m' a ch }.

Lemma keeps_refl (m : RowLockManager) (w g : gset chan) : queues_ok m -> keeps m m w g.
Proof. intros Hm. split; [exact Hm|lia|auto]. Qed.

Lemma set_entry_keeps (m : RowLockManager) (a : addr) (e e' : rowLockEntry) (w g : gset chan) :
  queues_ok m -> heap m !! a = Some e -> (waiters e' <> ∅ -> owners e' <> ∅) ->
  (forall ch, ch ∈ waiters e -> ch ∈ w \/ ch ∈ g \/ ch ∈ waiters e') ->
  keeps m (set_entry m a e') w g.
Proof.
  intros [Ho Hf] Ha He Hw. split; [split| |]; cbn.
  - intros b x. destruct (decide (b = a)) as [->|Hb]; [rewrite lookup_insert_eq; now intros [= <-]|].
    rewrite lookup_insert_ne by congruence. apply Ho.
  - intros b. destruct (decide (b = a)) as [->|Hb]; [intros _; apply Hf; eauto|].
    rewrite lookup_insert_ne by congruence. apply Hf.
  - lia.
  - intros b ch (x & Hx & Hin). unfold queued. cbn. destruct (decide (b = a)) as [->|Hb].
    + rewrite Ha in Hx. injection Hx as <-. destruct (Hw ch Hin) as [|[|]]; auto. right. right.
      exists e'. now rewrite lookup_insert_eq.
    + right. right. exists x. now rewrite lookup_insert_ne by congruence.
Qed.

Lemma store_new_keeps (m : RowLockManager) (owner : session) (key : string) (mode : LockMode) (w g : gset chan) :
  queues_ok m -> keeps m (store_new m owner key mode) w g.
Proof.
  intros [Ho Hf]. assert (Hn : heap m !! next m = None).
  { destruct (heap m !! next m) eqn:E; [|reflexivity]. specialize (Hf (next m) ltac:(eauto)). lia. }
  split; [split| |]; cbn.
  - intros b x. destruct (decide (b = next m)) as [->|Hb].
    + rewrite lookup_insert_eq. intros [= <-] Hw. now destruct Hw.
    + rewrite lookup_insert_ne by congruence. apply Ho.
  - intros b. destruct (decide (b = next m)) as [->|Hb]; [lia|]. rewrite lookup_insert_ne by congruence.
    intros Hb'%Hf. lia.
  - lia.
  - intros b ch (x & Hx & Hin). right. right. exists x. cbn. split; [|exact Hin].
    rewrite lookup_insert_ne; [exact Hx|]. intros <-. congruence.
Qed.

Lemma try_entry_queue (order : list session) (owner : session) (mode : LockMode) (e : rowLockEntry) :
  waiters (try_entry order owner mode e).1 = waiters e
  /\ (owners e <> ∅ -> owners (try_entry order owner mode e).1 <> ∅).
Proof.
  unfold try_entry. repeat match goal with |- context [match ?x with _ => _ end] => destruct x end; cbn;
    (split; [reflexivity|]); auto; intros _; apply insert_non_empty.
Qed.

Lemma tryLock_keeps (order : list session) (m : RowLockManager) (owner : session) (key : string) (mode : LockMode)
    (loaded : option addr) (w g : gset chan) :
  queues_ok m -> keeps m (tryLock_loaded order m owner key mode loaded).1 w g.
Proof.
  intros Hm. unfold tryLock_loaded. destruct loaded as [a|]; [|now apply store_new_keeps].
  destruct (heap m !! a) as [e|] eqn:Ha; [|now apply keeps_refl]. destruct (closed e); [now apply store_new_keeps|].
  destruct (try_entry_queue order owner mode e) as [Hw Ho]. destruct (try_entry order owner mode e) as [e' r]. cbn in *.
  apply (set_entry_keeps m a e); [exact Hm|exact Ha| |intros ch; rewrite Hw; auto].
  rewrite Hw. intros Hne. apply Ho. exact (q_owned m Hm a e Ha Hne).
Qed.

Lemma release_keeps (m : RowLockManager) (owner : session) (key : string) (a : addr) (g : gset chan) :
  queues_ok m -> keeps m (release_entry m owner key a).1 (release_entry m owner key a).2 g.
Proof.
  intros Hm. unfold release_entry. destruct (heap m !! a) as [e|] eqn:Ha; [|now apply keeps_refl].
  destruct (decide (delete owner (owners e) = ∅)) as [Hd|Hd]; cbn.
  - pose proof (set_entry_keeps m a e (mkEntry true (delete owner (owners e)) ∅) (waiters e) g Hm Ha) as [[K1 K2] K3 K4];
      [now intros []|auto|]. split; [split; [exact K1|exact K2]|exact K3|exact K4].
  - apply (set_entry_keeps m a e); auto.
Qed.

Lemma forget_keeps (m : RowLockManager) (a : addr) (ch : chan) (w : gset chan) :
  queues_ok m -> keeps m (forget_waiter m a ch) w {[ch]}.
Proof.
  intros Hm. unfold forget_waiter. destruct (heap m !! a) as [e|] eqn:Ha; [|now apply keeps_refl].
  apply (set_entry_keeps m a e); [exact Hm|exact Ha| |].
  - cbn. intros Hne. apply (q_owned m Hm a e Ha). set_solver.
  - cbn. intros c Hc. destruct (decide (c = ch)); set_solver.
Qed.

Lemma enqueue_keeps (m m' : RowLockManager) (key : string) (a : addr) (ch : chan) (w g : gset chan) :
  queues_ok m -> enqueue m key a = Some (m', ch) ->
  keeps m m' w g /\ ch = next m /\ (ch < next m')%positive /\ queued m' a ch.
Proof.
  intros Hm. unfold enqueue. destruct (heap m !! a) as [e|] eqn:Ha; [|discriminate].
  destruct (decide (entry m key = Some a /\ owners e <> ∅)) as [[_ Ho]|]; [|discriminate]. intros [= <- <-].
  pose proof (set_entry_keeps m a e (mkEntry (closed e) (owners e) ({[next m]} ∪ waiters e)) w g Hm Ha) as [[K1 K2] K3 K4];
    [auto|cbn; set_solver|]. split; [|split; [reflexivity|split; [cbn; lia|]]].
  - split; [split; [exact K1|]|cbn; lia|exact K4]. intros b Hb. specialize (K2 b Hb). cbn in *. lia.
  - exists (mkEntry (closed e) (owners e) ({[next m]} ∪ waiters e)). cbn. rewrite lookup_insert_eq. split; [reflexivity|set_solver].
Qed.

(** A section that only changes the graph of waits. *)
Lemma waits_keeps (m : RowLockManager) (ws : gmap session session) (w g : gset chan) :
  queues_ok m -> keeps m (set_waits m ws) w g.
Proof. intros [Ho Hf]. split; [now split|cbn; lia|intros a ch Hq; now right; right]. Qed.

(** ** One step *)

(** The waiting sessions are in the queues of their entries, or woken, each on a channel of its own. *)
Record live (y : sys) : Prop := {
  l_ok : queues_ok (mgr y);
  l_wait : forall s a ch, channel_of (at_pc y s) = Some (a, ch) ->
    (ch < next (mgr y))%positive /\ (ch ∈ woken y \/ queued (mgr y) a ch);
  l_own : forall s s' a a' ch, channel_of (at_pc y s) = Some (a, ch) -> channel_of (at_pc y s') = Some (a', ch) -> s = s' }.

Definition moves_to (y : sys) (s : session) (p : pc) (m' : RowLockManager) (g : gset chan) : Prop :=
  channel_of p = None
  \/ (channel_of p = channel_of (at_pc y s) /\ g = ∅)
  \/ exists a, channel_of p = Some (a, next (mgr y)) /\ (next (mgr y) < next m')%positive
               /\ queued m' a (next (mgr y)) /\ g = ∅.

Definition forgets (y : sys) (s : session) (p : pc) (g : gset chan) : Prop :=
  g = ∅ \/ exists a ch, channel_of (at_pc y s) = Some (a, ch) /\ g = {[ch]} /\ channel_of p = None.

Lemma at_pc_move (y y' : sys) (s s' : session) (p : pc) :
  pcs y' = <[s := p]> (pcs y) -> at_pc y' s' = if decide (s' = s) then p else at_pc y s'.
Proof.
  intros Hp. unfold at_pc. rewrite Hp. destruct (decide (s' = s)) as [->|Hs]; [now rewrite lookup_insert_eq|].
  now rewrite lookup_insert_ne by congruence.
Qed.

Lemma live_move (y y' : sys) (s : session) (p : pc) (w g : gset chan) :
  live y -> pcs y' = <[s := p]> (pcs y) -> keeps (mgr y) (mgr y') w g -> woken y ∪ w ⊆ woken y' ->
  forgets y s p g -> moves_to y s p (mgr y') g -> live y'.
Proof.
  intros [Hok Hwait Hown] Hp [K1 K2 K3] Hw Hf Hm.
  assert (Hother : forall s' a ch, s' <> s -> channel_of (at_pc y s') = Some (a, ch) ->
    (ch < next (mgr y'))%positive /\ (ch ∈ woken y' \/ queued (mgr y') a ch)).
  { intros s' a ch Hs Hc. destruct (Hwait s' a ch Hc) as [Hlt Hq]. split; [lia|].
    destruct Hq as [Hq|Hq]; [left; set_solver|]. destruct (K3 a ch Hq) as [?|[Hg|?]]; [left; set_solver| |now right].
    destruct Hf as [->|(a' & ch' & Hc' & -> & _)]; [set_solver|]. apply elem_of_singleton in Hg as ->.
    now destruct (Hs (Hown s' s a a' ch' Hc Hc')). }
  split; [exact K1| |].
  - intros s' a ch. rewrite (at_pc_move y y' s s' p Hp). destruct (decide (s' = s)) as [->|Hs]; [|now apply Hother].
    intros Hc. destruct Hm as [Hm|[[Hm ->]|(b & Hm & Hlt & Hq & ->)]]; [congruence| |].
    + rewrite Hm in Hc. destruct (Hwait s a ch Hc) as [Hlt Hq]. split; [lia|].
      destruct Hq as [Hq|Hq]; [left; set_solver|]. destruct (K3 a ch Hq) as [?|[Hg|?]]; [left; set_solver|set_solver|now right].
    + rewrite Hm in Hc. injection Hc as <- <-. auto.
  - intros s1 s2 a1 a2 ch. rewrite !(at_pc_move y y' s _ p Hp).
    assert (Hnew : forall s' a', s' <> s -> channel_of (at_pc y s') = Some (a', ch) -> forall a, channel_of p = Some (a, ch) -> False).
    { intros s' a' Hs Hc a Hpc. destruct Hm as [Hm|[[Hm _]|(b & Hm & _)]]; [congruence| |].
      - rewrite Hm in Hpc. exact (Hs (Hown s' s a' a ch Hc Hpc)).
      - rewrite Hm in Hpc. injection Hpc as <- <-. destruct (Hwait s' a' _ Hc). lia. }
    destruct (decide (s1 = s)) as [->|H1], (decide (s2 = s)) as [->|H2]; intros C1 C2; auto;
      [destruct (Hnew s2 a2 H2 C2 a1 C1)|destruct (Hnew s1 a1 H1 C1 a2 C2)|now apply (Hown s1 s2 a1 a2 ch)].
Qed.

(** A section that moves the session to a point where it waits for nothing. *)
Lemma live_leave (y y' : sys) (s : session) (p : pc) (w : gset chan) :
  live y -> pcs y' = <[s := p]> (pcs y) -> keeps (mgr y) (mgr y') w ∅ -> woken y ∪ w ⊆ woken y' ->
  channel_of p = None -> live y'.
Proof. intros Hy Hp Hk Hw Hc. apply (live_move y y' s p w ∅); auto; now left. Qed.

Lemma live_goto (y : sys) (s : session) (p : pc) : live y -> channel_of p = None -> live (goto y s p).
Proof.
  intros Hy Hc. apply (live_leave y _ s p ∅); [exact Hy|reflexivity|apply keeps_refl, Hy|cbn; set_solver|exact Hc].
Qed.

Lemma leave_graph_keeps (m : RowLockManager) (s : session) (o : option session) (w g : gset chan) :
  queues_ok m -> keeps m (leave_graph m s o) w g.
Proof. intros Hm. unfold leave_graph. destruct (decide _); [now apply waits_keeps|now apply keeps_refl]. Qed.

Lemma keeps_then_waits (m m' m'' : RowLockManager) (w g : gset chan) :
  keeps m m' w g -> (forall w g, keeps m' m'' w g) -> keeps m m'' w g.
Proof.
  intros [K1 K2 K3] H. split; [apply (H w g)|transitivity (next m'); [exact K2|apply (H w g)]|].
  intros a ch Hq. destruct (K3 a ch Hq) as [|[|Hq']]; auto.
  destruct (k_queued _ _ _ _ (H ∅ ∅) a ch Hq') as [?|[?|?]]; [set_solver|set_solver|auto].
Qed.

Lemma step_live (s : session) (l : label) (y y' : sys) : live y -> step s l y = Some y' -> live y'.
Proof.
  intros Hy. pose proof (l_ok y Hy) as Hm. unfold step. destruct (at_pc y s) eqn:Epc, l; try discriminate.
  - intros [= <-]. now apply live_goto.
  - cbn. destruct (entry (mgr y) key); intros [= <-].
    + eapply (live_leave y _ s _ ∅); [exact Hy|reflexivity|now apply keeps_refl|cbn; set_solver|reflexivity].
    + destruct Hy as [H1 H2 H3]. now split.
  - intros [= <-]. eapply (live_leave y _ s _ ∅); [exact Hy|reflexivity|now apply keeps_refl|cbn; set_solver|reflexivity].
  - destruct (gate y); [discriminate|]. intros [= <-].
    eapply (live_leave y _ s _ ∅); [exact Hy|reflexivity|now apply keeps_refl|cbn; set_solver|reflexivity].
  - pose proof (fun w => tryLock_keeps order (mgr y) s key mode loaded w ∅ Hm) as Hk.
    destruct (tryLock_loaded order (mgr y) s key mode loaded) as [m r]. cbn in Hk.
    destruct (fst r); [|destruct wait]; intros [= <-];
      (eapply (live_leave y _ s _ ∅); [exact Hy|reflexivity|apply Hk|cbn; set_solver|reflexivity]).
  - destruct (entry (mgr y) key); intros [= <-]; now apply live_goto.
  - destruct (enqueue (mgr y) key a) as [[m ch]|] eqn:E; intros [= <-]; [|now apply live_goto].
    destruct (enqueue_keeps (mgr y) m key a ch ∅ ∅ Hm E) as (Hk & -> & Hlt & Hq).
    apply (live_move y _ s (WaitQueued key mode other a (next (mgr y))) ∅ ∅);
      [exact Hy|reflexivity|exact Hk|cbn; set_solver|now left|].
    right. right. exists a. cbn. auto.
  - unfold wait_graph. destruct (hasCycleLocked _ s); intros [= <-].
    + eapply (live_move y _ s Idle ∅ {[ch]}); [exact Hy|reflexivity| |cbn; set_solver| |now left].
      * cbn. unfold forget_waiter at 1. cbn.
        pose proof (forget_keeps (set_waits (mgr y) (delete s (set_wait (waits (mgr y)) s other))) a ch ∅) as Hk.
        specialize (Hk ltac:(now destruct Hm)). destruct Hk as [K1 K2 K3]. split; [exact K1|exact K2|exact K3].
      * right. exists a, ch. rewrite Epc. auto.
    + apply (live_move y _ s (Sleeping key mode other a ch) ∅ ∅);
        [exact Hy|reflexivity|now apply waits_keeps|cbn; set_solver|now left|]. right. left. now rewrite Epc.
  - destruct (decide (ch ∈ woken y)); [|discriminate]. intros [= <-].
    eapply (live_leave y _ s _ ∅);
      [exact Hy|reflexivity|now apply leave_graph_keeps|cbn; set_solver|reflexivity].
  - intros [= <-]. eapply (live_move y _ s Idle ∅ {[ch]}); [exact Hy|reflexivity| |cbn; set_solver| |now left].
    + cbn. pose proof (forget_keeps (mgr y) a ch ∅ Hm) as Hk.
      apply (keeps_then_waits (mgr y) (forget_waiter (mgr y) a ch)); [exact Hk|]. intros w g. apply leave_graph_keeps, Hk.
    + right. exists a, ch. rewrite Epc. auto.
  - pose proof (release_keeps (mgr y) s key a ∅ Hm) as Hk. destruct (release_entry (mgr y) s key a) as [m chs]. cbn in Hk.
    intros [= <-]. eapply (live_leave y _ s _ chs); [exact Hy|reflexivity|exact Hk|cbn; set_solver|reflexivity].
  - destruct keys as [|key keys]; [|destruct (entry (mgr y) key)]; intros [= <-]; try now apply live_goto.
    eapply (live_leave y _ s _ ∅); [exact Hy|reflexivity|now apply waits_keeps|cbn; set_solver|reflexivity].
  - pose proof (release_keeps (mgr y) s key a ∅ Hm) as Hk. destruct (release_entry (mgr y) s key a) as [m chs]. cbn in Hk.
    intros [= <-]. eapply (live_leave y _ s _ chs); [exact Hy|reflexivity|exact Hk|cbn; set_solver|reflexivity].
Qed.

Lemma run_live (trace : list (session * label)) (y y' : sys) : live y -> run trace y = Some y' -> live y'.
Proof.
  revert y. induction trace as [|[s l] trace IH]; intros y Hy; cbn [run]; [now intros [= <-]|].
  destruct (step s l y) as [y1|] eqn:E; [|discriminate]. intros Hr. exact (IH y1 (step_live s l y y1 Hy E) Hr).
Qed.

Lemma live_init : live init.
Proof.
  split; [split|..]; cbn.
  - intros a e. rewrite lookup_empty. discriminate.
  - intros a. rewrite lookup_empty. now intros [? ?].
  - intros s a ch. unfold at_pc. cbn. rewrite lookup_empty. discriminate.
  - intros s s' a a' ch. unfold at_pc. cbn. rewrite lookup_empty. discriminate.
Qed.

(** ** What the other sessions leave alone *)

Lemma woken_grows (s : session) (l : label) (y y' : sys) : step s l y = Some y' -> woken y ⊆ woken y'.
Proof.
  unfold step. destruct (at_pc y s), l; try discriminate;
    repeat match goal with
    | |- context [let (_, _) := ?x in _] => destruct x
    | |- context [match ?x with _ => _ end] => destruct x
    end; intros E; try discriminate E; injection E as <-; cbn; set_solver.
Qed.

Lemma other_pc (s s' : session) (l : label) (y y' : sys) : step s l y = Some y' -> s' <> s -> at_pc y' s' = at_pc y s'.
Proof.
  intros E Hs. assert (Hp : pcs y' !! s' = pcs y !! s'); [|unfold at_pc; now rewrite Hp].
  revert E. unfold step. destruct (at_pc y s), l; try discriminate;
    repeat match goal with
    | |- context [let (_, _) := ?x in _] => destruct x
    | |- context [match ?x with _ => _ end] => destruct x
    end; intros E; try discriminate E; injection E as <-; cbn; rewrite ?lookup_insert_ne by congruence; reflexivity.
Qed.

Definition asleep (y : sys) (s : session) (key : string) (mode : LockMode) (a : addr) (ch : chan) : Prop :=
  exists other, at_pc y s = Sleeping key mode other a ch.

Lemma wake_enabled (y : sys) (s : session) (key : string) (mode : LockMode) (a : addr) (ch : chan) :
  asleep y s key mode a ch -> ch ∈ woken y ->
  exists y', step s Wake y = Some y' /\ at_pc y' s = AcqStart key mode LockWaitBlock.
Proof.
  intros [other Hs] Hw. unfold step. rewrite Hs. destruct (decide (ch ∈ woken y)); [|contradiction].
  eexists. split; [reflexivity|]. unfold at_pc. cbn. now rewrite lookup_insert_eq.
Qed.

Lemma run_others (trace : list (session * label)) (y y' : sys) (s : session) :
  Forall (fun sl => sl.1 <> s) trace -> run trace y = Some y' -> woken y ⊆ woken y' /\ at_pc y' s = at_pc y s.
Proof.
  intros Ht. revert y. induction Ht as [|[s1 l] trace Hs _ IH]; intros y; cbn [run]; [intros [= <-]; auto|].
  destruct (step s1 l y) as [y1|] eqn:E; [|discriminate]. intros Hr. destruct (IH y1 Hr) as [Hw Hp].
  split; [transitivity (woken y1); [exact (woken_grows _ _ _ _ E)|exact Hw]|].
  rewrite Hp. apply (other_pc s1 s l y y1 E). cbn in Hs. congruence.
Qed.

(** A woken session takes a row that nobody has. *)
Lemma free_row_taken (y : sys) (s : session) (key : string) (mode : LockMode) (order : list session) :
  at_pc y s = AcqStart key mode LockWaitBlock -> gate y = None -> entry (mgr y) key = None ->
  exists y', run [(s, EnterGate); (s, Try order)] y = Some y' /\ granted y' !! (s, key) = Some mode.
Proof.
  intros Hs Hg He. cbn [run]. unfold step at 1. rewrite Hs, Hg. unfold step.
  match goal with |- context [at_pc ?z s] => replace (at_pc z s) with (AcqLoaded key mode LockWaitBlock (entry (mgr y) key))
    by (unfold at_pc; cbn; now rewrite lookup_insert_eq) end.
  rewrite He. cbn. eexists. split; [reflexivity|]. cbn. now rewrite lookup_insert_eq.
Qed.


(** Session 2 waits for the row of session 1, which releases it. *)
Definition one_lock : string := "t:1".
Definition wait_trace : list (session * label) :=
  [(1, Acquire one_lock LockUpdate LockWaitBlock); (1, EnterGate); (1, Try []);
   (2, Acquire one_lock LockUpdate LockWaitBlock); (2, EnterGate); (2, Try [1]); (2, LoadWait); (2, Enqueue); (2, Graph);
   (1, CallRelease one_lock); (1, Section_)]%positive.

Definition after_release : sys := default init (run wait_trace init).

