(* ===== verification/Dml.v ===== *)
(** * Statements that change rows (pkg/executor: indexexpr.go, checks.go, ddl_defaults.go, generated.go, returning.go,
    executor.go)

    First the expressions that a schema stores as SQL text, CHECK predicates, index expressions, generated columns and
    DEFAULTs: what may be stored, how it is read back and evaluated, and how a row is completed with them before it is
    written.  Then INSERT with its conflict clauses, UPDATE, UPDATE ... FROM and DELETE on the session of a connection,
    their RETURNING and their counters, and the boundary that makes each of them happen or not. *)
From Stdlib Require Import NArith ZArith Lia Bool Ascii String List.
From S2P Require Lexer ParserMonad Format Statements.
From stdpp Require Import base option list gmap strings.
From S2P Require Import Prelude Token Ast Notify RowLock Bytes RowCodec Float Values Wire KVClient TestKV KVStore Schema UniqueCache.
From S2P Require Import TableCache ForeignKey Storage Table SessionState SchemaTx Session AlterTable Commit ExecValue Arrays ExprTypes.
From S2P Require Import Operators Eval Aggregates Sorting Joins Select TableReads ExecTx.
#[local] Open Scope string_scope.

(** ** The texts of errors *)

(** [fmt.Sprintf] of a format on arguments that are texts: a verb takes the next one, q quotes it. *)
Fixpoint render (format : string) (args : list string) : string :=
  match format with
  | EmptyString => EmptyString
  | String c r =>
      if c =b "%" then
        match r with
        | String v r =>
            if v =b "%" then String v (render r args)
            else match args with
                 | a :: args => (if v =b "q" then goquote a else a) ++ render r args
                 | [] => render r []
                 end
        | EmptyString => EmptyString
        end
      else String c (render r args)
  end.

(** [Error] of the errors of the evaluator; pgerror puts the name of the class in front. *)
Fixpoint xerror_text (e : xerror) : string :=
  match e with
  | InvalidText what args => "invalid text representation: " ++ render what args
  | DatatypeMismatch what args => "datatype mismatch: " ++ render what args
  | NotSupported what args => "feature not supported: " ++ render what args
  | UndefinedTable what args => "undefined table: " ++ render what args
  | LockNotAvailable what args => "lock not available: " ++ render what args
  | DeadlockDetected what args => "deadlock detected: " ++ render what args
  | ExecValue.Errorf what args => render what args
  | Wrapped what args e => render what (args ++ [xerror_text e])%list
  end.

(** [Error] of the errors of the parser. *)
Definition parse_error_text (e : Ast.error) : string :=
  match e with
  | ParseError message line column near =>
      if (0 <? line)%nat
      then "parse error at line " ++ itoa (N.of_nat line) ++ ", column " ++ itoa (N.of_nat column) ++ ": " ++ message
           ++ " (near " ++ goquote near ++ ")"
      else "parse error: " ++ message
  | PgError _ message => message
  | CTEColumnsOnCompound name => "CTE " ++ goquote name ++ ": column list on a compound query is not supported"
  | CTEColumnCount name names columns =>
      "CTE " ++ goquote name ++ ": " ++ itoa (N.of_nat names) ++ " column names for " ++ itoa (N.of_nat columns) ++ " columns"
  | WithNotSupported => "WITH is not supported before this statement"
  | InvalidColumnAliases name available given =>
      "invalid column reference: table " ++ goquote name ++ " has " ++ itoa (N.of_nat available)
      ++ " columns available but " ++ itoa (N.of_nat given) ++ " columns specified"
  end.

(** ** Which expressions may be stored (indexexpr.go) *)

Definition each_ok {A} (f : A -> ev ()) : list A -> ev () :=
  fix go l := match l with [] => Ok () | x :: r => _ ← f x; go r end.

Definition maybe_ok {A} (f : A -> ev ()) (o : option A) : ev () := match o with Some x => f x | None => Ok () end.

(** MIN and MAX of several arguments are scalars. *)
Definition isAggregateFunctionName (name : string) (argCount : nat) : bool :=
  let n := ToUpper name in
  name_in n ["COUNT"; "SUM"; "AVG"; "TOTAL"; "GROUP_CONCAT"; "JSON_GROUP_ARRAY"; "JSONB_GROUP_ARRAY"; "JSON_GROUP_OBJECT";
             "JSONB_GROUP_OBJECT"]
  || (name_in n ["MIN"; "MAX"] && (argCount <? 2)%nat).

Definition deterministicFunctions : list string :=
  ["LOWER"; "UPPER"; "LENGTH"; "ABS"; "COALESCE"; "NULLIF"; "IFNULL"; "NVL"; "TYPEOF"; "SUBSTR"; "SUBSTRING"; "TRIM";
   "REPLACE"; "PRINTF"; "HEX"; "UNHEX"; "ZEROBLOB"; "INSTR"; "GLOB"; "ROUND"; "MAX"; "MIN"; "CONCAT"; "PERCENT_DIFF";
   "ARRAY_LENGTH"; "JSON"; "JSONB"; "JSON_VALID"; "JSONB_VALID"; "JSON_TYPE"; "JSON_EXTRACT"; "JSONB_EXTRACT"; "JSON_SET";
   "JSONB_SET"; "JSON_INSERT"; "JSONB_INSERT"; "JSON_REPLACE"; "JSONB_REPLACE"; "JSON_REMOVE"; "JSONB_REMOVE";
   "JSON_ARRAY"; "JSONB_ARRAY"; "JSON_OBJECT"; "JSONB_OBJECT"; "JSON_QUOTE"; "JSONB_QUOTE"; "TO_JSONB"; "JSONB_TYPEOF";
   "JSONB_ARRAY_LENGTH"; "JSONB_STRIP_NULLS"; "JSONB_PRETTY"; "JSONB_BUILD_OBJECT"; "JSONB_BUILD_ARRAY"].

Definition isDeterministicFunction (name : string) : bool := name_in (ToUpper name) deterministicFunctions.

Definition no_subqueries : ev () := Fails (ExecValue.Errorf "subqueries are not allowed in index expressions" []).

Definition check_function (name : string) (argCount : nat) (star : bool) : ev () :=
  if star then Fails (ExecValue.Errorf ("function %s(" ++ str1 "*" ++ ") is not allowed in index expressions") [name])
  else if isAggregateFunctionName name argCount
  then Fails (ExecValue.Errorf "aggregate function %s() is not allowed in index expressions" [name])
  else if isDeterministicFunction name then Ok ()
  else Fails (ExecValue.Errorf "non-deterministic or unsupported function %s() is not allowed in index expressions" [name]).

Fixpoint ValidateDeterministicExpr (e : Expr) : ev () :=
  let V := ValidateDeterministicExpr in
  match e with
  | LiteralExpr _ _ | ColumnRef _ _ => Ok ()
  | ParenExpr e | UnaryExpr _ e | IsNullExpr e _ | CastExpr e _ => V e
  | BinaryExpr l _ r | IsDistinctExpr l r _ | SubscriptExpr l r | AnyAllExpr l _ _ r => _ ← V l; V r
  | BetweenExpr x _ lo hi => _ ← V x; _ ← V lo; V hi
  | LikeExpr x _ p esc => _ ← V x; _ ← V p; maybe_ok V esc
  | CaseExpr o whens els =>
      _ ← maybe_ok V o;
      _ ← each_ok (fun w => match w with mkWhenClause c r => _ ← V c; V r end) whens;
      maybe_ok V els
  | ArrayExpr l => each_ok V l
  | InExpr x _ l None => _ ← V x; each_ok V l
  | InExpr _ _ _ (Some _) | SubqueryExpr _ | ExistsExpr _ => no_subqueries
  | FunctionCallExpr (mkFunctionCall name args _ star) =>
      _ ← check_function name (length args) star; each_ok V args
  | WindowExpr _ _ _ => Fails (ExecValue.Errorf "window functions are not allowed in index expressions" [])
  end.

Section Columns.
Context `{Dynamic}.

Definition check_column (schema : Schema) (column : string) : ev () :=
  if column =s "*" then Fails (ExecValue.Errorf "wildcards are not allowed in index expressions" [])
  else if IsRowIDColumn column then Ok ()
  else match GetColumn schema column with
       | Some _ => Ok ()
       | None => Fails (ExecValue.Errorf "column not found in index expression: %s" [column])
       end.

Fixpoint ValidateIndexColumns (schema : Schema) (e : Expr) : ev () :=
  let V := ValidateIndexColumns schema in
  match e with
  | ColumnRef _ column => check_column schema column
  | ParenExpr e | UnaryExpr _ e | IsNullExpr e _ | CastExpr e _ => V e
  | BinaryExpr l _ r | IsDistinctExpr l r _ | SubscriptExpr l r | AnyAllExpr l _ _ r => _ ← V l; V r
  | BetweenExpr x _ lo hi => _ ← V x; _ ← V lo; V hi
  | LikeExpr x _ p esc => _ ← V x; _ ← V p; maybe_ok V esc
  | CaseExpr o whens els =>
      _ ← maybe_ok V o;
      _ ← each_ok (fun w => match w with mkWhenClause c r => _ ← V c; V r end) whens;
      maybe_ok V els
  | ArrayExpr l => each_ok V l
  | InExpr x _ l _ => _ ← V x; each_ok V l
  | FunctionCallExpr (mkFunctionCall _ args _ _) => each_ok V args
  | LiteralExpr _ _ | SubqueryExpr _ | ExistsExpr _ | WindowExpr _ _ _ => Ok ()
  end.
End Columns.

(** ** Reading them back

    The cache of parsed texts holds what is computed here. *)

(** [parser.ParseExpr] on a stored text. *)
Definition parse_text (what text : string) : ev Expr :=
  match Statements.ParseExpr text with
  | ParserMonad.Ok e _ => Ok e
  | ParserMonad.Err e => Fails (Wrapped what [text] (ExecValue.Errorf "%w" [parse_error_text e]))
  | ParserMonad.Crash => Crash "stack overflow"
  | ParserMonad.OutOfFuel => Crash "out of fuel"
  end.

Definition parseStoredExpr (text : string) : ev Expr :=
  e ← parse_text "invalid stored expression %q: %w" text;
  _ ← wrap_error "invalid stored expression %q: %w" [text] (ValidateDeterministicExpr e);
  Ok e.

Definition storedExpressionReferencesColumn (text column : string) : ev bool :=
  e ← parseStoredExpr text; Ok (existsb (fun ref => EqualFold ref column) (collectColumnRefs e)).

(** ** Evaluating them *)

Section Stored.
Context `{Builtins}.

(** [statelessEval]: an executor without a session. *)
Definition stateless_env : Env := mkEnv _ None [] 0 0 0 0.

(** The evaluators that the executor installs in the storage layer. *)
Definition EvalStoredExpression (text : string) (row : Row) : ev val :=
  e ← parseStoredExpr text; evalExpr stateless_env e (Some row).

Definition EvalCheckExpression (text : string) (row : Row) : ev bool :=
  e ← parseStoredExpr text;
  v ← evalExpr stateless_env e (Some row);
  Ok (is_nil v || toBool v).

(** *** Defaults (ddl_defaults.go) *)

Fixpoint isConstantExpr (e : Expr) : bool :=
  match e with
  | LiteralExpr _ _ => true
  | UnaryExpr op e => ((op =t TokenMinus) || (op =t TokenPlus)) && isConstantExpr e
  | ParenExpr e | CastExpr e _ => isConstantExpr e
  | ArrayExpr l => forallb isConstantExpr l
  | _ => false
  end.

Definition is_now (e : Expr) : bool :=
  match e with LiteralExpr TokenString v => EqualFold v "now" | _ => false end.

Fixpoint isWhitelistedDefaultExpr (e : Expr) : bool :=
  match e with
  | ParenExpr e => isWhitelistedDefaultExpr e
  | ColumnRef table column =>
      (table =s EmptyString) && name_in (ToLower column) ["current_timestamp"; "current_date"; "current_time"]
  | FunctionCallExpr (mkFunctionCall name [arg] _ _) => name_in (ToLower name) ["datetime"; "date"; "time"] && is_now arg
  | _ => false
  end.

(** A default as the catalogue keeps it: the value of a constant, or the text of an expression. *)
Definition defaultColumnValue (env : Env) (column : string) (e : Expr) : ev (val * string) :=
  if isConstantExpr e then
    v ← wrap_error "evaluate DEFAULT for column %q: %w" [column] (evalExpr env e None);
    Ok (v, EmptyString)
  else if isWhitelistedDefaultExpr e then Ok (VNil, Format.FormatExpr e)
  else Fails (NotSupported
    "DEFAULT for column %q is not a constant expression: %s; PizzaSQL evaluates a non-constant default at write time only for CURRENT_TIMESTAMP, CURRENT_DATE, CURRENT_TIME, datetime('now'), date('now'), and time('now'). Omit the default and supply the value on INSERT"
    [column; Format.FormatExpr e]).

Definition parseDefaultExpr (text : string) : ev Expr := parse_text "invalid stored DEFAULT expression %q: %w" text.

Fixpoint strip_parens (e : Expr) : Expr := match e with ParenExpr e => strip_parens e | _ => e end.

Definition clock_keyword (function : string) : string :=
  let n := ToLower function in
  if n =s "datetime" then "current_timestamp" else if n =s "date" then "current_date"
  else if n =s "time" then "current_time" else EmptyString.

(** The instant is the one of the statement, as in [current_time_text]. *)
Definition evalDefaultExpressionAt (text : string) : ev val :=
  e ← parseDefaultExpr text;
  let e := strip_parens e in
  if negb (isWhitelistedDefaultExpr e) then
    Fails (NotSupported
      "stored DEFAULT expression %q is not supported; PizzaSQL only evaluates CURRENT_TIMESTAMP, CURRENT_DATE, CURRENT_TIME, datetime('now'), date('now'), and time('now') at write time"
      [text])
  else match e with
       | ColumnRef _ column => Ok (default VNil (sqliteCurrentTimeValue column))
       | FunctionCallExpr (mkFunctionCall name _ _ _) => Ok (default VNil (sqliteCurrentTimeValue (clock_keyword name)))
       | _ => Fails (NotSupported "stored DEFAULT expression %q is not supported" [text])
       end.

(** The default of a column for one statement; [None] where it has none. *)
Definition column_default (c : Column) : ev (list (string * val)) :=
  if DefaultExpr c =s EmptyString then Ok (if is_nil (Default c) then [] else [(col_Name c, Default c)])
  else v ← wrap_error "evaluate DEFAULT for column %q: %w" [col_Name c] (evalDefaultExpressionAt (DefaultExpr c));
       Ok [(col_Name c, v)].

Definition statementDefaults (schema : Schema) : ev (list (string * val)) :=
  (fun l => concat l) <$> mapE column_default (Columns schema).

Definition apply_default (row : Row) (d : string * val) : Row :=
  match rowColumnValue row d.1 with Some _ => row | None => <[d.1 := d.2]> row end.

Definition applyRowDefaults (row : Row) (defaults : list (string * val)) : Row := fold_left apply_default defaults row.

(** *** Generated columns (generated.go) *)

Definition generatedColumnExpr (c : Column) : ev (option Expr) :=
  if GeneratedExpr c =s EmptyString then Ok None else Some <$> parseStoredExpr (GeneratedExpr c).

Definition generate (env : Env) (row : Row) (c : Column) : ev Row :=
  e ← generatedColumnExpr c;
  match e with
  | None => Ok row
  | Some e =>
      v ← wrap_error "evaluating generated column %s: %w" [col_Name c] (evalExpr env e (Some row));
      Ok (<[col_Name c := v]> row)
  end.

(** A JSON text is stored as a text. *)
Definition normalizeStoredValues (row : Row) : Row :=
  (fun v => match v with VOther (JsonText s) => Text s | _ => v end) <$> row.

Definition applyGeneratedColumns (env : Env) (schema : Schema) (row : Row) : ev Row :=
  normalizeStoredValues <$> foldE (generate env) (Columns schema) row.

Definition generatedColumnSet (schema : Schema) : list string :=
  map (fun c => ToLower (col_Name c)) (List.filter (fun c => negb (GeneratedExpr c =s EmptyString)) (Columns schema)).

Definition is_generated (schema : Schema) (column : string) : bool := name_in (ToLower column) (generatedColumnSet schema).

Definition lookupRowValue (row : Row) (name : string) : option val := rowColumnValue row name.

Definition isIntegerColumnType (typeName : string) : bool := contains_text (ToUpper typeName) "INT".

(** *** JSON columns (jsonb.go) *)

Definition normalize_jsonb_column (row : Row) (c : Column) : ev Row :=
  if negb (EqualFold (TrimSpace (col_Type c)) "JSONB") then Ok row
  else match lookupRowValue row (col_Name c) with
       | None | Some VNil => Ok row
       | Some (VString text) | Some (VOther (JsonText text)) =>
           canonical ← wrap_error "column %q: %w" [col_Name c] (canonicalizeJSONB text);
           Ok (<[col_Name c := Text canonical]> row)
       | Some v =>
           Fails (InvalidText "column %q is %s and accepts JSON text, got %T" [col_Name c; col_Type c; type_name v])
       end.

Definition normalizeJSONBRow (schema : Schema) (row : Row) : ev Row := foldE normalize_jsonb_column (Columns schema) row.

(** *** CHECK constraints (checks.go) *)

Definition refused {A} (what : string) (args : string -> list string) (m : ev A) : ev A :=
  match m with Fails e => Fails (NotSupported what (args (xerror_text e))) | m => m end.

Definition qualified_ref (refs : list (string * string)) : option (string * string) :=
  find (fun ref => negb (ref.1 =s EmptyString)) refs.

Definition checkConstraintFor (name : string) (e : Expr) (schema : Schema) : ev CheckConstraint :=
  let text := Format.FormatExpr e in
  _ ← refused "CHECK expression %s is not allowed: %v; a CHECK predicate must be deterministic and free of subqueries, aggregates, and window functions"
        (fun err => [text; err]) (ValidateDeterministicExpr e);
  _ ← match qualified_ref (collectTableColumnRefs e) with
      | Some (table, column) => Fails (NotSupported
          "CHECK expression %s uses the qualified column reference %s.%s; name the column without a table qualifier so the predicate stays bound to this table"
          [text; table; column])
      | None => Ok ()
      end;
  _ ← refused "CHECK expression %s is invalid: %v" (fun err => [text; err]) (ValidateIndexColumns schema e);
  _ ← refused "CHECK expression %s cannot be stored for later evaluation: %v; the predicate must round-trip through the engine's SQL text form"
        (fun err => [text; err]) (parseStoredExpr text);
  Ok (mkCheck name text).

Definition is_check (t : ConstraintType) : bool := match t with ConstraintCheck => true | _ => false end.

(** The CHECK constraints of a column and of a table; the parser gives each its predicate. *)
Definition tableChecks (schema : Schema) (ofColumn : list ColumnConstraint) (ofTable : list TableConstraint)
    : ev (list CheckConstraint) :=
  let named := (map (fun c => (cc_Name c, cc_Check c)) (List.filter (fun c => is_check (cc_Type c)) ofColumn)
                ++ map (fun c => (tc_Name c, tc_Check c)) (List.filter (fun c => is_check (tc_Type c)) ofTable))%list in
  mapE (fun nc => checkConstraintFor nc.1 nc.2 schema) (omap (fun nc => pair nc.1 <$> nc.2) named).

Definition schemaWithColumn (schema : Schema) (c : Column) : Schema :=
  mkSchema (Name schema) (Columns schema ++ [c])%list (PrimaryKey schema) (PrimaryKeyColumns schema) (CreatedAt schema)
    (NextRowID schema) (AutoIncrement schema) (Checks schema) (ForeignKeys schema).
End Stored.

(** ** Statements that change rows (pkg/executor: executor.go, generated.go, returning.go) *)

(** ** Errors *)

(** [Error] of the errors of the storage layer. *)
Definition kv_error_text (e : kv_error) : string :=
  match e with
  | EOF => "EOF"
  | UnexpectedEOF => "unexpected EOF"
  | ErrProtocol msg => "pkbfi protocol error: " ++ msg
  | ErrKeyNotFound => "key not found"
  | ServerError msg => "pkbfi server error: " ++ msg
  | Refused msg | NetError msg => msg
  end.

Fixpoint error_text (e : error) : string :=
  match e with
  | EKV e => kv_error_text e
  | ErrIndexNotFound name => "index not found: " ++ name
  | ErrSerialization detail =>
      "serialization failure: concurrent transaction modified the database"
      ++ (if detail =s EmptyString then EmptyString else ": " ++ detail)
  | PrimaryKeyViolation _ key => "duplicate primary key: " ++ key
  | NotNullViolation table column => "NOT NULL constraint failed: " ++ table ++ "." ++ column
  | CheckViolation _ constraint => "CHECK constraint failed: " ++ constraint
  | UniqueViolation constraint => "UNIQUE constraint failed: " ++ constraint
  | ForeignKeyViolation table constraint =>
      "FOREIGN KEY constraint failed: " ++ (if constraint =s EmptyString then table else constraint)
  | Schema.Errorf msg => msg
  | Wrapf msg e => msg ++ ": " ++ error_text e
  end.

(** A conflict is known by the text of its error. *)
Definition isConflictError (e : error) : bool :=
  contains_text (error_text e) "duplicate" || contains_text (error_text e) "UNIQUE constraint failed".

(** An evaluation inside a statement. *)
Definition from_ev {A} (r : ev A) : outcome error A :=
  match r with Ok a => Done a | Fails e => Fail_ (Schema.Errorf (xerror_text e)) | Crash _ => Panic end.

Section Dml.
Context `{Builtins} `{!Relations} `{!Json} (db : string) (evs : Evaluators).

(** The depth of referential actions, and the session that a statement of the table manager runs in. *)
Context (fuel : nat) (fresh : session).

(** [executeSelect] on the session of a connection: what Select and TableSelect compute, with what its reads
    leave in the session. *)
Context (query : QueryRef -> SM Sorting.Result).

Definition evaluated {A} (r : ev A) : SM A := lift_res (from_ev r).

(** ** Conflicts of an INSERT (generated.go) *)

(** A uniqueness constraint: the primary key or an index. *)
Inductive conflictMatcher : Type := MatchKey | MatchIndex (idx : Index).

Definition insertConflictMatchers (tableName : string) (stmtReplace : bool) : SM (list conflictMatcher) :=
  indexes ← ListTableIndexes_s db tableName;
  mret ((if stmtReplace then [MatchKey] else [])
        ++ map MatchIndex (List.filter (fun i => Unique i && (stmtReplace || EqualFold (OnConflict i) "REPLACE")) indexes))%list.

(** The rows that a candidate conflicts with. *)
Definition matcherConflicts (tableName : string) (schema : Schema) (m : conflictMatcher) (candidate : Row) : SM (list Row) :=
  match m with
  | MatchKey =>
      match PrimaryKeyForRow schema candidate with
      | Fail_ _ => mret []
      | Panic => lift_res Panic
      | Done pk => r ← not_found (GetByPK_s db tableName pk); mret (option_list r)
      end
  | MatchIndex idx =>
      isNull ← lift_res (IndexValueContainsNull evs idx candidate);
      if isNull : bool then mret []
      else (key ← lift_res (IndexRowKey evs idx candidate); SelectByIndexKey db evs tableName idx key)
  end.

Fixpoint any_conflict (tableName : string) (schema : Schema) (candidate : Row) (l : list conflictMatcher) : SM bool :=
  match l with
  | [] => mret false
  | m :: rest =>
      rows ← matcherConflicts tableName schema m candidate;
      match rows with [] => any_conflict tableName schema candidate rest | _ => mret true end
  end.

Definition hasAnyInsertConflict (tableName : string) (schema : Schema) (candidate : Row) : SM bool :=
  indexes ← ListTableIndexes_s db tableName;
  any_conflict tableName schema candidate (MatchKey :: map MatchIndex (List.filter Unique indexes)).

(** The keys of the rows to replace, each once. *)
Fixpoint conflict_keys (tableName : string) (schema : Schema) (candidate : Row) (l : list conflictMatcher) (keys : gset string)
    : SM (gset string) :=
  match l with
  | [] => mret keys
  | m :: rest =>
      rows ← matcherConflicts tableName schema m candidate;
      pks ← collectS (fun r => lift_res (PrimaryKeyForRow schema r)) rows;
      conflict_keys tableName schema candidate rest (keys ∪ list_to_set pks)
  end.

Definition replace_row (tableName pk : string) : SM () :=
  deleted ← DeleteByPK_s db evs fuel tableName pk;
  match deleted with Some _ => mret () | None => failS (Schema.Errorf "ON CONFLICT REPLACE row disappeared during delete") end.

Definition resolveInsertConflicts (tableName : string) (schema : Schema) (candidate : Row) (stmtReplace : bool) : SM () :=
  matchers ← insertConflictMatchers tableName stmtReplace;
  keys ← conflict_keys tableName schema candidate matchers ∅;
  eachS (replace_row tableName) (elements keys).

(** The index that an ON CONFLICT target names, column by column. *)
Definition target_index (columns : list string) (indexes : list Index) : option Index :=
  find (fun i => Unique i && (length (idx_Columns i) =? length columns)%nat
                 && forallb (fun cc => EqualFold (ic_Name cc.1) cc.2) (zip (idx_Columns i) columns)) indexes.

Definition same_target (candidate existing : Row) (column : string) : bool :=
  match lookupRowValue existing column, lookupRowValue candidate column with
  | Some ev, Some cv => negb (is_nil ev) && negb (is_nil cv) && bool_decide (compare ev cv = Eq)
  | _, _ => false
  end.

Definition findConflictRow (table : string) (schema : Schema) (row : Row) (columns : list string) : SM (option Row) :=
  if PrimaryKeyTargetMatches schema columns then
    match PrimaryKeyForRow schema row with
    | Fail_ _ => mret None
    | Panic => lift_res Panic
    | Done pk => not_found (GetByPK_s db table pk)
    end
  else
    indexes ← ListTableIndexes_s db table;
    match target_index columns indexes with
    | Some idx =>
        key ← lift_res (IndexRowKey evs idx row);
        rows ← SelectByIndexKey db evs table idx key;
        mret (head rows)
    | None =>
        rows ← Select_s db table (Some (fun existing => forallb (same_target row existing) columns));
        mret (head rows)
    end.

(** ** Rows before they are written *)

(** The environment of the expressions of a statement on a table. *)
Definition statement_env (scope : columnTypeResolver) (e : Executor) : Env :=
  mkEnv _ None [Some scope] (ExecTx.lastInsertRowID e) (ExecTx.changes e) (ExecTx.totalChanges e) (ExecTx.backendPID e).

(** The values of assignments, in order; [row] is what they are evaluated on. *)
Fixpoint assigned (env : Env) (row : Row) (l : list Assignment) (updates merged : Row) : ev (Row * Row) :=
  match l with
  | [] => Ok (updates, merged)
  | a :: rest =>
      v ← evalExpr env (as_Value a) (Some row);
      assigned env row rest (<[as_Column a := v]> updates) (<[as_Column a := v]> merged)
  end.

Definition with_generated (schema : Schema) (merged updates : Row) : Row :=
  fold_left (fun u c => if GeneratedExpr c =s EmptyString then u else <[col_Name c := get merged (col_Name c)]> u)
    (Columns schema) updates.

(** What SET writes into a row: the assigned columns in canonical form, and the generated columns of the row with
    the assignments as they are. *)
Definition update_row (env : Env) (schema : Schema) (set : list Assignment) (context current : Row) : ev Row :=
  '(updates, merged) ← assigned env context set ∅ current;
  updates ← normalizeArrayRow (Columns schema) updates;
  updates ← normalizeJSONBRow schema updates;
  merged ← applyGeneratedColumns env schema merged;
  Ok (with_generated schema merged updates).

(** *** INSERT *)

(** The row that DO UPDATE is evaluated on: the existing one, also under the name of the table, and the candidate
    as [excluded]. *)
Definition excluded_row (table : string) (existing candidate : Row) : Row :=
  fold_left (fun m kv => <[("excluded." ++ kv.1)%string := kv.2]> m) (map_to_list candidate)
    (fold_left (fun m kv => <[(table ++ "." ++ kv.1)%string := kv.2]> (<[kv.1 := kv.2]> m)) (map_to_list existing) ∅).

Definition applyUpsert (env : Env) (table : string) (schema : Schema) (existing candidate : Row) (set : list Assignment)
    : SM () :=
  pk ← lift_res (PrimaryKeyForRow schema existing);
  updated ← UpdateByPK_s db evs fuel table pk
    (fun current => evaluated (update_row env schema set (excluded_row table existing candidate) current));
  match updated with Some _ => mret () | None => failS (Schema.Errorf "ON CONFLICT row disappeared during update") end.

(** A stored row for RETURNING; where it cannot be read it is left out. *)
Definition fetchByPK (tableName pk : string) : SM (option Row) :=
  r ← attemptS (GetByPK_s db tableName pk); mret match r with inl row => Some row | inr _ => None end.

Definition fetchIfRequested (tableName : string) (schema : Schema) (row : Row) (want : bool) : SM (option Row) :=
  if want then
    match PrimaryKeyForRow schema row with
    | Done pk => fetchByPK tableName pk
    | Fail_ _ => mret (Some row)
    | Panic => lift_res Panic
    end
  else mret None.

(** What became of one row: the row id of an inserted one, whether a row was affected, and the row for RETURNING. *)
Record row_effect : Type := mkEffect { fx_inserted : option Z; fx_affected : bool; fx_stored : option Row }.

Definition no_effect : row_effect := mkEffect None false None.

Definition inserted_row (tableName : string) (schema : Schema) (row : Row) (want : bool) (id : Z) : SM row_effect :=
  stored ← fetchIfRequested tableName schema row want; mret (mkEffect (Some id) true stored).

Definition canonical_row (schema : Schema) (row : Row) : ev Row :=
  row ← normalizeArrayRow (Columns schema) row; normalizeJSONBRow schema row.

Definition is_ignore (a : ConflictAction) : bool := match a with ConflictIgnore => true | _ => false end.
Definition is_replace (a : ConflictAction) : bool := match a with ConflictReplace => true | _ => false end.

(** The existing row that an ON CONFLICT clause with a target, or with a primary key to stand for it, is about. *)
Definition conflict_target (tableName : string) (schema : Schema) (stmt : InsertStmt) (row : Row) : SM (option Row) :=
  if ins_ConflictDoNothing stmt || negb (is_empty_list (ins_ConflictUpdate stmt)) then
    let columns := if is_empty_list (ins_ConflictTarget stmt) && negb (UsesSyntheticRowID schema)
                   then PrimaryKeyList schema else ins_ConflictTarget stmt in
    if is_empty_list columns then mret None else findConflictRow tableName schema row columns
  else mret None.

Definition upsert (env : Env) (tableName : string) (schema : Schema) (stmt : InsertStmt) (existing row : Row) (want : bool)
    : SM row_effect :=
  if ins_ConflictDoNothing stmt then mret no_effect
  else
    match find (fun a => is_generated schema (as_Column a)) (ins_ConflictUpdate stmt) with
    | Some a => failS (Schema.Errorf ("cannot UPDATE generated column " ++ as_Column a))
    | None =>
        existingPK ← lift_res (PrimaryKeyForRow schema existing);
        _ ← applyUpsert env tableName schema existing row (ins_ConflictUpdate stmt);
        stored ← if want then fetchByPK tableName existingPK else mret None;
        mret (mkEffect None true stored)
    end.

(** The storage layer puts the key that it resolves into the row that it is given, before anything can fail that
    comes after the row is complete. *)
Definition with_resolved_key (schema : Schema) (nr row : Row) : Row :=
  fold_left (fun r column => match nr !! column with Some v => <[column := v]> r | None => r end) (PrimaryKeyList schema) row.

Definition resolved_row (tableName : string) (row : Row) : SM Row := fun s w =>
  let prepared := (schema ← getSchemaLocked db tableName;
                   nk ← liftM (prepareInsertWithSchema db evs tableName schema row);
                   mret (schema, nk)) s w in
  match prepared.1 with
  | Done (schema, (nr, _)) => (Done (with_resolved_key schema nr row), (s, w))
  | _ => (Done row, (s, w))
  end.

Definition insert_resolved (tableName : string) (row : Row) : SM (Row * (Z + error)) :=
  resolved ← resolved_row tableName row;
  r ← attemptS (InsertWithRowID_s db evs tableName row);
  mret (resolved, r).

(** The insert itself; a conflict that it meets is ignored, or the row of the key is replaced. *)
Definition write_row (tableName : string) (schema : Schema) (action : ConflictAction) (row : Row) (want : bool)
    : SM row_effect :=
  '(row, r) ← insert_resolved tableName row;
  match r with
  | inl id => inserted_row tableName schema row want id
  | inr err =>
      if isConflictError err && is_ignore action then mret no_effect
      else if isConflictError err && is_replace action then
        match PrimaryKeyForRow schema row with
        | Done pk =>
            d ← attemptS (DeleteByPK_s db evs fuel tableName pk);
            match d with
            | inl (Some _) =>
                '(row, r) ← insert_resolved tableName row;
                match r with inl id => inserted_row tableName schema row want id | inr e => failS e end
            | _ => failS err
            end
        | Fail_ _ => failS err
        | Panic => lift_res Panic
        end
      else failS err
  end.

Definition insertOneRow (env : Env) (tableName : string) (schema : Schema) (stmt : InsertStmt) (row : Row) : SM row_effect :=
  let want := negb (is_empty_list (ins_Returning stmt)) in
  row ← evaluated (canonical_row schema row);
  conflict ← if is_ignore (ins_OnConflict stmt) || (ins_ConflictDoNothing stmt && is_empty_list (ins_ConflictTarget stmt))
             then hasAnyInsertConflict tableName schema row else mret false;
  if conflict : bool then mret no_effect
  else
    existing ← conflict_target tableName schema stmt row;
    match existing with
    | Some existing => upsert env tableName schema stmt existing row want
    | None =>
        _ ← resolveInsertConflicts tableName schema row (is_replace (ins_OnConflict stmt));
        write_row tableName schema (ins_OnConflict stmt) row want
    end.

(** ** The statements *)

Definition set_counters (changed : Z) (last : option Z) (e : Executor) : Executor :=
  with_counters (default (ExecTx.lastInsertRowID e) last) changed (wrap64 (ExecTx.totalChanges e + changed)) e.

(** The result of a statement that changes rows. *)
Record DmlResult : Type := mkDml {
  CommandTag : string; RowsAffected : Z; LastInsertID : Z; returned : option Sorting.Result; dml_LSN : N }.

Definition with_lsn (lsn : N) (r : DmlResult) : DmlResult :=
  mkDml (CommandTag r) (RowsAffected r) (LastInsertID r) (returned r) lsn.

(** *** RETURNING (returning.go) *)

Definition projectionType (e : Expr) (schema : Schema) : string := inferExprType (schemaTypeResolver (Some schema)) e.

(** The name and the type of the columns of an item. *)
Definition returning_column (schema : Schema) (i : nat) (c : SelectColumn) : list (string * string) :=
  if sc_star c || negb (sc_table c =s EmptyString) then map (fun c => (col_Name c, col_Type c)) (Columns schema)
  else
    let e := sc_expr c in
    let name :=
      if negb (sc_alias c =s EmptyString) then sc_alias c
      else match e with
           | ColumnRef _ column => column
           | _ => let text := Format.FormatExpr e in if text =s EmptyString then "column" ++ itoa (N.of_nat (i + 1)) else text
           end in
    [(name, projectionType e schema)].

Definition returningProjection (columns : list SelectColumn) (schema : Schema) : list (string * string) :=
  concat (imap (returning_column schema) columns).

Definition lookupRowColumn (row : option Row) (name : string) : val := default VNil (r ← row; rowColumnValue r name).

Definition returning_value (env : Env) (schema : Schema) (row : option Row) (c : SelectColumn) : ev (list val) :=
  if sc_star c || negb (sc_table c =s EmptyString)
  then mapE (fun c => canonicalizeJSONBReadValue (col_Type c) (lookupRowColumn row (col_Name c))) (Columns schema)
  else v ← evalExpr env (sc_expr c) row; Ok [v].

(** A row that could not be read is [None]. *)
Definition returningResult (env : Env) (columns : list SelectColumn) (schema : Schema) (rows : list (option Row))
    : ev Sorting.Result :=
  values ← mapE (fun row => (fun l => concat l) <$> mapE (returning_value env schema row) columns) rows;
  let names := returningProjection columns schema in
  Ok (Sorting.NewResult (map fst names) (map snd names) values).

Definition dml_env (scope : columnTypeResolver) : EM Env := getE (statement_env scope).

(** The counters are set before RETURNING is evaluated; [scoped] are the type scopes that the statement has pushed on
    the one of its table. *)
Definition finishDML (tag : string) (count : Z) (inserted : option Z) (affected : list (option Row))
    (returning : list SelectColumn) (schema : Schema) (scoped : Env -> Env) : EM DmlResult :=
  _ ← modE (set_counters count inserted);
  last ← getE ExecTx.lastInsertRowID;
  match returning with
  | [] => mret (mkDml tag count last None 0)
  | _ =>
      env ← dml_env (schemaTypeResolver (Some schema));
      result ← storage (evaluated (returningResult (scoped env) returning schema affected));
      mret (mkDml tag count last (Some result) 0)
  end.

(** *** INSERT *)

(** The columns that values are for: those named, or the ones that are not generated. *)
Definition target_columns (schema : Schema) (names : list string) : list string :=
  match names with
  | [] => List.filter (fun c => negb (is_generated schema c)) (map col_Name (Columns schema))
  | _ => names
  end.

Definition row_of (names : list string) (values : list val) : Row :=
  fold_left (fun r cv => <[cv.1 := cv.2]> r) (zip names values) ∅.

Definition values_row (env : Env) (names : list string) (values : list Expr) : ev Row :=
  row_of names <$> mapE (fun e => evalExpr env e None) (take (length names) values).

Definition ensureGeneratedRowID (tableName : string) (schema : Schema) (row : Row) : SM Row :=
  if negb (IsSingleColumnPrimaryKey schema) || UsesSyntheticRowID schema then mret row
  else if negb (is_nil (default VNil (lookupRowValue row (PrimaryKey schema)))) then mret row
  else match GetColumn schema (PrimaryKey schema) with
       | Some c =>
           if isIntegerColumnType (col_Type c)
           then (id ← liftM (GetNextRowID db tableName); mret (<[PrimaryKey schema := int64_val id]> row))
           else mret row
       | None => mret row
       end.

(** A row with its defaults and its generated columns. *)
Definition complete_row (env : Env) (tableName : string) (schema : Schema) (defaults : list (string * val)) (row : Row) : SM Row :=
  let row := applyRowDefaults row defaults in
  row ← if is_empty_list (generatedColumnSet schema) then mret row else ensureGeneratedRowID tableName schema row;
  evaluated (applyGeneratedColumns env schema row).

(** What a statement has done so far. *)
Record tally : Type := mkTally { t_count : Z; t_last : option Z; t_affected : list (option Row) }.

Definition add_effect (t : tally) (fx : row_effect) : tally :=
  mkTally (if fx_affected fx then t_count t + 1 else t_count t)
    (match fx_inserted fx with Some id => Some id | None => t_last t end)
    (if fx_affected fx then (t_affected t ++ map Some (option_list (fx_stored fx)))%list else t_affected t).

Fixpoint insert_rows {A} (row_of : A -> SM Row) (insert : Row -> SM row_effect) (l : list A) (t : tally) : SM tally :=
  match l with
  | [] => mret t
  | x :: rest => row ← row_of x; fx ← insert row; insert_rows row_of insert rest (add_effect t fx)
  end.

(** What the statement is refused for before it looks at a row. *)
Definition check_insert (schema : Schema) (stmt : InsertStmt) : ev () :=
  match find (is_generated schema) (ins_Columns stmt) with
  | Some c => Fails (ExecValue.Errorf "cannot INSERT into generated column %s" [c])
  | None =>
      match find (fun a => IsPrimaryKeyColumn schema (as_Column a)) (ins_ConflictUpdate stmt) with
      | Some a => Fails (NotSupported
          "ON CONFLICT DO UPDATE cannot assign primary key column %q of table %s; delete and re-insert the row to change its key"
          [as_Column a; tr_Name (ins_Table stmt)])
      | None => Ok ()
      end
  end.

Definition executeInsert (stmt : InsertStmt) : EM DmlResult :=
  let tableName := tr_Name (ins_Table stmt) in
  schema ← storage (getSchemaLocked db tableName);
  _ ← storage (evaluated (check_insert schema stmt));
  defaults ← storage (evaluated (statementDefaults schema));
  env ← dml_env (schemaTypeResolver (Some schema));
  let force := is_replace (ins_OnConflict stmt) in
  let names := target_columns schema (ins_Columns stmt) in
  let complete := complete_row env tableName schema defaults in
  let insert := insertOneRow env tableName schema stmt in
  t ← match ins_Select stmt with
      | Some q =>
          sel ← storage (query (Inline q));
          rows ← storage (collectS (fun values => complete (row_of names values)) (r_Rows sel));
          runDMLAtomicForce db evs tableName (force || (1 <? length rows)%nat)
            (storage (insert_rows mret insert rows (mkTally 0 None [])))
      | None =>
          runDMLAtomicForce db evs tableName (force || (1 <? length (ins_Values stmt))%nat)
            (storage (insert_rows (fun values => row ← evaluated (values_row env names values); complete row)
               insert (ins_Values stmt) (mkTally 0 None [])))
      end;
  finishDML "INSERT" (t_count t) (t_last t) (t_affected t) (ins_Returning stmt) schema (fun env => env).

(** *** UPDATE *)

(** The condition of a scan: a row on which it fails is left out. *)
Definition condition (env : Env) (where_ : Expr) (r : Row) : bool :=
  match evalExpr env where_ (Some r) with Ok v => toBool v | _ => false end.

Fixpoint last_failure (env : Env) (where_ : Expr) (rows : list Row) (found : option error) : SM (option error) :=
  match rows with
  | [] => mret found
  | r :: rest =>
      match from_ev (evalExpr env where_ (Some r)) with
      | Done _ => last_failure env where_ rest found
      | Fail_ e => last_failure env where_ rest (Some e)
      | Panic => lift_res Panic
      end
  end.

(** The failures of the condition on the rows that a scan of the table visits; the last one counts. *)
Definition scan_failure (env : Env) (table : string) (where_ : option Expr) : SM (option error) := fun s w =>
  match where_, (Select_s db table None s w).1 with
  | Some c, Done rows => last_failure env c rows None s w
  | _, _ => (Done None, (s, w))
  end.

Definition report (failure : option error) : SM () := match failure with Some e => failS e | None => mret () end.

(** The key of a statement that is about one row. *)
Definition point_key (schema : Schema) (where_ : option Expr) : option string :=
  match where_ with
  | Some c =>
      match extractIndexableCondition c with
      | Some (column, v) =>
          if safePrimaryKeyLiteral v && IsSingleColumnPrimaryKey schema && EqualFold column (PrimaryKey schema)
          then Some (sprint v) else None
      | None => None
      end
  | None => None
  end.

Definition writes_key (schema : Schema) (set : list Assignment) : bool :=
  existsb (fun a => IsPrimaryKeyColumn schema (as_Column a)) set.

(** The row that an update makes of a row, by the names that the row or the schema has for the columns. *)
Definition update_target (schema : Schema) (merged : Row) (k : string) : string :=
  match find (fun name => EqualFold name k) (map fst (map_to_list merged)) with
  | Some existing => existing
  | None => match find (fun c => EqualFold (col_Name c) k) (Columns schema) with Some c => col_Name c | None => k end
  end.

Definition applyUpdateRow (env : Env) (schema : Schema) (set : list Assignment) (row : Row) : ev Row :=
  updates ← update_row env schema set row row;
  Ok (fold_left (fun m kv => <[update_target schema m kv.1 := kv.2]> m) (map_to_list updates) row).

(** The key that a row has after the update, for RETURNING. *)
Definition key_after (env : Env) (schema : Schema) (set : list Assignment) (row : Row) : SM string :=
  merged ← evaluated (applyUpdateRow env schema set row);
  match PrimaryKeyForRow schema merged with
  | Done key => mret key
  | Fail_ _ => mret (match PrimaryKeyForRow schema row with Done key => key | _ => EmptyString end)
  | Panic => lift_res Panic
  end.

Definition fetch_all (tableName : string) (pks : list string) : SM (list (option Row)) :=
  rows ← collectS (fetchByPK tableName) pks; mret (List.filter (fun r => negb (is_none r)) rows).

Definition update_one_row (env : Env) (schema : Schema) (tableName pk : string) (set : list Assignment) (want : bool)
    : SM (Z * list (option Row)) :=
  updated ← UpdateByPK_s db evs fuel tableName pk (fun row => evaluated (update_row env schema set row row));
  match updated with
  | None => mret (0%Z, [])
  | Some _ => if want then (r ← fetchByPK tableName pk; mret (1%Z, [r])) else mret (1%Z, [])
  end.

Definition scan_update (env : Env) (tableName : string) (schema : Schema) (set : list Assignment) (where_ : option Expr)
    : SM nat :=
  failure ← scan_failure env tableName where_;
  n ← UpdateFunc_s db evs fuel fresh tableName (fun row => evaluated (update_row env schema set row row))
        (condition env <$> where_);
  _ ← report failure;
  mret n.

(** The keys for RETURNING are found before the rows are changed. *)
Definition update_rows (env : Env) (tableName : string) (schema : Schema) (set : list Assignment) (where_ : option Expr)
    (want : bool) : EM (Z * list (option Row)) :=
  pks ← storage (if want then (_ ← scan_failure env tableName where_;
                               matched ← Select_s db tableName (condition env <$> where_);
                               collectS (key_after env schema set) matched)
                 else mret []);
  n ← runDMLAtomic db evs tableName (storage (scan_update env tableName schema set where_));
  affected ← storage (fetch_all tableName pks);
  mret (Z.of_nat n, affected).

(** *** UPDATE ... FROM *)

Definition combineUpdateFrom (tableName : string) (target source : Row) : Row :=
  source ∪ fold_left (fun m kv => let m := <[kv.1 := kv.2]> m in
                                  if is_qualified kv.1 then m else <[qualify tableName kv.1 := kv.2]> m)
             (map_to_list target) ∅.

Definition alias_of (t : TableRef) : string := if tr_Alias t =s EmptyString then tr_Name t else tr_Alias t.
Definition aliased (alias : string) (r : Row) : Row := if alias =s EmptyString then r else addTableAlias r alias.

Definition materializeTableRef (t : TableRef) : SM (list Row) :=
  match t with
  | mkTableRef _ _ _ (Some q) _ _ _ =>
      res ← query q;
      mret (map (fun vs => aliased (alias_of t) (row_of (r_Columns res) vs)) (r_Rows res))
  | _ => rows ← Select_s db (tr_Name t) None; mret (map (aliased (alias_of t)) rows)
  end.

Definition materialize_entry (env : Env) (t : TableRef) : SM (list Row) :=
  rows ← materializeTableRef t; evaluated (executeJoins env t rows true).

Fixpoint multiply_entries (env : Env) (from : list TableRef) (rows : list Row) : SM (list Row) :=
  match from with
  | [] => mret rows
  | t :: rest =>
      right ← materialize_entry env t;
      multiply_entries env rest (concat (map (fun l => map (fun r => r ∪ l) right) rows))
  end.

Definition materializeFrom (env : Env) (from : list TableRef) : SM (list Row) :=
  match from with
  | [] => mret []
  | t :: rest => rows ← materialize_entry env t; multiply_entries env rest rows
  end.

(** The first source row that goes with a target row. *)
Fixpoint first_match (env : Env) (tableName : string) (where_ : option Expr) (target : Row) (sources : list Row)
    : ev (option Row) :=
  match sources with
  | [] => Ok None
  | s :: rest =>
      let combined := combineUpdateFrom tableName target s in
      v ← match where_ with Some c => evalExpr env c (Some combined) | None => Ok VNil end;
      if toBool v then Ok (Some combined) else first_match env tableName where_ target rest
  end.

(** The old key and the whole row after the update, of each target row that has a source row. *)
Definition plan_row (env : Env) (tableName : string) (schema : Schema) (set : list Assignment) (where_ : option Expr)
    (sources : list Row) (target : Row) : SM (list (string * Row)) :=
  m ← evaluated (first_match env tableName where_ target sources);
  match m with
  | None => mret []
  | Some combined =>
      row ← evaluated (('(_, row) ← assigned env combined set ∅ target;
                        row ← canonical_row schema row;
                        applyGeneratedColumns env schema row));
      oldPK ← lift_res (PrimaryKeyForRow schema target);
      mret [(oldPK, row)]
  end.

Definition image (schema : Schema) (row : Row) : Row :=
  fold_left (fun u c => match lookupRowValue row (col_Name c) with Some v => <[col_Name c := v]> u | None => u end)
    (Columns schema) ∅.

Definition apply_plan (tableName : string) (schema : Schema) (want : bool) (plan : string * Row) (done : Z * list (option Row))
    : SM (Z * list (option Row)) :=
  newPK ← lift_res (PrimaryKeyForRow schema plan.2);
  updated ← UpdateByPK_s db evs fuel tableName plan.1 (fun _ => mret (image schema plan.2));
  match updated with
  | None => mret done
  | Some _ =>
      stored ← if want then fetchByPK tableName newPK else mret None;
      mret ((done.1 + 1)%Z, (done.2 ++ map Some (option_list stored))%list)
  end.

(** The types of the columns of the sources; a name that is no table has none. *)
Definition snapshot_scope (from : list TableRef) : SM columnTypeResolver :=
  tables ← collectS (fun ref => if ref.1 =s EmptyString then mret None
                                else (r ← attemptS (getSchemaLocked db ref.1);
                                      mret match r with
                                           | inl schema => Some (mkTableSnapshot ref.1 ref.2 (Columns schema))
                                           | inr _ => None
                                           end))
             (collectAllTableRefs from);
  mret (snapshotTypeResolver (omap (fun t => t) tables)).

Definition executeUpdateFrom (stmt : UpdateStmt) (schema : Schema) : EM DmlResult :=
  let tableName := tr_Name (upd_Table stmt) in
  env ← dml_env (schemaTypeResolver (Some schema));
  scope ← storage (snapshot_scope (upd_From stmt));
  let env := push_scope env scope in
  sources ← storage (materializeFrom env (upd_From stmt));
  targets ← storage (Select_s db tableName None);
  plans ← storage (collectS (plan_row env tableName schema (upd_Set stmt) (upd_Where stmt) sources) targets);
  '(n, affected) ← runDMLAtomicForce db evs tableName true
    (storage (foldS (apply_plan tableName schema (negb (is_empty_list (upd_Returning stmt)))) (concat plans) (0%Z, [])));
  finishDML "UPDATE" n None affected (upd_Returning stmt) schema (fun env => push_scope env scope).

Definition executeUpdate (stmt : UpdateStmt) : EM DmlResult :=
  let tableName := tr_Name (upd_Table stmt) in
  let want := negb (is_empty_list (upd_Returning stmt)) in
  schema ← storage (getSchemaLocked db tableName);
  match find (fun a => is_generated schema (as_Column a)) (upd_Set stmt) with
  | Some a => failE (Schema.Errorf ("cannot UPDATE generated column " ++ as_Column a))
  | None =>
      if negb (is_empty_list (upd_From stmt)) then executeUpdateFrom stmt schema
      else
        env ← dml_env (schemaTypeResolver (Some schema));
        '(n, affected) ←
          match point_key schema (upd_Where stmt) with
          | Some pk =>
              if writes_key schema (upd_Set stmt)
              then update_rows env tableName schema (upd_Set stmt) (upd_Where stmt) want
              else storage (update_one_row env schema tableName pk (upd_Set stmt) want)
          | None => update_rows env tableName schema (upd_Set stmt) (upd_Where stmt) want
          end;
        finishDML "UPDATE" n None affected (upd_Returning stmt) schema (fun env => env)
  end.

(** *** DELETE *)

Definition delete_one_row (tableName pk : string) (want : bool) : SM (Z * list (option Row)) :=
  deleted ← DeleteByPK_s db evs fuel tableName pk;
  mret match deleted with
       | None => (0%Z, [])
       | Some r => (1%Z, if want then [Some r] else [])
       end.

Definition delete_rows (env : Env) (tableName : string) (where_ : option Expr) (want : bool) : SM (Z * list (option Row)) :=
  failure ← scan_failure env tableName where_;
  affected ← if want then Select_s db tableName (condition env <$> where_) else mret [];
  n ← Delete_s db evs fuel fresh tableName (condition env <$> where_);
  _ ← report failure;
  mret (Z.of_nat n, map Some affected).

Definition executeDelete (stmt : DeleteStmt) : EM DmlResult :=
  let tableName := tr_Name (del_Table stmt) in
  let want := negb (is_empty_list (del_Returning stmt)) in
  schema ← storage (getSchemaLocked db tableName);
  env ← dml_env (schemaTypeResolver (Some schema));
  '(n, affected) ← storage
    match point_key schema (del_Where stmt) with
    | Some pk => delete_one_row tableName pk want
    | None => delete_rows env tableName (del_Where stmt) want
    end;
  finishDML "DELETE" n None affected (del_Returning stmt) schema (fun env => env).

(** ** The boundary of a statement *)

(** A statement about the row of one key needs no boundary of its own. *)
Definition isPointMutation (table : string) (where_ : option Expr) (set : list Assignment) : SM bool :=
  match where_ with
  | Some c =>
      match extractIndexableCondition c with
      | Some (column, v) =>
          if safePrimaryKeyLiteral v then
            schema ← attemptS (getSchemaLocked db table);
            mret match schema with
                 | inl schema => IsSingleColumnPrimaryKey schema && EqualFold column (PrimaryKey schema)
                                 && negb (writes_key schema set)
                 | inr _ => false
                 end
          else mret false
      | None => mret false
      end
  | None => mret false
  end.

Definition atomically (m : EM DmlResult) : EM DmlResult := executeAtomicMutation db evs with_lsn m.

(** [Execute], for the statements that change rows. *)
Definition execute_dml (st : Statement) : option (EM DmlResult) :=
  match st with
  | StInsert s => Some (if is_empty_list (ins_Returning s) then executeInsert s else atomically (executeInsert s))
  | StUpdate s =>
      Some (point ← if is_empty_list (upd_Returning s)
                    then storage (isPointMutation (tr_Name (upd_Table s)) (upd_Where s) (upd_Set s)) else mret false;
            if point : bool then executeUpdate s else atomically (executeUpdate s))
  | StDelete s =>
      Some (point ← if is_empty_list (del_Returning s)
                    then storage (isPointMutation (tr_Name (del_Table s)) (del_Where s) []) else mret false;
            if point : bool then executeDelete s else atomically (executeDelete s))
  | _ => None
  end.

End Dml.
