(* ===== verification/DmlFacts.v ===== *)
(** * A statement that changes rows happens or does not

    Inside a transaction everything that an INSERT, UPDATE or DELETE does is staged, so that the log leads back to
    what was staged before it; outside, what has a boundary of its own is committed as a whole. *)
From Stdlib Require Import NArith ZArith Lia Bool Ascii String List.
From stdpp Require Import base option list gmap strings.
From S2P Require Import Prelude Token Ast Notify RowLock Bytes RowCodec Float Values Wire KVClient TestKV KVStore Schema UniqueCache.
From S2P Require Import TableCache ForeignKey Storage Table SessionState SchemaTx Session AlterTable Commit StorageFacts CommitProps.
From S2P Require Import SessionFacts ExecTx ExecTxFacts ExecValue Arrays ExprTypes.
From S2P Require Import Operators Eval Aggregates Sorting Joins Select TableReads Dml.
From S2P Require Lexer ParserMonad Statements.
#[local] Open Scope string_scope.
#[local] Set Warnings "-clear-no-such-hyp".

(** ** What a transaction contains *)

Section Contained.
Context `{Json}.

(** In a transaction the operation only stages, and the transaction stays open. *)
Class Contained {A} (m : SM A) : Prop := contained_rows : forall s w, inTx s = true ->
  (store (m s w).2.2, inTx (m s w).2.1) = (store w, inTx s) /\ extends (txdata s) (txdata (m s w).2.1).

Lemma contained_stages {A} (m : SM A) : Stages m -> Contained m.
Proof. intros Hm s w _. apply Hm. Qed.

Lemma contained_bind {A B} (m : SM A) (k : A -> SM B) : Contained m -> (forall a, Contained (k a)) -> Contained (mbind k m).
Proof.
  intros Hm Hk s w Hin. specialize (Hm s w Hin). unfold mbind, SM_bind. destruct (m s w) as [[a|e|] [s' w']]; cbn in *; auto.
  destruct Hm as [[= Hs Hi] He]. destruct (Hk a s' w') as [[= Hs' Hi'] He']; [congruence|].
  split; [congruence|]. eapply extends_trans; eauto.
Qed.

Lemma contained_attempt {A} (m : SM A) : Contained m -> Contained (attemptS m).
Proof. intros Hm s w Hin. specialize (Hm s w Hin). unfold attemptS. now destruct (m s w) as [[a|e|] [s' w']]. Qed.

Lemma contained_collect {A B} (f : A -> SM B) (l : list A) : (forall x, Contained (f x)) -> Contained (collectS f l).
Proof.
  intros Hf. induction l; cbn [collectS]; [apply contained_stages, stages_keeps, _|].
  apply contained_bind; [auto|]. intros b. apply contained_bind; [auto|]. intros. apply contained_stages, stages_keeps, _.
Qed.

Lemma contained_each {A} (f : A -> SM ()) (l : list A) : (forall x, Contained (f x)) -> Contained (eachS f l).
Proof.
  intros Hf. induction l; cbn [eachS]; [apply contained_stages, stages_keeps, _|]. apply contained_bind; auto.
Qed.

Lemma contained_fold {A B} (f : A -> B -> SM B) (l : list A) : (forall x b, Contained (f x b)) -> forall b, Contained (foldS f l b).
Proof.
  intros Hf. induction l; intros b; cbn [foldS]; [apply contained_stages, stages_keeps, _|]. apply contained_bind; auto.
Qed.

(** The part of an operation that is for a transaction. *)
Lemma contained_open {A} (m m' : SM A) : Contained m -> Contained (open ← getS inTx; if open : bool then m else m').
Proof.
  intros Hm s w Hin. specialize (Hm s w Hin). unfold mbind, SM_bind, getS. cbv beta iota. rewrite Hin in Hm |- *. exact Hm.
Qed.

Lemma contained_closed {A} (m m' : SM A) : Contained m -> Contained (open ← getS inTx; if negb open then m' else m).
Proof.
  intros Hm s w Hin. specialize (Hm s w Hin). unfold mbind, SM_bind, getS. cbv beta iota. rewrite Hin in Hm |- *. exact Hm.
Qed.

(** The same state, whatever the result. *)
Lemma stages_discard {A} (m : SM A) : Stages (_ ← m; mret ()) -> Stages m.
Proof. intros Hm s w. specialize (Hm s w). unfold mbind, SM_bind in Hm. now destruct (m s w) as [[a|e|] [s' w']]. Qed.
End Contained.

Create HintDb contained discriminated.

Ltac contained :=
  repeat first
    [ progress intros
    | solve [auto with contained nocore]
    | apply contained_open
    | apply contained_closed
    | match goal with |- Contained (_ ≫= _) => apply contained_bind end
    | match goal with |- Contained (attemptS _) => apply contained_attempt end
    | apply contained_collect
    | apply contained_each
    | apply contained_fold
    | match goal with |- Contained (match ?x with _ => _ end) => destruct x end
    | solve [apply contained_stages, stages_keeps; keep] ].

(** *** The operations of the session *)

Section Operations.
Context `{Json} (db : string) (evs : Evaluators) (fuel : nat) (fresh : session).

Lemma contained_not_found {A} (m : SM A) : Contained m -> Contained (not_found m).
Proof. intros. unfold not_found. contained. Qed.

Lemma contained_getByPK t pk : Contained (GetByPK_s db t pk).
Proof. unfold GetByPK_s, getByPK. apply contained_open, contained_stages. apply stages_getByPK. Qed.

Lemma contained_select t f : Contained (Select_s db t f).
Proof. unfold Select_s. apply contained_open, contained_stages. apply stages_select. Qed.

Lemma contained_insert t r : Contained (InsertWithRowID_s db evs t r).
Proof. unfold InsertWithRowID_s. apply contained_open, contained_stages. apply stages_insert. Qed.

Lemma contained_updateByPK t pk f : (forall r, KeepsOn still (f r)) -> Contained (UpdateByPK_s db evs fuel t pk f).
Proof.
  intros Hf. unfold UpdateByPK_s. apply contained_open, contained_stages, stages_discard.
  exact (stages_execute db evs fuel (SUpdateByPK t pk f) Hf).
Qed.

Lemma contained_deleteByPK t pk : Contained (DeleteByPK_s db evs fuel t pk).
Proof.
  unfold DeleteByPK_s. apply contained_open, contained_stages, stages_discard. exact (stages_execute db evs fuel (SDeleteByPK t pk) I).
Qed.

Lemma contained_updateFunc t f p : (forall r, KeepsOn still (f r)) -> Contained (UpdateFunc_s db evs fuel fresh t f p).
Proof.
  intros Hf. unfold UpdateFunc_s. apply contained_open, contained_stages, stages_discard.
  exact (stages_execute db evs fuel (SUpdate t f p) Hf).
Qed.

Lemma contained_deleteFunc t p : Contained (Delete_s db evs fuel fresh t p).
Proof.
  unfold Delete_s. apply contained_open, contained_stages, stages_discard. exact (stages_execute db evs fuel (SDelete t p) I).
Qed.

Lemma stages_versions t staged b l : Stages (merge_versions t staged b l).
Proof. induction l; cbn [merge_versions]; unfold rewritten; stages. Qed.

#[local] Hint Resolve stages_versions stages_select : stages.

Lemma contained_selectByIndexKey t i k : Contained (SelectByIndexKey db evs t i k).
Proof.
  unfold SelectByIndexKey. apply contained_closed, contained_stages.
  unfold select_indexed, filterByIndexLocked, indexIsCommittedLocked, getD. cbv zeta. stages.
Qed.
End Operations.

#[export] Hint Resolve contained_not_found contained_getByPK contained_select contained_insert contained_updateByPK
  contained_deleteByPK contained_updateFunc contained_deleteFunc contained_selectByIndexKey : contained.

Create HintDb still discriminated.

(** A step that changes neither the rows nor the log. *)
Ltac stays :=
  repeat first
    [ progress intros
    | solve [auto with still nocore]
    | solve [apply keeps_still; keep]
    | apply keeps_bind
    | apply keeps_attempt
    | apply keeps_collect
    | match goal with |- KeepsOn _ (match ?x with _ => _ end) => destruct x end ].

(** *** The steps of the statements *)

Section Steps.
Context `{Builtins} `{!Relations} `{!Json} (db : string) (evs : Evaluators) (fuel : nat) (fresh : session)
  (query : QueryRef -> SM Sorting.Result).

(** A query reads. *)
Context (query_reads : forall q, KeepsOn still (query q)).

Lemma contained_still {A} (m : SM A) : KeepsOn still m -> Contained m.
Proof. intros. now apply contained_stages, stages_still. Qed.

Lemma contained_query q : Contained (query q). Proof. apply contained_still, query_reads. Qed.
#[local] Hint Resolve contained_query : contained.
#[local] Hint Resolve query_reads : still.

Lemma keeps_evaluated {A} (r : ev A) : Keeps (evaluated r). Proof. unfold evaluated. apply _. Qed.
#[local] Hint Resolve keeps_evaluated : keeps.

Lemma contained_matchers t b : Contained (insertConflictMatchers db t b).
Proof. unfold insertConflictMatchers. contained. Qed.
Lemma contained_conflicts t s m r : Contained (matcherConflicts db evs t s m r).
Proof. unfold matcherConflicts. contained. Qed.
#[local] Hint Resolve contained_matchers contained_conflicts : contained.
Lemma contained_any t s r l : Contained (any_conflict db evs t s r l).
Proof. induction l; cbn [any_conflict]; contained. Qed.
#[local] Hint Resolve contained_any : contained.
Lemma contained_has t s r : Contained (hasAnyInsertConflict db evs t s r).
Proof. unfold hasAnyInsertConflict. contained. Qed.
Lemma contained_keys t s r l : forall keys, Contained (conflict_keys db evs t s r l keys).
Proof. induction l; intros; cbn [conflict_keys]; contained. Qed.
#[local] Hint Resolve contained_has contained_keys : contained.
Lemma contained_resolve t s r b : Contained (resolveInsertConflicts db evs fuel t s r b).
Proof. unfold resolveInsertConflicts, replace_row. contained. Qed.
Lemma contained_find t s r cs : Contained (findConflictRow db evs t s r cs).
Proof. unfold findConflictRow. contained. Qed.
#[local] Hint Resolve contained_resolve contained_find : contained.

Lemma contained_upsert_row env t s old new set : Contained (applyUpsert db evs fuel env t s old new set).
Proof.
  unfold applyUpsert. apply contained_bind; [contained|intros pk]. apply contained_bind; [|contained].
  apply contained_updateByPK. intros r. unfold evaluated. apply _.
Qed.
Lemma contained_fetch t pk : Contained (fetchByPK db t pk). Proof. unfold fetchByPK. contained. Qed.
#[local] Hint Resolve contained_upsert_row contained_fetch : contained.
Lemma contained_fetchIf t s r b : Contained (fetchIfRequested db t s r b). Proof. unfold fetchIfRequested. contained. Qed.
#[local] Hint Resolve contained_fetchIf : contained.
Lemma contained_inserted t s r b id : Contained (inserted_row db t s r b id). Proof. unfold inserted_row. contained. Qed.
Lemma contained_target t s st r : Contained (conflict_target db evs t s st r).
Proof. unfold conflict_target. cbv zeta. contained. Qed.
Lemma contained_upsert env t s st old r b : Contained (upsert db evs fuel env t s st old r b).
Proof. unfold upsert. contained. Qed.
#[local] Hint Resolve contained_inserted contained_target contained_upsert : contained.
Lemma still_resolved t r : KeepsOn still (resolved_row db evs t r).
Proof. intros s w. unfold resolved_row. cbv zeta. repeat case_match; reflexivity. Qed.
Lemma contained_insert_resolved t r : Contained (insert_resolved db evs t r).
Proof. unfold insert_resolved. apply contained_bind; [apply contained_still, still_resolved|contained]. Qed.
#[local] Hint Resolve contained_insert_resolved : contained.
Lemma contained_write t s a r b : Contained (write_row db evs fuel t s a r b).
Proof. unfold write_row. contained. Qed.
#[local] Hint Resolve contained_write : contained.
Lemma contained_insert_row env t s st r : Contained (insertOneRow db evs fuel env t s st r).
Proof. unfold insertOneRow. cbv zeta. contained. Qed.
#[local] Hint Resolve contained_insert_row : contained.

Lemma keeps_complete env t s ds r : Keeps (complete_row db env t s ds r).
Proof. unfold complete_row, ensureGeneratedRowID. cbv zeta. keep. Qed.
#[local] Hint Resolve keeps_complete : keeps.
Lemma contained_rows_inserted {A} (f : A -> SM Row) g l : (forall a, Contained (f a)) -> (forall r, Contained (g r)) ->
  forall t, Contained (insert_rows f g l t).
Proof. intros Hf Hg. induction l; intros t; cbn [insert_rows]; contained. Qed.

Lemma keeps_last_failure env c rows : forall found, Keeps (last_failure env c rows found).
Proof. induction rows; intros found; cbn [last_failure]; keep. Qed.
Lemma still_scan_failure env t c : KeepsOn still (scan_failure db env t c).
Proof.
  intros s w. unfold scan_failure. destruct c as [c|]; [|reflexivity]. case_match; [|reflexivity..].
  apply keeps_still, keeps_last_failure.
Qed.
Lemma contained_scan_failure env t c : Contained (scan_failure db env t c).
Proof. apply contained_still, still_scan_failure. Qed.
Lemma keeps_report f : Keeps (report f). Proof. unfold report. keep. Qed.
Lemma keeps_key_after env s set r : Keeps (key_after env s set r). Proof. unfold key_after. keep. Qed.
#[local] Hint Resolve contained_scan_failure : contained.
#[local] Hint Resolve keeps_report keeps_key_after : keeps.
Lemma contained_fetch_all t pks : Contained (fetch_all db t pks). Proof. unfold fetch_all. contained. Qed.
Lemma contained_update_one env s t pk set b : Contained (update_one_row db evs fuel env s t pk set b).
Proof.
  unfold update_one_row. apply contained_bind; [|contained]. apply contained_updateByPK. intros r. unfold evaluated. apply _.
Qed.
Lemma contained_scan_update env t s set c : Contained (scan_update db evs fuel fresh env t s set c).
Proof.
  unfold scan_update. apply contained_bind; [contained|intros failure]. apply contained_bind; [|contained].
  apply contained_updateFunc. intros r. unfold evaluated. apply _.
Qed.
#[local] Hint Resolve contained_fetch_all contained_update_one contained_scan_update : contained.

Lemma still_Select t f : KeepsOn still (Select_s db t f).
Proof. unfold Select_s. apply keeps_bind; [apply _|intros [|]]; [apply still_select|stays]. Qed.
#[local] Hint Resolve still_Select : still.
Lemma still_materialize t : KeepsOn still (materializeTableRef db query t).
Proof. unfold materializeTableRef. stays. Qed.
#[local] Hint Resolve still_materialize : still.
Lemma still_entry env t : KeepsOn still (materialize_entry db query env t).
Proof. unfold materialize_entry. stays. Qed.
#[local] Hint Resolve still_entry : still.
Lemma still_multiply env from : forall rows, KeepsOn still (multiply_entries db query env from rows).
Proof. induction from; intros; cbn [multiply_entries]; stays. Qed.
#[local] Hint Resolve still_multiply : still.
Lemma still_from env from : KeepsOn still (materializeFrom db query env from).
Proof. unfold materializeFrom. stays. Qed.
Lemma keeps_plan env t s set c srcs r : Keeps (plan_row env t s set c srcs r).
Proof. unfold plan_row. keep. Qed.
Lemma keeps_scope from : Keeps (snapshot_scope db from).
Proof. unfold snapshot_scope. keep. Qed.
Lemma keeps_point t c set : Keeps (isPointMutation db t c set).
Proof. unfold isPointMutation. keep. Qed.
#[local] Hint Resolve keeps_plan keeps_scope keeps_point : keeps.
#[local] Hint Resolve still_from : still.
Lemma contained_apply t s b p d : Contained (apply_plan db evs fuel t s b p d).
Proof.
  unfold apply_plan. apply contained_bind; [contained|intros pk]. apply contained_bind; [|contained].
  apply contained_updateByPK. intros r. apply _.
Qed.
Lemma contained_delete_one t pk b : Contained (delete_one_row db evs fuel t pk b).
Proof. unfold delete_one_row. contained. Qed.
Lemma contained_delete_rows env t c b : Contained (delete_rows db evs fuel fresh env t c b).
Proof. unfold delete_rows. contained. Qed.
#[local] Hint Resolve contained_apply contained_delete_one contained_delete_rows : contained.

(** ** The statements on a connection *)

Lemma only_storage {A} (m : SM A) : Contained m -> only_stages (storage m).
Proof.
  intros Hm c Hin. specialize (Hm (ses c) (wld c) Hin) as [[= Hs Hi] He]. unfold storage.
  destruct (m (ses c) (wld c)) as [r [s w]]. cbn in *. auto.
Qed.

Lemma only_bind {A B} (m : EM A) (k : A -> EM B) : only_stages m -> (forall a, only_stages (k a)) -> only_stages (mbind k m).
Proof.
  intros Hm Hk c Hin. specialize (Hm c Hin). unfold mbind, EM_bind. destruct (m c) as [[a|e|] c1]; cbn in *; auto.
  destruct Hm as (Hs & He & Hi). destruct (Hk a c1) as (Hs' & He' & Hi'); [congruence|].
  split; [congruence|]. split; [eapply extends_trans; eauto|congruence].
Qed.

(** What touches only the executor. *)
Lemma only_exec {A} (m : EM A) : (forall c, ses (m c).2 = ses c /\ wld (m c).2 = wld c) -> only_stages m.
Proof. intros Hm c _. destruct (Hm c) as [Hs Hw]. rewrite Hs, Hw. split; [easy|]. split; [now apply extends_same|easy]. Qed.

Lemma only_atomic {A} t force (m : EM A) : only_stages m -> only_stages (runDMLAtomicForce db evs t force m).
Proof.
  intros Hm c Hin. specialize (Hm c Hin) as (Hs & He & Hi).
  unfold runDMLAtomicForce, storage, getS, getD, Snapshot, attemptE, mbind, EM_bind. cbn [fst snd]. rewrite Hin. cbn [fst snd].
  destruct c as [e s w h]. cbn in *. destruct (m (mkConn e s w h)) as [[a|er|] [e1 s1 w1 h1]]; cbn in *;
    try (split; [exact Hs|split; [exact He|congruence]]).
  destruct (RollbackTo (length (log (txdata s))) s1 w1) as [r [s2 w2]] eqn:E. injection E as <- <- <-.
  split; [exact Hs|]. split; [|cbn; congruence]. intros Ht. destruct (rollback_extends _ _ Ht He) as [Ho Hl].
  apply extends_same; assumption.
Qed.

Ltac only_staging :=
  repeat first
    [ progress intros
    | solve [apply only_exec; easy]
    | apply only_storage; solve [contained | apply contained_still; stays]
    | apply only_atomic
    | apply only_bind
    | match goal with |- only_stages (match ?x with _ => _ end) => destruct x end ].

Lemma only_finish tag n last rows ret s f : only_stages (finishDML tag n last rows ret s f).
Proof. unfold finishDML, dml_env. only_staging. Qed.

Lemma only_insert st : only_stages (executeInsert db evs fuel query st).
Proof.
  unfold executeInsert, dml_env. cbv zeta. only_staging; try apply only_finish.
  all: apply only_storage, contained_rows_inserted; contained.
Qed.

Lemma only_update_from st s : only_stages (executeUpdateFrom db evs fuel query st s).
Proof. unfold executeUpdateFrom, dml_env. cbv zeta. only_staging; apply only_finish. Qed.

Lemma only_update_rows env t s set c b : only_stages (update_rows db evs fuel fresh env t s set c b).
Proof. unfold update_rows, runDMLAtomic. only_staging. Qed.

Lemma only_update st : only_stages (executeUpdate db evs fuel fresh query st).
Proof.
  unfold executeUpdate, dml_env. cbv zeta. apply only_bind; [only_staging|intros s]. destruct (find _ _); [only_staging|].
  destruct (negb _); [apply only_update_from|]. apply only_bind; [only_staging|intros env].
  apply only_bind; [|intros []; apply only_finish]. only_staging; apply only_update_rows.
Qed.

Lemma only_delete st : only_stages (executeDelete db evs fuel fresh st).
Proof. unfold executeDelete, dml_env. cbv zeta. only_staging; apply only_finish. Qed.

(** *** What fails without a boundary around it *)

(** The rows and the counters. *)
Definition kept (c : Conn) := (still (ses c) (wld c), counters (exec c)).

Definition undoneE {A} (m : EM A) : Prop := forall c e c', tight (overlay (txdata (ses c))) -> inTx (ses c) = true ->
  m c = (Fail_ e, c') -> kept c' = kept c.

Definition stillE {A} (m : EM A) : Prop := forall c, kept (m c).2 = kept c.

Lemma undoneE_bind {A B} (m : EM A) (k : A -> EM B) : stillE m -> (forall a, undoneE (k a)) -> undoneE (mbind k m).
Proof.
  intros Hm Hk c e c' Ht Hin. specialize (Hm c). unfold mbind, EM_bind. destruct (m c) as [[a|er|] c1]; cbn in Hm.
  - assert (Ho : overlay (txdata (ses c1)) = overlay (txdata (ses c))) by (unfold kept, still in Hm; congruence).
    assert (Hi : inTx (ses c1) = inTx (ses c)) by (unfold kept, still in Hm; congruence).
    intros E. apply Hk in E; [congruence|now rewrite Ho|congruence].
  - now intros [= _ <-].
  - discriminate.
Qed.

(** Nothing fails after it. *)
Lemma undoneE_then {A B} (m : EM A) (k : A -> EM B) : undoneE m -> (forall a c e c', k a c <> (Fail_ e, c')) -> undoneE (mbind k m).
Proof.
  intros Hm Hk c e c' Ht Hin. unfold mbind, EM_bind. destruct (m c) as [[a|er|] c1] eqn:E.
  - intros E'. now destruct (Hk _ _ _ _ E').
  - intros [= <- <-]. now apply Hm in E.
  - discriminate.
Qed.

Lemma stillE_storage {A} (m : SM A) : KeepsOn still m -> stillE (storage m).
Proof.
  intros Hm c. specialize (Hm (ses c) (wld c)). unfold storage, kept. destruct (m (ses c) (wld c)) as [r [s w]]. cbn in *. congruence.
Qed.
Lemma stillE_getE {A} (f : Executor -> A) : stillE (getE f). Proof. now intros c. Qed.

Lemma undoneE_still {A} (m : EM A) : stillE m -> undoneE m.
Proof. intros Hm c e c' _ _ E. specialize (Hm c). now rewrite E in Hm. Qed.

Lemma undoneE_fail {A} e : undoneE (failE (A := A) e). Proof. apply undoneE_still. now intros c. Qed.

(** An operation of the storage layer that undoes what it staged, in a transaction. *)
Lemma undoneE_open {A} (m m' : SM A) : Undone m -> undoneE (storage (open ← getS inTx; if open : bool then m else m')).
Proof.
  intros Hm c e c' Ht Hin. unfold storage, mbind, SM_bind, getS. cbv beta iota. rewrite Hin.
  destruct (m (ses c) (wld c)) as [r [s w]] eqn:E. intros [= -> <-]. apply Hm in E; [|exact Ht]. unfold kept. cbn. now rewrite E.
Qed.

Lemma undoneE_atomic {A} t force (m : SM A) : Contained m -> undoneE (runDMLAtomicForce db evs t force (storage m)).
Proof.
  intros Hm c err c' Ht Hin. specialize (Hm (ses c) (wld c) Hin) as [[= Hs Hi] He].
  unfold runDMLAtomicForce, storage, getS, getD, Snapshot, attemptE, mbind, EM_bind. cbn [fst snd]. rewrite Hin. cbn [fst snd].
  destruct c as [e s w h]. cbn in *. destruct (m s w) as [[a|er|] [s1 w1]]; cbn in *; [discriminate| |discriminate].
  intros [= <- <-]. unfold kept, still. cbn. destruct (rollback_extends _ _ Ht He) as [Ho Hl]. cbn in Ho, Hl. congruence.
Qed.

Lemma undone_discard {A} (m : SM A) : Undone (_ ← m; mret ()) -> Undone m.
Proof.
  intros Hm s w e s' w' Ht E. apply (Hm s w e s' w' Ht). unfold mbind, SM_bind. now rewrite E.
Qed.

(** Without RETURNING nothing fails at the end. *)
Lemma finish_ends tag n last rows s f c e c' : finishDML tag n last rows [] s f c <> (Fail_ e, c').
Proof. discriminate. Qed.

Ltac undone :=
  repeat first
    [ progress intros
    | apply undoneE_fail
    | solve [apply undoneE_still; apply stillE_storage; stays]
    | apply undoneE_atomic; solve [contained | apply contained_rows_inserted; contained]
    | apply undoneE_bind; [solve [apply stillE_getE | apply stillE_storage; stays]|]
    | match goal with |- undoneE (match ?x with _ => _ end) => destruct x end ].

Lemma undone_insert_statement st : ins_Returning st = [] -> undoneE (executeInsert db evs fuel query st).
Proof.
  intros Hr. unfold executeInsert, dml_env. cbv zeta. rewrite Hr. undone. apply undoneE_then; [|intros; apply finish_ends].
  undone.
Qed.

Lemma undone_update_from st s : upd_Returning st = [] -> undoneE (executeUpdateFrom db evs fuel query st s).
Proof.
  intros Hr. unfold executeUpdateFrom, dml_env. cbv zeta. rewrite Hr. undone.
  apply undoneE_then; [undone|intros []; intros; apply finish_ends].
Qed.

(** Nothing is staged after the one row. *)
Lemma undoneE_one {A B} (m : SM A) (f : A -> SM B) : undoneE (storage m) -> (forall a s w, exists b, f a s w = (Done b, (s, w))) ->
  undoneE (storage (mbind f m)).
Proof.
  intros Hm Hf c e c' Ht Hin. specialize (Hm c e c' Ht Hin). unfold storage, mbind, SM_bind in *.
  destruct (m (ses c) (wld c)) as [[a|er|] [s w]]; [|intros [= -> <-]; now apply Hm|discriminate].
  destruct (Hf a s w) as [b ->]. discriminate.
Qed.

Lemma undone_update_point env s t pk set : undoneE (storage (update_one_row db evs fuel env s t pk set false)).
Proof.
  unfold update_one_row. apply undoneE_one; [|intros [r|]; intros; eexists; reflexivity].
  unfold UpdateByPK_s. apply undoneE_open, undone_discard, (undone_execute db evs fuel (SUpdateByPK t pk _)).
  intros r. unfold evaluated. apply _.
Qed.

Lemma undone_delete_point t pk : undoneE (storage (delete_one_row db evs fuel t pk false)).
Proof.
  unfold delete_one_row. apply undoneE_one; [|intros [r|]; intros; eexists; reflexivity].
  unfold DeleteByPK_s. apply undoneE_open, undone_discard. exact (undone_execute db evs fuel (SDeleteByPK t pk) I).
Qed.

Lemma undone_update_rows env t s set c : undoneE (update_rows db evs fuel fresh env t s set c false).
Proof.
  intros [x s0 w h]. change (update_rows db evs fuel fresh env t s set c false (mkConn x s0 w h))
    with ((n ← runDMLAtomic db evs t (storage (scan_update db evs fuel fresh env t s set c));
           affected ← storage (fetch_all db t []); mret (Z.of_nat n, affected)) (mkConn x s0 w h)).
  revert x s0 w h. enough (Hu : undoneE (n ← runDMLAtomic db evs t (storage (scan_update db evs fuel fresh env t s set c));
           affected ← storage (fetch_all db t []); mret (Z.of_nat n, affected))) by (intros; eapply Hu; eassumption).
  apply undoneE_then; [unfold runDMLAtomic; undone|discriminate].
Qed.

Lemma undone_update st : upd_Returning st = [] -> undoneE (executeUpdate db evs fuel fresh query st).
Proof.
  intros Hr. unfold executeUpdate, dml_env. cbv zeta. rewrite Hr. apply undoneE_bind; [apply stillE_storage; stays|intros s].
  destruct (find _ _); [apply undoneE_fail|]. destruct (negb (is_empty_list (upd_From st))).
  { now apply undone_update_from. }
  apply undoneE_bind; [apply stillE_getE|intros env]. apply undoneE_then; [|intros []; intros; apply finish_ends].
  destruct (point_key _ _); [destruct (writes_key _ _)|]; first [apply undone_update_rows | apply undone_update_point].
Qed.

Ltac run Ht := repeat (rewrite Ht; cbv beta iota zeta).

(** A schema that was read is read again as it is. *)
Lemma schema_again n s w sc s' w' : is_Some (schemaTx s) -> getSchemaLocked db n s w = (Done sc, (s', w')) ->
  getSchemaLocked db n s' w' = (Done sc, (s', w')).
Proof.
  intros [t Ht]. unfold getSchemaLocked, in_tx, getSchema, mbind, SM_bind, mret, SM_ret, failS, getS, getT. run Ht.
  destruct (SessionState.staged (cat t) !! ToLower n) as [[sc'|]|] eqn:Es.
  - intros [= <- <- <-]. run Ht. now rewrite Es.
  - discriminate.
  - unfold loadSchema, mbind, SM_bind, mret, SM_ret, getT. run Ht. destruct (committedSchemas t !! ToLower n) as [sc'|] eqn:Ec.
    + intros [= <- <- <-]. run Ht. rewrite Es. run Ht. now rewrite Ec.
    + unfold liftM, recordRead, modT, mbind, SM_bind, lift_res. destruct (readDurable _ w) as [[[[data lsn]|]|e|] w1]; try discriminate.
      * run Ht. cbn [schemaTx set_tx]. destruct (parse_schema data) as [sc'|e|]; try discriminate.
        intros [= <- <- <-]. cbn [schemaTx set_tx]. unfold with_committedSchemas. cbn [cat committedSchemas]. rewrite Es.
        cbn [schemaTx set_tx committedSchemas]. now rewrite lookup_insert_eq.
      * now run Ht.
Qed.

(** Whether a statement is about the row of one key. *)
Definition is_point (t : string) (where_ : option Expr) (set : list Assignment) (c : Conn) : bool :=
  match (isPointMutation db t where_ set (ses c) (wld c)).1 with Done b => b | _ => false end.

Lemma undone_delete_at st c c1 e c' : del_Returning st = [] -> tight (overlay (txdata (ses c))) -> inTx (ses c) = true ->
  is_Some (schemaTx (ses c)) -> storage (isPointMutation db (tr_Name (del_Table st)) (del_Where st) []) c = (Done true, c1) ->
  executeDelete db evs fuel fresh st c1 = (Fail_ e, c') -> kept c' = kept c.
Proof.
  intros Hr Ht Hin Htx Hp. assert (Hk : kept c1 = kept c).
  { pose proof (stillE_storage _ (keeps_still _ (keeps_point (tr_Name (del_Table st)) (del_Where st) [])) c) as Hk. now rewrite Hp in Hk. }
  assert (Ho : overlay (txdata (ses c1)) = overlay (txdata (ses c))) by (unfold kept, still in Hk; congruence).
  assert (Hi : inTx (ses c1) = inTx (ses c)) by (unfold kept, still in Hk; congruence).
  revert Hp. unfold storage at 1, isPointMutation. destruct (del_Where st) as [cond|] eqn:Ew; [|discriminate].
  destruct (extractIndexableCondition cond) as [[column v]|] eqn:Ex; [|discriminate].
  destruct (safePrimaryKeyLiteral v) eqn:Es; [|discriminate]. unfold mbind at 1, SM_bind at 1, attemptS.
  destruct (getSchemaLocked db (tr_Name (del_Table st)) (ses c) (wld c)) as [[sc|er|] [s1 w1]] eqn:Eg; try discriminate.
  apply schema_again in Eg; [|exact Htx]. intros [= Hb <-]. cbn [fst snd ses wld exec hub] in *.
  unfold executeDelete. cbv zeta. rewrite Hr, Ew. unfold mbind at 1, EM_bind at 1, storage at 1. cbn [ses wld fst snd exec hub]. rewrite Eg.
  cbv iota. cbn [fst snd]. assert (Hk' : point_key sc (Some cond) = Some (sprint v)).
  { unfold point_key. rewrite Ex, Es. apply andb_true_iff in Hb as [Hb _]. apply andb_true_iff in Hb as [-> ->]. reflexivity. }
  rewrite Hk'. cbn [is_empty_list negb]. intros E. rewrite <- Hk. revert E.
  eapply undoneE_bind; [apply stillE_getE|intros env|cbn; rewrite Ho; exact Ht|cbn; congruence].
  apply undoneE_then; [apply undone_delete_point|intros []; intros; apply finish_ends].
Qed.

(** *** The boundary *)

(** Whether a statement runs in a boundary that takes in everything it does. *)
Definition own_boundary (st : Statement) (c : Conn) : bool :=
  match st with
  | StInsert s => negb (is_empty_list (ins_Returning s))
  | StUpdate s => negb (is_empty_list (upd_Returning s)) || negb (is_point (tr_Name (upd_Table s)) (upd_Where s) (upd_Set s) c)
  | StDelete s => negb (is_empty_list (del_Returning s)) || negb (is_point (tr_Name (del_Table s)) (del_Where s) [] c)
  | _ => false
  end.

(** Nothing is left of it, or, outside a transaction, it was published while the connection to the store failed. *)
Definition no_trace (c c' : Conn) (err : error) (bounded : bool) : Prop :=
  if inTx (ses c)
  then counters (exec c') = counters (exec c) /\ store (wld c') = store (wld c) /\
       overlay (txdata (ses c')) = overlay (txdata (ses c)) /\ log (txdata (ses c')) = log (txdata (ses c))
  else bounded = true -> store (wld c') = store (wld c) \/
       exists s ke, published s (store (wld c)) (store (wld c')) /\ err = EKV ke.

Lemma no_trace_kept c c' err b : inTx (ses c) = true -> kept c' = kept c -> no_trace c c' err b.
Proof. intros Hin Hk. unfold no_trace. rewrite Hin. unfold kept, still in Hk. repeat split; congruence. Qed.

(** After a step that changed nothing. *)
Lemma no_trace_after c c1 c' err b : kept c1 = kept c -> no_trace c1 c' err b -> no_trace c c' err b.
Proof.
  intros Hk. unfold no_trace. unfold kept, still in Hk. assert (Hi : inTx (ses c1) = inTx (ses c)) by congruence. rewrite Hi.
  destruct (inTx (ses c)); [intros (Hc & Hs & Ho & Hl); repeat split; congruence|].
  intros Hn Hb. replace (store (wld c)) with (store (wld c1)) by congruence. now apply Hn.
Qed.

Lemma no_trace_atomically (m : EM DmlResult) c c' err b : only_stages m -> tight (overlay (txdata (ses c))) ->
  atomically db evs m c = (Fail_ err, c') -> no_trace c c' err b.
Proof.
  intros Hm Ht E. unfold no_trace. destruct (inTx (ses c)) eqn:Hin.
  - exact (mutation_inside db evs _ m c c' err Ht Hm Hin E).
  - intros _. exact (mutation_alone db evs _ m c c' err Hm Hin E).
Qed.

(** A statement that is run in a boundary unless it is about one key. *)
Lemma no_trace_point t where_ set (returns : bool) (m : EM DmlResult) c c' err : only_stages m ->
  tight (overlay (txdata (ses c))) ->
  (forall c1, inTx (ses c) = true -> returns = false -> storage (isPointMutation db t where_ set) c = (Done true, c1) ->
     kept c1 = kept c -> m c1 = (Fail_ err, c') -> kept c' = kept c) ->
  (point ← (if negb returns then storage (isPointMutation db t where_ set) else mret false);
   if point : bool then m else atomically db evs m) c = (Fail_ err, c') ->
  no_trace c c' err (returns || negb (is_point t where_ set c)).
Proof.
  intros Hm Ht Hp. unfold mbind at 1, EM_bind at 1. destruct returns; cbn [negb orb].
  { exact (no_trace_atomically m c c' err true Hm Ht). }
  pose proof (stillE_storage _ (keeps_still _ (keeps_point t where_ set)) c) as Hk.
  assert (Hs : (storage (isPointMutation db t where_ set) c).1 = (isPointMutation db t where_ set (ses c) (wld c)).1).
  { unfold storage. now destruct (isPointMutation _ _ _ _ _ _). }
  destruct (storage (isPointMutation db t where_ set) c) as [[[]|e|] c1] eqn:E; cbn [fst snd] in Hk, Hs.
  - intros E'. unfold is_point. rewrite <- Hs. cbn [negb]. unfold no_trace at 1. destruct (inTx (ses c)) eqn:Hin; [|discriminate].
    specialize (Hp c1 eq_refl eq_refl eq_refl Hk E'). pose proof (no_trace_kept c c' err true Hin Hp) as Hn. unfold no_trace in Hn.
    now rewrite Hin in Hn.
  - intros E'. apply (no_trace_after c c1); [exact Hk|]. apply no_trace_atomically with m; [exact Hm| |exact E'].
    unfold kept, still in Hk. replace (overlay (txdata (ses c1))) with (overlay (txdata (ses c))) by congruence. exact Ht.
  - exfalso. clear - Hs. unfold isPointMutation in Hs. symmetry in Hs. revert Hs. unfold mbind, SM_bind, attemptS, mret, SM_ret.
    repeat case_match; discriminate.
  - discriminate.
Qed.

(** C14: an INSERT, UPDATE or DELETE that fails leaves no trace, whatever it had done before it failed: rows inserted,
    conflicting rows replaced or updated, referential actions, a condition or a RETURNING that failed at the end.  In a
    transaction the staged rows, their log, the store and the counters that the client can ask for are as before the
    statement; outside, a statement with RETURNING, and an UPDATE or DELETE that is not about the row of one key, runs
    in a transaction of its own, and the store is as before it unless the connection to the store failed while the
    commit was on its way. *)
Theorem dml_all_or_nothing (st : Statement) (m : EM DmlResult) (c c' : Conn) (err : error) :
  tight (overlay (txdata (ses c))) -> (inTx (ses c) = true -> is_Some (schemaTx (ses c))) ->
  execute_dml db evs fuel fresh query st = Some m -> m c = (Fail_ err, c') ->
  no_trace c c' err (own_boundary st c).
Proof.
  intros Ht Htx Hm. destruct st; try discriminate Hm; injection Hm as <-; cbn [own_boundary].
  - destruct (is_empty_list (ins_Returning s)) eqn:Hr; intros E.
    + unfold no_trace. destruct (inTx (ses c)) eqn:Hin; [|discriminate].
      pose proof (undone_insert_statement s ltac:(now destruct (ins_Returning s)) c err c' Ht Hin E) as Hk.
      pose proof (no_trace_kept c c' err true Hin Hk) as Hn. unfold no_trace in Hn. now rewrite Hin in Hn.
    + exact (no_trace_atomically _ c c' err true (only_insert s) Ht E).
  - rewrite <- (negb_involutive (is_empty_list (upd_Returning s))) at 1.
    apply no_trace_point; [apply only_update|exact Ht|]. intros c1 Hin Hr _ Hk E. rewrite <- Hk.
    apply (undone_update s ltac:(now destruct (upd_Returning s)) c1 err c'); [| |exact E]; unfold kept, still in Hk.
    + replace (overlay (txdata (ses c1))) with (overlay (txdata (ses c))) by congruence. exact Ht.
    + congruence.
  - rewrite <- (negb_involutive (is_empty_list (del_Returning s))) at 1.
    apply no_trace_point; [apply only_delete|exact Ht|]. intros c1 Hin Hr Hp Hk E.
    apply (undone_delete_at s c c1 err c' ltac:(now destruct (del_Returning s)) Ht Hin (Htx Hin) Hp E).
Qed.
End Steps.

(** ** At work *)

#[local] Existing Instance no_foreign.
#[local] Existing Instance no_builtins.
#[local] Existing Instance no_relations.
#[local] Existing Instance ParserMonad.lexer_source.

Definition shop_column (name type : string) (nullable key : bool) : Column :=
  mkColumn name type nullable VNil EmptyString key EmptyString false.

(** Items, with an index on their codes, and a table whose columns may not be NULL. *)
Definition shop : list Schema :=
  [mkSchema "item" [shop_column "id" "INTEGER" false true; shop_column "code" "TEXT" true false;
                    shop_column "n" "INTEGER" true false] "id" [] 0 0 false [] [];
   mkSchema "duplicates" [shop_column "id" "INTEGER" false true; shop_column "v" "TEXT" false false] "id" [] 0 0 false [] []].

Definition shop_index (name : string) : Index :=
  mkIndex name "item" [mkIndexColumn "code" false EmptyString] true 0 EmptyString.

(** Records by their names. *)
#[local] Instance shop_json : Json := {|
  schema_json s := inl (bytes (Name s));
  schema_parse data := match find (fun s => Name s =s string_of data) shop with Some s => inl s | None => inr "no such record" end;
  index_json i := bytes (idx_Name i);
  index_parse data := inl (shop_index (string_of data));
  names_json l := bytes (Join l ",");
  names_parse data := inl (match data with [] => [] | _ => Split "," (string_of data) end) |}.

Definition shop_evaluators : Evaluators := mkEvaluators None None None.

(** The one query of the examples: the keys and the codes of the items. *)
Definition items_query (q : QueryRef) : SM Sorting.Result :=
  rows ← Select_s "db" "item" None;
  mret (Sorting.NewResult ["id"; "code"] [] (map (fun r => [get r "id"; get r "code"]) rows)).

Lemma items_query_reads q : KeepsOn still (items_query q).
Proof. unfold items_query. apply keeps_bind; [apply still_Select|intros; apply _]. Qed.

Definition dml_of (sql : string) : option (EM DmlResult) :=
  match Statements.parse_source Statements.Parse sql with
  | ParserMonad.Ok st _ => execute_dml "db" shop_evaluators 5 9 items_query st
  | _ => None
  end.

Definition run_dml (sql : string) (c : Conn) : outcome error DmlResult * Conn :=
  match dml_of sql with Some m => m c | None => (Panic, c) end.

Definition shop_conn : Conn :=
  let w := fold_left (fun w s => (CreateTable "db" s w).2) shop NewWorld in
  mkConn NewExecutor (NewSession 1) (CreateUniqueIndex "db" shop_evaluators (shop_index "item_code") w).2 (NewHub ∅).

Definition stocked : Conn := (run_dml "INSERT INTO item (code, n) VALUES ('a', 1), (NULL, 2)" shop_conn).2.

(** The codes are copied where none may be missing: the first row is staged when the second one fails. *)
Definition copy_text : string := "INSERT INTO duplicates (id, v) SELECT id, code FROM item".
Definition copy_insert : InsertStmt :=
  match Statements.parse_source Statements.Parse copy_text with
  | ParserMonad.Ok (StInsert s) _ => s
  | _ => mkInsertStmt (mkTableRef EmptyString EmptyString EmptyString None None None []) [] [] false None ConflictAbort [] [] false []
  end.
Definition insert_run (s : InsertStmt) : EM DmlResult :=
  if is_empty_list (ins_Returning s) then executeInsert "db" shop_evaluators 5 items_query s
  else atomically "db" shop_evaluators (executeInsert "db" shop_evaluators 5 items_query s).

Definition shop_transaction : Conn := (run_dml "UPDATE item SET n = 7 WHERE n = 1" (executeBegin stocked).2).2.

Lemma tight_by (o : gmap string (gmap string overlayEntry)) :
  forallb (fun te => negb (is_empty_list (map_to_list te.2))) (map_to_list o) = true -> tight o.
Proof.
  intros Hall t es Ht. rewrite forallb_forall in Hall. apply elem_of_map_to_list, list_elem_of_In, Hall in Ht.
  intros ->. cbn [snd] in Ht. rewrite map_to_list_empty in Ht. discriminate Ht.
Qed.

Lemma shop_tight : tight (overlay (txdata (ses shop_transaction))).
Proof. apply tight_by. vm_compute. reflexivity. Qed.

Lemma shop_catalogue : is_Some (schemaTx (ses shop_transaction)).
Proof.
  enough (Hs : match schemaTx (ses shop_transaction) with Some _ => true | None => false end = true).
  { destruct (schemaTx _); [eauto|discriminate]. }
  vm_compute. reflexivity.
Qed.

Lemma insert_runs s : execute_dml "db" shop_evaluators 5 9 items_query (StInsert s) = Some (insert_run s).
Proof. reflexivity. Qed.

Lemma outcome_is {A B} (p : A * B) a : p.1 = a -> p = (a, p.2).
Proof. destruct p. now intros <-. Qed.

Lemma copy_fails : (insert_run copy_insert shop_transaction).1 = Fail_ (NotNullViolation "duplicates" "v").
Proof. vm_compute. reflexivity. Qed.
Lemma shop_open : inTx (ses shop_transaction) = true.
Proof. vm_compute. reflexivity. Qed.
Lemma no_trace_rows c c' err b : inTx (ses c) = true -> no_trace c c' err b -> overlay (txdata (ses c')) = overlay (txdata (ses c)).
Proof. unfold no_trace. intros ->. tauto. Qed.

Lemma dml_all_or_nothing_witness :
  (insert_run copy_insert shop_transaction).1 = Fail_ (NotNullViolation "duplicates" "v") /\
  overlay (txdata (ses (insert_run copy_insert shop_transaction).2)) = overlay (txdata (ses shop_transaction)).
Proof.
  exact (conj copy_fails (no_trace_rows _ _ _ _ shop_open
    (dml_all_or_nothing "db" shop_evaluators 5 9 items_query items_query_reads (StInsert copy_insert) (insert_run copy_insert)
       shop_transaction _ _ shop_tight (fun _ => shop_catalogue) (insert_runs copy_insert) (outcome_is _ _ copy_fails)))).
Defined.

(** ** Where the code does not do what it means to *)

(** What a client sees of a statement: the rows affected, or the error. *)
Definition affected (r : outcome error DmlResult) : Z + string :=
  match r with Done d => inl (RowsAffected d) | Fail_ e => inr (error_text e) | Panic => inr EmptyString end.

Definition item_counts (c : Conn) : outcome error (list val) :=
  match (Select_s "db" "item" None (ses c) (wld c)).1 with
  | Done rows => Done (map (fun r => get r "n") rows)
  | Fail_ e => Fail_ e
  | Panic => Panic
  end.

(** NULL is no conflict for a unique index, but the upsert takes it for one: the row whose code is NULL is updated,
    where the statement means to insert another one. *)
Theorem upsert_takes_null_for_conflict :
  let r := run_dml "INSERT INTO item (code, n) VALUES (NULL, 5) ON CONFLICT (code) DO UPDATE SET n = 99" stocked in
  affected r.1 = inl 1%Z /\ item_counts r.2 = Done [VInt GoInt64 1; VInt GoInt64 99] /\
  item_counts (run_dml "INSERT INTO item (code, n) VALUES (NULL, 5)" stocked).2
    = Done [VInt GoInt64 1; VInt GoInt64 2; VInt GoInt64 5].
Proof. vm_compute. repeat split. Qed.

(** A conflict is known by words of the message, and the message has the name of the table: OR IGNORE passes over a
    missing value. *)
Theorem ignored_for_its_name :
  affected (run_dml "INSERT OR IGNORE INTO duplicates (id) VALUES (1)" shop_conn).1 = inl 0%Z /\
  affected (run_dml "INSERT INTO duplicates (id) VALUES (1)" shop_conn).1 = inr "NOT NULL constraint failed: duplicates.v".
Proof. vm_compute. repeat split. Qed.

(** Without a WHERE clause the condition of an UPDATE ... FROM is NULL, and no row is updated. *)
Theorem update_from_without_where :
  let c := (run_dml "INSERT INTO duplicates (id, v) VALUES (1, 'x')" stocked).2 in
  affected (run_dml "UPDATE item SET n = 7 FROM duplicates" c).1 = inl 0%Z /\
  affected (run_dml "UPDATE item SET n = 7 FROM duplicates WHERE 1 = 1" c).1 = inl 2%Z /\
  affected (run_dml "UPDATE item SET n = 7" c).1 = inl 2%Z.
Proof. vm_compute. repeat split. Qed.
