(* ===== verification/Analyzer.v ===== *)
(** * The semantic analyzer (pkg/analyzer/types.go, scope.go, analyzer.go)

    First the affinities and their two relations, the signatures of the functions, tables and their columns, the scopes
    in which names are resolved, and the catalogue.  Then the checks that a statement passes before it is executed:
    tables and columns exist, functions are known and called with a number of arguments they accept, operands have
    types that go together, aggregates stand where they may.  The analyzer holds the catalogue and the scope of the
    names; an expression is analyzed to its type and to what is known of it.

    A reference to a common table expression points at a query that it shares with the others, so the recursion into a
    shared query is by its address, to a given depth ([at_depth]). *)
From Stdlib Require Import NArith ZArith Lia Bool Ascii String List.
From stdpp Require Import base option list gmap strings.
From S2P Require Import Prelude Token Ast Bytes RowCodec Float Values Schema Arrays Eval Joins Select.
#[local] Open Scope string_scope.
#[local] Set Warnings "-register-all".

(** ** Errors *)

Inductive ErrorType : Set :=
  | ErrUnknown | ErrTableNotFound | ErrTableExists | ErrColumnNotFound | ErrColumnAmbiguous | ErrTypeMismatch
  | ErrInvalidFunction | ErrInvalidArgCount | ErrAggregateInWhere | ErrNonAggregateInSelect | ErrInvalidGroupBy.

#[export] Instance ErrorType_eq : EqDecision ErrorType.
Proof. solve_decision. Defined.

(** The lines, columns and contexts of these errors are never set. *)
Record AnalysisError : Set := mkAnalysisError { ae_Type : ErrorType; ae_Message : string }.

(** [AnalysisError.Error], where the line is 0. *)
Definition AnalysisError_Error (e : AnalysisError) : string := "analysis error: " ++ ae_Message e.

(** ** Types *)

Inductive SqlType : Set :=
  | TypeUnknown | TypeNull | TypeInteger | TypeReal | TypeText | TypeBlob | TypeNumeric | TypeBoolean | TypeAny
  | TypeJSONB.

#[export] Instance SqlType_eq : EqDecision SqlType.
Proof. solve_decision. Defined.

Definition all_types : list SqlType :=
  [TypeUnknown; TypeNull; TypeInteger; TypeReal; TypeText; TypeBlob; TypeNumeric; TypeBoolean; TypeAny; TypeJSONB].

Definition type_in (t : SqlType) (l : list SqlType) : bool := existsb (fun u => bool_decide (t = u)) l.

Definition Type_String (t : SqlType) : string :=
  match t with
  | TypeUnknown => "UNKNOWN" | TypeNull => "NULL" | TypeInteger => "INTEGER" | TypeReal => "REAL"
  | TypeText => "TEXT" | TypeBlob => "BLOB" | TypeNumeric => "NUMERIC" | TypeBoolean => "BOOLEAN"
  | TypeAny => "ANY" | TypeJSONB => "JSONB"
  end.

Definition TypeFromName (name : string) : SqlType :=
  let upper := ToUpper (TrimSpace name) in
  let upper := default upper (cut_suffix "[]" upper) in
  let has part := contains_text upper part in
  if upper =s "JSONB" then TypeJSONB
  else if has "INT" then TypeInteger
  else if has "CHAR" || has "CLOB" || has "TEXT" then TypeText
  else if upper =s "UUID" then TypeText
  else if has "BLOB" || (upper =s EmptyString) then TypeBlob
  else if has "REAL" || has "FLOA" || has "DOUB" then TypeReal
  else if name_in upper ["BOOLEAN"; "BOOL"] then TypeBoolean
  else TypeNumeric.

Definition IsNumeric (t : SqlType) : bool := type_in t [TypeInteger; TypeReal; TypeNumeric; TypeBoolean].

Definition is_text_or_blob (t : SqlType) : bool := type_in t [TypeText; TypeBlob].

Definition json_text_like (t : SqlType) : bool := type_in t [TypeJSONB; TypeText; TypeBlob; TypeNull; TypeAny].

(** Dates are stored as text in numeric columns. *)
Definition holds_text (t : SqlType) : bool := type_in t [TypeNumeric; TypeBoolean].

Definition IsComparable (t other : SqlType) : bool :=
  if bool_decide (t = TypeNull) || bool_decide (other = TypeNull) then true
  else if bool_decide (t = TypeAny) || bool_decide (other = TypeAny) then true
  else if bool_decide (t = other) then true
  else if IsNumeric t && IsNumeric other then true
  else if is_text_or_blob t && is_text_or_blob other then true
  else if bool_decide (t = TypeJSONB) || bool_decide (other = TypeJSONB) then json_text_like t && json_text_like other
  else if holds_text t && is_text_or_blob other then true
  else holds_text other && is_text_or_blob t.

Definition CommonType (a b : SqlType) : SqlType :=
  if bool_decide (a = TypeUnknown) then b
  else if bool_decide (b = TypeUnknown) then a
  else if bool_decide (a = TypeNull) then b
  else if bool_decide (b = TypeNull) then a
  else if bool_decide (a = TypeAny) then b
  else if bool_decide (b = TypeAny) then a
  else if bool_decide (a = b) then a
  else if IsNumeric a && IsNumeric b then
    if bool_decide (a = TypeReal) || bool_decide (b = TypeReal) then TypeReal
    else if bool_decide (a = TypeNumeric) || bool_decide (b = TypeNumeric) then TypeNumeric
    else TypeInteger
  else if is_text_or_blob a && is_text_or_blob b then TypeText
  else if bool_decide (a = TypeJSONB) && is_text_or_blob b then TypeJSONB
  else if bool_decide (b = TypeJSONB) && is_text_or_blob a then TypeJSONB
  else TypeText.

(** ** Functions *)

(** [fs_MaxArgs] is -1 for any number of arguments. *)
Record FunctionSignature : Set := mkSignature {
  fs_Name : string; fs_MinArgs : Z; fs_MaxArgs : Z; fs_ArgTypes : list SqlType; fs_ReturnType : SqlType;
  fs_IsAggregate : bool }.

Definition builtinFunctions : list FunctionSignature :=
  [mkSignature "COUNT" 0 1 [TypeAny] TypeInteger true;
   mkSignature "SUM" 1 1 [TypeNumeric] TypeNumeric true;
   mkSignature "AVG" 1 1 [TypeNumeric] TypeReal true;
   mkSignature "MIN" 1 1 [TypeAny] TypeAny true;
   mkSignature "MAX" 1 1 [TypeAny] TypeAny true;
   mkSignature "TOTAL" 1 1 [TypeNumeric] TypeReal true;
   mkSignature "GROUP_CONCAT" 1 2 [TypeAny; TypeText] TypeText true;
   mkSignature "STRING_AGG" 1 2 [TypeAny; TypeText] TypeText true;
   mkSignature "LENGTH" 1 1 [TypeText] TypeInteger false;
   mkSignature "UPPER" 1 1 [TypeText] TypeText false;
   mkSignature "LOWER" 1 1 [TypeText] TypeText false;
   mkSignature "TRIM" 1 1 [TypeText] TypeText false;
   mkSignature "LTRIM" 1 2 [TypeText; TypeText] TypeText false;
   mkSignature "RTRIM" 1 2 [TypeText; TypeText] TypeText false;
   mkSignature "SUBSTR" 2 3 [TypeText; TypeInteger; TypeInteger] TypeText false;
   mkSignature "REPLACE" 3 3 [TypeText; TypeText; TypeText] TypeText false;
   mkSignature "INSTR" 2 2 [TypeText; TypeText] TypeInteger false;
   mkSignature "PRINTF" 1 (-1) [TypeText] TypeText false;
   mkSignature "CONCAT" 1 (-1) [TypeAny] TypeText false;
   mkSignature "CONCAT_WS" 2 (-1) [TypeText; TypeAny] TypeText false;
   mkSignature "ABS" 1 1 [TypeNumeric] TypeNumeric false;
   mkSignature "ROUND" 1 2 [TypeNumeric; TypeInteger] TypeNumeric false;
   mkSignature "CEIL" 1 1 [TypeNumeric] TypeInteger false;
   mkSignature "FLOOR" 1 1 [TypeNumeric] TypeInteger false;
   mkSignature "MOD" 2 2 [TypeInteger; TypeInteger] TypeInteger false;
   mkSignature "RANDOM" 0 0 [] TypeInteger false;
   mkSignature "COALESCE" 1 (-1) [TypeAny] TypeAny false;
   mkSignature "NULLIF" 2 2 [TypeAny; TypeAny] TypeAny false;
   mkSignature "IFNULL" 2 2 [TypeAny; TypeAny] TypeAny false;
   mkSignature "IIF" 3 3 [TypeBoolean; TypeAny; TypeAny] TypeAny false;
   mkSignature "ARRAY_LENGTH" 2 2 [TypeAny; TypeInteger] TypeInteger false;
   mkSignature "UNNEST" 1 1 [TypeAny] TypeAny false;
   mkSignature "TYPEOF" 1 1 [TypeAny] TypeText false;
   mkSignature "CAST" 1 1 [TypeAny] TypeAny false;
   mkSignature "DATE" 0 (-1) [TypeAny] TypeText false;
   mkSignature "TIME" 0 (-1) [TypeAny] TypeText false;
   mkSignature "DATETIME" 0 (-1) [TypeAny] TypeText false;
   mkSignature "JULIANDAY" 0 (-1) [TypeAny] TypeReal false;
   mkSignature "UNIXEPOCH" 0 (-1) [TypeAny] TypeInteger false;
   mkSignature "STRFTIME" 1 (-1) [TypeText; TypeAny] TypeText false;
   mkSignature "TIMEDIFF" 2 2 [TypeAny; TypeAny] TypeText false;
   mkSignature "SQLITE_VERSION" 0 0 [] TypeText false;
   mkSignature "PIZZASQL_VERSION" 0 0 [] TypeText false;
   mkSignature "PIZZASQL_PARAM" 1 1 [TypeAny] TypeAny false;
   mkSignature "PG_BACKEND_PID" 0 0 [] TypeInteger false;
   mkSignature "VERSION" 0 0 [] TypeText false;
   mkSignature "CURRENT_SCHEMA" 0 0 [] TypeText false;
   mkSignature "CURRENT_DATABASE" 0 0 [] TypeText false;
   mkSignature "CURRENT_SETTING" 1 2 [TypeText; TypeBoolean] TypeText false;
   mkSignature "FORMAT_TYPE" 1 2 [TypeAny; TypeInteger] TypeText false;
   mkSignature "PG_TABLE_IS_VISIBLE" 1 1 [TypeAny] TypeBoolean false;
   mkSignature "PG_GET_INDEXDEF" 1 3 [TypeAny; TypeAny; TypeBoolean] TypeText false;
   mkSignature "PG_GET_CONSTRAINTDEF" 1 2 [TypeAny; TypeBoolean] TypeText false;
   mkSignature "PG_GET_EXPR" 1 3 [TypeAny; TypeAny; TypeBoolean] TypeText false;
   mkSignature "PG_GET_SERIAL_SEQUENCE" 2 2 [TypeText; TypeText] TypeText false;
   mkSignature "OBJ_DESCRIPTION" 1 2 [TypeAny; TypeText] TypeText false;
   mkSignature "COL_DESCRIPTION" 2 2 [TypeAny; TypeInteger] TypeText false;
   mkSignature "HAS_TABLE_PRIVILEGE" 2 3 [TypeAny; TypeText; TypeText] TypeBoolean false;
   mkSignature "PG_GET_USERBYID" 1 1 [TypeAny] TypeText false;
   mkSignature "TO_REGCLASS" 1 1 [TypeText] TypeAny false;
   mkSignature "TO_REGTYPE" 1 1 [TypeText] TypeAny false;
   mkSignature "LAST_INSERT_ROWID" 0 0 [] TypeInteger false;
   mkSignature "CHANGES" 0 0 [] TypeInteger false;
   mkSignature "TOTAL_CHANGES" 0 0 [] TypeInteger false;
   mkSignature "HEX" 1 1 [TypeBlob] TypeText false;
   mkSignature "UNHEX" 1 1 [TypeText] TypeBlob false;
   mkSignature "ZEROBLOB" 1 1 [TypeInteger] TypeBlob false;
   mkSignature "QUOTE" 1 1 [TypeAny] TypeText false;
   mkSignature "PERCENT_DIFF" 2 2 [TypeNumeric; TypeNumeric] TypeReal false;
   mkSignature "JSON" 1 1 [TypeAny] TypeText false;
   mkSignature "JSONB" 1 1 [TypeAny] TypeText false;
   mkSignature "JSON_VALID" 1 1 [TypeAny] TypeInteger false;
   mkSignature "JSONB_VALID" 1 1 [TypeAny] TypeInteger false;
   mkSignature "JSON_TYPE" 1 2 [TypeAny; TypeText] TypeText false;
   mkSignature "JSON_EXTRACT" 2 (-1) [TypeAny; TypeText] TypeAny false;
   mkSignature "JSONB_EXTRACT" 2 (-1) [TypeAny; TypeText] TypeAny false;
   mkSignature "JSON_SET" 3 (-1) [TypeAny; TypeText; TypeAny] TypeText false;
   mkSignature "JSONB_SET" 3 (-1) [TypeAny; TypeText; TypeAny] TypeJSONB false;
   mkSignature "JSON_INSERT" 3 (-1) [TypeAny; TypeText; TypeAny] TypeText false;
   mkSignature "JSONB_INSERT" 3 (-1) [TypeAny; TypeText; TypeAny] TypeJSONB false;
   mkSignature "JSON_REPLACE" 3 (-1) [TypeAny; TypeText; TypeAny] TypeText false;
   mkSignature "JSONB_REPLACE" 3 (-1) [TypeAny; TypeText; TypeAny] TypeJSONB false;
   mkSignature "JSON_REMOVE" 2 (-1) [TypeAny; TypeText] TypeText false;
   mkSignature "JSONB_REMOVE" 2 (-1) [TypeAny; TypeText] TypeJSONB false;
   mkSignature "JSON_ARRAY" 0 (-1) [TypeAny] TypeText false;
   mkSignature "JSON_ARRAY_LENGTH" 1 2 [TypeAny; TypeText] TypeInteger false;
   mkSignature "JSONB_ARRAY" 0 (-1) [TypeAny] TypeText false;
   mkSignature "JSON_OBJECT" 0 (-1) [TypeAny] TypeText false;
   mkSignature "JSONB_OBJECT" 0 (-1) [TypeAny] TypeText false;
   mkSignature "JSON_QUOTE" 1 1 [TypeAny] TypeText false;
   mkSignature "JSONB_QUOTE" 1 1 [TypeAny] TypeText false;
   mkSignature "JSON_GROUP_ARRAY" 1 1 [TypeAny] TypeText true;
   mkSignature "JSONB_GROUP_ARRAY" 1 1 [TypeAny] TypeText true;
   mkSignature "TO_JSONB" 1 1 [TypeAny] TypeJSONB false;
   mkSignature "JSONB_TYPEOF" 1 1 [TypeAny] TypeText false;
   mkSignature "JSONB_ARRAY_LENGTH" 1 1 [TypeAny] TypeInteger false;
   mkSignature "JSONB_STRIP_NULLS" 1 1 [TypeAny] TypeJSONB false;
   mkSignature "JSONB_PRETTY" 1 1 [TypeAny] TypeText false;
   mkSignature "JSONB_BUILD_OBJECT" 0 (-1) [TypeAny] TypeJSONB false;
   mkSignature "JSONB_BUILD_ARRAY" 0 (-1) [TypeAny] TypeJSONB false;
   mkSignature "JSONB_EACH" 1 1 [TypeAny] TypeAny false;
   mkSignature "JSONB_EACH_TEXT" 1 1 [TypeAny] TypeAny false;
   mkSignature "JSONB_ARRAY_ELEMENTS" 1 1 [TypeAny] TypeAny false;
   mkSignature "JSONB_ARRAY_ELEMENTS_TEXT" 1 1 [TypeAny] TypeAny false;
   mkSignature "JSONB_OBJECT_KEYS" 1 1 [TypeAny] TypeText false;
   mkSignature "JSONB_PATH_EXISTS" 2 (-1) [TypeAny] TypeBoolean false;
   mkSignature "JSONB_PATH_EXISTS_TZ" 2 (-1) [TypeAny] TypeBoolean false;
   mkSignature "JSONB_PATH_MATCH" 2 (-1) [TypeAny] TypeBoolean false;
   mkSignature "JSONB_PATH_MATCH_TZ" 2 (-1) [TypeAny] TypeBoolean false;
   mkSignature "JSONB_PATH_QUERY" 2 (-1) [TypeAny] TypeAny false;
   mkSignature "JSONB_PATH_QUERY_TZ" 2 (-1) [TypeAny] TypeAny false;
   mkSignature "JSONB_PATH_QUERY_ARRAY" 2 (-1) [TypeAny] TypeAny false;
   mkSignature "JSONB_PATH_QUERY_ARRAY_TZ" 2 (-1) [TypeAny] TypeAny false;
   mkSignature "JSONB_PATH_QUERY_FIRST" 2 (-1) [TypeAny] TypeAny false;
   mkSignature "JSONB_PATH_QUERY_FIRST_TZ" 2 (-1) [TypeAny] TypeAny false]%Z.

(** The entry of a name: the names of the table are its keys. *)
Definition builtin (name : string) : option FunctionSignature :=
  find (fun f => fs_Name f =s name) builtinFunctions.

Definition LookupFunction (name : string) : option FunctionSignature := builtin (ToUpper name).

Definition IsAggregateFunction (name : string) : bool :=
  match LookupFunction name with Some f => fs_IsAggregate f | None => false end.

(** ** Columns and tables *)

Record ColumnInfo : Set := mkColumnInfo {
  ai_Name : string; ai_Type : SqlType; ai_Nullable : bool; ai_PrimaryKey : bool; ai_Default : option Expr;
  ai_TableName : string; ai_Generated : bool; ai_Array : bool }.

(** A column of which only the name, the table and the type are set. *)
Definition bare_column (name table : string) (type_ : SqlType) : ColumnInfo :=
  mkColumnInfo name type_ false false None table false false.

Record TableInfo : Set := mkTableInfo {
  ti_Name : string; ti_Columns : list ColumnInfo; ti_Alias : string; ti_IsView : bool }.

(** A view has every column. *)
Definition GetColumn (t : TableInfo) (name : string) : option ColumnInfo :=
  if ti_IsView t then Some (bare_column name (ti_Name t) TypeAny)
  else find (fun c => ToUpper (ai_Name c) =s ToUpper name) (ti_Columns t).

Record ExprInfo : Set := mkExprInfo {
  ei_Type : SqlType; ei_IsAggregate : bool; ei_IsConstant : bool; ei_Nullable : bool; ei_Array : bool }.

Definition ToAnalyzerTableInfo `{Dynamic} (s : Schema) : TableInfo :=
  mkTableInfo (Name s)
    (map (fun c => mkColumnInfo (col_Name c) (TypeFromName (col_Type c)) (Nullable c) (col_PrimaryKey c) None (Name s)
                     (negb (GeneratedExpr c =s EmptyString))
                     match cut_suffix "[]" (ToUpper (TrimSpace (col_Type c))) with Some _ => true | None => false end)
       (Columns s)) EmptyString false.

(** ** Scopes *)

(** A scope is a frame and the scope around it.  [tables] has a table under its name and under its alias;
    [columns] has the columns of the tables and the aliases of the projection. *)
Inductive Scope : Type :=
  | mkScope (parent : option Scope) (tables : gmap string TableInfo) (columns : gmap string ColumnInfo).

Definition parent (s : Scope) : option Scope := match s with mkScope p _ _ => p end.
Definition tables (s : Scope) : gmap string TableInfo := match s with mkScope _ t _ => t end.
Definition columns (s : Scope) : gmap string ColumnInfo := match s with mkScope _ _ c => c end.

Definition NewScope (parent : option Scope) : Scope := mkScope parent ∅ ∅.

Definition add_columns (cols : list ColumnInfo) (m : gmap string ColumnInfo) : gmap string ColumnInfo :=
  fold_left (fun m c => <[ToUpper (ai_Name c) := c]> m) cols m.

Definition DefineTable (info : TableInfo) (s : Scope) : Scope :=
  let t := <[ToUpper (ti_Name info) := info]> (tables s) in
  let t := if ti_Alias info =s EmptyString then t else <[ToUpper (ti_Alias info) := info]> t in
  mkScope (parent s) t (add_columns (ti_Columns info) (columns s)).

Definition DefineSelectAlias (alias : string) (type_ : SqlType) (s : Scope) : Scope :=
  mkScope (parent s) (tables s) (<[ToUpper alias := bare_column alias EmptyString type_]> (columns s)).

Fixpoint LookupTable (s : Scope) (name : string) : option TableInfo :=
  match s with
  | mkScope parent tables _ =>
      match tables !! ToUpper name with
      | Some t => Some t
      | None => match parent with Some p => LookupTable p name | None => None end
      end
  end.

(** The tables of a frame with a column of a name, one for every key of the map. *)
Definition tables_with (column : string) (m : gmap string TableInfo) : list (ColumnInfo * TableInfo) :=
  omap (fun kt => c ← GetColumn kt.2 column; Some (c, kt.2)) (map_to_list m).

(** An unqualified column: the frame's own columns, then a search of its tables, then the scope around. *)
Fixpoint lookup_unqualified (s : Scope) (column : string) : option (ColumnInfo * option TableInfo) :=
  match s with
  | mkScope parent tables columns =>
      match columns !! ToUpper column with
      | Some c => Some (c, snd <$> hd_error (tables_with column tables))
      | None =>
          match tables_with column tables with
          | [] => match parent with Some p => lookup_unqualified p column | None => None end
          | [(c, t)] => Some (c, Some t)
          | _ => None
          end
      end
  end.

Definition LookupColumn (s : Scope) (tableName columnName : string) : option (ColumnInfo * option TableInfo) :=
  if tableName =s EmptyString then lookup_unqualified s columnName
  else t ← LookupTable s tableName; c ← GetColumn t columnName; Some (c, Some t).

(** The first of the elements with a key that was not seen before. *)
Fixpoint first_of_each {A} (key : A -> string) (seen : gset string) (l : list A) : list A :=
  match l with
  | [] => []
  | x :: r => if bool_decide (key x ∈ seen) then first_of_each key seen r
              else x :: first_of_each key ({[key x]} ∪ seen) r
  end.

Definition GetAllColumns (s : Scope) : list ColumnInfo :=
  map snd (first_of_each (fun tc => ToUpper (ti_Name tc.1 ++ "." ++ ai_Name tc.2)) ∅
    (concat (map (fun kt => map (pair kt.2) (ti_Columns kt.2)) (map_to_list (tables s))))).

(** [Scope.GetTables] *)
Definition scope_tables (s : Scope) : list TableInfo :=
  first_of_each (fun t => ToUpper (ti_Name t)) ∅ (map snd (map_to_list (tables s))).

(** ** The catalogue *)

Abbreviation Catalog := (gmap string TableInfo).

Definition table_exists (name : string) : AnalysisError :=
  mkAnalysisError ErrTableExists ("table already exists: " ++ name).
Definition table_not_found (name : string) : AnalysisError :=
  mkAnalysisError ErrTableNotFound ("table not found: " ++ name).

(** [Catalog.CreateTable] and [Catalog.DropTable]: the catalogue after them, or an error and no change. *)
Definition catalog_create (info : TableInfo) (c : Catalog) : Catalog + AnalysisError :=
  match c !! ToUpper (ti_Name info) with
  | Some _ => inr (table_exists (ti_Name info))
  | None => inl (<[ToUpper (ti_Name info) := info]> c)
  end.

Definition catalog_drop (name : string) (c : Catalog) : Catalog + AnalysisError :=
  match c !! ToUpper name with
  | Some _ => inl (delete (ToUpper name) c)
  | None => inr (table_not_found name)
  end.

Definition catalog_table (c : Catalog) (name : string) : option TableInfo := c !! ToUpper name.

(** [Catalog.GetTables], [Catalog.TableExists] *)
Definition catalog_tables (c : Catalog) : list TableInfo := map snd (map_to_list c).

Definition TableExists (c : Catalog) (name : string) : bool :=
  match catalog_table c name with Some _ => true | None => false end.

(** ** The semantic analyzer (pkg/analyzer/analyzer.go) *)

(** ** Analysis as a computation on the state of the analyzer *)

(** The errors of the analyzer, and the one that column aliases of a table reference may give. *)
Inductive analysis_error : Set :=
  | Analysis (e : AnalysisError)
  | BadAliases (e : Ast.error).

(** [TooDeep] is the recursion into shared queries at the end of its depth. *)
Inductive answer (A : Type) : Type :=
  | Accept (a : A)
  | Reject (e : analysis_error)
  | TooDeep.
Arguments Accept {A} _.
Arguments Reject {A} _.
Arguments TooDeep {A}.

Record Analyzer : Type := mkAnalyzer { catalog : Catalog; scope : Scope }.

Definition AM (A : Type) : Type := Analyzer -> answer A * Analyzer.

#[export] Instance AM_ret : MRet AM := fun A a s => (Accept a, s).
#[export] Instance AM_bind : MBind AM := fun A B k m s =>
  match m s with
  | (Accept a, s) => k a s
  | (Reject e, s) => (Reject e, s)
  | (TooDeep, s) => (TooDeep, s)
  end.

Definition accept {A} (a : A) : AM A := mret a.
Definition reject {A} (t : ErrorType) (message : string) : AM A :=
  fun s => (Reject (Analysis (mkAnalysisError t message)), s).
Definition too_deep {A} : AM A := fun s => (TooDeep, s).

Definition read_state {A} (f : Analyzer -> A) : AM A := fun s => (Accept (f s), s).
Definition in_scope_of (f : Scope -> Scope) : AM () := fun s => (Accept (), mkAnalyzer (catalog s) (f (scope s))).

(** [info, err := ...], where the error is looked at and dropped. *)
Definition attempt_ {A} (m : AM A) : AM (option A) := fun s =>
  match m s with
  | (Accept a, s) => (Accept (Some a), s)
  | (Reject _, s) => (Accept None, s)
  | (TooDeep, s) => (TooDeep, s)
  end.

(** [oldScope := a.scope; a.scope = s; ...; a.scope = oldScope] *)
Definition within {A} (f : Scope -> Scope) (m : AM A) : AM A := fun s =>
  let (r, s') := m (mkAnalyzer (catalog s) (f (scope s))) in (r, mkAnalyzer (catalog s') (scope s)).

Section Loops.
Context {A B : Type} (f : A -> AM B).

Fixpoint each_ (l : list A) : AM () :=
  match l with [] => accept () | x :: r => _ ← f x; each_ r end.

Fixpoint infos (l : list A) : AM (list B) :=
  match l with [] => accept [] | x :: r => i ← f x; rest ← infos r; accept (i :: rest) end.

Definition maybe_ (o : option A) : AM (option B) :=
  match o with None => accept None | Some x => i ← f x; accept (Some i) end.
End Loops.

(** ** What is known of an expression *)

Definition unknown_info : ExprInfo := mkExprInfo TypeUnknown false false false false.
Definition of_type (t : SqlType) : ExprInfo := mkExprInfo t false false false false.

Definition any_aggregate (l : list ExprInfo) : bool := existsb ei_IsAggregate l.
Definition any_nullable (l : list ExprInfo) : bool := existsb ei_Nullable l.

Definition analyzeLiteral (t : TokenType) (value : string) : ExprInfo :=
  let known t nullable := mkExprInfo t false true nullable false in
  match t with
  | TokenNumber => known (if contains_text value "." || contains_text (ToLower value) "e" then TypeReal else TypeInteger) false
  | TokenString => known TypeText false
  | TokenBlob => known TypeBlob false
  | TokenNULL => known TypeNull true
  | TokenTRUE | TokenFALSE => known TypeBoolean false
  | TokenStar => known TypeAny false
  | _ => known TypeUnknown false
  end.

Definition isRowIDAlias (name : string) : bool := name_in (ToLower name) ["rowid"; "oid"; "_rowid_"].

Definition formatColumnRef (table column : string) : string :=
  if table =s EmptyString then column else table ++ "." ++ column.

Definition column_missing {A} (table column : string) : AM A :=
  reject ErrColumnNotFound ("column not found: " ++ formatColumnRef table column).

Definition analyzeColumnRef (table column : string) : AM ExprInfo :=
  s ← read_state scope;
  match LookupColumn s table column with
  | Some (c, _) => accept (mkExprInfo (ai_Type c) false false (ai_Nullable c) (ai_Array c))
  | None =>
      if is_empty_list (scope_tables s) then accept unknown_info
      else if isRowIDAlias column then
        if negb (table =s EmptyString) && is_none (LookupTable s table) then column_missing table column
        else accept (of_type TypeInteger)
      else column_missing table column
  end.

(** *** Operators *)

Definition arrayLiteralComparison (left right : ExprInfo) : bool :=
  let textCoercible i := type_in (ei_Type i) [TypeText; TypeUnknown; TypeNull; TypeAny] in
  (ei_Array left && textCoercible right) || (ei_Array right && textCoercible left).

Definition comparisonTypesCompatible (left right : ExprInfo) : bool :=
  if ei_Array left || ei_Array right then (ei_Array left && ei_Array right) || arrayLiteralComparison left right
  else IsComparable (ei_Type left) (ei_Type right).

Definition jsonbTextOperand (t : SqlType) : bool :=
  type_in t [TypeJSONB; TypeText; TypeBlob; TypeNull; TypeUnknown; TypeAny].

(** An operand that arithmetic takes: a number, or a value whose type is not known. *)
Definition arithmetic_operand (t : SqlType) : bool :=
  IsNumeric t || type_in t [TypeNull; TypeUnknown; TypeAny].

Definition mismatch (message : string) : SqlType + AnalysisError := inr (mkAnalysisError ErrTypeMismatch message).

Definition arithmetic_result (left right : SqlType) : SqlType + AnalysisError :=
  if arithmetic_operand left then inl (CommonType left right)
  else mismatch ("arithmetic operator requires numeric type, got " ++ Type_String left).

Definition is_jsonb (t : SqlType) : bool := bool_decide (t = TypeJSONB).

Definition jsonb_or_any (left : SqlType) : SqlType := if is_jsonb left then TypeJSONB else TypeAny.

Definition bitwise_result (left right : SqlType) : SqlType + AnalysisError :=
  match find (fun t => negb (arithmetic_operand t)) [left; right] with
  | Some t => mismatch ("bitwise operator requires numeric type, got " ++ Type_String t)
  | None => inl TypeInteger
  end.

Definition concat_result (left right : SqlType) : SqlType + AnalysisError :=
  if is_jsonb left || is_jsonb right then
    let other := if is_jsonb left then right else left in
    if jsonbTextOperand other then inl TypeJSONB
    else mismatch ("jsonb concatenation requires a jsonb or text operand, got " ++ Type_String other)
  else inl TypeText.

Definition containment_result (left right : ExprInfo) : SqlType + AnalysisError :=
  let (l, r) := (ei_Type left, ei_Type right) in
  if ei_Array left || ei_Array right then
    if comparisonTypesCompatible left right then inl TypeBoolean
    else mismatch ("array containment requires two arrays, got " ++ Type_String l ++ " and " ++ Type_String r)
  else if negb (jsonbTextOperand l) || negb (jsonbTextOperand r)
       then mismatch ("jsonb containment requires jsonb or text operands, got " ++ Type_String l ++ " and " ++ Type_String r)
       else inl TypeBoolean.

Definition minus_result (left right : SqlType) : SqlType + AnalysisError :=
  if is_jsonb left then
    if is_jsonb right
    then mismatch "jsonb deletion requires a text key, integer index, or text[] path, not a jsonb operand"
    else inl TypeJSONB
  else if is_jsonb right then mismatch "cannot subtract JSONB from a non-jsonb value"
  else arithmetic_result left right.

Definition comparison_result (left right : ExprInfo) : SqlType + AnalysisError :=
  if comparisonTypesCompatible left right then inl TypeBoolean
  else mismatch ("cannot compare " ++ Type_String (ei_Type left) ++ " with " ++ Type_String (ei_Type right)).

(** The type of a binary operator by what is known of its operands. *)
Definition binary_result (op : TokenType) (left right : ExprInfo) : SqlType + AnalysisError :=
  let (l, r) := (ei_Type left, ei_Type right) in
  match op with
  | TokenMinus => minus_result l r
  | TokenPlus | TokenStar | TokenSlash | TokenPercent => arithmetic_result l r
  | TokenEq | TokenNeq | TokenLt | TokenLte | TokenGt | TokenGte => comparison_result left right
  | TokenBitAnd | TokenBitOr | TokenShiftLeft | TokenShiftRight => bitwise_result l r
  | TokenAND | TokenOR | TokenQuestion | TokenQuestionPipe | TokenQuestionAmp => inl TypeBoolean
  | TokenConcat => concat_result l r
  | TokenArrow | TokenHashArrow | TokenHashMinus => inl (jsonb_or_any l)
  | TokenArrowText => inl TypeAny
  | TokenHashArrowText => inl TypeText
  | TokenAtArrow | TokenLtAt => containment_result left right
  | _ => inl TypeUnknown
  end.

Definition unary_result (op : TokenType) (operand : SqlType) : SqlType + AnalysisError :=
  match op with
  | TokenMinus =>
      if IsNumeric operand || type_in operand [TypeNull; TypeUnknown] then inl operand
      else mismatch ("unary - requires numeric type, got " ++ Type_String operand)
  | TokenNOT => inl TypeBoolean
  | TokenBitNot => inl TypeInteger
  | _ => inl operand
  end.

(** The result of a check: a type, with what else is known, or the error. *)
Definition checked_info (r : SqlType + AnalysisError) (k : SqlType -> ExprInfo) : AM ExprInfo :=
  match r with
  | inl t => accept (k t)
  | inr e => fun s => (Reject (Analysis e), s)
  end.

Definition analyze_binary (op : TokenType) (left right : ExprInfo) : AM ExprInfo :=
  checked_info (binary_result op left right) (fun t =>
    mkExprInfo t (any_aggregate [left; right]) (ei_IsConstant left && ei_IsConstant right)
      (any_nullable [left; right]) false).

Definition analyze_unary (op : TokenType) (operand : ExprInfo) : AM ExprInfo :=
  checked_info (unary_result op (ei_Type operand)) (fun t =>
    mkExprInfo t (ei_IsAggregate operand) (ei_IsConstant operand) (ei_Nullable operand) false).

(** *** Calls *)

Definition isPolymorphicFunction (name : string) : bool :=
  name_in (ToUpper name) ["MIN"; "MAX"; "COALESCE"; "IFNULL"; "NVL"; "NULLIF"; "IIF"; "PIZZASQL_PARAM"].

(** The signature of a call with a number of arguments that it accepts. *)
Definition check_call (name : string) (argCount : Z) : AM FunctionSignature :=
  match LookupFunction name with
  | None => reject ErrInvalidFunction ("unknown function: " ++ name)
  | Some sig =>
      if (argCount <? fs_MinArgs sig)%Z then
        reject ErrInvalidArgCount ("function " ++ name ++ " requires at least " ++ itoaZ (fs_MinArgs sig)
                                   ++ " arguments, got " ++ itoaZ argCount)
      else if (0 <=? fs_MaxArgs sig)%Z && (fs_MaxArgs sig <? argCount)%Z then
        reject ErrInvalidArgCount ("function " ++ name ++ " accepts at most " ++ itoaZ (fs_MaxArgs sig)
                                   ++ " arguments, got " ++ itoaZ argCount)
      else accept sig
  end.

Definition call_info (sig : FunctionSignature) (args : list ExprInfo) : ExprInfo :=
  mkExprInfo (fs_ReturnType sig) (fs_IsAggregate sig || any_aggregate args) false (any_nullable args) false.

(** The type follows the first argument, where it is known. *)
Definition follow_argument (info : ExprInfo) (arg : option ExprInfo) : ExprInfo :=
  match arg with
  | Some a => mkExprInfo (ei_Type a) (ei_IsAggregate info) (ei_IsConstant info) (ei_Nullable a) (ei_Array a)
  | None => info
  end.

(** *** Arrays, subscripts, CASE *)

Definition array_info (elements : list ExprInfo) : ExprInfo :=
  mkExprInfo (fold_left (fun t i => if bool_decide (ei_Type i = TypeNull) then t else ei_Type i) elements TypeUnknown)
    (any_aggregate elements) false (any_nullable elements) true.

Definition subscript_info (array index : ExprInfo) : AM ExprInfo :=
  if type_in (ei_Type index) [TypeUnknown; TypeNull] || IsNumeric (ei_Type index)
  then accept (mkExprInfo (ei_Type array) (any_aggregate [array; index]) false true false)
  else reject ErrTypeMismatch "array subscript must be an integer expression".

Definition when_result (t : SqlType) (result : ExprInfo) : SqlType :=
  if bool_decide (t = TypeUnknown) then ei_Type result else CommonType t (ei_Type result).

Definition case_info (operand : option ExprInfo) (whens : list (ExprInfo * ExprInfo)) (els : option ExprInfo) : ExprInfo :=
  let t := fold_left (fun t w => when_result t w.2) whens TypeUnknown in
  mkExprInfo (match els with Some e => CommonType t (ei_Type e) | None => t end)
    (any_aggregate (option_list operand) || existsb (fun w => any_aggregate [w.1; w.2]) whens
     || any_aggregate (option_list els)) false true false.

Definition boolean_info (parts : list ExprInfo) (nullable : bool) : ExprInfo :=
  mkExprInfo TypeBoolean (any_aggregate parts) false nullable false.

(** ** FROM clauses *)

(** The SELECT whose projection describes a query: the first leg of a set operation. *)
Fixpoint firstSelectLeg (s : SelectStmt) : SelectStmt :=
  match s with
  | mkSelectStmt _ _ _ _ _ _ _ _ _ (Some (mkCompoundSelect l _ _ _ _ _)) _ _ => firstSelectLeg l
  | _ => s
  end.

Fixpoint collect_ref (t : TableRef) : list TableRef :=
  match t with
  | mkTableRef _ _ _ (Some _) _ _ _ => []
  | mkTableRef _ _ _ None None _ _ => [t]
  | mkTableRef _ _ _ None (Some (mkJoinClause _ t' _ _)) _ _ => t :: collect_ref t'
  end.

Definition collectAllTableRefs (from : list TableRef) : list TableRef := concat (map collect_ref from).

(** The name that an output column takes from its alias or from a column it is. *)
Definition output_name (c : SelectColumn) (i : nat) : string :=
  let name := if negb (sc_alias c =s EmptyString) then sc_alias c
              else match c with mkSelectColumn (Some (ColumnRef _ column)) _ _ _ => column | _ => EmptyString end in
  if name =s EmptyString then "col_" ++ itoa (N.of_nat i) else name.

Definition cteTableInfo (c : CTE) : TableInfo :=
  match c with
  | mkCTE name names _ query =>
      let column i c :=
        let n := match names !! i with Some n => n | None => output_name c i end in
        bare_column (if n =s EmptyString then "col_" ++ itoa (N.of_nat i) else n) name TypeAny in
      mkTableInfo name (imap column (sel_Columns (firstSelectLeg query))) EmptyString false
  end.

(** The output columns of a table function. *)
Definition tableFunctionColumns (name : string) : list ColumnInfo :=
  let column n t := mkColumnInfo n t true false None name false false in
  let n := ToLower name in
  if name_in n ["jsonb_each"; "jsonb_each_text"] then
    [column "key" TypeText; column "value" (if EqualFold name "jsonb_each_text" then TypeText else TypeJSONB)]
  else if n =s "jsonb_array_elements" then [column "value" TypeJSONB]
  else if n =s "jsonb_array_elements_text" then [column "value" TypeText]
  else if n =s "jsonb_object_keys" then [column "jsonb_object_keys" TypeText]
  else [column n TypeAny].

Definition with_column_name (c : ColumnInfo) (name : string) : ColumnInfo :=
  mkColumnInfo name (ai_Type c) (ai_Nullable c) (ai_PrimaryKey c) (ai_Default c) (ai_TableName c) (ai_Generated c)
    (ai_Array c).

Definition define (t : TableInfo) : AM () := in_scope_of (DefineTable t).

(** A table function in FROM, its arguments analyzed. *)
Definition define_function (ref : TableRef) (name : string) : AM () :=
  let cols := tableFunctionColumns name in
  match ApplyColumnAliases ref (map ai_Name cols) with
  | inr e => fun s => (Reject (BadAliases e), s)
  | inl names => define (mkTableInfo (tr_Name ref) (zip_with with_column_name cols names) (tr_Alias ref) false)
  end.

(** A table by its name: one of the scope first, then one of the catalogue. *)
Definition define_table (ref : TableRef) : AM () :=
  s ← read_state scope;
  match LookupTable s (tr_Name ref) with
  | Some cte => define (mkTableInfo (ti_Name cte) (ti_Columns cte) (tr_Alias ref) (ti_IsView cte))
  | None =>
      let catalogName := if (tr_Schema ref =s EmptyString) || EqualFold (tr_Schema ref) "public" then tr_Name ref
                         else ToLower (tr_Schema ref) ++ "." ++ ToLower (tr_Name ref) in
      c ← read_state catalog;
      match catalog_table c catalogName with
      | None => reject ErrTableNotFound ("table not found: " ++ catalogName)
      | Some t => define (mkTableInfo (tr_Name ref) (ti_Columns t) (tr_Alias ref) (ti_IsView t))
      end
  end.

(** The columns that a wildcard of a derived table stands for. *)
Definition wildcard_columns (s : Analyzer) (alias : string) (from : list TableRef) : list ColumnInfo :=
  concat (map (fun t =>
    match LookupTable (scope s) (tr_Name t) ∪ catalog_table (catalog s) (tr_Name t) with
    | Some info => map (fun c => mkColumnInfo (ai_Name c) (ai_Type c) false false None alias false (ai_Array c))
                     (ti_Columns info)
    | None => []
    end) (collectAllTableRefs from)).

Definition derivedTableInfo (s : Analyzer) (alias : string) (query : SelectStmt) : TableInfo :=
  let leg := firstSelectLeg query in
  let add cols c :=
    (cols ++ if sc_star c then wildcard_columns s alias (sel_From leg)
             else [bare_column (output_name c (length cols)) alias TypeAny])%list in
  mkTableInfo alias (fold_left add (sel_Columns leg) []) alias false.

Definition validateTableStar (qualifier : string) : AM () :=
  s ← read_state scope;
  match LookupTable s qualifier with
  | Some _ => accept ()
  | None => reject ErrTableNotFound ("no such table or alias: " ++ qualifier)
  end.

(** The columns of USING. *)
Definition check_using (column : string) : AM () :=
  s ← read_state scope;
  match LookupColumn s EmptyString column with
  | Some _ => accept ()
  | None => reject ErrColumnNotFound ("column not found in USING clause: " ++ column)
  end.

(** ** SELECT, by the analysis [f] of its expressions and [g] of its columns *)

Definition no_aggregates (message : string) (info : ExprInfo) : AM () :=
  if ei_IsAggregate info then reject ErrAggregateInWhere message else accept ().

Section Clauses.
Variable f : Expr -> AM ExprInfo.
Variable g : SelectColumn -> AM ExprInfo.

(** WHERE, and the same in UPDATE and DELETE. *)
Definition analyze_where (where_ : option Expr) : AM () :=
  info ← maybe_ f where_;
  match info with
  | Some i => no_aggregates "aggregate functions not allowed in WHERE clause" i
  | None => accept ()
  end.

(** The projection: whether it has an aggregate, and what is known of its aliases. *)
Fixpoint select_columns (cols : list SelectColumn) (has : bool) (aliases : gmap string ExprInfo)
    : AM (bool * gmap string ExprInfo) :=
  match cols with
  | [] => accept (has, aliases)
  | c :: r =>
      if sc_star c then select_columns r has aliases
      else if negb (sc_table c =s EmptyString) then _ ← validateTableStar (sc_table c); select_columns r has aliases
      else info ← g c;
           select_columns r (has || ei_IsAggregate info)
             (if sc_alias c =s EmptyString then aliases else <[ToUpper (sc_alias c) := info]> aliases)
  end.

Definition define_aliases (aliases : gmap string ExprInfo) : AM () :=
  in_scope_of (fun s => fold_left (fun s ai => DefineSelectAlias ai.1 (ei_Type ai.2) s) (map_to_list aliases) s).

Definition plain_reference (c : SelectColumn) : option string :=
  match c with mkSelectColumn (Some (ColumnRef _ column)) _ _ _ => Some column | _ => None end.

(** A projection with an aggregate and without GROUP BY has no wildcard and no plain column. *)
Definition check_ungrouped (c : SelectColumn) : AM () :=
  if sc_star c
  then reject ErrNonAggregateInSelect "SELECT * not allowed with aggregate functions without GROUP BY"
  else if negb (sc_table c =s EmptyString)
  then reject ErrNonAggregateInSelect ("SELECT " ++ sc_table c ++ ".* not allowed with aggregate functions without GROUP BY")
  else info ← attempt_ (g c);
       match info, plain_reference c with
       | Some i, Some column =>
           if negb (ei_IsAggregate i) && negb (ei_IsConstant i)
           then reject ErrNonAggregateInSelect
                  ("column " ++ goquote column ++ " must appear in GROUP BY clause or be in an aggregate function")
           else accept ()
       | _, _ => accept ()
       end.

Definition analyze_having (having : option Expr) (grouped : bool) : AM () :=
  info ← maybe_ f having;
  match info with
  | Some i => if negb grouped && negb (ei_IsAggregate i)
              then reject ErrInvalidGroupBy "HAVING clause requires GROUP BY or aggregate function"
              else accept ()
  | None => accept ()
  end.

Definition analyze_bound (word : string) (bound : option Expr) : AM () :=
  info ← maybe_ f bound;
  match info with
  | Some i => if negb (IsNumeric (ei_Type i)) && negb (bool_decide (ei_Type i = TypeNull))
              then reject ErrTypeMismatch (word ++ " must be numeric") else accept ()
  | None => accept ()
  end.

(** The clauses after FROM. *)
Definition analyze_clauses (cols : list SelectColumn) (where_ : option Expr) (groupBy : list Expr)
    (having : option Expr) (order : AM ()) (limit offset : option Expr) : AM () :=
  _ ← analyze_where where_;
  '(has, aliases) ← select_columns cols false ∅;
  _ ← define_aliases aliases;
  _ ← each_ f groupBy;
  let grouped := negb (is_empty_list groupBy) in
  _ ← if has && negb grouped then each_ check_ungrouped cols else accept ();
  _ ← analyze_having having grouped;
  _ ← order;
  _ ← analyze_bound "LIMIT" limit;
  analyze_bound "OFFSET" offset.
End Clauses.

(** ** Expressions, queries and table references *)

Section Analyze.
(** The shared queries, and the analysis of the one at an address. *)
Variable queries : list SelectStmt.
Variable visit : nat -> AM ().

Definition query_of (q : QueryRef) : SelectStmt :=
  match q with Inline s => s | Shared a => default emptySelect (queries !! a) end.

Definition sub_scope (s : Scope) : Scope := NewScope (Some s).

Fixpoint analyzeExpr (e : Expr) : AM ExprInfo :=
  match e with
  | LiteralExpr t v => accept (analyzeLiteral t v)
  | ColumnRef table column => analyzeColumnRef table column
  | BinaryExpr l op r => left ← analyzeExpr l; right ← analyzeExpr r; analyze_binary op left right
  | UnaryExpr op e => operand ← analyzeExpr e; analyze_unary op operand
  | FunctionCallExpr f => analyzeFunctionCall f
  | ParenExpr e => analyzeExpr e
  | CaseExpr operand whens els =>
      o ← maybe_ analyzeExpr operand;
      ws ← infos analyzeWhen whens;
      e ← maybe_ analyzeExpr els;
      accept (case_info o ws e)
  | CastExpr e t =>
      i ← analyzeExpr e;
      accept (mkExprInfo (TypeFromName (dt_Name t)) (ei_IsAggregate i) (ei_IsConstant i) (ei_Nullable i) (dt_Array t))
  | InExpr x _ values subquery =>
      left ← analyzeExpr x;
      vs ← infos analyzeExpr values;
      _ ← match subquery with Some q => within sub_scope (analyzeSelect q) | None => accept () end;
      accept (boolean_info (left :: vs) false)
  | BetweenExpr x _ lo hi =>
      left ← analyzeExpr x;
      low ← analyzeExpr lo;
      high ← analyzeExpr hi;
      accept (boolean_info [left; low; high] (any_nullable [left; low; high]))
  | LikeExpr x _ pattern escape =>
      left ← analyzeExpr x;
      p ← analyzeExpr pattern;
      esc ← maybe_ analyzeExpr escape;
      accept (boolean_info (left :: p :: option_list esc) (any_nullable [left; p]))
  | IsNullExpr x _ =>
      left ← analyzeExpr x;
      accept (mkExprInfo TypeBoolean (ei_IsAggregate left) (ei_IsConstant left) false false)
  | IsDistinctExpr l r _ =>
      left ← analyzeExpr l;
      right ← analyzeExpr r;
      accept (boolean_info [left; right] false)
  | ExistsExpr q => _ ← within sub_scope (analyzeSelect q); accept (of_type TypeBoolean)
  | SubqueryExpr q => _ ← within sub_scope (analyzeSelect q); accept (of_type TypeAny)
  | ArrayExpr elements => is_ ← infos analyzeExpr elements; accept (array_info is_)
  | SubscriptExpr a i =>
      array ← analyzeExpr a;
      index ← analyzeExpr i;
      subscript_info array index
  | AnyAllExpr l _ _ a =>
      left ← analyzeExpr l;
      array ← analyzeExpr a;
      accept (boolean_info [left; array] true)
  | WindowExpr func partition order =>
      match func with
      | mkFunctionCall name args _ _ =>
          _ ← each_ analyzeExpr args;
          _ ← each_ analyzeExpr partition;
          _ ← each_ analyzeOrderItem order;
          accept (of_type (match builtin name with Some sig => fs_ReturnType sig | None => TypeInteger end))
      end
  end
with analyzeFunctionCall (f : FunctionCall) : AM ExprInfo :=
  match f with
  | mkFunctionCall name args _ star =>
      sig ← check_call name (if star then 0 else Z.of_nat (length args));
      infos_ ← infos analyzeExpr args;
      let info := call_info sig infos_ in
      if bool_decide (fs_ReturnType sig = TypeAny) && isPolymorphicFunction name then
        match args with
        | first :: _ => a ← attempt_ (analyzeExpr first); accept (follow_argument info a)
        | [] => accept info
        end
      else accept info
  end
with analyzeWhen (w : WhenClause) : AM (ExprInfo * ExprInfo) :=
  match w with
  | mkWhenClause condition result => c ← analyzeExpr condition; r ← analyzeExpr result; accept (c, r)
  end
with analyzeOrderItem (o : OrderByItem) : AM ExprInfo :=
  match o with mkOrderByItem key _ _ => analyzeExpr key end
with analyze_column (c : SelectColumn) : AM ExprInfo :=
  match c with
  | mkSelectColumn (Some e) _ _ _ => analyzeExpr e
  | mkSelectColumn None _ _ _ => accept unknown_info
  end
with analyzeSelect (s : SelectStmt) : AM () :=
  match s with
  | mkSelectStmt _ cols from where_ groupBy having orderBy limit offset _ ctes _ =>
      _ ← each_ (fun c => define (cteTableInfo c)) ctes;
      _ ← each_ (fun t => _ ← defineTableRef t;
                          match tr_Join t with Some j => resolveJoin j | None => accept () end) from;
      analyze_clauses analyzeExpr analyze_column cols where_ groupBy having (each_ analyzeOrderItem orderBy) limit offset
  end
with defineTableRef (t : TableRef) : AM () :=
  match t with
  | mkTableRef _ _ alias subquery _ func _ =>
      match func with
      | Some (mkFunctionCall name args _ _) => _ ← each_ analyzeExpr args; define_function t name
      | None =>
          match subquery with
          | Some q =>
              _ ← match q with Inline s => analyzeSelect s | Shared a => visit a end;
              s ← read_state id;
              define (derivedTableInfo s alias (query_of q))
          | None => define_table t
          end
      end
  end
with resolveJoin (j : JoinClause) : AM () :=
  match j with
  | mkJoinClause _ t condition names =>
      _ ← defineTableRef t;
      _ ← maybe_ analyzeExpr condition;
      _ ← each_ check_using names;
      match tr_Join t with Some j => resolveJoin j | None => accept () end
  end.
End Analyze.

(** ** Statements *)

Section Statements.
Variable queries : list SelectStmt.
Variable visit : nat -> AM ().

Abbreviation expression := (analyzeExpr queries visit).

(** The target of a statement that writes rows, from the catalogue. *)
Definition target_table (name : string) : AM TableInfo :=
  c ← read_state catalog;
  match catalog_table c name with
  | Some t => accept t
  | None => reject ErrTableNotFound ("table not found: " ++ name)
  end.

Definition define_target (t : TableInfo) (alias : string) : AM () :=
  define (mkTableInfo (ti_Name t) (ti_Columns t) alias (ti_IsView t)).

(** A column that a statement writes. *)
Definition writable (verb : string) (t : TableInfo) (column : string) : AM () :=
  match GetColumn t column with
  | None => reject ErrColumnNotFound ("column not found: " ++ column)
  | Some c => if ai_Generated c then reject ErrTypeMismatch ("cannot " ++ verb ++ " generated column " ++ column)
              else accept ()
  end.

Definition conflict_column (t : TableInfo) (column : string) : AM () :=
  match GetColumn t column with
  | Some _ => accept ()
  | None => if isRowIDAlias column then accept () else reject ErrColumnNotFound ("column not found: " ++ column)
  end.

Definition insert_row (targets : nat) (row : list Expr) : AM () :=
  if (length row =? targets)%nat then each_ expression row
  else reject ErrTypeMismatch ("INSERT has " ++ itoa (N.of_nat targets) ++ " columns but " ++ itoa (N.of_nat (length row))
                               ++ " values").

Definition returning_column (c : SelectColumn) : AM () :=
  match c with
  | mkSelectColumn (Some e) _ star table =>
      if star || negb (table =s EmptyString) then accept ()
      else i ← expression e; no_aggregates "aggregate functions are not allowed in RETURNING" i
  | mkSelectColumn None _ _ _ => accept ()
  end.

Definition analyzeReturning (cols : list SelectColumn) : AM () := each_ returning_column cols.

(** Positional values are for the columns that are not generated. *)
Definition target_count (t : TableInfo) (names : list string) : nat :=
  match names with
  | [] => length (List.filter (fun c => negb (ai_Generated c)) (ti_Columns t))
  | _ => length names
  end.

Definition analyzeInsert (s : InsertStmt) : AM () :=
  t ← target_table (tr_Name (ins_Table s));
  _ ← define_target t EmptyString;
  _ ← each_ (writable "INSERT into" t) (ins_Columns s);
  _ ← each_ (conflict_column t) (ins_ConflictTarget s);
  _ ← if ins_DefaultValues s then accept () else each_ (insert_row (target_count t (ins_Columns s))) (ins_Values s);
  _ ← match ins_Select s with Some q => analyzeSelect queries visit q | None => accept () end;
  analyzeReturning (ins_Returning s).

(** [resolveFromClause] *)
Definition resolve_ref (t : TableRef) : AM () :=
  _ ← defineTableRef queries visit t;
  match tr_Join t with Some j => resolveJoin queries visit j | None => accept () end.

Definition assignment (t : TableInfo) (a : Assignment) : AM () :=
  _ ← writable "UPDATE" t (as_Column a); _ ← expression (as_Value a); accept ().

Definition analyzeUpdate (s : UpdateStmt) : AM () :=
  t ← target_table (tr_Name (upd_Table s));
  _ ← define_target t (tr_Alias (upd_Table s));
  _ ← each_ resolve_ref (upd_From s);
  _ ← each_ (assignment t) (upd_Set s);
  _ ← analyze_where expression (upd_Where s);
  analyzeReturning (upd_Returning s).

Definition analyzeDelete (s : DeleteStmt) : AM () :=
  t ← target_table (tr_Name (del_Table s));
  _ ← define_target t EmptyString;
  _ ← analyze_where expression (del_Where s);
  analyzeReturning (del_Returning s).

(** *** CREATE TABLE and DROP TABLE *)

Definition with_constraint (i : ColumnInfo) (c : ColumnConstraint) : ColumnInfo :=
  match cc_Type c with
  | ConstraintPrimaryKey => mkColumnInfo (ai_Name i) (ai_Type i) false true (ai_Default i) (ai_TableName i)
                              (ai_Generated i) (ai_Array i)
  | ConstraintNotNull => mkColumnInfo (ai_Name i) (ai_Type i) false (ai_PrimaryKey i) (ai_Default i) (ai_TableName i)
                           (ai_Generated i) (ai_Array i)
  | ConstraintDefault => mkColumnInfo (ai_Name i) (ai_Type i) (ai_Nullable i) (ai_PrimaryKey i) (cc_Default c)
                           (ai_TableName i) (ai_Generated i) (ai_Array i)
  | _ => i
  end.

Definition column_info (table : string) (d : ColumnDef) : ColumnInfo :=
  fold_left with_constraint (cd_Constraints d)
    (mkColumnInfo (cd_Name d) (TypeFromName (dt_Name (cd_Type d))) true false None table
       (negb (is_none (cd_GeneratedExpr d))) (dt_Array (cd_Type d))).

Fixpoint new_columns (table : string) (seen : gset string) (defs : list ColumnDef) : AM (list ColumnInfo) :=
  match defs with
  | [] => accept []
  | d :: r =>
      if bool_decide (ToUpper (cd_Name d) ∈ seen)
      then reject ErrColumnAmbiguous ("duplicate column name: " ++ cd_Name d)
      else cols ← new_columns table ({[ToUpper (cd_Name d)]} ∪ seen) r; accept (column_info table d :: cols)
  end.

Definition key_column (names : list string) (i : ColumnInfo) : ColumnInfo :=
  if existsb (EqualFold (ai_Name i)) names
  then mkColumnInfo (ai_Name i) (ai_Type i) false true (ai_Default i) (ai_TableName i) (ai_Generated i) (ai_Array i)
  else i.

Definition with_table_constraint (cols : list ColumnInfo) (c : TableConstraint) : list ColumnInfo :=
  match tc_Type c with ConstraintPrimaryKey => map (key_column (tc_Columns c)) cols | _ => cols end.

Definition generated_column (t : TableInfo) (d : ColumnDef) : AM () :=
  match cd_GeneratedExpr d with
  | None => accept ()
  | Some e => _ ← within (fun _ => DefineTable t (NewScope None)) (expression e); accept ()
  end.

Definition analyzeCreateTable (s : CreateTableStmt) : AM () :=
  let name := tr_Name (ct_Table s) in
  c ← read_state catalog;
  if TableExists c name then
    if ct_IfNotExists s then accept () else reject ErrTableExists ("table already exists: " ++ name)
  else
    cols ← new_columns name ∅ (ct_Columns s);
    let t := mkTableInfo name (fold_left with_table_constraint (ct_Constraints s) cols) EmptyString false in
    each_ (generated_column t) (ct_Columns s).

Definition drop_one (ifExists : bool) (t : TableRef) : AM () := fun s =>
  match catalog_drop (tr_Name t) (catalog s) with
  | inl c => (Accept (), mkAnalyzer c (scope s))
  | inr e => if ifExists then (Accept (), s) else (Reject (Analysis e), s)
  end.

Definition analyzeDropTable (s : DropTableStmt) : AM () := each_ (drop_one (dt_IfExists s)) (dt_Tables s).

(** The verb T of [fmt] for the statements that no case lists. *)
Definition go_type (s : Statement) : string :=
  match s with
  | StCreateView _ => "*parser.CreateViewStmt" | StDropView _ => "*parser.DropViewStmt"
  | StPragma _ => "*parser.PragmaStmt" | StExplain _ _ => "*parser.ExplainStmt"
  | StSet _ => "*parser.SetStmt" | StShow _ => "*parser.ShowStmt"
  | _ => EmptyString
  end.

Definition analyze_statement (s : Statement) : AM () :=
  match s with
  | StSelect q => analyzeSelect queries visit q
  | StInsert s => analyzeInsert s
  | StUpdate s => analyzeUpdate s
  | StDelete s => analyzeDelete s
  | StCreateTable s => analyzeCreateTable s
  | StDropTable s => analyzeDropTable s
  | StAlterTable _ | StAttach _ | StDetach _ | StBegin _ | StCommit | StRollback _ | StSavepoint _ | StRelease _
  | StAnalyze _ | StCreateIndex _ | StDropIndex _ | StListen _ | StUnlisten _ | StNotify _ => accept ()
  | StCreateView _ | StDropView _ | StPragma _ | StExplain _ _ | StSet _ | StShow _ =>
      reject ErrUnknown ("unknown statement type: " ++ go_type s)
  end.
End Statements.

(** ** Depth *)

(** The analysis of a shared query at a depth. *)
Fixpoint at_depth (queries : list SelectStmt) (depth : nat) (addr : nat) : AM () :=
  match depth with
  | O => too_deep
  | S d => analyzeSelect queries (at_depth queries d) (query_of queries (Shared addr))
  end.

(** [Analyze] of an analyzer with a catalogue, in a scope of its own. *)
Definition Analyze (queries : list SelectStmt) (depth : nat) (s : Statement) (c : Catalog) : answer () * Catalog :=
  let (r, a) := analyze_statement queries (at_depth queries depth) s (mkAnalyzer c (NewScope None)) in
  (r, catalog a).
