(* ===== verification/CatalogSync.v ===== *)
(** * The analyzer's catalogue (pkg/executor/executor.go, pg_catalog.go)

    An executor keeps a catalogue for its analyzer.  It is brought up to date from the session, the
    virtual relations of pg_catalog and information_schema are added to it, and a statement that misses
    a table or a column is analyzed again on a fresh one. *)
From Stdlib Require Import NArith ZArith Lia Ascii String.
From stdpp Require Import base option list list_numbers gmap sorting strings.
From S2P Require Import Prelude Token Ast RowLock Bytes RowCodec Float Values Wire KVClient TestKV KVStore Schema UniqueCache.
From S2P Require Import TableCache ForeignKey Storage Table SessionState SchemaTx Session Sample Arrays Joins Select Analyzer.
#[local] Open Scope string_scope.

(** ** Virtual relations *)

Definition pgCatalogSchemaName : string := "pg_catalog".
Definition informationSchemaName : string := "information_schema".

(** A relation with the names and the types of its columns. *)
Record catalogRelationDef : Set := mkRelationDef {
  rd_schema : string; rd_name : string; rd_columns : list (string * string) }.

Definition pgCatalogRelationDefs : list catalogRelationDef := [
  mkRelationDef pgCatalogSchemaName "pg_namespace"
    [("oid", "OID"); ("nspname", "NAME"); ("nspowner", "OID"); ("nspacl", "TEXT")];
  mkRelationDef pgCatalogSchemaName "pg_class"
    [("oid", "OID"); ("relname", "NAME"); ("relnamespace", "OID"); ("reltype", "OID"); ("reloftype", "OID");
     ("relowner", "OID"); ("relam", "OID"); ("relfilenode", "OID"); ("reltablespace", "OID");
     ("relpages", "INT4"); ("reltuples", "FLOAT4"); ("relallvisible", "INT4"); ("reltoastrelid", "OID");
     ("relhasindex", "BOOL"); ("relisshared", "BOOL"); ("relpersistence", "CHAR"); ("relkind", "CHAR");
     ("relnatts", "INT2"); ("relchecks", "INT2"); ("relhasrules", "BOOL"); ("relhastriggers", "BOOL");
     ("relhassubclass", "BOOL"); ("relrowsecurity", "BOOL"); ("relforcerowsecurity", "BOOL");
     ("relispopulated", "BOOL"); ("relreplident", "CHAR"); ("relispartition", "BOOL"); ("relrewrite", "OID");
     ("relfrozenxid", "OID"); ("relminmxid", "OID"); ("relacl", "TEXT"); ("reloptions", "TEXT");
     ("relpartbound", "TEXT")];
  mkRelationDef pgCatalogSchemaName "pg_attribute"
    [("attrelid", "OID"); ("attname", "NAME"); ("atttypid", "OID"); ("attstattarget", "INT4"); ("attlen", "INT2");
     ("attnum", "INT2"); ("attndims", "INT4"); ("attcacheoff", "INT4"); ("atttypmod", "INT4");
     ("attbyval", "BOOL"); ("attalign", "CHAR"); ("attstorage", "CHAR"); ("attcompression", "CHAR");
     ("attnotnull", "BOOL"); ("atthasdef", "BOOL"); ("atthasmissing", "BOOL"); ("attidentity", "CHAR");
     ("attgenerated", "CHAR"); ("attisdropped", "BOOL"); ("attislocal", "BOOL"); ("attinhcount", "INT2");
     ("attcollation", "OID"); ("attacl", "TEXT"); ("attoptions", "TEXT"); ("attfdwoptions", "TEXT");
     ("attmissingval", "TEXT")];
  mkRelationDef pgCatalogSchemaName "pg_type"
    [("oid", "OID"); ("typname", "NAME"); ("typnamespace", "OID"); ("typowner", "OID"); ("typlen", "INT2");
     ("typbyval", "BOOL"); ("typtype", "CHAR"); ("typcategory", "CHAR"); ("typispreferred", "BOOL");
     ("typisdefined", "BOOL"); ("typdelim", "CHAR"); ("typrelid", "OID"); ("typsubscript", "REGPROC");
     ("typelem", "OID"); ("typarray", "OID"); ("typinput", "REGPROC"); ("typoutput", "REGPROC");
     ("typreceive", "REGPROC"); ("typsend", "REGPROC"); ("typmodin", "REGPROC"); ("typmodout", "REGPROC");
     ("typanalyze", "REGPROC"); ("typalign", "CHAR"); ("typstorage", "CHAR"); ("typnotnull", "BOOL");
     ("typbasetype", "OID"); ("typtypmod", "INT4"); ("typndims", "INT4"); ("typcollation", "OID");
     ("typdefaultbin", "TEXT"); ("typdefault", "TEXT"); ("typacl", "TEXT")];
  mkRelationDef pgCatalogSchemaName "pg_index"
    [("indexrelid", "OID"); ("indrelid", "OID"); ("indnatts", "INT2"); ("indnkeyatts", "INT2");
     ("indisunique", "BOOL"); ("indisprimary", "BOOL"); ("indisexclusion", "BOOL"); ("indimmediate", "BOOL");
     ("indisclustered", "BOOL"); ("indisvalid", "BOOL"); ("indcheckxmin", "BOOL"); ("indisready", "BOOL");
     ("indislive", "BOOL"); ("indisreplident", "BOOL"); ("indkey", "INT2[]"); ("indcollation", "TEXT");
     ("indclass", "TEXT"); ("indoption", "INT2[]"); ("indexprs", "TEXT"); ("indpred", "TEXT")];
  mkRelationDef pgCatalogSchemaName "pg_constraint"
    [("oid", "OID"); ("conname", "NAME"); ("connamespace", "OID"); ("contype", "CHAR"); ("condeferrable", "BOOL");
     ("condeferred", "BOOL"); ("convalidated", "BOOL"); ("conrelid", "OID"); ("contypid", "OID");
     ("conindid", "OID"); ("conparentid", "OID"); ("confrelid", "OID"); ("confupdtype", "CHAR");
     ("confdeltype", "CHAR"); ("confmatchtype", "CHAR"); ("conislocal", "BOOL"); ("coninhcount", "INT2");
     ("connoinherit", "BOOL"); ("conkey", "INT2[]"); ("confkey", "INT2[]"); ("conpfeqop", "TEXT");
     ("conppeqop", "TEXT"); ("conffeqop", "TEXT"); ("conexclop", "TEXT"); ("conbin", "TEXT"); ("consrc", "TEXT")];
  mkRelationDef pgCatalogSchemaName "pg_attrdef"
    [("oid", "OID"); ("adrelid", "OID"); ("adnum", "INT2"); ("adbin", "TEXT")];
  mkRelationDef pgCatalogSchemaName "pg_database"
    [("oid", "OID"); ("datname", "NAME"); ("datdba", "OID"); ("encoding", "INT4"); ("datlocprovider", "CHAR");
     ("datistemplate", "BOOL"); ("datallowconn", "BOOL"); ("datconnlimit", "INT4"); ("datlastsysoid", "OID");
     ("datfrozenxid", "OID"); ("datminmxid", "OID"); ("dattablespace", "OID"); ("datcollate", "TEXT");
     ("datctype", "TEXT"); ("datlocale", "TEXT"); ("daticurules", "TEXT"); ("datcollversion", "TEXT");
     ("datacl", "TEXT")];
  mkRelationDef pgCatalogSchemaName "pg_tablespace"
    [("oid", "OID"); ("spcname", "NAME"); ("spcowner", "OID"); ("spcacl", "TEXT"); ("spcoptions", "TEXT")];
  mkRelationDef pgCatalogSchemaName "pg_proc"
    [("oid", "OID"); ("proname", "NAME"); ("pronamespace", "OID"); ("proowner", "OID"); ("prolang", "OID");
     ("procost", "FLOAT4"); ("prorows", "FLOAT4"); ("provariadic", "OID"); ("prosupport", "REGPROC");
     ("prokind", "CHAR"); ("prosecdef", "BOOL"); ("proleakproof", "BOOL"); ("proisstrict", "BOOL");
     ("proretset", "BOOL"); ("provolatile", "CHAR"); ("proparallel", "CHAR"); ("pronargs", "INT2");
     ("pronargdefaults", "INT2"); ("prorettype", "OID"); ("proargtypes", "TEXT"); ("proallargtypes", "TEXT");
     ("proargmodes", "TEXT"); ("proargnames", "TEXT"); ("proargdefaults", "TEXT"); ("protrftypes", "TEXT");
     ("prosrc", "TEXT"); ("probin", "TEXT"); ("prosqlbody", "TEXT"); ("proconfig", "TEXT"); ("proacl", "TEXT")];
  mkRelationDef pgCatalogSchemaName "pg_am"
    [("oid", "OID"); ("amname", "NAME"); ("amhandler", "OID"); ("amtype", "CHAR")];
  mkRelationDef pgCatalogSchemaName "pg_description"
    [("objoid", "OID"); ("classoid", "OID"); ("objsubid", "INT4"); ("description", "TEXT")];
  mkRelationDef pgCatalogSchemaName "pg_tables"
    [("schemaname", "NAME"); ("tablename", "NAME"); ("tableowner", "NAME"); ("tablespace", "NAME");
     ("hasindexes", "BOOL"); ("hasrules", "BOOL"); ("hastriggers", "BOOL"); ("rowsecurity", "BOOL")];
  mkRelationDef pgCatalogSchemaName "pg_indexes"
    [("schemaname", "NAME"); ("tablename", "NAME"); ("indexname", "NAME"); ("tablespace", "NAME");
     ("indexdef", "TEXT")]].

(** The views of information_schema. *)
Definition informationSchemaRelationDefs : list catalogRelationDef := [
  mkRelationDef informationSchemaName "tables"
    [("table_catalog", "TEXT"); ("table_schema", "TEXT"); ("table_name", "TEXT"); ("table_type", "TEXT");
     ("self_referencing_column_name", "TEXT"); ("reference_generation", "TEXT");
     ("user_defined_type_catalog", "TEXT"); ("user_defined_type_schema", "TEXT");
     ("user_defined_type_name", "TEXT"); ("is_insertable_into", "TEXT"); ("is_typed", "TEXT");
     ("commit_action", "TEXT")];
  mkRelationDef informationSchemaName "columns"
    [("table_catalog", "TEXT"); ("table_schema", "TEXT"); ("table_name", "TEXT"); ("column_name", "TEXT");
     ("ordinal_position", "INT4"); ("column_default", "TEXT"); ("is_nullable", "TEXT"); ("data_type", "TEXT");
     ("character_maximum_length", "INT4"); ("character_octet_length", "INT4"); ("numeric_precision", "INT4");
     ("numeric_precision_radix", "INT4"); ("numeric_scale", "INT4"); ("datetime_precision", "INT4");
     ("interval_type", "TEXT"); ("interval_precision", "INT4"); ("character_set_catalog", "TEXT");
     ("character_set_schema", "TEXT"); ("character_set_name", "TEXT"); ("collation_catalog", "TEXT");
     ("collation_schema", "TEXT"); ("collation_name", "TEXT"); ("domain_catalog", "TEXT");
     ("domain_schema", "TEXT"); ("domain_name", "TEXT"); ("udt_catalog", "TEXT"); ("udt_schema", "TEXT");
     ("udt_name", "TEXT"); ("scope_catalog", "TEXT"); ("scope_schema", "TEXT"); ("scope_name", "TEXT");
     ("maximum_cardinality", "INT4"); ("dtd_identifier", "TEXT"); ("is_self_referencing", "TEXT");
     ("is_identity", "TEXT"); ("identity_generation", "TEXT"); ("identity_start", "TEXT");
     ("identity_increment", "TEXT"); ("identity_maximum", "TEXT"); ("identity_minimum", "TEXT");
     ("identity_cycle", "TEXT"); ("is_generated", "TEXT"); ("generation_expression", "TEXT");
     ("is_updatable", "TEXT")];
  mkRelationDef informationSchemaName "table_constraints"
    [("constraint_catalog", "TEXT"); ("constraint_schema", "TEXT"); ("constraint_name", "TEXT");
     ("table_catalog", "TEXT"); ("table_schema", "TEXT"); ("table_name", "TEXT"); ("constraint_type", "TEXT");
     ("is_deferrable", "TEXT"); ("initially_deferred", "TEXT"); ("enforced", "TEXT"); ("nulls_distinct", "TEXT")];
  mkRelationDef informationSchemaName "key_column_usage"
    [("constraint_catalog", "TEXT"); ("constraint_schema", "TEXT"); ("constraint_name", "TEXT");
     ("table_catalog", "TEXT"); ("table_schema", "TEXT"); ("table_name", "TEXT"); ("column_name", "TEXT");
     ("ordinal_position", "INT4"); ("position_in_unique_constraint", "INT4")];
  mkRelationDef informationSchemaName "referential_constraints"
    [("constraint_catalog", "TEXT"); ("constraint_schema", "TEXT"); ("constraint_name", "TEXT");
     ("unique_constraint_catalog", "TEXT"); ("unique_constraint_schema", "TEXT");
     ("unique_constraint_name", "TEXT"); ("match_option", "TEXT"); ("update_rule", "TEXT");
     ("delete_rule", "TEXT"); ("is_deferrable", "TEXT"); ("initially_deferred", "TEXT"); ("enforced", "TEXT")];
  mkRelationDef informationSchemaName "constraint_column_usage"
    [("table_catalog", "TEXT"); ("table_schema", "TEXT"); ("table_name", "TEXT"); ("constraint_catalog", "TEXT");
     ("constraint_schema", "TEXT"); ("constraint_name", "TEXT"); ("column_name", "TEXT")];
  mkRelationDef informationSchemaName "schemata"
    [("catalog_name", "TEXT"); ("schema_name", "TEXT"); ("schema_owner", "TEXT");
     ("default_character_set_catalog", "TEXT"); ("default_character_set_schema", "TEXT");
     ("default_character_set_name", "TEXT"); ("sql_path", "TEXT")];
  mkRelationDef informationSchemaName "sequences"
    [("sequence_catalog", "TEXT"); ("sequence_schema", "TEXT"); ("sequence_name", "TEXT"); ("data_type", "TEXT");
     ("numeric_precision", "INT4"); ("numeric_precision_radix", "INT4"); ("numeric_scale", "INT4");
     ("start_value", "TEXT"); ("minimum_value", "TEXT"); ("maximum_value", "TEXT"); ("increment", "TEXT");
     ("cycle_option", "TEXT")];
  mkRelationDef informationSchemaName "views"
    [("table_catalog", "TEXT"); ("table_schema", "TEXT"); ("table_name", "TEXT"); ("view_definition", "TEXT");
     ("check_option", "TEXT"); ("is_updatable", "TEXT"); ("is_insertable_into", "TEXT");
     ("is_trigger_updatable", "TEXT"); ("is_trigger_deletable", "TEXT"); ("is_trigger_insertable_into", "TEXT")]].

Section CatalogSync.
Context `{Json} (db : string).

Definition catalogRelationSchema (def : catalogRelationDef) : Schema :=
  mkSchema (rd_name def)
    (map (fun c => mkColumn c.1 c.2 true VNil EmptyString false EmptyString false) (rd_columns def))
    EmptyString [] 0 0 false [] [].

Definition relation_key (def : catalogRelationDef) : string := rd_schema def ++ "." ++ ToLower (rd_name def).

Definition pgCatalogRelationIndex : gmap string Schema :=
  fold_left (fun m def => <[relation_key def := catalogRelationSchema def]> m)
    (pgCatalogRelationDefs ++ informationSchemaRelationDefs)%list ∅.

(** The virtual relation of a table reference; [cte] and [durable] tell the names of the common table
    expressions in scope and of the tables. *)
Definition catalogRelationFor (cte durable : string -> bool) (ref : TableRef) : option Schema :=
  match ref with
  | mkTableRef schema name _ None _ None _ =>
      if cte name then None
      else
        let s := ToLower schema in
        if (s =s pgCatalogSchemaName) || (s =s informationSchemaName)
        then pgCatalogRelationIndex !! (s ++ "." ++ ToLower name)
        else if s =s EmptyString then
          if durable name then None else pgCatalogRelationIndex !! (pgCatalogSchemaName ++ "." ++ ToLower name)
        else None
  | _ => None
  end.

(** A FROM entry with the tables of its joins. *)
Fixpoint chain_any (p : TableRef -> bool) (t : TableRef) : bool :=
  p t || match t with
         | mkTableRef _ _ _ _ (Some (mkJoinClause _ t' _ _)) _ _ => chain_any p t'
         | _ => false
         end.

Definition fromReferencesCatalogRelation (cte durable : string -> bool) (from : list TableRef) : bool :=
  existsb (chain_any (fun t => negb (is_none (catalogRelationFor cte durable t)))) from.

(** ** Synchronization *)

(** [DropTable] and [CreateTable] where the error is ignored. *)
Definition drop_quietly (name : string) (c : Catalog) : Catalog :=
  match catalog_drop name c with inl c => c | inr _ => c end.
Definition create_quietly (info : TableInfo) (c : Catalog) : Catalog :=
  match catalog_create info c with inl c => c | inr _ => c end.

(** A relation under a name, unless the catalogue has the name.  Every relation is in the index. *)
Definition register (name : string) (def : catalogRelationDef) (c : Catalog) : Catalog :=
  if TableExists c name then c
  else match pgCatalogRelationIndex !! relation_key def with
       | Some schema => create_quietly (mkTableInfo name (ti_Columns (ToAnalyzerTableInfo schema)) EmptyString true) c
       | None => c
       end.

Definition register_all (name : catalogRelationDef -> string) (defs : list catalogRelationDef) (c : Catalog) : Catalog :=
  fold_left (fun c def => register (name def) def c) defs c.

Definition qualified_name (def : catalogRelationDef) : string := rd_schema def ++ "." ++ rd_name def.

Definition registerCatalogRelations (c : Catalog) : Catalog :=
  register_all rd_name pgCatalogRelationDefs
    (register_all qualified_name informationSchemaRelationDefs
      (register_all qualified_name pgCatalogRelationDefs c)).

(** The table of the session in place of the one that the catalogue has. *)
Definition sync_table (c : Catalog) (name : string) : SM Catalog :=
  r ← attemptS (getSchemaLocked db name);
  mret match r with
       | inl schema => create_quietly (ToAnalyzerTableInfo schema) (drop_quietly name c)
       | inr _ => c
       end.

Fixpoint sync_tables (c : Catalog) (names : list string) : SM Catalog :=
  match names with [] => mret c | n :: r => c ← sync_table c n; sync_tables c r end.

(** Without the tables that are not views and that the session does not list. *)
Definition drop_stale (names : list string) (c : Catalog) : Catalog :=
  let listed : gset string := list_to_set (map ToUpper names) in
  fold_left (fun c t => if ti_IsView t then c
                        else if bool_decide (ToUpper (ti_Name t) ∈ listed) then c
                        else drop_quietly (ti_Name t) c)
    (catalog_tables c) c.

(** The catalogue of an executor, and the version of the session it was made from. *)
Record CatalogCopy : Type := mkCopy { cc_catalog : Catalog; cc_version : N }.

Definition SyncCatalog (c : CatalogCopy) : SM CatalogCopy :=
  names ← ListTables_s db;
  tables ← sync_tables (cc_catalog c) names;
  let tables := registerCatalogRelations (drop_stale names tables) in
  v ← versionLocked;
  mret (mkCopy tables v).

(** ** Analysis of a statement *)

Definition isCatalogMiss (e : analysis_error) : bool :=
  match e with
  | Analysis e => bool_decide (ae_Type e = ErrTableNotFound \/ ae_Type e = ErrColumnNotFound)
  | BadAliases _ => false
  end.

Definition analyze_copy (queries : list SelectStmt) (depth : nat) (stmt : Statement) (c : CatalogCopy)
    : answer () * CatalogCopy :=
  let (r, tables) := Analyze queries depth stmt (cc_catalog c) in (r, mkCopy tables (cc_version c)).

(** A failure of the first synchronization is the error of the storage; one of the second is ignored. *)
Definition analyzeWithCatalogRetry (queries : list SelectStmt) (depth : nat) (stmt : Statement) (c : CatalogCopy)
    : SM (answer () * CatalogCopy) :=
  v ← versionLocked;
  c ← (if bool_decide (cc_version c = v) then mret c else SyncCatalog c);
  let (r, c) := analyze_copy queries depth stmt c in
  match r with
  | Reject e =>
      if isCatalogMiss e then
        s ← attemptS (SyncCatalog c);
        mret match s with inl c => analyze_copy queries depth stmt c | inr _ => (r, c) end
      else mret (r, c)
  | _ => mret (r, c)
  end.

End CatalogSync.

(** ** What a synchronization gives *)

Section SyncFacts.
Context `{Json} (db : string).

(** The schemas of some tables as the session reads them, [None] where it fails. *)
Fixpoint read_schemas (names : list string) : SM (list (string * option Schema)) :=
  match names with
  | [] => mret []
  | n :: r =>
      x ← attemptS (getSchemaLocked db n);
      l ← read_schemas r;
      mret ((n, match x with inl schema => Some schema | inr _ => None end) :: l)
  end.

Definition replaced (c : Catalog) (read : string * option Schema) : Catalog :=
  match read.2 with
  | Some schema => create_quietly (ToAnalyzerTableInfo schema) (drop_quietly read.1 c)
  | None => c
  end.

Lemma sync_tables_read (names : list string) (c c' : Catalog) (s : Session) (w : World) (sw : Session * World) :
  sync_tables db c names s w = (Done c', sw) ->
  exists reads, read_schemas names s w = (Done reads, sw) /\ c' = fold_left replaced reads c /\ map fst reads = names.
Proof.
  destruct sw as [s2 w2]. revert c s w. induction names as [|n names IH]; intros c s w; cbn [sync_tables read_schemas].
  - intros [= <- <- <-]. now exists [].
  - unfold mbind, SM_bind, sync_table, mbind, SM_bind, attemptS.
    destruct (getSchemaLocked db n s w) as [[schema|e|] [s1 w1]]; try discriminate; cbn; intros E;
      apply IH in E as (reads & -> & -> & En); (eexists; split; [reflexivity|]; split; [reflexivity|]; cbn; now rewrite En).
Qed.

(** Every entry is under its name in upper case. *)
Definition keyed (c : Catalog) : Prop := map_Forall (fun k t => ToUpper (ti_Name t) = k) c.

Lemma drop_lookup (n : string) (c : Catalog) : drop_quietly n c = delete (ToUpper n) c.
Proof. unfold drop_quietly, catalog_drop. destruct (c !! ToUpper n) eqn:E; [reflexivity|now rewrite fin_maps.delete_id]. Qed.

Lemma create_lookup (t : TableInfo) (c : Catalog) (k : string) :
  create_quietly t c !! k = c !! k ∪ (if bool_decide (ToUpper (ti_Name t) = k) then Some t else None).
Proof.
  unfold create_quietly, catalog_create. destruct (c !! ToUpper (ti_Name t)) eqn:E.
  - case_bool_decide as Ek; [subst; now rewrite E|]. now destruct (c !! k).
  - case_bool_decide as Ek; [subst; now rewrite lookup_insert_eq, E|]. rewrite lookup_insert_ne by done. now destruct (c !! k).
Qed.

Lemma create_keyed (t : TableInfo) (c : Catalog) : keyed c -> keyed (create_quietly t c).
Proof.
  intros Hc k x. rewrite create_lookup. destruct (c !! k) as [y|] eqn:E.
  - intros Hx. assert (x = y) as -> by (destruct (bool_decide _); cbn in Hx; congruence). now apply Hc.
  - rewrite (left_id None _). case_bool_decide; [intros [= <-]; assumption|discriminate].
Qed.

Lemma delete_keyed (k : string) (c : Catalog) : keyed c -> keyed (delete k c).
Proof. apply map_Forall_delete. Qed.

(** *** The tables of the session *)

Definition read_of (reads : list (string * option Schema)) (k : string) : option (option Schema) :=
  snd <$> find (fun nr => ToUpper nr.1 =s k) reads.

(** Tables with names of their own, under which their schemas are. *)
Definition well_named (reads : list (string * option Schema)) : Prop :=
  NoDup (map (fun nr => ToUpper nr.1) reads)
  /\ Forall (fun nr => match nr.2 with Some s => ToUpper (Name s) = ToUpper nr.1 | None => True end) reads.

Lemma replaced_keyed (reads : list (string * option Schema)) (c : Catalog) : keyed c -> keyed (fold_left replaced reads c).
Proof.
  revert c. induction reads as [|[n [schema|]] reads IH]; intros c Hc; cbn [fold_left]; [exact Hc| |now apply IH].
  apply IH. unfold replaced. cbn [fst snd]. rewrite drop_lookup. now apply create_keyed, delete_keyed.
Qed.

Lemma replaced_lookup (reads : list (string * option Schema)) (c : Catalog) (k : string) : well_named reads ->
  fold_left replaced reads c !! k
  = match read_of reads k with Some (Some schema) => Some (ToAnalyzerTableInfo schema) | _ => c !! k end.
Proof.
  unfold read_of. revert c. induction reads as [|[n r] reads IH]; intros c [Hn Hs]; [reflexivity|].
  cbn [map fst] in Hn. apply NoDup_cons in Hn as [Hn Hnd]. apply Forall_cons in Hs as [Hr Hs]. cbn [fst snd] in *.
  cbn [fold_left find fst]. rewrite IH by (split; assumption). destruct (ToUpper n =s k) eqn:E.
  - apply String.eqb_eq in E. subst k. cbn [fmap option_fmap option_map snd].
    assert (Ef : find (fun nr : string * option Schema => ToUpper nr.1 =s ToUpper n) reads = None).
    { destruct (find _ reads) as [x|] eqn:Ef; [|reflexivity]. apply find_some in Ef as [Hin Ex%String.eqb_eq].
      exfalso. apply Hn. apply list_elem_of_In, in_map_iff. eauto. }
    rewrite Ef. cbn. unfold replaced. cbn [fst snd]. destruct r as [schema|]; [|reflexivity].
    rewrite create_lookup, drop_lookup, lookup_delete_eq. cbn [ToAnalyzerTableInfo ti_Name]. now rewrite bool_decide_eq_true_2.
  - apply String.eqb_neq in E.
    assert (Er : replaced c (n, r) !! k = c !! k).
    { unfold replaced. cbn [fst snd]. destruct r as [schema|]; [|reflexivity]. rewrite create_lookup, drop_lookup, lookup_delete_ne by done.
      cbn [ToAnalyzerTableInfo ti_Name]. rewrite bool_decide_eq_false_2 by congruence. now destruct (c !! k). }
    rewrite Er. reflexivity.
Qed.

(** *** The tables that are gone *)

Lemma drop_stale_lookup (names : list string) (c : Catalog) (k : string) : keyed c ->
  drop_stale names c !! k
  = match c !! k with
    | Some t => if ti_IsView t || bool_decide (k ∈ map ToUpper names) then Some t else None
    | None => None
    end.
Proof.
  intros Hc. unfold drop_stale, catalog_tables.
  set (step := fun (c : Catalog) (t : TableInfo) => if ti_IsView t then c
    else if bool_decide (ToUpper (ti_Name t) ∈ (list_to_set (map ToUpper names) : gset string)) then c
    else drop_quietly (ti_Name t) c).
  assert (G : forall (l : list (string * TableInfo)) (m : Catalog), Forall (fun kt => ToUpper (ti_Name kt.2) = kt.1) l ->
    fold_left step (map snd l) m !! k
    = if existsb (fun kt => (kt.1 =s k) && negb (ti_IsView kt.2 || bool_decide (k ∈ map ToUpper names))) l then None else m !! k).
  { induction l as [|[k' t] l IH]; intros m Hl; [reflexivity|]. apply Forall_cons in Hl as [Ht Hl]. cbn [map snd fst] in *.
    cbn [fold_left existsb fst snd]. rewrite IH by exact Hl. unfold step. destruct (existsb _ l); [now rewrite orb_true_r|].
    rewrite orb_false_r. destruct (ti_IsView t); cbn [orb negb]; [now rewrite andb_false_r|]. rewrite Ht.
    destruct (k' =s k) eqn:E; cbn [andb].
    - apply String.eqb_eq in E. subst k. case_bool_decide as E1; case_bool_decide as E2; cbn [negb].
      + reflexivity.
      + exfalso. apply E2. now apply elem_of_list_to_set in E1.
      + exfalso. apply E1. now apply elem_of_list_to_set.
      + rewrite drop_lookup, Ht. apply lookup_delete_eq.
    - apply String.eqb_neq in E. case_bool_decide; [reflexivity|]. rewrite drop_lookup, Ht. now apply lookup_delete_ne. }
  rewrite G.
  - destruct (c !! k) as [t|] eqn:E.
    + destruct (ti_IsView t || bool_decide (k ∈ map ToUpper names)) eqn:Eb.
      * destruct (existsb _ _) eqn:Ex; [|reflexivity]. apply existsb_exists in Ex as ([k' u] & Hin & [Ek Eu]%andb_true_iff).
        apply String.eqb_eq in Ek. cbn in *. subst k'. apply list_elem_of_In, elem_of_map_to_list in Hin. 
        assert (u = t) by congruence. subst u. now rewrite Eb in Eu.
      * destruct (existsb _ _) eqn:Ex; [reflexivity|]. exfalso. apply not_true_iff_false in Ex. apply Ex, existsb_exists.
        exists (k, t). split; [now apply list_elem_of_In, elem_of_map_to_list|]. cbn. now rewrite String.eqb_refl, Eb.
    + now destruct (existsb _ _).
  - apply Forall_forall. intros [k' t] Hin%elem_of_map_to_list. now apply Hc.
Qed.

Lemma drop_stale_keyed (names : list string) (c : Catalog) : keyed c -> keyed (drop_stale names c).
Proof.
  intros Hc k t. rewrite drop_stale_lookup by exact Hc. destruct (c !! k) eqn:E; [|discriminate].
  destruct (_ || _); [intros [= <-]; now apply Hc|discriminate].
Qed.

(** *** The virtual relations *)

Lemma register_lookup (name : string) (def : catalogRelationDef) (c : Catalog) (k : string) :
  register name def c !! k = c !! k ∪ register name def ∅ !! k.
Proof.
  unfold register, TableExists, catalog_table. rewrite lookup_empty. destruct (_ !! relation_key def) as [schema|].
  - destruct (c !! ToUpper name) eqn:E; rewrite !create_lookup, lookup_empty; cbn [ti_Name].
    + rewrite (left_id None _). case_bool_decide as Ek; [subst; now rewrite E|]. now destruct (c !! k).
    + now rewrite (left_id None _).
  - rewrite lookup_empty, (right_id None _). now destruct (c !! ToUpper name).
Qed.

Lemma first_of_three {A} (x y z : option A) : x ∪ (y ∪ z) = (x ∪ y) ∪ z.
Proof. now destruct x, y, z. Qed.

Lemma register_all_lookup (f : catalogRelationDef -> string) (defs : list catalogRelationDef) (c : Catalog) (k : string) :
  register_all f defs c !! k = c !! k ∪ register_all f defs ∅ !! k.
Proof.
  unfold register_all. revert c. induction defs as [|def defs IH]; intros c; cbn [fold_left].
  - rewrite lookup_empty. now rewrite (right_id None _).
  - rewrite IH, register_lookup, (IH (register _ _ ∅)). symmetry. apply first_of_three.
Qed.

(** The relations that are added to an empty catalogue. *)
Definition virtual : Catalog := registerCatalogRelations ∅.

Lemma virtual_lookup (c : Catalog) (k : string) : registerCatalogRelations c !! k = c !! k ∪ virtual !! k.
Proof.
  unfold virtual, registerCatalogRelations. rewrite !(register_all_lookup _ _ (register_all _ _ _)).
  rewrite (register_all_lookup qualified_name pgCatalogRelationDefs c). now rewrite !first_of_three.
Qed.

Lemma register_all_keyed (f : catalogRelationDef -> string) (defs : list catalogRelationDef) (c : Catalog) :
  keyed c -> keyed (register_all f defs c).
Proof.
  unfold register_all. revert c. induction defs as [|def defs IH]; intros c Hc; [exact Hc|]. cbn [fold_left]. apply IH.
  unfold register. destruct (TableExists c (f def)); [exact Hc|].
  destruct (_ !! relation_key def); [now apply create_keyed|exact Hc].
Qed.

Lemma registered_keyed (c : Catalog) : keyed c -> keyed (registerCatalogRelations c).
Proof. intros Hc. unfold registerCatalogRelations. now do 3 apply register_all_keyed. Qed.

#[local] Opaque registerCatalogRelations.

(** *** The whole *)

(** The table under a name, after the session's tables have been read: the schema that was read; where
    it could not be read, what the catalogue had; of the names that the session does not list, the views. *)
Definition synchronized (reads : list (string * option Schema)) (c : Catalog) (k : string) : option TableInfo :=
  match read_of reads k with
  | Some (Some schema) => Some (ToAnalyzerTableInfo schema)
  | Some None => c !! k
  | None => match c !! k with Some t => if ti_IsView t then Some t else None | None => None end
  end.

Lemma read_of_listed (reads : list (string * option Schema)) (k : string) :
  read_of reads k <> None <-> k ∈ map ToUpper (map fst reads).
Proof.
  unfold read_of. rewrite map_map, list_elem_of_In, in_map_iff. split.
  - intros Hr. destruct (find _ reads) as [x|] eqn:E; [|now destruct Hr]. apply find_some in E as [Hin Ex%String.eqb_eq]. eauto.
  - intros (x & Ex & Hin) Hr. destruct (find _ reads) as [y|] eqn:E; [discriminate|].
    apply (find_none _ _ E) in Hin. cbn in Hin. now rewrite Ex, String.eqb_refl in Hin.
Qed.

Lemma synchronized_lookup (reads : list (string * option Schema)) (c : Catalog) (k : string) : keyed c -> well_named reads ->
  drop_stale (map fst reads) (fold_left replaced reads c) !! k = synchronized reads c k.
Proof.
  intros Hc Hr. rewrite drop_stale_lookup by now apply replaced_keyed. rewrite replaced_lookup by exact Hr.
  unfold synchronized. pose proof (read_of_listed reads k) as Hl. destruct (read_of reads k) as [[schema|]|] eqn:E.
  - rewrite bool_decide_eq_true_2 by now apply Hl. now destruct (ti_IsView _).
  - rewrite bool_decide_eq_true_2 by now apply Hl. destruct (c !! k) as [t|]; [now rewrite orb_true_r|reflexivity].
  - rewrite bool_decide_eq_false_2 by (intros Hin; now apply Hl in Hin). destruct (c !! k) as [t|]; [now rewrite orb_false_r|reflexivity].
Qed.

(** C32: a synchronization of the analyzer's catalogue leaves exactly the tables that the session sees,
    inside a transaction those of the transaction: under each name the schema that the session reads,
    what the catalogue had where the schema cannot be read, nothing but views for a name that the
    session does not list, and the virtual relations under the names that are left.  The copy has the
    version of the session. *)
Theorem sync_exact (c c' : CatalogCopy) (s : Session) (w : World) (sw : Session * World) :
  keyed (cc_catalog c) -> SyncCatalog db c s w = (Done c', sw) ->
  exists names s1 w1 reads s2 w2,
    ListTables_s db s w = (Done names, (s1, w1))
    /\ read_schemas names s1 w1 = (Done reads, (s2, w2)) /\ map fst reads = names
    /\ versionLocked s2 w2 = (Done (cc_version c'), sw)
    /\ keyed (cc_catalog c')
    /\ (well_named reads -> forall k, cc_catalog c' !! k = synchronized reads (cc_catalog c) k ∪ virtual !! k).
Proof.
  intros Hc. unfold SyncCatalog, mbind, SM_bind.
  destruct (ListTables_s db s w) as [[names|e|] [s1 w1]]; [|discriminate..].
  destruct (sync_tables db (cc_catalog c) names s1 w1) as [[tables|e|] [s2 w2]] eqn:Et; [|discriminate..].
  apply sync_tables_read in Et as (reads & Er & -> & <-).
  destruct (versionLocked s2 w2) as [[v|e|] sw'] eqn:Ev; [|destruct sw'; discriminate..]. destruct sw' as [s3 w3]. cbn. intros [= <- <-].
  exists (map fst reads), s1, w1, reads, s2, w2. cbn [cc_version cc_catalog].
  do 4 (split; [try assumption; reflexivity|]). split.
  - now apply registered_keyed, drop_stale_keyed, replaced_keyed.
  - intros Hr k. now rewrite virtual_lookup, synchronized_lookup.
Qed.

(** Both synchronizations of a statement. *)
Definition synchronized_at (c2 : CatalogCopy) (sw : Session * World) : Prop :=
  exists c1 s1 w1, SyncCatalog db c1 s1 w1 = (Done c2, sw).

(** A statement that is refused because a table or a column is missing has been analyzed on a
    catalogue that was synchronized just before, in the state that the caller gets back, unless that
    synchronization failed. *)
Theorem misses_are_current (queries : list SelectStmt) (depth : nat) (stmt : Statement) (c c' : CatalogCopy)
    (e : analysis_error) (s : Session) (w : World) (sw : Session * World) :
  analyzeWithCatalogRetry db queries depth stmt c s w = (Done (Reject e, c'), sw) -> isCatalogMiss e = true ->
  (exists c2, synchronized_at c2 sw /\ analyze_copy queries depth stmt c2 = (Reject e, c'))
  \/ exists err s1 w1, SyncCatalog db c' s1 w1 = (Fail_ err, sw).
Proof.
  unfold analyzeWithCatalogRetry, mbind, SM_bind.
  destruct (versionLocked s w) as [[v|?|] [s1 w1]]; [|discriminate..].
  destruct ((if bool_decide (cc_version c = v) then mret c else SyncCatalog db c) s1 w1) as [[c1|?|] [s2 w2]]; [|discriminate..].
  destruct (analyze_copy queries depth stmt c1) as [[?|e1|] c2] eqn:E1; [discriminate| |discriminate].
  destruct (isCatalogMiss e1) eqn:Em; [|intros [= -> <- <-]; congruence].
  unfold attemptS. destruct (SyncCatalog db c2 s2 w2) as [[c3|err|] [s3 w3]] eqn:Es; [| |discriminate].
  - intros [= Ea <-] _. left. exists c3. split; [|exact Ea]. unfold synchronized_at. eauto.
  - intros [= -> -> <-] _. right. eauto.
Qed.
End SyncFacts.

(** The empty catalogue of a new executor is synchronized in a transaction. *)
Definition fresh_copy : CatalogCopy := mkCopy ∅ 0.
Definition synced : outcome error CatalogCopy * (Session * World) :=
  SyncCatalog "db" fresh_copy sample_session.1 sample_session.2.
Definition synced_copy : CatalogCopy := match synced.1 with Done c => c | _ => fresh_copy end.
Definition synced_reads : list (string * option Schema) :=
  match (read_schemas "db" ["t"] sample_session.1 sample_session.2).1 with Done l => l | _ => [] end.

Lemma sync_exact_witness :
  well_named synced_reads
  /\ exists names s1 w1 reads s2 w2,
       ListTables_s "db" sample_session.1 sample_session.2 = (Done names, (s1, w1))
       /\ read_schemas "db" names s1 w1 = (Done reads, (s2, w2)) /\ map fst reads = names
       /\ versionLocked s2 w2 = (Done (cc_version synced_copy), synced.2)
       /\ keyed (cc_catalog synced_copy)
       /\ (well_named reads -> forall k, cc_catalog synced_copy !! k = synchronized reads (cc_catalog fresh_copy) k ∪ virtual !! k).
Proof.
  split.
  - vm_compute. split; [apply NoDup_singleton | repeat constructor].
  - apply (sync_exact "db" fresh_copy synced_copy sample_session.1 sample_session.2 synced.2).
    + apply map_Forall_empty.
    + vm_compute. reflexivity.
Defined.

Definition drop_missing : Statement := StDropTable (mkDropTableStmt false [mkTableRef EmptyString "u" EmptyString None None None []]).
Definition missed : outcome error (answer () * CatalogCopy) * (Session * World) :=
  analyzeWithCatalogRetry "db" [] 0 drop_missing fresh_copy sample_session.1 sample_session.2.

Lemma misses_are_current_witness :
  (exists c2, synchronized_at "db" c2 missed.2
     /\ analyze_copy [] 0 drop_missing c2 = (Reject (Analysis (table_not_found "u")), synced_copy))
  \/ exists err s1 w1, SyncCatalog "db" synced_copy s1 w1 = (Fail_ err, missed.2).
Proof.
  apply (misses_are_current "db" [] 0 drop_missing fresh_copy synced_copy (Analysis (table_not_found "u"))
           sample_session.1 sample_session.2 missed.2).
  - vm_compute. reflexivity.
  - reflexivity.
Defined.
