(* ===== verification/AnalyzerFacts.v ===== *)
(** * Facts about the semantic analyzer

    An analysis ends, changes nothing but the scope that it fills, finds the aggregates that are there,
    and accepts only columns that the rows have.  The catalogue that it reads is the one of the session.
    At the end are statements that the analyzer judges as it does not mean to. *)
From Stdlib Require Import NArith ZArith Lia Bool Ascii String List.
From stdpp Require Import base option list gmap strings.
From S2P Require Import Prelude Token Ast Bytes RowCodec Float Values Schema ExecValue Arrays Operators Eval Aggregates Joins Select.
From S2P Require Import TableReads Analyzer EvalFacts JoinFacts PlanFacts CrossJoinFacts FromListFacts TableSelectFacts.
From S2P Require Lexer ParserMonad Statements.
#[local] Open Scope string_scope.
#[local] Set Warnings "-clear-no-such-hyp".

(** ** The shared queries that an analysis visits *)

Definition opt_list {A B} (f : A -> list B) (o : option A) : list B := match o with Some x => f x | None => [] end.

Fixpoint shared_refs (e : Expr) : list nat :=
  match e with
  | BinaryExpr l _ r | IsDistinctExpr l r _ | SubscriptExpr l r | AnyAllExpr l _ _ r => shared_refs l ++ shared_refs r
  | UnaryExpr _ e | IsNullExpr e _ | ParenExpr e | CastExpr e _ => shared_refs e
  | LikeExpr l _ r esc => shared_refs l ++ shared_refs r ++ match esc with Some x => shared_refs x | None => [] end
  | InExpr x _ values q =>
      shared_refs x ++ flat_map shared_refs values ++ match q with Some q => shared_select q | None => [] end
  | BetweenExpr x _ lo hi => shared_refs x ++ shared_refs lo ++ shared_refs hi
  | CaseExpr o whens els =>
      match o with Some x => shared_refs x | None => [] end ++ flat_map shared_when whens
      ++ match els with Some x => shared_refs x | None => [] end
  | FunctionCallExpr f => shared_call f
  | WindowExpr f p o => shared_call f ++ flat_map shared_refs p ++ flat_map shared_item o
  | ArrayExpr l => flat_map shared_refs l
  | SubqueryExpr q | ExistsExpr q => shared_select q
  | LiteralExpr _ _ | ColumnRef _ _ => []
  end
with shared_call (f : FunctionCall) : list nat :=
  match f with mkFunctionCall _ args _ _ => flat_map shared_refs args end
with shared_when (w : WhenClause) : list nat :=
  match w with mkWhenClause c r => shared_refs c ++ shared_refs r end
with shared_item (o : OrderByItem) : list nat := match o with mkOrderByItem e _ _ => shared_refs e end
with shared_column (c : SelectColumn) : list nat :=
  match c with mkSelectColumn (Some e) _ _ _ => shared_refs e | mkSelectColumn None _ _ _ => [] end
with shared_select (s : SelectStmt) : list nat :=
  match s with
  | mkSelectStmt _ cols from where_ groupBy having orderBy limit offset _ _ _ =>
      flat_map shared_table from ++ flat_map shared_column cols
      ++ match where_ with Some x => shared_refs x | None => [] end ++ flat_map shared_refs groupBy
      ++ match having with Some x => shared_refs x | None => [] end ++ flat_map shared_item orderBy
      ++ match limit with Some x => shared_refs x | None => [] end
      ++ match offset with Some x => shared_refs x | None => [] end
  end
with shared_table (t : TableRef) : list nat :=
  match t with
  | mkTableRef _ _ _ q j f _ =>
      match f with Some c => shared_call c | None => [] end
      ++ match q with Some (Inline s) => shared_select s | Some (Shared a) => [a] | None => [] end
      ++ match j with Some j => shared_join j | None => [] end
  end
with shared_join (j : JoinClause) : list nat :=
  match j with
  | mkJoinClause _ t cond _ => shared_table t ++ match cond with Some x => shared_refs x | None => [] end
  end.

(** ** What is closed under the steps of an analysis holds of the analysis

    [E] is a predicate of the analysis of an expression, [Q] one of a query. *)

Section Closed.
Variables E Q : forall A, AM A -> Prop.
Arguments E {A} _.
Arguments Q {A} _.
Hypothesis E_accept : forall A (a : A), E (accept a).
Hypothesis E_reject : forall A (e : analysis_error), E (fun s => (Reject e, s) : answer A * Analyzer).
Hypothesis E_read : forall A (f : Analyzer -> A), E (read_state f).
Hypothesis E_bind : forall A B (m : AM A) (k : A -> AM B), E m -> (forall a, E (k a)) -> E (m ≫= k).
Hypothesis E_attempt : forall A (m : AM A), E m -> E (attempt_ m).
Hypothesis E_within : forall A (f : Scope -> Scope) (m : AM A), Q m -> E (within f m).
Hypothesis Q_E : forall A (m : AM A), E m -> Q m.
Hypothesis Q_bind : forall A B (m : AM A) (k : A -> AM B), Q m -> (forall a, Q (k a)) -> Q (m ≫= k).
Hypothesis Q_define : forall t, Q (define t).
Hypothesis Q_aliases : forall aliases, Q (define_aliases aliases).

Variable queries : list SelectStmt.
Variable visit : nat -> AM ().

(** The visits at some addresses. *)
Definition visited (l : list nat) : Prop := forall a, In a l -> Q (visit a).

Lemma visited_app (l l' : list nat) : visited (l ++ l') -> visited l /\ visited l'.
Proof. intros Hv. split; intros a Ha; apply Hv, in_or_app; auto. Qed.

Lemma visited_cons {A} (f : A -> list nat) (x : A) (l : list A) :
  visited (flat_map f (x :: l)) -> visited (f x) /\ visited (flat_map f l).
Proof. apply visited_app. Qed.

Section Lists.
Context {A B : Type} (f : A -> AM B) (refs : A -> list nat).

(** The claim for every element of a list. *)
Definition all_of (P : A -> Prop) (H : forall x, P x) : forall l, Forall P l :=
  fix all l := match l with [] => Forall_nil_2 P | x :: r => Forall_cons_2 P x r (H x) (all r) end.

Lemma E_each (l : list A) :
  Forall (fun x => visited (refs x) -> E (f x)) l -> visited (flat_map refs l) -> E (each_ f l).
Proof. induction 1 as [|x l Hx _ IH]; cbn [each_]; [auto|]. intros [Hv Hl]%visited_cons. auto. Qed.

Lemma E_infos (l : list A) :
  Forall (fun x => visited (refs x) -> E (f x)) l -> visited (flat_map refs l) -> E (infos f l).
Proof. induction 1 as [|x l Hx _ IH]; cbn [infos]; [auto|]. intros [Hv Hl]%visited_cons. auto. Qed.

(** The claim for the value of an option. *)
Definition when_some (P : A -> Prop) (o : option A) : Prop := match o with Some x => P x | None => True end.

Lemma E_maybe (o : option A) : when_some (fun x => E (f x)) o -> E (maybe_ f o).
Proof. destruct o as [x|]; cbn [maybe_ when_some]; auto. Qed.

Lemma Q_each (l : list A) :
  Forall (fun x => visited (refs x) -> Q (f x)) l -> visited (flat_map refs l) -> Q (each_ f l).
Proof. induction 1 as [|x l Hx _ IH]; cbn [each_]; [auto|]. intros [Hv Hl]%visited_cons. auto. Qed.
End Lists.

(** *** The parts without recursion *)

Lemma E_column (t c : string) : E (analyzeColumnRef t c).
Proof. unfold analyzeColumnRef, column_missing, reject. apply E_bind; [auto|]. intros s. repeat case_match; auto. Qed.

Lemma E_checked (r : SqlType + AnalysisError) (k : SqlType -> ExprInfo) : E (checked_info r k).
Proof. destruct r; cbn [checked_info]; auto. Qed.

Lemma E_subscript (a i : ExprInfo) : E (subscript_info a i).
Proof. unfold subscript_info, reject. case_match; auto. Qed.

Lemma E_check_call (name : string) (n : Z) : E (check_call name n).
Proof. unfold check_call, reject. repeat case_match; auto. Qed.

Lemma Q_define_table (t : TableRef) : Q (define_table t).
Proof.
  unfold define_table, reject. apply Q_bind; [auto|]. intros s. case_match; [auto|]. apply Q_bind; [auto|]. intros c.
  case_match; auto.
Qed.

Lemma Q_define_function (t : TableRef) (name : string) : Q (define_function t name).
Proof. unfold define_function. case_match; auto. Qed.

Lemma E_table_star (name : string) : E (validateTableStar name).
Proof. unfold validateTableStar, reject. apply E_bind; [auto|]. intros s. case_match; auto. Qed.

Lemma E_using (name : string) : E (check_using name).
Proof. unfold check_using, reject. apply E_bind; [auto|]. intros s. case_match; auto. Qed.

(** *** The clauses of a query *)

Section Clauses.
Variable f : Expr -> AM ExprInfo.
Variable g : SelectColumn -> AM ExprInfo.

Lemma E_where (w : option Expr) : when_some (fun x => E (f x)) w -> E (analyze_where f w).
Proof.
  intros Hf. unfold analyze_where, no_aggregates, reject. apply E_bind; [now apply E_maybe|]. intros i.
  repeat case_match; auto.
Qed.

Lemma E_columns (cols : list SelectColumn) has aliases : Forall (fun c => E (g c)) cols -> E (select_columns g cols has aliases).
Proof.
  intros Hc. revert has aliases. induction Hc as [|c cols Hg _ IH]; intros has aliases; cbn [select_columns]; [auto|].
  case_match; [auto|]. case_match; [|auto]. apply E_bind; [apply E_table_star|auto].
Qed.

Lemma E_ungrouped (cols : list SelectColumn) : Forall (fun c => E (g c)) cols -> E (each_ (check_ungrouped g) cols).
Proof.
  induction 1 as [|c cols Hg _ IH]; cbn [each_]; [auto|]. apply E_bind; [|auto]. unfold check_ungrouped, reject.
  case_match; [auto|]. case_match; [auto|]. apply E_bind; [auto|]. intros i. repeat case_match; auto.
Qed.

Lemma E_having (o : option Expr) b : when_some (fun x => E (f x)) o -> E (analyze_having f o b).
Proof. intros Hf. unfold analyze_having, reject. apply E_bind; [now apply E_maybe|]. intros i. repeat case_match; auto. Qed.

Lemma E_bound w (o : option Expr) : when_some (fun x => E (f x)) o -> E (analyze_bound f w o).
Proof. intros Hf. unfold analyze_bound, reject. apply E_bind; [now apply E_maybe|]. intros i. repeat case_match; auto. Qed.
End Clauses.

(** *** The recursion *)

#[local] Ltac split_visited :=
  repeat match goal with H : visited (_ ++ _) |- _ => apply visited_app in H as [? ?] end.

(** A claim for the value of an option, by cases. *)
#[local] Ltac some := match goal with |- when_some _ ?o => destruct o; [cbn [when_some]|exact I] end.

(** Binds and leaves, down to the recursive calls, which [rec] proves for smaller arguments. *)
#[local] Ltac closed rec :=
  repeat first
    [ rec
    | apply E_column
    | apply E_accept
    | apply E_checked
    | apply E_subscript
    | apply E_attempt
    | progress intros
    | apply E_bind
    | apply E_maybe; some ].

Lemma expr_closed (e : Expr) : visited (shared_refs e) -> E (analyzeExpr queries visit e)
with call_closed (f : FunctionCall) : visited (shared_call f) -> E (analyzeFunctionCall queries visit f)
with when_closed (w : WhenClause) : visited (shared_when w) -> E (analyzeWhen queries visit w)
with item_closed (o : OrderByItem) : visited (shared_item o) -> E (analyzeOrderItem queries visit o)
with column_closed (c : SelectColumn) : visited (shared_column c) -> E (analyze_column queries visit c)
with select_closed (s : SelectStmt) : visited (shared_select s) -> Q (analyzeSelect queries visit s)
with table_closed (t : TableRef) : visited (shared_table t) -> Q (defineTableRef queries visit t)
with join_closed (j : JoinClause) : visited (shared_join j) -> Q (resolveJoin queries visit j).
Proof.
  - destruct e as [| | | |f|f part order| | |x not vs q| | | | | | | | | |]; cbn [analyzeExpr shared_refs]; intros Hv; split_visited;
      closed ltac:(first [ apply expr_closed; assumption | apply call_closed; assumption
                         | apply (E_infos _ shared_refs); [exact (all_of _ expr_closed _)|assumption]
                         | apply (E_infos _ shared_when); [exact (all_of _ when_closed _)|assumption]
                         | apply E_within, select_closed; assumption ]).
    + destruct f as [name args d s]. cbn [shared_call] in *.
      closed ltac:(first [ apply (E_each _ shared_refs); [exact (all_of _ expr_closed _)|assumption]
                         | apply (E_each _ shared_item); [exact (all_of _ item_closed _)|assumption] ]).
    + destruct q as [q|]; closed ltac:(apply E_within, select_closed; assumption).
  - destruct f as [name args d s]. cbn [analyzeFunctionCall shared_call]. intros Hv.
    apply E_bind; [apply E_check_call|]. intros sig.
    apply E_bind; [apply (E_infos _ shared_refs); [exact (all_of _ expr_closed _)|assumption]|]. intros l.
    case_match; [|apply E_accept]. destruct args as [|x args]; [apply E_accept|]. apply visited_cons in Hv as [Hx _].
    closed ltac:(apply expr_closed; exact Hx).
  - destruct w as [c r]. cbn [analyzeWhen shared_when]. intros Hv. split_visited.
    closed ltac:(apply expr_closed; assumption).
  - destruct o as [k d n]. exact (expr_closed k).
  - destruct c as [[e|] a s t]; [exact (expr_closed e)|]. intros _. apply E_accept.
  - destruct s as [d cols from w gb h ob lim off cmp ctes lk]. cbn [analyzeSelect shared_select]. intros Hv. split_visited.
    apply Q_bind.
    { apply (Q_each _ (fun _ => [])); [|intros a Ha; apply in_flat_map in Ha as (? & _ & []) ].
      exact (all_of _ (fun c _ => Q_define _) ctes). }
    intros _. apply Q_bind.
    { apply (Q_each _ shared_table); [|assumption].
      refine (all_of _ (fun t Ht => Q_bind _ _ _ _ (table_closed t Ht) (fun _ => _)) _).
      destruct t as [sc n a q [j|] f al]; cbn [tr_Join]; [|now apply Q_E]. apply join_closed. cbn [shared_table] in Ht. now split_visited. }
    intros _. unfold analyze_clauses.
    assert (Hg : Forall (fun c => E (analyze_column queries visit c)) cols).
    { match goal with H : visited (flat_map shared_column cols) |- _ => revert H end.
      generalize (all_of _ column_closed cols). clear. induction 1 as [|c cols Hc _ IH]; [constructor|].
      intros [? ?]%visited_cons. constructor; auto. }
    apply Q_bind; [apply Q_E, E_where; some; now apply expr_closed|]. intros _.
    apply Q_bind; [now apply Q_E, E_columns|]. intros [has aliases]. apply Q_bind; [apply Q_aliases|]. intros _.
    apply Q_E. apply E_bind; [apply (E_each _ shared_refs); [exact (all_of _ expr_closed _)|assumption]|]. intros _.
    apply E_bind; [destruct (has && _); [now apply E_ungrouped|apply E_accept]|]. intros _.
    apply E_bind; [apply E_having; some; now apply expr_closed|]. intros _.
    apply E_bind; [apply (E_each _ shared_item); [exact (all_of _ item_closed _)|assumption]|]. intros _.
    apply E_bind; [apply E_bound; some; now apply expr_closed|]. intros _.
    apply E_bound; some; now apply expr_closed.
  - destruct t as [sc n a q j [[name args d s]|] al]; cbn [defineTableRef shared_table shared_call]; intros Hv; split_visited.
    + apply Q_bind; [|intros _; apply Q_define_function]. apply Q_E, (E_each _ shared_refs); [exact (all_of _ expr_closed _)|assumption].
    + destruct q as [[s|addr]|].
      * apply Q_bind; [now apply select_closed|]. intros _. apply Q_bind; [apply Q_E, E_read|auto].
      * apply Q_bind; [|intros _; apply Q_bind; [apply Q_E, E_read|auto]].
        match goal with H : visited [addr] |- _ => apply H end. now left.
      * apply Q_define_table.
  - destruct j as [ty t cond names]. cbn [resolveJoin shared_join]. intros Hv. split_visited.
    apply Q_bind; [now apply table_closed|]. intros _.
    apply Q_bind; [apply Q_E, E_maybe; some; now apply expr_closed|]. intros _.
    apply Q_bind; [apply Q_E, (E_each _ (fun _ => [])); [|intros a Ha; apply in_flat_map in Ha as (? & _ & [])]|].
    { exact (all_of _ (fun n _ => E_using n) names). }
    intros _. destruct t as [sc n a q [j|] f al]; cbn [tr_Join]; [|now apply Q_E].
    apply join_closed. cbn [shared_table] in *. now split_visited.
Qed.
(** *** Statements, other than DROP TABLE *)

Definition shared_statement (s : Statement) : list nat :=
  match s with
  | StSelect q => shared_select q
  | StInsert s => flat_map (flat_map shared_refs) (ins_Values s) ++ opt_list shared_select (ins_Select s)
                  ++ flat_map shared_column (ins_Returning s)
  | StUpdate s => flat_map shared_table (upd_From s) ++ flat_map (fun a => shared_refs (as_Value a)) (upd_Set s)
                  ++ opt_list shared_refs (upd_Where s) ++ flat_map shared_column (upd_Returning s)
  | StDelete s => opt_list shared_refs (del_Where s) ++ flat_map shared_column (del_Returning s)
  | StCreateTable s => flat_map (fun d => opt_list shared_refs (cd_GeneratedExpr d)) (ct_Columns s)
  | _ => []
  end.

Lemma E_writable verb t (names : list string) : E (each_ (writable verb t) names).
Proof.
  apply (E_each _ (fun _ => [])); [|intros a (? & _ & [])%in_flat_map]. refine (all_of _ (fun n _ => _) names).
  unfold writable, reject. repeat case_match; auto.
Qed.

Lemma E_conflict t (names : list string) : E (each_ (conflict_column t) names).
Proof.
  apply (E_each _ (fun _ => [])); [|intros a (? & _ & [])%in_flat_map]. refine (all_of _ (fun n _ => _) names).
  unfold conflict_column, reject. repeat case_match; auto.
Qed.

Lemma E_target (name : string) : E (target_table name).
Proof. unfold target_table, reject. apply E_bind; [auto|]. intros c. case_match; auto. Qed.

Lemma E_exprs (l : list Expr) : visited (flat_map shared_refs l) -> E (each_ (analyzeExpr queries visit) l).
Proof. apply E_each, all_of, expr_closed. Qed.

Lemma E_where_closed (w : option Expr) : visited (opt_list shared_refs w) -> E (analyze_where (analyzeExpr queries visit) w).
Proof. intros Hv. apply E_where. destruct w; [now apply expr_closed|exact I]. Qed.

Lemma E_returning (l : list SelectColumn) : visited (flat_map shared_column l) -> E (analyzeReturning queries visit l).
Proof.
  apply E_each, all_of. intros [[e|] a s t] Hv; unfold returning_column; [|auto]. case_match; [auto|].
  apply E_bind; [now apply expr_closed|]. intros i. unfold no_aggregates, reject. case_match; auto.
Qed.

Lemma Q_resolve (l : list TableRef) : visited (flat_map shared_table l) -> Q (each_ (resolve_ref queries visit) l).
Proof.
  apply Q_each, all_of. intros t Hv. unfold resolve_ref. apply Q_bind; [now apply table_closed|]. intros _.
  destruct t as [sc n a q [j|] f al]; cbn [tr_Join]; [|auto]. apply join_closed. cbn [shared_table] in Hv. now split_visited.
Qed.

Lemma insert_closed (s : InsertStmt) : visited (shared_statement (StInsert s)) -> Q (analyzeInsert queries visit s).
Proof.
  cbn [shared_statement]. intros Hv. split_visited. unfold analyzeInsert. apply Q_bind; [apply Q_E, E_target|]. intros t.
  apply Q_bind; [apply Q_define|]. intros _. apply Q_bind; [apply Q_E, E_writable|]. intros _.
  apply Q_bind; [apply Q_E, E_conflict|]. intros _. apply Q_bind; [|intros _].
  - apply Q_E. destruct (ins_DefaultValues s); [auto|]. apply (E_each _ (flat_map shared_refs)); [|assumption].
    apply all_of. intros row Hr. unfold insert_row, reject. case_match; [now apply E_exprs|auto].
  - apply Q_bind; [|intros _; now apply Q_E, E_returning]. destruct (ins_Select s); [now apply select_closed|auto].
Qed.

Lemma update_closed (s : UpdateStmt) : visited (shared_statement (StUpdate s)) -> Q (analyzeUpdate queries visit s).
Proof.
  cbn [shared_statement]. intros Hv. split_visited. unfold analyzeUpdate. apply Q_bind; [apply Q_E, E_target|]. intros t.
  apply Q_bind; [apply Q_define|]. intros _. apply Q_bind; [now apply Q_resolve|]. intros _. apply Q_E.
  apply E_bind; [|intros _; apply E_bind; [now apply E_where_closed|intros _; now apply E_returning]].
  apply (E_each _ (fun a => shared_refs (as_Value a))); [|assumption]. apply all_of. intros a Ha. unfold assignment.
  apply E_bind; [|intros _; apply E_bind; [now apply expr_closed|auto]]. unfold writable, reject. repeat case_match; auto.
Qed.

Lemma delete_closed (s : DeleteStmt) : visited (shared_statement (StDelete s)) -> Q (analyzeDelete queries visit s).
Proof.
  cbn [shared_statement]. intros Hv. split_visited. unfold analyzeDelete. apply Q_bind; [apply Q_E, E_target|]. intros t.
  apply Q_bind; [apply Q_define|]. intros _. apply Q_E.
  apply E_bind; [now apply E_where_closed|intros _; now apply E_returning].
Qed.

Lemma E_new_columns table seen (defs : list ColumnDef) : E (new_columns table seen defs).
Proof.
  revert seen. induction defs as [|d r IH]; intros seen; cbn [new_columns]; unfold reject; [auto|]. case_match; auto.
Qed.

Lemma create_closed (s : CreateTableStmt) :
  visited (shared_statement (StCreateTable s)) -> Q (analyzeCreateTable queries visit s).
Proof.
  cbn [shared_statement]. intros Hv. unfold analyzeCreateTable, reject. apply Q_E, E_bind; [auto|]. intros c.
  case_match; [case_match; auto|]. apply E_bind; [apply E_new_columns|]. intros cols.
  apply (E_each _ (fun d => opt_list shared_refs (cd_GeneratedExpr d))); [|assumption]. apply all_of. intros d Hd.
  unfold generated_column. destruct (cd_GeneratedExpr d); [|auto].
  apply E_bind; [|auto]. now apply E_within, Q_E, expr_closed.
Qed.

Lemma statement_closed (s : Statement) : visited (shared_statement s) -> (forall d, s <> StDropTable d) ->
  Q (analyze_statement queries visit s).
Proof.
  intros Hv Hd. unfold analyze_statement, reject.
  destruct s; first [ now apply select_closed | now apply insert_closed | now apply update_closed | now apply delete_closed
                    | now apply create_closed | now apply Q_E | now destruct (Hd s) ].
Qed.
End Closed.

(** ** What an analysis changes

    The analysis of an expression changes nothing.  The analysis of a query fills the frame of the scope
    that it is in: the catalogue and the scopes around are as they were. *)

Definition stays {A} (m : AM A) : Prop := forall s, (m s).2 = s.
Definition fills {A} (m : AM A) : Prop :=
  forall s, catalog (m s).2 = catalog s /\ parent (scope (m s).2) = parent (scope s).

Lemma bind_case {A B} (m : AM A) (k : A -> AM B) (s : Analyzer) :
  (m ≫= k) s = match m s with
               | (Accept a, s) => k a s
               | (Reject e, s) => (Reject e, s)
               | (TooDeep, s) => (TooDeep, s)
               end.
Proof. reflexivity. Qed.

Lemma stays_bind {A B} (m : AM A) (k : A -> AM B) : stays m -> (forall a, stays (k a)) -> stays (m ≫= k).
Proof.
  intros Hm Hk s. rewrite bind_case. specialize (Hm s). destruct (m s) as [[a|e|] s']; cbn in *; subst; auto. apply Hk.
Qed.

Lemma fills_bind {A B} (m : AM A) (k : A -> AM B) : fills m -> (forall a, fills (k a)) -> fills (m ≫= k).
Proof.
  intros Hm Hk s. rewrite bind_case. specialize (Hm s). destruct (m s) as [[a|e|] s']; cbn in *; auto.
  destruct (Hk a s') as [-> ->]. exact Hm.
Qed.

Lemma stays_attempt {A} (m : AM A) : stays m -> stays (attempt_ m).
Proof. intros Hm s. unfold attempt_. specialize (Hm s). now destruct (m s) as [[] ?]. Qed.

Lemma stays_within {A} (f : Scope -> Scope) (m : AM A) : fills m -> stays (within f m).
Proof.
  intros Hm s. unfold within. specialize (Hm (mkAnalyzer (catalog s) (f (scope s)))). destruct (m _) as [r s']. cbn in *.
  destruct Hm as [-> _]. now destruct s.
Qed.

Lemma stays_fills {A} (m : AM A) : stays m -> fills m.
Proof. intros Hm s. now rewrite Hm. Qed.

Lemma fills_define (t : TableInfo) : fills (define t).
Proof. intros s. split; reflexivity. Qed.

Lemma fills_aliases (aliases : gmap string ExprInfo) : fills (define_aliases aliases).
Proof.
  intros s. cbn. split; [reflexivity|]. revert s. generalize (map_to_list aliases). intros l s. generalize (scope s).
  induction l as [|ai l IH]; intros sc; [reflexivity|]. cbn [fold_left]. now rewrite IH.
Qed.

Section Changes.
Variable queries : list SelectStmt.
Variable visit : nat -> AM ().
Hypothesis visit_fills : forall a, fills (visit a).

#[local] Ltac by_closure lem :=
  apply (lem (@stays) (@fills));
  first [ easy | exact @stays_bind | exact @stays_attempt | exact @stays_within | exact @stays_fills | exact @fills_bind
        | exact fills_define | exact fills_aliases | now intros ? ? ].

Lemma expr_stays (e : Expr) : stays (analyzeExpr queries visit e).
Proof. by_closure expr_closed. Qed.

Lemma select_fills (q : SelectStmt) : fills (analyzeSelect queries visit q).
Proof. by_closure select_closed. Qed.

Lemma table_fills (t : TableRef) : fills (defineTableRef queries visit t).
Proof. by_closure table_closed. Qed.

Lemma join_fills (j : JoinClause) : fills (resolveJoin queries visit j).
Proof. by_closure join_closed. Qed.
End Changes.

Lemma at_depth_fills (queries : list SelectStmt) (depth addr : nat) : fills (at_depth queries depth addr).
Proof. revert addr. induction depth as [|d IH]; intros addr; [easy|]. now apply select_fills. Qed.

(** ** Analyses end *)

Definition returns_at {A} (m : AM A) : Prop := forall s, (m s).1 <> TooDeep.

Lemma returns_at_bind {A B} (m : AM A) (k : A -> AM B) :
  returns_at m -> (forall a, returns_at (k a)) -> returns_at (m ≫= k).
Proof.
  intros Hm Hk s. rewrite bind_case. specialize (Hm s). destruct (m s) as [[a|e|] s']; cbn in *; [apply Hk|easy|easy].
Qed.

Lemma returns_at_attempt {A} (m : AM A) : returns_at m -> returns_at (attempt_ m).
Proof. intros Hm s. unfold attempt_. specialize (Hm s). now destruct (m s) as [[] ?]. Qed.

Lemma returns_at_within {A} (f : Scope -> Scope) (m : AM A) : returns_at m -> returns_at (within f m).
Proof.
  intros Hm s. unfold within. specialize (Hm (mkAnalyzer (catalog s) (f (scope s)))). now destruct (m _) as [r s'].
Qed.

Section Ends.
Variable queries : list SelectStmt.
Variable visit : nat -> AM ().

#[local] Ltac by_closure lem :=
  apply (lem (@returns_at) (@returns_at));
  first [ assumption | exact @returns_at_bind | exact @returns_at_attempt | exact @returns_at_within | easy ].

Lemma expr_ends (e : Expr) : (forall a, In a (shared_refs e) -> returns_at (visit a)) -> returns_at (analyzeExpr queries visit e).
Proof. intros Hv. by_closure expr_closed. Qed.

Lemma select_ends (q : SelectStmt) :
  (forall a, In a (shared_select q) -> returns_at (visit a)) -> returns_at (analyzeSelect queries visit q).
Proof. intros Hv. by_closure select_closed. Qed.

Lemma table_ends (t : TableRef) :
  (forall a, In a (shared_table t) -> returns_at (visit a)) -> returns_at (defineTableRef queries visit t).
Proof. intros Hv. by_closure table_closed. Qed.

Lemma join_ends (j : JoinClause) :
  (forall a, In a (shared_join j) -> returns_at (visit a)) -> returns_at (resolveJoin queries visit j).
Proof. intros Hv. by_closure join_closed. Qed.
End Ends.

(** Shared queries that refer to shared queries of a smaller rank. *)
Definition ranked (queries : list SelectStmt) (rank : nat -> nat) : Prop :=
  forall a b, In b (shared_select (query_of queries (Shared a))) -> rank b < rank a.

Lemma at_depth_ends (queries : list SelectStmt) (rank : nat -> nat) (depth addr : nat) :
  ranked queries rank -> rank addr < depth -> returns_at (at_depth queries depth addr).
Proof.
  intros Hr. revert addr. induction depth as [|d IH]; intros addr Ha; [lia|]. apply select_ends. intros b Hb. apply IH.
  specialize (Hr addr b Hb). lia.
Qed.

(** ** What an accepted expression is known to be *)

(** A computation accepts with a value in some state. *)
Definition yields {A} (m : AM A) (a : A) : Prop := exists s s', m s = (Accept a, s').

Lemma yields_bind {A B} (m : AM A) (k : A -> AM B) (b : B) :
  yields (m ≫= k) b -> exists a, yields m a /\ yields (k a) b.
Proof.
  intros (s & s' & E). rewrite bind_case in E. destruct (m s) as [[a|e|] s1] eqn:Em; try discriminate.
  exists a. split; [now exists s, s1|now exists s1, s'].
Qed.

Lemma yields_accept {A} (a b : A) : yields (accept a) b -> b = a.
Proof. now intros (s & s' & [= -> _]). Qed.

Lemma yields_infos {A B} (f : A -> AM B) (l : list A) (bs : list B) :
  yields (infos f l) bs -> Forall2 (fun x b => yields (f x) b) l bs.
Proof.
  revert bs. induction l as [|x l IH]; intros bs; cbn [infos].
  - intros ->%yields_accept. constructor.
  - intros (b & Hb & (bs' & Hbs & ->%yields_accept)%yields_bind)%yields_bind. constructor; auto.
Qed.

Lemma yields_maybe {A B} (f : A -> AM B) (o : option A) (r : option B) :
  yields (maybe_ f o) r ->
  match o, r with Some x, Some b => yields (f x) b | None, None => True | _, _ => False end.
Proof.
  destruct o as [x|]; cbn [maybe_]; [intros (b & Hb & ->%yields_accept)%yields_bind|intros ->%yields_accept]; easy.
Qed.

Lemma yields_checked (r : SqlType + AnalysisError) (k : SqlType -> ExprInfo) (i : ExprInfo) :
  yields (checked_info r k) i -> exists t, i = k t.
Proof. destruct r as [t|e]; cbn [checked_info]; [intros ->%yields_accept; eauto|now intros (s & s' & ?)]. Qed.

Lemma yields_subscript (a x i : ExprInfo) : yields (subscript_info a x) i -> ei_IsAggregate i = any_aggregate [a; x].
Proof. unfold subscript_info. case_match; [now intros ->%yields_accept|now intros (s & s' & ?)]. Qed.

Lemma yields_column (table column : string) (i : ExprInfo) : yields (analyzeColumnRef table column) i -> ei_IsAggregate i = false.
Proof.
  unfold analyzeColumnRef, column_missing, reject. intros (sc & _ & Hi)%yields_bind.
  destruct (LookupColumn sc table column) as [[c o]|]; [now apply yields_accept in Hi as ->|].
  destruct (is_empty_list _); [now apply yields_accept in Hi as ->|].
  destruct (isRowIDAlias column); [|now destruct Hi as (? & ? & ?)].
  destruct (_ && _); [now destruct Hi as (? & ? & ?)|now apply yields_accept in Hi as ->].
Qed.

(** *** Aggregates

    The executor has its own test for aggregates ([isAggregate]), which does not look into LIKE. *)

Fixpoint has_like (e : Expr) : bool :=
  match e with
  | LikeExpr _ _ _ _ => true
  | FunctionCallExpr (mkFunctionCall _ args _ _) => existsb has_like args
  | UnaryExpr _ e | ParenExpr e | CastExpr e _ | IsNullExpr e _ => has_like e
  | BinaryExpr l _ r | IsDistinctExpr l r _ | SubscriptExpr l r | AnyAllExpr l _ _ r => has_like l || has_like r
  | BetweenExpr x _ lo hi => has_like x || has_like lo || has_like hi
  | CaseExpr o whens els =>
      match o with Some x => has_like x | None => false end || existsb when_has_like whens
      || match els with Some x => has_like x | None => false end
  | ArrayExpr l => existsb has_like l
  | InExpr x _ values _ => has_like x || existsb has_like values
  | _ => false
  end
with when_has_like (w : WhenClause) : bool := match w with mkWhenClause c r => has_like c || has_like r end.

(** The aggregates of the table of functions are those of the executor. *)
Lemma aggregate_signatures : forallb (fun f => Bool.eqb (fs_IsAggregate f) (name_in (fs_Name f) aggregate_names)) builtinFunctions = true.
Proof. vm_compute. reflexivity. Qed.

Lemma lookup_aggregate (name : string) (sig : FunctionSignature) :
  LookupFunction name = Some sig -> fs_IsAggregate sig = isAggregateCallName name.
Proof.
  unfold LookupFunction, builtin. intros [Hin Hn%String.eqb_eq]%find_some.
  pose proof aggregate_signatures as H. rewrite forallb_forall in H. apply H, eqb_prop in Hin. now rewrite Hin, Hn.
Qed.

Lemma yields_check_call (name : string) (n : Z) (sig : FunctionSignature) :
  yields (check_call name n) sig -> fs_IsAggregate sig = isAggregateCallName name.
Proof.
  unfold check_call. destruct (LookupFunction name) as [f|] eqn:E; [|now intros (s & s' & ?)].
  case_match; [now intros (s & s' & ?)|]. case_match; [now intros (s & s' & ?)|]. intros ->%yields_accept.
  now apply lookup_aggregate.
Qed.

(** What the analysis says of aggregates, against the executor. *)
Definition agrees (like agg : bool) (found : bool) : Prop := (agg = true -> found = true) /\ (like = false -> found = agg).

Lemma agrees_or (l1 l2 a1 a2 f1 f2 : bool) : agrees l1 a1 f1 -> agrees l2 a2 f2 -> agrees (l1 || l2) (a1 || a2) (f1 || f2).
Proof. unfold agrees. destruct l1, l2, a1, a2, f1, f2; cbn; intuition congruence. Qed.

Lemma agrees_existsb {A} (f g : A -> bool) (l : list A) (is_ : list ExprInfo) :
  Forall2 (fun x i => agrees (f x) (g x) (ei_IsAggregate i)) l is_ ->
  agrees (existsb f l) (existsb g l) (any_aggregate is_).
Proof. induction 1 as [|x i l is_ Hx _ IH]; [now split|]. unfold any_aggregate in *. cbn [existsb]. now apply agrees_or. Qed.

Section Aggregates.
Variable queries : list SelectStmt.
Variable visit : nat -> AM ().

Definition told (e : Expr) : Prop :=
  forall i, yields (analyzeExpr queries visit e) i -> agrees (has_like e) (isAggregate e) (ei_IsAggregate i).

Lemma told_list (l : list Expr) (is_ : list ExprInfo) : Forall told l -> yields (infos (analyzeExpr queries visit) l) is_ ->
  agrees (existsb has_like l) (existsb isAggregate l) (any_aggregate is_).
Proof.
  intros Hl Hi%yields_infos. apply agrees_existsb. revert Hl. induction Hi; intros Hl; [constructor|].
  apply Forall_cons in Hl as [? ?]. constructor; auto.
Qed.

Lemma told_option (o : option Expr) (i : option ExprInfo) : opt_P told o -> yields (maybe_ (analyzeExpr queries visit) o) i ->
  agrees match o with Some x => has_like x | None => false end match o with Some x => isAggregate x | None => false end
    (any_aggregate (option_list i)).
Proof.
  intros Ho Hi%yields_maybe. destruct o as [x|], i as [i|]; try easy. cbn. rewrite orb_false_r. now apply Ho.
Qed.

Lemma told_whens (ws : list WhenClause) (is_ : list (ExprInfo * ExprInfo)) : Forall (when_P told) ws ->
  yields (infos (analyzeWhen queries visit) ws) is_ ->
  agrees (existsb when_has_like ws) (existsb when_has_aggregate ws) (existsb (fun w => any_aggregate [w.1; w.2]) is_).
Proof.
  intros Hl Hi%yields_infos. revert Hl. induction Hi as [|[c r] i ws is_ Hi _ IH]; intros Hl; [now split|].
  apply Forall_cons in Hl as [[Hc Hr] Hl]. cbn [existsb]. apply agrees_or; [|auto].
  cbn [analyzeWhen] in Hi. apply yields_bind in Hi as (ci & Hci & (ri & Hri & ->%yields_accept)%yields_bind). cbn.
  rewrite orb_false_r. apply agrees_or; auto.
Qed.

#[local] Ltac runs :=
  repeat match goal with
  | H : yields (_ ≫= _) _ |- _ => apply yields_bind in H as (? & ? & H)
  | H : yields (accept _) _ |- _ => apply yields_accept in H as ->
  | H : yields (checked_info _ _) _ |- _ => apply yields_checked in H as [? ->]
  | H : yields (subscript_info _ _) _ |- _ => rewrite (yields_subscript _ _ _ H); clear H
  end.

#[local] Ltac joined := cbn [ei_IsAggregate any_aggregate existsb boolean_info array_info case_info] in *;
  rewrite ?orb_false_r, ?orb_assoc; repeat apply agrees_or; auto using told_list, told_option, told_whens.

Lemma call_told (name : string) (args : list Expr) d s : Forall told args ->
  told (FunctionCallExpr (mkFunctionCall name args d s)).
Proof.
  intros Ha i H. cbn [analyzeExpr analyzeFunctionCall] in H. apply yields_bind in H as (sig & Hs & H).
  apply yields_bind in H as (l & Hl & H).
  assert (Ei : ei_IsAggregate i = ei_IsAggregate (call_info sig l)).
  { destruct (_ && _); [destruct args|]; runs; auto. now destruct x. }
  rewrite Ei. cbn [call_info ei_IsAggregate has_like isAggregate call_has_aggregate].
  rewrite (yields_check_call _ _ _ Hs). apply (agrees_or false); [now split|]. now apply told_list.
Qed.

Lemma expr_told (e : Expr) : told e.
Proof.
  induction e using expr_sub_ind; try (intros i Hi; cbn [analyzeExpr has_like isAggregate] in *;
    unfold analyze_binary, analyze_unary in *; runs; solve [joined | now split]).
  - intros i ->%yields_accept. destruct ty; now split.
  - intros i Hi. cbn [analyzeExpr] in Hi. now rewrite (yields_column _ _ _ Hi).
  - now apply call_told.
  - intros i Hi. destruct f. cbn [analyzeExpr] in Hi. runs. now split.
Qed.
End Aggregates.

(** *** Columns *)

(** A reference that the analyzer lets pass: a column of the scope, the hidden row id, or any column where
    the scope has no tables of its own. *)
Definition passes_as (s : Scope) (ref : string * string) : Prop :=
  LookupColumn s ref.1 ref.2 <> None \/ scope_tables s = [] \/ isRowIDAlias ref.2 = true.

(** A computation accepts and leaves the state as it is. *)
Definition accepts {A} (s : Analyzer) (m : AM A) (a : A) : Prop := m s = (Accept a, s).

Lemma accepts_bind {A B} (s : Analyzer) (m : AM A) (k : A -> AM B) (b : B) :
  stays m -> accepts s (m ≫= k) b -> exists a, accepts s m a /\ accepts s (k a) b.
Proof.
  unfold accepts. intros Hm E. rewrite bind_case in E. specialize (Hm s). destruct (m s) as [[a|e|] s1]; try discriminate.
  cbn in Hm. subst. eauto.
Qed.

Lemma accepts_infos {A B} (s : Analyzer) (f : A -> AM B) (l : list A) (bs : list B) : (forall x, stays (f x)) ->
  accepts s (infos f l) bs -> Forall2 (fun x b => accepts s (f x) b) l bs.
Proof.
  intros Hf. assert (Hs : forall l, stays (infos f l)).
  { clear l bs. induction l as [|x l IH]; cbn [infos]; [easy|]. apply stays_bind; [auto|]. intros b.
    now apply stays_bind. }
  revert bs. induction l as [|x l IH]; intros bs; cbn [infos]; [now intros [= <-]|].
  intros (b & Hb & H)%accepts_bind; [|auto]. apply accepts_bind in H as (bs' & Hbs & [= <-]); [|auto]. constructor; auto.
Qed.

Lemma stays_infos {A B} (f : A -> AM B) (l : list A) : (forall x, stays (f x)) -> stays (infos f l).
Proof.
  intros Hf. induction l as [|x l IH]; cbn [infos]; [easy|]. apply stays_bind; [auto|]. intros b. now apply stays_bind.
Qed.

Lemma stays_maybe {A B} (f : A -> AM B) (o : option A) : (forall x, stays (f x)) -> stays (maybe_ f o).
Proof. destruct o; cbn [maybe_]; [|easy]. intros Hf. apply stays_bind; [auto|easy]. Qed.

Lemma accepts_maybe {A B} (s : Analyzer) (f : A -> AM B) (o : option A) (r : option B) : (forall x, stays (f x)) ->
  accepts s (maybe_ f o) r -> match o with Some x => exists b, accepts s (f x) b | None => True end.
Proof. destruct o; cbn [maybe_]; [|easy]. intros Hf (b & Hb & _)%accepts_bind; eauto. Qed.

Lemma accepts_column (s : Analyzer) (table column : string) (i : ExprInfo) :
  accepts s (analyzeColumnRef table column) i -> passes_as (scope s) (table, column).
Proof.
  unfold accepts, passes_as, analyzeColumnRef, column_missing, reject. rewrite bind_case.
  change (read_state scope s) with (Accept (scope s), s). cbv iota beta. cbn [fst snd].
  destruct (LookupColumn (scope s) table column); [intros _; now left|].
  destruct (scope_tables (scope s)); [intros _; right; now left|].
  cbn [is_empty_list]. destruct (isRowIDAlias column); [intros _; right; now right|discriminate].
Qed.

Section Columns.
Variable queries : list SelectStmt.
Variable visit : nat -> AM ().
Hypothesis visit_fills : forall a, fills (visit a).
Variable s : Analyzer.

Abbreviation analysis := (analyzeExpr queries visit).

Definition columns_pass (e : Expr) : Prop :=
  forall i, accepts s (analysis e) i -> Forall (passes_as (scope s)) (collectTableColumnRefs e).

Lemma when_stays (w : WhenClause) : stays (analyzeWhen queries visit w).
Proof. destruct w as [c r]. cbn [analyzeWhen]. apply stays_bind; [now apply expr_stays|]. intros ci. now apply stays_bind; [apply expr_stays|]. Qed.

Lemma list_passes (l : list Expr) (is_ : list ExprInfo) : Forall columns_pass l -> accepts s (infos analysis l) is_ ->
  Forall (passes_as (scope s)) (flat_map collectTableColumnRefs l).
Proof.
  intros Hl Hi%accepts_infos; [|intros; now apply expr_stays]. revert Hl.
  induction Hi as [|x i l is_ Hi _ IH]; intros Hl; [constructor|]. apply Forall_cons in Hl as [Hx Hl].
  apply Forall_app. split; eauto.
Qed.

Lemma option_passes (o : option Expr) (r : option ExprInfo) : opt_P columns_pass o -> accepts s (maybe_ analysis o) r ->
  Forall (passes_as (scope s)) match o with Some x => collectTableColumnRefs x | None => [] end.
Proof.
  intros Ho Hi%accepts_maybe; [|intros; now apply expr_stays]. destruct o; [|constructor]. destruct Hi as [i Hi]. eauto.
Qed.

Lemma whens_pass (ws : list WhenClause) (is_ : list (ExprInfo * ExprInfo)) : Forall (when_P columns_pass) ws ->
  accepts s (infos (analyzeWhen queries visit) ws) is_ -> Forall (passes_as (scope s)) (flat_map when_refs ws).
Proof.
  intros Hl Hi%accepts_infos; [|exact when_stays]. revert Hl.
  induction Hi as [|[c r] i ws is_ Hi _ IH]; intros Hl; [constructor|]. apply Forall_cons in Hl as [[Hc Hr] Hl].
  cbn [flat_map when_refs]. apply Forall_app. split; [|auto]. cbn [analyzeWhen] in Hi.
  apply accepts_bind in Hi as (ci & Hci & Hi); [|now apply expr_stays].
  apply accepts_bind in Hi as (ri & Hri & _); [|now apply expr_stays]. apply Forall_app. split; eauto.
Qed.

#[local] Ltac steps :=
  repeat match goal with
  | H : accepts s (_ ≫= _) _ |- _ =>
      apply accepts_bind in H as (? & ? & H);
      [|first [ now apply expr_stays | apply stays_infos; intros; first [now apply expr_stays|apply when_stays]
              | apply stays_maybe; intros; now apply expr_stays ] ]
  end.

Lemma expr_passes (e : Expr) : columns_pass e.
Proof.
  induction e using expr_sub_ind; try solve [intros i Hi; cbn [analyzeExpr collectTableColumnRefs] in *;
    steps; rewrite ?Forall_app; repeat split; eauto using list_passes, option_passes, whens_pass].
  - intros i Hi. constructor; [|constructor]. eapply accepts_column. exact Hi.
  - intros i Hi. cbn [collectTableColumnRefs call_refs analyzeExpr analyzeFunctionCall] in *.
    apply accepts_bind in Hi as (sig & _ & Hi).
    + apply accepts_bind in Hi as (l & Hl & _); [|apply stays_infos; intros; now apply expr_stays]. eauto using list_passes.
    + intros st. unfold check_call, reject. repeat case_match; reflexivity.
Qed.
End Columns.

(** ** Accepted columns are columns of the rows *)

Lemma upper_ascii (s : string) : ascii_text s = true -> ToUpper s = ascii_upper s.
Proof.
  induction s as [|c s IH]; [easy|]. intros [Hc Hs]%andb_true_iff. destruct s as [|d s]; [reflexivity|].
  rewrite upper_three, (not_ascii c (Prelude.byte 0xC5)), (not_ascii c (Prelude.byte 0xC4)) by easy.
  cbn [andb]. now rewrite (IH Hs).
Qed.

Lemma lower_upper (c : ascii) : lower_byte (upper_byte c) = lower_byte c.
Proof. destruct c as [[] [] [] [] [] [] [] []]; reflexivity. Qed.

Lemma lower_upper_text (s : string) : ascii_lower (ascii_upper s) = ascii_lower s.
Proof. induction s as [|c s IH]; [reflexivity|]. cbn. now rewrite lower_upper, IH. Qed.

(** ASCII names that are equal in upper case are equal but for case. *)
Lemma upper_fold (a b : string) : ascii_text a = true -> ascii_text b = true -> ToUpper a = ToUpper b -> EqualFold a b = true.
Proof.
  intros Ha Hb E. rewrite !upper_ascii in E by assumption. apply equal_fold_ascii; [assumption..|].
  now rewrite <- (lower_upper_text a), <- (lower_upper_text b), E.
Qed.

Lemma after_last_dot (x y k k' : string) : is_qualified k = false -> is_qualified k' = false ->
  x ++ String "." k = y ++ String "." k' -> k = k'.
Proof.
  intros Hk Hk'. revert y. induction x as [|c x IH]; intros [|d y]; cbn.
  - now intros [= ->].
  - intros [= _ ->]. now rewrite qualified_dot in Hk.
  - intros [= _ <-]. now rewrite qualified_dot in Hk'.
  - intros [= _ E]. now apply (IH y).
Qed.

Lemma fold_after_dot (a q k c : string) : EqualFold (qualify a k) (qualify q c) = true ->
  is_qualified k = false -> is_qualified c = false -> EqualFold k c = true.
Proof.
  unfold EqualFold, qualify. rewrite !String.eqb_eq.
  change (a ++ "." ++ k) with (a ++ String "." k). change (q ++ "." ++ c) with (q ++ String "." c). rewrite !fold_dot.
  intros E Hk Hc. apply (after_last_dot _ _ _ _ ) in E; now rewrite ?fold_keeps_dots.
Qed.

Section Rows.
Context `{Foreign}.
Variable env : Env.

(** The value of a column is found under any qualifier, where no row is around. *)
Lemma found_in_view (t : TableRef) (r : Row) (q c : string) (w : val) :
  outerRow env = None -> plain_row r -> rowColumnValue r c = Some w -> find_column env q c (view t r) = Some w.
Proof.
  intros Ho Hr Hw. pose proof (view_column t r c w Hr Hw) as Hv. unfold find_column. rewrite Ho.
  destruct (q =s EmptyString); [now rewrite Hv, !some_union|]. rewrite !none_union.
  change (q ++ "." ++ c)%string with (qualify q c).
  destruct (rowColumnValue (view t r) (qualify q c)) as [w'|] eqn:E; [|now rewrite !none_union, Hv, some_union].
  rewrite !some_union. f_equal. apply named_column in E as (k & Hk & Ek). destruct (named_column r c w Hw) as (k0 & Hk0 & Ek0).
  pose proof Hr as [Hu Hn]. unfold view in Hk.
  destruct (tr_Alias t =s EmptyString); [|assert (Hk1 : is_Some (addTableAlias r (tr_Alias t) !! k)) by eauto].
  - apply fold_qualified in Ek. rewrite qualify_qualified in Ek. pose proof (Hu k w' Hk) as Hf. cbn in Hf. congruence.
  - apply alias_keys in Hk1; [|exact Hu]. destruct Hk1 as [[x Hx]|(k1 & [x Hx] & ->)].
    + pose proof (Hu k x Hx) as Hf. cbv beta in Hf. cbn in Hf. apply fold_qualified in Ek. rewrite qualify_qualified in Ek. congruence.
    + pose proof (Hu k1 x Hx) as Hf. cbn in Hf. rewrite (proj2 (alias_lookup _ r k1 Hu Hf)) in Hk.
      apply fold_after_dot in Ek; [|exact Hf|now rewrite <- (fold_qualified _ _ Ek0), (Hu k0 w Hk0)].
      assert (k1 = k0) as ->; [|congruence]. apply Hn; [now split; eauto..|]. now apply (EqualFold_via _ _ c).
Qed.
End Rows.

(** *** A query over one table *)

(** The scope of the columns of one table. *)
Definition table_scope (t : TableRef) (info : TableInfo) : Scope :=
  DefineTable (mkTableInfo (tr_Name t) (ti_Columns info) (tr_Alias t) (ti_IsView info)) (NewScope None).

Lemma accepted_bind {A B} (m : AM A) (k : A -> AM B) (s : Analyzer) (b : B) :
  ((m ≫= k) s).1 = Accept b -> exists a, (m s).1 = Accept a /\ (k a (m s).2).1 = Accept b.
Proof. rewrite bind_case. destruct (m s) as [[a|e|] s1]; cbn; [eauto|discriminate..]. Qed.

Lemma stays_accepts {A} (m : AM A) (s : Analyzer) (a : A) : stays m -> (m s).1 = Accept a -> accepts s m a.
Proof. intros Hm E. unfold accepts. specialize (Hm s). destruct (m s). cbn in *. now subst. Qed.

Section Single.
Variable queries : list SelectStmt.
Variable visit : nat -> AM ().
Hypothesis visit_fills : forall a, fills (visit a).

Lemma column_stays (c : SelectColumn) : stays (analyze_column queries visit c).
Proof. destruct c as [[e|] a s t]; [now apply expr_stays|easy]. Qed.

Lemma star_stays (name : string) : stays (validateTableStar name).
Proof. intros s. unfold validateTableStar, reject. rewrite bind_case. cbn. now case_match. Qed.

Lemma where_stays (w : option Expr) : stays (analyze_where (analyzeExpr queries visit) w).
Proof.
  unfold analyze_where, no_aggregates, reject. apply stays_bind; [apply stays_maybe; intros; now apply expr_stays|].
  intros i. repeat case_match; easy.
Qed.

Lemma projection_stays (cols : list SelectColumn) has aliases :
  stays (select_columns (analyze_column queries visit) cols has aliases).
Proof.
  revert has aliases. induction cols as [|x l IH]; intros has al; [easy|]. cbn [select_columns].
  case_match; [auto|]. case_match; apply stays_bind; auto using star_stays, column_stays.
Qed.

(** The expressions of a projection that is accepted are. *)
Lemma columns_accepted (s : Analyzer) (cols : list SelectColumn) has aliases r :
  accepts s (select_columns (analyze_column queries visit) cols has aliases) r ->
  Forall (fun c => sc_star c = false -> sc_table c = EmptyString ->
            exists i, accepts s (analyze_column queries visit c) i) cols.
Proof.
  revert has aliases. induction cols as [|c cols IH]; intros has aliases; [constructor|]. cbn [select_columns].
  destruct (sc_star c) eqn:Es; [intros Hr; constructor; [congruence|eauto]|].
  destruct (sc_table c =s EmptyString) eqn:Et; cbn [negb].
  - intros (i & Hi & Hr)%accepts_bind; [|apply column_stays]. constructor; eauto.
  - apply String.eqb_neq in Et. intros (u & _ & Hr)%accepts_bind; [|apply star_stays]. constructor; [congruence|eauto].
Qed.

(** The references of the condition and of the projection. *)
Definition query_refs (q : SelectStmt) : list (string * string) :=
  opt_list collectTableColumnRefs (sel_Where q)
  ++ flat_map (fun c => match c with mkSelectColumn (Some e) _ false EmptyString => collectTableColumnRefs e | _ => [] end)
       (sel_Columns q).

Lemma select_eq (q : SelectStmt) : analyzeSelect queries visit q =
  (_ ← each_ (fun c => define (cteTableInfo c)) (sel_With q);
   _ ← each_ (resolve_ref queries visit) (sel_From q);
   analyze_clauses (analyzeExpr queries visit) (analyze_column queries visit) (sel_Columns q) (sel_Where q) (sel_GroupBy q)
     (sel_Having q) (each_ (analyzeOrderItem queries visit) (sel_OrderBy q)) (sel_Limit q) (sel_Offset q)).
Proof. now destruct q. Qed.

Lemma single_passes (q : SelectStmt) (t : TableRef) (info : TableInfo) (c : Catalog) :
  sel_From q = [t] -> sel_With q = [] -> t = mkTableRef EmptyString (tr_Name t) (tr_Alias t) None None None [] ->
  c !! ToUpper (tr_Name t) = Some info ->
  (analyzeSelect queries visit q (mkAnalyzer c (NewScope None))).1 = Accept () ->
  Forall (passes_as (table_scope t info)) (query_refs q).
Proof.
  intros Ef Ew Et Hc E. rewrite select_eq, Ef, Ew in E. cbn [each_] in E.
  apply accepted_bind in E as ([] & _ & E). cbn [accept mret AM_ret snd] in E. set (s1 := mkAnalyzer c (table_scope t info)).
  assert (Er : (each_ (resolve_ref queries visit) [t]) (mkAnalyzer c (NewScope None)) = (Accept (), s1)).
  { subst s1. destruct t as [sc n a q0 j f al]. injection Et as -> -> -> -> ->. cbn [tr_Name] in Hc. cbn [each_].
    unfold resolve_ref. rewrite !bind_case. cbn [defineTableRef tr_Join]. unfold define_table. rewrite bind_case. cbn -[lookup].
    rewrite lookup_empty. rewrite bind_case. cbn -[lookup]. unfold catalog_table. now rewrite Hc. }
  apply accepted_bind in E as ([] & _ & E). change (_ ← resolve_ref queries visit t; accept ()) with (each_ (resolve_ref queries visit) [t]) in E.
  rewrite Er in E. cbn [snd] in E. unfold analyze_clauses in E.
  apply accepted_bind in E as ([] & Hw & E). pose proof (where_stays (sel_Where q) s1) as Es. rewrite Es in E.
  apply stays_accepts in Hw; [|apply where_stays]. apply accepted_bind in E as (r & Hcols & _).
  apply Forall_app. split.
  - unfold analyze_where in Hw. apply accepts_bind in Hw as (i & Hi & _); [|apply stays_maybe; intros; now apply expr_stays].
    apply accepts_maybe in Hi; [|intros; now apply expr_stays]. destruct (sel_Where q) as [w|]; [|constructor].
    destruct Hi as [j Hj]. exact (expr_passes queries visit visit_fills s1 w j Hj).
  - apply stays_accepts in Hcols.
    + apply columns_accepted in Hcols. apply List.Forall_forall. intros ref Hin. apply in_flat_map in Hin as (col & Hcol & Hin).
      rewrite List.Forall_forall in Hcols. specialize (Hcols col Hcol). destruct col as [[e|] a [] []]; try easy.
      destruct (Hcols eq_refl eq_refl) as [i Hi]. pose proof (expr_passes queries visit visit_fills s1 e i Hi) as Hp.
      rewrite List.Forall_forall in Hp. auto.
    + apply projection_stays.
Qed.
End Single.

Lemma add_columns_lookup (cols : list ColumnInfo) (m : gmap string ColumnInfo) (k : string) :
  is_Some (add_columns cols m !! k) <-> is_Some (m !! k) \/ exists c, In c cols /\ ToUpper (ai_Name c) = k.
Proof.
  unfold add_columns. revert m. induction cols as [|c cols IH]; intros m; cbn [fold_left In].
  - split; [auto|]. intros [?|(? & [] & _)]; auto.
  - rewrite IH, lookup_insert_is_Some'. split.
    + intros [[Ec|Hm]|(x & Hx & Ex)]; eauto 6.
    + intros [Hm|(x & [->|Hx] & Ex)]; eauto.
Qed.

Lemma get_column_in (t : TableInfo) (name : string) (c : ColumnInfo) :
  ti_IsView t = false -> GetColumn t name = Some c -> In c (ti_Columns t) /\ ToUpper (ai_Name c) = ToUpper name.
Proof. unfold GetColumn. intros ->. now intros [? ?%String.eqb_eq]%find_some. Qed.

Lemma table_scope_column (t : TableRef) (info : TableInfo) (q c : string) : ti_IsView info = false ->
  LookupColumn (table_scope t info) q c <> None -> exists k, In k (ti_Columns info) /\ ToUpper (ai_Name k) = ToUpper c.
Proof.
  intros Hv Hl. set (known := mkTableInfo (tr_Name t) (ti_Columns info) (tr_Alias t) (ti_IsView info)) in *.
  assert (Ht : forall k x, tables (table_scope t info) !! k = Some x -> x = known).
  { intros k x. unfold table_scope, DefineTable. fold known. cbn [tables NewScope ti_Alias ti_Name].
    destruct (ti_Alias known =s EmptyString); rewrite !lookup_insert_Some, ?lookup_empty; intuition congruence. }
  assert (Hg : forall x, GetColumn known c = Some x -> exists k, In k (ti_Columns info) /\ ToUpper (ai_Name k) = ToUpper c).
  { intros x Hx. exists x. exact (get_column_in known c x Hv Hx). }
  unfold LookupColumn in Hl. destruct (q =s EmptyString).
  - assert (Hcol : columns (table_scope t info) !! ToUpper c <> None ->
      exists k, In k (ti_Columns info) /\ ToUpper (ai_Name k) = ToUpper c).
    { intros Hn%not_eq_None_Some. unfold table_scope, DefineTable in Hn. cbn [columns] in Hn. apply add_columns_lookup in Hn.
      destruct Hn as [[x Hx]|Hn]; [|exact Hn]. discriminate Hx. }
    destruct (table_scope t info) as [p tb cl] eqn:Es. cbn [lookup_unqualified columns tables] in *.
    assert (Ep : p = None) by (unfold table_scope, DefineTable in Es; now injection Es as <- _ _). subst p.
    destruct (cl !! ToUpper c); [now apply Hcol|]. destruct (tables_with c tb) as [|[x u] l] eqn:Ew; [done|].
    assert (Hin : (x, u) ∈ tables_with c tb) by (rewrite Ew; left).
    apply list_elem_of_omap in Hin as ([k y] & Hy%elem_of_map_to_list & Hx). cbn in Hx. rewrite (Ht k y Hy) in Hx.
    destruct (GetColumn known c) as [z|] eqn:Eg; [|discriminate]. now apply (Hg z).
  - destruct (LookupTable (table_scope t info) q) as [u|] eqn:Eu; [|done].
    assert (u = known) as ->.
    { apply (Ht (ToUpper q)). unfold table_scope, DefineTable in *. cbn [LookupTable tables] in *. now destruct (_ !! _). }
    cbn in Hl. destruct (GetColumn known c) as [z|] eqn:Eg; [|done]. now apply (Hg z).
Qed.

Lemma table_scope_tables (t : TableRef) (info : TableInfo) : scope_tables (table_scope t info) <> [].
Proof.
  unfold scope_tables. destruct (map_to_list (tables (table_scope t info))) as [|[k x] l] eqn:E; [|now cbn].
  apply map_to_list_empty_iff in E. exfalso. unfold table_scope, DefineTable in E. cbn [tables ti_Alias ti_Name] in E.
  destruct (tr_Alias t =s EmptyString); now apply insert_non_empty in E.
Qed.

(** C31: Every column that an accepted query over one table reads in its condition and in its projection is a column
    of the table or its hidden row id; in a row with the columns of the table the evaluator finds its value, whatever
    the qualifier.  A column that is not found would be NULL without an error. *)
Theorem accepted_columns_found `{Foreign} (env : Env) (queries : list SelectStmt) (depth : nat) (q : SelectStmt)
    (t : TableRef) (schema : Schema) (c : Catalog) (r : Row) :
  sel_From q = [t] -> sel_With q = [] -> t = mkTableRef EmptyString (tr_Name t) (tr_Alias t) None None None [] ->
  catalog_table c (tr_Name t) = Some (ToAnalyzerTableInfo schema) ->
  (Analyze queries depth (StSelect q) c).1 = Accept () ->
  outerRow env = None -> plain_row r -> (forall col, In col (Columns schema) -> is_Some (r !! col_Name col)) ->
  Forall (fun col => ascii_text (col_Name col) = true) (Columns schema) ->
  Forall (fun ref => ascii_text ref.2 = true -> isRowIDAlias ref.2 = false ->
      exists col v, In col (Columns schema) /\ EqualFold (col_Name col) ref.2 = true /\ r !! col_Name col = Some v
                    /\ find_column env ref.1 ref.2 (view t r) = Some v)
    (query_refs q).
Proof.
  intros Ef Ew Et Hc Ha Ho Hr Hcols Hascii. unfold Analyze in Ha. cbn [analyze_statement] in Ha.
  pose proof (single_passes queries (at_depth queries depth) (at_depth_fills queries depth) q t _ c Ef Ew Et Hc) as Hp.
  destruct (analyzeSelect queries (at_depth queries depth) q (mkAnalyzer c (NewScope None))) as [a s]. specialize (Hp Ha).
  eapply List.Forall_impl; [|exact Hp]. intros [qual name] Href Hn Hid. cbn [fst snd] in *.
  destruct Href as [Hl|[Hl|Hl]]; [|now apply table_scope_tables in Hl|cbn [snd] in Hl; congruence].
  apply table_scope_column in Hl as (k & Hk & Ek); [|reflexivity]. cbn [ti_Columns ToAnalyzerTableInfo] in Hk.
  apply in_map_iff in Hk as (col & <- & Hcol). cbn [ai_Name] in Ek. destruct (Hcols col Hcol) as [v Hv].
  rewrite List.Forall_forall in Hascii. pose proof (upper_fold _ _ (Hascii col Hcol) Hn Ek) as Ef'.
  exists col, v. split; [exact Hcol|]. split; [exact Ef'|]. split; [exact Hv|]. apply found_in_view; [exact Ho|exact Hr|].
  rewrite (resolved_value (fun _ => false) (fun _ _ _ => eq_refl) r (col_Name col) name); [exact Hv|apply Hr|now split; eauto|exact Ef'].
Qed.

(** ** Aggregates, as the analyzer and the executor see them *)

(** C33: An expression that the executor takes for an aggregate is one for the analyzer; where no LIKE occurs the two
    tests agree. *)
Theorem aggregates_agree (queries : list SelectStmt) (visit : nat -> AM ()) (e : Expr) (s s' : Analyzer) (i : ExprInfo) :
  analyzeExpr queries visit e s = (Accept i, s') ->
  (isAggregate e = true -> ei_IsAggregate i = true) /\ (has_like e = false -> ei_IsAggregate i = isAggregate e).
Proof. intros E. apply (expr_told queries visit e i). now exists s, s'. Qed.

(** ** Analyses end, and what they do to the catalogue *)

Lemma Analyze_parts queries depth stmt c :
  Analyze queries depth stmt c =
  let r := analyze_statement queries (at_depth queries depth) stmt (mkAnalyzer c (NewScope None)) in (r.1, catalog r.2).
Proof. unfold Analyze. now destruct (analyze_statement _ _ _ _). Qed.

Definition drop_names (names : list string) (c : Catalog) : Catalog := fold_left (fun c n => delete (ToUpper n) c) names c.

(** Each table is there when its turn comes, or a missing one is no error. *)
Definition droppable (ifExists : bool) (dropped : list string) (c : Catalog) : Prop :=
  forall pre n post, dropped = (pre ++ n :: post)%list -> is_Some (drop_names pre c !! ToUpper n) \/ ifExists = true.

Lemma droppable_cons (ifExists : bool) (n : string) (dropped : list string) (c : Catalog) :
  is_Some (c !! ToUpper n) \/ ifExists = true -> droppable ifExists dropped (delete (ToUpper n) c) ->
  droppable ifExists (n :: dropped) c.
Proof. intros Hn Hd [|p pre] m post [= <- E]; [exact Hn|]. exact (Hd pre m post E). Qed.

(** How a DROP TABLE is judged: the tables before the first missing one are gone. *)
Definition dropped_until (d : DropTableStmt) (c : Catalog) (r : answer ()) (c' : Catalog) : Prop :=
  exists dropped rest, map tr_Name (dt_Tables d) = (dropped ++ rest)%list /\ c' = drop_names dropped c /\
    droppable (dt_IfExists d) dropped c /\
    match r with
    | Accept _ => rest = []
    | Reject e => dt_IfExists d = false /\ exists n rest', rest = n :: rest' /\ e = Analysis (table_not_found n)
                  /\ drop_names dropped c !! ToUpper n = None
    | TooDeep => False
    end.

Lemma drops (ifExists : bool) (l : list TableRef) (s : Analyzer) :
  let m := each_ (drop_one ifExists) l s in
  exists dropped rest, map tr_Name l = (dropped ++ rest)%list /\ catalog m.2 = drop_names dropped (catalog s) /\
    droppable ifExists dropped (catalog s) /\
    match m.1 with
    | Accept _ => rest = []
    | Reject e => ifExists = false /\ exists n rest', rest = n :: rest' /\ e = Analysis (table_not_found n)
                  /\ drop_names dropped (catalog s) !! ToUpper n = None
    | TooDeep => False
    end.
Proof.
  revert s. induction l as [|t l IH]; intros s; cbv zeta; cbn [each_]; [exists [], []; repeat split; now intros []|]. rewrite !bind_case.
  assert (Ed : drop_one ifExists t s = match catalog s !! ToUpper (tr_Name t) with
    | Some _ => (Accept (), mkAnalyzer (delete (ToUpper (tr_Name t)) (catalog s)) (scope s))
    | None => if ifExists then (Accept (), s) else (Reject (Analysis (table_not_found (tr_Name t))), s)
    end) by (unfold drop_one, catalog_drop; now destruct (_ !! _)).
  rewrite Ed. clear Ed. destruct (catalog s !! ToUpper (tr_Name t)) as [x|] eqn:E.
  - destruct (IH (mkAnalyzer (delete (ToUpper (tr_Name t)) (catalog s)) (scope s))) as (d & rest & El & Ec & Ed & Er).
    exists (tr_Name t :: d), rest. cbn [map app]. rewrite El. split; [reflexivity|]. split; [exact Ec|]. split; [|exact Er].
    apply droppable_cons; [left; eauto|exact Ed].
  - destruct ifExists.
    + destruct (IH s) as (d & rest & El & Ec & Ed & Er). exists (tr_Name t :: d), rest. cbn [map app drop_names fold_left].
      rewrite El, (delete_id _ _ E). split; [reflexivity|]. split; [exact Ec|]. split; [|exact Er].
      apply droppable_cons; [now right|]. now rewrite (delete_id _ _ E).
    + exists [], (map tr_Name (t :: l)). cbn. split; [reflexivity|]. split; [reflexivity|]. split; [now intros []|]. eauto 6.
Qed.

(** C34: Analysis changes the catalogue in DROP TABLE only, where it takes away the tables before the first that is
    missing, and fails exactly when there is one and IF EXISTS is not given: every table that is taken away was there
    when its turn came, or IF EXISTS is given; a table that is named twice is missing the second time. *)
Theorem catalogue_effect (queries : list SelectStmt) (depth : nat) (s : Statement) (c : Catalog) :
  let a := Analyze queries depth s c in
  match s with StDropTable d => dropped_until d c a.1 a.2 | _ => a.2 = c end.
Proof.
  cbv zeta. rewrite Analyze_parts. cbv zeta. cbn [fst snd].
  assert (Hn : (forall d, s <> StDropTable d) ->
    catalog (analyze_statement queries (at_depth queries depth) s (mkAnalyzer c (NewScope None))).2 = c).
  { intros Hd. apply (statement_closed (@stays) (@fills)); try easy; try exact @stays_bind; try exact @stays_attempt;
      try exact @stays_within; try exact @stays_fills; try exact @fills_bind; try exact fills_define; try exact fills_aliases.
    intros a _. apply at_depth_fills. }
  destruct s; try (apply Hn; discriminate). apply drops.
Qed.

(** C35: The analysis of a statement ends: the depth is not used up when each shared query refers to shared queries of a
    smaller rank only, and the depth is above the ranks of those that the statement refers to. *)
Theorem analysis_ends (queries : list SelectStmt) (rank : nat -> nat) (depth : nat) (s : Statement) (c : Catalog) :
  ranked queries rank -> (forall a, In a (shared_statement s) -> rank a < depth) ->
  (Analyze queries depth s c).1 <> TooDeep.
Proof.
  intros Hr Hs. rewrite Analyze_parts. cbv zeta. cbn [fst].
  assert (Hc : (exists d, s = StDropTable d) \/ forall d, s <> StDropTable d)
    by (destruct s; first [left; eexists; reflexivity | right; discriminate]).
  destruct Hc as [[d ->]|Hd].
  - pose proof (drops (dt_IfExists d) (dt_Tables d) (mkAnalyzer c (NewScope None))) as (dr & rest & _ & _ & _ & Er).
    cbn [analyze_statement]. unfold analyzeDropTable. now destruct (each_ _ _ _).1.
  - apply (statement_closed (@returns_at) (@returns_at)); try easy; try exact @returns_at_bind;
      try exact @returns_at_attempt; try exact @returns_at_within.
    intros a Ha. apply (at_depth_ends queries rank); auto.
Qed.

(** ** Runs *)

Section Runs.
#[local] Existing Instance no_foreign.
#[local] Existing Instance no_builtins.
#[local] Existing Instance stock_reads.
#[local] Existing Instance ParserMonad.lexer_source.
#[local] Existing Instance table_relations.
#[local] Existing Instance table_tables.
#[local] Existing Instance stock_sources.

(** The tables of the sample for the analyzer. *)
Definition stock_catalog : Catalog :=
  fold_left (fun c n => match tb_schema n with Ok s => <[ToUpper n := ToAnalyzerTableInfo s]> c | _ => c end)
    ["city"; "road"; "tag"] ∅.

Definition judge (sql : string) : option (answer ()) :=
  match Statements.parse_source Statements.Parse sql with
  | ParserMonad.Ok s p => Some (Analyze (ParserMonad.queries p) 3 s stock_catalog).1
  | _ => None
  end.

Definition accepted (sql : string) : Prop := judge sql = Some (Accept ()).
Definition rejected (sql : string) (t : ErrorType) (message : string) : Prop :=
  judge sql = Some (Reject (Analysis (mkAnalysisError t message))).

(** *** Witnesses *)

(** SELECT r.id FROM road r WHERE R.src = 1 AND dst = 3 *)
Definition checked_query : SelectStmt :=
  mkSelectStmt false [mkSelectColumn (Some (ColumnRef "r" "id")) EmptyString false EmptyString] [entry "road" "r"]
    (Some road_where) [] None [] None None None [] None.

Lemma accepted_columns_found_witness :
  (Analyze [] 0 (StSelect checked_query) stock_catalog).1 = Accept ()
  /\ Forall (fun ref => ascii_text ref.2 = true -> isRowIDAlias ref.2 = false ->
       exists col v, In col (Columns road_schema) /\ EqualFold (col_Name col) ref.2 = true
         /\ road 2 1 3 !! col_Name col = Some v
         /\ find_column no_env ref.1 ref.2 (view (entry "road" "r") (road 2 1 3)) = Some v) (query_refs checked_query).
Proof.
  split; [vm_compute; reflexivity|].
  apply (accepted_columns_found no_env [] 0 checked_query (entry "road" "r") road_schema stock_catalog).
  - reflexivity.
  - reflexivity.
  - reflexivity.
  - vm_compute. reflexivity.
  - vm_compute. reflexivity.
  - reflexivity.
  - apply road_plain.
  - intros col [<-|[<-|[<-|[]]]]; eexists; reflexivity.
  - repeat constructor.
Defined.

(** COUNT of all rows, and one more *)
Definition count_and_one : Expr :=
  BinaryExpr (FunctionCallExpr (mkFunctionCall "COUNT" [] false true)) TokenPlus (LiteralExpr TokenNumber "1").

Lemma aggregates_agree_witness :
  exists i s, (analyzeExpr [] (fun _ => too_deep) count_and_one (mkAnalyzer ∅ (NewScope None)) = (Accept i, s)
  /\ (isAggregate count_and_one = true -> ei_IsAggregate i = true)
  /\ (has_like count_and_one = false -> ei_IsAggregate i = isAggregate count_and_one)).
Proof.
  eexists _, _. split; [vm_compute; reflexivity|].
  apply (aggregates_agree [] (fun _ => too_deep) count_and_one (mkAnalyzer ∅ (NewScope None))
           (mkAnalyzer ∅ (NewScope None))). vm_compute. reflexivity.
Defined.

(** WITH a AS (SELECT id FROM city), b AS (SELECT id FROM a) SELECT id FROM b, after the substitution *)
Definition select_id (from : TableRef) : SelectStmt :=
  mkSelectStmt false [mkSelectColumn (Some (ColumnRef EmptyString "id")) EmptyString false EmptyString] [from]
    None [] None [] None None None [] None.
Definition derived (name : string) (addr : nat) : TableRef :=
  mkTableRef EmptyString EmptyString name (Some (Shared addr)) None None [].
Definition two_queries : list SelectStmt := [select_id (entry "city" EmptyString); select_id (derived "a" 0)].

Lemma analysis_ends_witness :
  (Analyze two_queries 2 (StSelect (select_id (derived "b" 1))) stock_catalog).1 = Accept ()
  /\ (Analyze two_queries 2 (StSelect (select_id (derived "b" 1))) stock_catalog).1 <> TooDeep.
Proof.
  split; [vm_compute; reflexivity|].
  apply (analysis_ends two_queries (fun a => a) 2 (StSelect (select_id (derived "b" 1))) stock_catalog).
  - intros a b Hb. destruct a as [|[|a]]; cbn in Hb; [easy|destruct Hb as [<-|[]]; lia|easy].
  - intros a [<-|[]]. lia.
Defined.

(** Columns that do not exist are NULL where no scope is checked: in the operands of a set operation, and in a query over
    a derived table, where the tables of the derived table stay in scope. *)
Theorem names_not_checked :
  accepted "SELECT nosuch FROM city UNION SELECT 1"
  /\ stock_query "SELECT nosuch FROM city UNION SELECT 1" = Ok (["nosuch"], [[VNil]; [Int 1]])
  /\ accepted "SELECT rank FROM (SELECT id AS a FROM city) x"
  /\ stock_query "SELECT rank FROM (SELECT id AS a FROM city) x" = Ok (["rank"], [[VNil]; [VNil]; [VNil]])
  /\ accepted "SELECT (SELECT nosuch) FROM city"
  /\ rejected "SELECT nosuch FROM city" ErrColumnNotFound "column not found: nosuch".
Proof. vm_compute. auto 6. Qed.

(** A column of several tables is not reported as ambiguous; it is the one of the last table. *)
Theorem ambiguity_not_reported :
  accepted "SELECT id FROM city a, road b WHERE b.id = 2"
  /\ stock_query "SELECT id FROM city a, road b WHERE b.id = 2" = Ok (["id"], [[Int 2]; [Int 2]; [Int 2]]).
Proof. vm_compute. auto. Qed.

(** The sign of a column of a derived table is refused, its difference from zero is not. *)
Theorem sign_of_derived_refused :
  rejected "SELECT -a AS n FROM (SELECT id AS a FROM city) x" ErrTypeMismatch "unary - requires numeric type, got ANY"
  /\ accepted "SELECT 0 - a AS n FROM (SELECT id AS a FROM city) x"
  /\ stock_query "SELECT -a AS n FROM (SELECT id AS a FROM city) x" = Ok (["n"], [[Int (-1)]; [Int (-2)]; [Int (-3)]])
  /\ rejected "SELECT id FROM city LIMIT (SELECT 1)" ErrTypeMismatch "LIMIT must be numeric".
Proof. vm_compute. auto. Qed.

(** An aggregate in a LIKE is one for the analyzer and none for the executor: one row for each row of the table. *)
Theorem aggregate_in_like :
  accepted "SELECT name LIKE MAX(name) AS l FROM city"
  /\ rejected "SELECT name LIKE MAX(name) AS l, name FROM city" ErrNonAggregateInSelect
       ("column " ++ goquote "name" ++ " must appear in GROUP BY clause or be in an aggregate function")
  /\ stock_query "SELECT name LIKE MAX(name) AS l FROM city" = Ok (["l"], [[Bool true]; [Bool true]; [Bool true]]).
Proof. vm_compute. auto. Qed.

(** A column in parentheses may stand beside an aggregate; then it is the one of the first row. *)
Theorem parentheses_hide_a_column :
  rejected "SELECT MAX(id) AS m, name AS n FROM city" ErrNonAggregateInSelect
    ("column " ++ goquote "name" ++ " must appear in GROUP BY clause or be in an aggregate function")
  /\ accepted "SELECT MAX(id) AS m, (name) AS n FROM city"
  /\ stock_query "SELECT MAX(id) AS m, (name) AS n FROM city" = Ok (["m"; "n"], [[Int 3; Text "Pisa"]]).
Proof. vm_compute. auto. Qed.

(** The assignments of ON CONFLICT DO UPDATE are not analyzed. *)
Theorem upsert_not_analyzed :
  accepted "INSERT INTO city (id) VALUES (1) ON CONFLICT (id) DO UPDATE SET nosuch = nosuch2".
Proof. vm_compute. reflexivity. Qed.

(** The function GLOB has a value but no signature. *)
Theorem glob_function_refused :
  rejected "SELECT GLOB('a*', 'abc') AS f" ErrInvalidFunction "unknown function: GLOB"
  /\ stock_query "SELECT GLOB('a*', 'abc') AS f" = Ok (["f"], [[Bool true]]).
Proof. vm_compute. auto. Qed.
End Runs.

(** ** Functions without a value *)

(** Functions with a signature that the evaluator does not know. *)
Definition bodiless : list string := ["LTRIM"; "RTRIM"; "CEIL"; "FLOOR"; "MOD"; "IIF"; "QUOTE"; "CAST"].

(** None of the tables of the evaluator has such a name. *)
Lemma not_listed (name : string) : In name bodiless ->
  ToUpper name = name /\ (name =s "PIZZASQL_PARAM") = false /\ (name =s "ARRAY_LENGTH") = false
  /\ name_in name jsonb_functions = false /\ name_in name json_functions = false
  /\ name_in name catalog_functions = false /\ name_in name date_functions = false.
Proof. intros [<-|[<-|[<-|[<-|[<-|[<-|[<-|[<-|[]]]]]]]]]; vm_compute; auto 8. Qed.

Lemma no_value `{Builtins} (env : Env) (name : string) (args : list Expr) (d s : bool) (vs : list val) :
  In name bodiless -> function_values env (mkFunctionCall name args d s) vs = Ok VNil.
Proof.
  intros Hn. destruct (not_listed name Hn) as (Eu & Ep & Ea & Ej & Es & Ec & Ed). unfold function_values.
  rewrite Eu, Ep, Ej, Es, Ec, Ed, Ea. destruct Hn as [<-|[<-|[<-|[<-|[<-|[<-|[<-|[<-|[]]]]]]]]]; reflexivity.
Qed.

(** The analyzer accepts calls of LTRIM, RTRIM, CEIL, FLOOR, MOD, IIF and QUOTE, and the evaluator gives NULL for
    every one of them whose arguments have values. *)
Theorem functions_without_value `{Builtins} (env : Env) (name : string) (args : list Expr) (d s : bool) (row : option Row)
    (vs : list val) :
  In name bodiless -> mapE (fun e => evalExpr env e row) args = Ok vs ->
  (exists sig, LookupFunction name = Some sig /\ fs_IsAggregate sig = false)
  /\ evalExpr env (FunctionCallExpr (mkFunctionCall name args d s)) row = Ok VNil.
Proof.
  intros Hn Hv. split.
  - destruct Hn as [<-|[<-|[<-|[<-|[<-|[<-|[<-|[<-|[]]]]]]]]]; (eexists; split; [vm_compute; reflexivity|reflexivity]).
  - rewrite eval_call, Hv. unfold mbind, ev_bind. cbv beta iota. now apply no_value.
Qed.

Section NoFunctions.
#[local] Existing Instance no_foreign.
#[local] Existing Instance no_builtins.

Lemma functions_without_value_witness :
  evalExpr no_env (FunctionCallExpr (mkFunctionCall "FLOOR" [LiteralExpr TokenNumber "2"] false false)) None = Ok VNil.
Proof.
  apply (functions_without_value no_env "FLOOR" [LiteralExpr TokenNumber "2"] false false None [Int 2]).
  - cbn. auto.
  - vm_compute. reflexivity.
Defined.
End NoFunctions.

(** ** Types *)

Lemma common_type_comm (a b : SqlType) : CommonType a b = CommonType b a.
Proof. now destruct a, b. Qed.

Lemma comparable_sym (a b : SqlType) : IsComparable a b = IsComparable b a.
Proof. now destruct a, b. Qed.

(** The type of a CASE depends on the order of its branches. *)
Lemma common_type_order :
  CommonType (CommonType TypeJSONB TypeText) TypeInteger = TypeText
  /\ CommonType TypeJSONB (CommonType TypeText TypeInteger) = TypeJSONB.
Proof. now split. Qed.
